(* ===== verification/_CoqProject ===== *)
-Q . S2P
Prelude.v
Codec.v
Text.v
Lattice.v
Hlc.v
Conflict.v
Crdt.v
SyncProtocol.v
Rpc.v
Checksum.v
Journal.v
Env.v
JournalDb.v
PersistentJournal.v
ApplyBatch.v
Double.v
SyncEngine.v
Ingress.v
Raft.v
HostPort.v
NodeId.v
RoutingTable.v
ValueStore.v
DhtMessage.v
Balancer.v
JsonValue.v
Headers.v
ModelRegistry.v
ErrorPolicy.v
Except.v
Utf8.v
PayloadNormalizer.v
RequestPlan.v
Sessions.v
SessionRepo.v
HttpBridge.v
Fernet.v
TokenStore.v
Accounts.v
Pricing.v
RoutingStore.v
StickyAffinity.v
Routing.v
Table.v
ApiKeys.v
ApiKeyFilter.v
KeysController.v
IpAddress.v
Firewall.v
Decompression.v
AsyncExecutor.v
HttpRuntime.v
ProxyServer.v
Settlement.v
ChatRequest.v
ChatResponse.v
Usage.v
AccountTraffic.v
ServiceHelpers.v
Service.v
ServiceLaws.v
Totp.v
SettingsRepo.v
SettingsController.v
DashboardAuth.v
OAuthProvider.v
OAuthService.v
TokenRefresh.v
WsPayload.v
WsProxy.v
UpstreamTransport.v
BridgePool.v
RaftStorage.v
RequestLogs.v
AccountsController.v
SqlImport.v
