(* ===== verification/Prelude.v ===== *)
(** * Tightrope: a verification library for the native runtime

    Tightrope is a proxy for OpenAI-compatible accounts whose nodes share their
    state: an Electron application drives a native C++ runtime
    (src/native) that proxies requests, keeps accounts and keys in SQLite and
    replicates them to its peers.  This library models three parts of that
    runtime and proves what each of them guarantees: the replication core,
    from the bytes a peer sends to the rows of the journal, the data types and
    clocks it merges with, the consensus layer with its store and the
    peer-to-peer directory; the path of a proxied request, from the socket it
    arrives on through the firewall, the key gate and the policies of keys to
    the plan that is sent upstream, the account that serves it, the connection
    it is sent on, the sessions that keep a conversation together and the
    tables accounts, tokens and keys live in; and its administration, signing
    in to the dashboard, its settings, and signing accounts in and keeping
    their tokens fresh.  Definitions keep the names of the sources and follow
    them branch by branch; log lines are left out.

    ** The parts and how they interact

    A peer's bytes reach [Ingress] (transport/replication_ingress.cpp), which
    reassembles frames with the bounded queue of [Rpc]
    (transport/rpc_channel.cpp).  The first frame must be a handshake, decoded
    and authenticated by [SyncProtocol] (sync_protocol.cpp); every later batch
    frame goes to [SyncEngine] (sync_engine.cpp), which checks size limits, the
    in-flight budgets shared by all connections, the handshake again, the rate
    limit of the peer, decodes the batch with [SyncProtocol] and hands it to
    [ApplyBatch] (sync_engine.cpp: build_batch, apply_batch and
    recompute_checksums).  [ApplyBatch] accepts the tables [Conflict]
    (conflict_resolver.cpp) declares replicated and the checksums [Checksum]
    (checksum.cpp) computes, and writes the journal table in one transaction.
    [PersistentJournal] (persistent_journal.cpp) reads and writes that table for
    the local node, and [Journal] (journal.cpp) is the same journal kept in
    memory.  Entries are stamped by [Hlc] (hlc.cpp); [Conflict] decides which
    stamp wins a row and [Crdt] (crdt/*.h) merges the columns that are
    conflict-free.  [Raft] (consensus/) holds the replicated log, the voting
    membership and the routing of writes; [RaftStorage]
    (nuraft_backend_storage*.cpp, nuraft_backend_state*.cpp) is where the node
    keeps its log, its vote and what it committed.  [HostPort] (core/net), [NodeId],
    [RoutingTable], [ValueStore] and [DhtMessage] (p2p/src/dht) are the
    directory peers are found through.  [Text] (core/text), [Env] (the
    environment parsers), [Double] (core/time/ewma.h, core/math) and [Codec]
    (what the three wire formats share) serve the others.  

    A client's request meets [ProxyServer] (server_routes.cpp): the switch of
    the proxy, [Firewall] (firewall_filter.cpp, firewall_repo.cpp, over the
    addresses of [IpAddress]), the key gate of [ApiKeyFilter]
    (api_key_filter.cpp) on the tables of [ApiKeys] (api_key_repo_*.cpp,
    kept with [Table]) that [KeysController] (keys_controller.cpp) administers,
    [Decompression] (decompression.cpp), the policy of its key and a
    reservation of usage ([Settlement] proves that it is settled); the answer
    is written at once or by a task of [AsyncExecutor] (async_executor.cpp),
    with the helpers of [HttpRuntime].  What the controllers then call is the
    class [ProxyService], whose parts follow.

    The body is cleaned by [Utf8], parsed (the JSON library is the
    class [JsonCodec] of [JsonValue]) and brought into its contract by
    [PayloadNormalizer] (proxy/openai/payload_normalizer*.cpp); [RequestPlan]
    (upstream_request_plan.cpp) turns it into a plan with the headers of
    [Headers] (upstream_headers.cpp) and the transport of [ModelRegistry]
    (model_registry.cpp, stream_transport.cpp).  [HttpBridge] (http_bridge.cpp)
    continues earlier conversations, in memory and in the table of
    [SessionRepo] (session_repo.cpp).  [StickyAffinity] (sticky_affinity.cpp)
    chooses the account: its statements on the table of [Accounts]
    (account_repo.cpp) are in [RoutingStore], the prices it compares in
    [Pricing] (cost_calculator.cpp and its overrides), its strategies those of
    [Balancer] (balancer/), and [Routing] proves what the whole guarantees.
    Tokens are kept through [TokenStore] (token_store.cpp) in the boxes of
    [Fernet] (fernet.cpp).  [ErrorPolicy] (proxy_error_policy.cpp) reads the
    answer and decides whether to try again; [Sessions] holds the sessions kept
    in memory (session_bridge.cpp, sticky_resolver.cpp, session_manager.cpp).
    [ChatRequest] and [ChatResponse] (chat_completions_service.cpp) translate
    chat completions into these requests and their event streams back into
    chunks and completions.  [Service] (proxy_service.cpp) puts these parts
    together, one flow for each kind of request: it opens a turn with the
    credentials of an account, sends the plan, and refreshes, rewrites, retries
    or fails over by the answer, with the decisions of [ServiceHelpers]
    (proxy_service_helpers.cpp); its flows are the body of what [ProxyService]
    abstracts.  [Usage] (usage_fetcher.cpp) asks for the limits of an account
    and caches them, and [AccountTraffic] (account_traffic.cpp) counts the bytes
    each account moves.  A websocket of a client is served by [WsProxy]
    (ws_proxy.cpp) in the same world: [WsPayload] reads what is in a frame, and
    the frame is answered as a request or passed on.  What a plan is executed
    by is [UpstreamTransport] (upstream_transport.cpp), over HTTP or a
    websocket of its own, or [BridgePool], the pool of websockets in the same
    file that requests of one conversation share.

    The dashboard is guarded by [DashboardAuth] (dashboard_auth*.cpp,
    password_auth.cpp): a password, one-time codes of [Totp] (totp_auth.cpp)
    and the sessions of [Sessions].  [SettingsController]
    (settings_controller.cpp) checks what is written to the one row of
    [SettingsRepo] (settings_repo.cpp) and changes the passphrase of
    [TokenStore].  Accounts are signed in by [OAuthService]
    (oauth_service.cpp and its controller) through the client of
    [OAuthProvider] (provider_client.cpp), and [TokenRefresh]
    (token_refresh.cpp, token_refresh_scheduler.cpp) renews their tokens.
    [AccountsController] (accounts_controller.cpp) is what the dashboard does
    to accounts, on the tables the others use, and [RequestLogs]
    (request_log_repo.cpp, logs_controller.cpp) what was proxied for them;
    [SqlImport] (sql_import_repo.cpp, sql_import_controller.cpp) takes accounts
    over from another database.

    ** Files, in the order they are compiled

    - Prelude (this file): bytes, machine integers with their wrap-around,
      sizes, maps updated key by key, the byte order of strings; the hint and
      rewrite databases [tightrope], the tactics [case_if], [bool_hyps],
      [size_lia].
    - Codec: the reader monad, words in both byte orders, and the class [Codec]
      (a writer and a reader that agree) with its instances for spans and
      counted lists; [read_back] and [read_inv] drive the proofs of records.
    - Text: ASCII helpers, hexadecimal codec, JSON escaping.
    - Lattice: the class [JoinOn] of merges and the convergence theorem its
      instances inherit.
    - Hlc, Conflict, Crdt: stamps, row resolution, and the modules GCounter,
      PNCounter, LWWRegister and ORSet, each with its [merge] an instance of
      [JoinOn].
    - SyncProtocol, Rpc: handshake and batch frames; framing and the queue.
    - Checksum, Journal: the entry digest; the in-memory journal.
    - Env, JournalDb, PersistentJournal, ApplyBatch: the environment; the
      journal table of SQLite as the class [JournalDb] with the laws
      [JournalDbLaws] and [Reliable] (no statement fails) and the instance
      [MemDb] that injects failures; the journal kept in it; batches in and out
      of it.
    - Double, SyncEngine, Ingress: binary64 and the moving average; the guarded
      path of a batch; a session from bytes to rows.
    - Raft: the modules RaftLog, Membership, RaftRpc and RaftNode.
    - HostPort, NodeId, RoutingTable, ValueStore, DhtMessage: endpoints,
      identifiers, contacts, published values and datagrams.
    - Balancer: eligibility, scores and the nine selection strategies.
    - JsonValue: JSON values, objects in the byte order of their keys, and the
      class [JsonCodec] of the parser and the writer with its laws.
    - Headers, ModelRegistry: the headers of upstream requests; slugs, the
      index of models, and the choice of the transport.
    - ErrorPolicy: details of upstream errors, the retry policies, the retry
      loop and the error envelope.
    - Except, Utf8, PayloadNormalizer, RequestPlan: the exception monad;
      cleaning of bytes; normalisation; plans.
    - Sessions, SessionRepo, HttpBridge: the modules Bridge, Sticky and
      Dashboard of sessions in memory; StickySessions and Continuity, the
      tables; the bridge over both.
    - Fernet, TokenStore, Accounts: secret boxes over the class [Sodium];
      tokens at rest; the accounts table and its repository.
    - Pricing, RoutingStore, StickyAffinity, Routing: costs; the queries and
      updates of routing; the shared state, the strategies and the cascade that
      picks an account; the theorems about them.
    - Table, ApiKeys, ApiKeyFilter, KeysController: tables with a primary key
      and unique columns; keys, limits and reservations; the gate, the policy
      of a key and its enforcement; the administration of keys.
    - IpAddress, Firewall: addresses over the class [Asio] with its laws; the
      allow list and the client behind trusted proxies.
    - Decompression, AsyncExecutor, HttpRuntime: the decoding loops over the
      class [Decoders]; the bounded queue, and its worker threads in every
      interleaving (module Threads); what is written to a client.
    - ProxyServer, Settlement: every route, message and task of the server as
      a step on one state; the theorems about its runs.
    - ChatRequest, ChatResponse: chat messages and tools turned into a
      responses request; events turned into chunks and a completion.
    - Usage, AccountTraffic: the snapshots of usage and their cache; the
      counters of traffic and the account a thread works for.
    - ServiceHelpers, Service, ServiceLaws: what the flows decide by; the flows
      themselves, each as JSON and as a stream, in the monad [Service] of
      state and exceptions over routing, bridge, usage and traffic; the
      theorems about every attempt they make.
    - Totp, SettingsRepo, SettingsController, DashboardAuth: base32 and codes
      over the class [HmacSha1]; the row of settings and its migrations; what
      an update is checked for and does; signing in, over the class [PwHash].
    - OAuthProvider, OAuthService, TokenRefresh: the requests to the provider
      and what is read of its answers; every call, callback and poll of a login
      as the critical sections it is made of, and the interleavings of them
      ([oauth_run]); the renewal of one account, the sweep over all,
      and the waits between sweeps.
    - WsPayload, WsProxy: the text in a frame, whatever its encoding, its
      repair, and the request in it; the frame passed on or answered.
    - UpstreamTransport, BridgePool: addresses, headers, event streams, both
      transports; the pool as a machine whose threads take one section of the
      code at a time ([bridge_step]).
    - RaftStorage: the tables of a node, transactions and what they roll back
      to, the abstract log ([LogView]) they implement, and the machine that
      recovers from them.
    - RequestLogs, AccountsController: the log of requests and its pages; the
      administration of accounts, each call a [Task], the uses of the database
      and the network it is made of, which those of other calls may come
      between ([admin_step]).
    - SqlImport: the rows of another database, what an import would do with
      them, and the import.

    The state of a component is a record with the fields of its class, or the
    container the class wraps; an operation is a function from the state and
    the arguments to the result and the new state; a process-wide variable is
    part of the state passed along.  A method that holds a mutex is one step,
    and where several threads run the model interleaves those steps
    ([SyncEngine.guard_step]).  Runs are lists of calls folded over the state
    or the closure of a step relation.

    ** What the theorems show

    - Trust boundary: [session_handshake_first] and [wire_batch_safe] (no byte
      stream and no batch changes the journal but through an accepted
      handshake, and then only by acceptable entries), [apply_batch_atomic],
      [apply_batch_complete], [signed_handshake_authentic],
      [handshake_auth_decides], [schema_negotiation].
    - Resources: [inflight_budgets_hold] under every interleaving of workers,
      [ingress_limits_hold], [payload_budget_wraps].
    - Wire formats: round trips and the converse, that what is accepted is an
      encoding: [journal_batch_roundtrip], [journal_batch_accepts_encodings],
      [handshake_roundtrip], [handshake_accepts_encodings], [rpc_framing],
      [ingress_delivers_stream] (any chunking), [dht_message_roundtrip],
      [host_port_roundtrip], [node_id_roundtrip],
      [serialize_log_entry_injective].
    - The journal: [journal_run_invariant], [journal_operations],
      [persistent_journal_refines] (the SQLite journal implements the in-memory
      one while no statement fails and it does not compact by itself),
      [journal_replicates] (built, encoded, decoded and applied, a journal
      is reproduced), [auto_compaction_deletes],
      [checksum_identifies_entry].
    - Convergence: [resolve_all_convergent], [pn_counter_convergent],
      [lww_convergent], [or_set_merge_convergent], [or_set_fresh_tags].
    - Clocks: [compare_hlc_total_order], [clock_run_invariant],
      [clock_advances].
    - Consensus: [raft_log_contiguous], [append_entries_replicates] (log
      matching is kept and the leader's prefix replicated),
      [quorums_intersect] (also through membership changes),
      [freshness_total_preorder], [writes_go_to_leader].
    - Directory: [xor_metric], [routing_table_invariant], [touch_effect],
      [nearest_are_closest], [value_store_serves_live].
    - Account selection: [selection_eligible], [scored_strategies_optimal],
      [round_robin_fair].
    - Requests: [normalized_request_typed] (the type of what is sent),
      [normalization_projects] (normalising is a projection onto that type),
      [compact_request_contract], [sanitize_request_normal_form],
      [stream_plan_well_formed], [upstream_headers_safe],
      [beta_token_negotiated], [registry_well_typed],
      [stream_transport_resolution], [chat_request_contract].
    - Answers: [tool_calls_reassembled] and [chat_stream_faithful] (what a chat
      client puts together is what the model wrote), [retry_budget_terminates], [exhausted_account_not_retried],
      [error_resolution_idempotent], [error_envelope_injective].
    - The service: [tool_outputs_keep_conversation] (what a request with tool
      outputs may be rewritten to, through every retry),
      [attempts_carry_one_account] (token, name and traffic of an attempt are
      those of the account granted last), [requests_answered] (an answer, after at
      most so many attempts), [model_list_within_policy],
      [stream_body_collected], [usage_cache_latest], [traffic_accounted],
      [traffic_events_throttled].
    - Conversations: [bridge_continues_own_conversation],
      [recovery_items_bounded], [sticky_table_refines_map],
      [sticky_pick_stable], [cleanup_unobservable], [dashboard_session_valid],
      [dashboard_session_ends].
    - Routing: [routed_account_authorized] (whatever fails, only a usable
      account is served, and one inside the lock pool when the settings can be
      read), [marked_account_rests],
      [exhausted_account_recovers], [sticky_affinity_kept],
      [routed_pick_refines_balancer].
    - Accounts and tokens: [pins_exclusive], [passphrase_rotation],
      [token_storage_roundtrip].
    - Keys: [api_key_gate], [revoked_key_refused], [policy_enforced],
      [key_policy_reaches_upstream] (from the header to the normalised
      request, of a body the policy can read), [reservation_settles_once], [limits_replaced_atomically],
      [issued_key_opens].
    - The server: [upstream_calls_authorised] (in every run, whatever is sent
      to the service was admitted, and is what the policy made of it on the
      routes that enforce it), [usage_always_settled] (while reservations can
      be read back and settled), [client_ip_unforgeable], [firewall_refines_set],
      [in_network_leading_bits], [decompressed_body_bounded],
      [decompression_terminates], [executor_bounded_fifo],
      [percent_roundtrip].
    - Websockets: [client_text_recovered], [frame_passed_or_flattened],
      [frames_relayed_untouched], [websocket_attempts_carry_one_account],
      [websocket_tool_outputs_keep_conversation].
    - The transport: [sse_events_roundtrip], [upstream_url_roundtrip],
      [upstream_bytes_bounded]; [bridge_sessions_sound] and
      [bridge_requests_isolated] in every interleaving of requests,
      cancellations and resets.
    - Signing in: [dashboard_access_earned] (in every run of calls, a session
      that passes was opened by the password and, where it is required, a
      code), [totp_code_used_once], [totp_accepts_window], [base32_roundtrip];
      [login_bound_to_flow], [stopped_polling_ends], [success_has_account] in
      every interleaving of a login, [authorization_url_roundtrip].
    - Tokens and settings: [refresh_loses_no_token], [sweep_schedules_next],
      [scheduler_waits_exactly], [passphrase_change_keeps_tokens];
      [settings_always_valid], [settings_update_decided],
      [settings_update_atomic], [locked_ids_roundtrip],
      [accepted_prices_read].
    - Administration: [accounts_stay_sound] in every interleaving of calls and
      refreshes (only the write of a pin can pin an account that has ceased to
      be active), [calls_concern_their_account] of a call that nothing
      interrupts, [usage_decides_status],
      [log_pages_partition]; [import_does_what_preview_shows],
      [import_makes_no_twin], [import_all_or_nothing].
    - The store of a node: [raft_log_refines] (the tables implement a log with
      a start, whatever write fails), [raft_log_observed], [pack_transfers],
      [restarts_keep_commits] (a restart recovers what was recorded).
    - Behaviour worth knowing, proved as it is: [remote_event_reissues_timestamp],
      [field_merge_diverges], [or_set_remove_resurrected],
      [checksum_separator_collision], [payload_budget_wraps],
      [rollback_reuses_sequence], [nul_entry_blocks_reads],
      [failed_batch_reports_progress], [incomplete_policy_repeats_exhausted],
      [null_tools_keep_alias], [bridge_key_collision],
      [unreadable_body_bypasses_policy], [refused_update_is_stored],
      [failed_creation_leaves_key], [routes_outside_the_firewall],
      [unread_reservation_stays_open], [stream_error_answered_as_success],
      [parallel_arguments_misattributed], [malformed_header_becomes_proxy],
      [zstd_tail_lost], [settings_update_loses_step],
      [passphrase_change_strands_tokens], [padded_password_locks_out],
      [pending_setup_replaces_secret], [setup_code_signs_in],
      [stateless_error_ends_flow], [repeated_callback_hides_success],
      [stopped_device_flow_completes], [late_login_succeeds_new_flow],
      [refresh_revives_paused_account], [shared_identifier_starves],
      [success_cycle_has_no_effect], [escaped_control_kept],
      [oversized_stream_accepted], [cancel_misses_keyed_session],
      [race_shares_session], [failed_query_overwrites_first],
      [broken_pack_loses_appends], [usage_refresh_unpauses],
      [token_refresh_takes_another], [invalid_row_hides_valid_one],
      [identifier_hides_address], [unread_settings_open_the_pool],
      [pin_races_refresh], [repeated_ending_rewrites_time],
      [unrecorded_commits_are_lost].

    ** Parameters and hypotheses

    Code outside the sources is a parameter: HMAC-SHA-256, SHA-256 and the
    constant-time comparison of libsodium, the LZ4 block functions, [strtod],
    [std::pow], the draws of random distributions,
    [boost::asio::ip::make_address], clock readings, random identifiers and the
    environment.  What a theorem needs of them is a hypothesis with the
    documented meaning (a digest of fixed length without collisions on the
    inputs compared, a decompressor that inverts its compressor), and its
    witness instantiates it with a concrete function.  For the
    journal SQLite is the class [JournalDb]; every statement may fail, and
    [MemDb] shows that its laws can be met.  The tables of accounts, sticky
    sessions and response continuity are lists of rows and their statements the
    functions SQL says they are; an argument tells which statements run, so
    that a failing one leaves the branch the source takes.  The JSON library
    is the class [JsonCodec], whose laws [JsonCodecLaws] say that what it
    writes it reads back; libsodium is the class [Sodium] with the laws
    [SodiumLaws], and the digest of keys the class [Digest]; the addresses of
    Boost.Asio are the class [Asio] with [AsioLaws], the decoders of zlib, zstd
    and brotli the class [Decoders] with [DecodersLaws].  SHA-1 codes are the
    class [HmacSha1], hashes of passwords [PwHash], base64 [Base64], the
    entries, configurations and buffers of libnuraft [NuRaft] with
    [NuRaftLaws].  The transfer of libcurl and what a websocket connects to,
    reads and inflates to ([HttpTransfer], [WsConnect], [WsRead]), the answers
    of the provider and of SQLCipher, and [std::from_chars] to a double are
    arguments; what the clocks, the statements and the transport do at the
    n-th call of a flow is an argument too (at_call of [Service]), so the
    theorems about flows hold whatever they do.

    ** Fuel and bounds

    Loops that are not structural take fuel and are proved to have enough of
    it: [Rpc.drain_loop] runs with the length of its buffer, since each turn
    consumes a header of six bytes, and [Ingress.consume_loop] with the
    frames queued plus the bytes buffered ([consume_enough]).  The retry loop
    of [ErrorPolicy] ends with any fuel above the retry budget
    ([retry_budget_terminates]; [Service] uses one more than the budget, which
    [execute_returns] proves enough), and the decoding loops with any above the
    length of the body and twice the limit ([decompression_terminates]; the
    server uses [enough_turns]).  Every other
    function is total by structural recursion.  Integers are [Z] with the
    wrap-around of their C++ width written where the source can reach it;
    undefined signed overflow yields [None].  [size_t] is 64 bits wide.
    [std::sort] is a merge sort, used only where the order is total on the
    elements present.

    ** What is not modelled

    The statements that create tables and triggers, the set-up of the NuRaft
    server and the timers that drive it, mDNS discovery and the peer manager,
    sockets and TLS, the OpenDHT wrapper, libsodium calls of [NodeId], events
    emitted to observers, and the persistence of the CRDTs.  Of the transport,
    the sockets under its websockets, the loading of root certificates and the
    order of a hash table, which decides between sessions used at the same
    moment; of the logins, the local listener for the callback.  Of the server,
    its life cycle and schedulers, the heartbeats of websockets, how the
    entries of the request log are put together and the controller of usage;
    of an import, a rollback that fails as well.  Further the Node bridge and the Electron application: they
    are input and output around the parts above, or glue between them. *)

From stdpp Require Export base decidable list list_numbers gmap sets strings pretty sorting.
From Stdlib Require Export ZArith Lia.
From coqutil Require Export Byte.

#[global] Open Scope Z_scope.

Declare Scope tightrope_scope.
Delimit Scope tightrope_scope with tr.

(** ** Bytes and strings

    [std::string], [std::string_view], [std::span<uint8_t>] and
    [std::vector<uint8_t>] are all sequences of bytes. *)

Abbreviation bytes := (list Byte.byte).

#[global] Instance byte_eq_dec : EqDecision Byte.byte := Byte.byte_eq_dec.

#[global] Instance byte_countable : Countable Byte.byte :=
  inj_countable Byte.to_N Byte.of_N Byte.of_to_N.

(** A string literal of the source as the bytes it holds. *)
Definition str (s : string) : bytes := String.list_byte_of_string s.

Notation "$ s" := (str s%string) (at level 1, format "$ s") : tightrope_scope.
#[global] Open Scope tightrope_scope.

(** [std::to_string] of an integer. *)
Definition to_string (z : Z) : bytes := str (pretty z).

(** [size()] of a container, as the [std::size_t] the code compares. *)
Definition size_of {A} (l : list A) : Z := Z.of_nat (length l).

(** ** Machine integers: values of [uint<w>_t] are the [z] with [0 <= z < 2 ^ w] *)

Definition wrap (w z : Z) : Z := z mod 2 ^ w.
Definition in_uint (w z : Z) : Prop := 0 <= z < 2 ^ w.
Definition is_uint (w z : Z) : bool := (0 <=? z) && (z <? 2 ^ w).

Abbreviation u8 := (wrap 8).
Abbreviation u16 := (wrap 16).
Abbreviation u32 := (wrap 32).
Abbreviation u64 := (wrap 64).

(** [int<w>_t]: two's complement, and the cast from an unsigned value. *)
Definition in_sint (w z : Z) : Prop := - 2 ^ (w - 1) <= z < 2 ^ (w - 1).
Definition sint (w z : Z) : Z :=
  let r := z mod 2 ^ w in if r <? 2 ^ (w - 1) then r else r - 2 ^ w.

(** Signed arithmetic: a result outside the type is undefined behaviour. *)
Definition checked_sint (w z : Z) : option Z :=
  if (- 2 ^ (w - 1) <=? z) && (z <? 2 ^ (w - 1)) then Some z else None.

Create HintDb tightrope.
Create Rewrite HintDb tightrope.

(** ** Generic tactics *)

(** Split the conditionals of the goal and of the hypotheses, then clean up. *)
Ltac case_if :=
  repeat (case_match; simplify_eq/=; try done).

(** Turn boolean comparisons in hypotheses into propositions. *)
Ltac bool_hyps :=
  repeat match goal with
  | H : (_ && _) = true |- _ => apply andb_true_iff in H as [? ?]
  | H : (_ || _) = false |- _ => apply orb_false_iff in H as [? ?]
  | H : (_ && _) = false |- _ => apply andb_false_iff in H
  | H : (_ || _) = true |- _ => apply orb_true_iff in H
  | H : negb _ = true |- _ => apply negb_true_iff in H
  | H : negb _ = false |- _ => apply negb_false_iff in H
  | H : (_ <? _) = true |- _ => apply Z.ltb_lt in H
  | H : (_ <? _) = false |- _ => apply Z.ltb_ge in H
  | H : (_ <=? _) = true |- _ => apply Z.leb_le in H
  | H : (_ <=? _) = false |- _ => apply Z.leb_gt in H
  | H : (_ =? _) = true |- _ => apply Z.eqb_eq in H
  | H : (_ =? _) = false |- _ => apply Z.eqb_neq in H
  | H : bool_decide _ = true |- _ => apply bool_decide_eq_true in H
  | H : bool_decide _ = false |- _ => apply bool_decide_eq_false in H
  end.

(** ** Machine integer lemmas *)

Lemma wrap_small w z : in_uint w z -> wrap w z = z.
Proof. intros H. by apply Z.mod_small. Qed.

Lemma wrap_in w z : 0 <= w -> in_uint w (wrap w z).
Proof. intros H. apply Z.mod_pos_bound. lia. Qed.

Lemma wrap_wrap w z : wrap w (wrap w z) = wrap w z.
Proof. apply Z.mod_mod_divide, Z.divide_refl. Qed.

Lemma is_uint_spec w z : is_uint w z = true <-> in_uint w z.
Proof. unfold is_uint, in_uint. rewrite andb_true_iff, Z.leb_le, Z.ltb_lt. done. Qed.

Lemma sint_wrap w z : 0 < w -> in_sint w z -> sint w (wrap w z) = z.
Proof.
  intros Hw [Hl Hu]. unfold sint, wrap. rewrite Z.mod_mod_divide by apply Z.divide_refl.
  assert (2 ^ w = 2 * 2 ^ (w - 1)) as E.
  { rewrite <- Z.pow_succ_r by lia. f_equal. lia. }
  destruct (Z.leb_spec 0 z).
  - rewrite Z.mod_small by lia. destruct (Z.ltb_spec z (2 ^ (w - 1))); lia.
  - rewrite <- (Z.mod_unique_pos z (2 ^ w) (-1) (z + 2 ^ w)) by lia.
    destruct (Z.ltb_spec (z + 2 ^ w) (2 ^ (w - 1))); lia.
Qed.

Lemma wrap_sint w z : 0 < w -> in_uint w z -> wrap w (sint w z) = z.
Proof.
  intros Hw [Hl Hu]. unfold sint, wrap. rewrite (Z.mod_small z) by lia.
  destruct (Z.ltb_spec z (2 ^ (w - 1))).
  - by apply Z.mod_small.
  - symmetry. apply (Z.mod_unique_pos _ _ (-1)); lia.
Qed.

Lemma sint_in w z : 0 < w -> in_sint w (sint w z).
Proof.
  intros Hw. unfold sint, in_sint.
  assert (2 ^ w = 2 * 2 ^ (w - 1)) as E.
  { rewrite <- Z.pow_succ_r by lia. f_equal. lia. }
  pose proof (Z.mod_pos_bound z (2 ^ w) ltac:(lia)).
  destruct (Z.ltb_spec (z mod 2 ^ w) (2 ^ (w - 1))); lia.
Qed.

(** ** Lists and sizes *)

Lemma size_of_app {A} (l k : list A) : size_of (l ++ k) = size_of l + size_of k.
Proof. unfold size_of. rewrite length_app. lia. Qed.

Lemma size_of_cons {A} (x : A) l : size_of (x :: l) = 1 + size_of l.
Proof. unfold size_of. simpl length. lia. Qed.

Lemma size_of_nil {A} : size_of (@nil A) = 0.
Proof. done. Qed.

Lemma size_of_nonneg {A} (l : list A) : 0 <= size_of l.
Proof. unfold size_of. lia. Qed.

Lemma size_of_zero {A} (l : list A) : size_of l = 0 -> l = [].
Proof. unfold size_of. destruct l; simpl; [done | lia]. Qed.

Lemma to_nat_size_of {A} (l : list A) : Z.to_nat (size_of l) = length l.
Proof. unfold size_of. lia. Qed.

#[export] Hint Rewrite @size_of_app @size_of_cons @size_of_nil : tightrope.
#[export] Hint Resolve size_of_nonneg wrap_in : tightrope.

(** Linear arithmetic with sizes pushed through appends. *)
Ltac size_lia :=
  unfold in_uint, in_sint in *;
  rewrite ?size_of_app, ?size_of_cons, ?size_of_nil in *;
  repeat match goal with
  | |- context [size_of ?l] =>
      lazymatch goal with
      | _ : 0 <= size_of l |- _ => fail
      | _ => pose proof (size_of_nonneg l)
      end
  | _ : context [size_of ?l] |- _ =>
      lazymatch goal with
      | _ : 0 <= size_of l |- _ => fail
      | _ => pose proof (size_of_nonneg l)
      end
  end; lia.

(** Filtering keeps the order. *)
Lemma StronglySorted_filter {A} (R : relation A) (P : A -> Prop) `{!forall x, Decision (P x)} l :
  StronglySorted R l -> StronglySorted R (filter P l).
Proof.
  induction 1 as [|x l Hl IH Hx]; [constructor|]. rewrite filter_cons. case_decide; [|done].
  constructor; [done|]. apply Forall_forall. intros y Hy. apply list_elem_of_filter in Hy as [_ Hy].
  by eapply Forall_forall.
Qed.

Lemma Forall_filter {A} (Q P : A -> Prop) `{!forall x, Decision (P x)} l :
  Forall Q l -> Forall Q (filter P l).
Proof.
  intros Hl. apply Forall_forall. intros x Hx. apply list_elem_of_filter in Hx as [_ Hx].
  by eapply Forall_forall in Hl.
Qed.

(** Filtering through a map whose test agrees with one on the originals. *)
Lemma filter_fmap_on {A B} (f : A -> B) (P : B -> Prop) (Q : A -> Prop)
    `{!forall x, Decision (P x)} `{!forall x, Decision (Q x)} (l : list A) :
  (forall x, x ∈ l -> P (f x) <-> Q x) -> filter P (f <$> l) = f <$> filter Q l.
Proof.
  intros HPQ. induction l as [|x l IH]; [done|]. rewrite fmap_cons, !filter_cons.
  rewrite IH by (intros y Hy; apply HPQ; by right).
  pose proof (HPQ x ltac:(left)). repeat case_decide; [by rewrite fmap_cons|tauto..|done].
Qed.

(** A list splits into what satisfies a test and what does not. *)
Lemma filter_split_size {A} (f : A -> bool) (l : list A) :
  size_of (filter (fun x => f x = true) l) + size_of (filter (fun x => f x = false) l) = size_of l.
Proof.
  induction l as [|x l IH]; [done|]. rewrite !filter_cons, size_of_cons.
  destruct (f x); repeat (case_decide; try done); rewrite ?size_of_cons; lia.
Qed.

(** ** Maps updated key by key

    [for (auto& [k, v] : other) m[k] = g(m.find(k), v)]: the loop the merge
    operations are written as, and what it leaves at each key. *)

Section map_update.
Context {K V W : Type} `{Countable K} (g : option V -> W -> V).

Definition map_update (m : gmap K V) (other : gmap K W) : gmap K V :=
  map_fold (fun k w acc => <[k := g (acc !! k) w]> acc) m other.

Lemma map_update_lookup m other k :
  map_update m other !! k =
    match other !! k with Some w => Some (g (m !! k) w) | None => m !! k end.
Proof.
  unfold map_update.
  apply (map_fold_weak_ind (fun r o => r !! k =
    match o !! k with Some w => Some (g (m !! k) w) | None => m !! k end)); [done|].
  intros i w o r Hi IH. rewrite !lookup_insert. case_decide as E; [|done].
  subst i. by rewrite Hi in IH; rewrite IH.
Qed.
End map_update.

(** The sum of a map's values. *)
Definition map_total {K} `{Countable K} (m : gmap K Z) : Z := map_fold (fun _ v s => s + v) 0 m.

Lemma map_total_empty {K} `{Countable K} : map_total (∅ : gmap K Z) = 0.
Proof. unfold map_total. by rewrite map_fold_empty. Qed.

Lemma map_total_insert_None {K} `{Countable K} (m : gmap K Z) k v :
  m !! k = None -> map_total (<[k := v]> m) = map_total m + v.
Proof.
  intros Hk. unfold map_total. rewrite map_fold_insert_L; [done| |done].
  intros. lia.
Qed.

Lemma map_total_insert {K} `{Countable K} (m : gmap K Z) k v :
  map_total (<[k := v]> m) = map_total m - default 0 (m !! k) + v.
Proof.
  destruct (m !! k) as [w|] eqn:Hk; cbn [default].
  - rewrite <- (insert_id m k w Hk) at 2. rewrite <- (insert_delete_eq m k w).
    rewrite <- (insert_delete_eq m k v).
    rewrite !map_total_insert_None by apply lookup_delete_eq. cbn [id]. lia.
  - rewrite map_total_insert_None by done. lia.
Qed.

Lemma map_total_nonneg {K} `{Countable K} (m : gmap K Z) :
  map_Forall (fun _ v => 0 <= v) m -> 0 <= map_total m.
Proof.
  induction m as [|k v m Hk IH] using map_ind; intros Hm.
  { unfold map_total. by rewrite map_fold_empty. }
  apply map_Forall_insert in Hm as [Hv Hm]; [|done].
  rewrite map_total_insert_None by done. specialize (IH Hm). lia.
Qed.

(** ** Lexicographic order on byte strings ([operator<] of [std::string],
    [std::lexicographical_compare] on byte arrays) *)

Fixpoint bytes_ltb (l r : bytes) : bool :=
  match l, r with
  | [], [] => false
  | [], _ :: _ => true
  | _ :: _, [] => false
  | x :: l', y :: r' =>
      if byte.unsigned x <? byte.unsigned y then true
      else if byte.unsigned y <? byte.unsigned x then false
      else bytes_ltb l' r'
  end.

Ltac bytes_ltb_step :=
  cbn [bytes_ltb] in *;
  repeat match goal with
  | |- context [?x <? ?y] => destruct (Z.ltb_spec x y)
  | H : context [?x <? ?y] |- _ => destruct (Z.ltb_spec x y)
  end.

Lemma bytes_ltb_irrefl l : bytes_ltb l l = false.
Proof. induction l; bytes_ltb_step; try done; lia. Qed.

Lemma bytes_ltb_trans l m r : bytes_ltb l m = true -> bytes_ltb m r = true -> bytes_ltb l r = true.
Proof.
  revert m r. induction l as [|x l IH]; intros [|y m] [|z r]; bytes_ltb_step; try done; try lia.
  eauto.
Qed.

Lemma bytes_ltb_asym l r : bytes_ltb l r = true -> bytes_ltb r l = false.
Proof.
  intros H. destruct (bytes_ltb r l) eqn:E; [|done].
  pose proof (bytes_ltb_trans _ _ _ H E) as C. by rewrite bytes_ltb_irrefl in C.
Qed.

Lemma bytes_ltb_total l r : bytes_ltb l r = false -> bytes_ltb r l = false -> l = r.
Proof.
  revert r. induction l as [|x l IH]; intros [|y r]; bytes_ltb_step; try done; intros.
  f_equal; [apply byte.unsigned_inj; lia|auto].
Qed.

(** "Not after": the total order the sorted containers keep. *)
Definition bytes_le (l r : bytes) : Prop := bytes_ltb r l = false.
#[global] Instance bytes_le_dec l r : Decision (bytes_le l r) := bool_eq_dec _ _.

#[global] Instance bytes_le_total : Total bytes_le.
Proof.
  intros l r. unfold bytes_le. destruct (bytes_ltb r l) eqn:E; [right|by left].
  by apply bytes_ltb_asym.
Qed.

#[global] Instance bytes_le_trans : Transitive bytes_le.
Proof.
  intros l m r H1 H2. unfold bytes_le in *. destruct (bytes_ltb r l) eqn:E; [|done].
  destruct (bytes_ltb l m) eqn:E1.
  - rewrite (bytes_ltb_trans r l m) in H2; done.
  - rewrite (bytes_ltb_total l m) in E by done. congruence.
Qed.

#[global] Instance bytes_le_antisymm : AntiSymm (=) bytes_le.
Proof. intros l r H1 H2. by apply bytes_ltb_total. Qed.
