(* ===== verification/Codec.v ===== *)
(** * Codec: reading and writing byte buffers

    The wire formats of the runtime (src/native/sync/src/sync_protocol.cpp,
    src/native/sync/src/transport/rpc_channel.cpp and
    src/native/p2p/src/dht/message.cpp) are written by appending to a byte
    vector and read by advancing a cursor over one.  This file holds what they
    share: the reader monad, words as byte lists in both byte orders, and the
    interface [Codec] (round trip and soundness of a writer/reader pair) with
    its closure under sequencing and counted repetition. *)

From S2P Require Import Prelude.
From coqutil Require Import Word.LittleEndianList.

(** ** The reader monad

    A reader takes the whole input and the cursor, and returns the value read
    with the advanced cursor, or [None] where the code returns [false]. *)

Definition reader (A : Type) : Type := bytes -> Z -> option (A * Z).

#[global] Instance reader_ret : MRet reader := fun A x inp c => Some (x, c).
#[global] Instance reader_bind : MBind reader := fun A B f p inp c =>
  match p inp c with
  | Some (x, c') => f x inp c'
  | None => None
  end.

(** [return false] under a condition. *)
Definition rguard (b : bool) : reader unit := fun inp c =>
  if b then Some (tt, c) else None.

(** The bytes [inp[c .. c+n)]. *)
Definition slice (inp : bytes) (c n : Z) : bytes :=
  take (Z.to_nat n) (drop (Z.to_nat c) inp).

(** [n] bytes at the cursor, refused when they run past the end. *)
Definition read_span (n : Z) : reader bytes := fun inp c =>
  if c + n <=? size_of inp then Some (slice inp c n, c + n) else None.

(** [count] items, one after the other. *)
Fixpoint read_many {A} (p : reader A) (count : nat) : reader (list A) :=
  match count with
  | O => mret []
  | S n => x ← p; xs ← read_many p n; mret (x :: xs)
  end.

(** ** Words in both byte orders *)

Definition byte_of (z : Z) : Byte.byte := byte.of_Z z.
Definition val (b : Byte.byte) : Z := byte.unsigned b.

Definition le_bytes (n : nat) (z : Z) : bytes := le_split n z.
Definition le_value (bs : bytes) : Z := le_combine bs.
Definition be_bytes (n : nat) (z : Z) : bytes := reverse (le_split n z).
Definition be_value (bs : bytes) : Z := le_combine (reverse bs).

Lemma byte_of_land z : byte_of (Z.land z 255) = byte_of z.
Proof.
  apply byte.unsigned_inj. unfold byte_of. rewrite !byte.unsigned_of_Z.
  unfold byte.wrap. change 255 with (Z.ones 8). rewrite Z.land_ones by lia.
  by rewrite Z.mod_mod by lia.
Qed.

Lemma byte_of_val b : byte_of (val b) = b.
Proof. apply byte.of_Z_unsigned. Qed.

Lemma val_byte_of z : val (byte_of z) = u8 z.
Proof. apply byte.unsigned_of_Z. Qed.

Lemma val_range b : 0 <= val b < 256.
Proof. exact (byte.unsigned_range b). Qed.

Lemma val_inj b1 b2 : val b1 = val b2 -> b1 = b2.
Proof. apply byte.unsigned_inj. Qed.

Lemma byte_of_inj z1 z2 : in_uint 8 z1 -> in_uint 8 z2 -> byte_of z1 = byte_of z2 -> z1 = z2.
Proof.
  intros H1 H2 H. apply (f_equal val) in H. rewrite !val_byte_of in H.
  by rewrite !wrap_small in H.
Qed.

Lemma le_bytes_length n z : length (le_bytes n z) = n.
Proof. apply length_le_split. Qed.

Lemma be_bytes_length n z : length (be_bytes n z) = n.
Proof. unfold be_bytes. rewrite length_reverse. apply length_le_split. Qed.

Lemma le_value_bytes n z : le_value (le_bytes n z) = wrap (8 * Z.of_nat n) z.
Proof. unfold le_value, le_bytes, wrap. rewrite le_combine_split. f_equal. f_equal. lia. Qed.

Lemma le_bytes_value n bs : length bs = n -> le_bytes n (le_value bs) = bs.
Proof. intros <-. apply split_le_combine. Qed.

Lemma le_bytes_value_size n bs : size_of bs = Z.of_nat n -> le_bytes n (le_value bs) = bs.
Proof. intros H. apply le_bytes_value. unfold size_of in H. lia. Qed.

Lemma be_value_bytes n z : be_value (be_bytes n z) = wrap (8 * Z.of_nat n) z.
Proof. unfold be_value, be_bytes. rewrite reverse_involutive. apply le_value_bytes. Qed.

Lemma be_bytes_value n bs : length bs = n -> be_bytes n (be_value bs) = bs.
Proof.
  intros <-. unfold be_bytes, be_value. rewrite <- (length_reverse bs).
  rewrite split_le_combine. apply reverse_involutive.
Qed.

Lemma le_value_range bs : in_uint (8 * size_of bs) (le_value bs).
Proof. exact (le_combine_bound bs). Qed.

Lemma le_value_in n bs : size_of bs = n -> in_uint (8 * n) (le_value bs).
Proof. intros <-. apply le_value_range. Qed.

Lemma be_value_range bs : in_uint (8 * size_of bs) (be_value bs).
Proof.
  unfold be_value, size_of. rewrite <- (length_reverse bs). exact (le_combine_bound _).
Qed.

#[export] Hint Rewrite le_bytes_length be_bytes_length : tightrope.

Lemma size_le_bytes n z : size_of (le_bytes n z) = Z.of_nat n.
Proof. unfold size_of. by rewrite le_bytes_length. Qed.
Lemma size_be_bytes n z : size_of (be_bytes n z) = Z.of_nat n.
Proof. unfold size_of. by rewrite be_bytes_length. Qed.

(** ** Slices *)

(** [bs] stands in [inp] at cursor [c], and [c'] is the cursor behind it. *)
Definition occurs (inp : bytes) (c : Z) (bs : bytes) (c' : Z) : Prop :=
  0 <= c /\ c' = c + size_of bs /\ slice inp c (size_of bs) = bs.

Lemma slice_length inp c n :
  0 <= c -> 0 <= n -> c + n <= size_of inp -> size_of (slice inp c n) = n.
Proof.
  intros Hc Hn H. unfold slice, size_of in *. rewrite length_take, length_drop. lia.
Qed.

Lemma slice_mid pre bs suf : slice (pre ++ bs ++ suf) (size_of pre) (size_of bs) = bs.
Proof.
  unfold slice. rewrite !to_nat_size_of, drop_app_length, take_app_length. done.
Qed.

Lemma slice_split inp c n m :
  0 <= c -> 0 <= n -> 0 <= m ->
  slice inp c (n + m) = slice inp c n ++ slice inp (c + n) m.
Proof.
  intros Hc Hn Hm. unfold slice. rewrite !Z2Nat.inj_add by lia.
  rewrite <- drop_drop.
  rewrite <- (take_drop (Z.to_nat n) (take (Z.to_nat n + Z.to_nat m) _)) at 1.
  rewrite take_take, skipn_firstn_comm.
  f_equal; f_equal; lia.
Qed.

Lemma slice_all (inp : bytes) : slice inp 0 (size_of inp) = inp.
Proof. unfold slice. rewrite to_nat_size_of. simpl. rewrite drop_0. by apply firstn_all. Qed.

Lemma occurs_app inp c a c1 b c2 :
  occurs inp c a c1 -> occurs inp c1 b c2 -> occurs inp c (a ++ b) c2.
Proof.
  intros (Hc & -> & E1) (_ & -> & E2).
  split; [done|]. split; [size_lia|].
  rewrite size_of_app, slice_split by (done || apply size_of_nonneg). by rewrite E1, E2.
Qed.

Lemma occurs_nil inp c : 0 <= c -> occurs inp c [] c.
Proof. intros Hc. split; [done|]. rewrite size_of_nil. repeat split; lia. Qed.

Lemma occurs_nonneg inp c bs c' : occurs inp c bs c' -> 0 <= c'.
Proof. intros (? & -> & _). size_lia. Qed.

(** What stands between the first and the last cursor is the whole input. *)
Lemma occurs_whole inp bs : occurs inp 0 bs (size_of inp) -> inp = bs.
Proof.
  intros (_ & E & H). rewrite Z.add_0_l in E. by rewrite <- E, slice_all in H.
Qed.

#[export] Hint Resolve occurs_nonneg occurs_nil : tightrope.

(** ** The codec interface

    [enc] is what a writer appends for a value, [dec] the matching reader and
    [valid] the values the format carries. *)

Class Codec {A} (valid : A -> Prop) (enc : A -> bytes) (dec : reader A) : Prop := {
  codec_roundtrip x pre suf :
    valid x ->
    dec (pre ++ enc x ++ suf) (size_of pre) = Some (x, size_of pre + size_of (enc x));
  codec_sound inp c x c' :
    0 <= c -> dec inp c = Some (x, c') -> valid x /\ occurs inp c (enc x) c'
}.
#[global] Hint Mode Codec + - - ! : typeclass_instances.

(** One step of reading a record back: the codec of the field at the cursor. *)
Lemma bind_roundtrip {A B} `{HC : Codec A valid enc dec} (f : A -> reader B) x pre suf r :
  valid x ->
  f x ((pre ++ enc x) ++ suf) (size_of (pre ++ enc x)) = r ->
  (dec ≫= f) (pre ++ enc x ++ suf) (size_of pre) = r.
Proof.
  intros Hv <-. unfold mbind, reader_bind. rewrite codec_roundtrip by done.
  rewrite <- app_assoc, size_of_app. done.
Qed.

(** One step of inverting a successful read. *)
Lemma bind_sound {A B} `{HC : Codec A valid enc dec} (f : A -> reader B) inp c y c' :
  0 <= c -> (dec ≫= f) inp c = Some (y, c') ->
  exists x c1, valid x /\ occurs inp c (enc x) c1 /\ 0 <= c1 /\ f x inp c1 = Some (y, c').
Proof.
  intros Hc. unfold mbind, reader_bind. destruct (dec inp c) as [[x c1]|] eqn:E; [|done].
  intros Hf. apply codec_sound in E as [Hv Ho]; [|done].
  exists x, c1. eauto using occurs_nonneg.
Qed.

Lemma guard_bind {B} b (f : unit -> reader B) inp c r :
  (rguard b ≫= f) inp c = Some r <-> b = true /\ f tt inp c = Some r.
Proof. unfold mbind, reader_bind, rguard. destruct b; [tauto|]. by split; [|intros [? _]]. Qed.

Lemma ret_inv {A} (x y : A) inp c c' :
  (mret x : reader A) inp c = Some (y, c') -> x = y /\ c = c'.
Proof. unfold mret, reader_ret. naive_solver. Qed.

(** The two sides of a record's codec, driven by the codecs of its fields. *)
Ltac read_back := repeat (eapply bind_roundtrip; [try done|]; cbv beta).

(** Behind the last field: the value read and the cursor after it. *)
Ltac read_done := unfold mret, reader_ret; rewrite ?app_nil_l, <- ?app_assoc; try reflexivity.

Ltac read_inv H :=
  let x := fresh "x" in let c := fresh "c" in
  let Hv := fresh "Hv" in let Ho := fresh "Ho" in let Hc := fresh "Hc" in
  apply bind_sound in H as (x & c & Hv & Ho & Hc & H); [|done].

(** ** Codecs of spans, words and counted lists *)

Lemma span_codec n : 0 <= n -> Codec (fun bs => size_of bs = n) id (read_span n).
Proof.
  intros Hn. split.
  - intros x pre suf <-. unfold read_span, id.
    destruct (Z.leb_spec (size_of pre + size_of x) (size_of (pre ++ x ++ suf))); [|size_lia].
    by rewrite slice_mid.
  - intros inp c x c' Hc. unfold read_span, id. intros H. case_match; [|done]. simplify_eq.
    bool_hyps. unfold occurs. rewrite slice_length by lia. done.
Qed.

Lemma read_span_app pre bs suf :
  read_span (size_of bs) (pre ++ bs ++ suf) (size_of pre) = Some (bs, size_of pre + size_of bs).
Proof. exact (codec_roundtrip (Codec := span_codec _ (size_of_nonneg bs)) bs pre suf eq_refl). Qed.

(** A reader that maps a span of fixed length through a bijection. *)
Lemma mapped_codec {A} (n : Z) (valid : A -> Prop) (enc : A -> bytes) (dec : reader A)
    (g : bytes -> A) :
  0 <= n ->
  (forall inp c, 0 <= c ->
     dec inp c = if c + n <=? size_of inp then Some (g (slice inp c n), c + n) else None) ->
  (forall x, valid x -> size_of (enc x) = n /\ g (enc x) = x) ->
  (forall bs, size_of bs = n -> valid (g bs) /\ enc (g bs) = bs) ->
  Codec valid enc dec.
Proof.
  intros Hn Hdec Henc Hg. split.
  - intros x pre suf Hv. destruct (Henc x Hv) as [Hs Hx].
    rewrite Hdec by apply size_of_nonneg.
    destruct (Z.leb_spec (size_of pre + n) (size_of (pre ++ enc x ++ suf))); [|size_lia].
    rewrite Hs. rewrite <- Hs at 1. by rewrite slice_mid, Hx.
  - intros inp c x c' Hc H. rewrite Hdec in H by done. case_match; [|done].
    simplify_eq. bool_hyps.
    destruct (Hg (slice inp c n)) as [Hv He]; [by apply slice_length; lia|].
    split; [done|]. unfold occurs. rewrite He, slice_length by lia. done.
Qed.

(** The byte at an index, as the code's [in[i]]. *)
Definition at_ (inp : bytes) (i : Z) : Z := val (nth (Z.to_nat i) inp Byte.x00).

Lemma slice_nth inp c n i :
  0 <= c -> 0 <= i < n -> at_ (slice inp c n) i = at_ inp (c + i).
Proof.
  intros Hc Hi. unfold at_, slice. f_equal.
  rewrite !nth_lookup, lookup_take_lt, lookup_drop by lia. do 2 f_equal. lia.
Qed.

Lemma many_codec {A} `{HC : Codec A valid enc dec} (n : nat) :
  Codec (fun xs => length xs = n /\ Forall valid xs) (fun xs => concat (enc <$> xs))
    (read_many dec n).
Proof.
  split.
  - intros xs pre suf [<- Hv]. revert pre. induction Hv as [|x xs Hx Hv IH]; intros pre; simpl.
    + unfold mret, reader_ret. by rewrite size_of_nil, Z.add_0_r.
    + rewrite <- app_assoc. apply bind_roundtrip; [done|].
      unfold mbind at 1, reader_bind. rewrite IH. unfold mret, reader_ret.
      by rewrite !size_of_app, Z.add_assoc.
  - induction n as [|n IH]; intros inp c xs c' Hc H; simpl in H.
    + apply ret_inv in H as [<- <-]. simpl. auto with tightrope.
    + read_inv H. unfold mbind, reader_bind in H.
      destruct (read_many dec n inp _) as [[ys c2]|] eqn:E; [|done].
      apply ret_inv in H as [<- <-]. apply IH in E as [[<- Hys] Ho2]; [|done].
      simpl. eauto using occurs_app.
Qed.

(** ** Words from their bytes

    The sources spell a word's bytes out with shifts and masks; these lemmas
    bring both spellings to [le_bytes]/[le_value] and their reverses. *)

Lemma le_bytes_S n z : le_bytes (S n) z = byte_of z :: le_bytes n (Z.shiftr z 8).
Proof. done. Qed.

Lemma le_bytes_O z : le_bytes 0 z = [].
Proof. done. Qed.

Lemma le_value_cons b bs : le_value (b :: bs) = Z.lor (val b) (Z.shiftl (le_value bs) 8).
Proof. done. Qed.

Lemma le_value_nil : le_value [] = 0.
Proof. done. Qed.

Lemma slice_cons inp c n :
  0 <= c -> 0 < n -> c < size_of inp ->
  slice inp c n = nth (Z.to_nat c) inp Byte.x00 :: slice inp (c + 1) (n - 1).
Proof.
  intros Hc Hn H. unfold slice, size_of in *.
  destruct (lookup_lt_is_Some_2 inp (Z.to_nat c)) as [b Hb]; [lia|].
  rewrite (drop_S _ b) by done. rewrite (nth_lookup_Some _ _ _ b) by done.
  replace (Z.to_nat n) with (S (Z.to_nat (n - 1))) by lia. simpl.
  replace (S (Z.to_nat c)) with (Z.to_nat (c + 1)) by lia. done.
Qed.

Lemma slice_zero inp c : slice inp c 0 = [].
Proof. done. Qed.

Lemma le_word_codec (n : nat) (enc : Z -> bytes) (dec : reader Z) :
  (forall v, enc v = le_bytes n v) ->
  (forall inp c, 0 <= c ->
     dec inp c = if c + Z.of_nat n <=? size_of inp
                 then Some (le_value (slice inp c (Z.of_nat n)), c + Z.of_nat n) else None) ->
  Codec (in_uint (8 * Z.of_nat n)) enc dec.
Proof.
  intros Henc Hdec. eapply (mapped_codec (Z.of_nat n)); [lia|exact Hdec|..].
  - intros x Hx. rewrite Henc, size_le_bytes, le_value_bytes. by rewrite wrap_small.
  - intros bs Hb. split; [rewrite <- Hb; apply le_value_range|].
    rewrite Henc. apply le_bytes_value. unfold size_of in Hb. lia.
Qed.

Lemma be_word_codec (n : nat) (enc : Z -> bytes) (dec : reader Z) :
  (forall v, enc v = be_bytes n v) ->
  (forall inp c, 0 <= c ->
     dec inp c = if c + Z.of_nat n <=? size_of inp
                 then Some (be_value (slice inp c (Z.of_nat n)), c + Z.of_nat n) else None) ->
  Codec (in_uint (8 * Z.of_nat n)) enc dec.
Proof.
  intros Henc Hdec. eapply (mapped_codec (Z.of_nat n)); [lia|exact Hdec|..].
  - intros x Hx. rewrite Henc, size_be_bytes, be_value_bytes. by rewrite wrap_small.
  - intros bs Hb. split; [rewrite <- Hb; apply be_value_range|].
    rewrite Henc. apply be_bytes_value. unfold size_of in Hb. lia.
Qed.

(** Normalise a word writer or reader to its bytes. *)
Ltac word_enc :=
  unfold be_bytes; change le_split with le_bytes;
  repeat rewrite ?le_bytes_S, ?le_bytes_O, ?byte_of_land;
  rewrite ?Z.shiftr_shiftr by lia; reflexivity.

Ltac word_dec :=
  let H := fresh in
  repeat match goal with |- context [Z.of_nat ?n] =>
    let z := eval vm_compute in (Z.of_nat n) in change (Z.of_nat n) with z end;
  case_match eqn:H; [|done]; bool_hyps; do 2 f_equal;
  repeat (rewrite slice_cons by lia); rewrite slice_zero;
  unfold be_value, at_; change le_combine with le_value; cbn [reverse rev_append];
  rewrite ?le_value_cons, ?le_value_nil, ?Z.shiftl_lor, ?Z.shiftl_0_l, ?Z.shiftl_shiftl by lia;
  rewrite ?Z.lor_0_r, ?Z.lor_0_l, ?Z.lor_assoc; rewrite <- ?Z.add_assoc; try reflexivity.
