(* ===== verification/Text.v ===== *)
(** * Text: the string routines of src/native/core/text

    ASCII helpers, the hexadecimal codec and the JSON escaping that the
    handshake, the checksums, the node identifiers and the raft log entries
    are printed with. *)

From S2P Require Import Prelude Codec.

(** ** core/text/include/text/ascii.h

    Characters are unsigned bytes; [std::tolower] and [std::isspace] are the
    ones of the "C" locale the process runs in. *)
Module Ascii.

Definition tolower (ch : Byte.byte) : Byte.byte :=
  if (65 <=? val ch) && (val ch <=? 90) then byte_of (val ch + 32) else ch.

Definition isspace (ch : Byte.byte) : bool :=
  (val ch =? 32) || ((9 <=? val ch) && (val ch <=? 13)).

Definition to_lower_ascii (value : bytes) : bytes := tolower <$> value.

Definition starts_with (value prefix : bytes) : bool :=
  (size_of prefix <=? size_of value) && bool_decide (slice value 0 (size_of prefix) = prefix).

(** The two scanning loops of [trim_ascii]. *)
Fixpoint skip_space (value : bytes) : bytes :=
  match value with
  | ch :: rest => if isspace ch then skip_space rest else value
  | [] => []
  end.

Definition trim_ascii (value : bytes) : bytes :=
  reverse (skip_space (reverse (skip_space value))).

Fixpoint equals_from (lhs rhs : bytes) : bool :=
  match lhs, rhs with
  | lch :: lhs', rch :: rhs' =>
      if bool_decide (tolower lch = tolower rch) then equals_from lhs' rhs' else false
  | _, _ => true
  end.

Definition equals_case_insensitive (lhs rhs : bytes) : bool :=
  if negb (size_of lhs =? size_of rhs) then false else equals_from lhs rhs.

Lemma starts_with_spec value prefix :
  starts_with value prefix = true <-> exists rest, value = prefix ++ rest.
Proof.
  unfold starts_with. rewrite andb_true_iff, Z.leb_le, bool_decide_eq_true. split.
  - intros [_ H]. exists (drop (length prefix) value).
    unfold slice in H. rewrite to_nat_size_of in H. simpl in H. rewrite drop_0 in H.
    rewrite <- H at 1. symmetry. apply take_drop.
  - intros [rest ->]. split; [size_lia|]. apply (slice_mid [] prefix rest).
Qed.

Lemma tolower_idem ch : tolower (tolower ch) = tolower ch.
Proof. destruct ch; reflexivity. Qed.

Lemma equals_case_insensitive_spec lhs rhs :
  equals_case_insensitive lhs rhs = true <-> to_lower_ascii lhs = to_lower_ascii rhs.
Proof.
  unfold equals_case_insensitive, to_lower_ascii, size_of.
  case_match eqn:E; bool_hyps.
  - split; [done|]. intros H. apply (f_equal length) in H. rewrite !length_fmap in H. lia.
  - revert rhs E. induction lhs as [|l lhs IH]; intros [|r rhs] E;
      cbn [equals_from fmap list_fmap length] in *; try done; try lia.
    case_bool_decide as Hc; [rewrite IH by lia; rewrite Hc|]; split; congruence.
Qed.

(** The lookups of a header map, given as the pairs in the order the map's
    iterator visits them. *)
Definition has_key_case_insensitive (map : list (bytes * bytes)) (wanted : bytes) : bool :=
  existsb (fun kv => bool_decide (to_lower_ascii kv.1 = to_lower_ascii wanted)) map.

Definition find_value_case_insensitive (map : list (bytes * bytes)) (wanted : bytes) : option bytes :=
  snd <$> List.find (fun kv => bool_decide (to_lower_ascii kv.1 = to_lower_ascii wanted)) map.

Lemma has_key_case_insensitive_spec map wanted :
  has_key_case_insensitive map wanted = true <->
  exists k v, (k, v) ∈ map /\ to_lower_ascii k = to_lower_ascii wanted.
Proof.
  unfold has_key_case_insensitive. rewrite existsb_exists. split.
  - intros ([k v] & Hin & H). exists k, v. rewrite bool_decide_eq_true in H.
    by apply list_elem_of_In in Hin.
  - intros (k & v & Hin & H). exists (k, v). rewrite bool_decide_eq_true.
    by apply list_elem_of_In in Hin.
Qed.

Lemma find_value_case_insensitive_some map wanted v :
  find_value_case_insensitive map wanted = Some v ->
  exists k, (k, v) ∈ map /\ to_lower_ascii k = to_lower_ascii wanted.
Proof.
  unfold find_value_case_insensitive. intros H. apply fmap_Some in H as ([k v'] & H & ->).
  apply find_some in H as [Hin H]. exists k. rewrite bool_decide_eq_true in H.
  by apply list_elem_of_In in Hin.
Qed.

Lemma find_value_case_insensitive_none map wanted :
  find_value_case_insensitive map wanted = None <-> has_key_case_insensitive map wanted = false.
Proof.
  unfold find_value_case_insensitive, has_key_case_insensitive. rewrite fmap_None.
  induction map as [|kv map IH]; simpl; [done|]. case_bool_decide; simpl; [|done]. split; done.
Qed.

Lemma to_lower_ascii_idem s : to_lower_ascii (to_lower_ascii s) = to_lower_ascii s.
Proof.
  unfold to_lower_ascii. rewrite <- list_fmap_compose. apply list_fmap_ext.
  intros i x _. apply tolower_idem.
Qed.

(** What trimming leaves does not start or end with white space, so trimming
    it again changes nothing. *)
Lemma skip_space_head s :
  match skip_space s with ch :: _ => isspace ch = false | [] => True end.
Proof. induction s as [|ch s IH]; simpl; [done|]. by destruct (isspace ch) eqn:E. Qed.

Lemma skip_space_id s :
  match s with ch :: _ => isspace ch = false | [] => True end -> skip_space s = s.
Proof. destruct s as [|ch s]; simpl; [done|]. by intros ->. Qed.

Lemma skip_space_suffix s : exists pre, s = pre ++ skip_space s /\ Forall (fun ch => isspace ch = true) pre.
Proof.
  induction s as [|ch s (pre & E & Hp)]; [by exists []|]. simpl. destruct (isspace ch) eqn:Hc.
  - exists (ch :: pre). simpl. rewrite <- E. by repeat constructor.
  - by exists [].
Qed.

Lemma trim_ascii_split s :
  exists pre post, s = pre ++ trim_ascii s ++ post /\
    Forall (fun ch => isspace ch = true) pre /\ Forall (fun ch => isspace ch = true) post.
Proof.
  destruct (skip_space_suffix s) as (pre & E & Hpre).
  destruct (skip_space_suffix (reverse (skip_space s))) as (post & E' & Hpost).
  exists pre, (reverse post). unfold trim_ascii.
  apply (f_equal reverse) in E'. rewrite reverse_involutive, reverse_app in E'.
  rewrite <- E'. split; [done|]. split; [done|]. by apply Forall_reverse.
Qed.

Lemma trim_ascii_idem s : trim_ascii (trim_ascii s) = trim_ascii s.
Proof.
  unfold trim_ascii at 1.
  assert (skip_space (trim_ascii s) = trim_ascii s) as ->.
  { apply skip_space_id. unfold trim_ascii.
    pose proof (skip_space_head s) as Hh.
    destruct (skip_space_suffix (reverse (skip_space s))) as (post & E & _).
    destruct (skip_space s) as [|ch r]; [done|].
    apply (f_equal reverse) in E. rewrite reverse_involutive, reverse_app in E.
    destruct (reverse (skip_space (reverse (ch :: r)))) as [|ch' r'] eqn:Er; [done|].
    simpl in E. by simplify_eq. }
  unfold trim_ascii at 1. rewrite reverse_involutive.
  rewrite (skip_space_id (skip_space _)) by apply skip_space_head. done.
Qed.

(** Lowering a text moves no white space. *)
Lemma skip_space_lower s : skip_space (to_lower_ascii s) = to_lower_ascii (skip_space s).
Proof.
  induction s as [|ch s IH]; [done|]. cbn. assert (isspace (tolower ch) = isspace ch) as -> by (by destruct ch).
  destruct (isspace ch); [exact IH|done].
Qed.

Lemma trim_lower s : trim_ascii (to_lower_ascii s) = to_lower_ascii (trim_ascii s).
Proof.
  unfold trim_ascii. rewrite skip_space_lower. unfold to_lower_ascii at 1. rewrite <- fmap_reverse.
  change (tolower <$> reverse (skip_space s)) with (to_lower_ascii (reverse (skip_space s))). rewrite skip_space_lower.
  unfold to_lower_ascii. by rewrite fmap_reverse.
Qed.

End Ascii.

(** ** [std::string::find] of a string in a string *)
Module Find.

Fixpoint contains (value needle : bytes) : bool :=
  Ascii.starts_with value needle ||
  match value with _ :: rest => contains rest needle | [] => false end.

Lemma contains_substring_spec value needle :
  contains value needle = true <-> exists pre post, value = pre ++ needle ++ post.
Proof.
  induction value as [|ch value IH]; cbn [contains]; rewrite orb_true_iff, Ascii.starts_with_spec.
  - split.
    + intros [[rest E]|]; [|done]. by exists [], rest.
    + intros ([|] & post & E); [|done]. left. by exists post.
  - rewrite IH. split.
    + intros [[rest E]|(pre & post & ->)]; [by exists [], rest|by exists (ch :: pre), post].
    + intros ([|c pre] & post & E); [left; by exists post|right]. simplify_list_eq.
      by exists pre, post.
Qed.

End Find.

(** ** core/text/src/hex_codec.cpp *)
Module Hex.

Definition hex_nibble (c : Byte.byte) : option Z :=
  if (48 <=? val c) && (val c <=? 57) then Some (val c - 48)
  else if (97 <=? val c) && (val c <=? 102) then Some (10 + (val c - 97))
  else if (65 <=? val c) && (val c <=? 70) then Some (10 + (val c - 65))
  else None.

Definition kHex : bytes := $"0123456789abcdef".

Definition hex_pair (value : Byte.byte) : bytes :=
  [nth (Z.to_nat (Z.land (Z.shiftr (val value) 4) 15)) kHex Byte.x00;
   nth (Z.to_nat (Z.land (val value) 15)) kHex Byte.x00].

Definition hex_encode (data : bytes) : bytes := concat (hex_pair <$> data).

(** The loop of [hex_decode] over [out]; the sizes agree when it runs. *)
Fixpoint hex_decode_loop (hex : bytes) : option bytes :=
  match hex with
  | [] => Some []
  | h :: l :: rest =>
      match hex_nibble h, hex_nibble l with
      | Some hi, Some lo =>
          match hex_decode_loop rest with
          | Some out => Some (byte_of (Z.lor (Z.shiftl hi 4) lo) :: out)
          | None => None
          end
      | _, _ => None
      end
  | _ => None
  end.

(** [hex_decode(hex, out)] with [out.size() = n]. *)
Definition hex_decode_into (n : Z) (hex : bytes) : option bytes :=
  if negb (size_of hex =? n * 2) then None else hex_decode_loop hex.

(** [hex_decode(hex)]. *)
Definition hex_decode (hex : bytes) : option bytes :=
  if (size_of hex =? 0) || negb (size_of hex mod 2 =? 0) then None
  else hex_decode_into (size_of hex / 2) hex.

Lemma hex_pair_nibbles b :
  exists h l, hex_pair b = [h; l] /\
    hex_nibble h = Some (Z.land (Z.shiftr (val b) 4) 15) /\
    hex_nibble l = Some (Z.land (val b) 15).
Proof.
  eexists _, _. split; [reflexivity|]. split; destruct b; reflexivity.
Qed.

Lemma nibbles_byte b :
  byte_of (Z.lor (Z.shiftl (Z.land (Z.shiftr (val b) 4) 15) 4) (Z.land (val b) 15)) = b.
Proof. destruct b; reflexivity. Qed.

Lemma size_hex_encode data : size_of (hex_encode data) = size_of data * 2.
Proof.
  unfold hex_encode. induction data as [|b data IH]; [done|].
  rewrite fmap_cons, concat_cons, size_of_app, IH, size_of_cons.
  destruct (hex_pair_nibbles b) as (h & l & -> & _). rewrite !size_of_cons, size_of_nil. lia.
Qed.

Lemma hex_decode_loop_encode data : hex_decode_loop (hex_encode data) = Some data.
Proof.
  unfold hex_encode. induction data as [|b data IH]; [done|].
  rewrite fmap_cons, concat_cons. destruct (hex_pair_nibbles b) as (h & l & -> & Hh & Hl).
  cbn [app hex_decode_loop]. rewrite Hh, Hl, IH. by rewrite nibbles_byte.
Qed.

Lemma hex_decode_into_encode n data :
  size_of data = n -> hex_decode_into n (hex_encode data) = Some data.
Proof.
  intros <-. unfold hex_decode_into. rewrite size_hex_encode, Z.eqb_refl.
  apply hex_decode_loop_encode.
Qed.

Lemma hex_decode_loop_size n hex out :
  size_of hex = n * 2 -> hex_decode_loop hex = Some out -> size_of out = n.
Proof.
  revert hex n out. fix IH 1. intros [|h [|l rest]] n out Hn; cbn [hex_decode_loop].
  - intros [= <-]. rewrite size_of_nil in *. lia.
  - done.
  - destruct (hex_nibble h), (hex_nibble l); try done.
    destruct (hex_decode_loop rest) as [o|] eqn:E; [|done]. intros [= <-].
    rewrite !size_of_cons in *. rewrite (IH rest (n - 1) o); [lia|lia|done].
Qed.

Lemma hex_decode_into_size n hex out : hex_decode_into n hex = Some out -> size_of out = n.
Proof.
  unfold hex_decode_into. case_match eqn:E; [done|]. bool_hyps. by apply hex_decode_loop_size.
Qed.

End Hex.

(** ** core/text/src/json_escape.cpp *)
Module Json.

Definition chr (c : Ascii.ascii) : Byte.byte := Ascii.byte_of_ascii c.

Definition hex_digit (value : Z) : Byte.byte :=
  byte_of (if value <? 10 then 48 + value else 97 + (value - 10)).

Definition append_escaped_control (ch : Byte.byte) : bytes :=
  if val ch =? 8 then $"\b"
  else if val ch =? 12 then $"\f"
  else if val ch =? 10 then $"\n"
  else if val ch =? 13 then $"\r"
  else if val ch =? 9 then $"\t"
  else $"\u00" ++ [hex_digit (Z.land (Z.shiftr (val ch) 4) 15); hex_digit (Z.land (val ch) 15)].

(** What [escape_json_string] appends for one character. *)
Definition escape_char (ch : Byte.byte) : bytes :=
  if val ch =? 34 then [Byte.x5c; Byte.x22]
  else if val ch =? 92 then [Byte.x5c; Byte.x5c]
  else if val ch =? 10 then $"\n"
  else if val ch =? 13 then $"\r"
  else if val ch =? 9 then $"\t"
  else if val ch <? 32 then append_escaped_control ch
  else [ch].

Definition escape_json_string (value : bytes) : bytes := concat (escape_char <$> value).

Definition quote_json_string (value : bytes) : bytes :=
  [Byte.x22] ++ escape_json_string value ++ [Byte.x22].

(** The loop of [sanitize_serialized_json] with its two flags. *)
Fixpoint sanitize_loop (json : bytes) (in_string escaped : bool) : bytes :=
  match json with
  | [] => []
  | ch :: rest =>
      if negb in_string then
        ch :: sanitize_loop rest (if val ch =? 34 then true else false) escaped
      else if escaped then ch :: sanitize_loop rest true false
      else if val ch =? 92 then ch :: sanitize_loop rest true true
      else if val ch =? 34 then ch :: sanitize_loop rest false false
      else if val ch <? 32 then append_escaped_control ch ++ sanitize_loop rest true false
      else ch :: sanitize_loop rest true false
  end.

Definition sanitize_serialized_json (json : bytes) : bytes := sanitize_loop json false false.

(** *** Reference reader of a quoted JSON string (RFC 8259, one-byte escapes) *)

Definition unescape_simple (e : Byte.byte) : option Byte.byte :=
  if val e =? 34 then Some Byte.x22
  else if val e =? 92 then Some Byte.x5c
  else if val e =? 98 then Some Byte.x08
  else if val e =? 102 then Some Byte.x0c
  else if val e =? 110 then Some Byte.x0a
  else if val e =? 114 then Some Byte.x0d
  else if val e =? 116 then Some Byte.x09
  else None.

Definition push_front (ch : Byte.byte) (r : option (bytes * bytes)) : option (bytes * bytes) :=
  match r with Some (v, rest) => Some (ch :: v, rest) | None => None end.

(** Characters up to the closing quote, and what follows it. *)
Fixpoint read_chars (s : bytes) : option (bytes * bytes) :=
  match s with
  | [] => None
  | c :: s1 =>
      if val c =? 34 then Some ([], s1)
      else if val c <? 32 then None
      else if val c =? 92 then
        match s1 with
        | e :: s2 =>
            if val e =? 117 then
              match s2 with
              | Byte.x30 :: Byte.x30 :: h :: l :: s3 =>
                  match Hex.hex_nibble h, Hex.hex_nibble l with
                  | Some hi, Some lo => push_front (byte_of (hi * 16 + lo)) (read_chars s3)
                  | _, _ => None
                  end
              | _ => None
              end
            else match unescape_simple e with
                 | Some ch => push_front ch (read_chars s2)
                 | None => None
                 end
        | [] => None
        end
      else push_front c (read_chars s1)
  end.

Definition read_json_string (s : bytes) : option (bytes * bytes) :=
  match s with
  | c :: s1 => if val c =? 34 then read_chars s1 else None
  | [] => None
  end.

Lemma read_chars_escape_char ch s :
  read_chars (escape_char ch ++ s) = push_front ch (read_chars s).
Proof. destruct ch; reflexivity. Qed.

Lemma read_chars_escape value rest :
  read_chars (escape_json_string value ++ [Byte.x22] ++ rest) = Some (value, rest).
Proof.
  unfold escape_json_string. induction value as [|ch value IH]; [done|].
  rewrite fmap_cons, concat_cons, <- app_assoc, read_chars_escape_char, IH. done.
Qed.

Lemma read_quote value rest :
  read_json_string (quote_json_string value ++ rest) = Some (value, rest).
Proof.
  unfold quote_json_string. rewrite <- !app_assoc. cbn [app read_json_string].
  change (val Byte.x22 =? 34) with true. cbn. apply read_chars_escape.
Qed.

Lemma quote_app_inj v1 r1 v2 r2 :
  quote_json_string v1 ++ r1 = quote_json_string v2 ++ r2 -> v1 = v2 /\ r1 = r2.
Proof.
  intros H. apply (f_equal read_json_string) in H. rewrite !read_quote in H. by simplify_eq.
Qed.

(** Sanitising leaves an escaped string alone. *)
Lemma sanitize_escape_char ch s :
  sanitize_loop (escape_char ch ++ s) true false = escape_char ch ++ sanitize_loop s true false.
Proof. destruct ch; reflexivity. Qed.

Lemma sanitize_quoted value :
  sanitize_serialized_json (quote_json_string value) = quote_json_string value.
Proof.
  unfold sanitize_serialized_json, quote_json_string, escape_json_string.
  cbn [app sanitize_loop negb]. change (val Byte.x22 =? 34) with true. f_equal.
  induction value as [|ch value IH]; [done|].
  by rewrite fmap_cons, concat_cons, <- !app_assoc, sanitize_escape_char, IH.
Qed.

End Json.
