(* ===== verification/Lattice.v ===== *)
(** * Lattice: the interface a convergent replicated type implements

    A state-based replica converges when its [merge] is a join: associative,
    commutative and idempotent on the states the replicas can hold.  [JoinOn]
    is that interface, relative to the set [S] of those states, and
    [join_fold_same_elements] is the theorem its clients use: replicas that
    saw the same states, in whatever order and however often, hold the same
    state. *)

From S2P Require Import Prelude.

Class JoinOn {A} (S : A -> Prop) (join : A -> A -> A) : Prop := {
  join_closed x y : S x -> S y -> S (join x y);
  join_assoc x y z : S x -> S y -> S z -> join x (join y z) = join (join x y) z;
  join_comm x y : S x -> S y -> join x y = join y x;
  join_idem x : S x -> join x x = x
}.

Section fold.
Context {A} {S : A -> Prop} {join : A -> A -> A} {HJ : JoinOn S join}.

Definition below (x y : A) : Prop := join x y = y.

Lemma below_antisym x y : S x -> S y -> below x y -> below y x -> x = y.
Proof. unfold below. intros Hx Hy H1 H2. rewrite <- H2, join_comm by done. done. Qed.

Lemma below_trans x y z : S x -> S y -> S z -> below x y -> below y z -> below x z.
Proof. unfold below. intros Hx Hy Hz H1 H2. by rewrite <- H2, join_assoc, H1. Qed.

Lemma below_join_l x y : S x -> S y -> below x (join x y).
Proof. unfold below. intros Hx Hy. by rewrite join_assoc, join_idem. Qed.

Lemma below_join_r x y : S x -> S y -> below y (join x y).
Proof. intros Hx Hy. rewrite join_comm by done. by apply below_join_l. Qed.

Lemma join_below x y u : S x -> S y -> S u -> below x u -> below y u -> below (join x y) u.
Proof. unfold below. intros Hx Hy Hu H1 H2. by rewrite <- join_assoc, H2, H1. Qed.

Lemma fold_closed l s : S s -> Forall S l -> S (foldl join s l).
Proof.
  intros Hs Hl. revert s Hs. induction Hl; intros s Hs; [done|]. apply IHHl.
  by apply join_closed.
Qed.

Lemma fold_above l s : S s -> Forall S l ->
  below s (foldl join s l) /\ forall x, x ∈ l -> below x (foldl join s l).
Proof.
  intros Hs Hl. revert s Hs. induction Hl as [|y l Hy Hl IH]; intros s Hs; cbn [foldl].
  - split; [by apply join_idem|]. intros x Hx. by apply elem_of_nil in Hx.
  - destruct (IH (join s y)) as [H1 H2]; [by apply join_closed|].
    assert (S (join s y)) by by apply join_closed.
    assert (S (foldl join (join s y) l)) by by apply fold_closed.
    split; [by eapply below_trans, H1; [..|apply below_join_l]|].
    intros x [->|Hx]%elem_of_cons; [|by apply H2].
    by eapply below_trans, H1; [..|apply below_join_r].
Qed.

Lemma fold_least l s u : S s -> Forall S l -> S u ->
  below s u -> (forall x, x ∈ l -> below x u) -> below (foldl join s l) u.
Proof.
  intros Hs Hl Hu. revert s Hs. induction Hl as [|y l Hy Hl IH]; intros s Hs H1 H2; [done|].
  apply IH; [by apply join_closed| |intros x Hx; apply H2; by right].
  apply join_below; try done. apply H2. by left.
Qed.

(** Merging the same states, in any order and any number of times, gives the
    same replica. *)
Lemma join_fold_same_elements l1 l2 s : S s -> Forall S l1 -> Forall S l2 ->
  (forall x, x ∈ l1 <-> x ∈ l2) -> foldl join s l1 = foldl join s l2.
Proof.
  intros Hs H1 H2 He.
  destruct (fold_above l1 s Hs H1) as [A1 B1], (fold_above l2 s Hs H2) as [A2 B2].
  apply below_antisym; eauto using fold_closed;
    apply fold_least; eauto using fold_closed; intros x Hx; apply He in Hx; auto.
Qed.
End fold.

(** ** The join of a strict total order: keep the greater of two values

    [wins a b]: a value stamped [b] replaces one stamped [a]. *)
Section keep_greater.
Context {A} (S : A -> Prop) (wins : A -> A -> bool).
Context (wins_trans : forall x y z, S x -> S y -> S z ->
           wins x y = true -> wins y z = true -> wins x z = true).
Context (wins_asym : forall x y, wins x y = true -> wins y x = false).
Context (wins_total : forall x y, S x -> S y ->
           wins x y = false -> wins y x = false -> x = y).

Definition keep (x y : A) : A := if wins x y then y else x.

Lemma keep_join : JoinOn S keep.
Proof using All.
  unfold keep. split.
  - intros x y Hx Hy. by case_match.
  - intros x y z Hx Hy Hz.
    destruct (wins y z) eqn:E1, (wins x y) eqn:E2; rewrite ?E1, ?E2; try done.
    + by rewrite (wins_trans x y z).
    + destruct (wins x z) eqn:E3; [|done]. exfalso.
      destruct (wins z y) eqn:E4; [rewrite (wins_trans x z y) in E2; done|].
      rewrite (wins_total y z) in E2; congruence.
  - intros x y Hx Hy. destruct (wins x y) eqn:E1, (wins y x) eqn:E2; try done.
    + apply wins_asym in E1. congruence.
    + by apply wins_total.
  - intros x Hx. by case_match.
Qed.
End keep_greater.
