(* ===== verification/Hlc.v ===== *)
(** * Hlc: the hybrid logical clock

    src/native/sync/include/hlc.h and src/native/sync/src/hlc.cpp.  The clock
    object is its [current_] value; an event returns the new value, which is
    also what the code returns to the caller.  [wall] is a uint64, [counter]
    and [site_id] are uint32 and wrap. *)

From S2P Require Import Prelude.

Record Hlc := mkHlc { wall : Z; counter : Z; hlc_site : Z }.

#[global] Instance hlc_eq_dec : EqDecision Hlc.
Proof. solve_decision. Defined.

Definition valid_hlc (h : Hlc) : Prop :=
  in_uint 64 (wall h) /\ in_uint 32 (counter h) /\ in_uint 32 (hlc_site h).

Definition compare_hlc (lhs rhs : Hlc) : Z :=
  if negb (wall lhs =? wall rhs) then (if wall lhs <? wall rhs then -1 else 1)
  else if negb (counter lhs =? counter rhs) then (if counter lhs <? counter rhs then -1 else 1)
  else if negb (hlc_site lhs =? hlc_site rhs) then (if hlc_site lhs <? hlc_site rhs then -1 else 1)
  else 0.

(** [HlcClock::HlcClock(site_id, wall, counter)]. *)
Definition HlcClock (site w c : Z) : Hlc := mkHlc w c site.

Definition on_local_event (current : Hlc) (now_wall_ms : Z) : Hlc :=
  mkHlc (Z.max (wall current) now_wall_ms) (u32 (counter current + 1)) (hlc_site current).

Definition on_remote_event (current remote : Hlc) (now_wall_ms : Z) : Hlc :=
  let merged_wall := Z.max (Z.max (wall current) (wall remote)) now_wall_ms in
  let counter' :=
    if merged_wall =? wall remote
    then u32 (Z.max (counter current) (counter remote) + 1)
    else 0 in
  mkHlc merged_wall counter' (hlc_site current).

(** ** The order [compare_hlc] decides *)

Definition hlc_lt (a b : Hlc) : Prop :=
  wall a < wall b \/ wall a = wall b /\
    (counter a < counter b \/ counter a = counter b /\ hlc_site a < hlc_site b).

Ltac hlc_cases :=
  unfold compare_hlc, hlc_lt in *;
  repeat match goal with
  | |- context [?x =? ?y] => destruct (Z.eqb_spec x y)
  | |- context [?x <? ?y] => destruct (Z.ltb_spec x y)
  | H : context [?x =? ?y] |- _ => destruct (Z.eqb_spec x y)
  | H : context [?x <? ?y] |- _ => destruct (Z.ltb_spec x y)
  end; cbn [negb] in *; try lia.

Lemma compare_hlc_lt a b : compare_hlc a b = -1 <-> hlc_lt a b.
Proof. hlc_cases. Qed.

Lemma compare_hlc_gt a b : 0 < compare_hlc a b <-> hlc_lt b a.
Proof. hlc_cases. Qed.

Lemma compare_hlc_eq a b : compare_hlc a b = 0 <-> a = b.
Proof.
  split; [|intros ->; hlc_cases]. destruct a as [w1 c1 s1], b as [w2 c2 s2].
  intros H. hlc_cases; simpl in *; try lia. congruence.
Qed.

Lemma compare_hlc_range a b : compare_hlc a b = -1 \/ compare_hlc a b = 0 \/ compare_hlc a b = 1.
Proof. hlc_cases. Qed.

Lemma compare_hlc_antisym a b : compare_hlc b a = - compare_hlc a b.
Proof. hlc_cases. Qed.

#[global] Instance hlc_lt_strict : StrictOrder hlc_lt.
Proof. split; repeat intro; unfold hlc_lt in *; lia. Qed.

Lemma hlc_lt_total a b : hlc_lt a b \/ a = b \/ hlc_lt b a.
Proof.
  rewrite <- compare_hlc_eq, <- compare_hlc_lt, <- compare_hlc_gt.
  pose proof (compare_hlc_range a b). lia.
Qed.

(** ** The clock as a transition system *)

Inductive clock_step : Hlc -> Hlc -> Prop :=
| step_local c now :
    in_uint 64 now -> clock_step c (on_local_event c now)
| step_remote c remote now :
    valid_hlc remote -> in_uint 64 now -> clock_step c (on_remote_event c remote now).

Lemma clock_step_valid c c' : clock_step c c' -> valid_hlc c -> valid_hlc c'.
Proof.
  intros Hs (Hw & Hc & Hsite).
  destruct Hs as [c now Hn|c remote now (Hrw & Hrc & Hrs) Hn]; split_and!; simpl; try done.
  - unfold in_uint in *. lia.
  - by apply wrap_in.
  - unfold in_uint in *. lia.
  - case_match; [by apply wrap_in|]. unfold in_uint in *. lia.
Qed.

Lemma clock_step_wall c c' : clock_step c c' -> wall c <= wall c' /\ hlc_site c' = hlc_site c.
Proof. destruct 1; simpl; lia. Qed.

(** [compare_hlc] decides a total order on timestamps: its sign is that of the
    lexicographic order of (wall, counter, site), it answers 0 exactly on equal
    timestamps, and swapping the arguments negates it. *)
Theorem compare_hlc_total_order a b c :
  (compare_hlc a b = -1 <-> hlc_lt a b) /\ (compare_hlc a b = 1 <-> hlc_lt b a) /\
  (compare_hlc a b = 0 <-> a = b) /\ compare_hlc b a = - compare_hlc a b /\
  (compare_hlc a b = -1 -> compare_hlc b c = -1 -> compare_hlc a c = -1).
Proof.
  split_and!.
  - apply compare_hlc_lt.
  - rewrite <- compare_hlc_gt. pose proof (compare_hlc_range a b). lia.
  - apply compare_hlc_eq.
  - apply compare_hlc_antisym.
  - rewrite !compare_hlc_lt. apply transitivity.
Qed.

Lemma compare_hlc_total_order_witness :
  compare_hlc (mkHlc 1 0 0) (mkHlc 3 0 0) = -1.
Proof.
  apply (compare_hlc_total_order (mkHlc 1 0 0) (mkHlc 2 5 0) (mkHlc 3 0 0)); reflexivity.
Defined.

(** Whatever events a clock sees, its wall component never goes back, its site
    stays the same and its fields stay within their machine widths. *)
Theorem clock_run_invariant c c' :
  rtc clock_step c c' -> valid_hlc c ->
  valid_hlc c' /\ wall c <= wall c' /\ hlc_site c' = hlc_site c.
Proof.
  induction 1 as [c|c c1 c' Hs Hrun IH]; intros Hv; [split_and!; done || lia|].
  destruct (clock_step_wall _ _ Hs). apply clock_step_valid in Hs; [|done].
  destruct (IH Hs) as (? & ? & ?). split_and!; [done|lia|congruence].
Qed.

Lemma clock_run_invariant_witness :
  rtc clock_step (HlcClock 7 100 3) (mkHlc 120 5 7) /\
  (valid_hlc (mkHlc 120 5 7) /\ 100 <= 120 /\ 7 = 7).
Proof.
  assert (rtc clock_step (HlcClock 7 100 3) (mkHlc 120 5 7)) as Hrun.
  { eapply rtc_l; [apply (step_local _ 90); split; lia|].
    eapply rtc_l; [apply (step_remote _ (mkHlc 120 1 9) 110)|apply rtc_refl];
      repeat split; simpl; lia. }
  split; [exact Hrun|].
  apply (clock_run_invariant _ _ Hrun). repeat split; simpl; lia.
Defined.

(** Events that move the clock strictly forward: every local event, unless the
    32-bit counter wraps; and a remote event whose wall is not behind the local
    one, which also passes the remote timestamp. *)
Theorem clock_advances current remote now :
  (counter current + 1 < 2 ^ 32 -> 0 <= counter current ->
     hlc_lt current (on_local_event current now)) /\
  (wall current <= wall remote -> now <= wall remote ->
   0 <= counter current -> 0 <= counter remote ->
   Z.max (counter current) (counter remote) + 1 < 2 ^ 32 ->
     hlc_lt current (on_remote_event current remote now) /\
     hlc_lt remote (on_remote_event current remote now)).
Proof.
  unfold hlc_lt, on_local_event, on_remote_event. cbn [wall counter hlc_site].
  split.
  - intros H H0. rewrite wrap_small by (split; lia). lia.
  - intros Hw Hn Hc Hr H.
    replace (Z.max (Z.max (wall current) (wall remote)) now) with (wall remote) by lia.
    rewrite Z.eqb_refl, wrap_small by (split; lia). lia.
Qed.

Lemma clock_advances_witness :
  hlc_lt (mkHlc 5 0 1) (on_local_event (mkHlc 5 0 1) 3) /\
  hlc_lt (mkHlc 9 4 2) (on_remote_event (mkHlc 5 0 1) (mkHlc 9 4 2) 3).
Proof.
  split; apply (clock_advances (mkHlc 5 0 1) (mkHlc 9 4 2) 3); simpl; lia.
Defined.

(** A remote event whose wall is behind the local clock, received before the
    physical clock caught up, resets the counter to 0: the clock moves back
    whenever it had issued an event at that wall, and the next local event
    reissues a timestamp the node has already handed out. *)
Theorem remote_event_reissues_timestamp c remote now :
  wall remote < wall c -> now <= wall c -> counter c = 0 ->
  let issued := on_local_event c now in
  let after := on_remote_event issued remote now in
  hlc_lt after issued /\ on_local_event after now = issued.
Proof.
  intros Hw Hn Hc. unfold on_local_event, on_remote_event, hlc_lt. cbn [wall counter hlc_site].
  rewrite Hc. change (u32 (0 + 1)) with 1.
  replace (Z.max (wall c) now) with (wall c) by lia.
  replace (Z.max (Z.max (wall c) (wall remote)) now) with (wall c) by lia.
  destruct (Z.eqb_spec (wall c) (wall remote)); [lia|].
  replace (Z.max (wall c) now) with (wall c) by lia.
  split; [lia|]. done.
Qed.

Lemma remote_event_reissues_timestamp_witness :
  hlc_lt (on_remote_event (on_local_event (mkHlc 100 0 1) 90) (mkHlc 50 8 2) 95)
         (on_local_event (mkHlc 100 0 1) 90) /\
  on_local_event (on_remote_event (on_local_event (mkHlc 100 0 1) 90) (mkHlc 50 8 2) 90) 90
    = mkHlc 100 1 1.
Proof.
  split.
  - unfold hlc_lt. vm_compute. right. split; [done|]. by left.
  - apply (remote_event_reissues_timestamp (mkHlc 100 0 1) (mkHlc 50 8 2) 90); simpl; lia.
Defined.
