(* ===== verification/Conflict.v ===== *)
(** * Conflict: which replica wins a row

    src/native/sync/src/conflict_resolver.cpp.  The process-wide resolution
    mode (an atomic with relaxed loads) is the argument [mode]; the other
    functions depend on the table name only. *)

From S2P Require Import Prelude Text Lattice Hlc.

Inductive ConflictDecision := KeepLocal | ApplyRemote.

Inductive ConflictStrategy :=
| RaftLinearizable | LwwByHlc | CrdtPnCounterMerge | CrdtOrSetAddWins | LocalOnly.

Inductive RuntimeConflictResolution := Lww | SitePriority | FieldMerge.

#[global] Instance decision_eq_dec : EqDecision ConflictDecision.
Proof. solve_decision. Defined.
#[global] Instance strategy_eq_dec : EqDecision ConflictStrategy.
Proof. solve_decision. Defined.

Record TableRule := mkRule { rule_table : bytes; rule_strategy : ConflictStrategy; replicated : bool }.

Definition parse_runtime_conflict_resolution (strategy : bytes) : RuntimeConflictResolution :=
  if bool_decide (strategy = $"site_priority") then SitePriority
  else if bool_decide (strategy = $"field_merge") then FieldMerge
  else Lww.

Definition runtime_conflict_resolution_name (mode : RuntimeConflictResolution) : bytes :=
  match mode with
  | SitePriority => $"site_priority"
  | FieldMerge => $"field_merge"
  | Lww => $"lww"
  end.

Definition kTableRules : list TableRule :=
  [mkRule $"accounts" RaftLinearizable true;
   mkRule $"dashboard_settings" RaftLinearizable true;
   mkRule $"api_keys" RaftLinearizable true;
   mkRule $"api_key_limits" RaftLinearizable true;
   mkRule $"ip_allowlist" CrdtOrSetAddWins true;
   mkRule $"usage_history" CrdtPnCounterMerge true;
   mkRule $"sticky_sessions" LwwByHlc true;
   mkRule $"request_logs" LocalOnly false;
   mkRule $"_sync_journal" LocalOnly false;
   mkRule $"_sync_meta" LocalOnly false;
   mkRule $"_sync_last_seen" LocalOnly false].

Definition local_prefix_rule : TableRule := mkRule [] LocalOnly false.

Fixpoint find_in_rules (rules : list TableRule) (table_name : bytes) : option TableRule :=
  match rules with
  | [] => None
  | rule :: rest =>
      if bool_decide (rule_table rule = table_name) then Some rule
      else find_in_rules rest table_name
  end.

(** [table_name.rfind(prefix, 0) == 0] holds exactly at a prefix. *)
Definition find_rule (table_name : bytes) : option TableRule :=
  match find_in_rules kTableRules table_name with
  | Some rule => Some rule
  | None =>
      if Ascii.starts_with table_name $"_sync_" || Ascii.starts_with table_name $"_raft_"
      then Some local_prefix_rule else None
  end.

Definition resolve_lww (mode : RuntimeConflictResolution) (remote local : Hlc) : ConflictDecision :=
  match mode with
  | SitePriority =>
      if negb (hlc_site remote =? hlc_site local)
      then (if hlc_site remote >? hlc_site local then ApplyRemote else KeepLocal)
      else if compare_hlc remote local >? 0 then ApplyRemote else KeepLocal
  | FieldMerge =>
      if negb (wall remote =? wall local)
      then (if wall remote >? wall local then ApplyRemote else KeepLocal)
      else if negb (counter remote =? counter local)
      then (if counter remote >? counter local then ApplyRemote else KeepLocal)
      else KeepLocal
  | Lww => if compare_hlc remote local >? 0 then ApplyRemote else KeepLocal
  end.

Definition conflict_strategy_for_table (table_name : bytes) : ConflictStrategy :=
  match find_rule table_name with Some rule => rule_strategy rule | None => LwwByHlc end.

Definition is_table_replicated (table_name : bytes) : bool :=
  match find_rule table_name with Some rule => replicated rule | None => true end.

Definition replicated_table_names : list bytes :=
  rule_table <$> filter (fun rule => replicated rule = true) kTableRules.

Definition table_requires_raft (table_name : bytes) : bool :=
  bool_decide (conflict_strategy_for_table table_name = RaftLinearizable).

Definition resolve_table_conflict (mode : RuntimeConflictResolution) (table_name : bytes)
    (remote local : Hlc) : ConflictDecision :=
  match conflict_strategy_for_table table_name with
  | LocalOnly | RaftLinearizable => KeepLocal
  | LwwByHlc | CrdtPnCounterMerge | CrdtOrSetAddWins => resolve_lww mode remote local
  end.

(** ** Rows that replicas resolve one against another *)

Definition wins (mode : RuntimeConflictResolution) (local remote : Hlc) : bool :=
  bool_decide (resolve_lww mode remote local = ApplyRemote).

(** A row's stamp after each of [remotes] was resolved against it. *)
Definition resolve_all (mode : RuntimeConflictResolution) (local : Hlc) (remotes : list Hlc) : Hlc :=
  foldl (keep (wins mode)) local remotes.

Definition wins_spec (mode : RuntimeConflictResolution) (a b : Hlc) : Prop :=
  match mode with
  | Lww => hlc_lt a b
  | SitePriority => hlc_site a < hlc_site b \/ hlc_site a = hlc_site b /\ hlc_lt a b
  | FieldMerge => wall a < wall b \/ wall a = wall b /\ counter a < counter b
  end.

Lemma wins_iff mode a b : wins mode a b = true <-> wins_spec mode a b.
Proof.
  unfold wins, wins_spec. rewrite bool_decide_eq_true.
  destruct mode; rewrite <- ?compare_hlc_gt; unfold resolve_lww;
  repeat match goal with
  | |- context [?x =? ?y] => destruct (Z.eqb_spec x y)
  | |- context [?x >? ?y] => rewrite (Z.gtb_ltb x y); destruct (Z.ltb_spec y x)
  end; cbn [negb]; split; intros; first [done | lia | exfalso; lia].
Qed.

Lemma wins_false mode a b : wins mode a b = false <-> ~ wins_spec mode a b.
Proof. rewrite <- wins_iff. destruct (wins mode a b); naive_solver. Qed.

Lemma resolve_join mode : mode <> FieldMerge -> JoinOn (fun _ => True) (keep (wins mode)).
Proof.
  intros Hm. apply keep_join.
  - intros x y z _ _ _. rewrite !wins_iff. unfold wins_spec, hlc_lt. destruct mode; [lia|lia|done].
  - intros x y. rewrite wins_iff, wins_false. unfold wins_spec, hlc_lt. destruct mode; lia.
  - intros x y _ _. rewrite !wins_false. intros H1 H2.
    destruct (hlc_lt_total x y) as [Hl|[->|Hl]]; [exfalso|done|exfalso];
      unfold wins_spec, hlc_lt in *; destruct mode; lia || done.
Qed.

(** Two replicas that resolve each other's row agree on the winner: under "lww"
    and "site_priority" exactly one of two different stamps wins, and under
    every mode a stamp never wins over itself. *)
Theorem resolve_lww_agree mode a b :
  resolve_lww mode a a = KeepLocal /\
  (mode <> FieldMerge -> a <> b ->
   (resolve_lww mode a b = ApplyRemote <-> resolve_lww mode b a = KeepLocal)).
Proof.
  assert (forall x y, resolve_lww mode x y = ApplyRemote <-> wins mode y x = true) as E.
  { intros x y. unfold wins. by rewrite bool_decide_eq_true. }
  assert (forall x y, resolve_lww mode x y = KeepLocal <-> wins mode y x = false) as F.
  { intros x y. rewrite <- not_true_iff_false, <- E. by destruct (resolve_lww mode x y). }
  split.
  - rewrite F, wins_false. unfold wins_spec, hlc_lt. destruct mode; lia.
  - intros Hm Hne. rewrite E, F, wins_iff, wins_false.
    destruct (hlc_lt_total a b) as [Hl|[->|Hl]]; [|done|];
      unfold wins_spec, hlc_lt in *; destruct mode; lia || done.
Qed.

Lemma resolve_lww_agree_witness :
  resolve_lww Lww (mkHlc 5 1 1) (mkHlc 5 1 2) = KeepLocal /\
  (resolve_lww SitePriority (mkHlc 9 1 1) (mkHlc 5 1 2) = ApplyRemote <->
   resolve_lww SitePriority (mkHlc 5 1 2) (mkHlc 9 1 1) = KeepLocal).
Proof.
  split; [reflexivity|].
  apply (resolve_lww_agree SitePriority (mkHlc 9 1 1) (mkHlc 5 1 2)); discriminate.
Defined.

(** Rows converge: replicas that resolved the same set of stamps against a
    common row, in any order and with any repetitions, keep the same stamp
    under "lww" and "site_priority". *)
Theorem resolve_all_convergent mode l1 l2 start :
  mode <> FieldMerge -> (forall h, h ∈ l1 <-> h ∈ l2) ->
  resolve_all mode start l1 = resolve_all mode start l2.
Proof.
  intros Hm He. pose proof (resolve_join mode Hm).
  apply (join_fold_same_elements (S := fun _ => True)); try done; by apply Forall_true.
Qed.

Lemma resolve_all_convergent_witness :
  resolve_all Lww (mkHlc 0 0 0) [mkHlc 5 1 1; mkHlc 7 0 2] =
  resolve_all Lww (mkHlc 0 0 0) [mkHlc 7 0 2; mkHlc 5 1 1; mkHlc 7 0 2].
Proof.
  apply (resolve_all_convergent Lww); [discriminate|].
  intros h. rewrite !elem_of_cons, elem_of_nil. split; intros H;
    repeat destruct H as [H|H]; auto.
Defined.

(** Under "field_merge" they do not: two replicas with concurrent rows (same
    wall and counter, different sites) both keep their own row, whichever way
    the rows are exchanged. *)
Theorem field_merge_diverges a b :
  wall a = wall b -> counter a = counter b -> a <> b ->
  resolve_all FieldMerge a [b] = a /\ resolve_all FieldMerge b [a] = b /\
  resolve_all FieldMerge a [b] <> resolve_all FieldMerge b [a].
Proof.
  intros Hw Hc Hne.
  assert (resolve_all FieldMerge a [b] = a /\ resolve_all FieldMerge b [a] = b) as [-> ->];
    [|done].
  unfold resolve_all, keep. cbn [foldl].
  rewrite !(proj2 (wins_false _ _ _)) by (simpl; lia). done.
Qed.

Lemma field_merge_diverges_witness :
  resolve_all FieldMerge (mkHlc 5 1 1) [mkHlc 5 1 2] = mkHlc 5 1 1 /\
  resolve_all FieldMerge (mkHlc 5 1 2) [mkHlc 5 1 1] = mkHlc 5 1 2 /\
  resolve_all FieldMerge (mkHlc 5 1 1) [mkHlc 5 1 2] <>
    resolve_all FieldMerge (mkHlc 5 1 2) [mkHlc 5 1 1].
Proof. apply field_merge_diverges; [reflexivity|reflexivity|discriminate]. Defined.

(** Rows of a table the raft log owns or that is local to the node are never
    taken from a peer; the tables the resolver calls replicated are exactly the
    ones that are not local; and every table named _sync_* or _raft_* is local. *)
Theorem table_rules_safe mode table remote local :
  (table_requires_raft table = true -> resolve_table_conflict mode table remote local = KeepLocal) /\
  (is_table_replicated table = false -> resolve_table_conflict mode table remote local = KeepLocal) /\
  (is_table_replicated table = false <-> conflict_strategy_for_table table = LocalOnly) /\
  (Ascii.starts_with table $"_sync_" || Ascii.starts_with table $"_raft_" = true ->
   is_table_replicated table = false).
Proof.
  assert (is_table_replicated table = false <-> conflict_strategy_for_table table = LocalOnly) as E.
  { unfold is_table_replicated, conflict_strategy_for_table, find_rule, kTableRules.
    cbn [find_in_rules]. by repeat case_match; simplify_eq. }
  split_and!; [| |exact E|].
  - unfold table_requires_raft, resolve_table_conflict. rewrite bool_decide_eq_true. by intros ->.
  - rewrite E. unfold resolve_table_conflict. by intros ->.
  - intros Hp. unfold is_table_replicated, find_rule. rewrite Hp. unfold kTableRules.
    cbn [find_in_rules rule_table].
    repeat (case_bool_decide; [subst table; vm_compute in Hp; try discriminate; done|]). done.
Qed.

Lemma table_rules_safe_witness :
  resolve_table_conflict Lww $"api_keys" (mkHlc 9 9 9) (mkHlc 1 1 1) = KeepLocal /\
  is_table_replicated $"_raft_votes" = false.
Proof.
  split.
  - apply (proj1 (table_rules_safe Lww $"api_keys" _ _)). reflexivity.
  - apply (table_rules_safe Lww $"_raft_votes" (mkHlc 9 9 9) (mkHlc 1 1 1)). reflexivity.
Defined.
