(* ===== verification/Crdt.v ===== *)
(** * Crdt: the replicated data types

    The templates of src/native/sync/include/crdt.  A [flat_map] is a finite
    map; [operator[]] inserts the default value.  Counts are [int64_t]: an
    addition that leaves the type is undefined behaviour and yields [None].
    Each [merge] implements the interface [JoinOn] of Lattice.v, from which
    the convergence theorems follow. *)

From S2P Require Import Prelude Text Lattice Hlc.

(** ** g_counter.h *)
Module GCounter.

Abbreviation t := (gmap Z Z).

Definition increment (counts_ : t) (site_id delta : Z) : option t :=
  if delta <=? 0 then Some counts_
  else match checked_sint 64 (default 0 (counts_ !! site_id) + delta) with
       | Some count => Some (<[site_id := count]> counts_)
       | None => None
       end.

Definition set_count (counts_ : t) (site_id absolute_value : Z) : t :=
  <[site_id := Z.max absolute_value 0]> counts_.

(** The running sum; counts are never negative ([wf]), so whether it overflows
    does not depend on the order of the iteration. *)
Definition value (counts_ : t) : option Z :=
  map_fold (fun _ count sum => sum ≫= fun s => checked_sint 64 (s + count)) (Some 0) counts_.

Definition merge_count (own : option Z) (count : Z) : Z :=
  match own with None => count | Some c => Z.max c count end.

Definition merge (counts_ other : t) : t := map_update merge_count counts_ other.

Definition wf (counts_ : t) : Prop := map_Forall (fun _ n => 0 <= n) counts_.

Lemma merge_lookup a b k : merge a b !! k =
  match b !! k with Some w => Some (merge_count (a !! k) w) | None => a !! k end.
Proof. apply map_update_lookup. Qed.

#[global] Instance join : JoinOn (fun _ => True) merge.
Proof.
  split; [done| | |]; intros; apply map_eq; intros k; rewrite !merge_lookup; unfold merge_count;
    repeat case_match; simplify_eq; try done; f_equal; lia.
Qed.

Lemma merge_wf a b : wf a -> wf b -> wf (merge a b).
Proof.
  unfold wf. intros Ha Hb k n. rewrite merge_lookup. unfold merge_count.
  destruct (b !! k) as [w|] eqn:E; [|by intros; eapply Ha].
  apply Hb in E. intros [= <-]. case_match; lia.
Qed.

Lemma increment_wf c s d c' : wf c -> increment c s d = Some c' -> wf c'.
Proof.
  unfold increment, wf. intros Hc H. case_if. bool_hyps. unfold checked_sint in *.
  case_match; simplify_eq. apply map_Forall_insert_2; [|done].
  destruct (c !! s) eqn:E; cbn [default id] in *; [apply Hc in E|]; lia.
Qed.

Lemma set_count_wf c s v : wf c -> wf (set_count c s v).
Proof. intros Hc. apply map_Forall_insert_2; [lia|done]. Qed.

Lemma increment_total c s d c' :
  increment c s d = Some c' -> map_total c' = map_total c + Z.max d 0.
Proof.
  unfold increment. intros H. case_if; bool_hyps; [lia|].
  unfold checked_sint in *. case_match; simplify_eq. rewrite map_total_insert. lia.
Qed.

(** An increment moves a counter up in the merge order, at one site only. *)
Lemma increment_merge c s d c' : increment c s d = Some c' -> merge c c' = c'.
Proof.
  unfold increment. intros H. case_if; [by apply (join_idem (S := fun _ => True))|].
  bool_hyps. unfold checked_sint in *. case_match; simplify_eq. apply map_eq. intros k.
  rewrite merge_lookup, lookup_insert. unfold merge_count. case_decide as E.
  - subst k. destruct (c !! s); cbn [default id] in *; f_equal; lia.
  - case_match; [|done]. f_equal. lia.
Qed.

Lemma increment_other c s d c' k : increment c s d = Some c' -> k <> s -> c' !! k = c !! k.
Proof. unfold increment. intros H Hk. case_if. by rewrite lookup_insert_ne. Qed.

Lemma value_total c : wf c ->
  value c = if map_total c <? 2 ^ 63 then Some (map_total c) else None.
Proof.
  unfold value, wf. induction c as [|k v c Hk Hf IH] using map_first_key_ind; intros Hw.
  { done. }
  apply map_Forall_insert in Hw as [Hv Hw]; [|done]. specialize (IH Hw).
  rewrite map_total_insert_None by done.
  rewrite map_fold_insert_first_key by done. rewrite IH.
  pose proof (map_total_nonneg c Hw).
  destruct (Z.ltb_spec (map_total c) (2 ^ 63)); cbn [mbind option_bind].
  - unfold checked_sint. change (64 - 1) with 63.
    destruct (Z.leb_spec (- 2 ^ 63) (map_total c + v)); [|lia].
    by destruct (Z.ltb_spec (map_total c + v) (2 ^ 63)).
  - destruct (Z.ltb_spec (map_total c + v) (2 ^ 63)); [lia|done].
Qed.

End GCounter.

(** ** pn_counter.h *)
Module PNCounter.

Record t := mk { positive : GCounter.t; negative : GCounter.t }.

Definition empty : t := mk ∅ ∅.

Definition add (c : t) (site_id delta : Z) : option t :=
  if delta >=? 0 then
    match GCounter.increment (positive c) site_id delta with
    | Some p => Some (mk p (negative c)) | None => None end
  else match checked_sint 64 (- delta) with
       | Some d => match GCounter.increment (negative c) site_id d with
                   | Some n => Some (mk (positive c) n) | None => None end
       | None => None
       end.

Definition set_site_counts (c : t) (site_id p n : Z) : t :=
  mk (GCounter.set_count (positive c) site_id p) (GCounter.set_count (negative c) site_id n).

Definition value (c : t) : option Z :=
  match GCounter.value (positive c), GCounter.value (negative c) with
  | Some p, Some n => checked_sint 64 (p - n)
  | _, _ => None
  end.

Definition merge (c other : t) : t :=
  mk (GCounter.merge (positive c) (positive other)) (GCounter.merge (negative c) (negative other)).

Definition wf (c : t) : Prop := GCounter.wf (positive c) /\ GCounter.wf (negative c).

#[global] Instance join : JoinOn (fun _ => True) merge.
Proof.
  split; [done| | |]; unfold merge; intros; cbn [positive negative].
  - by rewrite !(join_assoc (S := fun _ => True)).
  - f_equal; by apply (join_comm (S := fun _ => True)).
  - rewrite !(join_idem (S := fun _ => True)) by done. by destruct x.
Qed.

Lemma add_wf c s d c' : wf c -> add c s d = Some c' -> wf c'.
Proof.
  unfold add, wf. intros [Hp Hn] H. case_if; split; simpl; eauto using GCounter.increment_wf.
Qed.

(** What a counter is worth when nothing overflows. *)
Definition worth (c : t) : Z := map_total (positive c) - map_total (negative c).

Lemma value_worth c v : wf c -> value c = Some v -> v = worth c.
Proof.
  unfold value, wf, worth. intros [Hp Hn]. rewrite !GCounter.value_total by done.
  case_if. unfold checked_sint. case_match; by intros [= <-].
Qed.

(** Whatever order and however often a replica merges the same set of remote
    counters, it ends in the same state. *)
Theorem pn_counter_convergent l1 l2 start :
  (forall c, c ∈ l1 <-> c ∈ l2) -> foldl merge start l1 = foldl merge start l2.
Proof.
  intros He. apply (join_fold_same_elements (S := fun _ => True)); try done; by apply Forall_true.
Qed.

Lemma pn_counter_convergent_witness :
  foldl merge empty [mk {[1 := 5]} ∅; mk {[1 := 7; 2 := 1]} {[2 := 4]}] =
  foldl merge empty [mk {[1 := 7; 2 := 1]} {[2 := 4]}; mk {[1 := 5]} ∅; mk {[1 := 5]} ∅].
Proof.
  apply pn_counter_convergent. intros c. rewrite !elem_of_cons, elem_of_nil.
  split; intros H; repeat destruct H as [H|H]; auto.
Defined.

(** [add] changes the value by exactly the delta, at one site only, whenever it
    and the values involved stay inside [int64_t]; and a merge never lowers the
    count of any site. *)
Theorem pn_counter_add_value c site delta c' v v' :
  wf c -> add c site delta = Some c' -> value c = Some v -> value c' = Some v' ->
  v' = v + delta /\ merge c c' = c' /\
  (forall s, s <> site -> positive c' !! s = positive c !! s /\ negative c' !! s = negative c !! s).
Proof.
  intros Hw Ha Hv Hv'. pose proof (add_wf _ _ _ _ Hw Ha) as Hw'.
  apply value_worth in Hv as ->; [|done]. apply value_worth in Hv' as ->; [|done].
  unfold add in Ha. unfold worth, merge.
  destruct (delta >=? 0) eqn:E; rewrite Z.geb_leb in E; bool_hyps; case_if;
    match goal with H : GCounter.increment _ _ _ = Some _ |- _ =>
      pose proof (GCounter.increment_total _ _ _ _ H);
      pose proof (GCounter.increment_merge _ _ _ _ H);
      pose proof (fun k => GCounter.increment_other _ _ _ _ k H) end;
    unfold checked_sint in *; case_if; split_and!; simpl; try lia; eauto;
    f_equal; try done; by apply (join_idem (S := fun _ => True)).
Qed.

Lemma pn_counter_add_value_witness :
  add (mk {[1 := 5]} ∅) 1 (-3) = Some (mk {[1 := 5]} {[1 := 3]}) /\ 2 = 5 + -3.
Proof.
  assert (add (mk {[1 := 5]} ∅) 1 (-3) = Some (mk {[1 := 5]} {[1 := 3]})) as H by reflexivity.
  split; [exact H|].
  apply (pn_counter_add_value _ _ _ _ 5 2) in H; [exact (proj1 H)| |reflexivity|reflexivity].
  split; [apply map_Forall_singleton; lia|apply map_Forall_empty].
Defined.

End PNCounter.

(** ** lww_register.h *)
Module LWWRegister.
Section register.
Context {T : Type} (dflt : T).

Record t := mk { value : T; timestamp : Hlc; site_id : Z; initialized : bool }.

(** [T value_{}; Hlc timestamp_{}; site_id_ = 0; initialized_ = false]. *)
Definition empty : t := mk dflt (mkHlc 0 0 0) 0 false.

Definition set (r : t) (new_value : T) (now : Hlc) (site : Z) : t := mk new_value now site true.

Definition merge (r other : t) : t :=
  if negb (initialized other) then r
  else if negb (initialized r) then other
  else let cmp := compare_hlc (timestamp other) (timestamp r) in
       if (cmp >? 0) || ((cmp =? 0) && (site_id other >? site_id r)) then other else r.

(** The write a register holds, by its stamp. *)
Definition stamp (r : t) : Hlc * Z := (timestamp r, site_id r).

(** Registers whose content is determined by their stamp: [write] says what
    the write with a given stamp stored; an unset register is the initial one. *)
Definition written (write : Hlc * Z -> T) (r : t) : Prop :=
  if initialized r then value r = write (stamp r) else r = empty.

Definition newer (r other : t) : bool :=
  initialized other &&
  (negb (initialized r) ||
   ((compare_hlc (timestamp other) (timestamp r) >? 0) ||
    ((compare_hlc (timestamp other) (timestamp r) =? 0) && (site_id other >? site_id r)))).

Lemma merge_keep r other : merge r other = keep newer r other.
Proof.
  unfold merge, keep, newer.
  destruct (initialized other), (initialized r); cbn [negb andb orb]; done.
Qed.

Lemma newer_iff r other : newer r other = true <->
  initialized other = true /\
  (initialized r = false \/ hlc_lt (timestamp r) (timestamp other) \/
   (timestamp r = timestamp other /\ site_id r < site_id other)).
Proof.
  unfold newer. rewrite andb_true_iff, orb_true_iff, negb_true_iff, orb_true_iff, andb_true_iff.
  rewrite !Z.gtb_lt, Z.eqb_eq, compare_hlc_gt, compare_hlc_eq.
  split; intros [H1 H2]; (split; [done|]); destruct H2 as [|[|[]]]; auto.
Qed.

Lemma newer_asym r other : newer r other = true -> newer other r = false.
Proof.
  rewrite newer_iff. intros [Hi H]. rewrite <- not_true_iff_false, newer_iff.
  intros [Hi' H']. unfold hlc_lt in *.
  destruct H as [H|[H|[E H]]], H' as [H'|[H'|[E' H']]]; try congruence; try lia;
    rewrite ?E, ?E' in *; lia.
Qed.

Lemma join write : JoinOn (written write) merge.
Proof.
  assert (JoinOn (written write) (keep newer)) as [H1 H2 H3 H4].
  { apply keep_join; [|exact newer_asym|].
    - intros x y z _ _ _. rewrite !newer_iff. unfold hlc_lt.
      intros [Hy H] [Hz H']. split; [done|].
      destruct H as [H|[H|[E H]]]; [by left|right..];
        destruct H' as [H'|[H'|[E' H']]]; try congruence;
        rewrite ?E, <- ?E' in *; first [left; lia | right; split; [congruence|lia]].
    - intros x y Hx Hy. rewrite <- !not_true_iff_false, !newer_iff. unfold written in *.
      destruct (initialized x) eqn:Ex, (initialized y) eqn:Ey; intros H1 H2;
        try (exfalso; tauto); [|congruence].
      destruct (hlc_lt_total (timestamp x) (timestamp y)) as [Hl|[El|Hl]];
        [exfalso; tauto| |exfalso; tauto].
      assert (site_id x = site_id y) as Es.
      { destruct (Z.lt_trichotomy (site_id x) (site_id y)) as [?|[?|?]]; [|done|];
          exfalso; naive_solver. }
      unfold stamp in *. destruct x, y; simpl in *. congruence. }
  split; intros *; rewrite ?merge_keep; eauto.
Qed.
End register.
Arguments t : clear implicits.

(** Registers converge when a stamp names one write: replicas that merged the
    same set of registers, in any order and with repetitions, hold the same
    value, which is that of the greatest stamp. *)
Theorem lww_convergent {T} (dflt : T) write l1 l2 start :
  written dflt write start -> Forall (written dflt write) l1 -> Forall (written dflt write) l2 ->
  (forall r, r ∈ l1 <-> r ∈ l2) ->
  foldl merge start l1 = foldl merge start l2 /\
  (forall r, r ∈ start :: l1 -> newer (foldl merge start l1) r = false).
Proof.
  intros Hs H1 H2 He. pose proof (join dflt write).
  split; [by apply (join_fold_same_elements (S := written dflt write))|].
  destruct (fold_above l1 start Hs H1) as [Ha Hb].
  intros r Hr. assert (below (join := merge) r (foldl merge start l1)) as Hr'.
  { apply elem_of_cons in Hr as [->|Hr]; auto. }
  unfold below in Hr'. rewrite merge_keep in Hr'. unfold keep in Hr'.
  destruct (newer r (foldl merge start l1)) eqn:E; [by apply newer_asym|].
  congruence.
Qed.

Lemma lww_convergent_witness :
  let a := mk $"a" (mkHlc 5 0 1) 1 true in
  let b := mk $"b" (mkHlc 6 0 2) 2 true in
  foldl merge (empty []) [a; b] = foldl merge (empty []) [b; a; b].
Proof.
  intros a b.
  apply (lww_convergent [] (fun st => if st.2 =? 1 then $"a" else $"b") [a; b] [b; a; b]).
  - done.
  - by repeat constructor.
  - by repeat constructor.
  - intros r. rewrite !elem_of_cons, elem_of_nil. split; intros H; repeat destruct H as [H|H]; auto.
Defined.

End LWWRegister.

(** ** or_set.h *)
Module ORSet.

(** A tag is a (site_id, counter) pair. *)
Abbreviation Tag := (Z * Z)%type.

Record t := mk { elements_ : gmap bytes (gset Tag); counters_ : gmap Z Z }.

Definition empty : t := mk ∅ ∅.

(** [elements_[element].insert(...)]: an absent entry starts out empty. *)
Definition insert_tags (own : option (gset Tag)) (tags : gset Tag) : gset Tag :=
  default ∅ own ∪ tags.

Definition set_counter (s : t) (site_id counter : Z) : t :=
  let current := default 0 (counters_ s !! site_id) in
  mk (elements_ s) (<[site_id := if counter >? current then counter else current]> (counters_ s)).

Definition next_tag (s : t) (site_id : Z) : Tag * t :=
  let counter := u64 (default 0 (counters_ s !! site_id) + 1) in
  ((site_id, counter), mk (elements_ s) (<[site_id := counter]> (counters_ s))).

Definition add_tag (s : t) (element : bytes) (tag : Tag) : t :=
  mk (<[element := insert_tags (elements_ s !! element) {[tag]}]> (elements_ s)) (counters_ s).

Definition add (s : t) (element : bytes) (site_id : Z) : t :=
  let (tag, s') := next_tag s site_id in add_tag s' element tag.

Definition remove (s : t) (element : bytes) : t := mk (delete element (elements_ s)) (counters_ s).

Definition max_counter (own : option Z) (counter : Z) : Z :=
  let current := default 0 own in if counter >? current then counter else current.

(** The two loops of [merge]: counters first, then the tags of each element. *)
Definition merge (s other : t) : t :=
  mk (map_update insert_tags (elements_ s) (elements_ other))
     (map_update max_counter (counters_ s) (counters_ other)).

Definition contains (s : t) (element : bytes) : bool :=
  match elements_ s !! element with
  | Some tags => negb (bool_decide (tags = ∅))
  | None => false
  end.

(** Elements with a tag, in the key order of the [flat_map]. *)
Definition values (s : t) : list bytes :=
  merge_sort bytes_le
    (fst <$> filter (fun p : bytes * gset Tag => p.2 <> ∅) (map_to_list (elements_ s))).

Definition tags_of (s : t) (element : bytes) : gset Tag := default ∅ (elements_ s !! element).

Lemma contains_iff s e : contains s e = true <-> tags_of s e <> ∅.
Proof.
  unfold contains, tags_of. destruct (elements_ s !! e); cbn [default id]; [|by split].
  rewrite negb_true_iff, bool_decide_eq_false. done.
Qed.

Lemma merge_elements a b e : elements_ (merge a b) !! e =
  match elements_ b !! e with
  | Some w => Some (insert_tags (elements_ a !! e) w) | None => elements_ a !! e end.
Proof. apply map_update_lookup. Qed.

Lemma merge_counters a b k : counters_ (merge a b) !! k =
  match counters_ b !! k with
  | Some w => Some (max_counter (counters_ a !! k) w) | None => counters_ a !! k end.
Proof. apply map_update_lookup. Qed.

Lemma tags_merge a b e : tags_of (merge a b) e = tags_of a e ∪ tags_of b e.
Proof.
  unfold tags_of. rewrite merge_elements. unfold insert_tags.
  destruct (elements_ b !! e); cbn [default id]; set_solver.
Qed.

(** Counters are unsigned. *)
Definition wf (s : t) : Prop := map_Forall (fun _ n => 0 <= n) (counters_ s).

Lemma ext a b : (forall k, elements_ a !! k = elements_ b !! k) ->
  (forall k, counters_ a !! k = counters_ b !! k) -> a = b.
Proof. destruct a, b. simpl. intros H1 H2. f_equal; by apply map_eq. Qed.

(** The pointwise step of the two loops, as an operation on lookups. *)
Definition step_counter (own other : option Z) : option Z :=
  match other with Some w => Some (max_counter own w) | None => own end.
Definition step_tags (own other : option (gset Tag)) : option (gset Tag) :=
  match other with Some w => Some (insert_tags own w) | None => own end.
Definition nonneg (o : option Z) : Prop := 0 <= default 0 o.

Lemma max_counter_max own c : max_counter own c = Z.max (default 0 own) c.
Proof. unfold max_counter. destruct (Z.gtb_spec c (default 0 own)); lia. Qed.

Ltac step_cases :=
  unfold step_counter, step_tags, nonneg, insert_tags in *;
  repeat match goal with o : option _ |- _ => destruct o end;
  rewrite ?max_counter_max in *; cbn [default id] in *;
  first [done | lia | f_equal; first [lia | set_solver]].

Lemma step_counter_assoc x y z : nonneg x -> nonneg y -> nonneg z ->
  step_counter x (step_counter y z) = step_counter (step_counter x y) z.
Proof. intros. step_cases. Qed.
Lemma step_counter_comm x y : nonneg x -> nonneg y -> step_counter x y = step_counter y x.
Proof. intros. step_cases. Qed.
Lemma step_counter_idem x : step_counter x x = x.
Proof. step_cases. Qed.
Lemma step_counter_nonneg x y : nonneg x -> nonneg y -> nonneg (step_counter x y).
Proof. intros. step_cases. Qed.
Lemma step_tags_assoc x y z : step_tags x (step_tags y z) = step_tags (step_tags x y) z.
Proof. step_cases. Qed.
Lemma step_tags_comm x y : step_tags x y = step_tags y x.
Proof. step_cases. Qed.
Lemma step_tags_idem x : step_tags x x = x.
Proof. step_cases. Qed.

Lemma wf_nonneg s : wf s <-> forall k, nonneg (counters_ s !! k).
Proof.
  unfold wf, nonneg. split.
  - intros Hs k. destruct (counters_ s !! k) eqn:E; [by apply Hs in E|done].
  - intros Hs k n E. specialize (Hs k). by rewrite E in Hs.
Qed.

#[global] Instance join : JoinOn wf merge.
Proof.
  split.
  - intros x y. rewrite !wf_nonneg. intros Hx Hy k. rewrite merge_counters.
    by apply step_counter_nonneg.
  - intros x y z. rewrite !wf_nonneg. intros Hx Hy Hz. apply ext; intros k.
    + rewrite !merge_elements. apply step_tags_assoc.
    + rewrite !merge_counters. by apply step_counter_assoc.
  - intros x y. rewrite !wf_nonneg. intros Hx Hy. apply ext; intros k.
    + rewrite !merge_elements. apply step_tags_comm.
    + rewrite !merge_counters. by apply step_counter_comm.
  - intros x _. apply ext; intros k.
    + rewrite merge_elements. apply step_tags_idem.
    + rewrite merge_counters. apply step_counter_idem.
Qed.

(** Tags in use: none is above its site's counter. *)
Definition tags_bounded (s : t) : Prop :=
  forall e site n, (site, n) ∈ tags_of s e -> n <= default 0 (counters_ s !! site).

Lemma counter_merge_ge a b k : wf a -> wf b ->
  default 0 (counters_ a !! k) <= default 0 (counters_ (merge a b) !! k) /\
  default 0 (counters_ b !! k) <= default 0 (counters_ (merge a b) !! k).
Proof.
  rewrite !wf_nonneg. intros Ha Hb. specialize (Ha k). specialize (Hb k).
  rewrite merge_counters. unfold nonneg in *.
  destruct (counters_ a !! k), (counters_ b !! k);
    rewrite ?max_counter_max; cbn [default id] in *; lia.
Qed.

Lemma tags_of_add s e site e' :
  tags_of (add s e site) e' =
    if decide (e = e') then tags_of s e ∪ {[fst (next_tag s site)]} else tags_of s e'.
Proof.
  unfold add, tags_of. simpl. rewrite lookup_insert. case_decide; [|done]. done.
Qed.

Lemma tags_of_remove s e e' : tags_of (remove s e) e' = if decide (e = e') then ∅ else tags_of s e'.
Proof. unfold remove, tags_of. simpl. rewrite lookup_delete. by case_decide. Qed.

Lemma contains_merge a b e : contains (merge a b) e = contains a e || contains b e.
Proof.
  apply eq_true_iff_eq. rewrite orb_true_iff, !contains_iff, tags_merge.
  destruct (decide (tags_of a e = ∅)) as [->|]; set_solver.
Qed.

(** Replicas of the allow-list converge: any order and repetition of the same
    merges gives the same set, and an element is in the result exactly when one
    of the merged replicas has it (add wins). *)
Theorem or_set_merge_convergent l1 l2 start e :
  wf start -> Forall wf l1 -> Forall wf l2 -> (forall s, s ∈ l1 <-> s ∈ l2) ->
  foldl merge start l1 = foldl merge start l2 /\
  (contains (foldl merge start l1) e = true <-> Exists (fun s => contains s e = true) (start :: l1)).
Proof.
  intros Hs H1 H2 He. split; [by apply (join_fold_same_elements (S := wf))|].
  clear Hs H1 H2 He. revert start. induction l1 as [|s l1 IH]; intros start; cbn [foldl].
  - rewrite Exists_cons, Exists_nil. tauto.
  - rewrite IH, !Exists_cons, contains_merge, orb_true_iff. tauto.
Qed.

Lemma or_set_merge_convergent_witness :
  let a := add empty $"10.0.0.1" 1 in let b := add empty $"10.0.0.2" 2 in
  foldl merge empty [a; b] = foldl merge empty [b; a; a] /\
  (contains (foldl merge empty [a; b]) $"10.0.0.2" = true <->
   Exists (fun s => contains s $"10.0.0.2" = true) [empty; a; b]).
Proof.
  intros a b. assert (wf a /\ wf b) as [Ha Hb].
  { split; (apply map_Forall_insert_2; [vm_compute; discriminate|apply map_Forall_empty]). }
  apply or_set_merge_convergent; [apply map_Forall_empty|by repeat constructor..|].
  intros s. rewrite !elem_of_cons, elem_of_nil. split; intros H; repeat destruct H as [H|H]; auto.
Defined.

(** A removal does not survive a merge: the set keeps no tombstones, so a
    replica that still has the element brings it back, also when it has seen
    every tag the removing replica had seen. *)
Theorem or_set_remove_resurrected s stale e :
  contains stale e = true ->
  contains (remove s e) e = false /\ contains (merge (remove s e) stale) e = true /\
  contains (merge (remove s e) s) e = contains s e.
Proof.
  intros He. assert (contains (remove s e) e = false) as Hr.
  { rewrite <- not_true_iff_false, contains_iff, tags_of_remove, decide_True by done. tauto. }
  rewrite !contains_merge, Hr, He. done.
Qed.

Lemma or_set_remove_resurrected_witness :
  let s := add empty $"10.0.0.1" 1 in
  contains (remove s $"10.0.0.1") $"10.0.0.1" = false /\
  contains (merge (remove s $"10.0.0.1") s) $"10.0.0.1" = true /\
  contains (merge (remove s $"10.0.0.1") s) $"10.0.0.1" = contains s $"10.0.0.1".
Proof. intros s. apply (or_set_remove_resurrected s s). reflexivity. Defined.

(** Operations of a replica: local additions and removals and merges of other
    replicas' states. *)
Inductive op_step : t -> t -> Prop :=
| op_add s e site : in_uint 32 site -> default 0 (counters_ s !! site) + 1 < 2 ^ 64 ->
    op_step s (add s e site)
| op_remove s e : op_step s (remove s e)
| op_merge s other : wf other -> tags_bounded other -> op_step s (merge s other).

Lemma op_step_inv s s' : op_step s s' -> wf s /\ tags_bounded s -> wf s' /\ tags_bounded s'.
Proof.
  intros Hop [Hw Ht]. destruct Hop as [s e site Hsite Hc|s e|s other Hwo Hto].
  - pose proof (proj1 (wf_nonneg s) Hw site) as Hn. unfold nonneg in Hn.
    assert (u64 (default 0 (counters_ s !! site) + 1) = default 0 (counters_ s !! site) + 1) as E.
    { apply wrap_small. split; lia. }
    split.
    + apply map_Forall_insert_2; [rewrite E; lia|done].
    + intros e' site' n. rewrite tags_of_add. simpl. rewrite E, lookup_insert.
      case_decide as De; case_decide as Ds; subst; cbn [default id].
      * rewrite elem_of_union, elem_of_singleton. intros [Hin|[= ->]]; [apply Ht in Hin|]; lia.
      * rewrite elem_of_union, elem_of_singleton. intros [Hin|[= ? ?]]; [by apply Ht in Hin|done].
      * intros H. apply Ht in H. lia.
      * apply Ht.
  - split; [done|]. intros e' site n. rewrite tags_of_remove. case_decide; [set_solver|]. apply Ht.
  - split; [by apply join_closed|]. intros e site n. rewrite tags_merge, elem_of_union.
    destruct (counter_merge_ge s other site Hw Hwo). intros [Hin|Hin]; [apply Ht in Hin|apply Hto in Hin]; lia.
Qed.

(** Tags are never reused: in every state a replica reaches from an empty set by
    additions, removals and merges of such states, the tag the next addition
    hands out is carried by no element. *)
Theorem or_set_fresh_tags s site e :
  rtc op_step empty s -> in_uint 32 site -> default 0 (counters_ s !! site) + 1 < 2 ^ 64 ->
  fst (next_tag s site) ∉ tags_of s e /\
  fst (next_tag s site) ∈ tags_of (add s e site) e /\
  contains (add s e site) e = true.
Proof.
  intros Hr Hs Hc. assert (wf s /\ tags_bounded s) as [Hw Ht].
  { remember empty as s0 eqn:E0. assert (wf s0 /\ tags_bounded s0) as Hinv.
    { subst. split; [apply map_Forall_empty|]. intros ? ? ?. unfold tags_of. set_solver. }
    clear E0. induction Hr; eauto using op_step_inv. }
  pose proof (proj1 (wf_nonneg s) Hw site) as Hn. unfold nonneg in Hn.
  assert (fst (next_tag s site) ∈ tags_of (add s e site) e) as Hin.
  { rewrite tags_of_add, decide_True by done. set_solver. }
  split_and!; [|done|].
  - simpl. rewrite wrap_small by (split; lia). intros H. apply Ht in H. lia.
  - rewrite contains_iff. set_solver.
Qed.

Lemma or_set_fresh_tags_witness :
  let s := add empty $"10.0.0.1" 1 in
  fst (next_tag s 1) = (1, 2) /\ (1, 2) ∉ tags_of s $"10.0.0.1".
Proof.
  intros s. split; [reflexivity|].
  apply (or_set_fresh_tags s 1 $"10.0.0.1"); [|split; lia|vm_compute; reflexivity].
  apply rtc_once, op_add; [split; lia|vm_compute; reflexivity].
Defined.

End ORSet.
