(* ===== verification/SyncProtocol.v ===== *)
(** * SyncProtocol: the replication wire format

    src/native/sync/include/sync_protocol.h and src/native/sync/src/sync_protocol.cpp:
    the handshake frame with its HMAC and schema checks, and the journal batch
    frame with its optional LZ4 compression.  Words are little-endian.  The
    log calls have no effect on the values and are left out.  libsodium's
    HMAC-SHA-256 and constant-time comparison and liblz4's block functions are
    parameters of the definitions that call them. *)

From S2P Require Import Prelude Codec Text.

(** ** Writers: each appends to [out] *)

Definition u8_bytes (value : Z) : bytes := [byte_of value].
Definition write_u8 (out : bytes) (value : Z) : bytes := out ++ u8_bytes value.

Definition u32_bytes (value : Z) : bytes :=
  [byte_of (Z.land value 255);
   byte_of (Z.land (Z.shiftr value 8) 255);
   byte_of (Z.land (Z.shiftr value 16) 255);
   byte_of (Z.land (Z.shiftr value 24) 255)].

Definition write_u32 (out : bytes) (value : Z) : bytes := out ++ u32_bytes value.

(** [for (shift = 0; shift < 64; shift += 8)]. *)
Definition u64_bytes (value : Z) : bytes :=
  (fun shift => byte_of (Z.land (Z.shiftr value shift) 255)) <$> [0; 8; 16; 24; 32; 40; 48; 56].

Definition write_u64 (out : bytes) (value : Z) : bytes := out ++ u64_bytes value.

Definition i32_bytes (value : Z) : bytes := u32_bytes (u32 value).

Definition write_i32 (out : bytes) (value : Z) : bytes := write_u32 out (u32 value).

(** The result of the call, and [out] afterwards. *)
Definition write_string (out value : bytes) : bool * bytes :=
  if size_of value >? 2 ^ 32 - 1 then (false, out)
  else (true, write_u32 out (u32 (size_of value)) ++ value).

Lemma write_u32_app out v : write_u32 out v = out ++ u32_bytes v.
Proof. done. Qed.

Lemma write_u64_app out v : write_u64 out v = out ++ u64_bytes v.
Proof. done. Qed.

Lemma write_i32_bytes out v : write_i32 out v = out ++ i32_bytes v.
Proof. done. Qed.

(** ** Readers: each advances [cursor] *)

Definition read_u8 : reader Z := fun inp cursor =>
  if cursor + 1 <=? size_of inp then Some (at_ inp cursor, cursor + 1) else None.

Definition read_u32 : reader Z := fun inp cursor =>
  if cursor + 4 <=? size_of inp then
    Some (Z.lor (Z.lor (Z.lor (at_ inp cursor) (Z.shiftl (at_ inp (cursor + 1)) 8))
                  (Z.shiftl (at_ inp (cursor + 2)) 16))
           (Z.shiftl (at_ inp (cursor + 3)) 24), cursor + 4)
  else None.

Definition read_u64 : reader Z := fun inp cursor =>
  if cursor + 8 <=? size_of inp then
    Some (foldl (fun out k => Z.lor out (Z.shiftl (at_ inp (cursor + k)) (8 * k))) 0
            [0; 1; 2; 3; 4; 5; 6; 7], cursor + 8)
  else None.

Definition read_i32 : reader Z := raw ← read_u32; mret (sint 32 raw).

Definition read_string : reader bytes := size ← read_u32; read_span size.

(** ** Codecs of the fields *)

#[global] Instance u8_codec : Codec (in_uint 8) u8_bytes read_u8.
Proof.
  apply (le_word_codec 1); [done|]. intros inp c Hc. unfold read_u8. word_dec.
Qed.

#[global] Instance u32_codec : Codec (in_uint 32) u32_bytes read_u32.
Proof.
  apply (le_word_codec 4).
  - intros v. unfold u32_bytes. word_enc.
  - intros inp c Hc. unfold read_u32. word_dec.
Qed.

#[global] Instance u64_codec : Codec (in_uint 64) u64_bytes read_u64.
Proof.
  apply (le_word_codec 8).
  - intros v. unfold u64_bytes. cbn [fmap list_fmap]. rewrite Z.shiftr_0_r. word_enc.
  - intros inp c Hc. unfold read_u64. cbn [foldl]. rewrite Z.add_0_r, Z.lor_0_l, Z.shiftl_0_r.
    word_dec.
Qed.

#[global] Instance i32_codec : Codec (in_sint 32) i32_bytes read_i32.
Proof.
  split.
  - intros v pre suf Hv. unfold read_i32, i32_bytes, mbind, reader_bind.
    rewrite codec_roundtrip by by apply wrap_in.
    unfold mret, reader_ret. by rewrite sint_wrap by (done || lia).
  - intros inp c x c' Hc H. unfold read_i32 in H. read_inv H. apply ret_inv in H as [<- <-].
    split; [by apply sint_in|]. unfold i32_bytes. by rewrite wrap_sint.
Qed.

Definition valid_string (s : bytes) : Prop := in_uint 32 (size_of s).
Definition string_bytes (s : bytes) : bytes := u32_bytes (size_of s) ++ s.

#[global] Instance string_codec : Codec valid_string string_bytes read_string.
Proof.
  split.
  - intros s pre suf Hs. unfold read_string, string_bytes. rewrite <- app_assoc.
    apply bind_roundtrip; [done|].
    rewrite read_span_app, !size_of_app. do 2 f_equal. lia.
  - intros inp c x c' Hc H. unfold read_string in H. read_inv H.
    pose proof (span_codec x0 (proj1 Hv)) as Hspan.
    apply codec_sound in H as [Hx Ho']; [|done]. unfold id in *. subst x0.
    split; [done|]. by eapply occurs_app.
Qed.

Lemma write_string_ok out s : valid_string s -> write_string out s = (true, out ++ string_bytes s).
Proof.
  intros Hs. unfold write_string, string_bytes, write_u32.
  rewrite Z.gtb_ltb. destruct (Z.ltb_spec (2 ^ 32 - 1) (size_of s)); [destruct Hs; lia|].
  by rewrite wrap_small, app_assoc.
Qed.

Lemma write_string_false out s b out' :
  write_string out s = (b, out') -> b = false -> 2 ^ 32 <= size_of s.
Proof.
  unfold write_string. intros H ->. case_match eqn:E; simplify_eq. apply Z.gtb_lt in E. lia.
Qed.

Lemma size_u8_bytes v : size_of (u8_bytes v) = 1.
Proof. done. Qed.

Lemma size_u32_bytes v : size_of (u32_bytes v) = 4.
Proof. done. Qed.

Lemma size_u64_bytes v : size_of (u64_bytes v) = 8.
Proof. done. Qed.

Lemma size_i32_bytes v : size_of (i32_bytes v) = 4.
Proof. done. Qed.

Lemma size_string_bytes s : size_of (string_bytes s) = 4 + size_of s.
Proof. unfold string_bytes. by rewrite size_of_app, size_u32_bytes. Qed.

#[global] Opaque u8_bytes u32_bytes u64_bytes i32_bytes string_bytes.

(** ** Handshake frames *)

Record HandshakeFrame := mkHandshake {
  site_id : Z;
  schema_version : Z;
  last_recv_seq_from_peer : Z;
  auth_key_id : bytes;
  auth_hmac_hex : bytes
}.

Record HandshakeValidationResult := mkHandshakeValidation {
  accepted : bool;
  negotiated_schema_version : Z;
  error : bytes
}.

Record HandshakeAuthValidationResult := mkAuthValidation { auth_accepted : bool; auth_error : bytes }.

Definition empty (s : bytes) : bool := size_of s =? 0.

Definition encode_handshake (frame : HandshakeFrame) : bytes :=
  let out := write_u32 [] (site_id frame) in
  let out := write_u32 out (schema_version frame) in
  let out := write_u64 out (last_recv_seq_from_peer frame) in
  if negb (empty (auth_key_id frame)) || negb (empty (auth_hmac_hex frame)) then
    let (ok, out) := write_string out (auth_key_id frame) in
    if negb ok then []
    else let (ok, out) := write_string out (auth_hmac_hex frame) in
         if negb ok then [] else out
  else out.

Definition read_handshake_base : reader HandshakeFrame :=
  site ← read_u32;
  schema ← read_u32;
  last ← read_u64;
  mret (mkHandshake site schema last [] []).

Definition read_handshake_auth (frame : HandshakeFrame) : reader HandshakeFrame :=
  key ← read_string;
  hmac ← read_string;
  mret (mkHandshake (site_id frame) (schema_version frame) (last_recv_seq_from_peer frame) key hmac).

Definition decode_handshake (input : bytes) : option HandshakeFrame :=
  match read_handshake_base input 0 with
  | None => None
  | Some (frame, cursor) =>
      if negb (cursor =? size_of input) then
        match read_handshake_auth frame input cursor with
        | None => None
        | Some (frame', cursor') => if negb (cursor' =? size_of input) then None else Some frame'
        end
      else Some frame
  end.

Definition valid_handshake (f : HandshakeFrame) : Prop :=
  in_uint 32 (site_id f) /\ in_uint 32 (schema_version f) /\
  in_uint 64 (last_recv_seq_from_peer f) /\
  valid_string (auth_key_id f) /\ valid_string (auth_hmac_hex f).

Definition handshake_base_bytes (f : HandshakeFrame) : bytes :=
  u32_bytes (site_id f) ++ u32_bytes (schema_version f) ++ u64_bytes (last_recv_seq_from_peer f).

Definition has_auth (f : HandshakeFrame) : bool :=
  negb (empty (auth_key_id f)) || negb (empty (auth_hmac_hex f)).

Definition handshake_bytes (f : HandshakeFrame) : bytes :=
  handshake_base_bytes f ++
  (if has_auth f then string_bytes (auth_key_id f) ++ string_bytes (auth_hmac_hex f) else []).

Lemma encode_handshake_bytes f : valid_handshake f -> encode_handshake f = handshake_bytes f.
Proof.
  intros (_ & _ & _ & Hk & Hm). unfold encode_handshake, handshake_bytes, handshake_base_bytes.
  fold (has_auth f). unfold write_u32, write_u64. destruct (has_auth f).
  - rewrite !write_string_ok by done. cbn [negb app]. by rewrite <- !app_assoc.
  - by rewrite app_nil_r, <- !app_assoc.
Qed.

Lemma read_base_roundtrip f suf : valid_handshake f ->
  read_handshake_base (handshake_base_bytes f ++ suf) 0 =
    Some (mkHandshake (site_id f) (schema_version f) (last_recv_seq_from_peer f) [] [],
          size_of (handshake_base_bytes f)).
Proof.
  intros (H1 & H2 & H3 & _). unfold handshake_base_bytes, read_handshake_base.
  change 0 with (size_of (@nil Byte.byte)). rewrite <- !app_assoc.
  rewrite <- (app_nil_l (u32_bytes (site_id f) ++ _)). read_back. read_done.
Qed.

Lemma read_base_inv inp f c :
  read_handshake_base inp 0 = Some (f, c) ->
  in_uint 32 (site_id f) /\ in_uint 32 (schema_version f) /\ in_uint 64 (last_recv_seq_from_peer f) /\
  auth_key_id f = [] /\ auth_hmac_hex f = [] /\ occurs inp 0 (handshake_base_bytes f) c.
Proof.
  unfold read_handshake_base. intros H. assert (0 <= 0) as Hc0 by done.
  read_inv H. read_inv H. read_inv H. apply ret_inv in H as [<- <-]. simpl.
  split_and!; try done. unfold handshake_base_bytes. simpl. eauto 6 using occurs_app.
Qed.

Lemma read_auth_roundtrip f pre : valid_string (auth_key_id f) -> valid_string (auth_hmac_hex f) ->
  read_handshake_auth (mkHandshake (site_id f) (schema_version f) (last_recv_seq_from_peer f) [] [])
      (pre ++ string_bytes (auth_key_id f) ++ string_bytes (auth_hmac_hex f)) (size_of pre) =
    Some (f, size_of (pre ++ string_bytes (auth_key_id f) ++ string_bytes (auth_hmac_hex f))).
Proof.
  intros Hk Hm. rewrite <- (app_nil_r (string_bytes (auth_hmac_hex f))) at 1.
  unfold read_handshake_auth. read_back. read_done. by destruct f.
Qed.

Lemma read_auth_inv f inp c g c' :
  0 <= c -> read_handshake_auth f inp c = Some (g, c') ->
  valid_string (auth_key_id g) /\ valid_string (auth_hmac_hex g) /\
  g = mkHandshake (site_id f) (schema_version f) (last_recv_seq_from_peer f) (auth_key_id g) (auth_hmac_hex g) /\
  occurs inp c (string_bytes (auth_key_id g) ++ string_bytes (auth_hmac_hex g)) c'.
Proof.
  unfold read_handshake_auth. intros Hc H. read_inv H. read_inv H. apply ret_inv in H as [<- <-].
  simpl. eauto using occurs_app.
Qed.

Lemma empty_true s : empty s = true <-> s = [].
Proof.
  unfold empty. rewrite Z.eqb_eq. split; [apply size_of_zero|by intros ->].
Qed.

Lemma has_auth_false f : has_auth f = false <-> auth_key_id f = [] /\ auth_hmac_hex f = [].
Proof.
  unfold has_auth. rewrite orb_false_iff, !negb_false_iff, !empty_true. done.
Qed.

(** A frame whose fields fit their types is read back exactly as it was sent,
    with and without the authentication fields. *)
Theorem handshake_roundtrip f :
  valid_handshake f -> decode_handshake (encode_handshake f) = Some f.
Proof.
  intros Hv. pose proof Hv as (_ & _ & _ & Hk & Hm). rewrite encode_handshake_bytes by done.
  unfold decode_handshake, handshake_bytes. rewrite read_base_roundtrip by done.
  destruct (has_auth f) eqn:Ha.
  - rewrite read_auth_roundtrip by done.
    rewrite Z.eqb_refl. destruct (_ =? _) eqn:E; [|done]. bool_hyps.
    exfalso. revert E. rewrite !size_of_app, !size_string_bytes. size_lia.
  - rewrite app_nil_r, Z.eqb_refl. apply has_auth_false in Ha as [Ek Em]. destruct f; simpl in *.
    by subst.
Qed.

Lemma handshake_roundtrip_witness :
  let f := mkHandshake 7 3 41 ($"cluster-key") ($"00ff") in
  valid_handshake f /\ decode_handshake (encode_handshake f) = Some f.
Proof.
  assert (valid_handshake (mkHandshake 7 3 41 ($"cluster-key") ($"00ff"))) as H
    by (repeat split; vm_compute; congruence).
  split; [exact H | exact (handshake_roundtrip _ H)].
Defined.

(** Whatever bytes are accepted, the frame read is well-formed and the bytes
    are its encoding, but for the frame without authentication, which is also
    accepted with two explicit empty strings behind it. *)
Theorem handshake_accepts_encodings inp f :
  decode_handshake inp = Some f ->
  valid_handshake f /\
  (inp = encode_handshake f \/
   (has_auth f = false /\ inp = encode_handshake f ++ string_bytes [] ++ string_bytes [])).
Proof.
  unfold decode_handshake. destruct (read_handshake_base inp 0) as [[g c]|] eqn:E; [|done].
  apply read_base_inv in E as (H1 & H2 & H3 & Ek & Em & Ho).
  destruct (Z.eqb_spec c (size_of inp)) as [->|Hne]; cbn [negb].
  - intros [= <-]. assert (valid_handshake g) as Hv
      by (unfold valid_handshake; rewrite Ek, Em; repeat split; done || apply H1 || apply H2 || apply H3).
    split; [done|]. left. rewrite encode_handshake_bytes by done. unfold handshake_bytes.
    rewrite (proj2 (has_auth_false g)) by done. rewrite app_nil_r. by apply occurs_whole.
  - destruct (read_handshake_auth g inp c) as [[h c']|] eqn:E; [|done].
    destruct (Z.eqb_spec c' (size_of inp)) as [->|]; cbn [negb]; [|done]. intros [= <-].
    apply read_auth_inv in E as (Hk & Hm & Eh & Ho2); [|eauto with tightrope].
    assert (valid_handshake h) as Hv by (rewrite Eh; repeat split; simpl; apply H1 || apply H2 || apply H3 || apply Hk || apply Hm).
    split; [done|]. rewrite encode_handshake_bytes by done. unfold handshake_bytes.
    assert (handshake_base_bytes h = handshake_base_bytes g) as -> by (by rewrite Eh).
    pose proof (occurs_whole _ _ (occurs_app _ _ _ _ _ _ Ho Ho2)) as ->.
    destruct (has_auth h) eqn:Ha; [by left|right]. split; [done|]. rewrite app_nil_r.
    apply has_auth_false in Ha as [-> ->]. done.
Qed.

Lemma handshake_accepts_encodings_witness :
  let inp := encode_handshake (mkHandshake 7 3 41 [] []) ++ string_bytes [] ++ string_bytes [] in
  decode_handshake inp = Some (mkHandshake 7 3 41 [] []) /\
  valid_handshake (mkHandshake 7 3 41 [] []).
Proof.
  split; [reflexivity|].
  exact (proj1 (handshake_accepts_encodings
    (encode_handshake (mkHandshake 7 3 41 [] []) ++ string_bytes [] ++ string_bytes []) _ eq_refl)).
Defined.

(** ** Handshake authentication

    [hmac] is libsodium's HMAC-SHA-256 of a key and a message, [verify_32] its
    [crypto_verify_32]. *)

Section auth.
Variable hmac : bytes -> bytes -> bytes.
Variable verify_32 : bytes -> bytes -> Z.

Definition crypto_auth_hmacsha256_BYTES : Z := 32.

Definition decode_hmac_hex (hex : bytes) : option bytes :=
  Hex.hex_decode_into crypto_auth_hmacsha256_BYTES hex.

(** The result of [write_string] is not looked at. *)
Definition handshake_auth_payload (frame : HandshakeFrame) : bytes :=
  let payload := write_u32 [] (site_id frame) in
  let payload := write_u32 payload (schema_version frame) in
  let payload := write_u64 payload (last_recv_seq_from_peer frame) in
  snd (write_string payload (auth_key_id frame)).

Definition compute_handshake_hmac_hex (frame : HandshakeFrame) (shared_secret : bytes) : option bytes :=
  if empty shared_secret then None
  else Some (Hex.hex_encode (hmac shared_secret (handshake_auth_payload frame))).

Definition with_auth_hmac_hex (frame : HandshakeFrame) (hex : bytes) : HandshakeFrame :=
  mkHandshake (site_id frame) (schema_version frame) (last_recv_seq_from_peer frame)
    (auth_key_id frame) hex.

Definition sign_handshake (frame : HandshakeFrame) (shared_secret : bytes) : HandshakeFrame :=
  match compute_handshake_hmac_hex frame shared_secret with
  | Some signature => with_auth_hmac_hex frame signature
  | None => with_auth_hmac_hex frame []
  end.

Definition validate_handshake_auth (remote : HandshakeFrame) (shared_secret : bytes)
    (require_auth : bool) : HandshakeAuthValidationResult :=
  if empty (auth_hmac_hex remote) then
    if require_auth then mkAuthValidation false ($"handshake auth required but missing hmac")
    else mkAuthValidation true []
  else if empty shared_secret then
    mkAuthValidation false ($"handshake auth present but shared secret is not configured")
  else
    match decode_hmac_hex (auth_hmac_hex remote) with
    | None => mkAuthValidation false ($"handshake auth hmac must be 64 hex characters")
    | Some provided =>
        match compute_handshake_hmac_hex remote shared_secret with
        | None => mkAuthValidation false ($"handshake auth could not be computed")
        | Some expected_hex =>
            match decode_hmac_hex expected_hex with
            | None => mkAuthValidation false ($"handshake auth expected digest is invalid")
            | Some expected =>
                if negb (verify_32 provided expected =? 0) then
                  mkAuthValidation false ($"handshake auth hmac mismatch")
                else mkAuthValidation true []
            end
        end
    end.

Hypothesis hmac_size : forall key msg, size_of (hmac key msg) = 32.
Hypothesis verify_32_spec : forall a b,
  size_of a = 32 -> size_of b = 32 -> verify_32 a b = 0 <-> a = b.

Lemma empty_false s : empty s = false <-> s <> [].
Proof. rewrite <- not_true_iff_false. by rewrite empty_true. Qed.

Lemma validate_auth_accepts remote secret require :
  auth_accepted (validate_handshake_auth remote secret require) = true <->
  (auth_hmac_hex remote = [] /\ require = false) \/
  (secret <> [] /\
   decode_hmac_hex (auth_hmac_hex remote) = Some (hmac secret (handshake_auth_payload remote))).
Proof.
  unfold validate_handshake_auth, compute_handshake_hmac_hex.
  destruct (empty (auth_hmac_hex remote)) eqn:E1.
  { apply empty_true in E1. rewrite E1. destruct require; simpl; [|tauto].
    split; [done|]. intros [[_ ?]|[_ ?]]; done. }
  apply empty_false in E1. destruct (empty secret) eqn:E2.
  { apply empty_true in E2. simpl. split; [done|]. intros [[? _]|[? _]]; done. }
  apply empty_false in E2. destruct (decode_hmac_hex (auth_hmac_hex remote)) as [p|] eqn:E3.
  2: { simpl. split; [done|]. intros [[? _]|[_ ?]]; done. }
  unfold decode_hmac_hex at 1. rewrite Hex.hex_decode_into_encode by apply hmac_size.
  pose proof (Hex.hex_decode_into_size _ _ _ E3) as Hp.
  destruct (Z.eqb_spec (verify_32 p (hmac secret (handshake_auth_payload remote))) 0) as [H|H];
    rewrite (verify_32_spec _ _ Hp (hmac_size _ _)) in H; simpl.
  - rewrite H. tauto.
  - split; [done|]. intros [[? _]|[_ ?]]; [done|]. by simplify_eq.
Qed.

(** The signed bytes identify the signed fields. *)
Lemma auth_payload_inj f g :
  valid_handshake f -> valid_handshake g ->
  handshake_auth_payload f = handshake_auth_payload g ->
  with_auth_hmac_hex f [] = with_auth_hmac_hex g [].
Proof.
  assert (forall f, valid_handshake f ->
    handshake_auth_payload f = handshake_base_bytes f ++ string_bytes (auth_key_id f)) as Ebytes.
  { intros h (_ & _ & _ & Hk & _). unfold handshake_auth_payload, write_u32, write_u64.
    rewrite write_string_ok by done. cbn [snd]. unfold handshake_base_bytes. rewrite <- !app_assoc. done. }
  intros Hf Hg H. rewrite !Ebytes in H by done.
  pose proof (read_base_roundtrip f (string_bytes (auth_key_id f)) Hf) as Rf.
  rewrite H, read_base_roundtrip in Rf by done. injection Rf as E1 E2 E3.
  assert (size_of (handshake_base_bytes f) = size_of (handshake_base_bytes g)) as E4 by done.
  pose proof Hf as (_ & _ & _ & Hkf & _). pose proof Hg as (_ & _ & _ & Hkg & _).
  pose proof (codec_roundtrip (dec := read_string) (auth_key_id f) (handshake_base_bytes f) [] Hkf) as Sf.
  rewrite app_nil_r, H, E4 in Sf. rewrite <- (app_nil_r (string_bytes (auth_key_id g))) in Sf.
  rewrite codec_roundtrip in Sf by done. injection Sf as E5 _.
  unfold with_auth_hmac_hex. by rewrite E1, E2, E3, E5.
Qed.

Lemma with_auth_payload f hex : handshake_auth_payload (with_auth_hmac_hex f hex) = handshake_auth_payload f.
Proof. done. Qed.

(** A frame signed with the shared secret is accepted by a peer that requires
    authentication; and any frame such a peer accepts under a secret carries
    the digest of its own site, schema, acknowledged sequence and key id, so
    when it carries the signature of another frame and the digest tells the
    two messages apart, the two frames agree on all signed fields. *)
Theorem signed_handshake_authentic f g secret :
  valid_handshake f -> valid_handshake g -> secret <> [] ->
  (hmac secret (handshake_auth_payload f) = hmac secret (handshake_auth_payload g) ->
   handshake_auth_payload f = handshake_auth_payload g) ->
  auth_accepted (validate_handshake_auth (sign_handshake f secret) secret true) = true /\
  (auth_accepted (validate_handshake_auth g secret true) = true ->
   auth_hmac_hex g = auth_hmac_hex (sign_handshake f secret) ->
   g = sign_handshake f secret).
Proof.
  intros Hf Hg Hs Hcol. unfold sign_handshake, compute_handshake_hmac_hex.
  destruct (empty secret) eqn:E; [by apply empty_true in E|].
  rewrite !validate_auth_accepts, with_auth_payload.
  cbn [auth_hmac_hex with_auth_hmac_hex]. split.
  - right. split; [done|]. by apply Hex.hex_decode_into_encode.
  - intros [[_ ?]|[_ Hd]] Hhex; [done|]. rewrite Hhex in Hd. unfold decode_hmac_hex in Hd.
    rewrite Hex.hex_decode_into_encode in Hd by done. injection Hd as Hd.
    apply (auth_payload_inj f g Hf Hg) in Hcol; [|done]. unfold with_auth_hmac_hex in *.
    injection Hcol as E1 E2 E3 E4. destruct g; simpl in *. by subst.
Qed.

(** Validation accepts exactly the frames that carry no digest when none is
    required, and those whose 64 hex digits spell the digest of their own
    fields under a non-empty secret; a rejection always carries a message. *)
Theorem handshake_auth_decides remote secret require :
  (auth_accepted (validate_handshake_auth remote secret require) = true <->
   (auth_hmac_hex remote = [] /\ require = false) \/
   (secret <> [] /\
    Hex.hex_decode_into 32 (auth_hmac_hex remote) = Some (hmac secret (handshake_auth_payload remote)))) /\
  (auth_accepted (validate_handshake_auth remote secret require) = false <->
   auth_error (validate_handshake_auth remote secret require) <> []).
Proof.
  split; [apply validate_auth_accepts|].
  unfold validate_handshake_auth, compute_handshake_hmac_hex. by repeat case_match.
Qed.
End auth.

(** A keyed digest of 32 bytes, and equality of digests, to instantiate them. *)
Definition toy_hmac (key msg : bytes) : bytes := take 32 (msg ++ key ++ replicate 32 Byte.x00).
Definition toy_verify_32 (a b : bytes) : Z := if decide (a = b) then 0 else -1.

Lemma toy_hmac_size key msg : size_of (toy_hmac key msg) = 32.
Proof. unfold size_of, toy_hmac. rewrite length_take, !length_app, length_replicate. lia. Qed.

Lemma toy_verify_spec a b : size_of a = 32 -> size_of b = 32 -> toy_verify_32 a b = 0 <-> a = b.
Proof. unfold toy_verify_32. intros. by case_decide. Qed.

Lemma signed_handshake_authentic_witness :
  let f := mkHandshake 7 3 41 ($"k") [] in
  auth_accepted (validate_handshake_auth toy_hmac toy_verify_32 (sign_handshake toy_hmac f ($"s")) ($"s") true) = true.
Proof.
  exact (proj1 (signed_handshake_authentic toy_hmac toy_verify_32 toy_hmac_size toy_verify_spec
    (mkHandshake 7 3 41 ($"k") []) (mkHandshake 8 3 41 ($"k") []) ($"s")
    ltac:(repeat split; vm_compute; congruence) ltac:(repeat split; vm_compute; congruence)
    ltac:(discriminate) ltac:(vm_compute; discriminate))).
Defined.

Lemma handshake_auth_decides_witness :
  auth_accepted (validate_handshake_auth toy_hmac toy_verify_32 (mkHandshake 7 3 41 [] []) ($"s") false) = true /\
  auth_accepted (validate_handshake_auth toy_hmac toy_verify_32 (mkHandshake 7 3 41 [] []) ($"s") true) = false.
Proof.
  split; [|reflexivity].
  apply (handshake_auth_decides toy_hmac toy_verify_32 toy_hmac_size toy_verify_spec). by left.
Defined.

(** ** Schema negotiation *)

Definition reject (message : bytes) : HandshakeValidationResult := mkHandshakeValidation false 0 message.

Definition validate_handshake_schema_version (remote : HandshakeFrame) (local_schema_version : Z)
    (allow_downgrade : bool) (min_supported_schema_version : Z) : HandshakeValidationResult :=
  if min_supported_schema_version =? 0 then
    reject ($"min_supported_schema_version must be >= 1")
  else if local_schema_version <? min_supported_schema_version then
    reject ($"local schema version " ++ to_string local_schema_version ++
            $" is below minimum supported " ++ to_string min_supported_schema_version)
  else if schema_version remote <? min_supported_schema_version then
    reject ($"peer schema version " ++ to_string (schema_version remote) ++
            $" is below minimum supported " ++ to_string min_supported_schema_version)
  else if schema_version remote =? local_schema_version then
    mkHandshakeValidation true local_schema_version []
  else if negb allow_downgrade then
    reject ($"schema version mismatch: local=" ++ to_string local_schema_version ++
            $" peer=" ++ to_string (schema_version remote))
  else
    let negotiated := Z.min local_schema_version (schema_version remote) in
    if negotiated <? min_supported_schema_version then
      reject ($"no compatible schema version: local=" ++ to_string local_schema_version ++
              $" peer=" ++ to_string (schema_version remote) ++
              $" min_supported=" ++ to_string min_supported_schema_version)
    else mkHandshakeValidation true negotiated [].

(** Negotiation succeeds exactly when both versions reach the non-zero minimum
    and are equal or a downgrade is allowed; it yields the smaller of the two
    versions, so both ends of a connection with one policy take the same
    decision and the same version; and it carries a message exactly when it
    fails. *)
Theorem schema_negotiation f g allow minimum :
  0 <= minimum ->
  let r := validate_handshake_schema_version f (schema_version g) allow minimum in
  let r' := validate_handshake_schema_version g (schema_version f) allow minimum in
  (accepted r = true <->
     0 < minimum /\ minimum <= schema_version f /\ minimum <= schema_version g /\
     (schema_version f = schema_version g \/ allow = true)) /\
  (accepted r = true -> negotiated_schema_version r = Z.min (schema_version f) (schema_version g)) /\
  accepted r' = accepted r /\ negotiated_schema_version r' = negotiated_schema_version r /\
  (accepted r = false <-> error r <> []).
Proof.
  intros Hm. cbv zeta. unfold validate_handshake_schema_version, reject.
  repeat (case_match; bool_hyps; cbn [accepted negotiated_schema_version error] in *);
    try (exfalso; lia);
    (split_and!; [split; [intros; try done; intuition lia | intros; intuition (try done; try congruence; try lia)]
                 | intros; try done; lia | try done; try lia | try done; try lia | by split]).
Qed.

Lemma schema_negotiation_witness :
  validate_handshake_schema_version (mkHandshake 1 4 0 [] []) 6 true 3 = mkHandshakeValidation true 4 [] /\
  accepted (validate_handshake_schema_version (mkHandshake 1 4 0 [] []) 6 true 3) = true.
Proof.
  split; [reflexivity|].
  apply (proj1 (schema_negotiation (mkHandshake 1 4 0 [] []) (mkHandshake 2 6 0 [] []) true 3 ltac:(lia))).
  simpl. lia.
Defined.

(** ** Journal batch frames *)

Record JournalWireEntry := mkWireEntry {
  seq : Z;
  hlc_wall : Z;
  hlc_counter : Z;
  entry_site_id : Z;
  table_name : bytes;
  row_pk : bytes;
  op : bytes;
  old_values : bytes;
  new_values : bytes;
  checksum : bytes;
  applied : Z;
  batch_id : bytes
}.

Record JournalBatchFrame := mkBatch { from_seq : Z; to_seq : Z; entries : list JournalWireEntry }.

#[global] Instance JournalWireEntry_eq_dec : EqDecision JournalWireEntry.
Proof. solve_decision. Defined.

Definition kCompressedFlag : Z := 1.

(** The body of the encoder's loop; the results of [write_string] are not
    looked at. *)
Definition write_entry (payload : bytes) (entry : JournalWireEntry) : bytes :=
  let payload := write_u64 payload (seq entry) in
  let payload := write_u64 payload (hlc_wall entry) in
  let payload := write_u32 payload (hlc_counter entry) in
  let payload := write_u32 payload (entry_site_id entry) in
  let payload := snd (write_string payload (table_name entry)) in
  let payload := snd (write_string payload (row_pk entry)) in
  let payload := snd (write_string payload (op entry)) in
  let payload := snd (write_string payload (old_values entry)) in
  let payload := snd (write_string payload (new_values entry)) in
  let payload := snd (write_string payload (checksum entry)) in
  let payload := write_i32 payload (applied entry) in
  snd (write_string payload (batch_id entry)).

Definition write_batch_payload (frame : JournalBatchFrame) : bytes :=
  let payload := write_u64 [] (from_seq frame) in
  let payload := write_u64 payload (to_seq frame) in
  let payload := write_u32 payload (u32 (size_of (entries frame))) in
  foldl write_entry payload (entries frame).

Definition read_entry : reader JournalWireEntry :=
  seq ← read_u64;
  hlc_wall ← read_u64;
  hlc_counter ← read_u32;
  site_id ← read_u32;
  table_name ← read_string;
  row_pk ← read_string;
  op ← read_string;
  old_values ← read_string;
  new_values ← read_string;
  checksum ← read_string;
  applied ← read_i32;
  batch_id ← read_string;
  mret (mkWireEntry seq hlc_wall hlc_counter site_id table_name row_pk op old_values new_values
          checksum applied batch_id).

Definition read_batch : reader JournalBatchFrame :=
  from ← read_u64;
  to ← read_u64;
  count ← read_u32;
  es ← read_many read_entry (Z.to_nat count);
  mret (mkBatch from to es).

(** [std::vector<uint8_t>::resize]. *)
Definition resize (out : bytes) (n : Z) : bytes :=
  take (Z.to_nat n) (out ++ replicate (Z.to_nat n) Byte.x00).

Section batch.
(** liblz4: the bound on a compressed size, and the two block functions, which
    return their result and the destination buffer (of the given capacity)
    after the call. *)
Variable LZ4_compressBound : Z -> Z.
Variable LZ4_compress_default : bytes -> Z -> Z -> Z * bytes.
Variable LZ4_decompress_safe : bytes -> Z -> Z -> Z * bytes.

Definition compress_lz4 (payload : bytes) : option bytes :=
  let max_size := LZ4_compressBound (sint 32 (size_of payload)) in
  if max_size <=? 0 then None
  else
    let (written, out) := LZ4_compress_default payload (sint 32 (size_of payload)) max_size in
    if written <=? 0 then None else Some (resize out written).

Definition decompress_lz4 (payload : bytes) (uncompressed_size : Z) : option bytes :=
  let (written, out) :=
    LZ4_decompress_safe payload (sint 32 (size_of payload)) (sint 32 uncompressed_size) in
  if (written <? 0) || negb (written =? uncompressed_size) then None else Some out.

Definition encode_journal_batch (frame : JournalBatchFrame) : bytes :=
  let payload := write_batch_payload frame in
  let compressed := compress_lz4 payload in
  let use_compressed :=
    match compressed with Some c => size_of c <? size_of payload | None => false end in
  let wire_payload := if use_compressed then default [] compressed else payload in
  let wire := write_u8 [] (if use_compressed then kCompressedFlag else 0) in
  let wire := write_u32 wire (u32 (size_of payload)) in
  let wire := write_u32 wire (u32 (size_of wire_payload)) in
  wire ++ wire_payload.

Definition read_batch_header : reader (Z * Z * Z) :=
  flags ← read_u8;
  uncompressed_size ← read_u32;
  payload_size ← read_u32;
  mret (flags, uncompressed_size, payload_size).

Definition decode_journal_batch (input : bytes) : option JournalBatchFrame :=
  match read_batch_header input 0 with
  | None => None
  | Some ((flags, uncompressed_size, payload_size), cursor) =>
      if negb (cursor + payload_size =? size_of input) then None
      else
        let body := slice input cursor payload_size in
        match (if negb (Z.land flags kCompressedFlag =? 0)
               then decompress_lz4 body uncompressed_size else Some body) with
        | None => None
        | Some payload =>
            match read_batch payload 0 with
            | None => None
            | Some (batch, parse_cursor) =>
                if negb (parse_cursor =? size_of payload) then None else Some batch
            end
        end
  end.

(** The frame as the bytes it stands for. *)
Definition entry_bytes (e : JournalWireEntry) : bytes :=
  u64_bytes (seq e) ++ u64_bytes (hlc_wall e) ++ u32_bytes (hlc_counter e) ++
  u32_bytes (entry_site_id e) ++ string_bytes (table_name e) ++ string_bytes (row_pk e) ++
  string_bytes (op e) ++ string_bytes (old_values e) ++ string_bytes (new_values e) ++
  string_bytes (checksum e) ++ i32_bytes (applied e) ++ string_bytes (batch_id e).

Definition valid_entry (e : JournalWireEntry) : Prop :=
  in_uint 64 (seq e) /\ in_uint 64 (hlc_wall e) /\ in_uint 32 (hlc_counter e) /\
  in_uint 32 (entry_site_id e) /\ valid_string (table_name e) /\ valid_string (row_pk e) /\
  valid_string (op e) /\ valid_string (old_values e) /\ valid_string (new_values e) /\
  valid_string (checksum e) /\ in_sint 32 (applied e) /\ valid_string (batch_id e).

Definition batch_bytes (b : JournalBatchFrame) : bytes :=
  u64_bytes (from_seq b) ++ u64_bytes (to_seq b) ++ u32_bytes (size_of (entries b)) ++
  concat (entry_bytes <$> entries b).

Definition valid_batch (b : JournalBatchFrame) : Prop :=
  in_uint 64 (from_seq b) /\ in_uint 64 (to_seq b) /\ in_uint 32 (size_of (entries b)) /\
  Forall valid_entry (entries b).

#[local] Instance entry_codec : Codec valid_entry entry_bytes read_entry.
Proof.
  split.
  - intros e pre suf (? & ? & ? & ? & ? & ? & ? & ? & ? & ? & ? & ?).
    unfold entry_bytes. rewrite <- !app_assoc. unfold read_entry. read_back.
    unfold mret, reader_ret. rewrite <- !app_assoc, !size_of_app. destruct e; simpl.
    do 2 f_equal; lia.
  - intros inp c e c' Hc H. unfold read_entry in H. do 12 read_inv H.
    apply ret_inv in H as [<- <-]. split; [by split_and!|].
    unfold entry_bytes. cbn [seq hlc_wall hlc_counter entry_site_id table_name row_pk op old_values
      new_values checksum applied batch_id]. repeat (eapply occurs_app; [eassumption|]). eassumption.
Qed.

Lemma read_batch_roundtrip b : valid_batch b ->
  read_batch (batch_bytes b) 0 = Some (b, size_of (batch_bytes b)).
Proof.
  intros (? & ? & Hn & He). unfold read_batch, batch_bytes.
  rewrite <- (app_nil_l (u64_bytes (from_seq b) ++ _)) at 1.
  rewrite <- (app_nil_r (concat _)) at 1. change 0 with (size_of (@nil Byte.byte)).
  read_back.
  eapply (bind_roundtrip (HC := many_codec (Z.to_nat (size_of (entries b))))).
  - by rewrite to_nat_size_of.
  - unfold mret, reader_ret. rewrite !app_nil_l, <- !app_assoc. by destruct b.
Qed.

Lemma read_batch_inv inp b c :
  read_batch inp 0 = Some (b, c) -> valid_batch b /\ occurs inp 0 (batch_bytes b) c.
Proof.
  unfold read_batch. intros H. assert (0 <= 0) as Hc0 by done. do 3 read_inv H.
  apply (bind_sound (HC := many_codec (Z.to_nat x1))) in H as (es & c3 & [Hl Hes] & Ho3 & Hc3 & H); [|done].
  apply ret_inv in H as [<- <-].
  assert (size_of es = x1) as <- by (unfold size_of; destruct Hv1; lia).
  split; [by split_and!|]. unfold batch_bytes. cbn [from_seq to_seq entries].
  eauto 6 using occurs_app.
Qed.

Lemma write_entry_bytes payload e : valid_entry e -> write_entry payload e = payload ++ entry_bytes e.
Proof.
  intros (? & ? & ? & ? & ? & ? & ? & ? & ? & ? & ? & ?). unfold write_entry. cbv zeta.
  rewrite !write_string_ok by done. cbn [snd]. rewrite !write_i32_bytes, !write_u32_app, !write_u64_app.
  unfold entry_bytes. by rewrite <- !app_assoc.
Qed.

Lemma write_batch_payload_bytes b : valid_batch b -> write_batch_payload b = batch_bytes b.
Proof.
  intros (_ & _ & Hn & He). unfold write_batch_payload, batch_bytes.
  rewrite wrap_small by done. unfold write_u64, write_u32. cbn [app].
  rewrite !(app_assoc (u64_bytes _)), (app_assoc _ (u32_bytes _)). generalize ((u64_bytes (from_seq b) ++ u64_bytes (to_seq b)) ++ u32_bytes (size_of (entries b))).
  intros pre. clear Hn. revert pre. induction He as [|e es Hv He IH]; intros pre; simpl.
  - by rewrite app_nil_r.
  - rewrite IH, (write_entry_bytes _ _ Hv). by rewrite <- app_assoc.
Qed.

(** What the code relies on of liblz4: no bound for a size outside its range,
    and a block it compressed decompresses to what it was made from. *)
Hypothesis compressBound_negative : forall n, n < 0 -> LZ4_compressBound n <= 0.
Hypothesis compress_decompress : forall src cap written dst,
  LZ4_compress_default src (size_of src) cap = (written, dst) -> 0 < written ->
  size_of dst = cap /\ written <= cap /\ written < 2 ^ 31 /\
  LZ4_decompress_safe (take (Z.to_nat written) dst) written (size_of src) = (size_of src, src).

Lemma resize_shrink out n : 0 <= n <= size_of out -> resize out n = take (Z.to_nat n) out.
Proof. intros [? Hn]. unfold resize, size_of in *. rewrite take_app_le by lia. done. Qed.

Lemma compress_lz4_inverse payload c :
  size_of payload < 2 ^ 32 -> compress_lz4 payload = Some c ->
  decompress_lz4 c (size_of payload) = Some payload.
Proof.
  intros Hlt. unfold compress_lz4. case_match eqn:Eb; [done|]. bool_hyps.
  destruct (Z.lt_ge_cases (size_of payload) (2 ^ 31)) as [Hsmall|Hbig].
  2: { exfalso. pose proof (compressBound_negative (sint 32 (size_of payload))).
       unfold sint in *. rewrite Z.mod_small in * by size_lia.
       destruct (Z.ltb_spec (size_of payload) (2 ^ (32 - 1))); lia. }
  assert (sint 32 (size_of payload) = size_of payload) as Es.
  { unfold sint. rewrite Z.mod_small by size_lia.
    destruct (Z.ltb_spec (size_of payload) (2 ^ (32 - 1))); lia. }
  rewrite Es in *. destruct (LZ4_compress_default _ _ _) as [written dst] eqn:E.
  case_match eqn:Ew; [done|]. bool_hyps. intros [= <-].
  apply compress_decompress in E as (Hd & Hw & Hw31 & Hdec); [|done].
  assert (size_of (take (Z.to_nat written) dst) = written) as Ht.
  { unfold size_of in *. rewrite length_take. lia. }
  rewrite resize_shrink by lia. unfold decompress_lz4. rewrite Ht, Es.
  assert (sint 32 written = written) as ->.
  { unfold sint. rewrite Z.mod_small by lia.
    destruct (Z.ltb_spec written (2 ^ (32 - 1))); lia. }
  rewrite Hdec. rewrite Z.eqb_refl. destruct (Z.ltb_spec (size_of payload) 0); [size_lia|done].
Qed.

Definition wire_bytes (flags uncompressed : Z) (body : bytes) : bytes :=
  u8_bytes flags ++ u32_bytes uncompressed ++ u32_bytes (size_of body) ++ body.

Lemma read_header_roundtrip flags un body :
  in_uint 8 flags -> in_uint 32 un -> in_uint 32 (size_of body) ->
  read_batch_header (wire_bytes flags un body) 0 = Some ((flags, un, size_of body), 9) /\
  slice (wire_bytes flags un body) 9 (size_of body) = body /\
  size_of (wire_bytes flags un body) = 9 + size_of body.
Proof.
  intros H1 H2 H3. unfold wire_bytes. split_and!.
  - rewrite <- (app_nil_l (u8_bytes flags ++ _)). change 0 with (size_of (@nil Byte.byte)).
    unfold read_batch_header. read_back. done.
  - pose proof (slice_mid (u8_bytes flags ++ u32_bytes un ++ u32_bytes (size_of body)) body []) as R.
    rewrite app_nil_r, <- !app_assoc in R. exact R.
  - rewrite !size_of_app, !size_u32_bytes, size_u8_bytes. lia.
Qed.

(** A batch whose fields fit their types and whose payload is below 4 GiB is
    read back exactly as it was sent, whether or not it was compressed. *)
Theorem journal_batch_roundtrip b :
  valid_batch b -> size_of (batch_bytes b) < 2 ^ 32 ->
  decode_journal_batch (encode_journal_batch b) = Some b.
Proof.
  intros Hv Hlt. unfold encode_journal_batch. rewrite write_batch_payload_bytes by done.
  set (use := match compress_lz4 _ with Some _ => _ | None => _ end).
  set (body := if use then default [] _ else _).
  assert (size_of body <= size_of (batch_bytes b) /\
    (if use then decompress_lz4 body (size_of (batch_bytes b)) else Some body) = Some (batch_bytes b))
    as [Hbody Hdec].
  { subst body use. destruct (compress_lz4 _) as [c|] eqn:E; [|done].
    destruct (Z.ltb_spec (size_of c) (size_of (batch_bytes b))); [|done].
    change (default [] (Some c)) with c. split; [lia|]. by apply compress_lz4_inverse. }
  clearbody use body. rewrite !wrap_small by size_lia.
  assert (write_u32 (write_u32 (write_u8 [] (if use then kCompressedFlag else 0))
      (size_of (batch_bytes b))) (size_of body) ++ body =
    wire_bytes (if use then 1 else 0) (size_of (batch_bytes b)) body) as ->
    by (unfold write_u32, write_u8, wire_bytes; by rewrite <- !app_assoc).
  destruct (read_header_roundtrip (if use then 1 else 0) (size_of (batch_bytes b)) body) as (E1 & E2 & E3);
    [by destruct use|size_lia|size_lia|].
  unfold decode_journal_batch. rewrite E1, E2, E3, Z.eqb_refl. cbn [negb].
  assert (negb (Z.land (if use then 1 else 0) kCompressedFlag =? 0) = use) as -> by by destruct use.
  rewrite Hdec, read_batch_roundtrip, Z.eqb_refl by done. done.
Qed.

(** Whatever bytes are accepted, the frame read is well-formed, and the bytes
    are a header and a body that holds (or decompresses to) exactly the
    frame's encoding: nothing is skipped and nothing trails. *)
Theorem journal_batch_accepts_encodings inp b :
  decode_journal_batch inp = Some b ->
  valid_batch b /\ exists flags uncompressed body,
    inp = wire_bytes flags uncompressed body /\
    (if Z.testbit flags 0 then decompress_lz4 body uncompressed = Some (batch_bytes b)
     else body = batch_bytes b).
Proof.
  unfold decode_journal_batch. destruct (read_batch_header inp 0) as [[[[fl un] sz] cur]|] eqn:E; [|done].
  assert (0 <= 0) as Hc0 by done. unfold read_batch_header in E. do 3 read_inv E.
  apply ret_inv in E as [[= -> -> ->] <-].
  destruct (Z.eqb_spec (c1 + sz) (size_of inp)) as [Hsz|]; cbn [negb]; [|done].
  destruct (if negb _ then _ else _) as [payload|] eqn:Ep; [|done].
  destruct (read_batch payload 0) as [[b' pc]|] eqn:Eb; [|done].
  apply read_batch_inv in Eb as [Hvb Hob].
  destruct (Z.eqb_spec pc (size_of payload)) as [->|]; cbn [negb]; [|done]. intros [= ->].
  apply occurs_whole in Hob. split; [done|]. exists fl, un, (slice inp c1 sz).
  pose proof (slice_length inp c1 sz) as Hl. destruct Hv1 as [Hsz0 _].
  rewrite Hsz in Hl. specialize (Hl ltac:(done) Hsz0 ltac:(done)). split.
  - apply occurs_whole. rewrite <- Hsz. unfold wire_bytes. rewrite Hl.
    eapply occurs_app; [eassumption|]. eapply occurs_app; [eassumption|].
    eapply occurs_app; [eassumption|]. unfold occurs. rewrite Hl. done.
  - subst payload. change kCompressedFlag with (Z.ones 1) in Ep. rewrite Z.land_ones in Ep by done.
    change (2 ^ 1) with 2 in Ep. rewrite Zmod_odd, <- Z.bit0_odd in Ep.
    destruct (Z.testbit fl 0); [done|]. by injection Ep.
Qed.
End batch.

(** A block codec of the same interface: a block of one repeated byte is
    stored as that byte and its count in decimal, any other block is refused. *)
Definition toy_bound (n : Z) : Z := if n <? 0 then 0 else n.
Definition toy_compress (src : bytes) (n cap : Z) : Z * bytes :=
  match src with
  | b :: _ =>
      if (bool_decide (src = replicate (length src) b)) && (1 <? cap) && (n =? size_of src)
      then (1, resize [b] cap) else (0, resize [] cap)
  | [] => (0, resize [] cap)
  end.
Definition toy_decompress (src : bytes) (n cap : Z) : Z * bytes :=
  match src with
  | [b] => if n =? 1 then (cap, replicate (Z.to_nat cap) b) else (-1, resize [] cap)
  | _ => (-1, resize [] cap)
  end.

Lemma toy_bound_negative n : n < 0 -> toy_bound n <= 0.
Proof. unfold toy_bound. destruct (Z.ltb_spec n 0); lia. Qed.

Lemma toy_compress_decompress src cap written dst :
  toy_compress src (size_of src) cap = (written, dst) -> 0 < written ->
  size_of dst = cap /\ written <= cap /\ written < 2 ^ 31 /\
  toy_decompress (take (Z.to_nat written) dst) written (size_of src) = (size_of src, src).
Proof.
  unfold toy_compress. destruct src as [|b src]; [intros [= <- _]; lia|].
  case_match eqn:E; intros [= <- <-]; [|lia]. bool_hyps. intros _.
  assert (resize [b] cap = b :: replicate (Z.to_nat cap - 1) Byte.x00) as ->.
  { unfold resize. destruct (Z.to_nat cap) as [|n] eqn:En; [lia|]. simpl.
    rewrite Nat.sub_0_r. f_equal. rewrite replicate_cons_app.
    rewrite take_app_le by (rewrite length_replicate; lia).
    rewrite take_ge; [done|]. rewrite length_replicate. lia. }
  split_and!; [|lia|done|].
  - rewrite size_of_cons. unfold size_of. rewrite length_replicate. lia.
  - simpl. rewrite to_nat_size_of. by rewrite <- H.
Qed.

Definition sample_batch : JournalBatchFrame :=
  mkBatch 5 6 [mkWireEntry 5 1700000000 2 9 ($"accounts") ($"id") ($"INSERT") [] ($"v") ($"ab") 1 ($"b1");
               mkWireEntry 6 1700000000 3 9 ($"accounts") ($"id") ($"DELETE") ($"v") [] ($"cd") (-1) []].

Lemma sample_batch_valid : valid_batch sample_batch.
Proof. repeat constructor; vm_compute; congruence. Qed.

Lemma journal_batch_roundtrip_witness :
  valid_batch sample_batch /\
  decode_journal_batch toy_decompress (encode_journal_batch toy_bound toy_compress sample_batch) =
    Some sample_batch.
Proof.
  split; [exact sample_batch_valid|].
  exact (journal_batch_roundtrip toy_bound toy_compress toy_decompress toy_bound_negative
    toy_compress_decompress sample_batch sample_batch_valid ltac:(vm_compute; reflexivity)).
Defined.

Lemma journal_batch_accepts_encodings_witness :
  decode_journal_batch toy_decompress (wire_bytes 1 20 [Byte.x00]) = Some (mkBatch 0 0 []) /\
  valid_batch (mkBatch 0 0 []).
Proof.
  split; [reflexivity|].
  exact (proj1 (journal_batch_accepts_encodings toy_decompress (wire_bytes 1 20 [Byte.x00]) _ eq_refl)).
Defined.
