(* ===== verification/Rpc.v ===== *)
(** * Rpc: framing and the bounded ingress queue

    src/native/sync/include/transport/rpc_channel.h and
    src/native/sync/src/transport/rpc_channel.cpp: the channel/size/payload
    frame (little-endian) and the queue that reassembles frames from chunks of
    a socket under limits.  [std::size_t] is 64 bits wide.  The optional error
    out-parameter is a returned message; the log calls are left out. *)

From S2P Require Import Prelude Codec.

Record RpcFrame := mkFrame { channel : Z; payload : bytes }.

#[global] Instance RpcFrame_eq_dec : EqDecision RpcFrame.
Proof. solve_decision. Defined.

Definition kHeaderSize : Z := 6.

Definition write_u16 (out : bytes) (value : Z) : bytes :=
  out ++ [byte_of (Z.land value 255); byte_of (Z.land (Z.shiftr value 8) 255)].

Definition write_u32 (out : bytes) (value : Z) : bytes :=
  out ++ [byte_of (Z.land value 255); byte_of (Z.land (Z.shiftr value 8) 255);
          byte_of (Z.land (Z.shiftr value 16) 255); byte_of (Z.land (Z.shiftr value 24) 255)].

(** The readers take the buffer and the offset of the pointer they are given. *)
Definition read_u16 (raw : bytes) (at_offset : Z) : Z :=
  Z.lor (at_ raw at_offset) (Z.shiftl (at_ raw (at_offset + 1)) 8).

Definition read_u32 (raw : bytes) (at_offset : Z) : Z :=
  Z.lor (Z.lor (Z.lor (at_ raw at_offset) (Z.shiftl (at_ raw (at_offset + 1)) 8))
           (Z.shiftl (at_ raw (at_offset + 2)) 16))
    (Z.shiftl (at_ raw (at_offset + 3)) 24).

Definition clamp_min (value min_value : Z) : Z := if value <? min_value then min_value else value.

Definition encode (frame : RpcFrame) : bytes :=
  write_u32 (write_u16 [] (channel frame)) (u32 (size_of (payload frame))) ++ payload frame.

(** The frame, and the buffer with the frame erased. *)
Definition try_decode (buffer : bytes) : option (RpcFrame * bytes) :=
  if size_of buffer <? kHeaderSize then None
  else
    let channel := read_u16 buffer 0 in
    let payload_size := read_u32 buffer 2 in
    let required := kHeaderSize + payload_size in
    if size_of buffer <? required then None
    else Some (mkFrame channel (slice buffer kHeaderSize payload_size), drop (Z.to_nat required) buffer).

Record RpcIngressLimits := mkLimits {
  max_buffered_bytes : Z;
  pause_buffered_bytes : Z;
  resume_buffered_bytes : Z;
  max_queued_frames : Z;
  max_queued_payload_bytes : Z;
  max_frame_payload_bytes : Z
}.

Definition default_limits : RpcIngressLimits :=
  mkLimits (8 * 1024 * 1024) (4 * 1024 * 1024) (2 * 1024 * 1024) 32 (8 * 1024 * 1024) (4 * 1024 * 1024).

Record RpcIngressQueue := mkQueue {
  limits_ : RpcIngressLimits;
  input_buffer_ : bytes;
  queue_ : list RpcFrame;
  queued_payload_bytes_ : Z
}.

(** The constructor. *)
Definition make_queue (limits : RpcIngressLimits) : RpcIngressQueue :=
  let max_buffered := clamp_min (max_buffered_bytes limits) kHeaderSize in
  let max_frame_payload := clamp_min (max_frame_payload_bytes limits) 1 in
  let max_frames := clamp_min (max_queued_frames limits) 1 in
  let max_queued_payload := clamp_min (max_queued_payload_bytes limits) 1 in
  let pause := Z.min (pause_buffered_bytes limits) max_buffered in
  let resume := Z.min (resume_buffered_bytes limits) pause in
  mkQueue (mkLimits max_buffered pause resume max_frames max_queued_payload max_frame_payload) [] [] 0.

Definition payload_exceeds_limit (payload_size max : Z) : bytes :=
  $"rpc ingress frame payload exceeds limit (payload_bytes=" ++ to_string payload_size ++
  $", max=" ++ to_string max ++ $")".

Definition frame_exceeds_buffer (required max : Z) : bytes :=
  $"rpc ingress frame size exceeds buffer limit (frame_bytes=" ++ to_string required ++
  $", max=" ++ to_string max ++ $")".

Definition buffer_budget_exceeded (incoming buffered max : Z) : bytes :=
  $"rpc ingress buffer budget exceeded (incoming=" ++ to_string incoming ++
  $", buffered=" ++ to_string buffered ++ $", max=" ++ to_string max ++ $")".

(** One turn of the loop of [drain_decoded_frames]: leave it with [true],
    leave it with [false] and a message, or go round. *)
Inductive drain_result :=
  | DrainBreak
  | DrainError (message : bytes)
  | DrainNext (q : RpcIngressQueue).

Definition drain_turn (q : RpcIngressQueue) : drain_result :=
  let limits := limits_ q in
  let input := input_buffer_ q in
  if size_of input =? 0 then DrainBreak
  else if max_queued_frames limits <=? size_of (queue_ q) then DrainBreak
  else if size_of input <? kHeaderSize then DrainBreak
  else
    let payload_size := read_u32 input 2 in
    if max_frame_payload_bytes limits <? payload_size then
      DrainError (payload_exceeds_limit payload_size (max_frame_payload_bytes limits))
    else
      let required := kHeaderSize + payload_size in
      if max_buffered_bytes limits <? required then
        DrainError (frame_exceeds_buffer required (max_buffered_bytes limits))
      else if size_of input <? required then DrainBreak
      else if u64 (max_queued_payload_bytes limits - payload_size) <? queued_payload_bytes_ q then DrainBreak
      else
        match try_decode input with
        | None => DrainBreak
        | Some (decoded, rest) =>
            DrainNext (mkQueue limits rest (queue_ q ++ [decoded])
                         (u64 (queued_payload_bytes_ q + size_of (payload decoded))))
        end.

(** The loop, with one unit of fuel a turn; every turn that goes round takes at
    least a header off the buffer, so the length of the buffer is enough
    (see [drain_enough]).  [None]: it returned true; a message: false. *)
Fixpoint drain_loop (fuel : nat) (q : RpcIngressQueue) : option bytes * RpcIngressQueue :=
  match fuel with
  | O => (None, q)
  | S fuel' =>
      match drain_turn q with
      | DrainBreak => (None, q)
      | DrainError message => (Some message, q)
      | DrainNext q' => drain_loop fuel' q'
      end
  end.

Definition drain_decoded_frames (q : RpcIngressQueue) : option bytes * RpcIngressQueue :=
  drain_loop (length (input_buffer_ q)) q.

(** [None] is the return value true, a message the return value false. *)
Definition ingest (incoming : bytes) (q : RpcIngressQueue) : option bytes * RpcIngressQueue :=
  let limits := limits_ q in
  let buffered := size_of (input_buffer_ q) in
  if max_buffered_bytes limits - Z.min buffered (max_buffered_bytes limits) <? size_of incoming then
    (Some (buffer_budget_exceeded (size_of incoming) buffered (max_buffered_bytes limits)), q)
  else
    drain_decoded_frames (mkQueue limits (input_buffer_ q ++ incoming) (queue_ q) (queued_payload_bytes_ q)).

Definition pop (q : RpcIngressQueue) : option RpcFrame * RpcIngressQueue :=
  match queue_ q with
  | [] => (None, q)
  | frame :: rest =>
      let queued :=
        if size_of (payload frame) <=? queued_payload_bytes_ q
        then queued_payload_bytes_ q - size_of (payload frame) else 0 in
      (Some frame, snd (drain_decoded_frames (mkQueue (limits_ q) (input_buffer_ q) rest queued)))
  end.

Definition has_frame (q : RpcIngressQueue) : bool := negb (size_of (queue_ q) =? 0).

Definition should_pause_reads (q : RpcIngressQueue) : bool :=
  (pause_buffered_bytes (limits_ q) <=? size_of (input_buffer_ q)) ||
  (max_queued_frames (limits_ q) <=? size_of (queue_ q)) ||
  (max_queued_payload_bytes (limits_ q) <=? queued_payload_bytes_ q).

Definition should_resume_reads (q : RpcIngressQueue) : bool :=
  (size_of (input_buffer_ q) <=? resume_buffered_bytes (limits_ q)) &&
  (size_of (queue_ q) <? max_queued_frames (limits_ q)) &&
  (queued_payload_bytes_ q <? max_queued_payload_bytes (limits_ q)).

Definition buffered_bytes (q : RpcIngressQueue) : Z := size_of (input_buffer_ q).
Definition queued_frames (q : RpcIngressQueue) : Z := size_of (queue_ q).
Definition queued_payload_bytes (q : RpcIngressQueue) : Z := queued_payload_bytes_ q.

(** ** Frames *)

Definition valid_frame (f : RpcFrame) : Prop := in_uint 16 (channel f) /\ in_uint 32 (size_of (payload f)).

Lemma encode_bytes f : valid_frame f ->
  encode f = le_bytes 2 (channel f) ++ le_bytes 4 (size_of (payload f)) ++ payload f.
Proof.
  intros [_ Hp]. unfold encode, write_u32, write_u16. rewrite wrap_small by done. cbn [app].
  repeat f_equal; word_enc.
Qed.

Lemma size_encode f : size_of (encode f) = kHeaderSize + size_of (payload f).
Proof.
  unfold encode, write_u32, write_u16, kHeaderSize.
  rewrite ?size_of_app, ?size_of_cons, ?size_of_nil. lia.
Qed.

Lemma read_u16_slice raw o : 0 <= o -> o + 2 <= size_of raw -> read_u16 raw o = le_value (slice raw o 2).
Proof.
  intros Ho Hs. unfold read_u16. repeat (rewrite slice_cons by lia). rewrite slice_zero.
  unfold at_. rewrite ?le_value_cons, ?le_value_nil, ?Z.shiftl_0_l, Z.lor_0_r. done.
Qed.

Lemma read_u32_slice raw o : 0 <= o -> o + 4 <= size_of raw -> read_u32 raw o = le_value (slice raw o 4).
Proof.
  intros Ho Hs. unfold read_u32. repeat (rewrite slice_cons by lia). rewrite slice_zero.
  unfold at_. rewrite ?le_value_cons, ?le_value_nil, ?Z.shiftl_lor, ?Z.shiftl_0_l, ?Z.shiftl_shiftl by lia.
  rewrite ?Z.lor_0_r, ?Z.lor_assoc. rewrite <- ?Z.add_assoc. reflexivity.
Qed.

(** Decoding takes a frame off the front of the buffer exactly when the buffer
    begins with the encoding of one. *)
Lemma try_decode_iff buffer f rest :
  try_decode buffer = Some (f, rest) <-> valid_frame f /\ buffer = encode f ++ rest.
Proof.
  unfold try_decode. split.
  - case_match eqn:E1; [done|]. case_match eqn:E2; [done|]. bool_hyps. unfold kHeaderSize in *.
    rewrite read_u16_slice, read_u32_slice in * by lia. intros [= <- <-].
    assert (size_of (slice buffer 0 2) = 2) as H2 by (apply slice_length; lia).
    assert (size_of (slice buffer 2 4) = 4) as H4 by (apply slice_length; lia).
    set (n := le_value (slice buffer 2 4)) in *.
    assert (in_uint 32 n) as Hn by exact (le_value_in 4 _ H4).
    assert (size_of (slice buffer 6 n) = n) as Hp by (apply slice_length; size_lia).
    assert (valid_frame (mkFrame (le_value (slice buffer 0 2)) (slice buffer 6 n))) as Hv.
    { split; simpl; [exact (le_value_in 2 _ H2)|by rewrite Hp]. }
    split; [done|]. rewrite encode_bytes by done. cbn [channel payload]. rewrite Hp.
    rewrite (le_bytes_value_size 2) by done. unfold n at 1. rewrite (le_bytes_value_size 4) by done.
    pose proof (slice_split buffer 0 2 4 ltac:(lia) ltac:(lia) ltac:(lia)) as R1.
    pose proof (slice_split buffer 0 6 n ltac:(lia) ltac:(lia) (proj1 Hn)) as R2.
    change (2 + 4) with 6 in R1. change (0 + 2) with 2 in R1. rewrite Z.add_0_l in R2.
    rewrite (app_assoc (slice buffer 0 2)), <- R1, <- R2.
    unfold slice. rewrite drop_0. symmetry. apply take_drop.
  - intros [Hv ->]. pose proof (size_encode f) as Hs. unfold kHeaderSize in *.
    assert (read_u16 (encode f ++ rest) 0 = channel f /\
            read_u32 (encode f ++ rest) 2 = size_of (payload f) /\
            slice (encode f ++ rest) 6 (size_of (payload f)) = payload f) as (-> & -> & ->).
    { rewrite read_u16_slice, read_u32_slice by size_lia. rewrite encode_bytes by done.
      rewrite <- !app_assoc. destruct Hv as [Hc Hp].
      pose proof (slice_mid [] (le_bytes 2 (channel f)) (le_bytes 4 (size_of (payload f)) ++ payload f ++ rest)) as R1.
      pose proof (slice_mid (le_bytes 2 (channel f)) (le_bytes 4 (size_of (payload f))) (payload f ++ rest)) as R2.
      pose proof (slice_mid (le_bytes 2 (channel f) ++ le_bytes 4 (size_of (payload f))) (payload f) rest) as R3.
      rewrite app_nil_l in R1. rewrite <- app_assoc in R3.
      rewrite !size_of_app in R3. rewrite !size_le_bytes, ?size_of_nil in *.
      change (Z.of_nat 2) with 2 in *. change (Z.of_nat 4) with 4 in *. change (2 + 4) with 6 in R3.
      rewrite R1, R2, R3, !le_value_bytes. split_and!; [by apply wrap_small..|done]. }
    rewrite (proj2 (Z.ltb_ge _ _)) by size_lia. rewrite (proj2 (Z.ltb_ge _ _)) by size_lia.
    do 2 f_equal; [by destruct f|]. rewrite <- Hs, to_nat_size_of. by rewrite drop_app_length.
Qed.

(** No encoding is a prefix of another: frames split uniquely. *)
Lemma encode_prefix_free f g r s :
  valid_frame f -> valid_frame g -> encode f ++ r = encode g ++ s -> f = g /\ r = s.
Proof.
  intros Hf Hg H. assert (try_decode (encode f ++ r) = Some (f, r)) as E by by apply try_decode_iff.
  rewrite H, (proj2 (try_decode_iff _ g s)) in E by done. by injection E as -> ->.
Qed.

(** A frame is taken off the front of a buffer exactly when the buffer begins
    with its encoding, and the rest is left untouched: what was encoded is
    decoded back whatever follows it, and an incomplete frame is left alone. *)
Theorem rpc_framing f rest buffer :
  (valid_frame f -> try_decode (encode f ++ rest) = Some (f, rest)) /\
  (try_decode buffer = Some (f, rest) -> valid_frame f /\ buffer = encode f ++ rest) /\
  (valid_frame f -> forall k, (k < length (encode f))%nat -> try_decode (take k (encode f)) = None).
Proof.
  split_and!; [intros; by apply try_decode_iff | by apply try_decode_iff | ].
  intros Hf k Hk. destruct (try_decode _) as [[g r]|] eqn:E; [|done].
  apply try_decode_iff in E as [Hg E]. exfalso.
  assert (encode f ++ [] = encode g ++ (r ++ drop k (encode f))) as E2.
  { rewrite app_nil_r, app_assoc, <- E. symmetry. apply take_drop. }
  apply encode_prefix_free in E2 as [-> E2]; [|done..]. symmetry in E2.
  apply app_eq_nil in E2 as [_ E2]. apply (f_equal length) in E2. rewrite length_drop, length_nil in E2. lia.
Qed.

Lemma rpc_framing_witness :
  try_decode (encode (mkFrame 2 ($"abc")) ++ $"xy") = Some (mkFrame 2 ($"abc"), $"xy") /\
  try_decode (take 8 (encode (mkFrame 2 ($"abc")))) = None.
Proof.
  assert (valid_frame (mkFrame 2 ($"abc"))) as H by (split; vm_compute; split; congruence).
  split.
  - exact (proj1 (rpc_framing (mkFrame 2 ($"abc")) ($"xy") []) H).
  - exact (proj2 (proj2 (rpc_framing (mkFrame 2 ($"abc")) [] [])) H 8%nat ltac:(vm_compute; lia)).
Defined.

(** ** The loop of [drain_decoded_frames] *)

Definition settled (q : RpcIngressQueue) : Prop := forall q', drain_turn q <> DrainNext q'.

(** The size field of a buffer that begins with a frame. *)
Lemma encoded_size buffer f rest :
  valid_frame f -> buffer = encode f ++ rest -> read_u32 buffer 2 = size_of (payload f).
Proof.
  intros Hv ->. pose proof (size_encode f). unfold kHeaderSize in *. rewrite read_u32_slice by size_lia.
  rewrite encode_bytes, <- !app_assoc by done.
  pose proof (slice_mid (le_bytes 2 (channel f)) (le_bytes 4 (size_of (payload f))) (payload f ++ rest)) as R2.
  rewrite !size_le_bytes in R2. change (Z.of_nat 2) with 2 in R2. change (Z.of_nat 4) with 4 in R2.
  rewrite R2, le_value_bytes. apply wrap_small, Hv.
Qed.

(** What a turn that goes round did. *)
Lemma drain_turn_next q q' : drain_turn q = DrainNext q' ->
  exists f, valid_frame f /\
    input_buffer_ q = encode f ++ input_buffer_ q' /\ queue_ q' = queue_ q ++ [f] /\
    limits_ q' = limits_ q /\
    queued_payload_bytes_ q' = u64 (queued_payload_bytes_ q + size_of (payload f)) /\
    size_of (queue_ q) < max_queued_frames (limits_ q) /\
    size_of (payload f) <= max_frame_payload_bytes (limits_ q) /\
    size_of (encode f) <= max_buffered_bytes (limits_ q) /\
    queued_payload_bytes_ q <= u64 (max_queued_payload_bytes (limits_ q) - size_of (payload f)).
Proof.
  unfold drain_turn. do 7 (case_match; [done|]).
  destruct (try_decode (input_buffer_ q)) as [[f rest]|] eqn:E; [|done]. intros [= <-].
  apply try_decode_iff in E as [Hv E]. exists f.
  assert (read_u32 (input_buffer_ q) 2 = size_of (payload f)) as Hsz by by eapply encoded_size.
  rewrite Hsz in *. bool_hyps. rewrite size_encode. cbn. auto 10.
Qed.

(** A complete frame within the limits is taken off when the queue is empty. *)
Lemma drain_turn_progress q f rest :
  valid_frame f -> input_buffer_ q = encode f ++ rest -> queue_ q = [] -> queued_payload_bytes_ q = 0 ->
  1 <= max_queued_frames (limits_ q) -> size_of (payload f) <= max_frame_payload_bytes (limits_ q) ->
  size_of (encode f) <= max_buffered_bytes (limits_ q) -> ~ settled q.
Proof.
  intros Hv Hb Hq H0 Hm Hp Hs Hset. enough (exists q', drain_turn q = DrainNext q') as [q' E] by by eapply Hset.
  unfold drain_turn. cbv zeta.
  pose proof (size_encode f) as Hsz. unfold kHeaderSize in *.
  assert (try_decode (input_buffer_ q) = Some (f, rest)) as E by by apply try_decode_iff.
  assert (read_u32 (input_buffer_ q) 2 = size_of (payload f)) as Hr by by eapply encoded_size.
  rewrite E, Hr, Hq, H0. change (size_of (@nil RpcFrame)) with 0.
  assert (size_of (input_buffer_ q) = size_of (encode f) + size_of rest) as Hi by (rewrite Hb; size_lia).
  rewrite Hi, Hsz. pose proof (size_of_nonneg rest). pose proof (size_of_nonneg (payload f)).
  pose proof (wrap_in 64 (max_queued_payload_bytes (limits_ q) - size_of (payload f)) ltac:(lia)) as [Hw _].
  rewrite (proj2 (Z.eqb_neq _ _)) by lia. rewrite (proj2 (Z.leb_gt _ _)) by lia.
  do 5 rewrite (proj2 (Z.ltb_ge _ _)) by lia.
  eauto.
Qed.

(** Anything every turn keeps, the loop keeps. *)
Lemma drain_loop_keeps (P : RpcIngressQueue -> Prop) fuel q :
  (forall q q', P q -> drain_turn q = DrainNext q' -> P q') -> P q -> P (snd (drain_loop fuel q)).
Proof.
  intros Hstep. revert q. induction fuel as [|fuel IH]; intros q Hq; simpl; [done|].
  destruct (drain_turn q) eqn:E; [done..|]. eauto.
Qed.

(** The fuel is enough: the loop ends where the code leaves it. *)
Lemma drain_enough q : settled (snd (drain_decoded_frames q)).
Proof.
  unfold drain_decoded_frames. assert (length (input_buffer_ q) <= length (input_buffer_ q))%nat as H by lia.
  revert H. generalize (length (input_buffer_ q)) at 2 3 as fuel. intros fuel. revert q.
  induction fuel as [|fuel IH]; intros q Hq; simpl.
  - intros q' E. apply drain_turn_next in E as (f & _ & E & _). pose proof (size_encode f).
    apply (f_equal size_of) in E. rewrite size_of_app in E. unfold size_of, kHeaderSize in *. lia.
  - destruct (drain_turn q) eqn:E; [by cbn [snd]; intros ? ?; congruence..|]. apply IH.
    apply drain_turn_next in E as (f & _ & E & _). pose proof (size_encode f).
    apply (f_equal size_of) in E. rewrite size_of_app in E. unfold size_of, kHeaderSize in *. lia.
Qed.

(** ** Runs of the queue *)

Inductive ingress_op := Ingest (chunk : bytes) | Pop.

(** A run with its history: the bytes taken in (chunks refused for the buffer
    budget are not) and the frames handed out. *)
Record ingress_run := mkRun { run_queue : RpcIngressQueue; taken : bytes; popped : list RpcFrame }.

Definition admits (q : RpcIngressQueue) (chunk : bytes) : bool :=
  negb (max_buffered_bytes (limits_ q) - Z.min (size_of (input_buffer_ q)) (max_buffered_bytes (limits_ q))
        <? size_of chunk).

Definition ingress_step (r : ingress_run) (o : ingress_op) : ingress_run :=
  let q := run_queue r in
  match o with
  | Ingest chunk =>
      mkRun (snd (ingest chunk q)) (if admits q chunk then taken r ++ chunk else taken r) (popped r)
  | Pop =>
      mkRun (snd (pop q)) (taken r)
        (popped r ++ match fst (pop q) with Some f => [f] | None => [] end)
  end.

Definition ingress_exec (limits : RpcIngressLimits) (ops : list ingress_op) : ingress_run :=
  foldl ingress_step (mkRun (make_queue limits) [] []) ops.

Definition stream (q : RpcIngressQueue) : bytes := concat (encode <$> queue_ q) ++ input_buffer_ q.

Definition payload_total (fs : list RpcFrame) : Z := foldr Z.add 0 ((fun f => size_of (payload f)) <$> fs).

Lemma payload_total_app l k : payload_total (l ++ k) = payload_total l + payload_total k.
Proof.
  unfold payload_total. rewrite fmap_app, foldr_app.
  induction (_ <$> l) as [|x xs IH]; cbn [foldr]; lia.
Qed.

Lemma payload_total_bound l : Forall valid_frame l -> 0 <= payload_total l <= size_of l * (2 ^ 32 - 1).
Proof.
  induction 1 as [|f l [_ Hf] _ IH]; [by vm_compute|]. unfold payload_total in *. cbn [fmap list_fmap foldr].
  rewrite size_of_cons. size_lia.
Qed.

(** [std::size_t] limits, with the frame count no larger than 2^32. *)
Definition valid_limits (l : RpcIngressLimits) : Prop :=
  in_uint 64 (max_buffered_bytes l) /\ in_uint 64 (pause_buffered_bytes l) /\
  in_uint 64 (resume_buffered_bytes l) /\ 0 <= max_queued_frames l <= 2 ^ 32 /\
  in_uint 64 (max_queued_payload_bytes l) /\ in_uint 64 (max_frame_payload_bytes l).

Definition within (l : RpcIngressLimits) (f : RpcFrame) : Prop :=
  valid_frame f /\ size_of (payload f) <= max_frame_payload_bytes l /\
  size_of (encode f) <= max_buffered_bytes l.

(** The queue's invariant, in whatever state an operation leaves or enters it. *)
Definition bounded (l : RpcIngressLimits) (q : RpcIngressQueue) : Prop :=
  limits_ q = l /\
  size_of (input_buffer_ q) <= max_buffered_bytes l /\
  size_of (queue_ q) <= max_queued_frames l /\
  Forall (within l) (queue_ q) /\
  queued_payload_bytes_ q = payload_total (queue_ q) /\
  (max_frame_payload_bytes l <= max_queued_payload_bytes l ->
   queued_payload_bytes_ q <= max_queued_payload_bytes l).

(** Limits as the constructor leaves them. *)
Definition sane_limits (l : RpcIngressLimits) : Prop :=
  kHeaderSize <= max_buffered_bytes l /\ 1 <= max_queued_frames l <= 2 ^ 32 /\
  in_uint 64 (max_queued_payload_bytes l).

Lemma make_queue_sane limits : valid_limits limits -> sane_limits (limits_ (make_queue limits)).
Proof.
  intros (? & ? & ? & ? & ? & ?). unfold sane_limits, make_queue, clamp_min, kHeaderSize, in_uint in *.
  cbn. repeat match goal with |- context [?a <? ?b] => destruct (Z.ltb_spec a b) end; lia.
Qed.

Lemma make_queue_bounded limits :
  valid_limits limits -> bounded (limits_ (make_queue limits)) (make_queue limits).
Proof.
  intros Hv. apply make_queue_sane in Hv as (? & ? & [? ?]). unfold bounded, kHeaderSize in *.
  cbn [queue_ input_buffer_ queued_payload_bytes_ make_queue] in *.
  split_and!; try done; rewrite ?size_of_nil; lia.
Qed.

Lemma make_queue_settled limits : settled (make_queue limits).
Proof. by intros q'. Qed.

Section run.
Context (l : RpcIngressLimits) (Hl : sane_limits l).

Lemma bounded_turn q q' :
  bounded l q -> drain_turn q = DrainNext q' -> bounded l q' /\ stream q' = stream q.
Proof using Hl.
  intros (El & Hb & Hn & Hw & Hq & Hm) H.
  apply drain_turn_next in H as (f & Hv & Ei & Eq & El' & Eqb & Hroom & Hp & Hs & Hbudget).
  rewrite El in *. assert (within l f) as Hf by by split_and!.
  assert (Forall (within l) (queue_ q')) as Hw' by (rewrite Eq; apply Forall_app; auto).
  assert (Forall valid_frame (queue_ q')) as Hvf by (eapply Forall_impl; [exact Hw'|]; by intros ? []).
  pose proof (payload_total_bound _ Hvf) as Ht. rewrite Eq in Ht.
  assert (payload_total [f] = size_of (payload f)) as Hone by (unfold payload_total; simpl; lia).
  rewrite payload_total_app, Hone, size_of_app in Ht. change (size_of [f]) with 1 in Ht.
  destruct Hl as (_ & Hfr & Hqm).
  assert (queued_payload_bytes_ q' = queued_payload_bytes_ q + size_of (payload f)) as E.
  { rewrite Eqb. apply wrap_small. rewrite Hq. split; [lia|]. nia. }
  split.
  - unfold bounded. split_and!; try done.
    + rewrite Ei in Hb. size_lia.
    + rewrite Eq, size_of_app. change (size_of [f]) with 1. lia.
    + by rewrite E, Hq, Eq, payload_total_app, Hone.
    + intros Hle. rewrite E. rewrite wrap_small in Hbudget by size_lia. lia.
  - unfold stream. rewrite Eq, Ei, fmap_app, concat_app, <- app_assoc. cbn [fmap list_fmap concat].
    by rewrite app_nil_r.
Qed.

Lemma bounded_drain q :
  bounded l q ->
  bounded l (snd (drain_decoded_frames q)) /\ stream (snd (drain_decoded_frames q)) = stream q.
Proof using Hl.
  intros Hb. apply (drain_loop_keeps (fun q' => bounded l q' /\ stream q' = stream q)); [|done].
  intros q1 q2 [H1 <-] Ht. by apply bounded_turn.
Qed.

Lemma ingest_keeps q chunk :
  bounded l q -> settled q ->
  let q' := snd (ingest chunk q) in
  bounded l q' /\ settled q' /\ stream q' = stream q ++ (if admits q chunk then chunk else []).
Proof using Hl.
  intros Hb Hset. unfold ingest, admits. case_match eqn:E; cbn [negb snd].
  { by rewrite app_nil_r. }
  bool_hyps. destruct Hb as (El & Hi & Hn & Hw & Hq & Hm).
  set (q1 := mkQueue _ _ _ _).
  assert (bounded l q1) as H1.
  { unfold bounded, q1. cbn. rewrite El in *. split_and!; try done. size_lia. }
  apply bounded_drain in H1 as [H1 E1]. split_and!; [done|apply drain_enough|].
  rewrite E1. unfold stream, q1. cbn. by rewrite app_assoc.
Qed.

Lemma pop_keeps q :
  bounded l q -> settled q ->
  let q' := snd (pop q) in
  bounded l q' /\ settled q' /\
  match fst (pop q) with
  | Some f => within l f /\ stream q = encode f ++ stream q'
  | None => queue_ q = [] /\ q' = q
  end.
Proof using Hl.
  intros Hb Hset. unfold pop. destruct (queue_ q) as [|f rest] eqn:E; [done|]. cbn [fst snd].
  destruct Hb as (El & Hi & Hn & Hw & Hq & Hm). rewrite E in *.
  apply Forall_cons in Hw as [Hf Hw].
  assert (payload_total (f :: rest) = size_of (payload f) + payload_total rest) as Et by done.
  assert (0 <= payload_total rest) as H0.
  { apply payload_total_bound. eapply Forall_impl; [exact Hw|]. by intros ? []. }
  rewrite (proj2 (Z.leb_le _ _)) by lia.
  set (q1 := mkQueue _ _ _ _).
  assert (bounded l q1) as H1.
  { unfold bounded, q1. cbn [limits_ input_buffer_ queue_ queued_payload_bytes_]. rewrite size_of_cons in Hn. split_and!; try done; try lia.
    intros Hle. specialize (Hm Hle). pose proof (size_of_nonneg (payload f)). lia. }
  apply bounded_drain in H1 as [H1 E1]. split_and!; [done|apply drain_enough|done|].
  rewrite E1. unfold stream, q1. rewrite E. cbn. by rewrite <- app_assoc.
Qed.

Definition run_ok (r : ingress_run) : Prop :=
  bounded l (run_queue r) /\ settled (run_queue r) /\ Forall (within l) (popped r) /\
  taken r = concat (encode <$> popped r) ++ stream (run_queue r).

Lemma step_ok r o : run_ok r -> run_ok (ingress_step r o).
Proof using Hl.
  intros (Hb & Hs & Hp & Ht). unfold run_ok. destruct o as [chunk|]; cbn [ingress_step run_queue popped taken].
  - destruct (ingest_keeps _ chunk Hb Hs) as (H1 & H2 & ->). split_and!; try done.
    rewrite Ht. destruct (admits _ _); by rewrite ?app_nil_r, <- ?app_assoc.
  - pose proof (pop_keeps _ Hb Hs) as (H1 & H2 & H3). split_and!; try done.
    + destruct (fst (pop _)); [|by rewrite app_nil_r]. destruct H3. apply Forall_app; auto.
    + rewrite Ht. destruct (fst (pop _)) as [f|].
      * destruct H3 as [_ ->]. rewrite fmap_app, concat_app, <- app_assoc. cbn. by rewrite app_nil_r.
      * destruct H3 as [_ ->]. by rewrite app_nil_r.
Qed.

Lemma run_keeps ops r : run_ok r -> run_ok (foldl ingress_step r ops).
Proof using Hl. revert r. induction ops; intros r Hr; simpl; auto using step_ok. Qed.

(** An empty queue holds no complete frame back in its buffer. *)
Lemma empty_queue_buffer q f rest :
  bounded l q -> settled q -> queue_ q = [] -> within l f -> input_buffer_ q <> encode f ++ rest.
Proof using Hl.
  intros (El & _ & _ & _ & Hq & _) Hset Eq (Hv & Hp & Hs) Hb.
  destruct Hl as (_ & [? _] & _). rewrite Eq in Hq.
  eapply drain_turn_progress; try rewrite El; done.
Qed.
End run.

Lemma exec_ok limits ops : valid_limits limits ->
  run_ok (limits_ (make_queue limits)) (ingress_exec limits ops).
Proof.
  intros Hv. apply run_keeps; [by apply make_queue_sane|].
  split; [by apply make_queue_bounded|]. split; [apply make_queue_settled|]. done.
Qed.

Lemma exec_limits limits ops : valid_limits limits ->
  limits_ (run_queue (ingress_exec limits ops)) = limits_ (make_queue limits).
Proof. intros Hv. apply (exec_ok limits ops Hv). Qed.

(** Frames split uniquely, so a stream made of frames begins with a given list
    of frames only if that list is a prefix. *)
Lemma concat_encode_prefix fs gs r :
  Forall valid_frame fs -> Forall valid_frame gs ->
  concat (encode <$> fs) ++ r = concat (encode <$> gs) ->
  exists rest, gs = fs ++ rest /\ r = concat (encode <$> rest).
Proof.
  intros Hf. revert gs. induction Hf as [|f fs Hv _ IH]; intros gs Hg H; cbn [fmap list_fmap concat] in H.
  { by exists gs. }
  destruct Hg as [|g gs Hvg Hg].
  { apply (f_equal size_of) in H. cbn [fmap list_fmap concat] in H. rewrite !size_of_app, size_encode in H. unfold kHeaderSize in H. size_lia. }
  cbn [fmap list_fmap concat] in H. rewrite <- app_assoc in H. apply encode_prefix_free in H as [-> H]; [|done..].
  destruct (IH gs Hg H) as (rest & -> & ->). by exists rest.
Qed.

(** [pop] until it returns nothing, at most [n] times. *)
Fixpoint pop_all (n : nat) (q : RpcIngressQueue) : list RpcFrame :=
  match n with
  | O => []
  | S n' => match pop q with (Some f, q') => f :: pop_all n' q' | (None, _) => [] end
  end.

Lemma pop_all_delivers l q gs :
  sane_limits l -> bounded l q -> settled q -> Forall (within l) gs ->
  stream q = concat (encode <$> gs) -> pop_all (length gs) q = gs.
Proof.
  intros Hl. revert q. induction gs as [|g gs IH]; intros q Hb Hs Hg Hstr; [done|].
  apply Forall_cons in Hg as [Hg1 Hg]. cbn [length pop_all].
  pose proof (pop_keeps l Hl q Hb Hs) as (H1 & H2 & H3).
  destruct (pop q) as [[f|] q'] eqn:E; cbn [fst snd] in *.
  - destruct H3 as [Hf H3]. rewrite H3 in Hstr. cbn [fmap list_fmap concat] in Hstr.
    apply encode_prefix_free in Hstr as [-> Hstr]; [|apply Hf|apply Hg1]. f_equal. by apply IH.
  - exfalso. destruct H3 as [Hq ->]. unfold stream in Hstr. rewrite Hq in Hstr. cbn [fmap list_fmap concat] in Hstr.
    by eapply empty_queue_buffer.
Qed.

(** However the bytes of a list of frames (each within the limits) are cut into
    chunks and however pops are interleaved with them, the frames handed out
    are a prefix of that list, in order, and popping on until the queue is
    empty hands out exactly the rest: nothing is lost, duplicated, reordered or
    held back. *)
Theorem ingress_delivers_stream limits ops fs :
  valid_limits limits ->
  let r := ingress_exec limits ops in
  Forall (within (limits_ (make_queue limits))) fs ->
  taken r = concat (encode <$> fs) ->
  popped r ++ pop_all (length fs) (run_queue r) = fs.
Proof.
  intros Hv r Hfs Ht. pose proof (make_queue_sane _ Hv) as Hl.
  destruct (exec_ok limits ops Hv) as (Hb & Hs & Hp & E). fold r in Hb, Hs, Hp, E. rewrite E in Ht.
  assert (forall l xs, Forall (within l) xs -> Forall valid_frame xs) as Himp
    by (intros ?? Hx; eapply Forall_impl; [exact Hx|]; by intros ? []).
  apply concat_encode_prefix in Ht as (rest & -> & Hstr); [|eauto..].
  apply Forall_app in Hfs as [_ Hrest]. f_equal.
  pose proof (pop_all_delivers _ _ rest Hl Hb Hs Hrest Hstr) as Hall.
  rewrite length_app. clear -Hall Hl Hb Hs Hstr Hrest.
  revert Hall Hb Hs Hstr. generalize (run_queue r) as q. generalize (length (popped r)) as extra.
  induction rest as [|g rest IH]; intros extra q Hall Hb Hs Hstr.
  - destruct (queue_ q) as [|f fs] eqn:Eq.
    + destruct (extra + length [])%nat; simpl; [done|]. unfold pop. by rewrite Eq.
    + exfalso. unfold stream in Hstr. rewrite Eq in Hstr. apply (f_equal size_of) in Hstr. cbn [fmap list_fmap concat] in Hstr.
      rewrite !size_of_app, size_encode in Hstr. unfold kHeaderSize in Hstr. size_lia.
  - apply Forall_cons in Hrest as [Hg Hrest]. cbn [length] in *. rewrite Nat.add_succ_r.
    cbn [pop_all] in *. pose proof (pop_keeps _ Hl q Hb Hs) as (H1 & H2 & H3).
    destruct (pop q) as [[f|] q'] eqn:E; [|done]. cbn [fst snd] in *. injection Hall as -> Hall.
    f_equal. destruct H3 as [Hf H3]. rewrite H3 in Hstr. cbn [fmap list_fmap concat] in Hstr. apply app_inv_head in Hstr.
    by apply IH.
Qed.

Lemma ingress_delivers_stream_witness :
  let frames := [mkFrame 1 ($"hi"); mkFrame 2 []; mkFrame 2 ($"abcd")] in
  let bytes := concat (encode <$> frames) in
  let r := ingress_exec (mkLimits 64 32 16 2 8 8) [Ingest (take 7 bytes); Pop; Ingest (drop 7 bytes); Pop] in
  popped r = [mkFrame 1 ($"hi")] /\ popped r ++ pop_all 3 (run_queue r) = frames.
Proof.
  split; [reflexivity|].
  apply (ingress_delivers_stream (mkLimits 64 32 16 2 8 8)
    [Ingest (take 7 (concat (encode <$> [mkFrame 1 ($"hi"); mkFrame 2 []; mkFrame 2 ($"abcd")]))); Pop;
     Ingest (drop 7 (concat (encode <$> [mkFrame 1 ($"hi"); mkFrame 2 []; mkFrame 2 ($"abcd")]))); Pop]
    [mkFrame 1 ($"hi"); mkFrame 2 []; mkFrame 2 ($"abcd")]).
  - repeat split; vm_compute; congruence.
  - repeat constructor; vm_compute; congruence.
  - reflexivity.
Defined.

(** In every reachable state the buffer stays within its limit, the number of
    queued frames and the size of each within theirs, the payload counter is
    the sum of the queued payloads, and it stays within its limit when no
    single frame may exceed that limit. *)
Theorem ingress_limits_hold limits ops :
  valid_limits limits ->
  let q := run_queue (ingress_exec limits ops) in
  let l := limits_ (make_queue limits) in
  limits_ q = l /\ buffered_bytes q <= max_buffered_bytes l /\ queued_frames q <= max_queued_frames l /\
  Forall (fun f => size_of (payload f) <= max_frame_payload_bytes l) (queue_ q) /\
  queued_payload_bytes q = payload_total (queue_ q) /\
  (max_frame_payload_bytes l <= max_queued_payload_bytes l ->
   queued_payload_bytes q <= max_queued_payload_bytes l).
Proof.
  intros Hv. destruct (exec_ok limits ops Hv) as ((E1 & H1 & H2 & H3 & H4 & H5) & _).
  unfold buffered_bytes, queued_frames, queued_payload_bytes. split_and!; try done.
  eapply Forall_impl; [exact H3|]. by intros ? (_ & ? & _).
Qed.

Lemma ingress_limits_hold_witness :
  let q := run_queue (ingress_exec (mkLimits 64 32 16 2 8 8)
             [Ingest (encode (mkFrame 2 ($"abcd")) ++ encode (mkFrame 2 ($"abcdef")))]) in
  queued_payload_bytes q = 4 /\ queued_payload_bytes q <= 8 /\ buffered_bytes q <= 64.
Proof.
  split; [reflexivity|].
  pose proof (ingress_limits_hold (mkLimits 64 32 16 2 8 8)
    [Ingest (encode (mkFrame 2 ($"abcd")) ++ encode (mkFrame 2 ($"abcdef")))]
    ltac:(repeat split; vm_compute; congruence)) as (_ & H2 & _ & _ & _ & H6).
  split; [exact (H6 ltac:(vm_compute; congruence)) | exact H2].
Defined.

(** When a frame larger than the payload budget is allowed, the budget check
    subtracts below zero and wraps: the frame is queued whatever is queued
    already, past the budget. *)
Theorem payload_budget_wraps q f rest :
  valid_frame f -> input_buffer_ q = encode f ++ rest ->
  size_of (queue_ q) < max_queued_frames (limits_ q) ->
  size_of (payload f) <= max_frame_payload_bytes (limits_ q) ->
  size_of (encode f) <= max_buffered_bytes (limits_ q) ->
  0 <= max_queued_payload_bytes (limits_ q) < size_of (payload f) ->
  0 <= queued_payload_bytes_ q < 2 ^ 63 ->
  exists q', drain_turn q = DrainNext q' /\ queue_ q' = queue_ q ++ [f] /\
    queued_payload_bytes_ q' = queued_payload_bytes_ q + size_of (payload f) /\
    max_queued_payload_bytes (limits_ q') < queued_payload_bytes_ q'.
Proof.
  intros Hv Hb Hroom Hp Hs Hover Hq.
  assert (try_decode (input_buffer_ q) = Some (f, rest)) as E by by apply try_decode_iff.
  pose proof (size_encode f) as Hsz. unfold kHeaderSize in *.
  assert (read_u32 (input_buffer_ q) 2 = size_of (payload f)) as Hr by by eapply encoded_size.
  assert (size_of (input_buffer_ q) = size_of (encode f) + size_of rest) as Hi by (rewrite Hb; size_lia).
  assert (u64 (max_queued_payload_bytes (limits_ q) - size_of (payload f)) =
          max_queued_payload_bytes (limits_ q) - size_of (payload f) + 2 ^ 64) as Hw.
  { destruct Hv as [_ [_ Hv]]. symmetry. apply (Z.mod_unique_pos _ _ (-1)); lia. }
  pose proof (size_of_nonneg rest). pose proof (size_of_nonneg (payload f)). destruct Hv as [_ [_ Hv]].
  unfold drain_turn, kHeaderSize. cbv zeta. rewrite E, Hr, Hw, Hi, Hsz.
  rewrite (proj2 (Z.eqb_neq _ _)) by lia. rewrite (proj2 (Z.leb_gt _ _)) by lia.
  do 5 rewrite (proj2 (Z.ltb_ge _ _)) by lia.
  eexists. split; [done|]. cbn. rewrite wrap_small by (split; lia). split_and!; lia || done.
Qed.

Lemma payload_budget_wraps_witness :
  let q := mkQueue (mkLimits 64 32 16 4 2 8) (encode (mkFrame 2 ($"abcd"))) [mkFrame 2 ($"xyz")] 3 in
  exists q', drain_turn q = DrainNext q' /\ max_queued_payload_bytes (limits_ q') = 2 /\
    2 < queued_payload_bytes_ q'.
Proof.
  destruct (payload_budget_wraps
    (mkQueue (mkLimits 64 32 16 4 2 8) (encode (mkFrame 2 ($"abcd"))) [mkFrame 2 ($"xyz")] 3)
    (mkFrame 2 ($"abcd")) []) as (q' & E & _ & _ & H);
    [repeat split; vm_compute; congruence | reflexivity | vm_compute; split; congruence
    | vm_compute; congruence | vm_compute; congruence | vm_compute; split; congruence
    | vm_compute; split; congruence | ].
  exists q'. split; [exact E|]. injection E as <-. split; [reflexivity | exact H].
Defined.
