(* ===== verification/Checksum.v ===== *)
(** * Checksum: the digest of a journal entry

    src/native/sync/src/checksum.cpp.  SHA-256 (libsodium's [crypto_hash_sha256])
    is the parameter [sha256]. *)

From S2P Require Import Prelude Codec Text.

(** The unit separator [payload.push_back('\x1F')] puts between the fields. *)
Definition kSeparator : Byte.byte := Byte.x1f.

Definition journal_payload (table_name row_pk op old_values new_values : bytes) : bytes :=
  table_name ++ [kSeparator] ++ row_pk ++ [kSeparator] ++ op ++ [kSeparator] ++ old_values ++
  [kSeparator] ++ new_values.

Section checksum.
Variable sha256 : bytes -> bytes.

Definition sha256_hex (input : bytes) : bytes := Hex.hex_encode (sha256 input).

Definition journal_checksum (table_name row_pk op old_values new_values : bytes) : bytes :=
  sha256_hex (journal_payload table_name row_pk op old_values new_values).
End checksum.

(** ** What the payload determines *)

(** A field that cannot be confused with the separator after it. *)
Definition plain (field : bytes) : Prop := kSeparator ∉ field.

Lemma separator_split x y r s :
  plain x -> plain y -> x ++ kSeparator :: r = y ++ kSeparator :: s -> x = y /\ r = s.
Proof.
  revert y. induction x as [|b x IH]; intros [|c y] Hx Hy H; simplify_eq/=; [done|..].
  - exfalso. apply Hy. left.
  - exfalso. apply Hx. left.
  - destruct (IH y) as [-> ->]; [| |done|done]; intros Hin; [apply Hx|apply Hy]; by right.
Qed.

(** Fields without the separator byte are determined by the payload (the last
    one may hold anything), so with a collision-free digest equal checksums
    mean equal entries. *)
Theorem checksum_identifies_entry (sha256 : bytes -> bytes) t p o v n t' p' o' v' n' :
  (forall x y, sha256 x = sha256 y -> x = y) ->
  plain t -> plain p -> plain o -> plain v -> plain t' -> plain p' -> plain o' -> plain v' ->
  journal_checksum sha256 t p o v n = journal_checksum sha256 t' p' o' v' n' ->
  t = t' /\ p = p' /\ o = o' /\ v = v' /\ n = n'.
Proof.
  intros Hsha Ht Hp Ho Hv Ht' Hp' Ho' Hv' H. unfold journal_checksum, sha256_hex in H.
  assert (sha256 (journal_payload t p o v n) = sha256 (journal_payload t' p' o' v' n')) as E.
  { apply (f_equal Hex.hex_decode_loop) in H. rewrite !Hex.hex_decode_loop_encode in H. by injection H. }
  apply Hsha in E. unfold journal_payload in E. cbn [app] in E.
  apply separator_split in E as [-> E]; [|done..]. apply separator_split in E as [-> E]; [|done..].
  apply separator_split in E as [-> E]; [|done..]. by apply separator_split in E as [-> ->].
Qed.

Lemma checksum_identifies_entry_witness :
  journal_checksum id ($"accounts") ($"7") ($"INSERT") [] ($"{}") <>
  journal_checksum id ($"accounts") ($"8") ($"INSERT") [] ($"{}").
Proof.
  intros H. apply (checksum_identifies_entry id) in H; [|done|unfold plain; set_solver..].
  destruct H as (_ & H & _). discriminate H.
Defined.

(** The separator is not escaped: moving it from one field to its neighbour
    leaves the checksum of the entry as it was, whatever the digest. *)
Theorem checksum_separator_collision (sha256 : bytes -> bytes) table pk pk' op old new :
  journal_checksum sha256 (table ++ kSeparator :: pk) pk' op old new =
  journal_checksum sha256 table (pk ++ kSeparator :: pk') op old new /\
  (table ++ kSeparator :: pk, pk') <> (table, pk ++ kSeparator :: pk').
Proof.
  split.
  - unfold journal_checksum, journal_payload. cbn [app]. by rewrite <- !app_assoc.
  - intros [= H _]. apply (f_equal length) in H. rewrite length_app in H. simpl in H. lia.
Qed.
