(* ===== verification/Journal.v ===== *)
(** * Journal: the in-memory change journal

    src/native/sync/include/journal.h and src/native/sync/src/journal.cpp.  The
    identifier [generate_batch_id] would draw is an argument of [append]; the
    event emitted to listeners has no effect on the journal and is left out.
    [std::sort] sorts entries of distinct sequence numbers, so its result does
    not depend on the algorithm. *)

From S2P Require Import Prelude Codec Text Hlc Checksum.

Record PendingJournalEntry := mkPending {
  p_hlc : Hlc;
  p_table_name : bytes;
  p_row_pk : bytes;
  p_op : bytes;
  p_old_values : bytes;
  p_new_values : bytes;
  p_applied : Z;
  p_batch_id : bytes
}.

Record JournalEntry := mkEntry {
  seq : Z;
  hlc : Hlc;
  table_name : bytes;
  row_pk : bytes;
  op : bytes;
  old_values : bytes;
  new_values : bytes;
  checksum : bytes;
  applied : Z;
  batch_id : bytes
}.

#[global] Instance JournalEntry_eq_dec : EqDecision JournalEntry.
Proof. solve_decision. Defined.

Record Journal := mkJournal { next_seq_ : Z; entries_ : list JournalEntry }.

Definition empty_journal : Journal := mkJournal 1 [].

Definition with_applied (e : JournalEntry) (value : Z) : JournalEntry :=
  mkEntry (seq e) (hlc e) (table_name e) (row_pk e) (op e) (old_values e) (new_values e) (checksum e)
    value (batch_id e).

Section journal.
Variable sha256 : bytes -> bytes.

Definition created (seq : Z) (entry : PendingJournalEntry) (fresh_batch_id : bytes) : JournalEntry :=
  mkEntry seq (p_hlc entry) (p_table_name entry) (p_row_pk entry) (p_op entry) (p_old_values entry)
    (p_new_values entry)
    (journal_checksum sha256 (p_table_name entry) (p_row_pk entry) (p_op entry) (p_old_values entry)
       (p_new_values entry))
    (p_applied entry)
    (if size_of (p_batch_id entry) =? 0 then fresh_batch_id else p_batch_id entry).

Definition append (entry : PendingJournalEntry) (fresh_batch_id : bytes) (j : Journal) :
    JournalEntry * Journal :=
  let e := created (next_seq_ j) entry fresh_batch_id in
  (e, mkJournal (u64 (next_seq_ j + 1)) (entries_ j ++ [e])).
End journal.

(** [for (entry : entries_) if (entry.seq > seq) result.push_back(entry)]. *)
Definition entries_after (after : Z) (j : Journal) : list JournalEntry :=
  filter (fun e => after < seq e) (entries_ j).

(** [std::sort] with [lhs.seq > rhs.seq]. *)
Definition seq_ge (l r : JournalEntry) : Prop := seq r <= seq l.
#[global] Instance seq_ge_dec l r : Decision (seq_ge l r) := Z_le_dec _ _.
Definition sort_newest_first (l : list JournalEntry) : list JournalEntry := merge_sort seq_ge l.

(** The loop that moves the entries of the batch out of [entries_]. *)
Fixpoint take_batch (id : bytes) (l : list JournalEntry) : list JournalEntry * list JournalEntry :=
  match l with
  | [] => ([], [])
  | e :: rest =>
      let (removed, kept) := take_batch id rest in
      if bool_decide (batch_id e = id) then (e :: removed, kept) else (removed, e :: kept)
  end.

Definition rollback_batch (id : bytes) (j : Journal) : list JournalEntry * Journal :=
  let (removed, kept) := take_batch id (entries_ j) in
  (sort_newest_first removed, mkJournal (next_seq_ j) kept).

Fixpoint mark_in (target applied_value : Z) (l : list JournalEntry) : option (list JournalEntry) :=
  match l with
  | [] => None
  | e :: rest =>
      if seq e =? target then Some (with_applied e applied_value :: rest)
      else match mark_in target applied_value rest with
           | Some rest' => Some (e :: rest')
           | None => None
           end
  end.

Definition mark_applied (target applied_value : Z) (j : Journal) : bool * Journal :=
  match mark_in target applied_value (entries_ j) with
  | Some l => (true, mkJournal (next_seq_ j) l)
  | None => (false, j)
  end.

Definition compactable (cutoff_wall max_ack_seq : Z) (e : JournalEntry) : bool :=
  (wall (hlc e) <? cutoff_wall) && (seq e <=? max_ack_seq).

Definition compact (cutoff_wall max_ack_seq : Z) (j : Journal) : Z * Journal :=
  let kept := filter (fun e => compactable cutoff_wall max_ack_seq e = false) (entries_ j) in
  (size_of (entries_ j) - size_of kept, mkJournal (next_seq_ j) kept).

Definition size (j : Journal) : Z := size_of (entries_ j).

(** ** The journal's invariant *)

Definition seq_lt (l r : JournalEntry) : Prop := seq l < seq r.
Definition seq_gt (l r : JournalEntry) : Prop := seq r < seq l.

#[global] Instance seq_ge_trans : Transitive seq_ge.
Proof. intros a b c. unfold seq_ge. lia. Qed.

#[global] Instance seq_ge_total : Total seq_ge.
Proof. intros a b. unfold seq_ge. lia. Qed.

Definition entry_intact (sha256 : bytes -> bytes) (e : JournalEntry) : Prop :=
  checksum e = journal_checksum sha256 (table_name e) (row_pk e) (op e) (old_values e) (new_values e).

Definition journal_ok (sha256 : bytes -> bytes) (j : Journal) : Prop :=
  StronglySorted seq_lt (entries_ j) /\ Forall (fun e => 1 <= seq e < next_seq_ j) (entries_ j) /\
  Forall (entry_intact sha256) (entries_ j).

Inductive journal_op :=
  | Append (entry : PendingJournalEntry) (fresh_batch_id : bytes)
  | Rollback (id : bytes)
  | MarkApplied (target value : Z)
  | Compact (cutoff_wall max_ack_seq : Z).

Definition journal_step (sha256 : bytes -> bytes) (j : Journal) (o : journal_op) : Journal :=
  match o with
  | Append entry fresh => snd (append sha256 entry fresh j)
  | Rollback id => snd (rollback_batch id j)
  | MarkApplied target value => snd (mark_applied target value j)
  | Compact cutoff ack => snd (compact cutoff ack j)
  end.

Lemma take_batch_filter id l :
  take_batch id l = (filter (fun e => batch_id e = id) l, filter (fun e => batch_id e <> id) l).
Proof.
  induction l as [|e l IH]; [done|]. cbn [take_batch]. rewrite IH, !filter_cons.
  case_bool_decide; repeat (case_decide; try done).
Qed.

(** What [mark_applied] does to the entries. *)
Lemma mark_in_spec target value l :
  StronglySorted seq_lt l ->
  match mark_in target value l with
  | Some l' => l' = (fun e => if seq e =? target then with_applied e value else e) <$> l /\
               exists e, e ∈ l /\ seq e = target
  | None => forall e, e ∈ l -> seq e <> target
  end.
Proof.
  induction 1 as [|e l Hl IH He]; cbn [mark_in]; [by intros e ?%not_elem_of_nil|].
  destruct (Z.eqb_spec (seq e) target) as [E|E].
  - split; [|exists e; split; [left|done]]. cbn [fmap list_fmap]. rewrite (proj2 (Z.eqb_eq _ _) E). f_equal.
    symmetry. rewrite <- (list_fmap_id l) at 2. apply list_fmap_ext. intros i x Hx.
    destruct (Z.eqb_spec (seq x) target); [|done].
    apply list_elem_of_lookup_2 in Hx. eapply Forall_forall in He; [|exact Hx]. unfold seq_lt in He. lia.
  - destruct (mark_in target value l) as [l'|].
    + destruct IH as (-> & x & Hx & <-). split; [|exists x; split; [by right|done]].
      cbn [fmap list_fmap]. rewrite (proj2 (Z.eqb_neq _ _)) by done. done.
    + intros x Hx. apply elem_of_cons in Hx as [->|Hx]; auto.
Qed.

Lemma with_applied_keeps sha256 (f : JournalEntry -> bool) value l n :
  let g e := if f e then with_applied e value else e in
  StronglySorted seq_lt l -> Forall (fun e => 1 <= seq e < n) l -> Forall (entry_intact sha256) l ->
  StronglySorted seq_lt (g <$> l) /\ Forall (fun e => 1 <= seq e < n) (g <$> l) /\
  Forall (entry_intact sha256) (g <$> l).
Proof.
  intros g Hs Hb Hc. assert (forall e, seq (g e) = seq e) as Hg by (intros e; unfold g; by case_match).
  split_and!.
  - eapply StronglySorted_fmap; [|exact Hs]. intros x y. unfold seq_lt. by rewrite !Hg.
  - apply Forall_fmap. eapply Forall_impl; [exact Hb|]. intros e. simpl. by rewrite Hg.
  - apply Forall_fmap. eapply Forall_impl; [exact Hc|]. intros e. unfold entry_intact, g. simpl. by case_match.
Qed.

Lemma journal_step_ok sha256 j o :
  next_seq_ j + 1 < 2 ^ 64 -> 1 <= next_seq_ j -> journal_ok sha256 j ->
  journal_ok sha256 (journal_step sha256 j o) /\
  next_seq_ (journal_step sha256 j o) =
    next_seq_ j + match o with Append _ _ => 1 | _ => 0 end.
Proof.
  intros Hw Hpos (Hs & Hb & Hc). destruct o as [entry fresh|id|target value|cutoff ack]; cbn [journal_step].
  - cbn [append snd]. unfold journal_ok. cbn [entries_ next_seq_]. rewrite wrap_small by (split; lia).
    split; [|done]. split_and!.
    + apply StronglySorted_app. split_and!; [|done|repeat constructor].
      intros x y Hx ->%list_elem_of_singleton. eapply Forall_forall in Hb; [|done].
      unfold seq_lt. simpl in *. lia.
    + apply Forall_app. split; [eapply Forall_impl; [exact Hb|]; simpl; lia|].
      constructor; [simpl; lia|constructor].
    + apply Forall_app. split; [done|]. by repeat constructor.
  - unfold rollback_batch. rewrite take_batch_filter. cbn [snd]. split; [|cbn; lia].
    unfold journal_ok. cbn [entries_ next_seq_]. auto using StronglySorted_filter, Forall_filter.
  - unfold mark_applied. pose proof (mark_in_spec target value _ Hs) as Hm.
    destruct (mark_in target value (entries_ j)) as [l|]; cbn [snd]; split; cbn [next_seq_]; try lia; [|done].
    destruct Hm as [-> _]. by apply with_applied_keeps.
  - cbn [compact snd]. split; [|cbn; lia]. unfold journal_ok. cbn [entries_ next_seq_].
    auto using StronglySorted_filter, Forall_filter.
Qed.

(** Entries of distinct numbers, sorted newest first, strictly decrease. *)
Lemma newest_first_strict l : StronglySorted seq_lt l -> StronglySorted seq_gt (sort_newest_first l).
Proof.
  intros Hs. unfold sort_newest_first.
  assert (NoDup (seq <$> merge_sort seq_ge l)) as Hnd.
  { rewrite merge_sort_Permutation. induction Hs as [|e l Hl IH He]; cbn [fmap list_fmap]; constructor; [|done].
    intros (x & E & Hx)%list_elem_of_fmap. eapply Forall_forall in He; [|done]. unfold seq_lt in He. lia. }
  pose proof (StronglySorted_merge_sort seq_ge l) as Hm.
  induction Hm as [|e k Hk IH He]; [constructor|]. cbn [fmap list_fmap] in Hnd.
  apply NoDup_cons in Hnd as [Hn Hnd]. constructor; [by apply IH|].
  apply Forall_forall. intros x Hx. eapply Forall_forall in He; [|exact Hx].
  assert (seq x <> seq e) by (intros E; apply Hn; rewrite <- E; by apply list_elem_of_fmap_2).
  unfold seq_ge, seq_gt in *. lia.
Qed.

(** In number order a number names one entry. *)
Lemma seq_unique l x y : StronglySorted seq_lt l -> x ∈ l -> y ∈ l -> seq x = seq y -> x = y.
Proof.
  intros Hs Hx Hy E. induction Hs as [|e k Hk IH He]; [by apply not_elem_of_nil in Hx|].
  apply elem_of_cons in Hx as [->|Hx], Hy as [->|Hy]; [done|..|auto].
  - eapply Forall_forall in He; [|exact Hy]. unfold seq_lt in He. lia.
  - eapply Forall_forall in He; [|exact Hx]. unfold seq_lt in He. lia.
Qed.

(** Whatever order the entries came in, sorting gives the one list. *)
Lemma newest_first_perm l k : l ≡ₚ k -> StronglySorted seq_lt k -> sort_newest_first l = sort_newest_first k.
Proof.
  intros Hp Hs. apply (Sorted_unique_strong seq_ge); [|apply Sorted_merge_sort, _..|].
  - unfold sort_newest_first. intros x y Hx Hy. rewrite merge_sort_Permutation, Hp in Hx.
    rewrite merge_sort_Permutation in Hy. unfold seq_ge. intros H1 H2.
    apply (seq_unique k); [done..|lia].
  - unfold sort_newest_first. by rewrite !merge_sort_Permutation.
Qed.

Definition is_append (o : journal_op) : bool := match o with Append _ _ => true | _ => false end.
Definition appends (ops : list journal_op) : Z := size_of (filter (fun o => is_append o = true) ops).

(** Over any run of appends, rollbacks, marks and compactions from an empty
    journal the entries stand in strictly increasing sequence order, every
    sequence number is below the next one handed out (which counts all appends
    so far, so numbers are never reused) and every entry carries the checksum
    of its own fields. *)
Theorem journal_run_invariant sha256 ops :
  size_of ops + 2 < 2 ^ 64 ->
  let j := foldl (journal_step sha256) empty_journal ops in
  next_seq_ j = 1 + appends ops /\
  StronglySorted (fun l r => seq l < seq r) (entries_ j) /\
  Forall (fun e => 1 <= seq e < next_seq_ j) (entries_ j) /\
  Forall (fun e => checksum e = journal_checksum sha256 (table_name e) (row_pk e) (op e)
                                  (old_values e) (new_values e)) (entries_ j).
Proof.
  intros Hn. cbv zeta.
  assert (forall ops j, 1 <= next_seq_ j -> next_seq_ j + size_of ops + 1 < 2 ^ 64 -> journal_ok sha256 j ->
    journal_ok sha256 (foldl (journal_step sha256) j ops) /\
    next_seq_ (foldl (journal_step sha256) j ops) = next_seq_ j + appends ops) as Hrun.
  { clear. intros ops. induction ops as [|o ops IH]; intros j Hpos Hw Hj; cbn [foldl].
    - split; [done|]. unfold appends. rewrite filter_nil, size_of_nil. lia.
    - rewrite size_of_cons in Hw. pose proof (size_of_nonneg ops).
      destruct (journal_step_ok sha256 j o) as [H1 H2]; [lia..|done|].
      assert (appends (o :: ops) = match o with Append _ _ => 1 | _ => 0 end + appends ops) as ->.
      { unfold appends. rewrite filter_cons. destruct o; cbn [is_append]; repeat (case_decide; try done);
          by rewrite ?size_of_cons. }
      destruct (IH (journal_step sha256 j o)) as [H3 H4]; [destruct o; lia|destruct o; lia|done|].
      split; [done|]. rewrite H4, H2. lia. }
  destruct (Hrun ops empty_journal) as [(H1 & H2 & H3) H4]; [done|cbn; lia|by repeat constructor|]. done.
Qed.

Definition sample_pending : PendingJournalEntry :=
  mkPending (mkHlc 10 1 7) ($"accounts") ($"1") ($"INSERT") [] ($"{}") 1 ($"b1").

Lemma journal_run_invariant_witness :
  let ops := [Append sample_pending []; Append sample_pending []; Rollback ($"b1"); Append sample_pending []] in
  let j := foldl (journal_step id) empty_journal ops in
  (seq <$> entries_ j) = [3] /\ next_seq_ j = 4.
Proof.
  split; [reflexivity|].
  exact (proj1 (journal_run_invariant id
    [Append sample_pending []; Append sample_pending []; Rollback ($"b1"); Append sample_pending []]
    ltac:(vm_compute; reflexivity))).
Defined.

(** What each operation of a journal in sequence order returns and leaves:
    [entries_after] the later entries in order; [rollback_batch] exactly the
    entries of the batch, newest first, leaving the others untouched;
    [mark_applied] changes the one entry of that number, if there is one;
    [compact] drops and counts exactly the old acknowledged entries. *)
Theorem journal_operations sha256 j (Hj : journal_ok sha256 j) :
  (forall after, StronglySorted seq_lt (entries_after after j) /\
     forall e, e ∈ entries_after after j <-> after < seq e /\ e ∈ entries_ j) /\
  (forall id, let (removed, j') := rollback_batch id j in
     removed ≡ₚ filter (fun e => batch_id e = id) (entries_ j) /\ StronglySorted seq_gt removed /\
     entries_ j' = filter (fun e => batch_id e <> id) (entries_ j) /\ next_seq_ j' = next_seq_ j) /\
  (forall target value, let (found, j') := mark_applied target value j in
     (found = true <-> exists e, e ∈ entries_ j /\ seq e = target) /\
     entries_ j' = (fun e => if seq e =? target then with_applied e value else e) <$> entries_ j) /\
  (forall cutoff ack, let (count, j') := compact cutoff ack j in
     (forall e, e ∈ entries_ j' <-> e ∈ entries_ j /\ ~ (wall (hlc e) < cutoff /\ seq e <= ack)) /\
     count = size_of (filter (fun e => compactable cutoff ack e = true) (entries_ j))).
Proof.
  destruct Hj as (Hs & Hb & Hc). split_and!.
  - intros after. split; [by apply StronglySorted_filter|]. intros e. unfold entries_after. by rewrite list_elem_of_filter.
  - intros id. unfold rollback_batch. rewrite take_batch_filter. cbn [entries_ next_seq_].
    split_and!; [apply merge_sort_Permutation| |done..].
    apply newest_first_strict. by apply StronglySorted_filter.
  - intros target value. unfold mark_applied. pose proof (mark_in_spec target value _ Hs) as Hm.
    destruct (mark_in target value (entries_ j)) as [l|].
    + destruct Hm as [-> Hm]. by split.
    + split; [split; [done|]; intros (e & He & E); by destruct (Hm e He)|].
      symmetry. rewrite <- (list_fmap_id (entries_ j)) at 2. apply list_fmap_ext. intros i x Hx.
      apply list_elem_of_lookup_2 in Hx. destruct (Z.eqb_spec (seq x) target); [|done]. by destruct (Hm x Hx).
  - intros cutoff ack. cbn [compact entries_]. split.
    + intros e. rewrite list_elem_of_filter. unfold compactable.
      rewrite andb_false_iff, Z.ltb_ge, Z.leb_gt. split; intros [? ?]; split; try done; lia.
    + pose proof (filter_split_size (compactable cutoff ack) (entries_ j)). lia.
Qed.

Lemma journal_operations_witness :
  let j := foldl (journal_step id) empty_journal [Append sample_pending []; Append sample_pending []] in
  (seq <$> fst (rollback_batch ($"b1") j)) = [2; 1] /\ StronglySorted seq_lt (entries_after 0 j).
Proof.
  split; [reflexivity|].
  refine (proj1 (proj1 (journal_operations id
    (foldl (journal_step id) empty_journal [Append sample_pending []; Append sample_pending []]) _) 0)).
  split_and!; repeat constructor; vm_compute; congruence.
Defined.
