(* ===== verification/Env.v ===== *)
(** * Env: numbers read from the environment

    The helpers [parse_env_u64], [parse_env_int] (src/native/sync/src/persistent_journal.cpp)
    and [parse_env_integer], [read_env_size_t] (src/native/sync/src/sync_engine.cpp)
    with the parts of the C and C++ libraries they use: [std::getenv] is a
    function from names to values, [std::from_chars] and [std::strtoll] are
    written out for base 10. *)

From S2P Require Import Prelude Codec Text.

Definition environment := bytes -> option bytes.

(** [raw == nullptr || raw[0] == '\0'] excluded. *)
Definition getenv_nonempty (env : environment) (name : bytes) : option bytes :=
  match env name with
  | Some raw => if size_of raw =? 0 then None else Some raw
  | None => None
  end.

Definition digit (c : Byte.byte) : option Z :=
  if (48 <=? val c) && (val c <=? 57) then Some (val c - 48) else None.

(** The value of a run of digits, and what stands behind it. *)
Fixpoint scan_digits (acc : Z) (s : bytes) : Z * bytes :=
  match s with
  | c :: rest => match digit c with Some d => scan_digits (acc * 10 + d) rest | None => (acc, s) end
  | [] => (acc, [])
  end.

(** [std::from_chars] over the whole of [s] into an integer of range
    [lo .. hi]; a minus sign is taken only for signed types. *)
Definition from_chars (signed : bool) (lo hi : Z) (s : bytes) : option Z :=
  let (negative, body) :=
    match s with
    | c :: rest => if signed && (val c =? 45) then (true, rest) else (false, s)
    | [] => (false, s)
    end in
  match body with
  | c :: _ =>
      match digit c with
      | None => None
      | Some _ =>
          let (v, rest) := scan_digits 0 body in
          let v := if negative then - v else v in
          if (v <? lo) || (hi <? v) then None
          else if size_of rest =? 0 then Some v else None
      end
  | [] => None
  end.

Definition parse_env_u64 (env : environment) (name : bytes) : option Z :=
  match getenv_nonempty env name with
  | Some raw => from_chars false 0 (2 ^ 64 - 1) raw
  | None => None
  end.

Definition parse_env_int (env : environment) (name : bytes) : option Z :=
  match getenv_nonempty env name with
  | Some raw => from_chars true (- 2 ^ 31) (2 ^ 31 - 1) raw
  | None => None
  end.

(** [std::strtoll(raw, &end, 10)]: the value, clamped to the type, and what
    stands at [end]; [None] when nothing was converted ([end == raw]). *)
Definition strtoll (raw : bytes) : option (Z * bytes) :=
  let s := Ascii.skip_space raw in
  let (negative, body) :=
    match s with
    | c :: rest => if val c =? 45 then (true, rest) else if val c =? 43 then (false, rest) else (false, s)
    | [] => (false, s)
    end in
  match body with
  | c :: _ =>
      match digit c with
      | None => None
      | Some _ =>
          let (v, rest) := scan_digits 0 body in
          let v := if negative then - v else v in
          Some (Z.max (- 2 ^ 63) (Z.min (2 ^ 63 - 1) v), rest)
      end
  | [] => None
  end.

Definition parse_env_integer (env : environment) (name : bytes) : option Z :=
  match getenv_nonempty env name with
  | Some raw =>
      match strtoll raw with
      | Some (parsed, rest) => if size_of rest =? 0 then Some parsed else None
      | None => None
      end
  | None => None
  end.

Definition read_env_size_t (env : environment) (name : bytes) (fallback minimum : Z) : Z :=
  match parse_env_integer env name with
  | Some parsed => if parsed <? minimum then fallback else parsed
  | None => fallback
  end.

Lemma strtoll_range raw v rest : strtoll raw = Some (v, rest) -> - 2 ^ 63 <= v < 2 ^ 63.
Proof.
  unfold strtoll. destruct (match Ascii.skip_space raw with [] => _ | _ :: _ => _ end) as [neg body].
  destruct body as [|c body]; [done|]. destruct (digit c); [|done].
  destruct (scan_digits 0 (c :: body)) as [w r]. intros [= <- _]. lia.
Qed.

(** What [read_env_size_t] hands out is never below the minimum asked for. *)
Lemma read_env_size_t_range env name fallback minimum :
  minimum <= fallback < 2 ^ 64 -> minimum <= read_env_size_t env name fallback minimum < 2 ^ 64.
Proof.
  intros Hf. unfold read_env_size_t, parse_env_integer. destruct (getenv_nonempty env name) as [raw|]; [|lia].
  destruct (strtoll raw) as [[v rest]|] eqn:E; [|lia]. apply strtoll_range in E.
  destruct (size_of rest =? 0); [|lia]. destruct (Z.ltb_spec v minimum); lia.
Qed.

(** ** [std::to_string] read back *)

Lemma str_cons c s : str (String c s) = Ascii.byte_of_ascii c :: str s.
Proof. done. Qed.

Lemma digit_char d : (d < 10)%N -> digit (Ascii.byte_of_ascii (pretty_N_char d)) = Some (Z.of_N d).
Proof.
  intros Hd. assert (d ∈ [0;1;2;3;4;5;6;7;8;9]%N) as H.
  { rewrite !elem_of_cons. lia. }
  rewrite !elem_of_cons in H. repeat (destruct H as [->|H]; [reflexivity|]). by apply elem_of_nil in H.
Qed.

Lemma scan_digits_go x : forall s, scan_digits 0 (str (pretty_N_go x s)) = scan_digits (Z.of_N x) (str s).
Proof.
  induction x as [x IH] using (well_founded_induction N.lt_wf_0); intros s.
  destruct (decide (x = 0%N)) as [->|Hx]; [done|].
  rewrite pretty_N_go_step by lia. rewrite IH by (apply N.div_lt; lia).
  rewrite str_cons. cbn [scan_digits]. rewrite digit_char by (apply N.mod_lt; lia).
  f_equal. rewrite (N.div_mod x 10) at 3 by lia. lia.
Qed.

Lemma digits_go x : forall s, Forall (fun c => is_Some (digit c)) (str s) ->
  Forall (fun c => is_Some (digit c)) (str (pretty_N_go x s)).
Proof.
  induction x as [x IH] using (well_founded_induction N.lt_wf_0); intros s Hs.
  destruct (decide (x = 0%N)) as [->|Hx]; [done|].
  rewrite pretty_N_go_step by lia. apply IH; [apply N.div_lt; lia|].
  rewrite str_cons. constructor; [|done]. rewrite digit_char by (apply N.mod_lt; lia). by eexists.
Qed.

Lemma to_string_N z : 0 <= z -> to_string z = if decide (z = 0) then $"0" else str (pretty_N_go (Z.to_N z) "").
Proof. intros Hz. destruct z; [done| |lia]. simpl. reflexivity. Qed.

Lemma to_string_digits z : 0 <= z -> Forall (fun c => is_Some (digit c)) (to_string z).
Proof.
  intros Hz. rewrite to_string_N by done. case_decide.
  - repeat constructor. by eexists.
  - apply digits_go. constructor.
Qed.

Lemma scan_digits_to_string z : 0 <= z -> scan_digits 0 (to_string z) = (z, []).
Proof.
  intros Hz. rewrite to_string_N by done. case_decide; [by subst|].
  rewrite scan_digits_go, Z2N.id by done. done.
Qed.

Lemma to_string_nonempty z : 0 <= z -> to_string z <> [].
Proof.
  intros Hz H. pose proof (scan_digits_to_string z Hz) as Hs. rewrite H in Hs. simpl in Hs. simplify_eq.
Qed.

(** An unsigned [std::from_chars] reads back what [std::to_string] printed. *)
Lemma from_chars_to_string hi z :
  0 <= z <= hi -> from_chars false 0 hi (to_string z) = Some z.
Proof.
  intros Hz. unfold from_chars. pose proof (to_string_nonempty z) as Hn.
  pose proof (to_string_digits z) as Hd. pose proof (scan_digits_to_string z) as Hs.
  destruct (to_string z) as [|c s]; [by destruct (Hn ltac:(lia))|]. cbn [andb].
  specialize (Hd ltac:(lia)). apply Forall_cons in Hd as [[d ->] _]. rewrite Hs by lia.
  destruct (Z.ltb_spec z 0), (Z.ltb_spec hi z); try lia. done.
Qed.

Lemma from_chars_range hi s v : from_chars false 0 hi s = Some v -> 0 <= v <= hi.
Proof.
  unfold from_chars. destruct s as [|c s]; [done|]. cbn [andb]. destruct (digit c); [|done].
  destruct (scan_digits 0 (c :: s)) as [w r].
  destruct (Z.ltb_spec w 0), (Z.ltb_spec hi w); simpl; try done.
  case_match; [|done]. intros [= <-]. lia.
Qed.
