(* ===== verification/JournalDb.v ===== *)
(** * JournalDb: the journal table of SQLite, as the code uses it

    src/native/sync/src/persistent_journal.cpp and src/native/sync/src/sync_engine.cpp
    keep the journal in the SQLite table [_sync_journal] (its columns are
    declared in src/native/sync/src/sync_schema.cpp, [seq] being an INTEGER
    PRIMARY KEY without AUTOINCREMENT).  SQLite is not part of the sources: it
    is the class [JournalDb], one operation per SQL text or API call of the
    sources, each of which may fail, and [JournalDbLaws], the documented meaning
    of those statements and of transactions.  [MemDb] is an instance that also
    injects failures.  Integers are SQLite's signed 64-bit values. *)

From S2P Require Import Prelude.

Record row := mkRow {
  r_seq : Z;
  r_wall : Z;
  r_counter : Z;
  r_site : Z;
  r_table : bytes;
  r_pk : bytes;
  r_op : bytes;
  r_old : bytes;
  r_new : bytes;
  r_checksum : bytes;
  r_applied : Z;
  r_batch : bytes
}.

#[global] Instance row_eq_dec : EqDecision row.
Proof. solve_decision. Defined.

(** The SQL texts that change the table. *)
Inductive write_query :=
  (** INSERT INTO _sync_journal (all columns but seq): the [r_seq] given is not used *)
  | InsertEntry (r : row)
  (** INSERT OR IGNORE INTO _sync_journal (all columns) *)
  | InsertOrIgnore (r : row)
  (** UPDATE _sync_journal SET applied = ?1 WHERE seq = ?2 *)
  | UpdateApplied (value seq : Z)
  (** UPDATE _sync_journal SET checksum = ?1 WHERE seq = ?2 *)
  | UpdateChecksum (value : bytes) (seq : Z)
  (** DELETE FROM _sync_journal WHERE hlc_wall < ?1 AND seq <= ?2 *)
  | DeleteOld (wall seq : Z)
  (** DELETE FROM _sync_journal WHERE batch_id = ?1 *)
  | DeleteBatch (id : bytes).

(** The SQL texts that read it. *)
Inductive read_query :=
  (** SELECT ... WHERE seq > ?1 ORDER BY seq ASC LIMIT ?2 *)
  | SelectAfter (seq limit : Z)
  (** SELECT ... WHERE batch_id = ?1 ORDER BY seq DESC *)
  | SelectBatch (id : bytes)
  (** SELECT ... ORDER BY seq ASC *)
  | SelectAll
  (** SELECT checksum ... WHERE seq = ?1 *)
  | SelectSeq (seq : Z).

Inductive scalar_query :=
  (** SELECT COUNT( * ) *)
  | CountAll
  (** SELECT COALESCE(MAX(seq), 0) ... WHERE applied >= ?1 *)
  | MaxApplied (min_applied : Z).

Inductive statement :=
  | WriteStmt (q : write_query)
  | ReadStmt (q : read_query)
  | ScalarStmt (q : scalar_query)
  (** DELETE ... WHERE batch_id = ?1 RETURNING ... *)
  | DeleteReturning (id : bytes).

Class JournalDb (D : Type) := {
  (** [sqlite3_prepare_v2] succeeds. *)
  sql_prepare : statement -> D -> bool;
  (** Step a changing statement: it is done, or it failed. *)
  sql_write : write_query -> D -> bool * D;
  (** Step a reading statement to its end: the rows it returned, and whether it
      ended as done rather than with an error. *)
  sql_read : read_query -> D -> list row * bool;
  (** Step a deleting statement with a RETURNING clause to its end. *)
  sql_delete_returning : bytes -> D -> list row * bool * D;
  (** Step once a statement that returns a single integer: the row, if any. *)
  sql_scalar : scalar_query -> D -> option Z;
  sql_changes : D -> Z;
  sql_last_insert_rowid : D -> Z;
  sql_errmsg : D -> bytes;
  (** [sqlite3_exec] of the transaction statements and of VACUUM. *)
  sql_begin : D -> bool * D;
  sql_commit : D -> bool * D;
  sql_rollback : D -> bool * D;
  sql_vacuum : D -> bool * D
}.

(** ** The meaning of the statements on the rows, in the order of [seq] *)

Definition row_lt (a b : row) : Prop := r_seq a < r_seq b.

Definition max_rowid : Z := 2 ^ 63 - 1.

(** One more than the largest key in use. *)
Definition next_rowid (rows : list row) : Z :=
  match last rows with Some r => r_seq r + 1 | None => 1 end.

Definition with_seq (r : row) (n : Z) : row :=
  mkRow n (r_wall r) (r_counter r) (r_site r) (r_table r) (r_pk r) (r_op r) (r_old r) (r_new r)
    (r_checksum r) (r_applied r) (r_batch r).

Definition set_applied (r : row) (value : Z) : row :=
  mkRow (r_seq r) (r_wall r) (r_counter r) (r_site r) (r_table r) (r_pk r) (r_op r) (r_old r) (r_new r)
    (r_checksum r) value (r_batch r).

Definition set_checksum (r : row) (value : bytes) : row :=
  mkRow (r_seq r) (r_wall r) (r_counter r) (r_site r) (r_table r) (r_pk r) (r_op r) (r_old r) (r_new r)
    value (r_applied r) (r_batch r).

Definition find_seq (n : Z) (rows : list row) : list row := filter (fun r => r_seq r = n) rows.

Fixpoint insert_row (r : row) (rows : list row) : list row :=
  match rows with
  | [] => [r]
  | x :: rest => if r_seq r <? r_seq x then r :: x :: rest else x :: insert_row r rest
  end.

Definition old_row (wall seq : Z) (r : row) : bool := (r_wall r <? wall) && (r_seq r <=? seq).

Definition effect (q : write_query) (rows : list row) : list row :=
  match q with
  | InsertEntry r => rows ++ [with_seq r (next_rowid rows)]
  | InsertOrIgnore r => if decide (find_seq (r_seq r) rows = []) then insert_row r rows else rows
  | UpdateApplied value n => (fun r => if r_seq r =? n then set_applied r value else r) <$> rows
  | UpdateChecksum value n => (fun r => if r_seq r =? n then set_checksum r value else r) <$> rows
  | DeleteOld wall n => filter (fun r => old_row wall n r = false) rows
  | DeleteBatch id => filter (fun r => r_batch r <> id) rows
  end.

(** [sqlite3_changes]: the rows the statement inserted, updated or deleted. *)
Definition affected (q : write_query) (rows : list row) : Z :=
  match q with
  | InsertEntry _ => 1
  | InsertOrIgnore r => if decide (find_seq (r_seq r) rows = []) then 1 else 0
  | UpdateApplied _ n | UpdateChecksum _ n => size_of (find_seq n rows)
  | DeleteOld wall n => size_of (filter (fun r => old_row wall n r = true) rows)
  | DeleteBatch id => size_of (filter (fun r => r_batch r = id) rows)
  end.

(** A negative LIMIT is no limit. *)
Definition sql_limit (limit : Z) (rows : list row) : list row :=
  if limit <? 0 then rows else take (Z.to_nat limit) rows.

Definition answer (q : read_query) (rows : list row) : list row :=
  match q with
  | SelectAfter n limit => sql_limit limit (filter (fun r => n < r_seq r) rows)
  | SelectBatch id => reverse (filter (fun r => r_batch r = id) rows)
  | SelectAll => rows
  | SelectSeq n => find_seq n rows
  end.

Definition scalar (q : scalar_query) (rows : list row) : Z :=
  match q with
  | CountAll => size_of rows
  | MaxApplied n =>
      match last (filter (fun r => n <= r_applied r) rows) with Some r => r_seq r | None => 0 end
  end.

Class JournalDbLaws (D : Type) `{JournalDb D} := {
  (** The rows a reader sees, in key order, and the rows to go back to when a
      transaction is open. *)
  visible : D -> list row;
  snapshot : D -> option (list row);
  visible_sorted d : StronglySorted row_lt (visible d);
  write_done q d d' :
    sql_write q d = (true, d') ->
    (match q with InsertEntry _ => next_rowid (visible d) <= max_rowid | _ => True end) ->
    visible d' = effect q (visible d) /\ snapshot d' = snapshot d /\
    sql_changes d' = affected q (visible d) /\
    (match q with InsertEntry _ => sql_last_insert_rowid d' = next_rowid (visible d) | _ => True end);
  (** A failed statement changes nothing, or has rolled the transaction back. *)
  write_failed q d d' :
    sql_write q d = (false, d') ->
    (visible d' = visible d /\ snapshot d' = snapshot d) \/
    (snapshot d = Some (visible d') /\ snapshot d' = None);
  read_prefix q d rows ok :
    sql_read q d = (rows, ok) ->
    if ok then rows = answer q (visible d) else rows `prefix_of` answer q (visible d);
  delete_returning_done id d rows d' :
    sql_delete_returning id d = (rows, true, d') ->
    rows ≡ₚ filter (fun r => r_batch r = id) (visible d) /\
    visible d' = filter (fun r => r_batch r <> id) (visible d) /\ snapshot d' = snapshot d;
  delete_returning_failed id d rows d' :
    sql_delete_returning id d = (rows, false, d') ->
    (visible d' = visible d /\ snapshot d' = snapshot d) \/
    (snapshot d = Some (visible d') /\ snapshot d' = None);
  scalar_row q d v : sql_scalar q d = Some v -> v = scalar q (visible d);
  begin_done d d' :
    sql_begin d = (true, d') -> visible d' = visible d /\ snapshot d' = Some (visible d) /\ snapshot d = None;
  begin_failed d d' :
    sql_begin d = (false, d') -> visible d' = visible d /\ snapshot d' = snapshot d;
  commit_done d d' :
    sql_commit d = (true, d') -> visible d' = visible d /\ snapshot d' = None;
  commit_failed d d' :
    sql_commit d = (false, d') -> visible d' = visible d /\ snapshot d' = snapshot d;
  rollback_law d :
    visible (snd (sql_rollback d)) = default (visible d) (snapshot d) /\
    snapshot (snd (sql_rollback d)) = None;
  vacuum_law d :
    visible (snd (sql_vacuum d)) = visible d /\ snapshot (snd (sql_vacuum d)) = snapshot d /\
    sql_changes (snd (sql_vacuum d)) = sql_changes d
}.

(** States from which no statement fails, now or later. *)
Class Reliable {D : Type} `{JournalDbLaws D} (ok : D -> Prop) : Prop := {
  reliable_prepare d s : ok d -> sql_prepare s d = true;
  reliable_begin d : ok d -> snapshot d = None -> exists d', sql_begin d = (true, d') /\ ok d';
  reliable_write d q : ok d -> exists d', sql_write q d = (true, d') /\ ok d';
  reliable_read d q : ok d -> snd (sql_read q d) = true;
  reliable_commit d : ok d -> exists d', sql_commit d = (true, d') /\ ok d'
}.

#[global] Instance row_lt_trans : Transitive row_lt.
Proof. intros a b c. unfold row_lt. lia. Qed.

(** ** Facts about rows in key order *)

Lemma last_row_max rows r x : StronglySorted row_lt rows -> last rows = Some r -> x ∈ rows -> r_seq x <= r_seq r.
Proof.
  intros Hs Hl Hx. apply last_Some in Hl as [init ->].
  apply elem_of_app in Hx as [Hx| ->%list_elem_of_singleton]; [|lia].
  assert (row_lt x r) as Hlt; [|unfold row_lt in Hlt; lia].
  eapply StronglySorted_app_1_elem_of; [exact Hs|exact Hx|]. by apply list_elem_of_singleton.
Qed.

Lemma next_rowid_fresh rows x : StronglySorted row_lt rows -> x ∈ rows -> r_seq x < next_rowid rows.
Proof.
  intros Hs Hx. unfold next_rowid. destruct (last rows) as [r|] eqn:E.
  - pose proof (last_row_max _ _ _ Hs E Hx). lia.
  - apply last_None in E. subst. by apply not_elem_of_nil in Hx.
Qed.

Lemma find_seq_nil n rows : find_seq n rows = [] <-> forall r, r ∈ rows -> r_seq r <> n.
Proof.
  unfold find_seq. split.
  - intros H r Hr E. assert (r ∈ filter (fun r => r_seq r = n) rows) as C by by apply list_elem_of_filter.
    rewrite H in C. by apply not_elem_of_nil in C.
  - intros H. destruct (filter _ rows) as [|r l] eqn:E; [done|].
    assert (r ∈ filter (fun r => r_seq r = n) rows) as C by (rewrite E; left).
    apply list_elem_of_filter in C as [? ?]. by destruct (H r).
Qed.

Lemma find_seq_unique rows r :
  StronglySorted row_lt rows -> r ∈ rows -> find_seq (r_seq r) rows = [r].
Proof.
  unfold find_seq. induction 1 as [|x rows Hs IH Hx]; intros Hr; [by apply not_elem_of_nil in Hr|].
  rewrite filter_cons. apply elem_of_cons in Hr as [->|Hr].
  - case_decide; [|done]. f_equal. apply find_seq_nil. intros y Hy.
    eapply Forall_forall in Hx; [|exact Hy]. unfold row_lt in Hx. lia.
  - case_decide as E; [|by apply IH]. eapply Forall_forall in Hx; [|exact Hr]. unfold row_lt in Hx. lia.
Qed.

Lemma insert_row_perm r rows : insert_row r rows ≡ₚ r :: rows.
Proof.
  induction rows as [|x rows IH]; [done|]. cbn [insert_row]. case_match; [done|].
  rewrite IH. apply perm_swap.
Qed.

Lemma insert_row_sorted r rows :
  StronglySorted row_lt rows -> (forall x, x ∈ rows -> r_seq x <> r_seq r) ->
  StronglySorted row_lt (insert_row r rows).
Proof.
  induction 1 as [|x rows Hs IH Hx]; intros Hne; cbn [insert_row]; [repeat constructor|].
  destruct (Z.ltb_spec (r_seq r) (r_seq x)) as [Hlt|Hge].
  - constructor; [by constructor|]. constructor; [done|]. eapply Forall_impl; [exact Hx|].
    intros y. unfold row_lt. lia.
  - constructor; [apply IH; intros y Hy; apply Hne; by right|].
    rewrite insert_row_perm. constructor; [|done].
    pose proof (Hne x ltac:(left)). unfold row_lt. lia.
Qed.

Lemma effect_sorted q rows : StronglySorted row_lt rows -> StronglySorted row_lt (effect q rows).
Proof.
  intros Hs. destruct q as [r|r|v n|v n|w n|id]; cbn [effect].
  - apply StronglySorted_app. split_and!; [|done|repeat constructor].
    intros x y Hx ->%list_elem_of_singleton. unfold row_lt. cbn. by apply next_rowid_fresh.
  - case_decide as E; [|done]. apply insert_row_sorted; [done|]. by apply find_seq_nil.
  - eapply StronglySorted_fmap; [|exact Hs]. intros x y. unfold row_lt. by repeat case_match.
  - eapply StronglySorted_fmap; [|exact Hs]. intros x y. unfold row_lt. by repeat case_match.
  - by apply StronglySorted_filter.
  - by apply StronglySorted_filter.
Qed.

(** ** A table in memory, with failures injected *)

Module MemDb.

Record t := mk {
  rows : list row;
  saved : option (list row);
  changes : Z;
  last_rowid : Z;
  (** Which statements are refused, and whether COMMIT is. *)
  fails : write_query -> bool;
  commit_fails : bool
}.

Definition empty : t := mk [] None 0 0 (fun _ => false) false.

Fixpoint sortedb (l : list row) : bool :=
  match l with
  | x :: rest => match rest with y :: _ => r_seq x <? r_seq y | [] => true end && sortedb rest
  | [] => true
  end.

(** The rows, provided they stand in key order. *)
Definition contents (d : t) : list row := if sortedb (rows d) then rows d else [].

Definition write (q : write_query) (d : t) : bool * t :=
  if fails d q then (false, d)
  else (true, mk (effect q (contents d)) (saved d) (affected q (contents d))
                (match q with InsertEntry _ => next_rowid (contents d) | _ => last_rowid d end)
                (fails d) (commit_fails d)).

#[global] Instance db : JournalDb t := {
  sql_prepare _ _ := true;
  sql_write := write;
  sql_read q d := (answer q (contents d), true);
  sql_delete_returning id d :=
    (filter (fun r => r_batch r = id) (contents d), true, snd (write (DeleteBatch id) (mk (rows d) (saved d) (changes d) (last_rowid d) (fun _ => false) (commit_fails d))));
  sql_scalar q d := Some (scalar q (contents d));
  sql_changes := changes;
  sql_last_insert_rowid := last_rowid;
  sql_errmsg _ := $"disk I/O error";
  sql_begin d := match saved d with
                 | Some _ => (false, d)
                 | None => (true, mk (contents d) (Some (contents d)) (changes d) (last_rowid d) (fails d) (commit_fails d))
                 end;
  sql_commit d := if commit_fails d then (false, d)
                  else (true, mk (rows d) None (changes d) (last_rowid d) (fails d) (commit_fails d));
  sql_rollback d := (true, mk (default (contents d) (saved d)) None (changes d) (last_rowid d) (fails d) (commit_fails d));
  sql_vacuum d := (true, d)
}.

Lemma sortedb_spec l : sortedb l = true <-> StronglySorted row_lt l.
Proof.
  split.
  - intros H. apply Sorted_StronglySorted; [apply _|]. revert H. induction l as [|x l IH]; [constructor|].
    cbn [sortedb]. intros [H1 H2]%andb_true_iff. constructor; [auto|].
    destruct l; constructor. by apply Z.ltb_lt.
  - induction 1 as [|x l Hl IH Hx]; [done|]. cbn [sortedb]. apply andb_true_iff. split; [|done].
    destruct Hx as [|y l Hxy _]; [done|]. by apply Z.ltb_lt.
Qed.

Lemma contents_sorted d : StronglySorted row_lt (contents d).
Proof. unfold contents. case_match eqn:E; [by apply sortedb_spec|constructor]. Qed.

Lemma contents_mk l s c i f g : StronglySorted row_lt l -> contents (mk l s c i f g) = l.
Proof. intros Hl. unfold contents. cbn [rows]. by rewrite (proj2 (sortedb_spec l)). Qed.

Definition saved_rows (d : t) : option (list row) :=
  match saved d with Some l => Some (if sortedb l then l else []) | None => None end.

Lemma write_contents q d d' : write q d = (true, d') ->
  contents d' = effect q (contents d) /\ saved_rows d' = saved_rows d /\ changes d' = affected q (contents d) /\
  (match q with InsertEntry _ => last_rowid d' = next_rowid (contents d) | _ => True end).
Proof.
  unfold write. case_match; [done|]. intros [= <-].
  rewrite contents_mk by apply effect_sorted, contents_sorted. by destruct q.
Qed.

#[global] Instance laws : JournalDbLaws t.
Proof.
  unshelve esplit; [exact contents|exact saved_rows|..].
  - apply contents_sorted.
  - intros q d d' H _. by apply write_contents.
  - intros q d d' H. cbn in H. unfold write in H. case_match; [|done]. injection H as <-. by left.
  - intros q d rs ok [= <- <-]. done.
  - intros id d rs d' [= <- <-]. split; [done|]. split; [|done].
    rewrite contents_mk; [done|]. by apply StronglySorted_filter, contents_sorted.
  - done.
  - intros q d v [= <-]. done.
  - intros d d'. cbn. unfold saved_rows. destruct (saved d) as [s|] eqn:E; [done|]. intros [= <-].
    rewrite contents_mk by apply contents_sorted. cbn.
    by rewrite (proj2 (sortedb_spec _) (contents_sorted d)).
  - intros d d'. cbn. destruct (saved d) eqn:E; [|done]. by intros [= <-].
  - intros d d'. cbn. destruct (commit_fails d); [done|]. by intros [= <-].
  - intros d d'. cbn. destruct (commit_fails d); [|done]. by intros [= <-].
  - intros d. cbn. split; [|done]. unfold saved_rows. destruct (saved d) as [s|]; cbn.
    + done.
    + apply contents_mk, contents_sorted.
  - done.
Defined.
Definition sound (d : t) : Prop := (forall q, fails d q = false) /\ commit_fails d = false.

#[global] Instance sound_reliable : Reliable sound.
Proof.
  split.
  - done.
  - intros d [Hf Hc] Hs. cbn in *. unfold saved_rows in Hs. destruct (saved d); [done|]. by eexists.
  - intros d q [Hf Hc]. cbn. unfold write. rewrite Hf. by eexists.
  - done.
  - intros d [Hf Hc]. cbn. rewrite Hc. by eexists.
Qed.
End MemDb.
