(* ===== verification/PersistentJournal.v ===== *)
(** * PersistentJournal: the journal kept in SQLite

    src/native/sync/include/persistent_journal.h and
    src/native/sync/src/persistent_journal.cpp, over the table interface of
    [JournalDb].  [db_] is [None] when the pointer is null.  Texts are bound with
    length -1 and read as C strings, so they end at their first NUL.  The
    environment, the retention override and the identifier [generate_batch_id]
    would draw are arguments; the log calls are left out. *)

From S2P Require Import Prelude Codec Text Hlc Checksum Journal Env JournalDb.

(** What [std::string::c_str()] shows of a string. *)
Fixpoint cstr (s : bytes) : bytes :=
  match s with
  | c :: rest => if val c =? 0 then [] else c :: cstr rest
  | [] => []
  end.

Record AutoCompactConfig := mkAutoCompact {
  min_entries : Z;
  check_interval_entries : Z;
  retention_ms : Z;
  min_applied_value : Z;
  enabled : bool
}.

Definition load_auto_compact_config (env : environment) (retention_override : option Z) : AutoCompactConfig :=
  mkAutoCompact
    (match parse_env_u64 env ($"TIGHTROPE_SYNC_JOURNAL_AUTO_COMPACT_MIN_ENTRIES") with
     | Some v => Z.max v 1 | None => 10000 end)
    (match parse_env_u64 env ($"TIGHTROPE_SYNC_JOURNAL_AUTO_COMPACT_INTERVAL") with
     | Some v => Z.max v 1 | None => 256 end)
    (match retention_override with
     | Some v => v
     | None =>
         match parse_env_u64 env ($"TIGHTROPE_SYNC_JOURNAL_AUTO_COMPACT_RETENTION_MS") with
         | Some v => v | None => 300000 end
     end)
    (match parse_env_int env ($"TIGHTROPE_SYNC_JOURNAL_AUTO_COMPACT_MIN_APPLIED") with
     | Some v => Z.max v 0 | None => 2 end)
    (match parse_env_u64 env ($"TIGHTROPE_SYNC_JOURNAL_AUTO_COMPACT_ENABLED") with
     | Some v => negb (v =? 0) | None => true end).

Definition should_verify_checksum_on_read (env : environment) : bool :=
  match parse_env_u64 env ($"TIGHTROPE_SYNC_JOURNAL_VERIFY_CHECKSUM_ON_READ") with
  | Some v => negb (v =? 0)
  | None => true
  end.

(** [sqlite3_column_int] keeps the low 32 bits. *)
Definition read_entry (r : row) : JournalEntry :=
  mkEntry (u64 (r_seq r)) (mkHlc (u64 (r_wall r)) (u32 (r_counter r)) (u32 (r_site r)))
    (r_table r) (r_pk r) (r_op r) (r_old r) (r_new r) (r_checksum r) (sint 32 (r_applied r)) (r_batch r).

(** The values [append] binds; [seq] is the table's to choose. *)
Definition bind_entry (e : JournalEntry) : row :=
  mkRow (sint 64 (seq e)) (sint 64 (wall (hlc e))) (sint 32 (counter (hlc e))) (sint 32 (hlc_site (hlc e)))
    (cstr (table_name e)) (cstr (row_pk e)) (cstr (op e)) (cstr (old_values e)) (cstr (new_values e))
    (cstr (checksum e)) (applied e) (cstr (batch_id e)).

Section persistent.
Context {D : Type} `{JournalDb D}.
Variable sha256 : bytes -> bytes.
Variable env : environment.
Variable retention_override : option Z.

Definition max_acknowledged_seq (min_applied : Z) (d : D) : Z :=
  if sql_prepare (ScalarStmt (MaxApplied min_applied)) d then
    match sql_scalar (MaxApplied min_applied) d with Some v => u64 v | None => 0 end
  else 0.

Definition size (db_ : option D) : Z :=
  match db_ with
  | None => 0
  | Some d =>
      if sql_prepare (ScalarStmt CountAll) d then
        match sql_scalar CountAll d with Some v => u64 v | None => 0 end
      else 0
  end.

Definition compact (cutoff_wall max_ack_seq : Z) (db_ : option D) : Z * option D :=
  match db_ with
  | None => (0, None)
  | Some d =>
      let q := DeleteOld (sint 64 cutoff_wall) (sint 64 max_ack_seq) in
      if negb (sql_prepare (WriteStmt q) d) then (0, Some d)
      else
        let (ok, d) := sql_write q d in
        if negb ok then (0, Some d)
        else
          let deleted := u64 (sql_changes d) in
          if 0 <? deleted then (deleted, Some (snd (sql_vacuum d))) else (deleted, Some d)
  end.

(** The automatic compaction at the end of [append]. *)
Definition auto_compact (e : JournalEntry) (d : D) : D :=
  let c := load_auto_compact_config env retention_override in
  if enabled c && (0 <? check_interval_entries c) && (seq e mod check_interval_entries c =? 0) then
    if min_entries c <=? size (Some d) then
      let ack_seq := max_acknowledged_seq (min_applied_value c) d in
      if 0 <? ack_seq then
        let cutoff_wall := if retention_ms c <? wall (hlc e) then wall (hlc e) - retention_ms c else 0 in
        default d (snd (compact cutoff_wall ack_seq (Some d)))
      else d
    else d
  else d.

Definition with_entry_seq (e : JournalEntry) (n : Z) : JournalEntry :=
  mkEntry n (hlc e) (table_name e) (row_pk e) (op e) (old_values e) (new_values e) (checksum e) (applied e)
    (batch_id e).

Definition append (entry : PendingJournalEntry) (fresh_batch_id : bytes) (db_ : option D) :
    option JournalEntry * option D :=
  match db_ with
  | None => (None, None)
  | Some d =>
      let e := created sha256 0 entry fresh_batch_id in
      let q := InsertEntry (bind_entry e) in
      if negb (sql_prepare (WriteStmt q) d) then (None, Some d)
      else
        let (ok, d) := sql_write q d in
        if negb ok then (None, Some d)
        else
          let e := with_entry_seq e (u64 (sql_last_insert_rowid d)) in
          (Some e, Some (auto_compact e d))
  end.

(** The loop over the rows; [None] where it returns early for a mismatch. *)
Fixpoint read_rows (verify_checksum : bool) (rows : list row) : option (list JournalEntry) :=
  match rows with
  | [] => Some []
  | r :: rest =>
      let e := read_entry r in
      let expected := journal_checksum sha256 (table_name e) (row_pk e) (op e) (old_values e) (new_values e) in
      if verify_checksum && negb (bool_decide (expected = checksum e)) then None
      else match read_rows verify_checksum rest with
           | Some l => Some (e :: l)
           | None => None
           end
  end.

Definition entries_after (after_seq limit : Z) (db_ : option D) : list JournalEntry :=
  match db_ with
  | None => []
  | Some d =>
      let q := SelectAfter (sint 64 after_seq) (sint 32 (Z.min limit (2 ^ 31 - 1))) in
      if negb (sql_prepare (ReadStmt q) d) then []
      else default [] (read_rows (should_verify_checksum_on_read env) (fst (sql_read q d)))
  end.

Definition rollback_batch (id : bytes) (db_ : option D) : list JournalEntry * option D :=
  match db_ with
  | None => ([], None)
  | Some d =>
      let id_str := cstr id in
      if sql_prepare (DeleteReturning id_str) d then
        match sql_delete_returning id_str d with
        | (rows, true, d) => (sort_newest_first (read_entry <$> rows), Some d)
        | (_, false, d) => ([], Some d)
        end
      else if negb (sql_prepare (ReadStmt (SelectBatch id_str)) d) then ([], Some d)
      else
        let removed := read_entry <$> fst (sql_read (SelectBatch id_str) d) in
        if size_of removed =? 0 then (removed, Some d)
        else
          let q := DeleteBatch id_str in
          if negb (sql_prepare (WriteStmt q) d) then ([], Some d)
          else
            let (ok, d) := sql_write q d in
            if negb ok then ([], Some d) else (sort_newest_first removed, Some d)
  end.

Definition mark_applied (target applied_value : Z) (db_ : option D) : bool * option D :=
  match db_ with
  | None => (false, None)
  | Some d =>
      let q := UpdateApplied applied_value (sint 64 target) in
      if negb (sql_prepare (WriteStmt q) d) then (false, Some d)
      else
        let (ok, d) := sql_write q d in
        if negb ok then (false, Some d) else (0 <? sql_changes d, Some d)
  end.
End persistent.

(** ** Entries the table keeps as they are *)

Definition no_nul (s : bytes) : Prop := cstr s = s.

Definition storable (e : JournalEntry) : Prop :=
  0 <= seq e < 2 ^ 63 /\ 0 <= wall (hlc e) < 2 ^ 63 /\ in_uint 32 (counter (hlc e)) /\
  in_uint 32 (hlc_site (hlc e)) /\ in_sint 32 (applied e) /\ no_nul (table_name e) /\ no_nul (row_pk e) /\
  no_nul (op e) /\ no_nul (old_values e) /\ no_nul (new_values e) /\ no_nul (checksum e) /\ no_nul (batch_id e).

Lemma sint_small w z : 0 < w -> 0 <= z < 2 ^ (w - 1) -> sint w z = z.
Proof.
  intros Hw Hz. assert (2 ^ w = 2 * 2 ^ (w - 1)) as E.
  { rewrite <- Z.pow_succ_r by lia. f_equal. lia. }
  unfold sint. rewrite Z.mod_small by lia. by rewrite (proj2 (Z.ltb_lt _ _)) by lia.
Qed.

Lemma sint_signed w z : 0 < w -> in_sint w z -> sint w z = z.
Proof.
  intros Hw Hz. rewrite <- (sint_wrap w z) at 2 by done. unfold sint, wrap.
  by rewrite Z.mod_mod_divide by apply Z.divide_refl.
Qed.

Lemma read_bind e : storable e -> read_entry (bind_entry e) = e.
Proof.
  intros (Hs & Hw & Hc & Hi & Ha & H1 & H2 & H3 & H4 & H5 & H6 & H7). unfold read_entry, bind_entry. cbn.
  rewrite !(sint_small 64) by (done || apply Hs || apply Hw).
  rewrite H1, H2, H3, H4, H5, H6, H7, (sint_signed 32 (applied e)) by done.
  rewrite !wrap_sint by done. rewrite !wrap_small by (split; lia).
  by destruct e as [? [] ? ? ? ? ? ? ? ?].
Qed.

Lemma read_bind_list l : Forall storable l -> read_entry <$> (bind_entry <$> l) = l.
Proof.
  induction 1 as [|e l He _ IH]; [done|]. cbn [fmap list_fmap]. rewrite read_bind by done. f_equal. exact IH.
Qed.

Section refinement.
Context {D : Type} `{JournalDbLaws D}.
Variable sha256 : bytes -> bytes.
Variable env : environment.
Variable retention_override : option Z.

(** The table holds exactly the entries of the in-memory journal. *)
Definition represents (d : D) (j : Journal) : Prop :=
  visible d = bind_entry <$> entries_ j /\ Forall storable (entries_ j).

(** No statement fails in this state. *)
Definition healthy (d : D) : Prop :=
  (forall s, sql_prepare s d = true) /\ (forall q, fst (sql_write q d) = true) /\
  (forall q, snd (sql_read q d) = true) /\ (forall id, snd (fst (sql_delete_returning id d)) = true) /\
  (forall q, is_Some (sql_scalar q d)).

Lemma represents_filter d d' j n (P : row -> Prop) (Q : JournalEntry -> Prop)
    `{!forall x, Decision (P x)} `{!forall x, Decision (Q x)} :
  represents d j -> (forall e, storable e -> P (bind_entry e) <-> Q e) ->
  visible d' = filter P (visible d) -> represents d' (mkJournal n (filter Q (entries_ j))).
Proof.
  intros [Hv Hs] HPQ Hd'. split; cbn [entries_]; [|by apply Forall_filter].
  rewrite Hd', Hv. apply filter_fmap_on. intros e He. apply HPQ. by eapply Forall_forall in Hs.
Qed.

Lemma batch_test e id : storable e -> r_batch (bind_entry e) = id <-> batch_id e = id.
Proof. intros (_ & _ & _ & _ & _ & _ & _ & _ & _ & _ & _ & Hb). cbn. by rewrite Hb. Qed.

Lemma seq_test e n : storable e -> r_seq (bind_entry e) = n <-> seq e = n.
Proof. intros (Hs & _). cbn. by rewrite (sint_small 64). Qed.

Lemma read_rows_intact verify l :
  Forall storable l -> Forall (entry_intact sha256) l -> read_rows sha256 verify (bind_entry <$> l) = Some l.
Proof.
  induction 1 as [|e l He _ IH]; intros Hi; [done|]. apply Forall_cons in Hi as [Hi Hl].
  cbn [fmap list_fmap read_rows]. rewrite read_bind by done. rewrite <- Hi.
  rewrite bool_decide_true by done. rewrite andb_false_r. fold (bind_entry <$> l). by rewrite IH.
Qed.

Lemma entries_after_refines d j after limit :
  healthy d -> represents d j -> journal_ok sha256 j -> 0 <= after < 2 ^ 63 -> 0 <= limit < 2 ^ 64 ->
  entries_after sha256 env after limit (Some d) =
    take (Z.to_nat (Z.min limit (2 ^ 31 - 1))) (Journal.entries_after after j).
Proof.
  intros (Hp & _ & Hr & _) [Hv Hs] (_ & _ & Hi) Ha Hlim. unfold entries_after.
  set (q := SelectAfter _ _). rewrite Hp. cbn [negb].
  destruct (sql_read q d) as [rows ok] eqn:E. pose proof (Hr q) as Hok. rewrite E in Hok. cbn in Hok. subst ok.
  apply read_prefix in E. subst rows q. cbn [fst answer]. unfold sql_limit.
  rewrite !sint_small by (done || lia). rewrite (proj2 (Z.ltb_ge _ _)) by lia.
  rewrite Hv. rewrite (filter_fmap_on _ _ (fun e => after < seq e)).
  2: { intros e He. eapply Forall_forall in Hs; [|exact He]. destruct Hs as (Hs & _).
       cbn. by rewrite (sint_small 64). }
  rewrite <- fmap_take, read_rows_intact; [done|..]; by apply Forall_take, Forall_filter.
Qed.

Lemma rollback_refines d j id :
  healthy d -> represents d j -> journal_ok sha256 j -> no_nul id ->
  exists d', rollback_batch id (Some d) = (fst (Journal.rollback_batch id j), Some d') /\
    represents d' (snd (Journal.rollback_batch id j)).
Proof.
  intros (Hp & _ & _ & Hr & _) Hrep (Hsort & _ & _) Hid. pose proof Hrep as [Hv Hs].
  unfold rollback_batch. rewrite Hp, Hid. destruct (sql_delete_returning id d) as [[rows ok] d'] eqn:E.
  pose proof (Hr id) as Hok. rewrite E in Hok. cbn in Hok. subst ok.
  apply delete_returning_done in E as (Hperm & Hd' & _). exists d'.
  unfold Journal.rollback_batch. rewrite take_batch_filter. cbn [fst snd]. split.
  - f_equal. apply newest_first_perm; [|by apply StronglySorted_filter].
    rewrite Hperm, Hv, (filter_fmap_on _ _ (fun e => batch_id e = id)).
    + rewrite read_bind_list; [done|by apply Forall_filter].
    + intros e He. apply batch_test. by eapply Forall_forall in Hs.
  - eapply represents_filter; [exact Hrep| |exact Hd']. intros e He. pose proof (batch_test e id He). tauto.
Qed.

Lemma mark_refines d j target value :
  healthy d -> represents d j -> journal_ok sha256 j -> 0 <= target < 2 ^ 63 -> in_sint 32 value ->
  exists d', mark_applied target value (Some d) = (fst (Journal.mark_applied target value j), Some d') /\
    represents d' (snd (Journal.mark_applied target value j)).
Proof.
  intros (Hp & Hw & _) [Hv Hs] (Hsort & _ & _) Ht Hval. unfold mark_applied.
  set (q := UpdateApplied _ _). rewrite Hp. cbn [negb].
  destruct (sql_write q d) as [ok d'] eqn:E. pose proof (Hw q) as Hok. rewrite E in Hok. cbn in Hok. subst ok.
  apply write_done in E as (Hd' & _ & Hch & _); [|done]. subst q. cbn [negb]. exists d'.
  cbn [effect affected] in *. rewrite (sint_small 64) in * by done.
  pose proof (mark_in_spec target value _ Hsort) as Hm.
  assert (visible d' = bind_entry <$> ((fun e => if seq e =? target then with_applied e value else e) <$> entries_ j)) as Hvis.
  { rewrite Hd', Hv, <- !list_fmap_compose. apply list_fmap_ext. intros i e He. cbn.
    apply list_elem_of_lookup_2 in He. eapply Forall_forall in Hs; [|exact He].
    destruct Hs as (Hse & _). rewrite (sint_small 64) by done. by destruct (seq e =? target). }
  assert (size_of (find_seq target (visible d)) = size_of (filter (fun e => seq e = target) (entries_ j))) as Hsz.
  { unfold find_seq. rewrite Hv, (filter_fmap_on _ _ (fun e => seq e = target)).
    - unfold size_of. by rewrite length_fmap.
    - intros e He. apply seq_test. by eapply Forall_forall in Hs. }
  unfold Journal.mark_applied. rewrite Hch, Hsz.
  destruct (mark_in target value (entries_ j)) as [l|]; cbn [fst snd].
  - destruct Hm as (-> & e & He & Heq). split.
    + do 2 f_equal. apply Z.ltb_lt. assert (e ∈ filter (fun e => seq e = target) (entries_ j)) as Hin
        by by apply list_elem_of_filter.
      destruct (filter _ (entries_ j)); [by apply not_elem_of_nil in Hin|]. size_lia.
    + split; [exact Hvis|]. cbn [entries_]. apply Forall_fmap. eapply Forall_impl; [exact Hs|].
      intros x Hx. cbn. case_match; [|done]. unfold storable in *. cbn. tauto.
  - assert (filter (fun e => seq e = target) (entries_ j) = []) as Hnil.
    { apply elem_of_nil_inv. intros e He. apply list_elem_of_filter in He as [? ?]. by destruct (Hm e). }
    rewrite Hnil. split; [done|]. split; [|done]. rewrite Hvis. f_equal.
    rewrite <- (list_fmap_id (entries_ j)) at 2. apply list_fmap_ext. intros i x Hx.
    apply list_elem_of_lookup_2 in Hx. destruct (Z.eqb_spec (seq x) target); [|done]. by destruct (Hm x Hx).
Qed.

Lemma compact_refines d j cutoff ack :
  healthy d -> represents d j -> size_of (entries_ j) < 2 ^ 64 ->
  0 <= cutoff < 2 ^ 63 -> 0 <= ack < 2 ^ 63 ->
  exists d', compact cutoff ack (Some d) = (fst (Journal.compact cutoff ack j), Some d') /\
    represents d' (snd (Journal.compact cutoff ack j)).
Proof.
  intros (Hp & Hw & _) Hrep Hn Hcut Hack. pose proof Hrep as [Hv Hs]. unfold compact.
  set (q := DeleteOld _ _). rewrite Hp. cbn [negb].
  destruct (sql_write q d) as [ok d'] eqn:E. pose proof (Hw q) as Hok. rewrite E in Hok. cbn in Hok. subst ok.
  apply write_done in E as (Hd' & _ & Hch & _); [|done]. subst q. cbn [negb effect affected] in *.
  rewrite !(sint_small 64) in Hd', Hch by done.
  assert (forall e, storable e -> old_row cutoff ack (bind_entry e) = compactable cutoff ack e) as Htest.
  { intros e (Hse & Hwe & _). unfold old_row, compactable. cbn. by rewrite !(sint_small 64). }
  assert (represents d' (snd (Journal.compact cutoff ack j))) as Hrep'.
  { eapply represents_filter; [exact Hrep| |exact Hd']. intros e He. cbn. by rewrite Htest. }
  assert (sql_changes d' = fst (Journal.compact cutoff ack j)) as Hcount.
  { cbn [Journal.compact fst]. pose proof (filter_split_size (compactable cutoff ack) (entries_ j)) as Hsplit.
    rewrite Hch, Hv, (filter_fmap_on _ _ (fun e => compactable cutoff ack e = true)).
    - unfold size_of at 1. rewrite length_fmap. fold (size_of (filter (fun e => compactable cutoff ack e = true) (entries_ j))). lia.
    - intros e He. rewrite Htest; [done|]. by eapply Forall_forall in Hs. }
  assert (u64 (sql_changes d') = sql_changes d') as ->.
  { apply wrap_small. rewrite Hch, Hv. unfold size_of at 1.
    pose proof (length_filter (fun r => old_row cutoff ack r = true) (bind_entry <$> entries_ j)) as Hl.
    rewrite length_fmap in Hl. unfold in_uint, size_of in *. lia. }
  rewrite Hcount. case_match.
  - exists (snd (sql_vacuum d')). split; [done|]. destruct (vacuum_law d') as (Hvac & _).
    destruct Hrep' as [Hv' Hs']. split; [by rewrite Hvac|done].
  - by exists d'.
Qed.

Lemma size_refines d j :
  healthy d -> represents d j -> size_of (entries_ j) < 2 ^ 64 -> size (Some d) = Journal.size j.
Proof.
  intros (Hp & _ & _ & _ & Hsc) [Hv _] Hn. unfold size. rewrite Hp.
  destruct (Hsc CountAll) as [v E]. rewrite E. apply scalar_row in E. cbn in E. subst v.
  rewrite Hv. unfold Journal.size, size_of in *. rewrite length_fmap. apply wrap_small. split; lia.
Qed.

Definition storable_pending (p : PendingJournalEntry) (fresh : bytes) : Prop :=
  storable (created sha256 0 p fresh).

Lemma append_refines d j p fresh :
  healthy d -> represents d j -> next_seq_ j = next_rowid (visible d) -> 1 <= next_seq_ j < 2 ^ 63 - 1 ->
  storable_pending p fresh ->
  enabled (load_auto_compact_config env retention_override) = false ->
  exists d', append sha256 env retention_override p fresh (Some d) =
      (Some (fst (Journal.append sha256 p fresh j)), Some d') /\
    represents d' (snd (Journal.append sha256 p fresh j)) /\
    next_seq_ (snd (Journal.append sha256 p fresh j)) = next_rowid (visible d').
Proof.
  intros (Hp & Hw & _) [Hv Hs] Hnext Hrange Hst Hoff. unfold append. set (q := InsertEntry _).
  rewrite Hp. cbn [negb].
  destruct (sql_write q d) as [ok d'] eqn:E. pose proof (Hw q) as Hok. rewrite E in Hok. cbn in Hok. subst ok.
  subst q. apply write_done in E as (Hd' & _ & _ & Hid); [|rewrite <- Hnext; unfold max_rowid; lia].
  cbn [negb]. rewrite Hid, <- Hnext, wrap_small by (split; lia).
  unfold auto_compact. rewrite Hoff. cbn [andb].
  assert (visible d' = bind_entry <$> (entries_ j ++ [created sha256 (next_seq_ j) p fresh])) as Hvis.
  { rewrite Hd', fmap_app. cbn [effect]. rewrite <- Hnext, <- Hv. f_equal. cbn [fmap list_fmap].
    unfold bind_entry, with_seq, created. cbn. by rewrite (sint_small 64 (next_seq_ j)) by (split; lia). }
  exists d'. split; [done|]. cbn [Journal.append snd]. split.
  - split; [exact Hvis|]. cbn [entries_]. apply Forall_app. split; [done|]. constructor; [|done].
    destruct Hst as (_ & Hst). unfold storable. split; [cbn; lia|]. exact Hst.
  - cbn [next_seq_]. rewrite wrap_small by (split; lia). unfold next_rowid. rewrite Hvis, fmap_app.
    cbn [fmap list_fmap]. rewrite last_snoc. cbn. rewrite (sint_small 64) by (split; lia). done.
Qed.

(** The journal in SQLite does what the in-memory journal does: in a state of
    the table that holds exactly the entries of an in-memory journal (whose
    texts have no NUL and whose numbers fit SQLite's integers), fewer than 2^64
    of them, and where no statement fails ([healthy]), every operation but
    appending returns what the in-memory operation returns, for arguments that
    fit SQLite's integers, and leaves the table holding the entries it leaves;
    [entries_after] returns the first [limit] of them.  So does appending when
    compaction does not follow by itself (which it does unless it is switched
    off, [auto_compaction_deletes]) and the table's next key is the journal's
    next number (which a rollback of the last entry undoes,
    [rollback_reuses_sequence]). (C36) *)
Theorem persistent_journal_refines d j :
  healthy d -> represents d j -> journal_ok sha256 j -> size_of (entries_ j) < 2 ^ 64 ->
  (forall after limit, 0 <= after < 2 ^ 63 -> 0 <= limit < 2 ^ 31 ->
     entries_after sha256 env after limit (Some d) = take (Z.to_nat limit) (Journal.entries_after after j)) /\
  (forall id, no_nul id -> exists d',
     rollback_batch id (Some d) = (fst (Journal.rollback_batch id j), Some d') /\
     represents d' (snd (Journal.rollback_batch id j))) /\
  (forall target value, 0 <= target < 2 ^ 63 -> in_sint 32 value -> exists d',
     mark_applied target value (Some d) = (fst (Journal.mark_applied target value j), Some d') /\
     represents d' (snd (Journal.mark_applied target value j))) /\
  (forall cutoff ack, 0 <= cutoff < 2 ^ 63 -> 0 <= ack < 2 ^ 63 -> exists d',
     compact cutoff ack (Some d) = (fst (Journal.compact cutoff ack j), Some d') /\
     represents d' (snd (Journal.compact cutoff ack j))) /\
  size (Some d) = Journal.size j /\
  (forall p fresh, next_seq_ j = next_rowid (visible d) -> 1 <= next_seq_ j < 2 ^ 63 - 1 ->
     storable_pending p fresh -> enabled (load_auto_compact_config env retention_override) = false ->
     exists d', append sha256 env retention_override p fresh (Some d) =
         (Some (fst (Journal.append sha256 p fresh j)), Some d') /\
       represents d' (snd (Journal.append sha256 p fresh j)) /\
       next_seq_ (snd (Journal.append sha256 p fresh j)) = next_rowid (visible d')).
Proof.
  intros Hh Hr Hj Hn. split_and!.
  - intros after limit Ha Hl. rewrite (entries_after_refines d j) by (done || lia). do 2 f_equal. lia.
  - intros. by apply rollback_refines.
  - intros. by apply mark_refines.
  - intros. by apply compact_refines.
  - by apply size_refines.
  - intros. by apply append_refines.
Qed.

(** The automatic compaction deletes every row behind the retention window up
    to the greatest acknowledged number: the rows it deletes need not be
    acknowledged themselves. *)
Theorem auto_compaction_deletes e d :
  let c := load_auto_compact_config env retention_override in
  healthy d -> enabled c = true -> 0 < check_interval_entries c ->
  seq e mod check_interval_entries c = 0 -> min_entries c <= size_of (visible d) ->
  size_of (visible d) < 2 ^ 64 -> 0 < scalar (MaxApplied (min_applied_value c)) (visible d) < 2 ^ 63 ->
  0 <= retention_ms c -> 0 <= wall (hlc e) < 2 ^ 63 ->
  visible (auto_compact env retention_override e d) =
    filter (fun r => ~ (r_wall r < Z.max 0 (wall (hlc e) - retention_ms c) /\
                        r_seq r <= scalar (MaxApplied (min_applied_value c)) (visible d))) (visible d).
Proof.
  intros c (Hp & Hw & _ & _ & Hsc) Hen Hint Hmod Hmin Hlt Hack Hret Hwall. unfold auto_compact. fold c.
  rewrite Hen, (proj2 (Z.ltb_lt _ _) Hint), (proj2 (Z.eqb_eq _ _) Hmod). cbn [andb].
  assert (size (Some d) = size_of (visible d)) as ->.
  { unfold size. rewrite Hp. destruct (Hsc CountAll) as [v E]. rewrite E. apply scalar_row in E. cbn in E.
    subst v. apply wrap_small. size_lia. }
  rewrite (proj2 (Z.leb_le _ _) Hmin).
  assert (max_acknowledged_seq (min_applied_value c) d = scalar (MaxApplied (min_applied_value c)) (visible d)) as ->.
  { unfold max_acknowledged_seq. rewrite Hp. destruct (Hsc (MaxApplied (min_applied_value c))) as [v E].
    rewrite E. apply scalar_row in E. subst v. apply wrap_small. split; lia. }
  set (ack := scalar _ _) in *. rewrite (proj2 (Z.ltb_lt 0 ack)) by lia.
  assert ((if retention_ms c <? wall (hlc e) then wall (hlc e) - retention_ms c else 0) =
          Z.max 0 (wall (hlc e) - retention_ms c)) as ->.
  { destruct (Z.ltb_spec (retention_ms c) (wall (hlc e))); lia. }
  set (cutoff := Z.max 0 _). assert (0 <= cutoff < 2 ^ 63) as Hcut by lia.
  unfold compact. set (q := DeleteOld _ _). rewrite Hp. cbn [negb].
  destruct (sql_write q d) as [ok d'] eqn:E. pose proof (Hw q) as Hok. rewrite E in Hok. cbn in Hok. subst ok.
  apply write_done in E as (Hd' & _ & _ & _); [|done]. subst q. cbn [negb effect] in *.
  rewrite !(sint_small 64) in Hd' by (done || lia).
  assert (visible d' = filter (fun r => ~ (r_wall r < cutoff /\ r_seq r <= ack)) (visible d)) as <-.
  { rewrite Hd'. apply list_filter_iff. intros r. unfold old_row.
    rewrite andb_false_iff, Z.ltb_ge, Z.leb_gt. lia. }
  case_match; cbn [snd default]; [|done]. apply vacuum_law.
Qed.

(** Removing the newest entry gives its number out again: when the last entry
    of the table is rolled back, the next entry appended carries the number the
    removed entry had, unlike in the in-memory journal. *)
Theorem rollback_reuses_sequence d older newest p fresh :
  visible d = older ++ [newest] -> r_seq newest = next_rowid older ->
  Forall (fun r => r_batch r <> r_batch newest) older -> no_nul (r_batch newest) ->
  0 < r_seq newest <= max_rowid -> healthy d ->
  exists d', rollback_batch (r_batch newest) (Some d) = ([read_entry newest], Some d') /\
    visible d' = older /\
    (healthy d' -> exists e db', append sha256 env retention_override p fresh (Some d') = (Some e, db') /\
       seq e = r_seq newest).
Proof.
  intros Hv Hseq Hold Hnul Hrange (Hp & _ & _ & Hr & _).
  assert (filter (fun r => r_batch r = r_batch newest) older = []) as Hnone.
  { apply elem_of_nil_inv. intros r [Hb Hin]%list_elem_of_filter. eapply Forall_forall in Hold; [|exact Hin]. done. }
  assert (filter (fun r => r_batch r <> r_batch newest) older = older) as Hall.
  { clear -Hold. induction Hold as [|r l Hr _ IH]; [done|]. rewrite filter_cons. case_decide; [by rewrite IH|done]. }
  unfold rollback_batch. rewrite Hp, Hnul.
  destruct (sql_delete_returning (r_batch newest) d) as [[rows ok] d'] eqn:E.
  pose proof (Hr (r_batch newest)) as Hok. rewrite E in Hok. cbn in Hok. subst ok.
  apply delete_returning_done in E as (Hperm & Hd' & _).
  rewrite Hv, filter_app, Hnone, filter_cons in Hperm. rewrite Hv, filter_app, Hall, filter_cons in Hd'.
  rewrite decide_True in Hperm by done. rewrite decide_False in Hd' by tauto.
  rewrite filter_nil in *. rewrite app_nil_r in Hd'.
  cbn [app] in Hperm. apply Permutation_singleton_r in Hperm as ->.
  exists d'. split; [done|]. split; [done|]. intros (Hp' & Hw' & _). unfold append. rewrite Hp'. cbn [negb].
  set (q := InsertEntry _). destruct (sql_write q d') as [ok d''] eqn:E.
  pose proof (Hw' q) as Hok. rewrite E in Hok. cbn in Hok. subst ok q.
  apply write_done in E as (_ & _ & _ & Hid); [|rewrite Hd', <- Hseq; lia].
  rewrite Hd', <- Hseq in Hid. cbn [negb].
  eexists _, _. split; [done|]. cbn. rewrite Hid.
  apply wrap_small. unfold max_rowid in Hrange. split; lia.
Qed.
End refinement.

(** ** Instances in memory *)

Lemma mem_healthy l s c i g : healthy (MemDb.mk l s c i (fun _ => false) g).
Proof. split_and!; done. Qed.

Definition quiet_env : environment := fun name =>
  if bool_decide (name = $"TIGHTROPE_SYNC_JOURNAL_AUTO_COMPACT_ENABLED") then Some ($"0") else None.

Definition eager_env : environment := fun name =>
  if bool_decide (name = $"TIGHTROPE_SYNC_JOURNAL_AUTO_COMPACT_MIN_ENTRIES") then Some ($"1")
  else if bool_decide (name = $"TIGHTROPE_SYNC_JOURNAL_AUTO_COMPACT_INTERVAL") then Some ($"1") else None.

Definition two_entries : Journal :=
  foldl (journal_step id) empty_journal
    [Append sample_pending [];
     Append (mkPending (mkHlc 11 2 7) ($"accounts") ($"2") ($"INSERT") [] ($"{}") 2 ($"b2")) []].

Definition two_rows : MemDb.t :=
  MemDb.mk (bind_entry <$> entries_ two_entries) None 0 0 (fun _ => false) false.

Lemma two_rows_represent : represents two_rows two_entries.
Proof. split; [reflexivity|]. repeat constructor; vm_compute; congruence. Qed.

Lemma two_entries_ok : journal_ok id two_entries.
Proof. split_and!; repeat constructor; vm_compute; congruence. Qed.

Lemma persistent_journal_refines_witness :
  entries_after id quiet_env 1 10 (Some two_rows) = Journal.entries_after 1 two_entries /\
  size (Some two_rows) = 2.
Proof.
  destruct (persistent_journal_refines id quiet_env None two_rows two_entries
    (mem_healthy _ _ _ _ _) two_rows_represent two_entries_ok ltac:(vm_compute; reflexivity))
    as (H1 & _ & _ & _ & H2 & _).
  split; [exact (H1 1 10 ltac:(lia) ltac:(lia)) | exact H2].
Defined.

(** An entry at [applied = 1], not acknowledged, is gone once a later one is. *)
Lemma auto_compaction_deletes_witness :
  let e := created id 3 (mkPending (mkHlc 1000000 3 7) ($"accounts") ($"3") ($"INSERT") [] ($"{}") 1 ($"b3")) [] in
  (r_applied <$> visible two_rows) = [1; 2] /\
  visible (auto_compact eager_env None e two_rows) = [].
Proof.
  split; [reflexivity|]. cbv zeta.
  rewrite (auto_compaction_deletes eager_env None
    (created id 3 (mkPending (mkHlc 1000000 3 7) ($"accounts") ($"3") ($"INSERT") [] ($"{}") 1 ($"b3")) []) two_rows
    (mem_healthy _ _ _ _ _)); [reflexivity | reflexivity | vm_compute; reflexivity | reflexivity
    | vm_compute; congruence | vm_compute; reflexivity | vm_compute; split; reflexivity
    | vm_compute; congruence | vm_compute; split; congruence].
Defined.

Lemma rollback_reuses_sequence_witness :
  exists db' e db'', rollback_batch ($"b2") (Some two_rows) = (drop 1 (entries_ two_entries), Some db') /\
    append id quiet_env None sample_pending [] (Some db') = (Some e, db'') /\ seq e = 2.
Proof.
  destruct (rollback_reuses_sequence id quiet_env None two_rows
    (take 1 (bind_entry <$> entries_ two_entries))
    (default (bind_entry (created id 0 sample_pending [])) (last (bind_entry <$> entries_ two_entries)))
    sample_pending []) as (d' & E & _ & H);
    [reflexivity | reflexivity | repeat constructor; discriminate | reflexivity
    | vm_compute; split; congruence | apply mem_healthy | ].
  injection E as <-.
  destruct (H (mem_healthy _ _ _ _ _)) as (e & db' & Ea & He).
  eexists _, e, db'. split; [reflexivity|]. split; [exact Ea | exact He].
Defined.
