(* ===== verification/ApplyBatch.v ===== *)
(** * ApplyBatch: journal batches in and out of the table

    src/native/sync/src/sync_engine.cpp: [SyncEngine::recompute_checksums],
    [SyncEngine::build_batch] and [SyncEngine::apply_batch] over the table
    interface of [JournalDb].  A null database is [None]; the log calls are left
    out.  The identifiers [generate_batch_id] would draw come from the supply
    [fresh], indexed by the entry's sequence number. *)

From S2P Require Import Prelude Codec Text Hlc Conflict Checksum SyncProtocol Journal JournalDb PersistentJournal.

Record ApplyBatchResult := mkResult {
  success : bool;
  applied_up_to_seq : Z;
  applied_count : Z;
  result_error : bytes
}.

Section engine.
Context {D : Type} `{JournalDb D}.
Variable sha256 : bytes -> bytes.
Variable fresh : Z -> bytes.

(** ** [recompute_checksums] *)

Definition row_checksum (r : row) : bytes :=
  journal_checksum sha256 (r_table r) (r_pk r) (r_op r) (r_old r) (r_new r).

(** The loop over the collected updates; false where it returns early. *)
Fixpoint update_checksums (updates : list (Z * bytes)) (d : D) : bool * D :=
  match updates with
  | [] => (true, d)
  | (seq, checksum) :: rest =>
      let (ok, d) := sql_write (UpdateChecksum (cstr checksum) (sint 64 seq)) d in
      if negb ok then (false, d) else update_checksums rest d
  end.

Definition recompute_checksums (db : option D) : bool * option D :=
  match db with
  | None => (false, None)
  | Some d =>
      if negb (sql_prepare (ReadStmt SelectAll) d) then (false, Some d)
      else
        let updates := (fun r => (u64 (r_seq r), row_checksum r)) <$> fst (sql_read SelectAll d) in
        if negb (sql_prepare (WriteStmt (UpdateChecksum [] 0)) d) then (false, Some d)
        else let (ok, d) := update_checksums updates d in (ok, Some d)
  end.

(** ** [build_batch] *)

Definition wire_of_row (r : row) : JournalWireEntry :=
  mkWireEntry (u64 (r_seq r)) (u64 (r_wall r)) (u32 (r_counter r)) (u32 (r_site r)) (r_table r) (r_pk r)
    (r_op r) (r_old r) (r_new r) (r_checksum r) (sint 32 (r_applied r)) (r_batch r).

Definition build_batch (after_seq limit : Z) (db : option D) : JournalBatchFrame :=
  match db with
  | None => mkBatch after_seq after_seq []
  | Some d =>
      let q := SelectAfter (sint 64 after_seq) (sint 32 limit) in
      if negb (sql_prepare (ReadStmt q) d) then mkBatch after_seq after_seq []
      else
        let entries := wire_of_row <$> fst (sql_read q d) in
        mkBatch after_seq (foldl (fun to e => Z.max to (SyncProtocol.seq e)) after_seq entries) entries
  end.

(** ** [apply_batch] *)

(** The values bound for an entry. *)
Definition bind_wire (applied_value : Z) (e : JournalWireEntry) : row :=
  mkRow (sint 64 (SyncProtocol.seq e)) (sint 64 (SyncProtocol.hlc_wall e)) (hlc_counter e) (entry_site_id e)
    (cstr (SyncProtocol.table_name e)) (cstr (SyncProtocol.row_pk e)) (cstr (SyncProtocol.op e))
    (cstr (SyncProtocol.old_values e)) (cstr (SyncProtocol.new_values e)) (cstr (SyncProtocol.checksum e))
    applied_value
    (cstr (if size_of (SyncProtocol.batch_id e) =? 0 then fresh (SyncProtocol.seq e) else SyncProtocol.batch_id e)).

Definition existing_checksum_for_seq (seq : Z) (d : D) : bytes :=
  match fst (sql_read (SelectSeq (sint 64 seq)) d) with
  | r :: _ => r_checksum r
  | [] => []
  end.

Definition wire_checksum (e : JournalWireEntry) : bytes :=
  journal_checksum sha256 (SyncProtocol.table_name e) (SyncProtocol.row_pk e) (SyncProtocol.op e)
    (SyncProtocol.old_values e) (SyncProtocol.new_values e).

(** [exec_sql(db, "ROLLBACK;", nullptr)]. *)
Definition rolled_back (d : D) : D := snd (sql_rollback d).

Definition fail (r : ApplyBatchResult) (message : bytes) : ApplyBatchResult :=
  mkResult false (applied_up_to_seq r) (applied_count r) message.

(** The loop over the entries: the result so far and the table, or the result
    and the table (rolled back) of an early return. *)
Fixpoint apply_entries (applied_value : Z) (entries : list JournalWireEntry) (r : ApplyBatchResult) (d : D) :
    (ApplyBatchResult * D) + (ApplyBatchResult * D) :=
  match entries with
  | [] => inl (r, d)
  | entry :: rest =>
      if negb (is_table_replicated (SyncProtocol.table_name entry)) then
        inr (fail r ($"table is not replicated: " ++ SyncProtocol.table_name entry), rolled_back d)
      else if negb (bool_decide (wire_checksum entry = SyncProtocol.checksum entry)) then
        inr (fail r ($"checksum mismatch for seq " ++ to_string (SyncProtocol.seq entry)), rolled_back d)
      else
        let (ok, d) := sql_write (InsertOrIgnore (bind_wire applied_value entry)) d in
        if negb ok then
          let d := rolled_back d in inr (fail r (sql_errmsg d), d)
        else if (sql_changes d =? 0) &&
                negb (bool_decide (existing_checksum_for_seq (SyncProtocol.seq entry) d = SyncProtocol.checksum entry))
        then inr (fail r ($"existing checksum mismatch for seq " ++ to_string (SyncProtocol.seq entry)),
                  rolled_back d)
        else
          apply_entries applied_value rest
            (mkResult false (Z.max (applied_up_to_seq r) (SyncProtocol.seq entry))
               (if sql_changes d =? 0 then applied_count r else u64 (applied_count r + 1)) []) d
  end.

Definition no_result : ApplyBatchResult := mkResult false 0 0 [].

Definition apply_batch (batch : JournalBatchFrame) (applied_value : Z) (db : option D) :
    ApplyBatchResult * option D :=
  match db with
  | None => (fail no_result ($"db is null"), None)
  | Some d =>
      let (ok, d) := sql_begin d in
      if negb ok then (fail no_result (sql_errmsg d), Some d)
      else if negb (sql_prepare (WriteStmt (InsertOrIgnore (mkRow 0 0 0 0 [] [] [] [] [] [] 0 []))) d) ||
              negb (sql_prepare (ReadStmt (SelectSeq 0)) d) then
        let d := rolled_back d in (fail no_result (sql_errmsg d), Some d)
      else
        match apply_entries applied_value (entries batch) no_result d with
        | inr (r, d) => (r, Some d)
        | inl (r, d) =>
            let (ok, d) := sql_commit d in
            if negb ok then let message := sql_errmsg d in (fail r message, Some (rolled_back d))
            else (mkResult true (applied_up_to_seq r) (applied_count r) [], Some d)
        end
  end.
End engine.

(** ** Atomicity and exactness *)

Lemma hex_no_nul data : no_nul (Hex.hex_encode data).
Proof.
  unfold no_nul, Hex.hex_encode. induction data as [|b data IH]; [done|].
  rewrite fmap_cons, concat_cons. destruct (Hex.hex_pair_nibbles b) as (h & l & E & Hh & Hl).
  assert (forall c n, Hex.hex_nibble c = Some n -> (val c =? 0) = false) as Hz by (intros c n; by destruct c).
  rewrite E. cbn [app cstr]. rewrite (Hz _ _ Hh), (Hz _ _ Hl), IH. done.
Qed.

Section atomic.
Context {D : Type} `{JournalDbLaws D}.
Variable sha256 : bytes -> bytes.
Variable fresh : Z -> bytes.
Hypothesis sha256_size : forall x, size_of (sha256 x) = 32.

(** What an entry must satisfy to be let in. *)
Definition acceptable (e : JournalWireEntry) : Prop :=
  is_table_replicated (SyncProtocol.table_name e) = true /\ SyncProtocol.checksum e = wire_checksum sha256 e.

(** The rows after the batch: an entry is added unless its number is taken. *)
Definition insert_entries (value : Z) (es : list JournalWireEntry) (rows : list row) : list row :=
  foldl (fun rows e => effect (InsertOrIgnore (bind_wire fresh value e)) rows) rows es.

Lemma insert_keeps value es rows r : r ∈ rows -> r ∈ insert_entries value es rows.
Proof.
  revert rows. induction es as [|e es IH]; intros rows Hr; [done|]. cbn [insert_entries foldl]. apply IH.
  cbn [effect]. case_decide; [|done]. rewrite insert_row_perm. by right.
Qed.

Lemma insert_sorted value es rows : StronglySorted row_lt rows -> StronglySorted row_lt (insert_entries value es rows).
Proof.
  revert rows. induction es as [|e es IH]; intros rows Hr; [done|]. cbn [insert_entries foldl].
  apply IH. by apply effect_sorted.
Qed.

Lemma apply_entries_failed value es r d r' d' s :
  snapshot d = Some s -> apply_entries sha256 fresh value es r d = inr (r', d') ->
  visible d' = s /\ snapshot d' = None /\ success r' = false.
Proof.
  revert r d. induction es as [|e es IH]; intros r d Hs; cbn [apply_entries]; [done|].
  pose proof (rollback_law d) as [Hrv Hrs]. rewrite Hs in Hrv.
  case_match; [by intros [= <- <-]|]. case_match; [by intros [= <- <-]|].
  destruct (sql_write _ d) as [[] d1] eqn:E; cbn [negb].
  - apply write_done in E as (_ & Hs1 & _); [|done]. rewrite Hs in Hs1.
    pose proof (rollback_law d1) as [Hrv1 Hrs1]. rewrite Hs1 in Hrv1.
    case_match; [by intros [= <- <-]|]. by apply IH.
  - apply write_failed in E. pose proof (rollback_law d1) as [Hrv1 Hrs1].
    destruct E as [[Ev Es]|[Es En]].
    + rewrite Es, Hs in Hrv1. by intros [= <- <-].
    + rewrite En in Hrv1. rewrite Hs in Es. injection Es as ->. by intros [= <- <-].
Qed.

(** One entry let in: the table after it, and the row that stands for it. *)
Lemma insert_entry_row value e d d1 :
  acceptable e -> sql_write (InsertOrIgnore (bind_wire fresh value e)) d = (true, d1) ->
  (sql_changes d1 =? 0) &&
    negb (bool_decide (existing_checksum_for_seq (SyncProtocol.seq e) d1 = SyncProtocol.checksum e)) = false ->
  visible d1 = effect (InsertOrIgnore (bind_wire fresh value e)) (visible d) /\ snapshot d1 = snapshot d /\
  size_of (visible d1) = size_of (visible d) + (if sql_changes d1 =? 0 then 0 else 1) /\
  exists r, r ∈ visible d1 /\ r_seq r = sint 64 (SyncProtocol.seq e) /\ r_checksum r = SyncProtocol.checksum e.
Proof.
  intros [_ Hck] E Hx. apply write_done in E as (Hv1 & Hs1 & Hc1 & _); [|done].
  split; [done|]. split; [done|]. cbn [effect affected] in *. rewrite Hc1 in Hx |- *.
  case_decide as Hnew.
  - split.
    { rewrite Hv1. unfold size_of. rewrite insert_row_perm. cbn. lia. }
    eexists. split; [rewrite Hv1, insert_row_perm; left|]. split; [done|]. cbn.
    rewrite Hck. apply hex_no_nul.
  - cbn [Z.eqb andb] in Hx. apply negb_false_iff, bool_decide_eq_true in Hx.
    split; [rewrite Hv1; cbn; lia|]. unfold existing_checksum_for_seq in Hx.
    destruct (sql_read _ d1) as [rows ok] eqn:Er. apply read_prefix in Er. cbn [fst] in Hx.
    destruct rows as [|r rows].
    + exfalso. rewrite Hck in Hx. apply (f_equal size_of) in Hx. unfold wire_checksum, journal_checksum, sha256_hex in Hx.
      rewrite Hex.size_hex_encode, sha256_size in Hx. done.
    + exists r. assert (r ∈ find_seq (sint 64 (SyncProtocol.seq e)) (visible d1)) as Hin.
      { destruct ok; [cbn in Er; rewrite <- Er; left|]. eapply elem_of_prefix; [|exact Er]. left. }
      apply list_elem_of_filter in Hin as [Hseq Hin]. done.
Qed.

Lemma apply_entries_done value es r d r' d' :
  apply_entries sha256 fresh value es r d = inl (r', d') ->
  0 <= applied_count r -> applied_count r + size_of es < 2 ^ 64 ->
  Forall acceptable es /\ snapshot d' = snapshot d /\ visible d' = insert_entries value es (visible d) /\
  applied_count r' = applied_count r + (size_of (visible d') - size_of (visible d)) /\
  applied_up_to_seq r' = foldl (fun m e => Z.max m (SyncProtocol.seq e)) (applied_up_to_seq r) es /\
  Forall (fun e => exists w, w ∈ visible d' /\ r_seq w = sint 64 (SyncProtocol.seq e) /\
                             r_checksum w = SyncProtocol.checksum e) es.
Proof.
  revert r d. induction es as [|e es IH]; intros r d; cbn [apply_entries].
  { intros [= <- <-] Hc0 Hn. split_and!; [constructor|done|done|lia|done|constructor]. }
  destruct (is_table_replicated (SyncProtocol.table_name e)) eqn:Et; cbn [negb]; [|done].
  case_bool_decide as Eck; cbn [negb]; [|done].
  destruct (sql_write _ d) as [[] d1] eqn:E; cbn [negb]; [|done].
  destruct (_ && _) eqn:Ex; [done|]. intros Happ Hc0 Hn. rewrite size_of_cons in Hn. pose proof (size_of_nonneg es).
  assert (acceptable e) as Hacc by by split.
  destruct (insert_entry_row value e d d1 Hacc E Ex) as (Hv1 & Hs1 & Hsz & w & Hw & Hwrow).
  set (k := if sql_changes d1 =? 0 then 0 else 1) in *.
  assert ((if sql_changes d1 =? 0 then applied_count r else u64 (applied_count r + 1)) = applied_count r + k) as Ek.
  { unfold k. case_match; [lia|]. apply wrap_small. split; lia. }
  rewrite Ek in Happ. assert (0 <= k <= 1) as Hk by (unfold k; case_match; lia).
  apply IH in Happ as (G1 & G2 & G3 & G4 & G5 & G6); [|cbn [applied_count]; lia..]. cbn [applied_count applied_up_to_seq] in *.
  split_and!; [by constructor|by rewrite G2, Hs1| |lia|done|constructor; [|done]].
  - rewrite G3, Hv1. done.
  - exists w. split; [|done]. rewrite G3. by apply insert_keeps.
Qed.

(** What a run of [apply_batch] leaves and reports. *)
Lemma apply_batch_outcome batch value d :
  snapshot d = None -> size_of (entries batch) < 2 ^ 64 ->
  exists d', snd (apply_batch sha256 fresh batch value (Some d)) = Some d' /\ snapshot d' = None /\
  let r := fst (apply_batch sha256 fresh batch value (Some d)) in
  if success r then
    Forall acceptable (entries batch) /\
    visible d' = insert_entries value (entries batch) (visible d) /\
    StronglySorted row_lt (visible d') /\
    applied_count r = size_of (visible d') - size_of (visible d) /\
    applied_up_to_seq r = foldl (fun m e => Z.max m (SyncProtocol.seq e)) 0 (entries batch) /\
    Forall (fun e => exists w, w ∈ visible d' /\ r_seq w = sint 64 (SyncProtocol.seq e) /\
                               r_checksum w = SyncProtocol.checksum e) (entries batch)
  else visible d' = visible d.
Proof.
  intros Hs Hn. unfold apply_batch. destruct (sql_begin d) as [[] d1] eqn:Eb; cbn [negb].
  2: { apply begin_failed in Eb as [Ev Es]. exists d1. cbn. by rewrite Es, Ev. }
  apply begin_done in Eb as (Ev & Es & _).
  destruct (_ || _).
  { exists (rolled_back d1). unfold rolled_back. destruct (rollback_law d1) as [R1 R2].
    rewrite Es in R1. cbn in *. split; [done|]. split; [done|]. by rewrite R1. }
  destruct (apply_entries _ _ _ _ _ d1) as [[r d2]|[r d2]] eqn:E.
  - apply apply_entries_done in E as (H1 & H2 & H3 & H4 & H5 & H6); [|cbn; lia..].
    destruct (sql_commit d2) as [[] d3] eqn:Ec; cbn [negb].
    + apply commit_done in Ec as [Ev3 Es3]. exists d3. cbn [fst snd success applied_count applied_up_to_seq].
      rewrite Ev3, Es3. rewrite Ev in *. split_and!; try done. apply visible_sorted.
    + apply commit_failed in Ec as [Ev3 Es3]. exists (rolled_back d3). unfold rolled_back.
      destruct (rollback_law d3) as [R1 R2]. rewrite Es3, H2, Es in R1. cbn in *. by rewrite R1.
  - eapply apply_entries_failed in E as (Hv & Hs2 & Hf); [|exact Es].
    exists d2. cbn. rewrite Hf. by rewrite Hv.
Qed.

(** All or nothing: a batch that is refused or fails at any point (a table that
    is not replicated, a wrong checksum, another entry under a number, a failed
    statement or commit) leaves the table as it was and no transaction open; a
    batch that succeeds has only replicated tables and right checksums, adds
    exactly the entries whose numbers were free, in number order, leaves under
    each number a row of the entry's checksum, and reports the number of rows
    added and the greatest number of the batch. (C19) *)
Theorem apply_batch_atomic batch value d :
  snapshot d = None -> size_of (entries batch) < 2 ^ 64 ->
  exists d', snd (apply_batch sha256 fresh batch value (Some d)) = Some d' /\ snapshot d' = None /\
  let r := fst (apply_batch sha256 fresh batch value (Some d)) in
  if success r then
    Forall acceptable (entries batch) /\
    visible d' = insert_entries value (entries batch) (visible d) /\
    StronglySorted row_lt (visible d') /\
    applied_count r = size_of (visible d') - size_of (visible d) /\
    applied_up_to_seq r = foldl (fun m e => Z.max m (SyncProtocol.seq e)) 0 (entries batch) /\
    Forall (fun e => exists w, w ∈ visible d' /\ r_seq w = sint 64 (SyncProtocol.seq e) /\
                               r_checksum w = SyncProtocol.checksum e) (entries batch)
  else visible d' = visible d.
Proof. apply apply_batch_outcome. Qed.

(** Every number of the batch stands in the table with the entry's checksum. *)
Definition consistent (value : Z) (es : list JournalWireEntry) (rows : list row) : Prop :=
  Forall (fun e => forall w, w ∈ insert_entries value es rows -> r_seq w = sint 64 (SyncProtocol.seq e) ->
                             r_checksum w = SyncProtocol.checksum e) es.

Lemma insert_taken value es rows :
  Forall (fun e => exists w, w ∈ rows /\ r_seq w = sint 64 (SyncProtocol.seq e)) es ->
  insert_entries value es rows = rows.
Proof.
  induction 1 as [|e es (w & Hw & Hs) _ IH]; [done|]. cbn [insert_entries foldl effect].
  case_decide as Hd; [|exact IH]. exfalso.
  rewrite find_seq_nil in Hd. by apply (Hd w Hw).
Qed.

Section reliable.
Context (ok : D -> Prop) `{!Reliable ok}.

Lemma apply_entries_total value es r d :
  ok d -> Forall acceptable es -> 
  (forall e w, e ∈ es -> w ∈ insert_entries value es (visible d) -> r_seq w = sint 64 (SyncProtocol.seq e) ->
     r_checksum w = SyncProtocol.checksum e) ->
  exists r' d', apply_entries sha256 fresh value es r d = inl (r', d') /\ ok d'.
Proof.
  intros Hok Hacc. revert r d Hok. induction Hacc as [|e es [Ht Hck] _ IH]; intros r d Hok Hcons; cbn [apply_entries].
  { eauto. }
  rewrite Ht, bool_decide_true by done. cbn [negb].
  destruct (reliable_write d (InsertOrIgnore (bind_wire fresh value e)) Hok) as (d1 & E & Hok1). rewrite E. cbn [negb].
  pose proof E as E'. apply write_done in E' as (Hv1 & _ & Hc1 & _); [|done].
  assert ((sql_changes d1 =? 0) && negb (bool_decide (existing_checksum_for_seq (SyncProtocol.seq e) d1 = SyncProtocol.checksum e)) = false) as ->.
  { rewrite Hc1. cbn [affected effect] in *. case_decide as Hnew; [done|]. cbn [Z.eqb andb].
    apply negb_false_iff, bool_decide_eq_true. unfold existing_checksum_for_seq.
    pose proof (reliable_read d1 (SelectSeq (sint 64 (SyncProtocol.seq e))) Hok1) as Hr.
    destruct (sql_read _ d1) as [rows okr] eqn:Er. cbn in Hr. subst okr. apply read_prefix in Er. cbn [answer] in Er.
    subst rows. rewrite Hv1. cbn [fst]. change (r_seq (bind_wire fresh value e)) with (sint 64 (SyncProtocol.seq e)) in Hnew.
    destruct (find_seq (sint 64 (SyncProtocol.seq e)) (visible d)) as [|w ws] eqn:Ef; [done|].
    assert (w ∈ find_seq (sint 64 (SyncProtocol.seq e)) (visible d)) as Hw by (rewrite Ef; left).
    apply list_elem_of_filter in Hw as [Hws Hw]. apply (Hcons e); [left| |done]. by apply insert_keeps. }
  apply IH; [done|]. intros e' w He' Hw. apply Hcons; [by right|]. cbn [insert_entries foldl]. by rewrite <- Hv1.
Qed.

Lemma apply_batch_total batch value d :
  ok d -> snapshot d = None -> Forall acceptable (entries batch) ->
  consistent value (entries batch) (visible d) ->
  success (fst (apply_batch sha256 fresh batch value (Some d))) = true.
Proof.
  intros Hok Hs Hacc Hcons. unfold apply_batch.
  destruct (reliable_begin d Hok Hs) as (d1 & Eb & Hok1). rewrite Eb. cbn [negb].
  apply begin_done in Eb as (Ev & _ & _). rewrite !reliable_prepare by done. cbn [negb orb].
  destruct (apply_entries_total value (entries batch) no_result d1 Hok1 Hacc) as (r & d2 & E & Hok2).
  { intros e w He Hw. rewrite Ev in Hw. unfold consistent in Hcons. eapply Forall_forall in Hcons; [|exact He]. by apply Hcons. }
  rewrite E. destruct (reliable_commit d2 Hok2) as (d3 & Ec & _). by rewrite Ec.
Qed.

(** Where no statement fails, a batch is applied exactly when all its tables
    are replicated, all its checksums are right and no number stands for two
    checksums; and replaying a batch that was applied changes nothing, adds no
    row and succeeds again. *)
Theorem apply_batch_complete batch value d :
  ok d -> snapshot d = None -> size_of (entries batch) < 2 ^ 64 ->
  (success (fst (apply_batch sha256 fresh batch value (Some d))) = true <->
   Forall acceptable (entries batch) /\ consistent value (entries batch) (visible d)) /\
  (forall d', success (fst (apply_batch sha256 fresh batch value (Some d))) = true ->
     snd (apply_batch sha256 fresh batch value (Some d)) = Some d' -> ok d' ->
     exists d'', snd (apply_batch sha256 fresh batch value (Some d')) = Some d'' /\ visible d'' = visible d' /\
       success (fst (apply_batch sha256 fresh batch value (Some d'))) = true /\
       applied_count (fst (apply_batch sha256 fresh batch value (Some d'))) = 0).
Proof.
  intros Hok Hs Hn. pose proof (apply_batch_outcome batch value d Hs Hn) as (d1 & Ed1 & Hs1 & Hcase). cbv zeta in Hcase.
  assert (success (fst (apply_batch sha256 fresh batch value (Some d))) = true ->
    Forall acceptable (entries batch) /\
    Forall (fun e => exists w, w ∈ visible d1 /\ r_seq w = sint 64 (SyncProtocol.seq e) /\
                               r_checksum w = SyncProtocol.checksum e) (entries batch) /\
    visible d1 = insert_entries value (entries batch) (visible d) /\ StronglySorted row_lt (visible d1)) as Hfwd.
  { intros E. rewrite E in Hcase. tauto. }
  assert (forall w e, StronglySorted row_lt (visible d1) ->
    (exists v, v ∈ visible d1 /\ r_seq v = sint 64 (SyncProtocol.seq e) /\ r_checksum v = SyncProtocol.checksum e) ->
    w ∈ visible d1 -> r_seq w = sint 64 (SyncProtocol.seq e) -> r_checksum w = SyncProtocol.checksum e) as Huniq.
  { intros w e Hsort (v & Hv & Hvs & Hvc) Hw Hws.
    pose proof (find_seq_unique _ _ Hsort Hv) as Ev. pose proof (find_seq_unique _ _ Hsort Hw) as Ew.
    rewrite Hws, <- Hvs, Ev in Ew. by injection Ew as ->. }
  split; [split|].
  - intros E. destruct (Hfwd E) as (Hacc & Hrows & Ev & Hsort). split; [done|]. unfold consistent. rewrite <- Ev.
    eapply Forall_impl; [exact Hrows|]. intros e Hex w Hw Hws. by eapply Huniq.
  - intros [Hacc Hcons]. by apply apply_batch_total.
  - intros d' E Ed' Hok'. rewrite Ed1 in Ed'. injection Ed' as <-. destruct (Hfwd E) as (Hacc & Hrows & Ev & Hsort).
    assert (insert_entries value (entries batch) (visible d1) = visible d1) as Hsame.
    { apply insert_taken. eapply Forall_impl; [exact Hrows|]. intros e (w & ? & ? & _). eauto. }
    assert (success (fst (apply_batch sha256 fresh batch value (Some d1))) = true) as E2.
    { apply apply_batch_total; [done..|]. unfold consistent. rewrite Hsame.
      eapply Forall_impl; [exact Hrows|]. intros e Hex w Hw Hws. by eapply Huniq. }
    pose proof (apply_batch_outcome batch value d1 Hs1 Hn) as (d2 & Ed2 & _ & Hcase2). cbv zeta in Hcase2. rewrite E2 in Hcase2.
    destruct Hcase2 as (_ & Ev2 & _ & Hcount & _). exists d2. rewrite Hsame in Ev2.
    split_and!; try done. rewrite Hcount, Ev2. lia.
Qed.
End reliable.
End atomic.

(** ** From one journal to another *)

Section transfer.
Context {D : Type} `{JournalDbLaws D}.
Variable sha256 : bytes -> bytes.
Variable fresh : Z -> bytes.
Hypothesis sha256_size : forall x, size_of (sha256 x) = 32.

(** The wire form of a journal entry. *)
Definition wire_of (e : JournalEntry) : JournalWireEntry :=
  mkWireEntry (seq e) (wall (hlc e)) (counter (hlc e)) (hlc_site (hlc e)) (table_name e) (row_pk e) (op e)
    (old_values e) (new_values e) (checksum e) (applied e) (batch_id e).

Lemma wire_of_bind e : storable e -> wire_of_row (bind_entry e) = wire_of e.
Proof.
  intros He. pose proof (read_bind e He) as Hr. unfold wire_of_row. unfold read_entry in Hr.
  destruct e as [s [w c i] t p o ol nw ck ap b]. cbn in *. injection Hr as -> -> -> -> -> -> -> -> -> -> -> ->.
  done.
Qed.

(** An entry that is sent, stored and read again differs in [applied] only. *)
Lemma read_bind_wire value e :
  storable e -> in_sint 32 value -> batch_id e <> [] ->
  read_entry (bind_wire fresh value (wire_of e)) = with_applied e value.
Proof.
  intros (Hs & Hw & Hc & Hi & _ & H1 & H2 & H3 & H4 & H5 & H6 & H7) Hv Hb.
  unfold read_entry, bind_wire, wire_of, with_applied. cbn.
  rewrite !(sint_small 64) by (done || apply Hs || apply Hw). rewrite H1, H2, H3, H4, H5, H6.
  destruct (Z.eqb_spec (size_of (batch_id e)) 0) as [E|E]; [by apply size_of_zero in E|].
  rewrite H7, (sint_signed 32 value), !wrap_small by (done || split; lia). by destruct e as [? [] ? ? ? ? ? ? ? ?].
Qed.

Lemma insert_row_last r rows : Forall (fun x => r_seq x < r_seq r) rows -> insert_row r rows = rows ++ [r].
Proof.
  induction 1 as [|x rows Hx _ IH]; [done|]. cbn [insert_row].
  rewrite (proj2 (Z.ltb_ge _ _)) by lia. by rewrite IH.
Qed.

(** Entries in number order behind the rows are added behind them. *)
Lemma insert_entries_append value es rows :
  StronglySorted row_lt (rows ++ (bind_wire fresh value <$> es)) ->
  insert_entries fresh value es rows = rows ++ (bind_wire fresh value <$> es).
Proof.
  revert rows. induction es as [|e es IH]; intros rows Hs; cbn [fmap list_fmap insert_entries foldl] in *.
  { by rewrite app_nil_r. }
  apply StronglySorted_app in Hs as Hs'. destruct Hs' as (Hlt & _ & _).
  assert (Forall (fun x => r_seq x < r_seq (bind_wire fresh value e)) rows) as Hall.
  { apply Forall_forall. intros x Hx. apply (Hlt x); [done|left]. }
  cbn [effect]. rewrite decide_True.
  2: { apply find_seq_nil. intros x Hx. eapply Forall_forall in Hall; [|exact Hx]. lia. }
  rewrite insert_row_last by done. unfold insert_entries in IH. rewrite IH; rewrite <- app_assoc; done.
Qed.

(** A journal entry that can travel: its table is replicated, its checksum its
    own, its batch named and its texts below 4 GiB. *)
Definition sendable (e : JournalEntry) : Prop :=
  storable e /\ is_table_replicated (table_name e) = true /\ entry_intact sha256 e /\ batch_id e <> [] /\
  valid_entry (wire_of e).

Lemma batch_of_journal d j after limit :
  healthy d -> represents d j -> 0 <= after < 2 ^ 63 -> 0 <= limit < 2 ^ 31 ->
  entries (build_batch after limit (Some d)) =
    wire_of <$> take (Z.to_nat limit) (Journal.entries_after after j) /\
  from_seq (build_batch after limit (Some d)) = after /\
  to_seq (build_batch after limit (Some d)) =
    foldl (fun m e => Z.max m (seq e)) after (take (Z.to_nat limit) (Journal.entries_after after j)).
Proof.
  intros (Hp & _ & Hr & _) [Hv Hst] Ha Hl. unfold build_batch. set (q := SelectAfter _ _). rewrite Hp. cbn [negb].
  destruct (sql_read q d) as [rows ok] eqn:E. pose proof (Hr q) as Hok. rewrite E in Hok. cbn in Hok. subst ok.
  apply read_prefix in E. subst rows q. cbn [fst answer entries from_seq to_seq]. unfold sql_limit.
  rewrite !sint_small by (done || lia). rewrite (proj2 (Z.ltb_ge _ _)) by lia.
  rewrite Hv, (filter_fmap_on _ _ (fun e => after < seq e)).
  2: { intros e He. eapply Forall_forall in Hst; [|exact He]. destruct Hst as (Hs & _).
       cbn. by rewrite (sint_small 64). }
  rewrite <- fmap_take. unfold Journal.entries_after.
  set (l := take _ (filter _ _)).
  assert (Forall storable l) as Hl' by by apply Forall_take, Forall_filter.
  assert (wire_of_row <$> (bind_entry <$> l) = wire_of <$> l) as ->.
  { rewrite <- list_fmap_compose. clear -Hl'. induction Hl' as [|e l He _ IH]; [done|].
    cbn [fmap list_fmap]. f_equal; [by apply wire_of_bind|exact IH]. }
  split; [done|]. split; [done|]. clear. generalize after. induction l as [|e l IH]; intros m; [done|].
  cbn [fmap list_fmap foldl]. apply IH.
Qed.

Lemma sendable_batch d j after limit :
  healthy d -> represents d j -> Forall sendable (entries_ j) -> 0 <= after < 2 ^ 63 -> 0 <= limit < 2 ^ 31 ->
  valid_batch (build_batch after limit (Some d)).
Proof.
  intros Hh Hrep Hsend Ha Hl. destruct (batch_of_journal d j after limit Hh Hrep Ha Hl) as (E1 & E2 & E3).
  unfold valid_batch. rewrite E1, E2, E3. set (l := take _ _).
  assert (Forall sendable l) as Hl' by by apply Forall_take, Forall_filter.
  split_and!.
  - split; lia.
  - assert (0 <= after < 2 ^ 64) as Hb by lia. clearbody l. clear -Hl' Hb. revert after Hb.
    induction Hl' as [|e l (He & _) _ IH]; intros m Hb; [done|]. cbn [foldl]. apply IH. destruct He as (He & _). lia.
  - unfold in_uint, size_of. rewrite length_fmap. subst l. rewrite length_take. lia.
  - apply Forall_fmap. eapply Forall_impl; [exact Hl'|]. intros e (_ & _ & _ & _ & He). exact He.
Qed.

(** The rows made of a journal's entries stand in number order. *)
Lemma sent_rows_sorted value l :
  StronglySorted seq_lt l -> Forall sendable l ->
  StronglySorted row_lt (bind_wire fresh value <$> (wire_of <$> l)).
Proof.
  intros Hsl Hl. rewrite <- list_fmap_compose. induction Hsl as [|e l Hsl IH He]; [constructor|].
  apply Forall_cons in Hl as [Hse Hl]. cbn [fmap list_fmap]. constructor; [by apply IH|]. apply Forall_fmap.
  apply Forall_forall. intros x Hx. eapply Forall_forall in He; [|exact Hx].
  eapply Forall_forall in Hl; [|exact Hx]. destruct Hse as ((Hs1 & _) & _), Hl as ((Hs2 & _) & _).
  unfold row_lt. cbn. by rewrite !(sint_small 64).
Qed.

(** Sent to an empty table they take their own numbers, and no other. *)
Lemma sent_batch_consistent value l :
  StronglySorted seq_lt l -> Forall sendable l ->
  insert_entries fresh value (wire_of <$> l) [] = bind_wire fresh value <$> (wire_of <$> l) /\
  Forall (acceptable sha256) (wire_of <$> l) /\ consistent fresh value (wire_of <$> l) [].
Proof.
  intros Hsl Hl. assert (insert_entries fresh value (wire_of <$> l) [] = bind_wire fresh value <$> (wire_of <$> l)) as Hins.
  { apply (insert_entries_append value (wire_of <$> l) []). by apply sent_rows_sorted. }
  split_and!; [done| |].
  { apply Forall_fmap. eapply Forall_impl; [exact Hl|]. intros e (_ & Ht & Hi & _). by split. }
  unfold consistent. rewrite Hins. apply Forall_forall. intros e He w Hw Hws.
  apply list_elem_of_fmap in He as (x & -> & Hx). rewrite <- list_fmap_compose in Hw.
  apply list_elem_of_fmap in Hw as (y & -> & Hy). cbn in Hws |- *.
  pose proof (proj1 (Forall_forall _ _) Hl x Hx) as ((Hsx & _) & _).
  pose proof (proj1 (Forall_forall _ _) Hl y Hy) as ((Hsy & Hrest) & _).
  rewrite !(sint_small 64) in Hws by done.
  assert (y = x) as -> by by apply (seq_unique l). tauto.
Qed.

Section send.
Variable LZ4_compressBound : Z -> Z.
Variable LZ4_compress_default : bytes -> Z -> Z -> Z * bytes.
Variable LZ4_decompress_safe : bytes -> Z -> Z -> Z * bytes.
Hypothesis compressBound_negative : forall n, n < 0 -> LZ4_compressBound n <= 0.
Hypothesis compress_decompress : forall src cap written dst,
  LZ4_compress_default src (size_of src) cap = (written, dst) -> 0 < written ->
  size_of dst = cap /\ written <= cap /\ written < 2 ^ 31 /\
  LZ4_decompress_safe (take (Z.to_nat written) dst) written (size_of src) = (size_of src, src).
Context (ok : D -> Prop) `{!Reliable ok}.

(** The whole path: the batch built from a journal, encoded, decoded at the
    other end and applied to an empty table is applied in full, and the table
    then holds the first [limit] entries behind [after], unchanged but for
    their [applied] mark. (C27) *)
Theorem journal_replicates d1 d2 j after limit value :
  healthy d1 -> represents d1 j -> journal_ok sha256 j -> Forall sendable (entries_ j) ->
  ok d2 -> snapshot d2 = None -> visible d2 = [] ->
  0 <= after < 2 ^ 63 -> 0 <= limit < 2 ^ 31 -> in_sint 32 value ->
  size_of (batch_bytes (build_batch after limit (Some d1))) < 2 ^ 32 ->
  exists batch d3,
    decode_journal_batch LZ4_decompress_safe
      (encode_journal_batch LZ4_compressBound LZ4_compress_default (build_batch after limit (Some d1))) =
        Some batch /\
    snd (apply_batch sha256 fresh batch value (Some d2)) = Some d3 /\
    success (fst (apply_batch sha256 fresh batch value (Some d2))) = true /\
    read_entry <$> visible d3 =
      (fun e => with_applied e value) <$> take (Z.to_nat limit) (Journal.entries_after after j).
Proof.
  intros Hh Hrep Hj Hsend Hok Hsnap Hempty Ha Hl Hval Hsize.
  exists (build_batch after limit (Some d1)).
  pose proof (sendable_batch d1 j after limit Hh Hrep Hsend Ha Hl) as Hvalid.
  destruct (batch_of_journal d1 j after limit Hh Hrep Ha Hl) as (E1 & _ & _).
  set (b := build_batch after limit (Some d1)) in *.
  set (l := take (Z.to_nat limit) (Journal.entries_after after j)) in *.
  assert (Forall sendable l) as Hl' by by apply Forall_take, Forall_filter.
  assert (StronglySorted seq_lt l) as Hsl.
  { eapply (StronglySorted_app_1_l _ l (drop (Z.to_nat limit) (Journal.entries_after after j))).
    unfold l. rewrite take_drop. by apply StronglySorted_filter, Hj. }
  destruct (sent_batch_consistent value l Hsl Hl') as (Hins & Hacc & Hcons).
  assert (success (fst (apply_batch sha256 fresh b value (Some d2))) = true) as Hsucc.
  { apply (apply_batch_total sha256 fresh ok); try done; rewrite ?E1, ?Hempty; done. }
  assert (size_of (entries b) < 2 ^ 64) as Hn.
  { rewrite E1. unfold size_of, l. rewrite length_fmap, length_take. lia. }
  destruct (apply_batch_outcome sha256 fresh sha256_size b value d2 Hsnap Hn) as (d3 & Ed3 & _ & Hcase).
  cbv zeta in Hcase. rewrite Hsucc in Hcase. destruct Hcase as (_ & Hv3 & _).
  exists d3. split_and!; try done.
  - by apply journal_batch_roundtrip.
  - rewrite Hv3, Hempty, E1, Hins, <- !list_fmap_compose. clear -Hl' Hval. induction Hl' as [|e l (He & _ & _ & Hb & _) _ IH]; [done|].
    cbn [fmap list_fmap]. f_equal; [by apply read_bind_wire|exact IH].
Qed.
End send.

(** A text with a NUL arrives whole, passes its checksum and is stored up to
    the NUL, so its row no longer matches its checksum: from then on reading
    the journal returns nothing at all, whatever else it holds. *)
Theorem nul_entry_blocks_reads env batch value d e d' after limit :
  snapshot d = None -> size_of (entries batch) < 2 ^ 64 ->
  success (fst (apply_batch sha256 fresh batch value (Some d))) = true ->
  snd (apply_batch sha256 fresh batch value (Some d)) = Some d' -> healthy d' ->
  entries batch = [e] -> find_seq (sint 64 (SyncProtocol.seq e)) (visible d) = [] ->
  row_checksum sha256 (bind_wire fresh value e) <> SyncProtocol.checksum e ->
  should_verify_checksum_on_read env = true ->
  0 <= after < 2 ^ 63 -> after < sint 64 (SyncProtocol.seq e) -> size_of (visible d') <= limit < 2 ^ 31 ->
  entries_after sha256 env after limit (Some d') = [].
Proof.
  intros Hs Hn Hsucc Ed' (Hp & _ & Hr & _) Hbe Hfree Hck Hver Ha Hafter Hlim.
  destruct (apply_batch_outcome sha256 fresh sha256_size batch value d Hs Hn) as (d1 & Ed1 & _ & Hcase).
  rewrite Ed' in Ed1. injection Ed1 as <-. cbv zeta in Hcase. rewrite Hsucc in Hcase.
  destruct Hcase as (Hacc & Hv & _). rewrite Hbe in Hv, Hacc. cbn [insert_entries foldl effect] in Hv.
  rewrite decide_True in Hv by done. apply Forall_cons in Hacc as [[_ Hok] _].
  unfold entries_after. set (q := SelectAfter _ _). rewrite Hp. cbn [negb].
  destruct (sql_read q d') as [rows ok] eqn:E. pose proof (Hr q) as Hdone. rewrite E in Hdone. cbn in Hdone. subst ok.
  apply read_prefix in E. subst rows q. cbn [fst answer]. unfold sql_limit.
  pose proof (size_of_nonneg (visible d')).
  rewrite !sint_small by (done || lia). rewrite (proj2 (Z.ltb_ge _ _)) by lia.
  set (l := filter _ (visible d')). assert (bind_wire fresh value e ∈ l) as Hin.
  { apply list_elem_of_filter. split; [exact Hafter|]. rewrite Hv, insert_row_perm. left. }
  rewrite take_ge.
  2: { pose proof (length_filter (fun r => after < r_seq r) (visible d')). fold l in H2. unfold size_of in *. lia. }
  assert (read_rows sha256 (should_verify_checksum_on_read env) l = None) as ->; [|done].
  rewrite Hver. clearbody l. clear -Hin Hck Hok. induction l as [|r l IH]; [by apply not_elem_of_nil in Hin|].
  cbn [read_rows andb]. apply elem_of_cons in Hin as [<-|Hin].
  - rewrite bool_decide_false; [done|]. cbn. unfold row_checksum in Hck. cbn in Hck.
    assert (cstr (SyncProtocol.checksum e) = SyncProtocol.checksum e) as -> by (rewrite Hok; apply hex_no_nul).
    exact Hck.
  - case_match; [done|]. by rewrite IH.
Qed.
End transfer.

(** ** Instances in memory *)

Definition toy_sha256 (x : bytes) : bytes := toy_hmac [] x.

Lemma toy_sha256_size x : size_of (toy_sha256 x) = 32.
Proof. apply toy_hmac_size. Qed.

Definition no_fresh (_ : Z) : bytes := $"fresh".

Definition toy_entry (n : Z) (new : bytes) : JournalEntry :=
  created toy_sha256 n (mkPending (mkHlc 10 1 7) ($"accounts") ($"1") ($"INSERT") [] new 1 ($"b1")) [].

Definition toy_batch (news : list bytes) : JournalBatchFrame :=
  mkBatch 0 (size_of news) (imap (fun i new => wire_of (toy_entry (1 + Z.of_nat i) new)) news).

Definition broken_disk : MemDb.t := MemDb.mk [] None 0 0 (fun q => match q with InsertOrIgnore r => r_seq r =? 2 | _ => false end) false.

Lemma apply_batch_atomic_witness :
  success (fst (apply_batch toy_sha256 no_fresh (toy_batch [$"a"; $"b"]) 2 (Some broken_disk))) = false /\
  exists d', snd (apply_batch toy_sha256 no_fresh (toy_batch [$"a"; $"b"]) 2 (Some broken_disk)) = Some d' /\
    visible d' = visible broken_disk.
Proof.
  split; [reflexivity|].
  destruct (@apply_batch_atomic MemDb.t MemDb.db MemDb.laws toy_sha256 no_fresh toy_sha256_size (toy_batch [$"a"; $"b"]) 2 broken_disk
    ltac:(reflexivity) ltac:(vm_compute; reflexivity)) as (d' & E & _ & H).
  exists d'. split; [exact E | exact H].
Defined.

Lemma apply_batch_complete_witness :
  success (fst (apply_batch toy_sha256 no_fresh (toy_batch [$"a"; $"b"]) 2 (Some MemDb.empty))) = true /\
  Forall (acceptable toy_sha256) (entries (toy_batch [$"a"; $"b"])).
Proof.
  split; [reflexivity|].
  apply (proj1 (@apply_batch_complete MemDb.t MemDb.db MemDb.laws toy_sha256 no_fresh toy_sha256_size MemDb.sound MemDb.sound_reliable
    (toy_batch [$"a"; $"b"]) 2 MemDb.empty ltac:(by split) ltac:(reflexivity) ltac:(vm_compute; reflexivity))).
  reflexivity.
Defined.

Definition sender_journal : Journal := mkJournal 3 [toy_entry 1 ($"a"); toy_entry 2 ($"b")].
Definition sender : MemDb.t := MemDb.mk (bind_entry <$> entries_ sender_journal) None 0 0 (fun _ => false) false.

Lemma journal_replicates_witness :
  exists batch d3,
    decode_journal_batch toy_decompress (encode_journal_batch toy_bound toy_compress (build_batch 0 10 (Some sender))) =
      Some batch /\
    snd (apply_batch toy_sha256 no_fresh batch 2 (Some MemDb.empty)) = Some d3 /\
    read_entry <$> visible d3 = (fun e => with_applied e 2) <$> entries_ sender_journal.
Proof.
  destruct (journal_replicates toy_sha256 no_fresh toy_sha256_size toy_bound toy_compress toy_decompress
    toy_bound_negative toy_compress_decompress MemDb.sound sender MemDb.empty sender_journal 0 10 2)
    as (batch & d3 & E & Ed & _ & Hr);
    [ apply mem_healthy
    | split; [reflexivity|]; repeat constructor; vm_compute; congruence
    | split_and!; repeat constructor; vm_compute; congruence
    | repeat constructor; try (vm_compute; congruence)
    | by split | reflexivity | reflexivity | lia | lia | done | vm_compute; reflexivity | ].
  exists batch, d3. split; [exact E|]. split; [exact Ed | exact Hr].
Defined.

Definition poisoned : MemDb.t :=
  match snd (apply_batch toy_sha256 no_fresh (toy_batch [$"a" ++ [Byte.x00] ++ $"b"]) 2 (Some MemDb.empty)) with
  | Some d => d
  | None => MemDb.empty
  end.

Lemma nul_entry_blocks_reads_witness :
  size_of (visible poisoned) = 1 /\
  entries_after toy_sha256 (fun _ => None) 0 10 (Some poisoned) = [].
Proof.
  split; [reflexivity|].
  apply (nul_entry_blocks_reads toy_sha256 no_fresh toy_sha256_size (fun _ => None)
    (toy_batch [$"a" ++ [Byte.x00] ++ $"b"]) 2 MemDb.empty (wire_of (toy_entry 1 ($"a" ++ [Byte.x00] ++ $"b"))));
    [reflexivity | vm_compute; reflexivity | reflexivity | reflexivity | apply mem_healthy | reflexivity
    | reflexivity | vm_compute; congruence | reflexivity | lia | vm_compute; reflexivity
    | vm_compute; split; congruence].
Defined.
