(* ===== verification/Double.v ===== *)
(** * Double: IEEE 754 binary64 as the sources compute with it

    [double] values are the binary64 floats of the standard library's
    executable specification (round to nearest, ties to even);
    src/native/core/time/include/time/ewma.h is built on them. *)

From S2P Require Import Prelude.
From Stdlib Require Export SpecFloat.

Abbreviation double := spec_float.

(** [static_cast<double>] of an integer. *)
Definition of_int (z : Z) : double := binary_normalize 53 1024 z 0 false.

Definition fadd : double -> double -> double := SFadd 53 1024.
Definition fsub : double -> double -> double := SFsub 53 1024.
Definition fmul : double -> double -> double := SFmul 53 1024.
Definition fdiv : double -> double -> double := SFdiv 53 1024.
Definition flt : double -> double -> bool := SFltb.
Definition fle : double -> double -> bool := SFleb.

(** [std::min(a, b)]: [b < a ? b : a]. *)
Definition fmin (a b : double) : double := if flt b a then b else a.

(** [static_cast<std::uint64_t>] of a double in range: truncation. *)
Definition trunc (x : double) : Z :=
  match x with
  | S754_finite s m e =>
      let v := if 0 <=? e then Z.pos m * 2 ^ e else Z.pos m / 2 ^ (- e) in
      if s then - v else v
  | _ => 0
  end.

(** Literals of the sources. *)
Definition f_zero : double := of_int 0.
Definition f_one : double := of_int 1.
(** 0.2 *)
Definition f_0_2 : double := S754_finite false 7205759403792794 (-55).
(** 1e-9 *)
Definition f_1em9 : double := S754_finite false 4835703278458517 (-82).

(** ** core/time/include/time/ewma.h, for [double] *)

Record Ewma := mkEwma { alpha_ : double; value_ : option double }.

Definition clamp_alpha (alpha : double) : double :=
  if fle alpha f_zero then f_zero else if fle f_one alpha then f_one else alpha.

Definition make_ewma (alpha : double) (seed : option double) : Ewma := mkEwma (clamp_alpha alpha) seed.

(** The returned value, and the object afterwards. *)
Definition update (sample : double) (e : Ewma) : double * Ewma :=
  match value_ e with
  | None => (sample, mkEwma (alpha_ e) (Some sample))
  | Some v =>
      let blended := fadd (fmul (alpha_ e) sample) (fmul (fsub f_one (alpha_ e)) v) in
      (blended, mkEwma (alpha_ e) (Some blended))
  end.

(** [std::max(a, b)]: [a < b ? b : a]. *)
Definition fmax (a b : double) : double := if flt a b then b else a.

Definition infinity : double := S754_infinity false.
Definition neg_infinity : double := S754_infinity true.

(** ** core/math/include/math/clamp.h, for [double] *)

Definition clamp_non_negative (value : double) : double := if flt value f_zero then f_zero else value.

Definition clamp_unit (value : double) : double :=
  if flt value f_zero then f_zero else if flt f_one value then f_one else value.

(** ** The order of [double]

    A number's place in the order: its class, then exponent and significand;
    not-a-number has none. *)

Definition rank (x : double) : option (Z * Z * Z) :=
  match x with
  | S754_nan => None
  | S754_infinity s => Some (if s then -2 else 2, 0, 0)
  | S754_zero _ => Some (0, 0, 0)
  | S754_finite true m e => Some (-1, - e, - Z.pos m)
  | S754_finite false m e => Some (1, e, Z.pos m)
  end.

Definition rank_lt (a b : Z * Z * Z) : Prop :=
  a.1.1 < b.1.1 \/ (a.1.1 = b.1.1 /\ (a.1.2 < b.1.2 \/ (a.1.2 = b.1.2 /\ a.2 < b.2))).

Lemma flt_rank x y :
  flt x y = true <->
  match rank x, rank y with Some a, Some b => rank_lt a b | _, _ => False end.
Proof.
  unfold flt, SFltb, SFcompare, rank_lt.
  destruct x as [?|[]| |[] m1 e1], y as [?|[]| |[] m2 e2]; simpl; try (split; [done|lia]); try (split; [lia|done]).
  - destruct (Z.compare_spec e1 e2); simpl; [|split; [done|lia]..|]; [|split; [lia|done]].
    change (Pos.compare_cont Eq m1 m2) with (Pos.compare m1 m2).
    destruct (Pos.compare_spec m1 m2); simpl; split; done || lia.
  - destruct (Z.compare_spec e1 e2); simpl; [|split; [lia|done]..|]; [|split; [done|lia]].
    change (Pos.compare_cont Eq m1 m2) with (Pos.compare m1 m2).
    destruct (Pos.compare_spec m1 m2); simpl; split; done || lia.
Qed.

Lemma flt_trans x y z : flt x y = true -> flt y z = true -> flt x z = true.
Proof.
  rewrite !flt_rank. unfold rank_lt. destruct (rank x), (rank y), (rank z); try done. lia.
Qed.

Lemma flt_irrefl x : flt x x = false.
Proof. apply not_true_iff_false. rewrite flt_rank. unfold rank_lt. destruct (rank x); lia. Qed.

(** Totality, away from not-a-number. *)
Lemma flt_connected x y :
  x <> S754_nan -> y <> S754_nan -> flt x y = false -> flt y x = true \/ rank x = rank y.
Proof.
  intros Hx Hy H. apply not_true_iff_false in H. rewrite flt_rank in H |- *. unfold rank_lt in *.
  destruct (rank x) as [[[a b] c]|] eqn:Ex; [|by destruct x as [| | |[]]].
  destruct (rank y) as [[[a' b'] c']|] eqn:Ey; [|by destruct y as [| | |[]]]. simpl in *.
  destruct (decide ((a, b, c) = (a', b', c'))) as [->|Hne]; [by right|left].
  destruct (Z.lt_trichotomy a a') as [|[->|]], (Z.lt_trichotomy b b') as [|[->|]],
    (Z.lt_trichotomy c c') as [|[->|]]; try done; lia.
Qed.
