(* ===== verification/SyncEngine.v ===== *)
(** * SyncEngine: the guarded path of a wire batch

    src/native/sync/include/sync_engine.h and src/native/sync/src/sync_engine.cpp:
    the ingress limits, the two in-flight guards, the per-peer rate limit, the
    per-peer telemetry and [SyncEngine::apply_wire_batch].  The process-wide
    state (atomics, mutex-protected maps) is one record; each locked region or
    atomic operation is one function on it.  Clock readings are arguments.
    [std::strtod] is a parameter. *)

From S2P Require Import Prelude Codec Text Double Env Hlc Conflict Checksum SyncProtocol Journal JournalDb PersistentJournal ApplyBatch.

(** ** Limits *)

Record IngressLimits := mkIngressLimits {
  max_wire_batch_bytes : Z;
  max_wire_batch_entries : Z;
  max_inflight_wire_batches : Z;
  max_inflight_wire_bytes : Z;
  max_inflight_wire_bytes_per_peer : Z;
  max_inflight_wire_batches_per_peer : Z;
  peer_rate_limit_entries_per_second : double;
  peer_rate_limit_burst_entries : double
}.

Definition kDefaultMaxWireBatchBytes : Z := 4 * 1024 * 1024.
Definition kDefaultMaxWireBatchEntries : Z := 5000.
Definition kDefaultMaxInflightWireBatches : Z := 8.
Definition kDefaultMaxInflightWireBytes : Z := 16 * 1024 * 1024.
Definition kDefaultMaxInflightWireBytesPerPeer : Z := 8 * 1024 * 1024.
Definition kDefaultMaxInflightWireBatchesPerPeer : Z := 4.
Definition kDefaultPeerRateLimitEntriesPerSecond : double := of_int 2000.
Definition kDefaultPeerRateLimitBurstEntries : double := of_int 4000.

Section limits.
(** [std::strtod(raw, &end)]: the value and what stands at [end], [None] when
    nothing was converted. *)
Variable strtod : bytes -> option (double * bytes).

Definition parse_env_double (env : environment) (name : bytes) : option double :=
  match getenv_nonempty env name with
  | Some raw =>
      match strtod raw with
      | Some (parsed, rest) => if size_of rest =? 0 then Some parsed else None
      | None => None
      end
  | None => None
  end.

Definition read_env_double (env : environment) (name : bytes) (fallback minimum : double) : double :=
  match parse_env_double env name with
  | Some parsed => if flt parsed minimum then fallback else parsed
  | None => fallback
  end.

Definition read_ingress_limits (env : environment) : IngressLimits :=
  mkIngressLimits
    (read_env_size_t env ($"TIGHTROPE_SYNC_MAX_WIRE_BATCH_BYTES") kDefaultMaxWireBatchBytes 1)
    (read_env_size_t env ($"TIGHTROPE_SYNC_MAX_WIRE_BATCH_ENTRIES") kDefaultMaxWireBatchEntries 1)
    (read_env_size_t env ($"TIGHTROPE_SYNC_MAX_INFLIGHT_WIRE_BATCHES") kDefaultMaxInflightWireBatches 1)
    (read_env_size_t env ($"TIGHTROPE_SYNC_MAX_INFLIGHT_WIRE_BYTES") kDefaultMaxInflightWireBytes 1)
    (read_env_size_t env ($"TIGHTROPE_SYNC_MAX_INFLIGHT_WIRE_BYTES_PER_PEER") kDefaultMaxInflightWireBytesPerPeer 1)
    (read_env_size_t env ($"TIGHTROPE_SYNC_MAX_INFLIGHT_WIRE_BATCHES_PER_PEER")
       kDefaultMaxInflightWireBatchesPerPeer 1)
    (read_env_double env ($"TIGHTROPE_SYNC_PEER_RATE_LIMIT_ENTRIES_PER_SECOND")
       kDefaultPeerRateLimitEntriesPerSecond f_zero)
    (read_env_double env ($"TIGHTROPE_SYNC_PEER_RATE_LIMIT_BURST_ENTRIES")
       kDefaultPeerRateLimitBurstEntries f_one).
End limits.

(** ** The process-wide state *)

Record InflightWirePeerState := mkPeerState {
  batches : Z;
  bytes_ : Z;
  peak_batches : Z;
  peak_bytes : Z
}.

Record PeerRateBucket := mkBucket { tokens : double; last_refill : Z; initialized : bool }.

Inductive PeerIngressRejectionReason :=
  | Unknown
  | BatchTooLarge
  | Backpressure
  | InflightWireBudget
  | HandshakeAuth
  | HandshakeSchema
  | InvalidWireBatch
  | EntryLimit
  | RateLimit
  | ApplyBatchFailed
  | IngressProtocol.

Record PeerIngressTelemetry := mkTelemetry {
  t_site_id : Z;
  t_last_seen_unix_ms : Z;
  t_last_reported_seq_from_peer : Z;
  t_last_applied_up_to_seq : Z;
  t_accepted_batches : Z;
  t_rejected_batches : Z;
  t_accepted_wire_bytes : Z;
  t_rejected_wire_bytes : Z;
  (** [rejected_batch_too_large] ... [rejected_ingress_protocol], by reason *)
  t_rejected_by : PeerIngressRejectionReason -> Z;
  t_last_wire_batch_bytes : Z;
  t_total_apply_duration_ms : Z;
  t_last_apply_duration_ms : Z;
  t_max_apply_duration_ms : Z;
  t_apply_duration_ewma_ms : double;
  t_apply_duration_samples : Z;
  t_total_replication_latency_ms : Z;
  t_last_replication_latency_ms : Z;
  t_max_replication_latency_ms : Z;
  t_replication_latency_ewma_ms : double;
  t_replication_latency_samples : Z;
  t_inflight_wire_batches : Z;
  t_inflight_wire_batches_peak : Z;
  t_inflight_wire_bytes : Z;
  t_inflight_wire_bytes_peak : Z;
  t_last_rejection_at_unix_ms : Z;
  t_last_rejection_reason : bytes;
  t_last_rejection_error : bytes;
  t_consecutive_failures : Z
}.

Definition empty_telemetry : PeerIngressTelemetry :=
  mkTelemetry 0 0 0 0 0 0 0 0 (fun _ => 0) 0 0 0 0 f_zero 0 0 0 0 f_zero 0 0 0 0 0 0 [] [] 0.

Record EngineState := mkEngine {
  inflight_wire_batches : Z;
  inflight_wire_total_bytes : Z;
  inflight_wire_peer_state : gmap Z InflightWirePeerState;
  peer_rate_limit_buckets : gmap Z PeerRateBucket;
  peer_ingress_telemetry_map : gmap Z PeerIngressTelemetry
}.

Definition initial_engine : EngineState := mkEngine 0 0 ∅ ∅ ∅.

Definition set_inflight (s : EngineState) (count total : Z) (peers : gmap Z InflightWirePeerState) : EngineState :=
  mkEngine count total peers (peer_rate_limit_buckets s) (peer_ingress_telemetry_map s).

Definition set_buckets (s : EngineState) (buckets : gmap Z PeerRateBucket) : EngineState :=
  mkEngine (inflight_wire_batches s) (inflight_wire_total_bytes s) (inflight_wire_peer_state s) buckets
    (peer_ingress_telemetry_map s).

Definition set_telemetry (s : EngineState) (t : gmap Z PeerIngressTelemetry) : EngineState :=
  mkEngine (inflight_wire_batches s) (inflight_wire_total_bytes s) (inflight_wire_peer_state s)
    (peer_rate_limit_buckets s) t.

(** ** In-flight guards *)

(** [InflightBatchGuard]: the compare-exchange loop ends in an increment below
    the limit or sees the limit reached; its destructor gives the slot back. *)
Definition acquire_batch_slot (limit : Z) (s : EngineState) : bool * EngineState :=
  if inflight_wire_batches s <? limit then
    (true, set_inflight s (u64 (inflight_wire_batches s + 1)) (inflight_wire_total_bytes s)
             (inflight_wire_peer_state s))
  else (false, s).

Definition release_batch_slot (s : EngineState) : EngineState :=
  set_inflight s (u64 (inflight_wire_batches s - 1)) (inflight_wire_total_bytes s) (inflight_wire_peer_state s).

Definition no_peer_state : InflightWirePeerState := mkPeerState 0 0 0 0.

(** [InflightWireBudgetGuard]: [None] when acquired, else the error.  Looking the
    peer up with [operator[]] creates its record either way. *)
Definition acquire_wire_budget (peer_site_id wire_bytes : Z) (limits : IngressLimits) (s : EngineState) :
    option bytes * EngineState :=
  let total := inflight_wire_total_bytes s in
  let peer := default no_peer_state (inflight_wire_peer_state s !! peer_site_id) in
  let touched := set_inflight s (inflight_wire_batches s) total
                   (<[peer_site_id := peer]> (inflight_wire_peer_state s)) in
  if (max_inflight_wire_bytes limits <? wire_bytes) ||
     (u64 (max_inflight_wire_bytes limits - wire_bytes) <? total) then
    (Some ($"in-flight wire bytes budget exceeded (incoming=" ++ to_string wire_bytes ++ $", max=" ++
           to_string (max_inflight_wire_bytes limits) ++ $")"), touched)
  else if max_inflight_wire_batches_per_peer limits <=? batches peer then
    (Some ($"peer " ++ to_string peer_site_id ++ $" exceeds in-flight batch budget (max=" ++
           to_string (max_inflight_wire_batches_per_peer limits) ++ $")"), touched)
  else if (max_inflight_wire_bytes_per_peer limits <? wire_bytes) ||
          (u64 (max_inflight_wire_bytes_per_peer limits - wire_bytes) <? bytes_ peer) then
    (Some ($"peer " ++ to_string peer_site_id ++ $" in-flight wire bytes budget exceeded (incoming=" ++
           to_string wire_bytes ++ $", max=" ++ to_string (max_inflight_wire_bytes_per_peer limits) ++ $")"),
     touched)
  else
    let batches' := u64 (batches peer + 1) in
    let bytes' := u64 (bytes_ peer + wire_bytes) in
    (None, set_inflight s (inflight_wire_batches s) (u64 (total + wire_bytes))
             (<[peer_site_id := mkPeerState batches' bytes' (Z.max (peak_batches peer) batches')
                                  (Z.max (peak_bytes peer) bytes')]> (inflight_wire_peer_state s))).

Definition release_wire_budget (peer_site_id wire_bytes : Z) (s : EngineState) : EngineState :=
  let total := inflight_wire_total_bytes s in
  let total' := if wire_bytes <=? total then total - wire_bytes else 0 in
  match inflight_wire_peer_state s !! peer_site_id with
  | None => set_inflight s (inflight_wire_batches s) total' (inflight_wire_peer_state s)
  | Some peer =>
      set_inflight s (inflight_wire_batches s) total'
        (<[peer_site_id :=
             mkPeerState (if 0 <? batches peer then batches peer - 1 else batches peer)
               (if wire_bytes <=? bytes_ peer then bytes_ peer - wire_bytes else 0)
               (peak_batches peer) (peak_bytes peer)]> (inflight_wire_peer_state s))
  end.

(** ** Rate limit *)

(** [now] in nanoseconds of the steady clock; [None] when the tokens were taken. *)
Definition consume_peer_rate_limit_tokens (peer_site_id entry_count : Z) (limits : IngressLimits) (now : Z)
    (s : EngineState) : option bytes * EngineState :=
  if (entry_count =? 0) || fle (peer_rate_limit_entries_per_second limits) f_zero then (None, s)
  else
    let burst := peer_rate_limit_burst_entries limits in
    let requested := of_int entry_count in
    if flt burst requested then
      (Some ($"peer " ++ to_string peer_site_id ++ $" batch entries " ++ to_string entry_count ++
             $" exceed rate-limit burst " ++ to_string (trunc burst)), s)
    else
      let bucket := default (mkBucket f_zero 0 false) (peer_rate_limit_buckets s !! peer_site_id) in
      let bucket :=
        if negb (initialized bucket) then mkBucket burst now true
        else
          let elapsed_seconds := fdiv (of_int (now - last_refill bucket)) (of_int 1000000000) in
          if flt f_zero elapsed_seconds then
            mkBucket (fmin burst (fadd (tokens bucket)
                        (fmul elapsed_seconds (peer_rate_limit_entries_per_second limits)))) now true
          else bucket in
      let available := fmin (tokens bucket) burst in
      let save t := set_buckets s
        (<[peer_site_id := mkBucket t (last_refill bucket) (initialized bucket)]> (peer_rate_limit_buckets s)) in
      if flt (fadd available f_1em9) requested then
        (Some ($"peer " ++ to_string peer_site_id ++ $" rate limit exceeded: requested=" ++
               to_string entry_count ++ $" available=" ++ to_string (trunc available)), save available)
      else (None, save (fsub available requested)).

(** ** Telemetry *)

Definition max_u64 : Z := 2 ^ 64 - 1.

Definition saturating_add_u64 (l r : Z) : Z := if max_u64 - l <? r then max_u64 else l + r.

Definition now_unix_ms (now : Z) : Z := if 0 <? now then u64 now else 0.

(** Nanoseconds to whole milliseconds, towards zero, never negative. *)
Definition elapsed_ms (started_at now : Z) : Z := Z.max 0 (Z.quot (now - started_at) 1000000).

Definition batch_replication_latency_ms (batch : JournalBatchFrame) (observed_at_unix_ms : Z) : option Z :=
  match entries batch with
  | [] => None
  | es =>
      Some (foldl (fun m e =>
              let w := SyncProtocol.hlc_wall e in
              Z.max m (if w <? observed_at_unix_ms then observed_at_unix_ms - w else 0)) 0 es)
  end.

Definition rejection_reason_label (reason : PeerIngressRejectionReason) : bytes :=
  match reason with
  | BatchTooLarge => $"batch_too_large"
  | Backpressure => $"backpressure"
  | InflightWireBudget => $"inflight_wire_budget"
  | HandshakeAuth => $"handshake_auth"
  | HandshakeSchema => $"handshake_schema"
  | InvalidWireBatch => $"invalid_wire_batch"
  | EntryLimit => $"entry_limit"
  | RateLimit => $"rate_limit"
  | ApplyBatchFailed => $"apply_batch"
  | IngressProtocol => $"ingress_protocol"
  | Unknown => $"unknown"
  end.

#[global] Instance reason_eq_dec : EqDecision PeerIngressRejectionReason.
Proof. solve_decision. Defined.

(** The counter of the reason, incremented; [Unknown] has none. *)
Definition note_rejection_reason (counts : PeerIngressRejectionReason -> Z) (reason : PeerIngressRejectionReason) :
    PeerIngressRejectionReason -> Z :=
  match reason with
  | Unknown => counts
  | _ => fun r => if decide (r = reason) then u64 (counts r + 1) else counts r
  end.

Definition ewma_step (samples : Z) (current sample : double) : double :=
  fst (update sample (make_ewma f_0_2 (if 0 <? samples then Some current else None))).

Definition next_sample (samples : Z) : Z := if samples <? max_u64 then samples + 1 else samples.

Definition record_peer_ingress_result (peer_site_id last_recv_seq last_applied : Z) (ok : bool) (wire_bytes : Z)
    (reason : PeerIngressRejectionReason) (message : bytes) (apply_duration_ms : Z) (latency : option Z)
    (now : Z) (s : EngineState) : EngineState :=
  if peer_site_id =? 0 then s
  else
    let now_ms := now_unix_ms now in
    let t := default empty_telemetry (peer_ingress_telemetry_map s !! peer_site_id) in
    let t' :=
      mkTelemetry peer_site_id now_ms
        (Z.max (t_last_reported_seq_from_peer t) last_recv_seq)
        (Z.max (t_last_applied_up_to_seq t) last_applied)
        (if ok then u64 (t_accepted_batches t + 1) else t_accepted_batches t)
        (if ok then t_rejected_batches t else u64 (t_rejected_batches t + 1))
        (if ok then saturating_add_u64 (t_accepted_wire_bytes t) wire_bytes else t_accepted_wire_bytes t)
        (if ok then t_rejected_wire_bytes t else saturating_add_u64 (t_rejected_wire_bytes t) wire_bytes)
        (if ok then t_rejected_by t else note_rejection_reason (t_rejected_by t) reason)
        wire_bytes
        (saturating_add_u64 (t_total_apply_duration_ms t) apply_duration_ms)
        apply_duration_ms
        (Z.max (t_max_apply_duration_ms t) apply_duration_ms)
        (ewma_step (t_apply_duration_samples t) (t_apply_duration_ewma_ms t) (of_int apply_duration_ms))
        (next_sample (t_apply_duration_samples t))
        (match latency with
         | Some l => saturating_add_u64 (t_total_replication_latency_ms t) l
         | None => t_total_replication_latency_ms t end)
        (default (t_last_replication_latency_ms t) latency)
        (match latency with
         | Some l => Z.max (t_max_replication_latency_ms t) l
         | None => t_max_replication_latency_ms t end)
        (match latency with
         | Some l => ewma_step (t_replication_latency_samples t) (t_replication_latency_ewma_ms t) (of_int l)
         | None => t_replication_latency_ewma_ms t end)
        (match latency with
         | Some _ => next_sample (t_replication_latency_samples t)
         | None => t_replication_latency_samples t end)
        (t_inflight_wire_batches t) (t_inflight_wire_batches_peak t)
        (t_inflight_wire_bytes t) (t_inflight_wire_bytes_peak t)
        (if ok then t_last_rejection_at_unix_ms t else now_ms)
        (if ok then t_last_rejection_reason t else rejection_reason_label reason)
        (if ok || (size_of message =? 0) then t_last_rejection_error t else message)
        (if ok then 0 else u64 (t_consecutive_failures t + 1)) in
    set_telemetry s (<[peer_site_id := t']> (peer_ingress_telemetry_map s)).

Definition record_peer_ingress_rejection (peer_site_id wire_bytes : Z) (reason : PeerIngressRejectionReason)
    (message : bytes) (now : Z) (s : EngineState) : EngineState :=
  record_peer_ingress_result peer_site_id 0 0 false wire_bytes reason message 0 None now s.

Definition peer_ingress_telemetry (peer_site_id : Z) (s : EngineState) : option PeerIngressTelemetry :=
  if peer_site_id =? 0 then None
  else
    match inflight_wire_peer_state s !! peer_site_id with
    | None => peer_ingress_telemetry_map s !! peer_site_id
    | Some p =>
        let t := match peer_ingress_telemetry_map s !! peer_site_id with
                 | Some t => t
                 | None => mkTelemetry peer_site_id 0 0 0 0 0 0 0 (fun _ => 0) 0 0 0 0 f_zero 0 0 0 0 f_zero 0
                             0 0 0 0 0 [] [] 0
                 end in
        Some (mkTelemetry (t_site_id t) (t_last_seen_unix_ms t) (t_last_reported_seq_from_peer t)
          (t_last_applied_up_to_seq t) (t_accepted_batches t) (t_rejected_batches t) (t_accepted_wire_bytes t)
          (t_rejected_wire_bytes t) (t_rejected_by t) (t_last_wire_batch_bytes t) (t_total_apply_duration_ms t)
          (t_last_apply_duration_ms t) (t_max_apply_duration_ms t) (t_apply_duration_ewma_ms t)
          (t_apply_duration_samples t) (t_total_replication_latency_ms t) (t_last_replication_latency_ms t)
          (t_max_replication_latency_ms t) (t_replication_latency_ewma_ms t) (t_replication_latency_samples t)
          (batches p) (peak_batches p) (bytes_ p) (peak_bytes p) (t_last_rejection_at_unix_ms t)
          (t_last_rejection_reason t) (t_last_rejection_error t) (t_consecutive_failures t))
    end.

Definition reset_peer_ingress_telemetry_for_testing (_ : EngineState) : EngineState := initial_engine.

(** ** [apply_wire_batch] *)

Record ApplyWireBatchRequest := mkRequest {
  remote_handshake : HandshakeFrame;
  cluster_shared_secret : bytes;
  require_handshake_auth : bool;
  local_schema_version : Z;
  allow_schema_downgrade : bool;
  min_supported_schema_version : Z;
  applied_value : Z
}.

(** The clock readings of one call: steady clock at entry, at the outcome and
    in the rate limiter (nanoseconds), system clock when the batch is decoded
    and when the outcome is recorded (milliseconds). *)
Record Clocks := mkClocks {
  started_at : Z;
  finished_at : Z;
  rate_limit_at : Z;
  observed_at : Z;
  recorded_at : Z
}.

Section apply_wire.
Context {D : Type} `{JournalDb D}.
Variable sha256 : bytes -> bytes.
Variable fresh : Z -> bytes.
Variable hmac : bytes -> bytes -> bytes.
Variable verify_32 : bytes -> bytes -> Z.
Variable LZ4_decompress_safe : bytes -> Z -> Z -> Z * bytes.

(** The lambda [record_outcome]. *)
Definition record_outcome (request : ApplyWireBatchRequest) (wire_size : Z) (clocks : Clocks) (latency : option Z)
    (applied_up_to : Z) (ok : bool) (reason : PeerIngressRejectionReason) (message : bytes) (s : EngineState) :
    EngineState :=
  record_peer_ingress_result (site_id (remote_handshake request))
    (last_recv_seq_from_peer (remote_handshake request)) applied_up_to ok wire_size reason message
    (elapsed_ms (started_at clocks) (finished_at clocks)) latency (recorded_at clocks) s.

(** The part that runs with both guards held; the guards are released by the
    caller, after the outcome is recorded. *)
Definition apply_guarded (limits : IngressLimits) (request : ApplyWireBatchRequest) (wire : bytes) (clocks : Clocks)
    (s : EngineState) (d : D) : ApplyBatchResult * EngineState * option D :=
  let record := record_outcome request (size_of wire) clocks in
  let auth := validate_handshake_auth hmac verify_32 (remote_handshake request) (cluster_shared_secret request)
                (require_handshake_auth request) in
  if negb (auth_accepted auth) then
    let message := $"handshake rejected: " ++ auth_error auth in
    (fail no_result message, record None 0 false HandshakeAuth message s, Some d)
  else
    let schema := validate_handshake_schema_version (remote_handshake request) (local_schema_version request)
                    (allow_schema_downgrade request) (min_supported_schema_version request) in
    if negb (accepted schema) then
      let message := $"handshake rejected: " ++ error schema in
      (fail no_result message, record None 0 false HandshakeSchema message s, Some d)
    else
      match decode_journal_batch LZ4_decompress_safe wire with
      | None =>
          let message := $"invalid wire journal batch" in
          (fail no_result message, record None 0 false InvalidWireBatch message s, Some d)
      | Some batch =>
          let latency := batch_replication_latency_ms batch (now_unix_ms (observed_at clocks)) in
          let count := size_of (entries batch) in
          if max_wire_batch_entries limits <? count then
            let message := $"wire batch entries " ++ to_string count ++ $" exceed max " ++
                           to_string (max_wire_batch_entries limits) in
            (fail no_result message, record latency 0 false EntryLimit message s, Some d)
          else
            match consume_peer_rate_limit_tokens (site_id (remote_handshake request)) count limits
                    (rate_limit_at clocks) s with
            | (Some e, s) =>
                let message := $"wire batch rejected: " ++ e in
                (fail no_result message, record latency 0 false RateLimit message s, Some d)
            | (None, s) =>
                let (r, db) := apply_batch sha256 fresh batch (applied_value request) (Some d) in
                (r, record latency (applied_up_to_seq r) (success r)
                      (if success r then Unknown else ApplyBatchFailed) (result_error r) s, db)
            end
      end.

Definition apply_wire_batch (limits : IngressLimits) (request : ApplyWireBatchRequest) (wire : bytes)
    (clocks : Clocks) (s : EngineState) (db : option D) : ApplyBatchResult * EngineState * option D :=
  let record := record_outcome request (size_of wire) clocks in
  match db with
  | None =>
      let message := $"db is null" in
      (fail no_result message, record None 0 false Unknown message s, None)
  | Some d =>
      if max_wire_batch_bytes limits <? size_of wire then
        let message := $"wire batch size " ++ to_string (size_of wire) ++ $" exceeds max " ++
                       to_string (max_wire_batch_bytes limits) in
        (fail no_result message, record None 0 false BatchTooLarge message s, Some d)
      else
        let (held, s) := acquire_batch_slot (max_inflight_wire_batches limits) s in
        if negb held then
          let message := $"wire batch backpressure: too many in-flight batches (max=" ++
                         to_string (max_inflight_wire_batches limits) ++ $")" in
          (fail no_result message, record None 0 false Backpressure message s, Some d)
        else
          let peer := site_id (remote_handshake request) in
          match acquire_wire_budget peer (size_of wire) limits s with
          | (Some e, s) =>
              let message := $"wire batch backpressure: " ++ e in
              (fail no_result message, release_batch_slot (record None 0 false InflightWireBudget message s), Some d)
          | (None, s) =>
              let '(r, s, db) := apply_guarded limits request wire clocks s d in
              (r, release_batch_slot (release_wire_budget peer (size_of wire) s), db)
          end
  end.
End apply_wire.

(** ** Concurrent calls and the in-flight budgets

    Worker threads run [apply_wire_batch] side by side; every guard operation
    is atomic (a compare-exchange or a locked region), so a run is a sequence of
    such steps.  A worker holds nothing, a batch slot, or a slot and a budget. *)

Inductive worker := Idle | HoldsSlot | HoldsBudget (peer wire_bytes : Z).

Inductive guard_step (limits : IngressLimits) : EngineState * list worker -> EngineState * list worker -> Prop :=
  | StepSlot s ws i ok s' :
      ws !! i = Some Idle -> acquire_batch_slot (max_inflight_wire_batches limits) s = (ok, s') ->
      guard_step limits (s, ws) (s', <[i := if ok then HoldsSlot else Idle]> ws)
  | StepBudget s ws i peer n result s' :
      ws !! i = Some HoldsSlot -> 0 <= n -> acquire_wire_budget peer n limits s = (result, s') ->
      guard_step limits (s, ws)
        (s', <[i := match result with None => HoldsBudget peer n | Some _ => HoldsSlot end]> ws)
  | StepReleaseBudget s ws i peer n :
      ws !! i = Some (HoldsBudget peer n) ->
      guard_step limits (s, ws) (release_wire_budget peer n s, <[i := HoldsSlot]> ws)
  | StepReleaseSlot s ws i :
      ws !! i = Some HoldsSlot ->
      guard_step limits (s, ws) (release_batch_slot s, <[i := Idle]> ws)
  (** rate limiter and telemetry *)
  | StepOther s ws buckets telemetry :
      guard_step limits (s, ws) (set_telemetry (set_buckets s buckets) telemetry, ws)
  (** a thread starts *)
  | StepSpawn s ws : guard_step limits (s, ws) (s, ws ++ [Idle]).

Definition slots_of (w : worker) : Z := match w with Idle => 0 | _ => 1 end.
Definition bytes_of (w : worker) : Z := match w with HoldsBudget _ n => n | _ => 0 end.
Definition peer_batches_of (p : Z) (w : worker) : Z :=
  match w with HoldsBudget q _ => if q =? p then 1 else 0 | _ => 0 end.
Definition peer_bytes_of (p : Z) (w : worker) : Z :=
  match w with HoldsBudget q n => if q =? p then n else 0 | _ => 0 end.

Definition total (f : worker -> Z) (ws : list worker) : Z := foldr Z.add 0 (f <$> ws).

Lemma total_update f ws i w w' :
  ws !! i = Some w -> total f (<[i := w']> ws) = total f ws - f w + f w'.
Proof.
  revert i. induction ws as [|x ws IH]; intros [|i] Hi; simplify_eq/=; unfold total in *; cbn [fmap list_fmap foldr].
  - lia.
  - rewrite (IH i Hi). lia.
Qed.

Lemma total_snoc f ws w : total f (ws ++ [w]) = total f ws + f w.
Proof. unfold total. rewrite fmap_app, foldr_app. cbn. induction (f <$> ws) as [|x l IH]; cbn; lia. Qed.

Lemma total_nonneg f (ws : list worker) : (forall w, w ∈ ws -> 0 <= f w) -> 0 <= total f ws.
Proof.
  intros Hf. induction ws as [|w ws IH]; [done|]. unfold total in *. cbn [fmap list_fmap foldr].
  pose proof (Hf w ltac:(left)). assert (0 <= foldr Z.add 0 (f <$> ws)) by (apply IH; intros; apply Hf; by right).
  lia.
Qed.

Lemma total_at_least f (ws : list worker) (i : nat) w : (forall w, w ∈ ws -> 0 <= f w) -> ws !! i = Some w -> f w <= total f ws.
Proof.
  intros Hf. revert i. induction ws as [|x ws IH]; intros [|i] Hi; simplify_eq/=; unfold total in *;
    cbn [fmap list_fmap foldr].
  - pose proof (total_nonneg f ws ltac:(intros; apply Hf; by right)) as Hn. unfold total in Hn. lia.
  - pose proof (IH ltac:(intros; apply Hf; by right) i Hi). pose proof (Hf x ltac:(left)). lia.
Qed.

Definition valid_ingress_limits (l : IngressLimits) : Prop :=
  in_uint 64 (max_inflight_wire_batches l) /\ in_uint 64 (max_inflight_wire_bytes l) /\
  in_uint 64 (max_inflight_wire_bytes_per_peer l) /\ in_uint 64 (max_inflight_wire_batches_per_peer l).

(** The books balance: every counter is what the workers hold, within limits. *)
Definition balanced (limits : IngressLimits) (c : EngineState * list worker) : Prop :=
  let '(s, ws) := c in
  (forall w, w ∈ ws -> 0 <= bytes_of w) /\
  inflight_wire_batches s = total slots_of ws /\
  total slots_of ws <= max_inflight_wire_batches limits /\
  inflight_wire_total_bytes s = total bytes_of ws /\
  total bytes_of ws <= max_inflight_wire_bytes limits /\
  forall p, let st := default no_peer_state (inflight_wire_peer_state s !! p) in
    batches st = total (peer_batches_of p) ws /\ bytes_ st = total (peer_bytes_of p) ws /\
    total (peer_batches_of p) ws <= max_inflight_wire_batches_per_peer limits /\
    total (peer_bytes_of p) ws <= max_inflight_wire_bytes_per_peer limits.

Lemma bytes_of_nonneg_update (ws : list worker) (i : nat) w :
  (forall w, w ∈ ws -> 0 <= bytes_of w) -> 0 <= bytes_of w -> forall x, x ∈ <[i := w]> ws -> 0 <= bytes_of x.
Proof.
  intros Hws Hw x Hx. apply list_elem_of_lookup in Hx as (k & Hk).
  destruct (decide (i = k)) as [->|Hne].
  - destruct (decide (k < length ws)%nat).
    + rewrite list_lookup_insert_eq in Hk by done. by simplify_eq.
    + rewrite list_insert_ge in Hk by lia. apply Hws. by eapply list_elem_of_lookup_2.
  - rewrite list_lookup_insert_ne in Hk by done. apply Hws. by eapply list_elem_of_lookup_2.
Qed.

Lemma peer_bytes_nonneg p (ws : list worker) : (forall w, w ∈ ws -> 0 <= bytes_of w) -> forall w, w ∈ ws -> 0 <= peer_bytes_of p w.
Proof. intros Hws w Hw. specialize (Hws w Hw). destruct w as [| |q n]; cbn in *; [lia|lia|]. case_match; lia. Qed.

Ltac worker_totals Hi :=
  rewrite ?(total_update _ _ _ _ _ Hi); cbn [slots_of bytes_of peer_batches_of peer_bytes_of] in *.

Lemma step_slot_balanced limits s ws i ok s' :
  valid_ingress_limits limits -> balanced limits (s, ws) -> ws !! i = Some Idle ->
  acquire_batch_slot (max_inflight_wire_batches limits) s = (ok, s') ->
  balanced limits (s', <[i := if ok then HoldsSlot else Idle]> ws).
Proof.
  intros ([_ Hl] & _) (Hb & Hs & Hsl & Ht & Htl & Hp) Hi. unfold acquire_batch_slot.
  pose proof (total_nonneg slots_of ws ltac:(intros []; cbn; lia)).
  destruct (Z.ltb_spec (inflight_wire_batches s) (max_inflight_wire_batches limits)) as [Hlt|Hge]; intros [= <- <-].
  - unfold balanced. split_and!.
    + by apply bytes_of_nonneg_update.
    + cbn. worker_totals Hi. rewrite wrap_small by (split; lia). lia.
    + worker_totals Hi. lia.
    + cbn. worker_totals Hi. lia.
    + worker_totals Hi. lia.
    + intros p. specialize (Hp p). cbn in *. worker_totals Hi. rewrite !Z.sub_0_r, !Z.add_0_r. exact Hp.
  - by rewrite list_insert_id.
Qed.

Lemma step_release_slot_balanced limits s ws i :
  valid_ingress_limits limits -> balanced limits (s, ws) -> ws !! i = Some HoldsSlot ->
  balanced limits (release_batch_slot s, <[i := Idle]> ws).
Proof.
  intros ([_ Hl] & _) (Hb & Hs & Hsl & Ht & Htl & Hp) Hi.
  pose proof (total_at_least slots_of ws i _ ltac:(intros []; cbn; lia) Hi) as Hone. cbn [slots_of] in Hone.
  unfold balanced. split_and!.
  - by apply bytes_of_nonneg_update.
  - cbn. worker_totals Hi. rewrite wrap_small by (split; lia). lia.
  - worker_totals Hi. lia.
  - cbn. worker_totals Hi. lia.
  - worker_totals Hi. lia.
  - intros p. specialize (Hp p). cbn in *. worker_totals Hi. rewrite !Z.sub_0_r, !Z.add_0_r. exact Hp.
Qed.

(** The record created by looking a peer up is as good as none. *)
Lemma touched_lookup (m : gmap Z InflightWirePeerState) q p :
  default no_peer_state (<[q := default no_peer_state (m !! q)]> m !! p) = default no_peer_state (m !! p).
Proof. rewrite lookup_insert. case_decide; [by subst|done]. Qed.

Lemma step_budget_balanced limits s ws i peer n result s' :
  valid_ingress_limits limits -> balanced limits (s, ws) -> ws !! i = Some HoldsSlot -> 0 <= n ->
  acquire_wire_budget peer n limits s = (result, s') ->
  balanced limits (s', <[i := match result with None => HoldsBudget peer n | Some _ => HoldsSlot end]> ws).
Proof.
  intros (_ & [_ Hl2] & [_ Hl3] & [_ Hl4]) (Hb & Hs & Hsl & Ht & Htl & Hp) Hi Hn. unfold acquire_wire_budget.
  set (touched := set_inflight _ _ _ (<[peer := default _ _]> _)).
  assert (balanced limits (touched, <[i := HoldsSlot]> ws)) as Hfail.
  { rewrite list_insert_id by done. unfold balanced, touched. cbn. split_and!; try done.
    intros p. rewrite touched_lookup. exact (Hp p). }
  clearbody touched.
  pose proof (total_nonneg bytes_of ws Hb) as Hb0.
  pose proof (total_nonneg (peer_bytes_of peer) ws (peer_bytes_nonneg peer ws Hb)) as Hpb0.
  pose proof (total_nonneg (peer_batches_of peer) ws ltac:(intros []; cbn; intros; repeat case_match; lia)) as Hpn0.
  destruct (Hp peer) as (Hp1 & Hp2 & Hp3 & Hp4). cbv zeta in *.
  set (st := default no_peer_state (inflight_wire_peer_state s !! peer)) in *.
  destruct (_ || _) eqn:E1; [intros E; apply pair_equal_spec in E as [<- <-]; exact Hfail|].
  destruct (_ <=? batches st) eqn:E2; [intros E; apply pair_equal_spec in E as [<- <-]; exact Hfail|].
  destruct ((max_inflight_wire_bytes_per_peer limits <? n) || _) eqn:E3; [intros E; apply pair_equal_spec in E as [<- <-]; exact Hfail|].
  intros [= <- <-]. bool_hyps.
  rewrite wrap_small in * by (split; lia). unfold balanced. split_and!.
  - by apply bytes_of_nonneg_update.
  - cbn. worker_totals Hi. lia.
  - worker_totals Hi. lia.
  - cbn. worker_totals Hi. rewrite wrap_small by (split; lia). lia.
  - worker_totals Hi. lia.
  - intros p. cbn. worker_totals Hi. rewrite lookup_insert. case_decide as Ep.
    + subst p. cbn. rewrite Z.eqb_refl, !wrap_small by (split; lia). lia.
    + rewrite (proj2 (Z.eqb_neq peer p)) by done. rewrite !Z.sub_0_r, !Z.add_0_r. exact (Hp p).
Qed.

Lemma step_release_budget_balanced limits s ws i peer n :
  balanced limits (s, ws) -> ws !! i = Some (HoldsBudget peer n) ->
  balanced limits (release_wire_budget peer n s, <[i := HoldsSlot]> ws).
Proof.
  intros (Hb & Hs & Hsl & Ht & Htl & Hp) Hi.
  pose proof (Hb _ (list_elem_of_lookup_2 _ _ _ Hi)) as Hn. cbn in Hn.
  pose proof (total_at_least bytes_of ws i _ Hb Hi) as Hge. cbn in Hge.
  pose proof (total_at_least (peer_bytes_of peer) ws i _ (peer_bytes_nonneg peer ws Hb) Hi) as Hpge.
  pose proof (total_at_least (peer_batches_of peer) ws i _ ltac:(intros []; cbn; intros; repeat case_match; lia) Hi) as Hpn.
  cbn in Hpge, Hpn. rewrite Z.eqb_refl in Hpge, Hpn.
  destruct (Hp peer) as (Hp1 & Hp2 & Hp3 & Hp4). cbv zeta in *. unfold release_wire_budget.
  destruct (inflight_wire_peer_state s !! peer) as [st|] eqn:El; cbn [default] in *; [|cbn in *; lia].
  unfold id in *. rewrite (proj2 (Z.leb_le n (inflight_wire_total_bytes s))) by lia.
  rewrite (proj2 (Z.leb_le n (bytes_ st))), (proj2 (Z.ltb_lt 0 (batches st))) by lia.
  unfold balanced. split_and!.
  - by apply bytes_of_nonneg_update.
  - cbn. worker_totals Hi. lia.
  - worker_totals Hi. lia.
  - cbn. worker_totals Hi. lia.
  - worker_totals Hi. lia.
  - intros p. cbn. worker_totals Hi. rewrite lookup_insert. case_decide as Ep.
    + subst p. cbn. rewrite Z.eqb_refl. lia.
    + rewrite (proj2 (Z.eqb_neq peer p)) by done. rewrite !Z.sub_0_r, !Z.add_0_r. exact (Hp p).
Qed.

Lemma guard_step_balanced limits c c' :
  valid_ingress_limits limits -> balanced limits c -> guard_step limits c c' -> balanced limits c'.
Proof.
  intros Hl Hbal Hstep. destruct Hstep.
  - by eapply step_slot_balanced.
  - by eapply step_budget_balanced.
  - by eapply step_release_budget_balanced.
  - by eapply step_release_slot_balanced.
  - exact Hbal.
  - destruct Hbal as (Hb & Hs & Hsl & Ht & Htl & Hp). unfold balanced. rewrite !total_snoc. cbn [slots_of bytes_of].
    split_and!; try lia; [intros w [Hw| ->%list_elem_of_singleton]%elem_of_app; [auto|done]|].
    intros p. rewrite !total_snoc. cbn [peer_batches_of peer_bytes_of]. rewrite !Z.add_0_r. apply Hp.
Qed.

(** However worker threads interleave taking and giving back slots and budgets
    (refused attempts included), the counters are always exactly what the
    workers hold and never above the limits: the number of batches and of bytes
    in flight, in all and per peer; so once every worker is done nothing stays
    in flight. *)
Theorem inflight_budgets_hold limits s ws :
  valid_ingress_limits limits ->
  rtc (guard_step limits) (initial_engine, []) (s, ws) ->
  inflight_wire_batches s = total slots_of ws /\ inflight_wire_batches s <= max_inflight_wire_batches limits /\
  inflight_wire_total_bytes s = total bytes_of ws /\ inflight_wire_total_bytes s <= max_inflight_wire_bytes limits /\
  (forall p st, inflight_wire_peer_state s !! p = Some st ->
     batches st = total (peer_batches_of p) ws /\ batches st <= max_inflight_wire_batches_per_peer limits /\
     bytes_ st = total (peer_bytes_of p) ws /\ bytes_ st <= max_inflight_wire_bytes_per_peer limits).
Proof.
  intros Hl Hrun.
  assert (balanced limits (s, ws)) as (_ & H1 & H2 & H3 & H4 & H5).
  { remember (initial_engine, @nil worker) as c0 eqn:Ec. assert (balanced limits c0) as H0.
    { subst c0. pose proof Hl as ([? _] & [? _] & [? _] & [? _]). unfold balanced. cbn. split_and!; try done.
      by intros w Hw%not_elem_of_nil. }
    clear Ec. induction Hrun as [c|c c1 c2 Hstep _ IH]; [done|]. apply IH. by eapply guard_step_balanced. }
  split_and!; try lia. intros p st Hst. specialize (H5 p). cbv zeta in H5. rewrite Hst in H5. cbn in H5. unfold id in H5.
  lia.
Qed.

Definition small_limits : IngressLimits := mkIngressLimits 1000 10 2 100 60 1 (of_int 2000) (of_int 4000).

Definition after_one_budget : EngineState :=
  snd (acquire_wire_budget 7 50 small_limits (snd (acquire_batch_slot 2 initial_engine))).

Lemma inflight_budgets_hold_witness :
  inflight_wire_total_bytes after_one_budget = 50 /\ inflight_wire_total_bytes after_one_budget <= 100.
Proof.
  split; [reflexivity|].
  refine (proj1 (proj2 (proj2 (proj2 (inflight_budgets_hold small_limits after_one_budget [HoldsBudget 7 50] _ _))))).
  - repeat split; vm_compute; congruence.
  - eapply rtc_l; [apply StepSpawn|]. eapply rtc_l; [apply (StepSlot _ _ [Idle] 0); reflexivity|].
    eapply rtc_l; [apply (StepBudget _ _ [HoldsSlot] 0 7 50); [reflexivity|lia|reflexivity]|]. apply rtc_refl.
Defined.

(** ** What a call does *)

Definition peer_state (s : EngineState) (p : Z) : InflightWirePeerState :=
  default no_peer_state (inflight_wire_peer_state s !! p).

(** Nothing more and nothing less in flight. *)
Definition same_inflight (s s' : EngineState) : Prop :=
  inflight_wire_batches s' = inflight_wire_batches s /\
  inflight_wire_total_bytes s' = inflight_wire_total_bytes s /\
  forall p, batches (peer_state s' p) = batches (peer_state s p) /\
            bytes_ (peer_state s' p) = bytes_ (peer_state s p).

#[global] Instance same_inflight_preorder : PreOrder same_inflight.
Proof.
  split; [done|]. intros a b c (H1 & H2 & H3) (G1 & G2 & G3). split_and!; [congruence..|].
  intros p. destruct (H3 p), (G3 p). split; congruence.
Qed.

Definition counters_ok (s : EngineState) : Prop :=
  in_uint 64 (inflight_wire_batches s) /\ 0 <= inflight_wire_total_bytes s /\
  forall p, 0 <= batches (peer_state s p) /\ 0 <= bytes_ (peer_state s p).

Lemma record_same_inflight peer a b ok n reason msg dur lat now s :
  same_inflight s (record_peer_ingress_result peer a b ok n reason msg dur lat now s).
Proof. unfold record_peer_ingress_result. case_match; [done|]. by split_and!. Qed.

Lemma consume_same_inflight peer n limits now s :
  same_inflight s (snd (consume_peer_rate_limit_tokens peer n limits now s)) /\
  peer_ingress_telemetry_map (snd (consume_peer_rate_limit_tokens peer n limits now s)) =
    peer_ingress_telemetry_map s.
Proof.
  unfold consume_peer_rate_limit_tokens. cbv zeta.
  destruct ((n =? 0) || _); [done|]. destruct (flt _ _); [done|]. destruct (flt (fadd _ _) _); by split_and!.
Qed.

(** A guard taken and given back leaves the books as they were. *)
Lemma slot_cycle limit s s' :
  in_uint 64 limit -> counters_ok s -> acquire_batch_slot limit s = (true, s') ->
  same_inflight s (release_batch_slot s') /\ counters_ok s'.
Proof.
  intros [_ Hl] ([Hb _] & Ht & Hp). unfold acquire_batch_slot.
  destruct (Z.ltb_spec (inflight_wire_batches s) limit); [|done]. intros [= <-].
  unfold release_batch_slot, same_inflight, counters_ok. cbn. rewrite (wrap_small 64 (_ + 1)) by (split; lia).
  split; [|split_and!; try done; split; lia]. split_and!; try done. rewrite wrap_small by (split; lia). lia.
Qed.

Lemma slot_refused limit s s' : acquire_batch_slot limit s = (false, s') -> s' = s.
Proof. unfold acquire_batch_slot. case_match; [done|]. by intros [= <-]. Qed.

Lemma budget_touch peer n limits s e s' :
  acquire_wire_budget peer n limits s = (Some e, s') ->
  same_inflight s s' /\ peer_ingress_telemetry_map s' = peer_ingress_telemetry_map s.
Proof.
  unfold acquire_wire_budget. set (touched := set_inflight _ _ _ (<[peer := default _ _]> _)).
  assert (same_inflight s touched /\ peer_ingress_telemetry_map touched = peer_ingress_telemetry_map s) as Hsame.
  { unfold touched, same_inflight, peer_state. cbn. split_and!; try done. intros p. by rewrite touched_lookup. }
  clearbody touched. cbv zeta.
  destruct ((max_inflight_wire_bytes limits <? n) || _); [intros E; apply pair_equal_spec in E as [_ <-]; exact Hsame|].
  destruct (_ <=? batches _); [intros E; apply pair_equal_spec in E as [_ <-]; exact Hsame|].
  destruct ((max_inflight_wire_bytes_per_peer limits <? n) || _); [|done].
  intros E; apply pair_equal_spec in E as [_ <-]; exact Hsame.
Qed.

Lemma budget_cycle peer n limits s s' s'' :
  valid_ingress_limits limits -> counters_ok s -> 0 <= n ->
  acquire_wire_budget peer n limits s = (None, s') -> same_inflight s' s'' ->
  (forall p, is_Some (inflight_wire_peer_state s' !! p) -> is_Some (inflight_wire_peer_state s'' !! p)) ->
  same_inflight s (release_wire_budget peer n s'') /\
  peer_ingress_telemetry_map s' = peer_ingress_telemetry_map s.
Proof.
  intros (_ & [_ Hl2] & [_ Hl3] & [_ Hl4]) (_ & Ht & Hp) Hn. unfold acquire_wire_budget. cbv zeta.
  fold (peer_state s peer). destruct (Hp peer) as [Hb Hy]. set (st := peer_state s peer) in *.
  destruct ((max_inflight_wire_bytes limits <? n) || _) eqn:E1; [done|].
  destruct (_ <=? batches st) eqn:E2; [done|].
  destruct ((max_inflight_wire_bytes_per_peer limits <? n) || _) eqn:E3; [done|]. intros [= <-] (S1 & S2 & S3) Hdom.
  bool_hyps. rewrite (wrap_small 64 (max_inflight_wire_bytes limits - n)) in * by (split; lia).
  rewrite (wrap_small 64 (max_inflight_wire_bytes_per_peer limits - n)) in * by (split; lia).
  split; [|done]. cbn in S1, S2. rewrite (wrap_small 64 (inflight_wire_total_bytes s + n)) in S2 by (split; lia).
  pose proof (S3 peer) as [Sb Sy]. unfold peer_state in Sb, Sy. cbn in Sb, Sy. rewrite lookup_insert_eq in Sb, Sy.
  cbn in Sb, Sy. rewrite !wrap_small in Sb, Sy by (split; lia).
  destruct (Hdom peer) as [st'' Est]; [by cbn; rewrite lookup_insert_eq|].
  unfold release_wire_budget. rewrite Est. rewrite Est in Sb, Sy. cbn in Sb, Sy. unfold id in *.
  rewrite (proj2 (Z.leb_le n (inflight_wire_total_bytes s''))), (proj2 (Z.leb_le n (bytes_ st''))),
    (proj2 (Z.ltb_lt 0 (batches st''))) by lia.
  unfold same_inflight, peer_state. cbn. split_and!; [done|lia|]. intros p. rewrite lookup_insert. case_decide as Ep.
  - subst p. change (from_option (fun x => x) no_peer_state (inflight_wire_peer_state s !! peer)) with st.
    change (from_option id no_peer_state (inflight_wire_peer_state s !! peer)) with st. cbn. lia.
  - pose proof (S3 p) as [G1 G2]. unfold peer_state in G1, G2. cbn in G1, G2.
    rewrite lookup_insert_ne in G1, G2 by done. done.
Qed.

Definition inflight_of (s : EngineState) := (inflight_wire_batches s, inflight_wire_total_bytes s, inflight_wire_peer_state s).

Lemma inflight_of_same s s' : inflight_of s' = inflight_of s -> same_inflight s s'.
Proof. intros [= H1 H2 H3]. unfold same_inflight, peer_state. by rewrite H1, H2, H3. Qed.

Definition telemetry_of (s : EngineState) (p : Z) : PeerIngressTelemetry :=
  default empty_telemetry (peer_ingress_telemetry_map s !! p).

(** One more outcome of peer [p], and no other change of the counts. *)
Definition counted (p : Z) (ok : bool) (s s' : EngineState) : Prop :=
  p <> 0 ->
  t_accepted_batches (telemetry_of s' p) =
    (if ok then u64 (t_accepted_batches (telemetry_of s p) + 1) else t_accepted_batches (telemetry_of s p)) /\
  t_rejected_batches (telemetry_of s' p) =
    (if ok then t_rejected_batches (telemetry_of s p) else u64 (t_rejected_batches (telemetry_of s p) + 1)) /\
  forall q, q <> p -> telemetry_of s' q = telemetry_of s q.

Lemma record_counted peer a b ok n reason msg dur lat now s :
  inflight_of (record_peer_ingress_result peer a b ok n reason msg dur lat now s) = inflight_of s /\
  counted peer ok s (record_peer_ingress_result peer a b ok n reason msg dur lat now s).
Proof.
  unfold record_peer_ingress_result, counted, telemetry_of. destruct (Z.eqb_spec peer 0) as [->|Hp]; [done|].
  split; [done|]. intros _. cbn. rewrite lookup_insert_eq. cbn. unfold id. split; [done|]. split; [done|].
  intros q Hq. by rewrite lookup_insert_ne.
Qed.

Lemma counted_map p ok s s1 s' :
  peer_ingress_telemetry_map s1 = peer_ingress_telemetry_map s -> counted p ok s1 s' -> counted p ok s s'.
Proof. unfold counted, telemetry_of. by intros ->. Qed.

Lemma counted_map_r p ok s s' s2 :
  peer_ingress_telemetry_map s2 = peer_ingress_telemetry_map s' -> counted p ok s s' -> counted p ok s s2.
Proof. unfold counted, telemetry_of. by intros ->. Qed.

Lemma consume_inflight peer n limits now s :
  inflight_of (snd (consume_peer_rate_limit_tokens peer n limits now s)) = inflight_of s.
Proof.
  unfold consume_peer_rate_limit_tokens. cbv zeta.
  destruct ((n =? 0) || _); [done|]. destruct (flt _ _); [done|]. by destruct (flt (fadd _ _) _).
Qed.

Section wire_safety.
Context {D : Type} `{JournalDbLaws D}.
Variable sha256 : bytes -> bytes.
Variable fresh : Z -> bytes.
Variable hmac : bytes -> bytes -> bytes.
Variable verify_32 : bytes -> bytes -> Z.
Variable LZ4_decompress_safe : bytes -> Z -> Z -> Z * bytes.
Hypothesis sha256_size : forall x, size_of (sha256 x) = 32.

(** What a successful call has checked and done. *)
Definition admitted_batch (limits : IngressLimits) (request : ApplyWireBatchRequest) (wire : bytes) (d d' : D) : Prop :=
  auth_accepted (validate_handshake_auth hmac verify_32 (remote_handshake request)
                   (cluster_shared_secret request) (require_handshake_auth request)) = true /\
  accepted (validate_handshake_schema_version (remote_handshake request) (local_schema_version request)
              (allow_schema_downgrade request) (min_supported_schema_version request)) = true /\
  exists batch, decode_journal_batch LZ4_decompress_safe wire = Some batch /\
    size_of (entries batch) <= max_wire_batch_entries limits /\
    Forall (acceptable sha256) (entries batch) /\
    visible d' = insert_entries fresh (applied_value request) (entries batch) (visible d).

Definition guarded_ok (limits : IngressLimits) (request : ApplyWireBatchRequest) (wire : bytes) (s : EngineState) (d : D)
    (out : ApplyBatchResult * EngineState * option D) : Prop :=
  let '(r, s', db) := out in
  inflight_of s' = inflight_of s /\ counted (site_id (remote_handshake request)) (success r) s s' /\
  exists d', db = Some d' /\ snapshot d' = None /\
    if success r then admitted_batch limits request wire d d' else visible d' = visible d.

Lemma rejected_ok limits request wire clocks lat reason msg s s1 d :
  snapshot d = None -> inflight_of s1 = inflight_of s ->
  peer_ingress_telemetry_map s1 = peer_ingress_telemetry_map s ->
  guarded_ok limits request wire s d
    (fail no_result msg, record_outcome request (size_of wire) clocks lat 0 false reason msg s1, Some d).
Proof.
  intros Hs Hi Ht. unfold guarded_ok, record_outcome.
  destruct (record_counted (site_id (remote_handshake request)) (last_recv_seq_from_peer (remote_handshake request))
    0 false (size_of wire) reason msg (elapsed_ms (started_at clocks) (finished_at clocks)) lat (recorded_at clocks) s1)
    as [E1 E2].
  split; [by rewrite E1|]. split; [by eapply counted_map|]. by exists d.
Qed.

Lemma apply_guarded_ok limits request wire clocks s d :
  max_wire_batch_entries limits < 2 ^ 64 -> snapshot d = None ->
  guarded_ok limits request wire s d
    (apply_guarded sha256 fresh hmac verify_32 LZ4_decompress_safe limits request wire clocks s d).
Proof.
  intros Hmax Hs. unfold apply_guarded. cbv zeta.
  destruct (auth_accepted _) eqn:Eauth; cbn [negb]; [|by apply rejected_ok].
  destruct (accepted _) eqn:Eschema; cbn [negb]; [|by apply rejected_ok].
  destruct (decode_journal_batch _ wire) as [batch|] eqn:Edec; [|by apply rejected_ok].
  destruct (Z.ltb_spec (max_wire_batch_entries limits) (size_of (entries batch))) as [|Hn]; [by apply rejected_ok|].
  set (peer := site_id (remote_handshake request)).
  pose proof (consume_inflight peer (size_of (entries batch)) limits (rate_limit_at clocks) s) as Hi.
  pose proof (proj2 (consume_same_inflight peer (size_of (entries batch)) limits (rate_limit_at clocks) s)) as Ht.
  destruct (consume_peer_rate_limit_tokens _ _ _ _ s) as [[e|] s1]; cbn [snd] in Hi, Ht; [by apply rejected_ok|].
  destruct (apply_batch_outcome sha256 fresh sha256_size batch (applied_value request) d Hs ltac:(lia))
    as (d' & Ed & Hs' & Hcase).
  destruct (apply_batch sha256 fresh batch (applied_value request) (Some d)) as [r db] eqn:E.
  cbn [fst snd] in *. cbv zeta in Hcase. unfold guarded_ok, record_outcome. fold peer.
  destruct (record_counted peer (last_recv_seq_from_peer (remote_handshake request)) (applied_up_to_seq r) (success r)
    (size_of wire) (if success r then Unknown else ApplyBatchFailed) (result_error r)
    (elapsed_ms (started_at clocks) (finished_at clocks))
    (batch_replication_latency_ms batch (now_unix_ms (observed_at clocks))) (recorded_at clocks) s1) as [E1 E2].
  split; [by rewrite E1|]. split; [by eapply counted_map|]. exists d'. split; [done|]. split; [done|].
  destruct (success r); [|done]. destruct Hcase as (Hacc & Hv & _).
  split; [done|]. split; [done|]. by exists batch.
Qed.

(** What a run of [apply_wire_batch] leaves and reports. *)
Lemma wire_batch_outcome limits request wire clocks s d :
  valid_ingress_limits limits -> max_wire_batch_entries limits < 2 ^ 64 -> counters_ok s -> snapshot d = None ->
  let '(r, s', db) :=
    apply_wire_batch sha256 fresh hmac verify_32 LZ4_decompress_safe limits request wire clocks s (Some d) in
  same_inflight s s' /\ counted (site_id (remote_handshake request)) (success r) s s' /\
  exists d', db = Some d' /\ snapshot d' = None /\
    if success r then
      size_of wire <= max_wire_batch_bytes limits /\ admitted_batch limits request wire d d'
    else visible d' = visible d.
Proof.
  intros Hl Hmax Hc Hs. unfold apply_wire_batch. cbv zeta. set (peer := site_id (remote_handshake request)).
  destruct (Z.ltb_spec (max_wire_batch_bytes limits) (size_of wire)) as [|Hsz].
  { destruct (rejected_ok limits request wire clocks None BatchTooLarge
      ($"wire batch size " ++ to_string (size_of wire) ++ $" exceeds max " ++ to_string (max_wire_batch_bytes limits))
      s s d Hs eq_refl eq_refl) as (R1 & R2 & R3).
    split; [by apply inflight_of_same|]. split; [exact R2|exact R3]. }
  destruct (acquire_batch_slot _ s) as [[] s1] eqn:Eslot; cbn [negb].
  2: { apply slot_refused in Eslot as ->.
    destruct (rejected_ok limits request wire clocks None Backpressure
      ($"wire batch backpressure: too many in-flight batches (max=" ++
       to_string (max_inflight_wire_batches limits) ++ $")") s s d Hs eq_refl eq_refl) as (R1 & R2 & R3).
    split; [by apply inflight_of_same|]. split; [exact R2|exact R3]. }
  assert (peer_ingress_telemetry_map s1 = peer_ingress_telemetry_map s) as Ht1.
  { unfold acquire_batch_slot in Eslot. case_match; [|done]. by injection Eslot as <-. }
  destruct (slot_cycle _ _ _ (proj1 Hl) Hc Eslot) as [Hcycle Hc1].
  assert (forall s2, same_inflight s1 s2 -> same_inflight s (release_batch_slot s2)) as Hrelease.
  { intros s2 (G1 & G2 & G3). etrans; [exact Hcycle|]. unfold same_inflight, release_batch_slot, peer_state in *. cbn.
    rewrite G1, G2. by split_and!. }
  destruct (acquire_wire_budget peer (size_of wire) limits s1) as [[e|] s2] eqn:Ebud.
  - apply budget_touch in Ebud as [Hsame Ht2].
    destruct (rejected_ok limits request wire clocks None InflightWireBudget ($"wire batch backpressure: " ++ e)
      s2 s2 d Hs eq_refl eq_refl) as (R1 & R2 & R3).
    split; [apply Hrelease; etrans; [exact Hsame|by apply inflight_of_same]|].
    split; [|exact R3]. eapply counted_map_r; [reflexivity|]. eapply counted_map; [|exact R2]. by rewrite Ht2.
  - pose proof (apply_guarded_ok limits request wire clocks s2 d Hmax Hs) as Hg.
    destruct (apply_guarded _ _ _ _ _ limits request wire clocks s2 d) as [[r s3] db].
    destruct Hg as (Hi & Hcount & Hdb).
    destruct (budget_cycle peer (size_of wire) limits s1 s2 s3 Hl Hc1 (size_of_nonneg wire) Ebud) as [Hback Ht2].
    { by apply inflight_of_same. }
    { injection Hi as _ _ ->. done. }
    split; [by apply Hrelease|]. split.
    + apply (counted_map_r _ _ _ s3).
      { unfold release_batch_slot, release_wire_budget. cbn.
        by destruct (inflight_wire_peer_state s3 !! peer). }
      eapply counted_map; [|exact Hcount]. by rewrite Ht2, Ht1.
    + destruct Hdb as (d' & -> & Hs' & Hcase). exists d'. split; [done|]. split; [done|]. by destruct (success r).
Qed.

(** A wire batch changes the journal only when it is within the size limits,
    its peer's handshake passes authentication and schema negotiation, it
    decodes, and every entry is for a replicated table with the right checksum;
    then it adds exactly the entries whose numbers were free.  In every other
    case the journal is untouched.  Either way no transaction is left open, the
    in-flight counters are back where they were, and the peer's telemetry has
    exactly one more outcome, of the right kind. (C15) *)
Theorem wire_batch_safe limits request wire clocks s d :
  valid_ingress_limits limits -> max_wire_batch_entries limits < 2 ^ 64 -> counters_ok s -> snapshot d = None ->
  let '(r, s', db) :=
    apply_wire_batch sha256 fresh hmac verify_32 LZ4_decompress_safe limits request wire clocks s (Some d) in
  same_inflight s s' /\ counted (site_id (remote_handshake request)) (success r) s s' /\
  exists d', db = Some d' /\ snapshot d' = None /\
    if success r then
      size_of wire <= max_wire_batch_bytes limits /\ admitted_batch limits request wire d d'
    else visible d' = visible d.
Proof. apply wire_batch_outcome. Qed.

(** A batch that fails half-way is rolled back, yet its result still names the
    progress made before the failure, and the peer's telemetry takes that over
    as the last applied number: with nothing applied it reports an entry that
    is not in the journal. *)
Theorem failed_batch_reports_progress (ok : D -> Prop) `{!Reliable ok} batch e1 e2 rest value d peer recv wire now s :
  ok d -> snapshot d = None -> entries batch = e1 :: e2 :: rest -> acceptable sha256 e1 ->
  find_seq (sint 64 (SyncProtocol.seq e1)) (visible d) = [] -> 0 < SyncProtocol.seq e1 ->
  is_table_replicated (SyncProtocol.table_name e2) = false -> size_of (entries batch) < 2 ^ 64 -> peer <> 0 ->
  exists r d', apply_batch sha256 fresh batch value (Some d) = (r, Some d') /\
    success r = false /\ visible d' = visible d /\ applied_count r = 1 /\ applied_up_to_seq r = SyncProtocol.seq e1 /\
    SyncProtocol.seq e1 <=
      t_last_applied_up_to_seq (telemetry_of
        (record_peer_ingress_result peer recv (applied_up_to_seq r) (success r) wire ApplyBatchFailed
           (result_error r) 0 None now s) peer).
Proof.
  intros Hok Hs Hb [Ht1 Hck] Hfree Hpos Ht2 Hn Hpeer.
  destruct (apply_batch_outcome sha256 fresh sha256_size batch value d Hs Hn) as (d' & Ed & _ & Hcase).
  assert (exists d1, fst (apply_batch sha256 fresh batch value (Some d)) =
    fail (mkResult false (SyncProtocol.seq e1) 1 []) ($"table is not replicated: " ++ SyncProtocol.table_name e2) /\
    ok d1) as (d1 & Er & _).
  { unfold apply_batch. destruct (reliable_begin d Hok Hs) as (d1 & Eb & Hok1). rewrite Eb. cbn [negb].
    apply begin_done in Eb as (Ev & _ & _). rewrite !reliable_prepare by done. cbn [negb orb].
    rewrite Hb. cbn [apply_entries]. rewrite Ht1, bool_decide_true, Ht2 by done. cbn [negb].
    destruct (reliable_write d1 (InsertOrIgnore (bind_wire fresh value e1)) Hok1) as (d2 & E & Hok2). rewrite E.
    apply write_done in E as (_ & _ & Hc & _); [|done]. cbn [affected] in Hc.
    rewrite Ev, decide_True in Hc by done. rewrite Hc. cbn [negb Z.eqb andb].
    exists d2. split; [|done]. cbn [fst applied_up_to_seq applied_count no_result].
    by rewrite (Z.max_r 0) by lia. }
  destruct (apply_batch sha256 fresh batch value (Some d)) as [r db] eqn:E. cbn [fst snd] in *. subst r db.
  cbv zeta in Hcase. cbn [success fail] in Hcase. eexists _, d'. split; [done|]. cbn [success fail applied_count applied_up_to_seq].
  split_and!; try done. unfold record_peer_ingress_result, telemetry_of.
  rewrite (proj2 (Z.eqb_neq peer 0)) by done. cbn. rewrite lookup_insert_eq. cbn. unfold id. lia.
Qed.
End wire_safety.

(** ** Instances in memory *)

Definition toy_request : ApplyWireBatchRequest :=
  mkRequest (sign_handshake toy_hmac (mkHandshake 9 3 0 ($"k") []) ($"s")) ($"s") true 3 false 1 2.

Definition toy_wire : bytes := encode_journal_batch toy_bound toy_compress (toy_batch [$"a"; $"b"]).
Definition toy_clocks : Clocks := mkClocks 0 5000000 0 1700000000000 1700000000005.
Definition toy_limits : IngressLimits := read_ingress_limits (fun _ => None) (fun _ => None).

Definition toy_call : ApplyBatchResult * EngineState * option MemDb.t :=
  apply_wire_batch toy_sha256 no_fresh toy_hmac toy_verify_32 toy_decompress toy_limits toy_request toy_wire
    toy_clocks initial_engine (Some MemDb.empty).

Lemma wire_batch_safe_witness :
  success (fst (fst toy_call)) = true /\ applied_count (fst (fst toy_call)) = 2 /\
  same_inflight initial_engine (snd (fst toy_call)).
Proof.
  split; [vm_compute; reflexivity|]. split; [vm_compute; reflexivity|].
  pose proof (@wire_batch_safe MemDb.t MemDb.db MemDb.laws toy_sha256 no_fresh toy_hmac toy_verify_32 toy_decompress
    toy_sha256_size toy_limits toy_request toy_wire toy_clocks initial_engine MemDb.empty
    ltac:(repeat split; vm_compute; congruence) ltac:(vm_compute; reflexivity)
    ltac:(split; [done|]; split; [done|]; intros p; by unfold peer_state) ltac:(reflexivity)) as Hsafe.
  unfold toy_call. destruct (apply_wire_batch _ _ _ _ _ _ _ _ _ _ _) as [[r s'] db]. exact (proj1 Hsafe).
Defined.

Definition half_bad_batch : JournalBatchFrame :=
  mkBatch 0 2 [wire_of (toy_entry 1 ($"a"));
               mkWireEntry 2 10 1 7 ($"_sync_journal") ($"1") ($"INSERT") [] [] [] 1 ($"b1")].

Lemma failed_batch_reports_progress_witness :
  exists r d', apply_batch toy_sha256 no_fresh half_bad_batch 2 (Some MemDb.empty) = (r, Some d') /\
    success r = false /\ visible d' = [] /\ applied_up_to_seq r = 1.
Proof.
  destruct (@failed_batch_reports_progress MemDb.t MemDb.db MemDb.laws toy_sha256 no_fresh toy_sha256_size
    MemDb.sound MemDb.sound_reliable half_bad_batch (wire_of (toy_entry 1 ($"a")))
    (mkWireEntry 2 10 1 7 ($"_sync_journal") ($"1") ($"INSERT") [] [] [] 1 ($"b1")) [] 2 MemDb.empty 9 0 0 0
    initial_engine) as (r & d' & E & H1 & H2 & _ & H4 & _);
    [by split | reflexivity | reflexivity | by split | reflexivity | done | reflexivity
    | vm_compute; reflexivity | done | ].
  exists r, d'. split; [exact E|]. split; [exact H1|]. split; [exact H2 | exact H4].
Defined.
