(* ===== verification/Ingress.v ===== *)
(** * Ingress: a replication session from socket bytes to the journal

    src/native/sync/include/transport/replication_ingress.h and
    src/native/sync/src/transport/replication_ingress.cpp: the session that
    reassembles frames ([Rpc]), insists on a handshake first and feeds
    replication frames to [SyncEngine::apply_wire_batch].  The engine's state
    and the database are passed along.  The clock readings for the [n]-th frame
    of a call are [clocks n]; the event emitted after a batch is left out. *)

From S2P Require Import Prelude Codec Text Double Env Hlc Conflict Checksum SyncProtocol Rpc Journal JournalDb PersistentJournal ApplyBatch SyncEngine.

Record ReplicationIngressConfig := mkIngressConfig {
  rpc_limits : RpcIngressLimits;
  handshake_channel : Z;
  replication_channel : Z;
  require_initial_handshake : bool;
  reject_unknown_channels : bool;
  max_frames_per_ingest : Z
}.

Record ReplicationIngressOutcome := mkOutcome {
  outcome_ok : bool;
  outcome_error : bytes;
  outcome_handshake_complete : bool;
  outcome_handshake_accepted : bool;
  consumed_frames : Z;
  ignored_frames : Z;
  applied_batches : Z;
  applied_entries : Z;
  pause_reads : bool;
  resume_reads : bool
}.

Record ReplicationIngressSession := mkSession {
  request_ : ApplyWireBatchRequest;
  config_ : ReplicationIngressConfig;
  ingress_queue_ : RpcIngressQueue;
  handshake_complete_ : bool
}.

Definition make_session (request : ApplyWireBatchRequest) (config : ReplicationIngressConfig) :
    ReplicationIngressSession :=
  mkSession request config (make_queue (rpc_limits config)) (negb (require_initial_handshake config)).

Definition set_queue (x : ReplicationIngressSession) (q : RpcIngressQueue) : ReplicationIngressSession :=
  mkSession (request_ x) (config_ x) q (handshake_complete_ x).

Definition set_handshake (x : ReplicationIngressSession) (h : HandshakeFrame) : ReplicationIngressSession :=
  let r := request_ x in
  mkSession (mkRequest h (cluster_shared_secret r) (require_handshake_auth r) (local_schema_version r)
               (allow_schema_downgrade r) (min_supported_schema_version r) (applied_value r))
    (config_ x) (ingress_queue_ x) (handshake_complete_ x).

Definition complete_handshake (x : ReplicationIngressSession) : ReplicationIngressSession :=
  mkSession (request_ x) (config_ x) (ingress_queue_ x) true.

(** The counters of an outcome while the loop runs. *)
Record tally := mkTally { n_consumed : Z; n_ignored : Z; n_batches : Z; n_entries : Z; n_handshake : bool }.

Definition finish (x : ReplicationIngressSession) (t : tally) (failure : option bytes) : ReplicationIngressOutcome :=
  mkOutcome (match failure with None => true | Some _ => false end) (default [] failure) (handshake_complete_ x)
    (n_handshake t) (n_consumed t) (n_ignored t) (n_batches t) (n_entries t)
    (should_pause_reads (ingress_queue_ x)) (should_resume_reads (ingress_queue_ x)).

Section session.
Context {D : Type} `{JournalDb D}.
Variable sha256 : bytes -> bytes.
Variable fresh : Z -> bytes.
Variable hmac : bytes -> bytes -> bytes.
Variable verify_32 : bytes -> bytes -> Z.
Variable LZ4_decompress_safe : bytes -> Z -> Z -> Z * bytes.
Variable limits : IngressLimits.
Variable clocks : Z -> Clocks.

(** The body of the loop for one popped frame: the session, the tally, the
    engine and the database after it, and an error when it returns. *)
Definition handle_frame (frame : RpcFrame) (x : ReplicationIngressSession) (t : tally) (s : EngineState) (db : option D) :
    ReplicationIngressSession * tally * EngineState * option D * option bytes :=
  let c := config_ x in
  let clock := clocks (n_consumed t) in
  let t := mkTally (n_consumed t + 1) (n_ignored t) (n_batches t) (n_entries t) (n_handshake t) in
  let bytes_in := size_of (payload frame) in
  if negb (handshake_complete_ x) then
    if negb (channel frame =? handshake_channel c) then
      (x, t, s, db, Some ($"unexpected rpc channel " ++ to_string (channel frame) ++
                          $" before handshake (expected " ++ to_string (handshake_channel c) ++ $")"))
    else
      match decode_handshake (payload frame) with
      | None => (x, t, s, db, Some ($"invalid handshake frame payload"))
      | Some remote =>
          let x := set_handshake x remote in
          let r := request_ x in
          let auth := validate_handshake_auth hmac verify_32 remote (cluster_shared_secret r) (require_handshake_auth r) in
          if negb (auth_accepted auth) then
            let e := $"handshake rejected: " ++ auth_error auth in
            (x, t, record_peer_ingress_rejection (site_id remote) bytes_in HandshakeAuth e (recorded_at clock) s, db, Some e)
          else
            let schema := validate_handshake_schema_version remote (local_schema_version r)
                            (allow_schema_downgrade r) (min_supported_schema_version r) in
            if negb (accepted schema) then
              let e := $"handshake rejected: " ++ error schema in
              (x, t, record_peer_ingress_rejection (site_id remote) bytes_in HandshakeSchema e (recorded_at clock) s, db,
               Some e)
            else
              (complete_handshake x, mkTally (n_consumed t) (n_ignored t) (n_batches t) (n_entries t) true, s, db, None)
      end
  else if negb (channel frame =? replication_channel c) then
    if reject_unknown_channels c then
      let e := $"unexpected rpc channel " ++ to_string (channel frame) ++ $" (expected " ++
               to_string (replication_channel c) ++ $")" in
      (x, t, record_peer_ingress_rejection (site_id (remote_handshake (request_ x))) bytes_in IngressProtocol e
               (recorded_at clock) s, db, Some e)
    else (x, mkTally (n_consumed t) (n_ignored t + 1) (n_batches t) (n_entries t) (n_handshake t), s, db, None)
  else
    let '(r, s, db) :=
      apply_wire_batch sha256 fresh hmac verify_32 LZ4_decompress_safe limits (request_ x) (payload frame) clock s db in
    if negb (success r) then (x, t, s, db, Some (result_error r))
    else
      (x, mkTally (n_consumed t) (n_ignored t) (n_batches t + 1) (n_entries t + applied_count r) (n_handshake t), s, db,
       None).

(** The loop, one unit of fuel a frame. *)
Fixpoint consume_loop (fuel : nat) (max_frames : Z) (x : ReplicationIngressSession) (t : tally) (s : EngineState)
    (db : option D) : ReplicationIngressOutcome * ReplicationIngressSession * EngineState * option D :=
  match fuel with
  | O => (finish x t None, x, s, db)
  | S fuel' =>
      if (n_consumed t <? max_frames) && has_frame (ingress_queue_ x) then
        match pop (ingress_queue_ x) with
        | (None, q) => (finish (set_queue x q) t None, set_queue x q, s, db)
        | (Some frame, q) =>
            match handle_frame frame (set_queue x q) t s db with
            | (x, t, s, db, Some e) => (finish x t (Some e), x, s, db)
            | (x, t, s, db, None) => consume_loop fuel' max_frames x t s db
            end
        end
      else (finish x t None, x, s, db)
  end.

(** Each frame popped takes at least one off the queue or a header off the
    buffer, so their lengths are fuel enough (see [consume_enough]). *)
Definition consume_frames (frame_budget : Z) (x : ReplicationIngressSession) (s : EngineState) (db : option D) :
    ReplicationIngressOutcome * ReplicationIngressSession * EngineState * option D :=
  let max_frames := if frame_budget =? 0 then 1 else frame_budget in
  let q := ingress_queue_ x in
  consume_loop (length (queue_ q) + length (input_buffer_ q)) max_frames x (mkTally 0 0 0 0 false) s db.

Definition ingest (incoming : bytes) (x : ReplicationIngressSession) (s : EngineState) (db : option D) :
    ReplicationIngressOutcome * ReplicationIngressSession * EngineState * option D :=
  match Rpc.ingest incoming (ingress_queue_ x) with
  | (Some e, q) =>
      let x := set_queue x q in
      let peer := site_id (remote_handshake (request_ x)) in
      let s := if negb (peer =? 0)
               then record_peer_ingress_rejection peer (size_of incoming) IngressProtocol e (recorded_at (clocks 0)) s
               else s in
      (finish x (mkTally 0 0 0 0 false) (Some e), x, s, db)
  | (None, q) => consume_frames (max_frames_per_ingest (config_ x)) (set_queue x q) s db
  end.

Definition drain (x : ReplicationIngressSession) (s : EngineState) (db : option D) :
    ReplicationIngressOutcome * ReplicationIngressSession * EngineState * option D :=
  consume_frames (max_frames_per_ingest (config_ x)) x s db.
End session.

Definition has_pending_frames (x : ReplicationIngressSession) : bool := has_frame (ingress_queue_ x).
Definition pending_frames (x : ReplicationIngressSession) : Z := queued_frames (ingress_queue_ x).
Definition pending_payload_bytes (x : ReplicationIngressSession) : Z := queued_payload_bytes (ingress_queue_ x).
Definition session_buffered_bytes (x : ReplicationIngressSession) : Z := buffered_bytes (ingress_queue_ x).
Definition handshake_complete (x : ReplicationIngressSession) : bool := handshake_complete_ x.

(** ** The loop ends where the code leaves it *)

Definition backlog (q : RpcIngressQueue) : nat := length (queue_ q) + length (input_buffer_ q).

Lemma drain_backlog q : (backlog (snd (drain_decoded_frames q)) <= backlog q)%nat.
Proof.
  unfold drain_decoded_frames.
  apply (drain_loop_keeps (fun q' => (backlog q' <= backlog q)%nat)); [|done].
  intros q1 q2 H1 Ht. apply drain_turn_next in Ht as (f & _ & Ei & Eq & _). pose proof (size_encode f) as Hf.
  unfold backlog, size_of, kHeaderSize in *. apply (f_equal length) in Ei, Eq. rewrite length_app in Ei, Eq.
  cbn [length] in Eq. lia.
Qed.

Lemma pop_backlog q f q' : pop q = (Some f, q') -> (backlog q' < backlog q)%nat.
Proof.
  unfold pop. destruct (queue_ q) as [|g rest] eqn:E; [done|]. intros [= <- <-].
  eapply Nat.le_lt_trans; [apply drain_backlog|]. unfold backlog. rewrite E. cbn. lia.
Qed.

Lemma handle_frame_queue {D : Type} `{JournalDb D} sha256 fresh hmac verify lz4 limits clocks frame x t s (db : option D) :
  ingress_queue_ (fst (fst (fst (fst (handle_frame sha256 fresh hmac verify lz4 limits clocks frame x t s db))))) =
    ingress_queue_ x.
Proof.
  unfold handle_frame. cbv zeta.
  destruct (negb (handshake_complete_ x)).
  - destruct (negb (channel frame =? _)); [done|]. destruct (decode_handshake _); [|done].
    destruct (negb (auth_accepted _)); [done|]. by destruct (negb (accepted _)).
  - destruct (negb (channel frame =? _)); [by destruct (reject_unknown_channels _)|].
    destruct (apply_wire_batch _ _ _ _ _ _ _ _ _ _ _) as [[r s'] db']. by destruct (negb (success r)).
Qed.

Section loop.
Context {D : Type} `{JournalDb D}.
Variables (sha256 : bytes -> bytes) (fresh : Z -> bytes) (hmac : bytes -> bytes -> bytes)
  (verify_32 : bytes -> bytes -> Z) (LZ4_decompress_safe : bytes -> Z -> Z -> Z * bytes)
  (limits : IngressLimits) (clocks : Z -> Clocks).

Abbreviation consume := (consume_loop sha256 fresh hmac verify_32 LZ4_decompress_safe limits clocks).

(** With the fuel of [consume_frames], a call that does not fail has taken its
    full budget of frames or emptied the queue. *)
Lemma consume_enough fuel max_frames x t s (db : option D) :
  (backlog (ingress_queue_ x) <= fuel)%nat ->
  let '(o, x', _, _) := consume fuel max_frames x t s db in
  outcome_ok o = true -> max_frames <= consumed_frames o \/ has_frame (ingress_queue_ x') = false.
Proof.
  revert x t s db. induction fuel as [|fuel IH]; intros x t s db Hf; cbn [consume_loop].
  - intros _. right. unfold has_frame, backlog in *. destruct (queue_ (ingress_queue_ x)); [done|cbn in Hf; lia].
  - destruct (n_consumed t <? max_frames) eqn:E1; cbn [andb].
    2: { bool_hyps. cbn. intros _. by left. }
    destruct (has_frame (ingress_queue_ x)) eqn:E2; [|by intros _; right].
    destruct (pop (ingress_queue_ x)) as [[frame|] q] eqn:Ep.
    + pose proof (handle_frame_queue sha256 fresh hmac verify_32 LZ4_decompress_safe limits clocks frame
        (set_queue x q) t s db) as Hq.
      destruct (handle_frame _ _ _ _ _ _ _ frame (set_queue x q) t s db) as [[[[x1 t1] s1] db1] [e|]]; [done|].
      cbn in Hq. apply IH. rewrite Hq. apply pop_backlog in Ep. lia.
    + intros _. right. cbn. unfold pop in Ep. destruct (queue_ (ingress_queue_ x)) eqn:Eq; [|done].
      injection Ep as <-. unfold has_frame. by rewrite Eq.
Qed.
End loop.

(** ** Nothing before the handshake *)

Inductive session_op :=
  | OpIngest (incoming : bytes) (clocks : Z -> Clocks)
  | OpDrain (clocks : Z -> Clocks).

Section safety.
Context {D : Type} `{JournalDbLaws D}.
Variables (sha256 : bytes -> bytes) (fresh : Z -> bytes) (hmac : bytes -> bytes -> bytes)
  (verify_32 : bytes -> bytes -> Z) (LZ4_decompress_safe : bytes -> Z -> Z -> Z * bytes)
  (limits : IngressLimits).
Hypothesis sha256_size : forall x, size_of (sha256 x) = 32.

Definition session_step (c : ReplicationIngressSession * EngineState * option D) (o : session_op) :
    ReplicationIngressSession * EngineState * option D :=
  let '(x, s, db) := c in
  let '(_, x, s, db) :=
    match o with
    | OpIngest incoming clocks =>
        ingest sha256 fresh hmac verify_32 LZ4_decompress_safe limits clocks incoming x s db
    | OpDrain clocks => drain sha256 fresh hmac verify_32 LZ4_decompress_safe limits clocks x s db
    end in
  (x, s, db).

Definition passes (request : ApplyWireBatchRequest) : Prop :=
  auth_accepted (validate_handshake_auth hmac verify_32 (remote_handshake request)
                   (cluster_shared_secret request) (require_handshake_auth request)) = true /\
  accepted (validate_handshake_schema_version (remote_handshake request) (local_schema_version request)
              (allow_schema_downgrade request) (min_supported_schema_version request)) = true.

(** A row a peer could have put there: the entry of a batch, for a replicated
    table and with the right checksum. *)
Definition replicated_row (value : Z) (r : row) : Prop :=
  exists wire batch e, decode_journal_batch LZ4_decompress_safe wire = Some batch /\ e ∈ entries batch /\
    acceptable sha256 e /\ r = bind_wire fresh value e.

Definition same_policy (a b : ApplyWireBatchRequest) : Prop :=
  cluster_shared_secret a = cluster_shared_secret b /\ require_handshake_auth a = require_handshake_auth b /\
  local_schema_version a = local_schema_version b /\ allow_schema_downgrade a = allow_schema_downgrade b /\
  min_supported_schema_version a = min_supported_schema_version b /\ applied_value a = applied_value b.

Definition session_inv (x0 : ReplicationIngressSession) (d0 : D) (c : ReplicationIngressSession * EngineState * option D) :
    Prop :=
  let '(x, s, db) := c in
  counters_ok s /\ config_ x = config_ x0 /\ same_policy (request_ x) (request_ x0) /\
  exists d, db = Some d /\ snapshot d = None /\
    (handshake_complete_ x = false -> visible d = visible d0) /\
    (handshake_complete_ x = true -> require_initial_handshake (config_ x0) = true -> passes (request_ x)) /\
    forall r, r ∈ visible d -> r ∈ visible d0 \/ replicated_row (applied_value (request_ x0)) r.

Lemma inserted_rows value es rows r :
  r ∈ insert_entries fresh value es rows -> r ∈ rows \/ exists e, e ∈ es /\ r = bind_wire fresh value e.
Proof.
  revert rows. induction es as [|e es IH]; intros rows Hr; [by left|]. cbn [insert_entries foldl] in Hr.
  apply IH in Hr as [Hr|(e' & He & ->)]; [|right; exists e'; split; [by right|done]].
  cbn [effect] in Hr. case_decide; [|by left]. rewrite insert_row_perm in Hr.
  apply elem_of_cons in Hr as [->|Hr]; [|by left]. right. exists e. split; [left|done].
Qed.

Lemma counters_ok_same s s' : same_inflight s s' -> counters_ok s -> counters_ok s'.
Proof.
  intros (E1 & E2 & E3) (G1 & G2 & G3). unfold counters_ok. rewrite E1, E2. split_and!; try done.
  intros p. destruct (E3 p) as [-> ->]. apply G3.
Qed.

Hypothesis limits_ok : valid_ingress_limits limits /\ max_wire_batch_entries limits < 2 ^ 64.

Lemma handle_frame_inv clocks x0 d0 frame x t s db :
  session_inv x0 d0 (x, s, db) ->
  let '(x', _, s', db', _) :=
    handle_frame sha256 fresh hmac verify_32 LZ4_decompress_safe limits clocks frame x t s db in
  session_inv x0 d0 (x', s', db').
Proof using limits_ok sha256_size.
  intros (Hc & Hcfg & Hpol & d & -> & Hs & Hfalse & Htrue & Hrows). unfold handle_frame. cbv zeta.
  assert (forall p n reason e now, counters_ok (record_peer_ingress_rejection p n reason e now s)) as Hrec.
  { intros. eapply counters_ok_same; [apply record_same_inflight|done]. }
  destruct (handshake_complete_ x) eqn:Ehs; cbn [negb].
  - destruct (negb (channel frame =? _)).
    { destruct (reject_unknown_channels _); (split_and!; [auto|done..|]); exists d; split_and!; try done; by rewrite Ehs. }
    pose proof (wire_batch_outcome sha256 fresh hmac verify_32 LZ4_decompress_safe sha256_size limits (request_ x)
      (payload frame) (clocks (n_consumed t)) s d (proj1 limits_ok) (proj2 limits_ok) Hc Hs) as Hsafe.
    destruct (apply_wire_batch _ _ _ _ _ _ _ _ _ _ _) as [[r s'] db'].
    destruct Hsafe as (Hsame & _ & d' & -> & Hs' & Hcase).
    assert (session_inv x0 d0 (x, s', Some d')) as Hinv.
    { split_and!; [by eapply counters_ok_same|done..|]. exists d'. split_and!; [done|done|by rewrite Ehs|auto|].
      intros w Hw. { destruct (success r); [|rewrite Hcase in Hw; auto].
        destruct Hcase as (_ & _ & _ & batch & Hdec & _ & Hacc & Hv). rewrite Hv in Hw.
        apply inserted_rows in Hw as [Hw|(e & He & ->)]; [auto|]. right.
        exists (payload frame), batch, e. split_and!; try done; [by eapply Forall_forall in Hacc|].
        f_equal. apply Hpol. } }
    by destruct (negb (success r)).
  - assert (session_inv x0 d0 (x, s, Some d)) as Hsame by (split_and!; try done; exists d; rewrite Ehs; by split_and!).
    destruct (negb (channel frame =? _)); [exact Hsame|].
    destruct (decode_handshake _) as [remote|]; [|exact Hsame].
    destruct (auth_accepted _) eqn:Ea; cbn [negb].
    2: { split_and!; [auto|done|exact Hpol|]. exists d. cbn. rewrite Ehs. by split_and!. }
    destruct (accepted _) eqn:Eb; cbn [negb].
    2: { split_and!; [auto|done|exact Hpol|]. exists d. cbn. rewrite Ehs. by split_and!. }
    split_and!; [done|done|exact Hpol|]. exists d. cbn. by split_and!.
Qed.

Lemma consume_loop_inv clocks x0 d0 fuel max_frames x t s db :
  session_inv x0 d0 (x, s, db) ->
  let '(_, x', s', db') :=
    consume_loop sha256 fresh hmac verify_32 LZ4_decompress_safe limits clocks fuel max_frames x t s db in
  session_inv x0 d0 (x', s', db').
Proof using limits_ok sha256_size.
  revert x t s db. induction fuel as [|fuel IH]; intros x t s db Hinv; cbn [consume_loop]; [done|].
  destruct (_ && _); [|done].
  assert (forall q, session_inv x0 d0 (set_queue x q, s, db)) as Hq by done.
  destruct (pop (ingress_queue_ x)) as [[frame|] q]; [|apply Hq].
  pose proof (handle_frame_inv clocks x0 d0 frame (set_queue x q) t s db (Hq q)) as Hf.
  destruct (handle_frame _ _ _ _ _ _ _ frame (set_queue x q) t s db) as [[[[x1 t1] s1] db1] [e|]]; [done|].
  by apply IH.
Qed.

Lemma session_step_inv x0 d0 c o : session_inv x0 d0 c -> session_inv x0 d0 (session_step c o).
Proof using limits_ok sha256_size.
  destruct c as [[x s] db]. intros Hinv. unfold session_step.
  assert (forall q, session_inv x0 d0 (set_queue x q, s, db)) as Hq by done.
  destruct o as [incoming clocks|clocks].
  - unfold ingest. destruct (Rpc.ingest incoming (ingress_queue_ x)) as [[e|] q].
    + destruct (negb _); [|apply Hq]. destruct (Hq q) as (Hc & Hrest). split; [|exact Hrest].
      eapply counters_ok_same; [apply record_same_inflight|done].
    + unfold consume_frames. cbv zeta.
      pose proof (consume_loop_inv clocks x0 d0) as Hloop.
      match goal with |- context [consume_loop _ _ _ _ _ _ _ ?f ?m ?y ?t s db] => specialize (Hloop f m y t s db (Hq q)) end.
      by destruct (consume_loop _ _ _ _ _ _ _ _ _ _ _ s db) as [[[o x'] s'] db'].
  - unfold drain, consume_frames. cbv zeta.
    pose proof (consume_loop_inv clocks x0 d0) as Hloop.
    match goal with |- context [consume_loop _ _ _ _ _ _ _ ?f ?m ?y ?t s db] => specialize (Hloop f m y t s db Hinv) end.
    by destruct (consume_loop _ _ _ _ _ _ _ _ _ _ _ s db) as [[[o x'] s'] db'].
Qed.

Lemma run_inv x0 d0 c ops : session_inv x0 d0 c -> session_inv x0 d0 (foldl session_step c ops).
Proof using limits_ok sha256_size. revert c. induction ops; intros c Hc; cbn; auto using session_step_inv. Qed.

(** A session that insists on a handshake changes the journal only after one
    was accepted: whatever bytes arrive, in whatever chunks, the journal is
    exactly as before while no handshake is complete; once it is, the
    handshake has passed authentication and schema negotiation; and every row
    not there before is an entry a peer sent for a replicated table with the
    right checksum. (C16) *)
Theorem session_handshake_first request config s d ops :
  require_initial_handshake config = true -> counters_ok s -> snapshot d = None ->
  let '(x, _, db) := foldl session_step (make_session request config, s, Some d) ops in
  exists d', db = Some d' /\ snapshot d' = None /\
    (handshake_complete x = false -> visible d' = visible d) /\
    (handshake_complete x = true -> passes (request_ x)) /\
    forall r, r ∈ visible d' -> r ∈ visible d \/ replicated_row (applied_value request) r.
Proof using limits_ok sha256_size.
  intros Hreq Hc Hs. set (x0 := make_session request config).
  assert (session_inv x0 d (foldl session_step (x0, s, Some d) ops)) as Hinv.
  { apply run_inv. split_and!; [done..|]. exists d. unfold x0, make_session. cbn. rewrite Hreq. cbn.
    split_and!; try done. auto. }
  destruct (foldl session_step (x0, s, Some d) ops) as [[x s'] db].
  destruct Hinv as (_ & _ & _ & d' & -> & Hs' & Hf & Ht & Hrows). exists d'. split_and!; try done. auto.
Qed.
End safety.

(** ** Instances in memory *)

Definition toy_config : ReplicationIngressConfig := mkIngressConfig default_limits 1 2 true true (2 ^ 64 - 1).

Definition toy_policy : ApplyWireBatchRequest := mkRequest (mkHandshake 0 0 0 [] []) ($"s") true 3 false 1 2.

(** The peer's bytes: a signed handshake and a batch. *)
Definition peer_bytes : bytes :=
  encode (mkFrame 1 (encode_handshake (remote_handshake toy_request))) ++ encode (mkFrame 2 toy_wire).

Definition toy_step :=
  session_step (D := MemDb.t) toy_sha256 no_fresh toy_hmac toy_verify_32 toy_decompress toy_limits.

Definition toy_ops : list session_op :=
  [OpIngest (take 10 peer_bytes) (fun _ => toy_clocks); OpIngest (drop 10 peer_bytes) (fun _ => toy_clocks)].

Lemma session_handshake_first_witness :
  let '(x, _, db) := foldl toy_step (make_session toy_policy toy_config, initial_engine, Some MemDb.empty) toy_ops in
  handshake_complete x = true /\ (size_of ∘ visible <$> db) = Some 2 /\ passes toy_hmac toy_verify_32 (request_ x).
Proof.
  pose proof (@session_handshake_first MemDb.t MemDb.db MemDb.laws toy_sha256 no_fresh toy_hmac toy_verify_32
    toy_decompress toy_limits toy_sha256_size ltac:(repeat split; vm_compute; congruence) toy_policy toy_config
    initial_engine MemDb.empty toy_ops ltac:(reflexivity)
    ltac:(split; [done|]; split; [done|]; intros p; by unfold peer_state) ltac:(reflexivity)) as Hsafe.
  fold toy_step in Hsafe.
  assert (handshake_complete (fst (fst (foldl toy_step (make_session toy_policy toy_config, initial_engine,
    Some MemDb.empty) toy_ops))) = true) as Hdone by (vm_compute; reflexivity).
  assert ((size_of ∘ visible <$> snd (foldl toy_step (make_session toy_policy toy_config, initial_engine,
    Some MemDb.empty) toy_ops)) = Some 2) as Hrows by (vm_compute; reflexivity).
  destruct (foldl toy_step _ toy_ops) as [[x s'] db]. destruct Hsafe as (d' & _ & _ & _ & Hp & _).
  split; [exact Hdone|]. split; [exact Hrows | exact (Hp Hdone)].
Defined.
