(* ===== verification/Raft.v ===== *)
(** * The consensus data structures

    [sync/src/consensus]: the replicated log ([raft_log.cpp]), the voting
    membership with joint consensus ([membership.cpp], [quorum.h]), the
    freshness test of a vote request ([raft_rpc.cpp]), the write routing
    decision ([leader_proxy.cpp]) and the parts of the node that do not belong
    to the NuRaft backend ([raft_node.cpp]: the member list, the payload of a
    proposal, the cached state). *)

From S2P Require Import Prelude Text.

(** ** The log *)

Module RaftLog.

Record LogEntry := mkLogEntry {
  term : Z;
  index : Z;
  table_name : bytes;
  row_pk : bytes;
  op : bytes;
  values : bytes;
  checksum : bytes
}.

(** [entries_], the only field of [RaftLog]. *)
Abbreviation log := (list LogEntry).

Definition last_index (l : log) : Z := from_option index 0 (last l).
Definition last_term (l : log) : Z := from_option term 0 (last l).

Definition append (entry : LogEntry) (l : log) : bool * log :=
  if negb (entry.(index) =? u64 (last_index l + 1)) || (entry.(index) =? 0) then (false, l)
  else (true, l ++ [entry]).

Definition truncate_suffix (index' : Z) (l : log) : log :=
  filter (fun e => index e <= index') l.

Definition entry_at (index' : Z) (l : log) : option LogEntry :=
  if (index' =? 0) || (last_index l <? index') then None
  else l !! Z.to_nat (index' - 1).

Definition entries_from (index' : Z) (l : log) : list LogEntry :=
  if index' =? 0 then l
  else if last_index l <? index' then []
  else drop (Z.to_nat (index' - 1)) l.

(** The loop of [append_entries]; a [return false] leaves the entries handled
    so far in place. *)
Fixpoint append_loop (entries : list LogEntry) (l : log) : bool * log :=
  match entries with
  | [] => (true, l)
  | incoming :: rest =>
      if incoming.(index) =? 0 then (false, l)
      else
        match entry_at incoming.(index) l with
        | Some existing =>
            if negb (existing.(term) =? incoming.(term)) then
              let '(ok, l') := append incoming (truncate_suffix (incoming.(index) - 1) l) in
              if negb ok then (false, l') else append_loop rest l'
            else append_loop rest l
        | None =>
            let '(ok, l') := append incoming l in
            if negb ok then (false, l') else append_loop rest l'
        end
  end.

Definition append_entries (prev_index prev_term : Z) (entries : list LogEntry) (l : log) : bool * log :=
  if last_index l <? prev_index then (false, l)
  else if (0 <? prev_index) &&
          match entry_at prev_index l with
          | None => true
          | Some prev_entry => negb (prev_entry.(term) =? prev_term)
          end
  then (false, l)
  else append_loop entries l.

(** The calls a log receives. *)
Inductive call :=
  | Append (entry : LogEntry)
  | AppendEntries (prev_index prev_term : Z) (entries : list LogEntry)
  | TruncateSuffix (index : Z).

Definition exec (c : call) (l : log) : log :=
  match c with
  | Append entry => (append entry l).2
  | AppendEntries prev_index prev_term entries => (append_entries prev_index prev_term entries l).2
  | TruncateSuffix i => truncate_suffix i l
  end.

(** Entry number [i] has index [i + 1], and every index is a [uint64_t]. *)
Definition contiguous (l : log) : Prop :=
  (forall i e, l !! i = Some e -> e.(index) = Z.of_nat i + 1) /\ size_of l < 2 ^ 64.

(** Raft's log matching between two logs. *)
Definition matching (l k : log) : Prop :=
  forall (i : nat) e e', l !! i = Some e -> k !! i = Some e' -> e.(term) = e'.(term) ->
    take (S i) l = take (S i) k.

(** *** Lemmas *)

Lemma contiguous_nil : contiguous [].
Proof. split; [done|]. rewrite size_of_nil. lia. Qed.

Lemma contiguous_last l : contiguous l -> last_index l = size_of l.
Proof.
  intros [Hi _]. unfold last_index. destruct (last l) as [e|] eqn:E.
  - simpl. rewrite last_lookup in E. pose proof (Hi _ _ E).
    unfold size_of. destruct l; simpl in *; [done|lia].
  - apply last_None in E as ->. done.
Qed.

Lemma contiguous_take n l : contiguous l -> contiguous (take n l).
Proof.
  intros [Hi Hs]. split.
  - intros i e H. apply lookup_take_Some in H as [H _]. by apply Hi.
  - unfold size_of in *. rewrite length_take. lia.
Qed.

Lemma contiguous_snoc l e :
  contiguous l -> e.(index) = size_of l + 1 -> size_of l + 1 < 2 ^ 64 -> contiguous (l ++ [e]).
Proof.
  intros [Hi Hs] He Hb. split.
  - intros i x H. apply lookup_app_Some in H as [H | [Hl H]]; [by apply Hi|].
    apply list_lookup_singleton_Some in H as [? <-]. unfold size_of in *. lia.
  - rewrite size_of_app, size_of_cons, size_of_nil. lia.
Qed.

(** Appending succeeds exactly when the next index is free. *)
Lemma append_spec e l :
  contiguous l ->
  append e l = if decide (e.(index) = size_of l + 1 /\ size_of l + 1 < 2 ^ 64)
               then (true, l ++ [e]) else (false, l).
Proof.
  intros Hl. pose proof Hl as [_ Hs]. unfold append. rewrite (contiguous_last l Hl).
  pose proof (size_of_nonneg l). destruct (Z.eq_dec (size_of l + 1) (2 ^ 64)) as [E|E].
  - rewrite E. change (u64 (2 ^ 64)) with 0. rewrite decide_False by lia.
    destruct (Z.eqb_spec (index e) 0); done.
  - rewrite wrap_small by (split; lia).
    destruct (Z.eqb_spec (index e) (size_of l + 1)) as [Ei|Ei]; simpl.
    + destruct (Z.eqb_spec (index e) 0); [lia|]. by rewrite decide_True by lia.
    + by rewrite decide_False by lia.
Qed.

Lemma append_contiguous e l : contiguous l -> contiguous (append e l).2.
Proof.
  intros Hl. rewrite append_spec by done. case_decide; [|done]. apply contiguous_snoc; tauto.
Qed.

(** Truncation of a contiguous log keeps a prefix. *)
Lemma truncate_suffix_take i l :
  contiguous l -> truncate_suffix i l = take (Z.to_nat i) l.
Proof.
  intros [Hi _]. unfold truncate_suffix.
  assert (forall n, (forall j e, l !! j = Some e -> index e = Z.of_nat (n + j) + 1) ->
    filter (fun e => index e <= i) l = take (Z.to_nat i - n) l) as H.
  { clear Hi. induction l as [|x l IH]; intros n Hn; [by rewrite take_nil|].
    pose proof (Hn 0%nat x eq_refl) as Hx. rewrite filter_cons.
    rewrite (IH (S n)) by (intros j e Hj; rewrite (Hn (S j) e Hj); lia).
    case_decide.
    - replace (Z.to_nat i - n)%nat with (S (Z.to_nat i - S n))%nat by lia. done.
    - replace (Z.to_nat i - n)%nat with 0%nat by lia.
      by replace (Z.to_nat i - S n)%nat with 0%nat by lia. }
  rewrite (H 0%nat) by (intros j e Hj; rewrite (Hi j e Hj); lia). f_equal. lia.
Qed.

(** [entry_at] never indexes the vector out of range. *)
Lemma entry_at_lookup i l :
  contiguous l -> 0 < i -> entry_at i l = l !! Z.to_nat (i - 1).
Proof.
  intros Hl Hi. unfold entry_at. rewrite contiguous_last by done.
  destruct (Z.eqb_spec i 0); [lia|]. simpl. destruct (Z.ltb_spec (size_of l) i); [|done].
  symmetry. apply lookup_ge_None. unfold size_of in *. lia.
Qed.

Lemma append_loop_contiguous es l : contiguous l -> contiguous (append_loop es l).2.
Proof.
  revert l. induction es as [|e es IH]; intros l Hl; simpl; [done|].
  case_match; [done|]. destruct (entry_at (index e) l) as [x|].
  - case_match; [|by apply IH].
    pose proof (append_contiguous e (truncate_suffix (index e - 1) l)) as Ha.
    rewrite truncate_suffix_take in Ha |- * by done.
    destruct (append e _) as [[] l'].
    + apply IH, Ha, contiguous_take, Hl.
    + apply Ha, contiguous_take, Hl.
  - pose proof (append_contiguous e l Hl) as Ha. destruct (append e l) as [[] l']; [by apply IH|done].
Qed.

Lemma exec_contiguous c l : contiguous l -> contiguous (exec c l).
Proof.
  intros Hl. destruct c as [e|p t es|i]; simpl.
  - by apply append_contiguous.
  - unfold append_entries. repeat (case_match; [done|]). by apply append_loop_contiguous.
  - rewrite truncate_suffix_take by done. by apply contiguous_take.
Qed.

Lemma entries_from_drop n l : contiguous l -> entries_from (Z.of_nat n + 1) l = drop n l.
Proof.
  intros Hl. unfold entries_from. rewrite contiguous_last by done.
  destruct (Z.eqb_spec (Z.of_nat n + 1) 0); [lia|].
  destruct (Z.ltb_spec (size_of l) (Z.of_nat n + 1)).
  - symmetry. apply drop_ge. unfold size_of in *. lia.
  - f_equal. lia.
Qed.

(** A prefix of a log matches it. *)
Lemma matching_prefix n k : matching (take n k) k.
Proof.
  intros i e e' H _ _. apply lookup_take_Some in H as [_ H].
  rewrite take_take. f_equal. lia.
Qed.

(** The loop of [append_entries] run on a piece of the leader's log, from the
    point up to which the two logs agree. *)
Lemma append_loop_replicates k n :
  contiguous k -> forall (p : nat) (l : log),
  contiguous l -> matching l k -> take p l = take p k -> (p <= length l)%nat -> (p + n <= length k)%nat ->
  exists l', append_loop (take n (drop p k)) l = (true, l') /\ matching l' k /\
    take (p + n) l' = take (p + n) k.
Proof.
  intros Hk. induction n as [|n IH]; intros p l Hl Hm Hp Hlen Hb.
  { exists l. rewrite take_0, Nat.add_0_r. done. }
  destruct (lookup_lt_is_Some_2 k p) as [e He]; [lia|].
  pose proof (proj1 Hk p e He) as Hi. pose proof (proj2 Hk) as Hs. unfold size_of in Hs.
  assert (forall l', l' = take (S p) k \/ (matching l' k /\ contiguous l' /\ take (S p) l' = take (S p) k /\ (S p <= length l')%nat) ->
    exists l'', append_loop (take n (drop (S p) k)) l' = (true, l'') /\ matching l'' k /\
      take (p + S n) l'' = take (p + S n) k) as Hnext.
  { intros l' Hl'. rewrite <- Nat.add_succ_comm. apply IH; destruct Hl' as [->|(?&?&?&?)]; try done; try lia.
    - by apply contiguous_take.
    - apply matching_prefix.
    - rewrite take_take. f_equal. lia.
    - rewrite length_take. lia. }
  rewrite (drop_S k e p He). rewrite firstn_cons. cbn [append_loop].
  destruct (Z.eqb_spec (index e) 0); [lia|]. rewrite entry_at_lookup by (done || lia).
  replace (Z.to_nat (index e - 1)) with p by lia.
  destruct (l !! p) as [x|] eqn:Ex.
  - destruct (Z.eqb_spec (term x) (term e)) as [Et|Et]; cbn [negb].
    + apply Hnext. right. split_and!; [done..| |by apply lookup_lt_Some in Ex].
      by apply (Hm p x e).
    + rewrite truncate_suffix_take by done. replace (Z.to_nat (index e - 1)) with p by lia.
      rewrite append_spec by (by apply contiguous_take).
      rewrite decide_True by (unfold size_of; rewrite length_take; lia). cbn [negb].
      apply Hnext. left. rewrite Hp. by rewrite <- take_S_r.
  - apply lookup_ge_None in Ex. rewrite append_spec by done.
    rewrite decide_True by (unfold size_of; lia). cbn [negb].
    apply Hnext. left. rewrite (take_S_r k p e He), <- Hp, take_ge by lia. done.
Qed.

(** The log is contiguous: whatever sequence of appends, replicated
    batches (accepted or rejected half way) and truncations it receives, entry
    number [i] carries index [i + 1] and every index fits [uint64_t]; hence
    [last_index] is the number of entries, [entry_at] reads in range and
    returns exactly the entry with the index asked for, and [entries_from]
    returns the entries from there on. *)
Theorem raft_log_contiguous (calls : list call) :
  let l := foldl (fun l c => exec c l) [] calls in
  contiguous l /\ last_index l = size_of l /\
  (forall i, 1 <= i <= size_of l ->
    exists e, entry_at i l = Some e /\ e.(index) = i /\
      entries_from i l = e :: drop (Z.to_nat i) l) /\
  (forall i, size_of l < i -> entry_at i l = None /\ entries_from i l = []).
Proof.
  intros l. assert (contiguous l) as Hl.
  { unfold l. generalize contiguous_nil. generalize (@nil LogEntry) at 1 2.
    induction calls as [|c calls IH]; intros k Hk; [done|]. simpl. by apply IH, exec_contiguous. }
  split_and!; [done|by apply contiguous_last|..].
  - intros i Hi. destruct (lookup_lt_is_Some_2 l (Z.to_nat (i - 1))) as [e He]; [unfold size_of in *; lia|].
    exists e. split_and!.
    + by rewrite entry_at_lookup by (done || lia).
    + rewrite (proj1 Hl _ _ He). lia.
    + unfold entries_from. rewrite contiguous_last by done.
      destruct (Z.eqb_spec i 0); [lia|]. destruct (Z.ltb_spec (size_of l) i); [lia|].
      rewrite (drop_S _ _ _ He). do 2 f_equal. lia.
  - intros i Hi. unfold entry_at, entries_from. rewrite contiguous_last by done.
    destruct (Z.eqb_spec i 0); [size_lia|]. destruct (Z.ltb_spec (size_of l) i); [done|lia].
Qed.

(** Log replication. A follower log that satisfies log matching with the
    leader's receives the leader's entries after [prev]. It accepts exactly
    when it holds an entry with the index and the term of the leader's entry
    number [prev] (or [prev] is 0), and is unchanged otherwise; once it
    accepts, it is equal to the leader's log up to the last entry sent, and in
    every case log matching still holds. *)
Theorem append_entries_replicates (leader follower : log) (prev n : nat) :
  contiguous leader -> contiguous follower -> matching follower leader ->
  (prev + n <= length leader)%nat ->
  let prev_term := from_option term 0 (last (take prev leader)) in
  let entries := take n (entries_from (Z.of_nat prev + 1) leader) in
  let '(ok, follower') := append_entries (Z.of_nat prev) prev_term entries follower in
  (ok = true <-> (prev <= length follower)%nat /\
    (prev = 0%nat \/ exists e, follower !! pred prev = Some e /\ e.(term) = prev_term)) /\
  (ok = false -> follower' = follower) /\
  (ok = true -> take (prev + n) follower' = take (prev + n) leader) /\
  matching follower' leader.
Proof.
  intros Hk Hl Hm Hb prev_term entries.
  assert (entries = take n (drop prev leader)) as -> by (unfold entries; by rewrite entries_from_drop).
  unfold append_entries. rewrite contiguous_last by done.
  destruct (Z.ltb_spec (size_of follower) (Z.of_nat prev)) as [Hlt|Hge].
  { split_and!; [|done..]. split; [done|]. intros [? _]. unfold size_of in *. lia. }
  assert (take prev follower = take prev leader ->
    let '(ok, follower') := append_loop (take n (drop prev leader)) follower in
    ok = true /\ take (prev + n) follower' = take (prev + n) leader /\ matching follower' leader) as Hrep.
  { intros Ht. destruct (append_loop_replicates leader n Hk prev follower) as (l' & -> & ? & ?);
      [done..| |done|done]. unfold size_of in *. lia. }
  destruct prev as [|prev].
  { cbn [Z.of_nat Z.ltb Z.compare andb]. specialize (Hrep eq_refl).
    destruct (append_loop _ _) as [ok l']. destruct Hrep as (-> & ? & ?).
    split_and!; [|done..]. split; [|done]. intros _. split; [lia|by left]. }
  destruct (Z.ltb_spec 0 (Z.of_nat (S prev))); [|lia]. cbn [andb].
  rewrite entry_at_lookup by (done || lia). replace (Z.to_nat (Z.of_nat (S prev) - 1)) with prev by lia.
  destruct (lookup_lt_is_Some_2 follower prev) as [x Hx]; [unfold size_of in *; lia|]. rewrite Hx.
  destruct (lookup_lt_is_Some_2 leader prev) as [e He]; [lia|].
  assert (prev_term = term e) as Hpt.
  { unfold prev_term. rewrite (take_S_r _ _ _ He), last_snoc. done. }
  destruct (Z.eqb_spec (term x) prev_term) as [Et|Et]; cbn [negb].
  - specialize (Hrep ltac:(apply (Hm prev x e); congruence)).
    destruct (append_loop _ _) as [ok l']. destruct Hrep as (-> & ? & ?).
    split_and!; [|done..]. split; [|done]. intros _. split; [unfold size_of in *; lia|].
    right. exists x. done.
  - split_and!; [|done..]. split; [done|].
    intros [_ [?|(y & Hy & Ey)]]; [done|]. simpl in Hy. congruence.
Qed.

(** A leader at term 3 overwrites the uncommitted entry a follower kept from
    term 2. *)
Definition sample_entry (t i : Z) : LogEntry := mkLogEntry t i $"accounts" $"7" $"UPDATE" $"{}" $"00".

Lemma sample_contiguous terms :
  size_of terms < 2 ^ 64 -> contiguous (imap (fun i t => sample_entry t (Z.of_nat i + 1)) terms).
Proof.
  intros Hs. split.
  - intros i e H. rewrite list_lookup_imap in H. destruct (terms !! i); naive_solver.
  - unfold size_of in *. by rewrite length_imap.
Qed.

Lemma append_entries_replicates_witness :
  append_entries 1 1 [sample_entry 1 2; sample_entry 3 3] [sample_entry 1 1; sample_entry 2 2]
    = (true, [sample_entry 1 1; sample_entry 1 2; sample_entry 3 3]) /\
  take 3 (append_entries 1 1 [sample_entry 1 2; sample_entry 3 3]
    [sample_entry 1 1; sample_entry 2 2]).2 = [sample_entry 1 1; sample_entry 1 2; sample_entry 3 3].
Proof.
  split; [reflexivity|].
  refine (proj1 (proj2 (proj2 (append_entries_replicates
    [sample_entry 1 1; sample_entry 1 2; sample_entry 3 3]
    [sample_entry 1 1; sample_entry 2 2] 1 2 _ _ _ _))) _).
  - apply (sample_contiguous [1; 1; 3]). reflexivity.
  - apply (sample_contiguous [1; 2]). reflexivity.
  - intros [|[|i]] e e'; simpl; intros ? ?; simplify_eq; simpl; [done|discriminate].
  - simpl. lia.
  - reflexivity.
Defined.

End RaftLog.

(** ** Membership *)

Module Membership.

Definition required_quorum (members : Z) : Z := if members =? 0 then 0 else members / 2 + 1.

(** [std::unique] with the erase of the tail: drop an element equal to the one
    kept before it. *)
Fixpoint unique_after (x : Z) (l : list Z) : list Z :=
  match l with
  | [] => []
  | y :: l => if x =? y then unique_after x l else y :: unique_after y l
  end.

Definition unique (l : list Z) : list Z :=
  match l with [] => [] | x :: l => x :: unique_after x l end.

(** [std::sort] on integers. *)
Definition sort (l : list Z) : list Z := merge_sort Z.le l.

Definition normalize (members : list Z) : list Z :=
  unique (sort (filter (fun m => m <> 0) members)).

Record Membership := mkMembership {
  members_ : list Z;
  joint_members_ : option (list Z)
}.

Definition make (members : list Z) : Membership := mkMembership (normalize members) None.

Definition size (m : Membership) : Z := size_of m.(members_).
Definition quorum_size (m : Membership) : Z := required_quorum (size_of m.(members_)).
Definition contains (node_id : Z) (m : Membership) : bool := bool_decide (node_id ∈ m.(members_)).

(** [granted >= required_quorum(members.size())]; [granted] counts the members
    the vote set holds. *)
Definition has_majority_for (members : list Z) (votes : gset Z) : bool :=
  required_quorum (size_of members) <=? size_of (filter (fun m => m ∈ votes) members).

Definition has_majority (votes : gset Z) (m : Membership) : bool :=
  has_majority_for m.(members_) votes.

Definition has_joint_majority (votes : gset Z) (m : Membership) : bool :=
  match m.(joint_members_) with
  | None => has_majority votes m
  | Some joint => has_majority_for m.(members_) votes && has_majority_for joint votes
  end.

Definition begin_joint_consensus (next_members : list Z) (m : Membership) : bool * Membership :=
  match m.(joint_members_) with
  | Some _ => (false, m)
  | None =>
      match normalize next_members with
      | [] => (false, m)
      | normalized => (true, mkMembership m.(members_) (Some normalized))
      end
  end.

Definition commit_joint_consensus (m : Membership) : bool * Membership :=
  match m.(joint_members_) with
  | None => (false, m)
  | Some joint => (true, mkMembership joint None)
  end.

Definition in_joint_consensus (m : Membership) : bool :=
  match m.(joint_members_) with Some _ => true | None => false end.

Definition reset_members (members : list Z) (m : Membership) : Membership :=
  match normalize members with
  | [] => m
  | normalized => mkMembership normalized None
  end.

(** One call that changes a membership. *)
Inductive step : Membership -> Membership -> Prop :=
  | step_begin next m : step m (begin_joint_consensus next m).2
  | step_commit m : step m (commit_joint_consensus m).2
  | step_reset members m : step m (reset_members members m).

(** A configuration: ascending, without repetition and without node 0. *)
Definition config (l : list Z) : Prop := StronglySorted Z.lt l /\ 0 ∉ l.

Definition wf (m : Membership) : Prop :=
  config m.(members_) /\
  forall joint, m.(joint_members_) = Some joint -> config joint /\ joint <> [].

(** *** Lemmas *)

Lemma unique_after_spec x l :
  StronglySorted Z.le (x :: l) ->
  StronglySorted Z.lt (x :: unique_after x l) /\
  (forall y, y ∈ x :: unique_after x l <-> y ∈ x :: l).
Proof.
  revert x. induction l as [|y l IH]; intros x Hs.
  { split; [repeat constructor|done]. }
  apply StronglySorted_inv in Hs as [Hs Hx]. apply Forall_cons in Hx as [Hxy Hx].
  simpl. destruct (Z.eqb_spec x y) as [->|Hne].
  - destruct (IH y Hs) as [H1 H2]. split; [done|]. intros z. rewrite H2. set_solver.
  - destruct (IH y Hs) as [H1 H2]. split.
    + constructor; [done|]. apply Forall_forall. intros z Hz. apply H2 in Hz.
      apply StronglySorted_inv in Hs as [_ Hy]. apply elem_of_cons in Hz as [->|Hz]; [lia|].
      eapply Forall_forall in Hy; [|done]. simpl in Hy. lia.
    + intros z. rewrite elem_of_cons, H2. set_solver.
Qed.

Lemma unique_spec l :
  StronglySorted Z.le l -> StronglySorted Z.lt (unique l) /\ forall y, y ∈ unique l <-> y ∈ l.
Proof. destruct l as [|x l]; [intros _; split; [constructor|done]|]. apply unique_after_spec. Qed.

Lemma sort_spec l : StronglySorted Z.le (sort l) /\ sort l ≡ₚ l.
Proof.
  split; [|apply merge_sort_Permutation].
  apply (StronglySorted_merge_sort Z.le).
Qed.

Lemma normalize_config l : config (normalize l).
Proof.
  unfold normalize. destruct (sort_spec (filter (fun m => m <> 0) l)) as [Hs Hp].
  destruct (unique_spec _ Hs) as [Hu He]. split; [done|]. rewrite He, Hp, list_elem_of_filter. tauto.
Qed.

Lemma elem_of_normalize l x : x ∈ normalize l <-> x <> 0 /\ x ∈ l.
Proof.
  unfold normalize. destruct (sort_spec (filter (fun m => m <> 0) l)) as [Hs Hp].
  destruct (unique_spec _ Hs) as [Hu He]. by rewrite He, Hp, list_elem_of_filter.
Qed.

Lemma step_wf m m' : step m m' -> wf m -> wf m'.
Proof.
  intros [next m0|m0|mem m0] Hw; pose proof Hw as [Hc Hj].
  - unfold begin_joint_consensus. destruct (joint_members_ m0) eqn:E; [done|].
    pose proof (normalize_config next) as Hn. destruct (normalize next) eqn:En; [done|].
    split; [done|]. intros joint Hjoint. simpl in Hjoint. injection Hjoint as <-. by split.
  - unfold commit_joint_consensus. destruct (joint_members_ m0) as [j|] eqn:E; [|done].
    split; [|done]. by apply (Hj j eq_refl).
  - unfold reset_members. pose proof (normalize_config mem) as Hn.
    destruct (normalize mem) eqn:En; [done|]. by split.
Qed.

Lemma step_nonempty m m' : step m m' -> wf m -> members_ m <> [] -> members_ m' <> [].
Proof.
  intros [next m0|m0|mem m0] [_ Hj] Hm.
  - unfold begin_joint_consensus. by repeat case_match.
  - unfold commit_joint_consensus. destruct (joint_members_ m0) as [j|] eqn:E; [|done].
    by apply (Hj j).
  - unfold reset_members. by case_match.
Qed.

Lemma rtc_step_wf m m' :
  rtc step m m' -> wf m -> wf m' /\ (members_ m <> [] -> members_ m' <> []).
Proof.
  induction 1 as [m|m m1 m' Hs _ IH]; [done|]. intros Hw.
  destruct IH as [? ?]; [by eapply step_wf|]. split; [done|]. intros ?. by eauto using step_nonempty.
Qed.

(** Two sets that miss each other on a list cover at most the list. *)
Lemma overlap (l : list Z) (v w : gset Z) :
  size_of l < size_of (filter (fun m => m ∈ v) l) + size_of (filter (fun m => m ∈ w) l) ->
  exists x, x ∈ l /\ x ∈ v /\ x ∈ w.
Proof.
  induction l as [|y l IH]; [done|]. rewrite !filter_cons. intros H.
  destruct (decide (y ∈ v)), (decide (y ∈ w)); rewrite ?size_of_cons in H;
    try (exists y; set_solver); destruct IH as (x & ? & ? & ?); try lia; exists x; set_solver.
Qed.

Lemma majorities_overlap l v w :
  l <> [] -> has_majority_for l v = true -> has_majority_for l w = true ->
  exists x, x ∈ l /\ x ∈ v /\ x ∈ w.
Proof.
  unfold has_majority_for, required_quorum. intros Hl Hv Hw. bool_hyps. apply overlap.
  destruct (Z.eqb_spec (size_of l) 0) as [E|E]; [by apply size_of_zero in E|].
  pose proof (size_of_nonneg l). pose proof (Z.div_mod (size_of l) 2). 
  pose proof (Z.mod_pos_bound (size_of l) 2). lia.
Qed.

(** Quorum safety under reconfiguration. Start from any member list that
    names a node, and reach any membership by joint-consensus begins, commits
    and resets, accepted or rejected: the member lists stay ascending, without
    duplicates, without node 0 and non-empty; any two vote sets that pass
    [has_joint_majority] have a voter of the membership in common; and a vote
    set that passes it while a change is pending has a voter in common with
    every majority of the old configuration and with every majority of the new
    one, once committed. *)
Theorem quorums_intersect (nodes : list Z) (m : Membership) :
  rtc step (make nodes) m -> (exists x, x ∈ nodes /\ x <> 0) ->
  wf m /\ members_ m <> [] /\
  (forall v w, has_joint_majority v m = true -> has_joint_majority w m = true ->
    exists x, contains x m = true /\ x ∈ v /\ x ∈ w) /\
  (in_joint_consensus m = true -> forall v w, has_joint_majority v m = true ->
    (has_majority w m = true -> exists x, x ∈ v /\ x ∈ w) /\
    (has_majority w (commit_joint_consensus m).2 = true -> exists x, x ∈ v /\ x ∈ w)).
Proof.
  intros Hr (x & Hx & Hx0).
  destruct (rtc_step_wf _ _ Hr) as [Hw Hne].
  { split; [apply normalize_config|done]. }
  assert (members_ m <> []) as Hm.
  { apply Hne. simpl. intros E. apply (not_elem_of_nil x). rewrite <- E.
    by apply elem_of_normalize. }
  assert (forall v, has_joint_majority v m = true -> has_majority_for (members_ m) v = true) as Hold.
  { intros v. unfold has_joint_majority. destruct (joint_members_ m); [|done].
    intros H. by bool_hyps. }
  split_and!; [done..| |].
  - intros v w Hv Hw'. destruct (majorities_overlap (members_ m) v w) as (y & ? & ? & ?); auto.
    exists y. split; [by apply bool_decide_eq_true|done].
  - unfold in_joint_consensus, commit_joint_consensus, has_joint_majority, has_majority in *.
    destruct (joint_members_ m) as [joint|] eqn:E; [|done].
    intros _ v w Hv. bool_hyps. destruct Hw as [_ Hj]. destruct (Hj joint E) as [_ Hjn].
    split; intros Hw; [destruct (majorities_overlap (members_ m) v w)|destruct (majorities_overlap joint v w)];
      naive_solver.
Qed.

Lemma quorums_intersect_witness :
  has_joint_majority {[2; 3; 4; 5]} (begin_joint_consensus [3; 4; 5; 3] (make [3; 2; 0; 1])).2 = true /\
  has_joint_majority {[1; 2; 3]} (begin_joint_consensus [3; 4; 5; 3] (make [3; 2; 0; 1])).2 = false /\
  wf (begin_joint_consensus [3; 4; 5; 3] (make [3; 2; 0; 1])).2.
Proof.
  split; [vm_compute; reflexivity|]. split; [vm_compute; reflexivity|].
  refine (proj1 (quorums_intersect [3; 2; 0; 1] _ _ _)).
  - eapply rtc_l; [apply step_begin|apply rtc_refl].
  - exists 3. split; [left|lia].
Defined.

End Membership.

(** ** Votes and write routing *)

Module RaftRpc.

Definition is_log_up_to_date (candidate_last_term candidate_last_index local_last_term local_last_index : Z)
    : bool :=
  if negb (candidate_last_term =? local_last_term) then local_last_term <? candidate_last_term
  else local_last_index <=? candidate_last_index.

(** The test a node applies to a candidate's log. *)
Definition log_up_to_date (candidate local : RaftLog.log) : bool :=
  is_log_up_to_date (RaftLog.last_term candidate) (RaftLog.last_index candidate)
    (RaftLog.last_term local) (RaftLog.last_index local).

(** The freshness test is a total preorder on logs: of two logs one is up
    to date with respect to the other, the relation is reflexive and
    transitive; two logs fresh for each other end with the same term and index,
    and if they satisfy log matching they are equal. *)
Theorem freshness_total_preorder :
  (forall l, log_up_to_date l l = true) /\
  (forall l k, log_up_to_date l k = true \/ log_up_to_date k l = true) /\
  (forall l k q, log_up_to_date l k = true -> log_up_to_date k q = true -> log_up_to_date l q = true) /\
  (forall l k, log_up_to_date l k = true -> log_up_to_date k l = true ->
    RaftLog.last_term l = RaftLog.last_term k /\ RaftLog.last_index l = RaftLog.last_index k) /\
  (forall l k, RaftLog.contiguous l -> RaftLog.contiguous k -> RaftLog.matching l k ->
    log_up_to_date k l = true -> log_up_to_date l k = true -> l = k).
Proof.
  unfold log_up_to_date, is_log_up_to_date.
  assert (forall a b c d : Z, (if negb (a =? c) then c <? a else d <=? b) = true <->
    c < a \/ (a = c /\ d <= b)) as H.
  { intros a b c d. destruct (Z.eqb_spec a c); simpl; rewrite ?Z.ltb_lt, ?Z.leb_le; lia. }
  split_and!; intros *; rewrite ?H; [lia..|].
  intros Hl Hk Hm H1 H2. rewrite !RaftLog.contiguous_last in H1, H2 by done.
  assert (length l = length k) as Hlen by (unfold size_of in *; lia).
  destruct (last l) as [e|] eqn:El.
  - pose proof El as El'. rewrite last_lookup in El.
    destruct (lookup_lt_is_Some_2 k (pred (length l))) as [e' Ek].
    { rewrite <- Hlen. by apply lookup_lt_Some in El. }
    assert (RaftLog.term e = RaftLog.term e') as Ht.
    { unfold RaftLog.last_term in *. rewrite El', last_lookup, <- Hlen, Ek in H1, H2. simpl in *. lia. }
    pose proof (Hm _ _ _ El Ek Ht) as Ht'. apply lookup_lt_Some in El.
    by rewrite !take_ge in Ht' by lia.
  - apply last_None in El as ->. by destruct k.
Qed.

End RaftRpc.

Module RaftNode.

Inductive RaftRole := Follower | Candidate | Leader.

#[global] Instance RaftRole_eq_dec : EqDecision RaftRole.
Proof. solve_decision. Defined.

Record RaftState := mkRaftState {
  current_term : Z;
  voted_for : option Z;
  role : RaftRole;
  leader_id : Z;
  commit_index : Z;
  last_applied : Z;
  next_index : gmap Z Z;
  match_index : gmap Z Z
}.

(** [state_ = {}] *)
Definition empty_state : RaftState := mkRaftState 0 None Follower 0 0 0 ∅ ∅.

Record LogEntryData := mkLogEntryData {
  table_name : bytes;
  row_pk : bytes;
  op : bytes;
  values : bytes;
  checksum : bytes
}.

Definition build_members (node_id : Z) (peers : list Z) : list Z :=
  Membership.unique (Membership.sort (node_id :: peers)).

Definition serialize_log_entry (data : LogEntryData) : bytes :=
  $"{" ++
  ([Byte.x22] ++ $"table_name" ++ [Byte.x22] ++ $":") ++ Json.quote_json_string data.(table_name) ++ $"," ++
  ([Byte.x22] ++ $"row_pk" ++ [Byte.x22] ++ $":") ++ Json.quote_json_string data.(row_pk) ++ $"," ++
  ([Byte.x22] ++ $"op" ++ [Byte.x22] ++ $":") ++ Json.quote_json_string data.(op) ++ $"," ++
  ([Byte.x22] ++ $"values" ++ [Byte.x22] ++ $":") ++ Json.quote_json_string data.(values) ++ $"," ++
  ([Byte.x22] ++ $"checksum" ++ [Byte.x22] ++ $":") ++ Json.quote_json_string data.(checksum) ++
  $"}".

(** What the backend answers while one call of the node runs: [leader_id] is
    an [int32_t], -1 when there is no leader. *)
Record BackendView := mkBackendView {
  b_running : bool;
  b_term : Z;
  b_leader_id : Z;
  b_committed_index : Z;
  b_last_log_index : Z;
  b_is_leader : bool
}.

(** The events [refresh_state_cache] emits. *)
Inductive Event :=
  | TermChange (term : Z)
  | RoleChange (role : bytes) (term : Z) (leader_id : bytes).

Definition role_str (r : RaftRole) : bytes :=
  match r with Leader => $"leader" | Candidate => $"candidate" | Follower => $"follower" end.

Definition refresh_state_cache (node_id : Z) (backend : BackendView) (state : RaftState)
    : RaftState * list Event :=
  if negb backend.(b_running) then (empty_state, [])
  else
    let leader := if 0 <? backend.(b_leader_id) then u32 backend.(b_leader_id) else 0 in
    let '(r, leader) :=
      if backend.(b_is_leader) then (Leader, node_id)
      else if leader =? 0 then (Candidate, leader)
      else (Follower, leader) in
    let state' := mkRaftState backend.(b_term) None r leader
      backend.(b_committed_index) backend.(b_committed_index)
      (if decide (r = Leader) then {[ node_id := u64 (backend.(b_last_log_index) + 1) ]} else ∅)
      (if decide (r = Leader) then {[ node_id := backend.(b_last_log_index) ]} else ∅) in
    (state',
     (if negb (state'.(current_term) =? state.(current_term)) then [TermChange state'.(current_term)] else []) ++
     (if bool_decide (state'.(role) <> state.(role)) then
        [RoleChange (role_str state'.(role)) state'.(current_term)
          (if 0 <? state'.(leader_id) then to_string state'.(leader_id) else [])]
      else [])).

(** *** The write routing decision *)

Inductive LeaderProxyAction :=
  | HandleLocally
  | RejectForwardingUnavailable
  | RejectNoQuorum
  | RejectLeaderUnknown.

Record LeaderProxyContext := mkLeaderProxyContext {
  local_node_id : Z;
  ctx_leader_id : Z;
  local_role : RaftRole;
  has_quorum : bool
}.

Record LeaderProxyDecision := mkLeaderProxyDecision {
  action : LeaderProxyAction;
  target_leader_id : Z
}.

Definition resolve_leader_proxy (context : LeaderProxyContext) : LeaderProxyDecision :=
  if negb context.(has_quorum) then mkLeaderProxyDecision RejectNoQuorum 0
  else if bool_decide (context.(local_role) = Leader) ||
          (context.(local_node_id) =? context.(ctx_leader_id)) then
    mkLeaderProxyDecision HandleLocally context.(local_node_id)
  else if context.(ctx_leader_id) =? 0 then mkLeaderProxyDecision RejectLeaderUnknown 0
  else mkLeaderProxyDecision RejectForwardingUnavailable context.(ctx_leader_id).

(** The context of a node, from its cached state. *)
Definition context_of (node_id : Z) (quorum : bool) (state : RaftState) : LeaderProxyContext :=
  mkLeaderProxyContext node_id state.(leader_id) state.(role) quorum.

(** A proposal determines the payload the cluster replicates and the
    payload determines the proposal, whatever bytes the five fields hold:
    quotes, backslashes, control bytes and separators cannot make two
    different proposals collide. *)
Theorem serialize_log_entry_injective (d1 d2 : LogEntryData) :
  serialize_log_entry d1 = serialize_log_entry d2 <-> d1 = d2.
Proof.
  split; [|by intros ->]. unfold serialize_log_entry. intros H.
  repeat (apply app_inv_head in H || apply Json.quote_app_inj in H as [? H]).
  destruct d1, d2; simpl in *; congruence.
Qed.

(** Writes are handled by the leader only. When the cached state has been
    refreshed from the backend of node [node_id] (a positive [uint32_t]) and
    a quorum is known, the node handles a write itself exactly when its
    backend runs and leads the cluster or names the node itself as leader;
    without a quorum, or with the backend stopped or without a leader, every
    write is refused, and a follower refuses it naming the leader the backend
    reported. *)
Theorem writes_go_to_leader (node_id : Z) (backend : BackendView) (quorum : bool) (state : RaftState) :
  0 < node_id < 2 ^ 32 -> - 2 ^ 31 <= backend.(b_leader_id) < 2 ^ 31 ->
  let state' := (refresh_state_cache node_id backend state).1 in
  let decision := resolve_leader_proxy (context_of node_id quorum state') in
  (decision.(action) = HandleLocally <->
    quorum = true /\ backend.(b_running) = true /\
    (backend.(b_is_leader) = true \/ backend.(b_leader_id) = node_id)) /\
  (decision.(action) = RejectNoQuorum <-> quorum = false) /\
  (decision.(action) = RejectLeaderUnknown <->
    quorum = true /\ (backend.(b_running) = false \/
      (backend.(b_is_leader) = false /\ backend.(b_leader_id) <= 0))) /\
  (decision.(action) = RejectForwardingUnavailable ->
    decision.(target_leader_id) = backend.(b_leader_id) /\ state'.(role) = Follower).
Proof.
  intros Hn Hb. cbv zeta. unfold refresh_state_cache.
  destruct backend as [running t lid ci li lead]; simpl in *.
  assert (u32 lid = if 0 <=? lid then lid else u32 lid) as Eu.
  { destruct (Z.leb_spec 0 lid); [|done]. apply wrap_small. unfold in_uint. lia. }
  unfold resolve_leader_proxy, context_of; simpl.
  destruct quorum, running, lead; simpl;
    repeat match goal with
    | |- context [?a <? ?b] => destruct (Z.ltb_spec a b); simpl
    | |- context [?a =? ?b] => destruct (Z.eqb_spec a b); simpl
    end; rewrite ?bool_decide_true, ?bool_decide_false in * by done; simpl;
    repeat match goal with
    | |- context [?a <? ?b] => destruct (Z.ltb_spec a b); simpl
    | |- context [?a =? ?b] => destruct (Z.eqb_spec a b); simpl
    end; try (destruct (Z.leb_spec 0 lid); [|lia]; rewrite Eu in *);
    split_and!; try done; try (intuition (done || lia || congruence)).
Qed.

Lemma writes_go_to_leader_witness :
  let follower := mkBackendView true 4 2 9 9 false in
  (resolve_leader_proxy (context_of 1 true (refresh_state_cache 1 follower empty_state).1)).(target_leader_id) = 2.
Proof.
  refine (proj1 (proj2 (proj2 (proj2 (writes_go_to_leader 1 (mkBackendView true 4 2 9 9 false) true
    empty_state _ _))) _)); [lia|simpl; lia|vm_compute; reflexivity].
Defined.

End RaftNode.
