(* ===== verification/HostPort.v ===== *)
(** * Host and port endpoints

    [core/net/src/host_port.cpp]: the endpoints of peers and DHT nodes, their
    validation, parser and printer.  [boost::asio::ip::make_address] is the
    parameter [address_ok]: whether it accepts a text. *)

From S2P Require Import Prelude Codec Text Env.

Record HostPortEndpoint := mkEndpoint {
  host : bytes;
  port : Z
}.

#[global] Instance HostPortEndpoint_eq_dec : EqDecision HostPortEndpoint.
Proof. solve_decision. Defined.

(** [std::isalnum] of the "C" locale. *)
Definition isalnum (c : Byte.byte) : bool :=
  ((48 <=? val c) && (val c <=? 57)) || ((65 <=? val c) && (val c <=? 90)) ||
  ((97 <=? val c) && (val c <=? 122)).

Definition is_hostname_char (c : Byte.byte) : bool :=
  isalnum c || (val c =? 46) || (val c =? 45).

(** [s.front() == c], [s.back() == c] on a non-empty string. *)
Definition front_is (c : Z) (s : bytes) : bool :=
  match head s with Some b => val b =? c | None => false end.
Definition back_is (c : Z) (s : bytes) : bool :=
  match last s with Some b => val b =? c | None => false end.

Definition is_valid_hostname (host : bytes) : bool :=
  if (size_of host =? 0) || (255 <? size_of host) then false
  else if front_is 46 host || back_is 46 host || front_is 45 host || back_is 45 host then false
  else forallb is_hostname_char host.

(** [find(c)] and [rfind(c)]: the position of the first and the last [c]. *)
Fixpoint find_char (c : Byte.byte) (s : bytes) : option Z :=
  match s with
  | [] => None
  | x :: rest =>
      if bool_decide (x = c) then Some 0
      else match find_char c rest with Some i => Some (1 + i) | None => None end
  end.

Fixpoint rfind_char (c : Byte.byte) (s : bytes) : option Z :=
  match s with
  | [] => None
  | x :: rest =>
      match rfind_char c rest with
      | Some i => Some (1 + i)
      | None => if bool_decide (x = c) then Some 0 else None
      end
  end.

Definition colon : Byte.byte := Byte.x3a.
Definition open_bracket : Byte.byte := Byte.x5b.
Definition close_bracket : Byte.byte := Byte.x5d.

Section address.
Context (address_ok : bytes -> bool).

Definition is_valid_host_port (endpoint : HostPortEndpoint) : bool :=
  if (endpoint.(port) =? 0) || (size_of endpoint.(host) =? 0) then false
  else if address_ok endpoint.(host) then true
  else is_valid_hostname endpoint.(host).

(** The host and the port text of an address, before they are checked. *)
Definition split_host_port (address : bytes) : option (bytes * bytes) :=
  if size_of address =? 0 then None
  else if bool_decide (head address = Some open_bracket) then
    match find_char close_bracket address with
    | None => None
    | Some close =>
        if (size_of address <? close + 2) || negb (at_ address (close + 1) =? val colon) then None
        else Some (slice address 1 (close - 1), drop (Z.to_nat (close + 2)) address)
    end
  else
    match rfind_char colon address with
    | None => None
    | Some split =>
        if (split =? 0) || (size_of address <=? split + 1) then None
        else Some (slice address 0 split, drop (Z.to_nat (split + 1)) address)
    end.

Definition parse_host_port (address : bytes) : option HostPortEndpoint :=
  match split_host_port address with
  | None => None
  | Some (host, port_view) =>
      match from_chars false 0 (2 ^ 32 - 1) port_view with
      | None => None
      | Some port_u32 =>
          if (port_u32 =? 0) || (2 ^ 16 - 1 <? port_u32) then None
          else
            let endpoint := mkEndpoint host port_u32 in
            if negb (is_valid_host_port endpoint) then None else Some endpoint
      end
  end.

Definition host_port_to_string (endpoint : HostPortEndpoint) : bytes :=
  match find_char colon endpoint.(host) with
  | Some _ => $"[" ++ endpoint.(host) ++ $"]:" ++ to_string endpoint.(port)
  | None => endpoint.(host) ++ $":" ++ to_string endpoint.(port)
  end.

(** ** Lemmas *)

Lemma find_char_app c s rest :
  c ∉ s -> find_char c (s ++ c :: rest) = Some (size_of s).
Proof.
  induction s as [|x s IH]; intros H; cbn [app find_char].
  - by rewrite bool_decide_eq_true_2.
  - apply not_elem_of_cons in H as [Hx Hs]. rewrite bool_decide_eq_false_2 by congruence.
    rewrite IH by done. by rewrite size_of_cons.
Qed.

Lemma find_char_None c s : find_char c s = None <-> c ∉ s.
Proof.
  induction s as [|x s IH]; cbn [find_char]; [split; [intros _; apply not_elem_of_nil|done]|].
  rewrite not_elem_of_cons. case_bool_decide; [naive_solver|].
  destruct (find_char c s) eqn:E; naive_solver.
Qed.

Lemma rfind_char_None c s : c ∉ s -> rfind_char c s = None.
Proof.
  induction s as [|x s IH]; intros H; cbn [rfind_char]; [done|].
  apply not_elem_of_cons in H as [Hx Hs]. rewrite IH by done. by rewrite bool_decide_eq_false_2 by congruence.
Qed.

Lemma rfind_char_app c s rest :
  c ∉ rest -> rfind_char c (s ++ c :: rest) = Some (size_of s).
Proof.
  intros H. induction s as [|x s IH]; cbn [app rfind_char].
  - rewrite rfind_char_None by done. by rewrite bool_decide_eq_true_2.
  - rewrite IH. by rewrite size_of_cons.
Qed.

Lemma colon_not_in_port z : 0 <= z -> colon ∉ to_string z.
Proof.
  intros Hz H. pose proof (to_string_digits z Hz) as Hd. eapply Forall_forall in Hd; [|done].
  destruct Hd as [d Hd]. by vm_compute in Hd.
Qed.

(** Printing then splitting gives the two texts back. *)
Lemma split_printed e :
  0 <= port e -> host e <> [] -> open_bracket ∉ host e -> close_bracket ∉ host e ->
  split_host_port (host_port_to_string e) = Some (host e, to_string (port e)).
Proof.
  intros Hp Hh Ho Hc. pose proof (to_string_nonempty (port e) Hp) as Hne.
  assert (0 < size_of (host e)) as Hhs by (destruct (host e); [done|]; size_lia).
  assert (0 < size_of (to_string (port e))) as Hts by (destruct (to_string (port e)); [done|]; size_lia).
  unfold split_host_port, host_port_to_string.
  destruct (find_char colon (host e)) as [i|] eqn:E.
  - change ($"[" ++ host e ++ $"]:" ++ to_string (port e)) with
      ((open_bracket :: host e) ++ close_bracket :: (colon :: to_string (port e))).
    rewrite find_char_app by (apply not_elem_of_cons; split; [vm_compute; congruence|done]).
    rewrite (bool_decide_eq_true_2 (head _ = _)) by done.
    destruct (Z.eqb_spec (size_of ((open_bracket :: host e) ++ close_bracket :: colon :: to_string (port e))) 0);
      [size_lia|].
    destruct (Z.ltb_spec (size_of ((open_bracket :: host e) ++ close_bracket :: colon :: to_string (port e)))
      (size_of (open_bracket :: host e) + 2)); [size_lia|]. cbn [orb].
    assert (forall s, at_ ((open_bracket :: host e) ++ close_bracket :: colon :: s)
      (size_of (open_bracket :: host e) + 1) = val colon) as ->.
    { intros s. unfold at_. f_equal. apply nth_lookup_Some. rewrite lookup_app_r; unfold size_of; [|lia].
      replace (_ - _)%nat with 1%nat by lia. done. }
    rewrite Z.eqb_refl. cbn [negb]. do 2 f_equal.
    + rewrite size_of_cons. replace (1 + size_of (host e) - 1) with (size_of (host e)) by lia.
      exact (slice_mid [open_bracket] (host e) _).
    + change (close_bracket :: colon :: to_string (port e)) with ([close_bracket; colon] ++ to_string (port e)).
      rewrite app_assoc. apply drop_app_length'. rewrite length_app. unfold size_of. simpl. lia.
  - change ($":" ++ to_string (port e)) with (colon :: to_string (port e)).
    rewrite rfind_char_app by (by apply colon_not_in_port).
    rewrite (bool_decide_eq_false_2 (head _ = _)).
    2:{ destruct (host e) as [|x h]; [done|]. simpl. intros [= ->]. apply Ho. left. }
    destruct (Z.eqb_spec (size_of (host e ++ colon :: to_string (port e))) 0); [size_lia|].
    destruct (Z.eqb_spec (size_of (host e)) 0); [lia|].
    destruct (Z.leb_spec (size_of (host e ++ colon :: to_string (port e))) (size_of (host e) + 1));
      [size_lia|]. cbn [orb]. do 2 f_equal.
    + exact (slice_mid [] (host e) _).
    + rewrite cons_middle, app_assoc. apply drop_app_length'. rewrite length_app. unfold size_of. simpl. lia.
Qed.

(** Endpoints survive printing: a valid endpoint whose host holds no
    bracket is parsed back exactly as it was printed, bracketed or not; and
    whatever the parser accepts is a valid endpoint with a port between 1 and
    65535, so it is never lost when stored as text and read again. *)
Theorem host_port_roundtrip :
  (forall e, is_valid_host_port e = true -> 0 <= port e < 2 ^ 16 ->
    open_bracket ∉ host e -> close_bracket ∉ host e ->
    parse_host_port (host_port_to_string e) = Some e) /\
  (forall address e, parse_host_port address = Some e ->
    is_valid_host_port e = true /\ 0 < port e < 2 ^ 16).
Proof.
  split.
  - intros e Hv Hp Ho Hc. assert (host e <> []) as Hh.
    { intros E. unfold is_valid_host_port in Hv. rewrite E in Hv. by destruct (port e =? 0). }
    assert (port e <> 0) as Hp0.
    { intros E. unfold is_valid_host_port in Hv. by rewrite E in Hv. }
    unfold parse_host_port. rewrite split_printed by (done || lia).
    rewrite from_chars_to_string by lia.
    destruct (Z.eqb_spec (port e) 0); [lia|]. destruct (Z.ltb_spec (2 ^ 16 - 1) (port e)); [lia|].
    cbn [orb]. destruct e as [h p]; simpl in *. by rewrite Hv.
  - intros address e. unfold parse_host_port. destruct (split_host_port address) as [[h pv]|]; [|done].
    destruct (from_chars _ _ _ pv) as [p|] eqn:E; [|done]. apply from_chars_range in E.
    destruct (Z.eqb_spec p 0), (Z.ltb_spec (2 ^ 16 - 1) p); simpl; try done.
    destruct (is_valid_host_port (mkEndpoint h p)) eqn:Ev; simpl; [|done].
    intros [= <-]. split; [done|]. simpl. lia.
Qed.

End address.

(** A text with a colon is taken for an IPv6 address, any other for none. *)
Definition colon_address (text : bytes) : bool := bool_decide (colon ∈ text).

Lemma host_port_roundtrip_witness :
  parse_host_port colon_address $"[fe80::1]:8765" = Some (mkEndpoint $"fe80::1" 8765) /\
  parse_host_port colon_address $"peer-1.local:443" = Some (mkEndpoint $"peer-1.local" 443) /\
  parse_host_port colon_address $"peer-1.local:65536" = None /\
  parse_host_port colon_address (host_port_to_string (mkEndpoint $"fe80::1" 8765))
    = Some (mkEndpoint $"fe80::1" 8765).
Proof.
  split; [vm_compute; reflexivity|]. split; [vm_compute; reflexivity|].
  split; [vm_compute; reflexivity|].
  refine (proj1 (host_port_roundtrip colon_address) (mkEndpoint $"fe80::1" 8765) _ _ _ _).
  - vm_compute. reflexivity.
  - simpl. lia.
  - apply (bool_decide_eq_false_1 _). vm_compute. reflexivity.
  - apply (bool_decide_eq_false_1 _). vm_compute. reflexivity.
Defined.
