(* ===== verification/NodeId.v ===== *)
(** * DHT node identifiers

    [p2p/src/dht/node_id.cpp]: 256-bit identifiers, the XOR distance between
    them and the bucket of a remote node.  [NodeId::random] and
    [NodeId::hash_of] draw on libsodium and are not modelled here. *)

From S2P Require Import Prelude Codec Text.

(** [bytes_], an array of [kBytes] bytes. *)
Abbreviation NodeId := bytes.

Definition kBytes : Z := 32.

(** A value of the array type. *)
Definition valid_id (id : NodeId) : Prop := size_of id = kBytes.

(** [NodeId{}] *)
Definition zero_id : NodeId := replicate (Z.to_nat kBytes) Byte.x00.

Definition from_hex (hex : bytes) : option NodeId := Hex.hex_decode_into kBytes hex.

Definition from_bytes (input : bytes) : option NodeId :=
  if negb (size_of input =? kBytes) then None else Some input.

Definition to_hex (id : NodeId) : bytes := Hex.hex_encode id.

Definition is_zero (id : NodeId) : bool := forallb (fun b => val b =? 0) id.

(** [operator<] *)
Definition id_less (lhs rhs : NodeId) : bool := bytes_ltb lhs rhs.

Definition xor_distance (lhs rhs : NodeId) : bytes :=
  zip_with (fun l r => byte_of (Z.lxor (val l) (val r))) lhs rhs.

Definition distance_less (lhs rhs : bytes) : bool := bytes_ltb lhs rhs.

(** The inner loop of [bucket_index], from bit [bit] down to bit 0. *)
Fixpoint highest_bit (value : Z) (bit : nat) : option Z :=
  if negb (Z.land value (Z.shiftl 1 (Z.of_nat bit)) =? 0) then Some (Z.of_nat bit)
  else match bit with O => None | S bit' => highest_bit value bit' end.

(** The outer loop, at byte [byte_index] of the distance. *)
Fixpoint bucket_loop (distance : bytes) (byte_index : Z) : option Z :=
  match distance with
  | [] => None
  | b :: rest =>
      if val b =? 0 then bucket_loop rest (byte_index + 1)
      else
        match highest_bit (val b) 7 with
        | Some bit => Some ((kBytes - byte_index - 1) * 8 + bit)
        | None => bucket_loop rest (byte_index + 1)
        end
  end.

Definition bucket_index (local remote : NodeId) : option Z :=
  bucket_loop (xor_distance local remote) 0.

(** The distance as a number. *)
Definition distance (lhs rhs : NodeId) : Z := be_value (xor_distance lhs rhs).

(** ** Lemmas *)

(** Two numbers without a common bit. *)
Lemma land_shiftl_zero x y n : 0 <= n -> 0 <= x < 2 ^ n -> Z.land x (Z.shiftl y n) = 0.
Proof.
  intros Hn Hx. apply Z.bits_inj'. intros i Hi. rewrite Z.land_spec, Z.bits_0.
  destruct (Z.lt_ge_cases i n) as [Hin|Hin].
  - rewrite Z.shiftl_spec_low by done. apply andb_false_r.
  - rewrite <- (Z.mod_small x (2 ^ n)) by done. by rewrite Z.mod_pow2_bits_high by lia.
Qed.

Lemma be_value_cons b bs : be_value (b :: bs) = be_value bs + val b * 2 ^ (8 * size_of bs).
Proof.
  pose proof (be_value_range bs) as Hb. unfold in_uint in Hb. pose proof (size_of_nonneg bs).
  rewrite <- (Z.shiftl_mul_pow2 (val b)) by lia.
  rewrite Z.add_nocarry_lxor, Z.lxor_lor by (apply land_shiftl_zero; lia).
  unfold be_value in *. rewrite reverse_cons, LittleEndianList.le_combine_app, length_reverse.
  do 2 f_equal; [|unfold size_of; lia]. change LittleEndianList.le_combine with le_value.
  by rewrite le_value_cons, le_value_nil, Z.shiftl_0_l, Z.lor_0_r.
Qed.

Lemma be_value_cons_lxor b bs :
  be_value (b :: bs) = Z.lxor (be_value bs) (Z.shiftl (val b) (8 * size_of bs)).
Proof.
  pose proof (be_value_range bs) as Hb. unfold in_uint in Hb. pose proof (size_of_nonneg bs).
  rewrite be_value_cons, <- Z.shiftl_mul_pow2 by lia.
  by rewrite Z.add_nocarry_lxor by (apply land_shiftl_zero; lia).
Qed.

Lemma lxor_byte x y : 0 <= x < 256 -> 0 <= y < 256 -> 0 <= Z.lxor x y < 256.
Proof.
  intros Hx Hy. assert (0 <= Z.lxor x y) as H0 by (apply Z.lxor_nonneg; lia). split; [done|].
  destruct (Z.eq_dec (Z.lxor x y) 0) as [->|Hne]; [lia|]. change 256 with (2 ^ 8).
  assert (forall z, 0 <= z < 256 -> Z.log2 z < 8) as Hlog.
  { intros z Hz. destruct (Z.eq_dec z 0) as [->|]; [done|]. apply Z.log2_lt_pow2; lia. }
  apply Z.log2_lt_pow2; [lia|]. pose proof (Z.log2_lxor x y). pose proof (Hlog x). pose proof (Hlog y). lia.
Qed.

Lemma val_xor l r : val (byte_of (Z.lxor (val l) (val r))) = Z.lxor (val l) (val r).
Proof. rewrite val_byte_of, wrap_small; [done|]. apply lxor_byte; apply val_range. Qed.

Lemma size_xor_distance a b : size_of a = size_of b -> size_of (xor_distance a b) = size_of a.
Proof. unfold size_of, xor_distance. rewrite length_zip_with. lia. Qed.

(** The distance is the exclusive or of the two numbers. *)
Lemma distance_lxor a b :
  size_of a = size_of b -> distance a b = Z.lxor (be_value a) (be_value b).
Proof.
  unfold distance. revert b. induction a as [|x a IH]; intros [|y b] H; try done;
    rewrite ?size_of_cons, ?size_of_nil in H; try size_lia.
  change (xor_distance (x :: a) (y :: b)) with (byte_of (Z.lxor (val x) (val y)) :: xor_distance a b).
  rewrite !be_value_cons_lxor, IH, val_xor, size_xor_distance, Z.shiftl_lxor by lia.
  replace (size_of b) with (size_of a) by lia.
  rewrite <- !Z.lxor_assoc. f_equal. rewrite !Z.lxor_assoc. f_equal. apply Z.lxor_comm.
Qed.

Lemma be_value_inj a b : size_of a = size_of b -> be_value a = be_value b -> a = b.
Proof.
  intros Hs H. unfold size_of in Hs. rewrite <- (be_bytes_value (length a) a), H by done.
  apply be_bytes_value. lia.
Qed.

(** Comparing byte by byte compares the numbers. *)
Lemma bytes_ltb_be_value a b :
  size_of a = size_of b -> bytes_ltb a b = (be_value a <? be_value b).
Proof.
  revert b. induction a as [|x a IH]; intros [|y b] H; try done;
    rewrite ?size_of_cons, ?size_of_nil in H; try size_lia.
  cbn [bytes_ltb]. rewrite !be_value_cons. fold (val x) (val y).
  replace (size_of b) with (size_of a) by lia. rewrite IH by lia.
  pose proof (be_value_range a) as Ha. pose proof (be_value_range b) as Hb.
  replace (size_of b) with (size_of a) in Hb by lia. unfold in_uint in *.
  pose proof (val_range x). pose proof (val_range y). set (P := 2 ^ (8 * size_of a)) in *.
  destruct (Z.ltb_spec (val x) (val y)); [symmetry; apply Z.ltb_lt; nia|].
  destruct (Z.ltb_spec (val y) (val x)); [symmetry; apply Z.ltb_ge; nia|].
  replace (val y) with (val x) by lia.
  destruct (Z.ltb_spec (be_value a) (be_value b)); symmetry; [apply Z.ltb_lt|apply Z.ltb_ge]; lia.
Qed.

Lemma highest_bit_byte b : val b <> 0 -> highest_bit (val b) 7 = Some (Z.log2 (val b)).
Proof. destruct b; intros H; first [by destruct H | reflexivity]. Qed.

Lemma bucket_loop_log2 d i :
  size_of d = kBytes - i ->
  bucket_loop d i = if be_value d =? 0 then None else Some (Z.log2 (be_value d)).
Proof.
  revert i. induction d as [|b d IH]; intros i Hi; [done|].
  rewrite size_of_cons in Hi. cbn [bucket_loop]. rewrite be_value_cons.
  pose proof (be_value_range d) as Hd. pose proof (val_range b). pose proof (size_of_nonneg d).
  unfold in_uint in Hd. destruct (Z.eqb_spec (val b) 0) as [E|E].
  - rewrite IH by lia. by rewrite E, Z.mul_0_l, Z.add_0_r.
  - rewrite highest_bit_byte by done.
    assert (0 < val b) as Hb by lia. pose proof (Z.log2_spec _ Hb) as [Hl Hu].
    pose proof (Z.log2_nonneg (val b)) as Hn.
    destruct (Z.eqb_spec (be_value d + val b * 2 ^ (8 * size_of d)) 0) as [E0|_]; [nia|].
    f_equal. symmetry. apply Z.log2_unique; [lia|].
    replace ((kBytes - i - 1) * 8 + Z.log2 (val b)) with (Z.log2 (val b) + 8 * size_of d) by lia.
    rewrite <- Z.add_succ_l. rewrite !Z.pow_add_r by lia. nia.
Qed.

Lemma distance_self a : distance a a = 0.
Proof. rewrite distance_lxor by done. apply Z.lxor_nilpotent. Qed.

Lemma distance_zero a b : valid_id a -> valid_id b -> distance a b = 0 -> a = b.
Proof.
  unfold valid_id. intros Ha Hb H. rewrite distance_lxor in H by lia.
  apply Z.lxor_eq in H. by apply be_value_inj; [lia|].
Qed.

Lemma distance_range a b : valid_id a -> valid_id b -> 0 <= distance a b < 2 ^ 256.
Proof.
  unfold valid_id, distance. intros Ha Hb. pose proof (be_value_range (xor_distance a b)) as H.
  rewrite size_xor_distance, Ha in H by lia. exact H.
Qed.

Lemma distance_inj a b c :
  valid_id a -> valid_id b -> valid_id c -> distance a c = distance b c -> a = b.
Proof.
  unfold valid_id. intros Ha Hb Hc. rewrite !distance_lxor by lia. intros H. apply be_value_inj; [lia|].
  apply (f_equal (fun x => Z.lxor x (be_value c))) in H.
  by rewrite !Z.lxor_assoc, !Z.lxor_nilpotent, !Z.lxor_0_r in H.
Qed.

Lemma lxor_le_add x y : 0 <= x -> 0 <= y -> Z.lxor x y <= x + y.
Proof.
  intros Hx Hy. pose proof (Z.add_lxor_2land x y) as H.
  pose proof (proj2 (Z.land_nonneg x y) (or_introl Hx)). lia.
Qed.

Lemma bucket_index_spec a b :
  valid_id a -> valid_id b ->
  match bucket_index a b with
  | None => a = b
  | Some i => 0 <= i < kBytes * 8 /\ 2 ^ i <= distance a b < 2 ^ (i + 1)
  end.
Proof.
  intros Ha Hb. pose proof Ha as Ha'. pose proof Hb as Hb'. unfold valid_id in Ha', Hb'.
  unfold bucket_index. rewrite bucket_loop_log2 by (rewrite size_xor_distance; lia).
  fold (distance a b). pose proof (distance_range a b Ha Hb) as Hr.
  destruct (Z.eqb_spec (distance a b) 0) as [E|E]; [by apply distance_zero|].
  pose proof (Z.log2_spec (distance a b) ltac:(lia)) as Hl.
  pose proof (Z.log2_nonneg (distance a b)). rewrite Z.add_1_r. split; [|done]. split; [done|].
  apply (Z.pow_lt_mono_r_iff 2); [lia|done|]. change (kBytes * 8) with 256. lia.
Qed.

(** Identifiers form Kademlia's metric space. On 32-byte identifiers the
    XOR distance, read as a 256-bit number, is zero only between equal
    identifiers, symmetric, satisfies the triangle inequality and, seen from a
    target, distinguishes any two identifiers; [distance_less] compares these
    numbers; and [bucket_index] is the position of the highest bit of the
    distance, a number below 256, absent exactly for the node itself. *)
Theorem xor_metric (a b c : NodeId) :
  valid_id a -> valid_id b -> valid_id c ->
  (distance a b = 0 <-> a = b) /\
  distance a b = distance b a /\
  distance a c <= distance a b + distance b c /\
  (distance a c = distance b c -> a = b) /\
  distance_less (xor_distance a c) (xor_distance b c) = (distance a c <? distance b c) /\
  match bucket_index a b with
  | None => a = b
  | Some i => 0 <= i < kBytes * 8 /\ 2 ^ i <= distance a b < 2 ^ (i + 1)
  end.
Proof.
  intros Ha Hb Hc. pose proof Ha as Ha'. pose proof Hb as Hb'. unfold valid_id in Ha', Hb', Hc.
  split_and!.
  - split; [by apply distance_zero|intros ->; apply distance_self].
  - rewrite !distance_lxor by lia. apply Z.lxor_comm.
  - rewrite (distance_lxor a c) by lia.
    replace (Z.lxor (be_value a) (be_value c)) with (Z.lxor (distance a b) (distance b c)).
    + apply lxor_le_add; apply distance_range; done.
    + rewrite !distance_lxor by lia. rewrite <- Z.lxor_assoc. f_equal.
      by rewrite Z.lxor_assoc, Z.lxor_nilpotent, Z.lxor_0_r.
  - by apply distance_inj.
  - unfold distance_less, distance. apply bytes_ltb_be_value. rewrite !size_xor_distance by lia. lia.
  - by apply bucket_index_spec.
Qed.

(** Identifiers survive hexadecimal text: a 32-byte identifier printed
    with [to_hex] is read back by [from_hex] as itself, and whatever [from_hex]
    or [from_bytes] accepts is an identifier of 32 bytes. *)
Theorem node_id_roundtrip :
  (forall id, valid_id id -> from_hex (to_hex id) = Some id /\ from_bytes id = Some id) /\
  (forall text id, from_hex text = Some id -> valid_id id) /\
  (forall input id, from_bytes input = Some id -> id = input /\ valid_id id).
Proof.
  split_and!.
  - intros id Hid. split; [by apply Hex.hex_decode_into_encode|]. unfold from_bytes.
    by rewrite Hid.
  - intros text id. apply Hex.hex_decode_into_size.
  - intros input id. unfold from_bytes. destruct (Z.eqb_spec (size_of input) kBytes); [|done].
    naive_solver.
Qed.

(** Two identifiers that differ in one bit of their second byte. *)
Definition sample_id (b : Byte.byte) : NodeId := Byte.x7f :: b :: replicate 30 Byte.x01.

Lemma xor_metric_witness :
  bucket_index (sample_id Byte.x10) (sample_id Byte.x30) = Some 245 /\
  distance (sample_id Byte.x10) (sample_id Byte.x30) = 2 ^ 245 /\
  distance (sample_id Byte.x10) (sample_id Byte.x30) <=
    distance (sample_id Byte.x10) zero_id + distance zero_id (sample_id Byte.x30).
Proof.
  split; [vm_compute; reflexivity|]. split; [vm_compute; reflexivity|].
  exact (proj1 (proj2 (proj2 (xor_metric (sample_id Byte.x10) zero_id (sample_id Byte.x30)
    ltac:(reflexivity) ltac:(reflexivity) ltac:(reflexivity))))).
Defined.

Lemma node_id_roundtrip_witness :
  from_hex (to_hex (sample_id Byte.x30)) = Some (sample_id Byte.x30) /\ from_hex $"7f10" = None.
Proof.
  split; [|vm_compute; reflexivity].
  exact (proj1 (proj1 node_id_roundtrip (sample_id Byte.x30) ltac:(reflexivity))).
Defined.
