(* ===== verification/RoutingTable.v ===== *)
(** * The DHT routing table

    [p2p/src/dht/routing_table.cpp]: one bucket of contacts per position of the
    highest differing bit.  The mutex that every method holds makes a method
    one step. *)

From S2P Require Import Prelude Codec Text HostPort NodeId.

Record NodeContact := mkContact {
  id : NodeId;
  endpoint : HostPortEndpoint;
  last_seen_unix_ms : Z;
  verified : bool
}.

#[global] Instance NodeContact_eq_dec : EqDecision NodeContact.
Proof. solve_decision. Defined.

Record RoutingTable := mkTable {
  local_id_ : NodeId;
  bucket_size_ : Z;
  buckets_ : list (list NodeContact)
}.

Definition make_table (local_id : NodeId) (bucket_size : Z) : RoutingTable :=
  mkTable local_id (Z.max bucket_size 1) (replicate (Z.to_nat (kBytes * 8)) []).

(** [std::find_if] by identifier. *)
Fixpoint find_contact (i : NodeId) (bucket : list NodeContact) : option (nat * NodeContact) :=
  match bucket with
  | [] => None
  | c :: rest =>
      if bool_decide (c.(id) = i) then Some (0%nat, c)
      else match find_contact i rest with Some (n, c') => Some (S n, c') | None => None end
  end.

(** The comparison of [std::min_element]: unverified contacts first, then the
    ones not seen for longest. *)
Definition evict_before (lhs rhs : NodeContact) : bool :=
  if negb (Bool.eqb lhs.(verified) rhs.(verified)) then negb lhs.(verified) && rhs.(verified)
  else lhs.(last_seen_unix_ms) <? rhs.(last_seen_unix_ms).

(** [std::min_element]: the position of the first smallest element, [pos] the
    position of the head and [best] the smallest one so far. *)
Fixpoint min_loop (bucket : list NodeContact) (pos : nat) (best : nat * NodeContact) : nat * NodeContact :=
  match bucket with
  | [] => best
  | c :: rest => min_loop rest (S pos) (if evict_before c best.2 then (pos, c) else best)
  end.

Definition min_element (bucket : list NodeContact) : option (nat * NodeContact) :=
  match bucket with
  | [] => None
  | c :: rest => Some (min_loop rest 1 (0%nat, c))
  end.

(** The body of [touch] on the contact's bucket. *)
Definition touch_bucket (bucket_size : Z) (contact : NodeContact) (bucket : list NodeContact)
    : list NodeContact :=
  match find_contact contact.(id) bucket with
  | Some (n, existing) =>
      let updated := mkContact existing.(id) contact.(endpoint)
        (Z.max existing.(last_seen_unix_ms) contact.(last_seen_unix_ms))
        (existing.(verified) || contact.(verified)) in
      take n bucket ++ drop (S n) bucket ++ [updated]
  | None =>
      if size_of bucket <? bucket_size then bucket ++ [contact]
      else
        match min_element bucket with
        | Some (n, _) => <[n := contact]> bucket
        | None => bucket
        end
  end.

Definition prune_stale (cutoff_unix_ms : Z) (t : RoutingTable) : RoutingTable :=
  mkTable t.(local_id_) t.(bucket_size_)
    (filter (fun c => cutoff_unix_ms <= last_seen_unix_ms c) <$> t.(buckets_)).

Definition contains (i : NodeId) (t : RoutingTable) : bool :=
  existsb (existsb (fun c => bool_decide (c.(id) = i))) t.(buckets_).

Definition size (t : RoutingTable) : Z := foldr (fun bucket total => size_of bucket + total) 0 t.(buckets_).

Definition all_contacts (t : RoutingTable) : list NodeContact := concat t.(buckets_).

(** The comparison [nearest] sorts by. *)
Definition nearer (target : NodeId) (lhs rhs : NodeContact) : bool :=
  let dl := xor_distance lhs.(id) target in
  let dr := xor_distance rhs.(id) target in
  if distance_less dl dr then true
  else if distance_less dr dl then false
  else rhs.(last_seen_unix_ms) <? lhs.(last_seen_unix_ms).

(** [rhs] does not come before [lhs]. *)
Definition not_after (target : NodeId) (lhs rhs : NodeContact) : Prop := nearer target rhs lhs = false.
#[global] Instance not_after_dec target lhs rhs : Decision (not_after target lhs rhs) := bool_eq_dec _ _.

(** [std::sort]: the contacts of a table have different identifiers, hence
    different distances, so that only one order is sorted. *)
Definition nearest (target : NodeId) (limit : Z) (t : RoutingTable) : list NodeContact :=
  if limit =? 0 then []
  else
    let contacts := merge_sort (not_after target) (all_contacts t) in
    if limit <? size_of contacts then take (Z.to_nat limit) contacts else contacts.

Section endpoints.
Context (address_ok : bytes -> bool).

Definition touch (contact : NodeContact) (t : RoutingTable) : RoutingTable :=
  if bool_decide (contact.(id) = t.(local_id_)) || negb (is_valid_host_port address_ok contact.(endpoint)) then t
  else
    match bucket_index t.(local_id_) contact.(id) with
    | None => t
    | Some index =>
        mkTable t.(local_id_) t.(bucket_size_)
          (alter (touch_bucket t.(bucket_size_) contact) (Z.to_nat index) t.(buckets_))
    end.

(** A method call that changes the table. *)
Inductive step : RoutingTable -> RoutingTable -> Prop :=
  | step_touch c t : valid_id c.(id) -> step t (touch c t)
  | step_prune cutoff t : step t (prune_stale cutoff t).

(** A bucket of the table: no more contacts than it may hold, all of them
    reachable nodes that belong there, no two with the same identifier. *)
Definition bucket_ok (t : RoutingTable) (i : nat) (bucket : list NodeContact) : Prop :=
  size_of bucket <= t.(bucket_size_) /\
  NoDup (id <$> bucket) /\
  Forall (fun c => valid_id c.(id) /\ is_valid_host_port address_ok c.(endpoint) = true /\
            bucket_index t.(local_id_) c.(id) = Some (Z.of_nat i)) bucket.

Definition table_ok (t : RoutingTable) : Prop :=
  valid_id t.(local_id_) /\ 1 <= t.(bucket_size_) /\ size_of t.(buckets_) = kBytes * 8 /\
  forall i bucket, t.(buckets_) !! i = Some bucket -> bucket_ok t i bucket.

(** ** Lemmas: one bucket *)

Lemma find_contact_spec i bucket :
  match find_contact i bucket with
  | Some (n, c) => bucket !! n = Some c /\ c.(id) = i
  | None => i ∉ (id <$> bucket)
  end.
Proof.
  induction bucket as [|c bucket IH]; simpl; [apply not_elem_of_nil|].
  case_bool_decide as E; [done|].
  destruct (find_contact i bucket) as [[n c']|]; [done|]. apply not_elem_of_cons. by split; [congruence|].
Qed.

Lemma min_loop_spec bucket pos best (pre : list NodeContact) :
  length pre = pos -> pre !! best.1 = Some best.2 ->
  (forall z, z ∈ pre -> evict_before z best.2 = false) ->
  let r := min_loop bucket pos best in
  (pre ++ bucket) !! r.1 = Some r.2 /\ forall z, z ∈ pre ++ bucket -> evict_before z r.2 = false.
Proof.
  revert pos best pre. induction bucket as [|c bucket IH]; intros pos best pre Hl Hb Hm; simpl.
  { by rewrite app_nil_r. }
  rewrite cons_middle, app_assoc. apply IH.
  - rewrite length_app. simpl. lia.
  - destruct (evict_before c best.2); simpl.
    + rewrite lookup_app_r by lia. by rewrite <- Hl, Nat.sub_diag.
    + by apply lookup_app_l_Some.
  - intros z Hz. apply elem_of_app in Hz as [Hz|Hz%list_elem_of_singleton].
    + specialize (Hm z Hz). destruct (evict_before c best.2) eqn:E; [|done]. simpl.
      unfold evict_before in *. destruct (verified z), (verified c), (verified best.2); simpl in *; try done;
        bool_hyps; apply Z.ltb_ge; lia.
    + subst z. destruct (evict_before c best.2) eqn:E; [simpl|done].
      unfold evict_before. rewrite Bool.eqb_reflx. simpl. apply Z.ltb_ge. lia.
Qed.

Lemma min_element_spec bucket :
  bucket <> [] -> exists n c, min_element bucket = Some (n, c) /\ bucket !! n = Some c /\
    forall z, z ∈ bucket -> evict_before z c = false.
Proof.
  destruct bucket as [|c bucket]; [done|]. intros _. simpl.
  destruct (min_loop_spec bucket 1 (0%nat, c) [c]) as [H1 H2]; [done..| |].
  - intros z Hz%list_elem_of_singleton. subst z. unfold evict_before. rewrite Bool.eqb_reflx. simpl.
    apply Z.ltb_ge. lia.
  - destruct (min_loop bucket 1 (0%nat, c)) as [n m]. by exists n, m.
Qed.

(** The three things [touch] does to a bucket: refresh the contact and move it
    to the end, append it, or put it in the place of the first to be evicted. *)
Inductive touched (k : Z) (c : NodeContact) : list NodeContact -> list NodeContact -> Prop :=
  | touched_refresh pre x post y :
      x.(id) = c.(id) -> y.(id) = c.(id) -> y.(endpoint) = c.(endpoint) ->
      touched k c (pre ++ x :: post) (pre ++ post ++ [y])
  | touched_append bucket :
      c.(id) ∉ (id <$> bucket) -> size_of bucket < k -> touched k c bucket (bucket ++ [c])
  | touched_replace pre x post :
      c.(id) ∉ (id <$> (pre ++ x :: post)) -> k <= size_of (pre ++ x :: post) ->
      (forall z, z ∈ pre ++ x :: post -> evict_before z x = false) ->
      touched k c (pre ++ x :: post) (pre ++ c :: post).

Lemma touch_bucket_touched k c bucket : 1 <= k -> touched k c bucket (touch_bucket k c bucket).
Proof.
  intros Hk. unfold touch_bucket. pose proof (find_contact_spec (id c) bucket) as Hf.
  destruct (find_contact (id c) bucket) as [[n x]|].
  - destruct Hf as [Hn Hx]. rewrite <- (take_drop_middle bucket n x Hn) at 1. by apply touched_refresh.
  - destruct (Z.ltb_spec (size_of bucket) k); [by constructor|].
    destruct (min_element_spec bucket) as (n & x & -> & Hn & Hm).
    { intros ->. rewrite size_of_nil in *. lia. }
    rewrite insert_take_drop by (by apply lookup_lt_Some in Hn).
    rewrite <- (take_drop_middle bucket n x Hn) at 1.
    apply touched_replace; by rewrite (take_drop_middle bucket n x Hn).
Qed.

Lemma touched_elem k c bucket bucket' z :
  touched k c bucket bucket' -> z ∈ bucket' -> z ∈ bucket \/ (z.(id) = c.(id) /\ z.(endpoint) = c.(endpoint)).
Proof. intros []; set_solver. Qed.

Lemma touched_size k c bucket bucket' :
  touched k c bucket bucket' -> size_of bucket <= k -> size_of bucket <= size_of bucket' <= k.
Proof. intros []; size_lia. Qed.

Lemma touched_NoDup k c bucket bucket' :
  touched k c bucket bucket' -> NoDup (id <$> bucket) -> NoDup (id <$> bucket').
Proof.
  intros [pre x post y Hx Hy _|b Hn _|pre x post Hn _ _]; rewrite ?fmap_app in *; simpl in *.
  - rewrite Hy, <- Hx. intros H. eapply NoDup_Permutation_proper; [|exact H].
    apply Permutation_app_head. symmetry. apply Permutation_cons_append.
  - rewrite <- Permutation_cons_append. by constructor.
  - rewrite !NoDup_app, !NoDup_cons. set_solver.
Qed.

Lemma touched_in k c bucket bucket' :
  touched k c bucket bucket' -> exists z, z ∈ bucket' /\ z.(id) = c.(id) /\ z.(endpoint) = c.(endpoint).
Proof. intros []; eexists; rewrite ?elem_of_app, ?elem_of_cons, ?list_elem_of_singleton; naive_solver. Qed.

Lemma touched_kept k c bucket bucket' z :
  touched k c bucket bucket' -> z ∈ bucket -> z.(id) <> c.(id) ->
  z ∈ bucket' \/ (k <= size_of bucket /\ forall w, w ∈ bucket -> evict_before w z = false).
Proof. intros []; set_solver. Qed.

(** ** Lemmas: the table *)

Lemma make_table_ok local k : valid_id local -> table_ok (make_table local k).
Proof.
  intros Hl. split_and!; [done|simpl; lia|reflexivity|].
  intros i bucket Hb. apply lookup_replicate in Hb as [-> _].
  split_and!; [simpl; rewrite size_of_nil; lia|constructor|constructor].
Qed.

Lemma touch_ok c t : valid_id c.(id) -> table_ok t -> table_ok (touch c t).
Proof.
  intros Hc Ht. pose proof Ht as (Hl & Hk & Hn & Hb). unfold touch.
  destruct (bool_decide _ || negb _) eqn:Eg; [done|]. bool_hyps.
  destruct (bucket_index (local_id_ t) (id c)) as [index|] eqn:Ei; [|done].
  split_and!; [done..|unfold size_of in *; simpl; by rewrite length_alter|].
  intros i bucket. simpl. rewrite list_lookup_alter. case_decide as E; [|by apply Hb].
  subst i. destruct (buckets_ t !! Z.to_nat index) as [b|] eqn:Eb; simpl; [|done]. intros [= <-].
  destruct (Hb _ _ Eb) as (Hs & Hd & Hf). pose proof (touch_bucket_touched (bucket_size_ t) c b Hk) as Htb.
  split_and!.
  - by apply (touched_size _ _ _ _ Htb).
  - by eapply touched_NoDup.
  - apply Forall_forall. intros z Hz. apply (touched_elem _ _ _ _ _ Htb) in Hz as [Hz|[-> ->]].
    + by eapply Forall_forall in Hf.
    + split_and!; [done..|]. rewrite Z2Nat.id; [done|].
      pose proof (bucket_index_spec _ _ Hl Hc) as Hx. rewrite Ei in Hx. tauto.
Qed.

Lemma prune_ok cutoff t : table_ok t -> table_ok (prune_stale cutoff t).
Proof.
  intros (Hl & Hk & Hn & Hb). split_and!; [done..|unfold size_of in *; simpl; by rewrite length_fmap|].
  intros i bucket. simpl. rewrite list_lookup_fmap.
  destruct (buckets_ t !! i) as [b|] eqn:Eb; simpl; [|done]. intros [= <-].
  destruct (Hb _ _ Eb) as (Hs & Hd & Hf). split_and!.
  - unfold size_of in *. simpl. pose proof (length_filter (fun c => cutoff <= last_seen_unix_ms c) b). lia.
  - eapply sublist_NoDup; [exact Hd|]. apply fmap_sublist, sublist_filter.
  - by apply Forall_filter.
Qed.

Lemma elem_of_all_contacts t c :
  c ∈ all_contacts t <-> exists i bucket, t.(buckets_) !! i = Some bucket /\ c ∈ bucket.
Proof.
  unfold all_contacts. rewrite list_elem_of_In, in_concat. setoid_rewrite <- list_elem_of_In. split.
  - intros (b & Hb & Hc). apply list_elem_of_lookup in Hb as [i Hi]. eauto.
  - intros (i & b & Hi & Hc). exists b. split; [by eapply list_elem_of_lookup_2|done].
Qed.

(** Identifiers in different buckets differ. *)
Lemma NoDup_buckets (g : NodeId -> option Z) (bs : list (list NodeContact)) (n : nat) :
  (forall i b, bs !! i = Some b -> NoDup (id <$> b) /\
     Forall (fun c => g c.(id) = Some (Z.of_nat (n + i))) b) ->
  NoDup (id <$> concat bs) /\ forall c, c ∈ concat bs -> exists j, (n <= j)%nat /\ g c.(id) = Some (Z.of_nat j).
Proof.
  revert n. induction bs as [|b bs IH]; intros n H; simpl; [split; [constructor|by intros c ?%elem_of_nil]|].
  destruct (H 0%nat b eq_refl) as [Hb Hf]. rewrite Nat.add_0_r in Hf.
  destruct (IH (S n)) as [Hd Hj].
  { intros i b' Hi. specialize (H (S i) b' Hi). by rewrite Nat.add_succ_r in H. }
  rewrite Forall_forall in Hf. split.
  - rewrite fmap_app. apply NoDup_app. split_and!; [done| |done].
    intros x Hx Hx'. apply list_elem_of_fmap in Hx as (c & -> & Hc).
    apply list_elem_of_fmap in Hx' as (c' & E & Hc'). destruct (Hj c' Hc') as (j & Hlt & Hg).
    rewrite <- E, (Hf c Hc) in Hg. simplify_eq. lia.
  - intros c Hc. apply elem_of_app in Hc as [Hc|Hc]; [by exists n; auto|].
    destruct (Hj c Hc) as (j & ? & ?). exists j. split; [lia|done].
Qed.

Lemma table_ok_NoDup t : table_ok t -> NoDup (id <$> all_contacts t).
Proof.
  intros (_ & _ & _ & Hb). apply (NoDup_buckets (bucket_index (local_id_ t)) _ 0).
  intros i b Hi. destruct (Hb i b Hi) as (_ & Hd & Hf). split; [done|].
  eapply Forall_impl; [exact Hf|]. simpl. tauto.
Qed.

Lemma contains_spec i t : contains i t = true <-> i ∈ (id <$> all_contacts t).
Proof.
  unfold contains. rewrite existsb_exists, list_elem_of_fmap.
  setoid_rewrite existsb_exists. setoid_rewrite elem_of_all_contacts. split.
  - intros (b & Hb & c & Hc & E). bool_hyps. apply list_elem_of_In, list_elem_of_lookup in Hb as [j Hj].
    exists c. split; [done|]. exists j, b. by rewrite list_elem_of_In.
  - intros (c & -> & j & b & Hj & Hc). exists b. rewrite <- list_elem_of_In. split; [by eapply list_elem_of_lookup_2|].
    exists c. rewrite <- list_elem_of_In. split; [done|]. by apply bool_decide_eq_true.
Qed.

Lemma size_all_contacts t : size t = size_of (all_contacts t).
Proof.
  unfold size, all_contacts. induction (buckets_ t) as [|b bs IH]; simpl; [done|].
  by rewrite IH, size_of_app.
Qed.

Lemma rtc_table_ok t t' : rtc step t t' -> table_ok t -> table_ok t' /\ local_id_ t' = local_id_ t /\
  bucket_size_ t' = bucket_size_ t.
Proof.
  induction 1 as [t|t t1 t' Hs _ IH]; [done|]. intros Ht. destruct IH as (H1 & -> & ->).
  - destruct Hs; [by apply touch_ok|by apply prune_ok].
  - split; [done|]. destruct Hs; [|done]. unfold touch. by repeat case_match.
Qed.

(** ** Lemmas: the order of [nearest] *)

Lemma not_after_iff target l r :
  not_after target l r <->
    bytes_ltb (xor_distance l.(id) target) (xor_distance r.(id) target) = true \/
    (xor_distance l.(id) target = xor_distance r.(id) target /\ r.(last_seen_unix_ms) <= l.(last_seen_unix_ms)).
Proof.
  unfold not_after, nearer, distance_less.
  set (dl := xor_distance (id l) target). set (dr := xor_distance (id r) target).
  destruct (bytes_ltb dr dl) eqn:E1.
  - rewrite (bytes_ltb_asym _ _ E1). split; [done|]. intros [?|[E _]]; [done|].
    by rewrite E, bytes_ltb_irrefl in E1.
  - destruct (bytes_ltb dl dr) eqn:E2; [tauto|]. rewrite Z.ltb_ge.
    pose proof (bytes_ltb_total _ _ E2 E1). naive_solver lia.
Qed.

#[local] Instance not_after_total target : Total (not_after target).
Proof.
  intros l r. rewrite !not_after_iff.
  destruct (bytes_ltb (xor_distance (id l) target) (xor_distance (id r) target)) eqn:E1; [tauto|].
  destruct (bytes_ltb (xor_distance (id r) target) (xor_distance (id l) target)) eqn:E2; [tauto|].
  rewrite (bytes_ltb_total _ _ E1 E2). destruct (Z.le_ge_cases (last_seen_unix_ms l) (last_seen_unix_ms r)); tauto.
Qed.

#[local] Instance not_after_trans target : Transitive (not_after target).
Proof.
  intros l m r. rewrite !not_after_iff. intros [H1|[E1 H1]] [H2|[E2 H2]].
  - left. by eapply bytes_ltb_trans.
  - left. by rewrite <- E2.
  - left. by rewrite E1.
  - right. split; [congruence|lia].
Qed.

Lemma sorted_contacts target t :
  StronglySorted (not_after target) (merge_sort (not_after target) (all_contacts t)) /\
  merge_sort (not_after target) (all_contacts t) ≡ₚ all_contacts t.
Proof. split; [apply (StronglySorted_merge_sort _)|apply merge_sort_Permutation]. Qed.

Lemma nearest_prefix target limit t :
  0 <= limit -> exists rest,
    merge_sort (not_after target) (all_contacts t) = nearest target limit t ++ rest /\
    size_of (nearest target limit t) = Z.min limit (size t).
Proof.
  intros Hl. rewrite size_all_contacts. destruct (sorted_contacts target t) as [_ Hp].
  assert (size_of (merge_sort (not_after target) (all_contacts t)) = size_of (all_contacts t)) as Hs.
  { unfold size_of. by rewrite Hp. }
  unfold nearest. destruct (Z.eqb_spec limit 0) as [->|].
  { eexists. split; [done|]. size_lia. }
  destruct (Z.ltb_spec limit (size_of (merge_sort (not_after target) (all_contacts t)))).
  - eexists. split; [symmetry; apply take_drop|]. unfold size_of in *. rewrite length_take. lia.
  - exists []. rewrite app_nil_r. split; [done|]. lia.
Qed.

(** The routing table stays a routing table. From an empty table, under
    every sequence of contacts seen (of any address, their own node included)
    and prunings: each of the 256 buckets holds at most [bucket_size] contacts,
    all with valid endpoints and with the highest bit of their distance from
    the local node at the bucket's position; no identifier stands twice in the
    whole table and the local one never does; [size] and [contains] report the
    contacts of [all_contacts] and no others. *)
Theorem routing_table_invariant (local : NodeId) (bucket_size : Z) (t : RoutingTable) :
  valid_id local -> rtc step (make_table local bucket_size) t ->
  table_ok t /\ NoDup (id <$> all_contacts t) /\ contains local t = false /\
  size t = size_of (all_contacts t) /\ size t <= Z.max bucket_size 1 * (kBytes * 8) /\
  (forall i, contains i t = true <-> i ∈ (id <$> all_contacts t)).
Proof.
  intros Hl Hr. destruct (rtc_table_ok _ _ Hr) as (Ht & El & Ek); [by apply make_table_ok|].
  simpl in El, Ek. pose proof Ht as (_ & _ & Hn & Hb). split_and!.
  - done.
  - by apply table_ok_NoDup.
  - apply not_true_iff_false. rewrite contains_spec, list_elem_of_fmap. intros (c & E & Hc).
    apply elem_of_all_contacts in Hc as (i & b & Hi & Hc). destruct (Hb i b Hi) as (_ & _ & Hf).
    eapply Forall_forall in Hf as (Hv & _ & Hx); [|done]. rewrite El, <- E in Hx.
    pose proof (bucket_index_spec _ _ Hl Hl) as Hs. rewrite Hx, distance_self in Hs. lia.
  - apply size_all_contacts.
  - rewrite <- Hn, <- Ek. unfold size, size_of. clear Hn.
    assert (forall b, b ∈ buckets_ t -> Z.of_nat (length b) <= bucket_size_ t) as Hle.
    { intros b Hin. apply list_elem_of_lookup in Hin as [i Hi]. by destruct (Hb i b Hi). }
    clear Hb. induction (buckets_ t) as [|b bs IH]; cbn [foldr length]; [lia|].
    pose proof (Hle b ltac:(left)). specialize (IH ltac:(intros; apply Hle; by right)). lia.
  - intros i. apply contains_spec.
Qed.

(** What a contact does to the table. Touching a valid contact of another
    node leaves it in the table with its new endpoint; every other contact is
    kept, except possibly one of its bucket when the bucket was full: an
    unverified one if there is any, among those the one seen longest ago. A
    contact with an invalid endpoint and the local node change nothing, and
    the table never shrinks. *)
Theorem touch_effect (c : NodeContact) (t : RoutingTable) :
  table_ok t -> valid_id c.(id) ->
  size t <= size (touch c t) /\
  if bool_decide (c.(id) = t.(local_id_)) || negb (is_valid_host_port address_ok c.(endpoint)) then touch c t = t
  else
    (exists z, z ∈ all_contacts (touch c t) /\ z.(id) = c.(id) /\ z.(endpoint) = c.(endpoint)) /\
    forall z, z ∈ all_contacts t -> z.(id) <> c.(id) ->
      z ∈ all_contacts (touch c t) \/
      exists i bucket, t.(buckets_) !! i = Some bucket /\ z ∈ bucket /\
        bucket_index t.(local_id_) c.(id) = Some (Z.of_nat i) /\ size_of bucket = t.(bucket_size_) /\
        forall w, w ∈ bucket -> evict_before w z = false.
Proof.
  intros Ht Hc. pose proof Ht as (Hl & Hk & Hn & Hb). unfold touch.
  destruct (bool_decide _ || negb _) eqn:Eg; [done|]. bool_hyps.
  pose proof (bucket_index_spec _ _ Hl Hc) as Hx.
  destruct (bucket_index (local_id_ t) (id c)) as [index|] eqn:Ei; [|congruence].
  destruct (lookup_lt_is_Some_2 (buckets_ t) (Z.to_nat index)) as [b Eb]; [unfold size_of in Hn; lia|].
  pose proof (touch_bucket_touched (bucket_size_ t) c b Hk) as Htb. destruct (Hb _ _ Eb) as (Hs & _).
  assert (forall z, z ∈ touch_bucket (bucket_size_ t) c b -> z ∈ all_contacts (mkTable (local_id_ t) (bucket_size_ t)
    (alter (touch_bucket (bucket_size_ t) c) (Z.to_nat index) (buckets_ t)))) as Hin.
  { intros z Hz. apply elem_of_all_contacts. simpl. eexists _, _. rewrite list_lookup_alter_eq, Eb. done. }
  split; [|split].
  - unfold size; simpl. apply touched_size in Htb; [|done]. clear -Eb Htb.
    revert Eb. generalize (Z.to_nat index). induction (buckets_ t) as [|x bs IH]; intros [|n] E; simplify_eq/=; [lia|].
    specialize (IH n E). lia.
  - destruct (touched_in _ _ _ _ Htb) as (z & Hz & ?). eauto.
  - intros z Hz Hne. apply elem_of_all_contacts in Hz as (i & b' & Hi & Hz).
    destruct (decide (Z.to_nat index = i)) as [<-|Hni].
    + simplify_eq. destruct (touched_kept _ _ _ _ z Htb Hz Hne) as [?|[? ?]]; [by left; apply Hin|].
      right. eexists _, _. split_and!; [done..|f_equal; lia|lia|done].
    + left. apply elem_of_all_contacts. simpl. exists i, b'. by rewrite list_lookup_alter_ne.
Qed.

(** Lookups return the closest contacts. [nearest] returns contacts of
    the table without repetition, as many as asked for or as there are, in
    strictly increasing distance from the target, and every contact it leaves
    out is farther away than every contact it returns. *)
Theorem nearest_are_closest (target : NodeId) (limit : Z) (t : RoutingTable) :
  table_ok t -> valid_id target -> 0 <= limit ->
  let out := nearest target limit t in
  size_of out = Z.min limit (size t) /\ NoDup out /\
  (forall c, c ∈ out -> c ∈ all_contacts t) /\
  StronglySorted (fun l r => distance l.(id) target < distance r.(id) target) out /\
  (forall c, c ∈ all_contacts t -> c ∉ out ->
    forall o, o ∈ out -> distance o.(id) target < distance c.(id) target).
Proof.
  intros Ht Hv Hl out. destruct (nearest_prefix target limit t Hl) as (rest & E & Hs).
  destruct (sorted_contacts target t) as [Hsort Hp]. rewrite E in Hsort, Hp. fold out in Hsort, Hp, Hs.
  pose proof (table_ok_NoDup t Ht) as Hd. rewrite <- Hp in Hd.
  assert (Forall (fun c => valid_id (id c)) (out ++ rest)) as Hid.
  { rewrite Hp. apply Forall_forall. intros c Hc. apply elem_of_all_contacts in Hc as (i & b & Hi & Hc).
    destruct Ht as (_ & _ & _ & Hb). destruct (Hb i b Hi) as (_ & _ & Hf).
    eapply Forall_forall in Hf; [|done]. tauto. }
  assert (StronglySorted (fun l r => distance (id l) target < distance (id r) target) (out ++ rest)) as Hstrict.
  { clear Hp Hs E. revert Hd Hid. induction Hsort as [|x l Hsort IH Hx]; [constructor|]. rewrite fmap_cons, NoDup_cons.
    intros [Hni Hd] [Hvx Hid]%Forall_cons. constructor; [by apply IH|]. apply Forall_forall. intros y Hy.
    eapply Forall_forall in Hx; [|done]. eapply Forall_forall in Hid; [|done]. apply not_after_iff in Hx.
    unfold valid_id in *. destruct Hx as [Hx|[Hx _]].
    - rewrite bytes_ltb_be_value in Hx by (rewrite !size_xor_distance; lia). by apply Z.ltb_lt.
    - destruct Hni. apply list_elem_of_fmap. exists y. split; [|done].
      apply (distance_inj _ _ target); unfold distance; congruence. }
  apply StronglySorted_app in Hstrict as (H1 & H2 & _). split_and!; [done| | |done|].
  - apply (NoDup_fmap_1 id). rewrite fmap_app, NoDup_app in Hd. tauto.
  - intros c Hc. rewrite <- Hp. apply elem_of_app. by left.
  - intros c Hc Hno o Ho. apply H1; [done|]. rewrite <- Hp in Hc. set_solver.
Qed.

End endpoints.

(** Contacts named by hostname, in a table with one contact per bucket. *)
Definition sample_contact (b : Byte.byte) (seen : Z) : NodeContact :=
  mkContact (sample_id b) (mkEndpoint $"peer.local" 4000) seen false.

Definition no_address (text : bytes) : bool := false.

Definition sample_table : RoutingTable :=
  touch no_address (sample_contact Byte.x31 20)
    (touch no_address (sample_contact Byte.x30 10)
      (touch no_address (sample_contact Byte.x11 5) (make_table (sample_id Byte.x10) 1))).

Lemma sample_table_reached : rtc (step no_address) (make_table (sample_id Byte.x10) 1) sample_table.
Proof. do 3 (eapply rtc_r; [|apply step_touch; reflexivity]). apply rtc_refl. Qed.

Lemma sample_table_ok : table_ok no_address sample_table.
Proof. do 3 (apply touch_ok; [reflexivity|]). apply make_table_ok. reflexivity. Qed.

(** The newer of two contacts of a full bucket has replaced the older one. *)
Lemma routing_table_invariant_witness :
  all_contacts sample_table = [sample_contact Byte.x11 5; sample_contact Byte.x31 20] /\
  contains (sample_id Byte.x10) sample_table = false.
Proof.
  split; [vm_compute; reflexivity|].
  exact (proj1 (proj2 (proj2 (routing_table_invariant no_address (sample_id Byte.x10) 1 sample_table
    ltac:(reflexivity) sample_table_reached)))).
Defined.

Lemma touch_effect_witness :
  size sample_table <= size (touch no_address (sample_contact Byte.x30 30) sample_table) /\
  all_contacts (touch no_address (sample_contact Byte.x30 30) sample_table)
    = [sample_contact Byte.x11 5; sample_contact Byte.x30 30].
Proof.
  split; [|vm_compute; reflexivity].
  exact (proj1 (touch_effect no_address (sample_contact Byte.x30 30) sample_table sample_table_ok
    ltac:(reflexivity))).
Defined.

Lemma nearest_are_closest_witness :
  nearest (sample_id Byte.x30) 1 sample_table = [sample_contact Byte.x31 20] /\
  size_of (nearest (sample_id Byte.x30) 5 sample_table) = 2.
Proof.
  split; [vm_compute; reflexivity|].
  exact (proj1 (nearest_are_closest no_address (sample_id Byte.x30) 5 sample_table sample_table_ok
    ltac:(reflexivity) ltac:(lia))).
Defined.
