(* ===== verification/ValueStore.v ===== *)
(** * The DHT value store

    [p2p/src/dht/value_store.cpp]: published values by key, with their expiry.
    Every method holds the store's mutex and is one step; the clock readings
    are arguments. *)

From S2P Require Import Prelude Codec NodeId.

Record StoredValue := mkStored {
  key : bytes;
  value : bytes;
  publisher_id : NodeId;
  stored_unix_ms : Z;
  expires_unix_ms : Z
}.

(** [ValueRecord] of message.h. *)
Record ValueRecord := mkRecord {
  rec_value : bytes;
  rec_expires_unix_ms : Z
}.

(** [values_by_key_] *)
Abbreviation ValueStore := (gmap bytes (list StoredValue)).

(** The loop over the entries of the key: refresh the first one with this
    value and publisher, or append a new one. *)
Fixpoint put_items (item : StoredValue) (items : list StoredValue) : list StoredValue :=
  match items with
  | [] => [item]
  | x :: rest =>
      if bool_decide (x.(value) = item.(value)) && bool_decide (x.(publisher_id) = item.(publisher_id)) then
        mkStored x.(key) x.(value) x.(publisher_id) item.(stored_unix_ms) item.(expires_unix_ms) :: rest
      else x :: put_items item rest
  end.

Definition put (key value : bytes) (publisher_id : NodeId) (now_unix_ms ttl_seconds : Z) (s : ValueStore)
    : ValueStore :=
  if (size_of key =? 0) || (size_of value =? 0) || (ttl_seconds =? 0) then s
  else
    let expires := u64 (now_unix_ms + u64 (ttl_seconds * 1000)) in
    <[key := put_items (mkStored key value publisher_id now_unix_ms expires) (default [] (s !! key))]> s.

(** The loop of [get], with what [out] holds so far. *)
Fixpoint get_loop (limit now_unix_ms : Z) (entries : list StoredValue) (out : list ValueRecord)
    : list ValueRecord :=
  match entries with
  | [] => out
  | entry :: rest =>
      if entry.(expires_unix_ms) <=? now_unix_ms then get_loop limit now_unix_ms rest out
      else
        let out := out ++ [mkRecord entry.(value) entry.(expires_unix_ms)] in
        if (0 <? limit) && (limit <=? size_of out) then out
        else get_loop limit now_unix_ms rest out
  end.

Definition get (key : bytes) (limit now_unix_ms : Z) (s : ValueStore) : list ValueRecord :=
  match s !! key with
  | None => []
  | Some entries => get_loop limit now_unix_ms entries []
  end.

(** The entries of a key that [prune] keeps; a key left without entries is
    erased. *)
Definition prune_entries (now_unix_ms : Z) (entries : list StoredValue) : option (list StoredValue) :=
  match filter (fun e => now_unix_ms < expires_unix_ms e) entries with
  | [] => None
  | kept => Some kept
  end.

Definition size (s : ValueStore) : Z := map_fold (fun _ values total => total + size_of values) 0 s.

(** The removed count is a sum over the keys, so the order of the hash table
    does not matter. *)
Definition prune (now_unix_ms : Z) (s : ValueStore) : Z * ValueStore :=
  (map_fold (fun _ entries removed =>
     removed + (size_of entries - size_of (filter (fun e => now_unix_ms < expires_unix_ms e) entries))) 0 s,
   omap (prune_entries now_unix_ms) s).

(** ** What the store promises

    The last publication of each value by each publisher, whether or not it
    has expired. *)

Inductive call :=
  | Put (key value : bytes) (publisher_id : NodeId) (now_unix_ms ttl_seconds : Z)
  | Prune (now_unix_ms : Z).

Definition exec (s : ValueStore) (c : call) : ValueStore :=
  match c with
  | Put k v p now ttl => put k v p now ttl s
  | Prune now => (prune now s).2
  end.

Abbreviation publications := (gmap (bytes * bytes * NodeId) Z).

Definition publish (m : publications) (c : call) : publications :=
  match c with
  | Put k v p now ttl =>
      if (size_of k =? 0) || (size_of v =? 0) || (ttl =? 0) then m
      else <[(k, v, p) := u64 (now + u64 (ttl * 1000))]> m
  | Prune _ => m
  end.

(** The prunings happened no later than [now]. *)
Definition pruned_by (now : Z) (calls : list call) : Prop :=
  Forall (fun c => match c with Prune t => t <= now | Put _ _ _ _ _ => True end) calls.

Definition pair_of (e : StoredValue) : bytes * NodeId := (e.(value), e.(publisher_id)).

(** The store [s] and the publications [m] agree on everything that is live
    at [now]. *)
Record agrees (now : Z) (s : ValueStore) (m : publications) : Prop := mkAgrees {
  ag_nonempty k : s !! k <> Some [];
  ag_nodup k items : s !! k = Some items -> NoDup (pair_of <$> items);
  ag_sound k items e : s !! k = Some items -> e ∈ items ->
    e.(key) = k /\ m !! (k, e.(value), e.(publisher_id)) = Some e.(expires_unix_ms);
  ag_live k v p x : m !! (k, v, p) = Some x -> now < x ->
    exists items e, s !! k = Some items /\ e ∈ items /\ pair_of e = (v, p) /\ e.(expires_unix_ms) = x
}.

(** ** Lemmas *)

Lemma put_items_pairs item items :
  pair_of <$> put_items item items =
    if decide (pair_of item ∈ pair_of <$> items) then pair_of <$> items
    else (pair_of <$> items) ++ [pair_of item].
Proof.
  induction items as [|x items IH]; cbn [put_items]; rewrite ?fmap_nil, ?fmap_cons.
  { rewrite decide_False by apply not_elem_of_nil. done. }
  destruct (bool_decide _ && bool_decide _) eqn:E; bool_hyps.
  - assert (pair_of x = pair_of item) as Ep by (unfold pair_of; congruence).
    rewrite decide_True by (rewrite Ep; left). done.
  - assert (pair_of item <> pair_of x) as Ep.
    { unfold pair_of. intros [= E1 E2]. destruct E; bool_hyps; congruence. }
    rewrite fmap_cons, IH. repeat case_decide; rewrite ?elem_of_cons in *; naive_solver.
Qed.

Lemma put_items_elem item items e :
  NoDup (pair_of <$> items) -> e ∈ put_items item items ->
  (e ∈ items /\ pair_of e <> pair_of item) \/
  (pair_of e = pair_of item /\ e.(expires_unix_ms) = item.(expires_unix_ms) /\
   (e.(key) = item.(key) \/ exists x, x ∈ items /\ e.(key) = x.(key))).
Proof.
  induction items as [|x items IH]; simpl.
  { intros _ He%list_elem_of_singleton. subst e. auto. }
  intros [Hx Hn]%NoDup_cons. destruct (bool_decide _ && bool_decide _) eqn:E.
  - bool_hyps. intros [->|He]%elem_of_cons.
    + right. unfold pair_of. simpl. split_and!; [congruence|done|]. right. exists x. split; [left|done].
    + left. split; [by right|]. intros Ep. apply Hx. apply list_elem_of_fmap. exists e. split; [|done].
      unfold pair_of in *. congruence.
  - intros [->|He]%elem_of_cons.
    + left. split; [left|]. unfold pair_of. intros [= E1 E2].
      by rewrite !bool_decide_eq_true_2 in E.
    + destruct (IH Hn He) as [[? ?]|(? & ? & [?|(y & ? & ?)])]; [left|right|right].
      * split; [by right|done].
      * auto.
      * split_and!; [done..|]. right. exists y. split; [by right|done].
Qed.

Lemma put_items_other item items e :
  e ∈ items -> pair_of e <> pair_of item -> e ∈ put_items item items.
Proof.
  induction items as [|x items IH]; simpl; [by intros ?%elem_of_nil|].
  intros [->|He]%elem_of_cons Hne.
  - destruct (bool_decide _ && bool_decide _) eqn:E; [|left]. bool_hyps. destruct Hne. unfold pair_of. congruence.
  - destruct (bool_decide _ && bool_decide _); [by right|]. right. by apply IH.
Qed.

Lemma put_items_put item items :
  exists e, e ∈ put_items item items /\ pair_of e = pair_of item /\ e.(expires_unix_ms) = item.(expires_unix_ms).
Proof.
  induction items as [|x items IH]; simpl.
  { exists item. split; [left|done]. }
  destruct (bool_decide _ && bool_decide _) eqn:E.
  - bool_hyps. eexists. split; [left|]. unfold pair_of. simpl. split; [congruence|done].
  - destruct IH as (e & He & ?). exists e. split; [by right|done].
Qed.

Lemma put_items_nonempty item items : put_items item items <> [].
Proof. destruct items as [|x items]; simpl; [done|]. by case_match. Qed.

Lemma agrees_empty now : agrees now ∅ ∅.
Proof. split; intros *; rewrite ?lookup_empty; done. Qed.

Lemma agrees_put now s m k v p t ttl :
  agrees now s m -> agrees now (put k v p t ttl s) (publish m (Put k v p t ttl)).
Proof.
  intros [Hne Hnd Hs Hl]. unfold put, publish. destruct (_ || _ || _); [done|].
  generalize (u64 (t + u64 (ttl * 1000))). intros expires.
  set (item := mkStored k v p t expires).
  assert (NoDup (pair_of <$> default [] (s !! k))) as Hnd'.
  { destruct (s !! k) eqn:E; [by eapply Hnd|constructor]. }
  split.
  - intros k'. rewrite lookup_insert. case_decide; [|apply Hne]. intros [= E]. by eapply put_items_nonempty.
  - intros k' items. rewrite lookup_insert. case_decide; [|apply Hnd]. intros [= <-].
    rewrite put_items_pairs. case_decide; [done|]. apply NoDup_app. split_and!; [done| |apply NoDup_singleton].
    intros q Hq Hq'%list_elem_of_singleton. by subst q.
  - intros k' items e. rewrite lookup_insert. case_decide as Ek.
    + intros [= <-] He. subst k'. apply put_items_elem in He; [|done]. destruct He as [[He Hp]|(Hp & Hx & Hk)]; [|rewrite Hx].
      * destruct (s !! k) as [items|] eqn:E; [|by apply elem_of_nil in He].
        destruct (Hs k items e E He) as [-> Hm]. split; [done|]. rewrite lookup_insert_ne; [done|].
        intros [= E1 E2]. apply Hp. unfold pair_of. simpl. congruence.
      * injection Hp as Ev Ep. rewrite Ev, Ep. simpl. rewrite lookup_insert_eq. split; [|done].
        destruct Hk as [Hk|(x & Hin & Hk)]; [done|]. destruct (s !! k) as [items|] eqn:E; [|by apply elem_of_nil in Hin].
        rewrite Hk. by apply (Hs k items x).
    + intros Hi He. destruct (Hs k' items e Hi He) as [? ?]. split; [done|].
      rewrite lookup_insert_ne; [done|]. congruence.
  - intros k' v' p' x. rewrite lookup_insert. case_decide as E.
    + injection E as <- <- <-. intros [= <-] Hnow.
      destruct (put_items_put item (default [] (s !! k))) as (e & He & Hp & Hx).
      eexists _, e. rewrite lookup_insert_eq. done.
    + intros Hm Hnow. destruct (Hl k' v' p' x Hm Hnow) as (items & e & Hi & He & Hp & Hx).
      destruct (decide (k = k')) as [->|Hk].
      * eexists _, e. rewrite lookup_insert_eq. split_and!; [done| |done|done].
        rewrite Hi. apply put_items_other; [done|]. rewrite Hp. unfold pair_of. simpl. congruence.
      * exists items, e. by rewrite lookup_insert_ne.
Qed.

Lemma prune_entries_Some t entries kept :
  prune_entries t entries = Some kept <->
  kept = filter (fun e => t < expires_unix_ms e) entries /\ kept <> [].
Proof. unfold prune_entries. destruct (filter _ entries) eqn:E; naive_solver. Qed.

Lemma agrees_prune now t s m : t <= now -> agrees now s m -> agrees now (prune t s).2 m.
Proof.
  intros Ht [Hne Hnd Hs Hl]. unfold prune; simpl.
  assert (forall k kept, omap (prune_entries t) s !! k = Some kept <->
    exists items, s !! k = Some items /\ kept = filter (fun e => t < expires_unix_ms e) items /\ kept <> []) as Ho.
  { intros k kept. rewrite lookup_omap_Some. setoid_rewrite prune_entries_Some. naive_solver. }
  split.
  - intros k (items & _ & _ & ?)%Ho. done.
  - intros k kept (items & Hi & -> & _)%Ho. eapply sublist_NoDup; [by eapply Hnd|].
    apply fmap_sublist, sublist_filter.
  - intros k kept e (items & Hi & -> & _)%Ho [_ He]%list_elem_of_filter. by eapply Hs.
  - intros k v p x Hm Hx. destruct (Hl k v p x Hm Hx) as (items & e & Hi & He & Hp & Ex).
    assert (e ∈ filter (fun e => t < expires_unix_ms e) items) as Hf.
    { apply list_elem_of_filter. split; [lia|done]. }
    exists (filter (fun e => t < expires_unix_ms e) items), e. split_and!; [|done..].
    apply Ho. exists items. split_and!; [done..|]. intros E. rewrite E in Hf. by apply elem_of_nil in Hf.
Qed.

(** [get] without a limit lists the live entries in order, and with a limit
    the first of them. *)
Lemma get_loop_spec limit now entries out :
  0 <= limit -> (0 < limit -> size_of out < limit) ->
  get_loop limit now entries out =
    let live := (fun e => mkRecord (value e) (expires_unix_ms e)) <$>
                  filter (fun e => now < expires_unix_ms e) entries in
    if limit =? 0 then out ++ live else take (Z.to_nat limit) (out ++ live).
Proof.
  intros Hl. revert out. induction entries as [|e entries IH]; intros out Ho; cbv zeta; cbn [get_loop].
  { rewrite filter_nil, fmap_nil, app_nil_r. destruct (Z.eqb_spec limit 0); [done|].
    symmetry. apply take_ge. unfold size_of in *. lia. }
  rewrite filter_cons. destruct (Z.leb_spec (expires_unix_ms e) now).
  - rewrite decide_False by lia. by apply IH.
  - rewrite decide_True by lia. rewrite fmap_cons. cbv zeta in IH.
    set (r := mkRecord (value e) (expires_unix_ms e)).
    set (live := _ <$> filter _ entries) in *.
    replace (out ++ r :: live) with ((out ++ [r]) ++ live) by (by rewrite <- app_assoc).
    destruct (Z.ltb_spec 0 limit) as [Hpos|Hz]; cbn [andb].
    + destruct (Z.leb_spec limit (size_of (out ++ [r]))) as [Hge|Hlt].
      * destruct (Z.eqb_spec limit 0); [lia|]. symmetry. apply take_app_length'.
        unfold size_of in *. rewrite length_app in *. simpl in *. lia.
      * by apply IH.
    + apply IH. lia.
Qed.

Lemma filter_filter_le now t (entries : list StoredValue) :
  t <= now -> filter (fun e => now < expires_unix_ms e) (filter (fun e => t < expires_unix_ms e) entries) =
    filter (fun e => now < expires_unix_ms e) entries.
Proof.
  intros Ht. rewrite list_filter_filter. apply list_filter_iff. intros e. lia.
Qed.

Lemma size_insert_None (k : bytes) (items : list StoredValue) (s : ValueStore) :
  s !! k = None -> size (<[k := items]> s) = size s + size_of items.
Proof. intros Hk. unfold size. rewrite map_fold_insert_L; [done|intros; lia|done]. Qed.

Lemma size_prune (t : Z) (s : ValueStore) : size (prune t s).2 = size s - (prune t s).1.
Proof.
  unfold prune; simpl. induction s as [|k items s Hk IH] using map_ind.
  { rewrite omap_empty. unfold size. by rewrite !map_fold_empty. }
  rewrite map_fold_insert_L by (done || intros; lia).
  rewrite size_insert_None by done.
  assert (size_of (default [] (prune_entries t items)) =
    size_of (filter (fun e => t < expires_unix_ms e) items)) as Hd.
  { unfold prune_entries. by destruct (filter _ items). }
  destruct (prune_entries t items) as [kept|] eqn:E.
  - rewrite (omap_insert_Some _ _ _ _ kept) by done. rewrite size_insert_None by (by rewrite lookup_omap, Hk).
    simpl in Hd. lia.
  - rewrite omap_insert_None by done. rewrite delete_id by (by rewrite lookup_omap, Hk).
    simpl in Hd. rewrite size_of_nil in Hd. lia.
Qed.

(** The store serves exactly what is published and live. After any
    sequence of publications and prunings at times up to [now], [get] at [now]
    returns a value with its expiry exactly when some publisher's last
    publication of it under that key expires then, later than [now]; a limit
    returns the first that many of them, oldest publication first; no pruning
    up to [now] changes any answer; and [prune] reports how many entries it
    removed. *)
Theorem value_store_serves_live (calls : list call) (now : Z) :
  pruned_by now calls ->
  let s := foldl exec ∅ calls in
  let m := foldl publish ∅ calls in
  (forall k v x, mkRecord v x ∈ get k 0 now s <-> exists p, m !! (k, v, p) = Some x /\ now < x) /\
  (forall k limit, 0 < limit -> get k limit now s = take (Z.to_nat limit) (get k 0 now s)) /\
  (forall k limit t, 0 <= limit -> t <= now -> get k limit now (prune t s).2 = get k limit now s) /\
  (forall t, size (prune t s).2 = size s - (prune t s).1).
Proof.
  intros Hp s m. assert (agrees now s m) as Hag.
  { unfold s, m. revert Hp. generalize (agrees_empty now). generalize (∅ : ValueStore) (∅ : publications).
    induction calls as [|c calls IH]; intros s0 m0 H0 Hp; [done|]. apply Forall_cons in Hp as [Hc Hp].
    simpl. apply IH; [|done]. destruct c as [k v p t ttl|t]; [by apply agrees_put|by apply agrees_prune]. }
  clearbody s m. destruct Hag as [Hne Hnd Hs Hl]. unfold get. split_and!.
  - intros k v x. split.
    + destruct (s !! k) as [items|] eqn:E; [|by intros ?%elem_of_nil].
      rewrite get_loop_spec by lia. simpl. intros (e & Er & [Hlt He]%list_elem_of_filter)%list_elem_of_fmap.
      injection Er as -> ->. exists (publisher_id e). split; [by apply (Hs k items e)|done].
    + intros (p & Hm & Hlt). destruct (Hl k v p x Hm Hlt) as (items & e & -> & He & Hpair & Hx).
      rewrite get_loop_spec by lia. simpl. apply list_elem_of_fmap. exists e. injection Hpair as Hv _.
      split; [by rewrite Hx, Hv|]. apply list_elem_of_filter. split; [by rewrite Hx|done].
  - intros k limit Hlim. destruct (s !! k) as [items|]; [|by rewrite take_nil].
    rewrite (get_loop_spec limit), (get_loop_spec 0) by (intros; rewrite ?size_of_nil; lia).
    simpl. destruct (Z.eqb_spec limit 0); [lia|done].
  - intros k limit t Hlim Ht. unfold prune; simpl. rewrite lookup_omap.
    destruct (s !! k) as [items|]; [|done]. simpl.
    rewrite (get_loop_spec limit now items) by (intros; rewrite ?size_of_nil; lia).
    pose proof (filter_filter_le now t items Ht) as Hff. unfold prune_entries.
    destruct (filter (fun e => t < expires_unix_ms e) items) as [|e kept].
    + rewrite <- Hff. simpl. by rewrite take_nil; case_match.
    + rewrite get_loop_spec by (intros; rewrite ?size_of_nil; lia). by rewrite Hff.
  - intros t. apply size_prune.
Qed.

(** A value refreshed before its expiry is still served after the pruning of
    the others. *)
Definition sample_calls : list call :=
  [Put $"peers" $"a:1" zero_id 1000 1; Put $"peers" $"b:2" zero_id 1000 1;
   Put $"peers" $"a:1" zero_id 1900 1; Prune 2500].

Lemma value_store_serves_live_witness :
  get $"peers" 0 2600 (foldl exec ∅ sample_calls) = [mkRecord $"a:1" 2900] /\
  size (prune 2950 (foldl exec ∅ sample_calls)).2 =
    size (foldl exec ∅ sample_calls) - (prune 2950 (foldl exec ∅ sample_calls)).1.
Proof.
  split; [vm_compute; reflexivity|].
  refine (proj2 (proj2 (proj2 (value_store_serves_live sample_calls 2600 _))) 2950).
  repeat constructor. lia.
Defined.
