(* ===== verification/DhtMessage.v ===== *)
(** * DHT messages

    [p2p/src/dht/message.cpp]: the big-endian datagrams of the DHT.  A
    [BufferWriter] method that may fail returns the bytes it appends or
    nothing; what a failed writer has appended before is never used, since
    [encode_message] then returns no datagram.  A [BufferReader] is the reader
    monad of Codec. *)

From S2P Require Import Prelude Codec HostPort NodeId ValueStore.
From Stdlib Require Import Btauto.

Definition kMagic : bytes := $"TDHT".
Definition kVersion : Z := 1.
Definition kMaxPacketBytes : Z := 4096.
Definition kMaxNodesPerMessage : Z := 32.
Definition kMaxValuesPerMessage : Z := 32.
Definition kMaxHostBytes : Z := 255.
Definition kMaxKeyBytes : Z := 256.
Definition kMaxValueBytes : Z := 1024.
Definition kMaxErrorBytes : Z := 512.

(** [RpcType]; the cast of a byte that is no enumerator gives [kUnnamed]. *)
Inductive RpcType :=
  | kPingRequest | kPingResponse | kFindNodeRequest | kFindNodeResponse
  | kAnnouncePeerRequest | kAnnouncePeerResponse | kFindValueRequest | kFindValueResponse
  | kError | kUnnamed (raw : Z).

#[global] Instance RpcType_eq_dec : EqDecision RpcType.
Proof. solve_decision. Defined.

Definition type_byte (t : RpcType) : Z :=
  match t with
  | kPingRequest => 1 | kPingResponse => 2 | kFindNodeRequest => 3 | kFindNodeResponse => 4
  | kAnnouncePeerRequest => 5 | kAnnouncePeerResponse => 6 | kFindValueRequest => 7
  | kFindValueResponse => 8 | kError => 255 | kUnnamed raw => raw
  end.

Definition type_of_byte (raw : Z) : RpcType :=
  if raw =? 1 then kPingRequest else if raw =? 2 then kPingResponse
  else if raw =? 3 then kFindNodeRequest else if raw =? 4 then kFindNodeResponse
  else if raw =? 5 then kAnnouncePeerRequest else if raw =? 6 then kAnnouncePeerResponse
  else if raw =? 7 then kFindValueRequest else if raw =? 8 then kFindValueResponse
  else if raw =? 255 then kError else kUnnamed raw.

Record NodeWireContact := mkWireContact {
  id : NodeId;
  endpoint : HostPortEndpoint;
  last_seen_unix_ms : Z
}.

Record RpcMessage := mkMessage {
  type : RpcType;
  tx_id : Z;
  source_port : Z;
  sender_id : NodeId;
  target_id : NodeId;
  max_results : Z;
  ping_unix_ms : Z;
  nodes : list NodeWireContact;
  msg_key : bytes;
  msg_value : bytes;
  ttl_seconds : Z;
  values : list ValueRecord;
  accepted : bool;
  error_code : Z;
  error_message : bytes
}.

(** ** [BufferWriter] *)

Definition w_u8 (value : Z) : bytes := [byte_of value].
Definition w_u16 (value : Z) : bytes :=
  [byte_of (Z.land (Z.shiftr value 8) 255); byte_of (Z.land value 255)].
Definition w_u32 (value : Z) : bytes :=
  [byte_of (Z.land (Z.shiftr value 24) 255); byte_of (Z.land (Z.shiftr value 16) 255);
   byte_of (Z.land (Z.shiftr value 8) 255); byte_of (Z.land value 255)].
Definition w_u64 (value : Z) : bytes :=
  (fun shift => byte_of (Z.land (Z.shiftr value shift) 255)) <$> [56; 48; 40; 32; 24; 16; 8; 0].

Definition w_string_u8 (value : bytes) : option bytes :=
  if 255 <? size_of value then None else Some (w_u8 (size_of value) ++ value).
Definition w_string_u16 (value : bytes) : option bytes :=
  if 65535 <? size_of value then None else Some (w_u16 (size_of value) ++ value).

(** ** [BufferReader] *)

Definition r_u8 : reader Z := fun inp c =>
  if c + 1 <=? size_of inp then Some (at_ inp c, c + 1) else None.
Definition r_u16 : reader Z := fun inp c =>
  if c + 2 <=? size_of inp then Some (Z.lor (Z.shiftl (at_ inp c) 8) (at_ inp (c + 1)), c + 2) else None.
Definition r_u32 : reader Z := fun inp c =>
  if c + 4 <=? size_of inp then
    Some (Z.lor (Z.lor (Z.lor (Z.shiftl (at_ inp c) 24) (Z.shiftl (at_ inp (c + 1)) 16))
            (Z.shiftl (at_ inp (c + 2)) 8)) (at_ inp (c + 3)), c + 4)
  else None.
Definition r_u64 : reader Z := fun inp c =>
  if c + 8 <=? size_of inp then
    Some (foldl (fun value i => Z.lor (Z.shiftl value 8) (at_ inp (c + i))) 0 [0; 1; 2; 3; 4; 5; 6; 7], c + 8)
  else None.

Definition r_string_u8 : reader bytes := size ← r_u8; read_span size.
Definition r_string_u16 : reader bytes := size ← r_u16; read_span size.

(** ** Header and lists *)

Definition write_header (m : RpcMessage) : bytes :=
  kMagic ++ w_u8 kVersion ++ w_u8 (type_byte m.(type)) ++ w_u32 m.(tx_id) ++ w_u16 m.(source_port) ++
  m.(sender_id).

(** The fields a header fills in a fresh message. *)
Definition header_message (t : RpcType) (tx port : Z) (sender : NodeId) : RpcMessage :=
  mkMessage t tx port sender zero_id 0 0 [] [] [] 0 [] false 0 [].

Definition read_header : reader RpcMessage :=
  magic ← read_span (size_of kMagic);
  _ ← rguard (bool_decide (magic = kMagic));
  version ← r_u8;
  raw_type ← r_u8;
  _ ← rguard (version =? kVersion);
  tx ← r_u32;
  port ← r_u16;
  sender ← read_span kBytes;
  mret (header_message (type_of_byte raw_type) tx port sender).

Section endpoints.
Context (address_ok : bytes -> bool).

Definition write_node_contact (c : NodeWireContact) : option bytes :=
  if (size_of c.(endpoint).(host) =? 0) || (kMaxHostBytes <? size_of c.(endpoint).(host)) ||
     negb (is_valid_host_port address_ok c.(endpoint)) then None
  else
    match w_string_u8 c.(endpoint).(host) with
    | None => None
    | Some host => Some (c.(id) ++ host ++ w_u16 c.(endpoint).(port) ++ w_u64 c.(last_seen_unix_ms))
    end.

Definition read_node_contact : reader NodeWireContact :=
  node_id ← read_span kBytes;
  host ← r_string_u8;
  port ← r_u16;
  seen ← r_u64;
  _ ← rguard (is_valid_host_port address_ok (mkEndpoint host port));
  mret (mkWireContact node_id (mkEndpoint host port) seen).

(** The loop of a list writer: the first element that is refused refuses the
    list. *)
Fixpoint write_all {A} (w : A -> option bytes) (l : list A) : option bytes :=
  match l with
  | [] => Some []
  | x :: rest =>
      match w x, write_all w rest with Some b, Some bs => Some (b ++ bs) | _, _ => None end
  end.

Definition write_value (entry : ValueRecord) : option bytes :=
  if kMaxValueBytes <? size_of entry.(rec_value) then None
  else
    match w_string_u16 entry.(rec_value) with
    | None => None
    | Some value => Some (value ++ w_u64 entry.(rec_expires_unix_ms))
    end.

Definition write_values (l : list ValueRecord) : option bytes :=
  if kMaxValuesPerMessage <? size_of l then None
  else match write_all write_value l with Some bs => Some (w_u16 (size_of l) ++ bs) | None => None end.

Definition read_value : reader ValueRecord :=
  value ← r_string_u16;
  _ ← rguard (size_of value <=? kMaxValueBytes);
  expires ← r_u64;
  mret (mkRecord value expires).

Definition read_values : reader (list ValueRecord) :=
  count ← r_u16;
  _ ← rguard (count <=? kMaxValuesPerMessage);
  read_many read_value (Z.to_nat count).

Definition write_nodes (l : list NodeWireContact) : option bytes :=
  if kMaxNodesPerMessage <? size_of l then None
  else match write_all write_node_contact l with Some bs => Some (w_u16 (size_of l) ++ bs) | None => None end.

Definition read_nodes : reader (list NodeWireContact) :=
  count ← r_u16;
  _ ← rguard (count <=? kMaxNodesPerMessage);
  read_many read_node_contact (Z.to_nat count).

(** ** Messages *)

(** The [switch] of [encode_message]: what follows the header. *)
Definition write_body (m : RpcMessage) : option bytes :=
  match m.(type) with
  | kPingRequest => Some []
  | kPingResponse => Some (w_u64 m.(ping_unix_ms))
  | kFindNodeRequest => Some (m.(target_id) ++ w_u16 m.(max_results))
  | kFindNodeResponse => write_nodes m.(nodes)
  | kAnnouncePeerRequest =>
      if (size_of m.(msg_key) =? 0) || (kMaxKeyBytes <? size_of m.(msg_key)) ||
         (kMaxValueBytes <? size_of m.(msg_value)) then None
      else
        match w_string_u16 m.(msg_key), w_string_u16 m.(msg_value) with
        | Some key, Some value => Some (key ++ value ++ w_u32 m.(ttl_seconds))
        | _, _ => None
        end
  | kAnnouncePeerResponse => Some (w_u8 (if m.(accepted) then 1 else 0))
  | kFindValueRequest =>
      if (size_of m.(msg_key) =? 0) || (kMaxKeyBytes <? size_of m.(msg_key)) then None
      else
        match w_string_u16 m.(msg_key) with
        | Some key => Some (key ++ w_u16 m.(max_results))
        | None => None
        end
  | kFindValueResponse =>
      match write_values m.(values), write_nodes m.(nodes) with
      | Some v, Some n => Some (v ++ n)
      | _, _ => None
      end
  | kError =>
      if kMaxErrorBytes <? size_of m.(error_message) then None
      else
        match w_string_u16 m.(error_message) with
        | Some text => Some (w_u16 m.(error_code) ++ text)
        | None => None
        end
  | kUnnamed _ => None
  end.

Definition encode_message (m : RpcMessage) : option bytes :=
  match write_body m with
  | None => None
  | Some body =>
      let data := write_header m ++ body in
      if (size_of data =? 0) || (kMaxPacketBytes <? size_of data) then None else Some data
  end.

(** The header fields of [h] with the fields of one kind of message. *)
Definition set_ping (t : Z) (h : RpcMessage) : RpcMessage :=
  mkMessage h.(type) h.(tx_id) h.(source_port) h.(sender_id) zero_id 0 t [] [] [] 0 [] false 0 [].
Definition set_find_node (target : NodeId) (n : Z) (h : RpcMessage) : RpcMessage :=
  mkMessage h.(type) h.(tx_id) h.(source_port) h.(sender_id) target n 0 [] [] [] 0 [] false 0 [].
Definition set_nodes (l : list NodeWireContact) (h : RpcMessage) : RpcMessage :=
  mkMessage h.(type) h.(tx_id) h.(source_port) h.(sender_id) zero_id 0 0 l [] [] 0 [] false 0 [].
Definition set_announce (k v : bytes) (ttl : Z) (h : RpcMessage) : RpcMessage :=
  mkMessage h.(type) h.(tx_id) h.(source_port) h.(sender_id) zero_id 0 0 [] k v ttl [] false 0 [].
Definition set_accepted (a : bool) (h : RpcMessage) : RpcMessage :=
  mkMessage h.(type) h.(tx_id) h.(source_port) h.(sender_id) zero_id 0 0 [] [] [] 0 [] a 0 [].
Definition set_find_value (k : bytes) (n : Z) (h : RpcMessage) : RpcMessage :=
  mkMessage h.(type) h.(tx_id) h.(source_port) h.(sender_id) zero_id n 0 [] k [] 0 [] false 0 [].
Definition set_values (v : list ValueRecord) (l : list NodeWireContact) (h : RpcMessage) : RpcMessage :=
  mkMessage h.(type) h.(tx_id) h.(source_port) h.(sender_id) zero_id 0 0 l [] [] 0 v false 0 [].
Definition set_error (code : Z) (text : bytes) (h : RpcMessage) : RpcMessage :=
  mkMessage h.(type) h.(tx_id) h.(source_port) h.(sender_id) zero_id 0 0 [] [] [] 0 [] false code text.

Definition key_ok (key : bytes) : bool := negb (size_of key =? 0) && (size_of key <=? kMaxKeyBytes).

(** The [switch] of [decode_message], on the message the header began. *)
Definition read_body (h : RpcMessage) : reader RpcMessage :=
  match h.(type) with
  | kPingRequest => mret h
  | kPingResponse => t ← r_u64; mret (set_ping t h)
  | kFindNodeRequest => target ← read_span kBytes; n ← r_u16; mret (set_find_node target n h)
  | kFindNodeResponse => l ← read_nodes; mret (set_nodes l h)
  | kAnnouncePeerRequest =>
      k ← r_string_u16; v ← r_string_u16; ttl ← r_u32;
      _ ← rguard (key_ok k && (size_of v <=? kMaxValueBytes));
      mret (set_announce k v ttl h)
  | kAnnouncePeerResponse => a ← r_u8; mret (set_accepted (negb (a =? 0)) h)
  | kFindValueRequest =>
      k ← r_string_u16; n ← r_u16; _ ← rguard (key_ok k); mret (set_find_value k n h)
  | kFindValueResponse => v ← read_values; l ← read_nodes; mret (set_values v l h)
  | kError =>
      code ← r_u16; text ← r_string_u16;
      _ ← rguard (size_of text <=? kMaxErrorBytes);
      mret (set_error code text h)
  | kUnnamed _ => fun _ _ => None
  end.

Definition decode_message (payload : bytes) : option RpcMessage :=
  if (size_of payload =? 0) || (kMaxPacketBytes <? size_of payload) then None
  else
    match (h ← read_header; read_body h) payload 0 with
    | None => None
    | Some (m, c) => if negb (c =? size_of payload) then None else Some m
    end.

End endpoints.

Definition rpc_type_name (t : RpcType) : bytes :=
  match t with
  | kPingRequest => $"ping_req" | kPingResponse => $"ping_res"
  | kFindNodeRequest => $"find_node_req" | kFindNodeResponse => $"find_node_res"
  | kAnnouncePeerRequest => $"announce_req" | kAnnouncePeerResponse => $"announce_res"
  | kFindValueRequest => $"find_value_req" | kFindValueResponse => $"find_value_res"
  | kError => $"error" | kUnnamed _ => $"unknown"
  end.

Definition is_request_type (t : RpcType) : bool :=
  match t with
  | kPingRequest | kFindNodeRequest | kAnnouncePeerRequest | kFindValueRequest => true
  | _ => false
  end.

Definition is_response_type (t : RpcType) : bool :=
  match t with
  | kPingResponse | kFindNodeResponse | kAnnouncePeerResponse | kFindValueResponse | kError => true
  | _ => false
  end.

(** ** What a message carries

    The header of a message, and the message with every field its type does
    not carry reset. *)

Definition header_of (m : RpcMessage) : RpcMessage :=
  header_message m.(type) m.(tx_id) m.(source_port) m.(sender_id).

Definition carried (m : RpcMessage) : RpcMessage :=
  match m.(type) with
  | kPingRequest | kUnnamed _ => header_of m
  | kPingResponse => set_ping m.(ping_unix_ms) m
  | kFindNodeRequest => set_find_node m.(target_id) m.(max_results) m
  | kFindNodeResponse => set_nodes m.(nodes) m
  | kAnnouncePeerRequest => set_announce m.(msg_key) m.(msg_value) m.(ttl_seconds) m
  | kAnnouncePeerResponse => set_accepted m.(accepted) m
  | kFindValueRequest => set_find_value m.(msg_key) m.(max_results) m
  | kFindValueResponse => set_values m.(values) m.(nodes) m
  | kError => set_error m.(error_code) m.(error_message) m
  end.

(** The fields are values of their C++ types. *)
Definition typed_contact (c : NodeWireContact) : Prop :=
  valid_id c.(id) /\ in_uint 16 c.(endpoint).(port) /\ in_uint 64 c.(last_seen_unix_ms).

Definition typed (m : RpcMessage) : Prop :=
  in_uint 32 m.(tx_id) /\ in_uint 16 m.(source_port) /\ valid_id m.(sender_id) /\ valid_id m.(target_id) /\
  in_uint 16 m.(max_results) /\ in_uint 64 m.(ping_unix_ms) /\ Forall typed_contact m.(nodes) /\
  in_uint 32 m.(ttl_seconds) /\ Forall (fun v => in_uint 64 v.(rec_expires_unix_ms)) m.(values) /\
  in_uint 16 m.(error_code).

(** ** Codecs of the fields *)

#[local] Instance w8_codec : Codec (in_uint 8) w_u8 r_u8.
Proof. apply (be_word_codec 1); [done|]. intros inp c Hc. unfold r_u8. word_dec. Qed.

#[local] Instance w16_codec : Codec (in_uint 16) w_u16 r_u16.
Proof.
  apply (be_word_codec 2).
  - intros v. unfold w_u16. word_enc.
  - intros inp c Hc. unfold r_u16. word_dec. apply Z.lor_comm.
Qed.

(** Both sides are the same bits, in another order. *)
Ltac lor_eq :=
  rewrite ?Z.shiftl_lor, ?Z.shiftl_0_l, ?Z.shiftl_shiftl by lia;
  repeat match goal with |- context [Z.add ?a ?b] =>
    let v := eval compute in (a + b) in match v with Z.pos _ => change (a + b) with v end end;
  apply Z.bits_inj'; intros; rewrite ?Z.lor_spec, ?Z.bits_0; btauto.

#[local] Instance w32_codec : Codec (in_uint 32) w_u32 r_u32.
Proof.
  apply (be_word_codec 4).
  - intros v. unfold w_u32. word_enc.
  - intros inp c Hc. unfold r_u32. word_dec. lor_eq.
Qed.

#[local] Instance w64_codec : Codec (in_uint 64) w_u64 r_u64.
Proof.
  apply (be_word_codec 8).
  - intros v. unfold w_u64. cbn [fmap list_fmap]. rewrite Z.shiftr_0_r. word_enc.
  - intros inp c Hc. unfold r_u64. cbn [foldl]. rewrite Z.add_0_r. word_dec. lor_eq.
Qed.

#[local] Instance id32_codec : Codec valid_id Datatypes.id (read_span kBytes).
Proof. apply (span_codec kBytes). done. Qed.

Lemma prefixed_codec w (enc : Z -> bytes) (dec : reader Z) `{!Codec (in_uint w) enc dec} :
  Codec (fun s : bytes => in_uint w (size_of s)) (fun s => enc (size_of s) ++ s) (size ← dec; read_span size).
Proof.
  split.
  - intros s pre suf Hs. rewrite <- app_assoc. apply bind_roundtrip; [done|].
    rewrite read_span_app, !size_of_app. do 2 f_equal. lia.
  - intros inp c x c' Hc H. read_inv H.
    pose proof (span_codec x0 (proj1 Hv)) as Hspan.
    apply codec_sound in H as [Hx Ho']; [|done]. unfold Datatypes.id in *. subst x0.
    split; [done|]. by eapply occurs_app.
Qed.

Definition s8_bytes (s : bytes) : bytes := w_u8 (size_of s) ++ s.
Definition s16_bytes (s : bytes) : bytes := w_u16 (size_of s) ++ s.

#[local] Instance s8_codec : Codec (fun s : bytes => in_uint 8 (size_of s)) s8_bytes r_string_u8.
Proof. exact (prefixed_codec 8 w_u8 r_u8). Qed.

#[local] Instance s16_codec : Codec (fun s : bytes => in_uint 16 (size_of s)) s16_bytes r_string_u16.
Proof. exact (prefixed_codec 16 w_u16 r_u16). Qed.

Lemma w_string_u8_Some s b : w_string_u8 s = Some b <-> in_uint 8 (size_of s) /\ b = s8_bytes s.
Proof.
  unfold w_string_u8, s8_bytes, in_uint. pose proof (size_of_nonneg s).
  destruct (Z.ltb_spec 255 (size_of s)); naive_solver lia.
Qed.

Lemma w_string_u16_Some s b : w_string_u16 s = Some b <-> in_uint 16 (size_of s) /\ b = s16_bytes s.
Proof.
  unfold w_string_u16, s16_bytes, in_uint. pose proof (size_of_nonneg s).
  destruct (Z.ltb_spec 65535 (size_of s)); naive_solver lia.
Qed.

Lemma guard_pass {B} b (f : unit -> reader B) inp c :
  b = true -> (rguard b ≫= f) inp c = f tt inp c.
Proof. by intros ->. Qed.

(** *** Values *)

Definition value_bytes (v : ValueRecord) : bytes := s16_bytes v.(rec_value) ++ w_u64 v.(rec_expires_unix_ms).
Definition valid_value (v : ValueRecord) : Prop :=
  size_of v.(rec_value) <= kMaxValueBytes /\ in_uint 64 v.(rec_expires_unix_ms).

Lemma small_string (s : bytes) n : size_of s <= n -> n < 2 ^ 16 -> in_uint 16 (size_of s).
Proof. pose proof (size_of_nonneg s). unfold in_uint. lia. Qed.

#[local] Instance value_codec : Codec valid_value value_bytes read_value.
Proof.
  split.
  - intros v pre suf [Hs He]. unfold value_bytes. rewrite <- !app_assoc. unfold read_value.
    eapply bind_roundtrip; [by eapply small_string|]. cbv beta.
    rewrite guard_pass by (by apply Z.leb_le). read_back.
    unfold mret, reader_ret. rewrite !size_of_app. destruct v; simpl. do 2 f_equal. lia.
  - intros inp c v c' Hc H. unfold read_value in H. read_inv H. apply guard_bind in H as [Hg H].
    read_inv H. apply ret_inv in H as [<- <-]. bool_hyps. split; [done|]. by eapply occurs_app.
Qed.

Lemma write_value_Some v b :
  in_uint 64 v.(rec_expires_unix_ms) -> write_value v = Some b <-> valid_value v /\ b = value_bytes v.
Proof.
  intros Hx. unfold write_value, valid_value, value_bytes.
  destruct (Z.ltb_spec kMaxValueBytes (size_of (rec_value v))); [naive_solver lia|].
  destruct (w_string_u16 (rec_value v)) as [s|] eqn:E.
  - apply w_string_u16_Some in E as [_ ->]. naive_solver.
  - split; [done|]. intros [[Hs _] _]. rewrite (proj2 (w_string_u16_Some _ (s16_bytes (rec_value v)))) in E; [done|].
    split; [by eapply small_string|done].
Qed.

Section codecs.
Context (address_ok : bytes -> bool).

(** *** Contacts *)

Definition contact_bytes (c : NodeWireContact) : bytes :=
  c.(id) ++ s8_bytes c.(endpoint).(host) ++ w_u16 c.(endpoint).(port) ++ w_u64 c.(last_seen_unix_ms).
Definition valid_contact (c : NodeWireContact) : Prop :=
  typed_contact c /\ in_uint 8 (size_of c.(endpoint).(host)) /\ is_valid_host_port address_ok c.(endpoint) = true.

#[local] Instance contact_codec : Codec valid_contact contact_bytes (read_node_contact address_ok).
Proof.
  split.
  - intros [i [h p] s] pre suf ((Hi & Hp & Hs) & Hh & Hv). unfold contact_bytes, read_node_contact; cbn [endpoint host port id last_seen_unix_ms] in *.
    rewrite <- !app_assoc. change i with (Datatypes.id i) at 1. read_back. rewrite guard_pass by done.
    unfold mret, reader_ret. rewrite !size_of_app. unfold Datatypes.id. do 2 f_equal. lia.
  - intros inp c v c' Hc H. unfold read_node_contact in H. do 4 read_inv H.
    apply guard_bind in H as [Hg H]. apply ret_inv in H as [<- <-]. split; [done|].
    unfold contact_bytes. cbn [endpoint host port id last_seen_unix_ms]. repeat (eapply occurs_app; [eassumption|]). eassumption.
Qed.

Lemma write_contact_Some c b :
  typed_contact c -> write_node_contact address_ok c = Some b <-> valid_contact c /\ b = contact_bytes c.
Proof.
  intros Ht. unfold write_node_contact, valid_contact, contact_bytes, kMaxHostBytes.
  destruct (is_valid_host_port address_ok (endpoint c)) eqn:Ev.
  - assert (size_of (host (endpoint c)) <> 0) as Hne.
    { intros E. unfold is_valid_host_port in Ev. rewrite E in Ev. by destruct (port (endpoint c) =? 0). }
    pose proof (size_of_nonneg (host (endpoint c))).
    destruct (Z.eqb_spec (size_of (host (endpoint c))) 0); [lia|].
    destruct (Z.ltb_spec 255 (size_of (host (endpoint c)))) as [Hl|Hl]; cbn [orb negb].
    { unfold in_uint. naive_solver lia. }
    rewrite (proj2 (w_string_u8_Some _ (s8_bytes (host (endpoint c))))) by (unfold in_uint; split; [lia|done]).
    unfold in_uint. naive_solver lia.
  - rewrite orb_true_r. naive_solver.
Qed.

(** *** Counted lists *)

Lemma write_all_Some {A} (w : A -> option bytes) (enc : A -> bytes) (valid : A -> Prop) l b :
  Forall (fun x => forall b, w x = Some b <-> valid x /\ b = enc x) l ->
  write_all w l = Some b <-> Forall valid l /\ b = concat (enc <$> l).
Proof.
  intros Hw. revert b. induction Hw as [|x l Hx _ IH]; intros b; simpl; [naive_solver|].
  rewrite Forall_cons. destruct (w x) as [bx|].
  - destruct (proj1 (Hx bx) eq_refl) as [Hv ->]. destruct (write_all w l) as [bl|].
    + destruct (proj1 (IH bl) eq_refl) as [Hl ->]. naive_solver.
    + split; [done|]. intros [[_ Hl] _]. by discriminate (proj2 (IH (concat (enc <$> l)))).
  - split; [done|]. intros [[Hv _] _]. by discriminate (proj2 (Hx (enc x))).
Qed.

Definition counted {A} (enc : A -> bytes) (l : list A) : bytes := w_u16 (size_of l) ++ concat (enc <$> l).

Lemma counted_codec {A} (valid : A -> Prop) (enc : A -> bytes) (dec : reader A) `{!Codec valid enc dec} (n : Z) :
  0 <= n < 2 ^ 16 ->
  Codec (fun l => size_of l <= n /\ Forall valid l) (counted enc)
    (count ← r_u16; _ ← rguard (count <=? n); read_many dec (Z.to_nat count)).
Proof.
  intros Hn. split.
  - intros l pre suf [Hs Hl]. unfold counted. rewrite <- app_assoc.
    eapply bind_roundtrip; [unfold in_uint; size_lia|]. cbv beta.
    rewrite guard_pass by (by apply Z.leb_le).
    pose proof (many_codec (enc := enc) (dec := dec) (length l)) as Hm. rewrite to_nat_size_of.
    rewrite (codec_roundtrip (Codec := Hm)) by done. rewrite !size_of_app. do 2 f_equal. lia.
  - intros inp c l c' Hc H. read_inv H. apply guard_bind in H as [Hg H]. bool_hyps.
    pose proof (many_codec (enc := enc) (dec := dec) (Z.to_nat x)) as Hm.
    apply (codec_sound (Codec := Hm)) in H as [[Hlen Hl] Ho']; [|done].
    assert (size_of l = x) as <- by (unfold size_of, in_uint in *; lia).
    split; [done|]. unfold counted. by eapply occurs_app.
Qed.

#[local] Instance nodes_codec :
  Codec (fun l => size_of l <= kMaxNodesPerMessage /\ Forall valid_contact l) (counted contact_bytes)
    (read_nodes address_ok).
Proof. by apply (counted_codec valid_contact contact_bytes (read_node_contact address_ok)). Qed.

#[local] Instance values_codec :
  Codec (fun l => size_of l <= kMaxValuesPerMessage /\ Forall valid_value l) (counted value_bytes) read_values.
Proof. by apply (counted_codec valid_value value_bytes read_value). Qed.

Lemma write_nodes_Some l b :
  Forall typed_contact l ->
  write_nodes address_ok l = Some b <->
  (size_of l <= kMaxNodesPerMessage /\ Forall valid_contact l) /\ b = counted contact_bytes l.
Proof.
  intros Ht. unfold write_nodes, counted. destruct (Z.ltb_spec kMaxNodesPerMessage (size_of l)); [naive_solver lia|].
  pose proof (write_all_Some (write_node_contact address_ok) contact_bytes valid_contact l) as Hw.
  destruct (write_all _ l) as [bl|].
  - destruct (Hw bl) as [Hw1 _]; [eapply Forall_impl; [exact Ht|]; intros; by apply write_contact_Some|]. naive_solver.
  - split; [done|]. intros [[_ Hv] _]. destruct (Hw (concat (contact_bytes <$> l))) as [_ Hw2];
      [eapply Forall_impl; [exact Ht|]; intros; by apply write_contact_Some|]. by discriminate Hw2; auto.
Qed.

Lemma write_values_Some l b :
  Forall (fun v => in_uint 64 v.(rec_expires_unix_ms)) l ->
  write_values l = Some b <->
  (size_of l <= kMaxValuesPerMessage /\ Forall valid_value l) /\ b = counted value_bytes l.
Proof.
  intros Ht. unfold write_values, counted. destruct (Z.ltb_spec kMaxValuesPerMessage (size_of l)); [naive_solver lia|].
  pose proof (write_all_Some write_value value_bytes valid_value l) as Hw.
  destruct (write_all _ l) as [bl|].
  - destruct (Hw bl) as [Hw1 _]; [eapply Forall_impl; [exact Ht|]; intros; by apply write_value_Some|]. naive_solver.
  - split; [done|]. intros [[_ Hv] _]. destruct (Hw (concat (value_bytes <$> l))) as [_ Hw2];
      [eapply Forall_impl; [exact Ht|]; intros; by apply write_value_Some|]. by discriminate Hw2; auto.
Qed.

(** *** Header and body *)

Lemma type_of_type_byte t : in_uint 8 (type_byte t) -> (forall raw, t <> kUnnamed raw) ->
  type_of_byte (type_byte t) = t.
Proof. intros _ Ht. destruct t; try done. by destruct (Ht raw). Qed.

Lemma type_byte_of raw : type_byte (type_of_byte raw) = raw.
Proof.
  unfold type_of_byte. repeat (case_match; [bool_hyps; by subst|]). done.
Qed.

Lemma type_byte_range t : (forall raw, t <> kUnnamed raw) -> in_uint 8 (type_byte t).
Proof. intros Ht. unfold in_uint. destruct t; simpl; try lia. by destruct (Ht raw). Qed.

Lemma magic_codec : Codec (fun bs : bytes => size_of bs = size_of kMagic) Datatypes.id (read_span (size_of kMagic)).
Proof. by apply span_codec. Qed.

Lemma header_roundtrip m suf :
  typed m -> (forall raw, m.(type) <> kUnnamed raw) ->
  read_header (write_header m ++ suf) 0 = Some (header_of m, size_of (write_header m)).
Proof.
  intros (Htx & Hp & Hid & _) Ht. unfold write_header, read_header. rewrite <- !app_assoc.
  rewrite <- (app_nil_l (kMagic ++ _)). change 0 with (size_of (@nil Byte.byte)).
  change kMagic with (Datatypes.id kMagic) at 1.
  eapply (bind_roundtrip (HC := magic_codec)); [done|]. cbv beta.
  rewrite guard_pass by (by apply bool_decide_eq_true). read_back; [by apply type_byte_range|].
  rewrite guard_pass by done. read_back. change (sender_id m) with (Datatypes.id (sender_id m)) at 1.
  read_back. unfold mret, reader_ret. rewrite type_of_type_byte by (by apply type_byte_range || done).
  unfold Datatypes.id, header_of. rewrite app_nil_l. by do 2 f_equal.
Qed.

Lemma header_sound inp h c :
  read_header inp 0 = Some (h, c) ->
  header_of h = h /\ occurs inp 0 (write_header h) c /\ 0 <= c /\
  in_uint 32 h.(tx_id) /\ in_uint 16 h.(source_port) /\ valid_id h.(sender_id).
Proof.
  unfold read_header. intros H. assert (0 <= 0) as Hc0 by done.
  apply (bind_sound (HC := magic_codec)) in H as (magic & c1 & _ & Ho1 & Hc1 & H); [|done].
  apply guard_bind in H as [Hm H]. bool_hyps. subst magic. do 2 read_inv H.
  apply guard_bind in H as [Hver H]. bool_hyps. subst x. do 3 read_inv H.
  apply ret_inv in H as [<- <-]. split_and!; try done. unfold write_header. cbn [type tx_id source_port sender_id header_message].
  rewrite type_byte_of. repeat (eapply occurs_app; [eassumption|]). eassumption.
Qed.

(** Behind the last field of a body: the same message, the cursor at its end. *)
Ltac body_done Et :=
  unfold mret, reader_ret, set_ping, set_find_node, set_nodes, set_announce, set_accepted, set_find_value,
    set_values, set_error, header_of;
  cbn [type tx_id source_port sender_id header_message]; unfold Datatypes.id; rewrite ?Et, ?size_of_app;
  do 2 f_equal; lia.

Lemma body_roundtrip m body pre suf :
  typed m -> write_body address_ok m = Some body ->
  read_body address_ok (header_of m) (pre ++ body ++ suf) (size_of pre)
    = Some (carried m, size_of pre + size_of body).
Proof.
  intros (_ & _ & _ & Hti & Hmr & Hpi & Hno & Htt & Hva & Hec) Hb.
  unfold write_body in Hb. unfold read_body, carried. 
  assert (type (header_of m) = type m) as -> by done. destruct (type m) eqn:Et.
  - apply (inj Some) in Hb as <-. rewrite size_of_nil. body_done Et.
  - apply (inj Some) in Hb as <-. read_back. body_done Et.
  - apply (inj Some) in Hb as <-. rewrite <- app_assoc. change (target_id m) with (Datatypes.id (target_id m)) at 1.
    read_back. body_done Et.
  - apply write_nodes_Some in Hb as [Hv ->]; [|done]. read_back. body_done Et.
  - destruct (Z.eqb_spec (size_of (msg_key m)) 0); [done|].
    destruct (Z.ltb_spec kMaxKeyBytes (size_of (msg_key m))); [done|].
    destruct (Z.ltb_spec kMaxValueBytes (size_of (msg_value m))); [done|]. cbn [orb] in Hb.
    destruct (w_string_u16 (msg_key m)) as [k|] eqn:Ek; [|done].
    destruct (w_string_u16 (msg_value m)) as [v|] eqn:Ev; [|done]. apply (inj Some) in Hb as <-.
    apply w_string_u16_Some in Ek as [Hk ->]. apply w_string_u16_Some in Ev as [Hv ->].
    rewrite <- !app_assoc. read_back. rewrite guard_pass; [body_done Et|].
    unfold key_ok. rewrite !andb_true_iff, negb_true_iff, Z.eqb_neq, !Z.leb_le. lia.
  - apply (inj Some) in Hb as <-. read_back; [destruct (accepted m); unfold in_uint; lia|].
    replace (negb _) with (accepted m) by (by destruct (accepted m)). body_done Et.
  - destruct (Z.eqb_spec (size_of (msg_key m)) 0); [done|].
    destruct (Z.ltb_spec kMaxKeyBytes (size_of (msg_key m))); [done|]. cbn [orb] in Hb.
    destruct (w_string_u16 (msg_key m)) as [k|] eqn:Ek; [|done]. apply (inj Some) in Hb as <-.
    apply w_string_u16_Some in Ek as [Hk ->]. rewrite <- !app_assoc. read_back. rewrite guard_pass; [body_done Et|].
    unfold key_ok. rewrite andb_true_iff, negb_true_iff, Z.eqb_neq, Z.leb_le. lia.
  - destruct (write_values (values m)) as [v|] eqn:Ev; [|done].
    destruct (write_nodes address_ok (nodes m)) as [n|] eqn:En; [|done]. apply (inj Some) in Hb as <-.
    apply write_values_Some in Ev as [Hv ->]; [|done]. apply write_nodes_Some in En as [Hn ->]; [|done].
    rewrite <- app_assoc. read_back. body_done Et.
  - destruct (Z.ltb_spec kMaxErrorBytes (size_of (error_message m))); [done|].
    destruct (w_string_u16 (error_message m)) as [t|] eqn:Ee; [|done]. apply (inj Some) in Hb as <-.
    apply w_string_u16_Some in Ee as [He ->]. rewrite <- app_assoc. read_back.
    rewrite guard_pass by (by apply Z.leb_le). body_done Et.
  - done.
Qed.

Lemma zero_id_valid : valid_id zero_id.
Proof. reflexivity. Qed.

Lemma Forall_valid_contact l : Forall valid_contact l -> Forall typed_contact l.
Proof. intros H. eapply Forall_impl; [exact H|]. by intros c [? _]. Qed.

Lemma Forall_valid_value l :
  Forall valid_value l -> Forall (fun v => in_uint 64 v.(rec_expires_unix_ms)) l.
Proof. intros H. eapply Forall_impl; [exact H|]. by intros c [_ ?]. Qed.

Lemma zero_in_uint w : 0 <= w -> in_uint w 0.
Proof. intros Hw. unfold in_uint. lia. Qed.

(** What a body that was read tells: the message is typed, carries nothing
    else, and the body written for it is what was read, except that any
    non-zero acceptance byte reads as true. *)
Definition body_read (h m : RpcMessage) (inp : bytes) (c c' : Z) : Prop :=
  header_of m = h /\ carried m = m /\ typed m /\
  exists body, write_body address_ok m = Some body /\ c' = c + size_of body /\
    (type m <> kAnnouncePeerResponse -> occurs inp c body c').

Lemma body_read_intro h m inp c c' body :
  header_of m = h -> carried m = m -> typed m -> write_body address_ok m = Some body -> occurs inp c body c' ->
  body_read h m inp c c'.
Proof. intros ? ? ? ? Ho. split_and!; [done..|]. exists body. split_and!; [done| |done]. by destruct Ho as (_ & ? & _). Qed.

(** The typing of a message one of whose groups of fields was read. *)
Ltac typed_done :=
  unfold typed; cbn [type tx_id source_port sender_id target_id max_results ping_unix_ms nodes ttl_seconds values
    error_code header_message set_ping set_find_node set_nodes set_announce set_accepted set_find_value set_values
    set_error];
  split_and!; try done; first [by apply zero_id_valid | by apply zero_in_uint | by apply Forall_nil |
    by apply Forall_valid_contact | by apply Forall_valid_value].

Lemma key_ok_spec k : key_ok k = true -> size_of k <> 0 /\ size_of k <= kMaxKeyBytes.
Proof. unfold key_ok. rewrite andb_true_iff, negb_true_iff, Z.eqb_neq, Z.leb_le. done. Qed.

Lemma body_sound t tx port sender inp c m c' :
  in_uint 32 tx -> in_uint 16 port -> valid_id sender -> 0 <= c ->
  let h := header_message t tx port sender in
  read_body address_ok h inp c = Some (m, c') -> body_read h m inp c c'.
Proof.
  intros Htx Hsp Hid Hc h H. unfold read_body, h in H. cbn [type header_message] in H. destruct t; fold h in H.
  - apply ret_inv in H as [<- <-]. eapply body_read_intro; [done..|typed_done|reflexivity|by apply occurs_nil].
  - read_inv H. apply ret_inv in H as [<- <-].
    eapply body_read_intro; [done..|typed_done|reflexivity|eassumption].
  - do 2 read_inv H. apply ret_inv in H as [<- <-].
    eapply body_read_intro; [done..|typed_done|reflexivity|by eapply occurs_app].
  - read_inv H. apply ret_inv in H as [<- <-]. destruct Hv as [? ?].
    eapply body_read_intro; [done..|typed_done| |eassumption].
    apply write_nodes_Some; [by apply Forall_valid_contact|done].
  - do 3 read_inv H. apply guard_bind in H as [Hg H]. apply ret_inv in H as [<- <-]. bool_hyps.
    pose proof (key_ok_spec _ ltac:(eassumption)) as [? ?].
    eapply body_read_intro; [done..|typed_done| |eapply occurs_app; [eassumption|by eapply occurs_app]].
    unfold write_body. cbn [type set_announce h header_message msg_key msg_value ttl_seconds].
    destruct (Z.eqb_spec (size_of x) 0); [done|]. destruct (Z.ltb_spec kMaxKeyBytes (size_of x)); [lia|].
    destruct (Z.ltb_spec kMaxValueBytes (size_of x0)); [lia|]. cbn [orb].
    rewrite !(proj2 (w_string_u16_Some _ (s16_bytes _))) by done. done.
  - read_inv H. apply ret_inv in H as [<- <-]. split_and!; [done..|typed_done|].
    eexists. split_and!; [reflexivity| |done]. by destruct Ho as (_ & ? & _).
  - do 2 read_inv H. apply guard_bind in H as [Hg H]. apply ret_inv in H as [<- <-].
    pose proof (key_ok_spec _ Hg) as [? ?].
    eapply body_read_intro; [done..|typed_done| |by eapply occurs_app].
    unfold write_body. cbn [type set_find_value h header_message msg_key max_results].
    destruct (Z.eqb_spec (size_of x) 0); [done|]. destruct (Z.ltb_spec kMaxKeyBytes (size_of x)); [lia|]. cbn [orb].
    rewrite !(proj2 (w_string_u16_Some _ (s16_bytes _))) by done. done.
  - do 2 read_inv H. apply ret_inv in H as [<- <-]. destruct Hv as [? ?], Hv0 as [? ?].
    eapply body_read_intro; [done..|typed_done| |by eapply occurs_app].
    unfold write_body. cbn [type set_values h header_message values nodes].
    rewrite (proj2 (write_values_Some x (counted value_bytes x) (Forall_valid_value x ltac:(done)))) by done.
    by rewrite (proj2 (write_nodes_Some x0 (counted contact_bytes x0) (Forall_valid_contact x0 ltac:(done)))).
  - do 2 read_inv H. apply guard_bind in H as [Hg H]. apply ret_inv in H as [<- <-]. bool_hyps.
    eapply body_read_intro; [done..|typed_done| |by eapply occurs_app].
    unfold write_body. cbn [type set_error h header_message error_code error_message].
    destruct (Z.ltb_spec kMaxErrorBytes (size_of x0)); [lia|].
    rewrite (proj2 (w_string_u16_Some _ (s16_bytes x0))) by done. done.
  - done.
Qed.

(** Messages survive the wire. A message whose fields are values of their
    types and which [encode_message] accepts is decoded from the datagram with
    exactly the fields its type carries; a datagram that [decode_message]
    accepts holds typed fields, and its message is encoded again to a datagram
    of the same size, the very same one except for the acceptance byte of an
    announce response; no datagram over 4096 bytes is written or accepted. *)
Theorem dht_message_roundtrip :
  (forall m datagram, typed m -> encode_message address_ok m = Some datagram ->
    decode_message address_ok datagram = Some (carried m) /\ 0 < size_of datagram <= kMaxPacketBytes) /\
  (forall datagram m, decode_message address_ok datagram = Some m ->
    typed m /\ carried m = m /\ size_of datagram <= kMaxPacketBytes /\
    exists datagram', encode_message address_ok m = Some datagram' /\ size_of datagram' = size_of datagram /\
      (m.(type) <> kAnnouncePeerResponse -> datagram' = datagram)).
Proof.
  split.
  - intros m datagram Hm He. unfold encode_message in He.
    destruct (write_body address_ok m) as [body|] eqn:Eb; [|done].
    destruct (Z.eqb_spec (size_of (write_header m ++ body)) 0) as [|H0]; [done|].
    destruct (Z.ltb_spec kMaxPacketBytes (size_of (write_header m ++ body))) as [|Hmax]; [done|].
    apply (inj Some) in He as <-. split; [|size_lia]. unfold decode_message.
    rewrite (proj2 (Z.eqb_neq _ _)) by done. rewrite (proj2 (Z.ltb_ge _ _)) by done. cbn [orb].
    unfold mbind, reader_bind. rewrite header_roundtrip; [|done|].
    2:{ intros raw Et. unfold write_body in Eb. by rewrite Et in Eb. }
    rewrite <- (app_nil_r body) at 1.
    rewrite body_roundtrip with (body := body) by done. by rewrite size_of_app, Z.eqb_refl.
  - intros datagram m. unfold decode_message.
    destruct (Z.eqb_spec (size_of datagram) 0) as [|H0]; [done|].
    destruct (Z.ltb_spec kMaxPacketBytes (size_of datagram)) as [|Hmax]; [done|]. cbn [orb].
    unfold mbind, reader_bind. destruct (read_header datagram 0) as [[h c]|] eqn:Eh; [|done].
    apply header_sound in Eh as (Hh & Hoh & Hc & Htx & Hsp & Hid).
    destruct (read_body address_ok h datagram c) as [[m' c']|] eqn:Eb; [|done].
    destruct (Z.eqb_spec c' (size_of datagram)) as [->|]; [|done]. intros Em. apply (inj Some) in Em as ->.
    rewrite <- Hh in Eb. apply body_sound in Eb as (Hhm & Hca & Hty & body & Hwb & Hsz & Hob); [|done..].
    assert (write_header m = write_header h) as Ewh.
    { exact (f_equal write_header Hhm). }
    assert (size_of (write_header m ++ body) = size_of datagram) as Hs.
    { rewrite size_of_app, Ewh. destruct Hoh as (_ & -> & _). lia. }
    split_and!; [done..|]. exists (write_header m ++ body). split_and!; [|done|].
    + unfold encode_message. rewrite Hwb. rewrite Hs. rewrite (proj2 (Z.eqb_neq _ _)) by done.
      by rewrite (proj2 (Z.ltb_ge _ _)) by done.
    + intros Hne. symmetry. apply occurs_whole. rewrite Ewh. eapply occurs_app; [exact Hoh|by apply Hob].
Qed.

End codecs.

(** A find-value response with a value and a contact. *)
Definition sample_response : RpcMessage :=
  mkMessage kFindValueResponse 77 4000 (sample_id Byte.x10) zero_id 0 0
    [mkWireContact (sample_id Byte.x30) (mkEndpoint $"peer.local" 4001) 12345] [] [] 0
    [mkRecord $"10.0.0.7:4002" 99999] false 0 [].

Lemma dht_message_roundtrip_witness :
  exists datagram, encode_message (fun _ => false) sample_response = Some datagram /\
    decode_message (fun _ => false) datagram = Some sample_response.
Proof.
  eexists. split; [vm_compute; reflexivity|].
  refine (proj1 (proj1 (dht_message_roundtrip (fun _ => false)) sample_response _ _ _)).
  - split_and!; try (apply is_uint_spec; reflexivity); try reflexivity.
    + apply Forall_singleton. split_and!; [reflexivity|apply is_uint_spec; reflexivity..].
    + apply Forall_singleton. apply is_uint_spec. reflexivity.
  - vm_compute. reflexivity.
Defined.
