(* ===== verification/Balancer.v ===== *)
(** * The balancer: which account serves a request

    src/native/balancer: eligibility ([eligibility.cpp]), scores ([scorer.cpp]
    and the strategies' own) and the selection strategies, on
    core/algorithm/include/algorithm/pick.h.  A pointer to a candidate is an
    option, [None] the null pointer.  Scores are [double]s and follow IEEE 754,
    not-a-number and infinities included.  [std::pow] is a parameter; the
    numbers the random distributions draw are arguments. *)

From S2P Require Import Prelude Double.

(** ** strategies/strategy.h, eligibility.h, scorer.h *)

Record AccountCandidate := mkCandidate {
  id : bytes;
  active : bool;
  healthy : bool;
  enabled : bool;
  usage_ratio : double;
  static_weight : double;
  outstanding_requests : Z;
  ewma_latency_ms : double;
  success_rate : double;
  error_ewma : double;
  secondary_usage_ratio : double;
  normalized_cost : double
}.

Abbreviation CandidateView := (list (option AccountCandidate)).

Record EligibilityOptions := mkEligibility {
  max_usage_ratio : double;
  require_active : bool;
  require_healthy : bool;
  require_enabled : bool
}.

Record ScoreWeights := mkWeights {
  w_headroom : double;
  w_success_rate : double;
  w_latency_penalty : double;
  w_outstanding_penalty : double
}.

(** ** eligibility.cpp *)

Definition is_account_eligible (account : AccountCandidate) (options : EligibilityOptions) : bool :=
  if options.(require_active) && negb account.(active) then false
  else if options.(require_healthy) && negb account.(healthy) then false
  else if options.(require_enabled) && negb account.(enabled) then false
  else fle (clamp_unit account.(usage_ratio)) (clamp_unit options.(max_usage_ratio)).

Definition filter_eligible_accounts (accounts : list AccountCandidate) (options : EligibilityOptions)
    : CandidateView :=
  Some <$> filter (fun a => is_account_eligible a options = true) accounts.

(** ** pick.h *)

(** The loops, with the best candidate and its score so far. *)
Fixpoint pick_min_loop (score_fn : AccountCandidate -> double) (candidates : CandidateView)
    (best : option AccountCandidate) (best_score : double) : option AccountCandidate :=
  match candidates with
  | [] => best
  | None :: rest => pick_min_loop score_fn rest best best_score
  | Some candidate :: rest =>
      let score := score_fn candidate in
      if flt score best_score then pick_min_loop score_fn rest (Some candidate) score
      else pick_min_loop score_fn rest best best_score
  end.

Fixpoint pick_max_loop (score_fn : AccountCandidate -> double) (candidates : CandidateView)
    (best : option AccountCandidate) (best_score : double) : option AccountCandidate :=
  match candidates with
  | [] => best
  | None :: rest => pick_max_loop score_fn rest best best_score
  | Some candidate :: rest =>
      let score := score_fn candidate in
      if flt best_score score then pick_max_loop score_fn rest (Some candidate) score
      else pick_max_loop score_fn rest best best_score
  end.

Definition pick_min_ptr (candidates : CandidateView) (score_fn : AccountCandidate -> double) :=
  pick_min_loop score_fn candidates None infinity.

Definition pick_max_ptr (candidates : CandidateView) (score_fn : AccountCandidate -> double) :=
  pick_max_loop score_fn candidates None neg_infinity.

(** ** scorer.cpp *)

Definition usage_weight_from_account (account : AccountCandidate) : double :=
  let usage := clamp_unit account.(usage_ratio) in
  let headroom := fsub f_one usage in
  let base_weight := clamp_non_negative account.(static_weight) in
  fmul headroom base_weight.

Definition compute_composite_score (account : AccountCandidate) (weights : ScoreWeights) : double :=
  if negb account.(active) || negb account.(healthy) || negb account.(enabled) then neg_infinity
  else
    let score := fadd f_zero (fmul (usage_weight_from_account account) weights.(w_headroom)) in
    let score := fadd score (fmul (clamp_unit account.(success_rate)) weights.(w_success_rate)) in
    let score := fsub score (fmul (clamp_non_negative account.(ewma_latency_ms))
                               (clamp_non_negative weights.(w_latency_penalty))) in
    fsub score (fmul (of_int account.(outstanding_requests))
                  (clamp_non_negative weights.(w_outstanding_penalty))).

Definition pick_highest_score (candidates : CandidateView) (weights : ScoreWeights) :=
  pick_max_ptr candidates (fun candidate => compute_composite_score candidate weights).

(** ** The strategies that compare scores *)

Definition pick_least_outstanding (eligible_accounts : CandidateView) :=
  pick_min_ptr eligible_accounts (fun account => of_int account.(outstanding_requests)).

Definition pick_lowest_latency_ewma (eligible_accounts : CandidateView) :=
  pick_min_ptr eligible_accounts (fun account => clamp_non_negative account.(ewma_latency_ms)).

Record HeadroomWeights := mkHeadroom { primary : double; secondary : double }.

Definition compute_headroom_score (account : AccountCandidate) (weights : HeadroomWeights) : double :=
  let primary_usage := clamp_unit account.(usage_ratio) in
  let secondary_usage := clamp_unit
    (if fle f_zero account.(secondary_usage_ratio) then account.(secondary_usage_ratio)
     else account.(usage_ratio)) in
  let primary_weight := clamp_non_negative weights.(primary) in
  let secondary_weight := clamp_non_negative weights.(secondary) in
  let total_weight := fadd primary_weight secondary_weight in
  if fle total_weight f_zero then fsub f_one primary_usage
  else
    let normalized_primary := fdiv primary_weight total_weight in
    let normalized_secondary := fdiv secondary_weight total_weight in
    let combined_usage := fadd (fmul normalized_primary primary_usage)
                               (fmul normalized_secondary secondary_usage) in
    clamp_unit (fsub f_one combined_usage).

Definition pick_headroom_score (eligible_accounts : CandidateView) (weights : HeadroomWeights) :=
  pick_max_ptr eligible_accounts (fun account => compute_headroom_score account weights).

Record CostAwareGuardrails := mkGuardrails {
  min_headroom : double;
  max_error_ewma : double;
  headroom_weights : HeadroomWeights
}.

(** The test of the loop of [pick_cost_aware]. *)
Definition compliant (guardrails : CostAwareGuardrails) (account : AccountCandidate) : bool :=
  fle (clamp_unit guardrails.(min_headroom)) (compute_headroom_score account guardrails.(headroom_weights)) &&
  fle (clamp_unit account.(error_ewma)) (clamp_unit guardrails.(max_error_ewma)).

Definition compliant_accounts (guardrails : CostAwareGuardrails) (eligible_accounts : CandidateView)
    : CandidateView :=
  filter (fun c => match c with Some account => compliant guardrails account | None => false end = true)
    eligible_accounts.

Definition pick_cost_aware (eligible_accounts : CandidateView) (guardrails : CostAwareGuardrails) :=
  match pick_min_ptr (compliant_accounts guardrails eligible_accounts)
          (fun account => clamp_non_negative account.(normalized_cost)) with
  | Some cheapest => Some cheapest
  | None =>
      pick_max_ptr eligible_accounts
        (fun account => compute_headroom_score account guardrails.(headroom_weights))
  end.

Record DeadlineAwareOptions := mkDeadline {
  deadline_slack_ms : double;
  tight_deadline_ms : double;
  urgency_scale : double;
  base_weights : ScoreWeights
}.

Definition adjusted_deadline_weights (options : DeadlineAwareOptions) : ScoreWeights :=
  let urgency_scale := fmax f_one (clamp_non_negative options.(urgency_scale)) in
  let tight_deadline_ms := fmax f_one (clamp_non_negative options.(tight_deadline_ms)) in
  let slack_ms := clamp_non_negative options.(deadline_slack_ms) in
  let urgency := fsub f_one (clamp_unit (fdiv slack_ms tight_deadline_ms)) in
  let factor := fadd f_one (fmul urgency (fsub urgency_scale f_one)) in
  let w := options.(base_weights) in
  mkWeights w.(w_headroom) (fmul w.(w_success_rate) factor) (fmul w.(w_latency_penalty) factor)
    (fmul w.(w_outstanding_penalty) factor).

Definition pick_deadline_aware (eligible_accounts : CandidateView) (options : DeadlineAwareOptions) :=
  pick_highest_score eligible_accounts (adjusted_deadline_weights options).

(** ** round_robin.cpp: [cursor] is a [std::size_t] *)

Definition pick_round_robin (eligible_accounts : CandidateView) (cursor : Z) : option AccountCandidate * Z :=
  if size_of eligible_accounts =? 0 then (None, cursor)
  else
    let index := cursor mod size_of eligible_accounts in
    (nth (Z.to_nat index) eligible_accounts None, (index + 1) mod size_of eligible_accounts).

(** ** power_of_two.cpp: [first_draw] in [0 .. n-1], [second_draw] in [0 .. n-2] *)

Definition power_of_two_pick (eligible_accounts : CandidateView) (weights : ScoreWeights)
    (first_draw second_draw : Z) : option AccountCandidate :=
  if size_of eligible_accounts =? 0 then None
  else if size_of eligible_accounts =? 1 then nth 0 eligible_accounts None
  else
    let first_index := first_draw in
    let second_index := if first_index <=? second_draw then second_draw + 1 else second_draw in
    let first := nth (Z.to_nat first_index) eligible_accounts None in
    let second := nth (Z.to_nat second_index) eligible_accounts None in
    match first, second with
    | None, _ => second
    | _, None => first
    | Some f, Some s =>
        if fle (compute_composite_score s weights) (compute_composite_score f weights) then first else second
    end.

(** ** weighted_round_robin.cpp *)

(** [current_weights_] *)
Abbreviation WeightedRoundRobinPicker := (gmap bytes double).

Record wrr_state := mkWrr {
  seen_ids : gset bytes;
  total_weight : double;
  best_current_weight : double;
  best : option AccountCandidate;
  current_weights : gmap bytes double
}.

(** One turn of the loop over the candidates. *)
Definition wrr_turn (st : wrr_state) (candidate : option AccountCandidate) : wrr_state :=
  match candidate with
  | None => st
  | Some account =>
      let seen := {[ account.(id) ]} ∪ st.(seen_ids) in
      let weight := usage_weight_from_account account in
      if fle weight f_zero then
        mkWrr seen st.(total_weight) st.(best_current_weight) st.(best) st.(current_weights)
      else
        let current := fadd (default f_zero (st.(current_weights) !! account.(id))) weight in
        let weights := <[account.(id) := current]> st.(current_weights) in
        let total := fadd st.(total_weight) weight in
        if flt st.(best_current_weight) current then mkWrr seen total current (Some account) weights
        else mkWrr seen total st.(best_current_weight) st.(best) weights
  end.

Definition weighted_round_robin_pick (eligible_accounts : CandidateView) (current_weights_ : WeightedRoundRobinPicker)
    : option AccountCandidate * WeightedRoundRobinPicker :=
  match eligible_accounts with
  | [] => (None, current_weights_)
  | front :: _ =>
      let st := foldl wrr_turn (mkWrr ∅ f_zero neg_infinity None current_weights_) eligible_accounts in
      match st.(best) with
      | None => (front, st.(current_weights))
      | Some b =>
          let current := default f_zero (st.(current_weights) !! b.(id)) in
          (Some b,
           filter (fun kv => kv.1 ∈ st.(seen_ids)) (<[b.(id) := fsub current st.(total_weight)]> st.(current_weights)))
      end
  end.

(** ** success_rate.cpp *)

(** 1e-12 and 0.1 *)
Definition f_1em12 : double := SpecFloat.S754_finite false 4951760157141521 (-92).
Definition f_0_1 : double := SpecFloat.S754_finite false 7205759403792794 (-56).

Definition success_probability (account : AccountCandidate) (epsilon : double) : double :=
  let clamped_epsilon := clamp_non_negative epsilon in
  let p_success := account.(success_rate) in
  if flt f_zero p_success then clamp_unit p_success
  else
    let error := clamp_unit account.(error_ewma) in
    fmax clamped_epsilon (fsub f_one error).

Section success_rate.
Context (pow : double -> double -> double).

Definition success_rate_weight (account : AccountCandidate) (rho epsilon : double) : double :=
  let clamped_epsilon := fmax f_1em12 (clamp_non_negative epsilon) in
  let clamped_rho := fmax f_0_1 (clamp_non_negative rho) in
  let p_success := fmax clamped_epsilon (success_probability account clamped_epsilon) in
  fmax clamped_epsilon (pow p_success clamped_rho).

Definition weights_of (eligible_accounts : CandidateView) (rho epsilon : double) : list double :=
  (fun c => match c with None => f_zero | Some account => success_rate_weight account rho epsilon end)
    <$> eligible_accounts.

(** [total_weight], where a null candidate adds nothing. *)
Definition total_of (eligible_accounts : CandidateView) (rho epsilon : double) : double :=
  foldl (fun total c => match c with None => total | Some account => fadd total (success_rate_weight account rho epsilon) end)
    f_zero eligible_accounts.

(** The selection loop; [None] when it ends without a return. *)
Fixpoint select_loop (target cumulative : double) (eligible_accounts : CandidateView) (weights : list double)
    : option AccountCandidate :=
  match eligible_accounts, weights with
  | c :: rest, w :: ws =>
      let cumulative := fadd cumulative w in
      if fle target cumulative then match c with Some account => Some account | None => select_loop target cumulative rest ws end
      else select_loop target cumulative rest ws
  | _, _ => None
  end.

(** [draw total] is the number the distribution over [0, total) draws. *)
Definition success_rate_pick (draw : double -> double) (eligible_accounts : CandidateView) (rho epsilon : double)
    : option AccountCandidate :=
  match eligible_accounts with
  | [] => None
  | front :: _ =>
      let weights := weights_of eligible_accounts rho epsilon in
      let total_weight := total_of eligible_accounts rho epsilon in
      if fle total_weight f_zero then front
      else
        match select_loop (draw total_weight) f_zero eligible_accounts weights with
        | Some account => Some account
        | None => default None (last eligible_accounts)
        end
  end.
End success_rate.

(** ** Selection from accounts: the overloads that filter first *)

Definition on_accounts {A} (pick : CandidateView -> A) (accounts : list AccountCandidate)
    (options : EligibilityOptions) : A :=
  pick (filter_eligible_accounts accounts options).

(** What some strategy returns on a view, with any settings, any state and any
    draws in range. *)
Inductive selects (v : CandidateView) : option AccountCandidate -> Prop :=
  | selects_least : selects v (pick_least_outstanding v)
  | selects_latency : selects v (pick_lowest_latency_ewma v)
  | selects_headroom w : selects v (pick_headroom_score v w)
  | selects_cost g : selects v (pick_cost_aware v g)
  | selects_deadline o : selects v (pick_deadline_aware v o)
  | selects_round_robin cursor : 0 <= cursor -> selects v (pick_round_robin v cursor).1
  | selects_power_of_two w i j :
      0 <= i < size_of v -> (size_of v = 1 \/ 0 <= j < size_of v - 1) -> selects v (power_of_two_pick v w i j)
  | selects_weighted weights : selects v (weighted_round_robin_pick v weights).1
  | selects_success pow draw rho epsilon : selects v (success_rate_pick pow draw v rho epsilon).

(** ** Lemmas *)

(** What a comparison with the best leaves behind. *)
Lemma flt_neg_trans x y z : flt x y = true -> flt z y = false -> z <> SpecFloat.S754_nan -> flt x z = true.
Proof.
  intros Hxy Hzy Hz. destruct (flt x z) eqn:E; [done|exfalso].
  assert (x <> SpecFloat.S754_nan) as Hx by (by intros ->).
  destruct (flt_connected x z Hx Hz E) as [H|H].
  - by rewrite (flt_trans z x y H Hxy) in Hzy.
  - apply not_true_iff_false in Hzy. rewrite flt_rank in Hxy, Hzy. by rewrite H in Hxy.
Qed.

Lemma flt_not_nan x y : flt x y = true -> x <> SpecFloat.S754_nan /\ y <> SpecFloat.S754_nan.
Proof. rewrite flt_rank. split; intros ->; simpl in *; [done|]. by destruct (rank x). Qed.

(** The best of a list under a strict comparison of scores, [worst] the score
    to beat: the first element no other one beats. *)
Definition first_best (beats : double -> double -> bool) (worst : double) (score : AccountCandidate -> double)
    (v : CandidateView) (r : option AccountCandidate) : Prop :=
  match r with
  | None => forall a, Some a ∈ v -> beats (score a) worst = false
  | Some a =>
      beats (score a) worst = true /\ (forall b, Some b ∈ v -> beats (score b) (score a) = false) /\
      exists pre post, v = pre ++ Some a :: post /\
        forall b, Some b ∈ pre -> beats (score b) worst = true -> beats (score a) (score b) = true
  end.

Section best.
Context (beats : double -> double -> bool) (worst : double) (score : AccountCandidate -> double).
Context (beats_trans : forall x y z, beats x y = true -> beats y z = true -> beats x z = true).
Context (beats_irrefl : forall x, beats x x = false).
Context (beats_neg_trans : forall x y z,
  beats x y = true -> beats z y = false -> beats z worst = true -> beats x z = true).

(** Extending a prefix by a candidate, as both loops do. *)
Lemma first_best_next pre r c :
  first_best beats worst score pre r ->
  first_best beats worst score (pre ++ [Some c])
    (if beats (score c) (match r with Some a => score a | None => worst end) then Some c else r).
Proof.
  intros Hr. destruct r as [a|]; simpl in Hr.
  - destruct Hr as (Ha & Hbest & p & q & -> & Hfirst). destruct (beats (score c) (score a)) eqn:E; simpl.
    + split_and!; [by eapply beats_trans| |].
      * intros b [Hb|Hb%list_elem_of_singleton]%elem_of_app; [|by simplify_eq].
        destruct (beats (score b) (score c)) eqn:E'; [|done].
        pose proof (beats_trans _ _ _ E' E) as H. by rewrite Hbest in H.
      * exists (p ++ Some a :: q), []. split; [by rewrite <- app_assoc|]. intros b Hb Hw.
        eapply beats_neg_trans; [exact E|by apply Hbest|done].
    + split_and!; [done| |].
      * intros b [Hb|Hb%list_elem_of_singleton]%elem_of_app; [by apply Hbest|by simplify_eq].
      * exists p, (q ++ [Some c]). by rewrite <- app_assoc.
  - destruct (beats (score c) worst) eqn:E; simpl.
    + split_and!; [done| |].
      * intros b [Hb|Hb%list_elem_of_singleton]%elem_of_app; [|by simplify_eq].
        destruct (beats (score b) (score c)) eqn:E'; [|done].
        pose proof (beats_trans _ _ _ E' E) as H. by rewrite Hr in H.
      * exists pre, []. split; [done|]. intros b Hb Hw. by rewrite Hr in Hw.
    + intros b [Hb|Hb%list_elem_of_singleton]%elem_of_app; [by apply Hr|by simplify_eq].
Qed.

Lemma first_best_null pre r :
  first_best beats worst score pre r -> first_best beats worst score (pre ++ [None]) r.
Proof.
  intros Hr. destruct r as [a|]; simpl in *.
  - destruct Hr as (Ha & Hbest & p & q & -> & Hfirst). split_and!; [done| |].
    + intros b [Hb|Hb%list_elem_of_singleton]%elem_of_app; [by apply Hbest|done].
    + exists p, (q ++ [None]). by rewrite <- app_assoc.
  - intros b [Hb|Hb%list_elem_of_singleton]%elem_of_app; [by apply Hr|done].
Qed.
End best.

Lemma pick_min_loop_best score v pre r :
  first_best flt infinity score pre r ->
  first_best flt infinity score (pre ++ v)
    (pick_min_loop score v r (match r with Some a => score a | None => infinity end)).
Proof.
  revert pre r. induction v as [|[c|] v IH]; intros pre r Hr; cbn [pick_min_loop].
  - by rewrite app_nil_r.
  - rewrite cons_middle, app_assoc.
    pose proof (first_best_next flt infinity score flt_trans flt_irrefl) as Hnext.
    specialize (Hnext ltac:(intros x y z H1 H2 H3; apply (flt_neg_trans x y z H1 H2), (flt_not_nan _ _ H3)) pre r c Hr).
    destruct (flt (score c) _); by apply (IH _ _ Hnext).
  - rewrite cons_middle, app_assoc. by apply IH, first_best_null.
Qed.

Lemma pick_max_loop_best score v pre r :
  first_best (fun x y => flt y x) neg_infinity score pre r ->
  first_best (fun x y => flt y x) neg_infinity score (pre ++ v)
    (pick_max_loop score v r (match r with Some a => score a | None => neg_infinity end)).
Proof.
  revert pre r. induction v as [|[c|] v IH]; intros pre r Hr; cbn [pick_max_loop].
  - by rewrite app_nil_r.
  - rewrite cons_middle, app_assoc.
    pose proof (first_best_next (fun x y => flt y x) neg_infinity score) as Hnext.
    specialize (Hnext ltac:(intros x y z H1 H2; by apply (flt_trans z y x)) flt_irrefl).
    assert (forall x y z, flt y x = true -> flt y z = false -> flt neg_infinity z = true -> flt z x = true) as Hneg.
    { intros x y z H1 H2 H3. destruct (flt z x) eqn:E; [done|exfalso].
      pose proof (flt_neg_trans y x z H1 E (proj2 (flt_not_nan _ _ H3))). congruence. }
    specialize (Hnext Hneg pre r c Hr). simpl in Hnext.
    destruct (flt _ (score c)); by apply (IH _ _ Hnext).
  - rewrite cons_middle, app_assoc. by apply IH, first_best_null.
Qed.

Lemma pick_min_best v score : first_best flt infinity score v (pick_min_ptr v score).
Proof. apply (pick_min_loop_best score v [] None). by intros a ?%elem_of_nil. Qed.

Lemma pick_max_best v score : first_best (fun x y => flt y x) neg_infinity score v (pick_max_ptr v score).
Proof. apply (pick_max_loop_best score v [] None). by intros a ?%elem_of_nil. Qed.

Lemma first_best_elem beats worst score v a : first_best beats worst score v (Some a) -> Some a ∈ v.
Proof. intros (_ & _ & pre & post & -> & _). apply elem_of_app. right. left. Qed.

Lemma pick_min_elem v score a : pick_min_ptr v score = Some a -> Some a ∈ v.
Proof. intros E. eapply (first_best_elem flt infinity score). rewrite <- E. apply pick_min_best. Qed.

Lemma pick_max_elem v score a : pick_max_ptr v score = Some a -> Some a ∈ v.
Proof. intros E. eapply (first_best_elem _ neg_infinity score). rewrite <- E. apply pick_max_best. Qed.

Lemma wrr_best v st pre :
  (forall b, best st = Some b -> Some b ∈ pre) ->
  forall b, best (foldl wrr_turn st v) = Some b -> Some b ∈ pre ++ v.
Proof.
  revert st pre. induction v as [|c v IH]; intros st pre Hst b; simpl; [rewrite app_nil_r; apply Hst|].
  rewrite cons_middle, app_assoc. apply IH. intros b' Hb'. apply elem_of_app.
  destruct c as [a|]; simpl in Hb'; [|left; by apply Hst].
  repeat case_match; simpl in Hb'; try (left; by apply Hst). simplify_eq. right. left.
Qed.

Lemma select_loop_elem target cumulative v ws a :
  select_loop target cumulative v ws = Some a -> Some a ∈ v.
Proof.
  revert cumulative ws. induction v as [|c v IH]; intros cumulative [|w ws]; simpl; try done.
  destruct (fle target _); [|intros H; right; by eapply IH].
  destruct c as [x|]; intros H; [simplify_eq; left|right; by eapply IH].
Qed.

Lemma nth_elem {A} (l : list A) n d : (n < length l)%nat -> nth n l d ∈ l.
Proof. intros H. apply list_elem_of_In, nth_In, H. Qed.

(** A strategy returns a candidate of its view or the null pointer. *)
Lemma selects_elem v r a : selects v r -> r = Some a -> Some a ∈ v.
Proof.
  intros [| |w|g|o|cursor Hc|w i j Hi Hj|weights|pow draw rho eps].
  - apply pick_min_elem.
  - apply pick_min_elem.
  - apply pick_max_elem.
  - unfold pick_cost_aware. destruct (pick_min_ptr _ _) as [c|] eqn:Ec.
    + intros [= ->]. apply pick_min_elem in Ec. by apply list_elem_of_filter in Ec as [_ Ec].
    + apply pick_max_elem.
  - apply pick_max_elem.
  - unfold pick_round_robin. destruct (Z.eqb_spec (size_of v) 0); [done|]. simpl. intros <-.
    apply nth_elem. pose proof (size_of_nonneg v). pose proof (Z.mod_pos_bound cursor (size_of v)). unfold size_of in *. lia.
  - unfold power_of_two_pick. destruct (Z.eqb_spec (size_of v) 0); [done|].
    destruct (Z.eqb_spec (size_of v) 1); [intros <-; apply nth_elem; unfold size_of in *; lia|].
    destruct Hj as [|Hj]; [done|].
    assert (forall k, 0 <= k < size_of v -> nth (Z.to_nat k) v None ∈ v) as Hk.
    { intros k Hk. apply nth_elem. unfold size_of in *. lia. }
    pose proof (Hk i Hi) as H1. pose proof (Hk (if i <=? j then j + 1 else j)) as H2.
    specialize (H2 ltac:(destruct (Z.leb_spec i j); lia)).
    destruct (nth (Z.to_nat i) v None), (nth (Z.to_nat (if i <=? j then j + 1 else j)) v None);
      try case_match; naive_solver.
  - unfold weighted_round_robin_pick. destruct v as [|front v]; [done|].
    destruct (best _) as [b|] eqn:Eb; simpl; [|intros <-; left]. intros [= ->].
    by apply (wrr_best (front :: v) (mkWrr ∅ f_zero neg_infinity None weights) []) in Eb.
  - unfold success_rate_pick. destruct v as [|front v]; [done|].
    destruct (fle _ f_zero); [intros <-; left|]. destruct (select_loop _ _ _ _) as [x|] eqn:Ex.
    + intros [= ->]. by eapply select_loop_elem.
    + destruct (last (front :: v)) as [c|] eqn:El; simpl; [|done]. intros ->.
      rewrite last_lookup in El. by eapply list_elem_of_lookup_2.
Qed.

Lemma filter_eligible_elem a accounts options :
  Some a ∈ filter_eligible_accounts accounts options <-> a ∈ accounts /\ is_account_eligible a options = true.
Proof.
  unfold filter_eligible_accounts. rewrite list_elem_of_fmap. setoid_rewrite list_elem_of_filter. naive_solver.
Qed.

(** The strategies that always serve somebody. *)
Inductive always_selects (v : CandidateView) : option AccountCandidate -> Prop :=
  | always_round_robin cursor : 0 <= cursor -> always_selects v (pick_round_robin v cursor).1
  | always_power_of_two w i j :
      0 <= i < size_of v -> (size_of v = 1 \/ 0 <= j < size_of v - 1) -> always_selects v (power_of_two_pick v w i j)
  | always_weighted weights : always_selects v (weighted_round_robin_pick v weights).1
  | always_success pow draw rho epsilon : always_selects v (success_rate_pick pow draw v rho epsilon).

Lemma nth_Some (v : CandidateView) n :
  (forall c, c ∈ v -> is_Some c) -> (n < length v)%nat -> is_Some (nth n v None).
Proof. intros Hv Hn. by apply Hv, nth_elem. Qed.

Lemma always_selects_Some v r :
  (forall c, c ∈ v -> is_Some c) -> v <> [] -> always_selects v r -> is_Some r.
Proof.
  intros Hv Hne [cursor Hc|w i j Hi Hj|weights|pow draw rho eps].
  - unfold pick_round_robin. destruct (Z.eqb_spec (size_of v) 0) as [E|E]; [by apply size_of_zero in E|].
    apply nth_Some; [done|]. pose proof (size_of_nonneg v). pose proof (Z.mod_pos_bound cursor (size_of v)).
    unfold size_of in *. lia.
  - unfold power_of_two_pick. destruct (Z.eqb_spec (size_of v) 0) as [E|E]; [by apply size_of_zero in E|].
    destruct (Z.eqb_spec (size_of v) 1); [apply nth_Some; [done|unfold size_of in *; lia]|].
    destruct Hj as [|Hj]; [done|]. destruct (nth_Some v (Z.to_nat i) Hv) as [f ->]; [unfold size_of in *; lia|].
    destruct (nth_Some v (Z.to_nat (if i <=? j then j + 1 else j)) Hv) as [s ->].
    { destruct (Z.leb_spec i j); unfold size_of in *; lia. }
    by case_match.
  - unfold weighted_round_robin_pick. destruct v as [|front v]; [done|].
    destruct (best _); simpl; [done|]. apply Hv. left.
  - unfold success_rate_pick. destruct v as [|front v]; [done|].
    destruct (fle _ f_zero); [apply Hv; left|]. destruct (select_loop _ _ _ _); [done|].
    destruct (last (front :: v)) as [c|] eqn:El; simpl.
    + apply Hv. rewrite last_lookup in El. by eapply list_elem_of_lookup_2.
    + by apply last_None in El.
Qed.

(** Only eligible accounts serve. Whatever the strategy, its settings, its
    state and the numbers it draws, an account it selects among the accounts
    given is one of them and meets the eligibility options: active, healthy and
    enabled where that is required, and with a clamped usage within the clamped
    limit; and round robin, power of two, weighted round robin and success rate
    select an account whenever an eligible one exists. *)
Theorem selection_eligible (accounts : list AccountCandidate) (options : EligibilityOptions) :
  (forall a, on_accounts selects accounts options (Some a) ->
    a ∈ accounts /\
    (options.(require_active) = true -> a.(active) = true) /\
    (options.(require_healthy) = true -> a.(healthy) = true) /\
    (options.(require_enabled) = true -> a.(enabled) = true) /\
    fle (clamp_unit a.(usage_ratio)) (clamp_unit options.(max_usage_ratio)) = true) /\
  (forall r, (exists a, a ∈ accounts /\ is_account_eligible a options = true) ->
    on_accounts always_selects accounts options r ->
    exists a, r = Some a /\ a ∈ accounts /\ is_account_eligible a options = true).
Proof.
  unfold on_accounts. split.
  - intros a Ha. apply (selects_elem _ _ a) in Ha; [|done]. apply filter_eligible_elem in Ha as [Hin He]. unfold is_account_eligible in He.
    destruct (require_active options), (require_healthy options), (require_enabled options),
      (active a), (healthy a), (enabled a); simpl in He; done.
  - intros r (a & Ha & Hea) Hr.
    assert (forall c, c ∈ filter_eligible_accounts accounts options -> is_Some c) as Hsome.
    { intros c Hc. unfold filter_eligible_accounts in Hc. apply list_elem_of_fmap in Hc as (x & -> & _). done. }
    assert (filter_eligible_accounts accounts options <> []) as Hne.
    { intros E. apply (not_elem_of_nil (Some a)). rewrite <- E. by apply filter_eligible_elem. }
    destruct (always_selects_Some _ _ Hsome Hne Hr) as [b ->]. exists b. split; [done|].
    apply filter_eligible_elem. apply (selects_elem _ (Some b)); [|done]. clear -Hr. remember (Some b) as r. destruct Hr; by constructor.
Qed.

(** The scored strategies return the best candidate. Under IEEE 754
    comparison, infinities and not-a-number included, least-outstanding and
    latency return the first candidate with the least score and headroom and
    deadline-aware the first with the greatest: no candidate beats the one
    returned, it beats every candidate before it that has a score at all, and
    none is returned only when no score beats the starting infinity. Cost-aware
    returns the cheapest of the candidates within the guardrails and falls back
    to the best headroom only when none of them has a cost below infinity. *)
Theorem scored_strategies_optimal (v : CandidateView) :
  first_best flt infinity (fun a => of_int a.(outstanding_requests)) v (pick_least_outstanding v) /\
  first_best flt infinity (fun a => clamp_non_negative a.(ewma_latency_ms)) v (pick_lowest_latency_ewma v) /\
  (forall w, first_best (fun x y => flt y x) neg_infinity (fun a => compute_headroom_score a w) v
     (pick_headroom_score v w)) /\
  (forall o, first_best (fun x y => flt y x) neg_infinity
     (fun a => compute_composite_score a (adjusted_deadline_weights o)) v (pick_deadline_aware v o)) /\
  (forall g,
     match pick_cost_aware v g with
     | Some a =>
         (compliant g a = true /\
          first_best flt infinity (fun c => clamp_non_negative c.(normalized_cost)) (compliant_accounts g v) (Some a)) \/
         ((forall b, Some b ∈ v -> compliant g b = true -> flt (clamp_non_negative b.(normalized_cost)) infinity = false) /\
          first_best (fun x y => flt y x) neg_infinity (fun c => compute_headroom_score c g.(headroom_weights)) v (Some a))
     | None => forall b, Some b ∈ v -> flt neg_infinity (compute_headroom_score b g.(headroom_weights)) = false
     end).
Proof.
  split_and!; [apply pick_min_best|apply pick_min_best|intros w; apply pick_max_best|intros o; apply pick_max_best|].
  intros g. unfold pick_cost_aware.
  pose proof (pick_min_best (compliant_accounts g v) (fun c => clamp_non_negative (normalized_cost c))) as Hmin.
  destruct (pick_min_ptr _ _) as [a|] eqn:E.
  - left. split; [|done]. apply pick_min_elem in E. by apply list_elem_of_filter in E as [E _].
  - pose proof (pick_max_best v (fun c => compute_headroom_score c (headroom_weights g))) as Hmax.
    destruct (pick_max_ptr _ _) as [a|]; [|done]. right. split; [|done].
    intros b Hb Hc. apply Hmin. by apply list_elem_of_filter.
Qed.

(** ** Round robin over time *)

(** [n] requests in a row over the same candidates. *)
Fixpoint round_robin_run (n : nat) (v : CandidateView) (cursor : Z) : list (option AccountCandidate) * Z :=
  match n with
  | O => ([], cursor)
  | S n' =>
      let (selected, cursor) := pick_round_robin v cursor in
      let (rest, cursor) := round_robin_run n' v cursor in
      (selected :: rest, cursor)
  end.

Lemma nth_rotated (l : CandidateView) i k :
  (i < length l)%nat -> (k < length l)%nat ->
  nth k (drop i l ++ take i l) None = nth ((i + k) mod length l) l None.
Proof.
  intros Hi Hk. rewrite !nth_lookup. f_equal. destruct (decide (k < length (drop i l))%nat) as [H|H].
  - rewrite lookup_app_l, lookup_drop by done. rewrite length_drop in H. by rewrite Nat.mod_small by lia.
  - rewrite lookup_app_r by lia. rewrite length_drop in *. rewrite lookup_take_lt by lia. f_equal.
    apply (Nat.mod_unique _ _ 1); lia.
Qed.

Lemma round_robin_run_spec n v (i : nat) :
  (i < length v)%nat ->
  round_robin_run n v (Z.of_nat i) =
    ((fun k => nth ((i + k) mod length v) v None) <$> seq 0 n, Z.of_nat ((i + n) mod length v)).
Proof.
  revert i. induction n as [|n IH]; intros i Hi; cbn [round_robin_run].
  { rewrite Nat.add_0_r, Nat.mod_small by done. done. }
  unfold pick_round_robin. destruct (Z.eqb_spec (size_of v) 0) as [E|E]; [unfold size_of in E; lia|].
  rewrite (Z.mod_small (Z.of_nat i)) by (unfold size_of; lia).
  replace ((Z.of_nat i + 1) mod size_of v) with (Z.of_nat ((i + 1) mod length v)).
  2:{ unfold size_of. rewrite Nat2Z.inj_mod. f_equal. lia. }
  rewrite IH by (apply Nat.mod_upper_bound; lia). rewrite Nat2Z.id. cbn [seq fmap list_fmap]. f_equal.
  - f_equal.
    + rewrite Nat.add_0_r, Nat.mod_small by done. done.
    + rewrite <- (fmap_S_seq 0 n), <- list_fmap_compose. apply list_fmap_ext. intros k x _. simpl. f_equal.
      rewrite Nat.Div0.add_mod_idemp_l. f_equal. lia.
  - f_equal. rewrite Nat.Div0.add_mod_idemp_l. f_equal. lia.
Qed.

(** Round robin is fair: over an unchanged view of [n] candidates, [n]
    requests in a row go to every position exactly once, in the order of the
    view from the cursor on, and leave the cursor where it was; so any number
    of full rounds serves every candidate equally often. *)
Theorem round_robin_fair (v : CandidateView) (cursor : Z) :
  v <> [] -> 0 <= cursor ->
  let i := Z.to_nat (cursor mod size_of v) in
  round_robin_run (length v) v cursor = (drop i v ++ take i v, cursor mod size_of v) /\
  (drop i v ++ take i v ≡ₚ v).
Proof.
  intros Hv Hc i. split; [|rewrite Permutation_app_comm; by rewrite take_drop].
  assert (0 < size_of v) as Hs by (destruct v; [done|]; size_lia).
  pose proof (Z.mod_pos_bound cursor (size_of v) Hs) as Hm.
  assert (i < length v)%nat as Hi by (unfold i, size_of in *; lia).
  assert (round_robin_run (length v) v cursor = round_robin_run (length v) v (Z.of_nat i)) as ->.
  { unfold i. rewrite Z2Nat.id by lia. destruct (length v) as [|n] eqn:El; [lia|]. cbn [round_robin_run].
    unfold pick_round_robin. destruct (Z.eqb_spec (size_of v) 0); [lia|]. by rewrite Z.mod_mod by lia. }
  rewrite round_robin_run_spec by done. f_equal.
  - apply list_eq. intros k. rewrite list_lookup_fmap. destruct (decide (k < length v)%nat) as [Hk|Hk].
    + rewrite lookup_seq_lt by done. simpl. rewrite <- nth_rotated by done.
      destruct (lookup_lt_is_Some_2 (drop i v ++ take i v) k) as [x Hx].
      { rewrite length_app, length_drop, length_take. lia. }
      rewrite Hx. f_equal. by apply nth_lookup_Some.
    + rewrite lookup_seq_ge by lia. symmetry. apply lookup_ge_None. rewrite length_app, length_drop, length_take. lia.
  - rewrite <- Nat.add_mod_idemp_r, Nat.Div0.mod_same, Nat.add_0_r, Nat.mod_small by lia. unfold i. lia.
Qed.

(** Three accounts: half used, disabled, fresh. *)
Definition sample_account (name : bytes) (on : bool) (usage : double) (outstanding : Z) : AccountCandidate :=
  mkCandidate name true true on usage f_one outstanding f_zero f_one f_zero (of_int (-1)) f_zero.

Definition one_half : double := SpecFloat.S754_finite false 4503599627370496 (-53).

Definition sample_accounts : list AccountCandidate :=
  [sample_account $"a" true one_half 3; sample_account $"b" false f_zero 0; sample_account $"c" true f_zero 5].

Definition default_options : EligibilityOptions := mkEligibility f_one true true true.

Lemma selection_eligible_witness :
  on_accounts pick_least_outstanding sample_accounts default_options = Some (sample_account $"a" true one_half 3) /\
  enabled (sample_account $"a" true one_half 3) = true.
Proof.
  split; [vm_compute; reflexivity|].
  refine (proj1 (proj2 (proj2 (proj2 (proj1 (selection_eligible sample_accounts default_options)
    (sample_account $"a" true one_half 3) _)))) eq_refl).
  assert (Some (sample_account $"a" true one_half 3) =
    pick_least_outstanding (filter_eligible_accounts sample_accounts default_options)) as -> by (vm_compute; reflexivity).
  apply selects_least.
Defined.

Lemma round_robin_fair_witness :
  round_robin_run 2 (filter_eligible_accounts sample_accounts default_options) 7 =
    ([Some (sample_account $"c" true f_zero 5); Some (sample_account $"a" true one_half 3)], 1).
Proof.
  refine (eq_trans (proj1 (round_robin_fair (filter_eligible_accounts sample_accounts default_options) 7 _ _)) _).
  - vm_compute. discriminate.
  - lia.
  - vm_compute. reflexivity.
Defined.
