(* ===== verification/JsonValue.v ===== *)
(** * JsonValue: the JSON documents the proxy reads and writes

    [glz::generic] of the glaze library: a document is null, a boolean, a
    number, a string, an array or an object that maps keys to documents.
    Reading and writing text belong to the library; they are the two
    operations of the class [JsonCodec], and what a property needs of them is
    a hypothesis of that property. *)

From S2P Require Import Prelude Double Text.

Inductive Json :=
| JNull
| JBool (b : bool)
| JNumber (d : double)
| JString (s : bytes)
| JArray (l : list Json)
| JObject (m : gmap bytes Json).

Abbreviation JsonArray := (list Json).
Abbreviation JsonObject := (gmap bytes Json).

(** [glz::read_json(document, text)] and [glz::write_json(document)]; [None]
    is the library's error. *)
Class JsonCodec := {
  read_json : bytes -> option Json;
  write_json : Json -> option bytes;
}.

(** What the round trips need of the library: a document that it wrote is
    read back. *)
Class JsonCodecLaws (C : JsonCodec) := {
  read_write_json : forall j s, write_json j = Some s -> read_json s = Some j;
}.

(** A codec that knows one document under one text, for concrete inputs. *)
Definition sample_codec (text : bytes) (document : Json) : JsonCodec := {|
  read_json := fun s => if bool_decide (s = text) then Some document else None;
  write_json := fun _ => Some text;
|}.

(** ** Accessors: a field that is there with the wanted type *)

Definition string_at (object : JsonObject) (key : bytes) : option bytes :=
  match object !! key with Some (JString s) => Some s | _ => None end.

Definition bool_at (object : JsonObject) (key : bytes) : option bool :=
  match object !! key with Some (JBool b) => Some b | _ => None end.

Definition object_at (object : JsonObject) (key : bytes) : option JsonObject :=
  match object !! key with Some (JObject m) => Some m | _ => None end.

Definition array_at (object : JsonObject) (key : bytes) : option JsonArray :=
  match object !! key with Some (JArray l) => Some l | _ => None end.

Definition has_field (object : JsonObject) (key : bytes) : bool :=
  match object !! key with Some _ => true | None => false end.

(** [glz::read_json] of a text that has to be an object. *)
Definition read_object `{JsonCodec} (text : bytes) : option JsonObject :=
  match read_json text with Some (JObject m) => Some m | _ => None end.

Definition is_null (j : Json) : bool := match j with JNull => true | _ => false end.
Definition is_string (j : Json) : bool := match j with JString _ => true | _ => false end.
Definition is_boolean (j : Json) : bool := match j with JBool _ => true | _ => false end.
Definition is_array (j : Json) : bool := match j with JArray _ => true | _ => false end.
Definition is_object (j : Json) : bool := match j with JObject _ => true | _ => false end.

(** ** An object from its fields, in the order they are assigned *)
Definition make_object (fields : list (bytes * Json)) : JsonObject :=
  foldl (fun m kv => <[kv.1 := kv.2]> m) ∅ fields.

Lemma string_at_insert_eq m k s : string_at (<[k := JString s]> m) k = Some s.
Proof. unfold string_at. by rewrite lookup_insert_eq. Qed.

Lemma string_at_insert_ne m k k' j : k <> k' -> string_at (<[k' := j]> m) k = string_at m k.
Proof. intros. unfold string_at. by rewrite lookup_insert_ne. Qed.

Lemma string_at_delete_ne m k k' : k <> k' -> string_at (delete k' m) k = string_at m k.
Proof. intros. unfold string_at. by rewrite lookup_delete_ne. Qed.

Lemma string_at_some m k s : string_at m k = Some s <-> m !! k = Some (JString s).
Proof. unfold string_at. split; [|by intros ->]. destruct (m !! k) as [[]|]; congruence. Qed.

Lemma object_at_some m k o : object_at m k = Some o <-> m !! k = Some (JObject o).
Proof. unfold object_at. split; [|by intros ->]. destruct (m !! k) as [[]|]; congruence. Qed.

Lemma array_at_some m k l : array_at m k = Some l <-> m !! k = Some (JArray l).
Proof. unfold array_at. split; [|by intros ->]. destruct (m !! k) as [[]|]; congruence. Qed.

Lemma has_field_spec m k : has_field m k = true <-> is_Some (m !! k).
Proof.
  unfold has_field. destruct (m !! k) as [j|]; (split; [intros E|intros [x E]]); done.
Qed.

Lemma has_field_false m k : has_field m k = false <-> m !! k = None.
Proof. unfold has_field. destruct (m !! k); done. Qed.

(** A search for one key through the fields of an object, in a form that a
    recursion over the document can go through. *)
Definition field_rec {B} (f : Json -> B) (key : bytes) (m : JsonObject) : option B :=
  map_fold (fun k v acc => if decide (k = key) then Some (f v) else acc) None m.

Lemma field_rec_lookup {B} (f : Json -> B) key m : field_rec f key m = f <$> m !! key.
Proof.
  unfold field_rec.
  apply (map_fold_weak_ind (fun r o => r = f <$> o !! key)); [done|].
  intros k v o r Hk ->. rewrite lookup_insert. destruct (decide (k = key)) as [->|]; simplify_eq/=; by rewrite ?decide_True, ?decide_False.
Qed.
