(* ===== verification/Headers.v ===== *)
(** * Headers: what a request carries to the upstream

    src/native/proxy/openai/src/upstream_headers.cpp: the headers of the
    client are filtered, the proxy's own credentials are put in their place,
    and the beta token of the websocket protocol is merged in. *)

From S2P Require Import Prelude Text.
Import Text.Ascii.

(** ** [openai::HeaderMap]

    [std::unordered_map<std::string, std::string>]: pairs with distinct keys,
    listed in the order the map's iterator visits them. *)
Abbreviation HeaderMap := (list (bytes * bytes)).

Definition hm_find (key : bytes) (m : HeaderMap) : option bytes :=
  snd <$> List.find (fun kv => bool_decide (kv.1 = key)) m.

Definition hm_contains (key : bytes) (m : HeaderMap) : bool :=
  match hm_find key m with Some _ => true | None => false end.

(** [emplace]: a key that is there keeps its value. *)
Definition hm_emplace (key value : bytes) (m : HeaderMap) : HeaderMap :=
  if hm_contains key m then m else m ++ [(key, value)].

(** [m[key] = value] *)
Definition hm_assign (key value : bytes) (m : HeaderMap) : HeaderMap :=
  if hm_contains key m then (fun kv => if decide (kv.1 = key) then (key, value) else kv) <$> m
  else m ++ [(key, value)].

(** The well-formed header maps: no key twice. *)
Definition hm_wf (m : HeaderMap) : Prop := NoDup m.*1.

(** ** Filtering *)

Definition kIgnoredInboundHeaders : list bytes :=
  [$"authorization"; $"chatgpt-account-id"; $"content-encoding"; $"content-length"; $"host";
   $"forwarded"; $"x-real-ip"; $"true-client-ip"; $"x-forwarded-for"].

Definition kHopByHopHeaderNames : list bytes :=
  [$"accept"; $"connection"; $"content-type"; $"keep-alive"; $"proxy-authenticate";
   $"proxy-authorization"; $"proxy-connection"; $"te"; $"trailer"; $"transfer-encoding"; $"upgrade"].

Definition kResponsesWebsocketBetaToken : bytes := $"responses_websockets=2026-02-06".

Definition is_ignored_inbound_header (name_lower : bytes) : bool :=
  existsb (fun ignored => bool_decide (name_lower = ignored)) kIgnoredInboundHeaders.

Definition should_drop_inbound_header (name : bytes) : bool :=
  let lower := to_lower_ascii name in
  if is_ignored_inbound_header lower then true
  else starts_with lower $"x-forwarded-" || starts_with lower $"cf-" || starts_with lower $"x-tightrope-".

Definition filter_inbound_headers (headers : HeaderMap) : HeaderMap :=
  foldl (fun filtered kv => if should_drop_inbound_header kv.1 then filtered
                            else hm_emplace kv.1 kv.2 filtered) [] headers.

Definition erase_header_case_insensitive (headers : HeaderMap) (name_lower : bytes) : HeaderMap :=
  filter (fun kv => to_lower_ascii kv.1 <> name_lower) headers.

(** ** Comma-separated tokens

    The loop of [collect_connection_tokens] and [split_csv_tokens]: the
    pieces between commas. *)
Definition comma : Byte.byte := Byte.x2c.

Fixpoint csv_pieces (piece : bytes) (value : bytes) : list bytes :=
  match value with
  | [] => [piece]
  | ch :: rest => if bool_decide (ch = comma) then piece :: csv_pieces [] rest
                  else csv_pieces (piece ++ [ch]) rest
  end.

Definition split_csv_tokens (value : bytes) : list bytes :=
  filter (fun token => token <> []) (trim_ascii <$> csv_pieces [] value).

Definition collect_connection_tokens (inbound : HeaderMap) : gset bytes :=
  foldl (fun tokens kv =>
    if bool_decide (to_lower_ascii kv.1 = $"connection")
    then tokens ∪ list_to_set (to_lower_ascii <$> split_csv_tokens kv.2)
    else tokens) ∅ inbound.

Definition blocked_headers (inbound : HeaderMap) : gset bytes :=
  foldl (fun blocked hop => {[hop]} ∪ blocked) (collect_connection_tokens inbound) kHopByHopHeaderNames.

(** The copy loop the two builders start with. *)
Definition copy_forwardable (inbound : HeaderMap) : HeaderMap :=
  let blocked := blocked_headers inbound in
  foldl (fun headers kv =>
    let lower := to_lower_ascii kv.1 in
    if bool_decide (lower ∈ blocked) || should_drop_inbound_header kv.1 then headers
    else hm_emplace kv.1 kv.2 headers) [] inbound.

Definition set_request_id (headers : HeaderMap) (request_id : bytes) : HeaderMap :=
  if negb (has_key_case_insensitive headers $"x-request-id") &&
     negb (has_key_case_insensitive headers $"request-id") &&
     negb (bool_decide (request_id = []))
  then hm_assign $"x-request-id" request_id headers
  else headers.

Definition bearer (access_token : bytes) : bytes := $"Bearer " ++ access_token.

Definition set_account_id (headers : HeaderMap) (account_id : bytes) : HeaderMap :=
  if bool_decide (account_id = []) then headers else hm_assign $"chatgpt-account-id" account_id headers.

Definition build_upstream_headers (inbound : HeaderMap) (access_token account_id accept request_id : bytes) : HeaderMap :=
  let headers := copy_forwardable inbound in
  let headers := erase_header_case_insensitive headers $"authorization" in
  let headers := erase_header_case_insensitive headers $"chatgpt-account-id" in
  let headers := erase_header_case_insensitive headers $"cookie" in
  let headers := set_request_id headers request_id in
  let headers := hm_assign $"Authorization" (bearer access_token) headers in
  let headers := hm_assign $"Accept" accept headers in
  let headers := hm_assign $"Content-Type" $"application/json" headers in
  set_account_id headers account_id.

Definition build_upstream_transcribe_headers (inbound : HeaderMap) (access_token account_id : bytes) : HeaderMap :=
  let headers := hm_assign $"Authorization" (bearer access_token) [] in
  let headers := set_account_id headers account_id in
  foldl (fun headers kv =>
    let lower := to_lower_ascii kv.1 in
    if bool_decide (lower = $"user-agent") || starts_with lower $"x-openai-" || starts_with lower $"x-codex-"
    then hm_assign kv.1 kv.2 headers else headers) headers inbound.

(** The scan of [ensure_responses_websocket_beta_header]: the key and value
    found so far, and the headers that stay. *)
Fixpoint scan_beta (headers : HeaderMap) (header_key header_value : bytes) : bytes * bytes * HeaderMap :=
  match headers with
  | [] => (header_key, header_value, [])
  | kv :: rest =>
      if negb (bool_decide (to_lower_ascii kv.1 = $"openai-beta")) then
        let '(k, v, kept) := scan_beta rest header_key header_value in (k, v, kv :: kept)
      else if bool_decide (header_value = []) then
        let '(k, v, kept) := scan_beta rest kv.1 kv.2 in (k, v, kv :: kept)
      else scan_beta rest header_key header_value
  end.

(** The loop that joins the tokens. *)
Fixpoint join_tokens (tokens : list bytes) : bytes :=
  match tokens with
  | [] => []
  | [token] => token
  | token :: rest => token ++ $", " ++ join_tokens rest
  end.

Definition ensure_responses_websocket_beta_header (headers : HeaderMap) : HeaderMap :=
  let '(header_key, header_value, headers) := scan_beta headers $"openai-beta" [] in
  let beta_tokens := split_csv_tokens header_value in
  let has_required := existsb (fun token => equals_case_insensitive token kResponsesWebsocketBetaToken) beta_tokens in
  let beta_tokens := if has_required then beta_tokens else beta_tokens ++ [kResponsesWebsocketBetaToken] in
  hm_assign header_key (join_tokens beta_tokens) headers.

Definition build_upstream_websocket_headers (inbound : HeaderMap) (access_token account_id request_id : bytes) : HeaderMap :=
  let headers := copy_forwardable inbound in
  let headers := erase_header_case_insensitive headers $"cookie" in
  let headers := set_request_id headers request_id in
  let headers := hm_assign $"Authorization" (bearer access_token) headers in
  let headers := set_account_id headers account_id in
  ensure_responses_websocket_beta_header headers.

(** ** Header maps *)

Lemma hm_find_some key v m : hm_wf m -> hm_find key m = Some v <-> (key, v) ∈ m.
Proof.
  unfold hm_wf, hm_find. induction m as [|[k w] m IH]; simpl; intros Hn; [by rewrite elem_of_nil|].
  apply NoDup_cons in Hn as [Hk Hn]. rewrite elem_of_cons. case_bool_decide as E; simpl in *.
  - subst k. split; [intros; left; congruence|]. intros [?|Hin]; [congruence|].
    destruct Hk. apply list_elem_of_fmap. by exists (key, v).
  - rewrite IH by done. split; [by right|]. intros [?|?]; [congruence|done].
Qed.

Lemma hm_contains_spec key m : hm_contains key m = true <-> key ∈ m.*1.
Proof.
  unfold hm_contains, hm_find. induction m as [|[k w] m IH]; simpl; [by rewrite elem_of_nil|].
  rewrite elem_of_cons. case_bool_decide as E; simpl in *; [by subst; split; auto|].
  rewrite IH. split; [by right|]. intros [?|?]; [congruence|done].
Qed.

Lemma hm_contains_false key m : hm_contains key m = false <-> key ∉ m.*1.
Proof. rewrite <- not_true_iff_false. by rewrite hm_contains_spec. Qed.

Lemma hm_append_wf key v m : key ∉ m.*1 -> hm_wf m -> hm_wf (m ++ [(key, v)]).
Proof.
  unfold hm_wf. intros Hk Hm. rewrite fmap_app. apply NoDup_app. split; [done|].
  split; [intros x Hx Hx'; simpl in Hx'; apply list_elem_of_singleton in Hx'; congruence|].
  apply NoDup_singleton.
Qed.

Lemma hm_emplace_wf key v m : hm_wf m -> hm_wf (hm_emplace key v m).
Proof.
  intros Hm. unfold hm_emplace. destruct (hm_contains key m) eqn:E; [done|].
  apply hm_contains_false in E. by apply hm_append_wf.
Qed.

Lemma hm_assign_keys (key v : bytes) (m : HeaderMap) :
  (fun kv => if decide (kv.1 = key) then (key, v) else kv) <$> m =
  (fun kv => (kv.1, if decide (kv.1 = key) then v else kv.2)) <$> m.
Proof. apply list_fmap_ext. intros i [k w] _. simpl. case_decide; by subst. Qed.

Lemma hm_assign_wf key v m : hm_wf m -> hm_wf (hm_assign key v m).
Proof.
  intros Hm. unfold hm_assign. destruct (hm_contains key m) eqn:E.
  - rewrite hm_assign_keys. unfold hm_wf. rewrite <- list_fmap_compose. exact Hm.
  - apply hm_contains_false in E. by apply hm_append_wf.
Qed.

Lemma elem_of_hm_assign key v m k w :
  (k, w) ∈ hm_assign key v m <-> (k = key /\ w = v) \/ (k <> key /\ (k, w) ∈ m).
Proof.
  unfold hm_assign. destruct (hm_contains key m) eqn:E.
  - apply hm_contains_spec in E. rewrite list_elem_of_fmap. split.
    + intros ([k' w'] & Heq & Hin). simpl in Heq. case_decide; simplify_eq; [by left|by right].
    + intros [[-> ->]|[Hk Hin]].
      * apply list_elem_of_fmap in E as ([k' w'] & -> & Hin). exists (k', w'). simpl. by rewrite decide_True.
      * exists (k, w). simpl. by rewrite decide_False.
  - apply hm_contains_false in E. rewrite elem_of_app, list_elem_of_singleton. split.
    + intros [Hin|?]; [|left; by simplify_eq]. right. split; [|done]. intros ->. destruct E.
      apply list_elem_of_fmap. by exists (key, w).
    + intros [[-> ->]|[_ Hin]]; [by right|by left].
Qed.

Lemma elem_of_hm_emplace key v m kw :
  kw ∈ hm_emplace key v m -> kw = (key, v) \/ kw ∈ m.
Proof.
  unfold hm_emplace. destruct (hm_contains key m); [by right|].
  rewrite elem_of_app, list_elem_of_singleton. tauto.
Qed.

(** Copying the pairs that pass a test keeps the map well formed and adds
    nothing else. *)
Lemma hm_copy_spec (skip : bytes -> bool) inbound acc :
  hm_wf acc ->
  let r := foldl (fun m kv => if skip kv.1 then m else hm_emplace kv.1 kv.2 m) acc inbound in
  hm_wf r /\ forall k v, (k, v) ∈ r -> (k, v) ∈ acc \/ ((k, v) ∈ inbound /\ skip k = false).
Proof.
  revert acc. induction inbound as [|[k v] inbound IH]; intros acc Hacc r; subst r; simpl.
  - split; [done|]. by left.
  - destruct (skip k) eqn:Es.
    + destruct (IH acc Hacc) as [Hw Hi]. split; [done|]. intros k' v' Hin.
      destruct (Hi _ _ Hin) as [|[? ?]]; [by left|]. right. split; [by right|done].
    + destruct (IH (hm_emplace k v acc)) as [Hw Hi]; [by apply hm_emplace_wf|]. split; [done|].
      intros k' v' Hin. destruct (Hi _ _ Hin) as [Ha|[? ?]]; [|right; split; [by right|done]].
      apply elem_of_hm_emplace in Ha as [?|?]; [simplify_eq|by left]. right. split; [by left|done].
Qed.

Lemma hm_filter_wf (P : bytes * bytes -> Prop) `{!forall x, Decision (P x)} m : hm_wf m -> hm_wf (filter P m).
Proof.
  unfold hm_wf. intros Hm. apply (sublist_NoDup _ m.*1); [done|]. apply fmap_sublist, sublist_filter.
Qed.

(** ** What is blocked *)

Lemma foldl_insert_set (l : list bytes) (s : gset bytes) :
  foldl (fun blocked hop => {[hop]} ∪ blocked) s l = list_to_set l ∪ s.
Proof. revert s. induction l as [|x l IH]; intros s; simpl; [set_solver|]. rewrite IH. set_solver. Qed.

Lemma elem_of_blocked inbound name :
  name ∈ blocked_headers inbound <-> name ∈ kHopByHopHeaderNames \/ name ∈ collect_connection_tokens inbound.
Proof. unfold blocked_headers. rewrite foldl_insert_set, elem_of_union, elem_of_list_to_set. done. Qed.

Lemma elem_of_connection_tokens inbound name :
  name ∈ collect_connection_tokens inbound <->
  exists k v token, (k, v) ∈ inbound /\ to_lower_ascii k = $"connection" /\
    token ∈ split_csv_tokens v /\ name = to_lower_ascii token.
Proof.
  unfold collect_connection_tokens.
  assert (forall acc : gset bytes, name ∈ foldl (fun (tokens : gset bytes) (kv : bytes * bytes) =>
      if bool_decide (to_lower_ascii kv.1 = $"connection")
      then tokens ∪ list_to_set (to_lower_ascii <$> split_csv_tokens kv.2) else tokens) acc inbound <->
    name ∈ acc \/ exists k v (token : bytes), (k, v) ∈ inbound /\ to_lower_ascii k = $"connection" /\
      token ∈ split_csv_tokens v /\ name = to_lower_ascii token) as Hg.
  { induction inbound as [|[k v] inbound IH]; intros acc; simpl.
    - split; [by left|]. intros [?|(k & v & t & Hin & _)]; [done|]. by apply elem_of_nil in Hin.
    - rewrite IH. case_bool_decide as E.
      + rewrite elem_of_union, elem_of_list_to_set, list_elem_of_fmap. split.
        * intros [[?|(t & -> & Ht)]|(k' & v' & t & Hin & ?)]; [by left|right|right].
          -- exists k, v, t. split; [by left|done].
          -- exists k', v', t. split; [by right|done].
        * intros [?|(k' & v' & t & Hin & Hk & Ht & ->)]; [by left; left|].
          apply elem_of_cons in Hin as [?|Hin]; [simplify_eq; left; right; eauto|right; eauto 8].
      + split; intros [?|(k' & v' & t & Hin & Hk & Ht)]; try (by left); right; exists k', v', t.
        * split; [by right|done].
        * apply elem_of_cons in Hin as [?|Hin]; [by simplify_eq|done]. }
  rewrite Hg. split; [intros [H|?]; [by apply elem_of_empty in H|done]|by right].
Qed.

(** A header of the client that a request may carry on. *)
Definition forwardable (inbound : HeaderMap) (name : bytes) : Prop :=
  to_lower_ascii name ∉ kHopByHopHeaderNames /\
  to_lower_ascii name ∉ collect_connection_tokens inbound /\
  should_drop_inbound_header name = false.

Lemma copy_forwardable_spec inbound :
  hm_wf (copy_forwardable inbound) /\
  forall k v, (k, v) ∈ copy_forwardable inbound -> (k, v) ∈ inbound /\ forwardable inbound k.
Proof.
  destruct (hm_copy_spec (fun k => bool_decide (to_lower_ascii k ∈ blocked_headers inbound) ||
    should_drop_inbound_header k) inbound []) as [Hw Hi]; [by constructor|].
  split; [done|]. intros k v Hin. destruct (Hi k v Hin) as [Hn|[Hin' Hs]]; [by apply elem_of_nil in Hn|].
  split; [done|]. apply orb_false_iff in Hs as [Hb Hd]. apply bool_decide_eq_false in Hb.
  rewrite elem_of_blocked in Hb. unfold forwardable. tauto.
Qed.

Lemma elem_of_erase headers name k v :
  (k, v) ∈ erase_header_case_insensitive headers name <-> to_lower_ascii k <> name /\ (k, v) ∈ headers.
Proof. unfold erase_header_case_insensitive. by rewrite list_elem_of_filter. Qed.

Lemma erase_wf headers name : hm_wf headers -> hm_wf (erase_header_case_insensitive headers name).
Proof. apply hm_filter_wf. Qed.

Lemma set_request_id_wf headers r : hm_wf headers -> hm_wf (set_request_id headers r).
Proof. intros. unfold set_request_id. case_match; [by apply hm_assign_wf|done]. Qed.

Lemma elem_of_set_request_id headers r k v :
  (k, v) ∈ set_request_id headers r -> (k = $"x-request-id" /\ v = r) \/ (k, v) ∈ headers.
Proof. unfold set_request_id. case_match; [rewrite elem_of_hm_assign; tauto|by right]. Qed.

Lemma set_account_id_wf headers a : hm_wf headers -> hm_wf (set_account_id headers a).
Proof. intros. unfold set_account_id. case_match; [done|by apply hm_assign_wf]. Qed.

Lemma elem_of_set_account_id headers a k v :
  (k, v) ∈ set_account_id headers a -> (a <> [] /\ k = $"chatgpt-account-id" /\ v = a) \/ (k, v) ∈ headers.
Proof.
  unfold set_account_id. case_match eqn:E; [by right|]. apply bool_decide_eq_false in E.
  rewrite elem_of_hm_assign. tauto.
Qed.

(** The client names a proxied request may not carry past the proxy are the
    ones its own credentials stand under. *)
Lemma forwardable_not_credential inbound k :
  forwardable inbound k ->
  to_lower_ascii k <> $"authorization" /\ to_lower_ascii k <> $"chatgpt-account-id".
Proof.
  intros (_ & _ & Hd). unfold should_drop_inbound_header in Hd. split; intros E; by rewrite E in Hd.
Qed.

Lemma forwardable_not_hop inbound k name :
  forwardable inbound k -> name ∈ kHopByHopHeaderNames -> to_lower_ascii k <> name.
Proof. intros (Hh & _) Hn E. by subst. Qed.

(** Where a header of a request comes from. *)
Definition upstream_header_origin (inbound : HeaderMap) (access_token account_id accept request_id k v : bytes) : Prop :=
  (k = $"Authorization" /\ v = bearer access_token) \/
  (k = $"Accept" /\ v = accept) \/
  (k = $"Content-Type" /\ v = $"application/json") \/
  (k = $"chatgpt-account-id" /\ v = account_id /\ account_id <> []) \/
  (k = $"x-request-id" /\ v = request_id) \/
  ((k, v) ∈ inbound /\ forwardable inbound k /\ to_lower_ascii k <> $"cookie").

(** The copied headers with the request identifier. *)
Lemma upstream_base_spec inbound request_id (erased : list bytes) :
  $"cookie" ∈ erased ->
  let base := set_request_id (foldl erase_header_case_insensitive (copy_forwardable inbound) erased) request_id in
  hm_wf base /\
  forall k v, (k, v) ∈ base -> (k = $"x-request-id" /\ v = request_id) \/
    ((k, v) ∈ inbound /\ forwardable inbound k /\ to_lower_ascii k <> $"cookie").
Proof.
  intros Hc. destruct (copy_forwardable_spec inbound) as [Hw Hi].
  assert (forall acc, hm_wf acc -> hm_wf (foldl erase_header_case_insensitive acc erased) /\
    forall k v, (k, v) ∈ foldl erase_header_case_insensitive acc erased ->
      (k, v) ∈ acc /\ to_lower_ascii k ∉ erased) as He.
  { clear. induction erased as [|name erased IH]; intros acc Hw; simpl.
    - split; [done|]. intros k v Hin. split; [done|apply not_elem_of_nil].
    - destruct (IH (erase_header_case_insensitive acc name)) as [Hw' Hi']; [by apply erase_wf|].
      split; [done|]. intros k v Hin. apply Hi' in Hin as [Hin Hn]. apply elem_of_erase in Hin as [Hne Hin].
      split; [done|]. by apply not_elem_of_cons. }
  destruct (He _ Hw) as [Hw' Hi']. split; [by apply set_request_id_wf|].
  intros k v Hin. apply elem_of_set_request_id in Hin as [?|Hin]; [by left|right].
  apply Hi' in Hin as [Hin Hn]. apply Hi in Hin as [? ?]. split_and!; [done..|]. intros E. by rewrite E in Hn.
Qed.

Lemma upstream_headers_origin inbound access_token account_id accept request_id k v :
  (k, v) ∈ build_upstream_headers inbound access_token account_id accept request_id ->
  upstream_header_origin inbound access_token account_id accept request_id k v.
Proof.
  destruct (upstream_base_spec inbound request_id [$"authorization"; $"chatgpt-account-id"; $"cookie"]) as [_ Hb].
  { set_solver. }
  unfold build_upstream_headers, upstream_header_origin. cbv zeta. intros Hin.
  apply elem_of_set_account_id in Hin as [?|Hin]; [tauto|].
  rewrite !elem_of_hm_assign in Hin. destruct Hin as [?|[_ [?|[_ [?|[_ Hin]]]]]]; [tauto..|].
  apply Hb in Hin. tauto.
Qed.

Lemma upstream_header_credentials inbound access_token account_id accept request_id k v :
  upstream_header_origin inbound access_token account_id accept request_id k v ->
  (to_lower_ascii k = $"authorization" -> v = bearer access_token) /\
  (to_lower_ascii k = $"chatgpt-account-id" -> v = account_id).
Proof.
  intros [[-> ?]|[[-> ?]|[[-> ?]|[[-> [? ?]]|[[-> ?]|(? & Hf & ?)]]]]]; split; intros Hk; try done.
  - by apply forwardable_not_credential in Hf as [? _].
  - by apply forwardable_not_credential in Hf as [_ ?].
Qed.

(** No header of the client that carries credentials, describes the hop, was
    listed in [Connection] or belongs to the proxy reaches the upstream: every
    header of the request is one the proxy set, with the proxy's value, or a
    forwardable header of the client other than its cookies, and no name
    occurs twice. In particular the only [Authorization] is the proxy's. *)
Theorem upstream_headers_safe inbound access_token account_id accept request_id :
  let headers := build_upstream_headers inbound access_token account_id accept request_id in
  hm_wf headers /\
  (forall k v, (k, v) ∈ headers ->
    upstream_header_origin inbound access_token account_id accept request_id k v /\
    (to_lower_ascii k = $"authorization" -> v = bearer access_token) /\
    (to_lower_ascii k = $"chatgpt-account-id" -> v = account_id)) /\
  ($"Authorization", bearer access_token) ∈ headers.
Proof.
  split; [|split].
  - destruct (upstream_base_spec inbound request_id [$"authorization"; $"chatgpt-account-id"; $"cookie"]) as [Hw _].
    { set_solver. }
    unfold build_upstream_headers. cbv zeta. by apply set_account_id_wf, hm_assign_wf, hm_assign_wf, hm_assign_wf.
  - intros k v Hin. apply upstream_headers_origin in Hin. split; [done|].
    by eapply upstream_header_credentials.
  - assert (forall m, ($"Authorization", bearer access_token) ∈ m ->
      ($"Authorization", bearer access_token) ∈ set_account_id m account_id) as Hs.
    { intros m Hm. unfold set_account_id. case_match; [done|]. rewrite elem_of_hm_assign. by right. }
    apply Hs. rewrite !elem_of_hm_assign. right. split; [done|]. right. split; [done|]. by left.
Qed.

(** ** Comma-separated tokens: join and split *)

(** A token that survives the comma-separated form. *)
Definition clean_token (token : bytes) : Prop :=
  token <> [] /\ trim_ascii token = token /\ comma ∉ token.

Lemma csv_pieces_head p q s :
  csv_pieces (p ++ q) s = match csv_pieces q s with h :: t => (p ++ h) :: t | [] => [] end.
Proof.
  revert q. induction s as [|ch s IH]; intros q; simpl; [done|].
  case_bool_decide; [done|]. by rewrite <- app_assoc, IH.
Qed.

Lemma csv_pieces_free p s : comma ∉ s -> csv_pieces p s = [p ++ s].
Proof.
  revert p. induction s as [|ch s IH]; intros p Hs; simpl; [by rewrite app_nil_r|].
  apply not_elem_of_cons in Hs as [Hc Hs]. rewrite bool_decide_false by done.
  rewrite IH by done. by rewrite <- app_assoc.
Qed.

Lemma csv_pieces_comma p s rest :
  comma ∉ s -> csv_pieces p (s ++ comma :: rest) = (p ++ s) :: csv_pieces [] rest.
Proof.
  revert p. induction s as [|ch s IH]; intros p Hs; simpl.
  - by rewrite app_nil_r.
  - apply not_elem_of_cons in Hs as [Hc Hs]. rewrite bool_decide_false by done.
    rewrite IH by done. by rewrite <- app_assoc.
Qed.

Lemma csv_pieces_no_comma p s : comma ∉ p -> Forall (fun piece => comma ∉ piece) (csv_pieces p s).
Proof.
  revert p. induction s as [|ch s IH]; intros p Hp; simpl; [by constructor|].
  case_bool_decide as E; [constructor; [done|]; apply IH; by apply not_elem_of_nil|].
  apply IH. rewrite not_elem_of_app, list_elem_of_singleton. by split; [|congruence].
Qed.

Lemma trim_space s : trim_ascii (Byte.x20 :: s) = trim_ascii s.
Proof. done. Qed.

Lemma split_space s : split_csv_tokens (Byte.x20 :: s) = split_csv_tokens s.
Proof.
  unfold split_csv_tokens. cbn [csv_pieces]. rewrite bool_decide_false by done. simpl app.
  pose proof (csv_pieces_head [Byte.x20] [] s) as E. simpl app in E. rewrite E.
  destruct (csv_pieces [] s) as [|h t]; [done|]. by rewrite !fmap_cons, trim_space.
Qed.

Lemma split_join tokens : Forall clean_token tokens -> split_csv_tokens (join_tokens tokens) = tokens.
Proof.
  induction 1 as [|token tokens (Hn & Ht & Hc) Hts IH]; [done|].
  destruct tokens as [|token' tokens]; cbn [join_tokens] in *.
  - unfold split_csv_tokens. rewrite csv_pieces_free by done. rewrite app_nil_l, fmap_cons, Ht.
    by rewrite filter_cons_True.
  - change ($", " ++ ?x) with (comma :: Byte.x20 :: x).
    unfold split_csv_tokens at 1. rewrite csv_pieces_comma by done.
    rewrite app_nil_l, fmap_cons, Ht, filter_cons_True by done. f_equal.
    etransitivity; [apply split_space|exact IH].
Qed.

Lemma trim_sub x s : x ∈ trim_ascii s -> x ∈ s.
Proof.
  destruct (trim_ascii_split s) as (pre & post & E & _). intros H. rewrite E, !elem_of_app. tauto.
Qed.

Lemma split_clean v : Forall clean_token (split_csv_tokens v).
Proof.
  apply Forall_forall. intros token Hin. unfold split_csv_tokens in Hin.
  apply list_elem_of_filter in Hin as [Hn Hin]. apply list_elem_of_fmap in Hin as (piece & -> & Hin).
  split; [done|]. split; [apply trim_ascii_idem|].
  intros Hc. apply trim_sub in Hc.
  assert (Forall (fun p => comma ∉ p) (csv_pieces [] v)) as Hf.
  { apply csv_pieces_no_comma, not_elem_of_nil. }
  rewrite Forall_forall in Hf. by eapply Hf.
Qed.

(** ** The beta header *)

(** The value the client gave under the beta header's name: the first one
    that is not empty. *)
Definition beta_value (headers : HeaderMap) : bytes :=
  default [] (snd <$> List.find (fun kv => bool_decide (to_lower_ascii kv.1 = $"openai-beta") &&
                                          negb (bool_decide (kv.2 = []))) headers).

Lemma scan_beta_spec headers key value :
  to_lower_ascii key = $"openai-beta" ->
  to_lower_ascii (scan_beta headers key value).1.1 = $"openai-beta" /\
  (scan_beta headers key value).1.2 = (if decide (value = []) then beta_value headers else value) /\
  (scan_beta headers key value).2 `sublist_of` headers.
Proof.
  revert key value. induction headers as [|[k v] headers IH]; intros key value Hk; simpl.
  - split; [done|]. split; [|done]. unfold beta_value. simpl. by case_decide.
  - unfold beta_value; simpl. destruct (decide (to_lower_ascii k = $"openai-beta")) as [E|E].
    + rewrite (bool_decide_true _ E). simpl. destruct (decide (value = [])) as [->|Hv].
      * rewrite bool_decide_true by done. destruct (IH k v E) as (H1 & H2 & H3).
        destruct (scan_beta headers k v) as [[k' v'] kept]. simpl in *. split; [done|].
        split; [|by apply sublist_skip]. rewrite H2. destruct (decide (v = [])) as [->|Hv].
        -- by rewrite bool_decide_true.
        -- by rewrite bool_decide_false.
      * rewrite bool_decide_false by done. destruct (IH key value Hk) as (H1 & H2 & H3).
        rewrite decide_False in H2 by done. split; [done|]. split; [done|]. by apply sublist_cons.
    + rewrite (bool_decide_false _ E). simpl. destruct (IH key value Hk) as (H1 & H2 & H3).
      destruct (scan_beta headers key value) as [[k' v'] kept]. simpl in *. split; [done|].
      split; [done|]. by apply sublist_skip.
Qed.

Lemma beta_token_clean : clean_token kResponsesWebsocketBetaToken.
Proof.
  split; [done|]. split; [by vm_compute|]. intros H.
  assert (forallb (fun c => negb (bool_decide (c = comma))) kResponsesWebsocketBetaToken = true) as Hf by done.
  rewrite forallb_forall in Hf. apply list_elem_of_In, Hf in H. by rewrite bool_decide_true in H.
Qed.

Lemma ensure_beta_wf headers : hm_wf headers -> hm_wf (ensure_responses_websocket_beta_header headers).
Proof.
  intros Hw. unfold ensure_responses_websocket_beta_header.
  destruct (scan_beta_spec headers $"openai-beta" [] ltac:(done)) as (_ & _ & Hs).
  destruct (scan_beta headers $"openai-beta" []) as [[k v] kept]. simpl in Hs.
  apply hm_assign_wf. unfold hm_wf in *. eapply sublist_NoDup; [done|]. by apply fmap_sublist.
Qed.

Definition is_beta_token (token : bytes) : Prop :=
  to_lower_ascii token = to_lower_ascii kResponsesWebsocketBetaToken.

Lemma is_beta_token_spec token :
  equals_case_insensitive token kResponsesWebsocketBetaToken = true <-> is_beta_token token.
Proof. apply equals_case_insensitive_spec. Qed.

(** The websocket protocol is always negotiated: after the beta header is
    merged there is one header under its name whose comma-separated tokens are
    the client's, in order, with the protocol's token among them; the token is
    appended only when the client did not send it, in whatever case. *)
Theorem beta_token_negotiated headers :
  exists k v,
    (k, v) ∈ ensure_responses_websocket_beta_header headers /\
    to_lower_ascii k = $"openai-beta" /\
    let tokens := split_csv_tokens (beta_value headers) in
    (Exists is_beta_token tokens /\ split_csv_tokens v = tokens \/
     Forall (fun token => ~ is_beta_token token) tokens /\
     split_csv_tokens v = tokens ++ [kResponsesWebsocketBetaToken]).
Proof.
  unfold ensure_responses_websocket_beta_header.
  destruct (scan_beta_spec headers $"openai-beta" [] ltac:(done)) as (Hk & Hv & _).
  destruct (scan_beta headers $"openai-beta" []) as [[k v] kept]. simpl in *. subst v.
  set (tokens := split_csv_tokens (beta_value headers)).
  pose proof (split_clean (beta_value headers)) as Hc. fold tokens in Hc.
  destruct (existsb _ tokens) eqn:E; exists k; eexists; (split; [apply elem_of_hm_assign; by left|]);
    (split; [done|]); [left|right].
  - split; [|by apply split_join]. apply existsb_exists in E as (token & Hin & Ht).
    apply Exists_exists. exists token. split; [by apply list_elem_of_In|]. by apply is_beta_token_spec.
  - split.
    + apply Forall_forall. intros token Hin Ht. apply not_true_iff_false in E. apply E.
      apply existsb_exists. exists token. split; [by apply list_elem_of_In|]. by apply is_beta_token_spec.
    + apply split_join. apply Forall_app. split; [done|]. constructor; [apply beta_token_clean|done].
Qed.

(** A websocket request keeps the same promise about the client's headers. *)
Lemma elem_of_ensure_beta headers k v :
  (k, v) ∈ ensure_responses_websocket_beta_header headers ->
  to_lower_ascii k = $"openai-beta" \/ (k, v) ∈ headers.
Proof.
  unfold ensure_responses_websocket_beta_header.
  destruct (scan_beta_spec headers $"openai-beta" [] ltac:(done)) as (Hk & _ & Hs).
  destruct (scan_beta headers $"openai-beta" []) as [[k' v'] kept]. simpl in *.
  rewrite elem_of_hm_assign. intros [[-> _]|[_ Hin]]; [by left|right].
  by eapply elem_of_sublist.
Qed.

Theorem websocket_headers_safe inbound access_token account_id request_id k v :
  (k, v) ∈ build_upstream_websocket_headers inbound access_token account_id request_id ->
  (k = $"Authorization" /\ v = bearer access_token) \/
  (k = $"chatgpt-account-id" /\ v = account_id /\ account_id <> []) \/
  (k = $"x-request-id" /\ v = request_id) \/
  to_lower_ascii k = $"openai-beta" \/
  ((k, v) ∈ inbound /\ forwardable inbound k /\ to_lower_ascii k <> $"cookie").
Proof.
  destruct (copy_forwardable_spec inbound) as [_ Hi]. unfold build_upstream_websocket_headers. cbv zeta.
  intros Hin. apply elem_of_ensure_beta in Hin as [?|Hin]; [tauto|].
  apply elem_of_set_account_id in Hin as [?|Hin]; [tauto|].
  apply elem_of_hm_assign in Hin as [?|[_ Hin]]; [tauto|].
  apply elem_of_set_request_id in Hin as [?|Hin]; [tauto|].
  apply elem_of_erase in Hin as [Hc Hin]. apply Hi in Hin. tauto.
Qed.

(** A request for a transcription carries only the proxy's credentials and
    the client's user agent and [x-openai-], [x-codex-] headers. *)
Theorem transcribe_headers_safe inbound access_token account_id k v :
  (k, v) ∈ build_upstream_transcribe_headers inbound access_token account_id ->
  (k = $"Authorization" /\ v = bearer access_token) \/
  (k = $"chatgpt-account-id" /\ v = account_id) \/
  ((k, v) ∈ inbound /\
   (to_lower_ascii k = $"user-agent" \/ starts_with (to_lower_ascii k) $"x-openai-" = true \/
    starts_with (to_lower_ascii k) $"x-codex-" = true)).
Proof.
  unfold build_upstream_transcribe_headers. cbv zeta.
  set (base := set_account_id _ _).
  assert (forall k v, (k, v) ∈ base -> (k = $"Authorization" /\ v = bearer access_token) \/
    (k = $"chatgpt-account-id" /\ v = account_id)) as Hb.
  { intros k' v' Hin. apply elem_of_set_account_id in Hin as [?|Hin]; [tauto|].
    apply elem_of_hm_assign in Hin as [?|[_ Hin]]; [tauto|]. by apply elem_of_nil in Hin. }
  clearbody base.
  assert (forall acc, (k, v) ∈ foldl (fun headers (kv : bytes * bytes) =>
      if bool_decide (to_lower_ascii kv.1 = $"user-agent") || starts_with (to_lower_ascii kv.1) $"x-openai-" ||
         starts_with (to_lower_ascii kv.1) $"x-codex-"
      then hm_assign kv.1 kv.2 headers else headers) acc inbound ->
    (k, v) ∈ acc \/ ((k, v) ∈ inbound /\
      (to_lower_ascii k = $"user-agent" \/ starts_with (to_lower_ascii k) $"x-openai-" = true \/
       starts_with (to_lower_ascii k) $"x-codex-" = true))) as Hf.
  { induction inbound as [|[k' v'] inbound IH]; intros acc; cbn [foldl fst snd]; [by left|].
    intros Hin. apply IH in Hin as [Hin|[Hin Hk]]; [|right; split; [by right|done]].
    destruct (_ || _) eqn:E; [|by left]. apply elem_of_hm_assign in Hin as [[-> ->]|[_ Hin]]; [|by left].
    right. split; [by left|]. rewrite !orb_true_iff, bool_decide_eq_true in E. tauto. }
  intros Hin. apply Hf in Hin as [Hin|?]; [apply Hb in Hin; tauto|tauto].
Qed.
