(* ===== verification/ModelRegistry.v ===== *)
(** * ModelRegistry: the models the upstream offers, and the transport chosen

    src/native/proxy/openai/src/model_registry.cpp and
    src/native/proxy/openai/src/stream_transport.cpp. The HTTP transfer of the
    model list is curl's and a parameter here. *)

From S2P Require Import Prelude Codec Text JsonValue Headers Env.
Import Text.Ascii.

Record ModelInfo := mkModelInfo {
  id : bytes;
  supports_streaming : bool;
  supported_in_api : bool;
  prefer_websockets : bool;
}.

#[global] Instance ModelInfo_inhabited : Inhabited ModelInfo := populate (mkModelInfo [] true true false).

(** ** The registry *)

Record ModelRegistry := mkModelRegistry {
  models_ : list ModelInfo;
  model_index_ : gmap bytes nat;
}.

Definition kDefaultUpstreamBaseUrl : bytes := $"https://chatgpt.com/backend-api".

Definition normalize_slug (slug : bytes) : bytes := to_lower_ascii (trim_ascii slug).

Definition is_bootstrap_websocket_preferred (slug_normalized : bytes) : bool :=
  bool_decide (slug_normalized = $"gpt-5.4") || starts_with slug_normalized $"gpt-5.4-".

(** [emplace] of the index: a name that is there keeps its position. *)
Definition index_emplace (name : bytes) (index : nat) (idx : gmap bytes nat) : gmap bytes nat :=
  match idx !! name with Some _ => idx | None => <[name := index]> idx end.

Definition index_model (idx : gmap bytes nat) (index : nat) (model : ModelInfo) : gmap bytes nat :=
  let idx := index_emplace (id model) index idx in
  let normalized := normalize_slug (id model) in
  if negb (bool_decide (normalized = [])) then index_emplace normalized index idx else idx.

(** The loop of the constructor, from position [index]. *)
Fixpoint build_index (idx : gmap bytes nat) (index : nat) (models : list ModelInfo) : gmap bytes nat :=
  match models with
  | [] => idx
  | model :: rest => build_index (index_model idx index model) (S index) rest
  end.

Definition make_registry (models : list ModelInfo) : ModelRegistry :=
  mkModelRegistry models (build_index ∅ 0 models).

(** [find_model]: [Some None] would be an access past the end of [models_]. *)
Definition find_index (r : ModelRegistry) (name : bytes) : option nat :=
  match model_index_ r !! name with
  | Some index => Some index
  | None =>
      let normalized := normalize_slug name in
      if bool_decide (normalized = []) then None else model_index_ r !! normalized
  end.

Definition find_model (r : ModelRegistry) (name : bytes) : option (option ModelInfo) :=
  (fun index => models_ r !! index) <$> find_index r name.

Definition has_model (r : ModelRegistry) (name : bytes) : bool :=
  match model_index_ r !! name with
  | Some _ => true
  | None =>
      let normalized := normalize_slug name in
      if bool_decide (normalized = []) then false
      else match model_index_ r !! normalized with Some _ => true | None => false end
  end.

Definition prefers_websockets (r : ModelRegistry) (name : bytes) : bool :=
  let normalized := normalize_slug name in
  if bool_decide (normalized = []) then false
  else match find_model r name with
       | Some (Some model) => prefer_websockets model
       | _ => is_bootstrap_websocket_preferred normalized
       end.

Definition list_models (r : ModelRegistry) : list ModelInfo := models_ r.

Definition build_default_model_registry : ModelRegistry := make_registry [].

(** ** The model list of the upstream *)

Definition env_or_default (env : environment) (key fallback : bytes) : bytes :=
  default fallback (getenv_nonempty env key).

(** The loop over the trailing slashes. *)
Definition trim_trailing_slashes (value : bytes) : bytes :=
  reverse ((fix strip (s : bytes) : bytes :=
    match s with ch :: rest => if bool_decide (ch = Byte.x2f) then strip rest else s | [] => [] end) (reverse value)).

Definition models_url (env : environment) : bytes :=
  trim_trailing_slashes (env_or_default env $"TIGHTROPE_UPSTREAM_BASE_URL" kDefaultUpstreamBaseUrl) ++
  $"/codex/models?client_version=" ++ env_or_default env $"TIGHTROPE_CODEX_CLIENT_VERSION" $"1.0.0".

Definition find_header_case_insensitive (headers : HeaderMap) (key : bytes) : option bytes :=
  snd <$> List.find (fun kv => equals_case_insensitive kv.1 key) headers.

(** [perform url headers]: the transfer; [None] is an error of curl,
    otherwise the status and the body. *)
Definition fetch_models_payload (perform : bytes -> list bytes -> option (Z * bytes)) (env : environment)
    (inbound_headers : HeaderMap) : option bytes :=
  match find_header_case_insensitive inbound_headers $"authorization" with
  | None | Some [] => None
  | Some authorization =>
      let normalized_auth := to_lower_ascii (trim_ascii authorization) in
      if starts_with normalized_auth $"bearer sk-" then None
      else
        let optional name :=
          match find_header_case_insensitive inbound_headers name with
          | Some ((_ :: _) as value) => [name ++ $": " ++ value]
          | _ => []
          end in
        let headers :=
          [$"Accept: application/json"; $"Authorization: " ++ authorization] ++
          optional $"chatgpt-account-id" ++ optional $"x-request-id" in
        match perform (models_url env) headers with
        | None => None
        | Some (status_code, response_body) =>
            if (status_code <? 200) || (300 <=? status_code) then None else Some response_body
        end
  end.

Definition json_bool (object : JsonObject) (key : bytes) (default_value : bool) : bool :=
  default default_value (bool_at object key).

Definition nonempty_string_at (object : JsonObject) (key : bytes) : option bytes :=
  match string_at object key with Some ((_ :: _) as s) => Some s | _ => None end.

(** One pass of the loop over the list: [models] and [seen_ids]. *)
Definition parse_model (acc : list ModelInfo * gset bytes) (raw_model : Json) : list ModelInfo * gset bytes :=
  let '(models, seen_ids) := acc in
  match raw_model with
  | JObject model_object =>
      let id := match nonempty_string_at model_object $"slug" with
                | Some s => Some s
                | None => nonempty_string_at model_object $"id"
                end in
      match id with
      | None => acc
      | Some id =>
          let normalized := normalize_slug id in
          if bool_decide (normalized = []) || bool_decide (normalized ∈ seen_ids) then acc
          else (models ++ [mkModelInfo id true (json_bool model_object $"supported_in_api" true)
                             (json_bool model_object $"prefer_websockets" false)],
                {[normalized]} ∪ seen_ids)
      end
  | _ => acc
  end.

Definition parse_models_payload `{JsonCodec} (payload : bytes) : list ModelInfo :=
  match read_object payload with
  | None => []
  | Some object =>
      match array_at object $"models" with
      | None => []
      | Some raw => (foldl parse_model ([], ∅) raw).1
      end
  end.

Definition build_model_registry_from_upstream `{JsonCodec} (perform : bytes -> list bytes -> option (Z * bytes))
    (env : environment) (inbound_headers : HeaderMap) : ModelRegistry :=
  match fetch_models_payload perform env inbound_headers with
  | None => build_default_model_registry
  | Some payload => make_registry (parse_models_payload payload)
  end.

(** ** openai/src/stream_transport.cpp *)

Definition kNativeCodexOriginators : list bytes :=
  [$"Codex Desktop"; $"codex_atlas"; $"codex_chatgpt_desktop"; $"codex_cli_rs"; $"codex_exec"; $"codex_vscode"].

Definition kNativeCodexStreamHeaderKeys : list bytes :=
  [$"x-codex-turn-state"; $"x-codex-turn-metadata"; $"x-codex-beta-features"].

Definition configured_stream_transport (transport transport_override : bytes) : bytes :=
  if bool_decide (transport_override = []) then transport else transport_override.

Definition is_native_codex_originator (originator : bytes) : bool :=
  let stripped := trim_ascii originator in
  if bool_decide (stripped = []) then false
  else existsb (fun candidate => bool_decide (stripped = candidate)) kNativeCodexOriginators.

Definition lower_headers (headers : HeaderMap) : HeaderMap :=
  foldl (fun normalized kv => hm_emplace (to_lower_ascii kv.1) kv.2 normalized) [] headers.

Definition has_native_codex_transport_headers (headers : HeaderMap) : bool :=
  let normalized := lower_headers headers in
  if match hm_find $"originator" normalized with
     | Some originator => is_native_codex_originator originator
     | None => false
     end
  then true
  else existsb (fun key => hm_contains key normalized) kNativeCodexStreamHeaderKeys.

Definition resolve_stream_transport (transport transport_override model : bytes) (headers : HeaderMap)
    (registry : ModelRegistry) : bytes :=
  let configured := configured_stream_transport transport transport_override in
  if bool_decide (configured = $"websocket") then $"websocket"
  else if bool_decide (configured = $"http") then $"http"
  else if has_native_codex_transport_headers headers then $"websocket"
  else if prefers_websockets registry model then $"websocket"
  else $"http".

(** ** The index is typed: every name points into the list, at a model that
    carries the name *)

Definition names_model (name : bytes) (model : ModelInfo) : Prop :=
  name = id model \/ (name = normalize_slug (id model) /\ name <> []).

Definition index_wf (models : list ModelInfo) (idx : gmap bytes nat) : Prop :=
  map_Forall (fun name index => exists model, models !! index = Some model /\ names_model name model) idx.

Lemma index_emplace_wf models name index model idx :
  models !! index = Some model -> names_model name model ->
  index_wf models idx -> index_wf models (index_emplace name index idx).
Proof.
  intros Hm Hn Hw. unfold index_emplace. destruct (idx !! name) eqn:E; [done|].
  apply map_Forall_insert_2; [|done]. by exists model.
Qed.

Lemma index_model_wf models idx index model :
  models !! index = Some model -> index_wf models idx -> index_wf models (index_model idx index model).
Proof.
  intros Hm Hw. unfold index_model. case_match eqn:E; bool_hyps.
  - eapply index_emplace_wf; [done|by right|]. eapply index_emplace_wf; [done|by left|done].
  - eapply index_emplace_wf; [done|by left|done].
Qed.

Lemma index_emplace_keeps name index idx k i :
  idx !! k = Some i -> index_emplace name index idx !! k = Some i.
Proof.
  intros Hk. unfold index_emplace. destruct (idx !! name) eqn:E; [done|].
  rewrite lookup_insert_ne; [done|congruence].
Qed.

Lemma index_emplace_there name index idx : is_Some (index_emplace name index idx !! name).
Proof.
  unfold index_emplace. destruct (idx !! name) eqn:E; [by rewrite E|].
  rewrite lookup_insert_eq. by eexists.
Qed.

Lemma index_model_keeps idx index model k i :
  idx !! k = Some i -> index_model idx index model !! k = Some i.
Proof.
  intros Hk. unfold index_model. case_match; repeat apply index_emplace_keeps; done.
Qed.

Lemma build_index_keeps models idx index k i :
  idx !! k = Some i -> build_index idx index models !! k = Some i.
Proof.
  revert idx index. induction models as [|model models IH]; intros idx index Hk; [done|].
  simpl. by apply IH, index_model_keeps.
Qed.

Lemma build_index_wf all models idx index :
  (forall i model, models !! i = Some model -> all !! (index + i)%nat = Some model) ->
  index_wf all idx -> index_wf all (build_index idx index models).
Proof.
  revert idx index. induction models as [|model models IH]; intros idx index Ha Hw; [done|].
  simpl. apply IH.
  - intros i m Hm. replace (S index + i)%nat with (index + S i)%nat by lia. by apply Ha.
  - apply index_model_wf; [|done]. replace index with (index + 0)%nat by lia. by apply Ha.
Qed.

Lemma index_model_names idx index model name :
  names_model name model -> is_Some (index_model idx index model !! name).
Proof.
  unfold index_model. intros [->|[-> Hn]].
  - destruct (index_emplace_there (id model) index idx) as [i Hi]. exists i.
    case_match; [by apply index_emplace_keeps|done].
  - rewrite bool_decide_false by done. simpl. apply index_emplace_there.
Qed.

Lemma build_index_complete models idx index model name :
  model ∈ models -> names_model name model -> is_Some (build_index idx index models !! name).
Proof.
  revert idx index. induction models as [|m models IH]; intros idx index Hin Hn.
  { by apply elem_of_nil in Hin. }
  apply elem_of_cons in Hin as [->|Hin]; simpl; [|by apply IH].
  destruct (index_model_names idx index m name Hn) as [i Hi]. exists i. by apply build_index_keeps.
Qed.

(** The registry never reads past its list: whatever list it is built from, a
    name that the index knows points at a model of the list that has this
    identifier or this slug, [has_model] tells exactly which names are found,
    and every model of the list is found under its own identifier and its
    slug. *)
Theorem registry_well_typed models :
  let r := make_registry models in
  (forall name, match find_model r name with
     | Some (Some model) => model ∈ models /\ (names_model name model \/ names_model (normalize_slug name) model)
     | Some None => False
     | None => True
     end) /\
  (forall name, has_model r name = true <-> is_Some (find_model r name)) /\
  (forall model, model ∈ models -> is_Some (find_model r (id model)) /\
     (normalize_slug (id model) <> [] -> is_Some (find_model r (normalize_slug (id model))))).
Proof.
  intros r. assert (index_wf models (model_index_ r)) as Hw.
  { apply build_index_wf; [done|apply map_Forall_empty]. }
  split; [|split].
  - intros name. unfold find_model, find_index.
    destruct (model_index_ r !! name) as [i|] eqn:E.
    + destruct (Hw _ _ E) as (model & Hm & Hn). simpl. rewrite Hm. split; [|by left].
      by eapply list_elem_of_lookup_2.
    + cbv zeta. case_bool_decide; [done|].
      destruct (model_index_ r !! normalize_slug name) as [i|] eqn:E'; [|done].
      destruct (Hw _ _ E') as (model & Hm & Hn). simpl. rewrite Hm. split; [|by right].
      by eapply list_elem_of_lookup_2.
  - intros name. unfold has_model, find_model, find_index.
    destruct (model_index_ r !! name); [split; [by eexists|done]|]. cbv zeta.
    case_bool_decide; [split; [done|by intros [? ?]]|].
    destruct (model_index_ r !! normalize_slug name); [split; [by eexists|done]|].
    split; [done|by intros [? ?]].
  - intros model Hin.
    assert (forall name, names_model name model -> is_Some (find_model r name)) as Hf.
    { intros name Hn. destruct (build_index_complete models ∅ 0 model name Hin Hn) as [i Hi].
      unfold find_model, find_index. simpl. rewrite Hi. by eexists. }
    split; [apply Hf; by left|]. intros Hs. apply Hf. by right.
Qed.

(** A model list of the upstream is read without repetitions: no two models
    have the same slug, and none has an empty one. *)
Lemma foldl_parse_model raw models seen :
  NoDup (normalize_slug ∘ id <$> models) ->
  (forall s, s ∈ seen <-> s ∈ (normalize_slug ∘ id <$> models)) ->
  [] ∉ (normalize_slug ∘ id <$> models) ->
  let r := (foldl parse_model (models, seen) raw).1 in
  NoDup (normalize_slug ∘ id <$> r) /\ [] ∉ (normalize_slug ∘ id <$> r).
Proof.
  revert models seen. induction raw as [|j raw IH]; intros models seen Hn Hs He; [done|].
  cbn [foldl]. destruct (parse_model (models, seen) j) as [models' seen'] eqn:E.
  cut (NoDup (normalize_slug ∘ id <$> models') /\
       (forall s, s ∈ seen' <-> s ∈ (normalize_slug ∘ id <$> models')) /\
       [] ∉ (normalize_slug ∘ id <$> models')).
  { intros (H1 & H2 & H3). by apply IH. }
  unfold parse_model in E. destruct j as [| | | | |m]; simplify_eq; try done.
  destruct (match nonempty_string_at m $"slug" with Some s => Some s | None => nonempty_string_at m $"id" end)
    as [i|]; simplify_eq; [|done].
  case_match eqn:Ec; simplify_eq; [done|]. apply orb_false_iff in Ec as [Ec1 Ec2].
  apply bool_decide_eq_false in Ec1, Ec2. rewrite fmap_app. simpl.
  split; [|split].
  - apply NoDup_app. split; [done|]. split; [|apply NoDup_singleton].
    intros x Hx Hx'. apply list_elem_of_singleton in Hx'. subst x. apply Ec2. by rewrite Hs.
  - intros s. rewrite elem_of_union, elem_of_singleton, Hs, elem_of_app, list_elem_of_singleton. simpl. tauto.
  - rewrite elem_of_app, list_elem_of_singleton. simpl. intros [?|?]; [done|congruence].
Qed.

Lemma parse_models_distinct `{JsonCodec} payload :
  NoDup (normalize_slug ∘ id <$> parse_models_payload payload) /\
  [] ∉ (normalize_slug ∘ id <$> parse_models_payload payload).
Proof.
  unfold parse_models_payload.
  destruct (read_object payload) as [o|]; [|split; [constructor|apply not_elem_of_nil]].
  destruct (array_at o $"models") as [raw|]; [|split; [constructor|apply not_elem_of_nil]].
  apply foldl_parse_model; [constructor|set_solver|apply not_elem_of_nil].
Qed.

(** An API key of the proxy is never sent to the upstream's model list. *)
Lemma api_keys_stay_local perform env inbound authorization :
  find_header_case_insensitive inbound $"authorization" = Some authorization ->
  starts_with (to_lower_ascii (trim_ascii authorization)) $"bearer sk-" = true ->
  fetch_models_payload perform env inbound = None.
Proof. intros Ha Hs. unfold fetch_models_payload. rewrite Ha, Hs. by destruct authorization. Qed.

Lemma resolve_stream_transport_cases transport transport_override model headers registry :
  resolve_stream_transport transport transport_override model headers registry = $"websocket" \/
  resolve_stream_transport transport transport_override model headers registry = $"http".
Proof. unfold resolve_stream_transport. repeat case_match; auto. Qed.

(** The transport is always one of the two the proxy implements; a
    configured transport decides alone, and without one a native client or a
    model that prefers it gets the websocket. *)
Theorem stream_transport_resolution transport transport_override model headers registry :
  let configured := if bool_decide (transport_override = []) then transport else transport_override in
  let r := resolve_stream_transport transport transport_override model headers registry in
  (r = $"websocket" \/ r = $"http") /\
  (configured = $"websocket" \/ configured = $"http" -> r = configured) /\
  (configured <> $"websocket" -> configured <> $"http" ->
   (r = $"websocket" <->
    has_native_codex_transport_headers headers = true \/ prefers_websockets registry model = true)).
Proof.
  unfold resolve_stream_transport, configured_stream_transport. cbv zeta.
  generalize (if bool_decide (transport_override = []) then transport else transport_override).
  intros c. destruct (decide (c = $"websocket")) as [->|H1].
  { rewrite (bool_decide_true ($"websocket" = $"websocket")) by done. split; [by left|]. split; [done|done]. }
  rewrite (bool_decide_false _ H1). destruct (decide (c = $"http")) as [->|H2].
  { rewrite (bool_decide_true ($"http" = $"http")) by done. split; [by right|]. split; [done|done]. }
  rewrite (bool_decide_false _ H2).
  destruct (has_native_codex_transport_headers headers), (prefers_websockets registry model);
    (split; [by auto|]; split; [intros [?|?]; done|]); intros _ _; (split; [first [by left|by right|done]|intros [?|?]; done]).
Qed.
