(* ===== verification/ErrorPolicy.v ===== *)
(** * ErrorPolicy: what the proxy makes of an upstream answer

    src/native/proxy/src/proxy_error_policy.cpp and
    src/native/proxy/openai/src/error_envelope.cpp: reading the error of an
    answer, deciding whether the account is exhausted, whether to try again,
    and the retry loop itself. *)

From S2P Require Import Prelude Text JsonValue Headers.
Import Text.Ascii Text.Find Text.Json.

(** proxy/include/upstream_transport.h *)
Record UpstreamExecutionResult := mkUpstreamExecutionResult {
  status : Z;
  body : bytes;
  events : list bytes;
  headers : HeaderMap;
  accepted : bool;
  close_code : Z;
  error_code : bytes;
}.

Definition set_error_code (u : UpstreamExecutionResult) (code : bytes) : UpstreamExecutionResult :=
  mkUpstreamExecutionResult (status u) (body u) (events u) (headers u) (accepted u) (close_code u) code.

Definition kStreamRetryBudget : Z := 2.
Definition kCompactRetryBudget : Z := 1.

Record UpstreamErrorDetails := mkUpstreamErrorDetails {
  code : bytes;
  message : bytes;
  type : bytes;
  param : bytes;
}.

Definition empty_details : UpstreamErrorDetails := mkUpstreamErrorDetails [] [] [] [].

Definition is_empty (s : bytes) : bool := bool_decide (s = []).

(** ** Reading the error of an answer *)

Definition map_code_alias (code : bytes) : bytes :=
  if bool_decide (code = $"upstream_transport_failed") || bool_decide (code = $"upstream_transport_init_failed")
  then $"upstream_unavailable"
  else if bool_decide (code = $"upstream_transport_timeout") then $"upstream_request_timeout"
  else code.

Definition normalize_upstream_error_code (code error_type : bytes) : bytes :=
  if negb (is_empty code) then map_code_alias (to_lower_ascii code)
  else if negb (is_empty error_type) then map_code_alias (to_lower_ascii error_type)
  else $"upstream_error".

Definition details_from_error_object (error_object : JsonObject) : UpstreamErrorDetails :=
  let code :=
    match string_at error_object $"code" with
    | Some c => normalize_upstream_error_code c []
    | None => []
    end in
  let '(code, type) :=
    match string_at error_object $"type" with
    | Some t => (if is_empty code then normalize_upstream_error_code [] t else code, t)
    | None => (code, [])
    end in
  mkUpstreamErrorDetails code
    (default [] (string_at error_object $"message")) type
    (default [] (string_at error_object $"param")).

Definition merge_field (base overlay : bytes) : bytes :=
  if is_empty base && negb (is_empty overlay) then overlay else base.

Definition merge_error_details (base overlay : UpstreamErrorDetails) : UpstreamErrorDetails :=
  mkUpstreamErrorDetails
    (merge_field (code base) (code overlay))
    (merge_field (message base) (message overlay))
    (merge_field (type base) (type overlay))
    (merge_field (param base) (param overlay)).

Section codec.
Context `{JsonCodec}.

(** The error of a nested response object. *)
Definition response_error (object : JsonObject) : option UpstreamErrorDetails :=
  response ← object_at object $"response";
  error ← object_at response $"error";
  Some (details_from_error_object error).

Definition extract_error_details_from_payload (payload : bytes) : option UpstreamErrorDetails :=
  match read_object payload with
  | None => None
  | Some object =>
      let top := details_from_error_object <$> object_at object $"error" in
      let from_event :=
        match string_at object $"type" with
        | Some event_type =>
            if bool_decide (event_type = $"error") then top
            else if bool_decide (event_type = $"response.failed") then
              match top with Some d => Some d | None => response_error object end
            else None
        | None => None
        end in
      match from_event with
      | Some d => Some d
      | None => match top with Some d => Some d | None => response_error object end
      end
  end.

Fixpoint extract_error_code_from_stream_events (events : list bytes) : bytes :=
  match events with
  | [] => []
  | event :: rest =>
      match extract_error_details_from_payload event with
      | Some details => if negb (is_empty (code details)) then code details
                        else extract_error_code_from_stream_events rest
      | None => extract_error_code_from_stream_events rest
      end
  end.

(** The loop over the events, with its early exit. *)
Fixpoint merge_events (details : UpstreamErrorDetails) (events : list bytes) : UpstreamErrorDetails :=
  match events with
  | [] => details
  | event :: rest =>
      let details :=
        match extract_error_details_from_payload event with
        | Some event_details => merge_error_details details event_details
        | None => details
        end in
      if negb (is_empty (code details)) && negb (is_empty (message details)) && negb (is_empty (type details))
      then details
      else merge_events details rest
  end.

Definition with_defaults (details : UpstreamErrorDetails) : UpstreamErrorDetails :=
  let code := if is_empty (code details) then $"upstream_error" else code details in
  let type :=
    if is_empty (type details) then
      if bool_decide (code = $"upstream_request_timeout") then $"timeout_error" else $"server_error"
    else type details in
  mkUpstreamErrorDetails code (message details) type (param details).

Definition extract_upstream_error_details (upstream : UpstreamExecutionResult) : UpstreamErrorDetails :=
  let details :=
    if negb (is_empty (error_code upstream))
    then mkUpstreamErrorDetails (normalize_upstream_error_code (error_code upstream) []) [] [] []
    else empty_details in
  let details :=
    if negb (is_empty (body upstream)) then
      match extract_error_details_from_payload (body upstream) with
      | Some body_details => merge_error_details details body_details
      | None => details
      end
    else details in
  with_defaults (merge_events details (events upstream)).

Definition resolved_upstream_error_code (upstream : UpstreamExecutionResult) : bytes :=
  code (extract_upstream_error_details upstream).

Definition default_error_message_for_code (normalized_error_code : bytes) : bytes :=
  if bool_decide (normalized_error_code = $"upstream_request_timeout")
  then $"Proxy request budget exhausted" else $"Upstream error".

(** ** Is the account exhausted? *)

Definition contains_deactivated_marker (payload : bytes) : bool :=
  if is_empty payload then false else contains (to_lower_ascii payload) $"deactivated".

Definition contains_quota_marker (value : bytes) : bool :=
  if is_empty value then false
  else
    let normalized := to_lower_ascii value in
    contains normalized $"quota" ||
    contains normalized $"insufficient_quota" ||
    contains normalized $"quota_exceeded" ||
    contains normalized $"usage limit" ||
    contains normalized $"credits" ||
    contains normalized $"billing" ||
    contains normalized $"hard limit".

Definition contains_rate_limit_marker (value : bytes) : bool :=
  if is_empty value then false
  else
    let normalized := to_lower_ascii value in
    contains normalized $"rate limit" ||
    contains normalized $"rate_limited" ||
    contains normalized $"rate_limit_exceeded" ||
    contains normalized $"too many requests".

Definition any_event_matches (events : list bytes) (predicate : bytes -> bool) : bool :=
  existsb predicate events.

Definition any_header_matches (headers : HeaderMap) (predicate : bytes -> bool) : bool :=
  existsb (fun kv => predicate kv.1 || predicate kv.2) headers.

Definition upstream_401_body_indicates_deactivated_account (upstream : UpstreamExecutionResult) : bool :=
  if negb (status upstream =? 401) then false
  else if contains_deactivated_marker (body upstream) then true
  else any_event_matches (events upstream) contains_deactivated_marker.

(** A marker anywhere in a failed answer. *)
Definition marked_anywhere (upstream : UpstreamExecutionResult) (marker : bytes -> bool) : bool :=
  (400 <=? status upstream) &&
  (marker (message (extract_upstream_error_details upstream)) || marker (body upstream) ||
   any_event_matches (events upstream) marker || any_header_matches (headers upstream) marker).

Definition is_quota_code (code : bytes) : bool :=
  bool_decide (code = $"insufficient_quota") || bool_decide (code = $"quota_exceeded") ||
  bool_decide (code = $"credits_exhausted") || bool_decide (code = $"billing_hard_limit_reached") ||
  bool_decide (code = $"billing_not_active").

Definition exhausted_account_status_from_upstream (upstream : UpstreamExecutionResult) : option bytes :=
  let details := extract_upstream_error_details upstream in
  let code := to_lower_ascii (code details) in
  let type := to_lower_ascii (type details) in
  if is_quota_code code then Some $"quota_blocked"
  else if marked_anywhere upstream contains_quota_marker then Some $"quota_blocked"
  else if bool_decide (code = $"rate_limit_exceeded") || bool_decide (code = $"rate_limited") ||
          bool_decide (code = $"too_many_requests") then Some $"rate_limited"
  else if bool_decide (type = $"rate_limit_exceeded") || bool_decide (type = $"rate_limited") then Some $"rate_limited"
  else if marked_anywhere upstream contains_rate_limit_marker then Some $"rate_limited"
  else if status upstream =? 429 then Some $"rate_limited"
  else None.

(** ** Should the attempt be repeated? *)

Definition should_retry_stream_result (upstream : UpstreamExecutionResult) : bool :=
  if bool_decide (is_Some (exhausted_account_status_from_upstream upstream)) then false
  else if 400 <=? status upstream then
    (status upstream =? 500) ||
    bool_decide (normalize_upstream_error_code (error_code upstream) [] = $"server_error")
  else bool_decide (extract_error_code_from_stream_events (events upstream) = $"server_error").

Definition should_retry_stream_result_with_incomplete (upstream : UpstreamExecutionResult) : bool :=
  if should_retry_stream_result upstream then true
  else
    let code := normalize_upstream_error_code (resolved_upstream_error_code upstream) [] in
    bool_decide (code = $"stream_incomplete") || bool_decide (code = $"upstream_incomplete").

Definition should_retry_compact_result (upstream : UpstreamExecutionResult) : bool :=
  if bool_decide (is_Some (exhausted_account_status_from_upstream upstream)) then false
  else if status upstream <? 400 then false
  else (status upstream =? 401) || (status upstream =? 500) || (status upstream =? 502) ||
       (status upstream =? 503) || (status upstream =? 504).

(** ** The retry loop

    The transport is code behind an interface: [execute_upstream_plan] takes
    the state of the world to an answer and a new state. What the loop emits
    is recorded in order. *)

Inductive Emitted :=
| LogRetry (attempt status : Z) (code : bytes)
| RuntimeSignal (level code message : bytes)
| SleepMs (ms : Z).

Section retry.
Context {Plan World : Type} (execute_upstream_plan : Plan -> World -> UpstreamExecutionResult * World).

(** One pass through the body of the loop, up to the test. *)
Definition execute_attempt (plan : Plan) (w : World) : UpstreamExecutionResult * World :=
  let '(upstream, w) := execute_upstream_plan plan w in
  let upstream := set_error_code upstream (resolved_upstream_error_code upstream) in
  match exhausted_account_status_from_upstream upstream with
  | Some exhausted =>
      if is_empty (error_code upstream) || bool_decide (error_code upstream = $"upstream_error")
      then (set_error_code upstream
              (if bool_decide (exhausted = $"quota_blocked") then $"insufficient_quota" else $"rate_limit_exceeded"), w)
      else (upstream, w)
  | None => (upstream, w)
  end.

Definition retry_emissions (attempt : Z) (upstream : UpstreamExecutionResult) : list Emitted :=
  [LogRetry (attempt + 1) (status upstream) (error_code upstream);
   RuntimeSignal $"warn" $"upstream_retry"
     ($"upstream retry attempt=" ++ to_string (attempt + 1) ++ $" status=" ++ to_string (status upstream) ++
      $" code=" ++ error_code upstream);
   SleepMs 500].

(** [for (attempt = 0;; ++attempt)]: [None] is a loop that has not left
    after [fuel] passes. *)
Fixpoint retry_loop (fuel : nat) (plan : Plan) (retry_budget : Z)
    (should_retry : UpstreamExecutionResult -> bool) (attempt : Z) (w : World) (emitted : list Emitted) :
    option (UpstreamExecutionResult * World * list Emitted) :=
  match fuel with
  | O => None
  | S fuel =>
      let '(upstream, w) := execute_attempt plan w in
      if (retry_budget <=? attempt) || negb (should_retry upstream) then Some (upstream, w, emitted)
      else retry_loop fuel plan retry_budget should_retry (attempt + 1) w
             (emitted ++ retry_emissions attempt upstream)
  end.

Definition final_signal (upstream : UpstreamExecutionResult) : list Emitted :=
  if 400 <=? status upstream then
    match exhausted_account_status_from_upstream upstream with
    | Some exhausted =>
        [RuntimeSignal $"warn" $"account_exhausted"
           ($"upstream signaled account exhaustion status=" ++ exhausted ++ $" status=" ++
            to_string (status upstream) ++ $" code=" ++ error_code upstream)]
    | None =>
        [RuntimeSignal (if 500 <=? status upstream then $"error" else $"warn") $"upstream_error"
           ($"upstream request failed status=" ++ to_string (status upstream) ++ $" code=" ++ error_code upstream)]
    end
  else [].

Definition execute_upstream_with_retry_budget (fuel : nat) (plan : Plan) (retry_budget : Z)
    (should_retry : UpstreamExecutionResult -> bool) (w : World) :
    option (UpstreamExecutionResult * World * list Emitted) :=
  match retry_loop fuel plan retry_budget should_retry 0 w [] with
  | Some (upstream, w, emitted) => Some (upstream, w, emitted ++ final_signal upstream)
  | None => None
  end.

End retry.
End codec.

(** ** openai/src/error_envelope.cpp *)

(** A key as it stands in the envelope's text. *)
Definition json_key (key : bytes) : bytes := [Byte.x22] ++ key ++ [Byte.x22] ++ $":".

Definition build_error_envelope (code message type param : bytes) : bytes :=
  let payload :=
    $"{" ++ json_key $"error" ++ $"{" ++ json_key $"message" ++ quote_json_string message ++
    $"," ++ json_key $"type" ++ quote_json_string type ++
    $"," ++ json_key $"code" ++ quote_json_string code in
  let payload :=
    if negb (is_empty param) then payload ++ $"," ++ json_key $"param" ++ quote_json_string param
    else payload in
  payload ++ $"}}".

(** ** Codes are resolved once *)

Lemma is_empty_spec s : is_empty s = true <-> s = [].
Proof. apply bool_decide_eq_true. Qed.

Lemma is_empty_false s : is_empty s = false <-> s <> [].
Proof. apply bool_decide_eq_false. Qed.

#[export] Hint Rewrite is_empty_spec is_empty_false : tightrope.

(** A code that came out of the normalisation: lower case, no alias, not empty. *)
Definition normal_code (c : bytes) : Prop :=
  c <> [] /\ to_lower_ascii c = c /\ map_code_alias c = c.

Lemma map_code_alias_normal c : c <> [] -> to_lower_ascii c = c -> normal_code (map_code_alias c).
Proof.
  intros Hc Hl. unfold map_code_alias. case_if; (split; [done|split; [done|]]); try by vm_compute.
  unfold map_code_alias. by rewrite H, H0.
Qed.

Lemma to_lower_nonempty c : c <> [] -> to_lower_ascii c <> [].
Proof. by destruct c. Qed.

Lemma normalize_normal c t : normal_code (normalize_upstream_error_code c t).
Proof.
  unfold normalize_upstream_error_code. case_match eqn:E.
  - bool_hyps. rewrite is_empty_false in E. apply map_code_alias_normal; [by apply to_lower_nonempty|].
    apply to_lower_ascii_idem.
  - case_match eqn:E'; [|by vm_compute]. bool_hyps. rewrite is_empty_false in E'.
    apply map_code_alias_normal; [by apply to_lower_nonempty|]. apply to_lower_ascii_idem.
Qed.

Lemma normalize_id c : normal_code c -> normalize_upstream_error_code c [] = c.
Proof.
  intros (Hc & Hl & Ha). unfold normalize_upstream_error_code.
  assert (is_empty c = false) as -> by by apply is_empty_false. simpl. by rewrite Hl.
Qed.

(** What the parser leaves in a record of details: a code is normal, and a
    type never comes without a code. *)
Definition details_wf (d : UpstreamErrorDetails) : Prop :=
  (code d <> [] -> normal_code (code d)) /\ (type d <> [] -> code d <> []).

Lemma details_from_error_object_wf o : details_wf (details_from_error_object o).
Proof.
  unfold details_from_error_object, details_wf.
  destruct (string_at o $"code") as [c|], (string_at o $"type") as [t|]; simpl.
  - assert (is_empty (normalize_upstream_error_code c []) = false) as ->.
    { apply is_empty_false, normalize_normal. }
    split; intros; apply normalize_normal.
  - split; [intros; apply normalize_normal|done].
  - split; intros; apply normalize_normal.
  - done.
Qed.

Lemma merge_field_some base overlay : base <> [] -> merge_field base overlay = base.
Proof. intros H. unfold merge_field. apply is_empty_false in H. by rewrite H. Qed.

Lemma merge_field_nil overlay : merge_field [] overlay = overlay.
Proof. unfold merge_field. simpl. destruct overlay; done. Qed.

Lemma merge_error_details_wf d e : details_wf d -> details_wf e -> details_wf (merge_error_details d e).
Proof.
  unfold details_wf, merge_error_details; simpl. intros [Hd1 Hd2] [He1 He2].
  destruct (decide (code d = [])) as [E|E].
  - rewrite E, merge_field_nil. split; [done|].
    destruct (decide (type d = [])) as [E'|E']; [|by destruct (Hd2 E')].
    by rewrite E', merge_field_nil.
  - rewrite (merge_field_some _ _ E). done.
Qed.

Section codec_laws.
Context `{JsonCodec}.

Lemma extract_payload_wf payload d :
  extract_error_details_from_payload payload = Some d -> details_wf d.
Proof.
  unfold extract_error_details_from_payload. destruct (read_object payload) as [o|]; [|done].
  assert (forall d, details_from_error_object <$> object_at o $"error" = Some d -> details_wf d) as Ht.
  { intros d' E. apply fmap_Some in E as (? & _ & ->). apply details_from_error_object_wf. }
  assert (forall d, response_error o = Some d -> details_wf d) as Hr.
  { intros d' E. unfold response_error in E. apply bind_Some in E as (? & _ & E).
    apply bind_Some in E as (? & _ & E). simplify_eq. apply details_from_error_object_wf. }
  destruct (details_from_error_object <$> object_at o $"error"); intros E;
    repeat case_match; simplify_eq; eauto.
Qed.

(** The details with another code, as the second resolution starts from. *)
Definition recode (c : bytes) (d : UpstreamErrorDetails) : UpstreamErrorDetails :=
  mkUpstreamErrorDetails c (message d) (type d) (param d).

Lemma merge_recode c d e : c <> [] -> merge_error_details (recode c d) e = recode c (merge_error_details d e).
Proof.
  intros Hc. unfold merge_error_details, recode; simpl. by rewrite (merge_field_some c).
Qed.

Lemma merge_payload_wf d p :
  details_wf d ->
  details_wf (match extract_error_details_from_payload p with
              | Some e => merge_error_details d e
              | None => d
              end).
Proof.
  intros Hd. destruct (extract_error_details_from_payload p) eqn:E; [|done].
  apply merge_error_details_wf; [done|by eapply extract_payload_wf].
Qed.

Lemma merge_events_wf d es : details_wf d -> details_wf (merge_events d es).
Proof.
  revert d. induction es as [|e es IH]; intros d Hd; simpl; [done|].
  pose proof (merge_payload_wf d e Hd) as Hd'. revert Hd'.
  generalize (match extract_error_details_from_payload e with
              | Some event_details => merge_error_details d event_details | None => d end).
  intros d' Hd'. destruct (_ && _); [done|by apply IH].
Qed.

Lemma merge_events_recode c d es :
  c <> [] -> details_wf d -> merge_events (recode c d) es = recode c (merge_events d es).
Proof.
  intros Hc. revert d. induction es as [|e es IH]; intros d Hd; cbn [merge_events]; [done|].
  set (d' := match extract_error_details_from_payload e with
             | Some x => merge_error_details d x | None => d end).
  assert (details_wf d') as Hd' by by apply merge_payload_wf.
  assert (match extract_error_details_from_payload e with
          | Some x => merge_error_details (recode c d) x | None => recode c d end = recode c d') as ->.
  { unfold d'. destruct (extract_error_details_from_payload e); [by apply merge_recode|done]. }
  unfold recode at 1 2 3; cbn [code message type]. apply is_empty_false in Hc as Hc'. rewrite Hc'. simpl.
  destruct (is_empty (type d')) eqn:Et.
  - rewrite !andb_false_r. by apply IH.
  - apply is_empty_false, (proj2 Hd'), is_empty_false in Et as Ec. rewrite Ec. simpl.
    case_match; [done|]. by apply IH.
Qed.

(** The details gathered before the events are looked at. *)
Definition start_details (c : bytes) : UpstreamErrorDetails :=
  if negb (is_empty c) then mkUpstreamErrorDetails (normalize_upstream_error_code c []) [] [] []
  else empty_details.

Definition body_details (u : UpstreamExecutionResult) (c : bytes) : UpstreamErrorDetails :=
  let details := start_details c in
  if negb (is_empty (body u)) then
    match extract_error_details_from_payload (body u) with
    | Some body_details => merge_error_details details body_details
    | None => details
    end
  else details.

Lemma start_details_wf c : details_wf (start_details c).
Proof.
  unfold start_details. destruct (is_empty c); simpl; [done|].
  split; simpl; [intros; apply normalize_normal|done].
Qed.

Lemma body_details_wf u c : details_wf (body_details u c).
Proof.
  unfold body_details. destruct (negb (is_empty (body u))); [|apply start_details_wf].
  apply merge_payload_wf, start_details_wf.
Qed.

Lemma start_details_recode c d : normal_code c -> start_details c = recode c (start_details d).
Proof.
  intros Hn. unfold start_details.
  assert (is_empty c = false) as -> by (apply is_empty_false; apply Hn).
  rewrite normalize_id by done. by destruct (is_empty d).
Qed.

Lemma body_details_recode u c :
  normal_code c -> body_details u c = recode c (body_details u (error_code u)).
Proof.
  intros Hn. unfold body_details. rewrite (start_details_recode c (error_code u)) by done.
  destruct (negb (is_empty (body u))); [|done].
  destruct (extract_error_details_from_payload (body u)); [|done]. apply merge_recode, Hn.
Qed.

Lemma extract_eq u :
  extract_upstream_error_details u = with_defaults (merge_events (body_details u (error_code u)) (events u)).
Proof. done. Qed.

(** What replacing the code does to everything else: nothing. *)
Lemma extract_set_error_code u c :
  normal_code c ->
  extract_upstream_error_details (set_error_code u c) =
  with_defaults (recode c (merge_events (body_details u (error_code u)) (events u))).
Proof.
  intros Hn. rewrite extract_eq. cbn [error_code set_error_code events].
  change (body_details (set_error_code u c) c) with (body_details u c).
  rewrite (body_details_recode u c) by done.
  rewrite merge_events_recode; [done|apply Hn|apply body_details_wf].
Qed.

Lemma resolved_normal u : normal_code (resolved_upstream_error_code u).
Proof.
  unfold resolved_upstream_error_code. rewrite extract_eq. unfold with_defaults. cbn [code].
  pose proof (merge_events_wf _ (events u) (body_details_wf u (error_code u))) as [Hw _].
  case_match eqn:E; [by vm_compute|]. apply Hw. by apply is_empty_false.
Qed.

Lemma extract_resolved u :
  extract_upstream_error_details (set_error_code u (resolved_upstream_error_code u)) =
  extract_upstream_error_details u.
Proof.
  rewrite extract_set_error_code by apply resolved_normal.
  unfold resolved_upstream_error_code. rewrite extract_eq.
  pose proof (merge_events_wf _ (events u) (body_details_wf u (error_code u))) as [_ Ht].
  set (m := merge_events _ _) in *. unfold with_defaults, recode; cbn [code message type param].
  destruct (is_empty (code m)) eqn:Ec; [done|]. by rewrite Ec.
Qed.

(** Resolving the code of an answer and storing it, as every attempt does,
    does not change what a later resolution reads: not the code, and not the
    message, the type or the parameter either. *)
Theorem error_resolution_idempotent u :
  extract_upstream_error_details (set_error_code u (resolved_upstream_error_code u)) =
  extract_upstream_error_details u.
Proof. apply extract_resolved. Qed.

(** ** Exhausted accounts *)

Lemma exhausted_values u e :
  exhausted_account_status_from_upstream u = Some e -> e = $"quota_blocked" \/ e = $"rate_limited".
Proof.
  unfold exhausted_account_status_from_upstream.
  destruct (is_quota_code _); [intros; simplify_eq; by left|].
  destruct (marked_anywhere u contains_quota_marker); [intros; simplify_eq; by left|].
  intros E. right. by case_if.
Qed.

Lemma exhausted_set_code u c :
  extract_upstream_error_details (set_error_code u c) = extract_upstream_error_details u ->
  exhausted_account_status_from_upstream (set_error_code u c) = exhausted_account_status_from_upstream u.
Proof.
  intros E. unfold exhausted_account_status_from_upstream, marked_anywhere. by rewrite E.
Qed.

Lemma exhausted_resolved u :
  exhausted_account_status_from_upstream (set_error_code u (resolved_upstream_error_code u)) =
  exhausted_account_status_from_upstream u.
Proof. apply exhausted_set_code, extract_resolved. Qed.

(** A failed answer with a limit status is an exhausted account, whatever
    its body holds. *)
Lemma status_429_exhausted u : status u = 429 -> is_Some (exhausted_account_status_from_upstream u).
Proof.
  intros E. unfold exhausted_account_status_from_upstream. rewrite E.
  repeat (case_match; [by eexists|]). done.
Qed.

Lemma message_set_code u c :
  normal_code c ->
  message (extract_upstream_error_details (set_error_code u c)) = message (extract_upstream_error_details u).
Proof. intros Hn. by rewrite extract_set_error_code. Qed.

Lemma code_set_code u c :
  normal_code c -> code (extract_upstream_error_details (set_error_code u c)) = c.
Proof.
  intros Hn. rewrite extract_set_error_code by done. unfold with_defaults, recode; cbn [code].
  assert (is_empty c = false) as -> by (apply is_empty_false; apply Hn). done.
Qed.

Lemma marked_set_code u c marker :
  normal_code c -> marked_anywhere (set_error_code u c) marker = marked_anywhere u marker.
Proof. intros Hn. unfold marked_anywhere. by rewrite message_set_code. Qed.

(** Giving an exhausted account's answer the code of its exhaustion keeps it
    exhausted in the same way. *)
Lemma exhausted_recoded u e :
  exhausted_account_status_from_upstream u = Some e ->
  exhausted_account_status_from_upstream
    (set_error_code u (if bool_decide (e = $"quota_blocked") then $"insufficient_quota" else $"rate_limit_exceeded")) =
  Some e.
Proof.
  intros E. pose proof (exhausted_values u e E) as [->| ->]; unfold exhausted_account_status_from_upstream.
  - rewrite bool_decide_true by done. by rewrite code_set_code by by vm_compute.
  - rewrite bool_decide_false by done. rewrite code_set_code, marked_set_code by by vm_compute.
    unfold exhausted_account_status_from_upstream in E.
    destruct (is_quota_code (to_lower_ascii _)); [by vm_compute in E|].
    destruct (marked_anywhere u contains_quota_marker); [by vm_compute in E|]. done.
Qed.

(** ** The loop *)

Section retry_laws.
Context {Plan World : Type} (execute_upstream_plan : Plan -> World -> UpstreamExecutionResult * World).
Local Abbreviation execute_attempt := (execute_attempt execute_upstream_plan).

(** Consecutive attempts, each from the world the one before left. *)
Inductive attempts (plan : Plan) : World -> list UpstreamExecutionResult -> World -> Prop :=
| attempts_nil w : attempts plan w [] w
| attempts_cons w u w' us w'' :
    execute_attempt plan w = (u, w') -> attempts plan w' us w'' -> attempts plan w (u :: us) w''.

(** An attempt keeps what the transport said about the account. *)
Lemma attempt_exhausted plan w :
  exhausted_account_status_from_upstream (execute_attempt plan w).1 =
  exhausted_account_status_from_upstream (execute_upstream_plan plan w).1.
Proof.
  unfold ErrorPolicy.execute_attempt. destruct (execute_upstream_plan plan w) as [u w']. cbn [fst].
  rewrite exhausted_resolved. destruct (exhausted_account_status_from_upstream u) as [e|] eqn:E.
  - case_match; cbn [fst]; [|by rewrite exhausted_resolved].
    apply exhausted_recoded. by rewrite exhausted_resolved.
  - cbn [fst]. by rewrite exhausted_resolved.
Qed.

Definition all_retry_emissions (from : Z) (us : list UpstreamExecutionResult) : list Emitted :=
  concat (imap (fun i u => retry_emissions (from + Z.of_nat i) u) us).

Lemma all_retry_emissions_cons from u us :
  all_retry_emissions from (u :: us) = retry_emissions from u ++ all_retry_emissions (from + 1) us.
Proof.
  unfold all_retry_emissions. rewrite imap_cons. cbn [concat]. rewrite Z.add_0_r. f_equal. f_equal.
  apply imap_ext. intros i x _. simpl. f_equal. lia.
Qed.

Lemma retry_loop_run plan budget pred : forall fuel attempt w emitted,
  (Z.to_nat (budget - attempt) < fuel)%nat ->
  exists refused final w',
    retry_loop execute_upstream_plan fuel plan budget pred attempt w emitted =
      Some (final, w', emitted ++ all_retry_emissions attempt refused) /\
    attempts plan w (refused ++ [final]) w' /\
    Forall (fun u => pred u = true) refused /\
    size_of refused <= Z.max 0 (budget - attempt) /\
    (pred final = true -> size_of refused = Z.max 0 (budget - attempt)).
Proof.
  induction fuel as [|fuel IH]; intros attempt w emitted Hf; [lia|]. cbn [retry_loop].
  destruct (execute_attempt plan w) as [u w'] eqn:Ea.
  destruct ((budget <=? attempt) || negb (pred u)) eqn:Ec.
  - exists [], u, w'. rewrite app_nil_r. split; [done|]. split; [by repeat econstructor|].
    split; [done|]. rewrite size_of_nil. split; [lia|]. intros Hp. rewrite Hp in Ec.
    apply orb_true_iff in Ec as [Ec|Ec]; [bool_hyps; lia|done].
  - bool_hyps. edestruct (IH (attempt + 1) w') as (refused & final & w'' & Hr & Ha & Hp & Hs & Hl); [lia|].
    exists (u :: refused), final, w''. rewrite Hr. rewrite all_retry_emissions_cons, app_assoc.
    split; [done|]. split; [by econstructor|]. split; [by constructor|]. rewrite size_of_cons.
    split; [lia|]. intros Hf'. rewrite Hl by done. lia.
Qed.

(** The retry loop always ends: with one pass per allowed attempt it returns
    the last answer. Every answer before it was one the policy repeats, at
    most [retry_budget] of them, and the last one is repeated no more because
    the policy refuses or the budget is used up; each repeated attempt logs,
    signals and waits half a second, and the last answer signals its
    failure. *)
Theorem retry_budget_terminates fuel plan budget pred w :
  (Z.to_nat budget < fuel)%nat ->
  exists repeated final w',
    execute_upstream_with_retry_budget execute_upstream_plan fuel plan budget pred w =
      Some (final, w', all_retry_emissions 0 repeated ++ final_signal final) /\
    attempts plan w (repeated ++ [final]) w' /\
    Forall (fun u => pred u = true) repeated /\
    size_of repeated <= Z.max 0 budget /\
    (pred final = true -> size_of repeated = Z.max 0 budget).
Proof.
  intros Hf. destruct (retry_loop_run plan budget pred fuel 0 w [])
    as (refused & final & w' & Hr & Ha & Hp & Hs & Hl); [lia|].
  rewrite Z.sub_0_r in Hs, Hl. exists refused, final, w'. split; [|done].
  unfold execute_upstream_with_retry_budget. by rewrite Hr.
Qed.

Lemma policy_refuses_exhausted pred u :
  In pred [should_retry_stream_result; should_retry_compact_result] ->
  is_Some (exhausted_account_status_from_upstream u) -> pred u = false.
Proof.
  intros [<-|[<-|[]]] Hx; unfold should_retry_stream_result, should_retry_compact_result;
    by rewrite bool_decide_true.
Qed.

(** An account the upstream reports as out of quota or rate limited is not
    tried again: under the stream and the compact policy the first such answer
    is returned after exactly one call of the transport, and the caller is told
    which kind of exhaustion it was. *)
Theorem exhausted_account_not_retried fuel plan budget pred w e :
  (0 < fuel)%nat ->
  In pred [should_retry_stream_result; should_retry_compact_result] ->
  exhausted_account_status_from_upstream (execute_upstream_plan plan w).1 = Some e ->
  exists final,
    execute_upstream_with_retry_budget execute_upstream_plan fuel plan budget pred w =
      Some (final, (execute_upstream_plan plan w).2, final_signal final) /\
    exhausted_account_status_from_upstream final = Some e /\
    error_code final <> [] /\
    error_code final <> $"upstream_error".
Proof.
  intros Hf Hp He. exists (execute_attempt plan w).1.
  pose proof (attempt_exhausted plan w) as Hx. rewrite He in Hx.
  unfold execute_upstream_with_retry_budget.
  destruct fuel as [|fuel]; [lia|]. cbn [retry_loop].
  assert ((execute_attempt plan w).2 = (execute_upstream_plan plan w).2 /\
          error_code (execute_attempt plan w).1 <> [] /\
          error_code (execute_attempt plan w).1 <> $"upstream_error") as (Hw & Hc1 & Hc2).
  { unfold ErrorPolicy.execute_attempt. destruct (execute_upstream_plan plan w) as [u w']. cbn [fst snd] in *.
    rewrite exhausted_resolved, He. case_match eqn:Ec; cbn [fst snd error_code set_error_code].
    - by destruct (bool_decide (e = _)).
    - apply orb_false_iff in Ec as [Ec1 Ec2]. apply is_empty_false in Ec1. by apply bool_decide_eq_false in Ec2. }
  destruct (execute_attempt plan w) as [u w'] eqn:Ea. cbn [fst snd] in *.
  rewrite (policy_refuses_exhausted pred u) by eauto. cbn [negb]. rewrite orb_true_r. by subst w'.
Qed.

End retry_laws.

(** The variant for interrupted streams looks at the code after the verdict
    on the account: an answer with the status of a rate limit is repeated when
    its code says that the stream was cut. *)
Lemma incomplete_policy_repeats_exhausted :
  exists u, status u = 429 /\ is_Some (exhausted_account_status_from_upstream u) /\
    should_retry_stream_result u = false /\ should_retry_stream_result_with_incomplete u = true.
Proof.
  exists (mkUpstreamExecutionResult 429 [] [] [] true 1000 $"stream_incomplete").
  split; [done|]. split; [by apply status_429_exhausted|]. by split; vm_compute.
Qed.

End codec_laws.

(** ** The error envelope *)

Definition envelope_tail (param : bytes) : bytes :=
  (if negb (is_empty param) then $"," ++ json_key $"param" ++ quote_json_string param else []) ++ $"}}".

Lemma build_error_envelope_eq c m t p :
  build_error_envelope c m t p =
  ($"{" ++ json_key $"error" ++ $"{" ++ json_key $"message") ++ quote_json_string m ++
  ($"," ++ json_key $"type") ++ quote_json_string t ++
  ($"," ++ json_key $"code") ++ quote_json_string c ++ envelope_tail p.
Proof.
  unfold build_error_envelope, envelope_tail. destruct (negb (is_empty p)); by rewrite <- !app_assoc.
Qed.

Lemma envelope_tail_inj p1 p2 : envelope_tail p1 = envelope_tail p2 -> p1 = p2.
Proof.
  unfold envelope_tail. destruct (is_empty p1) eqn:E1, (is_empty p2) eqn:E2; cbn [negb]; intros E; try done.
  - apply is_empty_spec in E1, E2. congruence.
  - rewrite <- !app_assoc in E. apply app_inv_head, app_inv_head in E. by apply quote_app_inj in E as [? _].
Qed.

(** The envelope of an error tells everything it was built from: two
    envelopes with the same text have the same code, message, type and
    parameter, whatever characters those hold. *)
Theorem error_envelope_injective c1 m1 t1 p1 c2 m2 t2 p2 :
  build_error_envelope c1 m1 t1 p1 = build_error_envelope c2 m2 t2 p2 ->
  c1 = c2 /\ m1 = m2 /\ t1 = t2 /\ p1 = p2.
Proof.
  rewrite !build_error_envelope_eq. intros E.
  apply app_inv_head, quote_app_inj in E as [-> E].
  apply app_inv_head, quote_app_inj in E as [-> E].
  apply app_inv_head, quote_app_inj in E as [-> E]. by apply envelope_tail_inj in E.
Qed.

(** ** Concrete inputs *)

Definition no_json : JsonCodec := sample_codec [] JNull.

(** A transport that answers with a status and counts its calls. *)
Definition sample_transport (status : Z) (plan : unit) (calls : nat) : UpstreamExecutionResult * nat :=
  (mkUpstreamExecutionResult status $"busy" [] [] false 0 [], S calls).

Lemma retry_budget_terminates_witness :
  exists repeated final calls,
    @execute_upstream_with_retry_budget no_json unit nat (sample_transport 503) 3 tt 2
      (@should_retry_stream_result no_json) 0%nat =
      Some (final, calls, all_retry_emissions 0 repeated ++ @final_signal no_json final) /\
    size_of repeated <= 2.
Proof.
  destruct (@retry_budget_terminates no_json unit nat (sample_transport 503) 3 tt 2
    (@should_retry_stream_result no_json) 0%nat) as (r & f & c & E & _ & _ & L & _); [lia|].
  exists r, f, c. split; [exact E|]. lia.
Defined.

Lemma exhausted_account_not_retried_witness :
  exists final,
    @execute_upstream_with_retry_budget no_json unit nat (sample_transport 429) 3 tt 2
      (@should_retry_stream_result no_json) 0%nat = Some (final, 1%nat, @final_signal no_json final) /\
    error_code final <> [].
Proof.
  destruct (@exhausted_account_not_retried no_json unit nat (sample_transport 429) 3 tt 2
    (@should_retry_stream_result no_json) 0%nat $"rate_limited") as (f & E & _ & N & _);
    [lia|by left|by vm_compute|].
  exists f. split; [exact E|exact N].
Defined.

Lemma error_envelope_injective_witness :
  $"a" = $"a" /\ $"b" = $"b" /\ $"c" = $"c" /\ $"d" = $"d".
Proof. apply (error_envelope_injective $"a" $"b" $"c" $"d" $"a" $"b" $"c" $"d"). reflexivity. Defined.
