(* ===== verification/Except.v ===== *)
(** * Except: functions that may throw

    A [throw std::runtime_error(what)] of the sources ends the function; the
    functions that may throw return the exception's message instead of a
    value. *)

From S2P Require Import Prelude.

Inductive except (A : Type) :=
| Ret (a : A)
| Throw (what : bytes).
Arguments Ret {_} _.
Arguments Throw {_} _.

#[global] Instance except_ret : MRet except := @Ret.
#[global] Instance except_bind : MBind except :=
  fun A B f m => match m with Ret a => f a | Throw what => Throw what end.
#[global] Instance except_fmap : FMap except :=
  fun A B f m => match m with Ret a => Ret (f a) | Throw what => Throw what end.

(** The exception that a caller turns into "no result". *)
Definition to_option {A} (m : except A) : option A :=
  match m with Ret a => Some a | Throw _ => None end.

Definition is_ret {A} (m : except A) : bool := match m with Ret _ => true | Throw _ => false end.

Definition from_except {A} (default : A) (m : except A) : A := match m with Ret a => a | Throw _ => default end.

Lemma is_ret_from {A} (default : A) m : is_ret m = true -> m = Ret (from_except default m).
Proof. by destruct m. Qed.

Lemma bind_Ret {A B} (m : except A) (f : A -> except B) b :
  m ≫= f = Ret b <-> exists a, m = Ret a /\ f a = Ret b.
Proof. destruct m; simpl; [split; [by eexists|by intros (? & [= ->] & ?)]|split; [done|by intros (? & ? & ?)]]. Qed.

Lemma bind_Throw {A B} (m : except A) (f : A -> except B) what :
  m ≫= f = Throw what <-> m = Throw what \/ exists a, m = Ret a /\ f a = Throw what.
Proof.
  destruct m; simpl; split.
  - intros. right. by eexists.
  - intros [?|(? & [= ->] & ?)]; done.
  - intros [= ->]. by left.
  - by intros [[= ->]|(? & ? & ?)].
Qed.

(** [for (x : xs) out.push_back(f(x))] *)
Fixpoint traverse {A B} (f : A -> except B) (l : list A) : except (list B) :=
  match l with
  | [] => Ret []
  | x :: l => y ← f x; ys ← traverse f l; Ret (y :: ys)
  end.

Lemma traverse_Ret {A B} (f : A -> except B) l k :
  traverse f l = Ret k <-> Forall2 (fun x y => f x = Ret y) l k.
Proof.
  revert k. induction l as [|x l IH]; intros k; simpl.
  - split; [by intros [= <-]|by inversion 1].
  - rewrite bind_Ret. split.
    + intros (y & Hy & H). apply bind_Ret in H as (ys & Hys & [= <-]). constructor; [done|]. by apply IH.
    + inversion 1 as [|? y ? ys Hy Hys]; subst. exists y. split; [done|]. apply bind_Ret.
      exists ys. split; [by apply IH|done].
Qed.

(** A loop whose body throws nowhere. *)
Lemma traverse_id {A} (f : A -> except A) l :
  Forall (fun x => f x = Ret x) l -> traverse f l = Ret l.
Proof. intros H. apply traverse_Ret. induction H; by constructor. Qed.

(** One loop over what another left, when the second changes nothing. *)
Lemma traverse_idempotent {A} (f : A -> except A) l k :
  (forall x y, f x = Ret y -> f y = Ret y) -> traverse f l = Ret k -> traverse f k = Ret k.
Proof.
  intros Hf Hk. apply traverse_id. apply traverse_Ret in Hk.
  induction Hk as [|x y l k Hxy _ IH]; constructor; eauto.
Qed.
