(* ===== verification/Utf8.v ===== *)
(** * Utf8: the byte-level cleaning of a request body

    [strip_invalid_utf8_bytes], [sanitize_request_json_bytes] and
    [try_extract_json_object_slice] of
    src/native/proxy/openai/src/payload_normalizer.cpp. *)

From S2P Require Import Prelude Codec Text.

(** ** [strip_invalid_utf8_bytes] *)

Definition utf8_width (lead : Z) : nat :=
  if (0xC2 <=? lead) && (lead <=? 0xDF) then 2
  else if (0xE0 <=? lead) && (lead <=? 0xEF) then 3
  else if (0xF0 <=? lead) && (lead <=? 0xF4) then 4
  else 0.

Definition is_continuation (ch : Byte.byte) : bool := Z.land (val ch) 0xC0 =? 0x80.

(** The pairs of bytes that would encode a surrogate, an overlong form or a
    value past U+10FFFF. *)
Definition bad_second (lead second : Z) : bool :=
  ((lead =? 0xE0) && (second <? 0xA0)) || ((lead =? 0xED) && (0x9F <? second)) ||
  ((lead =? 0xF0) && (second <? 0x90)) || ((lead =? 0xF4) && (0x8F <? second)).

(** The loop, on the bytes from position [i]; [fuel] bounds its passes. *)
Fixpoint strip_loop (fuel : nat) (input : bytes) : bytes :=
  match fuel, input with
  | S fuel, lead :: rest =>
      if val lead <=? 0x7F then lead :: strip_loop fuel rest
      else
        let width := utf8_width (val lead) in
        if (width =? 0)%nat then strip_loop fuel rest
        else if (length input <? width)%nat then strip_loop fuel rest
        else if negb (forallb is_continuation (take (width - 1) rest)) then strip_loop fuel rest
        else if bad_second (val lead) (val (default Byte.x00 (head rest))) then strip_loop fuel rest
        else take width input ++ strip_loop fuel (drop width input)
  | _, _ => []
  end.

Definition strip_invalid_utf8_bytes (input : bytes) : bytes := strip_loop (length input) input.

(** ** [sanitize_request_json_bytes] *)

Definition is_json_whitespace_byte (value : Z) : bool :=
  (value =? 0x09) || (value =? 0x0A) || (value =? 0x0D) || (value =? 0x20).

Definition is_disallowed_json_control_byte (value : Z) : bool := (value <? 0x20) || (value =? 0x7F).

(** What replaces a control character inside a string. *)
Definition escaped_control (ch : Z) : bytes :=
  if ch =? 8 then $"\b"
  else if ch =? 12 then $"\f"
  else if ch =? 10 then $"\n"
  else if ch =? 13 then $"\r"
  else if ch =? 9 then $"\t"
  else [].

Fixpoint sanitize_request_loop (utf8 : bytes) (in_string escape : bool) : bytes :=
  match utf8 with
  | [] => []
  | ch :: rest =>
      if negb in_string then
        if is_disallowed_json_control_byte (val ch) && negb (is_json_whitespace_byte (val ch))
        then sanitize_request_loop rest in_string escape
        else ch :: sanitize_request_loop rest (if val ch =? 34 then true else false) escape
      else if escape then ch :: sanitize_request_loop rest in_string false
      else if val ch =? 92 then ch :: sanitize_request_loop rest in_string true
      else if val ch =? 34 then ch :: sanitize_request_loop rest false escape
      else if is_disallowed_json_control_byte (val ch)
      then escaped_control (val ch) ++ sanitize_request_loop rest in_string escape
      else ch :: sanitize_request_loop rest in_string escape
  end.

Definition sanitize_request_json_bytes (payload : bytes) : bytes :=
  sanitize_request_loop (strip_invalid_utf8_bytes payload) false false.

(** ** [try_extract_json_object_slice] *)

(** The loop from the first brace: the bytes up to the brace that closes it. *)
Fixpoint extract_loop (payload : bytes) (in_string escape : bool) (depth : Z) : option bytes :=
  match payload with
  | [] => None
  | ch :: rest =>
      if in_string then
        let '(in_string, escape) :=
          if escape then (in_string, false)
          else if val ch =? 92 then (in_string, true)
          else if val ch =? 34 then (false, escape)
          else (in_string, escape) in
        cons ch <$> extract_loop rest in_string escape depth
      else if val ch =? 34 then cons ch <$> extract_loop rest true escape depth
      else if val ch =? 123 then cons ch <$> extract_loop rest in_string escape (depth + 1)
      else if negb (val ch =? 125) then cons ch <$> extract_loop rest in_string escape depth
      else if depth - 1 =? 0 then Some [ch]
      else cons ch <$> extract_loop rest in_string escape (depth - 1)
  end.

Fixpoint from_first_brace (payload : bytes) : bytes :=
  match payload with
  | [] => []
  | ch :: rest => if val ch =? 123 then payload else from_first_brace rest
  end.

Definition try_extract_json_object_slice (payload : bytes) : option bytes :=
  extract_loop (from_first_brace payload) false false 0.

(** ** UTF-8, as RFC 3629 defines it: the encoding of a scalar value *)

Definition is_scalar (c : Z) : Prop := 0 <= c < 0x110000 /\ ~ (0xD800 <= c < 0xE000).

Definition encode_utf8 (c : Z) : bytes :=
  byte_of <$>
    if c <? 0x80 then [c]
    else if c <? 0x800 then [0xC0 + c / 64; 0x80 + c mod 64]
    else if c <? 0x10000 then [0xE0 + c / 4096; 0x80 + c / 64 mod 64; 0x80 + c mod 64]
    else [0xF0 + c / 262144; 0x80 + c / 4096 mod 64; 0x80 + c / 64 mod 64; 0x80 + c mod 64].

Definition valid_utf8 (s : bytes) : Prop :=
  exists cs, Forall is_scalar cs /\ s = concat (encode_utf8 <$> cs).

(** ** Stripping is exact *)

Lemma is_continuation_spec ch : is_continuation ch = true <-> 0x80 <= val ch < 0xC0.
Proof.
  assert (forall b, Bool.eqb (is_continuation b) ((0x80 <=? val b) && (val b <? 0xC0)) = true) as H.
  { intros b. destruct b; reflexivity. }
  specialize (H ch). apply Bool.eqb_prop in H. rewrite H, andb_true_iff, Z.leb_le, Z.ltb_lt. done.
Qed.

Lemma bad_second_spec lead second :
  bad_second lead second = false <->
  (lead = 0xE0 -> 0xA0 <= second) /\ (lead = 0xED -> second <= 0x9F) /\
  (lead = 0xF0 -> 0x90 <= second) /\ (lead = 0xF4 -> second <= 0x8F).
Proof. unfold bad_second. rewrite !orb_false_iff, !andb_false_iff, !Z.eqb_neq, !Z.ltb_ge. lia. Qed.

Lemma val_byte_small z : 0 <= z < 256 -> val (byte_of z) = z.
Proof. intros. rewrite val_byte_of. apply wrap_small. unfold in_uint. lia. Qed.

Lemma byte_of_val_eq b z : val b = z -> byte_of z = b.
Proof. intros <-. apply byte_of_val. Qed.

Lemma cons_eq {A} (x y : A) l k : x = y -> l = k -> x :: l = y :: k.
Proof. by intros -> ->. Qed.

(** The bytes that pass the test of the loop encode a scalar value... *)
Lemma decode_ascii b : val b <= 0x7F -> exists c, is_scalar c /\ encode_utf8 c = [b].
Proof.
  intros H. pose proof (val_range b). exists (val b). split; [unfold is_scalar; lia|].
  unfold encode_utf8. destruct (Z.ltb_spec (val b) 0x80); [|lia]. simpl. by rewrite byte_of_val.
Qed.

Lemma decode_two b0 b1 :
  0xC2 <= val b0 <= 0xDF -> 0x80 <= val b1 < 0xC0 -> exists c, is_scalar c /\ encode_utf8 c = [b0; b1].
Proof.
  intros H0 H1. exists ((val b0 - 0xC0) * 64 + (val b1 - 0x80)). split; [unfold is_scalar; lia|].
  unfold encode_utf8. destruct (Z.ltb_spec ((val b0 - 0xC0) * 64 + (val b1 - 0x80)) 0x80); [lia|].
  destruct (Z.ltb_spec ((val b0 - 0xC0) * 64 + (val b1 - 0x80)) 0x800); [|lia]. simpl.
  do 2 (apply cons_eq; [apply byte_of_val_eq; Z.div_mod_to_equations; lia|]). done.
Qed.

Lemma decode_three b0 b1 b2 :
  0xE0 <= val b0 <= 0xEF -> 0x80 <= val b1 < 0xC0 -> 0x80 <= val b2 < 0xC0 ->
  bad_second (val b0) (val b1) = false -> exists c, is_scalar c /\ encode_utf8 c = [b0; b1; b2].
Proof.
  intros H0 H1 H2 Hb. apply bad_second_spec in Hb.
  set (c := (val b0 - 0xE0) * 4096 + (val b1 - 0x80) * 64 + (val b2 - 0x80)).
  exists c. split; [unfold is_scalar, c; lia|]. unfold encode_utf8.
  destruct (Z.ltb_spec c 0x80); [unfold c in *; lia|]. destruct (Z.ltb_spec c 0x800); [unfold c in *; lia|].
  destruct (Z.ltb_spec c 0x10000); [|unfold c in *; lia]. simpl.
  do 3 (apply cons_eq; [apply byte_of_val_eq; unfold c; Z.div_mod_to_equations; lia|]). done.
Qed.

Lemma decode_four b0 b1 b2 b3 :
  0xF0 <= val b0 <= 0xF4 -> 0x80 <= val b1 < 0xC0 -> 0x80 <= val b2 < 0xC0 -> 0x80 <= val b3 < 0xC0 ->
  bad_second (val b0) (val b1) = false -> exists c, is_scalar c /\ encode_utf8 c = [b0; b1; b2; b3].
Proof.
  intros H0 H1 H2 H3 Hb. apply bad_second_spec in Hb.
  set (c := (val b0 - 0xF0) * 262144 + (val b1 - 0x80) * 4096 + (val b2 - 0x80) * 64 + (val b3 - 0x80)).
  exists c. split; [unfold is_scalar, c; lia|]. unfold encode_utf8.
  destruct (Z.ltb_spec c 0x80); [unfold c in *; lia|]. destruct (Z.ltb_spec c 0x800); [unfold c in *; lia|].
  destruct (Z.ltb_spec c 0x10000); [unfold c in *; lia|]. simpl.
  do 4 (apply cons_eq; [apply byte_of_val_eq; unfold c; Z.div_mod_to_equations; lia|]). done.
Qed.

Lemma valid_utf8_nil : valid_utf8 [].
Proof. by exists []. Qed.

Lemma valid_utf8_cons c s t : is_scalar c -> encode_utf8 c = t -> valid_utf8 s -> valid_utf8 (t ++ s).
Proof.
  intros Hc <- (cs & Hcs & ->). exists (c :: cs). split; [by constructor|]. by rewrite fmap_cons.
Qed.

Lemma strip_loop_valid fuel s : valid_utf8 (strip_loop fuel s).
Proof.
  revert s. induction fuel as [|fuel IH]; intros [|b0 s]; try apply valid_utf8_nil. cbn [strip_loop].
  destruct (Z.leb_spec (val b0) 0x7F).
  { destruct (decode_ascii b0) as (c & Hc & E); [done|]. by apply (valid_utf8_cons c _ [b0]). }
  unfold utf8_width. repeat case_match; bool_hyps; try apply IH; try done;
    repeat match goal with H : (_ <? _)%nat = false |- _ => apply Nat.ltb_ge in H end; simpl in *.
  - destruct s as [|b1 s]; simpl in *; [lia|]. bool_hyps.
    repeat match goal with H : is_continuation _ = true |- _ => apply is_continuation_spec in H end.
    destruct (decode_two b0 b1) as (c & Hc & E); [lia..|]. by apply (valid_utf8_cons c _ [b0; b1]).
  - destruct s as [|b1 [|b2 s]]; simpl in *; [lia..|]. bool_hyps.
    repeat match goal with H : is_continuation _ = true |- _ => apply is_continuation_spec in H end.
    destruct (decode_three b0 b1 b2) as (c & Hc & E); [lia..|done|]. by apply (valid_utf8_cons c _ [b0; b1; b2]).
  - destruct s as [|b1 [|b2 [|b3 s]]]; simpl in *; [lia..|]. bool_hyps.
    repeat match goal with H : is_continuation _ = true |- _ => apply is_continuation_spec in H end.
    destruct (decode_four b0 b1 b2 b3) as (c & Hc & E); [lia..|done|].
    by apply (valid_utf8_cons c _ [b0; b1; b2; b3]).
Qed.

(** ... and the encoding of a scalar value passes it. *)
Lemma strip_accept fuel lead second tail s :
  0x7F < val lead -> utf8_width (val lead) = S (S (length tail)) ->
  forallb is_continuation (second :: tail) = true -> bad_second (val lead) (val second) = false ->
  strip_loop (S fuel) ((lead :: second :: tail) ++ s) = (lead :: second :: tail) ++ strip_loop fuel s.
Proof.
  intros Hl Hw Hc Hb. cbn [strip_loop app]. destruct (Z.leb_spec (val lead) 0x7F); [lia|]. rewrite Hw. simpl Nat.eqb.
  destruct (Nat.ltb_spec (length (lead :: second :: tail ++ s)) (S (S (length tail)))) as [Hlen|_].
  { simpl in Hlen. rewrite length_app in Hlen. lia. }
  replace (take (S (S (length tail)) - 1) (second :: tail ++ s)) with (second :: tail); last first.
  { simpl. by rewrite take_app_length. }
  rewrite Hc. simpl negb. simpl head. simpl default. rewrite Hb.
  simpl. by rewrite take_app_length, drop_app_length.
Qed.

Lemma utf8_width_spec lead n :
  (n = 2%nat /\ 0xC2 <= lead <= 0xDF) \/ (n = 3%nat /\ 0xE0 <= lead <= 0xEF) \/ (n = 4%nat /\ 0xF0 <= lead <= 0xF4) ->
  utf8_width lead = n.
Proof. unfold utf8_width. intros H. repeat case_match; bool_hyps; lia. Qed.

Lemma continuation_byte z : 0x80 <= z < 0xC0 -> is_continuation (byte_of z) = true.
Proof. intros. apply is_continuation_spec. by rewrite val_byte_small by lia. Qed.

Lemma strip_loop_encode fuel c s :
  is_scalar c -> (0 < fuel)%nat ->
  strip_loop fuel (encode_utf8 c ++ s) = encode_utf8 c ++ strip_loop (pred fuel) s.
Proof.
  intros [Hc Hs] Hf. destruct fuel as [|fuel]; [lia|]. simpl pred. unfold encode_utf8.
  destruct (Z.ltb_spec c 0x80).
  { cbn [fmap list_fmap app strip_loop]. rewrite val_byte_small by lia. by destruct (Z.leb_spec c 0x7F); [|lia]. }
  destruct (Z.ltb_spec c 0x800); [|destruct (Z.ltb_spec c 0x10000)]; cbn [fmap list_fmap];
    apply strip_accept; rewrite ?val_byte_small by (Z.div_mod_to_equations; lia);
    try (Z.div_mod_to_equations; lia);
    try (apply utf8_width_spec; simpl; Z.div_mod_to_equations; lia);
    try (cbn [forallb]; rewrite !continuation_byte by (Z.div_mod_to_equations; lia); done);
    apply bad_second_spec; Z.div_mod_to_equations; lia.
Qed.

Lemma encode_utf8_length c : (0 < length (encode_utf8 c))%nat.
Proof. unfold encode_utf8. repeat case_match; simpl; lia. Qed.

Lemma encode_utf8_nonempty c : encode_utf8 c <> [].
Proof. pose proof (encode_utf8_length c) as H. intros E. rewrite E in H. simpl in H. lia. Qed.

Lemma strip_loop_id fuel cs :
  Forall is_scalar cs -> (length cs <= fuel)%nat ->
  strip_loop fuel (concat (encode_utf8 <$> cs)) = concat (encode_utf8 <$> cs).
Proof.
  intros Hcs. revert fuel. induction Hcs as [|c cs Hc Hcs IH]; intros fuel Hf; [by destruct fuel|].
  rewrite fmap_cons, concat_cons, strip_loop_encode by (simpl in Hf; done || lia).
  f_equal. apply IH. simpl in Hf. lia.
Qed.

Lemma concat_encode_length cs : (length cs <= length (concat (encode_utf8 <$> cs)))%nat.
Proof.
  induction cs as [|c cs IH]; [done|]. rewrite fmap_cons, concat_cons, length_app. simpl length.
  pose proof (encode_utf8_length c). lia.
Qed.

Lemma strip_valid s : valid_utf8 s -> strip_invalid_utf8_bytes s = s.
Proof. intros (cs & Hcs & ->). apply strip_loop_id; [done|apply concat_encode_length]. Qed.

(** Stripping leaves well-formed UTF-8, and a body that already is
    well-formed is not touched. *)
Lemma strip_exact s :
  valid_utf8 (strip_invalid_utf8_bytes s) /\ (strip_invalid_utf8_bytes s = s <-> valid_utf8 s).
Proof.
  split; [apply strip_loop_valid|]. split; [intros <-; apply strip_loop_valid|apply strip_valid].
Qed.

(** ** Sanitising *)

Lemma plain_byte ch : 0x80 <= val ch ->
  (val ch =? 92) = false /\ (val ch =? 34) = false /\ is_disallowed_json_control_byte (val ch) = false.
Proof.
  intros. unfold is_disallowed_json_control_byte. rewrite !Z.eqb_neq, orb_false_iff, Z.ltb_ge, Z.eqb_neq. lia.
Qed.

(** Bytes past ASCII are copied; they end an escape. *)
Lemma sanitize_high t s in_string escape :
  t <> [] -> Forall (fun ch => 0x80 <= val ch) t -> (escape = true -> in_string = true) ->
  sanitize_request_loop (t ++ s) in_string escape = t ++ sanitize_request_loop s in_string false.
Proof.
  intros Hne Ht. revert escape Hne. induction Ht as [|ch t Hch Ht IH]; intros escape Hne He; [done|].
  destruct (plain_byte ch Hch) as (H1 & H2 & H3). cbn [app sanitize_request_loop].
  assert (sanitize_request_loop (t ++ s) in_string false = t ++ sanitize_request_loop s in_string false) as Hr.
  { destruct t; [done|]. by apply IH. }
  destruct in_string; simpl negb; cbv iota.
  - destruct escape; rewrite ?H1, ?H2, ?H3; by rewrite Hr.
  - destruct escape; [by specialize (He eq_refl)|]. rewrite H2, H3. simpl. by rewrite Hr.
Qed.

Lemma valid_utf8_ascii ch s : val ch <= 0x7F -> valid_utf8 s -> valid_utf8 (ch :: s).
Proof. intros H. destruct (decode_ascii ch H) as (c & Hc & E). by apply (valid_utf8_cons c _ [ch]). Qed.

Lemma escaped_control_ascii ch s : valid_utf8 s -> valid_utf8 (escaped_control ch ++ s).
Proof.
  intros. unfold escaped_control. repeat case_match; try done;
    (do 2 (apply valid_utf8_ascii; [by vm_compute|]); done).
Qed.

Lemma encode_high c : is_scalar c -> 0x80 <= c -> Forall (fun ch => 0x80 <= val ch) (encode_utf8 c).
Proof.
  intros [Hc _] H. unfold encode_utf8. destruct (Z.ltb_spec c 0x80); [lia|].
  repeat case_match; bool_hyps; cbn [fmap list_fmap]; repeat constructor;
    rewrite val_byte_small; Z.div_mod_to_equations; lia.
Qed.

Lemma sanitize_valid s in_string escape :
  valid_utf8 s -> (escape = true -> in_string = true) ->
  valid_utf8 (sanitize_request_loop s in_string escape).
Proof.
  intros (cs & Hcs & ->). revert in_string escape. induction Hcs as [|c cs Hc Hcs IH]; intros in_string escape He.
  { apply valid_utf8_nil. }
  rewrite fmap_cons, concat_cons. destruct (Z.leb_spec 0x80 c) as [H|H].
  - rewrite sanitize_high; [|apply encode_utf8_nonempty|by apply encode_high|done].
    apply (valid_utf8_cons c); [done|done|]. by apply IH.
  - unfold encode_utf8. destruct (Z.ltb_spec c 0x80); [|lia]. cbn [fmap list_fmap app sanitize_request_loop].
    assert (val (byte_of c) <= 0x7F) as Hb by (destruct Hc; rewrite val_byte_small; lia).
    destruct in_string; simpl negb; cbv iota.
    + repeat case_match; first [apply escaped_control_ascii|by apply valid_utf8_ascii; auto]; auto.
    + destruct escape; [by specialize (He eq_refl)|].
      case_match; [by apply IH|]. apply valid_utf8_ascii; [done|]. apply IH. by case_match.
Qed.

(** What a pass wrote, a second pass copies. *)
Lemma sanitize_loop_idem s in_string escape :
  (escape = true -> in_string = true) ->
  sanitize_request_loop (sanitize_request_loop s in_string escape) in_string escape =
  sanitize_request_loop s in_string escape.
Proof.
  revert in_string escape. induction s as [|ch s IH]; intros in_string escape He; [done|].
  cbn [sanitize_request_loop]. destruct in_string; simpl negb; cbv iota.
  - destruct escape; [cbn [sanitize_request_loop negb]; by rewrite IH|].
    destruct (val ch =? 92) eqn:E1; [cbn [sanitize_request_loop negb]; rewrite E1; by rewrite IH|].
    destruct (val ch =? 34) eqn:E2; [cbn [sanitize_request_loop negb]; rewrite E1, E2; by rewrite IH|].
    destruct (is_disallowed_json_control_byte (val ch)) eqn:E3.
    + unfold escaped_control.
      repeat case_match; try (cbn [app]; by apply IH);
        (change (str ?x ++ ?y) with (Byte.x5c :: default Byte.x00 (str x !! 1%nat) :: y);
         cbn [sanitize_request_loop negb lookup list_lookup default str];
         change (val Byte.x5c =? 92) with true; cbv iota; by rewrite IH).
    + cbn [sanitize_request_loop negb]. rewrite E1, E2, E3. by rewrite IH.
  - destruct escape; [by specialize (He eq_refl)|].
    destruct (is_disallowed_json_control_byte (val ch) && negb (is_json_whitespace_byte (val ch))) eqn:E; [by apply IH|].
    cbn [sanitize_request_loop negb]. rewrite E. f_equal. apply IH. by case_match.
Qed.

(** The bytes handed to the JSON parser are well-formed UTF-8 and in a normal
    form: cleaning them again changes nothing. A body that was well-formed
    loses no byte to the UTF-8 stage, and any other loses only what is not
    part of an encoded scalar value. *)
Theorem sanitize_request_normal_form payload :
  let s := sanitize_request_json_bytes payload in
  valid_utf8 s /\
  sanitize_request_json_bytes s = s /\
  (strip_invalid_utf8_bytes payload = payload <-> valid_utf8 payload).
Proof.
  intros s. assert (valid_utf8 s) as Hv by (apply sanitize_valid; [apply strip_loop_valid|done]).
  split; [done|]. split; [|apply strip_exact].
  unfold sanitize_request_json_bytes at 1. rewrite (strip_valid s Hv). by apply sanitize_loop_idem.
Qed.

(** ** The object slice *)

Lemma extract_loop_prefix payload in_string escape depth slice :
  extract_loop payload in_string escape depth = Some slice ->
  exists post, payload = slice ++ post.
Proof.
  revert in_string escape depth slice.
  induction payload as [|ch payload IH]; intros in_string escape depth slice; cbn [extract_loop]; [done|].
  intros E.
  assert (forall i e d, cons ch <$> extract_loop payload i e d = Some slice ->
            exists post, ch :: payload = slice ++ post) as Hc.
  { intros i e d Hf. apply fmap_Some in Hf as (t & Ht & ->). apply IH in Ht as [post ->]. by exists post. }
  repeat case_match; simplify_eq; eauto.
Qed.

Lemma from_first_brace_suffix payload :
  exists pre, payload = pre ++ from_first_brace payload /\ Forall (fun ch => val ch <> 123) pre.
Proof.
  induction payload as [|ch payload (pre & E & Hp)]; [by exists []|]. simpl.
  destruct (val ch =? 123) eqn:Ec; [by exists []|]. exists (ch :: pre). simpl. rewrite <- E.
  split; [done|]. constructor; [by apply Z.eqb_neq|done].
Qed.

(** The slice taken out of a body that is not JSON as a whole is a piece of
    it that starts at its first opening brace. *)
Lemma extracted_slice payload slice :
  try_extract_json_object_slice payload = Some slice ->
  exists pre post, payload = pre ++ slice ++ post /\ Forall (fun ch => val ch <> 123) pre /\
    head slice = Some Byte.x7b.
Proof.
  unfold try_extract_json_object_slice. intros E. pose proof E as E'.
  destruct (from_first_brace_suffix payload) as (pre & Hp & Hf). apply extract_loop_prefix in E as [post E].
  exists pre, post. rewrite <- E. split; [done|]. split; [done|].
  clear - E E' Hp. destruct slice as [|ch slice].
  - destruct (from_first_brace payload) as [|ch p]; [done|]. cbn [extract_loop] in E'.
    repeat case_match; simplify_eq; try (by apply fmap_Some in E' as (? & _ & ?)); done.
  - simpl. f_equal. apply val_inj.
    assert (forall p, match from_first_brace p with c :: _ => val c = 123 | [] => True end) as Hb.
    { induction p as [|c p IH]; simpl; [done|]. destruct (val c =? 123) eqn:Ec; [by apply Z.eqb_eq|done]. }
    specialize (Hb payload). rewrite E in Hb. by simpl in Hb.
Qed.
