(* ===== verification/PayloadNormalizer.v ===== *)
(** * PayloadNormalizer: the shape of a request before it goes upstream

    src/native/proxy/openai/src/payload_normalizer.cpp,
    payload_normalizer_input.cpp, payload_normalizer_policy.cpp and
    include/openai/internal/payload_normalizer_detail.h: the fields of a
    request are checked, defaulted, renamed and stripped; a request that
    cannot be brought into shape ends in an exception. *)

From S2P Require Import Prelude Text JsonValue Except Utf8.
Import Text.Ascii.

(** ** include/openai/internal/payload_normalizer_detail.h *)

Definition kUnsupportedUpstreamFields : list bytes :=
  [$"max_output_tokens"; $"prompt_cache_retention"; $"safety_identifier"; $"temperature"].

Definition kInterleavedReasoningKeys : list bytes :=
  [$"reasoning_content"; $"reasoning_details"; $"tool_calls"; $"function_call"].

Definition kInterleavedReasoningPartTypes : list bytes :=
  [$"reasoning"; $"reasoning_content"; $"reasoning_details"].

Definition kAssistantTextPartTypes : list bytes := [$"text"; $"input_text"; $"output_text"].

Definition contains_string (values : list bytes) (candidate : bytes) : bool :=
  existsb (fun value => bool_decide (value = candidate)) values.

(** The popped field, and the object without it. *)
Definition pop_field (object : JsonObject) (key : bytes) : option Json * JsonObject :=
  (object !! key, delete key object).

Definition pop_string_field (object : JsonObject) (key : bytes) : option bytes * JsonObject :=
  let '(value, object) := pop_field object key in
  (match value with Some (JString s) => Some s | _ => None end, object).

Definition normalize_service_tier_alias (service_tier : bytes) : bytes :=
  if equals_case_insensitive (trim_ascii service_tier) $"fast" then $"priority" else service_tier.

Definition normalize_tool_type_alias (tool_type : bytes) : bytes :=
  if bool_decide (tool_type = $"web_search_preview") then $"web_search" else tool_type.

(** ** openai/src/payload_normalizer_input.cpp *)

Definition text_part (type text : bytes) : Json :=
  JObject (make_object [($"type", JString type); ($"text", JString text)]).

Definition normalized_input_text (text : bytes) : JsonArray :=
  [JObject (make_object
     [($"role", JString $"user");
      ($"content", JArray [JObject (make_object [($"type", JString $"input_text"); ($"text", JString text)])])])].

Definition is_assistant_role (role : bytes) : bool := bool_decide (role = $"assistant").

Definition is_input_text_role (role : bytes) : bool :=
  bool_decide (role = $"user") || bool_decide (role = $"system") || bool_decide (role = $"developer").

Definition text_part_type_for_role (role : bytes) : bytes :=
  if is_assistant_role role then $"output_text" else $"input_text".

Definition is_input_file_with_id (object : JsonObject) : bool :=
  match string_at object $"type" with
  | Some type =>
      if negb (bool_decide (type = $"input_file")) then false
      else match string_at object $"file_id" with
           | Some file_id => negb (bool_decide (file_id = []))
           | None => false
           end
  | None => false
  end.

Definition part_has_file_id (part : Json) : bool :=
  match part with JObject object => is_input_file_with_id object | _ => false end.

Definition item_has_file_id (item : Json) : bool :=
  match item with
  | JObject item_object =>
      if is_input_file_with_id item_object then true
      else match item_object !! $"content" with
           | Some (JArray parts) => existsb part_has_file_id parts
           | Some (JObject object) => is_input_file_with_id object
           | _ => false
           end
  | _ => false
  end.

Definition has_input_file_id (input_items : JsonArray) : bool := existsb item_has_file_id input_items.

Definition erase_keys (keys : list bytes) (object : JsonObject) : JsonObject :=
  foldl (fun object key => delete key object) object keys.

Definition sanitize_interleaved_reasoning_content_part (part : Json) : option Json :=
  match part with
  | JObject part_object =>
      if match string_at part_object $"type" with
         | Some part_type => contains_string kInterleavedReasoningPartTypes part_type
         | None => false
         end
      then None
      else Some (JObject (erase_keys kInterleavedReasoningKeys part_object))
  | _ => Some part
  end.

Definition sanitize_interleaved_reasoning_content (content : Json) : option Json :=
  match content with
  | JArray parts => Some (JArray (omap sanitize_interleaved_reasoning_content_part parts))
  | JObject _ => sanitize_interleaved_reasoning_content_part content
  | _ => Some content
  end.

Definition extract_text_content_part (part : Json) (allowed_types : list bytes) (allow_refusal : bool) : option bytes :=
  match part with
  | JObject part_object =>
      let type := string_at part_object $"type" in
      let text := string_at part_object $"text" in
      match text with
      | Some _ =>
          if match type with Some type => contains_string allowed_types type | None => true end then text
          else if allow_refusal && bool_decide (type = Some $"refusal") then string_at part_object $"refusal"
          else None
      | None =>
          if allow_refusal && bool_decide (type = Some $"refusal") then string_at part_object $"refusal" else None
      end
  | _ => None
  end.

(** The body of the loop over the parts of a message. *)
Definition normalize_part (part_type : bytes) (part : Json) : Json :=
  match part with
  | JString text => text_part part_type text
  | _ => match extract_text_content_part part kAssistantTextPartTypes false with
         | Some text => text_part part_type text
         | None => part
         end
  end.

Definition normalize_message_content_for_role (content : Json) (role : bytes) : Json :=
  let part_type := text_part_type_for_role role in
  match content with
  | JString text => JArray [text_part part_type text]
  | JArray parts => JArray (normalize_part part_type <$> parts)
  | JObject _ =>
      JArray [match extract_text_content_part content kAssistantTextPartTypes false with
              | Some text => text_part part_type text
              | None => content
              end]
  | _ => content
  end.

Definition nonempty_string (object : JsonObject) (key : bytes) : option bytes :=
  match string_at object key with Some ((_ :: _) as value) => Some value | _ => None end.

Definition resolve_tool_call_id (object : JsonObject) : option bytes :=
  match nonempty_string object $"tool_call_id" with
  | Some value => Some value
  | None =>
      match nonempty_string object $"toolCallId" with
      | Some value => Some value
      | None => nonempty_string object $"call_id"
      end
  end.

(** The output of a tool: its [output] unless that is null, else its
    [content]; null counts as an empty text. *)
Definition tool_output (item_object : JsonObject) : Json :=
  let source :=
    match item_object !! $"output" with
    | Some JNull | None => item_object !! $"content"
    | Some output => Some output
    end in
  match source with None | Some JNull => JString [] | Some output => output end.

Definition normalize_role_input_item (item : Json) : except Json :=
  match item with
  | JObject item_object =>
      match string_at item_object $"role" with
      | None => Ret item
      | Some role =>
          if is_assistant_role role || is_input_text_role role then
            match item_object !! $"content" with
            | Some content =>
                Ret (JObject (<[$"content" := normalize_message_content_for_role content role]> item_object))
            | None => Ret item
            end
          else if negb (bool_decide (role = $"tool")) then Ret item
          else
            match resolve_tool_call_id item_object with
            | None => Throw $"tool input items must include 'tool_call_id'"
            | Some call_id =>
                Ret (JObject (make_object
                  [($"type", JString $"function_call_output"); ($"call_id", JString call_id);
                   ($"output", tool_output item_object)]))
            end
      end
  | _ => Ret item
  end.

(** What the copy loop of [sanitize_input_items] keeps of one field. *)
Definition sanitize_item_field (key : bytes) (value : Json) : option Json :=
  if contains_string kInterleavedReasoningKeys key then None
  else if bool_decide (key = $"content") then sanitize_interleaved_reasoning_content value
  else Some value.

Definition sanitize_input_item (item : Json) : except Json :=
  match item with
  | JObject object => normalize_role_input_item (JObject (map_imap sanitize_item_field object))
  | _ => normalize_role_input_item item
  end.

Definition sanitize_input_items (input_items : JsonArray) : except JsonArray :=
  traverse sanitize_input_item input_items.

Definition normalize_input_field (payload : JsonObject) : except JsonObject :=
  match payload !! $"input" with
  | None => Throw $"request payload missing required field: input"
  | Some input =>
      items ← match input with
              | JString text => Ret (normalized_input_text text)
              | JArray items => Ret items
              | _ => Throw $"request payload field 'input' must be a string or array"
              end;
      if has_input_file_id items then Throw $"input_file.file_id is not supported"
      else items ← sanitize_input_items items; Ret (<[$"input" := JArray items]> payload)
  end.

(** [payload[key] = value] when the field is not there. *)
Definition default_field (key : bytes) (value : Json) (payload : JsonObject) : JsonObject :=
  if has_field payload key then payload else <[key := value]> payload.

(** A field that is a boolean in the end: missing and null count as
    [value]. *)
Definition boolean_field (key : bytes) (value : bool) (what : bytes) (payload : JsonObject) : except JsonObject :=
  let payload := default_field key (JBool value) payload in
  match payload !! key with
  | Some JNull => Ret (<[key := JBool value]> payload)
  | Some (JBool _) => Ret payload
  | _ => Throw what
  end.

Definition normalize_request_base_fields (payload : JsonObject) (compact_mode : bool) : except JsonObject :=
  match nonempty_string payload $"model" with
  | None => Throw $"request payload missing required field: model"
  | Some _ =>
      payload ← normalize_input_field payload;
      let payload := match string_at payload $"instructions" with
                     | None => <[$"instructions" := JString []]> payload
                     | Some _ => payload
                     end in
      let payload := if negb compact_mode then default_field $"tools" (JArray []) payload else payload in
      let payload := if negb compact_mode then default_field $"include" (JArray []) payload else payload in
      let payload := default_field $"store" (JBool false) payload in
      if negb compact_mode then
        payload ← boolean_field $"stream" true $"stream must be a boolean" payload;
        payload ← boolean_field $"parallel_tool_calls" false $"parallel_tool_calls must be a boolean" payload;
        Ret (default_field $"tool_choice" (JString $"auto") payload)
      else Ret payload
  end.

(** ** openai/src/payload_normalizer_policy.cpp *)

(** [if (value && !map.contains(key)) map[key] = *value;] *)
Definition set_missing (value : option bytes) (key : bytes) (object : JsonObject) : JsonObject :=
  match value with
  | Some s => default_field key (JString s) object
  | None => object
  end.

Definition set_nonempty (key : bytes) (map payload : JsonObject) : JsonObject :=
  if bool_decide (map = ∅) then payload else <[key := JObject map]> payload.

Definition normalize_openai_compatible_aliases (payload : JsonObject) : JsonObject :=
  let '(reasoning_effort, payload) := pop_string_field payload $"reasoningEffort" in
  let '(reasoning_summary, payload) := pop_string_field payload $"reasoningSummary" in
  let '(text_verbosity, payload) := pop_string_field payload $"textVerbosity" in
  let '(top_level_verbosity, payload) := pop_string_field payload $"verbosity" in
  let '(prompt_cache_key, payload) := pop_string_field payload $"promptCacheKey" in
  let '(prompt_cache_retention, payload) := pop_string_field payload $"promptCacheRetention" in
  let payload := set_missing prompt_cache_key $"prompt_cache_key" payload in
  let payload := set_missing prompt_cache_retention $"prompt_cache_retention" payload in
  let reasoning_map := default ∅ (object_at payload $"reasoning") in
  let reasoning_map := set_missing reasoning_effort $"effort" reasoning_map in
  let reasoning_map := set_missing reasoning_summary $"summary" reasoning_map in
  let payload := set_nonempty $"reasoning" reasoning_map payload in
  let text_map := default ∅ (object_at payload $"text") in
  let text_map := set_missing text_verbosity $"verbosity" text_map in
  let text_map := set_missing top_level_verbosity $"verbosity" text_map in
  set_nonempty $"text" text_map payload.

Definition validate_and_normalize_store (payload : JsonObject) : except JsonObject :=
  match payload !! $"store" with
  | None | Some JNull => Ret (<[$"store" := JBool false]> payload)
  | Some (JBool _) => Ret payload
  | Some _ => Throw $"store must be a boolean"
  end.

Definition validate_and_normalize_include (payload : JsonObject) : except JsonObject :=
  match payload !! $"include" with
  | None => Ret payload
  | Some JNull => Ret (<[$"include" := JArray []]> payload)
  | Some (JArray values) =>
      if forallb is_string values then Ret payload else Throw $"include values must be strings"
  | Some _ => Throw $"include must be an array"
  end.

Definition normalize_tool_object (object : JsonObject) : JsonObject :=
  match string_at object $"type" with
  | Some type => <[$"type" := JString (normalize_tool_type_alias type)]> object
  | None => object
  end.

Definition normalize_tool (tool : Json) : Json :=
  match tool with JObject object => JObject (normalize_tool_object object) | _ => tool end.

Definition validate_and_normalize_tools (payload : JsonObject) : except JsonObject :=
  match payload !! $"tools" with
  | None => Ret payload
  | Some JNull => Ret (<[$"tools" := JArray []]> payload)
  | Some (JArray tools) =>
      let payload := <[$"tools" := JArray (normalize_tool <$> tools)]> payload in
      match payload !! $"tool_choice" with
      | Some (JObject choice_object) =>
          Ret (<[$"tool_choice" := JObject (normalize_tool_object choice_object)]> payload)
      | _ => Ret payload
      end
  | Some _ => Throw $"tools must be an array"
  end.

Definition validate_and_normalize_responses_fields (payload : JsonObject) : except JsonObject :=
  let payload := match payload !! $"truncation" with
                 | Some JNull => delete $"truncation" payload
                 | _ => payload
                 end in
  payload ←
    match payload !! $"previous_response_id" with
    | None => Ret payload
    | Some JNull => Ret (delete $"previous_response_id" payload)
    | Some (JString s) =>
        let trimmed := trim_ascii s in
        if bool_decide (trimmed = []) then Ret (delete $"previous_response_id" payload)
        else Ret (<[$"previous_response_id" := JString trimmed]> payload)
    | Some _ => Throw $"previous_response_id must be a string"
    end;
  match nonempty_string payload $"conversation", nonempty_string payload $"previous_response_id" with
  | Some _, Some _ => Throw $"Provide either 'conversation' or 'previous_response_id', not both."
  | _, _ => Ret payload
  end.

(** ** openai/src/payload_normalizer.cpp *)

Definition kAllowedCompactFields : list bytes :=
  [$"model"; $"input"; $"instructions"; $"tools"; $"parallel_tool_calls"; $"reasoning"; $"text"].

(** One pass of the loop over the keys [reasoning] and [text]. *)
Definition compact_object_field (key : bytes) (object : JsonObject) : except JsonObject :=
  match object !! key with
  | None | Some (JObject _) => Ret object
  | Some JNull => Ret (delete key object)
  | Some _ => Throw (key ++ $" must be an object")
  end.

Definition normalize_compact_contract_fields (object : JsonObject) : except JsonObject :=
  object ← match object !! $"tools" with
           | None => Ret (<[$"tools" := JArray []]> object)
           | Some (JArray _) => Ret object
           | Some _ => Throw $"tools must be an array"
           end;
  object ← match object !! $"parallel_tool_calls" with
           | None | Some JNull => Ret (<[$"parallel_tool_calls" := JBool false]> object)
           | Some (JBool _) => Ret object
           | Some _ => Throw $"parallel_tool_calls must be a boolean"
           end;
  object ← compact_object_field $"reasoning" object;
  object ← compact_object_field $"text" object;
  Ret (filter (fun kv : bytes * Json => kv.1 ∈ kAllowedCompactFields) object).

Definition normalize_service_tier (object : JsonObject) : JsonObject :=
  match string_at object $"service_tier" with
  | Some tier => <[$"service_tier" := JString (normalize_service_tier_alias tier)]> object
  | None => object
  end.

(** The part of [normalize_with_strategy] between parsing and writing. *)
Definition normalize_object (object : JsonObject) (compact_mode : bool) : except JsonObject :=
  object ← normalize_request_base_fields object compact_mode;
  let object := normalize_openai_compatible_aliases object in
  object ← (if compact_mode then Ret (delete $"store" object) else validate_and_normalize_store object);
  object ← (if negb compact_mode then
              object ← validate_and_normalize_include object;
              object ← validate_and_normalize_tools object;
              validate_and_normalize_responses_fields object
            else Ret object);
  let object := if negb compact_mode then normalize_service_tier object else object in
  let object := erase_keys kUnsupportedUpstreamFields object in
  if compact_mode then normalize_compact_contract_fields object else Ret object.

(** The parse of the body, with its second chance on the object slice. *)
Definition parse_request `{JsonCodec} (raw_request_body : bytes) : except Json :=
  let candidate := sanitize_request_json_bytes raw_request_body in
  match read_json candidate with
  | Some payload => Ret payload
  | None =>
      let candidate := match try_extract_json_object_slice candidate with
                       | Some extracted => sanitize_request_json_bytes extracted
                       | None => candidate
                       end in
      match read_json candidate with
      | Some payload => Ret payload
      | None => Throw $"request payload is not valid JSON"
      end
  end.

Definition normalize_with_strategy `{JsonCodec} (raw_request_body : bytes) (compact_mode : bool) : except bytes :=
  payload ← parse_request raw_request_body;
  match payload with
  | JObject object =>
      object ← normalize_object object compact_mode;
      match write_json (JObject object) with
      | Some serialized => Ret (Text.Json.sanitize_serialized_json serialized)
      | None => Throw $"failed to serialize normalized request payload"
      end
  | _ => Throw $"request payload must be a JSON object"
  end.

Definition normalize_request `{JsonCodec} (raw_request_body : bytes) : except bytes :=
  normalize_with_strategy raw_request_body false.

Definition normalize_compact_request `{JsonCodec} (raw_request_body : bytes) : except bytes :=
  normalize_with_strategy raw_request_body true.

(** ** Which fields a step touches *)

Definition touches (keys : list bytes) (before after : JsonObject) : Prop :=
  forall key, contains_string keys key = false -> after !! key = before !! key.

Lemma contains_string_false keys key : contains_string keys key = false <-> key ∉ keys.
Proof.
  unfold contains_string. induction keys as [|k keys IH]; simpl; [split; [intros _; apply not_elem_of_nil|done]|].
  rewrite orb_false_iff, bool_decide_eq_false, IH, not_elem_of_cons. split; intros [? ?]; split; congruence.
Qed.

Lemma contains_string_true keys key : contains_string keys key = true <-> key ∈ keys.
Proof.
  destruct (contains_string keys key) eqn:E; [|apply contains_string_false in E; done].
  split; [intros _|done]. destruct (decide (key ∈ keys)) as [|Hn]; [done|].
  apply contains_string_false in Hn. congruence.
Qed.

Lemma touches_refl keys o : touches keys o o.
Proof. done. Qed.

Lemma touches_trans keys o1 o2 o3 : touches keys o1 o2 -> touches keys o2 o3 -> touches keys o1 o3.
Proof. intros H1 H2 k Hk. by rewrite H2, H1. Qed.

Lemma touches_weaken keys keys' o1 o2 :
  Forall (fun k => contains_string keys' k = true) keys -> touches keys o1 o2 -> touches keys' o1 o2.
Proof.
  intros Hs H k Hk. apply H. apply contains_string_false. apply contains_string_false in Hk.
  intros Hin. apply Hk. rewrite Forall_forall in Hs. by apply contains_string_true, Hs.
Qed.

Lemma touches_insert keys key v o : contains_string keys key = true -> touches keys o (<[key := v]> o).
Proof.
  intros Hc k Hk. apply lookup_insert_ne. intros ->. congruence.
Qed.

Lemma touches_delete keys key o : contains_string keys key = true -> touches keys o (delete key o).
Proof.
  intros Hc k Hk. apply lookup_delete_ne. intros ->. congruence.
Qed.

Lemma touches_default_field key v o : touches [key] o (default_field key v o).
Proof.
  unfold default_field. case_match; [done|]. apply touches_insert. simpl. by rewrite bool_decide_true.
Qed.

Lemma touches_erase keys o : touches keys o (erase_keys keys o).
Proof.
  intros k. unfold erase_keys. revert o. induction keys as [|key keys IH]; intros o; simpl; [done|].
  rewrite orb_false_iff, bool_decide_eq_false. intros [Hk Hks]. rewrite IH by done.
  by rewrite lookup_delete_ne.
Qed.

Lemma lookup_erase keys o k : contains_string keys k = true -> erase_keys keys o !! k = None.
Proof.
  unfold erase_keys. revert o. induction keys as [|key keys IH]; intros o; simpl; [done|].
  intros H. destruct (contains_string keys k) eqn:E; [by apply IH|].
  rewrite orb_false_r, bool_decide_eq_true in H. subst key.
  pose proof (touches_erase keys (delete k o) k E) as Ht. unfold erase_keys in Ht. rewrite Ht.
  apply lookup_delete_eq.
Qed.

Lemma erase_keys_id keys o :
  Forall (fun k => o !! k = None) keys -> erase_keys keys o = o.
Proof.
  unfold erase_keys. revert o. induction keys as [|key keys IH]; intros o Hn; simpl; [done|].
  apply Forall_cons in Hn as [Hk Hn]. rewrite delete_id by done. by apply IH.
Qed.

(** ** What each step leaves *)

Section steps.

Definition is_text (j : option Json) : Prop := exists s, j = Some (JString s).
Definition is_bool (j : option Json) : Prop := exists b, j = Some (JBool b).

Lemma boolean_field_spec key value what o o' :
  boolean_field key value what o = Ret o' -> touches [key] o o' /\ is_bool (o' !! key).
Proof.
  unfold boolean_field. intros E. pose proof (touches_default_field key (JBool value) o) as Ht.
  assert (contains_string [key] key = true) as Hk by (simpl; by rewrite bool_decide_true).
  destruct (default_field key (JBool value) o !! key) as [[]|] eqn:El; simplify_eq.
  - split; [eapply touches_trans; [exact Ht|by apply touches_insert]|]. rewrite lookup_insert_eq. by eexists.
  - split; [done|]. rewrite El. by eexists.
Qed.

Lemma default_field_there key v o : is_Some (default_field key v o !! key).
Proof.
  unfold default_field. case_match eqn:E; [by apply has_field_spec|]. rewrite lookup_insert_eq. by eexists.
Qed.

Lemma store_spec o o' :
  validate_and_normalize_store o = Ret o' -> touches [$"store"] o o' /\ is_bool (o' !! $"store").
Proof.
  unfold validate_and_normalize_store. intros E. destruct (o !! $"store") as [[]|] eqn:El; simplify_eq.
  - split; [by apply touches_insert|]. rewrite lookup_insert_eq. by eexists.
  - split; [done|]. rewrite El. by eexists.
  - split; [by apply touches_insert|]. rewrite lookup_insert_eq. by eexists.
Qed.

Definition include_ok (j : option Json) : Prop :=
  exists values, j = Some (JArray values) /\ forallb is_string values = true.

Lemma include_spec o o' :
  validate_and_normalize_include o = Ret o' -> is_Some (o !! $"include") ->
  touches [$"include"] o o' /\ include_ok (o' !! $"include").
Proof.
  unfold validate_and_normalize_include. intros E [j Hj]. rewrite Hj in E. destruct j; simplify_eq.
  - split; [by apply touches_insert|]. rewrite lookup_insert_eq. by eexists.
  - destruct (forallb is_string l) eqn:Ef; simplify_eq. split; [done|]. rewrite Hj. by eexists.
Qed.

Lemma normalize_tool_type_alias_idem t :
  normalize_tool_type_alias (normalize_tool_type_alias t) = normalize_tool_type_alias t.
Proof.
  unfold normalize_tool_type_alias. destruct (decide (t = $"web_search_preview")) as [->|H]; [done|].
  by rewrite !(bool_decide_false _ H).
Qed.

Lemma normalize_tool_object_idem o : normalize_tool_object (normalize_tool_object o) = normalize_tool_object o.
Proof.
  unfold normalize_tool_object. destruct (string_at o $"type") as [t|] eqn:E; [|by rewrite E].
  by rewrite string_at_insert_eq, insert_insert_eq, normalize_tool_type_alias_idem.
Qed.

Lemma normalize_tool_idem t : normalize_tool (normalize_tool t) = normalize_tool t.
Proof. destruct t; simpl; try done. by rewrite normalize_tool_object_idem. Qed.

Definition tools_ok (j : option Json) : Prop :=
  exists tools, j = Some (JArray tools) /\ normalize_tool <$> tools = tools.

Definition tool_choice_ok (choice : option Json) : Prop :=
  match choice with Some (JObject object) => normalize_tool_object object = object | _ => True end.

Lemma tools_spec o o' :
  validate_and_normalize_tools o = Ret o' -> is_Some (o !! $"tools") -> is_Some (o !! $"tool_choice") ->
  touches [$"tools"; $"tool_choice"] o o' /\ tools_ok (o' !! $"tools") /\ is_Some (o' !! $"tool_choice") /\
  (o !! $"tools" <> Some JNull -> tool_choice_ok (o' !! $"tool_choice")).
Proof.
  unfold validate_and_normalize_tools. intros E [j Hj] [c Hc]. rewrite Hj in E. destruct j as [| | | |l|]; simplify_eq.
  - split; [by apply touches_insert|]. rewrite lookup_insert_eq, lookup_insert_ne by done.
    split; [by exists []|]. split; [by rewrite Hc|done].
  - rewrite lookup_insert_ne in E by done. rewrite Hc in E.
    assert (tools_ok (Some (JArray (normalize_tool <$> l)))) as Ht.
    { eexists. split; [done|]. rewrite <- list_fmap_compose. apply list_fmap_ext. intros. apply normalize_tool_idem. }
    destruct c; simplify_eq; rewrite ?lookup_insert_eq, ?lookup_insert_ne, ?lookup_insert_eq by done;
      try (rewrite Hc; split; [by apply touches_insert|done]).
    split; [eapply touches_trans; by apply touches_insert|]. split; [done|]. split; [by eexists|].
    intros _. simpl. apply normalize_tool_object_idem.
Qed.

Definition previous_ok (j : option Json) : Prop :=
  match j with None => True | Some j => exists s, j = JString s /\ s <> [] /\ trim_ascii s = s end.

Lemma responses_spec o o' :
  validate_and_normalize_responses_fields o = Ret o' ->
  touches [$"truncation"; $"previous_response_id"] o o' /\
  o' !! $"truncation" <> Some JNull /\ previous_ok (o' !! $"previous_response_id") /\
  ~ (is_Some (nonempty_string o' $"conversation") /\ is_Some (nonempty_string o' $"previous_response_id")).
Proof.
  unfold validate_and_normalize_responses_fields.
  set (o1 := match o !! $"truncation" with Some JNull => delete $"truncation" o | _ => o end).
  assert (touches [$"truncation"; $"previous_response_id"] o o1 /\ o1 !! $"truncation" <> Some JNull) as [H1 H2].
  { unfold o1. destruct (o !! $"truncation") as [[]|] eqn:E; rewrite ?E; try done.
    split; [by apply touches_delete|]. by rewrite lookup_delete_eq. }
  clearbody o1. intros E. apply bind_Ret in E as (o2 & E2 & E).
  assert (o' = o2 /\ ~ (is_Some (nonempty_string o2 $"conversation") /\ is_Some (nonempty_string o2 $"previous_response_id")))
    as [-> Hc].
  { destruct (nonempty_string o2 $"conversation"), (nonempty_string o2 $"previous_response_id"); simplify_eq;
      (split; [done|]); intros [[? ?] [? ?]]; done. }
  cut (touches [$"truncation"; $"previous_response_id"] o1 o2 /\ o2 !! $"truncation" = o1 !! $"truncation" /\
       previous_ok (o2 !! $"previous_response_id")).
  { intros (? & Ht & ?). rewrite Ht. split; [by eapply touches_trans|done]. }
  destruct (o1 !! $"previous_response_id") as [[| | |s| |]|] eqn:Ep; simplify_eq.
  - split; [by apply touches_delete|]. by rewrite lookup_delete_eq, lookup_delete_ne.
  - cbv zeta in E2. case_bool_decide as Et; simplify_eq.
    + split; [by apply touches_delete|]. by rewrite lookup_delete_eq, lookup_delete_ne.
    + split; [by apply touches_insert|]. rewrite lookup_insert_eq, lookup_insert_ne by done.
      split; [done|]. eexists. split; [done|]. split; [done|apply trim_ascii_idem].
  - by rewrite Ep.
Qed.

Definition tier_ok (j : option Json) : Prop :=
  match j with Some (JString s) => normalize_service_tier_alias s = s | _ => True end.

Lemma tier_spec o : touches [$"service_tier"] o (normalize_service_tier o) /\ tier_ok (normalize_service_tier o !! $"service_tier").
Proof.
  unfold normalize_service_tier. destruct (string_at o $"service_tier") as [t|] eqn:E.
  - split; [by apply touches_insert|]. rewrite lookup_insert_eq. simpl. unfold normalize_service_tier_alias.
    destruct (equals_case_insensitive (trim_ascii t) $"fast") eqn:Ef; [done|by rewrite Ef].
  - split; [done|]. unfold string_at in E. by destruct (o !! $"service_tier") as [[]|].
Qed.

Definition kAliasKeys : list bytes :=
  [$"reasoningEffort"; $"reasoningSummary"; $"textVerbosity"; $"verbosity"; $"promptCacheKey"; $"promptCacheRetention"].

Lemma touches_set_missing value key o : touches [key] o (set_missing value key o).
Proof. destruct value; [apply touches_default_field|done]. Qed.

Lemma touches_set_nonempty key m o : touches [key] o (set_nonempty key m o).
Proof.
  unfold set_nonempty. case_bool_decide; [done|]. apply touches_insert. simpl. by rewrite bool_decide_true.
Qed.

Definition kAliasTargets : list bytes := [$"prompt_cache_key"; $"prompt_cache_retention"; $"reasoning"; $"text"].

Lemma touches_alias_targets v1 v2 m3 m4 o :
  touches kAliasTargets o
    (set_nonempty $"text" m4 (set_nonempty $"reasoning" m3
      (set_missing v2 $"prompt_cache_retention" (set_missing v1 $"prompt_cache_key" o)))).
Proof.
  eapply touches_trans; [|eapply touches_weaken; [|apply touches_set_nonempty]; by repeat constructor].
  eapply touches_trans; [|eapply touches_weaken; [|apply touches_set_nonempty]; by repeat constructor].
  eapply touches_trans; [|eapply touches_weaken; [|apply touches_set_missing]; by repeat constructor].
  eapply touches_weaken; [|apply touches_set_missing]; by repeat constructor.
Qed.

Lemma aliases_spec o :
  let o' := normalize_openai_compatible_aliases o in
  touches (kAliasKeys ++ kAliasTargets) o o' /\ Forall (fun k => o' !! k = None) kAliasKeys.
Proof.
  unfold normalize_openai_compatible_aliases, pop_string_field, pop_field. cbv zeta iota beta.
  set (o1 := delete _ (delete _ (delete _ (delete _ (delete _ (delete _ o)))))).
  assert (touches kAliasKeys o o1 /\ Forall (fun k => o1 !! k = None) kAliasKeys) as [H1 Hn].
  { split.
    - intros k Hk. apply contains_string_false in Hk. unfold kAliasKeys in Hk. rewrite !not_elem_of_cons in Hk.
      unfold o1. rewrite !lookup_delete_ne by naive_solver. done.
    - unfold o1, kAliasKeys. repeat constructor; rewrite ?lookup_delete_ne by done; apply lookup_delete_eq. }
  clearbody o1. split.
  - intros k Hk. unfold contains_string in Hk. rewrite existsb_app in Hk. apply orb_false_iff in Hk as [Hk1 Hk2].
    rewrite (touches_alias_targets _ _ _ _ o1 k Hk2). by apply H1.
  - unfold kAliasKeys in *. rewrite !Forall_cons in *. rewrite !(touches_alias_targets _ _ _ _ o1 _) by done. destruct_and!. split_and!; done || constructor.
Qed.

End steps.

(** ** Input items *)

#[local] Arguments erase_keys : simpl never.
#[local] Arguments contains_string : simpl never.

Lemma string_at_erase keys o k : contains_string keys k = false -> string_at (erase_keys keys o) k = string_at o k.
Proof. intros H. unfold string_at. by rewrite (touches_erase keys o k H). Qed.

Lemma erase_keys_idem keys o : erase_keys keys (erase_keys keys o) = erase_keys keys o.
Proof.
  apply erase_keys_id, Forall_forall. intros k Hk. by apply lookup_erase, contains_string_true.
Qed.

Lemma sanitize_part_idem p q :
  sanitize_interleaved_reasoning_content_part p = Some q ->
  sanitize_interleaved_reasoning_content_part q = Some q.
Proof.
  destruct p as [| | | | |o]; simpl; try by intros [= <-].
  destruct (match string_at o $"type" with Some _ => _ | None => _ end) eqn:E; [done|]. intros [= <-]. simpl.
  rewrite string_at_erase by done. by rewrite E, erase_keys_idem.
Qed.

Lemma omap_idem {A} (f : A -> option A) (l : list A) :
  (forall x y, f x = Some y -> f y = Some y) -> omap f (omap f l) = omap f l.
Proof.
  intros Hf. induction l as [|x l IH]; [done|]. csimpl. destruct (f x) as [y|] eqn:E; [|done].
  csimpl. by rewrite (Hf x y E), IH.
Qed.

Lemma sanitize_content_idem c d :
  sanitize_interleaved_reasoning_content c = Some d -> sanitize_interleaved_reasoning_content d = Some d.
Proof.
  destruct c as [| | | |l|o]; try by intros [= <-].
  - intros [= <-]. simpl. do 2 f_equal. apply omap_idem, sanitize_part_idem.
  - intros E. assert (exists o', d = JObject o') as [o' ->].
    { simpl in E. repeat case_match; simplify_eq; eauto. }
    exact (sanitize_part_idem (JObject o) (JObject o') E).
Qed.

Lemma text_part_sanitized type text :
  contains_string kInterleavedReasoningPartTypes type = false ->
  sanitize_interleaved_reasoning_content_part (text_part type text) = Some (text_part type text).
Proof.
  intros Ht. unfold text_part, make_object. cbn [foldl fst snd sanitize_interleaved_reasoning_content_part].
  rewrite string_at_insert_ne, string_at_insert_eq by done. by rewrite Ht.
Qed.

Lemma part_type_plain role : contains_string kInterleavedReasoningPartTypes (text_part_type_for_role role) = false.
Proof. unfold text_part_type_for_role. by case_match. Qed.

Lemma extract_text_part type text :
  contains_string kAssistantTextPartTypes type = true ->
  extract_text_content_part (text_part type text) kAssistantTextPartTypes false = Some text.
Proof.
  intros Ht. unfold text_part, make_object. cbn [foldl fst snd extract_text_content_part].
  rewrite string_at_insert_eq, string_at_insert_ne, string_at_insert_eq by done. by rewrite Ht.
Qed.

Lemma part_type_text role : contains_string kAssistantTextPartTypes (text_part_type_for_role role) = true.
Proof. unfold text_part_type_for_role. by case_match. Qed.

(** A part that is normal for a role: what the loop over the parts leaves. *)
Lemma normalize_part_idem role p :
  normalize_part (text_part_type_for_role role) (normalize_part (text_part_type_for_role role) p) =
  normalize_part (text_part_type_for_role role) p.
Proof.
  set (t := text_part_type_for_role role).
  assert (forall s, normalize_part t (text_part t s) = text_part t s) as Ht.
  { intros s. unfold normalize_part. change (match text_part t s with JString text => _ | _ => ?x end) with x.
    by rewrite extract_text_part by apply part_type_text. }
  unfold normalize_part at 2 3. destruct p as [| | |s|l|o]; try done.
  destruct (extract_text_content_part (JObject o) kAssistantTextPartTypes false) as [s|] eqn:E; [done|].
  unfold normalize_part. by rewrite E.
Qed.

Lemma normalize_part_sanitized role p :
  sanitize_interleaved_reasoning_content_part p = Some p ->
  sanitize_interleaved_reasoning_content_part (normalize_part (text_part_type_for_role role) p) =
  Some (normalize_part (text_part_type_for_role role) p).
Proof.
  intros Hp. unfold normalize_part. destruct p; try done; try (apply text_part_sanitized, part_type_plain).
  case_match; [apply text_part_sanitized, part_type_plain|done].
Qed.

(** The object case of a message's content is its one part. *)
Lemma normalize_content_object role o :
  normalize_message_content_for_role (JObject o) role =
  JArray [normalize_part (text_part_type_for_role role) (JObject o)].
Proof. done. Qed.

Lemma normalize_content_idem role c :
  normalize_message_content_for_role (normalize_message_content_for_role c role) role =
  normalize_message_content_for_role c role.
Proof.
  destruct c as [| | |s|l|o]; try done.
  - cbn [normalize_message_content_for_role fmap list_fmap]. do 2 f_equal.
    exact (normalize_part_idem role (JString s)).
  - cbn [normalize_message_content_for_role]. f_equal. rewrite <- list_fmap_compose.
    apply list_fmap_ext. intros i x _. apply normalize_part_idem.
  - rewrite normalize_content_object. cbn [normalize_message_content_for_role fmap list_fmap].
    do 2 f_equal. apply normalize_part_idem.
Qed.

Lemma omap_id {A} (f : A -> option A) (l : list A) : Forall (fun x => f x = Some x) l -> omap f l = l.
Proof. induction 1 as [|x l Hx _ IH]; [done|]. csimpl. by rewrite Hx, IH. Qed.

Lemma omap_fixed {A} (f : A -> option A) (l : list A) :
  omap f l = l -> Forall (fun x => f x = Some x) l.
Proof.
  assert (forall k, (length (omap f k) <= length k)%nat) as Hle.
  { induction k as [|y k IH]; csimpl; [lia|]. destruct (f y); simpl; lia. }
  induction l as [|x l IH]; csimpl; intros E; [constructor|]. destruct (f x) as [y|] eqn:Ex.
  - injection E as -> E. constructor; [done|]. by apply IH.
  - exfalso. pose proof (Hle l) as H. rewrite E in H. simpl in H. lia.
Qed.

Lemma normalize_content_sanitized role c :
  sanitize_interleaved_reasoning_content c = Some c ->
  sanitize_interleaved_reasoning_content (normalize_message_content_for_role c role) =
  Some (normalize_message_content_for_role c role).
Proof.
  intros Hc. destruct c as [| | |s|l|o]; try done.
  - cbn [normalize_message_content_for_role sanitize_interleaved_reasoning_content]. do 2 f_equal.
    apply omap_id. repeat constructor. apply text_part_sanitized, part_type_plain.
  - cbn [normalize_message_content_for_role sanitize_interleaved_reasoning_content] in *.
    assert (omap sanitize_interleaved_reasoning_content_part l = l) as Hl by congruence.
    do 2 f_equal. apply omap_id, Forall_fmap. eapply Forall_impl; [by apply omap_fixed|].
    intros x Hx. by apply normalize_part_sanitized.
  - rewrite normalize_content_object. cbn [sanitize_interleaved_reasoning_content]. do 2 f_equal.
    apply omap_id. repeat constructor. by apply normalize_part_sanitized.
Qed.

Lemma sanitize_field_idem k v w : sanitize_item_field k v = Some w -> sanitize_item_field k w = Some w.
Proof.
  unfold sanitize_item_field. case_match; [done|]. case_bool_decide; [apply sanitize_content_idem|congruence].
Qed.

Definition sanitized_object (o : JsonObject) : Prop := map_imap sanitize_item_field o = o.

Lemma sanitized_lookup o :
  sanitized_object o <-> forall k v, o !! k = Some v -> sanitize_item_field k v = Some v.
Proof.
  unfold sanitized_object. split.
  - intros E k v Hk. rewrite <- E in Hk. rewrite map_lookup_imap in Hk.
    apply bind_Some in Hk as (w & _ & Hw). by eapply sanitize_field_idem.
  - intros H. apply map_eq. intros k. rewrite map_lookup_imap. destruct (o !! k) as [v|] eqn:E; simpl; [|done].
    by apply H.
Qed.

Lemma sanitize_object_sanitized o : sanitized_object (map_imap sanitize_item_field o).
Proof.
  apply sanitized_lookup. intros k v Hk. rewrite map_lookup_imap in Hk.
  apply bind_Some in Hk as (w & _ & Hw). by eapply sanitize_field_idem.
Qed.

Lemma tool_item_sanitized call_id output :
  sanitized_object (make_object [($"type", JString $"function_call_output"); ($"call_id", JString call_id);
                                 ($"output", output)]).
Proof.
  apply sanitized_lookup. intros k v. unfold make_object. cbn [foldl fst snd].
  rewrite !lookup_insert, lookup_empty. repeat case_decide; intros; simplify_eq; by subst.
Qed.

(** Cleaning an item of the input once is enough. *)
Lemma sanitize_input_item_idem x y : sanitize_input_item x = Ret y -> sanitize_input_item y = Ret y.
Proof.
  destruct x as [| | | | |o]; try by intros [= <-]. cbn [sanitize_input_item].
  pose proof (sanitize_object_sanitized o) as Hs. set (m := map_imap sanitize_item_field o) in *. clearbody m.
  cbn [normalize_role_input_item]. destruct (string_at m $"role") as [role|] eqn:Er; last first.
  { intros [= <-]. cbn [sanitize_input_item]. rewrite Hs. cbn [normalize_role_input_item]. by rewrite Er. }
  destruct (is_assistant_role role || is_input_text_role role) eqn:Ek.
  - destruct (m !! $"content") as [c|] eqn:Ec; intros [= <-]; cbn [sanitize_input_item]; last first.
    { rewrite Hs. cbn [normalize_role_input_item]. by rewrite Er, Ek, Ec. }
    assert (sanitize_interleaved_reasoning_content c = Some c) as Hc.
    { by apply (proj1 (sanitized_lookup m) Hs) in Ec. }
    set (m' := <[$"content" := normalize_message_content_for_role c role]> m).
    assert (sanitized_object m') as ->.
    { apply sanitized_lookup. intros k v. unfold m'. rewrite lookup_insert. case_decide as Ek'.
      - intros [= <-]. subst k. by apply normalize_content_sanitized.
      - by apply sanitized_lookup. }
    cbn [normalize_role_input_item]. unfold m' at 1. rewrite string_at_insert_ne, Er, Ek by done.
    unfold m'. by rewrite lookup_insert_eq, normalize_content_idem, insert_insert_eq.
  - destruct (negb (bool_decide (role = $"tool"))) eqn:Et.
    { intros [= <-]. cbn [sanitize_input_item]. rewrite Hs. cbn [normalize_role_input_item]. by rewrite Er, Ek, Et. }
    destruct (resolve_tool_call_id m) as [call_id|]; [|done]. intros [= <-]. cbn [sanitize_input_item].
    rewrite tool_item_sanitized. done.
Qed.

(** ** Files by identifier *)

Lemma file_id_erase o keys :
  contains_string keys $"type" = false -> contains_string keys $"file_id" = false ->
  is_input_file_with_id (erase_keys keys o) = is_input_file_with_id o.
Proof. intros H1 H2. unfold is_input_file_with_id. by rewrite !string_at_erase. Qed.

Lemma sanitize_part_file_id p q :
  sanitize_interleaved_reasoning_content_part p = Some q -> part_has_file_id q = part_has_file_id p.
Proof.
  destruct p as [| | | | |o]; simpl; try by intros [= <-]. case_match; [done|]. intros [= <-].
  by apply file_id_erase.
Qed.

Lemma normalize_part_file_id role p :
  part_has_file_id p = false -> part_has_file_id (normalize_part (text_part_type_for_role role) p) = false.
Proof.
  assert (forall s, part_has_file_id (text_part (text_part_type_for_role role) s) = false) as Ht.
  { intros s. unfold text_part, make_object, text_part_type_for_role. cbn [foldl fst snd part_has_file_id].
    unfold is_input_file_with_id. rewrite string_at_insert_ne, string_at_insert_eq by done. by case_match. }
  intros Hp. unfold normalize_part. destruct p; try done; try apply Ht. case_match; [apply Ht|done].
Qed.

(** The part of the test that looks inside a message. *)
Definition content_has_file_id (c : option Json) : bool :=
  match c with
  | Some (JArray parts) => existsb part_has_file_id parts
  | Some (JObject object) => is_input_file_with_id object
  | _ => false
  end.

Lemma existsb_false {A} (f : A -> bool) l : existsb f l = false <-> Forall (fun x => f x = false) l.
Proof.
  induction l as [|x l IH]; simpl; [split; [by constructor|done]|].
  by rewrite orb_false_iff, IH, Forall_cons.
Qed.

Lemma sanitize_content_file_id c d :
  sanitize_interleaved_reasoning_content c = Some d ->
  content_has_file_id (Some c) = false -> content_has_file_id (Some d) = false.
Proof.
  destruct c as [| | | |l|o]; try by intros [= <-].
  - intros [= <-]. cbn [content_has_file_id]. rewrite !existsb_false. intros H.
    apply Forall_forall. intros q Hq. apply list_elem_of_omap in Hq as (p & Hp & Hq).
    rewrite (sanitize_part_file_id p q Hq). by eapply Forall_forall in H.
  - intros E H. assert (exists o', d = JObject o') as [o' ->].
    { simpl in E. repeat case_match; simplify_eq; eauto. }
    pose proof (sanitize_part_file_id (JObject o) (JObject o') E) as Ef. cbn in Ef, H |- *. by rewrite Ef.
Qed.

Lemma normalize_content_file_id c role :
  content_has_file_id (Some c) = false ->
  content_has_file_id (Some (normalize_message_content_for_role c role)) = false.
Proof.
  destruct c as [| | |s|l|o]; try done.
  - intros _. cbn [normalize_message_content_for_role content_has_file_id existsb]. rewrite orb_false_r.
    exact (normalize_part_file_id role (JString s) eq_refl).
  - cbn [normalize_message_content_for_role content_has_file_id]. rewrite !existsb_false, Forall_fmap.
    intros H. eapply Forall_impl; [exact H|]. intros p Hp. by apply normalize_part_file_id.
  - intros H. rewrite normalize_content_object. cbn [content_has_file_id existsb]. rewrite orb_false_r.
    by apply normalize_part_file_id.
Qed.

Lemma string_at_imap o k :
  contains_string ($"content" :: kInterleavedReasoningKeys) k = false ->
  string_at (map_imap sanitize_item_field o) k = string_at o k.
Proof.
  intros H. apply contains_string_false, not_elem_of_cons in H as [H1 H2].
  apply contains_string_false in H2. unfold string_at. rewrite map_lookup_imap.
  destruct (o !! k) as [v|]; simpl; [|done]. unfold sanitize_item_field.
  rewrite H2, bool_decide_false by congruence. done.
Qed.

Lemma item_has_file_id_object o :
  item_has_file_id (JObject o) = is_input_file_with_id o || content_has_file_id (o !! $"content").
Proof. cbn. by destruct (is_input_file_with_id o). Qed.

(** Cleaning an item brings in no reference to a file. *)
Lemma sanitize_input_item_file_id x y :
  item_has_file_id x = false -> sanitize_input_item x = Ret y -> item_has_file_id y = false.
Proof.
  destruct x as [| | | | |o]; try by intros _ [= <-]. rewrite item_has_file_id_object. intros Hf.
  apply orb_false_iff in Hf as [Hf Hc]. cbn [sanitize_input_item].
  set (m := map_imap sanitize_item_field o).
  assert (is_input_file_with_id m = false) as Hm.
  { rewrite <- Hf. unfold is_input_file_with_id, m. by rewrite !string_at_imap. }
  assert (content_has_file_id (m !! $"content") = false) as Hmc.
  { unfold m. rewrite map_lookup_imap. destruct (o !! $"content") as [c|]; simpl; [|done].
    change (sanitize_item_field $"content" c) with (sanitize_interleaved_reasoning_content c).
    destruct (sanitize_interleaved_reasoning_content c) eqn:E; [|done]. by eapply sanitize_content_file_id. }
  clearbody m. cbn [normalize_role_input_item].
  assert (item_has_file_id (JObject m) = false) as Hi by (rewrite item_has_file_id_object, Hm, Hmc; done).
  destruct (string_at m $"role") as [role|]; [|by intros [= <-]].
  destruct (is_assistant_role role || is_input_text_role role).
  - destruct (m !! $"content") as [c|] eqn:Ec; intros [= <-]; [|done].
    rewrite item_has_file_id_object, lookup_insert_eq, normalize_content_file_id, orb_false_r by done.
    unfold is_input_file_with_id in *. by rewrite !string_at_insert_ne by done.
  - destruct (negb (bool_decide (role = $"tool"))); [by intros [= <-]|].
    destruct (resolve_tool_call_id m); [|done]. intros [= <-].
    rewrite item_has_file_id_object. unfold make_object, is_input_file_with_id. cbn [foldl fst snd].
    rewrite string_at_insert_ne, string_at_insert_ne, string_at_insert_eq by done.
    by rewrite !lookup_insert_ne, lookup_empty.
Qed.

(** ** What a normalised request looks like *)

Definition input_ok (j : option Json) : Prop :=
  exists items, j = Some (JArray items) /\ has_input_file_id items = false /\
    Forall (fun item => sanitize_input_item item = Ret item) items.

Definition model_ok (j : option Json) : Prop := exists s, j = Some (JString s) /\ s <> [].

(** Every field the upstream requires is there with its type, nothing it
    refuses is. *)
Record request_typed (o : JsonObject) : Prop := {
  typed_model : model_ok (o !! $"model");
  typed_input : input_ok (o !! $"input");
  typed_instructions : is_text (o !! $"instructions");
  typed_tools : tools_ok (o !! $"tools");
  typed_include : include_ok (o !! $"include");
  typed_store : is_bool (o !! $"store");
  typed_stream : is_bool (o !! $"stream");
  typed_parallel : is_bool (o !! $"parallel_tool_calls");
  typed_choice : is_Some (o !! $"tool_choice");
  typed_truncation : o !! $"truncation" <> Some JNull;
  typed_previous : previous_ok (o !! $"previous_response_id");
  typed_conversation :
    ~ (is_Some (nonempty_string o $"conversation") /\ is_Some (nonempty_string o $"previous_response_id"));
  typed_tier : tier_ok (o !! $"service_tier");
  typed_aliases : Forall (fun k => o !! k = None) kAliasKeys;
  typed_unsupported : Forall (fun k => o !! k = None) kUnsupportedUpstreamFields;
}.

Lemma nonempty_string_some o k s : nonempty_string o k = Some s <-> o !! k = Some (JString s) /\ s <> [].
Proof.
  unfold nonempty_string, string_at. split.
  - destruct (o !! k) as [[| | |s0| |]|]; try done. destruct s0; [done|]. intros E. simplify_eq. done.
  - intros [-> Hs]. by destruct s.
Qed.

Lemma nonempty_string_ext o o' k : o !! k = o' !! k -> nonempty_string o k = nonempty_string o' k.
Proof. intros E. unfold nonempty_string, string_at. by rewrite E. Qed.

Lemma normalize_input_field_spec o o' :
  normalize_input_field o = Ret o' -> touches [$"input"] o o' /\ input_ok (o' !! $"input").
Proof.
  unfold normalize_input_field. intros E. destruct (o !! $"input") as [j|]; [|done].
  apply bind_Ret in E as (items & _ & E). destruct (has_input_file_id items) eqn:Ef; [done|].
  apply bind_Ret in E as (items' & Es & [= <-]). split; [by apply touches_insert|].
  rewrite lookup_insert_eq. exists items'. split; [done|]. unfold sanitize_input_items in Es.
  apply traverse_Ret in Es. unfold has_input_file_id in *. rewrite existsb_false in *. split.
  - clear - Es Ef. induction Es as [|x y l k Hxy _ IH]; [constructor|]. apply Forall_cons in Ef as [Hx Hl].
    constructor; [by eapply sanitize_input_item_file_id|by apply IH].
  - clear - Es. induction Es as [|x y l k Hxy _ IH]; constructor; [by eapply sanitize_input_item_idem|done].
Qed.

(** Read a field through the steps that leave it alone. *)
Ltac chase :=
  repeat match goal with
  | T : touches _ _ ?o |- context [?o !! ?k] => rewrite (T k eq_refl)
  end.

Lemma base_fields_spec o o' :
  normalize_request_base_fields o false = Ret o' ->
  touches [$"input"; $"instructions"; $"tools"; $"include"; $"store"; $"stream"; $"parallel_tool_calls"; $"tool_choice"] o o' /\
  model_ok (o' !! $"model") /\ input_ok (o' !! $"input") /\ is_text (o' !! $"instructions") /\
  is_Some (o' !! $"tools") /\ (o !! $"tools" <> Some JNull -> o' !! $"tools" <> Some JNull) /\
  is_Some (o' !! $"include") /\ is_bool (o' !! $"stream") /\ is_bool (o' !! $"parallel_tool_calls") /\
  is_Some (o' !! $"tool_choice").
Proof.
  unfold normalize_request_base_fields. intros E. destruct (nonempty_string o $"model") as [m|] eqn:Em; [|done].
  apply nonempty_string_some in Em. apply bind_Ret in E as (o1 & E1 & E).
  apply normalize_input_field_spec in E1 as [T1 P1]. cbv zeta in E. cbn [negb] in E.
  set (o2 := match string_at o1 $"instructions" with Some _ => _ | None => _ end) in E.
  assert (touches [$"instructions"] o1 o2 /\ is_text (o2 !! $"instructions")) as [T2 P2].
  { unfold o2. destruct (string_at o1 $"instructions") eqn:Ei.
    - split; [done|]. apply string_at_some in Ei. rewrite Ei. by eexists.
    - split; [by apply touches_insert|]. rewrite lookup_insert_eq. by eexists. }
  clearbody o2. revert E.
  set (o3 := default_field $"tools" (JArray []) o2). set (o4 := default_field $"include" (JArray []) o3).
  set (o5 := default_field $"store" (JBool false) o4). intros E.
  pose proof (touches_default_field $"tools" (JArray []) o2) as T3.
  pose proof (default_field_there $"tools" (JArray []) o2) as P3.
  assert (o2 !! $"tools" <> Some JNull -> o3 !! $"tools" <> Some JNull) as N3.
  { unfold o3, default_field. case_match; [done|]. by rewrite lookup_insert_eq. }
  pose proof (touches_default_field $"include" (JArray []) o3) as T4.
  pose proof (default_field_there $"include" (JArray []) o3) as P4.
  pose proof (touches_default_field $"store" (JBool false) o4) as T5.
  fold o3 in T3, P3. fold o4 in T4, P4. fold o5 in T5. clearbody o3 o4 o5.
  apply bind_Ret in E as (o6 & E6 & E). apply boolean_field_spec in E6 as [T6 P6].
  apply bind_Ret in E as (o7 & E7 & E). apply boolean_field_spec in E7 as [T7 P7].
  pose proof (touches_default_field $"tool_choice" (JString $"auto") o7) as T8.
  pose proof (default_field_there $"tool_choice" (JString $"auto") o7) as P8.
  injection E as E. rewrite E in T8, P8. clear E.
  split.
  { intros k Hk. repeat match goal with
    | T : touches _ ?a ?b |- context [?b !! k] => rewrite (T k); [|
        apply contains_string_false; apply contains_string_false in Hk; rewrite !not_elem_of_cons in *; naive_solver]
    end. done. }
  split; [exists m; chase; done|]. split; [by chase|]. split; [by chase|]. split; [by chase|].
  split; [intros Hn; chase; apply N3; by chase|]. repeat (split; [by chase|]). done.
Qed.


Lemma normalize_object_spec o o' :
  normalize_object o false = Ret o' ->
  request_typed o' /\ (o !! $"tools" <> Some JNull -> tool_choice_ok (o' !! $"tool_choice")) /\
  o' !! $"model" = o !! $"model".
Proof.
  unfold normalize_object. cbn [negb]. intros E.
  apply bind_Ret in E as (o1 & E1 & E). apply base_fields_spec in E1
    as (T1 & Pmodel & Pinput & Pinstr & Ptools & Ntools & Pinc & Pstream & Ppar & Pchoice).
  rewrite (T1 $"model" eq_refl) in Pmodel.
  destruct (aliases_spec o1) as [T2 Palias]. revert T2 Palias E. cbv zeta.
  generalize (normalize_openai_compatible_aliases o1). intros o2 T2 Palias E.
  apply bind_Ret in E as (o3 & E3 & E). apply store_spec in E3 as [T3 Pstore].
  apply bind_Ret in E as (o7 & E4 & E).
  apply bind_Ret in E4 as (o4 & E4 & E5). apply include_spec in E4 as [T4 Pinclude]; [|by chase].
  apply bind_Ret in E5 as (o5 & E5 & E6). apply tools_spec in E5 as (T5 & Ptools5 & Pchoice5 & Pnorm); [|by chase..].
  apply responses_spec in E6 as (T6 & Ptrunc & Pprev & Pconv).
  destruct (tier_spec o7) as [T7 Ptier]. revert T7 Ptier E. generalize (normalize_service_tier o7).
  intros o8 T7 Ptier E. injection E as <-.
  pose proof (touches_erase kUnsupportedUpstreamFields o8) as T8.
  assert (Forall (fun k => erase_keys kUnsupportedUpstreamFields o8 !! k = None) kUnsupportedUpstreamFields) as Puns.
  { apply Forall_forall. intros k Hk. by apply lookup_erase, contains_string_true. }
  revert T8 Puns. generalize (erase_keys kUnsupportedUpstreamFields o8). intros o' T8 Puns.
  split; [|split; [intros Hn; chase; apply Pnorm; chase; by apply Ntools|by chase]].
  split; try (by chase); try done.
  - intros [Hc Hp]. apply Pconv.
    rewrite (nonempty_string_ext o7 o' $"conversation") by by chase.
    rewrite (nonempty_string_ext o7 o' $"previous_response_id") by by chase. done.
  - unfold kAliasKeys in *. rewrite !Forall_cons in *. destruct_and!. split_and!; try (by chase); constructor.
Qed.

(** A request in shape is left exactly as it is by every step. *)
Lemma insert_same (o : JsonObject) k v : o !! k = Some v -> <[k := v]> o = o.
Proof. apply insert_id. Qed.

Lemma default_field_id k v o : is_Some (o !! k) -> default_field k v o = o.
Proof. intros H. unfold default_field. apply has_field_spec in H. by rewrite H. Qed.

Lemma boolean_field_id k v what o : is_bool (o !! k) -> boolean_field k v what o = Ret o.
Proof.
  intros [b Hb]. unfold boolean_field. rewrite default_field_id by (rewrite Hb; by eexists). by rewrite Hb.
Qed.

Lemma input_field_id o : input_ok (o !! $"input") -> normalize_input_field o = Ret o.
Proof.
  intros (items & Hi & Hf & Hs). unfold normalize_input_field. rewrite Hi. cbn [mbind except_bind]. rewrite Hf.
  unfold sanitize_input_items. rewrite traverse_id by done. cbn [mbind except_bind]. by rewrite insert_same.
Qed.

Lemma base_fields_id o :
  request_typed o -> normalize_request_base_fields o false = Ret o.
Proof.
  intros H. destruct (typed_model _ H) as (m & Hm & Hne). unfold normalize_request_base_fields.
  assert (nonempty_string o $"model" = Some m) as -> by by apply nonempty_string_some.
  rewrite input_field_id by apply H. cbn [mbind except_bind negb].
  destruct (typed_instructions _ H) as (i & Hi).
  assert (string_at o $"instructions" = Some i) as -> by by apply string_at_some.
  rewrite (default_field_id $"tools") by (destruct (typed_tools _ H) as (? & -> & _); by eexists).
  rewrite (default_field_id $"include") by (destruct (typed_include _ H) as (? & -> & _); by eexists).
  rewrite (default_field_id $"store") by (destruct (typed_store _ H) as (? & ->); by eexists).
  rewrite (boolean_field_id $"stream") by apply H. cbn [mbind except_bind].
  rewrite (boolean_field_id $"parallel_tool_calls") by apply H. cbn [mbind except_bind].
  by rewrite default_field_id by apply H.
Qed.

Lemma set_nonempty_id k o :
  set_nonempty k (default ∅ (object_at o k)) o = o.
Proof.
  unfold set_nonempty. case_bool_decide as E; [done|]. destruct (object_at o k) as [m|] eqn:Em; [|done].
  apply insert_same. by apply object_at_some.
Qed.

Lemma aliases_id o : Forall (fun k => o !! k = None) kAliasKeys -> normalize_openai_compatible_aliases o = o.
Proof.
  unfold kAliasKeys. rewrite !Forall_cons. intros (H1 & H2 & H3 & H4 & H5 & H6 & _).
  unfold normalize_openai_compatible_aliases, pop_string_field, pop_field. cbv zeta iota beta.
  rewrite H1, (delete_id o $"reasoningEffort"), H2, (delete_id o $"reasoningSummary"), H3,
    (delete_id o $"textVerbosity"), H4, (delete_id o $"verbosity"), H5, (delete_id o $"promptCacheKey"), H6,
    (delete_id o $"promptCacheRetention") by done.
  cbn [set_missing]. by rewrite !set_nonempty_id.
Qed.

Lemma store_id o : is_bool (o !! $"store") -> validate_and_normalize_store o = Ret o.
Proof. intros [b Hb]. unfold validate_and_normalize_store. by rewrite Hb. Qed.

Lemma include_id o : include_ok (o !! $"include") -> validate_and_normalize_include o = Ret o.
Proof. intros (l & Hl & Hf). unfold validate_and_normalize_include. by rewrite Hl, Hf. Qed.

Lemma tools_id o :
  tools_ok (o !! $"tools") -> tool_choice_ok (o !! $"tool_choice") -> validate_and_normalize_tools o = Ret o.
Proof.
  intros (l & Hl & Hf) Hc. unfold validate_and_normalize_tools. rewrite Hl, Hf. cbv zeta.
  rewrite insert_same by done. destruct (o !! $"tool_choice") as [[]|] eqn:E; try done. simpl in Hc.
  by rewrite Hc, insert_same.
Qed.

Lemma responses_id o :
  o !! $"truncation" <> Some JNull -> previous_ok (o !! $"previous_response_id") ->
  ~ (is_Some (nonempty_string o $"conversation") /\ is_Some (nonempty_string o $"previous_response_id")) ->
  validate_and_normalize_responses_fields o = Ret o.
Proof.
  intros Ht Hp Hc. unfold validate_and_normalize_responses_fields.
  replace (match o !! $"truncation" with Some JNull => delete $"truncation" o | _ => o end) with o
    by (by destruct (o !! $"truncation") as [[]|]).
  cbv zeta.
  assert (match o !! $"previous_response_id" with
    | None => Ret o
    | Some JNull => Ret (delete $"previous_response_id" o)
    | Some (JString s) =>
        if bool_decide (trim_ascii s = []) then Ret (delete $"previous_response_id" o)
        else Ret (<[$"previous_response_id" := JString (trim_ascii s)]> o)
    | Some _ => Throw $"previous_response_id must be a string" end = Ret o) as ->.
  { destruct (o !! $"previous_response_id") as [j|] eqn:E; [|done]. destruct Hp as (s & -> & Hs & Htr).
    rewrite Htr, bool_decide_false by done. by rewrite insert_same. }
  cbn [mbind except_bind].
  destruct (nonempty_string o $"conversation"), (nonempty_string o $"previous_response_id"); try done.
  exfalso. apply Hc. by split; eexists.
Qed.

Lemma tier_id o : tier_ok (o !! $"service_tier") -> normalize_service_tier o = o.
Proof.
  intros H. unfold normalize_service_tier. destruct (string_at o $"service_tier") as [t|] eqn:E; [|done].
  apply string_at_some in E. rewrite E in H. simpl in H. by rewrite H, insert_same.
Qed.

Lemma normalize_object_id o :
  request_typed o -> tool_choice_ok (o !! $"tool_choice") -> normalize_object o false = Ret o.
Proof.
  intros H Hc. unfold normalize_object. cbn [negb]. rewrite base_fields_id by done. cbn [mbind except_bind].
  rewrite aliases_id by apply H. rewrite store_id by apply H. cbn [mbind except_bind].
  rewrite include_id by apply H. cbn [mbind except_bind].
  rewrite tools_id by (done || apply H). cbn [mbind except_bind].
  rewrite responses_id by apply H. cbn [mbind except_bind].
  rewrite tier_id by apply H. by rewrite erase_keys_id by apply H.
Qed.

(** The type of what a normalised request is, when it is not a compact one:
    whatever JSON object a client sends, either the normalisation ends in an
    exception or every field that the upstream requires is there with its type
    (the model, a clean input without file identifiers, the instructions, the
    tools under their own names, a list of strings for what to include, three
    booleans), no alias of a field and no unsupported field is left, and a
    conversation and a previous response are not both named by non-empty
    strings.  The chosen tool goes by its own name too, unless [tools] was null
    ([null_tools_keep_alias]). (C20) *)
Theorem normalized_request_typed o o' :
  normalize_object o false = Ret o' ->
  request_typed o' /\ (o !! $"tools" <> Some JNull -> tool_choice_ok (o' !! $"tool_choice")).
Proof. intros E. by destruct (normalize_object_spec o o' E) as (? & ? & _). Qed.

(** Normalising is a projection: the requests it leaves alone are exactly the
    ones of the required shape whose chosen tool has no alias, and what it
    makes of a request whose tools are not null is such a request, so that
    normalising twice is normalising once. *)
Theorem normalization_projects o :
  (normalize_object o false = Ret o <-> request_typed o /\ tool_choice_ok (o !! $"tool_choice")) /\
  (forall o', o !! $"tools" <> Some JNull -> normalize_object o false = Ret o' -> normalize_object o' false = Ret o').
Proof.
  split; [split|].
  - intros E. apply normalize_object_spec in E as (H & Hc & _). split; [done|]. apply Hc.
    destruct (typed_tools _ H) as (l & -> & _). done.
  - intros [H Hc]. by apply normalize_object_id.
  - intros o' Hn E. apply normalize_object_spec in E as (H & Hc & _). apply normalize_object_id; auto.
Qed.

(** With [tools] null the chosen tool keeps its alias, which the same request
    without the field loses. *)
Definition aliased_choice (tools : list (bytes * Json)) : JsonObject :=
  make_object ([($"model", JString $"m"); ($"input", JString $"hi");
    ($"tool_choice", JObject (make_object [($"type", JString $"web_search_preview")]))] ++ tools).

Definition chosen_tool (r : except JsonObject) : option bytes :=
  match r with
  | Ret o => choice ← object_at o $"tool_choice"; string_at choice $"type"
  | Throw _ => None
  end.

Lemma null_tools_keep_alias :
  chosen_tool (normalize_object (aliased_choice [($"tools", JNull)]) false) = Some $"web_search_preview" /\
  chosen_tool (normalize_object (aliased_choice []) false) = Some $"web_search".
Proof. by split; vm_compute. Qed.

(** ** The compact contract *)

Definition absent_or_object (j : option Json) : Prop :=
  match j with None | Some (JObject _) => True | _ => False end.

Lemma compact_field_spec key o o' :
  compact_object_field key o = Ret o' -> touches [key] o o' /\ absent_or_object (o' !! key).
Proof.
  assert (contains_string [key] key = true) as Hk by by apply contains_string_true; left.
  unfold compact_object_field. destruct (o !! key) as [[]|] eqn:E; intros; simplify_eq.
  - split; [by apply touches_delete|]. by rewrite lookup_delete_eq.
  - split; [done|]. by rewrite E.
  - split; [done|]. by rewrite E.
Qed.

Lemma compact_contract_spec o o' :
  normalize_compact_contract_fields o = Ret o' ->
  (forall k, o' !! k = if contains_string kAllowedCompactFields k then o' !! k else None) /\
  (exists l, o' !! $"tools" = Some (JArray l)) /\ is_bool (o' !! $"parallel_tool_calls") /\
  absent_or_object (o' !! $"reasoning") /\ absent_or_object (o' !! $"text") /\
  o' !! $"model" = o !! $"model" /\ o' !! $"input" = o !! $"input" /\ o' !! $"instructions" = o !! $"instructions".
Proof.
  unfold normalize_compact_contract_fields. intros E.
  apply bind_Ret in E as (o1 & E1 & E).
  assert (touches [$"tools"] o o1 /\ exists l, o1 !! $"tools" = Some (JArray l)) as [T1 P1].
  { destruct (o !! $"tools") as [[]|] eqn:Et; simplify_eq; [split; [done|]; rewrite Et; by eexists|].
    split; [by apply touches_insert|]. rewrite lookup_insert_eq. by eexists. }
  clear E1. apply bind_Ret in E as (o2 & E2 & E).
  assert (touches [$"parallel_tool_calls"] o1 o2 /\ is_bool (o2 !! $"parallel_tool_calls")) as [T2 P2].
  { destruct (o1 !! $"parallel_tool_calls") as [[]|] eqn:Et; simplify_eq;
      try (split; [by apply touches_insert|]; rewrite lookup_insert_eq; by eexists).
    split; [done|]. rewrite Et. by eexists. }
  clear E2. apply bind_Ret in E as (o3 & E3 & E). apply compact_field_spec in E3 as [T3 P3].
  apply bind_Ret in E as (o4 & E4 & E). apply compact_field_spec in E4 as [T4 P4].
  injection E as E.
  assert (forall k, o' !! k = if contains_string kAllowedCompactFields k then o4 !! k else None) as Hl.
  { intros k. rewrite <- E. rewrite map_lookup_filter. destruct (contains_string kAllowedCompactFields k) eqn:Ec.
    - apply contains_string_true in Ec. destruct (o4 !! k) eqn:Ek; simpl; [|done]. by rewrite option_guard_True.
    - apply contains_string_false in Ec. destruct (o4 !! k) eqn:Ek; simpl; [|done]. by rewrite option_guard_False. }
  clear E. split.
  { intros k. destruct (contains_string kAllowedCompactFields k) eqn:Ec; [done|]. by rewrite Hl, Ec. }
  rewrite !Hl.
  repeat match goal with |- context [contains_string kAllowedCompactFields ?k] =>
    change (contains_string kAllowedCompactFields k) with true end. cbv iota.
  destruct P1 as [l P1]. split; [exists l; by chase|]. split; [by chase|]. split; [by chase|]. split; [by chase|].
  split_and!; by chase.
Qed.

(** A compact request carries exactly the fields of its contract: nothing
    but the seven allowed names, the model, a clean input and the instructions
    with their types, an array of tools and a boolean for parallel calls, and
    objects, when they are there, for [reasoning] and [text]. *)
Theorem compact_request_contract o o' :
  normalize_object o true = Ret o' ->
  (forall k, is_Some (o' !! k) -> k ∈ kAllowedCompactFields) /\
  model_ok (o' !! $"model") /\ input_ok (o' !! $"input") /\ is_text (o' !! $"instructions") /\
  (exists l, o' !! $"tools" = Some (JArray l)) /\ is_bool (o' !! $"parallel_tool_calls") /\
  absent_or_object (o' !! $"reasoning") /\ absent_or_object (o' !! $"text").
Proof.
  unfold normalize_object. cbn [negb]. intros E. apply bind_Ret in E as (o1 & E1 & E).
  cbn [mbind except_bind] in E. apply compact_contract_spec in E as (Hk & Ht & Hp & Hr & Hx & Em & Ei & En).
  split.
  { intros k [j Hj]. apply contains_string_true. rewrite Hk in Hj. by destruct (contains_string _ k). }
  rewrite Em, Ei, En. destruct (aliases_spec o1) as [T2 _]. cbv zeta in T2.
  pose proof (touches_delete [$"store"] $"store" (normalize_openai_compatible_aliases o1) eq_refl) as T3.
  pose proof (touches_erase kUnsupportedUpstreamFields (delete $"store" (normalize_openai_compatible_aliases o1))) as T4.
  chase. clear - E1 Ht Hp Hr Hx.
  cut (model_ok (o1 !! $"model") /\ input_ok (o1 !! $"input") /\ is_text (o1 !! $"instructions")).
  { intros (? & ? & ?). split_and!; done. }
  unfold normalize_request_base_fields in E1. destruct (nonempty_string o $"model") as [m|] eqn:Em; [|done].
  apply nonempty_string_some in Em. apply bind_Ret in E1 as (o2 & E2 & E1).
  apply normalize_input_field_spec in E2 as [T1 P1]. cbv zeta in E1. cbn [negb] in E1. injection E1 as <-.
  set (o3 := match string_at o2 $"instructions" with Some _ => _ | None => _ end).
  assert (touches [$"instructions"] o2 o3 /\ is_text (o3 !! $"instructions")) as [T3 P3].
  { unfold o3. destruct (string_at o2 $"instructions") eqn:Ei.
    - split; [done|]. apply string_at_some in Ei. rewrite Ei. by eexists.
    - split; [by apply touches_insert|]. rewrite lookup_insert_eq. by eexists. }
  pose proof (touches_default_field $"store" (JBool false) o3) as T4.
  split; [exists m; by chase|]. split; by chase.
Qed.

(** ** Concrete inputs *)

Definition sample_request : JsonObject := make_object [($"model", JString $"m"); ($"input", JString $"hi")].

Definition normalized (compact_mode : bool) : JsonObject :=
  from_except ∅ (normalize_object sample_request compact_mode).

Lemma normalized_ret compact_mode : normalize_object sample_request compact_mode = Ret (normalized compact_mode).
Proof. apply is_ret_from. destruct compact_mode; vm_compute; reflexivity. Qed.

Lemma normalized_request_typed_witness : request_typed (normalized false).
Proof. exact (proj1 (normalized_request_typed sample_request (normalized false) (normalized_ret false))). Defined.

Lemma compact_request_contract_witness :
  model_ok (normalized true !! $"model") /\ is_bool (normalized true !! $"parallel_tool_calls").
Proof.
  destruct (compact_request_contract sample_request (normalized true) (normalized_ret true))
    as (_ & Hm & _ & _ & _ & Hp & _). exact (conj Hm Hp).
Defined.
