(* ===== verification/RequestPlan.v ===== *)
(** * RequestPlan: the request that goes upstream

    src/native/proxy/openai/src/provider_contract.cpp and
    src/native/proxy/openai/src/upstream_request_plan.cpp: the method, path,
    transport, body and headers of each kind of request, built from the
    normalised body and the filtered headers. *)

From S2P Require Import Prelude Double Text JsonValue Except Headers ModelRegistry PayloadNormalizer.

(** ** openai/src/provider_contract.cpp *)

Section codec.
Context `{JsonCodec}.

Definition normalize_event_type_alias (event_type : bytes) : bytes := event_type.
Definition normalize_sse_data_line (line : bytes) : bytes := line.
Definition normalize_sse_event_block (event_block : bytes) : bytes := event_block.
Definition normalize_stream_event_payload_json (payload_json : bytes) : bytes := payload_json.

Definition serialize_json (payload : Json) : except bytes :=
  match write_json payload with
  | Some serialized => Ret (Text.Json.sanitize_serialized_json serialized)
  | None => Throw $"failed to serialize provider contract JSON"
  end.

Definition parse_json_or_throw (payload_json : bytes) : except Json :=
  match read_json payload_json with
  | Some payload => Ret payload
  | None => Throw $"payload is not valid JSON"
  end.

Definition build_websocket_response_create_payload (payload : JsonObject) : JsonObject :=
  <[$"type" := JString $"response.create"]> payload.

Definition build_websocket_response_create_payload_json (payload_json : bytes) : except bytes :=
  payload ← parse_json_or_throw payload_json;
  match payload with
  | JObject object => serialize_json (JObject (build_websocket_response_create_payload object))
  | _ => Throw $"payload must be a JSON object"
  end.

(** The error object of both events. *)
Definition error_object (code message type param : bytes) : JsonObject :=
  make_object ([($"message", JString message); ($"type", JString type); ($"code", JString code)] ++
    if bool_decide (param = []) then [] else [($"param", JString param)]).

Definition build_websocket_error_event_json (status : Z) (code message type param : bytes) : except bytes :=
  serialize_json (JObject (make_object
    [($"type", JString $"error"); ($"status", JNumber (of_int status));
     ($"error", JObject (error_object code message type param))])).

(** [now]: the system clock in seconds. *)
Definition failed_response (now : Z) (code message error_type response_id error_param : bytes) : JsonObject :=
  make_object ([($"object", JString $"response"); ($"status", JString $"failed");
     ($"error", JObject (error_object code message error_type error_param)); ($"incomplete_details", JNull)] ++
    (if bool_decide (response_id = []) then [] else [($"id", JString response_id)]) ++
    [($"created_at", JNumber (of_int now))]).

Definition build_response_failed_event_json (now : Z) (code message error_type response_id error_param : bytes) :
    except bytes :=
  serialize_json (JObject (make_object
    [($"type", JString $"response.failed");
     ($"response", JObject (failed_response now code message error_type response_id error_param))])).

Definition build_websocket_response_failed_event_json (now : Z)
    (code message error_type response_id error_param : bytes) : except bytes :=
  build_response_failed_event_json now code message error_type response_id error_param.

(** ** openai/src/upstream_request_plan.cpp *)

Record UpstreamRequestPlan := mkUpstreamRequestPlan {
  method : bytes;
  path : bytes;
  transport : bytes;
  body : bytes;
  headers : HeaderMap;
  websocket_binary_payload : bool;
  preserve_upstream_websocket_session : bool;
}.

Definition kResponsesPath : bytes := $"/codex/responses".
Definition kCompactPath : bytes := $"/codex/responses/compact".
Definition kMemoriesTraceSummarizePath : bytes := $"/codex/memories/trace_summarize".
Definition kTranscribePath : bytes := $"/transcribe".

Definition prepare_inbound (inbound_headers : HeaderMap) : HeaderMap := filter_inbound_headers inbound_headers.

Definition extract_model_from_payload (payload_body : bytes) : bytes :=
  match read_object payload_body with
  | Some object => default [] (string_at object $"model")
  | None => []
  end.

Definition normalize_memories_trace_summarize_request (raw_request_body : bytes) : except bytes :=
  match read_object raw_request_body with
  | None => Throw $"memories request payload is not valid JSON"
  | Some object =>
      match write_json (JObject object) with
      | Some serialized => Ret serialized
      | None => Throw $"failed to serialize memories request payload"
      end
  end.

Definition build_responses_http_plan_from_normalized (normalized : bytes) (prepared_inbound : HeaderMap)
    (access_token account_id request_id : bytes) : UpstreamRequestPlan :=
  mkUpstreamRequestPlan $"POST" kResponsesPath $"http-sse" normalized
    (build_upstream_headers prepared_inbound access_token account_id $"text/event-stream" request_id) false false.

Definition build_responses_websocket_plan_from_normalized (normalized : bytes) (prepared_inbound : HeaderMap)
    (access_token account_id request_id : bytes) : except UpstreamRequestPlan :=
  body ← build_websocket_response_create_payload_json normalized;
  Ret (mkUpstreamRequestPlan $"POST" kResponsesPath $"websocket" body
    (build_upstream_websocket_headers prepared_inbound access_token account_id request_id) false false).

Definition build_transcribe_payload_summary (prompt filename content_type audio_bytes : bytes) : except bytes :=
  match write_json (JObject (make_object
    [($"filename", JString filename); ($"content_type", JString content_type); ($"prompt", JString prompt);
     ($"audio_bytes", JNumber (of_int (size_of audio_bytes)))])) with
  | Some serialized => Ret serialized
  | None => Throw $"failed to serialize transcribe payload summary"
  end.

Definition build_responses_http_request_plan (raw_request_body : bytes) (inbound_headers : HeaderMap)
    (access_token account_id request_id : bytes) : except UpstreamRequestPlan :=
  normalized ← normalize_request raw_request_body;
  Ret (build_responses_http_plan_from_normalized normalized (prepare_inbound inbound_headers)
    access_token account_id request_id).

Definition build_responses_websocket_request_plan (raw_request_body : bytes) (inbound_headers : HeaderMap)
    (access_token account_id request_id : bytes) : except UpstreamRequestPlan :=
  normalized ← normalize_request raw_request_body;
  build_responses_websocket_plan_from_normalized normalized (prepare_inbound inbound_headers)
    access_token account_id request_id.

Definition build_responses_stream_request_plan (raw_request_body : bytes) (inbound_headers : HeaderMap)
    (access_token account_id : bytes) (model_registry : ModelRegistry)
    (upstream_stream_transport upstream_stream_transport_override request_id : bytes) : except UpstreamRequestPlan :=
  normalized ← normalize_request raw_request_body;
  let prepared_inbound := prepare_inbound inbound_headers in
  let model := extract_model_from_payload normalized in
  let transport := resolve_stream_transport upstream_stream_transport upstream_stream_transport_override
                     model prepared_inbound model_registry in
  if bool_decide (transport = $"websocket")
  then build_responses_websocket_plan_from_normalized normalized prepared_inbound access_token account_id request_id
  else Ret (build_responses_http_plan_from_normalized normalized prepared_inbound access_token account_id request_id).

Definition build_compact_http_request_plan (raw_request_body : bytes) (inbound_headers : HeaderMap)
    (access_token account_id request_id : bytes) : except UpstreamRequestPlan :=
  normalized ← normalize_compact_request raw_request_body;
  Ret (mkUpstreamRequestPlan $"POST" kCompactPath $"http-json" normalized
    (build_upstream_headers (prepare_inbound inbound_headers) access_token account_id $"application/json" request_id)
    false false).

Definition build_memories_trace_summarize_http_request_plan (raw_request_body : bytes) (inbound_headers : HeaderMap)
    (access_token account_id request_id : bytes) : except UpstreamRequestPlan :=
  normalized ← normalize_memories_trace_summarize_request raw_request_body;
  Ret (mkUpstreamRequestPlan $"POST" kMemoriesTraceSummarizePath $"http-json" normalized
    (build_upstream_headers (prepare_inbound inbound_headers) access_token account_id $"application/json" request_id)
    false false).

Definition build_transcribe_http_request_plan (prompt filename content_type audio_bytes : bytes)
    (inbound_headers : HeaderMap) (access_token account_id : bytes) : except UpstreamRequestPlan :=
  body ← build_transcribe_payload_summary prompt filename content_type audio_bytes;
  Ret (mkUpstreamRequestPlan $"POST" kTranscribePath $"http-multipart" body
    (build_upstream_transcribe_headers (prepare_inbound inbound_headers) access_token account_id) false false).

(** ** Plans *)

Lemma normalize_with_strategy_ret raw compact text :
  normalize_with_strategy raw compact = Ret text ->
  exists sent object serialized,
    parse_request raw = Ret (JObject sent) /\ normalize_object sent compact = Ret object /\
    write_json (JObject object) = Some serialized /\ text = Text.Json.sanitize_serialized_json serialized.
Proof.
  unfold normalize_with_strategy. intros E. apply bind_Ret in E as (payload & Ep & E).
  destruct payload as [| | | | |sent]; try done. apply bind_Ret in E as (object & Eo & E).
  destruct (write_json (JObject object)) as [serialized|] eqn:Ew; [|done]. injection E as <-.
  exists sent, object, serialized. done.
Qed.

Lemma filter_inbound_spec inbound k v :
  (k, v) ∈ filter_inbound_headers inbound -> (k, v) ∈ inbound /\ should_drop_inbound_header k = false.
Proof.
  intros Hin. destruct (hm_copy_spec should_drop_inbound_header inbound []) as [_ Hi]; [constructor|].
  destruct (Hi k v Hin) as [Hn|?]; [by apply elem_of_nil in Hn|done].
Qed.

(** A plan for a streamed response posts a well-typed request to the
    responses endpoint over the transport the resolution chose: over HTTP the
    body is the normalised request itself, over the websocket it is the same
    request under the type [response.create]; the only [Authorization] it
    carries is the proxy's token. *)
Theorem stream_plan_well_formed raw inbound access_token account_id registry configured override request_id plan :
  build_responses_stream_request_plan raw inbound access_token account_id registry configured override request_id =
    Ret plan ->
  exists sent object serialized,
    parse_request raw = Ret (JObject sent) /\ normalize_object sent false = Ret object /\ request_typed object /\
    write_json (JObject object) = Some serialized /\
    let text := Text.Json.sanitize_serialized_json serialized in
    let chosen := resolve_stream_transport configured override (extract_model_from_payload text)
                    (prepare_inbound inbound) registry in
    method plan = $"POST" /\ path plan = kResponsesPath /\
    (chosen = $"http" /\ transport plan = $"http-sse" /\ body plan = text \/
     chosen = $"websocket" /\ transport plan = $"websocket" /\
     exists read wire, read_object text = Some read /\
       write_json (JObject (<[$"type" := JString $"response.create"]> read)) = Some wire /\
       body plan = Text.Json.sanitize_serialized_json wire) /\
    (forall k v, (k, v) ∈ headers plan -> Text.Ascii.to_lower_ascii k = $"authorization" -> v = bearer access_token).
Proof.
  unfold build_responses_stream_request_plan. intros E. apply bind_Ret in E as (text & En & E).
  apply normalize_with_strategy_ret in En as (sent & object & serialized & Ep & Eo & Ew & ->).
  exists sent, object, serialized. split; [done|]. split; [done|].
  split; [by apply normalize_object_spec in Eo as [? _]|]. split; [done|]. cbv zeta in *.
  set (text := Text.Json.sanitize_serialized_json serialized) in *.
  set (chosen := resolve_stream_transport _ _ _ _ _) in *.
  assert (chosen = $"websocket" \/ chosen = $"http") as Hc by apply resolve_stream_transport_cases. clearbody chosen.
  case_bool_decide as Et.
  - unfold build_responses_websocket_plan_from_normalized in E. apply bind_Ret in E as (wire & Eb & [= <-]).
    cbn [method path transport body headers]. split; [done|]. split; [done|]. split.
    + right. split; [done|]. split; [done|]. unfold build_websocket_response_create_payload_json in Eb.
      apply bind_Ret in Eb as (j & Ej & Eb). unfold parse_json_or_throw in Ej. unfold read_object.
      destruct (read_json text) as [j'|]; [|done]. injection Ej as ->. destruct j as [| | | | |read]; try done.
      unfold serialize_json, build_websocket_response_create_payload in Eb.
      destruct (write_json (JObject (<[$"type" := JString $"response.create"]> read))) as [w|] eqn:Ewj; [|done]. injection Eb as <-. exists read, w. done.
    + intros k v Hin Hk. apply websocket_headers_safe in Hin as [[_ ?]|[[-> _]|[[-> _]|[Hb|(_ & Hf & _)]]]]; try done.
      * by rewrite Hb in Hk.
      * by apply forwardable_not_credential in Hf as [? _].
  - destruct Hc as [?|Hc]; [done|]. injection E as <-. cbn [method path transport body headers build_responses_http_plan_from_normalized].
    split; [done|]. split; [done|]. split; [by left|].
    intros k v Hin Hk. apply upstream_headers_origin, upstream_header_credentials in Hin as [Ha _]. by apply Ha.
Qed.
End codec.

(** ** A concrete input *)

Definition sample_text : bytes := $"{}".

(** A codec that reads the sample request under one text. *)
Definition request_codec : JsonCodec := sample_codec sample_text (JObject sample_request).

Definition sample_result : except UpstreamRequestPlan :=
  @build_responses_stream_request_plan request_codec sample_text [] $"token" $"acct" (make_registry []) $"http" []
    $"req".

Definition sample_plan : UpstreamRequestPlan :=
  from_except (mkUpstreamRequestPlan [] [] [] [] [] false false) sample_result.

Lemma sample_result_ret : sample_result = Ret sample_plan.
Proof. apply is_ret_from. vm_compute. reflexivity. Qed.

Lemma stream_plan_well_formed_witness : method sample_plan = $"POST" /\ path sample_plan = kResponsesPath.
Proof.
  destruct (@stream_plan_well_formed request_codec sample_text [] $"token" $"acct" (make_registry []) $"http" []
    $"req" sample_plan sample_result_ret) as (? & ? & ? & _ & _ & _ & _ & Hm & Hp & _).
  exact (conj Hm Hp).
Defined.
