(* ===== verification/Sessions.v ===== *)
(** * Sessions: the tables of sessions that live in memory

    src/native/proxy/session/src/session_bridge.cpp, session_cleanup.cpp,
    sticky_resolver.cpp and src/native/auth/dashboard/src/session_manager.cpp.
    Times are milliseconds of the system clock; they stay far from the ends of
    [std::int64_t], so that their sums are taken in [Z]. *)

From S2P Require Import Prelude.

(** ** SessionBridge *)
Module Bridge.

Record BridgeSession := mkBridgeSession {
  key : bytes;
  upstream_session_id : bytes;
  updated_at_ms : Z;
}.

Record SessionBridge := mkSessionBridge { ttl_ms_ : Z; sessions_ : gmap bytes BridgeSession }.

Definition make_bridge (ttl_ms : Z) : SessionBridge := mkSessionBridge (Z.max 1 ttl_ms) ∅.

Definition is_stale (b : SessionBridge) (session : BridgeSession) (now_ms : Z) : bool :=
  if now_ms <? updated_at_ms session then false
  else ttl_ms_ b <=? now_ms - updated_at_ms session.

Definition upsert (k id : bytes) (now_ms : Z) (b : SessionBridge) : SessionBridge :=
  let session :=
    match sessions_ b !! k with
    | None => mkBridgeSession k id now_ms
    | Some session => mkBridgeSession (key session) id now_ms
    end in
  mkSessionBridge (ttl_ms_ b) (<[k := session]> (sessions_ b)).

Definition find (k : bytes) (now_ms : Z) (b : SessionBridge) : option BridgeSession :=
  match sessions_ b !! k with
  | Some session => if is_stale b session now_ms then None else Some session
  | None => None
  end.

(** The number of sessions dropped, and the bridge afterwards. *)
Definition purge_stale (now_ms : Z) (b : SessionBridge) : Z * SessionBridge :=
  (Z.of_nat (base.size (filter (fun kv : bytes * BridgeSession => is_stale b kv.2 now_ms = true) (sessions_ b))),
   mkSessionBridge (ttl_ms_ b) (filter (fun kv : bytes * BridgeSession => is_stale b kv.2 now_ms = false) (sessions_ b))).

Definition size (b : SessionBridge) : Z := Z.of_nat (base.size (sessions_ b)).

Definition clear (b : SessionBridge) : SessionBridge := mkSessionBridge (ttl_ms_ b) ∅.

(** *** SessionCleanupScheduler *)

Record SessionCleanupScheduler := mkScheduler { interval_ms_ : Z; last_run_ms_ : Z }.

Definition make_scheduler (interval_ms : Z) : SessionCleanupScheduler := mkScheduler (Z.max 1 interval_ms) 0.

Definition should_run (now_ms : Z) (s : SessionCleanupScheduler) : bool :=
  if now_ms <? last_run_ms_ s then false else interval_ms_ s <=? now_ms - last_run_ms_ s.

Definition run (now_ms : Z) (s : SessionCleanupScheduler) (b : SessionBridge) :
    Z * SessionCleanupScheduler * SessionBridge :=
  if negb (should_run now_ms s) then (0, s, b)
  else let '(purged, b) := purge_stale now_ms b in (purged, mkScheduler (interval_ms_ s) now_ms, b).

Lemma is_stale_spec b session now :
  is_stale b session now = true <-> updated_at_ms session <= now /\ ttl_ms_ b <= now - updated_at_ms session.
Proof. unfold is_stale. case_if; bool_hyps; rewrite ?Z.leb_le; split; intros; try done; lia. Qed.

(** A stale session stays stale. *)
Lemma is_stale_mono b session now now' :
  now <= now' -> is_stale b session now = true -> is_stale b session now' = true.
Proof. rewrite !is_stale_spec. lia. Qed.

Lemma purge_lookup now b k :
  sessions_ (purge_stale now b).2 !! k =
  match sessions_ b !! k with
  | Some session => if is_stale b session now then None else Some session
  | None => None
  end.
Proof.
  cbn. rewrite map_lookup_filter. destruct (sessions_ b !! k) as [s|] eqn:E; simpl; [|done].
  by destruct (is_stale b s now).
Qed.

Lemma find_purge k now now' b : now <= now' -> find k now' (purge_stale now b).2 = find k now' b.
Proof.
  intros Hn. unfold find. rewrite purge_lookup. destruct (sessions_ b !! k) as [s|]; [|done].
  destruct (is_stale b s now) eqn:E; [|done]. by rewrite (is_stale_mono b s now now' Hn E).
Qed.

(** Purging is never observable: whatever the clean-up schedule does at
    [now], every lookup from then on answers as if it had not run; what it
    reports is the number of sessions that are gone. *)
Theorem cleanup_unobservable now s b :
  let '(purged, s', b') := run now s b in
  (forall k now', now <= now' -> find k now' b' = find k now' b) /\
  size b' + purged = size b /\
  (should_run now s = true ->
    last_run_ms_ s' = now /\
    map_Forall (fun _ session => is_stale b session now = false) (sessions_ b')) /\
  (should_run now s = false -> s' = s /\ b' = b /\ purged = 0).
Proof.
  unfold run. destruct (should_run now s) eqn:E; cbn [negb].
  - destruct (purge_stale now b) as [purged b'] eqn:Ep. split; [|split; [|split; [|done]]].
    + intros k now' Hn. replace b' with (purge_stale now b).2 by by rewrite Ep. by apply find_purge.
    + injection Ep as <- <-. unfold size. cbn [sessions_].
      rewrite <- Nat2Z.inj_add. f_equal.
      rewrite <- map_size_disj_union; [|apply map_disjoint_spec; intros i x y [Hx Px]%map_lookup_filter_Some [Hy Py]%map_lookup_filter_Some;
        simpl in *; congruence].
      f_equal. apply map_eq. intros i. rewrite lookup_union, !map_lookup_filter.
      destruct (sessions_ b !! i) as [x|]; simpl; [|done].
      destruct (is_stale b x now) eqn:Ex; repeat case_guard; simpl; try done; congruence.
    + intros _. split; [done|]. injection Ep as <- <-. cbn. intros k x Hx.
      by apply map_lookup_filter_Some in Hx as [_ ?].
  - split; [done|]. split; [lia|]. done.
Qed.

(** A session is found for its whole life, and only then: from the moment it
    is stored or refreshed until [ttl] milliseconds later, under its own key
    and with the identifier stored last. *)
Lemma find_upsert k id t k' now b :
  0 < ttl_ms_ b ->
  upstream_session_id <$> find k' now (upsert k id t b) =
  if decide (k' = k) then if now - t <? ttl_ms_ b then Some id else None
  else upstream_session_id <$> find k' now b.
Proof.
  intros Ht. unfold find, upsert. cbn [sessions_]. rewrite lookup_insert. case_decide as E.
  - subst k'. rewrite decide_True by done.
    assert (forall s, upstream_session_id s = id -> updated_at_ms s = t ->
      upstream_session_id <$> (if is_stale (mkSessionBridge (ttl_ms_ b)
        (<[k := s]> (sessions_ b))) s now then None else Some s) = if now - t <? ttl_ms_ b then Some id else None) as H.
    { intros s <- <-. destruct (is_stale _ s now) eqn:Es.
      - apply is_stale_spec in Es. cbn [ttl_ms_] in Es. destruct (Z.ltb_spec (now - updated_at_ms s) (ttl_ms_ b)); [lia|done].
      - apply not_true_iff_false in Es. rewrite is_stale_spec in Es. cbn [ttl_ms_] in Es.
        destruct (Z.ltb_spec (now - updated_at_ms s) (ttl_ms_ b)); [done|lia]. }
    destruct (sessions_ b !! k); by apply H.
  - rewrite decide_False by congruence. done.
Qed.

End Bridge.

(** ** StickyResolver *)
Module Sticky.

Record StickySelection := mkStickySelection { key : bytes; account_id : bytes; reused : bool }.

Record StickyResolver := mkStickyResolver {
  account_ids_ : list bytes;
  sticky_map_ : gmap bytes bytes;
  cursor_ : nat;
}.

Definition make_resolver (account_ids : list bytes) : StickyResolver := mkStickyResolver account_ids ∅ 0.

Definition pick (k : bytes) (r : StickyResolver) : StickySelection * StickyResolver :=
  match sticky_map_ r !! k with
  | Some account => (mkStickySelection k account true, r)
  | None =>
      if (length (account_ids_ r) =? 0)%nat then (mkStickySelection k [] false, r)
      else
        let index := (cursor_ r mod length (account_ids_ r))%nat in
        let account := nth index (account_ids_ r) [] in
        (mkStickySelection k account false,
         mkStickyResolver (account_ids_ r) (<[k := account]> (sticky_map_ r))
           ((index + 1) mod length (account_ids_ r)))
  end.

Definition erase (k : bytes) (r : StickyResolver) : bool * StickyResolver :=
  (match sticky_map_ r !! k with Some _ => true | None => false end,
   mkStickyResolver (account_ids_ r) (delete k (sticky_map_ r)) (cursor_ r)).

Definition clear (r : StickyResolver) : StickyResolver := mkStickyResolver (account_ids_ r) ∅ 0.

Inductive op := Pick (k : bytes) | Erase (k : bytes) | Clear.

Definition step (r : StickyResolver) (o : op) : StickyResolver :=
  match o with Pick k => (pick k r).2 | Erase k => (erase k r).2 | Clear => clear r end.

Definition run_ops (r : StickyResolver) (ops : list op) : StickyResolver := foldl step r ops.

Definition wf (r : StickyResolver) : Prop :=
  map_Forall (fun _ account => account ∈ account_ids_ r) (sticky_map_ r).

Lemma pick_account r k : account_ids_ (pick k r).2 = account_ids_ r.
Proof. unfold pick. by repeat case_match. Qed.

Lemma run_accounts r ops : account_ids_ (run_ops r ops) = account_ids_ r.
Proof.
  unfold run_ops. revert r. induction ops as [|o ops IH]; intros r; simpl; [done|]. rewrite IH.
  destruct o; simpl; [apply pick_account|done..].
Qed.

Lemma nth_mod_elem (l : list bytes) i : (length l =? 0)%nat = false -> nth (i mod length l) l [] ∈ l.
Proof.
  intros H. apply Nat.eqb_neq in H. apply list_elem_of_In, nth_In. by apply Nat.mod_upper_bound.
Qed.

Lemma resolver_step_wf r o : wf r -> wf (step r o).
Proof.
  intros Hw. destruct o; unfold wf; simpl.
  - unfold pick. repeat case_match; simpl; try done. apply map_Forall_insert_2; [|done]. by apply nth_mod_elem.
  - by apply map_Forall_delete.
  - apply map_Forall_empty.
Qed.

Lemma resolver_run_wf r ops : wf r -> wf (run_ops r ops).
Proof. unfold run_ops. revert r. induction ops; intros r; simpl; [done|]. intros. by apply IHops, resolver_step_wf. Qed.

(** A key keeps its account through everything but its own removal. *)
Lemma resolver_run_keeps r ops k account :
  sticky_map_ r !! k = Some account ->
  Erase k ∉ ops -> Clear ∉ ops -> sticky_map_ (run_ops r ops) !! k = Some account.
Proof.
  unfold run_ops. revert r. induction ops as [|o ops IH]; intros r Hk He Hc; simpl; [done|].
  apply not_elem_of_cons in He as [He1 He2], Hc as [Hc1 Hc2]. apply IH; [|done..].
  destruct o as [k'|k'|]; simpl; [| |done].
  - unfold pick. repeat case_match; simpl; try done. rewrite lookup_insert_ne; congruence.
  - rewrite lookup_delete_ne; congruence.
Qed.

(** The keys that are new, in the order they arrive, go round the accounts. *)
Lemma pick_fresh r keys :
  account_ids_ r <> [] -> NoDup keys -> Forall (fun k => sticky_map_ r !! k = None) keys ->
  forall i k, keys !! i = Some k ->
    sticky_map_ (run_ops r (Pick <$> keys)) !! k =
      Some (nth ((cursor_ r + i) mod length (account_ids_ r)) (account_ids_ r) []).
Proof.
  unfold run_ops. revert r. induction keys as [|k0 keys IH]; intros r Ha Hn Hf i k Hi; [done|].
  apply NoDup_cons in Hn as [Hk0 Hn]. apply Forall_cons in Hf as [H0 Hf]. simpl.
  assert ((length (account_ids_ r) =? 0)%nat = false) as Hl.
  { apply Nat.eqb_neq. by destruct (account_ids_ r). }
  set (r1 := (pick k0 r).2).
  assert (sticky_map_ r1 = <[k0 := nth (cursor_ r mod length (account_ids_ r)) (account_ids_ r) []]> (sticky_map_ r) /\
          account_ids_ r1 = account_ids_ r /\
          cursor_ r1 = ((cursor_ r mod length (account_ids_ r) + 1) mod length (account_ids_ r))%nat) as (Hm & Hacc & Hcur).
  { unfold r1, pick. by rewrite H0, Hl. }
  clearbody r1. destruct i as [|i]; simpl in Hi.
  - injection Hi as <-. rewrite Nat.add_0_r.
    apply (resolver_run_keeps r1 (Pick <$> keys)); [by rewrite Hm, lookup_insert_eq| |];
      intros Hin; apply list_elem_of_fmap in Hin as (? & ? & ?); done.
  - rewrite (IH r1) with (i := i); [|by rewrite Hacc|done| |done].
    + rewrite Hacc, Hcur. generalize (length (account_ids_ r)). intros n.
      assert (((cursor_ r mod n + 1) mod n + i) mod n = (cursor_ r + S i) mod n)%nat as ->; [|done].
      rewrite Nat.Div0.add_mod_idemp_l, <- Nat.add_assoc, Nat.Div0.add_mod_idemp_l. done.
    + apply Forall_forall. intros k' Hk'. rewrite Hm, lookup_insert_ne; [|by intros ->].
      by eapply Forall_forall in Hf.
Qed.

(** Stickiness: once a key was given an account, every later request with the
    key goes to the same account, whatever other keys are picked or erased in
    between, and the answer says that it was reused; an account that is given
    is one of the configured ones. *)
Theorem sticky_pick_stable accounts before k ops :
  let r := run_ops (make_resolver accounts) before in
  let first := (pick k r).1 in
  let later := (pick k (run_ops (pick k r).2 ops)).1 in
  accounts <> [] -> Erase k ∉ ops -> Clear ∉ ops ->
  account_id first ∈ accounts /\ account_id later = account_id first /\ reused later = true.
Proof.
  intros r first later Ha He Hc.
  assert (wf r) as Hw by (apply resolver_run_wf, map_Forall_empty).
  assert (account_ids_ r = accounts) as Hr by apply run_accounts.
  assert (sticky_map_ (pick k r).2 !! k = Some (account_id first) /\ account_id first ∈ accounts) as [Hk Hin].
  { unfold first, pick. destruct (sticky_map_ r !! k) as [a|] eqn:E; simpl.
    - split; [done|]. rewrite <- Hr. by eapply Hw.
    - assert ((length (account_ids_ r) =? 0)%nat = false) as Hl.
      { apply Nat.eqb_neq. rewrite Hr. by destruct accounts. }
      rewrite Hl. simpl. rewrite lookup_insert_eq. split; [done|]. rewrite Hr in Hl |- *. by apply nth_mod_elem. }
  split; [done|]. unfold later, pick at 1 3.
  rewrite (resolver_run_keeps (pick k r).2 ops k (account_id first)) by done. done.
Qed.

Lemma sticky_pick_stable_witness :
  let r := run_ops (make_resolver [$"a"; $"b"]) [Pick $"x"] in
  account_id (pick $"k" (run_ops (pick $"k" r).2 [Pick $"y"; Erase $"x"])).1 = account_id (pick $"k" r).1.
Proof.
  destruct (sticky_pick_stable [$"a"; $"b"] [Pick $"x"] $"k" [Pick $"y"; Erase $"x"]) as (_ & H & _).
  - discriminate.
  - intros H. repeat (apply elem_of_cons in H as [H|H]; [discriminate|]). by apply elem_of_nil in H.
  - intros H. repeat (apply elem_of_cons in H as [H|H]; [discriminate|]). by apply elem_of_nil in H.
  - exact H.
Defined.

End Sticky.

(** ** DashboardSessionManager *)
Module Dashboard.

Record DashboardSessionState := mkDashboardSessionState {
  expires_at_ms : Z;
  password_verified : bool;
  totp_verified : bool;
}.

Record DashboardSessionManager := mkManager { ttl_ms_ : Z; sessions_ : gmap bytes DashboardSessionState }.

Definition make_manager (ttl_ms : Z) : DashboardSessionManager := mkManager (Z.max 1 ttl_ms) ∅.

(** [session_id]: the random UUID drawn for the session. *)
Definition create (session_id : bytes) (password totp : bool) (now_ms : Z) (m : DashboardSessionManager) :
    bytes * DashboardSessionManager :=
  (session_id,
   mkManager (ttl_ms_ m)
     (<[session_id := mkDashboardSessionState (now_ms + ttl_ms_ m) password totp]> (sessions_ m))).

Definition get (session_id : bytes) (now_ms : Z) (m : DashboardSessionManager) : option DashboardSessionState :=
  if bool_decide (session_id = []) then None
  else match sessions_ m !! session_id with
       | None => None
       | Some s => if expires_at_ms s <=? now_ms then None else Some s
       end.

Definition erase (session_id : bytes) (m : DashboardSessionManager) : DashboardSessionManager :=
  if bool_decide (session_id = []) then m
  else mkManager (ttl_ms_ m) (delete session_id (sessions_ m)).

Definition purge_expired (now_ms : Z) (m : DashboardSessionManager) : Z * DashboardSessionManager :=
  (Z.of_nat (base.size (filter (fun kv : bytes * DashboardSessionState => expires_at_ms kv.2 <= now_ms) (sessions_ m))),
   mkManager (ttl_ms_ m) (filter (fun kv : bytes * DashboardSessionState => ~ expires_at_ms kv.2 <= now_ms) (sessions_ m))).

Inductive op :=
| Create (session_id : bytes) (password totp : bool) (now_ms : Z)
| EraseOp (session_id : bytes)
| Purge (now_ms : Z).

Definition step (m : DashboardSessionManager) (o : op) : DashboardSessionManager :=
  match o with
  | Create id p t now => (create id p t now m).2
  | EraseOp id => erase id m
  | Purge now => (purge_expired now m).2
  end.

Definition run_ops (m : DashboardSessionManager) (ops : list op) : DashboardSessionManager := foldl step m ops.

(** The state of the session a reader may rely on: the last thing that was
    done with the identifier was creating it. *)
Fixpoint last_created (id : bytes) (ops : list op) (acc : option (bool * bool * Z)) : option (bool * bool * Z) :=
  match ops with
  | [] => acc
  | Create id' p t now :: ops => last_created id ops (if decide (id' = id) then Some (p, t, now) else acc)
  | EraseOp id' :: ops => last_created id ops (if decide (id' = id) then None else acc)
  | Purge _ :: ops => last_created id ops acc
  end.

(** No purge in the run looked at a clock past [now]. *)
Definition purges_before (now : Z) (ops : list op) : Prop :=
  Forall (fun o => match o with Purge t => t <= now | _ => True end) ops.

Definition get_spec (ttl : Z) (created : option (bool * bool * Z)) (now : Z) : option DashboardSessionState :=
  match created with
  | Some (p, t, at_ms) => if now <? at_ms + ttl then Some (mkDashboardSessionState (at_ms + ttl) p t) else None
  | None => None
  end.

Lemma get_run id now ops m acc :
  id <> [] -> purges_before now ops -> get id now m = get_spec (ttl_ms_ m) acc now ->
  get id now (run_ops m ops) = get_spec (ttl_ms_ m) (last_created id ops acc) now.
Proof.
  intros Hid. unfold run_ops. revert m acc. induction ops as [|o ops IH]; intros m acc Hp Hg; [done|].
  apply Forall_cons in Hp as [Ho Hp]. cbn [foldl].
  assert (ttl_ms_ (step m o) = ttl_ms_ m) as Ht.
  { destruct o; simpl; [done| |done]. unfold erase. by case_bool_decide. }
  rewrite <- Ht. destruct o as [id' p t at_ms|id'|at_ms]; cbn [last_created].
  - apply IH; [done|]. rewrite Ht. unfold get. rewrite bool_decide_false by done. cbn [step create snd sessions_].
    rewrite lookup_insert. case_decide as E; [|unfold get in Hg; by rewrite bool_decide_false in Hg]. simpl.
    destruct (Z.leb_spec (at_ms + ttl_ms_ m) now), (Z.ltb_spec now (at_ms + ttl_ms_ m)); done || lia.
  - apply IH; [done|]. rewrite Ht. cbn [step]. unfold erase. case_bool_decide as E.
    { subst. by rewrite decide_False. }
    case_decide as E'; [|unfold get in *; rewrite bool_decide_false in * by done; cbn [sessions_]; by rewrite lookup_delete_ne].
    subst. unfold get. rewrite bool_decide_false by done. cbn [sessions_]. by rewrite lookup_delete_eq.
  - apply IH; [done|]. rewrite Ht, <- Hg. unfold get. rewrite bool_decide_false by done.
    cbn [step purge_expired snd sessions_]. rewrite map_lookup_filter.
    destruct (sessions_ m !! id) as [s|]; simpl; [|done]. case_guard; simpl; [done|].
    destruct (Z.leb_spec (expires_at_ms s) now); [done|lia].
Qed.

(** A dashboard session is accepted exactly when it was created under its
    identifier, not erased since, and less than the time to live has passed:
    then the answer is what was verified at its creation. Purging never shows,
    as long as no purge ran with a later clock. *)
Theorem dashboard_session_valid ttl ops id now :
  id <> [] -> purges_before now ops ->
  get id now (run_ops (make_manager ttl) ops) = get_spec (Z.max 1 ttl) (last_created id ops None) now.
Proof.
  intros Hid Hp. apply (get_run id now ops (make_manager ttl) None); [done|done|].
  unfold get. rewrite bool_decide_false by done. done.
Qed.

Lemma dashboard_session_valid_witness :
  get $"s" 15 (run_ops (make_manager 10) [Create $"s" true false 6; Purge 12]) =
  Some (mkDashboardSessionState 16 true false).
Proof.
  etransitivity; [apply (dashboard_session_valid 10 [Create $"s" true false 6; Purge 12] $"s" 15)|].
  - discriminate.
  - repeat constructor. lia.
  - vm_compute. reflexivity.
Defined.

(** Every session ends: some time after its creation nothing is accepted
    under its identifier, however often it is looked up, and the next purge
    forgets it. *)
Theorem dashboard_session_ends ttl ops id :
  exists t, forall now, t <= now ->
    get id now (run_ops (make_manager ttl) ops) = None /\
    sessions_ (purge_expired now (run_ops (make_manager ttl) ops)).2 !! id = None.
Proof.
  set (m := run_ops _ _). exists (from_option expires_at_ms 0 (sessions_ m !! id)). intros now Hn.
  unfold get. cbn [purge_expired snd sessions_]. rewrite map_lookup_filter.
  destruct (sessions_ m !! id) as [s|]; simpl in *; [|by destruct (bool_decide (id = []))].
  destruct (Z.leb_spec (expires_at_ms s) now); [|lia].
  split; [by destruct (bool_decide (id = []))|]. case_guard; [done|done].
Qed.

End Dashboard.
