(* ===== verification/SessionRepo.v ===== *)
(** * SessionRepo: the tables of sessions in the database

    src/native/db/repositories/src/session_repo.cpp. A table is its rows in
    the order of their rowid. Every function resolves the handle, ensures the
    schema and runs one statement; [ok] says whether all of that succeeds, and
    a call that fails leaves the table as it is, as SQLite does. *)

From S2P Require Import Prelude Text.
Import Text.Ascii.

(** ** proxy_sticky_sessions *)
Module StickySessions.

Record ProxyStickySessionRecord := mkStickyRecord {
  session_key : bytes;
  account_id : bytes;
  kind : bytes;
  updated_at_ms : Z;
  expires_at_ms : Z;
}.

Abbreviation table := (list ProxyStickySessionRecord).

Definition normalize_sticky_session_kind (kind : bytes) : bytes :=
  let normalized := to_lower_ascii (trim_ascii kind) in
  if bool_decide (normalized = $"prompt_cache") || bool_decide (normalized = $"codex_session") ||
     bool_decide (normalized = $"sticky_thread") then normalized
  else $"sticky_thread".

(** [INSERT ... ON CONFLICT(session_key) DO UPDATE]: a row that is there
    keeps its rowid. *)
Fixpoint insert_row (row : ProxyStickySessionRecord) (t : table) : table :=
  match t with
  | [] => [row]
  | r :: t' => if bool_decide (session_key r = session_key row) then row :: t' else r :: insert_row row t'
  end.

Definition upsert_proxy_sticky_session (ok : bool) (session_key account_id : bytes) (now_ms ttl_ms : Z) (kind : bytes)
    (t : table) : bool * table :=
  if negb ok || bool_decide (session_key = []) || bool_decide (account_id = []) then (false, t)
  else
    let safe_ttl_ms := Z.max 1 ttl_ms in
    (true, insert_row (mkStickyRecord session_key account_id (normalize_sticky_session_kind kind) now_ms
                         (now_ms + safe_ttl_ms)) t).

Definition live_row (key : bytes) (now_ms : Z) (r : ProxyStickySessionRecord) : bool :=
  bool_decide (session_key r = key) && (now_ms <? expires_at_ms r).

Definition find_proxy_sticky_session_account (ok : bool) (session_key : bytes) (now_ms : Z) (t : table) : option bytes :=
  if negb ok || bool_decide (session_key = []) then None
  else match List.find (live_row session_key now_ms) t with
       | None => None
       | Some r => if bool_decide (account_id r = []) then None else Some (account_id r)
       end.

(** [DELETE ... WHERE p]: the number of rows deleted, and the rest. *)
Definition delete_rows {A} (p : A -> bool) (t : list A) : Z * list A :=
  (size_of (filter (fun r => p r = true) t), filter (fun r => p r = false) t).

Definition purge_expired_proxy_sticky_sessions (ok : bool) (now_ms : Z) (t : table) : Z * table :=
  if negb ok then (0, t) else delete_rows (fun r => expires_at_ms r <=? now_ms) t.

Definition purge_proxy_sticky_sessions_for_account (ok : bool) (account : bytes) (t : table) : Z * table :=
  if negb ok || bool_decide (account = []) then (0, t)
  else delete_rows (fun r => bool_decide (account_id r = account)) t.

(** [ORDER BY updated_at_ms DESC, session_key ASC] *)
Definition listed_before (a b : ProxyStickySessionRecord) : Prop :=
  updated_at_ms b < updated_at_ms a \/
  (updated_at_ms a = updated_at_ms b /\ bytes_le (session_key a) (session_key b)).

#[global] Instance listed_before_dec a b : Decision (listed_before a b).
Proof. unfold listed_before. apply _. Defined.

(** [LIMIT l OFFSET o] of [std::int64_t]s: a negative limit is none, a
    negative offset is zero. *)
Definition limit_offset {A} (limit offset : Z) (l : list A) : list A :=
  let rest := drop (Z.to_nat offset) l in
  if limit <? 0 then rest else take (Z.to_nat limit) rest.

Definition read_record (r : ProxyStickySessionRecord) : ProxyStickySessionRecord :=
  mkStickyRecord (session_key r) (account_id r) (normalize_sticky_session_kind (kind r)) (updated_at_ms r) (expires_at_ms r).

Definition list_proxy_sticky_sessions (ok : bool) (limit offset : Z) (t : table) : list ProxyStickySessionRecord :=
  if negb ok || (limit =? 0) then []
  else filter (fun r => session_key r <> [] /\ account_id r <> [])
         (read_record <$> limit_offset (sint 64 limit) (sint 64 offset) (merge_sort listed_before t)).

(** The table as the map it implements. *)
Definition wf (t : table) : Prop :=
  NoDup (session_key <$> t) /\ Forall (fun r => session_key r <> [] /\ account_id r <> []) t.

Lemma insert_row_keys row t :
  session_key <$> insert_row row t =
  if decide (session_key row ∈ (session_key <$> t)) then session_key <$> t
  else (session_key <$> t) ++ [session_key row].
Proof.
  induction t as [|r t IH]; [done|]. csimpl.
  case_bool_decide as E; csimpl.
  - rewrite decide_True by (rewrite E; left). by rewrite E.
  - rewrite IH. destruct (decide (session_key row ∈ (session_key <$> t))) as [H|H].
    + by rewrite decide_True by (by right).
    + rewrite decide_False; [done|]. rewrite elem_of_cons. intros [?|?]; [congruence|done].
Qed.

Lemma elem_of_insert_row row t r : r ∈ insert_row row t -> r = row \/ r ∈ t.
Proof.
  induction t as [|r' t IH]; simpl; [rewrite list_elem_of_singleton; auto|].
  case_bool_decide; rewrite !elem_of_cons; naive_solver.
Qed.

Lemma insert_row_wf row t :
  session_key row <> [] -> account_id row <> [] -> wf t -> wf (insert_row row t).
Proof.
  intros Hk Ha [Hn Hf]. split.
  - rewrite insert_row_keys. case_decide; [done|]. apply NoDup_app. split; [done|].
    split; [intros x Hx Hx'; apply list_elem_of_singleton in Hx'; congruence|apply NoDup_singleton].
  - apply Forall_forall. intros r Hr. apply elem_of_insert_row in Hr as [->|Hr]; [done|].
    by eapply Forall_forall in Hf.
Qed.

Lemma filter_wf (p : ProxyStickySessionRecord -> Prop) `{!forall x, Decision (p x)} t : wf t -> wf (filter p t).
Proof.
  intros [Hn Hf]. split; [|by apply Forall_filter]. eapply sublist_NoDup; [exact Hn|].
  apply fmap_sublist, sublist_filter.
Qed.

(** The operations of the table. *)
Inductive op :=
| Upsert (ok : bool) (key account : bytes) (now ttl : Z) (kind : bytes)
| PurgeExpired (ok : bool) (now : Z)
| PurgeAccount (ok : bool) (account : bytes).

Definition step (t : table) (o : op) : table :=
  match o with
  | Upsert ok key account now ttl kind => (upsert_proxy_sticky_session ok key account now ttl kind t).2
  | PurgeExpired ok now => (purge_expired_proxy_sticky_sessions ok now t).2
  | PurgeAccount ok account => (purge_proxy_sticky_sessions_for_account ok account t).2
  end.

Lemma table_step_wf t o : wf t -> wf (step t o).
Proof.
  intros Hw. destruct o; simpl; unfold upsert_proxy_sticky_session, purge_expired_proxy_sticky_sessions,
    purge_proxy_sticky_sessions_for_account.
  - case_match eqn:E; simpl; [done|]. bool_hyps. by apply insert_row_wf.
  - case_match; simpl; [done|by apply filter_wf].
  - case_match; simpl; [done|by apply filter_wf].
Qed.

Lemma find_row_key (p : ProxyStickySessionRecord -> bool) t r :
  List.find p t = Some r -> r ∈ t /\ p r = true.
Proof. intros E. apply find_some in E as [? ?]. by rewrite list_elem_of_In. Qed.

(** What a key is mapped to. *)
Definition mapped (t : table) (key : bytes) : option ProxyStickySessionRecord :=
  List.find (fun r => bool_decide (session_key r = key)) t.

Lemma mapped_insert_row row t key :
  mapped (insert_row row t) key = if decide (key = session_key row) then Some row else mapped t key.
Proof.
  unfold mapped. induction t as [|r t IH]; simpl.
  - destruct (decide (key = session_key row)) as [->|H]; [by rewrite bool_decide_true|by rewrite bool_decide_false].
  - destruct (bool_decide (session_key r = session_key row)) eqn:E; simpl.
    + apply bool_decide_eq_true in E. destruct (decide (key = session_key row)) as [->|H].
      * by rewrite bool_decide_true.
      * by rewrite !bool_decide_false by congruence.
    + apply bool_decide_eq_false in E. rewrite IH. destruct (decide (key = session_key row)) as [->|H]; [|done].
      by rewrite bool_decide_false.
Qed.

Lemma find_account_mapped ok key now t :
  wf t -> find_proxy_sticky_session_account ok key now t =
    if ok && negb (bool_decide (key = [])) then
      match mapped t key with
      | Some r => if now <? expires_at_ms r then Some (account_id r) else None
      | None => None
      end
    else None.
Proof.
  intros [Hn Hf]. unfold find_proxy_sticky_session_account, mapped. destruct ok, (bool_decide (key = [])); simpl; try done.
  induction t as [|r t IH]; simpl; [done|].
  apply NoDup_cons in Hn as [Hr Hn]. apply Forall_cons in Hf as [[Hk Ha] Hf]. unfold live_row at 1.
  destruct (bool_decide (session_key r = key)) eqn:E; simpl; [|by apply IH].
  apply bool_decide_eq_true in E. subst key.
  destruct (now <? expires_at_ms r); [by rewrite bool_decide_false|].
  assert (List.find (live_row (session_key r) now) t = None) as ->; [|done].
  destruct (List.find (live_row (session_key r) now) t) as [r'|] eqn:Ef; [|done].
  apply find_row_key in Ef as [Hin Hl]. unfold live_row in Hl. bool_hyps.
  destruct Hr. apply list_elem_of_fmap. by exists r'.
Qed.

(** The table implements a map with expiry: in every reachable table no key
    has two rows, a successful write is what later reads of its key return
    until it expires, it leaves every other key alone, and a purge of the
    expired rows is never visible to a reader whose clock is not behind. *)
Theorem sticky_table_refines_map ops ok key account now ttl kind ok' now' :
  let t := foldl step [] ops in
  let t' := (upsert_proxy_sticky_session ok key account now ttl kind t).2 in
  wf t /\
  (ok = true -> key <> [] -> account <> [] ->
   find_proxy_sticky_session_account true key now' t' = if now' <? now + Z.max 1 ttl then Some account else None) /\
  (forall other, other <> key ->
   find_proxy_sticky_session_account ok' other now' t' = find_proxy_sticky_session_account ok' other now' t) /\
  (forall other at_ms, at_ms <= now' ->
   find_proxy_sticky_session_account ok' other now' (purge_expired_proxy_sticky_sessions ok at_ms t).2 =
   find_proxy_sticky_session_account ok' other now' t).
Proof.
  intros t t'. assert (wf t) as Hw.
  { unfold t. cut (wf []); [|by split; constructor]. generalize (@nil ProxyStickySessionRecord). clear.
    induction ops as [|o ops IH]; intros t Hw; simpl; [done|]. by apply IH, table_step_wf. }
  assert (wf t') as Hw' by (by apply (table_step_wf t (Upsert ok key account now ttl kind))).
  split; [done|]. split; [|split].
  - intros -> Hk Ha. rewrite find_account_mapped by done. rewrite (bool_decide_false _ Hk). simpl.
    unfold t', upsert_proxy_sticky_session. rewrite (bool_decide_false _ Hk), (bool_decide_false _ Ha). simpl.
    rewrite mapped_insert_row. simpl. by rewrite decide_True.
  - intros other Ho. rewrite !find_account_mapped by done.
    assert (mapped t' other = mapped t other) as ->; [|done].
    unfold t', upsert_proxy_sticky_session. case_match; simpl; [done|]. rewrite mapped_insert_row. simpl.
    by rewrite decide_False.
  - intros other at_ms Hle. unfold purge_expired_proxy_sticky_sessions. destruct ok; simpl; [|done].
    unfold find_proxy_sticky_session_account. case_match; [done|].
    assert (forall u, List.find (live_row other now') (filter (fun r => (expires_at_ms r <=? at_ms) = false) u) =
                      List.find (live_row other now') u) as ->; [|done].
    induction u as [|r u IH]; [done|]. rewrite filter_cons. case_decide as E; simpl; [by rewrite IH|].
    rewrite IH. apply not_false_iff_true in E. unfold live_row at 2. bool_hyps.
    destruct (Z.ltb_spec now' (expires_at_ms r)); [lia|]. by rewrite andb_false_r.
Qed.

End StickySessions.

(** ** proxy_response_continuity *)
Module Continuity.
Import StickySessions.

Record ProxyResponseContinuityRecord := mkContinuityRecord {
  continuity_key : bytes;
  api_key_scope : bytes;
  response_id : bytes;
  account_id : bytes;
  recovery_input_json : bytes;
  updated_at_ms : Z;
  expires_at_ms : Z;
}.

Abbreviation table := (list ProxyResponseContinuityRecord).

(** [ON CONFLICT(response_id, api_key_scope) DO UPDATE] *)
Fixpoint insert_record (row : ProxyResponseContinuityRecord) (t : table) : table :=
  match t with
  | [] => [row]
  | r :: t' =>
      if bool_decide (response_id r = response_id row) && bool_decide (api_key_scope r = api_key_scope row)
      then mkContinuityRecord (continuity_key row) (api_key_scope r) (response_id r) (account_id row)
             (if bool_decide (recovery_input_json row = []) then recovery_input_json r else recovery_input_json row)
             (updated_at_ms row) (expires_at_ms row) :: t'
      else r :: insert_record row t'
  end.

Definition upsert_proxy_response_continuity (ok : bool)
    (continuity_key api_key_scope response_id account_id : bytes) (now_ms ttl_ms : Z) (recovery_input_json : bytes)
    (t : table) : bool * table :=
  if negb ok || bool_decide (continuity_key = []) || bool_decide (response_id = []) then (false, t)
  else
    let safe_ttl_ms := Z.max 1 ttl_ms in
    (true, insert_record (mkContinuityRecord continuity_key api_key_scope response_id account_id recovery_input_json
                            now_ms (now_ms + safe_ttl_ms)) t).

(** [ORDER BY updated_at_ms DESC, rowid DESC LIMIT 1] over the rows that
    match. *)
Fixpoint newest (t : table) : option ProxyResponseContinuityRecord :=
  match t with
  | [] => None
  | r :: t' =>
      match newest t' with
      | Some best => if updated_at_ms best <? updated_at_ms r then Some r else Some best
      | None => Some r
      end
  end.

Definition matches_key (key scope : bytes) (now_ms : Z) (r : ProxyResponseContinuityRecord) : bool :=
  bool_decide (continuity_key r = key) && bool_decide (api_key_scope r = scope) && (now_ms <? expires_at_ms r).

Definition matches_response (response scope : bytes) (now_ms : Z) (r : ProxyResponseContinuityRecord) : bool :=
  bool_decide (response_id r = response) && bool_decide (api_key_scope r = scope) && (now_ms <? expires_at_ms r).

(** The check on the record that was read. *)
Definition complete (r : ProxyResponseContinuityRecord) : option ProxyResponseContinuityRecord :=
  if bool_decide (continuity_key r = []) || bool_decide (response_id r = []) then None else Some r.

Definition find_proxy_response_continuity (ok : bool) (continuity_key api_key_scope : bytes) (now_ms : Z) (t : table) :
    option ProxyResponseContinuityRecord :=
  if negb ok || bool_decide (continuity_key = []) then None
  else newest (filter (fun r => matches_key continuity_key api_key_scope now_ms r = true) t) ≫= complete.

Definition find_proxy_response_continuity_by_response_id (ok : bool) (response_id api_key_scope : bytes) (now_ms : Z)
    (t : table) : option ProxyResponseContinuityRecord :=
  if negb ok || bool_decide (response_id = []) then None
  else List.find (matches_response response_id api_key_scope now_ms) t ≫= complete.

Definition find_proxy_response_continuity_account (ok : bool) (response_id api_key_scope : bytes) (now_ms : Z)
    (t : table) : option bytes :=
  if negb ok || bool_decide (response_id = []) then None
  else match List.find (matches_response response_id api_key_scope now_ms) t with
       | Some r => if bool_decide (account_id r = []) then None else Some (account_id r)
       | None => None
       end.

Definition purge_expired_proxy_response_continuity (ok : bool) (now_ms : Z) (t : table) : Z * table :=
  if negb ok then (0, t) else delete_rows (fun r => expires_at_ms r <=? now_ms) t.

Definition purge_proxy_response_continuity_for_account (ok : bool) (account : bytes) (t : table) : Z * table :=
  if negb ok || bool_decide (account = []) then (0, t)
  else delete_rows (fun r => bool_decide (account_id r = account)) t.

Lemma newest_spec t r :
  newest t = Some r -> r ∈ t /\ Forall (fun r' => updated_at_ms r' <= updated_at_ms r) t.
Proof.
  revert r. induction t as [|x t IH]; intros r; simpl; [done|].
  destruct (newest t) as [best|] eqn:E.
  - destruct (IH best eq_refl) as [Hin Hf]. destruct (Z.ltb_spec (updated_at_ms best) (updated_at_ms x)); intros [= <-].
    + split; [left|]. constructor; [done|]. eapply Forall_impl; [exact Hf|]. simpl. lia.
    + split; [by right|]. by constructor.
  - intros [= <-]. split; [left|]. constructor; [done|]. destruct t as [|y t]; [constructor|].
    simpl in E. destruct (newest t); repeat case_match; done.
Qed.

Lemma newest_none t : newest t = None -> t = [].
Proof. destruct t as [|x t]; simpl; [done|]. destruct (newest t); repeat case_match; done. Qed.

(** A lookup by conversation returns a row of the conversation and the
    scope, alive, and the latest of them. *)
Lemma find_continuity_spec ok key scope now t r :
  find_proxy_response_continuity ok key scope now t = Some r ->
  r ∈ t /\ continuity_key r = key /\ api_key_scope r = scope /\ now < expires_at_ms r /\
  response_id r <> [] /\
  forall r', r' ∈ t -> continuity_key r' = key -> api_key_scope r' = scope -> now < expires_at_ms r' ->
    updated_at_ms r' <= updated_at_ms r.
Proof.
  unfold find_proxy_response_continuity. case_match; [done|]. intros E. apply bind_Some in E as (r0 & E & Ec).
  unfold complete in Ec. case_match eqn:Ecc; simplify_eq. bool_hyps.
  apply newest_spec in E as [Hin Hf]. apply list_elem_of_filter in Hin as [Hm Hin]. unfold matches_key in Hm. bool_hyps.
  split_and!; try done. intros r' Hr' Hk Hs He. rewrite Forall_forall in Hf. apply Hf.
  apply list_elem_of_filter. split; [|done]. unfold matches_key. rewrite !bool_decide_true by done. simpl. by apply Z.ltb_lt.
Qed.

Lemma find_response_spec ok id scope now t r :
  find_proxy_response_continuity_by_response_id ok id scope now t = Some r ->
  r ∈ t /\ response_id r = id /\ api_key_scope r = scope /\ now < expires_at_ms r.
Proof.
  unfold find_proxy_response_continuity_by_response_id. case_match; [done|]. intros E.
  apply bind_Some in E as (r0 & E & Ec). unfold complete in Ec. case_match; simplify_eq.
  apply find_some in E as [Hin Hm]. unfold matches_response in Hm. bool_hyps.
  split_and!; try done. by apply list_elem_of_In.
Qed.

Lemma elem_of_insert_record row t r :
  r ∈ insert_record row t ->
  r ∈ t \/ (continuity_key r = continuity_key row /\ api_key_scope r = api_key_scope row /\
            response_id r = response_id row /\ account_id r = account_id row /\
            updated_at_ms r = updated_at_ms row /\ expires_at_ms r = expires_at_ms row).
Proof.
  induction t as [|x t IH]; simpl; [rewrite list_elem_of_singleton; intros ->; by right|].
  case_match eqn:E; rewrite !elem_of_cons.
  - bool_hyps. intros [->|?]; [right|by left; right]. simpl. by split_and!.
  - intros [->|Hin]; [by left; left|]. apply IH in Hin as [?|?]; [by left; right|by right].
Qed.

End Continuity.
