(* ===== verification/HttpBridge.v ===== *)
(** * HttpBridge: following a conversation across requests

    src/native/proxy/session/src/http_bridge.cpp: the identifier of the last
    response of a conversation is remembered in memory and in the database,
    put into the next request, and with it the account that served it and
    enough of the input to rebuild the context. *)

From S2P Require Import Prelude Text JsonValue Headers Sessions SessionRepo.
Import Text.Ascii.

Definition kBridgeTtlMs : Z := 30 * 60 * 1000.
Definition kPersistenceCleanupIntervalMs : Z := 60 * 1000.
Definition kMaxRecoveryInputItems : Z := 16.
Definition kMaxRecoveryInputBytes : Z := 96 * 1024.
Definition kMaxRecoveryTextBytes : Z := 16 * 1024.

(** ** Keys *)

Definition find_header_case_insensitive (headers : HeaderMap) (key : bytes) : bytes :=
  match List.find (fun kv => equals_case_insensitive kv.1 key) headers with
  | Some (_, value) => trim_ascii value
  | None => []
  end.

Definition continuity_key_from_headers (headers : HeaderMap) : option bytes :=
  let codex_session_id := find_header_case_insensitive headers $"x-codex-session-id" in
  let client_session_id := find_header_case_insensitive headers $"session_id" in
  let turn_state := find_header_case_insensitive headers $"x-codex-turn-state" in
  if negb (bool_decide (turn_state = [])) then Some turn_state
  else if negb (bool_decide (codex_session_id = [])) && negb (bool_decide (client_session_id = [])) then
    if bool_decide (codex_session_id = client_session_id) then Some codex_session_id
    else Some ($"codex:" ++ codex_session_id ++ $"|client:" ++ client_session_id)
  else if negb (bool_decide (codex_session_id = [])) then Some codex_session_id
  else if negb (bool_decide (client_session_id = [])) then Some client_session_id
  else None.

Definition api_key_scope_from_headers (headers : HeaderMap) : bytes :=
  find_header_case_insensitive headers $"x-tightrope-api-key-id".

Definition account_id_from_headers (headers : HeaderMap) : bytes :=
  find_header_case_insensitive headers $"chatgpt-account-id".

Definition scoped_bridge_key (continuity_key api_key_scope : bytes) : bytes :=
  if bool_decide (api_key_scope = []) then continuity_key
  else $"api_key_scope:" ++ api_key_scope ++ $"|" ++ continuity_key.

(** ** Bodies *)

Section codec.
Context {codec : JsonCodec}.

Definition parse_previous_response_id (raw_request_body : bytes) : option bytes :=
  object ← read_object raw_request_body;
  previous ← string_at object $"previous_response_id";
  let value := trim_ascii previous in
  if bool_decide (value = []) then None else Some value.

Definition inject_previous_response_id (raw_request_body previous_response_id : bytes) : option bytes :=
  object ← read_object raw_request_body;
  write_json (JObject (<[$"previous_response_id" := JString previous_response_id]> object)).

Definition strip_previous_response_id (raw_request_body : bytes) : option bytes :=
  object ← read_object raw_request_body;
  write_json (JObject (delete $"previous_response_id" object)).

Definition is_function_call_output_item (value : Json) : bool :=
  match value with
  | JObject object =>
      if bool_decide (string_at object $"type" = Some $"function_call_output") then true
      else if negb (has_field object $"call_id" || has_field object $"tool_call_id") then false
      else has_field object $"output" || has_field object $"content"
  | _ => false
  end.

Definition input_contains_function_call_output (object : JsonObject) : bool :=
  match object !! $"input" with
  | Some (JArray input) => existsb is_function_call_output_item input
  | _ => false
  end.

(** The recursion goes through the objects nested under [response]. *)
Fixpoint json_contains_function_call_output (value : Json) : bool :=
  match value with
  | JObject object =>
      if input_contains_function_call_output object then true
      else default false (field_rec json_contains_function_call_output $"response" object)
  | _ => false
  end.

Definition object_contains_function_call_output (object : JsonObject) : bool :=
  json_contains_function_call_output (JObject object).

Definition request_contains_function_call_output (raw_request_body : bytes) : bool :=
  match read_object raw_request_body with
  | Some object => object_contains_function_call_output object
  | None => false
  end.

Definition request_has_previous_response_id (raw_request_body : bytes) : bool :=
  match parse_previous_response_id raw_request_body with Some _ => true | None => false end.

Definition object_has_nonempty_tools (object : JsonObject) : bool :=
  match object !! $"tools" with Some (JArray (_ :: _)) => true | _ => false end.

Definition bounded_text (value : bytes) : bytes :=
  if size_of value <=? kMaxRecoveryTextBytes then value else take (Z.to_nat kMaxRecoveryTextBytes) value.

Definition text_part (type text : bytes) : Json :=
  JObject (make_object [($"type", JString type); ($"text", JString (bounded_text text))]).

Definition user_text_item (text : bytes) : Json :=
  JObject (make_object [($"role", JString $"user"); ($"content", JArray [text_part $"input_text" text])]).

Definition request_input_items_for_recovery (object : JsonObject) : option JsonArray :=
  if object_has_nonempty_tools object || object_contains_function_call_output object then None
  else match object !! $"input" with
       | Some (JString text) => Some [user_text_item text]
       | Some (JArray items) => if existsb is_function_call_output_item items then None else Some items
       | _ => None
       end.

Definition request_input_looks_contextual (object : JsonObject) : bool :=
  match object !! $"input" with
  | Some (JArray items) =>
      if 1 <? size_of items then true
      else match items with
           | JObject item :: _ =>
               match string_at item $"role" with
               | Some role => negb (bool_decide (role = $"user"))
               | None => false
               end
           | _ => false
           end
  | _ => false
  end.

Definition recovery_items_from_json (raw_json : bytes) : option JsonArray :=
  if bool_decide (raw_json = []) then None
  else match read_json raw_json with Some (JArray items) => Some items | _ => None end.

Definition serialize_recovery_items (items : JsonArray) : option bytes := write_json (JArray items).

(** The two loops of [trim_recovery_items]. *)
Definition trim_to_count (items : JsonArray) : JsonArray :=
  drop (Z.to_nat (size_of items - kMaxRecoveryInputItems)) items.

Fixpoint trim_to_bytes (items : JsonArray) : JsonArray :=
  match items with
  | [] => []
  | _ :: rest =>
      match serialize_recovery_items items with
      | None => items
      | Some serialized => if size_of serialized <=? kMaxRecoveryInputBytes then items else trim_to_bytes rest
      end
  end.

Definition trim_recovery_items (items : JsonArray) : JsonArray := trim_to_bytes (trim_to_count items).

(** *** The assistant's answer *)

Definition nonempty_text (object : JsonObject) (key : bytes) : option bytes :=
  match string_at object key with Some ((_ :: _) as text) => Some text | _ => None end.

Definition content_part (part : Json) : list Json :=
  match part with
  | JObject part_object =>
      if match string_at part_object $"type" with
         | Some part_type => negb (bool_decide (part_type = $"output_text") || bool_decide (part_type = $"text") ||
                                   bool_decide (part_type = $"refusal"))
         | None => false
         end
      then []
      else match nonempty_text part_object $"text" with
           | Some text => [text_part $"output_text" text]
           | None =>
               match nonempty_text part_object $"refusal" with
               | Some refusal => [text_part $"output_text" refusal]
               | None => []
               end
           end
  | _ => []
  end.

(** The parts one element of the output contributes. *)
Definition output_parts (output_item : Json) : list Json :=
  match output_item with
  | JObject output_object =>
      if match string_at output_object $"type" with
         | Some output_type => negb (bool_decide (output_type = $"message") || bool_decide (output_type = $"output_text"))
         | None => false
         end
      then []
      else
        match nonempty_text output_object $"text" with
        | Some text => [text_part $"output_text" text]
        | None => []
        end ++
        match output_object !! $"content" with
        | Some (JString text) => [text_part $"output_text" text]
        | Some (JArray parts) => concat (content_part <$> parts)
        | _ => []
        end
  | _ => []
  end.

Definition assistant_item_from_response_object (response : JsonObject) : option Json :=
  output ← array_at response $"output";
  match concat (output_parts <$> output) with
  | [] => None
  | content_items =>
      Some (JObject (make_object [($"role", JString $"assistant"); ($"content", JArray content_items)]))
  end.

Definition assistant_item_from_json_body (response_body : bytes) : option Json :=
  object ← read_object response_body;
  match assistant_item_from_response_object object with
  | Some item => Some item
  | None => response ← object_at object $"response"; assistant_item_from_response_object response
  end.

Definition is_final_type (type : bytes) : bool :=
  bool_decide (type = $"response.completed") || bool_decide (type = $"response.incomplete").

Definition is_response_type (type : bytes) : bool :=
  is_final_type type || bool_decide (type = $"response.created").

(** The loop both searches through the events are written as: a final event
    that has a value ends it, a created one leaves a fallback. *)
Fixpoint scan_events {B} (value : JsonObject -> option B) (events : list bytes) (fallback : option B) : option B :=
  match events with
  | [] => fallback
  | event :: rest =>
      match (object ← read_object event;
             type ← string_at object $"type";
             if negb (is_response_type type) then None
             else response ← object_at object $"response"; v ← value response; Some (type, v)) with
      | None => scan_events value rest fallback
      | Some (type, v) => if is_final_type type then Some v else scan_events value rest (Some v)
      end
  end.

Definition assistant_item_from_events (events : list bytes) : option Json :=
  scan_events assistant_item_from_response_object events None.

Definition trimmed_id (object : JsonObject) : option bytes :=
  id ← string_at object $"id";
  let id := trim_ascii id in
  if bool_decide (id = []) then None else Some id.

Definition response_id_from_json_body (response_body : bytes) : option bytes :=
  object ← read_object response_body;
  match trimmed_id object with
  | Some id => Some id
  | None => response ← object_at object $"response"; trimmed_id response
  end.

Definition response_id_from_events (events : list bytes) : option bytes := scan_events trimmed_id events None.

(** ** State

    The bridge in memory and the persistence state with its database. *)

Record BridgeState := mkBridgeState {
  http_bridge : Bridge.SessionBridge;
  schema_ready : bool;
  last_cleanup_ms : Z;
  continuity : Continuity.table;
}.

Definition initial_state (stored : Continuity.table) : BridgeState :=
  mkBridgeState (Bridge.make_bridge kBridgeTtlMs) false 0 stored.

Definition set_bridge (b : Bridge.SessionBridge) (s : BridgeState) : BridgeState :=
  mkBridgeState b (schema_ready s) (last_cleanup_ms s) (continuity s).

Definition set_continuity (t : Continuity.table) (s : BridgeState) : BridgeState :=
  mkBridgeState (http_bridge s) (schema_ready s) (last_cleanup_ms s) t.

(** Whether the database opens with its schema, and whether each statement
    of the call succeeds. *)
Record faults := mkFaults { open_ok : bool; read_ok : bool; write_ok : bool; purge_ok : bool }.

(** [ensure_persistence_db], for a configured path that does not change. *)
Definition ensure_persistence_db (f : faults) (s : BridgeState) : bool * BridgeState :=
  if negb (open_ok f) then (false, s)
  else if schema_ready s then (true, s)
  else (true, mkBridgeState (http_bridge s) true 0 (continuity s)).

Definition maybe_purge_expired_persistence_rows (f : faults) (now : Z) (s : BridgeState) : BridgeState :=
  if (0 <? last_cleanup_ms s) && (now - last_cleanup_ms s <? kPersistenceCleanupIntervalMs) then s
  else mkBridgeState (http_bridge s) (schema_ready s) now
         (Continuity.purge_expired_proxy_response_continuity (purge_ok f) now (continuity s)).2.

Definition find_response_context_record (previous_response_id : bytes) (headers : HeaderMap) (f : faults) (now : Z)
    (s : BridgeState) : option Continuity.ProxyResponseContinuityRecord * BridgeState :=
  match continuity_key_from_headers headers with
  | None => (None, s)
  | Some key =>
      if bool_decide (key = []) then (None, s)
      else
        let api_key_scope := api_key_scope_from_headers headers in
        let '(opened, s) := ensure_persistence_db f s in
        if negb opened then (None, s)
        else
          let record := Continuity.find_proxy_response_continuity_by_response_id (read_ok f) previous_response_id
                          api_key_scope now (continuity s) in
          let s := maybe_purge_expired_persistence_rows f now s in
          match record with
          | Some r => if bool_decide (Continuity.continuity_key r = key) then (Some r, s) else (None, s)
          | None => (None, s)
          end
  end.

Definition build_recovery_input_json (request_body : bytes) (headers : HeaderMap) (assistant_item : option Json)
    (f : faults) (now : Z) (s : BridgeState) : option bytes * BridgeState :=
  match object ← read_object request_body; request_input_items_for_recovery object with
  | None => (None, s)
  | Some current_input =>
      let '(recovered_items, s) :=
        match parse_previous_response_id request_body with
        | Some previous_response_id =>
            let '(record, s) := find_response_context_record previous_response_id headers f now s in
            (default [] (r ← record; recovery_items_from_json (Continuity.recovery_input_json r)), s)
        | None => ([], s)
        end in
      let items := recovered_items ++ current_input ++
                   match assistant_item with Some item => [item] | None => [] end in
      (serialize_recovery_items (trim_recovery_items items), s)
  end.

Definition rebuild_request_body_with_recovery_items (raw_request_body : bytes) (recovery_items : JsonArray) :
    option bytes :=
  object ← read_object raw_request_body;
  write_json (JObject (<[$"input" := JArray recovery_items]> (delete $"previous_response_id" object))).

Definition remember_response_id (headers : HeaderMap) (response_id : option bytes) (resolved_account_id : bytes)
    (recovery_input_json : bytes) (f : faults) (now : Z) (s : BridgeState) : BridgeState :=
  match response_id, continuity_key_from_headers headers with
  | Some id, Some key =>
      if bool_decide (id = []) || bool_decide (key = []) then s
      else
        let account_id := trim_ascii resolved_account_id in
        let account_id := if bool_decide (account_id = []) then account_id_from_headers headers else account_id in
        let api_key_scope := api_key_scope_from_headers headers in
        let bridge := Bridge.upsert (scoped_bridge_key key api_key_scope) id now (http_bridge s) in
        let s := set_bridge (Bridge.purge_stale now bridge).2 s in
        let '(opened, s) := ensure_persistence_db f s in
        if negb opened then s
        else
          let s := set_continuity
                     (Continuity.upsert_proxy_response_continuity (write_ok f) key api_key_scope id account_id now
                        kBridgeTtlMs recovery_input_json (continuity s)).2 s in
          maybe_purge_expired_persistence_rows f now s
  | _, _ => s
  end.

(** ** Operations *)

(** [generated]: the turn state made from a random UUID. *)
Definition ensure_turn_state_header (generated : bytes) (headers : HeaderMap) : bytes * HeaderMap :=
  let turn_state := find_header_case_insensitive headers $"x-codex-turn-state" in
  let turn_state :=
    if bool_decide (turn_state = []) then default generated (continuity_key_from_headers headers) else turn_state in
  (turn_state, hm_assign $"x-codex-turn-state" turn_state headers).

(** The block shared by [inject_previous_response_id_from_bridge] and
    [replace_previous_response_id_from_bridge]: memory first, then the
    database, whose answer is put back into memory. *)
Definition bridged_response_id (key api_key_scope : bytes) (f : faults) (now : Z) (s : BridgeState) :
    option bytes * BridgeState :=
  let bridge_key := scoped_bridge_key key api_key_scope in
  let bridged := Bridge.upstream_session_id <$> Bridge.find bridge_key now (http_bridge s) in
  let '(bridged, s) :=
    match bridged with
    | Some ((_ :: _) as id) => (Some id, s)
    | _ =>
        let '(opened, s) := ensure_persistence_db f s in
        if negb opened then (bridged, s)
        else
          match Continuity.find_proxy_response_continuity (read_ok f) key api_key_scope now (continuity s) with
          | Some persisted =>
              if bool_decide (Continuity.response_id persisted = []) then
                (bridged, maybe_purge_expired_persistence_rows f now s)
              else
                (Some (Continuity.response_id persisted),
                 maybe_purge_expired_persistence_rows f now
                   (set_bridge (Bridge.upsert bridge_key (Continuity.response_id persisted) now (http_bridge s)) s))
          | None => (bridged, maybe_purge_expired_persistence_rows f now s)
          end
    end in
  (match bridged with Some ((_ :: _) as id) => Some id | _ => None end,
   set_bridge (Bridge.purge_stale now (http_bridge s)).2 s).

Definition usable_key (headers : HeaderMap) : option bytes :=
  match continuity_key_from_headers headers with
  | Some ((_ :: _) as key) => Some key
  | _ => None
  end.

Definition inject_previous_response_id_from_bridge (raw_request_body : bytes) (headers : HeaderMap)
    (f : faults) (now : Z) (s : BridgeState) : bytes * BridgeState :=
  if request_has_previous_response_id raw_request_body then (raw_request_body, s)
  else match usable_key headers with
       | None => (raw_request_body, s)
       | Some key =>
           let '(bridged, s) := bridged_response_id key (api_key_scope_from_headers headers) f now s in
           match bridged with
           | None => (raw_request_body, s)
           | Some id => (default raw_request_body (inject_previous_response_id raw_request_body id), s)
           end
       end.

Definition replace_previous_response_id_from_bridge (raw_request_body : bytes) (headers : HeaderMap)
    (f : faults) (now : Z) (s : BridgeState) : option bytes * BridgeState :=
  match parse_previous_response_id raw_request_body with
  | None => (None, s)
  | Some existing =>
      match usable_key headers with
      | None => (None, s)
      | Some key =>
          let '(bridged, s) := bridged_response_id key (api_key_scope_from_headers headers) f now s in
          match bridged with
          | None => (None, s)
          | Some id =>
              if bool_decide (id = existing) then (None, s) else (inject_previous_response_id raw_request_body id, s)
          end
      end
  end.

Definition resolve_preferred_account_id_from_previous_response (raw_request_body : bytes) (headers : HeaderMap)
    (f : faults) (now : Z) (s : BridgeState) : option bytes * BridgeState :=
  match parse_previous_response_id raw_request_body, usable_key headers with
  | Some previous_response_id, Some key =>
      let '(opened, s) := ensure_persistence_db f s in
      if negb opened then (None, s)
      else
        let account_id :=
          record ← Continuity.find_proxy_response_continuity (read_ok f) key (api_key_scope_from_headers headers) now
                     (continuity s);
          if bool_decide (Continuity.response_id record = previous_response_id) &&
             negb (bool_decide (Continuity.account_id record = []))
          then Some (Continuity.account_id record) else None in
        (account_id, maybe_purge_expired_persistence_rows f now s)
  | _, _ => (None, s)
  end.

Definition resolve_continuity_account_id (headers : HeaderMap) (f : faults) (now : Z) (s : BridgeState) :
    option bytes * BridgeState :=
  match usable_key headers with
  | Some key =>
      let '(opened, s) := ensure_persistence_db f s in
      if negb opened then (None, s)
      else
        let account_id :=
          record ← Continuity.find_proxy_response_continuity (read_ok f) key (api_key_scope_from_headers headers) now
                     (continuity s);
          if bool_decide (Continuity.account_id record = []) then None else Some (Continuity.account_id record) in
        (account_id, maybe_purge_expired_persistence_rows f now s)
  | None => (None, s)
  end.

Definition rebuild_request_body_with_local_context (raw_request_body : bytes) (headers : HeaderMap)
    (f : faults) (now : Z) (s : BridgeState) : option bytes * BridgeState :=
  if request_contains_function_call_output raw_request_body then (None, s)
  else match parse_previous_response_id raw_request_body, read_object raw_request_body with
       | Some previous_response_id, Some object =>
           match request_input_items_for_recovery object with
           | None => (None, s)
           | Some current_input =>
               if request_input_looks_contextual object then (strip_previous_response_id raw_request_body, s)
               else
                 let '(record, s) := find_response_context_record previous_response_id headers f now s in
                 match r ← record; recovery_items_from_json (Continuity.recovery_input_json r) with
                 | Some ((_ :: _) as recovery_items) =>
                     (rebuild_request_body_with_recovery_items raw_request_body
                        (trim_recovery_items (recovery_items ++ current_input)), s)
                 | _ => (None, s)
                 end
           end
       | _, _ => (None, s)
       end.

Definition remember_response_id_from_json (headers : HeaderMap) (response_body account_id : bytes)
    (f : faults) (now : Z) (s : BridgeState) : BridgeState :=
  remember_response_id headers (response_id_from_json_body response_body) account_id [] f now s.

Definition remember_request_and_response_id_from_json (headers : HeaderMap) (request_body response_body account_id : bytes)
    (f : faults) (now : Z) (s : BridgeState) : BridgeState :=
  let '(recovery_input_json, s) :=
    build_recovery_input_json request_body headers (assistant_item_from_json_body response_body) f now s in
  remember_response_id headers (response_id_from_json_body response_body) account_id
    (default [] recovery_input_json) f now s.

Definition remember_response_id_from_events (headers : HeaderMap) (events : list bytes) (account_id : bytes)
    (f : faults) (now : Z) (s : BridgeState) : BridgeState :=
  remember_response_id headers (response_id_from_events events) account_id [] f now s.

Definition remember_request_and_response_id_from_events (headers : HeaderMap) (request_body : bytes)
    (events : list bytes) (account_id : bytes) (f : faults) (now : Z) (s : BridgeState) : BridgeState :=
  let '(recovery_input_json, s) :=
    build_recovery_input_json request_body headers (assistant_item_from_events events) f now s in
  remember_response_id headers (response_id_from_events events) account_id
    (default [] recovery_input_json) f now s.

Definition reset_response_bridge_for_tests (s : BridgeState) : BridgeState :=
  set_bridge (Bridge.clear (http_bridge s)) s.

(** ** What was remembered

    The log of what the program was told to remember, to compare with what it
    answers. *)

Record remembered := mkRemembered {
  rem_key : bytes;
  rem_scope : bytes;
  rem_response : bytes;
  rem_account : bytes;
  rem_at : Z;
}.

Definition remember_log (headers : HeaderMap) (response_id : option bytes) (resolved_account_id : bytes) (now : Z) :
    list remembered :=
  match response_id, continuity_key_from_headers headers with
  | Some id, Some key =>
      if bool_decide (id = []) || bool_decide (key = []) then []
      else [mkRemembered key (api_key_scope_from_headers headers) id
              (if bool_decide (trim_ascii resolved_account_id = []) then account_id_from_headers headers
               else trim_ascii resolved_account_id) now]
  | _, _ => []
  end.

Inductive op :=
| Inject (body : bytes) (headers : HeaderMap) (f : faults) (now : Z)
| Replace (body : bytes) (headers : HeaderMap) (f : faults) (now : Z)
| Preferred (body : bytes) (headers : HeaderMap) (f : faults) (now : Z)
| ContinuityAccount (headers : HeaderMap) (f : faults) (now : Z)
| Rebuild (body : bytes) (headers : HeaderMap) (f : faults) (now : Z)
| RememberJson (headers : HeaderMap) (request response account : bytes) (f : faults) (now : Z)
| RememberEvents (headers : HeaderMap) (request : bytes) (events : list bytes) (account : bytes) (f : faults) (now : Z)
| ResetOp.

Definition step (s : BridgeState) (o : op) : BridgeState :=
  match o with
  | Inject body headers f now => (inject_previous_response_id_from_bridge body headers f now s).2
  | Replace body headers f now => (replace_previous_response_id_from_bridge body headers f now s).2
  | Preferred body headers f now => (resolve_preferred_account_id_from_previous_response body headers f now s).2
  | ContinuityAccount headers f now => (resolve_continuity_account_id headers f now s).2
  | Rebuild body headers f now => (rebuild_request_body_with_local_context body headers f now s).2
  | RememberJson headers request response account f now =>
      remember_request_and_response_id_from_json headers request response account f now s
  | RememberEvents headers request events account f now =>
      remember_request_and_response_id_from_events headers request events account f now s
  | ResetOp => reset_response_bridge_for_tests s
  end.

Definition log_of (o : op) : list remembered :=
  match o with
  | RememberJson headers _ response account _ now =>
      remember_log headers (response_id_from_json_body response) account now
  | RememberEvents headers _ events account _ now =>
      remember_log headers (response_id_from_events events) account now
  | _ => []
  end.

Definition run_ops (s : BridgeState) (ops : list op) : BridgeState := foldl step s ops.
Definition run_log (ops : list op) : list remembered := concat (log_of <$> ops).

(** Everything the program holds was remembered, under the same key. *)
Definition session_logged (log : list remembered) (bridge_key : bytes) (session : Bridge.BridgeSession) : Prop :=
  exists e, e ∈ log /\ scoped_bridge_key (rem_key e) (rem_scope e) = bridge_key /\
    rem_response e = Bridge.upstream_session_id session /\ Bridge.updated_at_ms session < rem_at e + kBridgeTtlMs.

Definition row_logged (log : list remembered) (r : Continuity.ProxyResponseContinuityRecord) : Prop :=
  exists e, e ∈ log /\ Continuity.continuity_key r = rem_key e /\ Continuity.api_key_scope r = rem_scope e /\
    Continuity.response_id r = rem_response e /\ Continuity.account_id r = rem_account e /\
    Continuity.expires_at_ms r = rem_at e + kBridgeTtlMs.

Record logged (log : list remembered) (s : BridgeState) : Prop := {
  logged_ttl : Bridge.ttl_ms_ (http_bridge s) = kBridgeTtlMs;
  logged_sessions : map_Forall (session_logged log) (Bridge.sessions_ (http_bridge s));
  logged_rows : Forall (row_logged log) (continuity s);
}.

Lemma logged_mono log log' s : logged log s -> log ⊆ log' -> logged log' s.
Proof.
  intros [Ht Hs Hr] Hsub. split; [done| |].
  - intros k x Hx. destruct (Hs k x Hx) as (e & He & ?). exists e. split; [by apply Hsub|done].
  - eapply Forall_impl; [exact Hr|]. intros r (e & He & ?). exists e. split; [by apply Hsub|done].
Qed.

Lemma ensure_fields f s :
  http_bridge (ensure_persistence_db f s).2 = http_bridge s /\ continuity (ensure_persistence_db f s).2 = continuity s.
Proof. unfold ensure_persistence_db. by repeat case_match. Qed.

Lemma logged_ensure log f s : logged log s -> logged log (ensure_persistence_db f s).2.
Proof. destruct (ensure_fields f s) as [Hb Hc]. intros [Ht Hs Hr]. split; by rewrite ?Hb, ?Hc. Qed.

Lemma logged_maybe_purge log f now s : logged log s -> logged log (maybe_purge_expired_persistence_rows f now s).
Proof.
  intros H. unfold maybe_purge_expired_persistence_rows. case_match; [done|]. destruct H as [Ht Hs Hr]. split; cbn; try done.
  unfold Continuity.purge_expired_proxy_response_continuity. case_match; cbn; [done|by apply Forall_filter].
Qed.

Lemma logged_purge_stale log now s :
  logged log s -> logged log (set_bridge (Bridge.purge_stale now (http_bridge s)).2 s).
Proof.
  intros [Ht Hs Hr]. split; [done| |done]. intros k x Hx. apply map_lookup_filter_Some in Hx as [Hx _]. by apply Hs.
Qed.

Lemma logged_upsert log k id now s :
  (exists e, e ∈ log /\ scoped_bridge_key (rem_key e) (rem_scope e) = k /\ rem_response e = id /\
     now < rem_at e + kBridgeTtlMs) ->
  logged log s -> logged log (set_bridge (Bridge.upsert k id now (http_bridge s)) s).
Proof.
  intros (e & He & Hk & Hid & Hn) [Ht Hs Hr]. split; [done| |done]. cbn.
  apply map_Forall_insert_2; [|done]. exists e. by destruct (Bridge.sessions_ (http_bridge s) !! k).
Qed.

Lemma logged_found_row log ok key scope now s r :
  logged log s -> Continuity.find_proxy_response_continuity ok key scope now (continuity s) = Some r ->
  exists e, e ∈ log /\ rem_key e = key /\ rem_scope e = scope /\ rem_response e = Continuity.response_id r /\
    rem_account e = Continuity.account_id r /\ now < rem_at e + kBridgeTtlMs.
Proof.
  intros H E. apply Continuity.find_continuity_spec in E as (Hin & Hk & Hs & He & _).
  pose proof (logged_rows _ _ H) as Hr. rewrite Forall_forall in Hr. destruct (Hr r Hin) as (e & ? & ? & ? & ? & ? & Ee).
  exists e. split_and!; congruence.
Qed.

(** What the shared block answers was remembered under the same bridge key,
    less than two lifetimes ago. *)
Lemma bridged_spec log key scope f now s :
  logged log s ->
  logged log (bridged_response_id key scope f now s).2 /\
  forall id, (bridged_response_id key scope f now s).1 = Some id ->
    id <> [] /\ exists e, e ∈ log /\ scoped_bridge_key (rem_key e) (rem_scope e) = scoped_bridge_key key scope /\
      rem_response e = id /\ now < rem_at e + 2 * kBridgeTtlMs.
Proof.
  intros H. unfold bridged_response_id.
  assert (forall (b : option bytes) s', logged log s' ->
    (forall id, b = Some id -> id <> [] -> exists e, e ∈ log /\
       scoped_bridge_key (rem_key e) (rem_scope e) = scoped_bridge_key key scope /\
       rem_response e = id /\ now < rem_at e + 2 * kBridgeTtlMs) ->
    let r := (match b with Some ((_ :: _) as id) => Some id | _ => None end,
              set_bridge (Bridge.purge_stale now (http_bridge s')).2 s') in
    logged log r.2 /\ forall id, r.1 = Some id -> id <> [] /\ exists e, e ∈ log /\
       scoped_bridge_key (rem_key e) (rem_scope e) = scoped_bridge_key key scope /\
       rem_response e = id /\ now < rem_at e + 2 * kBridgeTtlMs) as Hfinish.
  { intros b s' Hs' Hb. split; [by apply logged_purge_stale|]. intros id Hid. cbn in Hid.
    destruct b as [[|c l]|]; simplify_eq. split; [done|]. by apply Hb. }
  set (bridged := Bridge.upstream_session_id <$> Bridge.find (scoped_bridge_key key scope) now (http_bridge s)).
  assert (forall id, bridged = Some id -> id <> [] -> exists e, e ∈ log /\
       scoped_bridge_key (rem_key e) (rem_scope e) = scoped_bridge_key key scope /\
       rem_response e = id /\ now < rem_at e + 2 * kBridgeTtlMs) as Hb.
  { intros id Hid _. unfold bridged in Hid. apply fmap_Some in Hid as (x & Hx & ->). unfold Bridge.find in Hx.
    destruct (Bridge.sessions_ (http_bridge s) !! scoped_bridge_key key scope) as [x'|] eqn:Ex; [|done].
    destruct (Bridge.is_stale _ x' now) eqn:Est; [done|]. injection Hx as ->.
    destruct (logged_sessions _ _ H _ _ Ex) as (e & He & Hk & Hr & Ht). exists e. split_and!; [done..|].
    apply not_true_iff_false in Est. rewrite Bridge.is_stale_spec, (logged_ttl _ _ H) in Est. unfold kBridgeTtlMs in *. lia. }
  clearbody bridged.
  destruct bridged as [[|c l]|].
  2: { by apply (Hfinish (Some (c :: l))). }
  all: pose proof (logged_ensure log f s H) as He; destruct (ensure_persistence_db f s) as [opened s1]; cbn in He;
    destruct opened; cbn [negb]; [|by apply (Hfinish None)].
  all: destruct (Continuity.find_proxy_response_continuity _ key scope now (continuity s1)) as [r|] eqn:Er;
    [|by apply (Hfinish None); [apply logged_maybe_purge|]].
  all: case_bool_decide as Ei; [by apply (Hfinish None); [apply logged_maybe_purge|]|].
  all: destruct (logged_found_row _ _ _ _ _ _ _ He Er) as (e & Hin & Hk & Hs & Hr & _ & Hn).
  all: apply (Hfinish (Some (Continuity.response_id r)));
    [apply logged_maybe_purge, logged_upsert; [|done]; exists e; split_and!; congruence|].
  all: intros id [= <-] _; exists e; split_and!; [done|congruence|done|unfold kBridgeTtlMs in *; lia].
Qed.

Lemma context_logged log id headers f now s :
  logged log s -> logged log (find_response_context_record id headers f now s).2.
Proof.
  intros H. unfold find_response_context_record. destruct (continuity_key_from_headers headers) as [key|]; [|done].
  case_bool_decide; [done|]. pose proof (logged_ensure log f s H) as He.
  destruct (ensure_persistence_db f s) as [[] s1]; cbn in *; [|done].
  pose proof (logged_maybe_purge log f now s1 He) as Hm.
  destruct (Continuity.find_proxy_response_continuity_by_response_id _ _ _ _ _); [|done]. by case_bool_decide.
Qed.

Lemma recovery_logged log body headers item f now s :
  logged log s -> logged log (build_recovery_input_json body headers item f now s).2.
Proof.
  intros H. unfold build_recovery_input_json. destruct (read_object body ≫= _); [|done].
  destruct (parse_previous_response_id body) as [id|]; [|done].
  pose proof (context_logged log id headers f now s H).
  by destruct (find_response_context_record id headers f now s).
Qed.

Lemma remember_logged log headers id account recovery f now s :
  logged log s -> logged (log ++ remember_log headers id account now)
                    (remember_response_id headers id account recovery f now s).
Proof.
  intros H. unfold remember_response_id, remember_log. destruct id as [id|]; [|by rewrite app_nil_r].
  destruct (continuity_key_from_headers headers) as [key|]; [|by rewrite app_nil_r].
  destruct (_ || _) eqn:Eg; [by rewrite app_nil_r|].
  set (e := mkRemembered key _ id _ now).
  assert (logged (log ++ [e]) s) as H' by (eapply logged_mono; [exact H|set_solver]).
  assert (e ∈ log ++ [e]) as Hin by set_solver.
  set (s1 := set_bridge _ s).
  assert (logged (log ++ [e]) s1) as H1.
  { apply (logged_purge_stale _ now (set_bridge (Bridge.upsert (scoped_bridge_key key (api_key_scope_from_headers headers))
      id now (http_bridge s)) s)). apply logged_upsert; [|done].
    exists e. split_and!; [done..|]. unfold e, kBridgeTtlMs; cbn. lia. }
  clearbody s1. pose proof (logged_ensure _ f s1 H1) as He.
  destruct (ensure_persistence_db f s1) as [[] s2]; cbn in He |- *; [|done].
  apply logged_maybe_purge. destruct He as [Ht Hs Hr]. split; [done..|]. cbn.
  unfold Continuity.upsert_proxy_response_continuity. destruct (_ || _ || _); cbn; [done|].
  apply Forall_forall. intros r Hr'. apply Continuity.elem_of_insert_record in Hr' as [Hr'|(E1 & E2 & E3 & E4 & E5 & E6)].
  - by eapply Forall_forall in Hr.
  - exists e. cbn in *. split_and!; done.
Qed.

Lemma step_logged log s o : logged log s -> logged (log ++ log_of o) (step s o).
Proof.
  intros H. destruct o; cbn [step log_of]; rewrite ?app_nil_r.
  - unfold inject_previous_response_id_from_bridge. case_match; [done|]. destruct (usable_key headers) as [key|]; [|done].
    pose proof (bridged_spec log key (api_key_scope_from_headers headers) f now s H) as [Hb _].
    destruct (bridged_response_id _ _ _ _ s) as [[] ?]; done.
  - unfold replace_previous_response_id_from_bridge. destruct (parse_previous_response_id body); [|done].
    destruct (usable_key headers) as [key|]; [|done].
    pose proof (bridged_spec log key (api_key_scope_from_headers headers) f now s H) as [Hb _].
    destruct (bridged_response_id _ _ _ _ s) as [[] ?]; [|done]. by case_match.
  - unfold resolve_preferred_account_id_from_previous_response.
    destruct (parse_previous_response_id body), (usable_key headers) as [key|]; try done.
    pose proof (logged_ensure log f s H). destruct (ensure_persistence_db f s) as [[] s1]; [|done].
    by apply logged_maybe_purge.
  - unfold resolve_continuity_account_id. destruct (usable_key headers) as [key|]; [|done].
    pose proof (logged_ensure log f s H). destruct (ensure_persistence_db f s) as [[] s1]; [|done].
    by apply logged_maybe_purge.
  - unfold rebuild_request_body_with_local_context. case_match; [done|].
    destruct (parse_previous_response_id body) as [id|], (read_object body) as [o|]; try done.
    destruct (request_input_items_for_recovery o); [|done]. case_match; [done|].
    pose proof (context_logged log id headers f now s H).
    destruct (find_response_context_record id headers f now s). by repeat case_match.
  - unfold remember_request_and_response_id_from_json.
    pose proof (recovery_logged log request headers (assistant_item_from_json_body response) f now s H) as Hr.
    destruct (build_recovery_input_json _ _ _ _ _ s) as [x s1]. by apply remember_logged.
  - unfold remember_request_and_response_id_from_events.
    pose proof (recovery_logged log request headers (assistant_item_from_events events) f now s H) as Hr.
    destruct (build_recovery_input_json _ _ _ _ _ s) as [x s1]. by apply remember_logged.
  - destruct H as [Ht Hs Hr]. split; [done|apply map_Forall_empty|done].
Qed.

Lemma run_logged ops : logged (run_log ops) (run_ops (initial_state []) ops).
Proof.
  unfold run_log, run_ops.
  assert (forall log s, logged log s -> logged (log ++ concat (log_of <$> ops)) (foldl step s ops)) as Hg.
  { induction ops as [|o ops IH]; intros log s H; cbn; [by rewrite app_nil_r|].
    rewrite app_assoc. apply IH. by apply step_logged. }
  apply (Hg [] (initial_state [])). split; [done|apply map_Forall_empty|constructor].
Qed.

(** A conversation is continued only with what was remembered for it: when
    the bridge puts a previous response into a request, that identifier was
    remembered less than two lifetimes ago (one read back from the database
    within its lifetime is kept in memory for another) by a request with the
    same scoped key, the text made of the bridge key and the API key (which
    two requests can share, [bridge_key_collision]); and the account that a
    continuation is sent to is the one remembered for the same bridge key and
    the same API key, less than one lifetime ago. (C26) *)
Theorem bridge_continues_own_conversation ops body headers f now :
  let s := run_ops (initial_state []) ops in
  (let out := (inject_previous_response_id_from_bridge body headers f now s).1 in
   out = body \/
   exists key e, continuity_key_from_headers headers = Some key /\ e ∈ run_log ops /\
     scoped_bridge_key (rem_key e) (rem_scope e) = scoped_bridge_key key (api_key_scope_from_headers headers) /\
     now < rem_at e + 2 * kBridgeTtlMs /\ inject_previous_response_id body (rem_response e) = Some out) /\
  (forall account, (resolve_continuity_account_id headers f now s).1 = Some account ->
   exists e, e ∈ run_log ops /\ continuity_key_from_headers headers = Some (rem_key e) /\
     api_key_scope_from_headers headers = rem_scope e /\ account = rem_account e /\ now < rem_at e + kBridgeTtlMs).
Proof.
  intros s. pose proof (run_logged ops) as H. fold s in H. clearbody s.
  assert (forall key, usable_key headers = Some key -> continuity_key_from_headers headers = Some key) as Hu.
  { intros key. unfold usable_key. destruct (continuity_key_from_headers headers) as [[]|]; congruence. }
  split.
  - cbv zeta. unfold inject_previous_response_id_from_bridge. case_match; [by left|].
    destruct (usable_key headers) as [key|] eqn:Ek; [|by left].
    destruct (bridged_spec _ key (api_key_scope_from_headers headers) f now s H) as [_ Hb].
    destruct (bridged_response_id _ _ _ _ s) as [[id|] s1]; [|by left]. cbn in *.
    destruct (Hb id eq_refl) as (_ & e & He & Hk & <- & Hn).
    destruct (inject_previous_response_id body (rem_response e)) as [out|] eqn:Ei; [|by left].
    right. exists key, e. split_and!; try done. by apply Hu.
  - intros account. unfold resolve_continuity_account_id. destruct (usable_key headers) as [key|] eqn:Ek; [|done].
    pose proof (logged_ensure _ f s H) as He. destruct (ensure_persistence_db f s) as [[] s1]; [|done]. cbn in *.
    intros E. apply bind_Some in E as (r & Er & E). case_bool_decide; simplify_eq.
    destruct (logged_found_row _ _ _ _ _ _ _ He Er) as (e & Hin & Hk & Hs & Hr & Ha & Hn).
    exists e. split_and!; try congruence. rewrite Hk. by apply Hu.
Qed.

(** ** Recovery items *)

Lemma trim_to_bytes_spec items :
  exists n, trim_to_bytes items = drop n items /\
    (trim_to_bytes items = [] \/ serialize_recovery_items (trim_to_bytes items) = None \/
     exists s, serialize_recovery_items (trim_to_bytes items) = Some s /\ size_of s <= kMaxRecoveryInputBytes).
Proof.
  induction items as [|item items (n & En & Hn)]; [exists 0%nat; auto|]. cbn [trim_to_bytes].
  destruct (serialize_recovery_items (item :: items)) as [s|] eqn:Es.
  - case_match eqn:E; bool_hyps.
    + exists 0%nat. split; [done|]. right. right. exists s. done.
    + exists (S n). done.
  - exists 0%nat. split; [done|]. by right; left.
Qed.

(** What is kept of a conversation's input for its recovery is bounded: it is
    a final stretch of the input, at most sixteen items long, and its text is
    at most 96 KiB unless the library cannot write it at all. *)
Theorem recovery_items_bounded items :
  let kept := trim_recovery_items items in
  (exists n, kept = drop n items) /\ size_of kept <= kMaxRecoveryInputItems /\
  (kept = [] \/ serialize_recovery_items kept = None \/
   exists s, serialize_recovery_items kept = Some s /\ size_of s <= kMaxRecoveryInputBytes).
Proof.
  unfold trim_recovery_items, trim_to_count. cbv zeta.
  destruct (trim_to_bytes_spec (drop (Z.to_nat (size_of items - kMaxRecoveryInputItems)) items)) as (n & En & Hn).
  split; [|split; [|exact Hn]].
  - rewrite En, drop_drop. by eexists.
  - rewrite En, drop_drop. unfold size_of, kMaxRecoveryInputItems. rewrite length_drop. lia.
Qed.

End codec.

(** ** Bridge keys *)

Lemma app_sep_inj (sep : Byte.byte) (a1 b1 a2 b2 : bytes) :
  sep ∉ a1 -> sep ∉ a2 -> a1 ++ sep :: b1 = a2 ++ sep :: b2 -> a1 = a2 /\ b1 = b2.
Proof.
  revert a2. induction a1 as [|x a1 IH]; intros [|y a2] H1 H2 E; simplify_list_eq; try done.
  - by destruct H2; left.
  - by destruct H1; left.
  - apply not_elem_of_cons in H1 as [_ H1], H2 as [_ H2]. destruct (IH a2 H1 H2) as [-> ->]; done.
Qed.

(** Under API keys whose identifiers hold no bar, different keys or scopes
    have different bridge keys. *)
Lemma scoped_bridge_key_inj k1 s1 k2 s2 :
  s1 <> [] -> s2 <> [] -> Byte.x7c ∉ s1 -> Byte.x7c ∉ s2 ->
  scoped_bridge_key k1 s1 = scoped_bridge_key k2 s2 -> k1 = k2 /\ s1 = s2.
Proof.
  intros H1 H2 B1 B2. unfold scoped_bridge_key. rewrite !bool_decide_false by done. intros E.
  apply app_inv_head in E. apply app_sep_inj in E as [-> ->]; done.
Qed.

(** Without an API key the continuity key is the client's own text, and can
    spell the bridge key of somebody else's conversation. *)
Lemma bridge_key_collision key scope :
  scope <> [] -> exists forged, scoped_bridge_key forged [] = scoped_bridge_key key scope.
Proof.
  intros H. exists ($"api_key_scope:" ++ scope ++ $"|" ++ key). unfold scoped_bridge_key.
  by rewrite bool_decide_true, bool_decide_false.
Qed.
