(* ===== verification/Fernet.v ===== *)
(** * Fernet: the envelopes of the stored tokens

    src/native/auth/crypto/src/fernet.cpp.  The primitives belong to
    libsodium and OpenSSL: they are the operations of the classes [Sodium] and
    [Evp], and what the properties need of them, as their manuals state it,
    are the laws of [SodiumLaws].  The random nonces are arguments. *)

From S2P Require Import Prelude Codec Text Except.
Import Text.Ascii.

(** [sodium_init() >= 0], [sodium_bin2base64] without padding and without its
    terminator, [sodium_base642bin] with the padded variant or without, and
    the secret boxes. *)
Class Sodium := {
  sodium_ready : bool;
  sodium_bin2base64 : bytes -> bytes;
  sodium_base642bin : bool -> bytes -> option bytes;
  crypto_secretbox_easy : bytes -> bytes -> bytes -> option bytes;
  crypto_secretbox_open_easy : bytes -> bytes -> bytes -> option bytes;
}.

Definition crypto_secretbox_NONCEBYTES : nat := 24.
Definition crypto_secretbox_MACBYTES : nat := 16.
Definition crypto_secretbox_KEYBYTES : nat := 32.

Class SodiumLaws (S : Sodium) := {
  sodium_starts : sodium_ready = true;
  base64_empty : sodium_bin2base64 [] = [];
  base64_decodes : forall data, sodium_base642bin false (sodium_bin2base64 data) = Some data;
  secretbox_length : forall m n k c, crypto_secretbox_easy m n k = Some c ->
    length c = (length m + crypto_secretbox_MACBYTES)%nat;
  secretbox_opens : forall m n k c, length n = crypto_secretbox_NONCEBYTES ->
    crypto_secretbox_easy m n k = Some c -> crypto_secretbox_open_easy c n k = Some m;
}.

(** OpenSSL: [HMAC] with SHA-256 ([None] is the null pointer), and AES-128-CBC
    decryption: the context, its key set-up, and the update with its final
    block. *)
Class Evp := {
  hmac_sha256 : bytes -> bytes -> option bytes;
  evp_cipher_ctx_new : bool;
  evp_decrypt_init : bytes -> bytes -> bool;
  evp_decrypt : bytes -> bytes -> bytes -> option bytes;
}.

Abbreviation SecretKey := bytes.

Definition kPythonFernetMinBytes : nat := 1 + 8 + 16 + 32.

Section sodium.
Context {sodium : Sodium}.

Definition generate_secret_key (random : bytes) : option SecretKey :=
  if negb sodium_ready then None else Some random.

Definition key_to_hex (key : SecretKey) : bytes := Text.Hex.hex_encode key.

Definition key_from_hex (hex : bytes) : option SecretKey :=
  if negb sodium_ready || bool_decide (hex = []) then None
  else Text.Hex.hex_decode_into (Z.of_nat crypto_secretbox_KEYBYTES) hex.

(** [nonce]: what [randombytes_buf] drew. *)
Definition encrypt_token (nonce plaintext : bytes) (key : SecretKey) : option bytes :=
  if negb sodium_ready then None
  else
    ciphertext ← crypto_secretbox_easy plaintext nonce key;
    Some (sodium_bin2base64 (nonce ++ ciphertext)).

Definition decrypt_token (token : bytes) (key : SecretKey) : option bytes :=
  if negb sodium_ready || bool_decide (token = []) then None
  else
    payload ← sodium_base642bin false token;
    if bool_decide (length payload < crypto_secretbox_NONCEBYTES + crypto_secretbox_MACBYTES)%nat then None
    else
      crypto_secretbox_open_easy (drop crypto_secretbox_NONCEBYTES payload)
        (take crypto_secretbox_NONCEBYTES payload) key.

Definition decode_base64_urlsafe (encoded : bytes) : except bytes :=
  if negb sodium_ready then Throw $"libsodium initialization failed"
  else
    let trimmed := trim_ascii encoded in
    if bool_decide (trimmed = []) then Throw $"base64 payload is empty"
    else match sodium_base642bin true trimmed with
         | Some decoded => Ret decoded
         | None =>
             match sodium_base642bin false trimmed with
             | Some decoded => Ret decoded
             | None => Throw $"base64 payload is invalid"
             end
         end.

End sodium.

(** [std::isalnum] in the "C" locale, and the three other characters. *)
Definition is_python_fernet_char (ch : Byte.byte) : bool :=
  let c := val ch in
  (48 <=? c) && (c <=? 57) || (65 <=? c) && (c <=? 90) || (97 <=? c) && (c <=? 122) ||
  bool_decide (ch = Byte.x2d) || bool_decide (ch = Byte.x5f) || bool_decide (ch = Byte.x3d).

Definition looks_like_python_fernet_token (token : bytes) : bool :=
  let trimmed := trim_ascii token in
  if bool_decide (length trimmed < kPythonFernetMinBytes)%nat then false
  else if negb (starts_with trimmed $"gAAAA") then false
  else forallb is_python_fernet_char trimmed.

Section python.
Context {sodium : Sodium} {evp : Evp}.

(** [from, from + n) of a token. *)
Definition slice (from n : nat) (token_bytes : bytes) : bytes := take n (drop from token_bytes).

Definition decrypt_python_fernet_token (token urlsafe_base64_key : bytes) : except bytes :=
  if negb (looks_like_python_fernet_token token) then Throw $"token is not Python Fernet ciphertext"
  else match decode_base64_urlsafe urlsafe_base64_key with
  | Throw decode_error => Throw decode_error
  | Ret key_bytes =>
      if bool_decide (length key_bytes <> 32%nat) then Throw $"Fernet key must decode to 32 bytes"
      else match decode_base64_urlsafe token with
      | Throw decode_error => Throw decode_error
      | Ret token_bytes =>
          if bool_decide (length token_bytes <= kPythonFernetMinBytes)%nat
          then Throw $"Fernet token payload is too short"
          else if negb (bool_decide (head token_bytes = Some Byte.x80))
          then Throw $"Fernet token version is unsupported"
          else
            let hmac_offset := (length token_bytes - 32)%nat in
            if bool_decide (hmac_offset <= 1 + 8 + 16)%nat then Throw $"Fernet token ciphertext is empty"
            else
              let signed_payload := take hmac_offset token_bytes in
              let supplied_hmac := drop hmac_offset token_bytes in
              let signing_key := slice 0 16 key_bytes in
              let encryption_key := slice 16 16 key_bytes in
              if negb (bool_decide (hmac_sha256 signing_key signed_payload = Some supplied_hmac))
              then Throw $"Fernet token authentication failed"
              else
                let iv := slice 9 16 signed_payload in
                let cipher := drop 25 signed_payload in
                if bool_decide (length cipher = 0)%nat || negb (length cipher mod 16 =? 0)%nat
                then Throw $"Fernet token ciphertext length is invalid"
                else if negb evp_cipher_ctx_new then Throw $"failed to initialize Fernet decrypt context"
                else if negb (evp_decrypt_init encryption_key iv) then Throw $"failed to initialize Fernet AES decrypt"
                else match evp_decrypt encryption_key iv cipher with
                     | Some plaintext => Ret plaintext
                     | None => Throw $"failed to decrypt Fernet token payload"
                     end
      end
  end.

(** A token is decrypted only when its signature verifies under the first half
    of the key, and then with the second half. *)
Lemma python_token_authentic token key plaintext :
  decrypt_python_fernet_token token key = Ret plaintext ->
  exists key_bytes signed hmac,
    decode_base64_urlsafe key = Ret key_bytes /\ length key_bytes = 32%nat /\
    decode_base64_urlsafe token = Ret (signed ++ hmac) /\ length hmac = 32%nat /\
    head signed = Some Byte.x80 /\
    hmac_sha256 (take 16 key_bytes) signed = Some hmac /\
    evp_decrypt (drop 16 key_bytes) (slice 9 16 signed) (drop 25 signed) = Some plaintext.
Proof.
  unfold decrypt_python_fernet_token. intros E.
  destruct (negb (looks_like_python_fernet_token token)); [done|].
  destruct (decode_base64_urlsafe key) as [kb|]; [|done]. destruct (bool_decide (length kb <> 32%nat)) eqn:Hk; [done|].
  apply bool_decide_eq_false, dec_stable in Hk. destruct (decode_base64_urlsafe token) as [tb|]; [|done].
  case_bool_decide as Hl; [done|]. destruct (bool_decide (head tb = Some Byte.x80)) eqn:Ev; [|done].
  cbv zeta in E. cbn [negb] in E. case_bool_decide as Ho; [done|].
  destruct (bool_decide (hmac_sha256 _ _ = _)) eqn:Em; [|done].
  apply bool_decide_eq_true in Em, Ev. cbn [negb] in E.
  destruct (_ || _); [done|]. destruct (negb evp_cipher_ctx_new); [done|].
  destruct (negb (evp_decrypt_init _ _)); [done|].
  destruct (evp_decrypt _ _ _) as [p|] eqn:Ed; [|done]. injection E as <-.
  unfold slice at 1 in Em. rewrite drop_0 in Em. unfold slice at 1 in Ed.
  rewrite (firstn_all2 (drop 16 kb)) in Ed by (rewrite length_drop; lia).
  exists kb, (take (length tb - 32) tb), (drop (length tb - 32) tb).
  split_and!; try done.
  - by rewrite take_drop.
  - rewrite length_drop. unfold kPythonFernetMinBytes in Hl. lia.
  - destruct tb; [done|]. unfold kPythonFernetMinBytes in Hl. cbn [length] in *.
    destruct (S (length tb) - 32)%nat eqn:E0; [lia|done].
Qed.

End python.

Lemma decrypt_encrypt {sodium : Sodium} `{!SodiumLaws sodium} nonce plaintext key token :
  length nonce = crypto_secretbox_NONCEBYTES ->
  encrypt_token nonce plaintext key = Some token ->
  token <> [] /\ decrypt_token token key = Some plaintext.
Proof.
  intros Hn. unfold encrypt_token, decrypt_token. rewrite sodium_starts. cbn [negb orb].
  intros E. apply bind_Some in E as (c & Ec & [= <-]).
  assert (sodium_bin2base64 (nonce ++ c) <> []) as Hne.
  { intros E. pose proof (base64_decodes (nonce ++ c)) as D. rewrite E, <- base64_empty, base64_decodes in D.
    injection D as D. symmetry in D. apply app_nil in D as [-> _]. done. }
  split; [done|]. rewrite bool_decide_false by done. rewrite base64_decodes. cbn [mbind option_bind].
  rewrite length_app, Hn, (secretbox_length _ _ _ _ Ec). rewrite bool_decide_false by lia.
  rewrite take_app_length', drop_app_length' by done. by eapply secretbox_opens.
Qed.

Lemma key_hex_roundtrip {sodium : Sodium} `{!SodiumLaws sodium} key :
  length key = crypto_secretbox_KEYBYTES -> key_from_hex (key_to_hex key) = Some key.
Proof.
  intros Hk. unfold key_from_hex, key_to_hex. rewrite sodium_starts. cbn [negb orb].
  rewrite bool_decide_false.
  - apply Text.Hex.hex_decode_into_encode. unfold size_of. by rewrite Hk.
  - destruct key as [|b key]; [done|]. done.
Qed.
