(* ===== verification/TokenStore.v ===== *)
(** * TokenStore: tokens at rest

    src/native/auth/crypto/src/token_store.cpp: what the account table stores
    of a token.  A function that returns no value and sets [*error] throws the
    message here.  The state is the process-wide one; locking it does not
    fail.  The digest is mbedtls's, the random nonces are arguments. *)

From S2P Require Import Prelude Text Except Fernet.
Import Text.Ascii.

Definition kCipherPrefix : bytes := $"tightrope-token:v1:".
Definition kTokenKeyDeriveContext : bytes := $"tightrope:token-store:session:v1:".

Record TokenStorageCryptoState := mkCryptoState {
  loaded_key : option SecretKey;
  encryption_configured : bool;
  load_error : bytes;
}.

Definition initial_crypto_state : TokenStorageCryptoState := mkCryptoState None false [].

(** [mbedtls_sha256]: [None] is an error code. *)
Class Digest := { mbedtls_sha256 : bytes -> option bytes }.

Definition token_storage_value_is_encrypted (stored_value : bytes) : bool := starts_with stored_value kCipherPrefix.

Definition token_storage_cipher_prefix : bytes := kCipherPrefix.

Definition or_else (message fallback : bytes) : bytes := if bool_decide (message = []) then fallback else message.

Section store.
Context {sodium : Sodium} {digest : Digest}.

Definition derive_session_key (passphrase : bytes) : except SecretKey :=
  if bool_decide (passphrase = []) then Throw $"database passphrase is empty"
  else match mbedtls_sha256 (kTokenKeyDeriveContext ++ passphrase) with
       | Some key => Ret key
       | None => Throw $"failed to derive token session key"
       end.

Definition configure_token_storage_session_passphrase (passphrase : bytes) : TokenStorageCryptoState :=
  if bool_decide (passphrase = []) then initial_crypto_state
  else match derive_session_key passphrase with
       | Ret key => mkCryptoState (Some key) true []
       | Throw derive_error => mkCryptoState None false (or_else derive_error $"token session key derivation failed")
       end.

Definition clear_token_storage_session_passphrase : TokenStorageCryptoState := initial_crypto_state.

Definition token_storage_plaintext_allowed (state : TokenStorageCryptoState) : bool :=
  negb (encryption_configured state).

Definition token_storage_migrate_plaintext_on_read_enabled : bool := true.

Definition token_storage_encryption_ready (state : TokenStorageCryptoState) : except unit :=
  if negb (encryption_configured state) then Throw $"token encryption key is not configured"
  else match loaded_key state with
       | Some _ => Ret tt
       | None => Throw (or_else (load_error state) $"token encryption key is not available")
       end.

Definition seal (nonce plaintext : bytes) (key : SecretKey) : except bytes :=
  match encrypt_token nonce plaintext key with
  | Some encrypted => Ret (kCipherPrefix ++ encrypted)
  | None => Throw $"failed to encrypt token payload"
  end.

Definition unseal (encoded : bytes) (key : SecretKey) : except bytes :=
  match decrypt_token encoded key with
  | Some decrypted => Ret decrypted
  | None => Throw $"failed to decrypt token payload"
  end.

Definition encrypt_token_for_storage (state : TokenStorageCryptoState) (nonce plaintext : bytes) : except bytes :=
  if negb (encryption_configured state) then
    if negb (token_storage_plaintext_allowed state)
    then Throw $"plaintext token storage is disabled until token encryption key is configured"
    else Ret plaintext
  else match loaded_key state with
       | None => Throw (or_else (load_error state) $"token encryption key is not available")
       | Some key => seal nonce plaintext key
       end.

Definition encrypt_token_for_storage_with_passphrase (nonce plaintext passphrase : bytes) : except bytes :=
  match derive_session_key passphrase with
  | Throw derive_error => Throw (or_else derive_error $"token session key derivation failed")
  | Ret key => seal nonce plaintext key
  end.

Definition payload_of (stored_value : bytes) : bytes := drop (length kCipherPrefix) stored_value.

Definition decrypt_token_from_storage_with_passphrase (stored_value passphrase : bytes) : except bytes :=
  if negb (token_storage_value_is_encrypted stored_value) then Ret stored_value
  else
    let encoded := payload_of stored_value in
    if bool_decide (encoded = []) then Throw $"encrypted token payload is empty"
    else match derive_session_key passphrase with
         | Throw derive_error => Throw (or_else derive_error $"token session key derivation failed")
         | Ret key => unseal encoded key
         end.

Definition decrypt_token_from_storage (state : TokenStorageCryptoState) (stored_value : bytes) : except bytes :=
  if negb (token_storage_value_is_encrypted stored_value) then
    if negb (token_storage_plaintext_allowed state)
    then Throw $"plaintext token payload is not allowed when strict at-rest encryption is enabled"
    else Ret stored_value
  else
    let encoded := payload_of stored_value in
    if bool_decide (encoded = []) then Throw $"encrypted token payload is empty"
    else if negb (encryption_configured state)
    then Throw $"encrypted token payload requires configured token encryption key"
    else match loaded_key state with
         | None => Throw (or_else (load_error state) $"token encryption key is not available")
         | Some key => unseal encoded key
         end.

(** The value and [*migrated]. *)
Definition migrate_plaintext_token_for_storage (state : TokenStorageCryptoState) (nonce stored_value : bytes) :
    except (bytes * bool) :=
  if bool_decide (stored_value = []) || token_storage_value_is_encrypted stored_value then Ret (stored_value, false)
  else if negb token_storage_migrate_plaintext_on_read_enabled then Ret (stored_value, false)
  else
    encrypted ← encrypt_token_for_storage state nonce stored_value;
    Ret (encrypted, token_storage_value_is_encrypted encrypted && negb (bool_decide (encrypted = stored_value))).

(** ** Lemmas *)

Lemma encrypted_spec s : token_storage_value_is_encrypted s = true <-> exists encoded, s = kCipherPrefix ++ encoded.
Proof. apply starts_with_spec. Qed.

Lemma encrypted_seal encoded : token_storage_value_is_encrypted (kCipherPrefix ++ encoded) = true.
Proof. apply encrypted_spec. by eexists. Qed.

Lemma payload_of_seal encoded : payload_of (kCipherPrefix ++ encoded) = encoded.
Proof. apply drop_app_length. Qed.

Lemma derive_nonempty passphrase key : derive_session_key passphrase = Ret key -> passphrase <> [].
Proof. unfold derive_session_key. by case_bool_decide. Qed.

(** The states that configuring can leave: a key exactly when encryption is
    configured. *)
Definition state_wf (state : TokenStorageCryptoState) : Prop :=
  is_Some (loaded_key state) <-> encryption_configured state = true.

Lemma configure_wf passphrase : state_wf (configure_token_storage_session_passphrase passphrase).
Proof.
  unfold configure_token_storage_session_passphrase, state_wf. case_bool_decide; [|case_match]; simpl;
    (split; [by intros [? ?]|done]) || (split; [done|by eexists]).
Qed.

(** Once encryption is configured no plaintext is stored and none is
    accepted. *)
Lemma strict_at_rest state nonce s :
  encryption_configured state = true ->
  (forall stored, encrypt_token_for_storage state nonce s = Ret stored -> token_storage_value_is_encrypted stored = true) /\
  (forall stored b, migrate_plaintext_token_for_storage state nonce s = Ret (stored, b) -> s <> [] ->
     token_storage_value_is_encrypted stored = true) /\
  (token_storage_value_is_encrypted s = false -> exists what, decrypt_token_from_storage state s = Throw what).
Proof.
  intros Hc.
  assert (forall stored, encrypt_token_for_storage state nonce s = Ret stored ->
            token_storage_value_is_encrypted stored = true) as He.
  { intros stored. unfold encrypt_token_for_storage, seal. rewrite Hc. cbn [negb].
    destruct (loaded_key state) as [k|]; [|done]. destruct (encrypt_token nonce s k); [|done].
    intros [= <-]. apply encrypted_seal. }
  split; [done|]. split.
  - intros stored b. unfold migrate_plaintext_token_for_storage. intros E Hs.
    rewrite bool_decide_false in E by done. cbn [orb] in E.
    destruct (token_storage_value_is_encrypted s) eqn:Es; [by injection E as <- <-|]. cbn [negb] in E.
    apply bind_Ret in E as (e & Ee & [= <- _]). by apply He.
  - intros Hs. unfold decrypt_token_from_storage, token_storage_plaintext_allowed. rewrite Hs, Hc. cbn [negb].
    by eexists.
Qed.

Lemma unseal_seal `{!SodiumLaws sodium} nonce plaintext key stored :
  length nonce = crypto_secretbox_NONCEBYTES -> seal nonce plaintext key = Ret stored ->
  token_storage_value_is_encrypted stored = true /\ payload_of stored <> [] /\
  unseal (payload_of stored) key = Ret plaintext.
Proof.
  intros Hn. unfold seal. destruct (encrypt_token nonce plaintext key) as [e|] eqn:E; [|done]. intros X.
  assert (stored = kCipherPrefix ++ e) as -> by congruence. clear X.
  destruct (decrypt_encrypt _ _ _ _ Hn E) as [Hne Hd].
  rewrite payload_of_seal. unfold unseal. rewrite Hd. split; [apply encrypted_seal|done].
Qed.

Lemma passphrase_roundtrip `{!SodiumLaws sodium} nonce plaintext passphrase stored :
  length nonce = crypto_secretbox_NONCEBYTES ->
  encrypt_token_for_storage_with_passphrase nonce plaintext passphrase = Ret stored ->
  token_storage_value_is_encrypted stored = true /\
  decrypt_token_from_storage_with_passphrase stored passphrase = Ret plaintext.
Proof.
  intros Hn. unfold encrypt_token_for_storage_with_passphrase, decrypt_token_from_storage_with_passphrase.
  destruct (derive_session_key passphrase) as [k|]; [|done]. intros E.
  destruct (unseal_seal _ _ _ _ Hn E) as (He & Hp & Hu). split; [done|].
  rewrite He. cbn [negb]. by rewrite bool_decide_false.
Qed.

(** The session's own functions and the ones with an explicit passphrase agree
    on what is encrypted. *)
Lemma configured_encrypt passphrase nonce plaintext key :
  derive_session_key passphrase = Ret key ->
  encrypt_token_for_storage (configure_token_storage_session_passphrase passphrase) nonce plaintext =
  encrypt_token_for_storage_with_passphrase nonce plaintext passphrase.
Proof.
  intros E. unfold configure_token_storage_session_passphrase, encrypt_token_for_storage_with_passphrase.
  pose proof (derive_nonempty _ _ E). rewrite bool_decide_false by done. by rewrite E.
Qed.

Lemma configured_decrypt passphrase stored key :
  derive_session_key passphrase = Ret key -> token_storage_value_is_encrypted stored = true ->
  decrypt_token_from_storage (configure_token_storage_session_passphrase passphrase) stored =
  decrypt_token_from_storage_with_passphrase stored passphrase.
Proof.
  intros E Hs. unfold configure_token_storage_session_passphrase, decrypt_token_from_storage,
    decrypt_token_from_storage_with_passphrase.
  pose proof (derive_nonempty _ _ E). rewrite bool_decide_false by done. rewrite E, Hs. done.
Qed.

(** A token survives its storage: whatever a session with a passphrase
    stores of a token, newly or when it migrates a plaintext it finds, is
    encrypted and reads back as the token, in the session and by the
    functions that rotate passphrases. (C39) *)
Theorem token_storage_roundtrip `{!SodiumLaws sodium} passphrase key nonce token stored :
  let state := configure_token_storage_session_passphrase passphrase in
  derive_session_key passphrase = Ret key ->
  length nonce = crypto_secretbox_NONCEBYTES ->
  encrypt_token_for_storage state nonce token = Ret stored \/
  (token <> [] /\ token_storage_value_is_encrypted token = false /\
   exists migrated, migrate_plaintext_token_for_storage state nonce token = Ret (stored, migrated)) ->
  token_storage_value_is_encrypted stored = true /\
  decrypt_token_from_storage state stored = Ret token /\
  decrypt_token_from_storage_with_passphrase stored passphrase = Ret token.
Proof.
  intros state Hk Hn Hs.
  assert (encrypt_token_for_storage state nonce token = Ret stored) as E.
  { destruct Hs as [|(Ht & Hp & m & E)]; [done|]. unfold migrate_plaintext_token_for_storage in E.
    rewrite bool_decide_false in E by done. rewrite Hp in E. cbn [orb negb] in E.
    by apply bind_Ret in E as (e & Ee & [= <- _]). }
  unfold state in *. rewrite (configured_encrypt _ _ _ key) in E by done.
  destruct (passphrase_roundtrip _ _ _ _ Hn E) as [He Hd].
  split; [done|]. split; [|done]. by rewrite (configured_decrypt _ _ key).
Qed.

End store.

(** ** A concrete library: the box appends a zero tag, base64 is the identity. *)

Definition plain_sodium : Sodium := {|
  sodium_ready := true;
  sodium_bin2base64 := fun data => data;
  sodium_base642bin := fun _ text => Some text;
  crypto_secretbox_easy := fun m _ _ => Some (m ++ replicate crypto_secretbox_MACBYTES Byte.x00);
  crypto_secretbox_open_easy := fun c _ _ => Some (take (length c - crypto_secretbox_MACBYTES) c);
|}.

#[global] Instance plain_sodium_laws : SodiumLaws plain_sodium.
Proof.
  split; try done.
  - intros m n k c E. assert (c = m ++ replicate crypto_secretbox_MACBYTES Byte.x00) as -> by exact (eq_sym (Some_inj _ _ E)).
    by rewrite length_app, length_replicate.
  - intros m n k c _ E. assert (c = m ++ replicate crypto_secretbox_MACBYTES Byte.x00) as -> by exact (eq_sym (Some_inj _ _ E)).
    unfold crypto_secretbox_open_easy, plain_sodium. f_equal.
    rewrite length_app, length_replicate, Nat.add_sub. by rewrite take_app_length.
Qed.

Definition plain_digest : Digest := {| mbedtls_sha256 := fun _ => Some (replicate 32 Byte.x00) |}.

Lemma token_storage_roundtrip_witness :
  let state := @configure_token_storage_session_passphrase plain_digest $"pass" in
  exists stored, @encrypt_token_for_storage plain_sodium state (replicate 24 Byte.x01) $"token" = Ret stored /\
    @decrypt_token_from_storage plain_sodium state stored = Ret $"token".
Proof.
  eexists. split; [vm_compute; reflexivity|].
  destruct (@token_storage_roundtrip plain_sodium plain_digest plain_sodium_laws $"pass" (replicate 32 Byte.x00)
    (replicate 24 Byte.x01) $"token" (kCipherPrefix ++ replicate 24 Byte.x01 ++ $"token" ++ replicate 16 Byte.x00))
    as (_ & H & _).
  - reflexivity.
  - reflexivity.
  - left. vm_compute. reflexivity.
  - exact H.
Defined.
