(* ===== verification/Accounts.v ===== *)
(** * Accounts: the account table

    src/native/db/repositories/src/account_repo.cpp: the rows of the SQLite
    table [accounts] in the order of their identifiers and every function of
    the repository.  The columns that no modelled function reads are left
    out.  [datetime('now')] is an argument, in seconds; a nonce is given per
    account and column.  A statement may fail: [runs] tells which do, and
    [Open] stands for the database handle with its schema. *)

From S2P Require Import Prelude Text Except Fernet TokenStore.
Import Text.Ascii.

Record AccountRow := mkAccountRow {
  id : Z;
  email : option bytes;
  provider : option bytes;
  chatgpt_account_id : option bytes;
  plan_type : option bytes;
  access_token_encrypted : option bytes;
  refresh_token_encrypted : option bytes;
  id_token_encrypted : option bytes;
  last_refresh : option Z;
  status : bytes;
  quota_primary_percent : option Z;
  quota_secondary_percent : option Z;
  quota_primary_limit_window_seconds : option Z;
  quota_secondary_limit_window_seconds : option Z;
  quota_primary_reset_at_ms : option Z;
  quota_secondary_reset_at_ms : option Z;
  usage_telemetry_refreshed_at : option Z;
  routing_pinned : Z;
  updated_at : Z;
}.

(** [AUTOINCREMENT]: the next identifier is larger than any used before. *)
Record accounts_table := mkAccounts { rows : list AccountRow; next_id : Z }.

Definition empty_accounts : accounts_table := mkAccounts [] 1.

(** ** Setters, one per kind of [UPDATE] *)

Definition set_status (s : bytes) (pinned now : Z) (r : AccountRow) : AccountRow :=
  mkAccountRow (id r) (email r) (provider r) (chatgpt_account_id r) (plan_type r) (access_token_encrypted r)
    (refresh_token_encrypted r) (id_token_encrypted r) (last_refresh r) s (quota_primary_percent r)
    (quota_secondary_percent r) (quota_primary_limit_window_seconds r) (quota_secondary_limit_window_seconds r)
    (quota_primary_reset_at_ms r) (quota_secondary_reset_at_ms r) (usage_telemetry_refreshed_at r) pinned now.

Definition set_pinned (pinned now : Z) (r : AccountRow) : AccountRow := set_status (status r) pinned now r.

Definition set_tokens (access refresh id_token : option bytes) (now : Z) (r : AccountRow) : AccountRow :=
  mkAccountRow (id r) (email r) (provider r) (chatgpt_account_id r) (plan_type r) access refresh id_token
    (last_refresh r) (status r) (quota_primary_percent r) (quota_secondary_percent r)
    (quota_primary_limit_window_seconds r) (quota_secondary_limit_window_seconds r) (quota_primary_reset_at_ms r)
    (quota_secondary_reset_at_ms r) (usage_telemetry_refreshed_at r) (routing_pinned r) now.

Definition set_access_token (access : bytes) (now : Z) (r : AccountRow) : AccountRow :=
  set_tokens (Some access) (refresh_token_encrypted r) (id_token_encrypted r) now r.

(** The percentages, with the status and the pin, as every change of the
    quotas sets them. *)
Definition set_quota (s : bytes) (primary secondary telemetry : option Z) (pinned now : Z) (r : AccountRow) :
    AccountRow :=
  mkAccountRow (id r) (email r) (provider r) (chatgpt_account_id r) (plan_type r) (access_token_encrypted r)
    (refresh_token_encrypted r) (id_token_encrypted r) (last_refresh r) s primary secondary
    (quota_primary_limit_window_seconds r) (quota_secondary_limit_window_seconds r) (quota_primary_reset_at_ms r)
    (quota_secondary_reset_at_ms r) telemetry pinned now.

(** [UPDATE accounts SET ... WHERE ...] with the number of changed rows. *)
Definition update_where (p : AccountRow -> bool) (f : AccountRow -> AccountRow) (t : accounts_table) :
    Z * accounts_table :=
  (size_of (filter (fun r => p r = true) (rows t)), mkAccounts ((fun r => if p r then f r else r) <$> rows t) (next_id t)).

Definition has_id (account_id : Z) (r : AccountRow) : bool := id r =? account_id.

Definition has_chatgpt_id (account : bytes) (r : AccountRow) : bool := bool_decide (chatgpt_account_id r = Some account).

Inductive Statement := Open | Begin | Commit | Insert | Find | Select | Update (account_id : Z) | Pin | Unpin.

(** ** AccountRecord *)

Record AccountRecord := mkAccountRecord {
  record_id : Z;
  record_email : bytes;
  record_provider : bytes;
  record_status : bytes;
  record_plan_type : option bytes;
  record_primary_percent : option Z;
  record_secondary_percent : option Z;
  record_primary_window : option Z;
  record_secondary_window : option Z;
  record_primary_reset : option Z;
  record_secondary_reset : option Z;
  record_pinned : bool;
}.

Definition text_or_empty (value : option bytes) : bytes := default [] value.

(** [Column::getInt]: the low 32 bits. *)
Definition column_int (value : Z) : Z := sint 32 (wrap 32 value).

Definition read_account_row (r : AccountRow) : AccountRecord :=
  mkAccountRecord (id r) (text_or_empty (email r)) (text_or_empty (provider r)) (status r)
    None None None None None None None false.

Definition list_account_row (r : AccountRow) : AccountRecord :=
  mkAccountRecord (id r) (text_or_empty (email r)) (text_or_empty (provider r)) (status r) (plan_type r)
    (column_int <$> quota_primary_percent r) (column_int <$> quota_secondary_percent r)
    (column_int <$> quota_primary_limit_window_seconds r) (column_int <$> quota_secondary_limit_window_seconds r)
    (quota_primary_reset_at_ms r) (quota_secondary_reset_at_ms r) (negb (column_int (routing_pinned r) =? 0)).

(** [ORDER BY email ASC, id ASC]; a null comes first. *)
Definition null_first_le (a b : option bytes) : Prop :=
  match a, b with None, _ => True | Some _, None => False | Some a, Some b => bytes_le a b end.

Definition listed_before (a b : AccountRow) : Prop :=
  (email a <> email b /\ null_first_le (email a) (email b)) \/ (email a = email b /\ id a <= id b).

#[global] Instance null_first_le_dec a b : Decision (null_first_le a b).
Proof. destruct a, b; simpl; apply _. Defined.

#[global] Instance listed_before_dec a b : Decision (listed_before a b).
Proof. unfold listed_before. apply _. Defined.

Section repo.
Context (runs : Statement -> bool).

Definition list_accounts (t : accounts_table) : list AccountRecord :=
  if negb (runs Open) || negb (runs Select) then [] else list_account_row <$> merge_sort listed_before (rows t).

Definition select_account (account_id : Z) (t : accounts_table) : option AccountRecord :=
  if runs Select then read_account_row <$> List.find (has_id account_id) (rows t) else None.

Definition new_row (account_id : Z) (email provider : bytes) (now : Z) : AccountRow :=
  mkAccountRow account_id (Some email) (Some provider) None None None None None None $"active"
    None None None None None None None 0 now.

Definition insert_account (r : AccountRow) (t : accounts_table) : accounts_table :=
  mkAccounts (rows t ++ [r]) (next_id t + 1).

Definition import_account (email provider : bytes) (now : Z) (t : accounts_table) :
    option AccountRecord * accounts_table :=
  if negb (runs Open) || bool_decide (email = []) || negb (runs Insert) then (None, t)
  else
    let t := insert_account (new_row (next_id t) email provider now) t in
    (select_account (next_id t - 1) t, t).

Record OauthAccountUpsert := mkOauthAccount {
  oauth_email : bytes;
  oauth_provider : bytes;
  oauth_chatgpt_account_id : option bytes;
  oauth_plan_type : option bytes;
  oauth_access_token : bytes;
  oauth_refresh_token : bytes;
  oauth_id_token : bytes;
}.

Definition oauth_row (account_id : Z) (pinned : Z) (base : AccountRow) (account : OauthAccountUpsert)
    (access refresh id_token : bytes) (now : Z) : AccountRow :=
  mkAccountRow account_id (email base) (provider base) (oauth_chatgpt_account_id account) (oauth_plan_type account)
    (Some access) (Some refresh) (Some id_token) (Some now) $"active" (quota_primary_percent base)
    (quota_secondary_percent base) (quota_primary_limit_window_seconds base)
    (quota_secondary_limit_window_seconds base) (quota_primary_reset_at_ms base) (quota_secondary_reset_at_ms base)
    (usage_telemetry_refreshed_at base) pinned now.

Definition same_login (account : OauthAccountUpsert) (r : AccountRow) : bool :=
  bool_decide (email r = Some (oauth_email account) /\ provider r = Some (oauth_provider account)).

Definition upsert_oauth_account {S : Sodium} (crypto : TokenStorageCryptoState) (nonce : nat -> bytes)
    (account : OauthAccountUpsert) (now : Z) (t : accounts_table) : option AccountRecord * accounts_table :=
  if negb (runs Open) || bool_decide (oauth_email account = []) then (None, t)
  else match encrypt_token_for_storage crypto (nonce 0%nat) (oauth_access_token account),
             encrypt_token_for_storage crypto (nonce 1%nat) (oauth_refresh_token account),
             encrypt_token_for_storage crypto (nonce 2%nat) (oauth_id_token account) with
  | Ret access, Ret refresh, Ret id_token =>
      if negb (runs Find) then (None, t)
      else match List.find (same_login account) (rows t) with
      | None =>
          if negb (runs Insert) then (None, t)
          else
            let row := oauth_row (next_id t) 0
                         (new_row (next_id t) (oauth_email account) (oauth_provider account) now)
                         account access refresh id_token now in
            let t := insert_account row t in (select_account (id row) t, t)
      | Some existing =>
          if negb (runs (Update (id existing))) then (None, t)
          else
            let t := (update_where (has_id (id existing))
                        (fun r => oauth_row (id r) (routing_pinned r) r account access refresh id_token now) t).2 in
            (select_account (id existing) t, t)
      end
  | _, _, _ => (None, t)
  end.

Definition update_account_status (account_id : Z) (new_status : bytes) (now : Z) (t : accounts_table) :
    option AccountRecord * accounts_table :=
  if negb (runs Open) || (account_id <=? 0) || bool_decide (new_status = []) || negb (runs (Update account_id))
  then (None, t)
  else
    let '(changes, t) :=
      update_where (has_id account_id)
        (fun r => set_status new_status (if bool_decide (new_status = $"active") then routing_pinned r else 0) now r) t in
    if changes =? 0 then (None, t) else (select_account account_id t, t).

Definition delete_account (account_id : Z) (t : accounts_table) : bool * accounts_table :=
  if negb (runs Open) || (account_id <=? 0) || negb (runs (Update account_id)) then (false, t)
  else
    (0 <? size_of (filter (fun r => has_id account_id r = true) (rows t)),
     mkAccounts (filter (fun r => has_id account_id r = false) (rows t)) (next_id t)).

(** The value to decrypt: a plaintext found on the way is encrypted in its
    row. *)
Definition normalize_access_token_storage {S : Sodium} (crypto : TokenStorageCryptoState) (nonce : bytes)
    (account_id : Z) (stored_token : bytes) (now : Z) (t : accounts_table) : option bytes * accounts_table :=
  match migrate_plaintext_token_for_storage crypto nonce stored_token with
  | Throw _ => (None, t)
  | Ret (normalized, false) => (Some normalized, t)
  | Ret (normalized, true) =>
      if negb (runs (Update account_id)) then (None, t)
      else (Some normalized, (update_where (has_id account_id) (set_access_token normalized now) t).2)
  end.

Record AccountUsageCredentials := mkUsageCredentials { usage_account_id : bytes; usage_access_token : bytes }.

Definition account_usage_credentials {S : Sodium} (crypto : TokenStorageCryptoState) (nonce : bytes)
    (account_id now : Z) (t : accounts_table) : option AccountUsageCredentials * accounts_table :=
  if negb (runs Open) || (account_id <=? 0) || negb (runs Select) then (None, t)
  else match List.find (has_id account_id) (rows t) with
  | Some r =>
      match chatgpt_account_id r, access_token_encrypted r with
      | Some raw_account, Some stored_token =>
          let account := trim_ascii raw_account in
          let token := trim_ascii stored_token in
          if bool_decide (account = []) || bool_decide (token = []) then (None, t)
          else match normalize_access_token_storage crypto nonce account_id token now t with
          | (None, t) => (None, t)
          | (Some normalized, t) =>
              match decrypt_token_from_storage crypto normalized with
              | Throw _ => (None, t)
              | Ret decrypted =>
                  let token := trim_ascii decrypted in
                  if bool_decide (token = []) then (None, t) else (Some (mkUsageCredentials account token), t)
              end
          end
      | _, _ => (None, t)
      end
  | None => (None, t)
  end.

(** ** set_account_routing_pinned and the other pin *)

Definition set_account_routing_pinned (account_id : Z) (pinned : bool) (now : Z) (t : accounts_table) :
    bool * accounts_table :=
  if negb (runs Open) || (account_id <=? 0) then (false, t)
  else if pinned then
    if negb (runs Begin) || negb (runs Unpin) || negb (runs Pin) then (false, t)
    else
      let cleared := (update_where (fun r => negb (routing_pinned r =? 0)) (set_pinned 0 now) t).2 in
      let '(changes, pinned_table) := update_where (has_id account_id) (set_pinned 1 now) cleared in
      if changes =? 0 then (false, t)
      else if negb (runs Commit) then (false, t)
      else (true, pinned_table)
  else if negb (runs Unpin) then (false, t)
  else
    let '(changes, t) := update_where (has_id account_id) (set_pinned 0 now) t in (0 <? changes, t).

Definition clear_account_routing_pin_by_chatgpt_account_id (account : bytes) (now : Z) (t : accounts_table) :
    bool * accounts_table :=
  let normalized := trim_ascii account in
  if negb (runs Open) || bool_decide (normalized = []) || negb (runs Unpin) then (false, t)
  else
    let '(changes, t) :=
      update_where (fun r => has_chatgpt_id normalized r && negb (routing_pinned r =? 0)) (set_pinned 0 now) t in
    (0 <? changes, t).

(** ** update_account_usage_telemetry *)

Record Telemetry := mkTelemetry {
  new_primary_percent : option Z;
  new_secondary_percent : option Z;
  new_plan_type : option bytes;
  new_status : option bytes;
  new_primary_window : option Z;
  new_secondary_window : option Z;
  new_primary_reset : option Z;
  new_secondary_reset : option Z;
}.

Definition set_telemetry (u : Telemetry) (now : Z) (r : AccountRow) : AccountRow :=
  let s := default (status r) (new_status u) in
  mkAccountRow (id r) (email r) (provider r) (chatgpt_account_id r)
    (match new_plan_type u with Some p => Some p | None => plan_type r end) (access_token_encrypted r)
    (refresh_token_encrypted r) (id_token_encrypted r) (last_refresh r) s (new_primary_percent u)
    (new_secondary_percent u) (new_primary_window u) (new_secondary_window u) (new_primary_reset u)
    (new_secondary_reset u) (Some now) (if bool_decide (s = $"active") then routing_pinned r else 0) now.

Definition update_account_usage_telemetry (account_id : Z) (u : Telemetry) (now : Z) (t : accounts_table) :
    bool * accounts_table :=
  if negb (runs Open) || (account_id <=? 0) || negb (runs (Update account_id)) then (false, t)
  else
    let '(changes, t) := update_where (has_id account_id) (set_telemetry u now) t in (0 <? changes, t).

(** ** migrate_plaintext_account_tokens *)

Record TokenStorageMigrationResult := mkMigrationResult {
  scanned_accounts : Z;
  plaintext_accounts : Z;
  plaintext_tokens : Z;
  migrated_accounts : Z;
  migrated_tokens : Z;
  failed_accounts : Z;
}.

Definition is_plaintext (stored : option bytes) : bool :=
  match stored with
  | Some s => negb (bool_decide (s = [])) && negb (token_storage_value_is_encrypted s)
  | None => false
  end.

(** One column: [None] is a failure, otherwise the new value and whether it
    was migrated. *)
Definition migrate_token {S : Sodium} (crypto : TokenStorageCryptoState) (nonce : bytes) (stored : option bytes) :
    option (option bytes * bool) :=
  match stored with
  | None | Some [] => Some (stored, false)
  | Some value =>
      match migrate_plaintext_token_for_storage crypto nonce value with
      | Ret (migrated_value, migrated) => Some (Some migrated_value, migrated)
      | Throw _ => None
      end
  end.

Definition count (bs : list bool) : Z := size_of (filter (fun b => b = true) bs).

Definition tokens_of (r : AccountRow) : list (option bytes) :=
  [access_token_encrypted r; refresh_token_encrypted r; id_token_encrypted r].

Definition add_migration (plain migrated : Z) (failed : bool) (res : TokenStorageMigrationResult) :
    TokenStorageMigrationResult :=
  mkMigrationResult (scanned_accounts res + 1) (plaintext_accounts res + (if 0 <? plain then 1 else 0))
    (plaintext_tokens res + plain) (migrated_accounts res + (if 0 <? migrated then 1 else 0))
    (migrated_tokens res + migrated) (failed_accounts res + (if failed then 1 else 0)).

(** One account: [None] is an exception, which rolls everything back. *)
Definition migrate_row {S : Sodium} (crypto : TokenStorageCryptoState) (nonce : Z -> nat -> bytes) (dry_run : bool)
    (now : Z) (r : AccountRow) (res : TokenStorageMigrationResult) : option (AccountRow * TokenStorageMigrationResult) :=
  let plain := count (is_plaintext <$> tokens_of r) in
  if dry_run then Some (r, add_migration plain 0 false res)
  else match migrate_token crypto (nonce (id r) 0%nat) (access_token_encrypted r),
             migrate_token crypto (nonce (id r) 1%nat) (refresh_token_encrypted r),
             migrate_token crypto (nonce (id r) 2%nat) (id_token_encrypted r) with
  | Some (access, m0), Some (refresh, m1), Some (id_token, m2) =>
      let migrated := count [m0; m1; m2] in
      if migrated =? 0 then Some (r, add_migration plain 0 false res)
      else if runs (Update (id r)) then Some (set_tokens access refresh id_token now r, add_migration plain migrated false res)
      else None
  | _, _, _ => Some (r, add_migration plain 0 true res)
  end.

Fixpoint map_rows {R} (f : AccountRow -> R -> option (AccountRow * R)) (rs : list AccountRow) (res : R) :
    option (list AccountRow * R) :=
  match rs with
  | [] => Some ([], res)
  | r :: rs => '(r, res) ← f r res; '(rs, res) ← map_rows f rs res; Some (r :: rs, res)
  end.

Definition migrate_plaintext_account_tokens {S : Sodium} (crypto : TokenStorageCryptoState)
    (nonce : Z -> nat -> bytes) (dry_run : bool) (now : Z) (t : accounts_table) :
    option TokenStorageMigrationResult * accounts_table :=
  if negb (runs Open) || negb (runs Select) || (negb dry_run && negb (runs Begin)) then (None, t)
  else match map_rows (migrate_row crypto nonce dry_run now) (rows t) (mkMigrationResult 0 0 0 0 0 0) with
  | None => (None, t)
  | Some (rs, res) =>
      if negb dry_run && negb (runs Commit) then (None, t) else (Some res, mkAccounts rs (next_id t))
  end.

(** ** rotate_account_token_storage_passphrase *)

Record RotationResult := mkRotationResult { rotated_scanned : Z; rotated_accounts : Z; rotated_tokens : Z }.

Section rotate.
Context {S : Sodium} {D : Digest}.

Definition rotate_token (current_passphrase next_passphrase nonce : bytes) (stored : option bytes) :
    option (option bytes * bool) :=
  match stored with
  | None | Some [] => Some (stored, false)
  | Some value =>
      match (if token_storage_value_is_encrypted value
             then decrypt_token_from_storage_with_passphrase value current_passphrase
             else Ret value) with
      | Throw _ => None
      | Ret token_plaintext =>
          match encrypt_token_for_storage_with_passphrase nonce token_plaintext next_passphrase with
          | Throw _ => None
          | Ret rotated => if bool_decide (rotated = value) then Some (stored, false) else Some (Some rotated, true)
          end
      end
  end.

Definition rotate_row (current_passphrase next_passphrase : bytes) (nonce : Z -> nat -> bytes) (now : Z)
    (r : AccountRow) (res : RotationResult) : option (AccountRow * RotationResult) :=
  '(access, m0) ← rotate_token current_passphrase next_passphrase (nonce (id r) 0%nat) (access_token_encrypted r);
  '(refresh, m1) ← rotate_token current_passphrase next_passphrase (nonce (id r) 1%nat) (refresh_token_encrypted r);
  '(id_token, m2) ← rotate_token current_passphrase next_passphrase (nonce (id r) 2%nat) (id_token_encrypted r);
  let rotated := count [m0; m1; m2] in
  if rotated =? 0
  then Some (r, mkRotationResult (rotated_scanned res + 1) (rotated_accounts res) (rotated_tokens res))
  else if runs (Update (id r))
  then Some (set_tokens access refresh id_token now r,
             mkRotationResult (rotated_scanned res + 1) (rotated_accounts res + 1) (rotated_tokens res + rotated))
  else None.

Definition rotate_account_token_storage_passphrase (current_passphrase next_passphrase : bytes)
    (nonce : Z -> nat -> bytes) (now : Z) (t : accounts_table) : option RotationResult * accounts_table :=
  if negb (runs Open) || bool_decide (current_passphrase = []) || bool_decide (next_passphrase = [])
     || negb (runs Select) || negb (runs Begin) then (None, t)
  else match map_rows (rotate_row current_passphrase next_passphrase nonce now) (rows t) (mkRotationResult 0 0 0) with
  | None => (None, t)
  | Some (rs, res) => if negb (runs Commit) then (None, t) else (Some res, mkAccounts rs (next_id t))
  end.

End rotate.
End repo.

(** ** What the table guarantees *)

Definition pinned (r : AccountRow) : bool := negb (routing_pinned r =? 0).

Definition pins (rs : list AccountRow) : Z := size_of (filter (fun r => pinned r = true) rs).

(** Identifiers are distinct, positive and below the next one, and at most one
    account is pinned. *)
Record wf (t : accounts_table) : Prop := {
  wf_distinct : NoDup (id <$> rows t);
  wf_bounds : Forall (fun r => 0 < id r < next_id t) (rows t);
  wf_next : 0 < next_id t;
  wf_pins : pins (rows t) <= 1;
}.

Lemma pins_cons r rs : pins (r :: rs) = (if pinned r then 1 else 0) + pins rs.
Proof. unfold pins. rewrite filter_cons. destruct (pinned r); case_decide; try done; by rewrite size_of_cons. Qed.

Lemma pins_map f rs : (forall r, pinned (f r) = true -> pinned r = true) -> pins (f <$> rs) <= pins rs.
Proof.
  intros Hf. induction rs as [|r rs IH]; [done|]. rewrite fmap_cons, !pins_cons.
  specialize (Hf r). destruct (pinned (f r)); [rewrite Hf by done|destruct (pinned r)]; lia.
Qed.

Lemma pins_none rs : (forall r, r ∈ rs -> pinned r = false) -> pins rs = 0.
Proof.
  induction rs as [|r rs IH]; intros H; [done|]. rewrite pins_cons, H by by left.
  rewrite IH; [done|]. intros r' Hr. apply H. by right.
Qed.

Lemma map_wf f rs n :
  wf (mkAccounts rs n) -> (forall r, id (f r) = id r) -> (forall r, pinned (f r) = true -> pinned r = true) ->
  wf (mkAccounts (f <$> rs) n).
Proof.
  intros [Hd Hb Hn Hp] Hi Hf. split; cbn [rows next_id] in *; [| |done|].
  - rewrite <- list_fmap_compose. erewrite list_fmap_ext; [exact Hd|]. intros i r _. apply Hi.
  - apply Forall_fmap. eapply Forall_impl; [exact Hb|]. intros r Hr. cbn. by rewrite Hi.
  - pose proof (pins_map f rs Hf). lia.
Qed.

Lemma update_where_wf p f t :
  wf t -> (forall r, id (f r) = id r) -> (forall r, pinned (f r) = true -> pinned r = true) -> wf (update_where p f t).2.
Proof.
  intros Hw Hi Hf. apply map_wf; [by destruct t|..]; intros r; destruct (p r); auto.
Qed.

Lemma insert_wf r t : wf t -> id r = next_id t -> pinned r = false -> wf (insert_account r t).
Proof.
  intros [Hd Hb Hn Hp] Hi Hr. split; cbn [rows next_id insert_account].
  - rewrite fmap_app. apply NoDup_app. split; [done|]. split; [|apply NoDup_singleton].
    intros x Hx Hx'. apply list_elem_of_singleton in Hx'. apply list_elem_of_fmap in Hx as (r' & -> & Hr').
    eapply Forall_forall in Hb; [|exact Hr']. lia.
  - apply Forall_app. split; [|apply Forall_singleton; lia].
    eapply Forall_impl; [exact Hb|]. cbn. lia.
  - lia.
  - unfold pins in *. rewrite filter_app, size_of_app, filter_cons_False by (by rewrite Hr).
    rewrite filter_nil, size_of_nil. lia.
Qed.

Lemma pins_filter P `{!forall x, Decision (P x)} rs : pins (filter P rs) <= pins rs.
Proof.
  induction rs as [|r rs IH]; [done|]. rewrite filter_cons, pins_cons.
  case_decide; [rewrite pins_cons|]; destruct (pinned r); lia.
Qed.

Lemma delete_wf P `{!forall x, Decision (P x)} t : wf t -> wf (mkAccounts (filter P (rows t)) (next_id t)).
Proof.
  intros [Hd Hb Hn Hp]. split; cbn [rows next_id]; [| |done|].
  - eapply sublist_NoDup; [exact Hd|]. apply fmap_sublist, sublist_filter.
  - by apply Forall_filter.
  - pose proof (pins_filter P (rows t)). lia.
Qed.

(** Rewriting the rows one by one, when what is done to each keeps its
    identifier and pins nothing. *)
Definition keeps (r r' : AccountRow) : Prop := id r' = id r /\ (pinned r' = true -> pinned r = true).

Lemma keeps_refl r : keeps r r.
Proof. done. Qed.

Lemma map_rows_Forall2 {R} (Q : AccountRow -> AccountRow -> Prop) (f : AccountRow -> R -> option (AccountRow * R)) rs res rs' res' :
  (forall r res r' res', f r res = Some (r', res') -> Q r r') ->
  map_rows f rs res = Some (rs', res') -> Forall2 Q rs rs'.
Proof.
  intros HQ. revert res rs'. induction rs as [|r rs IH]; intros res rs' E; simpl in E.
  { injection E as <- _. constructor. }
  apply bind_Some in E as ([r' res1] & Er & E). apply bind_Some in E as ([rs1 res2] & Ers & [= <- <-]).
  constructor; [by eapply HQ|by eapply IH].
Qed.

Lemma Forall2_keeps_wf rs rs' n : wf (mkAccounts rs n) -> Forall2 keeps rs rs' -> wf (mkAccounts rs' n).
Proof.
  intros [Hd Hb Hn Hp] H. cbn [rows next_id] in *.
  assert (id <$> rs' = id <$> rs) as Hi.
  { clear - H. induction H as [|r r' rs rs' [E _] _ IH]; [done|]. csimpl. by rewrite E, IH. }
  split; cbn [rows next_id]; [by rewrite Hi| |done|].
  - apply (Forall_fmap id (fun i => 0 < i < n)). rewrite Hi. by apply Forall_fmap.
  - etransitivity; [|exact Hp]. clear - H. induction H as [|r r' rs rs' [_ E] _ IH]; [done|].
    rewrite !pins_cons. destruct (pinned r'); [rewrite E by done|destruct (pinned r)]; lia.
Qed.

(** ** Every operation of the repository *)

Section ops.
Context {S : Sodium} {D : Digest}.

Inductive op :=
| Import (email provider : bytes)
| UpsertOauth (crypto : TokenStorageCryptoState) (nonce : nat -> bytes) (account : OauthAccountUpsert)
| UpdateStatus (account_id : Z) (s : bytes)
| Delete (account_id : Z)
| Credentials (crypto : TokenStorageCryptoState) (nonce : bytes) (account_id : Z)
| SetPinned (account_id : Z) (on : bool)
| ClearPin (account : bytes)
| UpdateTelemetry (account_id : Z) (u : Telemetry)
| MigrateTokens (crypto : TokenStorageCryptoState) (nonce : Z -> nat -> bytes) (dry_run : bool)
| RotatePassphrase (current_passphrase next_passphrase : bytes) (nonce : Z -> nat -> bytes).

Definition step (runs : Statement -> bool) (now : Z) (t : accounts_table) (o : op) : accounts_table :=
  match o with
  | Import e p => (import_account runs e p now t).2
  | UpsertOauth c n a => (upsert_oauth_account runs c n a now t).2
  | UpdateStatus i s => (update_account_status runs i s now t).2
  | Delete i => (delete_account runs i t).2
  | Credentials c n i => (account_usage_credentials runs c n i now t).2
  | SetPinned i on => (set_account_routing_pinned runs i on now t).2
  | ClearPin a => (clear_account_routing_pin_by_chatgpt_account_id runs a now t).2
  | UpdateTelemetry i u => (update_account_usage_telemetry runs i u now t).2
  | MigrateTokens c n dry => (migrate_plaintext_account_tokens runs c n dry now t).2
  | RotatePassphrase c x n => (rotate_account_token_storage_passphrase runs c x n now t).2
  end.

(** Each operation with the statements that run and the time. *)
Definition run_ops (t : accounts_table) (ops : list ((Statement -> bool) * Z * op)) : accounts_table :=
  foldl (fun t '(runs, now, o) => step runs now t o) t ops.

Lemma set_pinned_exact account_id t now :
  NoDup (id <$> rows t) ->
  let cleared := (update_where (fun r => negb (routing_pinned r =? 0)) (set_pinned 0 now) t).2 in
  let t' := (update_where (has_id account_id) (set_pinned 1 now) cleared).2 in
  id <$> rows t' = id <$> rows t /\ next_id t' = next_id t /\
  (forall r, r ∈ rows t' -> pinned r = (id r =? account_id)) /\ pins (rows t') <= 1.
Proof.
  intros Hd cleared t'. destruct t as [rs n]. cbn [rows next_id] in *.
  assert (rows t' = (fun r => if has_id account_id r then set_pinned 1 now r else r) <$>
    ((fun r => if negb (routing_pinned r =? 0) then set_pinned 0 now r else r) <$> rs)) as E by done.
  rewrite E. clear E.
  set (f := (fun r => if has_id account_id r then set_pinned 1 now r else r) ∘
    (fun r => if negb (routing_pinned r =? 0) then set_pinned 0 now r else r)).
  rewrite <- (list_fmap_compose (fun r => if negb (routing_pinned r =? 0) then _ else r)). fold f.
  assert (forall r, id (f r) = id r /\ pinned (f r) = (id r =? account_id)) as Hf.
  { intros r. unfold f, has_id, pinned. cbn. destruct (routing_pinned r =? 0) eqn:Ep; cbn;
      destruct (id r =? account_id) eqn:Ei; cbn; rewrite ?Ep; done. }
  assert (id <$> (f <$> rs) = id <$> rs) as Hi.
  { rewrite <- list_fmap_compose. apply list_fmap_ext. intros i r _. apply Hf. }
  split; [done|]. split; [done|]. split.
  - intros r Hr. apply list_elem_of_fmap in Hr as (r0 & -> & _). destruct (Hf r0) as [-> ->]. done.
  - clear Hi. induction rs as [|r rs IH]; [done|]. rewrite fmap_cons, pins_cons.
    rewrite fmap_cons in Hd. apply NoDup_cons in Hd as [Hr Hd]. specialize (IH Hd).
    destruct (Hf r) as [_ ->]. destruct (Z.eqb_spec (id r) account_id) as [E|]; [|exact IH].
    rewrite pins_none; [done|]. intros r' Hr'. apply list_elem_of_fmap in Hr' as (r0 & -> & Hr0).
    destruct (Hf r0) as [_ ->]. apply Z.eqb_neq. intros E'. apply Hr. rewrite E, <- E'. by apply list_elem_of_fmap_2.
Qed.

Ltac keep_row := intros r; unfold pinned, set_pinned, set_status, set_access_token, set_tokens; cbn; first [done|repeat case_match; done].

Lemma accounts_step_wf runs now t o : wf t -> wf (step runs now t o).
Proof.
  intros Hw. destruct o; cbn [step].
  - unfold import_account. case_match; [done|]. by apply insert_wf.
  - unfold upsert_oauth_account. repeat case_match; try done; [|by apply insert_wf].
    apply update_where_wf; [done|keep_row|keep_row].
  - unfold update_account_status. case_match; [done|].
    pose proof (update_where_wf (has_id account_id) (fun r => set_status s
      (if bool_decide (s = $"active") then routing_pinned r else 0) now r) t Hw) as Hu.
    destruct (update_where _ _ t) as [c t']. cbn [snd] in Hu.
    assert (wf t') by (apply Hu; [keep_row|]; intros r; unfold pinned; cbn [set_status routing_pinned]; by case_match).
    by destruct (c =? 0).
  - unfold delete_account. case_match; [done|]. by apply delete_wf.
  - unfold account_usage_credentials, normalize_access_token_storage. repeat case_match; simplify_eq; try done;
      (apply update_where_wf; [done|keep_row|keep_row]).
  - unfold set_account_routing_pinned. case_match; [done|]. destruct on.
    + case_match; [done|]. destruct (update_where (has_id account_id) _ _) as [c t'] eqn:E.
      case_match; [done|]. case_match; [done|]. cbn [snd].
      pose proof (set_pinned_exact account_id t now (wf_distinct _ Hw)) as Hx. cbv zeta in Hx. rewrite E in Hx. cbn [snd] in Hx.
      destruct Hx as (Hi & Hn & _ & Hp), Hw as [Hd Hb Hn0 _].
      split; [by rewrite Hi| |lia|done].
      apply (Forall_fmap id (fun i => 0 < i < next_id t')). rewrite Hi, Hn. by apply Forall_fmap.
    + case_match; [done|].
      pose proof (update_where_wf (has_id account_id) (set_pinned 0 now) t Hw) as Hu.
      destruct (update_where _ _ t) as [c t']. apply Hu; keep_row.
  - unfold clear_account_routing_pin_by_chatgpt_account_id. case_match; [done|].
    match goal with |- context [update_where ?p ?f t] => pose proof (update_where_wf p f t Hw) as Hu; destruct (update_where p f t) end.
    apply Hu; keep_row.
  - unfold update_account_usage_telemetry. case_match; [done|].
    match goal with |- context [update_where ?p ?f t] => pose proof (update_where_wf p f t Hw) as Hu; destruct (update_where p f t) end.
    apply Hu; [keep_row|]. intros r. unfold pinned. cbn [set_telemetry routing_pinned]. by case_match.
  - unfold migrate_plaintext_account_tokens. case_match; [done|]. destruct (map_rows _ _ _) as [[rs res]|] eqn:E; [|done].
    case_match; [done|]. cbn [snd]. eapply (Forall2_keeps_wf (rows t)); [by destruct t|].
    eapply map_rows_Forall2; [|exact E]. intros r res0 r' res'. unfold migrate_row.
    repeat case_match; intros; simplify_eq; done.
  - unfold rotate_account_token_storage_passphrase. case_match; [done|].
    destruct (map_rows _ _ _) as [[rs res]|] eqn:E; [|done].
    case_match; [done|]. cbn [snd]. eapply (Forall2_keeps_wf (rows t)); [by destruct t|].
    eapply map_rows_Forall2; [|exact E]. intros r res0 r' res' Er. unfold rotate_row in Er.
    apply bind_Some in Er as ([a m0] & _ & Er). apply bind_Some in Er as ([b m1] & _ & Er).
    apply bind_Some in Er as ([c m2] & _ & Er). repeat case_match; simplify_eq; done.
Qed.

Lemma accounts_run_wf t ops : wf t -> wf (run_ops t ops).
Proof.
  unfold run_ops. revert t. induction ops as [|[[runs now] o] ops IH]; intros t Hw; [done|]. apply IH. by apply accounts_step_wf.
Qed.

(** Whatever the repository is asked to do and whichever statements fail,
    account identifiers stay distinct and at most one account is pinned; a
    request to pin either pins its account and no other, or leaves the table
    as it was. *)
Theorem pins_exclusive ops runs account_id now :
  let t := run_ops empty_accounts ops in
  let '(done_, t') := set_account_routing_pinned runs account_id true now t in
  NoDup (id <$> rows t) /\ pins (rows t) <= 1 /\
  (done_ = true -> id <$> rows t' = id <$> rows t /\ account_id ∈ (id <$> rows t) /\
     forall r, r ∈ rows t' -> pinned r = (id r =? account_id)) /\
  (done_ = false -> t' = t).
Proof.
  intros t. assert (wf t) as Hw.
  { apply accounts_run_wf. split; [constructor|constructor|done|done]. }
  pose proof (set_pinned_exact account_id t now (wf_distinct _ Hw)) as Hx. cbv zeta in Hx.
  destruct Hw as [Hd _ _ Hp]. unfold set_account_routing_pinned.
  destruct (negb (runs Open) || (account_id <=? 0)); [by split_and!|].
  destruct (negb (runs Begin) || negb (runs Unpin) || negb (runs Pin)); [by split_and!|].
  destruct (update_where (has_id account_id) _ _) as [c t'] eqn:E. cbn [snd] in Hx.
  destruct (Z.eqb_spec c 0) as [|Hc]; [by split_and!|]. destruct (negb (runs Commit)); [by split_and!|]. split_and!; try done. intros _.
  destruct Hx as (Hi & _ & Hx & _). split_and!; [done| |done]. rewrite <- Hi.
  unfold update_where in E. injection E as Ec Et.
  destruct (filter (fun r => has_id account_id r = true) _) as [|r0 rs0] eqn:Ef; [by subst c|].
  match type of Ef with ?l = _ => assert (r0 ∈ l) as H0 by (rewrite Ef; left) end.
  apply list_elem_of_filter in H0 as [Hid Hin]. rewrite <- Et. cbn [rows].
  apply list_elem_of_fmap. exists (set_pinned 1 now r0). split.
  - cbn. unfold has_id in Hid. apply Z.eqb_eq in Hid. by rewrite Hid.
  - apply list_elem_of_fmap. exists r0. by rewrite Hid.
Qed.

End ops.

(** ** Rotating the passphrase *)

Section rotation.
Context {S : Sodium} {D : Digest} {laws : SodiumLaws S}.

(** A stored token that reads under the old passphrase as [p] is replaced by
    an encrypted one that reads under the new passphrase as [p]; absent and
    empty ones stay. *)
Definition token_rotated (current_passphrase next_passphrase : bytes) (stored stored' : option bytes) : Prop :=
  match stored with
  | None | Some [] => stored' = stored
  | Some value => exists value' p, stored' = Some value' /\
      decrypt_token_from_storage_with_passphrase value current_passphrase = Ret p /\
      token_storage_value_is_encrypted value' = true /\
      decrypt_token_from_storage_with_passphrase value' next_passphrase = Ret p
  end.

Definition row_rotated (current_passphrase next_passphrase : bytes) (r r' : AccountRow) : Prop :=
  r' = set_tokens (access_token_encrypted r') (refresh_token_encrypted r') (id_token_encrypted r') (updated_at r') r /\
  Forall2 (token_rotated current_passphrase next_passphrase) (tokens_of r) (tokens_of r').

Lemma rotate_token_spec cur next nonce stored stored' b :
  length nonce = crypto_secretbox_NONCEBYTES -> rotate_token cur next nonce stored = Some (stored', b) ->
  token_rotated cur next stored stored' /\ (b = false -> stored' = stored).
Proof.
  intros Hn. unfold rotate_token, token_rotated. destruct stored as [[|c v]|]; [naive_solver| |naive_solver].
  set (value := c :: v). destruct (if token_storage_value_is_encrypted value then _ else _) as [p|] eqn:Ep; [|done].
  assert (decrypt_token_from_storage_with_passphrase value cur = Ret p) as Ed.
  { destruct (token_storage_value_is_encrypted value) eqn:Ev; [done|].
    unfold decrypt_token_from_storage_with_passphrase. by rewrite Ev. }
  destruct (encrypt_token_for_storage_with_passphrase nonce p next) as [rotated|] eqn:Er; [|done].
  destruct (passphrase_roundtrip _ _ _ _ Hn Er) as [He Hr].
  case_bool_decide as Ex; intros [= <- <-]; (split; [|done]).
  - exists value, p. split_and!; try done; by rewrite <- Ex.
  - by exists rotated, p.
Qed.

Lemma count_zero bs : count bs = 0 -> Forall (fun b => b = false) bs.
Proof.
  intros H. apply Forall_forall. intros b Hb. destruct b; [|done].
  assert (true ∈ filter (fun b => b = true) bs) as Hf by by apply list_elem_of_filter.
  apply size_of_zero in H. rewrite H in Hf. by apply elem_of_nil in Hf.
Qed.

Lemma rotate_row_spec runs cur next nonce now r res r' res' :
  (forall i k, length (nonce i k) = crypto_secretbox_NONCEBYTES) ->
  rotate_row runs cur next nonce now r res = Some (r', res') -> row_rotated cur next r r'.
Proof.
  intros Hn E. unfold rotate_row in E.
  apply bind_Some in E as ([a m0] & Ea & E). apply bind_Some in E as ([b m1] & Eb & E).
  apply bind_Some in E as ([c m2] & Ec & E).
  apply rotate_token_spec in Ea as [Ha Na]; [|done]. apply rotate_token_spec in Eb as [Hb Nb]; [|done].
  apply rotate_token_spec in Ec as [Hc Nc]; [|done].
  destruct (Z.eqb_spec (count [m0; m1; m2]) 0) as [E0|_]; [|destruct (runs (Update (id r))); [|done]].
  - injection E as <- <-. apply count_zero in E0. rewrite !Forall_cons in E0. destruct E0 as (-> & -> & -> & _).
    rewrite Na in Ha by done. rewrite Nb in Hb by done. rewrite Nc in Hc by done.
    split; [by destruct r|by repeat constructor].
  - injection E as <- <-. split; [done|by repeat constructor].
Qed.

(** Rotating the passphrase is all or nothing and loses no token: when it
    reports success every account still has every token it had, encrypted and
    readable under the new passphrase exactly as it was under the old, and
    nothing else of the row changed but its time; when it fails, for a token
    that does not decrypt or a statement that does not run, the table is as
    it was. *)
Theorem passphrase_rotation runs cur next nonce now t :
  (forall i k, length (nonce i k) = crypto_secretbox_NONCEBYTES) ->
  let '(result, t') := rotate_account_token_storage_passphrase runs cur next nonce now t in
  (result = None -> t' = t) /\
  (is_Some result -> next_id t' = next_id t /\ Forall2 (row_rotated cur next) (rows t) (rows t')).
Proof.
  intros Hn. unfold rotate_account_token_storage_passphrase.
  destruct (_ || _); [split; [done|by intros [? ?]]|].
  destruct (map_rows _ _ _) as [[rs res]|] eqn:E; [|split; [done|by intros [? ?]]].
  destruct (negb (runs Commit)); [split; [done|by intros [? ?]]|].
  split; [done|]. intros _. split; [done|]. cbn [rows].
  eapply map_rows_Forall2; [|exact E]. intros r res0 r' res'. by apply rotate_row_spec.
Qed.

End rotation.

Definition all_run (s : Statement) : bool := true.

Definition sample_row : AccountRow :=
  mkAccountRow 1 (Some $"a@b") (Some $"openai") (Some $"acct") None (Some $"token") None (Some []) None $"active"
    None None None None None None None 0 0.

Lemma passphrase_rotation_witness :
  let '(result, t') := @rotate_account_token_storage_passphrase all_run plain_sodium plain_digest $"old" $"new"
    (fun _ _ => replicate 24 Byte.x01) 7 (mkAccounts [sample_row] 2) in
  is_Some result /\ Forall2 (@row_rotated plain_sodium plain_digest $"old" $"new") [sample_row] (rows t').
Proof.
  pose proof (@passphrase_rotation plain_sodium plain_digest plain_sodium_laws all_run $"old" $"new"
    (fun _ _ => replicate 24 Byte.x01) 7 (mkAccounts [sample_row] 2) (fun _ _ => eq_refl)) as H.
  destruct (rotate_account_token_storage_passphrase _ _ _ _ _ _) as [result t'] eqn:E.
  assert (is_Some result) as Hs.
  { apply (f_equal fst) in E. cbn [fst] in E. rewrite <- E. vm_compute. by eexists. }
  split; [exact Hs|]. exact (proj2 (proj2 H Hs)).
Defined.
