(* ===== verification/Pricing.v ===== *)
(** * Pricing: what a request costs on a plan

    src/native/usage/src/cost_calculator.cpp and the pricing part of
    src/native/proxy/session/src/sticky_affinity.cpp, which rates an account's
    plan for the balancer.  [std::strtod] depends on the locale and is a
    parameter: the value and how many characters it read. *)

From S2P Require Import Prelude Text Double Env.
Import Text.Ascii.

(** ** usage/cost_calculator *)

Record TokenPricingUsdPerMillion := mkPricing { input : double; output : double }.
Record RequestTokenUsage := mkTokenUsage { input_tokens : Z; output_tokens : Z }.
Record RequestCostBreakdown := mkBreakdown { input_cost_usd : double; output_cost_usd : double; total_cost_usd : double }.

Definition non_negative (value : double) : double := fmax value f_zero.

Definition estimate_axis_cost_usd (tokens : Z) (usd_per_million : double) : double :=
  fmul (fdiv (of_int tokens) (of_int 1000000)) (non_negative usd_per_million).

Definition estimate_request_cost_usd (usage : RequestTokenUsage) (pricing : TokenPricingUsdPerMillion) :
    RequestCostBreakdown :=
  let input_cost := estimate_axis_cost_usd (input_tokens usage) (input pricing) in
  let output_cost := estimate_axis_cost_usd (output_tokens usage) (output pricing) in
  mkBreakdown input_cost output_cost (fadd input_cost output_cost).

(** ** Literals and clamping *)

(** The decimal literal n/100: both integers are exact, so that the quotient
    is the nearest double. *)
Definition cents (n : Z) : double := fdiv (of_int n) (of_int 100).

Definition price (input_cents output_cents : Z) : TokenPricingUsdPerMillion :=
  mkPricing (cents input_cents) (cents output_cents).

(** [std::clamp(v, lo, hi)] *)
Definition fclamp (v lo hi : double) : double := if flt v lo then lo else if flt hi v then hi else v.

Definition is_finite (x : double) : bool :=
  match x with SpecFloat.S754_zero _ | SpecFloat.S754_finite _ _ _ => true | _ => false end.

(** ** The overrides *)

Fixpoint c_str (s : bytes) : bytes :=
  match s with
  | [] => []
  | ch :: s => if bool_decide (ch = Byte.x00) then [] else ch :: c_str s
  end.

(** [find(c)] with the two parts around it. *)
Fixpoint cut (c : Byte.byte) (s : bytes) : option (bytes * bytes) :=
  match s with
  | [] => None
  | ch :: s =>
      if bool_decide (ch = c) then Some ([], s)
      else match cut c s with Some (before, after) => Some (ch :: before, after) | None => None end
  end.

(** The pieces between [','] and [';']. *)
Fixpoint override_pieces (piece : bytes) (s : bytes) : list bytes :=
  match s with
  | [] => [piece]
  | ch :: s =>
      if bool_decide (ch = Byte.x2c \/ ch = Byte.x3b) then piece :: override_pieces [] s
      else override_pieces (piece ++ [ch]) s
  end.

Section pricing.
Context (strtod : bytes -> double * nat).

Definition parse_non_negative_double (raw : bytes) : option double :=
  let value := trim_ascii raw in
  if bool_decide (value = []) then None
  else
    let text := c_str value in
    let '(parsed, consumed) := strtod text in
    if (consumed =? 0)%nat || negb (consumed =? length text)%nat then None
    else if negb (is_finite parsed) || flt parsed f_zero then None
    else Some parsed.

(** One piece: the key plan@model and its prices. *)
Definition parse_override (piece : bytes) : option (bytes * TokenPricingUsdPerMillion) :=
  let token := trim_ascii piece in
  '(before, after) ← cut Byte.x3d token;
  let lhs := to_lower_ascii (trim_ascii before) in
  let rhs := trim_ascii after in
  '(plan_part, model_part) ← cut Byte.x40 lhs;
  let plan := trim_ascii plan_part in
  let model := trim_ascii model_part in
  '(input_raw, output_raw) ← cut Byte.x3a rhs;
  if bool_decide (plan = []) || bool_decide (model = []) then None
  else
    input ← parse_non_negative_double input_raw;
    output ← parse_non_negative_double output_raw;
    Some (plan ++ [Byte.x40] ++ model, mkPricing input output).

Definition add_override (overrides : gmap bytes TokenPricingUsdPerMillion) (piece : bytes) :
    gmap bytes TokenPricingUsdPerMillion :=
  match parse_override piece with Some (key, pricing) => <[key := pricing]> overrides | None => overrides end.

Definition parse_plan_model_pricing_overrides (raw_value : bytes) : gmap bytes TokenPricingUsdPerMillion :=
  foldl add_override ∅ (override_pieces [] raw_value).

(** The environment's overrides win over the settings'. *)
Definition merged_overrides (raw_env_value raw_settings_value : bytes) : gmap bytes TokenPricingUsdPerMillion :=
  parse_plan_model_pricing_overrides raw_env_value ∪ parse_plan_model_pricing_overrides raw_settings_value.

Record PlanModelPricingOverrideState := mkOverrides {
  raw_env_value : bytes;
  raw_settings_value : bytes;
  pricing_by_key : gmap bytes TokenPricingUsdPerMillion;
}.

Definition initial_overrides : PlanModelPricingOverrideState := mkOverrides [] [] ∅.

Definition kPlanModelPricingEnv : bytes := $"TIGHTROPE_ROUTING_PLAN_MODEL_PRICING_USD_PER_MILLION".

Definition read_env (env : environment) (key : bytes) : bytes := default [] (getenv_nonempty env key).

Definition refresh_overrides (env_value settings_value : bytes) (state : PlanModelPricingOverrideState) :
    PlanModelPricingOverrideState :=
  if negb (bool_decide (raw_env_value state = env_value)) || negb (bool_decide (raw_settings_value state = settings_value))
  then mkOverrides env_value settings_value (merged_overrides env_value settings_value)
  else state.

Definition find_override (plan model : bytes) (pricing : gmap bytes TokenPricingUsdPerMillion) :
    option TokenPricingUsdPerMillion :=
  match (if bool_decide (model = []) then None else pricing !! (plan ++ [Byte.x40] ++ model)) with
  | Some exact => Some exact
  | None => pricing !! (plan ++ $"@*")
  end.

Definition lookup_plan_model_pricing_override (env : environment) (plan model settings_overrides : bytes)
    (state : PlanModelPricingOverrideState) : option TokenPricingUsdPerMillion * PlanModelPricingOverrideState :=
  let normalized_plan := to_lower_ascii (trim_ascii plan) in
  let normalized_model := to_lower_ascii (trim_ascii model) in
  if bool_decide (normalized_plan = []) then (None, state)
  else
    let state := refresh_overrides (read_env env kPlanModelPricingEnv) settings_overrides state in
    (find_override normalized_plan normalized_model (pricing_by_key state), state).

(** ** The plans' own prices *)

Definition default_pricing_for_plan (plan_type : option bytes) : TokenPricingUsdPerMillion :=
  match plan_type with
  | None => price 15 45
  | Some plan_type =>
      let normalized := to_lower_ascii (trim_ascii plan_type) in
      if bool_decide (normalized = []) then price 15 45
      else if bool_decide (normalized = $"free") then price 4 6
      else if bool_decide (normalized = $"plus") then price 10 25
      else if bool_decide (normalized = $"pro") then price 15 35
      else if bool_decide (normalized = $"team") then price 20 45
      else if bool_decide (normalized = $"business") then price 30 50
      else if bool_decide (normalized = $"enterprise") then price 40 60
      else price 20 40
  end.

Definition model_pricing_multipliers (model : bytes) : TokenPricingUsdPerMillion :=
  let normalized := to_lower_ascii (trim_ascii model) in
  if bool_decide (normalized = []) then price 100 100
  else if Text.Find.contains normalized $"mini" then price 55 50
  else if starts_with normalized $"o" then price 115 160
  else if starts_with normalized $"gpt-5" then price 110 140
  else if starts_with normalized $"gpt-4.1" then price 95 110
  else price 100 100.

Definition normalized_plan (plan_type : option bytes) : bytes :=
  match plan_type with Some plan_type => to_lower_ascii (trim_ascii plan_type) | None => [] end.

Definition resolve_pricing_for_plan_model (env : environment) (plan_type : option bytes)
    (request_model settings_overrides : bytes) (state : PlanModelPricingOverrideState) :
    TokenPricingUsdPerMillion * PlanModelPricingOverrideState :=
  match lookup_plan_model_pricing_override env (normalized_plan plan_type) request_model settings_overrides state with
  | (Some override_pricing, state) => (override_pricing, state)
  | (None, state) =>
      let pricing := default_pricing_for_plan plan_type in
      let multipliers := model_pricing_multipliers request_model in
      (mkPricing (fmul (input pricing) (fmax f_zero (input multipliers)))
         (fmul (output pricing) (fmax f_zero (output multipliers))), state)
  end.

Definition kReferenceUsage : RequestTokenUsage := mkTokenUsage 1000000 1000000.

Definition normalized_plan_cost (env : environment) (plan_type : option bytes)
    (request_model settings_overrides : bytes) (state : PlanModelPricingOverrideState) :
    double * PlanModelPricingOverrideState :=
  let '(enterprise_pricing, state) :=
    resolve_pricing_for_plan_model env (Some $"enterprise") request_model settings_overrides state in
  let enterprise_cost := total_cost_usd (estimate_request_cost_usd kReferenceUsage enterprise_pricing) in
  if fle enterprise_cost f_zero then (cents 50, state)
  else
    let '(pricing, state) := resolve_pricing_for_plan_model env plan_type request_model settings_overrides state in
    let total_cost := total_cost_usd (estimate_request_cost_usd kReferenceUsage pricing) in
    (fclamp (fdiv total_cost enterprise_cost) f_zero f_one, state).

(** ** What it guarantees *)

(** The memoised overrides are the ones of the texts they were parsed from. *)
Definition overrides_wf (state : PlanModelPricingOverrideState) : Prop :=
  pricing_by_key state = merged_overrides (raw_env_value state) (raw_settings_value state).

Lemma initial_overrides_wf : overrides_wf initial_overrides.
Proof. reflexivity. Qed.

Lemma refresh_wf env_value settings_value state :
  overrides_wf state ->
  overrides_wf (refresh_overrides env_value settings_value state) /\
  pricing_by_key (refresh_overrides env_value settings_value state) = merged_overrides env_value settings_value.
Proof.
  unfold refresh_overrides. intros Hw. case_bool_decide as E1; [|done]. case_bool_decide as E2; [|done].
  cbn [negb orb]. split; [done|]. by rewrite Hw, E1, E2.
Qed.

(** The prices without the memo. *)
Definition override_of (env : environment) (plan model settings_overrides : bytes) : option TokenPricingUsdPerMillion :=
  let plan := to_lower_ascii (trim_ascii plan) in
  if bool_decide (plan = []) then None
  else find_override plan (to_lower_ascii (trim_ascii model))
         (merged_overrides (read_env env kPlanModelPricingEnv) settings_overrides).

Lemma lookup_transparent env plan model settings_overrides state :
  overrides_wf state ->
  overrides_wf (lookup_plan_model_pricing_override env plan model settings_overrides state).2 /\
  (lookup_plan_model_pricing_override env plan model settings_overrides state).1 =
    override_of env plan model settings_overrides.
Proof.
  intros Hw. unfold lookup_plan_model_pricing_override, override_of. case_bool_decide; [done|].
  destruct (refresh_wf (read_env env kPlanModelPricingEnv) settings_overrides _ Hw) as [Hr E]. cbn [fst snd].
  by rewrite E.
Qed.

End pricing.

(** Not-a-number and the order aside, a clamped number lies between its
    bounds. *)
Lemma fclamp_cases v lo hi : fclamp v lo hi = lo \/ fclamp v lo hi = hi \/ (fclamp v lo hi = v /\ flt v lo = false /\ flt hi v = false).
Proof. unfold fclamp. destruct (flt v lo); [by left|]. destruct (flt hi v) eqn:E; [by right; left|by right; right]. Qed.
