(* ===== verification/RoutingStore.v ===== *)
(** * RoutingStore: what routing reads and writes of the database

    The queries and updates of src/native/proxy/session/src/sticky_affinity.cpp
    over the tables the repositories own: accounts, request logs, dashboard
    settings (the columns routing reads), sticky sessions and response
    continuity.  Texts hold no NUL.  A database step may fail: [runs] tells
    which do. *)

From S2P Require Import Prelude Text Except Double Fernet TokenStore Accounts SessionRepo Env.
Import Text.Ascii.

(** db/repositories/settings_repo.h *)
Record DashboardSettingsRecord := mkSettings {
  sticky_threads_setting : bool;
  upstream_stream_transport_setting : bytes;
  prefer_earlier_reset_accounts : bool;
  routing_strategy : bytes;
  strict_lock_pool_setting : bool;
  locked_routing_account_ids : bytes;
  openai_cache_affinity_max_age_seconds : Z;
  routing_headroom_weight_primary : double;
  routing_headroom_weight_secondary : double;
  routing_success_rate_rho : double;
  routing_plan_model_pricing_usd_per_million : bytes;
}.

(** The nearest doubles of 0.35, 0.65 and 2.0. *)
Definition default_settings : DashboardSettingsRecord :=
  mkSettings false $"default" false $"weighted_round_robin" false [] 300
    (fdiv (of_int 35) (of_int 100)) (fdiv (of_int 65) (of_int 100)) (of_int 2) [].

Record RequestLog := mkRequestLog { log_id : Z; log_account_id : option Z; log_status_code : Z }.

Record Database := mkDatabase {
  accounts : accounts_table;
  request_logs : list RequestLog;
  settings_row : option DashboardSettingsRecord;
  sticky_sessions : StickySessions.table;
  continuity : Continuity.table;
}.

Definition set_accounts (t : accounts_table) (db : Database) : Database :=
  mkDatabase t (request_logs db) (settings_row db) (sticky_sessions db) (continuity db).
Definition set_sticky_sessions (t : StickySessions.table) (db : Database) : Database :=
  mkDatabase (accounts db) (request_logs db) (settings_row db) t (continuity db).
Definition set_continuity (t : Continuity.table) (db : Database) : Database :=
  mkDatabase (accounts db) (request_logs db) (settings_row db) (sticky_sessions db) t.

Inductive DbStep :=
| OpenPool | StickySchema | SettingsSchema | ReadSettings | AccountsSchema | RequestLogSchema | RecoverBlocks
| QueryExact | QueryInternal | QueryLatest | QueryPinned | QueryRouted (with_recent_success : bool) | StepRouted (account_id : Z)
| RecordExists
| MarkAccount | PersistToken (account_id : Z) | PurgeExpired | FindSticky | UpsertSticky | PurgeSticky | PurgeContinuity
| ClearPin.

(** ** The rows a query may select *)

(** SQL's [trim]: spaces only. *)
Fixpoint skip_blank (s : bytes) : bytes :=
  match s with [] => [] | ch :: s' => if bool_decide (ch = Byte.x20) then skip_blank s' else s end.

Definition sql_trim (s : bytes) : bytes := rev (skip_blank (rev (skip_blank s))).

Definition below_limit (percent : option Z) : bool := match percent with None => true | Some p => p <? 100 end.

(** [status = 'active'], both quotas below 100, an account name and a
    token. *)
Definition usable_row (r : AccountRow) : bool :=
  bool_decide (status r = $"active") && below_limit (quota_primary_percent r) && below_limit (quota_secondary_percent r) &&
  match chatgpt_account_id r with Some account => negb (bool_decide (sql_trim account = [])) | None => false end &&
  match access_token_encrypted r with Some token => negb (bool_decide (token = [])) | None => false end.

(** [ORDER BY updated_at DESC, id DESC] *)
Definition latest_first (a b : AccountRow) : Prop :=
  updated_at b < updated_at a \/ (updated_at a = updated_at b /\ id b <= id a).

#[global] Instance latest_first_dec a b : Decision (latest_first a b).
Proof. unfold latest_first. apply _. Defined.

Definition select_usable (p : AccountRow -> bool) (t : accounts_table) : list AccountRow :=
  filter (fun r => usable_row r && p r = true) (rows t).

Definition select_latest (p : AccountRow -> bool) (t : accounts_table) : list AccountRow :=
  merge_sort latest_first (select_usable p t).

(** ** Credentials *)

Record UpstreamAccountCredentials := mkCredentials {
  account_id : bytes;
  access_token : bytes;
  internal_account_id : Z;
}.

Section store.
Context {sodium : Sodium} (runs : DbStep -> bool) (crypto : TokenStorageCryptoState) (nonce : Z -> bytes) (now_s : Z).

Definition persist_migrated_access_token (account : Z) (stored_token : bytes) (t : accounts_table) :
    bool * accounts_table :=
  if (account <=? 0) || bool_decide (stored_token = []) || negb (runs (PersistToken account)) then (false, t)
  else (true, (update_where (has_id account) (set_access_token stored_token now_s) t).2).

Definition normalize_stored_access_token (account : Z) (stored_access_token : bytes) (t : accounts_table) :
    option bytes * accounts_table :=
  match migrate_plaintext_token_for_storage crypto (nonce account) stored_access_token with
  | Throw _ => (None, t)
  | Ret (migrated_value, migrated) =>
      if migrated then
        let '(persisted, t) := persist_migrated_access_token account migrated_value t in
        if persisted then (Some migrated_value, t) else (None, t)
      else (Some migrated_value, t)
  end.

(** The credentials of a row that a query returned. *)
Definition credentials_of_row (r : AccountRow) (t : accounts_table) :
    option UpstreamAccountCredentials * accounts_table :=
  match chatgpt_account_id r, access_token_encrypted r with
  | Some account_raw, Some token_raw =>
      match normalize_stored_access_token (id r) (trim_ascii token_raw) t with
      | (None, t) => (None, t)
      | (Some stored_access_token, t) =>
          match decrypt_token_from_storage crypto stored_access_token with
          | Throw _ => (None, t)
          | Ret decrypted =>
              let account := trim_ascii account_raw in
              let token := trim_ascii decrypted in
              if bool_decide (account = []) || bool_decide (token = []) then (None, t)
              else (Some (mkCredentials account token (id r)), t)
          end
      end
  | _, _ => (None, t)
  end.

(** [sqlite3_step] on the query: its first row, or none. *)
Definition read_credentials_row (selected : list AccountRow) (t : accounts_table) :
    option UpstreamAccountCredentials * accounts_table :=
  match selected with [] => (None, t) | r :: _ => credentials_of_row r t end.

Definition query_exact_account_credentials (account : bytes) (t : accounts_table) :=
  if bool_decide (account = []) || negb (runs QueryExact) then (None, t)
  else read_credentials_row (select_usable (has_chatgpt_id account) t) t.

Definition query_internal_account_credentials (account : Z) (t : accounts_table) :=
  if (account <=? 0) || negb (runs QueryInternal) then (None, t)
  else read_credentials_row (select_usable (has_id account) t) t.

Definition query_latest_active_account_credentials (t : accounts_table) :=
  if negb (runs QueryLatest) then (None, t) else read_credentials_row (select_latest (fun _ => true) t) t.

Definition query_pinned_account_credentials (t : accounts_table) :=
  if negb (runs QueryPinned) then (None, t)
  else read_credentials_row (select_latest (fun r => routing_pinned r =? 1) t) t.

(** ** The candidates *)

Record RoutedCredentialCandidate := mkCandidateRow {
  credentials : UpstreamAccountCredentials;
  candidate_primary_percent : option Z;
  candidate_secondary_percent : option Z;
  candidate_plan_type : option bytes;
  candidate_primary_reset_at_ms : option Z;
  candidate_secondary_reset_at_ms : option Z;
  recent_success_rate : option double;
}.

(** [ORDER BY id DESC LIMIT 64], then [AVG] of the answers that are no server
    errors, 1.0 when there are none. *)
Definition newest_log (a b : RequestLog) : Prop := log_id b <= log_id a.

#[global] Instance newest_log_dec a b : Decision (newest_log a b).
Proof. unfold newest_log. apply _. Defined.

Definition recent_logs (account : Z) (logs : list RequestLog) : list RequestLog :=
  take 64 (merge_sort newest_log (filter (fun l => log_account_id l = Some account) logs)).

Definition success_rate_of (account : Z) (logs : list RequestLog) : double :=
  let recent := recent_logs account logs in
  if bool_decide (recent = []) then of_int 1
  else
    fdiv (of_int (size_of (filter (fun l => 200 <= log_status_code l < 500) recent))) (of_int (size_of recent)).

Definition optional_text_column (value : option bytes) : option bytes :=
  match value with
  | Some raw => if bool_decide (trim_ascii raw = []) then None else Some (trim_ascii raw)
  | None => None
  end.

Definition candidate_of_row (with_recent_success : bool) (logs : list RequestLog) (r : AccountRow)
    (c : UpstreamAccountCredentials) : RoutedCredentialCandidate :=
  mkCandidateRow c (column_int <$> quota_primary_percent r) (column_int <$> quota_secondary_percent r)
    (optional_text_column (plan_type r)) (quota_primary_reset_at_ms r) (quota_secondary_reset_at_ms r)
    (if with_recent_success then Some (success_rate_of (id r) logs) else None).

(** The loop over the sorted rows: a row without credentials is skipped, and
    a step that fails ends the loop as the last row does. *)
Fixpoint read_candidates (with_recent_success : bool) (logs : list RequestLog) (selected : list AccountRow)
    (t : accounts_table) : list RoutedCredentialCandidate * accounts_table :=
  match selected with
  | [] => ([], t)
  | r :: selected =>
      if negb (runs (StepRouted (id r))) then ([], t) else
      let '(c, t) := credentials_of_row r t in
      let '(candidates, t) := read_candidates with_recent_success logs selected t in
      (match c with
       | Some c => candidate_of_row with_recent_success logs r c :: candidates
       | None => candidates
       end, t)
  end.

(** The query with the success rates when the log table is there, the plain
    one otherwise or when the first does not prepare. *)
Definition query_routed_account_candidates (logs : list RequestLog) (t : accounts_table) :
    list RoutedCredentialCandidate * accounts_table :=
  let selected := select_latest (fun _ => true) t in
  if runs RequestLogSchema && runs (QueryRouted true) then read_candidates true logs selected t
  else if runs (QueryRouted false) then read_candidates false logs selected t
  else ([], t).

(** ** Updates *)

Definition mark_account_unusable_by_chatgpt_id (account : bytes) (t : accounts_table) : bool * accounts_table :=
  if bool_decide (account = []) || negb (runs MarkAccount) then (false, t)
  else
    let '(changes, t) :=
      update_where (fun r => has_chatgpt_id (trim_ascii account) r &&
                             (negb (bool_decide (status r = $"deactivated")) || negb (routing_pinned r =? 0)))
        (set_status $"deactivated" 0 now_s) t in
    (0 <? changes, t).

Definition normalize_exhausted_status (s : bytes) : bytes :=
  if bool_decide (to_lower_ascii (trim_ascii s) = $"quota_blocked") then $"quota_blocked" else $"rate_limited".

Definition stays_off (s : bytes) : bool := bool_decide (s = $"paused") || bool_decide (s = $"deactivated").

Definition set_exhausted (s : bytes) (r : AccountRow) : AccountRow :=
  set_quota (if stays_off (status r) then status r else s)
    (if bool_decide (s = $"rate_limited") || bool_decide (s = $"quota_blocked") then Some 100 else quota_primary_percent r)
    (if bool_decide (s = $"quota_blocked") then Some 100 else quota_secondary_percent r)
    (Some now_s) (if stays_off (status r) then routing_pinned r else 0) now_s r.

Definition mark_account_exhausted_by_chatgpt_id (account new_status : bytes) (t : accounts_table) :
    bool * accounts_table :=
  if bool_decide (account = []) || negb (runs MarkAccount) then (false, t)
  else
    let '(changes, t) :=
      update_where (has_chatgpt_id (trim_ascii account)) (set_exhausted (normalize_exhausted_status new_status)) t in
    (0 <? changes, t).

(** ** recover_expired_account_limit_blocks *)

Definition passed (reset_at_ms : option Z) (now_ms : Z) : bool :=
  match reset_at_ms with Some at_ms => at_ms <=? now_ms | None => false end.

Definition is_null {A} (value : option A) : bool := match value with None => true | Some _ => false end.

(** The [WHERE] clause. *)
Definition block_expired (now_ms : Z) (r : AccountRow) : bool :=
  bool_decide (status r = $"rate_limited") && passed (quota_primary_reset_at_ms r) now_ms ||
  bool_decide (status r = $"quota_blocked") &&
    (passed (quota_secondary_reset_at_ms r) now_ms ||
     is_null (quota_secondary_reset_at_ms r) && passed (quota_primary_reset_at_ms r) now_ms).

Definition recovered_primary (now_ms : Z) (r : AccountRow) : option Z :=
  if passed (quota_primary_reset_at_ms r) now_ms then None
  else if bool_decide (status r = $"quota_blocked") && passed (quota_secondary_reset_at_ms r) now_ms then None
  else quota_primary_percent r.

Definition recovered_secondary (now_ms : Z) (r : AccountRow) : option Z :=
  if passed (quota_secondary_reset_at_ms r) now_ms then None
  else if bool_decide (status r = $"quota_blocked") && is_null (quota_secondary_reset_at_ms r) &&
          passed (quota_primary_reset_at_ms r) now_ms then None
  else quota_secondary_percent r.

Definition recover_row (now_ms : Z) (r : AccountRow) : AccountRow :=
  set_quota $"active" (recovered_primary now_ms r) (recovered_secondary now_ms r) (usage_telemetry_refreshed_at r)
    (routing_pinned r) now_s r.

(** The number of accounts that recovered, for the log. *)
Definition recover_expired_account_limit_blocks (captured_now_ms : Z) (t : accounts_table) : Z * accounts_table :=
  if (captured_now_ms <=? 0) || negb (runs RecoverBlocks) then (0, t)
  else update_where (block_expired captured_now_ms) (recover_row captured_now_ms) t.

(** ** Existence *)

Definition account_record_exists_by_chatgpt_id (account : bytes) (t : accounts_table) : bool :=
  if bool_decide (account = []) || negb (runs RecordExists) then false
  else existsb (fun r => has_chatgpt_id account r && negb (bool_decide (sql_trim account = []))) (rows t).

Definition account_record_exists_by_internal_id (account : Z) (t : accounts_table) : bool :=
  if (account <=? 0) || negb (runs RecordExists) then false else existsb (has_id account) (rows t).

End store.
