(* ===== verification/StickyAffinity.v ===== *)
(** * StickyAffinity: which account serves a request

    src/native/proxy/session/src/sticky_affinity.cpp: the affinity key of a
    request, the sticky sessions, and the choice of an upstream account:
    preferred, pinned, balanced or latest, under the lock pool.  The queries
    are those of [RoutingStore].  The configuration, the clock's readings and
    the environment are arguments; [std::pow] and [std::strtod] are
    parameters; log lines are left out, runtime signals are recorded. *)

From S2P Require Import Prelude Text Except JsonValue Headers Double Env Fernet TokenStore Balancer SessionRepo Pricing.
From S2P Require Import Accounts RoutingStore.
Import Text.Ascii.

Definition kDefaultStickyTtlMs : Z := 30 * 60 * 1000.
Definition kDefaultCleanupIntervalMs : Z := 60 * 1000.
Definition kAccountHeader : bytes := $"chatgpt-account-id".
Definition kStickyKindStickyThread : bytes := $"sticky_thread".
Definition kStickyKindCodexSession : bytes := $"codex_session".
Definition kStickyKindPromptCache : bytes := $"prompt_cache".

Definition kStickyKeyFields : list bytes :=
  [$"prompt_cache_key"; $"promptCacheKey"; $"session_id"; $"sessionId"; $"thread_id"; $"threadId"].

Definition kStickyKeyHeaderFields : list bytes :=
  [$"x-codex-session-id"; $"x-codex-turn-state"; $"session_id"; $"session-id"; $"x-session-id"; $"thread_id";
   $"x-thread-id"].

Definition kModelFields : list bytes := [$"model"; $"model_slug"; $"modelSlug"].

(** ** The request's affinity *)

Record RequestAffinityFields := mkFields { field_sticky_key : bytes; field_sticky_kind : bytes; field_model : bytes }.

Record StickyKeyExtraction := mkExtraction { extraction_key : bytes; extraction_kind : bytes }.

Definition no_extraction : StickyKeyExtraction := mkExtraction [] kStickyKindStickyThread.

Definition read_string_field (object : JsonObject) (key : bytes) : bytes := default [] (string_at object key).

Definition normalize_sticky_kind (kind : bytes) : bytes :=
  let normalized := to_lower_ascii (trim_ascii kind) in
  if bool_decide (normalized = kStickyKindPromptCache) || bool_decide (normalized = kStickyKindCodexSession) ||
     bool_decide (normalized = kStickyKindStickyThread) then normalized
  else kStickyKindStickyThread.

Definition sticky_kind_for_json_key (key : bytes) : bytes :=
  if bool_decide (key ∈ [$"prompt_cache_key"; $"promptCacheKey"]) then kStickyKindPromptCache
  else if bool_decide (key ∈ [$"session_id"; $"sessionId"; $"thread_id"; $"threadId"]) then kStickyKindCodexSession
  else kStickyKindStickyThread.

Definition sticky_kind_for_header_key (key : bytes) : bytes :=
  if bool_decide (key ∈ [$"x-codex-session-id"; $"x-codex-turn-state"; $"session_id"; $"session-id"; $"x-session-id";
                          $"thread_id"; $"x-thread-id"]) then kStickyKindCodexSession
  else kStickyKindStickyThread.

(** The first of the fields with a nonempty text. *)
Fixpoint first_field {A} (read : bytes -> option A) (keys : list bytes) : option A :=
  match keys with
  | [] => None
  | key :: keys => match read key with Some a => Some a | None => first_field read keys end
  end.

Definition key_field (object : JsonObject) (key : bytes) : option StickyKeyExtraction :=
  let value := read_string_field object key in
  if bool_decide (value = []) then None else Some (mkExtraction value (sticky_kind_for_json_key key)).

Definition sticky_key_from_object (object : JsonObject) : StickyKeyExtraction :=
  match first_field (key_field object) kStickyKeyFields with
  | Some found => found
  | None =>
      match object_at object $"metadata" with
      | Some metadata => default no_extraction (first_field (key_field metadata) kStickyKeyFields)
      | None => no_extraction
      end
  end.

Definition model_field (object : JsonObject) (key : bytes) : option bytes :=
  let value := trim_ascii (read_string_field object key) in if bool_decide (value = []) then None else Some value.

Definition model_from_object (object : JsonObject) : bytes := default [] (first_field (model_field object) kModelFields).

Definition account_from_headers (inbound_headers : HeaderMap) : bytes :=
  match List.find (fun kv => equals_case_insensitive kv.1 kAccountHeader && negb (bool_decide (kv.2 = []))) inbound_headers with
  | Some kv => kv.2
  | None => []
  end.

Definition header_key_field (inbound_headers : HeaderMap) (key : bytes) : option StickyKeyExtraction :=
  match List.find (fun kv => equals_case_insensitive kv.1 key && negb (bool_decide (trim_ascii kv.2 = []))) inbound_headers with
  | Some kv => Some (mkExtraction (trim_ascii kv.2) (sticky_kind_for_header_key key))
  | None => None
  end.

Definition sticky_key_from_headers (inbound_headers : HeaderMap) : StickyKeyExtraction :=
  default no_extraction (first_field (header_key_field inbound_headers) kStickyKeyHeaderFields).

Definition extract_request_affinity_fields `{JsonCodec} (raw_request_body : bytes) : RequestAffinityFields :=
  match read_object raw_request_body with
  | None => mkFields [] kStickyKindStickyThread []
  | Some object =>
      let sticky := sticky_key_from_object object in
      mkFields (extraction_key sticky) (normalize_sticky_kind (extraction_kind sticky)) (model_from_object object)
  end.

(** ** Settings and parsing *)

Fixpoint add_unseen (ids seen : list bytes) : list bytes :=
  match ids with
  | [] => seen
  | token :: ids =>
      let normalized := trim_ascii token in
      if bool_decide (normalized = []) || bool_decide (normalized ∈ seen) then add_unseen ids seen
      else add_unseen ids (seen ++ [normalized])
  end.

Definition parse_locked_routing_account_ids (raw : bytes) : list bytes :=
  add_unseen (csv_pieces [] (trim_ascii raw)) [].

Definition parse_positive_int64 (value : bytes) : option Z :=
  if bool_decide (value = []) then None
  else match from_chars true (- 2 ^ 63) (2 ^ 63 - 1) value with
       | Some parsed => if parsed <=? 0 then None else Some parsed
       | None => None
       end.

Definition normalize_supported_routing_strategy (strategy : bytes) : bytes :=
  let normalized := to_lower_ascii (trim_ascii strategy) in
  if bool_decide (normalized ∈ [$"round_robin"; $"weighted_round_robin"; $"drain_hop"]) then normalized
  else $"weighted_round_robin".

Definition normalize_upstream_stream_transport (transport : bytes) : bytes :=
  let normalized := to_lower_ascii (trim_ascii transport) in
  if bool_decide (normalized ∈ [$"default"; $"auto"; $"http"; $"websocket"]) then normalized else $"default".

(** ** Scores of the candidates *)

(** [std::numeric_limits<double>::epsilon()] *)
Definition f_epsilon : double := SpecFloat.S754_finite false 4503599627370496 (-104).

Definition usage_ratio_from_percent (percent : option Z) : double :=
  match percent with
  | None => f_zero
  | Some p => fdiv (of_int (Z.max 0 (Z.min p 100))) (of_int 100)
  end.

Definition promote (next value : option Z) : option Z :=
  match value with
  | None => next
  | Some v => if v <=? 0 then next else match next with
              | None => Some v
              | Some n => if v <? n then Some v else next
              end
  end.

Definition next_reset_at_ms (candidate : RoutedCredentialCandidate) : option Z :=
  promote (promote None (candidate_primary_reset_at_ms candidate)) (candidate_secondary_reset_at_ms candidate).

Definition weighted_usage_ratio (primary_percent secondary_percent : option Z) (settings : DashboardSettingsRecord) : double :=
  let primary_usage := usage_ratio_from_percent primary_percent in
  let secondary_usage := match secondary_percent with
                         | Some _ => usage_ratio_from_percent secondary_percent
                         | None => primary_usage
                         end in
  let primary_weight := fmax f_zero (routing_headroom_weight_primary settings) in
  let secondary_weight := fmax f_zero (routing_headroom_weight_secondary settings) in
  let total_weight := fadd primary_weight secondary_weight in
  if fle total_weight f_epsilon then primary_usage
  else
    fclamp (fdiv (fadd (fmul primary_weight primary_usage) (fmul secondary_weight secondary_usage)) total_weight)
      f_zero f_one.

Definition kPreferenceHorizonMs : Z := 7 * 24 * 60 * 60 * 1000.

(** The order of [maybe_prefer_earlier_reset_accounts]. *)
Definition earlier_reset (lhs rhs : RoutedCredentialCandidate) : bool :=
  match next_reset_at_ms lhs, next_reset_at_ms rhs with
  | Some l, Some r =>
      if l =? r then internal_account_id (credentials lhs) <? internal_account_id (credentials rhs) else l <? r
  | Some _, None => true
  | None, Some _ => false
  | None, None => internal_account_id (credentials lhs) <? internal_account_id (credentials rhs)
  end.

(** A stable sort by a strict weak order: [b] before [a] only when it is
    smaller. *)
Definition not_later (a b : RoutedCredentialCandidate) : Prop := earlier_reset b a = false.

#[global] Instance not_later_dec a b : Decision (not_later a b).
Proof. unfold not_later. apply _. Defined.

Definition maybe_prefer_earlier_reset_accounts (candidates : list RoutedCredentialCandidate)
    (settings : DashboardSettingsRecord) : list RoutedCredentialCandidate :=
  if negb (prefer_earlier_reset_accounts settings) || (length candidates <? 2)%nat then candidates
  else merge_sort not_later candidates.

Section scores.
Context (env : environment) (strtod : bytes -> double * nat) (pow : double -> double -> double).

Definition reset_weight (current_ms reset_at : Z) : double :=
  let urgency :=
    if current_ms <? reset_at then
      let clamped_remaining := Z.max 0 (Z.min (reset_at - current_ms) kPreferenceHorizonMs) in
      fsub f_one (fdiv (of_int clamped_remaining) (of_int kPreferenceHorizonMs))
    else f_one in
  fclamp (fadd f_one (fmul urgency (cents 50))) f_zero (of_int 4).

Definition to_balancer_candidate (request_model : bytes) (settings : DashboardSettingsRecord) (current_ms : Z)
    (overrides : PlanModelPricingOverrideState) (candidate : RoutedCredentialCandidate) :
    AccountCandidate * PlanModelPricingOverrideState :=
  let usage := weighted_usage_ratio (candidate_primary_percent candidate) (candidate_secondary_percent candidate) settings in
  let secondary := match candidate_secondary_percent candidate with
                   | Some _ => usage_ratio_from_percent (candidate_secondary_percent candidate)
                   | None => of_int (-1)
                   end in
  let '(cost, overrides) := normalized_plan_cost strtod env (candidate_plan_type candidate) request_model
                              (routing_plan_model_pricing_usd_per_million settings) overrides in
  let weight := if prefer_earlier_reset_accounts settings then
                  match next_reset_at_ms candidate with
                  | Some reset_at => reset_weight current_ms reset_at
                  | None => f_one
                  end
                else f_one in
  let success_rho := fclamp (routing_success_rate_rho settings) (cents 1) (of_int 64) in
  let success_rate := fclamp (default f_one (recent_success_rate candidate)) f_zero f_one in
  let success_bias := fmax (cents 5) (pow success_rate success_rho) in
  (mkCandidate (account_id (credentials candidate)) true true true usage
     (fclamp (fmul weight success_bias) f_zero (of_int 4)) 0 f_zero success_rate f_zero secondary cost, overrides).

Fixpoint to_balancer_candidates (request_model : bytes) (settings : DashboardSettingsRecord) (current_ms : Z)
    (overrides : PlanModelPricingOverrideState) (routed_candidates : list RoutedCredentialCandidate) :
    list AccountCandidate * PlanModelPricingOverrideState :=
  match routed_candidates with
  | [] => ([], overrides)
  | candidate :: rest =>
      let '(c, overrides) := to_balancer_candidate request_model settings current_ms overrides candidate in
      let '(cs, overrides) := to_balancer_candidates request_model settings current_ms overrides rest in
      (c :: cs, overrides)
  end.

End scores.

(** ** StickyDbState *)

Record Config := mkConfig { config_db_path : bytes; config_sticky_ttl_ms : Z; config_sticky_cleanup_interval_ms : Z }.

Record StickyDbState := mkStickyState {
  has_pool : bool;
  db_path : bytes;
  schema_ready : bool;
  settings_schema_ready : bool;
  sticky_threads_enabled : bool;
  strict_lock_pool_continuations : bool;
  upstream_stream_transport : bytes;
  last_cleanup_ms : Z;
  sticky_ttl_ms : Z;
  cleanup_interval_ms : Z;
  round_robin_cursor : Z;
  drain_hop_cursor : Z;
  drain_hop_account_id : bytes;
  weighted_round_robin_picker : WeightedRoundRobinPicker;
}.

Definition initial_sticky_state : StickyDbState :=
  mkStickyState false [] false false false false $"default" 0 kDefaultStickyTtlMs kDefaultCleanupIntervalMs 0 0 [] ∅.

Record RuntimeSignal := mkSignal { level : bytes; code : bytes; message : bytes; signal_account_id : bytes }.

(** The process and the database at the configured path. *)
Record World := mkWorld {
  state : StickyDbState;
  overrides : PlanModelPricingOverrideState;
  database : Database;
  signals : list RuntimeSignal;
}.

Definition set_state (s : StickyDbState) (w : World) : World := mkWorld s (overrides w) (database w) (signals w).
Definition set_database (db : Database) (w : World) : World := mkWorld (state w) (overrides w) db (signals w).
Definition emit (s : RuntimeSignal) (w : World) : World := mkWorld (state w) (overrides w) (database w) (signals w ++ [s]).
Definition on_accounts (t : accounts_table) (w : World) : World := set_database (set_accounts t (database w)) w.

Definition set_drain (cursor : Z) (account : bytes) (s : StickyDbState) : StickyDbState :=
  mkStickyState (has_pool s) (db_path s) (schema_ready s) (settings_schema_ready s) (sticky_threads_enabled s)
    (strict_lock_pool_continuations s) (upstream_stream_transport s) (last_cleanup_ms s) (sticky_ttl_ms s)
    (cleanup_interval_ms s) (round_robin_cursor s) cursor account (weighted_round_robin_picker s).

Definition set_pickers (cursor : Z) (picker : WeightedRoundRobinPicker) (s : StickyDbState) : StickyDbState :=
  mkStickyState (has_pool s) (db_path s) (schema_ready s) (settings_schema_ready s) (sticky_threads_enabled s)
    (strict_lock_pool_continuations s) (upstream_stream_transport s) (last_cleanup_ms s) (sticky_ttl_ms s)
    (cleanup_interval_ms s) cursor (drain_hop_cursor s) (drain_hop_account_id s) picker.

Definition set_last_cleanup (at_ms : Z) (s : StickyDbState) : StickyDbState :=
  mkStickyState (has_pool s) (db_path s) (schema_ready s) (settings_schema_ready s) (sticky_threads_enabled s)
    (strict_lock_pool_continuations s) (upstream_stream_transport s) at_ms (sticky_ttl_ms s) (cleanup_interval_ms s)
    (round_robin_cursor s) (drain_hop_cursor s) (drain_hop_account_id s) (weighted_round_robin_picker s).

Definition set_ready (schema settings : bool) (s : StickyDbState) : StickyDbState :=
  mkStickyState (has_pool s) (db_path s) schema settings (sticky_threads_enabled s)
    (strict_lock_pool_continuations s) (upstream_stream_transport s) (last_cleanup_ms s) (sticky_ttl_ms s)
    (cleanup_interval_ms s) (round_robin_cursor s) (drain_hop_cursor s) (drain_hop_account_id s)
    (weighted_round_robin_picker s).

Definition set_settings (enabled strict : bool) (transport : bytes) (ttl : Z) (s : StickyDbState) : StickyDbState :=
  mkStickyState (has_pool s) (db_path s) (schema_ready s) (settings_schema_ready s) enabled strict transport
    (last_cleanup_ms s) ttl (cleanup_interval_ms s) (round_robin_cursor s) (drain_hop_cursor s)
    (drain_hop_account_id s) (weighted_round_robin_picker s).

(** The time to live that the configuration gives, then a new pool when the
    path changed. *)
Definition configure_state (config : Config) (s : StickyDbState) : StickyDbState :=
  let desired_path := if bool_decide (config_db_path config = []) then $"store.db" else config_db_path config in
  let ttl := Z.max 1 (config_sticky_ttl_ms config) in
  let interval := Z.max 1 (config_sticky_cleanup_interval_ms config) in
  if negb (has_pool s) || negb (bool_decide (db_path s = desired_path)) then
    mkStickyState true desired_path false false (sticky_threads_enabled s) (strict_lock_pool_continuations s)
      $"default" 0 ttl interval 0 0 [] ∅
  else
    mkStickyState (has_pool s) (db_path s) (schema_ready s) (settings_schema_ready s) (sticky_threads_enabled s)
      (strict_lock_pool_continuations s) (upstream_stream_transport s) (last_cleanup_ms s) ttl interval
      (round_robin_cursor s) (drain_hop_cursor s) (drain_hop_account_id s) (weighted_round_robin_picker s).

Definition kMaxTtlSeconds : Z := (2 ^ 63 - 1) / 1000.

Definition apply_settings (settings : option DashboardSettingsRecord) (s : StickyDbState) : StickyDbState :=
  match settings with
  | Some r =>
      set_settings (sticky_threads_setting r) (strict_lock_pool_setting r)
        (normalize_upstream_stream_transport (upstream_stream_transport_setting r))
        (if 0 <? openai_cache_affinity_max_age_seconds r
         then Z.max 1 (Z.min (openai_cache_affinity_max_age_seconds r) kMaxTtlSeconds * 1000)
         else sticky_ttl_ms s) s
  | None => set_settings false false $"default" (sticky_ttl_ms s) s
  end.

Section affinity.
Context {sodium : Sodium} {codec : JsonCodec}.
Context (env : environment) (strtod : bytes -> double * nat) (pow : double -> double -> double).
Context (runs : DbStep -> bool) (config : Config).

Definition get_dashboard_settings (db : Database) : option DashboardSettingsRecord :=
  if runs SettingsSchema && runs ReadSettings then settings_row db else None.

(** Whether the database is there. *)
Definition ensure_db (db : Database) (s : StickyDbState) : bool * StickyDbState :=
  let s := configure_state config s in
  if negb (runs OpenPool) then (false, s)
  else if negb (schema_ready s) && negb (runs StickySchema) then (false, s)
  else
    let s := set_ready true (settings_schema_ready s) s in
    let s := set_ready true (if settings_schema_ready s then true else runs SettingsSchema) s in
    (true, apply_settings (if settings_schema_ready s then get_dashboard_settings db else None) s).

(** [ensure_db] on the global state. *)
Definition with_db (w : World) : bool * World :=
  let '(opened, s) := ensure_db (database w) (state w) in (opened, set_state s w).

Definition maybe_purge_expired (now : Z) (w : World) : World :=
  let s := state w in
  if now <? last_cleanup_ms s then set_state (set_last_cleanup now s) w
  else if now - last_cleanup_ms s <? cleanup_interval_ms s then w
  else
    let db := database w in
    set_state (set_last_cleanup now s)
      (set_database (set_sticky_sessions
         (StickySessions.purge_expired_proxy_sticky_sessions (runs PurgeExpired) now (sticky_sessions db)).2 db) w).

(** ** Resolving and persisting the affinity *)

Record StickyAffinityResolution := mkResolution {
  resolution_sticky_key : bytes;
  resolution_sticky_kind : bytes;
  resolution_account_id : bytes;
  request_model : bytes;
  from_header : bool;
  from_persistence : bool;
}.

(** What the request says by itself. *)
Definition request_resolution (raw_request_body : bytes) (inbound_headers : HeaderMap) : StickyAffinityResolution :=
  let fields := extract_request_affinity_fields raw_request_body in
  let sticky_from_headers := sticky_key_from_headers inbound_headers in
  let '(key, kind) :=
    if bool_decide (field_sticky_key fields = [])
    then (extraction_key sticky_from_headers, normalize_sticky_kind (extraction_kind sticky_from_headers))
    else (field_sticky_key fields, normalize_sticky_kind (field_sticky_kind fields)) in
  let account := account_from_headers inbound_headers in
  mkResolution key kind account (field_model fields) (negb (bool_decide (account = []))) false.

Definition resolve_sticky_affinity (raw_request_body : bytes) (inbound_headers : HeaderMap) (now : Z) (w : World) :
    StickyAffinityResolution * World :=
  let resolution := request_resolution raw_request_body inbound_headers in
  if negb (bool_decide (resolution_account_id resolution = [])) || bool_decide (resolution_sticky_key resolution = [])
  then (resolution, w)
  else
    let '(opened, w) := with_db w in
    if negb opened || negb (sticky_threads_enabled (state w)) then (resolution, w)
    else
      let w := maybe_purge_expired now w in
      match StickySessions.find_proxy_sticky_session_account (runs FindSticky) (resolution_sticky_key resolution) now
              (sticky_sessions (database w)) with
      | Some persisted =>
          (mkResolution (resolution_sticky_key resolution) (resolution_sticky_kind resolution) persisted
             (request_model resolution) (from_header resolution) true, w)
      | None => (resolution, w)
      end.

Definition persist_sticky_affinity (resolution : StickyAffinityResolution) (now : Z) (w : World) : World :=
  if bool_decide (resolution_sticky_key resolution = []) || bool_decide (resolution_account_id resolution = []) then w
  else
    let '(opened, w) := with_db w in
    if negb opened || negb (sticky_threads_enabled (state w)) then w
    else
      let db := database w in
      let upserted := StickySessions.upsert_proxy_sticky_session (runs UpsertSticky) (resolution_sticky_key resolution)
                        (resolution_account_id resolution) now (sticky_ttl_ms (state w))
                        (resolution_sticky_kind resolution) (sticky_sessions db) in
      maybe_purge_expired now (set_database (set_sticky_sessions upserted.2 db) w).

Definition resolve_upstream_stream_transport_setting (w : World) : bytes * World :=
  let '(opened, w) := with_db w in
  if negb opened then ($"default", w)
  else (normalize_upstream_stream_transport (upstream_stream_transport (state w)), w).

(** ** Picking among the candidates: the index of the chosen one *)

Definition pick_drain_hop_candidate (s : StickyDbState) (candidates : list AccountCandidate) : option nat * StickyDbState :=
  if bool_decide (candidates = []) then (None, s)
  else
    let existing := if bool_decide (drain_hop_account_id s = []) then None
                    else fst <$> list_find (fun c => Balancer.id c = drain_hop_account_id s) candidates in
    match existing with
    | Some index => (Some index, s)
    | None =>
        let index := drain_hop_cursor s mod size_of candidates in
        (Some (Z.to_nat index),
         set_drain ((index + 1) mod size_of candidates)
           (from_option Balancer.id [] (candidates !! Z.to_nat index)) s)
    end.

(** Where [weighted_round_robin_pick] finds its best candidate: the position
    of the last improvement, the front when there is none. *)
Definition improves (st : wrr_state) (candidate : option AccountCandidate) : bool :=
  match candidate with
  | None => false
  | Some account =>
      let weight := usage_weight_from_account account in
      negb (fle weight f_zero) &&
      flt (best_current_weight st) (fadd (default f_zero (current_weights st !! Balancer.id account)) weight)
  end.

Fixpoint wrr_position (st : wrr_state) (position best_position : nat) (view : CandidateView) : nat :=
  match view with
  | [] => best_position
  | c :: view => wrr_position (wrr_turn st c) (S position) (if improves st c then position else best_position) view
  end.

Definition pick_routed_candidate (s : StickyDbState) (candidates : list AccountCandidate) (strategy_setting : bytes) :
    option nat * StickyDbState :=
  if bool_decide (candidates = []) then (None, s)
  else
    let strategy := normalize_supported_routing_strategy strategy_setting in
    if bool_decide (strategy = $"round_robin") then
      let s := set_drain (drain_hop_cursor s) [] s in
      let '(_, cursor) := pick_round_robin (Some <$> candidates) (round_robin_cursor s) in
      (Some (Z.to_nat (round_robin_cursor s mod size_of candidates)),
       set_pickers cursor (weighted_round_robin_picker s) s)
    else if bool_decide (strategy = $"drain_hop") then pick_drain_hop_candidate s candidates
    else
      let s := set_drain (drain_hop_cursor s) [] s in
      let '(_, picker) := weighted_round_robin_pick (Some <$> candidates) (weighted_round_robin_picker s) in
      (Some (wrr_position (mkWrr ∅ f_zero neg_infinity None (weighted_round_robin_picker s)) 0 0 (Some <$> candidates)),
       set_pickers (round_robin_cursor s) picker s).

(** ** The lock pool *)

Definition lock_pool_contains (lock_set : list bytes) (c : UpstreamAccountCredentials) : bool :=
  bool_decide (account_id c ∈ lock_set) ||
  (0 <? internal_account_id c) && bool_decide (to_string (internal_account_id c) ∈ lock_set).

Definition lock_pool_contains_candidate (lock_set : list bytes) (candidate : RoutedCredentialCandidate) : bool :=
  lock_pool_contains lock_set (credentials candidate).

Definition lock_pool_active (locked_account_ids : list bytes) : bool := (2 <=? length locked_account_ids)%nat.

Definition credentials_in_lock_pool (locked : list bytes) (c : UpstreamAccountCredentials) : bool :=
  if negb (lock_pool_active locked) then true else lock_pool_contains locked c.

Definition guard_lock_pool_selection (locked : list bytes) (c : option UpstreamAccountCredentials) (source : bytes)
    (w : World) : option UpstreamAccountCredentials * World :=
  match c with
  | None => (None, w)
  | Some c =>
      if credentials_in_lock_pool locked c then (Some c, w)
      else (None, emit (mkSignal $"error" $"lock_pool_route_guard_rejected"
                          ($"lock pool guard rejected out-of-pool account from source=" ++ source) (account_id c)) w)
  end.

Definition selected_signal (via : bytes) (c : UpstreamAccountCredentials) : RuntimeSignal :=
  mkSignal $"info" $"route_account_selected" ($"routing resolved via " ++ via) (account_id c).

(** ** resolve_upstream_account_credentials *)

Section route.
Context (crypto : TokenStorageCryptoState) (nonce : Z -> bytes) (now_s now_ms pick_now_ms : Z).

Definition on_table {A} (f : accounts_table -> A * accounts_table) (w : World) : A * World :=
  let '(a, t) := f (accounts (database w)) in (a, on_accounts t w).

Definition query_preferred_credentials (preferred : bytes) (w : World) : option UpstreamAccountCredentials * World :=
  if bool_decide (preferred = []) then (None, w)
  else match on_table (query_exact_account_credentials runs crypto nonce now_s preferred) w with
  | (Some c, w) => (Some c, w)
  | (None, w) =>
      match parse_positive_int64 preferred with
      | Some preferred_internal_id => on_table (query_internal_account_credentials runs crypto nonce now_s preferred_internal_id) w
      | None => (None, w)
      end
  end.

Definition preferred_is_allowed (locked : list bytes) (preferred : bytes) (c : option UpstreamAccountCredentials) : bool :=
  negb (lock_pool_active locked) || bool_decide (preferred ∈ locked) ||
  match c with Some c => lock_pool_contains locked c | None => false end.

Definition select_preferred_credentials (locked : list bytes) (preferred : bytes) (w : World) :
    option UpstreamAccountCredentials * World :=
  if bool_decide (preferred = []) then (None, w)
  else
    let '(c, w) := query_preferred_credentials preferred w in
    if negb (preferred_is_allowed locked preferred c) then (None, w)
    else match guard_lock_pool_selection locked c $"preferred" w with
         | (Some guarded, w) => (Some guarded, emit (selected_signal $"preferred account" guarded) w)
         | (None, w) => (None, w)
         end.

Definition select_strategy_credentials (locked : list bytes) (model : bytes) (settings : DashboardSettingsRecord) (w : World) :
    option UpstreamAccountCredentials * World :=
  let '(routed, w) := on_table (query_routed_account_candidates runs crypto nonce now_s (request_logs (database w))) w in
  let routed := if lock_pool_active locked
                then filter (fun c => lock_pool_contains_candidate locked c = true) routed else routed in
  if bool_decide (routed = []) then (None, w)
  else
    let routed := maybe_prefer_earlier_reset_accounts routed settings in
    let '(candidates, memo) := to_balancer_candidates env strtod pow model settings pick_now_ms (overrides w) routed in
    let w := mkWorld (state w) memo (database w) (signals w) in
    let '(index, s) := pick_routed_candidate (state w) candidates (routing_strategy settings) in
    let w := set_state s w in
    match index with
    | Some index => (credentials <$> routed !! index, w)
    | None => (None, w)
    end.

Definition select_latest_credentials (locked : list bytes) (w : World) : option UpstreamAccountCredentials * World :=
  let '(c, w) := on_table (query_latest_active_account_credentials runs crypto nonce now_s) w in
  guard_lock_pool_selection locked c $"fallback_active" w.

(** The selection announces itself. *)
Definition announce (via : bytes) (r : option UpstreamAccountCredentials * World) : option UpstreamAccountCredentials * World :=
  match r with (Some c, w) => (Some c, emit (selected_signal via c) w) | (None, w) => (None, w) end.

(** The first of two selections that finds an account. *)
Definition or_next (r : option UpstreamAccountCredentials * World)
    (next : World -> option UpstreamAccountCredentials * World) : option UpstreamAccountCredentials * World :=
  match r with (Some c, w) => (Some c, w) | (None, w) => next w end.

Definition recover_blocks (w : World) : World :=
  let '(count, t) := recover_expired_account_limit_blocks runs now_s now_ms (accounts (database w)) in
  let w := on_accounts t w in
  if 0 <? count
  then emit (mkSignal $"info" $"account_limit_blocks_recovered"
               ($"recovered expired account limit blocks count=" ++ to_string count) []) w
  else w.

Definition resolve_upstream_account_credentials (preferred_account_id model : bytes) (strict_preferred_only : bool)
    (w : World) : option UpstreamAccountCredentials * World :=
  if negb (runs OpenPool) || negb (runs AccountsSchema) then (None, w)
  else
    let w := recover_blocks w in
    let settings := default default_settings (get_dashboard_settings (database w)) in
    let locked := parse_locked_routing_account_ids (locked_routing_account_ids settings) in
    let preferred := trim_ascii preferred_account_id in
    if strict_preferred_only then select_preferred_credentials locked preferred w
    else
      or_next (if lock_pool_active locked then (None, w)
               else announce $"pinned account" (on_table (query_pinned_account_credentials runs crypto nonce now_s) w))
        (fun w =>
      or_next (select_preferred_credentials locked preferred w)
        (fun w =>
      or_next (let '(c, w) := select_strategy_credentials locked model settings w in
               announce $"strategy account" (guard_lock_pool_selection locked c $"strategy" w))
        (fun w =>
      if lock_pool_active locked then (None, w)
      else announce $"fallback active account" (select_latest_credentials locked w)))).

End route.

Definition upstream_account_record_exists (account : bytes) (w : World) : bool :=
  let normalized_id := trim_ascii account in
  if bool_decide (normalized_id = []) || negb (runs OpenPool) || negb (runs AccountsSchema) then false
  else if account_record_exists_by_chatgpt_id runs normalized_id (accounts (database w)) then true
  else match parse_positive_int64 normalized_id with
       | Some internal_id => account_record_exists_by_internal_id runs internal_id (accounts (database w))
       | None => false
       end.

(** [refresh_access_token_for_account] exchanges the token with the identity
    provider: its result and what it left in the table are arguments. *)
Definition refresh_upstream_account_credentials (crypto : TokenStorageCryptoState) (nonce : Z -> bytes) (now_s : Z)
    (refresh : bytes -> accounts_table -> bool * accounts_table) (account : bytes) (w : World) :
    option UpstreamAccountCredentials * World :=
  if bool_decide (account = []) || negb (runs OpenPool) || negb (runs AccountsSchema) then (None, w)
  else
    let '(refreshed, w) := on_table (refresh account) w in
    if negb refreshed then (None, w)
    else on_table (query_exact_account_credentials runs crypto nonce now_s account) w.

(** ** Marking an account *)

Definition clear_drain (account : bytes) (w : World) : World :=
  if bool_decide (drain_hop_account_id (state w) = account)
  then set_state (set_drain (drain_hop_cursor (state w)) [] (state w)) w else w.

Definition repo_runs (s : Statement) : bool :=
  match s with Open => runs AccountsSchema | Unpin => runs ClearPin | _ => true end.

(** Both functions: forget the account's sessions, mark it, unpin it. *)
Definition mark_account (mark : accounts_table -> bool * accounts_table) (signal : bytes -> RuntimeSignal) (now_s : Z)
    (account : bytes) (w : World) : bool * World :=
  let normalized_id := trim_ascii account in
  if bool_decide (normalized_id = []) then (false, w)
  else
    let '(opened, w) := with_db w in
    if negb opened || negb (runs AccountsSchema) then (false, w)
    else
      let db := database w in
      let '(purged_count, stickies) :=
        StickySessions.purge_proxy_sticky_sessions_for_account (runs PurgeSticky) normalized_id (sticky_sessions db) in
      let '(purged_continuity_count, continuities) :=
        Continuity.purge_proxy_response_continuity_for_account (runs PurgeContinuity) normalized_id (continuity db) in
      let '(marked, t) := mark (accounts db) in
      let '(unpinned, t) := clear_account_routing_pin_by_chatgpt_account_id repo_runs normalized_id now_s t in
      let w := set_database (set_accounts t (set_continuity continuities (set_sticky_sessions stickies db))) w in
      let w := clear_drain normalized_id w in
      let changed := marked || unpinned || (0 <? purged_count) || (0 <? purged_continuity_count) in
      (changed, if changed then emit (signal normalized_id) w else w).

Definition mark_upstream_account_unusable (account : bytes) (now_s : Z) (w : World) : bool * World :=
  mark_account (mark_account_unusable_by_chatgpt_id runs now_s (trim_ascii account))
    (mkSignal $"error" $"account_unusable" $"account marked unusable after upstream deactivation") now_s account w.

Definition mark_upstream_account_exhausted (account new_status : bytes) (now_s : Z) (w : World) : bool * World :=
  mark_account (mark_account_exhausted_by_chatgpt_id runs now_s (trim_ascii account) new_status)
    (mkSignal $"warn" $"account_exhausted"
       ($"account marked exhausted by upstream response status=" ++ new_status)) now_s account w.

Definition account_is_in_active_lock_pool (account : bytes) (w : World) : bool * World :=
  let normalized_id := trim_ascii account in
  if bool_decide (normalized_id = []) then (false, w)
  else
    let '(opened, w) := with_db w in
    if negb opened then (false, w)
    else
      let settings := default default_settings (get_dashboard_settings (database w)) in
      let locked := parse_locked_routing_account_ids (locked_routing_account_ids settings) in
      (lock_pool_active locked && bool_decide (normalized_id ∈ locked), w).

End affinity.
