(* ===== verification/Routing.v ===== *)
(** * Routing: what the choice of an account guarantees

    The properties of the routing of src/native/proxy/session/src/sticky_affinity.cpp
    that [RoutingStore] and [StickyAffinity] model. *)

From S2P Require Import Prelude Text Except JsonValue Headers Double Env Fernet TokenStore Balancer SessionRepo Pricing.
From S2P Require Import Accounts RoutingStore StickyAffinity.
Import Text.Ascii.

(** ** The queries *)

Section queries.
Context {sodium : Sodium} (runs : DbStep -> bool) (crypto : TokenStorageCryptoState) (nonce : Z -> bytes) (now_s : Z).

(** A plaintext token that a query met was encrypted in its row. *)
Definition retoken (r r' : AccountRow) : Prop :=
  exists raw stored, access_token_encrypted r = Some raw /\ raw <> [] /\ stored <> [] /\
    migrate_plaintext_token_for_storage crypto (nonce (id r)) (trim_ascii raw) = Ret (stored, true) /\
    r' = set_access_token stored now_s r.

(** The tables a query can leave. *)
Definition retokened (t t' : accounts_table) : Prop :=
  next_id t' = next_id t /\ Forall2 (rtc retoken) (rows t) (rows t').

(** The row holds the account and the token of the credentials. *)
Definition issues (r : AccountRow) (c : UpstreamAccountCredentials) : Prop :=
  internal_account_id c = id r /\ account_id c <> [] /\ access_token c <> [] /\
  exists account raw stored migrated plain,
    chatgpt_account_id r = Some account /\ account_id c = trim_ascii account /\
    access_token_encrypted r = Some raw /\
    migrate_plaintext_token_for_storage crypto (nonce (id r)) (trim_ascii raw) = Ret (stored, migrated) /\
    decrypt_token_from_storage crypto stored = Ret plain /\ access_token c = trim_ascii plain.

Lemma retokened_refl t : retokened t t.
Proof. split; [done|]. induction (rows t); constructor; done. Qed.

Lemma retokened_trans t1 t2 t3 : retokened t1 t2 -> retokened t2 t3 -> retokened t1 t3.
Proof.
  intros [Hn1 H1] [Hn2 H2]. split; [congruence|].
  revert H2. generalize (rows t3). induction H1 as [|r1 r2 l1 l2 H _ IH]; intros l3 H2.
  - by inversion H2.
  - inversion H2; subst. constructor; [by etrans|by apply IH].
Qed.

Lemma retoken_usable r r' : rtc retoken r r' -> usable_row r' = usable_row r.
Proof.
  induction 1 as [|r r1 r2 (raw & stored & Ea & Hr & Hs & _ & ->) _ IH]; [done|]. rewrite IH. clear IH.
  unfold usable_row. cbn. rewrite Ea, (bool_decide_false (raw = [])), (bool_decide_false (stored = [])) by done. done.
Qed.

Lemma retoken_same r r' :
  rtc retoken r r' ->
  id r' = id r /\ chatgpt_account_id r' = chatgpt_account_id r /\ status r' = status r /\ routing_pinned r' = routing_pinned r.
Proof. induction 1 as [|r r1 r2 (? & ? & _ & _ & _ & _ & ->) _ IH]; [done|]. exact IH. Qed.

Lemma persist_retokened r t t' stored raw :
  r ∈ rows t -> access_token_encrypted r = Some raw ->
  migrate_plaintext_token_for_storage crypto (nonce (id r)) (trim_ascii raw) = Ret (stored, true) ->
  NoDup (id <$> rows t) ->
  persist_migrated_access_token runs now_s (id r) stored t = (true, t') -> retokened t t'.
Proof.
  intros Hr Ha Hm Hd. unfold persist_migrated_access_token.
  destruct (bool_decide (stored = [])) eqn:Es; [by rewrite orb_true_r|]. apply bool_decide_eq_false in Es.
  destruct (_ || _); [done|]. intros [= <-]. split; [done|]. cbn [rows update_where snd].
  assert (raw <> []) as Hne.
  { intros ->. unfold migrate_plaintext_token_for_storage in Hm. cbn in Hm. congruence. }
  destruct t as [rs n]. cbn [rows] in *.
  assert (forall r', r' ∈ rs -> id r' = id r -> r' = r) as Hu.
  { intros r' Hr' E. apply list_elem_of_lookup in Hr as [i Hi], Hr' as [j Hj].
    assert (i = j) as ->; [|congruence].
    eapply NoDup_lookup; [exact Hd|by rewrite list_lookup_fmap, Hi|by rewrite list_lookup_fmap, Hj, <- E]. }
  clear Hd Hr. induction rs as [|r' rs IH]; [constructor|]. rewrite fmap_cons. constructor.
  - unfold has_id. destruct (Z.eqb_spec (id r') (id r)) as [E|]; [|done].
    apply Hu in E; [|by left]. subst r'. apply rtc_once. by exists raw, stored.
  - apply IH. intros r0 H0. apply Hu. by right.
Qed.

Lemma credentials_of_row_spec r t :
  r ∈ rows t -> NoDup (id <$> rows t) ->
  let '(c, t') := credentials_of_row runs crypto nonce now_s r t in
  retokened t t' /\ (forall c', c = Some c' -> issues r c').
Proof.
  intros Hr Hd. unfold credentials_of_row, normalize_stored_access_token.
  destruct (chatgpt_account_id r) as [account|] eqn:Ec; [|split; [apply retokened_refl|done]].
  destruct (access_token_encrypted r) as [raw|] eqn:Ea; [|split; [apply retokened_refl|done]].
  destruct (migrate_plaintext_token_for_storage crypto (nonce (id r)) (trim_ascii raw)) as [[stored m]|] eqn:Em;
    [|split; [apply retokened_refl|done]].
  assert (forall t', retokened t t' ->
    let '(c, t'') := match decrypt_token_from_storage crypto stored with
      | Ret decrypted =>
          if bool_decide (trim_ascii account = []) || bool_decide (trim_ascii decrypted = []) then (None, t')
          else (Some (mkCredentials (trim_ascii account) (trim_ascii decrypted) (id r)), t')
      | Throw _ => (None, t')
      end in retokened t t'' /\ (forall c', c = Some c' -> issues r c')) as Hread.
  { intros t' Ht. destruct (decrypt_token_from_storage crypto stored) as [plain|] eqn:Ed; [|done].
    case_bool_decide as E1; [done|]. case_bool_decide as E2; [done|]. split; [done|]. intros c [= <-].
    split; [done|]. split; [done|]. split; [done|]. by exists account, raw, stored, m, plain. }
  destruct m.
  - destruct (persist_migrated_access_token runs now_s (id r) stored t) as [[] t'] eqn:Ep.
    + apply Hread. by eapply persist_retokened.
    + split; [|done]. unfold persist_migrated_access_token in Ep. destruct (_ || _); [|done]. injection Ep as <-.
      apply retokened_refl.
  - apply Hread, retokened_refl.
Qed.

Lemma retokened_distinct t t' : retokened t t' -> NoDup (id <$> rows t) -> NoDup (id <$> rows t').
Proof.
  intros [_ H]. assert (id <$> rows t' = id <$> rows t) as ->; [|done].
  induction H as [|r r' l l' H _ IH]; [done|]. csimpl. destruct (retoken_same _ _ H) as [-> _]. by rewrite IH.
Qed.

(** Credentials that come from a usable row of the table that satisfies
    [p]. *)
Definition served (p : AccountRow -> Prop) (t : accounts_table) (c : UpstreamAccountCredentials) : Prop :=
  exists r r', r ∈ rows t /\ rtc retoken r r' /\ usable_row r = true /\ p r /\ issues r' c.

Lemma served_retokened p t t' c :
  (forall r r', rtc retoken r r' -> p r' -> p r) -> retokened t t' -> served p t' c -> served p t c.
Proof.
  intros Hp [_ H] (r & r' & Hr & Hrr & Hu & Hpr & Hi).
  apply list_elem_of_lookup in Hr as [i Hr]. destruct (Forall2_lookup_r _ _ _ _ _ H Hr) as (r0 & H0 & Hr0).
  exists r0, r'. split; [by eapply list_elem_of_lookup_2|]. split; [by etrans|].
  split; [by rewrite <- (retoken_usable _ _ Hr0)|]. split; [by eapply Hp|done].
Qed.

Definition query_ok (p : AccountRow -> Prop) (t : accounts_table)
    (result : option UpstreamAccountCredentials * accounts_table) : Prop :=
  retokened t result.2 /\ (forall c, result.1 = Some c -> served p t c).

Lemma query_none p t : query_ok p t (None, t).
Proof. split; [apply retokened_refl|done]. Qed.

Lemma read_row_ok p selected t :
  NoDup (id <$> rows t) -> (forall r, r ∈ selected -> r ∈ rows t /\ usable_row r = true /\ p r) ->
  query_ok p t (read_credentials_row runs crypto nonce now_s selected t).
Proof.
  intros Hd Hs. destruct selected as [|r selected]; [apply query_none|]. cbn [read_credentials_row].
  destruct (Hs r) as (Hr & Hu & Hp); [by left|]. pose proof (credentials_of_row_spec r t Hr Hd) as H.
  destruct (credentials_of_row _ _ _ _ r t) as [c t']. destruct H as [Ht Hi]. split; [done|].
  intros c' Ec. cbn in Ec. exists r, r. split_and!; try done. by apply Hi.
Qed.

Lemma elem_of_usable q t r : r ∈ select_usable q t -> r ∈ rows t /\ usable_row r = true /\ q r = true.
Proof. intros H. apply list_elem_of_filter in H as [H ?]. by apply andb_true_iff in H as [? ?]. Qed.

Lemma elem_of_latest q t r : r ∈ select_latest q t -> r ∈ rows t /\ usable_row r = true /\ q r = true.
Proof. intros H. unfold select_latest in H. rewrite merge_sort_Permutation in H. by apply elem_of_usable. Qed.

Lemma exact_ok account t :
  NoDup (id <$> rows t) ->
  query_ok (fun r => has_chatgpt_id account r = true) t (query_exact_account_credentials runs crypto nonce now_s account t).
Proof.
  intros Hd. unfold query_exact_account_credentials. destruct (_ || _); [apply query_none|].
  apply read_row_ok; [done|]. apply elem_of_usable.
Qed.

Lemma internal_ok account t :
  NoDup (id <$> rows t) ->
  query_ok (fun r => id r = account) t (query_internal_account_credentials runs crypto nonce now_s account t).
Proof.
  intros Hd. unfold query_internal_account_credentials. destruct (_ || _); [apply query_none|].
  apply read_row_ok; [done|]. intros r Hr. apply elem_of_usable in Hr as (? & ? & Hi). split_and!; [done..|].
  by apply Z.eqb_eq in Hi.
Qed.

Lemma latest_ok t :
  NoDup (id <$> rows t) -> query_ok (fun _ => True) t (query_latest_active_account_credentials runs crypto nonce now_s t).
Proof.
  intros Hd. unfold query_latest_active_account_credentials. destruct (negb _); [apply query_none|].
  apply read_row_ok; [done|]. intros r Hr. apply elem_of_latest in Hr as (? & ? & ?). done.
Qed.

Lemma pinned_ok t :
  NoDup (id <$> rows t) ->
  query_ok (fun r => routing_pinned r = 1) t (query_pinned_account_credentials runs crypto nonce now_s t).
Proof.
  intros Hd. unfold query_pinned_account_credentials. destruct (negb _); [apply query_none|].
  apply read_row_ok; [done|]. intros r Hr. apply elem_of_latest in Hr as (? & ? & Hp). split_and!; [done..|].
  by apply Z.eqb_eq in Hp.
Qed.

(** Reading one row leaves the others as they are. *)
Lemma credentials_of_row_others r t r2 :
  id r2 <> id r -> r2 ∈ rows t -> r2 ∈ rows (credentials_of_row runs crypto nonce now_s r t).2.
Proof.
  intros Hid Hr2. unfold credentials_of_row, normalize_stored_access_token, persist_migrated_access_token.
  repeat case_match; simplify_eq; try done; cbn [snd] in *; simplify_eq;
    cbn [update_where snd rows]; apply list_elem_of_fmap; exists r2;
    (split; [|done]); unfold has_id; by destruct (Z.eqb_spec (id r2) (id r)).
Qed.

Lemma read_candidates_ok b logs selected t :
  NoDup (id <$> rows t) -> NoDup (id <$> selected) ->
  (forall r, r ∈ selected -> r ∈ rows t /\ usable_row r = true) ->
  let '(candidates, t') := read_candidates runs crypto nonce now_s b logs selected t in
  retokened t t' /\ Forall (fun c => served (fun _ => True) t (credentials c)) candidates.
Proof.
  revert t. induction selected as [|r selected IH]; intros t Hd Hs Hin; cbn [read_candidates].
  { split; [apply retokened_refl|constructor]. }
  destruct (negb _); [split; [apply retokened_refl|constructor]|].
  rewrite fmap_cons in Hs. apply NoDup_cons in Hs as [Hr Hs].
  destruct (Hin r) as [Hrt Hru]; [by left|].
  pose proof (credentials_of_row_spec r t Hrt Hd) as H1.
  pose proof (credentials_of_row_others r t) as Ho.
  destruct (credentials_of_row _ _ _ _ r t) as [c t1]. destruct H1 as [Ht1 Hc]. cbn [snd] in Ho.
  assert (forall r', r' ∈ selected -> r' ∈ rows t1 /\ usable_row r' = true) as Hin1.
  { intros r' Hr'. destruct (Hin r') as [Hr't Hr'u]; [by right|]. split; [|done]. apply Ho; [|done].
    intros E. apply Hr. rewrite <- E. by apply list_elem_of_fmap_2. }
  specialize (IH t1 (retokened_distinct _ _ Ht1 Hd) Hs Hin1).
  destruct (read_candidates _ _ _ _ b logs selected t1) as [cs t2]. destruct IH as [Ht2 Hcs].
  split; [by eapply retokened_trans|].
  assert (Forall (fun c => served (fun _ => True) t (credentials c)) cs) as Hcs'.
  { eapply Forall_impl; [exact Hcs|]. intros x Hx. eapply served_retokened; [|exact Ht1|exact Hx]. done. }
  destruct c as [c|]; [|done]. constructor; [|done].
  exists r, r. split_and!; try done. by apply Hc.
Qed.

Lemma routed_ok logs t :
  NoDup (id <$> rows t) ->
  let '(candidates, t') := query_routed_account_candidates runs crypto nonce now_s logs t in
  retokened t t' /\ Forall (fun c => served (fun _ => True) t (credentials c)) candidates.
Proof.
  intros Hd. unfold query_routed_account_candidates.
  assert (NoDup (id <$> select_latest (fun _ => true) t)) as Hs.
  { unfold select_latest. rewrite merge_sort_Permutation. eapply sublist_NoDup; [exact Hd|].
    apply fmap_sublist, sublist_filter. }
  assert (forall r, r ∈ select_latest (fun _ => true) t -> r ∈ rows t /\ usable_row r = true) as Hin.
  { intros r Hr. apply elem_of_latest in Hr as (? & ? & _). done. }
  destruct (runs RequestLogSchema && runs (QueryRouted true)); [by apply read_candidates_ok|].
  destruct (runs (QueryRouted false)); [by apply read_candidates_ok|].
  split; [apply retokened_refl|constructor].
Qed.

End queries.

(** ** The choice *)

Section choice.
Context {sodium : Sodium} (env : environment) (strtod : bytes -> double * nat) (pow : double -> double -> double).
Context (runs : DbStep -> bool) (crypto : TokenStorageCryptoState) (nonce : Z -> bytes) (now_s now_ms pick_now_ms : Z).

Local Abbreviation retokened := (retokened crypto nonce now_s).
Local Abbreviation served := (served crypto nonce now_s).
Local Abbreviation table := (fun w => accounts (database w)).

(** A selection that starts from the table [t] finds only credentials of a
    usable row of [t] with [p], inside the lock pool. *)
Definition outcome (locked : list bytes) (p : AccountRow -> Prop) (t : accounts_table)
    (r : option UpstreamAccountCredentials * World) : Prop :=
  retokened t (table r.2) /\
  forall c, r.1 = Some c -> credentials_in_lock_pool locked c = true /\ served p t c.

Definition stable (p : AccountRow -> Prop) : Prop :=
  forall r r', rtc (retoken crypto nonce now_s) r r' -> p r' -> p r.

Lemma outcome_none locked p t w : retokened t (table w) -> outcome locked p t (None, w).
Proof. done. Qed.

Lemma outcome_or_next locked p t r next :
  outcome locked p t r -> (forall w, retokened t (table w) -> outcome locked p t (next w)) ->
  outcome locked p t (or_next r next).
Proof. intros [Ht Hc] Hn. destruct r as [[c|] w]; [done|]. by apply Hn. Qed.

Lemma outcome_announce locked p t via r : outcome locked p t r -> outcome locked p t (announce via r).
Proof. intros [Ht Hc]. by destruct r as [[c|] w]. Qed.

Lemma on_table_database {A} (f : accounts_table -> A * accounts_table) w :
  table (on_table f w).2 = (f (table w)).2 /\ (on_table f w).1 = (f (table w)).1 /\
  request_logs (database (on_table f w).2) = request_logs (database w) /\
  settings_row (database (on_table f w).2) = settings_row (database w).
Proof. unfold on_table. by destruct (f (accounts (database w))). Qed.

(** A query from a later table, guarded. *)
Lemma query_later p t w f :
  stable p -> retokened t (table w) -> query_ok crypto nonce now_s p (table w) (f (table w)) ->
  retokened t (table (on_table f w).2) /\ (forall c, (on_table f w).1 = Some c -> served p t c).
Proof.
  intros Hp Ht [Hq Hs]. destruct (on_table_database f w) as (-> & -> & _). split; [by eapply retokened_trans|].
  intros c Ec. eapply served_retokened; [exact Hp|exact Ht|by apply Hs].
Qed.

Lemma outcome_guard locked p t c source w :
  retokened t (table w) -> (forall c', c = Some c' -> served p t c') ->
  outcome locked p t (guard_lock_pool_selection locked c source w).
Proof.
  intros Ht Hc. unfold guard_lock_pool_selection. destruct c as [c|]; [|done].
  destruct (credentials_in_lock_pool locked c) eqn:El; [|done]. split; [done|].
  intros c' [= <-]. split; [done|by apply Hc].
Qed.

(** The row is the preferred account, by either of its names. *)
Definition preferred_row (preferred : bytes) (r : AccountRow) : Prop :=
  has_chatgpt_id preferred r = true \/ parse_positive_int64 preferred = Some (id r).

Lemma preferred_stable preferred : stable (preferred_row preferred).
Proof.
  intros r r' H. destruct (retoken_same _ _ _ _ _ H) as (E1 & E2 & _). unfold preferred_row, has_chatgpt_id. by rewrite E1, E2.
Qed.

Lemma any_stable : stable (fun _ => True).
Proof. done. Qed.

Lemma served_weaken p q t c : (forall r, p r -> q r) -> served p t c -> served q t c.
Proof. intros H (r & r' & ? & ? & ? & ? & ?). exists r, r'. split_and!; auto. Qed.

Lemma preferred_outcome locked preferred t w :
  NoDup (id <$> rows t) -> retokened t (table w) ->
  outcome locked (preferred_row preferred) t (select_preferred_credentials runs crypto nonce now_s locked preferred w).
Proof.
  intros Hd Ht. unfold select_preferred_credentials, query_preferred_credentials. case_bool_decide; [done|].
  pose proof (retokened_distinct _ _ _ _ _ Ht Hd) as Hd'.
  destruct (query_later (fun r => has_chatgpt_id preferred r = true) t w
    (query_exact_account_credentials runs crypto nonce now_s preferred)) as [Ht1 Hs1].
  { intros r r' H0. destruct (retoken_same _ _ _ _ _ H0) as (_ & E2 & _). unfold has_chatgpt_id. by rewrite E2. }
  { done. } { by apply exact_ok. }
  destruct (on_table _ w) as [c1 w1] eqn:E1. cbn [fst snd] in *.
  set (result := match c1 with Some c => (Some c, w1) | None => _ end).
  assert (retokened t (table result.2) /\ (forall c, result.1 = Some c -> served (preferred_row preferred) t c)) as [Ht2 Hs2].
  { destruct c1 as [c1|]; cbn.
    - split; [done|]. intros c [= <-]. eapply served_weaken; [|by apply Hs1]. by left.
    - destruct (parse_positive_int64 preferred) as [i|] eqn:Ei; [|done].
      apply query_later; [apply preferred_stable|done|].
      destruct (internal_ok runs crypto nonce now_s i (table w1)) as [Hq1 Hq2].
      { by eapply retokened_distinct. }
      split; [done|]. intros c Ec. eapply served_weaken; [|by apply Hq2]. intros r <-. by right. }
  destruct result as [c w2]. cbn [fst snd] in *. case_match; [done|].
  pose proof (outcome_guard locked (preferred_row preferred) t c $"preferred" w2 Ht2 Hs2) as Hg.
  by destruct (guard_lock_pool_selection locked c _ w2) as [[g|] w3].
Qed.

Lemma strategy_outcome locked model settings t w :
  NoDup (id <$> rows t) -> retokened t (table w) ->
  let '(c, w') := select_strategy_credentials env strtod pow runs crypto nonce now_s pick_now_ms locked model settings w in
  retokened t (table w') /\ (forall c', c = Some c' -> served (fun _ => True) t c').
Proof.
  intros Hd Ht. unfold select_strategy_credentials.
  pose proof (retokened_distinct _ _ _ _ _ Ht Hd) as Hd'.
  pose proof (routed_ok runs crypto nonce now_s (request_logs (database w)) (table w) Hd') as Hr.
  unfold on_table. destruct (query_routed_account_candidates _ _ _ _ _ (accounts (database w))) as [routed t1].
  destruct Hr as [Ht1 Hs]. assert (retokened t t1) as Ht2 by (by eapply retokened_trans).
  cbn [on_accounts set_database database overrides state signals].
  set (kept := if lock_pool_active locked then _ else routed).
  assert (Forall (fun c => served (fun _ => True) t (credentials c)) kept) as Hk.
  { assert (Forall (fun c => served (fun _ => True) t (credentials c)) routed) as H0.
    { eapply Forall_impl; [exact Hs|]. intros c Hc. eapply served_retokened; [|exact Ht|exact Hc]. done. }
    unfold kept. destruct (lock_pool_active locked); [by apply Forall_filter|done]. }
  case_bool_decide; [done|].
  set (sorted := maybe_prefer_earlier_reset_accounts kept settings).
  assert (Forall (fun c => served (fun _ => True) t (credentials c)) sorted) as Hso.
  { unfold sorted, maybe_prefer_earlier_reset_accounts. case_match; [done|]. by rewrite merge_sort_Permutation. }
  destruct (to_balancer_candidates _ _ _ _ _ _ _ _) as [candidates memo].
  destruct (pick_routed_candidate _ _ _) as [[index|] s]; [|done]. split; [done|].
  intros c Ec. apply fmap_Some in Ec as (cand & Ecand & ->).
  eapply Forall_lookup in Hso; [exact Hso|exact Ecand].
Qed.

Lemma latest_outcome locked t w :
  NoDup (id <$> rows t) -> retokened t (table w) ->
  outcome locked (fun _ => True) t (select_latest_credentials runs crypto nonce now_s locked w).
Proof.
  intros Hd Ht. unfold select_latest_credentials.
  destruct (query_later (fun _ => True) t w (query_latest_active_account_credentials runs crypto nonce now_s)) as [Ht1 Hs1];
    [done|done|apply latest_ok; by eapply retokened_distinct|].
  destruct (on_table _ w) as [c w1]. by apply outcome_guard.
Qed.

Lemma outcome_weaken locked p q t r : (forall x, p x -> q x) -> outcome locked p t r -> outcome locked q t r.
Proof. intros H [Ht Hc]. split; [done|]. intros c Ec. destruct (Hc c Ec). split; [done|]. by eapply served_weaken. Qed.

Lemma recover_database w :
  table (recover_blocks runs now_s now_ms w) = (recover_expired_account_limit_blocks runs now_s now_ms (table w)).2 /\
  settings_row (database (recover_blocks runs now_s now_ms w)) = settings_row (database w).
Proof. unfold recover_blocks. destruct (recover_expired_account_limit_blocks _ _ _ _) as [n t]. by case_match. Qed.

Lemma recover_distinct t :
  NoDup (id <$> rows t) -> NoDup (id <$> rows (recover_expired_account_limit_blocks runs now_s now_ms t).2).
Proof.
  intros Hd. unfold recover_expired_account_limit_blocks. case_match; [done|]. cbn [snd rows update_where].
  rewrite <- list_fmap_compose. erewrite list_fmap_ext; [exact Hd|]. intros i r _. cbn. by case_match.
Qed.

(** The locked accounts of the stored settings. *)
Definition locked_ids (w : World) : list bytes :=
  parse_locked_routing_account_ids
    (locked_routing_account_ids (default default_settings (get_dashboard_settings runs (database w)))).

Lemma resolve_outcome preferred model strict w :
  NoDup (id <$> rows (table w)) ->
  runs OpenPool && runs AccountsSchema = true ->
  outcome (locked_ids w) (fun r => strict = true -> preferred_row (trim_ascii preferred) r)
    (recover_expired_account_limit_blocks runs now_s now_ms (table w)).2
    (resolve_upstream_account_credentials env strtod pow runs crypto nonce now_s now_ms pick_now_ms preferred model strict w).
Proof.
  intros Hd0 Hruns. unfold resolve_upstream_account_credentials. rewrite <- negb_andb, Hruns. cbn [negb].
  destruct (recover_database w) as [Et Es]. pose proof (recover_distinct _ Hd0) as Hd. rewrite <- Et in *.
  set (w1 := recover_blocks runs now_s now_ms w) in *. unfold locked_ids.
  assert (get_dashboard_settings runs (database w) = get_dashboard_settings runs (database w1)) as ->
    by (unfold get_dashboard_settings; by rewrite Es).
  set (settings := default default_settings _).
  set (locked := parse_locked_routing_account_ids _). destruct strict.
  { eapply outcome_weaken; [|apply preferred_outcome; [done|apply retokened_refl]]. done. }
  assert (forall r, outcome locked (fun _ => True) (table w1) r ->
    outcome locked (fun r => false = true -> preferred_row (trim_ascii preferred) r) (table w1) r) as Hweak.
  { intros r. by apply outcome_weaken. }
  apply Hweak. repeat apply outcome_or_next.
  - destruct (lock_pool_active locked) eqn:El; [apply outcome_none, retokened_refl|]. apply outcome_announce.
    destruct (query_later (fun _ => True) (table w1) w1 (query_pinned_account_credentials runs crypto nonce now_s)) as [Ht Hs];
      [done|apply retokened_refl| |].
    { destruct (pinned_ok runs crypto nonce now_s (table w1) Hd) as [H1 H2]. split; [done|]. intros c Ec.
      eapply served_weaken; [|by apply H2]. done. }
    split; [done|]. intros c Ec. split; [unfold credentials_in_lock_pool; by rewrite El|by apply Hs].
  - intros w2 Ht2. apply outcome_or_next.
    { eapply outcome_weaken; [|by apply preferred_outcome]. done. }
    intros w3 Ht3. apply outcome_or_next.
    + pose proof (strategy_outcome locked model settings (table w1) w3 Hd Ht3) as Hst.
      destruct (select_strategy_credentials _ _ _ _ _ _ _ _ _ _ _ w3) as [c w4]. destruct Hst.
      apply outcome_announce. by apply outcome_guard.
    + intros w5 Ht5. destruct (lock_pool_active locked); [by apply outcome_none|].
      apply outcome_announce. by apply latest_outcome.
Qed.

(** An account is served only when it is authorised: whatever steps of the
    database fail, the credentials that routing returns are the token and the
    name of one account of the table as the expired limits left it, active
    and below its quotas; they belong to the lock pool of the settings (two
    accounts or more) when these can be read, and settings that cannot be read
    set no pool ([unread_settings_open_the_pool]); and a strict request gets
    its preferred account or none. (C2) *)
Theorem routed_account_authorized preferred model strict w c w' :
  NoDup (id <$> rows (table w)) ->
  resolve_upstream_account_credentials env strtod pow runs crypto nonce now_s now_ms pick_now_ms preferred model strict w =
    (Some c, w') ->
  (forall settings, get_dashboard_settings runs (database w) = Some settings ->
     credentials_in_lock_pool (parse_locked_routing_account_ids (locked_routing_account_ids settings)) c = true) /\
  served (fun r => strict = true -> preferred_row (trim_ascii preferred) r)
    (recover_expired_account_limit_blocks runs now_s now_ms (table w)).2 c.
Proof.
  intros Hd E. destruct (runs OpenPool && runs AccountsSchema) eqn:Hr.
  - pose proof (resolve_outcome preferred model strict w Hd Hr) as [_ H]. rewrite E in H.
    destruct (H c eq_refl) as [Hl Hs]. split; [|exact Hs]. unfold locked_ids in Hl. intros settings Es. by rewrite Es in Hl.
  - unfold resolve_upstream_account_credentials in E. by rewrite <- negb_andb, Hr in E.
Qed.

End choice.

(** ** Marked accounts *)

Section marking.
Context {sodium : Sodium}.
Context (env : environment) (strtod : bytes -> double * nat) (pow : double -> double -> double).
Context (runs : DbStep -> bool) (config : Config) (all_run : forall s, runs s = true).

Local Abbreviation table := (fun w => accounts (database w)).

Lemma with_db_database w : database (with_db runs config w).2 = database w.
Proof. unfold with_db. by destruct (ensure_db _ _ _ _). Qed.

Lemma with_db_opens w : (with_db runs config w).1 = true.
Proof.
  unfold with_db, ensure_db. rewrite all_run. cbn [negb]. rewrite (all_run StickySchema). cbn [negb].
  by rewrite andb_false_r.
Qed.

Lemma clear_drain_database account w : database (clear_drain account w) = database w.
Proof. unfold clear_drain. by case_match. Qed.

(** What a marking leaves in the database. *)
Lemma mark_account_database mark signal now_s account w :
  trim_ascii account <> [] ->
  let db' := database (mark_account runs config mark signal now_s account w).2 in
  accounts db' = (clear_account_routing_pin_by_chatgpt_account_id (repo_runs runs) (trim_ascii account) now_s
                    (mark (table w)).2).2 /\
  sticky_sessions db' = filter (fun r => bool_decide (StickySessions.account_id r = trim_ascii account) = false)
                          (sticky_sessions (database w)) /\
  continuity db' = filter (fun r => bool_decide (Continuity.account_id r = trim_ascii account) = false)
                     (continuity (database w)).
Proof.
  intros Ha. unfold mark_account. rewrite bool_decide_false by done.
  pose proof (with_db_opens w) as Ho. pose proof (with_db_database w) as Hd.
  destruct (with_db runs config w) as [opened w1]. cbn [fst snd] in Ho, Hd. rewrite Ho, all_run. cbn [negb orb].
  rewrite <- Hd. unfold StickySessions.purge_proxy_sticky_sessions_for_account,
    Continuity.purge_proxy_response_continuity_for_account. rewrite !all_run. cbn [negb orb].
  rewrite bool_decide_false by done. unfold StickySessions.delete_rows.
  destruct (mark (accounts (database w1))) as [marked t1]. cbn [snd].
  destruct (clear_account_routing_pin_by_chatgpt_account_id _ _ _ t1) as [unpinned t2]. cbn [snd].
  case_match; cbn [emit database]; rewrite clear_drain_database; done.
Qed.

(** No limit of the account has expired at a time. *)
Definition limits_hold (account : bytes) (t : accounts_table) (now_ms : Z) : Prop :=
  forall r, r ∈ rows t -> has_chatgpt_id account r = true ->
    passed (quota_primary_reset_at_ms r) now_ms = false /\ passed (quota_secondary_reset_at_ms r) now_ms = false.

Definition trimmed_ids (t : accounts_table) : Prop :=
  forall r a, r ∈ rows t -> chatgpt_account_id r = Some a -> trim_ascii a = a.

(** The rows of the account have a status with [S]; it is off when they are
    not active. *)
Definition status_in (S : bytes -> Prop) (account : bytes) (t : accounts_table) : Prop :=
  forall r, r ∈ rows t -> has_chatgpt_id account r = true -> S (status r).

Definition off : bytes -> accounts_table -> Prop := status_in (fun s => s <> $"active").

Lemma update_where_rows p f t r : r ∈ rows (update_where p f t).2 -> exists r0, r0 ∈ rows t /\ r = if p r0 then f r0 else r0.
Proof. intros H. apply list_elem_of_fmap in H as (r0 & -> & H0). by exists r0. Qed.

Lemma not_expired_when_off account t r now_ms :
  limits_hold account t now_ms -> r ∈ rows t -> has_chatgpt_id account r = true -> block_expired now_ms r = false.
Proof.
  intros Hl Hr Ha. destruct (Hl r Hr Ha) as [E1 E2]. unfold block_expired. rewrite E1, E2, !andb_false_r. done.
Qed.

(** Rewriting rows in place keeps what the queries of an account look at. *)
Definition renames_none (f : AccountRow -> AccountRow) : Prop :=
  forall r, chatgpt_account_id (f r) = chatgpt_account_id r /\ id (f r) = id r.

Lemma update_where_status (S : bytes -> Prop) account (p : AccountRow -> bool) (f : AccountRow -> AccountRow) t :
  renames_none f ->
  (forall r, r ∈ rows t -> has_chatgpt_id account r = true -> S (status (if p r then f r else r))) ->
  status_in S account (update_where p f t).2.
Proof.
  intros Hc Hs r Hr Ha. apply update_where_rows in Hr as (r0 & H0 & ->). apply Hs; [done|].
  unfold has_chatgpt_id in *. destruct (p r0); [by rewrite (proj1 (Hc r0)) in Ha|done].
Qed.

Definition well_named (t : accounts_table) : Prop := NoDup (id <$> rows t) /\ trimmed_ids t.

Lemma off_not_served account crypto nonce now_s now_ms pick_now_ms preferred model strict w c w' :
  well_named (table w) -> off account (table w) ->
  (forall r, r ∈ rows (table w) -> has_chatgpt_id account r = true -> block_expired now_ms r = false) ->
  resolve_upstream_account_credentials env strtod pow runs crypto nonce now_s now_ms pick_now_ms preferred model strict w =
    (Some c, w') -> account_id c <> account.
Proof.
  intros [Hd Htr] Hoff Hexp E Hacc.
  pose proof (resolve_outcome env strtod pow runs crypto nonce now_s now_ms pick_now_ms preferred model strict w Hd) as H.
  destruct H as [_ H]; [by rewrite !all_run|]. rewrite E in H. destruct (H c eq_refl) as [_ (r & r' & Hr & Hrr & Hu & _ & Hi)].
  destruct Hi as (_ & _ & _ & a & raw & stored & m & plain & Ec & Ea & _).
  destruct (retoken_same _ _ _ _ _ Hrr) as (_ & Ech & _ & _). rewrite Ech in Ec.
  assert (exists r0, r0 ∈ rows (table w) /\ chatgpt_account_id r0 = Some a /\
            (block_expired now_ms r0 = false -> r = r0)) as (r0 & Hr0 & Ec0 & Er0).
  { unfold recover_expired_account_limit_blocks in Hr. destruct (_ || _); [by exists r|].
    apply update_where_rows in Hr as (r0 & Hr0 & ->). exists r0. split; [done|].
    destruct (block_expired now_ms r0); done. }
  assert (has_chatgpt_id account r0 = true) as Hh.
  { unfold has_chatgpt_id. apply bool_decide_eq_true. rewrite Ec0. f_equal. rewrite <- Hacc, Ea. symmetry.
    by eapply Htr. }
  specialize (Er0 (Hexp r0 Hr0 Hh)). subst r0. specialize (Hoff r Hr0 Hh).
  unfold usable_row in Hu. by rewrite bool_decide_false in Hu.
Qed.

Lemma update_where_named p f t : renames_none f -> well_named t -> well_named (update_where p f t).2.
Proof.
  intros Hf [Hd Ht]. split.
  - cbn [snd rows update_where]. rewrite <- list_fmap_compose. erewrite list_fmap_ext; [exact Hd|].
    intros i r _. cbn. destruct (p r); [apply Hf|done].
  - intros r a Hr Ea. apply update_where_rows in Hr as (r0 & H0 & ->). eapply Ht; [exact H0|].
    destruct (p r0); [by rewrite <- (proj1 (Hf r0))|done].
Qed.

Lemma clear_pin_exact account now_s t :
  exists p, (clear_account_routing_pin_by_chatgpt_account_id (repo_runs runs) account now_s t).2 =
            (update_where p (set_pinned 0 now_s) t).2.
Proof.
  unfold clear_account_routing_pin_by_chatgpt_account_id.
  destruct (_ || _); [exists (fun _ : AccountRow => false)|eexists].
  - unfold update_where. cbn [snd]. rewrite list_fmap_id. by destruct t.
  - destruct (update_where _ _ t) as [n t'] eqn:E. cbn [snd]. by rewrite E.
Qed.

Lemma clear_pin_rows account now_s t :
  exists p f, (clear_account_routing_pin_by_chatgpt_account_id (repo_runs runs) account now_s t).2 = (update_where p f t).2 /\
    renames_none f /\ (forall r, status (f r) = status r).
Proof. destruct (clear_pin_exact account now_s t) as [p ->]. by eexists p, _. Qed.

Lemma clear_pin_status S account now_s t :
  status_in S account t ->
  status_in S account (clear_account_routing_pin_by_chatgpt_account_id (repo_runs runs) account now_s t).2.
Proof.
  intros Ho. destruct (clear_pin_rows account now_s t) as (p & f & -> & Hf & Hs). apply update_where_status; [done|].
  intros r Hr Ha. destruct (p r); [rewrite Hs|]; by apply Ho.
Qed.

Lemma clear_pin_named account now_s t :
  well_named t -> well_named (clear_account_routing_pin_by_chatgpt_account_id (repo_runs runs) account now_s t).2.
Proof. destruct (clear_pin_rows account now_s t) as (p & f & -> & Hf & _). by apply update_where_named. Qed.

Lemma marked_unusable_status account now_s t :
  trim_ascii account = account -> account <> [] ->
  let t' := (mark_account_unusable_by_chatgpt_id runs now_s account t).2 in
  status_in (fun s => s = $"deactivated") account t' /\ (well_named t -> well_named t').
Proof.
  intros Ht Ha. unfold mark_account_unusable_by_chatgpt_id. rewrite bool_decide_false by done.
  rewrite all_run, Ht. cbn [negb orb].
  match goal with |- context [update_where ?p ?f t] =>
    pose proof (update_where_status (fun s => s = $"deactivated") account p f t) as H;
    pose proof (update_where_named p f t) as Hn; destruct (update_where p f t) as [n t'] end.
  split; [|by apply Hn]. apply H; [done|]. intros r _ Hr. rewrite Hr. cbn [andb].
  destruct (bool_decide (status r = $"deactivated")) eqn:Es; [apply bool_decide_eq_true in Es|by cbn].
  cbn [negb orb]. destruct (negb _); [by cbn|done].
Qed.

Lemma marked_exhausted_status account new_status now_s t :
  trim_ascii account = account -> account <> [] ->
  let t' := (mark_account_exhausted_by_chatgpt_id runs now_s account new_status t).2 in
  off account t' /\ (well_named t -> well_named t').
Proof.
  intros Ht Ha. unfold mark_account_exhausted_by_chatgpt_id. rewrite bool_decide_false by done.
  rewrite all_run, Ht. cbn [negb orb].
  match goal with |- context [update_where ?p ?f t] =>
    pose proof (update_where_status (fun s => s <> $"active") account p f t) as H;
    pose proof (update_where_named p f t) as Hn; destruct (update_where p f t) as [n t'] end.
  split; [|by apply Hn]. apply H; [done|]. intros r _ Hr. rewrite Hr. cbn. unfold stays_off, normalize_exhausted_status.
  destruct (bool_decide (status r = $"paused")) eqn:E1; [apply bool_decide_eq_true in E1; by rewrite E1|].
  destruct (bool_decide (status r = $"deactivated")) eqn:E2; [apply bool_decide_eq_true in E2; by rewrite E2|].
  cbn [orb]. by destruct (bool_decide (to_lower_ascii _ = _)).
Qed.

(** What every marking gives: the account is off, and no session leads to
    it. *)
Definition forgotten (account : bytes) (db : Database) : Prop :=
  off account (accounts db) /\
  (forall key now, StickySessions.find_proxy_sticky_session_account true key now (sticky_sessions db) <> Some account) /\
  (forall response scope now,
     Continuity.find_proxy_response_continuity_account true response scope now (continuity db) <> Some account).

Lemma marked_forgotten mark signal now_s account w :
  let acct := trim_ascii account in
  acct <> [] -> off acct (mark (table w)).2 ->
  forgotten acct (database (mark_account runs config mark signal now_s account w).2).
Proof.
  intros acct Ha Ho. destruct (mark_account_database mark signal now_s account w Ha) as (Et & Es & Ec).
  split; [rewrite Et; by apply clear_pin_status|]. split.
  - intros key now. rewrite Es. unfold StickySessions.find_proxy_sticky_session_account. cbn [negb orb].
    case_bool_decide; [done|]. destruct (List.find _ _) as [r|] eqn:Ef; [|done].
    apply find_some in Ef as [Hin _]. apply list_elem_of_In, list_elem_of_filter in Hin as [Hr _].
    apply bool_decide_eq_false in Hr. case_bool_decide; [done|]. by intros [= E].
  - intros response scope now. rewrite Ec. unfold Continuity.find_proxy_response_continuity_account. cbn [negb orb].
    case_bool_decide; [done|]. destruct (List.find _ _) as [r|] eqn:Ef; [|done].
    apply find_some in Ef as [Hin _]. apply list_elem_of_In, list_elem_of_filter in Hin as [Hr _].
    apply bool_decide_eq_false in Hr. case_bool_decide; [done|]. by intros [= E].
Qed.

(** An account that the upstream declared deactivated or exhausted is
    left alone: once it is marked, no sticky session and no stored response
    leads to it, and no routing request, whatever its preference, the strategy
    and the lock pool, is served with it: a deactivated one at no time, an
    exhausted one until one of its limits expires. *)
Theorem marked_account_rests account new_status now_s w :
  let acct := trim_ascii account in
  let unusable := (mark_upstream_account_unusable runs config account now_s w).2 in
  let exhausted := (mark_upstream_account_exhausted runs config account new_status now_s w).2 in
  acct <> [] -> well_named (table w) ->
  forgotten acct (database unusable) /\ forgotten acct (database exhausted) /\
  forall crypto nonce at_s now_ms pick_now_ms preferred model strict c w',
    (resolve_upstream_account_credentials env strtod pow runs crypto nonce at_s now_ms pick_now_ms preferred model
       strict unusable = (Some c, w') -> account_id c <> acct) /\
    (resolve_upstream_account_credentials env strtod pow runs crypto nonce at_s now_ms pick_now_ms preferred model
       strict exhausted = (Some c, w') -> limits_hold acct (table exhausted) now_ms -> account_id c <> acct).
Proof.
  intros acct unusable exhausted Ha Hw.
  assert (trim_ascii acct = acct) as Ht by apply trim_ascii_idem.
  destruct (marked_unusable_status acct now_s (table w) Ht Ha) as [Su Nu].
  destruct (marked_exhausted_status acct new_status now_s (table w) Ht Ha) as [Se Ne].
  assert (off acct (mark_account_unusable_by_chatgpt_id runs now_s acct (table w)).2) as Ou.
  { intros r Hr Hh. cbn. by rewrite (Su r Hr Hh). }
  pose proof (mark_account_database (mark_account_unusable_by_chatgpt_id runs now_s acct)
    (mkSignal $"error" $"account_unusable" $"account marked unusable after upstream deactivation") now_s account w Ha)
    as (Eu & _).
  pose proof (mark_account_database (mark_account_exhausted_by_chatgpt_id runs now_s acct new_status)
    (mkSignal $"warn" $"account_exhausted" ($"account marked exhausted by upstream response status=" ++ new_status))
    now_s account w Ha) as (Ee & _).
  fold acct in Eu, Ee.
  split; [by apply marked_forgotten|]. split; [by apply marked_forgotten|].
  intros crypto nonce at_s now_ms pick_now_ms preferred model strict c w'. split.
  - intros E. eapply off_not_served; [| | |exact E].
    + unfold unusable, mark_upstream_account_unusable; fold acct; cbv beta. rewrite Eu. by apply clear_pin_named, Nu.
    + unfold unusable, mark_upstream_account_unusable; fold acct; cbv beta. rewrite Eu. by apply clear_pin_status.
    + unfold unusable, mark_upstream_account_unusable; fold acct; cbv beta. rewrite Eu. intros r Hr Hh.
      pose proof (clear_pin_status _ _ now_s _ Su r Hr Hh) as Es. cbn in Es. unfold block_expired. rewrite Es. done.
  - intros E Hl. eapply off_not_served; [| | |exact E].
    + unfold exhausted, mark_upstream_account_exhausted; fold acct; cbv beta. rewrite Ee. by apply clear_pin_named, Ne.
    + unfold exhausted, mark_upstream_account_exhausted; fold acct; cbv beta. rewrite Ee. by apply clear_pin_status.
    + intros r Hr Hh. by eapply not_expired_when_off.
Qed.

(** ** Recovery *)

(** When the limit that blocks an account ends. *)
Definition wakes_at (status_set : bytes) (r : AccountRow) : option Z :=
  if bool_decide (status_set = $"quota_blocked")
  then match quota_secondary_reset_at_ms r with Some at_ms => Some at_ms | None => quota_primary_reset_at_ms r end
  else quota_primary_reset_at_ms r.

Definition has_credentials (r : AccountRow) : bool :=
  match chatgpt_account_id r with Some account => negb (bool_decide (sql_trim account = [])) | None => false end &&
  match access_token_encrypted r with Some token => negb (bool_decide (token = [])) | None => false end.

Lemma usable_split r :
  usable_row r = bool_decide (status r = $"active") && below_limit (quota_primary_percent r) &&
                 below_limit (quota_secondary_percent r) && has_credentials r.
Proof. unfold usable_row, has_credentials. by rewrite !andb_assoc. Qed.

Lemma exhausted_row_recovers now_s at_s new_status r at_ms now_ms f :
  let s := normalize_exhausted_status new_status in
  usable_row r = true -> wakes_at s r = Some at_ms -> at_ms <= now_ms ->
  f = (fun r => r) \/ f = set_pinned 0 now_s ->
  let r1 := f (set_exhausted now_s s r) in
  block_expired now_ms r1 = true /\ usable_row (recover_row at_s now_ms r1) = true.
Proof.
  intros s Hu Hw Hle Hf r1. rewrite usable_split in Hu. bool_hyps. rename select (has_credentials r = true) into Hc.
  assert (passed (Some at_ms) now_ms = true) as Hp by (by apply Z.leb_le).
  assert (stays_off (status r) = false) as Hoff.
  { unfold stays_off. match goal with H : status r = $"active" |- _ => by rewrite H end. }
  assert (status r1 = s) as Es by (unfold r1; destruct Hf as [->| ->]; cbn; by rewrite Hoff).
  assert (quota_primary_reset_at_ms r1 = quota_primary_reset_at_ms r) as Ep by (unfold r1; by destruct Hf as [->| ->]).
  assert (quota_secondary_reset_at_ms r1 = quota_secondary_reset_at_ms r) as Ese by (unfold r1; by destruct Hf as [->| ->]).
  assert (has_credentials (recover_row at_s now_ms r1) = true) as Hc1 by (unfold r1; by destruct Hf as [->| ->]).
  rewrite usable_split, Hc1, andb_true_r. unfold block_expired, recover_row, recovered_primary, recovered_secondary.
  cbn [status set_quota quota_primary_percent quota_secondary_percent].
  rewrite Es, Ep, Ese. unfold wakes_at in Hw.
  destruct (bool_decide (s = $"quota_blocked")) eqn:Eq.
  - cbn [andb]. destruct (quota_secondary_reset_at_ms r) as [t2|].
    + injection Hw as ->. rewrite Hp. cbn [andb orb]. rewrite orb_true_r. split; [done|].
      by destruct (passed (quota_primary_reset_at_ms r) now_ms).
    + rewrite Hw, Hp. cbn [andb orb is_null passed]. rewrite orb_true_r. by split.
  - assert (s = $"rate_limited") as Er by (unfold s, normalize_exhausted_status in *; by case_bool_decide).
    rewrite Hw, Hp, (bool_decide_true (s = _)) by done. split; [done|]. cbn [andb below_limit].
    destruct (passed (quota_secondary_reset_at_ms r) now_ms); [done|].
    assert (quota_secondary_percent r1 = quota_secondary_percent r) as ->; [|done].
    unfold r1; destruct Hf as [->| ->]; cbn [set_pinned set_status set_exhausted set_quota quota_secondary_percent];
      by rewrite Eq.
Qed.

(** An exhausted account comes back: an account that was usable when it was
    marked exhausted, and whose blocking limit has a time at which it ends, is
    usable again for the first request at or after that time. (C40) *)
Theorem exhausted_account_recovers account new_status now_s w r at_ms :
  let acct := trim_ascii account in
  let exhausted := (mark_upstream_account_exhausted runs config account new_status now_s w).2 in
  acct <> [] -> r ∈ rows (table w) -> has_chatgpt_id acct r = true -> usable_row r = true ->
  wakes_at (normalize_exhausted_status new_status) r = Some at_ms ->
  forall at_s now_ms, Z.max 1 at_ms <= now_ms ->
    exists r', r' ∈ rows (recover_expired_account_limit_blocks runs at_s now_ms (table exhausted)).2 /\
      id r' = id r /\ chatgpt_account_id r' = chatgpt_account_id r /\ usable_row r' = true.
Proof.
  intros acct exhausted Ha Hr Hh Hu Hw at_s now_ms Hn.
  pose proof (mark_account_database (mark_account_exhausted_by_chatgpt_id runs now_s acct new_status)
    (mkSignal $"warn" $"account_exhausted" ($"account marked exhausted by upstream response status=" ++ new_status))
    now_s account w Ha) as (Ee & _). fold acct in Ee.
  set (s := normalize_exhausted_status new_status) in *.
  assert (exists f, (f = (fun r => r) \/ f = set_pinned 0 now_s) /\
    f (set_exhausted now_s s r) ∈ rows (table exhausted)) as (f & Hf & Hin).
  { unfold exhausted, mark_upstream_account_exhausted; fold acct; cbv beta. rewrite Ee.
    assert (set_exhausted now_s s r ∈ rows (mark_account_exhausted_by_chatgpt_id runs now_s acct new_status (table w)).2) as Hm.
    { unfold mark_account_exhausted_by_chatgpt_id. rewrite bool_decide_false, all_run by done. cbn [negb orb].
      assert (trim_ascii acct = acct) as -> by apply trim_ascii_idem. fold s.
      cbn [update_where snd rows]. apply list_elem_of_fmap. exists r. by rewrite Hh. }
    destruct (clear_pin_exact acct now_s (mark_account_exhausted_by_chatgpt_id runs now_s acct new_status (table w)).2)
      as (p & ->).
    destruct (p (set_exhausted now_s s r)) eqn:Ep.
    - exists (set_pinned 0 now_s). split; [by right|]. cbn [update_where snd rows]. apply list_elem_of_fmap.
      exists (set_exhausted now_s s r). by rewrite Ep.
    - exists (fun r => r). split; [by left|]. cbn [update_where snd rows]. apply list_elem_of_fmap.
      exists (set_exhausted now_s s r). by rewrite Ep. }
  destruct (exhausted_row_recovers now_s at_s new_status r at_ms now_ms f Hu Hw) as [Hb Hus]; [lia|done|].
  unfold recover_expired_account_limit_blocks. rewrite all_run.
  destruct (Z.leb_spec now_ms 0); [lia|]. cbn [negb orb snd rows update_where].
  exists (recover_row at_s now_ms (f (set_exhausted now_s s r))). split.
  - apply list_elem_of_fmap. exists (f (set_exhausted now_s s r)). split; [|exact Hin].
    cbv zeta in Hb. fold s in Hb. by rewrite Hb.
  - split_and!; [..|done]; by destruct Hf as [->| ->].
Qed.

(** ** Sticky sessions *)

Lemma find_inserted key row now keep t :
  StickySessions.session_key row = key -> StickySessions.live_row key now row = true -> keep row = true ->
  List.find (StickySessions.live_row key now) (filter (fun r => keep r = true) (StickySessions.insert_row row t)) = Some row.
Proof.
  intros Hk Hl Hp. induction t as [|r t IH]; cbn [StickySessions.insert_row].
  - rewrite filter_cons_True by done. cbn [List.find]. by rewrite Hl.
  - case_bool_decide as E.
    + rewrite filter_cons_True by done. cbn [List.find]. by rewrite Hl.
    + rewrite filter_cons. case_decide; [|exact IH]. cbn [List.find].
      assert (StickySessions.live_row key now r = false) as ->; [|exact IH].
      unfold StickySessions.live_row. rewrite bool_decide_false; [done|]. congruence.
Qed.

Lemma maybe_purge_sticky now w :
  exists keep, sticky_sessions (database (maybe_purge_expired runs now w)) =
    filter (fun r => keep r = true) (sticky_sessions (database w)) /\
    (forall r, now < StickySessions.expires_at_ms r -> keep r = true) /\
    settings_row (database (maybe_purge_expired runs now w)) = settings_row (database w).
Proof.
  unfold maybe_purge_expired.
  assert (forall l : StickySessions.table, filter (fun _ : StickySessions.ProxyStickySessionRecord => true = true) l = l) as Hall.
  { intros l. induction l as [|r l IH]; [done|]. rewrite filter_cons_True by done. by rewrite IH. }
  case_match; [exists (fun _ => true); cbn; by rewrite Hall|].
  case_match; [exists (fun _ => true); cbn; by rewrite Hall|].
  exists (fun r => negb (StickySessions.expires_at_ms r <=? now)). cbn [set_state database set_database set_sticky_sessions sticky_sessions settings_row].
  unfold StickySessions.purge_expired_proxy_sticky_sessions, StickySessions.delete_rows. rewrite all_run. cbn [negb snd].
  split; [|split; [|done]].
  - apply list_filter_iff. intros r. by destruct (_ <=? _).
  - intros r Hr. by destruct (Z.leb_spec (StickySessions.expires_at_ms r) now); [lia|].
Qed.

Lemma with_db_enabled w s :
  settings_row (database w) = Some s -> sticky_threads_setting s = true ->
  (with_db runs config w).1 = true /\ sticky_threads_enabled (state (with_db runs config w).2) = true.
Proof.
  intros Hs He. split; [apply with_db_opens|]. unfold with_db, ensure_db, get_dashboard_settings.
  rewrite !all_run, Hs. cbn [negb]. rewrite andb_false_r. cbn [andb].
  assert (forall b : bool, (if b then true else true) = true) as -> by by intros []. by cbn; rewrite He.
Qed.

(** A request whose sticky key is [key] and that names no account itself. *)
Definition asks_for `{JsonCodec} (raw : bytes) (headers : HeaderMap) (key : bytes) : Prop :=
  resolution_sticky_key (request_resolution raw headers) = key /\ account_from_headers headers = [].

(** Sticky sessions stick: with sticky threads on, once a request's key was
    persisted with an account, a request with the same key that names no
    account itself is given that account, and told so, until the time to live
    that was in force has passed, cleanups notwithstanding. *)
Theorem sticky_affinity_kept resolution raw headers now now' w settings codec :
  let w1 := persist_sticky_affinity runs config resolution now w in
  let ttl := Z.max 1 (sticky_ttl_ms (state (with_db runs config w).2)) in
  let answer := (@resolve_sticky_affinity codec runs config raw headers now' w1).1 in
  resolution_sticky_key resolution <> [] -> resolution_account_id resolution <> [] ->
  settings_row (database w) = Some settings -> sticky_threads_setting settings = true ->
  @asks_for codec raw headers (resolution_sticky_key resolution) ->
  now' < now + ttl ->
  resolution_account_id answer = resolution_account_id resolution /\ from_persistence answer = true.
Proof.
  intros w1 ttl answer Hk Ha Hs He [Hreq Hacc] Hn.
  assert (now < now + ttl) as Hnow by (unfold ttl; lia).
  set (row := StickySessions.mkStickyRecord (resolution_sticky_key resolution) (resolution_account_id resolution)
    (StickySessions.normalize_sticky_session_kind (resolution_sticky_kind resolution)) now (now + ttl)).
  assert (exists keep t, sticky_sessions (database w1) = filter (fun r => keep r = true) (StickySessions.insert_row row t) /\
    keep row = true /\ settings_row (database w1) = Some settings) as (keep & t & Et & Hkeep & Es).
  { unfold w1, persist_sticky_affinity. rewrite !bool_decide_false by done. cbn [orb].
    destruct (with_db_enabled w settings Hs He) as [Ho Hen]. pose proof (with_db_database w) as Hd.
    unfold ttl in *. destruct (with_db runs config w) as [opened w0]. cbn [fst snd] in *. rewrite Ho, Hen. cbn [negb orb].
    unfold StickySessions.upsert_proxy_sticky_session. rewrite all_run, !bool_decide_false by done. cbn [negb orb snd].
    destruct (maybe_purge_sticky now (set_database (set_sticky_sessions
      (StickySessions.insert_row row (sticky_sessions (database w0))) (database w0)) w0)) as (keep & E1 & E2 & E3).
    exists keep, (sticky_sessions (database w0)). split; [exact E1|]. split; [by apply E2|].
    etransitivity; [exact E3|]. cbn. by rewrite Hd. }
  assert (resolution_account_id (@request_resolution codec raw headers) = []) as Hra.
  { unfold request_resolution. case_match. exact Hacc. }
  unfold answer, resolve_sticky_affinity. rewrite Hra, Hreq, bool_decide_true, bool_decide_false by done. cbn [negb orb].
  destruct (with_db_enabled w1 settings Es He) as [Ho Hen]. pose proof (with_db_database w1) as Hd.
  destruct (with_db runs config w1) as [opened w2]. cbn [fst snd] in *. rewrite Ho, Hen. cbn [negb orb].
  destruct (maybe_purge_sticky now' w2) as (keep' & E1 & E2 & _). rewrite E1, Hd, Et, all_run.
  unfold StickySessions.find_proxy_sticky_session_account. rewrite bool_decide_false by done. cbn [negb orb].
  rewrite list_filter_filter.
  assert (forall l : StickySessions.table, filter (fun r => keep' r = true /\ keep r = true) l = filter (fun r => keep' r && keep r = true) l) as Hf.
  { intros l. apply list_filter_iff. intros r. by rewrite andb_true_iff. }
  rewrite Hf, (find_inserted _ row now' (fun r => keep' r && keep r)); [|done| |by rewrite E2, Hkeep].
  - cbn. by rewrite bool_decide_false.
  - unfold StickySessions.live_row. rewrite bool_decide_true by done. cbn. by apply Z.ltb_lt.
Qed.

End marking.

(** ** The pick *)

Lemma wrr_turn_best st c :
  best (wrr_turn st c) = if improves st c then c else best st.
Proof.
  unfold wrr_turn, improves. destruct c as [account|]; [|done].
  destruct (fle (usage_weight_from_account account) f_zero); [done|]. cbn [negb andb].
  by destruct (flt (best_current_weight st) _).
Qed.

Lemma wrr_position_spec (view pre : CandidateView) st best_position :
  (forall b, best st = Some b -> (pre ++ view) !! best_position = Some (Some b)) ->
  (best st = None -> best_position = 0%nat) ->
  let position := wrr_position st (length pre) best_position view in
  (forall b, best (foldl wrr_turn st view) = Some b -> (pre ++ view) !! position = Some (Some b)) /\
  (best (foldl wrr_turn st view) = None -> position = 0%nat).
Proof.
  revert pre st best_position. induction view as [|c view IH]; intros pre st bp Hb Hn; [done|].
  cbn [wrr_position foldl]. specialize (IH (pre ++ [c]) (wrr_turn st c)). rewrite <- !app_assoc in IH. cbn [app] in IH.
  rewrite length_app, Nat.add_1_r in IH. apply IH; rewrite wrr_turn_best; destruct (improves st c) eqn:E; try done.
  - intros b ->. rewrite lookup_app_r, Nat.sub_diag; done.
  - intros ->. done.
Qed.

(** What the strategies of the balancer promise about the choice of [a] at
    position [i], and what they leave in the state. *)
Definition strategy_picks (strategy : bytes) (s : StickyDbState) (candidates : list AccountCandidate)
    (i : nat) (a : AccountCandidate) (s' : StickyDbState) : Prop :=
  let view := Some <$> candidates in
  (strategy = $"round_robin" ->
     pick_round_robin view (round_robin_cursor s) = (Some a, round_robin_cursor s')) /\
  (strategy = $"weighted_round_robin" ->
     weighted_round_robin_pick view (weighted_round_robin_picker s) = (Some a, weighted_round_robin_picker s')) /\
  (strategy = $"drain_hop" -> drain_hop_account_id s' = Balancer.id a /\
     if bool_decide (drain_hop_account_id s <> [] /\ drain_hop_account_id s ∈ (Balancer.id <$> candidates))
     then s' = s
     else i = Z.to_nat (drain_hop_cursor s mod size_of candidates) /\
          drain_hop_cursor s' = (Z.of_nat i + 1) mod size_of candidates).

Lemma cursor_in_range {A} (l : list A) cursor : l <> [] -> exists a, l !! Z.to_nat (cursor mod size_of l) = Some a.
Proof.
  intros H. assert (0 < size_of l) by (destruct l; [done|rewrite size_of_cons; size_lia]).
  apply lookup_lt_is_Some. pose proof (Z.mod_pos_bound cursor (size_of l)). unfold size_of in *. lia.
Qed.

Lemma round_robin_position candidates cursor :
  candidates <> [] ->
  exists a, candidates !! Z.to_nat (cursor mod size_of candidates) = Some a /\
    (pick_round_robin (Some <$> candidates) cursor).1 = Some a.
Proof.
  intros Hne. destruct (cursor_in_range candidates cursor Hne) as [a Ha]. exists a. split; [done|].
  unfold pick_round_robin. assert (size_of (Some <$> candidates) = size_of candidates) as ->
    by (unfold size_of; by rewrite length_fmap).
  destruct (Z.eqb_spec (size_of candidates) 0) as [E|E].
  - destruct candidates; [done|]. rewrite size_of_cons in E. size_lia.
  - cbn [fst]. apply nth_lookup_Some. by rewrite list_lookup_fmap, Ha.
Qed.

Lemma weighted_position candidates weights :
  candidates <> [] ->
  let view := Some <$> candidates in
  let position := wrr_position (mkWrr ∅ f_zero neg_infinity None weights) 0 0 view in
  exists a, candidates !! position = Some a /\ (weighted_round_robin_pick view weights).1 = Some a.
Proof.
  intros Hne view position.
  destruct (wrr_position_spec view [] (mkWrr ∅ f_zero neg_infinity None weights) 0) as [Hw1 Hw2]; [done|done|].
  cbn [length app] in Hw1, Hw2. fold position in Hw1, Hw2.
  unfold weighted_round_robin_pick. destruct candidates as [|front rest]; [done|].
  unfold view in *. rewrite fmap_cons in *. set (final := foldl _ _ _) in *.
  destruct (best final) as [b|] eqn:Eb.
  - specialize (Hw1 b eq_refl). exists b. split; [|done].
    rewrite <- fmap_cons, list_lookup_fmap in Hw1. by apply fmap_Some in Hw1 as (? & ? & [= ->]).
  - rewrite Hw2 by done. by exists front.
Qed.

Lemma drain_hop_picks s candidates :
  candidates <> [] ->
  exists i a s', pick_drain_hop_candidate s candidates = (Some i, s') /\ candidates !! i = Some a /\
    strategy_picks $"drain_hop" s candidates i a s'.
Proof.
  intros Hne. unfold pick_drain_hop_candidate, strategy_picks. rewrite bool_decide_false by done.
  destruct (if bool_decide (drain_hop_account_id s = []) then None
    else fst <$> list_find (fun c => Balancer.id c = drain_hop_account_id s) candidates) as [i|] eqn:E.
  - case_bool_decide as E0; [done|]. apply fmap_Some in E as ([j a] & Ef & ->).
    apply list_find_Some in Ef as (Ha & Hid & _). exists j, a, s. split; [done|]. split; [done|].
    split; [done|]. split; [done|]. intros _. split; [done|]. rewrite bool_decide_true; [done|].
    split; [done|]. rewrite <- Hid. apply list_elem_of_fmap_2. by eapply list_elem_of_lookup_2.
  - destruct (cursor_in_range candidates (drain_hop_cursor s) Hne) as [a Ha].
    eexists _, a, _. split; [done|]. split; [done|].
    split; [done|]. split; [done|]. intros _. cbn [set_drain drain_hop_account_id drain_hop_cursor]. rewrite Ha.
    split; [done|]. rewrite bool_decide_false.
    + split; [done|]. rewrite Z2Nat.id; [done|]. apply Z.mod_pos_bound.
      destruct candidates; [done|]. rewrite size_of_cons. size_lia.
    + intros [Hn Hin]. rewrite bool_decide_false in E by done. apply fmap_None in E.
      apply list_find_None in E. apply list_elem_of_fmap in Hin as (c & Ec & Hc).
      eapply Forall_forall in E; [|exact Hc]. done.
Qed.

(** Picking a candidate is what the balancer's strategy of that name does:
    the position that is chosen holds the account that round robin or weighted
    round robin picks, and their cursor or weights move as theirs do; drain
    hop stays on its account while that is a candidate, and otherwise takes
    the one under its cursor. *)
Theorem routed_pick_refines_balancer s candidates setting :
  candidates <> [] ->
  let '(index, s') := pick_routed_candidate s candidates setting in
  exists i a, index = Some i /\ candidates !! i = Some a /\
    strategy_picks (normalize_supported_routing_strategy setting) s candidates i a s'.
Proof.
  intros Hne. unfold pick_routed_candidate, strategy_picks. cbv zeta. rewrite bool_decide_false by done.
  set (strategy := normalize_supported_routing_strategy setting).
  assert (strategy = $"round_robin" \/ strategy = $"weighted_round_robin" \/ strategy = $"drain_hop") as Hstrategy.
  { unfold strategy, normalize_supported_routing_strategy. case_bool_decide as E; [|by right; left].
    repeat (apply elem_of_cons in E as [E|E]; [auto|]). by apply elem_of_nil in E. }
  destruct Hstrategy as [->|[->| ->]].
  - rewrite bool_decide_true by done. destruct (round_robin_position candidates (round_robin_cursor s) Hne) as (a & Ha & Hp).
    cbn [set_drain round_robin_cursor]. destruct (pick_round_robin _ _) as [p cursor]. cbn [fst] in Hp. subst p.
    eexists _, a. by split_and!.
  - rewrite bool_decide_false, (bool_decide_false (_ = $"drain_hop")) by done.
    destruct (weighted_position candidates (weighted_round_robin_picker s) Hne) as (a & Ha & Hp).
    cbn [set_drain weighted_round_robin_picker]. destruct (weighted_round_robin_pick _ _) as [p weights].
    cbn [fst] in Hp. subst p. eexists _, a. by split_and!.
  - rewrite bool_decide_false, bool_decide_true by done.
    destruct (drain_hop_picks s candidates Hne) as (i & a & s' & -> & Ha & Hp). by exists i, a.
Qed.

(** ** Concrete inputs *)

Definition all_steps (s : DbStep) : bool := true.
Definition no_environment : environment := fun _ => None.
Definition no_strtod (s : bytes) : double * nat := (f_zero, 0%nat).
Definition first_argument (x y : double) : double := x.
Definition sample_config : Config := mkConfig $"store.db" 1800000 60000.

Definition sample_account (i : Z) (account : bytes) (reset_at_ms : option Z) : AccountRow :=
  mkAccountRow i (Some account) (Some $"openai") (Some account) (Some $"plus") (Some $"token") None None None $"active"
    (Some 10) (Some 20) None None reset_at_ms None None 0 i.

Definition sample_settings : DashboardSettingsRecord :=
  mkSettings true $"default" false $"round_robin" false $"acct-a, acct-b" 300 f_one f_one f_one [].

Definition sample_world : World :=
  mkWorld initial_sticky_state initial_overrides
    (mkDatabase (mkAccounts [sample_account 1 $"acct-a" (Some 5000); sample_account 2 $"acct-b" None] 3) []
       (Some sample_settings) [] []) [].

Definition sample_route (preferred : bytes) (now_ms : Z) (w : World) : option UpstreamAccountCredentials * World :=
  @resolve_upstream_account_credentials plain_sodium no_environment no_strtod first_argument all_steps
    initial_crypto_state (fun _ => []) 0 now_ms now_ms preferred $"gpt-5" false w.

Lemma sample_distinct : NoDup (id <$> rows (accounts (database sample_world))).
Proof. apply NoDup_ListNoDup. repeat constructor; cbn; lia. Qed.

Lemma sample_named : well_named (accounts (database sample_world)).
Proof.
  split; [apply sample_distinct|]. intros r a Hr. cbn in Hr.
  apply elem_of_cons in Hr as [->|Hr]; [by intros [= <-]|].
  apply elem_of_cons in Hr as [->|Hr]; [by intros [= <-]|]. by apply elem_of_nil in Hr.
Qed.

Lemma routed_account_authorized_witness :
  exists c w', sample_route [] 1000 sample_world = (Some c, w') /\
    credentials_in_lock_pool (parse_locked_routing_account_ids (locked_routing_account_ids sample_settings)) c = true.
Proof.
  destruct (sample_route [] 1000 sample_world) as [[c|] w'] eqn:E.
  - exists c, w'. split; [reflexivity|].
    exact (proj1 (@routed_account_authorized plain_sodium no_environment no_strtod first_argument all_steps
      initial_crypto_state (fun _ => []) 0 1000 1000 [] $"gpt-5" false sample_world c w' sample_distinct E) sample_settings eq_refl).
  - exfalso. assert (bool_decide ((sample_route [] 1000 sample_world).1 = None) = false) as H by (vm_compute; reflexivity).
    rewrite E in H. discriminate H.
Defined.

Definition sample_exhausted : World :=
  (mark_upstream_account_exhausted all_steps sample_config $"acct-a" $"rate_limited" 0 sample_world).2.

Lemma sample_limits_hold : limits_hold (trim_ascii $"acct-a") (accounts (database sample_exhausted)) 1000.
Proof.
  intros r Hin. apply list_elem_of_In in Hin. vm_compute in Hin.
  destruct Hin as [<-|[<-|[]]]; intros _; (split; [reflexivity|reflexivity]).
Qed.

Lemma marked_account_rests_witness :
  forgotten (trim_ascii $"acct-a") (database sample_exhausted) /\
  forall c w', sample_route $"acct-a" 1000 sample_exhausted = (Some c, w') -> account_id c <> trim_ascii $"acct-a".
Proof.
  destruct (@marked_account_rests plain_sodium no_environment no_strtod first_argument all_steps sample_config
    (fun _ => eq_refl) $"acct-a" $"rate_limited" 0 sample_world) as (_ & Hf & Hr).
  - discriminate.
  - exact sample_named.
  - fold sample_exhausted in Hf, Hr. split; [exact Hf|]. intros c w' E. unfold sample_route in E.
    exact (proj2 (Hr initial_crypto_state (fun _ => []) 0 1000 1000 $"acct-a" $"gpt-5" false c w') E sample_limits_hold).
Defined.

Lemma exhausted_account_recovers_witness :
  let exhausted := (mark_upstream_account_exhausted all_steps sample_config $"acct-a" $"rate_limited" 0 sample_world).2 in
  exists r, r ∈ rows (recover_expired_account_limit_blocks all_steps 6 6000 (accounts (database exhausted))).2 /\
    id r = 1 /\ usable_row r = true.
Proof.
  destruct (@exhausted_account_recovers all_steps sample_config (fun _ => eq_refl) $"acct-a" $"rate_limited" 0
    sample_world (sample_account 1 $"acct-a" (Some 5000)) 5000) with (at_s := 6) (now_ms := 6000)
    as (r & Hr & Hi & _ & Hu).
  - discriminate.
  - left.
  - reflexivity.
  - vm_compute. reflexivity.
  - reflexivity.
  - lia.
  - exists r. exact (conj Hr (conj Hi Hu)).
Defined.

Definition sample_resolution : StickyAffinityResolution :=
  mkResolution $"thread" kStickyKindCodexSession $"acct-b" [] false false.

Definition sample_headers : HeaderMap := [($"session_id", $"thread")].

Lemma sticky_affinity_kept_witness :
  let w := persist_sticky_affinity all_steps sample_config sample_resolution 100 sample_world in
  resolution_account_id
    (@resolve_sticky_affinity (sample_codec [] JNull) all_steps sample_config $"{}" sample_headers 100000 w).1 =
  $"acct-b".
Proof.
  destruct (@sticky_affinity_kept all_steps sample_config (fun _ => eq_refl) sample_resolution $"{}" sample_headers
    100 100000 sample_world sample_settings (sample_codec [] JNull)) as [H _].
  - discriminate.
  - discriminate.
  - reflexivity.
  - reflexivity.
  - split; [vm_compute|]; reflexivity.
  - vm_compute. reflexivity.
  - exact H.
Defined.

Lemma routed_pick_refines_balancer_witness :
  exists i, (pick_routed_candidate initial_sticky_state
    [mkCandidate $"a" true true true f_zero f_one 0 f_zero f_one f_zero f_zero f_zero] $"drain_hop").1 = Some i.
Proof.
  pose proof (routed_pick_refines_balancer initial_sticky_state
    [mkCandidate $"a" true true true f_zero f_one 0 f_zero f_one f_zero f_zero f_zero] $"drain_hop") as H.
  destruct (pick_routed_candidate _ _ _) as [index s'].
  destruct H as (i & _ & E & _); [discriminate|]. exists i. exact E.
Defined.

(** ** Settings that cannot be read *)

(** A lock pool protects only while the settings are readable: when the query
    fails there is no pool, and an account outside it is served. *)
Lemma unread_settings_open_the_pool :
  let pool := mkSettings true $"default" false $"round_robin" false $"acct-b, acct-c" 300 f_one f_one f_one [] in
  let w := mkWorld initial_sticky_state initial_overrides (mkDatabase (accounts (database sample_world)) [] (Some pool) [] []) [] in
  let route runs := account_id <$> (@resolve_upstream_account_credentials plain_sodium no_environment no_strtod first_argument runs
    initial_crypto_state (fun _ => []) 0 1000 1000 $"acct-a" $"gpt-5" false w).1 in
  route all_steps = Some $"acct-b" /\ route (fun s => match s with ReadSettings => false | _ => true end) = Some $"acct-a".
Proof. by vm_compute. Qed.
