(* ===== verification/Table.v ===== *)
(** * Table: SQLite tables with an automatic key

    What the repositories rely on of a table whose first column is
    [INTEGER PRIMARY KEY AUTOINCREMENT]: the rows in the order of their keys,
    a next key above every key ever used, the statements that insert, update,
    delete and select, and columns declared [UNIQUE].  The repositories give
    the row types and their columns. *)

From S2P Require Import Prelude.

(** A row knows its key. *)
Class Row (R : Type) := row_id : R -> Z.

Record table (R : Type) := mkTable { rows : list R; next_id : Z }.
Arguments mkTable {R} _ _.
Arguments rows {R} _.
Arguments next_id {R} _.

Definition empty_table {R} : table R := mkTable [] 1.

(** [SELECT ... WHERE ... LIMIT 1] in the order of the keys. *)
Definition select {R} (p : R -> bool) (t : table R) : option R := List.find p (rows t).

Definition select_all {R} (p : R -> bool) (t : table R) : list R := filter (fun r => p r = true) (rows t).

(** The inserted row carries [next_id]. *)
Definition insert_row {R} (r : R) (t : table R) : table R := mkTable (rows t ++ [r]) (next_id t + 1).

(** The number of changed rows, and the table. *)
Definition update_where {R} (p : R -> bool) (f : R -> R) (t : table R) : Z * table R :=
  (size_of (select_all p t), mkTable ((fun r => if p r then f r else r) <$> rows t) (next_id t)).

Definition delete_where {R} (p : R -> bool) (t : table R) : Z * table R :=
  (size_of (select_all p t), mkTable (filter (fun r => p r = false) (rows t)) (next_id t)).

(** [UNIQUE] on a column. *)
Definition unique {R A} (column : R -> A) (t : table R) : Prop := NoDup (column <$> rows t).

Definition taken {R A} `{EqDecision A} (column : R -> A) (value : A) (t : table R) : bool :=
  existsb (fun r => bool_decide (column r = value)) (rows t).

Section table.
Context {R : Type} `{Row R}.
Implicit Types (t : table R) (p : R -> bool).

Record wf t : Prop := {
  wf_unique : unique row_id t;
  wf_bounds : Forall (fun r => 0 < row_id r < next_id t) (rows t);
  wf_next : 0 < next_id t;
}.

Lemma empty_wf : wf empty_table.
Proof. split; [constructor|constructor|done]. Qed.

Lemma table_insert_wf r t : wf t -> row_id r = next_id t -> wf (insert_row r t).
Proof.
  intros [Hd Hb Hn] Hi. split; cbn [rows next_id insert_row].
  - unfold unique. cbn [rows insert_row]. rewrite fmap_app. apply NoDup_app. split; [done|].
    split; [|apply NoDup_singleton]. intros x Hx Hx'. apply list_elem_of_singleton in Hx'.
    apply list_elem_of_fmap in Hx as (r' & -> & Hr'). eapply Forall_forall in Hb; [|exact Hr']. lia.
  - apply Forall_app. split; [|apply Forall_singleton; lia]. eapply Forall_impl; [exact Hb|]. cbn. lia.
  - lia.
Qed.

Lemma table_update_wf p f t : wf t -> (forall r, row_id (f r) = row_id r) -> wf (update_where p f t).2.
Proof.
  intros [Hd Hb Hn] Hf. split; cbn [rows next_id update_where snd]; [| |done].
  - unfold unique. cbn [rows update_where snd]. rewrite <- list_fmap_compose.
    erewrite list_fmap_ext; [exact Hd|]. intros i r _. cbn. by destruct (p r).
  - apply Forall_fmap. eapply Forall_impl; [exact Hb|]. intros r Hr. cbn. destruct (p r); [|done]. by rewrite Hf.
Qed.

Lemma table_delete_wf p t : wf t -> wf (delete_where p t).2.
Proof.
  intros [Hd Hb Hn]. split; cbn [rows next_id delete_where snd]; [|by apply Forall_filter|done].
  unfold unique in *. cbn [rows delete_where snd]. eapply sublist_NoDup; [exact Hd|]. apply fmap_sublist, sublist_filter.
Qed.

End table.

(** ** Unique columns *)

Section unique.
Context {R A : Type} `{EqDecision A} (column : R -> A).
Implicit Types (t : table R) (p : R -> bool).

Lemma taken_spec value t : taken column value t = true <-> value ∈ (column <$> rows t).
Proof.
  unfold taken. rewrite existsb_exists, list_elem_of_fmap. split.
  - intros (r & Hr & E). apply bool_decide_eq_true in E. exists r. split; [done|]. by apply list_elem_of_In.
  - intros (r & -> & Hr). exists r. split; [by apply list_elem_of_In|]. by apply bool_decide_eq_true.
Qed.

Lemma insert_row_unique r t : unique column t -> taken column (column r) t = false -> unique column (insert_row r t).
Proof.
  intros Hd Ht. unfold unique. cbn [rows insert_row]. rewrite fmap_app. apply NoDup_app. split; [done|].
  split; [|apply NoDup_singleton]. intros x Hx Hx'. apply list_elem_of_singleton in Hx'. subst x.
  apply taken_spec in Hx. cbn in Hx. congruence.
Qed.

Lemma delete_where_unique p t : unique column t -> unique column (delete_where p t).2.
Proof. intros Hd. eapply sublist_NoDup; [exact Hd|]. apply fmap_sublist, sublist_filter. Qed.

Lemma update_where_unique p f t :
  unique column t -> (forall r, r ∈ rows t -> p r = true -> column (f r) = column r) ->
  unique column (update_where p f t).2.
Proof.
  intros Hd Hf. unfold unique in *. cbn [rows update_where snd]. rewrite <- list_fmap_compose.
  assert (((fun r => column (if p r then f r else r)) <$> rows t) = column <$> rows t) as E; [|by setoid_rewrite E].
  apply list_fmap_ext. intros i r Hr. destruct (p r) eqn:Ep; [|done]. apply Hf; [|done]. by eapply list_elem_of_lookup_2.
Qed.

(** The one row that a value of a unique column selects. *)
Lemma select_unique r value t :
  unique column t -> r ∈ rows t -> column r = value -> select (fun r => bool_decide (column r = value)) t = Some r.
Proof.
  unfold unique, select. intros Hd Hr <-. induction (rows t) as [|r' rs IH]; [by apply elem_of_nil in Hr|].
  cbn [List.find]. rewrite fmap_cons in Hd. apply NoDup_cons in Hd as [Hn Hd]. case_bool_decide as E.
  - apply elem_of_cons in Hr as [->|Hr]; [done|]. contradict Hn. rewrite E. by apply list_elem_of_fmap_2.
  - apply elem_of_cons in Hr as [->|Hr]; [done|]. by apply IH.
Qed.

End unique.

Lemma filter_none {A} (P : A -> Prop) `{!forall x, Decision (P x)} l : (forall x, x ∈ l -> ~ P x) -> filter P l = [].
Proof.
  induction l as [|x l IH]; intros Hn; [done|]. rewrite filter_cons_False by (apply Hn; by left). apply IH.
  intros y Hy. apply Hn. by right.
Qed.

Lemma select_some {R} (p : R -> bool) t r : select p t = Some r -> r ∈ rows t /\ p r = true.
Proof. intros E. apply List.find_some in E as [Hi Hp]. split; [by apply list_elem_of_In|done]. Qed.

Lemma select_none {R} (p : R -> bool) t r : select p t = None -> r ∈ rows t -> p r = false.
Proof. intros E Hr. eapply List.find_none in E; [exact E|]. by apply list_elem_of_In. Qed.

Lemma elem_of_update_where {R} (p : R -> bool) f t r :
  r ∈ rows (update_where p f t).2 <-> exists r', r' ∈ rows t /\ r = if p r' then f r' else r'.
Proof. cbn [rows update_where snd]. rewrite list_elem_of_fmap. split; intros (r' & E1 & E2); by exists r'. Qed.

Lemma elem_of_delete_where {R} (p : R -> bool) t r : r ∈ rows (delete_where p t).2 <-> r ∈ rows t /\ p r = false.
Proof. cbn [rows delete_where snd]. rewrite list_elem_of_filter. tauto. Qed.

Lemma elem_of_table_insert {R} (r' : R) t r : r ∈ rows (insert_row r' t) <-> r ∈ rows t \/ r = r'.
Proof. cbn [rows insert_row]. rewrite elem_of_app, list_elem_of_singleton. done. Qed.

(** Changing one row of a unique column to a value no other row has. *)
Lemma update_one_unique {R A} (column : R -> A) p f (t : table R) :
  unique column t ->
  (forall r r', r ∈ rows t -> r' ∈ rows t -> p r = true -> p r' = true -> r = r') ->
  (forall r r', r ∈ rows t -> r' ∈ rows t -> p r = true -> p r' = false -> column (f r) <> column r') ->
  unique column (update_where p f t).2.
Proof.
  unfold unique. cbn [rows update_where snd]. intros Hd Hone Hnew.
  induction (rows t) as [|r rs IH]; [constructor|]. rewrite !fmap_cons in *. apply NoDup_cons in Hd as [Hn Hd].
  apply NoDup_cons. split.
  - intros Hin. apply list_elem_of_fmap in Hin as (x & Ex & Hx). apply list_elem_of_fmap in Hx as (r' & -> & Hr').
    assert (r ∈ r :: rs) as H1 by by left. assert (r' ∈ r :: rs) as H2 by by right.
    destruct (p r) eqn:Ep, (p r') eqn:Ep'.
    + assert (r = r') as -> by (by apply Hone). apply Hn. by apply list_elem_of_fmap_2.
    + by eapply Hnew in Ex.
    + symmetry in Ex. by eapply Hnew in Ex.
    + apply Hn. rewrite Ex. by apply list_elem_of_fmap_2.
  - apply IH; [done|..]; intros r1 r2 H1 H2; [apply Hone|apply Hnew]; by right.
Qed.

Create HintDb table.
#[export] Hint Resolve empty_wf table_insert_wf table_update_wf table_delete_wf insert_row_unique delete_where_unique : table.
