(* ===== verification/ApiKeys.v ===== *)
(** * ApiKeys: API keys, their limits and their reservations

    src/native/auth/api_keys/src (key_validator.cpp, limit_enforcer.cpp,
    reservation.cpp) and the repository of
    src/native/db/repositories/src/api_key_repo_*.cpp on its four tables.
    Foreign keys are not enforced on the connections of the application, so
    deleting a key deletes nothing else.  [datetime('now')] is an argument, in
    seconds; a statement may fail, [runs] tells which do, and [Schema] stands
    for the handle with the statements that create the tables.  The library
    writes a list of strings as the array of these strings.  Key identifiers
    are ASCII, so that SQL's [substr] counts bytes. *)

From S2P Require Import Prelude Text Double JsonValue Fernet TokenStore Table.
Import Text.Ascii.

(** ** key_validator.cpp *)

Definition kApiKeyPrefix : bytes := $"sk-clb-".

Record IssuedApiKeyMaterial := mkMaterial { plain_key : bytes; material_hash : bytes; material_prefix : bytes }.

Section material.
Context {sodium : Sodium} {digest : Digest}.

Definition hash_key (plain_key : bytes) : option bytes :=
  if bool_decide (plain_key = []) then None else Text.Hex.hex_encode <$> mbedtls_sha256 plain_key.

Definition verify_key_hash (plain_key expected_hash : bytes) : bool :=
  match hash_key plain_key with Some computed => bool_decide (computed = expected_hash) | None => false end.

(** [random]: what [randombytes_buf] drew. *)
Definition issue_api_key_material (random : bytes) : option IssuedApiKeyMaterial :=
  if negb sodium_ready then None
  else
    let plain_key := kApiKeyPrefix ++ sodium_bin2base64 random in
    hash ← hash_key plain_key;
    Some (mkMaterial plain_key hash (take 15 plain_key)).

End material.

(** ** limit_enforcer.cpp *)

Definition is_supported_limit_type (limit_type : bytes) : bool :=
  bool_decide (limit_type ∈ [$"total_tokens"; $"input_tokens"; $"output_tokens"; $"cost_usd"]).

Definition window_to_period_seconds (limit_window : bytes) : option Z :=
  if bool_decide (limit_window = $"daily") then Some 86400
  else if bool_decide (limit_window = $"weekly") then Some 604800
  else if bool_decide (limit_window = $"monthly") then Some 2592000
  else None.

Definition period_seconds_to_window (period_seconds : Z) : option bytes :=
  if period_seconds =? 86400 then Some $"daily"
  else if period_seconds =? 604800 then Some $"weekly"
  else if period_seconds =? 2592000 then Some $"monthly"
  else None.

Definition kReasoningEfforts : list bytes :=
  [$"none"; $"minimal"; $"low"; $"medium"; $"high"; $"xhigh"].

Definition normalize_reasoning_effort (value : bytes) : option bytes :=
  let normalized := to_lower_ascii (trim_ascii value) in
  if bool_decide (normalized = []) then Some []
  else if bool_decide (normalized ∈ kReasoningEfforts) then Some normalized else None.

(** [std::unique]: of equal neighbours the first stays. *)
Fixpoint unique_neighbours (previous : option bytes) (l : list bytes) : list bytes :=
  match l with
  | [] => []
  | x :: l => if bool_decide (previous = Some x) then unique_neighbours previous l
              else x :: unique_neighbours (Some x) l
  end.

Definition normalize_allowed_models (models : option (list bytes)) : list bytes :=
  match models with
  | None => []
  | Some models =>
      unique_neighbours None (merge_sort bytes_le (filter (fun m => m <> []) (trim_ascii <$> models)))
  end.

Definition serialize_allowed_models `{JsonCodec} (models : list bytes) : option bytes :=
  if bool_decide (models = []) then None else write_json (JArray (JString <$> models)).

(** The texts of an array of strings. *)
Definition strings_of (l : list Json) : option (list bytes) :=
  mapM (fun j => match j with JString s => Some s | _ => None end) l.

Definition deserialize_allowed_models `{JsonCodec} (encoded : option bytes) : list bytes :=
  match encoded with
  | None | Some [] => []
  | Some text => match read_json text with Some (JArray l) => default [] (strings_of l) | _ => [] end
  end.

Definition validate_model_enforcement (enforced_model : option bytes) (allowed_models : list bytes) : bool :=
  match enforced_model with
  | None | Some [] => true
  | Some model => bool_decide (allowed_models = []) || bool_decide (model ∈ allowed_models)
  end.

(** ** reservation.cpp *)

Definition is_terminal_status (status : bytes) : bool :=
  bool_decide (status ∈ [$"settled"; $"released"; $"cancelled"; $"failed"]).

Definition is_valid_status_transition (current_status next_status : bytes) : bool :=
  if bool_decide (current_status = next_status) then true
  else if bool_decide (current_status = $"reserved") then is_terminal_status next_status
  else false.

(** ** The tables *)

Record ApiKeyRow := mkKeyRow {
  k_id : Z;
  k_key_id : bytes;
  k_key_hash : bytes;
  k_key_prefix : option bytes;
  k_name : bytes;
  k_status : bytes;
  k_is_active : Z;
  k_allowed_models : option bytes;
  k_enforced_model : option bytes;
  k_enforced_reasoning_effort : option bytes;
  k_expires_at : option bytes;
  k_last_used_at : option bytes;
  k_created_at : Z;
}.

Record LimitRow := mkLimitRow {
  l_id : Z;
  l_api_key_id : Z;
  l_limit_type : bytes;
  l_limit_value : double;
  l_period_seconds : Z;
  l_limit_window : option bytes;
  l_max_value : option double;
  l_current_value : double;
  l_model_filter : option bytes;
}.

Record ReservationRow := mkReservationRow {
  r_id : Z;
  r_api_key_id : Z;
  r_request_id : bytes;
  r_status : bytes;
  r_reserved_at : Z;
  r_settled_at : option Z;
}.

Record ItemRow := mkItemRow { i_id : Z; i_reservation_id : Z; i_metric : bytes; i_amount : double }.

#[export] Instance key_row : Row ApiKeyRow := k_id.
#[export] Instance limit_row : Row LimitRow := l_id.
#[export] Instance reservation_row : Row ReservationRow := r_id.
#[export] Instance item_row : Row ItemRow := i_id.

Record ApiKeyTables := mkTables {
  api_keys : table ApiKeyRow;
  api_key_limits : table LimitRow;
  usage_reservations : table ReservationRow;
  reservation_items : table ItemRow;
}.

Definition empty_tables : ApiKeyTables := mkTables empty_table empty_table empty_table empty_table.

Definition set_keys (k : table ApiKeyRow) (t : ApiKeyTables) : ApiKeyTables :=
  mkTables k (api_key_limits t) (usage_reservations t) (reservation_items t).
Definition set_limits (l : table LimitRow) (t : ApiKeyTables) : ApiKeyTables :=
  mkTables (api_keys t) l (usage_reservations t) (reservation_items t).
Definition set_reservations (r : table ReservationRow) (t : ApiKeyTables) : ApiKeyTables :=
  mkTables (api_keys t) (api_key_limits t) r (reservation_items t).
Definition set_items (i : table ItemRow) (t : ApiKeyTables) : ApiKeyTables :=
  mkTables (api_keys t) (api_key_limits t) (usage_reservations t) i.

Inductive KeyStatement :=
| Schema | BackfillPrefix | BackfillWindow | BackfillMax | FindKey | LoadLimits | LoadKey | InsertKey | ListKeys
| UpdateKey | DeleteKey | Begin | DeleteLimits | InsertLimit | InsertReservation | InsertItem | Commit
| LoadReservation | TransitionReservation.

(** ** api_key_repo.h *)

Record ApiKeyLimitInput := mkLimitInput {
  in_limit_type : bytes;
  in_limit_window : bytes;
  in_max_value : double;
  in_model_filter : option bytes;
  in_current_value : double;
}.

Record ApiKeyLimitRecord := mkLimitRecord {
  limit_id : Z;
  limit_api_key_id : Z;
  limit_type : bytes;
  limit_window : bytes;
  max_value : double;
  current_value : double;
  model_filter : option bytes;
}.

Record ApiKeyRecord := mkKeyRecord {
  id : Z;
  key_id : bytes;
  key_hash : bytes;
  key_prefix : bytes;
  name : bytes;
  is_active : bool;
  allowed_models : option bytes;
  enforced_model : option bytes;
  enforced_reasoning_effort : option bytes;
  expires_at : option bytes;
  created_at : Z;
  last_used_at : option bytes;
  limits : list ApiKeyLimitRecord;
}.

Record ApiKeyPatch := mkPatch {
  patch_name : option bytes;
  patch_is_active : option bool;
  patch_key_hash : option bytes;
  patch_key_prefix : option bytes;
  patch_allowed_models : option bytes;
  patch_enforced_model : option bytes;
  patch_enforced_reasoning_effort : option bytes;
  patch_expires_at : option bytes;
  patch_last_used_at : option bytes;
}.

Record ApiKeyUsageReservationItemInput := mkItemInput { in_metric : bytes; in_amount : double }.
Record ApiKeyUsageReservationItemRecord := mkItemRecord { item_id : Z; metric : bytes; amount : double }.

Record ApiKeyUsageReservationRecord := mkReservationRecord {
  reservation_id : Z;
  reservation_api_key_id : Z;
  reservation_key_id : bytes;
  request_id : bytes;
  reservation_status : bytes;
  reserved_at : Z;
  settled_at : option Z;
  reservation_items_of : list ApiKeyUsageReservationItemRecord;
}.

(** ** The repository *)

Section repo.
Context (runs : KeyStatement -> bool).

(** *** api_key_repo_schema.cpp: the columns that older versions left empty *)

Definition no_text (value : option bytes) : bool := match value with None | Some [] => true | Some _ => false end.

Definition backfill_prefix (r : ApiKeyRow) : ApiKeyRow :=
  mkKeyRow (k_id r) (k_key_id r) (k_key_hash r) (Some (take 15 (k_key_id r))) (k_name r) (k_status r) (k_is_active r)
    (k_allowed_models r) (k_enforced_model r) (k_enforced_reasoning_effort r) (k_expires_at r) (k_last_used_at r)
    (k_created_at r).

Definition backfill_window (r : LimitRow) : LimitRow :=
  mkLimitRow (l_id r) (l_api_key_id r) (l_limit_type r) (l_limit_value r) (l_period_seconds r)
    (Some (default $"weekly" (period_seconds_to_window (l_period_seconds r)))) (l_max_value r) (l_current_value r)
    (l_model_filter r).

Definition backfill_max (r : LimitRow) : LimitRow :=
  mkLimitRow (l_id r) (l_api_key_id r) (l_limit_type r) (l_limit_value r) (l_period_seconds r) (l_limit_window r)
    (Some (l_limit_value r)) (l_current_value r) (l_model_filter r).

Definition ensure_api_key_schema (t : ApiKeyTables) : bool * ApiKeyTables :=
  if negb (runs Schema) || negb (runs BackfillPrefix) then (false, t)
  else
    let t := set_keys (update_where (fun r => no_text (k_key_prefix r)) backfill_prefix (api_keys t)).2 t in
    if negb (runs BackfillWindow) then (false, t)
    else
      let t := set_limits (update_where (fun r => no_text (l_limit_window r)) backfill_window (api_key_limits t)).2 t in
      if negb (runs BackfillMax) then (false, t)
      else
        let no_max := fun r => match l_max_value r with None => true | Some _ => false end in
        (true, set_limits (update_where no_max backfill_max (api_key_limits t)).2 t).

(** *** api_key_repo_common.cpp *)

Definition find_api_key_pk (key_id : bytes) (t : ApiKeyTables) : option Z :=
  if runs FindKey then k_id <$> select (fun r => bool_decide (k_key_id r = key_id)) (api_keys t) else None.

Definition limit_record (r : LimitRow) : ApiKeyLimitRecord :=
  let window := default [] (l_limit_window r) in
  mkLimitRecord (l_id r) (l_api_key_id r) (l_limit_type r)
    (if bool_decide (window = []) then default $"weekly" (period_seconds_to_window (l_period_seconds r)) else window)
    (default (l_limit_value r) (l_max_value r)) (l_current_value r) (l_model_filter r).

Definition load_limits (api_key_pk : Z) (t : ApiKeyTables) : list ApiKeyLimitRecord :=
  if runs LoadLimits
  then limit_record <$> select_all (fun r => l_api_key_id r =? api_key_pk) (api_key_limits t) else [].

Definition key_record (t : ApiKeyTables) (r : ApiKeyRow) : ApiKeyRecord :=
  mkKeyRecord (k_id r) (k_key_id r) (k_key_hash r) (default [] (k_key_prefix r)) (k_name r)
    (negb (k_is_active r =? 0)) (k_allowed_models r) (k_enforced_model r) (k_enforced_reasoning_effort r)
    (k_expires_at r) (k_created_at r) (k_last_used_at r) (load_limits (k_id r) t).

Definition load_key_by_clause (clause : ApiKeyRow -> bool) (t : ApiKeyTables) : option ApiKeyRecord :=
  if runs LoadKey then key_record t <$> select clause (api_keys t) else None.

(** *** api_key_repo_keys.cpp *)

Definition get_api_key_by_key_id (key_id : bytes) (t : ApiKeyTables) : option ApiKeyRecord * ApiKeyTables :=
  let '(ok, t) := ensure_api_key_schema t in
  if negb ok || bool_decide (key_id = []) then (None, t)
  else (load_key_by_clause (fun r => bool_decide (k_key_id r = key_id)) t, t).

Definition get_api_key_by_hash (key_hash : bytes) (t : ApiKeyTables) : option ApiKeyRecord * ApiKeyTables :=
  let '(ok, t) := ensure_api_key_schema t in
  if negb ok || bool_decide (key_hash = []) then (None, t)
  else (load_key_by_clause (fun r => bool_decide (k_key_hash r = key_hash)) t, t).

Definition create_api_key (key_id key_hash key_prefix name : bytes)
    (allowed_models enforced_model enforced_reasoning_effort expires_at : option bytes) (now : Z) (t : ApiKeyTables) :
    option ApiKeyRecord * ApiKeyTables :=
  let '(ok, t) := ensure_api_key_schema t in
  if negb ok || bool_decide (key_id = []) || bool_decide (key_hash = []) || bool_decide (name = []) then (None, t)
  else if negb (runs InsertKey) || taken k_key_id key_id (api_keys t) || taken k_key_hash key_hash (api_keys t)
  then (None, t)
  else
    let row := mkKeyRow (next_id (api_keys t)) key_id key_hash (Some key_prefix) name $"active" 1 allowed_models
                 enforced_model enforced_reasoning_effort expires_at None now in
    get_api_key_by_key_id key_id (set_keys (insert_row row (api_keys t)) t).

(** [ORDER BY created_at DESC, id DESC]. *)
Definition newest_first (a b : ApiKeyRow) : Prop :=
  k_created_at b < k_created_at a \/ (k_created_at a = k_created_at b /\ k_id b <= k_id a).

#[local] Instance newest_first_dec a b : Decision (newest_first a b).
Proof. unfold newest_first. apply _. Defined.

Definition list_api_keys (t : ApiKeyTables) : list ApiKeyRecord * ApiKeyTables :=
  let '(ok, t) := ensure_api_key_schema t in
  if negb ok || negb (runs ListKeys) then ([], t)
  else (omap (fun r => load_key_by_clause (fun r' => bool_decide (k_key_id r' = k_key_id r)) t)
          (merge_sort newest_first (rows (api_keys t))), t).

(** [NULLIF(value, '')] *)
Definition null_if_empty (value : bytes) : option bytes := if bool_decide (value = []) then None else Some value.

(** The columns after the update: [patch.x.value_or(current.x)]. *)
Definition patched_row (current : ApiKeyRecord) (patch : ApiKeyPatch) (r : ApiKeyRow) : ApiKeyRow :=
  let text (new : option bytes) (old : option bytes) := null_if_empty (default (default [] old) new) in
  let active := default (is_active current) (patch_is_active patch) in
  mkKeyRow (k_id r) (k_key_id r) (default (key_hash current) (patch_key_hash patch))
    (Some (default (key_prefix current) (patch_key_prefix patch))) (default (name current) (patch_name patch))
    (if active then $"active" else $"inactive") (if active then 1 else 0)
    (text (patch_allowed_models patch) (allowed_models current))
    (text (patch_enforced_model patch) (enforced_model current))
    (text (patch_enforced_reasoning_effort patch) (enforced_reasoning_effort current))
    (text (patch_expires_at patch) (expires_at current)) (text (patch_last_used_at patch) (last_used_at current))
    (k_created_at r).

(** A row with another identifier that has the hash: [UNIQUE] fails. *)
Definition hash_taken_by_other (key_id key_hash : bytes) (k : table ApiKeyRow) : bool :=
  existsb (fun r => negb (bool_decide (k_key_id r = key_id)) && bool_decide (k_key_hash r = key_hash)) (rows k).

Definition update_api_key (key_id : bytes) (patch : ApiKeyPatch) (t : ApiKeyTables) :
    option ApiKeyRecord * ApiKeyTables :=
  let '(current, t) := get_api_key_by_key_id key_id t in
  match current with
  | None => (None, t)
  | Some current =>
      if negb (runs UpdateKey)
         || hash_taken_by_other key_id (default (key_hash current) (patch_key_hash patch)) (api_keys t)
      then (None, t)
      else get_api_key_by_key_id key_id
             (set_keys (update_where (fun r => bool_decide (k_key_id r = key_id)) (patched_row current patch)
                          (api_keys t)).2 t)
  end.

Definition delete_api_key (key_id : bytes) (t : ApiKeyTables) : bool * ApiKeyTables :=
  let '(ok, t) := ensure_api_key_schema t in
  if negb ok || bool_decide (key_id = []) || negb (runs DeleteKey) then (false, t)
  else
    let '(changes, k) := delete_where (fun r => bool_decide (k_key_id r = key_id)) (api_keys t) in
    (0 <? changes, set_keys k t).

Definition rotate_api_key_secret (key_id key_hash key_prefix : bytes) (t : ApiKeyTables) :
    option ApiKeyRecord * ApiKeyTables :=
  update_api_key key_id (mkPatch None None (Some key_hash) (Some key_prefix) None None None None None) t.

(** *** api_key_repo_limits.cpp *)

Definition valid_limit (limit : ApiKeyLimitInput) : bool :=
  is_supported_limit_type (in_limit_type limit)
  && match window_to_period_seconds (in_limit_window limit) with Some _ => true | None => false end
  && negb (fle (in_max_value limit) f_zero).

(** SQLite stores not-a-number as NULL, which a [NOT NULL] column refuses. *)
Definition storable (value : double) : bool := match value with S754_nan => false | _ => true end.

Definition limit_row_of (api_key_pk limit_pk : Z) (limit : ApiKeyLimitInput) : LimitRow :=
  mkLimitRow limit_pk api_key_pk (in_limit_type limit) (in_max_value limit)
    (default 604800 (window_to_period_seconds (in_limit_window limit))) (Some (in_limit_window limit))
    (Some (in_max_value limit)) (in_current_value limit) (in_model_filter limit).

Fixpoint insert_limits (api_key_pk : Z) (limits : list ApiKeyLimitInput) (l : table LimitRow) : option (table LimitRow) :=
  match limits with
  | [] => Some l
  | limit :: limits =>
      if runs InsertLimit && storable (in_max_value limit) && storable (in_current_value limit)
      then insert_limits api_key_pk limits (insert_row (limit_row_of api_key_pk (next_id l) limit) l)
      else None
  end.

Definition replace_api_key_limits (key_id : bytes) (limits : list ApiKeyLimitInput) (t : ApiKeyTables) :
    option (list ApiKeyLimitRecord) * ApiKeyTables :=
  let '(ok, t) := ensure_api_key_schema t in
  if negb ok then (None, t)
  else match find_api_key_pk key_id t with
  | None => (None, t)
  | Some api_key_pk =>
      if negb (forallb valid_limit limits) then (None, t)
      else if negb (runs Begin) || negb (runs DeleteLimits) then (None, t)
      else
        match insert_limits api_key_pk limits
                (delete_where (fun r => l_api_key_id r =? api_key_pk) (api_key_limits t)).2 with
        | Some l =>
            if negb (runs Commit) then (None, t)
            else let t := set_limits l t in (Some (load_limits api_key_pk t), t)
        | None => (None, t)
        end
  end.

(** *** api_key_repo_reservations.cpp *)

Definition item_record (r : ItemRow) : ApiKeyUsageReservationItemRecord :=
  mkItemRecord (i_id r) (i_metric r) (i_amount r).

(** The join with [api_keys] finds nothing once the key is deleted. *)
Definition get_api_key_usage_reservation (request : bytes) (t : ApiKeyTables) :
    option ApiKeyUsageReservationRecord * ApiKeyTables :=
  let '(ok, t) := ensure_api_key_schema t in
  if negb ok || bool_decide (request = []) || negb (runs LoadReservation) then (None, t)
  else
    (r ← select (fun r => bool_decide (r_request_id r = request)) (usage_reservations t);
     k ← select (fun k => k_id k =? r_api_key_id r) (api_keys t);
     Some (mkReservationRecord (r_id r) (r_api_key_id r) (k_key_id k) (r_request_id r) (r_status r) (r_reserved_at r)
             (r_settled_at r)
             (item_record <$> select_all (fun i => i_reservation_id i =? r_id r) (reservation_items t))), t).

Fixpoint insert_items (reservation_pk : Z) (items : list ApiKeyUsageReservationItemInput) (i : table ItemRow) :
    option (table ItemRow) :=
  match items with
  | [] => Some i
  | item :: items =>
      if runs InsertItem && storable (in_amount item)
      then insert_items reservation_pk items
             (insert_row (mkItemRow (next_id i) reservation_pk (in_metric item) (in_amount item)) i)
      else None
  end.

Definition create_api_key_usage_reservation (key_id request : bytes) (items : list ApiKeyUsageReservationItemInput)
    (now : Z) (t : ApiKeyTables) : option ApiKeyUsageReservationRecord * ApiKeyTables :=
  let '(ok, t) := ensure_api_key_schema t in
  if negb ok || bool_decide (request = []) then (None, t)
  else match find_api_key_pk key_id t with
  | None => (None, t)
  | Some api_key_pk =>
      if negb (runs Begin) || negb (runs InsertReservation) || taken r_request_id request (usage_reservations t)
      then (None, t)
      else
        let reservation_pk := next_id (usage_reservations t) in
        match insert_items reservation_pk items (reservation_items t) with
        | Some i =>
            if negb (runs Commit) then (None, t)
            else
              let row := mkReservationRow reservation_pk api_key_pk request $"reserved" now None in
              get_api_key_usage_reservation request
                (set_items i (set_reservations (insert_row row (usage_reservations t)) t))
        | None => (None, t)
        end
  end.

Definition set_reservation_status (next_status : bytes) (now : Z) (r : ReservationRow) : ReservationRow :=
  mkReservationRow (r_id r) (r_api_key_id r) (r_request_id r) next_status (r_reserved_at r)
    (if is_terminal_status next_status then Some now else r_settled_at r).

Definition transition_api_key_usage_reservation_status (request expected_status next_status : bytes) (now : Z)
    (t : ApiKeyTables) : bool * ApiKeyTables :=
  let '(ok, t) := ensure_api_key_schema t in
  if negb ok || bool_decide (request = []) || bool_decide (expected_status = []) || bool_decide (next_status = [])
  then (false, t)
  else if negb (is_valid_status_transition expected_status next_status) then (false, t)
  else if negb (runs TransitionReservation) then (false, t)
  else
    let '(changes, r) :=
      update_where (fun r => bool_decide (r_request_id r = request) && bool_decide (r_status r = expected_status))
        (set_reservation_status next_status now) (usage_reservations t) in
    (0 <? changes, set_reservations r t).

End repo.

Definition generate_reservation_request_id (uuid : bytes) : bytes := $"resv_" ++ uuid.

(** ** Every operation of the repository *)

Inductive op :=
| CreateKey (key_id key_hash key_prefix name : bytes) (models model effort expires_at : option bytes)
| ListKeysOp
| GetKey (key_id : bytes)
| GetKeyByHash (key_hash : bytes)
| UpdateKeyOp (key_id : bytes) (patch : ApiKeyPatch)
| DeleteKeyOp (key_id : bytes)
| ReplaceLimits (key_id : bytes) (limits : list ApiKeyLimitInput)
| Reserve (key_id request : bytes) (items : list ApiKeyUsageReservationItemInput)
| GetReservation (request : bytes)
| TransitionOp (request expected_status next_status : bytes).

Definition step (runs : KeyStatement -> bool) (now : Z) (t : ApiKeyTables) (o : op) : ApiKeyTables :=
  match o with
  | CreateKey key_id hash prefix name models model effort expires =>
      (create_api_key runs key_id hash prefix name models model effort expires now t).2
  | ListKeysOp => (list_api_keys runs t).2
  | GetKey key_id => (get_api_key_by_key_id runs key_id t).2
  | GetKeyByHash hash => (get_api_key_by_hash runs hash t).2
  | UpdateKeyOp key_id patch => (update_api_key runs key_id patch t).2
  | DeleteKeyOp key_id => (delete_api_key runs key_id t).2
  | ReplaceLimits key_id limits => (replace_api_key_limits runs key_id limits t).2
  | Reserve key_id request items => (create_api_key_usage_reservation runs key_id request items now t).2
  | GetReservation request => (get_api_key_usage_reservation runs request t).2
  | TransitionOp request expected next =>
      (transition_api_key_usage_reservation_status runs request expected next now t).2
  end.

(** Any operations, each with its clock and its failing statements. *)
Definition run_ops (t : ApiKeyTables) (ops : list ((KeyStatement -> bool) * Z * op)) : ApiKeyTables :=
  foldl (fun t '(runs, now, o) => step runs now t o) t ops.

Definition status_ok (r : ReservationRow) : Prop :=
  (r_status r = $"reserved" /\ r_settled_at r = None) \/
  (is_terminal_status (r_status r) = true /\ is_Some (r_settled_at r)).

(** What is stored of a limit: supported, with its window under both
    spellings and a positive maximum. *)
Definition limit_ok (r : LimitRow) : Prop :=
  is_supported_limit_type (l_limit_type r) = true /\
  (exists w, l_limit_window r = Some w /\ window_to_period_seconds w = Some (l_period_seconds r)) /\
  l_max_value r = Some (l_limit_value r) /\ fle (l_limit_value r) f_zero = false.

Record keys_wf (t : ApiKeyTables) : Prop := {
  keys_table : wf (api_keys t);
  keys_ids : unique k_key_id (api_keys t);
  keys_hashes : unique k_key_hash (api_keys t);
  limits_table : wf (api_key_limits t);
  limits_ok : Forall limit_ok (rows (api_key_limits t));
  reservations_table : wf (usage_reservations t);
  reservations_requests : unique r_request_id (usage_reservations t);
  reservations_status : Forall status_ok (rows (usage_reservations t));
  items_table : wf (reservation_items t);
}.

(** What an operation leaves of a reservation that exists: its key, its
    request and, once it is terminal, its status. *)
Definition follows (r r' : ReservationRow) : Prop :=
  r_id r' = r_id r /\ r_api_key_id r' = r_api_key_id r /\ r_request_id r' = r_request_id r /\
  (r_status r' = r_status r \/ (r_status r = $"reserved" /\ is_terminal_status (r_status r') = true)).

Definition reservations_follow (t t' : ApiKeyTables) : Prop :=
  forall r, r ∈ rows (usage_reservations t) -> exists r', r' ∈ rows (usage_reservations t') /\ follows r r'.

Lemma empty_tables_wf : keys_wf empty_tables.
Proof. split; cbn; eauto with table; constructor. Qed.

Lemma follows_refl r : follows r r.
Proof. unfold follows. auto. Qed.

Lemma follow_refl t t' : usage_reservations t' = usage_reservations t -> reservations_follow t t'.
Proof. intros E r Hr. exists r. rewrite E. auto using follows_refl. Qed.

Lemma terminal_not_reserved s : is_terminal_status s = true -> s <> $"reserved".
Proof. intros H ->. done. Qed.

Lemma follow_trans t1 t2 t3 : reservations_follow t1 t2 -> reservations_follow t2 t3 -> reservations_follow t1 t3.
Proof.
  intros H1 H2 r Hr. destruct (H1 r Hr) as (r' & Hr' & E1 & E2 & E3 & E4).
  destruct (H2 r' Hr') as (r'' & Hr'' & F1 & F2 & F3 & F4). exists r''. split; [done|].
  split_and!; [congruence..|]. destruct E4 as [E4|[E4 E5]], F4 as [F4|[F4 F5]].
  - left. congruence.
  - right. split; [congruence|done].
  - right. split; [done|congruence].
  - by apply terminal_not_reserved in E5.
Qed.

Lemma window_period w p : window_to_period_seconds w = Some p <-> period_seconds_to_window p = Some w.
Proof.
  unfold window_to_period_seconds, period_seconds_to_window. split; intros H.
  - repeat (case_bool_decide; [by simplify_eq|]). done.
  - repeat (case_match; bool_hyps; [by simplify_eq|]). done.
Qed.

Lemma update_where_none {R} (p : R -> bool) f (t : table R) :
  Forall (fun r => p r = false) (rows t) -> (update_where p f t).2 = t.
Proof.
  intros H. destruct t as [rs n]. unfold update_where. cbn [rows next_id snd] in *. f_equal.
  induction H as [|r rs E _ IH]; [done|]. rewrite fmap_cons, IH. by rewrite E.
Qed.

(** No stored limit needs what the schema fills in. *)
Lemma limits_not_filled (l : table LimitRow) :
  Forall limit_ok (rows l) ->
  (update_where (fun r => no_text (l_limit_window r)) backfill_window l).2 = l /\
  (update_where (fun r => match l_max_value r with None => true | Some _ => false end) backfill_max l).2 = l.
Proof.
  intros H. split; apply update_where_none; (eapply Forall_impl; [exact H|]); cbn.
  - intros r (_ & (w & -> & Hw) & _). destruct w; done.
  - intros r (_ & _ & -> & _). done.
Qed.

(** What every operation does first. *)
Lemma ensure_spec runs t :
  keys_wf t ->
  exists k, (ensure_api_key_schema runs t).2 = set_keys k t /\
    (k = api_keys t \/ k = (update_where (fun r => no_text (k_key_prefix r)) backfill_prefix (api_keys t)).2).
Proof.
  intros []. unfold ensure_api_key_schema. destruct (limits_not_filled _ limits_ok0) as [E1 E2].
  case_match; [exists (api_keys t); destruct t; cbn; auto|]. eexists. split; [|by right].
  case_match; [done|]. unfold set_keys at 3, set_limits at 1 3. cbn [api_key_limits api_keys usage_reservations reservation_items].
  case_match; cbn [snd]; unfold set_limits, set_keys; cbn [api_key_limits api_keys usage_reservations reservation_items];
    by rewrite E1, ?E2.
Qed.

Lemma ensure_wf runs t : keys_wf t -> keys_wf (ensure_api_key_schema runs t).2.
Proof.
  intros Hw. destruct (ensure_spec runs t Hw) as (k & -> & Hk). destruct Hw.
  destruct Hk as [->| ->]; split; cbn [set_keys api_keys api_key_limits usage_reservations reservation_items]; try done.
  - by apply table_update_wf.
  - by apply update_where_unique.
  - by apply update_where_unique.
Qed.

Lemma ensure_rest runs t :
  keys_wf t ->
  api_key_limits (ensure_api_key_schema runs t).2 = api_key_limits t /\
  usage_reservations (ensure_api_key_schema runs t).2 = usage_reservations t.
Proof. intros Hw. by destruct (ensure_spec runs t Hw) as (k & -> & _). Qed.

(** The keys afterwards are those before, with a prefix filled in. *)
Lemma ensure_keys runs t :
  keys_wf t ->
  (forall k, k ∈ rows (api_keys (ensure_api_key_schema runs t).2) ->
     exists r, r ∈ rows (api_keys t) /\ (k = r \/ k = backfill_prefix r)) /\
  (forall r, r ∈ rows (api_keys t) ->
     exists k, k ∈ rows (api_keys (ensure_api_key_schema runs t).2) /\ (k = r \/ k = backfill_prefix r)).
Proof.
  intros Hw. destruct (ensure_spec runs t Hw) as (k & -> & [->| ->]); cbn [set_keys api_keys]; split; eauto.
  - intros x Hx. apply elem_of_update_where in Hx as (r & Hr & ->). exists r. split; [done|]. case_match; auto.
  - intros r Hr. eexists. split; [apply elem_of_update_where; by exists r|]. cbn. case_match; auto.
Qed.

Definition good (t t' : ApiKeyTables) : Prop := keys_wf t -> keys_wf t' /\ reservations_follow t t'.

Lemma good_refl t : good t t.
Proof. intros H. split; [done|]. by apply follow_refl. Qed.

Lemma good_trans t1 t2 t3 : good t1 t2 -> good t2 t3 -> good t1 t3.
Proof.
  intros H1 H2 Hw. destruct (H1 Hw) as [Hw2 F1]. destruct (H2 Hw2) as [Hw3 F2]. eauto using follow_trans.
Qed.

Lemma ensure_good runs t : good t (ensure_api_key_schema runs t).2.
Proof. intros H. split; [by apply ensure_wf|]. by apply follow_refl, ensure_rest. Qed.

(** An operation that starts with the schema and goes on when it is there. *)
Lemma after_ensure {A} runs t (f : bool -> ApiKeyTables -> A * ApiKeyTables) :
  (forall ok t', good t' (f ok t').2) -> good t (let '(ok, t') := ensure_api_key_schema runs t in f ok t').2.
Proof.
  intros Hf. pose proof (ensure_good runs t) as H. destruct (ensure_api_key_schema runs t) as [ok t']. cbn [snd] in H.
  eapply good_trans; [exact H|apply Hf].
Qed.

Lemma get_by_key_id_good runs k t : good t (get_api_key_by_key_id runs k t).2.
Proof.
  unfold get_api_key_by_key_id.
  apply (after_ensure runs t (fun ok t => if negb ok || bool_decide (k = []) then (None, t) else
    (load_key_by_clause runs (fun r => bool_decide (k_key_id r = k)) t, t))).
  intros ok t'. case_match; apply good_refl.
Qed.

Lemma get_by_hash_good runs h t : good t (get_api_key_by_hash runs h t).2.
Proof.
  unfold get_api_key_by_hash.
  apply (after_ensure runs t (fun ok t => if negb ok || bool_decide (h = []) then (None, t) else
    (load_key_by_clause runs (fun r => bool_decide (k_key_hash r = h)) t, t))).
  intros ok t'. case_match; apply good_refl.
Qed.

Lemma get_reservation_good runs q t : good t (get_api_key_usage_reservation runs q t).2.
Proof.
  pose proof (ensure_good runs t) as H. unfold get_api_key_usage_reservation.
  destruct (ensure_api_key_schema runs t) as [ok t']. by case_match.
Qed.

Lemma set_keys_good k t :
  (keys_wf t -> wf k /\ unique k_key_id k /\ unique k_key_hash k) -> good t (set_keys k t).
Proof. intros Hk Hw. destruct (Hk Hw) as (? & ? & ?). destruct Hw. split; [by split|by apply follow_refl]. Qed.

Lemma set_limits_good l t : (keys_wf t -> wf l /\ Forall limit_ok (rows l)) -> good t (set_limits l t).
Proof. intros Hl Hw. destruct (Hl Hw). destruct Hw. split; [by split|by apply follow_refl]. Qed.

Lemma orb_false3 b c d : b || c || d = false -> b = false /\ c = false /\ d = false.
Proof. by destruct b, c, d. Qed.

Lemma create_good runs key_id hash prefix name models model effort expires now t :
  good t (create_api_key runs key_id hash prefix name models model effort expires now t).2.
Proof.
  pose proof (ensure_good runs t) as H. unfold create_api_key.
  destruct (ensure_api_key_schema runs t) as [ok t']. cbn [snd] in H.
  case_match; [done|]. destruct (negb (runs InsertKey) || _ || _) eqn:Et; [done|]. apply orb_false3 in Et as (_ & Hi & Hh).
  eapply good_trans; [exact H|]. eapply good_trans; [|apply get_by_key_id_good].
  apply set_keys_good. intros []. split_and!; [by apply table_insert_wf|by apply insert_row_unique..].
Qed.

Lemma key_id_once t r r' :
  keys_wf t -> r ∈ rows (api_keys t) -> r' ∈ rows (api_keys t) -> k_key_id r = k_key_id r' -> r = r'.
Proof.
  intros Hw Hr Hr' E. pose proof (select_unique k_key_id r (k_key_id r) _ (keys_ids _ Hw) Hr eq_refl) as E1.
  pose proof (select_unique k_key_id r' (k_key_id r) _ (keys_ids _ Hw) Hr' (eq_sym E)) as E2. congruence.
Qed.

Lemma hash_free key_id hash k r :
  hash_taken_by_other key_id hash k = false -> r ∈ rows k -> k_key_id r <> key_id -> k_key_hash r <> hash.
Proof.
  unfold hash_taken_by_other. intros E Hr Hk Hh. apply not_true_iff_false in E. apply E. apply existsb_exists.
  exists r. split; [by apply list_elem_of_In|]. by rewrite bool_decide_false, bool_decide_true.
Qed.

Lemma patched_good key_id current patch t :
  hash_taken_by_other key_id (default (key_hash current) (patch_key_hash patch)) (api_keys t) = false ->
  good t (set_keys (update_where (fun r => bool_decide (k_key_id r = key_id)) (patched_row current patch) (api_keys t)).2 t).
Proof.
  intros Hh. apply set_keys_good. intros Hw. split; [by apply table_update_wf; [apply Hw|]|].
  split; [by apply update_where_unique; [apply Hw|]|]. apply update_one_unique; [apply Hw|..].
  - intros r r' Hr Hr' E E'. apply bool_decide_eq_true in E, E'. eapply key_id_once; [done..|]. congruence.
  - intros r r' Hr Hr' _ E'. apply bool_decide_eq_false in E'. cbn [patched_row k_key_hash].
    intros F. eapply hash_free; [exact Hh|exact Hr'|exact E'|by symmetry].
Qed.

Lemma update_good runs key_id patch t : good t (update_api_key runs key_id patch t).2.
Proof.
  pose proof (get_by_key_id_good runs key_id t) as H. unfold update_api_key.
  destruct (get_api_key_by_key_id runs key_id t) as [[current|] t']; cbn [snd] in *; [|done].
  destruct (_ || _) eqn:Et; [done|]. apply orb_false_iff in Et as [_ Hh].
  eapply good_trans; [exact H|]. eapply good_trans; [|apply get_by_key_id_good]. by apply patched_good.
Qed.

Lemma delete_good runs key_id t : good t (delete_api_key runs key_id t).2.
Proof.
  pose proof (ensure_good runs t) as H. unfold delete_api_key.
  destruct (ensure_api_key_schema runs t) as [ok t']. cbn [snd] in H.
  case_match; [done|]. cbn [delete_where snd]. eapply good_trans; [exact H|].
  apply (set_keys_good (delete_where _ (api_keys t')).2). intros []. auto with table.
Qed.

Lemma limit_row_ok pk i limit :
  valid_limit limit = true -> limit_ok (limit_row_of pk i limit).
Proof.
  unfold valid_limit, limit_ok, limit_row_of. intros H. bool_hyps. cbn.
  destruct (window_to_period_seconds (in_limit_window limit)) as [p|] eqn:Ew; [|done]. cbn. eauto 10.
Qed.

Lemma insert_limits_wf runs pk limits l l' :
  forallb valid_limit limits = true -> wf l /\ Forall limit_ok (rows l) ->
  insert_limits runs pk limits l = Some l' -> wf l' /\ Forall limit_ok (rows l').
Proof.
  revert l. induction limits as [|limit limits IH]; intros l Hv [Hl Ho] E; cbn in Hv, E; [simplify_eq; done|].
  apply andb_true_iff in Hv as [Hv1 Hv2]. case_match; [|done]. eapply IH; [done| |exact E]. split; [by apply table_insert_wf|].
  apply Forall_app. split; [done|]. by apply Forall_singleton, limit_row_ok.
Qed.

Lemma replace_good runs key_id limits t : good t (replace_api_key_limits runs key_id limits t).2.
Proof.
  pose proof (ensure_good runs t) as H. unfold replace_api_key_limits.
  destruct (ensure_api_key_schema runs t) as [ok t']. cbn [snd] in H.
  repeat (case_match; try done). bool_hyps. eapply good_trans; [exact H|]. apply set_limits_good. intros Hw.
  eapply insert_limits_wf; [done| |eassumption]. split; [by apply table_delete_wf, Hw|].
  apply Forall_filter, Hw.
Qed.

Lemma insert_items_wf runs pk items i i' : wf i -> insert_items runs pk items i = Some i' -> wf i'.
Proof.
  revert i. induction items as [|item items IH]; intros i Hi E; cbn in E; [congruence|].
  case_match; [|done]. eapply IH; [|exact E]. by apply table_insert_wf.
Qed.

Lemma reserve_good runs key_id request items now t :
  good t (create_api_key_usage_reservation runs key_id request items now t).2.
Proof.
  pose proof (ensure_good runs t) as H. unfold create_api_key_usage_reservation.
  destruct (ensure_api_key_schema runs t) as [ok t']. cbn [snd] in H.
  case_match; [done|]. case_match; [|done]. destruct (negb (runs Begin) || _ || _) eqn:Et; [done|].
  apply orb_false3 in Et as (_ & _ & Hq). case_match; [|done]. case_match; [done|].
  eapply good_trans; [exact H|]. eapply good_trans; [|apply get_reservation_good].
  intros []. split; [split; cbn [set_items set_reservations api_keys api_key_limits usage_reservations reservation_items]|].
  all: try done.
  - by apply table_insert_wf.
  - by apply insert_row_unique.
  - apply Forall_app. split; [done|]. apply Forall_singleton. by left.
  - by eapply insert_items_wf.
  - intros r Hr. exists r. split; [|apply follows_refl]. cbn. apply elem_of_app. by left.
Qed.

Lemma valid_transition expected next :
  is_valid_status_transition expected next = true ->
  expected = next \/ (expected = $"reserved" /\ is_terminal_status next = true).
Proof.
  unfold is_valid_status_transition. case_bool_decide as E1; [by left|]. case_bool_decide as E2; [|done]. by right.
Qed.

Lemma moved_reservation expected next now r :
  is_valid_status_transition expected next = true -> r_status r = expected -> status_ok r ->
  status_ok (set_reservation_status next now r) /\ follows r (set_reservation_status next now r).
Proof.
  intros Hv Hs Hr. unfold status_ok, follows, set_reservation_status. cbn.
  apply valid_transition in Hv as [E|[E Ht]].
  - assert (next = r_status r) as -> by congruence. destruct Hr as [[-> Hn]|[Ht Hn]]; [cbn; auto 10|]. rewrite Ht. eauto 10.
  - assert (r_status r = $"reserved") by congruence. rewrite Ht. split; [right; eauto|]. auto 10.
Qed.

Lemma transition_good runs request expected next now t :
  good t (transition_api_key_usage_reservation_status runs request expected next now t).2.
Proof.
  pose proof (ensure_good runs t) as H. unfold transition_api_key_usage_reservation_status.
  destruct (ensure_api_key_schema runs t) as [ok t']. cbn [snd] in H.
  case_match; [done|]. destruct (is_valid_status_transition expected next) eqn:Hv; cbn [negb]; [|done].
  case_match; [done|]. eapply good_trans; [exact H|]. intros [].
  set (p := fun r => bool_decide (r_request_id r = request) && bool_decide (r_status r = expected)).
  assert (forall r, r ∈ rows (usage_reservations t') ->
    status_ok (if p r then set_reservation_status next now r else r) /\
    follows r (if p r then set_reservation_status next now r else r)) as Hall.
  { intros r Hr. eapply Forall_forall in reservations_status0; [|exact Hr].
    destruct (p r) eqn:Ep; [|split; [done|apply follows_refl]]. unfold p in Ep. bool_hyps.
    by eapply moved_reservation. }
  split; [split; cbn [set_reservations api_keys api_key_limits usage_reservations reservation_items]; try done|].
  - by apply table_update_wf.
  - by apply update_where_unique.
  - apply Forall_forall. intros r Hr. apply elem_of_update_where in Hr as (r' & Hr' & ->). by apply Hall.
  - intros r Hr. eexists. split; [apply elem_of_update_where; by exists r|]. by apply Hall.
Qed.

Lemma step_good runs now t o : good t (step runs now t o).
Proof.
  destruct o; cbn [step];
    auto using create_good, update_good, delete_good, replace_good, reserve_good, transition_good, get_by_key_id_good,
      get_by_hash_good, get_reservation_good.
  pose proof (ensure_good runs t) as H. unfold list_api_keys. destruct (ensure_api_key_schema runs t). by case_match.
Qed.

Lemma run_good ops t : good t (run_ops t ops).
Proof.
  unfold run_ops. revert t. induction ops as [|[[runs now] o] ops IH]; intros t; [apply good_refl|].
  cbn [foldl]. eapply good_trans; [apply step_good|apply IH].
Qed.

Lemma run_wf ops : keys_wf (run_ops empty_tables ops).
Proof. apply run_good, empty_tables_wf. Qed.

(** ** Reservations *)

Lemma request_once t r r' :
  keys_wf t -> r ∈ rows (usage_reservations t) -> r' ∈ rows (usage_reservations t) ->
  r_request_id r = r_request_id r' -> r = r'.
Proof.
  intros Hw Hr Hr' E.
  pose proof (select_unique r_request_id r (r_request_id r) _ (reservations_requests _ Hw) Hr eq_refl) as E1.
  pose proof (select_unique r_request_id r' (r_request_id r) _ (reservations_requests _ Hw) Hr' (eq_sym E)) as E2.
  congruence.
Qed.

(** A transition that reports success moved the reservation of the request. *)
Lemma transition_moves runs request expected next now t :
  keys_wf t ->
  let '(done_, t') := transition_api_key_usage_reservation_status runs request expected next now t in
  done_ = true ->
  exists r, r ∈ rows (usage_reservations t) /\ r_request_id r = request /\ r_status r = expected /\
    is_valid_status_transition expected next = true /\
    set_reservation_status next now r ∈ rows (usage_reservations t').
Proof.
  intros Hw. unfold transition_api_key_usage_reservation_status.
  pose proof (ensure_rest runs t Hw) as [_ E]. destruct (ensure_api_key_schema runs t) as [ok t']. cbn [snd] in E.
  destruct (negb ok || _ || _ || _); [done|]. destruct (is_valid_status_transition expected next); cbn [negb]; [|done].
  destruct (runs TransitionReservation); cbn [negb]; [|done]. set (p := fun r => bool_decide (r_request_id r = request) && bool_decide (r_status r = expected)).
  cbn [update_where]. intros Hd. bool_hyps. unfold select_all in Hd.
  destruct (filter (fun r => p r = true) (rows (usage_reservations t'))) as [|r l] eqn:Ef; [done|].
  assert (r ∈ filter (fun r => p r = true) (rows (usage_reservations t'))) as Hr by (rewrite Ef; by left).
  apply list_elem_of_filter in Hr as [Hp Hr]. pose proof Hp as Hp'. unfold p in Hp. bool_hyps.
  exists r. rewrite <- E. split_and!; try done. cbn [set_reservations usage_reservations rows].
  apply list_elem_of_fmap. exists r. by rewrite Hp'.
Qed.

(** What becomes of a reservation that is terminal: nothing, whatever runs. *)
Lemma terminal_stays ops t r :
  keys_wf t -> r ∈ rows (usage_reservations t) -> is_terminal_status (r_status r) = true ->
  exists r', r' ∈ rows (usage_reservations (run_ops t ops)) /\ r_request_id r' = r_request_id r /\ r_status r' = r_status r.
Proof.
  intros Hw Hr Ht. destruct (run_good ops t Hw) as [_ Hf]. destruct (Hf r Hr) as (r' & Hr' & _ & _ & Eq & [Es|[Es _]]).
  - by exists r'.
  - by apply terminal_not_reserved in Ht.
Qed.

(** *** The time of an ending *)

(** Only transitions touch the reservations that are there. *)
Definition stays (t t' : ApiKeyTables) : Prop := rows (usage_reservations t) ⊆ rows (usage_reservations t').

Lemma stays_eq t t' : usage_reservations t' = usage_reservations t -> stays t t'.
Proof. intros E. unfold stays. by rewrite E. Qed.

Lemma ensure_stays runs t : usage_reservations (ensure_api_key_schema runs t).2 = usage_reservations t.
Proof. unfold ensure_api_key_schema. by repeat case_match. Qed.

Lemma get_stays runs key_id t : usage_reservations (get_api_key_by_key_id runs key_id t).2 = usage_reservations t.
Proof.
  unfold get_api_key_by_key_id. pose proof (ensure_stays runs t) as E. destruct (ensure_api_key_schema runs t). by case_match.
Qed.

Lemma reservation_stays runs request t :
  usage_reservations (get_api_key_usage_reservation runs request t).2 = usage_reservations t.
Proof.
  unfold get_api_key_usage_reservation. pose proof (ensure_stays runs t) as E. destruct (ensure_api_key_schema runs t). by case_match.
Qed.

Lemma reserve_stays runs key_id request items now t : stays t (create_api_key_usage_reservation runs key_id request items now t).2.
Proof.
  pose proof (ensure_stays runs t) as E. unfold create_api_key_usage_reservation. destruct (ensure_api_key_schema runs t) as [ok t'].
  cbn [snd] in E. repeat case_match; try (by apply stays_eq). unfold stays. rewrite reservation_stays. cbn. rewrite E. set_solver.
Qed.

Lemma update_stays runs key_id patch t : usage_reservations (update_api_key runs key_id patch t).2 = usage_reservations t.
Proof.
  unfold update_api_key. pose proof (get_stays runs key_id t) as G. destruct (get_api_key_by_key_id runs key_id t) as [[c|] t']; [|done].
  case_match; [done|]. by rewrite get_stays.
Qed.

Lemma create_stays runs key_id hash prefix name models model effort expires now t :
  usage_reservations (create_api_key runs key_id hash prefix name models model effort expires now t).2 = usage_reservations t.
Proof.
  pose proof (ensure_stays runs t) as E. unfold create_api_key. destruct (ensure_api_key_schema runs t) as [ok t'].
  case_match; [done|]. case_match; [done|]. by rewrite get_stays.
Qed.

Lemma step_stays runs now t o :
  (forall request expected next, o <> TransitionOp request expected next) -> stays t (step runs now t o).
Proof.
  intros Ho. pose proof (ensure_stays runs t) as E.
  destruct o; cbn [step]; [apply stays_eq, create_stays| |apply stays_eq, get_stays| |apply stays_eq, update_stays| | |apply reserve_stays|
    apply stays_eq, reservation_stays|by destruct (Ho request expected_status next_status)]; apply stays_eq;
    [unfold list_api_keys|unfold get_api_key_by_hash|unfold delete_api_key|unfold replace_api_key_limits];
    destruct (ensure_api_key_schema runs t); by repeat case_match.
Qed.

(** The times at which the ending [next] of [request] was repeated. *)
Definition repetitions (request next : bytes) (ops : list ((KeyStatement -> bool) * Z * op)) : list Z :=
  omap (fun '(_, now, o) =>
    match o with
    | TransitionOp q expected next' => if bool_decide (q = request /\ expected = next /\ next' = next) then Some now else None
    | _ => None
    end) ops.

Definition ended_at (request next : bytes) (times : list Z) (t : ApiKeyTables) : Prop :=
  exists r at_, r ∈ rows (usage_reservations t) /\ r_request_id r = request /\ r_status r = next /\
    r_settled_at r = Some at_ /\ at_ ∈ times.

Lemma step_ended runs now t o request next times :
  keys_wf t -> is_terminal_status next = true -> ended_at request next times t ->
  ended_at request next (times ++ repetitions request next [(runs, now, o)]) (step runs now t o).
Proof.
  intros Hw Ht (r & at_ & Hr & Hq & Hs & Ha & Hin).
  assert (r ∈ rows (usage_reservations (step runs now t o)) -> ended_at request next (times ++ repetitions request next [(runs, now, o)])
    (step runs now t o)) as Hsame by (intros H; exists r, at_; split_and!; try done; apply elem_of_app; by left).
  destruct o; try (apply Hsame; by eapply step_stays). cbn [step] in *.
  pose proof (ensure_stays runs t) as E. unfold transition_api_key_usage_reservation_status in *.
  destruct (ensure_api_key_schema runs t) as [ok t']. cbn [snd] in E. rewrite <- E in Hr.
  case_match; [by apply Hsame|]. destruct (is_valid_status_transition expected_status next_status) eqn:Hv; cbn [negb] in *; [|by apply Hsame].
  case_match; [by apply Hsame|]. cbn [update_where snd] in *.
  set (p := fun r => bool_decide (r_request_id r = request0) && bool_decide (r_status r = expected_status)) in *.
  assert ((if p r then set_reservation_status next_status now r else r) ∈
    rows (usage_reservations (set_reservations (mkTable ((fun r => if p r then set_reservation_status next_status now r else r) <$> rows (usage_reservations t'))
      (next_id (usage_reservations t'))) t'))) as H'.
  { cbn [set_reservations usage_reservations rows]. apply list_elem_of_fmap. by exists r. }
  destruct (p r) eqn:Ep; [|by apply Hsame]. unfold p in Ep. bool_hyps.
  apply valid_transition in Hv as [Hv|[Hv _]].
  - exists (set_reservation_status next_status now r), now. cbn [set_reservation_status r_request_id r_status r_settled_at].
    assert (next_status = next) as -> by congruence. rewrite Ht. split_and!; try done. apply elem_of_app. right.
    unfold repetitions. cbn. rewrite bool_decide_true by (split_and!; congruence). left.
  - exfalso. apply terminal_not_reserved in Ht. congruence.
Qed.

Lemma run_ended ops t request next times :
  keys_wf t -> is_terminal_status next = true -> ended_at request next times t ->
  ended_at request next (times ++ repetitions request next ops) (run_ops t ops).
Proof.
  intros Hw Ht. unfold run_ops. revert t times Hw. induction ops as [|[[runs now] o] ops IH]; intros t times Hw H.
  { by rewrite app_nil_r. }
  cbn [foldl]. replace (times ++ repetitions request next ((runs, now, o) :: ops))
    with ((times ++ repetitions request next [(runs, now, o)]) ++ repetitions request next ops).
  - apply IH; [by apply step_good|]. by apply step_ended.
  - rewrite <- app_assoc. f_equal. unfold repetitions. cbn. destruct o; try done. by case_bool_decide.
Qed.

(** A reservation is settled once: after the transition that ends it, whatever
    else is done, with whatever failures, it is there with the same ending and
    the time it ended, or that of a transition that repeated the ending; no
    other transition of its request succeeds, and the request cannot be
    reserved again. (C28) *)
Theorem reservation_settles_once ops runs request next now later :
  let t := run_ops empty_tables ops in
  let '(done_, t') := transition_api_key_usage_reservation_status runs request $"reserved" next now t in
  done_ = true -> next <> $"reserved" ->
  let after := run_ops t' later in
  ended_at request next (now :: repetitions request next later) after /\
  forall runs' now',
    (forall expected next', (transition_api_key_usage_reservation_status runs' request expected next' now' after).1 = true ->
       expected = next /\ next' = next) /\
    (forall key_id items, (create_api_key_usage_reservation runs' key_id request items now' after).1 = None).
Proof.
  intros t. pose proof (run_wf ops : keys_wf t) as Hw.
  pose proof (transition_moves runs request $"reserved" next now t Hw) as Hm.
  pose proof (proj1 (transition_good runs request $"reserved" next now t Hw)) as Hw'.
  destruct (transition_api_key_usage_reservation_status _ _ _ _ _ t) as [done_ t']. cbn [snd] in Hw'. intros Hd Hn after.
  destruct (Hm Hd) as (r & Hr & Hq & Hs & Hv & Hr').
  apply valid_transition in Hv as [Hv|[_ Ht]]; [congruence|].
  assert (ended_at request next [now] t') as H0.
  { exists (set_reservation_status next now r), now. cbn [set_reservation_status r_request_id r_status r_settled_at]. rewrite Ht.
    split_and!; try done. left. }
  pose proof (run_ended later t' request next [now] Hw' Ht H0) as H. fold after in H. split; [exact H|].
  destruct H as (r' & at_ & Hin & Hq' & Hs' & _). pose proof (proj1 (run_good later t' Hw') : keys_wf after) as Hwa. intros runs' now'. split.
  - intros expected next' Hd'. pose proof (transition_moves runs' request expected next' now' after Hwa) as Hm'.
    destruct (transition_api_key_usage_reservation_status _ _ _ _ _ after) as [d t'']. destruct (Hm' Hd') as (r'' & Hin'' & Hq'' & Hs'' & Hv' & _).
    assert (r'' = r') as -> by (eapply request_once; [done..|congruence]).
    assert (expected = next) as -> by congruence. split; [done|]. apply valid_transition in Hv' as [Hv'|[Hv' _]]; [done|].
    apply terminal_not_reserved in Ht. congruence.
  - intros key_id items. unfold create_api_key_usage_reservation.
    destruct (ensure_rest runs' after Hwa) as [_ E]. destruct (ensure_api_key_schema runs' after) as [ok t'']. cbn [snd] in E.
    case_match; [done|]. case_match; [|done].
    assert (taken r_request_id request (usage_reservations t'') = true) as ->.
    { apply taken_spec. rewrite E. apply list_elem_of_fmap. exists r'. split; [congruence|done]. }
    by rewrite !orb_true_r.
Qed.

(** ** Limits *)

Definition limit_input_of (r : LimitRow) : bytes * option bytes * option double * double * option bytes :=
  (l_limit_type r, l_limit_window r, l_max_value r, l_current_value r, l_model_filter r).

Definition input_fields (limit : ApiKeyLimitInput) : bytes * option bytes * option double * double * option bytes :=
  (in_limit_type limit, Some (in_limit_window limit), Some (in_max_value limit), in_current_value limit, in_model_filter limit).

Definition of_key (api_key_pk : Z) (t : ApiKeyTables) : list LimitRow :=
  select_all (fun r => l_api_key_id r =? api_key_pk) (api_key_limits t).

Lemma insert_limits_rows runs pk limits l l' :
  insert_limits runs pk limits l = Some l' ->
  exists new, rows l' = rows l ++ new /\ Forall (fun r => l_api_key_id r = pk) new /\
    (limit_input_of <$> new) = (input_fields <$> limits).
Proof.
  revert l. induction limits as [|limit limits IH]; intros l E; cbn in E.
  - simplify_eq. exists []. by rewrite app_nil_r.
  - case_match; [|done]. destruct (IH _ E) as (new & Er & Hp & Hf). cbn [insert_row rows] in Er.
    exists (limit_row_of pk (next_id l) limit :: new). rewrite Er, <- app_assoc. split; [done|].
    split; [by constructor|]. csimpl. by rewrite Hf.
Qed.

(** Replacing the limits of a key is all or nothing, and touches no other
    key: on success the key has exactly the given limits, in their order, all
    of them supported and positive; otherwise the limits are as they were. *)
Theorem limits_replaced_atomically ops runs key_id limits :
  let t := run_ops empty_tables ops in
  let '(result, t') := replace_api_key_limits runs key_id limits t in
  match result with
  | None => api_key_limits t' = api_key_limits t
  | Some _ =>
      exists r, r ∈ rows (api_keys t') /\ k_key_id r = key_id /\ forallb valid_limit limits = true /\
        (limit_input_of <$> of_key (k_id r) t') = (input_fields <$> limits) /\
        (forall pk, pk <> k_id r -> of_key pk t' = of_key pk t)
  end.
Proof.
  intros t. pose proof (run_wf ops : keys_wf t) as Hw. unfold replace_api_key_limits.
  destruct (ensure_rest runs t Hw) as [El _]. destruct (ensure_api_key_schema runs t) as [ok t']. cbn [snd] in El.
  destruct ok; cbn [negb]; [|done]. unfold find_api_key_pk. destruct (runs FindKey); [|done].
  destruct (select _ (api_keys t')) as [r|] eqn:Es; cbn [fmap option_fmap option_map]; [|done].
  apply select_some in Es as [Hr Hk]. bool_hyps. destruct (forallb valid_limit limits) eqn:Hv; cbn [negb]; [|done].
  destruct (negb (runs Begin) || _); [done|]. destruct (insert_limits _ _ _ _) as [l|] eqn:Ei; [|done].
  destruct (runs Commit); cbn [negb]; [|done].
  apply insert_limits_rows in Ei as (new & Er & Hp & Hf). cbn [delete_where snd rows] in Er.
  assert (forall pk, of_key pk (set_limits l t') = (if pk =? k_id r then [] else of_key pk t) ++
    (if pk =? k_id r then new else [])) as Hof.
  { intros pk. unfold of_key, select_all. cbn [set_limits api_key_limits]. rewrite Er, filter_app, El. f_equal.
    - rewrite list_filter_filter. destruct (Z.eqb_spec pk (k_id r)) as [->|Hne].
      + apply filter_none. intros x _ [? ?]. congruence.
      + apply list_filter_iff. intros x. destruct (Z.eqb_spec (l_api_key_id x) pk) as [->|].
        * by rewrite (proj2 (Z.eqb_neq pk (k_id r))).
        * split; [by intros [? ?]|done].
    - clear - Hp. induction Hp as [|x new Hx _ IH]; [by destruct (_ =? _)|]. rewrite filter_cons, IH.
      rewrite Hx, (Z.eqb_sym (k_id r)). by destruct (pk =? k_id r). }
  exists r. split_and!; [done|done|done|..].
  - by rewrite Hof, Z.eqb_refl.
  - intros pk Hpk. rewrite Hof, (proj2 (Z.eqb_neq _ _)) by done. by rewrite app_nil_r.
Qed.

(** ** Concrete inputs *)

Definition all_statements (s : KeyStatement) : bool := true.

Definition sample_ops : list ((KeyStatement -> bool) * Z * op) :=
  [(all_statements, 1, CreateKey $"k1" $"hash-1" $"sk-clb-1" $"first" None (Some $"m") None None);
   (all_statements, 2, CreateKey $"k2" $"hash-2" $"sk-clb-2" $"second" None None None None);
   (all_statements, 3, Reserve $"k1" $"req" [])].

Lemma reservation_settles_once_witness :
  let t' := (transition_api_key_usage_reservation_status all_statements $"req" $"reserved" $"settled" 4
               (run_ops empty_tables sample_ops)).2 in
  ended_at $"req" $"settled" [4; 6] (run_ops t' [(all_statements, 6, TransitionOp $"req" $"settled" $"settled")]).
Proof.
  pose proof (reservation_settles_once sample_ops all_statements $"req" $"settled" 4
    [(all_statements, 6, TransitionOp $"req" $"settled" $"settled")]) as H. cbv zeta in H.
  destruct (transition_api_key_usage_reservation_status all_statements $"req" $"reserved" $"settled" 4
    (run_ops empty_tables sample_ops)) as [done_ t'] eqn:E.
  assert (done_ = true) as Hd by (apply (f_equal fst) in E; vm_compute in E; symmetry; exact E).
  destruct (H Hd) as [H1 _]; [discriminate|]. exact H1.
Defined.

(** Repeating the ending succeeds, and rewrites the time of the first. *)
Lemma repeated_ending_rewrites_time :
  let first := transition_api_key_usage_reservation_status all_statements $"req" $"reserved" $"settled" 4 (run_ops empty_tables sample_ops) in
  let second := transition_api_key_usage_reservation_status all_statements $"req" $"settled" $"settled" 6 first.2 in
  (first.1, second.1) = (true, true) /\
  r_settled_at <$> rows (usage_reservations first.2) = [Some 4] /\ r_settled_at <$> rows (usage_reservations second.2) = [Some 6].
Proof. by vm_compute. Qed.

