(* ===== verification/ApiKeyFilter.v ===== *)
(** * ApiKeyFilter: who may use the proxy, and for what

    src/native/server/middleware/src/api_key_filter.cpp and
    src/native/server/src/proxy_usage_reservation.cpp over the repository of
    [ApiKeys].  [get_time] is [std::get_time] followed by [timegm], with the
    format that has a blank between date and time or the one with a [T];
    the settings come as the one field that is read here, the answer of
    [usage::validate_usage_identity], an HTTP request, as an argument. *)

From S2P Require Import Prelude Text Double JsonValue Except Fernet TokenStore Headers ErrorPolicy Utf8.
From S2P Require Import PayloadNormalizer Accounts Table ApiKeys.
Import Text.Ascii.

Record AuthDecision := mkDecision { allow : bool; decision_status : Z; decision_body : bytes }.

Definition allow_request : AuthDecision := mkDecision true 200 [].

Record ApiKeyModelPolicy := mkPolicy {
  policy_key_id : option bytes;
  policy_allowed_models : list bytes;
  policy_enforced_model : option bytes;
  policy_enforced_reasoning_effort : option bytes;
}.

Definition no_policy : ApiKeyModelPolicy := mkPolicy None [] None None.

Record ApiKeyRequestPolicyDecision := mkPolicyDecision {
  policy_allow : bool;
  policy_status : Z;
  policy_error_code : bytes;
  policy_error_message : bytes;
  policy_error_type : bytes;
  policy_error_body : bytes;
}.

Definition policy_allowed : ApiKeyRequestPolicyDecision := mkPolicyDecision true 200 [] [] [] [].

(** usage_fetcher.h *)
Record UsageValidationResult := mkValidation { success : bool; status_code : Z; validation_message : bytes }.

Definition deny_auth (status : Z) (message : bytes) : AuthDecision :=
  mkDecision false status (build_error_envelope $"invalid_api_key" message $"authentication_error" []).

Definition deny_server (code message : bytes) : AuthDecision :=
  mkDecision false 500 (build_error_envelope code message $"server_error" []).

Definition find_header_case_insensitive (headers : HeaderMap) (key : bytes) : option bytes :=
  snd <$> List.find (fun kv => equals_case_insensitive kv.1 key) headers.

Definition extract_bearer_token (authorization : option bytes) : option bytes :=
  match authorization with
  | None => None
  | Some authorization =>
      let value := trim_ascii authorization in
      if size_of value <? 7 then None
      else if negb (starts_with (to_lower_ascii value) $"bearer ") then None
      else
        let token := trim_ascii (drop 7 value) in
        if bool_decide (token = []) then None else Some token
  end.

(** [pop_back] of a final [Z]. *)
Definition without_zulu (value : bytes) : bytes :=
  match rev value with ch :: rest => if bool_decide (ch = Byte.x5a) then rev rest else value | [] => value end.

Definition is_proxy_api_key_protected_path (path : bytes) : bool :=
  if bool_decide (path = $"/v1") || starts_with path $"/v1/" then true
  else if bool_decide (path = $"/backend-api/codex") || starts_with path $"/backend-api/codex/" then true
  else bool_decide (path = $"/backend-api/transcribe").

Definition is_codex_usage_identity_path (path : bytes) : bool :=
  bool_decide (path = $"/api/codex/usage") || bool_decide (path = $"/api/codex/usage/").

Section filter.
Context {sodium : Sodium} {digest : Digest} {codec : JsonCodec}.
Context (get_time : bool -> bytes -> option Z) (runs : KeyStatement -> bool).

Definition parse_utc_timestamp (value : bytes) : option Z :=
  if bool_decide (value = []) then None
  else
    let value := without_zulu (trim_ascii value) in
    match get_time false value with
    | Some seconds => Some seconds
    | None => get_time true value
    end.

(** [now]: [std::time(nullptr)]. *)
Definition is_api_key_expired (expires_at : option bytes) (now : Z) : bool :=
  match expires_at with
  | None | Some [] => false
  | Some text => match parse_utc_timestamp text with Some expiry => expiry <=? now | None => false end
  end.

(** [opened]: whether there is a database; [api_key_auth]: the setting, when
    the settings can be read.  The record is what [*api_key_record] is set
    to. *)
Definition validate_proxy_api_key_impl (opened : bool) (api_key_auth : option bool) (headers : HeaderMap) (now : Z)
    (t : ApiKeyTables) : AuthDecision * option ApiKeyRecord * ApiKeyTables :=
  if negb opened then (deny_server $"db_unavailable" $"Database unavailable", None, t)
  else match api_key_auth with
  | None => (deny_server $"settings_unavailable" $"Failed to load settings", None, t)
  | Some false => (allow_request, None, t)
  | Some true =>
      match extract_bearer_token (find_header_case_insensitive headers $"authorization") with
      | None => (deny_auth 401 $"Missing API key in Authorization header", None, t)
      | Some token =>
          match hash_key token with
          | None => (deny_auth 401 $"Invalid API key", None, t)
          | Some key_hash =>
              let '(key_record, t) := get_api_key_by_hash runs key_hash t in
              match key_record with
              | None => (deny_auth 401 $"Invalid API key", None, t)
              | Some record =>
                  if negb (is_active record) then (deny_auth 401 $"Invalid API key", None, t)
                  else if is_api_key_expired (expires_at record) now
                  then (deny_auth 401 $"API key has expired", None, t)
                  else (allow_request, Some record, t)
              end
          end
      end
  end.

Definition validate_proxy_api_key_request (opened : bool) (api_key_auth : option bool) (path : bytes)
    (headers : HeaderMap) (now : Z) (t : ApiKeyTables) : AuthDecision * ApiKeyTables :=
  if negb (is_proxy_api_key_protected_path path) then (allow_request, t)
  else let '(decision, _, t) := validate_proxy_api_key_impl opened api_key_auth headers now t in (decision, t).

Definition present (value : option bytes) : option bytes :=
  match value with Some (_ :: _) => value | _ => None end.

Definition resolve_api_key_model_policy (opened : bool) (api_key_auth : option bool) (headers : HeaderMap) (now : Z)
    (t : ApiKeyTables) : ApiKeyModelPolicy * ApiKeyTables :=
  let '(decision, key_record, t) := validate_proxy_api_key_impl opened api_key_auth headers now t in
  match (if allow decision then key_record else None) with
  | None => (no_policy, t)
  | Some record =>
      (mkPolicy (Some (key_id record)) (deserialize_allowed_models (allowed_models record))
         (present (enforced_model record)) (present (enforced_reasoning_effort record)), t)
  end.

(** *** The body of a request under a policy *)

Definition policy_has_constraints (policy : ApiKeyModelPolicy) : bool :=
  negb (bool_decide (policy_allowed_models policy = [])) ||
  match present (policy_enforced_model policy) with Some _ => true | None => false end ||
  match present (policy_enforced_reasoning_effort policy) with Some _ => true | None => false end.

Definition effective_model (policy : ApiKeyModelPolicy) (object : JsonObject) : option bytes :=
  match present (policy_enforced_model policy) with
  | Some model => Some model
  | None => string_at object $"model"
  end.

Definition model_denied (policy : ApiKeyModelPolicy) (object : JsonObject) : option bytes :=
  match present (effective_model policy object) with
  | Some model =>
      if negb (bool_decide (policy_allowed_models policy = []))
         && negb (bool_decide (model ∈ policy_allowed_models policy))
      then Some model else None
  | None => None
  end.

Definition constrained (policy : ApiKeyModelPolicy) (object : JsonObject) : JsonObject :=
  let object := match present (effective_model policy object) with
                | Some model => <[$"model" := JString model]> object
                | None => object
                end in
  match present (policy_enforced_reasoning_effort policy) with
  | Some effort =>
      let reasoning := default ∅ (object_at object $"reasoning") in
      <[$"reasoning" := JObject (<[$"effort" := JString effort]> reasoning)]> object
  | None => object
  end.

(** The decision, and [request_body] afterwards. *)
Definition enforce_api_key_request_policy (policy : ApiKeyModelPolicy) (request_body : bytes) :
    ApiKeyRequestPolicyDecision * bytes :=
  if negb (policy_has_constraints policy) || bool_decide (request_body = []) then (policy_allowed, request_body)
  else match read_json request_body with
  | Some (JObject object) =>
      match model_denied policy object with
      | Some model =>
          let message := $"This API key does not have access to model '" ++ model ++ $"'" in
          (mkPolicyDecision false 403 $"model_not_allowed" message $"permission_error"
             (build_error_envelope $"model_not_allowed" message $"permission_error" []), request_body)
      | None => (policy_allowed, default request_body (write_json (JObject (constrained policy object))))
      end
  | _ => (policy_allowed, request_body)
  end.

(** *** The usage endpoint of accounts *)

(** [query_runs]: whether the schema and the query on the accounts run. *)
Definition exists_active_chatgpt_account (query_runs : bool) (account_id : bytes) (a : accounts_table) : bool :=
  if negb query_runs || bool_decide (account_id = []) then false
  else existsb (fun r => has_chatgpt_id account_id r && bool_decide (status r = $"active")) (Accounts.rows a).

Definition validate_codex_usage_identity_request (opened query_runs : bool) (path : bytes) (headers : HeaderMap)
    (validate_usage_identity : bytes -> bytes -> UsageValidationResult) (a : accounts_table) : AuthDecision :=
  if negb (is_codex_usage_identity_path path) then allow_request
  else if negb opened then deny_server $"db_unavailable" $"Database unavailable"
  else match extract_bearer_token (find_header_case_insensitive headers $"authorization") with
  | None => deny_auth 401 $"Missing ChatGPT token in Authorization header"
  | Some token =>
      let account_id := match find_header_case_insensitive headers $"chatgpt-account-id" with
                        | Some raw => trim_ascii raw
                        | None => []
                        end in
      if bool_decide (account_id = []) then deny_auth 401 $"Missing chatgpt-account-id header"
      else if negb (exists_active_chatgpt_account query_runs account_id a)
      then deny_auth 401 $"Unknown or inactive chatgpt-account-id"
      else
        let validation := validate_usage_identity token account_id in
        if success validation then allow_request
        else if status_code validation =? 429 then
          let message := if bool_decide (validation_message validation = []) then $"Rate limit exceeded"
                         else validation_message validation in
          mkDecision false 429 (build_error_envelope $"rate_limit_exceeded" message $"rate_limit_error" [])
        else if (status_code validation =? 401) || (status_code validation =? 403)
        then deny_auth 401 $"Invalid ChatGPT token or chatgpt-account-id"
        else mkDecision false 502
               (build_error_envelope $"upstream_unavailable" $"Unable to validate ChatGPT credentials at this time"
                  $"server_error" [])
  end.

(** ** proxy_usage_reservation.cpp *)

Record ProxyUsageReservation := mkUsageReservation { active : bool; usage_request_id : bytes }.

Definition no_reservation : ProxyUsageReservation := mkUsageReservation false [].

Definition reserve_api_key_usage (opened : bool) (policy : ApiKeyModelPolicy) (request_id : bytes) (now : Z)
    (t : ApiKeyTables) : ProxyUsageReservation * ApiKeyTables :=
  match present (policy_key_id policy) with
  | Some key_id =>
      if negb opened || bool_decide (request_id = []) then (no_reservation, t)
      else
        let '(created, t) := create_api_key_usage_reservation runs key_id request_id [] now t in
        match created with
        | Some _ => (mkUsageReservation true request_id, t)
        | None => (no_reservation, t)
        end
  | None => (no_reservation, t)
  end.

Definition settle_api_key_usage (opened : bool) (reservation : ProxyUsageReservation) (success : bool) (now : Z)
    (t : ApiKeyTables) : ApiKeyTables :=
  if negb opened || negb (active reservation) || bool_decide (usage_request_id reservation = []) then t
  else (transition_api_key_usage_reservation_status runs (usage_request_id reservation) $"reserved"
          (if success then $"settled" else $"released") now t).2.

End filter.

(** ** The gate *)

Section gate.
Context {sodium : Sodium} {digest : Digest} {codec : JsonCodec}.
Context (get_time : bool -> bytes -> option Z).

(** The bearer of [token] holds the key of row [r]. *)
Definition holds_key (token : bytes) (now : Z) (t : ApiKeyTables) (r : ApiKeyRow) : Prop :=
  r ∈ rows (api_keys t) /\ hash_key token = Some (k_key_hash r) /\ k_key_hash r <> [] /\ k_is_active r <> 0 /\
  is_api_key_expired get_time (k_expires_at r) now = false.

Definition bearer_token (headers : HeaderMap) : option bytes :=
  extract_bearer_token (find_header_case_insensitive headers $"authorization").

(** The record of a key tells what its row says. *)
Definition tells (record : ApiKeyRecord) (r : ApiKeyRow) : Prop :=
  is_active record = negb (k_is_active r =? 0) /\ expires_at record = k_expires_at r /\ key_id record = k_key_id r /\
  allowed_models record = k_allowed_models r /\ enforced_model record = k_enforced_model r /\
  enforced_reasoning_effort record = k_enforced_reasoning_effort r.

(** What looking a hash up finds: the record of the key row with this hash. *)
Lemma get_by_hash_some runs h t record t' :
  keys_wf t -> get_api_key_by_hash runs h t = (Some record, t') ->
  exists r, r ∈ rows (api_keys t) /\ k_key_hash r = h /\ h <> [] /\ tells record r.
Proof.
  intros Hw. unfold get_api_key_by_hash. destruct (ensure_keys runs t Hw) as [Hk _].
  destruct (ensure_api_key_schema runs t) as [ok t1]. cbn [snd] in Hk.
  destruct (negb ok || _) eqn:Eg; [done|]. bool_hyps. intros [= El _].
  unfold load_key_by_clause in El. destruct (runs LoadKey); [|done].
  destruct (select _ (api_keys t1)) as [k|] eqn:Es; cbn in El; [|done]. simplify_eq.
  apply select_some in Es as [Hin Hh]. bool_hyps. destruct (Hk k Hin) as (r & Hr & [->| ->]); exists r; by split_and!.
Qed.

Lemma get_by_hash_found runs h t r :
  keys_wf t -> (forall s, runs s = true) -> r ∈ rows (api_keys t) -> k_key_hash r = h -> h <> [] ->
  exists record, (get_api_key_by_hash runs h t).1 = Some record /\ tells record r.
Proof.
  intros Hw Hruns Hr Hh Hne. unfold get_api_key_by_hash, tells.
  pose proof (ensure_wf runs t Hw) as Hw1. destruct (ensure_keys runs t Hw) as [_ Hk].
  assert ((ensure_api_key_schema runs t).1 = true) as Ho by (unfold ensure_api_key_schema; by rewrite !Hruns).
  destruct (ensure_api_key_schema runs t) as [ok t1]. cbn [fst snd] in *. subst ok.
  rewrite bool_decide_false by done. cbn [negb orb fst]. destruct (Hk r Hr) as (k & Hin & Ek).
  unfold load_key_by_clause. rewrite Hruns.
  rewrite (select_unique k_key_hash k h) by (first [apply Hw1|done|by destruct Ek as [->| ->]]).
  eexists. split; [done|]. by destruct Ek as [->| ->].
Qed.

Lemma gate_opens runs opened api_key_auth headers now t :
  keys_wf t -> allow (validate_proxy_api_key_impl get_time runs opened api_key_auth headers now t).1.1 = true ->
  opened = true /\ (api_key_auth = Some false \/
    (api_key_auth = Some true /\ exists token r, bearer_token headers = Some token /\ holds_key token now t r)).
Proof.
  intros Hw. unfold validate_proxy_api_key_impl. fold (bearer_token headers).
  destruct opened; cbn [negb]; [|done]. destruct api_key_auth as [[]|]; [|auto|done].
  destruct (bearer_token headers) as [token|] eqn:Eb; [|done]. destruct (hash_key token) as [h|] eqn:Eh; [|done].
  destruct (get_api_key_by_hash runs h t) as [[record|] t'] eqn:Eg; [|done].
  apply get_by_hash_some in Eg as (r & Hr & Hh & Hne & Ha & He & _); [|done].
  destruct (is_active record) eqn:Er; cbn [negb]; [|done]. rewrite He.
  destruct (is_api_key_expired get_time (k_expires_at r) now) eqn:Ex; [done|]. intros _.
  split; [done|]. right. split; [done|]. exists token, r. split; [done|].
  symmetry in Ha. bool_hyps. split_and!; [done|congruence|congruence|done|done].
Qed.

(** Only keys open the proxy: with key authentication on, a request to a
    protected path is allowed only if its [Authorization] bears a token whose
    hash is that of an active key that has not expired, whatever statements
    fail; without failures it is allowed exactly then.  Settings that cannot
    be read, or no database, close it. (C3) *)
Theorem api_key_gate ops runs opened api_key_auth path headers now :
  let t := run_ops empty_tables ops in
  let allowed := allow (validate_proxy_api_key_request get_time runs opened api_key_auth path headers now t).1 in
  let authorised := exists token r, bearer_token headers = Some token /\ holds_key token now t r in
  (is_proxy_api_key_protected_path path = false -> allowed = true) /\
  (is_proxy_api_key_protected_path path = true ->
    (allowed = true -> opened = true /\ (api_key_auth = Some false \/ (api_key_auth = Some true /\ authorised))) /\
    ((forall s, runs s = true) -> opened = true -> api_key_auth = Some true -> authorised -> allowed = true)).
Proof.
  intros t allowed authorised. pose proof (run_wf ops : keys_wf t) as Hw.
  unfold allowed, validate_proxy_api_key_request. split; [by intros ->|]. intros ->. cbn [negb].
  split.
  - intros Ha. apply (gate_opens runs opened api_key_auth headers now t Hw).
    by destruct (validate_proxy_api_key_impl _ _ _ _ _ _ t) as [[decision record] t'].
  - unfold validate_proxy_api_key_impl. fold (bearer_token headers). intros Hruns -> -> (token & r & -> & Hr & Hh & Hne & Ha & Hx). cbn [negb]. rewrite Hh.
    destruct (get_by_hash_found runs _ t r Hw Hruns Hr eq_refl Hne) as (record & E1 & E2 & E3 & _).
    destruct (get_api_key_by_hash runs (k_key_hash r) t) as [k t']. cbn [fst] in E1. subst k.
    rewrite E2, E3, Hx. destruct (Z.eqb_spec (k_is_active r) 0); done.
Qed.

(** The policy of a key. *)
Definition policy_of_row (r : ApiKeyRow) : ApiKeyModelPolicy :=
  mkPolicy (Some (k_key_id r)) (deserialize_allowed_models (k_allowed_models r)) (present (k_enforced_model r))
    (present (k_enforced_reasoning_effort r)).

Lemma resolve_policy_spec runs headers now t token r :
  keys_wf t -> (forall s, runs s = true) -> bearer_token headers = Some token -> holds_key token now t r ->
  (resolve_api_key_model_policy get_time runs true (Some true) headers now t).1 = policy_of_row r.
Proof.
  intros Hw Hruns Hb (Hr & Hh & Hne & Ha & Hx). unfold resolve_api_key_model_policy, validate_proxy_api_key_impl.
  fold (bearer_token headers). rewrite Hb. cbn [negb]. rewrite Hh.
  destruct (get_by_hash_found runs _ t r Hw Hruns Hr eq_refl Hne) as (record & E1 & E2 & E3 & E4 & E5 & E6 & E7).
  destruct (get_api_key_by_hash runs (k_key_hash r) t) as [k t']. cbn [fst] in E1. subst k.
  rewrite E2, E3, Hx. destruct (Z.eqb_spec (k_is_active r) 0); [done|]. cbn. unfold policy_of_row. by rewrite E4, E5, E6, E7.
Qed.

(** ** Revocation *)

Lemma update_reports runs key_id patch t record t' :
  keys_wf t -> update_api_key runs key_id patch t = (Some record, t') ->
  keys_wf t' /\
  forall r', r' ∈ rows (api_keys t') ->
    exists r, r ∈ rows (api_keys t) /\ k_key_id r' = k_key_id r /\
      (k_key_id r <> key_id -> k_key_hash r' = k_key_hash r) /\
      (k_key_id r = key_id -> k_key_hash r' = default (k_key_hash r) (patch_key_hash patch) /\
        (patch_is_active patch = Some false -> k_is_active r' = 0)).
Proof.
  intros Hw E. split.
  { pose proof (update_good runs key_id patch t Hw) as [Hu _]. by rewrite E in Hu. }
  revert E. unfold update_api_key, get_api_key_by_key_id at 1.
  destruct (ensure_keys runs t Hw) as [Hk _]. pose proof (ensure_wf runs t Hw) as Hw1.
  destruct (ensure_api_key_schema runs t) as [ok t1]. cbn [snd] in *.
  destruct (negb ok || _); [done|]. unfold load_key_by_clause at 1. destruct (runs LoadKey); [|done].
  destruct (select _ (api_keys t1)) as [k|] eqn:Es; cbn [fmap option_fmap option_map]; [|done].
  apply select_some in Es as [Hin Hid]. bool_hyps.
  destruct (negb (runs UpdateKey) || _) eqn:Eu; [done|]. bool_hyps. intros E r' Hr'.
  set (t2 := set_keys _ t1) in E.
  assert (keys_wf t2) as Hw2 by by apply (patched_good key_id (key_record runs t1 k) patch t1).
  assert (t' = (get_api_key_by_key_id runs key_id t2).2) as -> by by rewrite E.
  assert (exists k', k' ∈ rows (api_keys t2) /\ (r' = k' \/ r' = backfill_prefix k')) as (k' & Hk' & Er').
  { destruct (ensure_keys runs t2 Hw2) as [Hk2 _]. apply Hk2. revert Hr'. unfold get_api_key_by_key_id.
    destruct (ensure_api_key_schema runs t2) as [ok2 t3]. by case_match. }
  unfold t2 in Hk'. cbn [set_keys api_keys] in Hk'. apply elem_of_update_where in Hk' as (k0 & Hk0 & ->).
  destruct (Hk k0 Hk0) as (r & Hr & Erk). exists r. split; [done|].
  assert (k_key_id k0 = k_key_id r /\ k_key_hash k0 = k_key_hash r) as [Ei Eh] by (by destruct Erk as [->| ->]).
  rewrite <- Ei, <- Eh. case_bool_decide as Ek.
  - assert (k0 = k) as -> by (apply (key_id_once t1); [done..|congruence]).
    destruct Er' as [->| ->]; cbn [patched_row backfill_prefix k_key_id k_key_hash k_is_active]; (split; [done|]);
      (split; [by intros []|]); intros _; (split; [done|]); by intros ->.
  - by destruct Er' as [->| ->].
Qed.

(** A key that is rotated, deactivated or deleted is refused: after the
    repository reports success, a token that opened the proxy with this key
    opens it with none, unless it is the new secret itself. *)
Theorem revoked_key_refused ops runs token now r new_hash new_prefix :
  let t := run_ops empty_tables ops in
  holds_key token now t r ->
  (forall record t', rotate_api_key_secret runs (k_key_id r) new_hash new_prefix t = (Some record, t') ->
     hash_key token <> Some new_hash -> forall r', ~ holds_key token now t' r') /\
  (forall record t', update_api_key runs (k_key_id r) (mkPatch None (Some false) None None None None None None None) t =
     (Some record, t') -> forall r', ~ holds_key token now t' r') /\
  (forall t', delete_api_key runs (k_key_id r) t = (true, t') -> forall r', ~ holds_key token now t' r').
Proof.
  intros t (Hr & Hh & _). pose proof (run_wf ops : keys_wf t) as Hw.
  assert (forall r1, r1 ∈ rows (api_keys t) -> hash_key token = Some (k_key_hash r1) -> r1 = r) as Honly.
  { intros r1 H1 E1. pose proof (select_unique k_key_hash r (k_key_hash r) _ (keys_hashes _ Hw) Hr eq_refl) as F1.
    pose proof (select_unique k_key_hash r1 (k_key_hash r) _ (keys_hashes _ Hw) H1) as F2.
    rewrite F1 in F2. assert (Some r = Some r1) by (apply F2; congruence). congruence. }
  split_and!.
  - intros record t' E Hn r' (Hr' & Hh' & _). apply update_reports in E as [_ E]; [|done].
    destruct (E r' Hr') as (r1 & H1 & _ & Eo & Ek). destruct (decide (k_key_id r1 = k_key_id r)) as [Ed|Ed].
    + destruct (Ek Ed) as [Ek' _]. cbn in Ek'. congruence.
    + specialize (Eo Ed). assert (r1 = r) by (apply Honly; congruence). congruence.
  - intros record t' E r' (Hr' & Hh' & _ & Ha & _). apply update_reports in E as [_ E]; [|done].
    destruct (E r' Hr') as (r1 & H1 & _ & Eo & Ek). destruct (decide (k_key_id r1 = k_key_id r)) as [Ed|Ed].
    + destruct (Ek Ed) as [_ Ek']. by apply Ha, Ek'.
    + specialize (Eo Ed). assert (r1 = r) by (apply Honly; congruence). congruence.
  - intros t' E r' (Hr' & Hh' & _). revert E. unfold delete_api_key. destruct (ensure_keys runs t Hw) as [Hk _].
    destruct (ensure_api_key_schema runs t) as [ok t1]. cbn [snd] in Hk. case_match; [done|].
    cbn [delete_where]. intros [= _ <-]. cbn [set_keys api_keys rows] in Hr'. apply list_elem_of_filter in Hr' as [Hp Hr'].
    bool_hyps. destruct (Hk r' Hr') as (r1 & Hr1 & Er).
    assert (r1 = r) as -> by (apply Honly; [done|]; by destruct Er as [->| ->]).
    by destruct Er as [->| ->].
Qed.

End gate.

(** ** Policies *)

Section policy.
Context {codec : JsonCodec}.
Implicit Types (policy : ApiKeyModelPolicy).

Lemma present_some value s : present value = Some s <-> value = Some s /\ s <> [].
Proof.
  destruct value as [[|b l]|]; cbn; (split; [intros [=]|intros [[=] ?]]); subst; done.
Qed.

(** What the body says under a policy. *)
Definition follows_policy policy (before after : JsonObject) : Prop :=
  (forall m, present (policy_enforced_model policy) = Some m -> string_at after $"model" = Some m) /\
  (forall m, string_at after $"model" = Some m -> m <> [] -> policy_allowed_models policy <> [] ->
     m ∈ policy_allowed_models policy) /\
  (forall e, present (policy_enforced_reasoning_effort policy) = Some e ->
     exists r, object_at after $"reasoning" = Some r /\ string_at r $"effort" = Some e) /\
  (forall k, k <> $"model" -> k <> $"reasoning" -> after !! k = before !! k).

Lemma effective_model_constrained policy object :
  string_at (constrained policy object) $"model" =
  match present (effective_model policy object) with Some m => Some m | None => string_at object $"model" end.
Proof.
  unfold constrained. destruct (present (policy_enforced_reasoning_effort policy)); [rewrite string_at_insert_ne by done|];
    (destruct (present (effective_model policy object)); [by rewrite string_at_insert_eq|done]).
Qed.

Lemma constrained_follows policy object :
  model_denied policy object = None -> follows_policy policy object (constrained policy object).
Proof.
  intros Hd. split_and!.
  - intros m Hm. rewrite effective_model_constrained. unfold effective_model. rewrite Hm.
    apply present_some in Hm as [_ Hm]. by rewrite (proj2 (present_some (Some m) m)).
  - intros m. rewrite effective_model_constrained. intros Em Hne Ha. unfold model_denied in Hd.
    destruct (present (effective_model policy object)) as [m'|] eqn:Ep.
    + injection Em as ->. rewrite bool_decide_false in Hd by done. cbn [negb andb] in Hd. case_match; [done|]. by bool_hyps.
    + exfalso. unfold effective_model in Ep. destruct (present (policy_enforced_model policy)) as [m'|] eqn:Ee.
      * apply present_some in Ee as [_ Ee]. by rewrite (proj2 (present_some (Some m') m')) in Ep.
      * rewrite Em in Ep. by rewrite (proj2 (present_some (Some m) m)) in Ep.
  - intros e He. unfold constrained. rewrite He. unfold object_at. rewrite lookup_insert_eq.
    eexists. split; [done|]. apply string_at_insert_eq.
  - intros k Hm Hr. unfold constrained. repeat case_match; by rewrite ?lookup_insert_ne.
Qed.

Lemma unconstrained_follows policy object : policy_has_constraints policy = false -> follows_policy policy object object.
Proof.
  unfold policy_has_constraints. intros H. bool_hyps.
  destruct (present (policy_enforced_model policy)) eqn:E1; [done|].
  destruct (present (policy_enforced_reasoning_effort policy)) eqn:E2; [done|].
  split_and!; try done; intros ?; rewrite ?E1, ?E2; done.
Qed.

(** The library writes a document that it reads back. *)
Definition written_back (j : Json) : Prop := exists text, write_json j = Some text /\ read_json text = Some j.

Lemma enforce_allows policy body object decision body' :
  body <> [] -> read_json body = Some (JObject object) -> written_back (JObject (constrained policy object)) ->
  enforce_api_key_request_policy policy body = (decision, body') -> policy_allow decision = true ->
  exists object', read_json body' = Some (JObject object') /\ follows_policy policy object object'.
Proof.
  intros Hb Hr (text & Hw & Ht). unfold enforce_api_key_request_policy.
  rewrite (bool_decide_false (body = [])), orb_false_r, Hr by done. destruct (policy_has_constraints policy) eqn:Ec; cbn [negb].
  - destruct (model_denied policy object) eqn:Ed; [by intros [= <- <-]|]. rewrite Hw. intros [= <- <-] _. cbn.
    exists (constrained policy object). split; [done|by apply constrained_follows].
  - intros [= <- <-] _. exists object. split; [done|by apply unconstrained_follows].
Qed.

(** The policy of an API key is enforced on every body that is a JSON object:
    a request for a model outside the allowed ones is refused with 403 and
    left alone; any other goes on with the enforced model and effort in it and
    nothing else changed. *)
Theorem policy_enforced policy body object :
  body <> [] -> read_json body = Some (JObject object) -> written_back (JObject (constrained policy object)) ->
  let '(decision, body') := enforce_api_key_request_policy policy body in
  if policy_allow decision
  then exists object', read_json body' = Some (JObject object') /\ follows_policy policy object object'
  else body' = body /\ policy_status decision = 403 /\
    exists m, effective_model policy object = Some m /\ m <> [] /\ policy_allowed_models policy <> [] /\
      m ∉ policy_allowed_models policy.
Proof.
  intros Hb Hr Hw. destruct (enforce_api_key_request_policy policy body) as [decision body'] eqn:Ee.
  destruct (policy_allow decision) eqn:Ea; [by eapply enforce_allows|]. revert Ee Ea. unfold enforce_api_key_request_policy.
  case_match; [by intros [= <- <-]|]. rewrite Hr. unfold model_denied.
  destruct (present (effective_model policy object)) as [m|] eqn:Em; [|by intros [= <- <-]].
  destruct (negb _ && negb _) eqn:En; [|by intros [= <- <-]]. intros [= <- <-] _. bool_hyps.
  apply present_some in Em as [Em Hm]. split; [done|]. split; [done|]. by exists m.
Qed.

End policy.

Lemma present_twice value : present (present value) = present value.
Proof. by destruct value as [[|]|]. Qed.


(** The gate reads the body more strictly than the normaliser: a body that
    the library does not parse is not constrained, and the normaliser still
    finds the object inside it. *)
Lemma unreadable_body_bypasses_policy :
  exists (codec : JsonCodec) policy body object,
    policy_allowed_models policy = [$"gpt-small"] /\
    enforce_api_key_request_policy policy body = (policy_allowed, body) /\
    parse_request body = Ret (JObject object) /\ string_at object $"model" = Some $"gpt-large".
Proof.
  set (q := [Byte.x22]). set (text := $"{" ++ q ++ $"model" ++ q ++ $":" ++ q ++ $"gpt-large" ++ q ++ $"}"). set (object := make_object [($"model", JString $"gpt-large")]).
  exists (sample_codec text (JObject object)), (mkPolicy None [$"gpt-small"] None None), ($"x" ++ text), object.
  split; [done|]. split; [reflexivity|]. split; [|by unfold object].
  unfold parse_request. assert (read_json (JsonCodec := sample_codec text (JObject object))
    (sanitize_request_json_bytes ($"x" ++ text)) = None) as -> by by vm_compute.
  assert (try_extract_json_object_slice (sanitize_request_json_bytes ($"x" ++ text)) = Some text) as -> by by vm_compute.
  assert (sanitize_request_json_bytes text = text) as -> by by vm_compute.
  cbn [sample_codec read_json]. by rewrite bool_decide_true.
Qed.

(** ** Concrete inputs *)

Definition no_time (format : bool) (text : bytes) : option Z := None.

(** Every token hashes to the zero digest. *)
Definition zero_hash : bytes := Text.Hex.hex_encode (replicate 32 Byte.x00).

Definition one_key : list ((KeyStatement -> bool) * Z * op) :=
  [(all_statements, 1, CreateKey $"k1" zero_hash $"sk-clb-1" $"first" None (Some $"m") None None)].

Definition sample_key : ApiKeyRow :=
  mkKeyRow 1 $"k1" zero_hash (Some $"sk-clb-1") $"first" $"active" 1 None (Some $"m") None None None 1.

Lemma sample_holds_key : @holds_key plain_digest no_time $"token" 2 (run_ops empty_tables one_key) sample_key.
Proof.
  split; [|by split_and!].
  assert (rows (api_keys (run_ops empty_tables one_key)) = [sample_key]) as -> by reflexivity. by left.
Qed.

Lemma revoked_key_refused_witness :
  exists t', delete_api_key all_statements $"k1" (run_ops empty_tables one_key) = (true, t') /\
    forall r, ~ @holds_key plain_digest no_time $"token" 2 t' r.
Proof.
  eexists. split; [reflexivity|].
  destruct (@revoked_key_refused plain_digest no_time one_key all_statements $"token" 2 sample_key $"h" $"p"
    sample_holds_key) as (_ & _ & H). apply H. reflexivity.
Defined.

Definition sample_filter_codec : JsonCodec := sample_codec $"{}" (JObject sample_request).

Lemma sample_written_back policy :
  policy_enforced_model policy = Some $"m" -> policy_enforced_reasoning_effort policy = None ->
  @written_back sample_filter_codec (JObject (constrained policy sample_request)).
Proof.
  intros Hm He. exists $"{}". split; [done|]. cbn. unfold constrained, effective_model. rewrite Hm, He. cbn.
  unfold sample_request. cbn [make_object foldl fst snd]. by rewrite (insert_id (<[$"input" := _]> _)).
Qed.

Lemma policy_enforced_witness :
  exists policy object', policy_allowed_models policy = [$"m"] /\ string_at object' $"model" = Some $"m".
Proof.
  set (policy := mkPolicy None [$"m"] (Some $"m") None).
  pose proof (@policy_enforced sample_filter_codec policy $"{}" sample_request) as H.
  destruct H as (object' & _ & Hf & _); [discriminate|reflexivity|by apply sample_written_back|].
  exists policy, object'. split; [reflexivity|]. apply Hf. reflexivity.
Defined.

Definition sample_bearer : HeaderMap := [($"authorization", $"Bearer token")].

