(* ===== verification/KeysController.v ===== *)
(** * KeysController: the administration of API keys

    src/native/server/controllers/src/keys_controller.cpp with the guard of
    linearizable_read_guard.cpp, over the repository of [ApiKeys].  The fresh
    identifier and the random bytes are arguments; [opened] tells whether
    there is a database. *)

From S2P Require Import Prelude Text Double JsonValue Hlc Conflict Headers Fernet TokenStore Table ApiKeys ApiKeyFilter.
Import Text.Ascii.

(** ** linearizable_read_guard.cpp *)

Record LinearizableReadGuardResult := mkGuard { guard_allow : bool; guard_status : Z; guard_code : bytes; guard_message : bytes }.

(** The two overrides that tests set. *)
Record GuardOverride := mkOverride { override_allow : option bool; override_leader_id : option bytes }.

Definition no_override : GuardOverride := mkOverride None None.

Definition guard_open : LinearizableReadGuardResult := mkGuard true 200 [] [].

Definition reject_result (table_name : bytes) (leader_id : option bytes) : LinearizableReadGuardResult :=
  mkGuard false 503 $"linearizable_read_requires_leader"
    (($"Linearizable read for table '" ++ table_name ++ $"' requires cluster leader") ++
     match present leader_id with
     | Some leader => $" (leader site_id=" ++ leader ++ $")"
     | None => $" (leader unavailable)"
     end).

Definition check_linearizable_read_access (table_name : bytes) (o : GuardOverride) : LinearizableReadGuardResult :=
  if negb (table_requires_raft table_name) then guard_open
  else match override_allow o with
       | Some true => guard_open
       | Some false => reject_result table_name (override_leader_id o)
       | None => guard_open
       end.

Definition set_linearizable_read_override_for_testing (allow : option bool) (leader_id : option bytes) : GuardOverride :=
  mkOverride allow leader_id.

Definition clear_linearizable_read_override_for_testing : GuardOverride := no_override.

(** ** keys_controller.h *)

Record ApiKeyLimitRuleInput := mkRule {
  rule_limit_type : bytes;
  rule_limit_window : bytes;
  rule_max_value : double;
  rule_model_filter : option bytes;
}.

Record ApiKeyLimitPayload := mkLimitPayload {
  payload_limit_id : Z;
  payload_limit_type : bytes;
  payload_limit_window : bytes;
  payload_max_value : double;
  payload_current_value : double;
  payload_model_filter : option bytes;
}.

Record ApiKeyPayload := mkPayload {
  payload_key_id : bytes;
  payload_name : bytes;
  payload_key_prefix : bytes;
  payload_is_active : bool;
  payload_allowed_models : list bytes;
  payload_enforced_model : option bytes;
  payload_enforced_reasoning_effort : option bytes;
  payload_expires_at : option bytes;
  payload_created_at : Z;
  payload_last_used_at : option bytes;
  payload_limits : list ApiKeyLimitPayload;
}.

Definition no_payload : ApiKeyPayload := mkPayload [] [] [] true [] None None None 0 None [].

Record ApiKeyCreateRequest := mkCreateRequest {
  request_name : bytes;
  request_allowed_models : option (list bytes);
  request_enforced_model : option bytes;
  request_enforced_reasoning_effort : option bytes;
  request_expires_at : option bytes;
  request_limits : list ApiKeyLimitRuleInput;
}.

Record ApiKeyUpdateRequest := mkUpdateRequest {
  update_name : option bytes;
  update_allowed_models : option (list bytes);
  update_enforced_model : option bytes;
  update_enforced_reasoning_effort : option bytes;
  update_is_active : option bool;
  update_expires_at : option bytes;
  update_limits : option (list ApiKeyLimitRuleInput);
}.

Record ApiKeyMutationResponse := mkResponse {
  response_status : Z;
  response_code : bytes;
  response_message : bytes;
  response_key : bytes;
  response_api_key : ApiKeyPayload;
}.

Record ApiKeyListResponse := mkListResponse {
  list_status : Z;
  list_code : bytes;
  list_message : bytes;
  list_items : list ApiKeyPayload;
}.

Definition error_response (status : Z) (code message : bytes) : ApiKeyMutationResponse :=
  mkResponse status code message [] no_payload.

Definition invalid_payload (message : bytes) : ApiKeyMutationResponse :=
  error_response 400 $"invalid_api_key_payload" message.

Definition not_found : ApiKeyMutationResponse := error_response 404 $"api_key_not_found" $"API key not found".

Definition db_unavailable : ApiKeyMutationResponse := error_response 500 $"db_unavailable" $"Database unavailable".

Definition guard_response (g : LinearizableReadGuardResult) : ApiKeyMutationResponse :=
  error_response (guard_status g) (guard_code g) (guard_message g).

Definition normalize_optional_slug (value : option bytes) : option bytes :=
  match value with
  | None => None
  | Some value => let trimmed := trim_ascii value in if bool_decide (trimmed = []) then None else Some trimmed
  end.

Definition normalize_limit (limit : ApiKeyLimitRuleInput) : option ApiKeyLimitInput :=
  if negb (is_supported_limit_type (rule_limit_type limit))
     || negb (match window_to_period_seconds (rule_limit_window limit) with Some _ => true | None => false end)
     || fle (rule_max_value limit) f_zero
  then None
  else Some (mkLimitInput (rule_limit_type limit) (rule_limit_window limit) (rule_max_value limit)
               (rule_model_filter limit) f_zero).

Definition normalize_limits (limits : list ApiKeyLimitRuleInput) : option (list ApiKeyLimitInput) :=
  mapM normalize_limit limits.

Definition limit_payload (limit : ApiKeyLimitRecord) : ApiKeyLimitPayload :=
  mkLimitPayload (limit_id limit) (limit_type limit) (limit_window limit) (max_value limit) (current_value limit)
    (model_filter limit).

Section controller.
Context {sodium : Sodium} {digest : Digest} {codec : JsonCodec}.
Context (runs : KeyStatement -> bool) (opened : bool) (guard : GuardOverride).

Definition to_payload (row : ApiKeyRecord) : ApiKeyPayload :=
  mkPayload (key_id row) (name row) (key_prefix row) (is_active row) (deserialize_allowed_models (allowed_models row))
    (enforced_model row) (enforced_reasoning_effort row) (expires_at row) (created_at row) (last_used_at row)
    (limit_payload <$> limits row).

(** What every operation checks first. *)
Definition check_access : option ApiKeyMutationResponse :=
  let g := check_linearizable_read_access $"api_keys" guard in
  if negb (guard_allow g) then Some (guard_response g)
  else if negb opened then Some db_unavailable else None.

(** The effort: absent, or normalised; [None] when it is not supported. *)
Definition normalize_effort (effort : option bytes) : option (option bytes) :=
  match effort with
  | None => Some None
  | Some effort => Some <$> normalize_reasoning_effort effort
  end.

Definition create_api_key_controller (request : ApiKeyCreateRequest) (key_uuid random : bytes) (now : Z)
    (t : ApiKeyTables) : ApiKeyMutationResponse * ApiKeyTables :=
  match check_access with Some response => (response, t) | None =>
  let name := trim_ascii (request_name request) in
  if bool_decide (name = []) then (invalid_payload $"API key name is required", t)
  else
    let allowed := normalize_allowed_models (request_allowed_models request) in
    let enforced := normalize_optional_slug (request_enforced_model request) in
    if negb (validate_model_enforcement enforced allowed)
    then (invalid_payload $"enforced_model must be present in allowed_models when allowed_models is configured", t)
    else match normalize_effort (request_enforced_reasoning_effort request) with
    | None => (invalid_payload $"Unsupported enforced reasoning effort", t)
    | Some effort =>
        match normalize_limits (request_limits request) with
        | None => (invalid_payload $"Invalid limit definition", t)
        | Some rules =>
            match issue_api_key_material random with
            | None => (error_response 500 $"api_key_generation_failed" $"Failed to generate API key", t)
            | Some material =>
                let '(created, t) :=
                  create_api_key runs key_uuid (material_hash material) (material_prefix material) name
                    (serialize_allowed_models allowed) enforced (present effort) (request_expires_at request) now t in
                match created with
                | None => (error_response 500 $"api_key_create_failed" $"Failed to create API key", t)
                | Some created =>
                    let '(stored, t) :=
                      if bool_decide (rules = []) then (Some [], t)
                      else replace_api_key_limits runs (key_id created) rules t in
                    match stored with
                    | None => (error_response 500 $"api_key_limits_failed" $"Failed to store API key limits", t)
                    | Some _ =>
                        let '(refreshed, t) := get_api_key_by_key_id runs (key_id created) t in
                        match refreshed with
                        | None => (error_response 500 $"api_key_create_failed" $"Failed to load API key", t)
                        | Some refreshed => (mkResponse 201 [] [] (plain_key material) (to_payload refreshed), t)
                        end
                    end
                end
            end
        end
    end
  end.

Definition list_api_keys_controller (t : ApiKeyTables) : ApiKeyListResponse * ApiKeyTables :=
  match check_access with
  | Some response => (mkListResponse (response_status response) (response_code response) (response_message response) [], t)
  | None => let '(records, t) := list_api_keys runs t in (mkListResponse 200 [] [] (to_payload <$> records), t)
  end.

(** The name of an update: unchanged, trimmed, or refused when it is blank. *)
Definition normalize_name (name : option bytes) : option (option bytes) :=
  match name with
  | None => Some None
  | Some name => let trimmed := trim_ascii name in if bool_decide (trimmed = []) then None else Some (Some trimmed)
  end.

(** [value_or("")], under a field that was sent. *)
Definition or_empty {A} (sent : option A) (value : option bytes) : option bytes :=
  match sent with Some _ => Some (default [] value) | None => None end.

(** The answer with the key as it is stored now. *)
Definition reload (id : bytes) (t : ApiKeyTables) : ApiKeyMutationResponse * ApiKeyTables :=
  let '(refreshed, t) := get_api_key_by_key_id runs id t in
  match refreshed with
  | None => (not_found, t)
  | Some refreshed => (mkResponse 200 [] [] [] (to_payload refreshed), t)
  end.

Definition update_api_key_controller (id : bytes) (request : ApiKeyUpdateRequest) (t : ApiKeyTables) :
    ApiKeyMutationResponse * ApiKeyTables :=
  match check_access with Some response => (response, t) | None =>
  let '(existing, t) := get_api_key_by_key_id runs id t in
  match existing with
  | None => (not_found, t)
  | Some existing =>
      let enforced := match update_enforced_model request with
                      | Some _ => normalize_optional_slug (update_enforced_model request)
                      | None => enforced_model existing
                      end in
      let allowed := match update_allowed_models request with
                     | Some _ => normalize_allowed_models (update_allowed_models request)
                     | None => deserialize_allowed_models (allowed_models existing)
                     end in
      if negb (validate_model_enforcement enforced allowed)
      then (invalid_payload $"enforced_model must be present in allowed_models when allowed_models is configured", t)
      else match normalize_effort (update_enforced_reasoning_effort request) with
      | None => (invalid_payload $"Unsupported enforced reasoning effort", t)
      | Some effort =>
          match normalize_name (update_name request) with
          | None => (invalid_payload $"API key name is required", t)
          | Some name =>
              let patch := mkPatch name (update_is_active request) None None
                             (or_empty (update_allowed_models request) (serialize_allowed_models allowed))
                             (or_empty (update_enforced_model request) enforced)
                             (or_empty (update_enforced_reasoning_effort request) effort)
                             (update_expires_at request) None in
              let '(updated, t) := update_api_key runs id patch t in
              match updated with
              | None => (not_found, t)
              | Some _ =>
                  match update_limits request with
                  | Some rules =>
                      match normalize_limits rules with
                      | None => (invalid_payload $"Invalid limit definition", t)
                      | Some rules =>
                          let '(stored, t) := replace_api_key_limits runs id rules t in
                          match stored with
                          | None => (error_response 500 $"api_key_limits_failed" $"Failed to store API key limits", t)
                          | Some _ => reload id t
                          end
                      end
                  | None => reload id t
                  end
              end
          end
      end
  end
  end.

Definition regenerate_api_key (id random : bytes) (t : ApiKeyTables) : ApiKeyMutationResponse * ApiKeyTables :=
  match check_access with Some response => (response, t) | None =>
  match issue_api_key_material random with
  | None => (error_response 500 $"api_key_generation_failed" $"Failed to generate API key", t)
  | Some material =>
      let '(updated, t) := rotate_api_key_secret runs id (material_hash material) (material_prefix material) t in
      match updated with
      | None => (not_found, t)
      | Some updated => (mkResponse 200 [] [] (plain_key material) (to_payload updated), t)
      end
  end
  end.

(** The fields of [ApiKeyDeleteResponse] are the first three of a response. *)
Definition delete_api_key_controller (id : bytes) (t : ApiKeyTables) : ApiKeyMutationResponse * ApiKeyTables :=
  match check_access with Some response => (response, t) | None =>
  let '(deleted, t) := delete_api_key runs id t in
  (if negb deleted then not_found else error_response 204 [] [], t)
  end.

End controller.

(** ** Keys stay what they are *)

(** The row of a key, with a prefix filled in at most. *)
Definition same_key (r r' : ApiKeyRow) : Prop := r' = r \/ r' = backfill_prefix r.

Definition keys_stay (t t' : ApiKeyTables) : Prop :=
  forall r, r ∈ rows (api_keys t) -> exists r', r' ∈ rows (api_keys t') /\ same_key r r'.

Lemma keys_stay_refl t t' : api_keys t' = api_keys t -> keys_stay t t'.
Proof. intros E r Hr. exists r. rewrite E. split; [done|by left]. Qed.

Lemma keys_stay_trans t1 t2 t3 : keys_stay t1 t2 -> keys_stay t2 t3 -> keys_stay t1 t3.
Proof.
  intros H1 H2 r Hr. destruct (H1 r Hr) as (r' & Hr' & E1). destruct (H2 r' Hr') as (r'' & Hr'' & E2).
  exists r''. split; [done|]. destruct E1 as [->| ->], E2 as [->| ->]; by (left + right).
Qed.

Lemma ensure_stay runs t : keys_wf t -> keys_stay t (ensure_api_key_schema runs t).2.
Proof. intros Hw r Hr. destruct (ensure_keys runs t Hw) as [_ H]. destruct (H r Hr) as (k & Hk & E). by exists k. Qed.

Lemma get_stay runs id t : keys_wf t -> keys_stay t (get_api_key_by_key_id runs id t).2.
Proof.
  intros Hw. pose proof (ensure_stay runs t Hw) as H. unfold get_api_key_by_key_id.
  destruct (ensure_api_key_schema runs t) as [ok t']. by case_match.
Qed.

Lemma replace_stay runs id rules t : keys_wf t -> keys_stay t (replace_api_key_limits runs id rules t).2.
Proof.
  intros Hw. pose proof (ensure_stay runs t Hw) as H. unfold replace_api_key_limits.
  destruct (ensure_api_key_schema runs t) as [ok t']. by repeat case_match.
Qed.

(** A creation that reports success stored the row. *)
Lemma create_stores runs key_id hash prefix name models model effort expires now t record t' :
  keys_wf t -> create_api_key runs key_id hash prefix name models model effort expires now t = (Some record, t') ->
  keys_wf t' /\ ApiKeys.key_id record = key_id /\ hash <> [] /\
  exists r i p, r ∈ rows (api_keys t') /\ r = mkKeyRow i key_id hash p name $"active" 1 models model effort expires None now.
Proof.
  intros Hw E. split.
  { pose proof (create_good runs key_id hash prefix name models model effort expires now t Hw) as [H _]. by rewrite E in H. }
  revert E. unfold create_api_key. pose proof (ensure_wf runs t Hw) as Hw1.
  destruct (ensure_api_key_schema runs t) as [ok t1]. cbn [snd] in Hw1.
  destruct (negb ok || _ || _ || _) eqn:Eg; [done|]. destruct (negb (runs InsertKey) || _ || _) eqn:Et; [done|].
  apply orb_false3 in Et as (_ & Hi & Hh). bool_hyps. intros E.
  set (row := mkKeyRow _ _ _ _ _ _ _ _ _ _ _ _ _) in E. set (t2 := set_keys _ t1) in E.
  assert (keys_wf t2) as Hw2.
  { apply set_keys_good; [|done]. intros []. split_and!; [by apply table_insert_wf|by apply insert_row_unique..]. }
  pose proof (get_stay runs key_id t2 Hw2) as Hs. rewrite E in Hs. cbn [snd] in Hs.
  assert (row ∈ rows (api_keys t2)) as Hrow by (apply elem_of_table_insert; by right).
  split; [|split; [done|]].
  - revert E. unfold get_api_key_by_key_id. destruct (ensure_api_key_schema runs t2) as [ok2 t3].
    case_match; [done|]. unfold load_key_by_clause. case_match; [|done]. intros [= El _].
    destruct (select _ (api_keys t3)) as [k|] eqn:Es; cbn in El; [|done]. simplify_eq.
    apply select_some in Es as [_ Es]. by bool_hyps.
  - destruct (Hs row Hrow) as (r & Hr & [->| ->]); by eexists _, _, _.
Qed.

(** ** A key that is issued *)

Section issued.
Context {sodium : Sodium} {digest : Digest} {codec : JsonCodec}.

Lemma present_slug value : present (normalize_optional_slug value) = normalize_optional_slug value.
Proof. destruct value as [v|]; [|done]. cbn. case_bool_decide as E; [done|]. by destruct (trim_ascii v). Qed.

Lemma strings_of_strings l : strings_of (JString <$> l) = Some l.
Proof. induction l as [|s l IH]; [done|]. csimpl. unfold strings_of in *. cbn. by rewrite IH. Qed.

(** The library writes the list of models as a text it reads back. *)
Definition models_written (models : list bytes) : Prop :=
  models <> [] -> exists text, text <> [] /\ write_json (JArray (JString <$> models)) = Some text /\
    read_json text = Some (JArray (JString <$> models)).

Lemma models_roundtrip models :
  models_written models -> deserialize_allowed_models (serialize_allowed_models models) = models.
Proof.
  intros H. unfold serialize_allowed_models. case_bool_decide as E; [by subst|].
  destruct (H E) as (text & Hne & -> & Hr). unfold deserialize_allowed_models.
  destruct text; [done|]. rewrite Hr. by rewrite strings_of_strings.
Qed.

Lemma skip_space_solid s rest : Forall (fun c => isspace c = false) s -> s <> [] -> skip_space (s ++ rest) = s ++ rest.
Proof. intros H Hne. destruct s as [|c s]; [done|]. apply Forall_cons in H as [E _]. cbn. by rewrite E. Qed.

(** A text that begins and ends without a blank is trimmed to itself. *)
Lemma trim_solid first last :
  Forall (fun c => isspace c = false) last -> last <> [] -> skip_space (first ++ last) = first ++ last ->
  trim_ascii (first ++ last) = first ++ last.
Proof.
  intros Hl Hne Hs. unfold trim_ascii. rewrite Hs, reverse_app, skip_space_solid; [|by apply Forall_reverse|].
  - by rewrite <- reverse_app, reverse_involutive.
  - intros E. apply Hne. by rewrite <- (reverse_involutive last), E.
Qed.

Lemma bearer_of_key key :
  Forall (fun c => isspace c = false) key -> key <> [] ->
  bearer_token [($"Authorization", $"Bearer " ++ key)] = Some key.
Proof.
  intros Hk Hne. unfold bearer_token, find_header_case_insensitive. cbn [List.find fst].
  assert (equals_case_insensitive $"Authorization" $"authorization" = true) as -> by by vm_compute.
  cbn [fmap option_fmap option_map snd extract_bearer_token].
  rewrite (trim_solid $"Bearer " key) by done. rewrite size_of_app. replace (size_of $"Bearer ") with 7 by done.
  pose proof (size_of_nonneg key). destruct (Z.ltb_spec (7 + size_of key) 7); [lia|].
  assert (starts_with (to_lower_ascii ($"Bearer " ++ key)) $"bearer " = true) as ->.
  { apply starts_with_spec. exists (to_lower_ascii key). unfold to_lower_ascii. by rewrite fmap_app. }
  cbn [negb]. change (drop 7 ($"Bearer " ++ key)) with key.
  assert (trim_ascii key = key) as ->; [|by rewrite bool_decide_false].
  apply (trim_solid [] key); [done|done|]. cbn [app]. rewrite <- (app_nil_r key). by apply skip_space_solid.
Qed.

(** An issued key works: when the creation of a key reports success, the
    secret it returns opens the proxy until the key expires, in every
    [Authorization] that bears it, and with the policy that was asked for: the
    trimmed models, sorted, the trimmed model and the normalised effort. *)
Theorem issued_key_opens get_time ops runs opened guard request key_uuid random now later :
  let t := run_ops empty_tables ops in
  let models := normalize_allowed_models (request_allowed_models request) in
  let '(response, t') := create_api_key_controller runs opened guard request key_uuid random now t in
  Forall (fun c => isspace c = false) (sodium_bin2base64 random) -> models_written models ->
  is_api_key_expired get_time (request_expires_at request) later = false ->
  response_status response = 201 ->
  exists r effort,
    bearer_token [($"Authorization", $"Bearer " ++ response_key response)] = Some (response_key response) /\
    holds_key get_time (response_key response) later t' r /\
    normalize_effort (request_enforced_reasoning_effort request) = Some effort /\
    policy_of_row r =
      mkPolicy (Some key_uuid) models (normalize_optional_slug (request_enforced_model request)) (present effort).
Proof.
  intros t models. pose proof (run_wf ops : keys_wf t) as Hw. unfold create_api_key_controller.
  destruct (check_access opened guard) as [refusal|] eqn:Ea.
  { intros _ _ _ Hs. exfalso. revert Ea Hs. unfold check_access, guard_response, check_linearizable_read_access.
    repeat case_match; intros [= <-]; done. }
  destruct (bool_decide (trim_ascii (request_name request) = [])); [done|]. fold models.
  destruct (validate_model_enforcement _ models); cbn [negb]; [|done].
  destruct (normalize_effort _) as [effort|]; [|done]. destruct (normalize_limits _) as [rules|]; [|done].
  destruct (issue_api_key_material random) as [material|] eqn:Em; [|done].
  destruct (create_api_key _ _ _ _ _ _ _ _ _ _ t) as [[created|] t1] eqn:Ec; [|done].
  apply create_stores in Ec as (Hw1 & Hid & Hh & r & i & p & Hr & ->); [|done].
  destruct (if bool_decide (rules = []) then _ else _) as [stored t2] eqn:El.
  assert (keys_stay t1 t2 /\ keys_wf t2) as [Hs2 Hw2].
  { revert El. case_bool_decide; [intros [= _ <-]; split; [by apply keys_stay_refl|done]|]. intros El.
    pose proof (replace_stay runs (ApiKeys.key_id created) rules t1 Hw1) as Hs.
    pose proof (replace_good runs (ApiKeys.key_id created) rules t1 Hw1) as [Hg _]. by rewrite El in Hs, Hg. }
  destruct stored; [|done]. pose proof (get_stay runs (ApiKeys.key_id created) t2 Hw2) as Hs3.
  destruct (get_api_key_by_key_id _ _ t2) as [[refreshed|] t3]; [|done]. cbn [snd response_status response_key] in *.
  intros Hclean Hmod Hexp _. destruct (keys_stay_trans _ _ _ Hs2 Hs3 _ Hr) as (r' & Hr' & Er').
  unfold issue_api_key_material in Em. destruct (negb sodium_ready); [done|]. apply bind_Some in Em as (hash & Ehash & [= <-]).
  cbn [plain_key material_hash] in *. exists r', effort. split; [|split; [|split; [done|]]].
  - apply bearer_of_key; [|done]. by repeat (apply Forall_cons; split; [done|]).
  - by destruct Er' as [->| ->]; split_and!.
  - destruct Er' as [->| ->]; unfold policy_of_row; cbn;
      rewrite models_roundtrip by done; by rewrite present_slug, present_twice.
Qed.

End issued.

(** ** Answers of a failed limit write *)

Definition sample_request : ApiKeyCreateRequest := mkCreateRequest $" team " None (Some $" m ") (Some $"HIGH") None [].

Definition sample_codec_keys : JsonCodec := sample_codec [] JNull.

Lemma issued_key_opens_witness :
  exists response t', create_api_key_controller (sodium := plain_sodium) (digest := plain_digest) (codec := sample_codec_keys)
      all_statements true no_override sample_request $"id" $"secret" 5 empty_tables = (response, t') /\
    exists r, @holds_key plain_digest no_time (response_key response) 6 t' r /\
      policy_of_row (codec := sample_codec_keys) r = mkPolicy (Some $"id") [] (Some $"m") (Some $"high").
Proof.
  pose proof (@issued_key_opens plain_sodium plain_digest sample_codec_keys no_time [] all_statements true no_override
    sample_request $"id" $"secret" 5 6) as H. cbv zeta in H. change (run_ops empty_tables []) with empty_tables in H.
  destruct (create_api_key_controller _ _ _ _ _ _ _ _) as [response t'] eqn:E.
  destruct H as (r & effort & _ & Hk & He & Hp).
  - by repeat (apply Forall_cons; split; [done|]).
  - by intros H.
  - reflexivity.
  - apply (f_equal (fun x => response_status x.1)) in E. vm_compute in E. symmetry. exact E.
  - exists response, t'. split; [reflexivity|]. exists r. split; [exact Hk|]. rewrite Hp.
    assert (normalize_effort (request_enforced_reasoning_effort sample_request) = Some (Some $"high")) as He'
      by (vm_compute; reflexivity).
    rewrite He' in He. injection He as <-. reflexivity.
Defined.

Definition bad_rule : ApiKeyLimitRuleInput := mkRule $"total_tokens" $"fortnight" f_one None.

Definition renaming : ApiKeyUpdateRequest :=
  mkUpdateRequest (Some $"renamed") None None None (Some false) None (Some [bad_rule]).

(** An update with an invalid limit is refused as a bad request, after the
    rest of the update was stored: the key is renamed and disabled. *)
Lemma refused_update_is_stored :
  let '(response, t) := update_api_key_controller (codec := sample_codec_keys) all_statements true no_override $"k1"
    renaming (run_ops empty_tables one_key) in
  response_status response = 400 /\
  (fun r => (k_name r, k_is_active r)) <$> rows (api_keys t) = [($"renamed", 0)].
Proof. by vm_compute. Qed.

Definition no_limit_insert (s : KeyStatement) : bool :=
  match s with InsertLimit => false | _ => true end.

Definition limited_request : ApiKeyCreateRequest :=
  mkCreateRequest $"team" None None None None [mkRule $"total_tokens" $"daily" f_one None].

(** When the limits of a new key cannot be stored the creation fails, but the
    key stays, active and without any limit. *)
Lemma failed_creation_leaves_key :
  let '(response, t) := create_api_key_controller (sodium := plain_sodium) (digest := plain_digest)
    (codec := sample_codec_keys) no_limit_insert true no_override limited_request $"id" $"secret" 5 empty_tables in
  response_status response = 500 /\ response_key response = [] /\
  k_is_active <$> rows (api_keys t) = [1] /\ rows (api_key_limits t) = [].
Proof. by vm_compute. Qed.
