(* ===== verification/IpAddress.v ===== *)
(** * IpAddress: addresses and networks

    src/native/core/net/src/ip_address.cpp.  Addresses, networks, their texts
    and their bits belong to Boost.Asio: they are the class [Asio], and
    [AsioLaws] says of it what its documentation does.  The theorem of the
    file: an address is in a network exactly when it has the network's leading
    bits. *)

From S2P Require Import Prelude Codec Text.
Import Text.Ascii.

(** ** boost::asio::ip *)

Class Asio := {
  address : Type;
  make_address : bytes -> option address;
  address_text : address -> bytes;                (* to_string *)
  to_uint : address -> option Z;                  (* is_v4, to_v4().to_uint() *)
  to_bytes : address -> option bytes;             (* is_v6, to_v6().to_bytes() *)
  network_v4 : Type;
  make_network_v4 : bytes -> option network_v4;
  netmask : network_v4 -> Z;
  network_bits : network_v4 -> Z;                 (* network().to_uint() *)
  prefix_v4 : network_v4 -> Z;
  network_v6 : Type;
  make_network_v6 : bytes -> option network_v6;
  network_bytes : network_v6 -> bytes;            (* network().to_bytes() *)
  prefix_v6 : network_v6 -> Z;
}.

(** A text that was printed is read back and holds no blank; the widths of
    addresses; the netmask has the leading bits of the prefix set, and
    [network()] no bit outside it. *)
Class AsioLaws (A : Asio) := {
  address_reads : forall a, make_address (address_text a) = Some a;
  address_solid : forall a, address_text a <> [] /\ Forall (fun c => isspace c = false) (address_text a);
  uint_width : forall a u, to_uint a = Some u -> in_uint 32 u;
  bytes_width : forall a b, to_bytes a = Some b -> length b = 16%nat;
  one_family : forall a, is_Some (to_uint a) <-> ~ is_Some (to_bytes a);
  prefix_v4_range : forall n, 0 <= prefix_v4 n <= 32;
  netmask_bits : forall n i, 0 <= i -> Z.testbit (netmask n) i = (32 - prefix_v4 n <=? i) && (i <? 32);
  network_bits_spec : forall n i, 0 <= i -> Z.testbit (network_bits n) i = true -> Z.testbit (netmask n) i = true;
  prefix_v6_range : forall n, 0 <= prefix_v6 n <= 128;
  network_bytes_width : forall n, length (network_bytes n) = 16%nat;
}.

(** ** ip_address.cpp *)

Section address.
Context {asio : Asio}.

Inductive IpNetwork := NetworkV4 (n : network_v4) | NetworkV6 (n : network_v6).

Definition parse_address (value : bytes) : option address :=
  let trimmed := trim_ascii value in
  if bool_decide (trimmed = []) then None else make_address trimmed.

Definition is_ip_in_network_v4 (a : Z) (n : network_v4) : bool := Z.land a (netmask n) =? network_bits n.

(** The loop over the full bytes, and the byte that comes after them. *)
Fixpoint compare_bytes (full_bytes : nat) (partial_bits : Z) (a n : bytes) : bool :=
  match full_bytes, a, n with
  | S full_bytes, x :: a, y :: n => if negb (bool_decide (x = y)) then false else compare_bytes full_bytes partial_bits a n
  | S _, _, _ => true
  | O, _, _ =>
      if partial_bits =? 0 then true
      else
        let mask := u8 (Z.shiftl 255 (8 - partial_bits)) in
        Z.land (val (hd Byte.x00 a)) mask =? Z.land (val (hd Byte.x00 n)) mask
  end.

Definition is_ip_in_network_v6 (a : bytes) (n : network_v6) : bool :=
  compare_bytes (Z.to_nat (prefix_v6 n / 8)) (prefix_v6 n mod 8) a (network_bytes n).

Definition normalize_ip_address (value : bytes) : option bytes := address_text <$> parse_address value.

Definition is_valid_ip_address (value : bytes) : bool :=
  match parse_address value with Some _ => true | None => false end.

Definition parse_ip_network (cidr : bytes) : option IpNetwork :=
  let trimmed := trim_ascii cidr in
  if bool_decide (trimmed = []) then None
  else match make_network_v4 trimmed with
       | Some n => Some (NetworkV4 n)
       | None => NetworkV6 <$> make_network_v6 trimmed
       end.

Definition is_ip_in_network (ip_address : bytes) (network : IpNetwork) : bool :=
  match parse_address ip_address with
  | None => false
  | Some a =>
      match network with
      | NetworkV4 n => match to_uint a with Some u => is_ip_in_network_v4 u n | None => false end
      | NetworkV6 n => match to_bytes a with Some b => is_ip_in_network_v6 b n | None => false end
      end
  end.

End address.

Arguments IpNetwork asio : clear implicits.
#[global] Arguments IpNetwork {asio}.

(** ** Leading bits *)

(** Bit [i] of a sequence of bytes, the most significant bit of the first
    byte being bit 0. *)
Definition bit_at (l : bytes) (i : nat) : bool :=
  Z.testbit (val (nth (i / 8) l Byte.x00)) (7 - Z.of_nat (i mod 8)).

Lemma bit_at_cons b l i : bit_at (b :: l) (8 + i) = bit_at l i.
Proof.
  unfold bit_at. replace ((8 + i) / 8)%nat with (S (i / 8)) by (rewrite (Nat.div_add_l 1 8) by lia; lia).
  by replace ((8 + i) mod 8)%nat with (i mod 8)%nat by (rewrite <- (Nat.Div0.mod_add i 1 8); f_equal; lia).
Qed.

Lemma bit_at_head b l i : (i < 8)%nat -> bit_at (b :: l) i = Z.testbit (val b) (7 - Z.of_nat i).
Proof. intros H. unfold bit_at. by rewrite Nat.div_small, Nat.mod_small by done. Qed.

Lemma byte_bits x y : (forall i, (i < 8)%nat -> Z.testbit (val x) (7 - Z.of_nat i) = Z.testbit (val y) (7 - Z.of_nat i)) -> x = y.
Proof.
  intros H. apply val_inj. apply Z.bits_inj'. intros k Hk. destruct (Z.ltb_spec k 8).
  - specialize (H (Z.to_nat (7 - k)) ltac:(lia)). by replace (7 - Z.of_nat (Z.to_nat (7 - k))) with k in H by lia.
  - assert (forall b, Z.testbit (val b) k = false) as E; [|by rewrite !E].
    intros b. pose proof (val_range b). destruct (Z.eq_dec (val b) 0) as [->|]; [by rewrite Z.testbit_0_l|].
    apply Z.bits_above_log2; [lia|]. apply Z.log2_lt_pow2; [lia|]. assert (2 ^ 8 <= 2 ^ k) by (apply Z.pow_le_mono_r; lia). lia.
Qed.

(** The mask of the partial byte keeps its leading [r] bits. *)
Lemma mask_bits r k : 0 <= r < 8 -> 0 <= k -> Z.testbit (u8 (Z.shiftl 255 (8 - r))) k = (8 - r <=? k) && (k <? 8).
Proof.
  intros Hr Hk. unfold wrap. destruct (Z.ltb_spec k 8) as [H8|H8].
  - rewrite Z.mod_pow2_bits_low by lia. rewrite Z.shiftl_spec by lia. rewrite andb_true_r. change 255 with (Z.ones 8).
    rewrite Z.testbit_ones by lia. destruct (Z.leb_spec (8 - r) k), (Z.leb_spec 0 (k - (8 - r))), (Z.ltb_spec (k - (8 - r)) 8); done || lia.
  - rewrite Z.mod_pow2_bits_high by lia. by rewrite andb_false_r.
Qed.

Lemma partial_byte x y r : 0 <= r < 8 ->
  let mask := u8 (Z.shiftl 255 (8 - r)) in
  Z.land (val x) mask = Z.land (val y) mask <->
  forall i, (i < Z.to_nat r)%nat -> Z.testbit (val x) (7 - Z.of_nat i) = Z.testbit (val y) (7 - Z.of_nat i).
Proof.
  intros Hr mask. split.
  - intros E i Hi. apply (f_equal (fun z => Z.testbit z (7 - Z.of_nat i))) in E. unfold mask in E.
    rewrite !Z.land_spec, mask_bits in E by lia. destruct (Z.leb_spec (8 - r) (7 - Z.of_nat i)), (Z.ltb_spec (7 - Z.of_nat i) 8); try lia.
    by rewrite !andb_true_r in E.
  - intros H. apply Z.bits_inj'. intros k Hk. unfold mask. rewrite !Z.land_spec, mask_bits by lia.
    destruct (Z.leb_spec (8 - r) k), (Z.ltb_spec k 8); cbn; rewrite ?andb_false_r; try done.
    specialize (H (Z.to_nat (7 - k)) ltac:(lia)). replace (7 - Z.of_nat (Z.to_nat (7 - k))) with k in H by lia. by rewrite H.
Qed.

Lemma compare_bytes_spec full r a n :
  0 <= r < 8 -> (full <= length a)%nat -> (full <= length n)%nat ->
  (r <> 0 -> (full < length a)%nat /\ (full < length n)%nat) ->
  compare_bytes full r a n = true <-> forall i, (i < 8 * full + Z.to_nat r)%nat -> bit_at a i = bit_at n i.
Proof.
  intros Hr. revert a n. induction full as [|full IH]; intros a n Ha Hn Hp.
  - cbn [compare_bytes]. destruct (Z.eqb_spec r 0) as [->|Hz].
    { split; [|by intros]. intros _ i Hi. cbn in Hi. lia. }
    destruct (Hp Hz) as [Ha' Hn']. destruct a as [|x a]; [cbn in Ha'; lia|]. destruct n as [|y n]; [cbn in Hn'; lia|].
    cbn [hd]. rewrite Z.eqb_eq, partial_byte by done. replace (8 * 0 + Z.to_nat r)%nat with (Z.to_nat r) by lia.
    split; intros H i Hi; specialize (H i Hi); [rewrite !bit_at_head by lia|rewrite !bit_at_head in H by lia]; done.
  - destruct a as [|x a]; [cbn in Ha; lia|]. destruct n as [|y n]; [cbn in Hn; lia|]. cbn [compare_bytes length] in *.
    case_bool_decide as E; cbn [negb].
    + subst y. rewrite IH; [|lia|lia|intros; destruct Hp; [done|lia]]. split; intros H i Hi.
      * destruct (decide (i < 8)%nat); [by rewrite !bit_at_head by done|]. replace i with (8 + (i - 8))%nat by lia.
        rewrite !bit_at_cons. apply H. lia.
      * specialize (H (8 + i)%nat ltac:(lia)). by rewrite !bit_at_cons in H.
    + split; [done|]. intros H. contradict E. apply byte_bits. intros i Hi. specialize (H i ltac:(lia)).
      by rewrite !bit_at_head in H by done.
Qed.

Section laws.
Context {asio : Asio} {laws : AsioLaws asio}.

(** The leading bits of an address of either family that a network fixes. *)
Definition leading_bits_agree (a : address) (network : IpNetwork) : Prop :=
  match network with
  | NetworkV4 n =>
      exists u, to_uint a = Some u /\ forall i, 0 <= i < prefix_v4 n -> Z.testbit u (31 - i) = Z.testbit (network_bits n) (31 - i)
  | NetworkV6 n =>
      exists b, to_bytes a = Some b /\ forall i, (i < Z.to_nat (prefix_v6 n))%nat -> bit_at b i = bit_at (network_bytes n) i
  end.

Lemma network_v4_spec u n :
  in_uint 32 u ->
  is_ip_in_network_v4 u n = true <->
  forall i, 0 <= i < prefix_v4 n -> Z.testbit u (31 - i) = Z.testbit (network_bits n) (31 - i).
Proof.
  intros Hu. unfold is_ip_in_network_v4. rewrite Z.eqb_eq. pose proof (prefix_v4_range n) as Hp. split.
  - intros E i Hi. rewrite <- E, Z.land_spec, netmask_bits by lia.
    destruct (Z.leb_spec (32 - prefix_v4 n) (31 - i)), (Z.ltb_spec (31 - i) 32); try lia. by rewrite andb_true_r.
  - intros H. apply Z.bits_inj'. intros k Hk. rewrite Z.land_spec, netmask_bits by done.
    destruct (Z.leb_spec (32 - prefix_v4 n) k), (Z.ltb_spec k 32); cbn; rewrite ?andb_false_r.
    1: { rewrite andb_true_r. specialize (H (31 - k) ltac:(lia)). by replace (31 - (31 - k)) with k in H by lia. }
    all: destruct (Z.testbit (network_bits n) k) eqn:E; [|done]; apply network_bits_spec in E; [|done];
      rewrite netmask_bits in E by done; bool_hyps; lia.
Qed.

Lemma network_v6_spec b n :
  length b = 16%nat ->
  is_ip_in_network_v6 b n = true <->
  forall i, (i < Z.to_nat (prefix_v6 n))%nat -> bit_at b i = bit_at (network_bytes n) i.
Proof.
  intros Hb. unfold is_ip_in_network_v6. pose proof (prefix_v6_range n) as Hp. pose proof (network_bytes_width n) as Hw.
  pose proof (Z.div_mod (prefix_v6 n) 8 ltac:(lia)). pose proof (Z.mod_pos_bound (prefix_v6 n) 8 ltac:(lia)).
  assert (prefix_v6 n / 8 <= 16) by (apply Z.div_le_upper_bound; lia). assert (0 <= prefix_v6 n / 8) by (apply Z.div_pos; lia).
  rewrite compare_bytes_spec; [|lia|lia|lia|lia].
  by replace (8 * Z.to_nat (prefix_v6 n / 8) + Z.to_nat (prefix_v6 n mod 8))%nat with (Z.to_nat (prefix_v6 n)) by lia.
Qed.

(** An address is in a network exactly when it is written correctly, is of
    the network's family and has the leading bits that the prefix fixes; no
    other bit of it matters. *)
Theorem in_network_leading_bits ip network :
  is_ip_in_network ip network = true <-> exists a, parse_address ip = Some a /\ leading_bits_agree a network.
Proof.
  unfold is_ip_in_network. destruct (parse_address ip) as [a|]; [|by split; [|intros (? & ? & _)]].
  transitivity (leading_bits_agree a network); [|split; [eauto|by intros (? & [= <-] & ?)]].
  destruct network as [n|n]; cbn.
  - destruct (to_uint a) as [u|] eqn:E; [|by split; [|intros (? & ? & _)]].
    rewrite network_v4_spec by eauto using uint_width. split; [eauto|by intros (? & [= <-] & ?)].
  - destruct (to_bytes a) as [b|] eqn:E; [|by split; [|intros (? & ? & _)]].
    rewrite network_v6_spec by eauto using bytes_width. split; [eauto|by intros (? & [= <-] & ?)].
Qed.

(** Every network holds, and only holds, addresses of its family: the network
    of prefix 0 holds them all. *)
Lemma whole_family a n : prefix_v4 n = 0 -> leading_bits_agree a (NetworkV4 n) <-> is_Some (to_uint a).
Proof. intros E. cbn. rewrite E. split; [intros (u & -> & _); eauto|]. intros [u ->]. exists u. split; [done|]. lia. Qed.

(** A solid text is its own trimming. *)
Lemma trim_solid_text s : Forall (fun c => isspace c = false) s -> trim_ascii s = s.
Proof.
  intros Hs. unfold trim_ascii. assert (forall l, Forall (fun c => isspace c = false) l -> skip_space l = l) as E.
  { intros l Hl. destruct Hl as [|c l Hc _]; [done|]. cbn. by rewrite Hc. }
  rewrite (E s) by done. rewrite (E (reverse s)) by (by apply Forall_reverse). apply reverse_involutive.
Qed.

(** The canonical text of an address is canonical, and stands for it. *)
Lemma normalize_canonical ip text :
  normalize_ip_address ip = Some text -> normalize_ip_address text = Some text /\ parse_address text = parse_address ip.
Proof.
  unfold normalize_ip_address. destruct (parse_address ip) as [a|] eqn:E; [|done]. cbn. intros [= <-].
  destruct (address_solid a) as [Hne Hs]. unfold parse_address. rewrite trim_solid_text, address_reads by done.
  by rewrite bool_decide_false by done.
Qed.

Lemma same_canonical ip ip' text :
  normalize_ip_address ip = Some text -> normalize_ip_address ip' = Some text -> parse_address ip = parse_address ip'.
Proof. intros E E'. apply normalize_canonical in E as [_ <-]. by apply normalize_canonical in E' as [_ <-]. Qed.

End laws.

(** ** A concrete library: IPv4 addresses written as eight hexadecimal digits *)

Definition quad : Type := Byte.byte * Byte.byte * Byte.byte * Byte.byte.

Definition quad_bytes (q : quad) : bytes := let '(a, b, c, d) := q in [a; b; c; d].

Definition sample_make_address (text : bytes) : option quad :=
  match Text.Hex.hex_decode_into 4 text with Some [a; b; c; d] => Some (a, b, c, d) | _ => None end.

Definition sample_prefix (n : quad * Z) : Z := n.2 mod 33.

Definition sample_netmask (n : quad * Z) : Z := Z.shiftl (Z.ones (sample_prefix n)) (32 - sample_prefix n).

#[export] Instance sample_asio : Asio := {|
  address := quad;
  make_address := sample_make_address;
  address_text q := Text.Hex.hex_encode (quad_bytes q);
  to_uint q := Some (be_value (quad_bytes q));
  to_bytes _ := None;
  network_v4 := quad * Z;
  make_network_v4 text := (fun q => (q, 32)) <$> sample_make_address text;
  netmask := sample_netmask;
  network_bits n := Z.land (be_value (quad_bytes n.1)) (sample_netmask n);
  prefix_v4 := sample_prefix;
  network_v6 := Empty_set;
  make_network_v6 _ := None;
  network_bytes n := match n with end;
  prefix_v6 n := match n with end;
|}.

#[export] Instance sample_asio_laws : AsioLaws sample_asio.
Proof.
  split.
  - intros [[[a b] c] d]. change (sample_make_address (Text.Hex.hex_encode [a; b; c; d]) = Some (a, b, c, d)).
    unfold sample_make_address. by rewrite Text.Hex.hex_decode_into_encode.
  - intros [[[a b] c] d]. change (Text.Hex.hex_encode [a; b; c; d] <> [] /\
      Forall (fun ch => isspace ch = false) (Text.Hex.hex_encode [a; b; c; d])).
    split; [by destruct a|]. unfold Text.Hex.hex_encode. apply Forall_concat, Forall_fmap, Forall_forall.
    intros x _. destruct x; repeat (apply Forall_cons; split; [done|]); constructor.
  - intros [[[a b] c] d] u [= <-]. exact (be_value_range [a; b; c; d]).
  - done.
  - intros q. cbn. split; [by intros _ [? ?]|by eauto].
  - intros n. pose proof (Z.mod_pos_bound n.2 33 ltac:(lia)). cbn. unfold sample_prefix. lia.
  - intros n i Hi. cbn. unfold sample_netmask. pose proof (Z.mod_pos_bound n.2 33 ltac:(lia)) as Hp. fold (sample_prefix n) in Hp.
    rewrite Z.shiftl_spec by done. rewrite Z.testbit_ones by lia.
    destruct (Z.leb_spec (32 - sample_prefix n) i), (Z.ltb_spec i 32), (Z.leb_spec 0 (i - (32 - sample_prefix n))),
      (Z.ltb_spec (i - (32 - sample_prefix n)) (sample_prefix n)); done || lia.
  - intros n i Hi. cbn. rewrite Z.land_spec. by intros [_ ?]%andb_true_iff.
  - intros [].
  - intros [].
Qed.
