(* ===== verification/Firewall.v ===== *)
(** * Firewall: the allow list of client addresses

    src/native/db/repositories/src/firewall_repo.cpp on its table,
    src/native/server/middleware/src/firewall_filter.cpp, and the requests
    that administer it (firewall_controller.cpp, firewall_runtime.cpp).  A
    statement may fail, [runs] tells which do; [datetime('now')] is an
    argument; [opened] tells whether there is a database. *)

From S2P Require Import Prelude Text JsonValue Headers ErrorPolicy Table IpAddress.
Import Text.Ascii.

(** ** firewall_repo.cpp *)

Record FirewallIpRecord := mkFirewallIp { fw_id : Z; fw_ip : bytes; fw_created_at : Z }.

#[export] Instance firewall_row : Row FirewallIpRecord := fw_id.

Abbreviation allowlist := (table FirewallIpRecord).

Inductive FirewallWriteResult := Created | Deleted | Duplicate | InvalidIp | NotFound | Error.

Inductive FirewallStatement := FwSchema | FindIp | ReloadIp | ListIps | InsertIp | DeleteIp | CountIps.

(** [ORDER BY created_at ASC, ip ASC]. *)
Definition listed_before (a b : FirewallIpRecord) : Prop :=
  fw_created_at a < fw_created_at b \/ (fw_created_at a = fw_created_at b /\ bytes_le (fw_ip a) (fw_ip b)).

#[local] Instance listed_before_dec a b : Decision (listed_before a b).
Proof. unfold listed_before. apply _. Defined.

Section repo.
Context {asio : Asio} (runs : FirewallStatement -> bool).

Definition ensure_firewall_allowlist_schema : bool := runs FwSchema.

Definition find_by_ip (statement : FirewallStatement) (ip : bytes) (t : allowlist) : option FirewallIpRecord :=
  if runs statement then select (fun r => bool_decide (fw_ip r = ip)) t else None.

Definition list_firewall_allowlist_entries (t : allowlist) : list FirewallIpRecord :=
  if negb ensure_firewall_allowlist_schema || negb (runs ListIps) then [] else merge_sort listed_before (rows t).

(** The result, [*created] and the table. *)
Definition add_firewall_allowlist_ip (ip_address : bytes) (now : Z) (t : allowlist) :
    FirewallWriteResult * option (bytes * option Z) * allowlist :=
  if negb ensure_firewall_allowlist_schema then (Error, None, t)
  else match normalize_ip_address ip_address with
  | None => (InvalidIp, None, t)
  | Some normalized =>
      match find_by_ip FindIp normalized t with
      | Some _ => (Duplicate, None, t)
      | None =>
          if negb (runs InsertIp) || taken fw_ip normalized t then (Error, None, t)
          else
            let t := insert_row (mkFirewallIp (next_id t) normalized now) t in
            let created := match find_by_ip ReloadIp normalized t with
                           | Some r => (fw_ip r, Some (fw_created_at r))
                           | None => (normalized, None)
                           end in
            (Created, Some created, t)
      end
  end.

Definition delete_firewall_allowlist_ip (ip_address : bytes) (t : allowlist) : FirewallWriteResult * allowlist :=
  if negb ensure_firewall_allowlist_schema then (Error, t)
  else match normalize_ip_address ip_address with
  | None => (InvalidIp, t)
  | Some normalized =>
      if negb (runs DeleteIp) then (Error, t)
      else
        let '(changes, t) := delete_where (fun r => bool_decide (fw_ip r = normalized)) t in
        (if 0 <? changes then Deleted else NotFound, t)
  end.

Definition is_firewall_ip_allowed (ip_address : option bytes) (t : allowlist) : bool :=
  if negb ensure_firewall_allowlist_schema then false
  else if negb (runs CountIps) then false
  else if size_of (rows t) =? 0 then true
  else match ip_address with
  | None => false
  | Some ip_address =>
      match normalize_ip_address ip_address with
      | None => false
      | Some normalized => match find_by_ip FindIp normalized t with Some _ => true | None => false end
      end
  end.

(** ** firewall_filter.cpp *)

Record FirewallFilterConfig := mkFirewallConfig { trust_proxy_headers : bool; trusted_proxy_networks : list IpNetwork }.

Definition no_proxies : FirewallFilterConfig := mkFirewallConfig false [].

Record FirewallFilterDecision := mkFirewallDecision {
  fw_allow : bool;
  fw_status : Z;
  fw_body : bytes;
  client_ip : option bytes;
}.

Definition header_value_case_insensitive (headers : HeaderMap) (name : bytes) : option bytes :=
  snd <$> List.find (fun kv => equals_case_insensitive kv.1 name) headers.

Definition is_trusted_proxy_source (host : bytes) (networks : list IpNetwork) : bool :=
  if bool_decide (length networks = 0%nat) then false
  else match normalize_ip_address host with
       | None => false
       | Some normalized => existsb (is_ip_in_network normalized) networks
       end.

(** The hops of the header, all of them valid or none. *)
Definition hops_of (forwarded_for : bytes) : option (list bytes) :=
  mapM (fun chunk =>
    let hop := trim_ascii chunk in
    if bool_decide (hop = []) then None else if negb (is_valid_ip_address hop) then None else Some hop)
    (csv_pieces [] forwarded_for).

(** The loop from the end of the chain: [before] are the hops in front of
    [current], the nearest first. *)
Fixpoint walk_chain (networks : list IpNetwork) (current : bytes) (before : list bytes) : bytes :=
  match before with
  | [] => current
  | previous_hop :: before =>
      if negb (is_trusted_proxy_source current networks) then current else walk_chain networks previous_hop before
  end.

Definition resolve_client_ip_from_xff_chain (socket_ip forwarded_for : bytes) (networks : list IpNetwork) : option bytes :=
  match hops_of forwarded_for with
  | None => None
  | Some hops => if bool_decide (hops = []) then None else Some (walk_chain networks socket_ip (reverse hops))
  end.

Definition is_firewall_protected_path (path : bytes) : bool :=
  if bool_decide (path = $"/backend-api/codex") || starts_with path $"/backend-api/codex/" then true
  else bool_decide (path = $"/v1") || starts_with path $"/v1/".

Definition parse_trusted_proxy_networks (cidrs : list bytes) : list IpNetwork := omap parse_ip_network cidrs.

Definition resolve_connection_client_ip (headers : HeaderMap) (socket_ip : option bytes) (trust_proxy_headers : bool)
    (networks : list IpNetwork) : option bytes :=
  match socket_ip with
  | None => None
  | Some socket_ip =>
      let forwarded :=
        if trust_proxy_headers && is_trusted_proxy_source socket_ip networks
        then match header_value_case_insensitive headers $"x-forwarded-for" with
             | Some forwarded_for => resolve_client_ip_from_xff_chain socket_ip forwarded_for networks
             | None => None
             end
        else None in
      match forwarded with Some resolved => Some resolved | None => Some socket_ip end
  end.

Definition evaluate_firewall_request (path : bytes) (headers : HeaderMap) (socket_ip : option bytes)
    (config : FirewallFilterConfig) (t : allowlist) : FirewallFilterDecision :=
  if negb (is_firewall_protected_path path) then mkFirewallDecision true 200 [] None
  else
    let ip := resolve_connection_client_ip headers socket_ip (trust_proxy_headers config) (trusted_proxy_networks config) in
    if is_firewall_ip_allowed ip t then mkFirewallDecision true 200 [] ip
    else mkFirewallDecision false 403
           (build_error_envelope $"ip_forbidden" $"Access denied for client IP" $"access_error" []) ip.

End repo.

(** ** firewall_controller.cpp *)

Record FirewallIpEntryPayload := mkFirewallEntry { entry_ip : bytes; entry_created_at : option Z }.

Record FirewallListResponse := mkFirewallList {
  list_status : Z; list_code : bytes; list_message : bytes; list_mode : bytes; list_entries : list FirewallIpEntryPayload }.

(** [FirewallMutationResponse] and [FirewallDeleteResponse]: they differ in
    the entry and the result. *)
Record FirewallResponse := mkFirewallResponse {
  response_status : Z; response_code : bytes; response_message : bytes;
  response_entry : option FirewallIpEntryPayload; response_result : bytes }.

Definition failed_response (status : Z) (code message : bytes) : FirewallResponse :=
  mkFirewallResponse status code message None [].

Definition db_unavailable_response : FirewallResponse := failed_response 500 $"db_unavailable" $"Database unavailable".

Section controller.
Context {asio : Asio} (runs : FirewallStatement -> bool) (opened : bool).

Definition list_firewall_ips (t : allowlist) : FirewallListResponse :=
  if negb opened then mkFirewallList 500 $"db_unavailable" $"Database unavailable" $"allow_all" []
  else
    let rows := list_firewall_allowlist_entries runs t in
    mkFirewallList 200 [] [] (if bool_decide (size_of rows = 0) then $"allow_all" else $"allowlist_active")
      ((fun r => mkFirewallEntry (fw_ip r) (Some (fw_created_at r))) <$> rows).

Definition add_firewall_ip (ip_address : bytes) (now : Z) (t : allowlist) : FirewallResponse * allowlist :=
  if negb opened then (db_unavailable_response, t)
  else
    let '(result, created, t) := add_firewall_allowlist_ip runs ip_address now t in
    (match result with
     | Created =>
         mkFirewallResponse 200 [] [] ((fun c : bytes * option Z => mkFirewallEntry c.1 c.2) <$> created) []
     | InvalidIp => failed_response 400 $"invalid_ip" $"Invalid IP address"
     | Duplicate => failed_response 409 $"ip_exists" $"IP address already exists"
     | Deleted | NotFound | Error =>
         failed_response 500 $"firewall_create_failed" $"Failed to create firewall allowlist entry"
     end, t).

Definition delete_firewall_ip (ip_address : bytes) (t : allowlist) : FirewallResponse * allowlist :=
  if negb opened then (db_unavailable_response, t)
  else
    let '(result, t) := delete_firewall_allowlist_ip runs ip_address t in
    (match result with
     | Deleted => mkFirewallResponse 200 [] [] None $"deleted"
     | InvalidIp => failed_response 400 $"invalid_ip" $"Invalid IP address"
     | NotFound => failed_response 404 $"ip_not_found" $"IP address not found"
     | Created | Duplicate | Error =>
         failed_response 500 $"firewall_delete_failed" $"Failed to delete firewall allowlist entry"
     end, t).

(** ** firewall_runtime.cpp *)

Definition firewall_error_json (code message : bytes) : bytes :=
  let code := if is_empty code then $"firewall_request_failed" else code in
  let message := if is_empty message then $"Firewall request failed" else message in
  $"{" ++ json_key $"error" ++ $"{" ++ json_key $"code" ++ Text.Json.quote_json_string code ++
  $"," ++ json_key $"message" ++ Text.Json.quote_json_string message ++ $"}}".

(** The text of a creation time is empty when the entry could not be reloaded. *)
Context (time_text : Z -> bytes) {codec : JsonCodec}.

Definition firewall_entry_json (entry : FirewallIpEntryPayload) : bytes :=
  $"{" ++ json_key $"ipAddress" ++ Text.Json.quote_json_string (entry_ip entry) ++
  $"," ++ json_key $"createdAt" ++
    Text.Json.quote_json_string (match entry_created_at entry with Some z => time_text z | None => [] end) ++ $"}".

Fixpoint comma_separated (texts : list bytes) : bytes :=
  match texts with
  | [] => []
  | [text] => text
  | text :: texts => text ++ $"," ++ comma_separated texts
  end.

Definition firewall_list_json (response : FirewallListResponse) : bytes :=
  $"{" ++ json_key $"mode" ++ Text.Json.quote_json_string (list_mode response) ++ $"," ++ json_key $"entries" ++ $"[" ++
  comma_separated (firewall_entry_json <$> list_entries response) ++ $"]}".

Definition parse_firewall_ip_address (body : bytes) : option bytes :=
  if bool_decide (body = []) then None
  else match read_object body with
  | None => None
  | Some object =>
      match string_at object $"ipAddress" with
      | Some ip => Some ip
      | None => string_at object $"ip_address"
      end
  end.

(** [None]: the request goes on; otherwise the status and the body written. *)
Definition allow_request_or_write_denial (path : bytes) (headers : HeaderMap) (socket_ip : option bytes) (t : allowlist) :
    option (Z * bytes) :=
  if negb opened then Some (500, firewall_error_json $"db_unavailable" $"Database unavailable")
  else
    let decision := evaluate_firewall_request runs path headers socket_ip no_proxies t in
    if fw_allow decision then None else Some (fw_status decision, fw_body decision).

(** The three routes: what is answered. *)
Definition get_firewall_ips (t : allowlist) : Z * bytes :=
  let response := list_firewall_ips t in
  if list_status response =? 200 then (200, firewall_list_json response)
  else (list_status response, firewall_error_json (list_code response) (list_message response)).

Definition post_firewall_ips (body : bytes) (now : Z) (t : allowlist) : (Z * bytes) * allowlist :=
  match parse_firewall_ip_address body with
  | None => ((400, firewall_error_json $"invalid_ip" $"Invalid IP address"), t)
  | Some ip_address =>
      let '(response, t) := add_firewall_ip ip_address now t in
      (if response_status response =? 200
       then (200, firewall_entry_json (default (mkFirewallEntry [] None) (response_entry response)))
       else (response_status response, firewall_error_json (response_code response) (response_message response)), t)
  end.

Definition delete_firewall_ips (ip_address : bytes) (t : allowlist) : (Z * bytes) * allowlist :=
  let '(response, t) := delete_firewall_ip ip_address t in
  (if response_status response =? 200
   then (200, $"{" ++ json_key $"status" ++ Text.Json.quote_json_string
           (if is_empty (response_result response) then $"deleted" else response_result response) ++ $"}")
   else (response_status response, firewall_error_json (response_code response) (response_message response)), t).

End controller.

(** ** The list is a set of canonical addresses *)

Section firewall.
Context {asio : Asio} {laws : AsioLaws asio}.

Definition allowed_ips (t : allowlist) : gset bytes := list_to_set (fw_ip <$> rows t).

Inductive firewall_op := AddIp (ip : bytes) | RemoveIp (ip : bytes).

Definition firewall_step (t : allowlist) (step : (FirewallStatement -> bool) * Z * firewall_op) : allowlist :=
  let '(runs, now, o) := step in
  match o with
  | AddIp ip => (add_firewall_allowlist_ip runs ip now t).2
  | RemoveIp ip => (delete_firewall_allowlist_ip runs ip t).2
  end.

Definition run_firewall (ops : list ((FirewallStatement -> bool) * Z * firewall_op)) : allowlist :=
  foldl firewall_step empty_table ops.

(** Keys and addresses are unique, and every address is canonical. *)
Record firewall_wf (t : allowlist) : Prop := {
  firewall_keys : wf t;
  firewall_unique : unique fw_ip t;
  firewall_canonical : Forall (fun r => normalize_ip_address (fw_ip r) = Some (fw_ip r)) (rows t);
}.

Lemma elem_of_allowed text t : text ∈ allowed_ips t <-> exists r, r ∈ rows t /\ fw_ip r = text.
Proof.
  unfold allowed_ips. rewrite elem_of_list_to_set, list_elem_of_fmap. split; intros (r & H1 & H2); exists r; auto.
Qed.

Lemma select_allowed text t :
  match select (fun r => bool_decide (fw_ip r = text)) t with
  | Some r => fw_ip r = text /\ text ∈ allowed_ips t
  | None => text ∉ allowed_ips t
  end.
Proof.
  destruct (select _ t) as [r|] eqn:E.
  - apply select_some in E as [Hr E]. bool_hyps. split; [done|]. apply elem_of_allowed. eauto.
  - rewrite elem_of_allowed. intros (r & Hr & Et). eapply select_none in E; [|exact Hr]. bool_hyps. done.
Qed.

(** What an operation tells is what it did to the set; an error changes
    nothing, and a taken address or an invalid text neither. *)
Definition addition_spec (ip : bytes) (result : FirewallWriteResult) (t t' : allowlist) : Prop :=
  match result with
  | Created => exists text, normalize_ip_address ip = Some text /\ text ∉ allowed_ips t /\ allowed_ips t' = {[text]} ∪ allowed_ips t
  | Duplicate => exists text, normalize_ip_address ip = Some text /\ text ∈ allowed_ips t /\ t' = t
  | InvalidIp => normalize_ip_address ip = None /\ t' = t
  | Error => t' = t
  | Deleted | NotFound => False
  end.

Definition deletion_spec (ip : bytes) (result : FirewallWriteResult) (t t' : allowlist) : Prop :=
  match result with
  | Deleted => exists text, normalize_ip_address ip = Some text /\ text ∈ allowed_ips t /\ allowed_ips t' = allowed_ips t ∖ {[text]}
  | NotFound => exists text, normalize_ip_address ip = Some text /\ text ∉ allowed_ips t /\ allowed_ips t' = allowed_ips t
  | InvalidIp => normalize_ip_address ip = None /\ t' = t
  | Error => t' = t
  | Created | Duplicate => False
  end.

Lemma taken_allowed text t : taken fw_ip text t = true <-> text ∈ allowed_ips t.
Proof. rewrite taken_spec. unfold allowed_ips. by rewrite elem_of_list_to_set. Qed.

Lemma add_spec runs ip now t :
  let '(result, _, t') := add_firewall_allowlist_ip runs ip now t in
  addition_spec ip result t t' /\ (firewall_wf t -> firewall_wf t').
Proof.
  unfold add_firewall_allowlist_ip. destruct (ensure_firewall_allowlist_schema runs); cbn [negb]; [|done].
  destruct (normalize_ip_address ip) as [text|] eqn:En; [|done]. unfold find_by_ip.
  pose proof (select_allowed text t) as Hs.
  destruct (if runs FindIp then _ else None) as [r|] eqn:Ef.
  { destruct (runs FindIp); [|done]. rewrite Ef in Hs. split; [|done]. exists text. tauto. }
  destruct (runs InsertIp); cbn [negb orb]; [|done]. destruct (taken fw_ip text t) eqn:Et; [done|]. split.
  - exists text. split; [done|]. split; [rewrite <- taken_allowed; congruence|].
    unfold allowed_ips. cbn [insert_row rows]. rewrite fmap_app, list_to_set_app_L. cbn. set_solver.
  - intros [Hk Hu Hc]. split; [by apply table_insert_wf|by apply insert_row_unique|].
    apply Forall_app. split; [done|]. apply Forall_singleton. by apply normalize_canonical in En as [? _].
Qed.

Lemma delete_spec runs ip t :
  let '(result, t') := delete_firewall_allowlist_ip runs ip t in
  deletion_spec ip result t t' /\ (firewall_wf t -> firewall_wf t').
Proof.
  unfold delete_firewall_allowlist_ip. destruct (ensure_firewall_allowlist_schema runs); cbn [negb]; [|done].
  destruct (normalize_ip_address ip) as [text|] eqn:En; [|done]. destruct (runs DeleteIp); cbn [negb]; [|done].
  set (p := fun r => bool_decide (fw_ip r = text)). destruct (delete_where p t) as [changes t'] eqn:Ed.
  assert (t' = (delete_where p t).2) as Et by by rewrite Ed.
  assert (allowed_ips t' = allowed_ips t ∖ {[text]}) as Es.
  { apply set_eq. intros x. rewrite elem_of_difference, elem_of_singleton, !elem_of_allowed, Et.
    setoid_rewrite elem_of_delete_where. unfold p. split.
    - intros (r & [Hr Hp] & <-). bool_hyps. eauto.
    - intros [(r & Hr & <-) Hne]. exists r. split; [|done]. split; [done|]. by apply bool_decide_eq_false. }
  assert (0 < changes <-> text ∈ allowed_ips t) as Hc.
  { injection Ed as <- _. unfold select_all, size_of. rewrite elem_of_allowed. split.
    - intros Hl. destruct (filter _ (rows t)) as [|r l] eqn:E; [cbn in Hl; lia|]. exists r.
      assert (r ∈ filter (fun r => p r = true) (rows t)) as Hr by (rewrite E; by left).
      apply list_elem_of_filter in Hr as [Hp Hr]. unfold p in Hp. bool_hyps. done.
    - intros (r & Hr & <-). assert (r ∈ filter (fun r => p r = true) (rows t)) as Hf.
      { apply list_elem_of_filter. split; [by apply bool_decide_eq_true|done]. }
      destruct (filter _ (rows t)); [by apply elem_of_nil in Hf|]. cbn. lia. }
  split.
  - destruct (Z.ltb_spec 0 changes); [exists text; tauto|]. exists text.
    assert (text ∉ allowed_ips t) by (rewrite <- Hc; lia). split_and!; [done|done|]. rewrite Es. set_solver.
  - intros [Hk Hu Hf]. rewrite Et. split; [by apply table_delete_wf|by apply delete_where_unique|by apply Forall_filter].
Qed.

Lemma run_firewall_wf ops : firewall_wf (run_firewall ops).
Proof.
  unfold run_firewall. assert (firewall_wf empty_table) as H by (split; [apply empty_wf|constructor|constructor]).
  revert H. generalize (empty_table : allowlist) as t. induction ops as [|[[runs now] o] ops IH]; intros t H; [done|].
  cbn [foldl]. apply IH. destruct o as [ip|ip]; cbn [firewall_step].
  - pose proof (add_spec runs ip now t) as Hs. destruct (add_firewall_allowlist_ip _ _ _ t) as [[? ?] t']. by apply Hs.
  - pose proof (delete_spec runs ip t) as Hs. destruct (delete_firewall_allowlist_ip _ _ t) as [? t']. by apply Hs.
Qed.

Lemma allowed_empty t : allowed_ips t = ∅ <-> rows t = [].
Proof.
  split; [|by unfold allowed_ips; intros ->]. intros E. destruct (rows t) as [|r l] eqn:Er; [done|].
  assert (fw_ip r ∈ allowed_ips t) as H by (apply elem_of_allowed; exists r; rewrite Er; split; [by left|done]).
  rewrite E in H. by apply elem_of_empty in H.
Qed.

(** The set says who may connect: everybody while it is empty. *)
Definition admits (allowed : gset bytes) (ip : option bytes) : Prop :=
  allowed = ∅ \/ exists text, ip ≫= normalize_ip_address = Some text /\ text ∈ allowed.

Lemma is_allowed_spec runs ip t :
  (is_firewall_ip_allowed runs ip t = true -> admits (allowed_ips t) ip) /\
  ((forall s, runs s = true) -> admits (allowed_ips t) ip -> is_firewall_ip_allowed runs ip t = true).
Proof.
  unfold is_firewall_ip_allowed, admits, ensure_firewall_allowlist_schema, find_by_ip. rewrite allowed_empty. split.
  - destruct (runs FwSchema); cbn [negb]; [|done]. destruct (runs CountIps); cbn [negb]; [|done].
    destruct (Z.eqb_spec (size_of (rows t)) 0) as [E|_]; [left; by apply size_of_zero|].
    destruct ip as [ip|]; [|done]. cbn. destruct (normalize_ip_address ip) as [text|]; [|done].
    destruct (runs FindIp); [|done]. pose proof (select_allowed text t) as Hs. destruct (select _ t); [|done].
    intros _. right. exists text. tauto.
  - intros Hr. rewrite !Hr. cbn [negb]. intros [->|(text & E & Hin)]; [done|]. destruct (size_of (rows t) =? 0); [done|].
    pose proof (select_allowed text t) as Hs. destruct ip as [ip|]; [|done]. cbn in E. rewrite E. by destruct (select _ t).
Qed.

(** The firewall is a set of canonical addresses: after any additions and
    deletions, with any failures, adding and deleting do to the set what
    their result says and nothing on an error; a client is admitted only if
    the set is empty or holds its address, and exactly then when no statement
    fails. *)
Theorem firewall_refines_set ops runs ip now client :
  let t := run_firewall ops in
  let '(added, _, t1) := add_firewall_allowlist_ip runs ip now t in
  let '(deleted, t2) := delete_firewall_allowlist_ip runs ip t in
  addition_spec ip added t t1 /\ deletion_spec ip deleted t t2 /\
  (forall text, text ∈ allowed_ips t -> normalize_ip_address text = Some text) /\
  (is_firewall_ip_allowed runs client t = true -> admits (allowed_ips t) client) /\
  ((forall s, runs s = true) -> admits (allowed_ips t) client -> is_firewall_ip_allowed runs client t = true).
Proof.
  intros t. pose proof (add_spec runs ip now t) as Ha. destruct (add_firewall_allowlist_ip _ _ _ t) as [[added created] t1].
  pose proof (delete_spec runs ip t) as Hd. destruct (delete_firewall_allowlist_ip _ _ t) as [deleted t2].
  split; [by destruct Ha|]. split; [by destruct Hd|]. split; [|apply is_allowed_spec].
  intros text (r & Hr & <-)%elem_of_allowed. destruct (run_firewall_wf ops) as [_ _ Hc].
  by eapply Forall_forall in Hc; [|exact Hr].
Qed.

(** ** The client behind trusted proxies *)

Section proxies.
Context (networks : list IpNetwork).

Abbreviation trusted hop := (is_trusted_proxy_source hop networks = true).

(** The walk stops at the first hop that is not trusted, or at the far end. *)
Lemma walk_chain_spec current before :
  walk_chain networks current before =
  match List.find (fun hop => negb (is_trusted_proxy_source hop networks)) (current :: before) with
  | Some hop => hop
  | None => List.last before current
  end.
Proof.
  revert current. induction before as [|hop before IH]; intros current; cbn [walk_chain List.find].
  { by destruct (negb _). }
  destruct (is_trusted_proxy_source current networks); cbn [negb]; [|done]. rewrite IH. cbn [List.find].
  destruct (negb (is_trusted_proxy_source hop networks)); [done|]. destruct (List.find _ before); [done|].
  destruct before as [|hop' before]; [done|]. cbn [List.last]. clear. revert hop'. induction before as [|h before IH]; [done|].
  intros hop'. cbn [List.last]. destruct before; [done|]. apply (IH h).
Qed.

Lemma csv_pieces_app piece a b : csv_pieces piece (a ++ comma :: b) = csv_pieces piece a ++ csv_pieces [] b.
Proof.
  revert piece. induction a as [|c a IH]; intros piece; cbn [csv_pieces app]; [by rewrite bool_decide_true|].
  case_bool_decide; [by rewrite IH|apply IH].
Qed.

Lemma hops_of_app a b ha hb : hops_of a = Some ha -> hops_of b = Some hb -> hops_of (a ++ comma :: b) = Some (ha ++ hb).
Proof.
  unfold hops_of. rewrite csv_pieces_app, !mapM_Some. apply Forall2_app.
Qed.

Lemma hops_of_nonempty value hops : hops_of value = Some hops -> hops <> [].
Proof.
  unfold hops_of. rewrite mapM_Some. destruct (csv_pieces [] value) as [|x l] eqn:E; [|by intros (? & ? & ? & ? & ->)%Forall2_cons_inv_l].
  exfalso. assert (forall piece v, csv_pieces piece v <> []) as H; [|by apply H in E].
  intros piece v. revert piece. induction v as [|c v IH]; intros piece; cbn [csv_pieces]; [done|]. by case_bool_decide.
Qed.

End proxies.

(** A client cannot choose its address: without trusted proxies it is that of
    the connection, whatever the headers say; behind them it is the nearest
    hop that is not trusted, and what a client writes into the header before
    the hops its proxies append changes nothing. (C14) *)
Theorem client_ip_unforgeable headers socket_ip trust networks forged seen forged_hops seen_hops :
  (trust = false \/ is_trusted_proxy_source socket_ip networks = false ->
     resolve_connection_client_ip headers (Some socket_ip) trust networks = Some socket_ip) /\
  (header_value_case_insensitive headers $"x-forwarded-for" = Some (forged ++ comma :: seen) ->
   hops_of forged = Some forged_hops -> hops_of seen = Some seen_hops ->
   forall before hop after, seen_hops = before ++ hop :: after ->
     is_trusted_proxy_source hop networks = false ->
     (forall proxy, proxy ∈ after ++ [socket_ip] -> is_trusted_proxy_source proxy networks = true) ->
     resolve_connection_client_ip headers (Some socket_ip) true networks = Some hop).
Proof.
  unfold resolve_connection_client_ip. split.
  { intros [->| ->]; [done|]. by rewrite andb_false_r. }
  intros Eh Ef Es before hop after Ehops Hhop Hafter. cbn [andb].
  rewrite (Hafter socket_ip), Eh by (apply elem_of_app; right; by apply list_elem_of_singleton).
  unfold resolve_client_ip_from_xff_chain. rewrite (hops_of_app _ _ _ _ Ef Es).
  rewrite bool_decide_false by (by destruct forged_hops, seen_hops as [|]; destruct before).
  f_equal. rewrite walk_chain_spec, Ehops, !reverse_app, reverse_cons, <- !app_assoc.
  assert (forall l rest, (forall proxy, proxy ∈ l -> is_trusted_proxy_source proxy networks = true) ->
    List.find (fun hop => negb (is_trusted_proxy_source hop networks)) (l ++ hop :: rest) = Some hop) as Hfind.
  { induction l as [|x l IH]; intros rest Hl; cbn; [by rewrite Hhop|]. rewrite (Hl x) by by left. cbn. apply IH.
    intros y Hy. apply Hl. by right. }
  pose proof (Hfind (socket_ip :: reverse after) (reverse before ++ reverse forged_hops)) as H. cbn [app] in H |- *.
  rewrite H; [done|]. intros proxy [->|Hp]%elem_of_cons; apply Hafter, elem_of_app; [right; by apply list_elem_of_singleton|].
  left. by apply elem_of_reverse.
Qed.

(** A header that is not a list of addresses counts for nothing, also behind a
    trusted proxy: the request is then taken to come from the proxy. *)
Lemma malformed_header_becomes_proxy headers socket_ip trust networks value :
  header_value_case_insensitive headers $"x-forwarded-for" = Some value -> hops_of value = None ->
  resolve_connection_client_ip headers (Some socket_ip) trust networks = Some socket_ip.
Proof.
  intros Eh Ev. unfold resolve_connection_client_ip. destruct (_ && _); [|done]. rewrite Eh.
  unfold resolve_client_ip_from_xff_chain. by rewrite Ev.
Qed.

(** The gate of the routes: a protected path is open exactly to the clients
    the set admits, and the refusal is a 403, or a 500 without a database. *)
Lemma firewall_gate runs opened path headers socket_ip t :
  match allow_request_or_write_denial runs opened path headers socket_ip t with
  | None => opened = true /\ (is_firewall_protected_path path = true -> admits (allowed_ips t) socket_ip)
  | Some (status, _) => (opened = false /\ status = 500) \/
      (is_firewall_protected_path path = true /\ status = 403 /\
       ((forall s, runs s = true) -> ~ admits (allowed_ips t) socket_ip))
  end.
Proof.
  unfold allow_request_or_write_denial. destruct opened; cbn [negb]; [|by left].
  unfold evaluate_firewall_request. destruct (is_firewall_protected_path path) eqn:Ep; cbn [negb fw_allow fw_status]; [|done].
  assert (resolve_connection_client_ip headers socket_ip (trust_proxy_headers no_proxies) (trusted_proxy_networks no_proxies)
    = socket_ip) as -> by by destruct socket_ip.
  destruct (is_allowed_spec runs socket_ip t) as [H1 H2]. destruct (is_firewall_ip_allowed runs socket_ip t); cbn.
  - split; [done|]. intros _. by apply H1.
  - right. split_and!; [done|done|]. intros Hr Ha. by specialize (H2 Hr Ha).
Qed.

End firewall.

(** ** Concrete inputs *)

Definition sample_proxies : list IpNetwork := [NetworkV4 ((Byte.x0a, Byte.x00, Byte.x00, Byte.x00), 8)].

Definition sample_forwarded : HeaderMap := [($"X-Forwarded-For", $"c0000201,cb007107, 0a000002")].

Lemma client_ip_unforgeable_witness :
  resolve_connection_client_ip sample_forwarded (Some $"0a000001") true sample_proxies = Some $"cb007107".
Proof.
  destruct (client_ip_unforgeable sample_forwarded $"0a000001" true sample_proxies $"c0000201" $"cb007107, 0a000002"
    [$"c0000201"] [$"cb007107"; $"0a000002"]) as [_ H].
  apply (H eq_refl eq_refl eq_refl [] $"cb007107" [$"0a000002"]); [reflexivity|vm_compute; reflexivity|].
  intros proxy [->|[->|Hn%elem_of_nil]%elem_of_cons]%elem_of_cons; [vm_compute; reflexivity|vm_compute; reflexivity|destruct Hn].
Defined.

(** One address is allowed; the theorem says what a second addition and the
    test of a client do. *)
Definition sample_ops : list ((FirewallStatement -> bool) * Z * firewall_op) := [(fun _ => true, 1000, AddIp $"0a000001")].

Lemma firewall_refines_set_witness :
  normalize_ip_address $"0a000001" = Some $"0a000001" /\
  admits (allowed_ips (run_firewall sample_ops)) (Some $"0a000001").
Proof.
  pose proof (firewall_refines_set sample_ops (fun _ => true) $"0b000001" 2000 (Some $"0a000001")) as H.
  cbv zeta in H.
  destruct (add_firewall_allowlist_ip _ _ _ _) as [[added created] t1].
  destruct (delete_firewall_allowlist_ip _ _ _) as [deleted t2].
  destruct H as (_ & _ & _ & Ha & _). split; [vm_compute; reflexivity|]. apply Ha. vm_compute. reflexivity.
Defined.
