(* ===== verification/Decompression.v ===== *)
(** * Decompression: the bodies of compressed requests

    src/native/server/middleware/src/decompression.cpp.  zlib, zstd and brotli
    are the class [Decoders]: a decoder is a state that is asked again and
    again for at most 64 KiB of output.  [DecodersLaws] says what their manuals
    do: a call that asks to go on has read or written something.  The loops
    take a fuel that a theorem shows sufficient. *)

From S2P Require Import Prelude Codec Text Headers ErrorPolicy.
Import Text.Ascii.

(** ** The libraries *)

Inductive inflate_status := Z_OK | Z_STREAM_END | Z_FAILED.
Inductive brotli_status := BrotliSuccess | BrotliError | BrotliNeedsMoreInput | BrotliNeedsMoreOutput.

Class Decoders := {
  has_zstd : bool;                                                   (* TIGHTROPE_HAS_ZSTD_DECOMPRESSION *)
  has_brotli : bool;                                                 (* TIGHTROPE_HAS_BROTLI_DECOMPRESSION *)
  z_stream : Type;
  inflateInit2 : Z -> bytes -> option z_stream;                      (* window bits, next_in *)
  inflate : z_stream -> inflate_status * bytes * z_stream;
  z_avail_in : z_stream -> nat;
  zstd_ctx : Type;
  ZSTD_createDCtx : option zstd_ctx;
  (* the code ([None]: an error), what was written, and the input left *)
  ZSTD_decompressStream : zstd_ctx -> bytes -> option (Z * bytes * zstd_ctx * bytes);
  brotli_state : Type;
  BrotliDecoderCreateInstance : option brotli_state;
  BrotliDecoderDecompressStream : brotli_state -> bytes -> brotli_status * bytes * brotli_state * bytes;
}.

Class DecodersLaws (D : Decoders) := {
  inflate_starts : forall bits input s, inflateInit2 bits input = Some s -> z_avail_in s = length input;
  inflate_progress : forall s p s', inflate s = (Z_OK, p, s') ->
    (z_avail_in s' <= z_avail_in s)%nat /\ (p <> [] \/ (z_avail_in s' < z_avail_in s)%nat);
  zstd_progress : forall c input rc p c' rest, input <> [] -> ZSTD_decompressStream c input = Some (rc, p, c', rest) ->
    (length rest <= length input)%nat /\ (p <> [] \/ (length rest < length input)%nat);
  brotli_progress : forall s input status p s' rest,
    BrotliDecoderDecompressStream s input = (status, p, s', rest) ->
    status = BrotliNeedsMoreOutput \/ (status = BrotliNeedsMoreInput /\ rest <> []) ->
    (length rest <= length input)%nat /\ (p <> [] \/ (length rest < length input)%nat);
}.

(** ** What a loop ends with: a value or one of the three exceptions *)

Inductive outcome :=
| Decoded (body : bytes)
| InvalidArgument
| LengthError
| RuntimeError.

(** One turn of a loop: output and the next state, or output and the end. *)
Inductive turn (S : Type) :=
| Continue (produced : bytes) (s : S)
| Finish (produced : bytes) (complete : bool).
Arguments Continue {S} _ _.
Arguments Finish {S} _ _.

(** [output.append], unless it would exceed [max_size]. *)
Definition append_bounded (max_size : Z) (output produced : bytes) : option bytes :=
  if bool_decide (produced = []) then Some output
  else if max_size <? size_of output + size_of produced then None else Some (output ++ produced).

Section decoders.
Context {decoders : Decoders} (max_size : Z).

(** The shape of the three loops. *)
Fixpoint drain {S} (fuel : nat) (next : S -> turn S) (output : bytes) (s : S) : option outcome :=
  match fuel with
  | O => None
  | S fuel =>
      match next s with
      | Continue produced s =>
          match append_bounded max_size output produced with
          | None => Some LengthError
          | Some output => drain fuel next output s
          end
      | Finish produced complete =>
          match append_bounded max_size output produced with
          | None => Some LengthError
          | Some output => Some (if complete then Decoded output else RuntimeError)
          end
      end
  end.

(** [while (rc == Z_OK)]: the call, then what is checked after the loop. *)
Definition inflate_turn (s : z_stream) : turn z_stream :=
  match inflate s with
  | (Z_OK, produced, s) => Continue produced s
  | (Z_STREAM_END, produced, _) => Finish produced true
  | (Z_FAILED, produced, _) => Finish produced false
  end.

Definition MAX_WBITS : Z := 15.

(** [avail_in] is a [uInt]. *)
Definition inflate_with_window_bits (fuel : nat) (input : bytes) (window_bits : Z) : option outcome :=
  match inflateInit2 window_bits (take (Z.to_nat (u32 (size_of input))) input) with
  | None => Some RuntimeError
  | Some stream => drain fuel inflate_turn [] stream
  end.

(** [while (pos < size)], with the last code that was returned. *)
Definition zstd_turn (s : Z * zstd_ctx * bytes) : turn (Z * zstd_ctx * bytes) :=
  let '(rc, ctx, input) := s in
  if bool_decide (input = []) then Finish [] (rc =? 0)
  else match ZSTD_decompressStream ctx input with
       | None => Finish [] false
       | Some (rc, produced, ctx, rest) => Continue produced (rc, ctx, rest)
       end.

Definition zstd_decompress (fuel : nat) (input : bytes) : option outcome :=
  match ZSTD_createDCtx with
  | None => Some RuntimeError
  | Some ctx => drain fuel zstd_turn [] (1, ctx, input)
  end.

Definition brotli_turn (s : brotli_state * bytes) : turn (brotli_state * bytes) :=
  let '(status, produced, state, rest) := BrotliDecoderDecompressStream s.1 s.2 in
  match status with
  | BrotliSuccess => Finish produced true
  | BrotliError => Finish produced false
  | BrotliNeedsMoreInput => if bool_decide (rest = []) then Finish produced false else Continue produced (state, rest)
  | BrotliNeedsMoreOutput => Continue produced (state, rest)
  end.

Definition brotli_decompress (fuel : nat) (input : bytes) : option outcome :=
  match BrotliDecoderCreateInstance with
  | None => Some RuntimeError
  | Some state => drain fuel brotli_turn [] (state, input)
  end.

Definition decompress_one (fuel : nat) (input encoding : bytes) : option outcome :=
  if bool_decide (encoding = $"identity") then Some (Decoded input)
  else if has_zstd && (bool_decide (encoding = $"zstd") || bool_decide (encoding = $"zst")) then zstd_decompress fuel input
  else if has_brotli && bool_decide (encoding = $"br") then brotli_decompress fuel input
  else if bool_decide (encoding = $"gzip") then inflate_with_window_bits fuel input (16 + MAX_WBITS)
  else if bool_decide (encoding = $"deflate") then inflate_with_window_bits fuel input MAX_WBITS
  else Some InvalidArgument.

(** The loop over the encodings, given in the order they are undone. *)
Fixpoint decompress_layers (fuel : nat) (input : bytes) (encodings : list bytes) : option outcome :=
  match encodings with
  | [] => Some (Decoded input)
  | encoding :: encodings =>
      match decompress_one fuel input encoding with
      | Some (Decoded output) => decompress_layers fuel output encodings
      | other => other
      end
  end.

(** ** Headers *)

(** [find(';')] and [substr(0, params)]. *)
Fixpoint before_semicolon (token : bytes) : bytes :=
  match token with
  | [] => []
  | c :: token => if bool_decide (c = Byte.x3b) then [] else c :: before_semicolon token
  end.

Definition encoding_of (piece : bytes) : bytes := to_lower_ascii (trim_ascii (before_semicolon (trim_ascii piece))).

Definition parse_content_encodings (value : bytes) : list bytes :=
  filter (fun encoding => encoding <> []) (encoding_of <$> csv_pieces [] value).

Definition find_header_or_empty (headers : HeaderMap) (header_name : bytes) : bytes :=
  match List.find (fun kv => equals_case_insensitive kv.1 header_name) headers with Some kv => kv.2 | None => [] end.

Definition header_value_contains_case_insensitive (headers : HeaderMap) (header_name needle : bytes) : bool :=
  let value := find_header_or_empty headers header_name in
  if bool_decide (value = []) then false
  else Text.Find.contains (to_lower_ascii value) (to_lower_ascii needle).

Definition strip_content_encoding_headers (headers : HeaderMap) (body_size : Z) : HeaderMap :=
  hm_assign $"content-length" (to_string body_size)
    (filter (fun kv => equals_case_insensitive kv.1 $"content-encoding" || equals_case_insensitive kv.1 $"content-length" = false)
       headers).

Definition looks_like_zstd_frame (body : bytes) : bool := starts_with body [Byte.x28; Byte.xb5; Byte.x2f; Byte.xfd].

Definition looks_like_gzip_frame (body : bytes) : bool := starts_with body [Byte.x1f; Byte.x8b].

(** Every exception of the attempt is caught: [None] inside. *)
Definition maybe_decompress_undeclared_json_body (fuel : nat) (body : bytes) (headers : HeaderMap) : option (option bytes) :=
  let attempt encoding :=
    (fun o => match o with Decoded output => Some output | _ => None end) <$> decompress_one fuel body encoding in
  if negb (header_value_contains_case_insensitive headers $"content-type" $"json") then Some None
  else if looks_like_zstd_frame body then attempt $"zstd"
  else if looks_like_gzip_frame body then attempt $"gzip"
  else Some None.

(** ** decompress_request_body *)

Definition dashboard_error_json (code message : bytes) : bytes :=
  $"{" ++ json_key $"error" ++ $"{" ++ json_key $"code" ++ Text.Json.quote_json_string code ++
  $"," ++ json_key $"message" ++ Text.Json.quote_json_string message ++ $"}}".

Record DecompressionResult := mkDecompression {
  ok : bool; result_status : Z; result_body : bytes; error_body : bytes; result_headers : HeaderMap }.

Definition passed_on (body : bytes) (headers : HeaderMap) : DecompressionResult := mkDecompression true 200 body [] headers.

Definition decoded_as (body : bytes) (headers : HeaderMap) : DecompressionResult :=
  mkDecompression true 200 body [] (strip_content_encoding_headers headers (size_of body)).

Definition refused (status : Z) (code message : bytes) : DecompressionResult :=
  mkDecompression false status [] (dashboard_error_json code message) [].

Definition decompress_request_body (fuel : nat) (body : bytes) (headers : HeaderMap) : option DecompressionResult :=
  let content_encoding := find_header_or_empty headers $"content-encoding" in
  if bool_decide (content_encoding = []) then
    sniffed ← maybe_decompress_undeclared_json_body fuel body headers;
    Some (match sniffed with Some body => decoded_as body headers | None => passed_on body headers end)
  else
    let encodings := parse_content_encodings content_encoding in
    if bool_decide (encodings = []) then Some (passed_on body headers)
    else
      o ← decompress_layers fuel body (reverse encodings);
      match o with
      | Decoded decompressed =>
          if forallb (fun encoding => bool_decide (encoding = $"identity")) encodings
          then
            sniffed ← maybe_decompress_undeclared_json_body fuel decompressed headers;
            Some (decoded_as (default decompressed sniffed) headers)
          else Some (decoded_as decompressed headers)
      | InvalidArgument => Some (refused 400 $"invalid_request" $"Unsupported Content-Encoding")
      | LengthError => Some (refused 413 $"payload_too_large" $"Request body exceeds the maximum allowed size")
      | RuntimeError =>
          Some (refused 400 $"invalid_request" $"Request body is compressed but could not be decompressed")
      end.

End decoders.

Definition kDefaultMaxSize : Z := 32 * 1024 * 1024.

(** ** The loops end, within their bound *)

Section drain.
Context {S : Type} (max_size : Z) (next : S -> turn S) (measure : S -> nat).

Lemma append_bounded_spec output produced output' :
  size_of output <= max_size -> append_bounded max_size output produced = Some output' ->
  output' = output ++ produced /\ size_of output' <= max_size.
Proof.
  unfold append_bounded. intros Hs. case_bool_decide as E; [intros [= <-]; by rewrite E, app_nil_r|].
  destruct (Z.ltb_spec max_size (size_of output + size_of produced)); [done|]. intros [= <-]. by rewrite size_of_app.
Qed.

(** Every turn that goes on produces output or lowers the measure, so the
    loop turns at most [measure s + max_size] times. *)
Lemma drain_terminates fuel output s :
  (forall s p s', next s = Continue p s' -> (measure s' <= measure s)%nat /\ (p <> [] \/ (measure s' < measure s)%nat)) ->
  size_of output <= max_size -> (measure s + Z.to_nat (max_size - size_of output) < fuel)%nat ->
  is_Some (drain max_size fuel next output s).
Proof.
  intros Hnext. revert output s. induction fuel as [|fuel IH]; intros output s Hs Hf; [lia|]. cbn [drain].
  destruct (next s) as [p s'|p complete] eqn:E; [|by destruct (append_bounded _ _ _)].
  destruct (append_bounded max_size output p) as [output'|] eqn:Ea; [|done].
  apply append_bounded_spec in Ea as [-> Hs']; [|done]. apply IH; [done|]. apply Hnext in E as [Hm Hp].
  rewrite size_of_app in *. pose proof (size_of_nonneg p). destruct Hp as [Hp|Hp]; [|lia].
  assert (0 < size_of p) by (destruct p; [done|rewrite size_of_cons; pose proof (size_of_nonneg p); lia]). lia.
Qed.

Lemma drain_bounded fuel output s body :
  size_of output <= max_size -> drain max_size fuel next output s = Some (Decoded body) -> size_of body <= max_size.
Proof.
  revert output s. induction fuel as [|fuel IH]; intros output s Hs; [done|]. cbn [drain].
  destruct (next s) as [p s'|p complete]; (destruct (append_bounded max_size output p) as [output'|] eqn:Ea; [|done]);
    apply append_bounded_spec in Ea as [-> Hs']; try done; [by apply IH|]. by destruct complete; intros [= <-].
Qed.

End drain.

Section decompression.
Context {decoders : Decoders} {laws : DecodersLaws decoders} (max_size : Z) (max_nonneg : 0 <= max_size).

Lemma one_terminates fuel input encoding :
  (length input + Z.to_nat max_size < fuel)%nat -> is_Some (decompress_one max_size fuel input encoding).
Proof.
  intros Hf. unfold decompress_one. case_bool_decide; [done|].
  assert (forall bits, is_Some (inflate_with_window_bits max_size fuel input bits)) as Hi.
  { intros bits. unfold inflate_with_window_bits. destruct (inflateInit2 _ _) as [s|] eqn:E; [|done].
    apply inflate_starts in E. apply (drain_terminates _ _ z_avail_in).
    - intros s1 p s2. unfold inflate_turn. destruct (inflate s1) as [[[] ?] ?] eqn:Ei; intros [= <- <-]. by eapply inflate_progress.
    - done.
    - rewrite E, length_take. rewrite Z.sub_0_r. lia. }
  destruct (has_zstd && _).
  { unfold zstd_decompress. destruct ZSTD_createDCtx as [ctx|]; [|done].
    apply (drain_terminates _ _ (fun s => length s.2)); [|done|rewrite Z.sub_0_r; cbn [snd]; lia].
    intros [[rc c] i] p [[rc' c'] i']. unfold zstd_turn. case_bool_decide; [done|].
    destruct (ZSTD_decompressStream c i) as [[[[? ?] ?] ?]|] eqn:Ez; [|done]. intros [= <- <- <- <-]. by eapply zstd_progress. }
  destruct (has_brotli && _).
  { unfold brotli_decompress. destruct BrotliDecoderCreateInstance as [state|]; [|done].
    apply (drain_terminates _ _ (fun s => length s.2)); [|done|rewrite Z.sub_0_r; cbn [snd]; lia].
    intros [st i] p [st' i']. unfold brotli_turn. cbn [fst snd].
    destruct (BrotliDecoderDecompressStream st i) as [[[status ?] ?] ?] eqn:Eb. destruct status; try done.
    - case_bool_decide; [done|]. intros [= <- <- <-]. eapply brotli_progress; eauto.
    - intros [= <- <- <-]. eapply brotli_progress; eauto. }
  repeat case_bool_decide; done || apply Hi.
Qed.

Lemma one_bounded fuel input encoding body :
  decompress_one max_size fuel input encoding = Some (Decoded body) ->
  (encoding = $"identity" /\ body = input) \/ size_of body <= max_size.
Proof.
  unfold decompress_one. case_bool_decide; [intros [= <-]; by left|]. intros E. right.
  unfold zstd_decompress, brotli_decompress, inflate_with_window_bits in E.
  repeat case_match; try done; by eapply drain_bounded in E.
Qed.

Lemma layers_bounded fuel input encodings body :
  decompress_layers max_size fuel input encodings = Some (Decoded body) -> body = input \/ size_of body <= max_size.
Proof.
  revert input. induction encodings as [|e es IH]; intros input; cbn [decompress_layers]; [intros [= <-]; by left|].
  destruct (decompress_one _ _ _ _) as [[output| | |]|] eqn:E; try done. intros H.
  apply one_bounded in E as [[_ ->]|E]; [by apply IH|]. right. destruct (IH _ H) as [->|]; done.
Qed.

Lemma layers_terminate fuel input encodings n :
  (length input <= n)%nat -> (Z.to_nat max_size <= n)%nat -> (n + Z.to_nat max_size < fuel)%nat ->
  is_Some (decompress_layers max_size fuel input encodings).
Proof.
  intros Hi Hm Hf. revert input Hi. induction encodings as [|e es IH]; intros input Hi; cbn [decompress_layers]; [done|].
  destruct (one_terminates fuel input e) as [o E]; [lia|]. rewrite E. destruct o as [output| | |]; try done.
  apply IH. apply one_bounded in E as [[_ ->]|E]; [done|]. unfold size_of in E. lia.
Qed.

Lemma undeclared_terminates fuel body headers :
  (length body + Z.to_nat max_size < fuel)%nat -> is_Some (maybe_decompress_undeclared_json_body max_size fuel body headers).
Proof.
  intros Hf. unfold maybe_decompress_undeclared_json_body. repeat case_match; try done; by apply fmap_is_Some, one_terminates.
Qed.

Lemma undeclared_bounded fuel body headers output :
  maybe_decompress_undeclared_json_body max_size fuel body headers = Some (Some output) -> size_of output <= max_size.
Proof.
  unfold maybe_decompress_undeclared_json_body. case_match; [done|].
  assert (forall e, e <> $"identity" ->
    (fun o => match o with Decoded output => Some output | _ => None end) <$> decompress_one max_size fuel body e
      = Some (Some output) -> size_of output <= max_size) as H0.
  { intros e He (o & Eo & Ho)%fmap_Some. destruct o; try done. injection Ho as ->.
    by apply one_bounded in Eo as [[? _]|?]. }
  repeat case_match; try done; by apply H0.
Qed.

(** Decompression ends: no body, compressed in however many layers, keeps a
    loop turning; twice the bound and the size of the body, in turns, is
    always enough. *)
Theorem decompression_terminates fuel body headers :
  (length body + 2 * Z.to_nat max_size < fuel)%nat -> is_Some (decompress_request_body max_size fuel body headers).
Proof.
  intros Hf. unfold decompress_request_body. case_bool_decide.
  { destruct (undeclared_terminates fuel body headers) as [sniffed ->]; [lia|]. eauto. }
  case_bool_decide; [eauto|].
  destruct (layers_terminate fuel body (reverse (parse_content_encodings (find_header_or_empty headers $"content-encoding")))
    (length body + Z.to_nat max_size)) as [o Eo]; [lia..|]. rewrite Eo. cbn.
  destruct o as [output| | |]; try (by eexists). case_match; [|by eexists].
  apply layers_bounded in Eo. destruct (undeclared_terminates fuel output headers) as [sniffed ->]; [|eauto].
  destruct Eo as [->|Eo]; [lia|]. unfold size_of in Eo. lia.
Qed.

Lemma hm_find_assign key value (m : HeaderMap) : hm_find key (hm_assign key value m) = Some value.
Proof.
  unfold hm_assign. destruct (hm_contains key m) eqn:E; unfold hm_contains, hm_find in *.
  - induction m as [|[k v] m IH]; [done|]. rewrite fmap_cons. cbn [List.find fst snd] in *. destruct (decide (k = key)) as [->|Hk].
    + cbn [fst]. by rewrite bool_decide_true.
    + cbn [fst]. rewrite bool_decide_false in E |- * by done. by apply IH.
  - induction m as [|[k v] m IH]; cbn [List.find fst snd app] in *; [by rewrite bool_decide_true|].
    case_bool_decide; [done|]. by apply IH.
Qed.

Lemma stripped_headers headers body_size :
  hm_find $"content-length" (strip_content_encoding_headers headers body_size) = Some (to_string body_size) /\
  find_header_or_empty (strip_content_encoding_headers headers body_size) $"content-encoding" = [].
Proof.
  split; [apply hm_find_assign|]. unfold strip_content_encoding_headers, hm_assign. set (m := filter _ headers).
  assert (forall kv, kv ∈ m -> equals_case_insensitive kv.1 $"content-encoding" = false) as Hm.
  { intros kv [Hk _]%list_elem_of_filter. by apply orb_false_iff in Hk as [? _]. }
  assert (forall m' : HeaderMap, (forall kv, kv ∈ m' -> equals_case_insensitive kv.1 $"content-encoding" = false) ->
    find_header_or_empty m' $"content-encoding" = []) as Hf.
  { intros m' H'. unfold find_header_or_empty. destruct (List.find _ m') as [kv|] eqn:E; [|done].
    apply List.find_some in E as [Hi E]. rewrite H' in E by by apply list_elem_of_In. done. }
  apply Hf. case_match.
  - intros kv (kv' & -> & Hk)%list_elem_of_fmap. case_decide; [by vm_compute|by apply Hm].
  - intros kv [Hk| ->%list_elem_of_singleton]%elem_of_app; [by apply Hm|by vm_compute].
Qed.

(** A request goes on with the body it came with, or with a decoded one that
    is within the limit, whose length the headers state and whose coding they
    no longer name; any failure is a 400 or a 413 without a body. *)
Theorem decompressed_body_bounded fuel body headers r :
  decompress_request_body max_size fuel body headers = Some r ->
  if ok r
  then result_status r = 200 /\ (result_body r = body \/ size_of (result_body r) <= max_size) /\
    ((result_body r = body /\ result_headers r = headers) \/
     (hm_find $"content-length" (result_headers r) = Some (to_string (size_of (result_body r))) /\
      find_header_or_empty (result_headers r) $"content-encoding" = []))
  else (result_status r = 400 \/ result_status r = 413) /\ result_body r = [].
Proof.
  unfold decompress_request_body. case_bool_decide.
  { intros (sniffed & Es & [= <-])%bind_Some. destruct sniffed as [output|]; cbn; [|by split_and!; [|left|left]].
    apply undeclared_bounded in Es. split_and!; [done|by right|right; apply stripped_headers]. }
  case_bool_decide; [intros [= <-]; cbn; by split_and!; [|left|left]|].
  intros (o & Eo & Hr)%bind_Some. destruct o as [output| | |]; try (injection Hr as <-; cbn; auto).
  apply layers_bounded in Eo. destruct (forallb _ _).
  - apply bind_Some in Hr as (sniffed & Es & [= <-]). cbn. split_and!; [done| |right; apply stripped_headers].
    destruct sniffed as [output'|]; cbn; [right; by eapply undeclared_bounded|done].
  - injection Hr as <-. cbn. split_and!; [done|done|right; apply stripped_headers].
Qed.

(** The layers of a body are undone in the reverse of the order in which
    [Content-Encoding] lists them, whatever the coders are, as long as each
    decoder restores what its coder made. *)
Lemma layers_undone fuel (encode : bytes -> bytes -> bytes) encodings body :
  (forall before encoding after, encodings = before ++ encoding :: after ->
     let input := foldl (fun b e => encode e b) body before in
     decompress_one max_size fuel (encode encoding input) encoding = Some (Decoded input)) ->
  decompress_layers max_size fuel (foldl (fun b e => encode e b) body encodings) (reverse encodings) = Some (Decoded body).
Proof.
  induction encodings as [|e es IH] using rev_ind; intros H; [done|].
  rewrite foldl_app, reverse_app. cbn [foldl reverse app decompress_layers].
  change (reverse [e]) with [e]. cbn [app decompress_layers]. pose proof (H es e [] eq_refl) as He. cbn zeta in He. rewrite He.
  apply IH. intros before e' after E. apply (H before e' (after ++ [e])). by rewrite E, <- app_assoc.
Qed.

End decompression.

(** ** Concrete decoders: each writes one byte at a time what it reads *)

Definition byte_inflate (s : bytes) : inflate_status * bytes * bytes :=
  match s with [] => (Z_STREAM_END, [], []) | b :: s => (Z_OK, [b], s) end.

(** It reads all there is, keeps it, and tells how much it has left to write. *)
Definition byte_zstd (kept input : bytes) : option (Z * bytes * bytes * bytes) :=
  match kept ++ input with
  | [] => Some (0, [], [], [])
  | b :: kept => Some (size_of kept, [b], kept, [])
  end.

#[export] Instance byte_decoders : Decoders := {|
  has_zstd := true;
  has_brotli := false;
  z_stream := bytes;
  inflateInit2 _ input := Some input;
  inflate := byte_inflate;
  z_avail_in := length;
  zstd_ctx := bytes;
  ZSTD_createDCtx := Some [];
  ZSTD_decompressStream := byte_zstd;
  brotli_state := unit;
  BrotliDecoderCreateInstance := Some ();
  BrotliDecoderDecompressStream _ input := (BrotliSuccess, input, (), []);
|}.

#[export] Instance byte_decoders_laws : DecodersLaws byte_decoders.
Proof.
  split.
  - by intros bits input s [= <-].
  - intros [|b s] p s'; [done|]. intros [= <- <-]. cbn. split; [lia|by left].
  - intros c input rc p c' rest Hne. cbn. unfold byte_zstd. destruct (c ++ input) as [|b kept] eqn:E.
    + by apply app_eq_nil in E as [_ ?].
    + intros [= <- <- <- <-]. split; [cbn; lia|by left].
  - intros s input status p s' rest [= <- _ _]. by intros [?|[? _]].
Qed.

(** The zstd loop ends when the input is used up, also when the decoder has
    output left that did not fit its buffer: such a frame, which one more call
    would have completed, is refused. *)
Lemma zstd_tail_lost :
  ZSTD_decompressStream (Decoders := byte_decoders) [] $"ab" = Some (1, $"a", $"b", []) /\
  ZSTD_decompressStream (Decoders := byte_decoders) $"b" [] = Some (0, $"b", [], []) /\
  zstd_decompress kDefaultMaxSize 10 $"ab" = Some RuntimeError.
Proof. by vm_compute. Qed.

Definition gzip_headers : HeaderMap := [($"Content-Encoding", $"gzip, identity;q=1"); ($"host", $"h")].

Lemma decompression_terminates_witness : is_Some (decompress_request_body 10 30 $"body" gzip_headers).
Proof. apply (decompression_terminates 10 ltac:(lia) 30 $"body" gzip_headers). vm_compute. lia. Defined.

Lemma decompressed_body_bounded_witness :
  exists r, decompress_request_body 10 30 $"body" gzip_headers = Some r /\ result_body r = $"body" /\
    find_header_or_empty (result_headers r) $"content-encoding" = [].
Proof.
  eexists. split; [vm_compute; reflexivity|]. split; [reflexivity|].
  pose proof (decompressed_body_bounded 10 ltac:(lia) 30 $"body" gzip_headers _ eq_refl) as H. cbn [ok] in H.
  destruct H as (_ & _ & [[_ H]|[_ H]]); [|exact H]. vm_compute in H. discriminate H.
Defined.
