(* ===== verification/AsyncExecutor.v ===== *)
(** * AsyncExecutor: the bounded queue of proxied requests

    src/native/server/src/async_executor.cpp.  Every method and every part of
    the worker loop that holds the mutex is one step of the thread that runs
    it; a shutdown waits for the threads it took over to leave their loops.
    [Runtime] (server.cpp) starts the executor on the server's thread, which it
    joins before it shuts the executor down: a start and a shutdown, or two
    shutdowns, are not in course at the same time. *)

From S2P Require Import Prelude.

Definition kMaxInFlightTasks : Z := 512.

Record AsyncExecutor (T : Type) := mkExecutor {
  queue : list T;
  in_flight : Z;
  workers : Z;
  accepting : bool;
  stopping : bool;
}.
Arguments mkExecutor {T} _ _ _ _ _.
Arguments queue {T} _.
Arguments in_flight {T} _.
Arguments workers {T} _.
Arguments accepting {T} _.
Arguments stopping {T} _.

Definition initial_executor {T} : AsyncExecutor T := mkExecutor [] 0 0 false false.

Section executor.
Context {T : Type}.
Implicit Types (x : AsyncExecutor T) (task : T).

(** [std::clamp(hardware_threads, 4, 16)], 4 when the number is unknown. *)
Definition worker_count (hardware_threads : Z) : Z :=
  Z.max 4 (Z.min 16 (if hardware_threads =? 0 then 4 else hardware_threads)).

Definition start (hardware_threads : Z) x : AsyncExecutor T :=
  mkExecutor (queue x) (in_flight x) (if negb (workers x =? 0) then workers x else worker_count hardware_threads) true false.

Definition stop_accepting x : AsyncExecutor T :=
  mkExecutor (queue x) (in_flight x) (workers x) false (stopping x).

(** What [wait_idle] waits for. *)
Definition idle x : bool := bool_decide (length (queue x) = 0%nat) && (in_flight x =? 0).

(** The two critical sections of [shutdown]; the workers are joined between
    them, [workers.swap] leaving none. *)
Definition shutdown_begin x : AsyncExecutor T := mkExecutor (queue x) (in_flight x) 0 false true.
Definition shutdown_end x : AsyncExecutor T := mkExecutor [] 0 (workers x) (accepting x) false.

Definition enqueue task x : bool * AsyncExecutor T :=
  if negb (accepting x) || stopping x then (false, x)
  else if kMaxInFlightTasks <=? size_of (queue x) + in_flight x then (false, x)
  else (true, mkExecutor (queue x ++ [task]) (in_flight x) (workers x) (accepting x) (stopping x)).

(** The worker loop: a task is taken from the front, run, and given up. *)
Definition take_task x : option (T * AsyncExecutor T) :=
  match queue x with
  | [] => None
  | task :: queue => Some (task, mkExecutor queue (in_flight x + 1) (workers x) (accepting x) (stopping x))
  end.

Definition finish_task x : AsyncExecutor T :=
  mkExecutor (queue x) (if 0 <? in_flight x then in_flight x - 1 else in_flight x) (workers x) (accepting x) (stopping x).

(** ** Every interleaving *)

(** The calls of the runtime. *)
Inductive executor_control := Start (hardware_threads : Z) | StopAccepting | ShutdownBegin | ShutdownEnd.

End executor.

Module Threads.
Section threads.
Context {T : Type}.
Implicit Types (x : AsyncExecutor T) (task : T).

Inductive executor_step :=
| Control (c : executor_control) | Enqueue (task : T) | Take (worker : nat) | Finish (worker : nat) | Leave (worker : nat).

(** The executor and its threads: what each thread that lives is doing
    ([None]: it waits), the next name of a thread, those of [workers_], and
    those that a shutdown waits for; and the tasks accepted, started and
    finished from the beginning on. *)
Record Pool := mkPool {
  executor : AsyncExecutor T;
  live : gmap nat (option T);
  next_thread : nat;
  threads : list nat;
  joining : option (list nat);
  accepted : list T;
  started : list T;
  finished : list T;
}.

Definition initial_pool : Pool := mkPool initial_executor ∅ 0 [] None [] [] [].

(** The tasks that run, as the threads hold them. *)
Definition busy (m : gmap nat (option T)) : list T := omap snd (map_to_list m).

Definition spawn (names : list nat) (m : gmap nat (option T)) : gmap nat (option T) := foldr (fun n => <[n := None]>) m names.

(** A step that cannot be taken leaves the pool as it is: a thread takes a task
    when it waits, leaves its loop when it has been told to and nothing is
    queued, and the second part of a shutdown comes when all its threads have
    left. *)
Definition control (c : executor_control) (p : Pool) : Pool :=
  let '(mkPool x m n ts j a s f) := p in
  match c, j with
  | Start hardware_threads, None =>
      let x' := start hardware_threads x in
      if workers x =? 0
      then let names := seq n (Z.to_nat (workers x')) in mkPool x' (spawn names m) (n + length names) names j a s f
      else mkPool x' m n ts j a s f
  | StopAccepting, _ => mkPool (stop_accepting x) m n ts j a s f
  | ShutdownBegin, None => mkPool (shutdown_begin x) m n [] (Some ts) a s f
  | ShutdownEnd, Some names =>
      if forallb (fun w => bool_decide (m !! w = None)) names then mkPool (shutdown_end x) m n ts None a s f else p
  | _, _ => p
  end.

Definition step (p : Pool) (e : executor_step) : Pool :=
  let '(mkPool x m n ts j a s f) := p in
  match e with
  | Control c => control c p
  | Enqueue task => let '(ok, x) := enqueue task x in mkPool x m n ts j (if ok then a ++ [task] else a) s f
  | Take w =>
      match m !! w, take_task x with
      | Some None, Some (task, x) => mkPool x (<[w := Some task]> m) n ts j a (s ++ [task]) f
      | _, _ => p
      end
  | Finish w =>
      match m !! w with
      | Some (Some task) => mkPool (finish_task x) (<[w := None]> m) n ts j a s (f ++ [task])
      | _ => p
      end
  | Leave w =>
      match m !! w, queue x with
      | Some None, [] => if stopping x then mkPool x (delete w m) n ts j a s f else p
      | _, _ => p
      end
  end.

Definition run (steps : list executor_step) : Pool := foldl step initial_pool steps.

(** ** What holds in every state *)

(** The threads that serve the queue. *)
Definition serving (p : Pool) : list nat := default (threads p) (joining p).

Record pool_ok (p : Pool) : Prop := {
  counted : in_flight (executor p) = size_of (busy (live p));
  bounded : size_of (queue (executor p)) + size_of (busy (live p)) <= kMaxInFlightTasks;
  in_order : accepted p = started p ++ queue (executor p);
  each_once : started p ≡ₚ finished p ++ busy (live p);
  named : forall w, w ∈ serving p -> (w < next_thread p)%nat;
  of_pool : forall w, is_Some (live p !! w) -> w ∈ serving p;
  all_live : joining p = None \/ queue (executor p) <> [] -> forall w, w ∈ serving p -> is_Some (live p !! w);
  somebody : accepting (executor p) = true \/ queue (executor p) <> [] -> serving p <> [];
  counted_threads : workers (executor p) = size_of (threads p);
  told : match joining p with
         | Some _ => accepting (executor p) = false /\ stopping (executor p) = true /\ threads p = []
         | None => stopping (executor p) = false
         end;
}.

Lemma busy_at w v m : m !! w = Some v -> busy m ≡ₚ option_list v ++ busy (delete w m).
Proof.
  intros H. unfold busy. rewrite <- (insert_delete_id m w v) at 1 by done.
  rewrite map_to_list_insert by apply lookup_delete_eq. by destruct v.
Qed.

Lemma busy_set w v m : busy (<[w := v]> m) ≡ₚ option_list v ++ busy (delete w m).
Proof. rewrite (busy_at w v) by apply lookup_insert_eq. by rewrite delete_insert_eq. Qed.

Lemma busy_insert m w t : m !! w = Some None -> busy (<[w := Some t]> m) ≡ₚ t :: busy m.
Proof. intros H. by rewrite busy_set, (busy_at w None m). Qed.

Lemma busy_finish m w t : m !! w = Some (Some t) -> busy m ≡ₚ t :: busy (<[w := None]> m).
Proof. intros H. by rewrite busy_set, (busy_at w (Some t) m). Qed.

Lemma busy_delete m w : m !! w = Some None -> busy (delete w m) ≡ₚ busy m.
Proof. intros H. by rewrite (busy_at w None m). Qed.

Lemma busy_spawn names m : (forall w, w ∈ names -> m !! w = None) -> NoDup names -> busy (spawn names m) ≡ₚ busy m.
Proof.
  intros Hn Hd. induction Hd as [|n names Hni Hd IH]; [done|]. cbn [spawn foldr]. fold (spawn names m).
  assert (spawn names m !! n = None) as Hf.
  { assert (forall l, n ∉ l -> spawn l m !! n = m !! n) as H.
    { induction l as [|k l IHl]; [done|]. intros [? ?]%not_elem_of_cons. cbn. rewrite lookup_insert_ne by done. by apply IHl. }
    rewrite H by done. apply Hn. left. }
  unfold busy at 1. rewrite map_to_list_insert by done. cbn. apply IH. intros w Hw. apply Hn. by right.
Qed.

Lemma spawn_lookup names m w : is_Some (spawn names m !! w) <-> w ∈ names \/ is_Some (m !! w).
Proof.
  induction names as [|n names IH]; cbn; [split; [by right|intros [H|H]; [by apply elem_of_nil in H|done]]|]. rewrite elem_of_cons.
  destruct (decide (n = w)) as [->|Hne].
  - rewrite lookup_insert_eq. split; [intros _; by left; left|by eexists].
  - rewrite lookup_insert_ne by done. rewrite IH. split; [intros [?|?]; auto|intros [[?|?]|?]; [congruence|auto|auto]].
Qed.

Lemma busy_size m w t : m !! w = Some (Some t) -> size_of (busy m) = 1 + size_of (busy (<[w := None]> m)).
Proof. intros H. apply busy_finish, Permutation_length in H. unfold size_of. cbn in H. lia. Qed.

Lemma enqueue_ok task p : pool_ok p -> pool_ok (step p (Enqueue task)).
Proof.
  destruct p as [x m n ts j a s f]. intros H. cbn. unfold enqueue.
  destruct (accepting x) eqn:Ea; [|exact H]. destruct (stopping x) eqn:Es; [exact H|]. cbn [negb orb].
  destruct (Z.leb_spec kMaxInFlightTasks (size_of (queue x) + in_flight x)); [exact H|].
  destruct H as [H1 H2 H3 H4 H5 H6 H7 H8 H9 H10]. cbn in *.
  destruct j as [names|]; [destruct H10; congruence|].
  split; cbn; try done; [|by rewrite H3, app_assoc|auto|auto].
  rewrite size_of_app. change (size_of [task]) with 1. lia.
Qed.

Lemma take_ok w p : pool_ok p -> pool_ok (step p (Take w)).
Proof.
  destruct p as [x m n ts j a s f]. intros H. cbn. destruct (m !! w) as [[t|]|] eqn:Ew; [done| |done].
  unfold take_task. destruct (queue x) as [|t q] eqn:Eq; [done|]. destruct H as [H1 H2 H3 H4 H5 H6 H7 H8 H9 H10]. cbn in *.
  pose proof (busy_insert m w t Ew) as Hp. pose proof (Permutation_length Hp) as Hl. cbn in Hl. rewrite Eq, size_of_cons in H2.
  assert (size_of (busy (<[w:=Some t]> m)) = 1 + size_of (busy m)) as Hb by (unfold size_of; lia).
  split; cbn; try done.
  - lia.
  - lia.
  - by rewrite H3, Eq, <- app_assoc.
  - rewrite Hp, H4. by rewrite <- app_assoc, (Permutation_app_comm (busy m) [t]).
  - intros k [? Hk]. destruct (decide (w = k)) as [->|Hne]; [by apply H6; rewrite Ew|].
    rewrite lookup_insert_ne in Hk by done. by apply H6; rewrite Hk.
  - intros _ k Hk. destruct (decide (w = k)) as [->|Hne]; [by rewrite lookup_insert_eq|].
    rewrite lookup_insert_ne by done. apply H7; [|done]. right. by rewrite Eq.
  - intros _. apply H8. right. by rewrite Eq.
Qed.

Lemma finish_ok w p : pool_ok p -> pool_ok (step p (Finish w)).
Proof.
  destruct p as [x m n ts j a s f]. intros H. cbn. destruct (m !! w) as [[t|]|] eqn:Ew; [|done..].
  destruct H as [H1 H2 H3 H4 H5 H6 H7 H8 H9 H10]. cbn in *.
  pose proof (busy_finish m w t Ew) as Hp. pose proof (busy_size m w t Ew) as Hb.
  pose proof (size_of_nonneg (busy (<[w := None]> m))). split; cbn; try done.
  - destruct (Z.ltb_spec 0 (in_flight x)); lia.
  - lia.
  - rewrite H4, Hp. by rewrite <- app_assoc.
  - intros k [? Hk]. destruct (decide (w = k)) as [->|Hne]; [by apply H6; rewrite Ew|].
    rewrite lookup_insert_ne in Hk by done. by apply H6; rewrite Hk.
  - intros Hj k Hk. destruct (decide (w = k)) as [->|Hne]; [by rewrite lookup_insert_eq|].
    rewrite lookup_insert_ne by done. by apply H7.
Qed.

Lemma leave_ok w p : pool_ok p -> pool_ok (step p (Leave w)).
Proof.
  destruct p as [x m n ts j a s f]. intros H. cbn. destruct (m !! w) as [[t|]|] eqn:Ew; [done| |done].
  destruct (queue x) eqn:Eq; [|done]. destruct (stopping x) eqn:Es; [|done].
  destruct H as [H1 H2 H3 H4 H5 H6 H7 H8 H9 H10]. cbn in *. destruct j as [names|]; [|congruence].
  pose proof (busy_delete m w Ew) as Hp. pose proof (Permutation_length Hp) as Hl.
  assert (size_of (busy (delete w m)) = size_of (busy m)) as Hb by (unfold size_of; lia).
  split; cbn; try done.
  - by rewrite Hb.
  - by rewrite Hb.
  - by rewrite Hp.
  - intros k [? Hk]. destruct (decide (w = k)) as [->|Hne]; [by rewrite lookup_delete_eq in Hk|].
    rewrite lookup_delete_ne in Hk by done. by apply H6; rewrite Hk.
  - intros [?|?]; done.
Qed.

Lemma worker_count_positive h : 4 <= worker_count h.
Proof. unfold worker_count. lia. Qed.

Lemma start_ok h p : pool_ok p -> pool_ok (control (Start h) p).
Proof.
  destruct p as [x m n ts j a s f]. intros H. cbn. destruct j as [names|]; [done|].
  destruct H as [H1 H2 H3 H4 H5 H6 H7 H8 H9 H10]. cbn in *. unfold start. destruct (Z.eqb_spec (workers x) 0) as [E|E]; cbn [negb workers].
  - assert (ts = []) as -> by (apply size_of_zero; lia). set (names := seq n (Z.to_nat (worker_count h))).
    assert (forall w, m !! w = None) as Hm.
    { intros w. destruct (m !! w) eqn:Ew; [|done]. destruct (not_elem_of_nil w). apply H6. by rewrite Ew. }
    assert (busy (spawn names m) ≡ₚ busy m) as Hp by (apply busy_spawn; [auto|apply NoDup_seq]).
    pose proof (Permutation_length Hp) as Hl. pose proof (worker_count_positive h) as Hc.
    assert (size_of (busy (spawn names m)) = size_of (busy m)) as Hb by (unfold size_of; lia).
    split; cbn; try done.
    + by rewrite Hb.
    + by rewrite Hb.
    + by rewrite Hp.
    + intros w Hw%elem_of_seq. unfold names. rewrite length_seq. lia.
    + intros w [Hw|[? Hw]]%spawn_lookup; [done|by rewrite Hm in Hw].
    + intros _ w Hw. apply spawn_lookup. by left.
    + intros _. unfold names. destruct (Z.to_nat (worker_count h)) eqn:Ec; [lia|done].
    + unfold size_of, names. rewrite length_seq. lia.
  - split; cbn; try done. intros _ ->. apply E. by rewrite H9.
Qed.

Lemma shutdown_ok c p : c = ShutdownBegin \/ c = ShutdownEnd -> pool_ok p -> pool_ok (control c p).
Proof.
  destruct p as [x m n ts j a s f]. intros Hc H. destruct j as [names|]; destruct Hc as [-> | ->]; cbn; try done.
  - destruct (forallb _ names) eqn:Ef; [|done]. destruct H as [H1 H2 H3 H4 H5 H6 H7 H8 H9 H10]. cbn in *.
    destruct H10 as (Ha & Hs & ->).
    assert (forall w, m !! w = None) as Hm.
    { intros w. destruct (m !! w) eqn:Ew; [|done]. assert (w ∈ names) as Hin by (apply H6; by rewrite Ew).
      rewrite forallb_forall in Ef. specialize (Ef w (proj1 (list_elem_of_In _ _) Hin)). apply bool_decide_eq_true in Ef. congruence. }
    assert (m = ∅) as -> by (apply map_eq; intros w; by rewrite Hm).
    assert (queue x = []) as Eq.
    { destruct (queue x) eqn:Eq; [done|]. destruct names as [|w names]; [by destruct H8; [right|]|].
      destruct (H7 (or_intror (fun E => nil_cons (eq_sym E))) w) as [? Hw]; [left|]. by rewrite lookup_empty in Hw. }
    rewrite Eq in H3. split; cbn; try done; try (intros w ?%elem_of_nil; done).
    + intros w [? Hw]. by rewrite lookup_empty in Hw.
    + intros _ w ?%elem_of_nil. done.
    + rewrite Ha. intros [?|?]; done.
  - destruct H as [H1 H2 H3 H4 H5 H6 H7 H8 H9 H10]. cbn in *. split; cbn; try done.
    + intros _. apply H7. by left.
    + intros [?|?]; [done|]. apply H8. by right.
Qed.

Lemma pool_step_ok p e : pool_ok p -> pool_ok (step p e).
Proof.
  intros H. destruct e as [c|task|w|w|w]; [|by apply enqueue_ok|by apply take_ok|by apply finish_ok|by apply leave_ok].
  assert (step p (Control c) = control c p) as -> by (by destruct p). destruct c as [h| | |]; [by apply start_ok| |apply shutdown_ok; auto..].
  destruct p as [x m n ts j a s f]. destruct H as [H1 H2 H3 H4 H5 H6 H7 H8 H9 H10]. cbn in *. split; cbn; try done.
  - intros [?|?]; [done|]. apply H8. by right.
  - destruct j; [|done]. destruct H10 as (? & ? & ?). by split_and!.
Qed.

Lemma run_ok steps : pool_ok (run steps).
Proof.
  unfold run. assert (pool_ok initial_pool) as H.
  { split; cbn; try done; try (intros w ?%elem_of_nil; done).
    - intros w [? Hw]. by rewrite lookup_empty in Hw.
    - intros _ w ?%elem_of_nil. done.
    - intros [?|?]; done. }
  revert H. generalize initial_pool. induction steps as [|e steps IH]; intros p H; [done|]. apply IH. by apply pool_step_ok.
Qed.

(** In every interleaving of the threads at most 512 tasks wait or run, the
    counter of those that run is exact, and every task that was accepted is
    started once, in the order of acceptance: it waits in the queue, runs on
    one thread, or is finished, a shutdown included.  A refusal leaves
    everything as it was and is given only when the executor does not accept or
    is full; it is idle just when all it accepted is finished. (C35) *)
Theorem executor_bounded_fifo steps task :
  let p := run steps in let x := executor p in
  in_flight x = size_of (busy (live p)) /\ size_of (queue x) + size_of (busy (live p)) <= kMaxInFlightTasks /\
  accepted p = started p ++ queue x /\ started p ≡ₚ finished p ++ busy (live p) /\
  (idle x = true <-> accepted p ≡ₚ finished p) /\
  let '(ok, x') := enqueue task x in
  if ok then queue x' = queue x ++ [task]
  else x' = x /\ (accepting x = false \/ stopping x = true \/ size_of (queue x) + size_of (busy (live p)) = kMaxInFlightTasks).
Proof.
  cbv zeta. destruct (run_ok steps) as [H1 H2 H3 H4 _ _ _ _ _ _]. destruct (run steps) as [x m n ts j a s f]. cbn in *.
  split_and!; [done..| |].
  - unfold idle. rewrite andb_true_iff, bool_decide_eq_true, Z.eqb_eq. rewrite H3, H4. split.
    + intros [Eq Ef]. destruct (queue x); [|done]. rewrite H1 in Ef. apply size_of_zero in Ef. rewrite Ef. by rewrite !app_nil_r.
    + intros E%Permutation_length. rewrite !length_app in E. rewrite H1. unfold size_of. lia.
  - unfold enqueue. destruct (accepting x); cbn [negb orb]; [|auto]. destruct (stopping x); [auto|].
    destruct (Z.leb_spec kMaxInFlightTasks (size_of (queue x) + in_flight x)); [|done]. split; [done|]. right. right. lia.
Qed.

End threads.

(** Tasks taken by two threads, a shutdown in between: it waits for both. *)
Example shutdown_waits :
  let steps := [Control (Start 4); Enqueue 1; Enqueue 2; Take 0; Control ShutdownBegin; Control ShutdownEnd; Take 1; Finish 0; Leave 0;
                Finish 1; Leave 1; Leave 2; Leave 3] in
  let p := run steps in
  finished p = [1; 2] /\ joining p = Some [0; 1; 2; 3]%nat /\ joining (step p (Control ShutdownEnd)) = None.
Proof. by vm_compute. Qed.

End Threads.
