(* ===== verification/HttpRuntime.v ===== *)
(** * HttpRuntime: requests read and answers written

    src/native/server/src/http_runtime_utils.cpp and
    src/native/server/middleware/src/request_id.cpp.  An answer is what is
    handed to uWebSockets: the status line, the headers in the order they are
    written, and the body. *)

From S2P Require Import Prelude Codec Text Env Headers.
Import Text.Ascii.

(** ** Status lines *)

Definition status_reason (status : Z) : bytes :=
  if status =? 101 then $"Switching Protocols"
  else if status =? 200 then $"OK"
  else if status =? 201 then $"Created"
  else if status =? 202 then $"Accepted"
  else if status =? 204 then $"No Content"
  else if status =? 400 then $"Bad Request"
  else if status =? 401 then $"Unauthorized"
  else if status =? 403 then $"Forbidden"
  else if status =? 404 then $"Not Found"
  else if status =? 409 then $"Conflict"
  else if status =? 422 then $"Unprocessable Entity"
  else if status =? 429 then $"Too Many Requests"
  else if status =? 500 then $"Internal Server Error"
  else if status =? 502 then $"Bad Gateway"
  else if status =? 503 then $"Service Unavailable"
  else $"Unknown".

Definition status_line (status : Z) : bytes := to_string status ++ $" " ++ status_reason status.

(** ** Reading a request *)

Definition maybe_string (value : bytes) : option bytes := if bool_decide (value = []) then None else Some value.

(** [static_cast<char>((upper << 4U) | lower)] *)
Definition byte_of_nibbles (upper lower : Z) : Byte.byte := byte_of (Z.lor (Z.shiftl upper 4) lower).

Definition percent : Byte.byte := Byte.x25.

Fixpoint decode_percent_escapes (raw : bytes) : bytes :=
  match raw with
  | [] => []
  | ch :: rest =>
      if bool_decide (ch = percent)
      then match rest with
           | h :: l :: rest' =>
               match Text.Hex.hex_nibble h, Text.Hex.hex_nibble l with
               | Some upper, Some lower => byte_of_nibbles upper lower :: decode_percent_escapes rest'
               | _, _ => ch :: decode_percent_escapes rest
               end
           | _ => ch :: decode_percent_escapes rest
           end
      else ch :: decode_percent_escapes rest
  end.

(** The map keeps the first of two headers with the same name. *)
Definition request_headers (fields : list (bytes * bytes)) : HeaderMap :=
  foldl (fun headers kv => hm_emplace kv.1 kv.2 headers) [] fields.

Definition header_contains (headers : HeaderMap) (key needle : bytes) : bool :=
  match List.find (fun kv => bool_decide (to_lower_ascii kv.1 = to_lower_ascii key)) headers with
  | Some kv => Text.Find.contains (to_lower_ascii kv.2) (to_lower_ascii needle)
  | None => false
  end.

(** ** Writing an answer *)

Record Answer := mkAnswer { answer_status : bytes; answer_headers : list (bytes * bytes); answer_body : bytes }.

Definition write_extra_headers (extra_headers : HeaderMap) : list (bytes * bytes) :=
  filter (fun kv => kv.1 <> []) extra_headers.

Definition write_http (status : Z) (content_type body request_id : bytes) (extra_headers : HeaderMap) : Answer :=
  mkAnswer (status_line status)
    ((if bool_decide (content_type = []) then [] else [($"Content-Type", content_type)]) ++
     (if bool_decide (request_id = []) then [] else [($"x-request-id", request_id)]) ++
     write_extra_headers extra_headers) body.

Definition write_json (status : Z) (body request_id : bytes) (extra_headers : HeaderMap) : Answer :=
  write_http status $"application/json" body request_id extra_headers.

Definition write_event (event : bytes) : bytes := $"data: " ++ event ++ [Byte.x0a; Byte.x0a].

Definition write_sse (status : Z) (events : list bytes) (request_id : bytes) (extra_headers : HeaderMap) : Answer :=
  mkAnswer (status_line status)
    ([($"Content-Type", $"text/event-stream"); ($"Cache-Control", $"no-cache")] ++
     (if bool_decide (request_id = []) then [] else [($"x-request-id", request_id)]) ++
     write_extra_headers extra_headers) (concat (write_event <$> events)).

(** ** request_id.cpp *)

Definition trimmed_header (headers : HeaderMap) (header_name : bytes) : bytes :=
  match List.find (fun kv => equals_case_insensitive kv.1 header_name) headers with
  | Some kv => trim_ascii kv.2
  | None => []
  end.

Definition request_id_from_headers (headers : HeaderMap) : bytes :=
  let request_id := trimmed_header headers $"x-request-id" in
  if negb (bool_decide (request_id = [])) then request_id else trimmed_header headers $"request-id".

(** [generated]: a random UUID. *)
Definition ensure_request_id (generated : bytes) (headers : HeaderMap) : bytes * HeaderMap :=
  let request_id := request_id_from_headers headers in
  let request_id := if bool_decide (request_id = []) then generated else request_id in
  (request_id, hm_assign $"x-request-id" request_id headers).

(** ** Percent escapes *)

(** How a client escapes a text: the bytes it chooses, in hexadecimal. *)
Definition percent_encode (escape : Byte.byte -> bool) (text : bytes) : bytes :=
  concat ((fun ch => if escape ch then percent :: Text.Hex.hex_pair ch else [ch]) <$> text).

(** Whatever a client escapes, as long as it escapes the percent sign, is
    decoded to the text it meant; texts without a percent sign stand for
    themselves. *)
Theorem percent_roundtrip escape text :
  escape percent = true -> decode_percent_escapes (percent_encode escape text) = text.
Proof.
  intros Hp. unfold percent_encode. induction text as [|ch text IH]; [done|]. cbn [fmap list_fmap concat].
  destruct (escape ch) eqn:E.
  - destruct (Text.Hex.hex_pair_nibbles ch) as (h & l & -> & Eh & El). cbn [app decode_percent_escapes].
    rewrite bool_decide_true, Eh, El by done. unfold byte_of_nibbles. by rewrite Text.Hex.nibbles_byte, IH.
  - cbn [app decode_percent_escapes]. rewrite bool_decide_false by congruence. by rewrite IH.
Qed.

Lemma percent_roundtrip_witness :
  decode_percent_escapes (percent_encode (fun ch => bool_decide (ch = percent)) $"50%") = $"50%".
Proof. apply (percent_roundtrip (fun ch => bool_decide (ch = percent)) $"50%"). reflexivity. Defined.

(** A request has its identifier afterwards, the client's when it sent one. *)
Lemma ensure_request_id_keeps generated headers :
  request_id_from_headers headers <> [] -> (ensure_request_id generated headers).1 = request_id_from_headers headers.
Proof. intros H. unfold ensure_request_id. by rewrite bool_decide_false. Qed.
