(* ===== verification/ProxyServer.v ===== *)
(** * ProxyServer: the routes of the proxy

    src/native/server/src/server_routes.cpp with the controllers it calls
    (proxy_controller.cpp), composed of the firewall, the key gate, the
    decompression, the policies, the reservations and the executor of the
    files before.  What the controllers call (proxy/src/proxy_service.cpp,
    chat_completions_service.cpp and ws_proxy.cpp) is the class
    [ProxyService], on a world of its own.

    A request is admitted, read and answered, or handed to the executor, in
    one step; its task runs in another, in whatever order and after whatever
    other steps.  Clocks, random identifiers, failing statements and what the
    environment answers are arguments of each step. *)

From S2P Require Import Prelude Text Double JsonValue Except Fernet TokenStore Headers ErrorPolicy RequestPlan HttpBridge.
From S2P Require Import Accounts Table ApiKeys ApiKeyFilter IpAddress Firewall Decompression AsyncExecutor HttpRuntime.
Import Text.Ascii.

(** ** proxy_controller.h and what it is made from *)

Record ProxyHttpResponse := mkHttpResponse {
  http_status : Z; content_type : bytes; http_body : bytes; http_headers : HeaderMap; http_sticky_reused : bool }.

Record ProxySseResponse := mkSseResponse {
  sse_status : Z; sse_content_type : bytes; sse_events : list bytes; sse_headers : HeaderMap; sse_sticky_reused : bool }.

Record ProxyWsResponse := mkWsResponse {
  ws_status : Z; accepted : bool; close_code : Z; frames : list bytes; ws_routed_account_id : bytes; ws_sticky_reused : bool }.

(** [ProxyJsonResult] and [ProxySseResult] of the service. *)
Record ProxyJsonResult := mkJsonResult { json_status : Z; json_body : bytes; json_headers : HeaderMap; json_sticky : bool }.
Record ProxySseResult := mkSseResult { stream_status : Z; stream_events : list bytes; stream_headers : HeaderMap; stream_sticky : bool }.

Class ProxyService (W : Type) := {
  collect_models : bytes -> list bytes -> option bytes -> HeaderMap -> W -> ProxyJsonResult * W;
  collect_responses_json : bytes -> bytes -> HeaderMap -> W -> ProxyJsonResult * W;
  stream_responses_sse : bytes -> bytes -> HeaderMap -> W -> ProxySseResult * W;
  collect_responses_compact : bytes -> bytes -> HeaderMap -> W -> ProxyJsonResult * W;
  collect_memories_trace_summarize : bytes -> bytes -> HeaderMap -> W -> ProxyJsonResult * W;
  collect_transcribe : bytes -> bytes -> bytes -> bytes -> HeaderMap -> W -> ProxyJsonResult * W;
  chat_completions_stream_requested : bytes -> bool;
  collect_chat_completions_json : bytes -> HeaderMap -> W -> ProxyJsonResult * W;
  stream_chat_completions_sse : bytes -> HeaderMap -> W -> ProxySseResult * W;
  responses_websocket : bytes -> bytes -> HeaderMap -> bool -> W -> ProxyWsResponse * W;
  get_codex_usage : HeaderMap -> W -> (Z * bytes) * W;
  websocket_bridge_cancel : HeaderMap -> W -> W;
}.

(** *** proxy_controller.cpp *)

Section controllers.
Context {W : Type} {service : ProxyService W}.

Definition json_response (r : ProxyJsonResult) (sticky : bool) : ProxyHttpResponse :=
  mkHttpResponse (json_status r) $"application/json" (json_body r) (json_headers r) sticky.

Definition sse_response (r : ProxySseResult) (sticky : bool) : ProxySseResponse :=
  mkSseResponse (stream_status r) $"text/event-stream" (stream_events r) (stream_headers r) sticky.

Definition post_proxy_responses_json (route body : bytes) (headers : HeaderMap) (w : W) : ProxyHttpResponse * W :=
  let '(r, w) := collect_responses_json route body headers w in (json_response r (json_sticky r), w).

Definition post_proxy_responses_sse (route body : bytes) (headers : HeaderMap) (w : W) : ProxySseResponse * W :=
  let '(r, w) := stream_responses_sse route body headers w in (sse_response r (stream_sticky r), w).

Definition proxy_responses_websocket (route body : bytes) (headers : HeaderMap) (binary_frame : bool) (w : W) :
    ProxyWsResponse * W := responses_websocket route body headers binary_frame w.

Definition post_proxy_responses_compact (route body : bytes) (headers : HeaderMap) (w : W) : ProxyHttpResponse * W :=
  let '(r, w) := collect_responses_compact route body headers w in (json_response r false, w).

Definition post_proxy_memories_trace_summarize (route body : bytes) (headers : HeaderMap) (w : W) : ProxyHttpResponse * W :=
  let '(r, w) := collect_memories_trace_summarize route body headers w in (json_response r false, w).

Definition get_proxy_models (route : bytes) (allowed_models : list bytes) (enforced_model : option bytes)
    (headers : HeaderMap) (w : W) : ProxyHttpResponse * W :=
  let '(r, w) := collect_models route allowed_models enforced_model headers w in (json_response r false, w).

Definition post_proxy_transcribe (route model prompt audio_bytes : bytes) (headers : HeaderMap) (w : W) :
    ProxyHttpResponse * W :=
  let '(r, w) := collect_transcribe route model prompt audio_bytes headers w in (json_response r false, w).

Definition route_not_found : bytes := build_error_envelope $"not_found" $"Route not found" $"invalid_request_error" [].

Definition post_proxy_chat_completions_json (route body : bytes) (headers : HeaderMap) (w : W) : ProxyHttpResponse * W :=
  if negb (bool_decide (route = $"/v1/chat/completions"))
  then (mkHttpResponse 404 $"application/json" route_not_found [] false, w)
  else let '(r, w) := collect_chat_completions_json body headers w in (json_response r false, w).

Definition post_proxy_chat_completions_sse (route body : bytes) (headers : HeaderMap) (w : W) : ProxySseResponse * W :=
  if negb (bool_decide (route = $"/v1/chat/completions"))
  then (mkSseResponse 404 $"text/event-stream" [route_not_found] [] false, w)
  else let '(r, w) := stream_chat_completions_sse body headers w in (sse_response r false, w).

End controllers.

(** ** server_routes.cpp: contexts and state *)

Definition kTranscriptionModel : bytes := $"gpt-4o-transcribe".

(** A request as uWebSockets delivers it. *)
Record Request := mkRequest {
  fields : list (bytes * bytes);
  socket_ip : option bytes;
  query : bytes -> bytes;
  request_body : bytes;
}.

(** What a request meets while it is admitted: the database, the clocks at
    the two lookups of its key, failing statements, the settings, the answer
    of the provider, fresh identifiers and the time. *)
Record Env := mkEnv {
  db_opened : bool;
  fw_runs : FirewallStatement -> bool;
  gate_runs : KeyStatement -> bool;
  gate_auth : option bool;
  gate_now : Z;
  policy_runs : KeyStatement -> bool;
  policy_auth : option bool;
  policy_now : Z;
  query_runs : bool;
  usage_identity : bytes -> bytes -> UsageValidationResult;
  generated_id : bytes;
  generated_turn_state : bytes;
  start_ms : Z;
}.

(** What a request meets while it is served. *)
Record TaskEnv := mkTaskEnv {
  task_opened : bool;
  reserve_runs : KeyStatement -> bool;
  reserve_now : Z;
  settle_runs : KeyStatement -> bool;
  settle_now : Z;
  aborted : bool;
}.

Record WsRequestContext := mkWsContext {
  ws_route : bytes;
  ws_headers : HeaderMap;
  ws_request_id : bytes;
  ws_policy : ApiKeyModelPolicy;
  message_sequence : Z;
}.

(** The work handed to the executor. *)
Inductive Task :=
| HttpTask (route : bytes) (headers : HeaderMap) (request_id : bytes) (policy : ApiKeyModelPolicy)
    (downstream_headers : HeaderMap) (wants_sse : bool) (body : bytes)
| WsTask (connection_id route : bytes) (headers : HeaderMap) (policy : ApiKeyModelPolicy) (request_id body : bytes)
    (binary : bool).

(** [ProxyRequestLogContext]: what is kept of it here. *)
Record LogEntry := mkLog { log_method : bytes; log_route : bytes; log_status : Z; log_transport : bytes }.

(** A call of the service: its route, headers and body. *)
Record UpstreamCall := mkCall { call_route : bytes; call_headers : HeaderMap; call_body : bytes }.

(** [proxy_runtime::g_proxy_enabled], the tables, the executor and
    the tasks its workers run (each with its reservation once it has begun), the
    registered WebSocket connections and their counter, the request log and
    the world of the service; [calls] is the history of the calls to it. *)
Record ServerState (W : Type) := mkServer {
  proxy_enabled : bool;
  keys : ApiKeyTables;
  allow_list : allowlist;
  accounts : accounts_table;
  executor : AsyncExecutor Task;
  running : list (Task * option ProxyUsageReservation);
  connections : list (bytes * WsRequestContext);
  connection_counter : Z;
  request_log : list LogEntry;
  world : W;
  calls : list UpstreamCall;
}.
Arguments mkServer {W} _ _ _ _ _ _ _ _ _ _ _.
Arguments proxy_enabled {W} _.
Arguments keys {W} _.
Arguments allow_list {W} _.
Arguments accounts {W} _.
Arguments executor {W} _.
Arguments running {W} _.
Arguments connections {W} _.
Arguments connection_counter {W} _.
Arguments request_log {W} _.
Arguments world {W} _.
Arguments calls {W} _.

Section setters.
Context {W : Type}.
Implicit Types s : ServerState W.

Definition set_enabled (enabled : bool) s : ServerState W :=
  mkServer enabled (keys s) (allow_list s) (accounts s) (executor s) (running s) (connections s) (connection_counter s) (request_log s)
    (world s) (calls s).
Definition with_keys (k : ApiKeyTables) s : ServerState W :=
  mkServer (proxy_enabled s) k (allow_list s) (accounts s) (executor s) (running s) (connections s) (connection_counter s) (request_log s)
    (world s) (calls s).
Definition with_allow_list (a : allowlist) s : ServerState W :=
  mkServer (proxy_enabled s) (keys s) a (accounts s) (executor s) (running s) (connections s) (connection_counter s) (request_log s)
    (world s) (calls s).
Definition with_executor (x : AsyncExecutor Task) s : ServerState W :=
  mkServer (proxy_enabled s) (keys s) (allow_list s) (accounts s) x (running s) (connections s) (connection_counter s) (request_log s)
    (world s) (calls s).
Definition with_running (l : list (Task * option ProxyUsageReservation)) s : ServerState W :=
  mkServer (proxy_enabled s) (keys s) (allow_list s) (accounts s) (executor s) l (connections s) (connection_counter s)
    (request_log s) (world s) (calls s).
Definition with_connections (c : list (bytes * WsRequestContext)) (counter : Z) s : ServerState W :=
  mkServer (proxy_enabled s) (keys s) (allow_list s) (accounts s) (executor s) (running s) c counter (request_log s) (world s) (calls s).
Definition persist_log (method route : bytes) (status : Z) (transport : bytes) s : ServerState W :=
  mkServer (proxy_enabled s) (keys s) (allow_list s) (accounts s) (executor s) (running s) (connections s) (connection_counter s)
    (request_log s ++ [mkLog method route status transport]) (world s) (calls s).
Definition with_world (w : W) s : ServerState W :=
  mkServer (proxy_enabled s) (keys s) (allow_list s) (accounts s) (executor s) (running s) (connections s) (connection_counter s)
    (request_log s) w (calls s).

(** A call of the service, on its world, kept in the history. *)
Definition serve {R} (route : bytes) (headers : HeaderMap) (body : bytes) (f : W -> R * W) s : R * ServerState W :=
  let '(r, w) := f (world s) in
  (r, mkServer (proxy_enabled s) (keys s) (allow_list s) (accounts s) (executor s) (running s) (connections s) (connection_counter s)
        (request_log s) w (calls s ++ [mkCall route headers body])).

End setters.

Definition initial_server {W} (w : W) : ServerState W :=
  mkServer true empty_tables empty_table empty_accounts initial_executor [] [] 0 [] w [].

(** What leaves the server. *)
Inductive Output :=
| Answered (answer : Answer)
| Upgraded (connection_id turn_state : bytes)
| SentFrame (connection_id : bytes) (frame : except bytes)
| Ended (connection_id : bytes) (code : Z).

(** Which routes are wired, and how. *)
Inductive RouteKind := ModelsRoute | ResponsesRoute | CompactRoute | MemoriesRoute | TranscribeRoute | ChatRoute | UsageRoute | WsRoute.

#[export] Instance route_kind_eq_dec : EqDecision RouteKind.
Proof. solve_decision. Defined.

Definition wired_routes : list (RouteKind * bytes) :=
  [(ModelsRoute, $"/api/models"); (ModelsRoute, $"/v1/models"); (ModelsRoute, $"/backend-api/codex/models");
   (ResponsesRoute, $"/v1/responses"); (ResponsesRoute, $"/backend-api/codex/responses");
   (CompactRoute, $"/v1/responses/compact"); (CompactRoute, $"/backend-api/codex/responses/compact");
   (MemoriesRoute, $"/v1/memories/trace_summarize"); (MemoriesRoute, $"/backend-api/codex/memories/trace_summarize");
   (TranscribeRoute, $"/backend-api/transcribe"); (TranscribeRoute, $"/v1/audio/transcriptions");
   (ChatRoute, $"/v1/chat/completions"); (UsageRoute, $"/api/codex/usage"); (UsageRoute, $"/api/codex/usage/");
   (WsRoute, $"/v1/responses"); (WsRoute, $"/backend-api/codex/responses")].

(** Turns that are enough for every body, by [decompression_terminates]. *)
Definition enough_turns (body : bytes) : nat := S (length body + 2 * Z.to_nat kDefaultMaxSize).

Definition decompress `{Decoders} (body : bytes) (headers : HeaderMap) : DecompressionResult :=
  default (passed_on body headers) (decompress_request_body kDefaultMaxSize (enough_turns body) body headers).

(** ** server_routes.cpp: helpers *)

Definition merge_response_headers (base_headers appended_headers : HeaderMap) : HeaderMap :=
  foldl (fun merged kv => if bool_decide (kv.1 = []) || hm_contains kv.1 merged then merged else hm_assign kv.1 kv.2 merged)
    base_headers appended_headers.

Definition request_context (e : Env) (rq : Request) : bytes * HeaderMap :=
  let '(request_id, headers) := ensure_request_id (generated_id e) (request_headers (fields rq)) in
  (request_id, hm_assign $"x-tightrope-request-start-ms" (to_string (start_ms e)) headers).

Definition attach_api_key_scope_header (headers : HeaderMap) (policy : ApiKeyModelPolicy) : HeaderMap :=
  match present (policy_key_id policy) with
  | None => headers
  | Some key_id => hm_assign $"x-tightrope-api-key-id" key_id headers
  end.

Definition proxy_disabled_http_response : bytes :=
  build_error_envelope $"proxy_disabled" $"Proxy server is stopped" $"service_unavailable" [].

Definition proxy_overloaded_http_response : bytes :=
  build_error_envelope $"proxy_overloaded" $"Proxy request queue is saturated" $"service_unavailable" [].

(** ** server_routes.cpp: admission *)

Section server.
Context {W : Type} {service : ProxyService W} {digest : Digest} {codec : JsonCodec} {asio : Asio} {decoders : Decoders}.
Context (get_time : bool -> bytes -> option Z).
Implicit Types s : ServerState W.

(** [None]: the proxy is enabled; otherwise the answer, and what is logged. *)
Definition ensure_proxy_enabled_http (method route request_id transport : bytes) s : option Answer * ServerState W :=
  if proxy_enabled s then (None, s)
  else (Some (write_json 503 proxy_disabled_http_response request_id []), persist_log method route 503 transport s).

Definition authorize_or_write_denial (path : bytes) (headers : HeaderMap) (request_id : bytes) (e : Env) s :
    (Answer + ApiKeyModelPolicy) * ServerState W :=
  let '(key_auth, k) :=
    validate_proxy_api_key_request get_time (gate_runs e) (db_opened e) (gate_auth e) path headers (gate_now e) (keys s) in
  let s := with_keys k s in
  if negb (allow key_auth) then (inl (write_json (decision_status key_auth) (decision_body key_auth) request_id []), s)
  else
    let identity_auth :=
      validate_codex_usage_identity_request (db_opened e) (query_runs e) path headers (usage_identity e) (accounts s) in
    if negb (allow identity_auth)
    then (inl (write_json (decision_status identity_auth) (decision_body identity_auth) request_id []), s)
    else
      let '(policy, k) :=
        resolve_api_key_model_policy get_time (policy_runs e) (db_opened e) (policy_auth e) headers (policy_now e) (keys s) in
      (inr policy, with_keys k s).

(** A request past these three carries its identifier, headers and policy. *)
Record AdmittedRequest := mkAdmitted { admitted_id : bytes; admitted_headers : HeaderMap; admitted_policy : ApiKeyModelPolicy }.

(** What every route but the usage route begins with. *)
Definition admit_request (method path transport : bytes) (e : Env) (rq : Request) s : (Answer + AdmittedRequest) * ServerState W :=
  let '(request_id, headers) := request_context e rq in
  match ensure_proxy_enabled_http method path request_id transport s with
  | (Some answer, s) => (inl answer, s)
  | (None, s) =>
      match allow_request_or_write_denial (fw_runs e) (db_opened e) path headers (socket_ip rq) (allow_list s) with
      | Some (status, body) => (inl (write_json status body [] []), s)
      | None =>
          match authorize_or_write_denial path headers request_id e s with
          | (inl answer, s) => (inl answer, s)
          | (inr policy, s) => (inr (mkAdmitted request_id headers policy), s)
          end
      end
  end.

(** ** server_routes.cpp: serving *)

(** [decode_body_or_write_denial]: the answer, or the body and the headers. *)
Definition decode_body_or_write_denial (body : bytes) (headers : HeaderMap) (request_id : bytes) : Answer + bytes * HeaderMap :=
  let decoded := decompress body headers in
  if negb (ok decoded) then inl (write_json (result_status decoded) (error_body decoded) request_id [])
  else inr (result_body decoded, result_headers decoded).

(** The reservation around a call of the service. *)
Definition reserved {R} (t : TaskEnv) (policy : ApiKeyModelPolicy) (request_id : bytes) (succeeded : R -> bool)
    (call : ServerState W -> R * ServerState W) s : R * ServerState W :=
  let '(reservation, k) :=
    reserve_api_key_usage (reserve_runs t) (task_opened t) policy request_id (reserve_now t) (keys s) in
  let '(r, s) := call (with_keys k s) in
  (r, with_keys (settle_api_key_usage (settle_runs t) (task_opened t) reservation (succeeded r) (settle_now t) (keys s)) s).

Definition below_400 (status : Z) : bool := status <? 400.

Definition answer_http (r : ProxyHttpResponse) (request_id : bytes) : Answer :=
  write_http (http_status r) (content_type r) (http_body r) request_id (http_headers r).

Definition handle_models (path : bytes) (e : Env) (rq : Request) s : Answer * ServerState W :=
  match admit_request $"GET" path $"http" e rq s with
  | (inl answer, s) => (answer, s)
  | (inr a, s) =>
      let policy := admitted_policy a in
      let '(r, s) := serve path (admitted_headers a) []
        (get_proxy_models path (policy_allowed_models policy) (policy_enforced_model policy) (admitted_headers a)) s in
      (answer_http r (admitted_id a), persist_log $"GET" path (http_status r) $"http" s)
  end.

(** The three routes that serve at once: [call] is the controller, and
    [checked] tells whether the policy of the key is enforced on the body. *)
Definition serve_now (path : bytes) (checked : bool) (t : TaskEnv) (a : AdmittedRequest) (raw_body : bytes)
    (call : bytes -> HeaderMap -> W -> ProxyHttpResponse * W) s : Answer * ServerState W :=
  match decode_body_or_write_denial raw_body (admitted_headers a) (admitted_id a) with
  | inl answer => (answer, s)
  | inr (body, headers) =>
      let '(decision, body) :=
        if checked then enforce_api_key_request_policy (admitted_policy a) body else (policy_allowed, body) in
      if negb (policy_allow decision)
      then (write_json (policy_status decision) (policy_error_body decision) (admitted_id a) [],
            persist_log $"POST" path (policy_status decision) $"http" s)
      else
        let '(r, s) := reserved t (admitted_policy a) (admitted_id a) (fun r => below_400 (http_status r))
          (serve path headers body (call body headers)) s in
        (answer_http r (admitted_id a), persist_log $"POST" path (http_status r) $"http" s)
  end.

Definition handle_compact (path : bytes) (e : Env) (t : TaskEnv) (rq : Request) s : Answer * ServerState W :=
  match admit_request $"POST" path $"http" e rq s with
  | (inl answer, s) => (answer, s)
  | (inr a, s) => serve_now path true t a (request_body rq) (post_proxy_responses_compact path) s
  end.

Definition handle_memories (path : bytes) (e : Env) (t : TaskEnv) (rq : Request) s : Answer * ServerState W :=
  match admit_request $"POST" path $"http" e rq s with
  | (inl answer, s) => (answer, s)
  | (inr a, s) => serve_now path false t a (request_body rq) (post_proxy_memories_trace_summarize path) s
  end.

(** The fields of a transcription: from the query, else from the body. *)
Definition first_some (a b : option bytes) : option bytes := match a with Some _ => a | None => b end.

Definition transcription_fields (rq : Request) (body : bytes) : option bytes * option bytes * option bytes :=
  let model := maybe_string (query rq $"model") in
  let prompt := maybe_string (query rq $"prompt") in
  let audio_bytes := maybe_string (query rq $"audio_bytes") in
  if bool_decide (body = []) then (model, prompt, audio_bytes)
  else match read_object body with
  | None => (model, prompt, audio_bytes)
  | Some object =>
      (first_some model (string_at object $"model"), first_some prompt (string_at object $"prompt"),
       first_some (first_some audio_bytes (string_at object $"audio_bytes")) (string_at object $"audio"))
  end.

Definition handle_transcribe (path : bytes) (e : Env) (t : TaskEnv) (rq : Request) s : Answer * ServerState W :=
  match admit_request $"POST" path $"http" e rq s with
  | (inl answer, s) => (answer, s)
  | (inr a, s) =>
      match decode_body_or_write_denial (request_body rq) (admitted_headers a) (admitted_id a) with
      | inl answer => (answer, s)
      | inr (body, headers) =>
          let '(model, prompt, audio_bytes) := transcription_fields rq body in
          let allowed_models := policy_allowed_models (admitted_policy a) in
          if negb (bool_decide (allowed_models = [])) && negb (bool_decide (kTranscriptionModel ∈ allowed_models))
          then
            let error_body := build_error_envelope $"model_not_allowed"
              ($"This API key does not have access to model '" ++ kTranscriptionModel ++ $"'") $"permission_error" [] in
            (write_json 403 error_body (admitted_id a) [], persist_log $"POST" path 403 $"http" s)
          else
            let '(r, s) := reserved t (admitted_policy a) (admitted_id a) (fun r => below_400 (http_status r))
              (serve path headers body
                 (post_proxy_transcribe path (default [] model) (default [] prompt) (default [] audio_bytes) headers)) s in
            (answer_http r (admitted_id a), persist_log $"POST" path (http_status r) $"http" s)
      end
  end.

Definition answer_sse (r : ProxySseResponse) (request_id : bytes) : Answer :=
  write_sse (sse_status r) (sse_events r) request_id (sse_headers r).

Definition handle_chat_completions (path : bytes) (e : Env) (t : TaskEnv) (rq : Request) s : Answer * ServerState W :=
  match admit_request $"POST" path $"http" e rq s with
  | (inl answer, s) => (answer, s)
  | (inr a, s) =>
      match decode_body_or_write_denial (request_body rq) (admitted_headers a) (admitted_id a) with
      | inl answer => (answer, s)
      | inr (body, headers) =>
          let '(decision, body) := enforce_api_key_request_policy (admitted_policy a) body in
          if negb (policy_allow decision)
          then (write_json (policy_status decision) (policy_error_body decision) (admitted_id a) [],
                persist_log $"POST" path (policy_status decision) $"http" s)
          else if chat_completions_stream_requested body then
            let '(r, s) := reserved t (admitted_policy a) (admitted_id a) (fun r => below_400 (sse_status r))
              (serve path headers body (post_proxy_chat_completions_sse path body headers)) s in
            (answer_sse r (admitted_id a), persist_log $"POST" path (sse_status r) $"http" s)
          else
            let '(r, s) := reserved t (admitted_policy a) (admitted_id a) (fun r => below_400 (http_status r))
              (serve path headers body (post_proxy_chat_completions_json path body headers)) s in
            (answer_http r (admitted_id a), persist_log $"POST" path (http_status r) $"http" s)
      end
  end.

(** [None]: the task is in the queue and answers later. *)
Definition handle_responses (path : bytes) (e : Env) (rq : Request) s : option Answer * ServerState W :=
  match admit_request $"POST" path $"http" e rq s with
  | (inl answer, s) => (Some answer, s)
  | (inr a, s) =>
      let headers := attach_api_key_scope_header (admitted_headers a) (admitted_policy a) in
      let '(turn_state, headers) := ensure_turn_state_header (generated_turn_state e) headers in
      let wants_sse := header_contains headers $"accept" $"text/event-stream" in
      let downstream_headers := if bool_decide (turn_state = []) then [] else [($"x-codex-turn-state", turn_state)] in
      match decode_body_or_write_denial (request_body rq) headers (admitted_id a) with
      | inl answer => (Some answer, s)
      | inr (body, headers) =>
          let '(decision, body) := enforce_api_key_request_policy (admitted_policy a) body in
          if negb (policy_allow decision)
          then (Some (write_json (policy_status decision) (policy_error_body decision) (admitted_id a) downstream_headers),
                persist_log $"POST" path (policy_status decision) $"http" s)
          else
            let task := HttpTask path headers (admitted_id a) (admitted_policy a) downstream_headers wants_sse body in
            let '(enqueued, x) := enqueue task (executor s) in
            if enqueued then (None, with_executor x s)
            else (Some (write_json 503 proxy_overloaded_http_response (admitted_id a) downstream_headers),
                  persist_log $"POST" path 503 $"http" s)
      end
  end.

Definition handle_usage (path : bytes) (e : Env) (rq : Request) s : Answer * ServerState W :=
  let '(request_id, headers) := request_context e rq in
  match ensure_proxy_enabled_http $"GET" path request_id $"http" s with
  | (Some answer, s) => (answer, s)
  | (None, s) =>
      let identity_auth :=
        validate_codex_usage_identity_request (db_opened e) (query_runs e) path headers (usage_identity e) (accounts s) in
      if negb (allow identity_auth)
      then (write_json (decision_status identity_auth) (decision_body identity_auth) request_id [], s)
      else
        let '((status, body), s) := serve path headers [] (get_codex_usage headers) s in
        (write_json status body request_id [], s)
  end.

(** *** WebSockets *)

Definition next_ws_connection_id (counter : Z) : bytes := $"ws_" ++ to_string (counter + 1).

Definition missing_websocket_key : bytes :=
  $"{" ++ json_key $"error" ++ $"{" ++ json_key $"message" ++ Text.Json.quote_json_string $"Missing websocket key" ++ $"}}".

(** [behavior.upgrade] and [behavior.open]. *)
Definition handle_upgrade (path : bytes) (e : Env) (rq : Request) s : Output * ServerState W :=
  match admit_request $"POST" path $"websocket" e rq s with
  | (inl answer, s) => (Answered answer, s)
  | (inr a, s) =>
      let headers := attach_api_key_scope_header (admitted_headers a) (admitted_policy a) in
      let '(turn_state, headers) := ensure_turn_state_header (generated_turn_state e) headers in
      if bool_decide (default [] (hm_find $"sec-websocket-key" (request_headers (fields rq))) = [])
      then (Answered (write_http 400 $"application/json" missing_websocket_key (admitted_id a) []), s)
      else
        let id := next_ws_connection_id (connection_counter s) in
        let context := mkWsContext path headers (admitted_id a) (admitted_policy a) 0 in
        (Upgraded id turn_state, with_connections ((id, context) :: connections s) (connection_counter s + 1) s)
  end.

Definition find_ws_connection (id : bytes) s : option WsRequestContext :=
  snd <$> List.find (fun c => bool_decide (c.1 = id)) (connections s).

Definition update_connection (id : bytes) (context : WsRequestContext) s : ServerState W :=
  with_connections ((fun c => if bool_decide (c.1 = id) then (id, context) else c) <$> connections s) (connection_counter s) s.

Inductive OpCode := OpText | OpBinary | OpOther.

(** [behavior.message]. *)
Definition handle_ws_message (id : bytes) (op : OpCode) (message : bytes) (start_ms : Z) s : list Output * ServerState W :=
  match op, find_ws_connection id s with
  | OpOther, _ | _, None => ([], s)
  | _, Some context =>
      let headers := hm_assign $"x-tightrope-request-start-ms" (to_string start_ms) (ws_headers context) in
      let route := ws_route context in
      let context := mkWsContext route headers (ws_request_id context) (ws_policy context) (message_sequence context) in
      let s := update_connection id context s in
      if negb (proxy_enabled s) then
        let frame := build_websocket_error_event_json 503 $"proxy_disabled" $"Proxy server is stopped" $"service_unavailable" [] in
        ([SentFrame id frame; Ended id 1013], persist_log $"POST" route 503 $"websocket" s)
      else
        let sequence := u64 (message_sequence context + 1) in
        let context := mkWsContext route headers (ws_request_id context) (ws_policy context) sequence in
        let s := update_connection id context s in
        let message_request_id := ws_request_id context ++ $":" ++ to_string sequence in
        let '(decision, body) := enforce_api_key_request_policy (ws_policy context) message in
        if negb (policy_allow decision) then
          let or_default value fallback := if is_empty value then fallback else value in
          let frame := build_websocket_error_event_json (policy_status decision)
            (or_default (policy_error_code decision) $"model_not_allowed")
            (or_default (policy_error_message decision) $"This API key does not have access to the requested model")
            (or_default (policy_error_type decision) $"permission_error") [] in
          ([SentFrame id frame; Ended id 1008], persist_log $"POST" route (policy_status decision) $"websocket" s)
        else
          let binary := match op with OpBinary => true | _ => false end in
          let '(enqueued, x) :=
            enqueue (WsTask id route headers (ws_policy context) message_request_id body binary) (executor s) in
          if enqueued then ([], with_executor x s)
          else
            let frame := build_websocket_error_event_json 503 $"proxy_overloaded" $"Proxy request queue is saturated"
              $"service_unavailable" [] in
            ([SentFrame id frame; Ended id 1013], persist_log $"POST" route 503 $"websocket" s)
  end.

(** [behavior.close]. *)
Definition handle_ws_close (id : bytes) s : ServerState W :=
  match find_ws_connection id s with
  | None => s
  | Some context =>
      let s := with_world (websocket_bridge_cancel (ws_headers context) (world s)) s in
      with_connections (filter (fun c => c.1 <> id) (connections s)) (connection_counter s) s
  end.

(** *** The tasks *)

Definition task_request (task : Task) : ApiKeyModelPolicy * bytes :=
  match task with
  | HttpTask _ _ request_id policy _ _ _ => (policy, request_id)
  | WsTask _ _ _ policy request_id _ _ => (policy, request_id)
  end.

(** The messages of a connection are processed one at a time. *)
Definition message_mutex_free (task : Task) s : bool :=
  match task with
  | HttpTask _ _ _ _ _ _ _ => true
  | WsTask id _ _ _ _ _ _ =>
      negb (existsb (fun '(task, reservation) =>
        match task, reservation with WsTask id' _ _ _ _ _ _, Some _ => bool_decide (id' = id) | _, _ => false end) (running s))
  end.

(** A worker takes the first task of the queue. *)
Definition take_next_task s : ServerState W :=
  match take_task (executor s) with
  | None => s
  | Some (task, x) => with_running (running s ++ [(task, None)]) (with_executor x s)
  end.

(** The task begins: its usage is reserved. *)
Definition begin_task (i : nat) (t : TaskEnv) s : ServerState W :=
  match running s !! i with
  | Some (task, None) =>
      if negb (message_mutex_free task s) then s
      else
        let '(policy, request_id) := task_request task in
        let '(reservation, k) :=
          reserve_api_key_usage (reserve_runs t) (task_opened t) policy request_id (reserve_now t) (keys s) in
        with_running (<[i := (task, Some reservation)]> (running s)) (with_keys k s)
  | _ => s
  end.

Definition settle (t : TaskEnv) (reservation : ProxyUsageReservation) (success : bool) s : ServerState W :=
  with_keys (settle_api_key_usage (settle_runs t) (task_opened t) reservation success (settle_now t) (keys s)) s.

(** The service is called, the reservation settled, the answer deferred. *)
Definition serve_task (task : Task) (reservation : ProxyUsageReservation) (t : TaskEnv) s : list Output * ServerState W :=
  match task with
  | HttpTask route headers request_id policy downstream_headers wants_sse body =>
      if wants_sse then
        let '(r, s) := serve route headers body (post_proxy_responses_sse route body headers) s in
        let s := persist_log $"POST" route (sse_status r) $"http" (settle t reservation (below_400 (sse_status r)) s) in
        (if aborted t then []
         else [Answered (write_sse (sse_status r) (sse_events r) request_id
                (merge_response_headers downstream_headers (sse_headers r)))], s)
      else
        let '(r, s) := serve route headers body (post_proxy_responses_json route body headers) s in
        let s := persist_log $"POST" route (http_status r) $"http" (settle t reservation (below_400 (http_status r)) s) in
        (if aborted t then []
         else [Answered (write_http (http_status r) (content_type r) (http_body r) request_id
                (merge_response_headers downstream_headers (http_headers r)))], s)
  | WsTask id route headers policy request_id body binary =>
      let '(r, s) := serve route headers body (proxy_responses_websocket route body headers binary) s in
      let success := below_400 (ws_status r) && accepted r && (close_code r =? 1000) in
      let s := persist_log $"POST" route (ws_status r) $"websocket" (settle t reservation success s) in
      (match find_ws_connection id s with
       | None => []
       | Some _ => ((fun frame => SentFrame id (Ret frame)) <$> frames r) ++
           (if negb (close_code r =? 1000) || negb (accepted r) then [Ended id (close_code r)] else [])
       end, s)
  end.

Definition finish_running (i : nat) s : ServerState W :=
  with_executor (finish_task (executor s)) (with_running (delete i (running s)) s).

Definition complete_task (i : nat) (t : TaskEnv) s : list Output * ServerState W :=
  match running s !! i with
  | Some (task, Some reservation) => let '(out, s) := serve_task task reservation t s in (out, finish_running i s)
  | _ => ([], s)
  end.

(** ** Every step of the server *)

Inductive Event :=
| HttpEvent (kind : RouteKind) (path : bytes) (e : Env) (t : TaskEnv) (rq : Request)
| WsMessageEvent (id : bytes) (op : OpCode) (message : bytes) (start_ms : Z)
| WsCloseEvent (id : bytes)
| TaskTaken
| TaskBegun (i : nat) (t : TaskEnv)
| TaskCompleted (i : nat) (t : TaskEnv)
| SetProxyEnabled (enabled : bool)
| ExecutorEvent (c : executor_control)
| FirewallEvent (step : (FirewallStatement -> bool) * Z * firewall_op)
| KeyEvent (runs : KeyStatement -> bool) (now : Z) (o : op)
| AccountsEvent (a : accounts_table)
| WorldEvent (w : W).

(** The executor is started, stopped and shut down; only the routes enqueue
    and only the workers take and finish. *)
Definition control_executor (c : executor_control) (x : AsyncExecutor Task) : AsyncExecutor Task :=
  match c with
  | Start hardware_threads => start hardware_threads x
  | StopAccepting => stop_accepting x
  | ShutdownBegin => shutdown_begin x
  | ShutdownEnd => shutdown_end x
  end.

Definition handle_http (kind : RouteKind) (path : bytes) (e : Env) (t : TaskEnv) (rq : Request) s : list Output * ServerState W :=
  let one (r : Answer * ServerState W) := ([Answered r.1], r.2) in
  if negb (bool_decide ((kind, path) ∈ wired_routes)) then ([], s)
  else match kind with
  | ModelsRoute => one (handle_models path e rq s)
  | ResponsesRoute =>
      let '(answer, s) := handle_responses path e rq s in (match answer with Some a => [Answered a] | None => [] end, s)
  | CompactRoute => one (handle_compact path e t rq s)
  | MemoriesRoute => one (handle_memories path e t rq s)
  | TranscribeRoute => one (handle_transcribe path e t rq s)
  | ChatRoute => one (handle_chat_completions path e t rq s)
  | UsageRoute => one (handle_usage path e rq s)
  | WsRoute => let '(out, s) := handle_upgrade path e rq s in ([out], s)
  end.

Definition server_step s (event : Event) : list Output * ServerState W :=
  match event with
  | HttpEvent kind path e t rq => handle_http kind path e t rq s
  | WsMessageEvent id op message start_ms => handle_ws_message id op message start_ms s
  | WsCloseEvent id => ([], handle_ws_close id s)
  | TaskTaken => ([], take_next_task s)
  | TaskBegun i t => ([], begin_task i t s)
  | TaskCompleted i t => complete_task i t s
  | SetProxyEnabled enabled => ([], set_enabled enabled s)
  | ExecutorEvent c => ([], with_executor (control_executor c (executor s)) s)
  | FirewallEvent f => ([], with_allow_list (firewall_step (allow_list s) f) s)
  | KeyEvent runs now o => ([], with_keys (ApiKeys.step runs now (keys s) o) s)
  | AccountsEvent a =>
      ([], mkServer (proxy_enabled s) (keys s) (allow_list s) a (executor s) (running s) (connections s)
             (connection_counter s) (request_log s) (world s) (calls s))
  | WorldEvent w => ([], with_world w s)
  end.

Definition run_server (s : ServerState W) (events : list Event) : ServerState W :=
  foldl (fun s event => (server_step s event).2) s events.

(** ** What is reached upstream was admitted *)

(** The conditions of admission, in the state in which the request came. *)
Record admissible (path : bytes) (e : Env) (rq : Request) s : Prop := {
  admissible_enabled : proxy_enabled s = true;
  admissible_client : is_firewall_protected_path path = true -> admits (allowed_ips (allow_list s)) (socket_ip rq);
  admissible_key : is_proxy_api_key_protected_path path = true ->
    gate_auth e = Some false \/
    (gate_auth e = Some true /\
     exists token r, bearer_token (request_context e rq).2 = Some token /\
       holds_key get_time token (gate_now e) (keys s) r);
}.

(** The policy that goes with the request. *)
Definition resolved_policy (path : bytes) (e : Env) (rq : Request) s : ApiKeyModelPolicy :=
  let headers := (request_context e rq).2 in
  let k := (validate_proxy_api_key_request get_time (gate_runs e) (db_opened e) (gate_auth e) path headers (gate_now e) (keys s)).2 in
  (resolve_api_key_model_policy get_time (policy_runs e) (db_opened e) (policy_auth e) headers (policy_now e) k).1.

(** A request for the route was admitted, with this policy. *)
Definition granted (s0 : ServerState W) (events : list Event) (path : bytes) (policy : ApiKeyModelPolicy) : Prop :=
  exists before kind e t rq after,
    events = before ++ HttpEvent kind path e t rq :: after /\ (kind, path) ∈ wired_routes /\ kind <> UsageRoute /\
    admissible path e rq (run_server s0 before) /\ policy = resolved_policy path e rq (run_server s0 before).

(** The body is what the policy made of a body it allowed. *)
Definition passed (policy : ApiKeyModelPolicy) (body : bytes) : Prop :=
  exists raw decision, enforce_api_key_request_policy policy raw = (decision, body) /\ policy_allow decision = true.

(** The routes whose bodies the policy is not enforced on. *)
Definition unchecked_path (path : bytes) : Prop :=
  (ModelsRoute, path) ∈ wired_routes \/ (MemoriesRoute, path) ∈ wired_routes \/ (TranscribeRoute, path) ∈ wired_routes.

(** A request for usage is admitted by what it says of its client. *)
Definition identified (path : bytes) (e : Env) (rq : Request) s : Prop :=
  proxy_enabled s = true /\
  allow (validate_codex_usage_identity_request (db_opened e) (query_runs e) path (request_context e rq).2 (usage_identity e) (accounts s)) = true.

Definition usage_granted (s0 : ServerState W) (events : list Event) (path : bytes) : Prop :=
  exists before e t rq after,
    events = before ++ HttpEvent UsageRoute path e t rq :: after /\ identified path e rq (run_server s0 before).

Definition sanctioned (s0 : ServerState W) (events : list Event) (call : UpstreamCall) : Prop :=
  (exists policy, granted s0 events (call_route call) policy /\ (unchecked_path (call_route call) \/ passed policy (call_body call))) \/
  usage_granted s0 events (call_route call).

Definition task_call (task : Task) : UpstreamCall * ApiKeyModelPolicy :=
  match task with
  | HttpTask route headers _ policy _ _ body => (mkCall route headers body, policy)
  | WsTask _ route headers policy _ body _ => (mkCall route headers body, policy)
  end.

Definition task_sanctioned (s0 : ServerState W) (events : list Event) (task : Task) : Prop :=
  let '(call, policy) := task_call task in granted s0 events (call_route call) policy /\ passed policy (call_body call).

Record sound (s0 : ServerState W) (events : list Event) s : Prop := {
  sound_keys : keys_wf (keys s);
  sound_calls : Forall (sanctioned s0 events) (calls s);
  sound_queue : Forall (task_sanctioned s0 events) (queue (executor s));
  sound_running : Forall (fun r => task_sanctioned s0 events r.1) (running s);
  sound_connections : Forall (fun c => granted s0 events (ws_route c.2) (ws_policy c.2)) (connections s);
}.

Lemma granted_more s0 events more path policy : granted s0 events path policy -> granted s0 (events ++ more) path policy.
Proof.
  intros (before & kind & e & t & rq & after & -> & H). exists before, kind, e, t, rq, (after ++ more). split; [|done].
  by rewrite <- app_assoc.
Qed.

Lemma sound_more s0 events more s : sound s0 events s -> sound s0 (events ++ more) s.
Proof.
  intros [Hk Hc Hq Hr Hn]. split; [done|..]; (eapply Forall_impl; [eassumption|]).
  - intros c [(policy & Hg & H)|(before & e & t & rq & after & -> & H)]; [left; exists policy; eauto using granted_more|right].
    exists before, e, t, rq, (after ++ more). split; [|done]. by rewrite <- app_assoc.
  - intros task. unfold task_sanctioned. destruct (task_call task). intros []. eauto using granted_more.
  - intros [task r]. cbn. unfold task_sanctioned. destruct (task_call task). intros []. eauto using granted_more.
  - eauto using granted_more.
Qed.

(** Steps that change only the keys, the log and the like. *)
Lemma sound_quiet s0 events s s' :
  sound s0 events s -> (keys_wf (keys s) -> keys_wf (keys s')) -> calls s' = calls s -> executor s' = executor s ->
  running s' = running s -> connections s' = connections s -> sound s0 events s'.
Proof. intros [Hk Hc Hq Hr Hn] Hk' Ec Ex Er En. split; [by apply Hk'|by rewrite ?Ec, ?Ex, ?Er, ?En..]. Qed.

(** *** Admission *)

Lemma good_wf t t' : good t t' -> keys_wf t -> keys_wf t'.
Proof. intros H Hw. by destruct (H Hw). Qed.

Lemma impl_good runs opened auth headers now t : good t (validate_proxy_api_key_impl get_time runs opened auth headers now t).2.
Proof.
  unfold validate_proxy_api_key_impl. destruct opened; [|apply good_refl]. destruct auth as [[]|]; try apply good_refl. cbn [negb].
  destruct (extract_bearer_token _) as [token|]; [|apply good_refl]. destruct (hash_key token) as [h|]; [|apply good_refl].
  pose proof (get_by_hash_good runs h t) as H. destruct (get_api_key_by_hash runs h t) as [[record|] t']; [|exact H].
  by repeat case_match.
Qed.

Lemma validate_good runs opened auth path headers now t :
  good t (validate_proxy_api_key_request get_time runs opened auth path headers now t).2.
Proof.
  unfold validate_proxy_api_key_request. case_match; [apply good_refl|].
  pose proof (impl_good runs opened auth headers now t) as Hi.
  by destruct (validate_proxy_api_key_impl _ _ _ _ _ _ t) as [[decision record] t'].
Qed.

Lemma resolve_good runs opened auth headers now t :
  good t (resolve_api_key_model_policy get_time runs opened auth headers now t).2.
Proof.
  unfold resolve_api_key_model_policy. pose proof (impl_good runs opened auth headers now t) as H.
  destruct (validate_proxy_api_key_impl _ _ _ _ _ _ t) as [[decision record] t']. by case_match.
Qed.

(** A step that leaves alone what the history is about. *)
Definition quiet s s' : Prop :=
  good (keys s) (keys s') /\ calls s' = calls s /\ executor s' = executor s /\ running s' = running s /\
  connections s' = connections s.

Lemma sound_after s0 events s s' : sound s0 events s -> quiet s s' -> sound s0 events s'.
Proof. intros H (Hg & ? & ? & ? & ?). eapply sound_quiet; eauto using good_wf. Qed.

Lemma authorize_spec path headers request_id e s :
  let k := validate_proxy_api_key_request get_time (gate_runs e) (db_opened e) (gate_auth e) path headers (gate_now e) (keys s) in
  let '(result, s') := authorize_or_write_denial path headers request_id e s in
  quiet s s' /\
  forall policy, result = inr policy ->
    allow k.1 = true /\
    policy = (resolve_api_key_model_policy get_time (policy_runs e) (db_opened e) (policy_auth e) headers (policy_now e) k.2).1.
Proof.
  unfold authorize_or_write_denial.
  pose proof (validate_good (gate_runs e) (db_opened e) (gate_auth e) path headers (gate_now e) (keys s)) as H1.
  destruct (validate_proxy_api_key_request _ _ _ _ _ _ _ _) as [key_auth k]. cbn [fst snd] in *.
  destruct (allow key_auth); cbn [negb]; [|by split; [split_and!|]]. destruct (allow _); cbn [negb]; [|by split; [split_and!|]].
  cbn [with_keys keys]. pose proof (resolve_good (policy_runs e) (db_opened e) (policy_auth e) headers (policy_now e) k) as H2.
  destruct (resolve_api_key_model_policy _ _ _ _ _ _ k) as [policy k']. cbn [snd] in H2.
  split; [split_and!; [|done..]; by eapply good_trans|]. by intros ? [= <-].
Qed.

(** An admitted request met the conditions, and carries the policy of its key. *)
Lemma admit_spec method path transport e rq s :
  keys_wf (keys s) ->
  let '(result, s') := admit_request method path transport e rq s in
  quiet s s' /\
  forall a, result = inr a -> admissible path e rq s /\ admitted_policy a = resolved_policy path e rq s.
Proof.
  intros Hw. unfold admit_request, resolved_policy. destruct (request_context e rq) as [request_id headers] eqn:Ec. cbn [snd].
  unfold ensure_proxy_enabled_http. destruct (proxy_enabled s) eqn:Ee; [|by split; [split_and!; [apply good_refl|done..]|]].
  pose proof (firewall_gate (fw_runs e) (db_opened e) path headers (socket_ip rq) (allow_list s)) as Hf.
  destruct (allow_request_or_write_denial _ _ _ _ _ _) as [[status body]|]; [by split; [split_and!; [apply good_refl|done..]|]|].
  destruct Hf as [Ho Hf]. pose proof (authorize_spec path headers request_id e s) as Ha.
  destruct (authorize_or_write_denial path headers request_id e s) as [[answer|policy] s'];
    destruct Ha as [Hq Ha]; (split; [done|]); [done|]. intros a [= <-]. destruct (Ha policy eq_refl) as [Hallow ->].
  split; [|done]. split; [done|done|]. intros Hp. rewrite Ec. cbn [snd].
  unfold validate_proxy_api_key_request in Hallow. rewrite Hp in Hallow. cbn [negb] in Hallow.
  destruct (gate_opens get_time (gate_runs e) (db_opened e) (gate_auth e) headers (gate_now e) (keys s) Hw) as [_ H]; [|done].
  by destruct (validate_proxy_api_key_impl _ _ _ _ _ _ _) as [[decision record] t'].
Qed.

(** *** Serving *)

Lemma sound_call {R} s0 events route headers body (f : W -> R * W) s :
  sound s0 events s -> sanctioned s0 events (mkCall route headers body) -> sound s0 events (serve route headers body f s).2.
Proof.
  intros [Hk Hc Hq Hr Hn] H. unfold serve. destruct (f (world s)) as [r w]. split; [done| |done|done|done].
  cbn. apply Forall_app. split; [done|by apply Forall_singleton].
Qed.

Lemma reserve_usage_good runs opened policy request_id now t :
  good t (reserve_api_key_usage runs opened policy request_id now t).2.
Proof.
  unfold reserve_api_key_usage. destruct (present _) as [key_id|]; [|apply good_refl]. case_match; [apply good_refl|].
  pose proof (reserve_good runs key_id request_id [] now t) as Hgood.
  destruct (create_api_key_usage_reservation _ _ _ _ _ t) as [created t']. by case_match.
Qed.

Lemma settle_usage_good runs opened reservation success now t :
  good t (settle_api_key_usage runs opened reservation success now t).
Proof. unfold settle_api_key_usage. case_match; [apply good_refl|apply transition_good]. Qed.

Lemma sound_reserved {R} s0 events t policy request_id (succeeded : R -> bool) call s :
  sound s0 events s -> (forall s, sound s0 events s -> sound s0 events (call s).2) ->
  sound s0 events (reserved t policy request_id succeeded call s).2.
Proof.
  intros Hs Hcall. unfold reserved.
  pose proof (reserve_usage_good (reserve_runs t) (task_opened t) policy request_id (reserve_now t) (keys s)) as Hg.
  destruct (reserve_api_key_usage _ _ _ _ _ (keys s)) as [reservation k]. cbn [snd] in Hg.
  assert (sound s0 events (with_keys k s)) as H1 by (eapply sound_quiet; eauto using good_wf).
  apply Hcall in H1. destruct (call _) as [r s']. cbn [snd] in *.
  eapply sound_quiet; [exact H1|..]; try done. cbn. apply good_wf, settle_usage_good.
Qed.

Lemma sound_log s0 events method path status transport s :
  sound s0 events s -> sound s0 events (persist_log method path status transport s).
Proof. intros H. by eapply sound_quiet. Qed.

Lemma sound_enqueue s0 events task s :
  sound s0 events s -> task_sanctioned s0 events task -> sound s0 events (with_executor (enqueue task (executor s)).2 s).
Proof.
  intros [Hk Hc Hq Hr Hn] Ht. unfold enqueue. split; try done. cbn. repeat case_match; try done. cbn.
  apply Forall_app. split; [done|by apply Forall_singleton].
Qed.

Section handlers.
Context (s0 : ServerState W) (events : list Event) (path : bytes) (e : Env) (t : TaskEnv) (rq : Request).
Context (s : ServerState W) (Hs : sound s0 events s).
Context (Hgrant : admissible path e rq s -> granted s0 events path (resolved_policy path e rq s)).

Lemma admit_sound method transport :
  let '(result, s') := admit_request method path transport e rq s in
  sound s0 events s' /\ forall a, result = inr a -> granted s0 events path (admitted_policy a).
Proof.
  pose proof (admit_spec method path transport e rq s (sound_keys _ _ _ Hs)) as H.
  destruct (admit_request method path transport e rq s) as [result s']. destruct H as [Hq Ha].
  split; [by eapply sound_after|]. intros a Ea. destruct (Ha a Ea) as [Hadm ->]. by apply Hgrant.
Qed.

Ltac admitted method transport :=
  let H := fresh in
  pose proof (admit_sound method transport) as H;
  destruct (admit_request method path transport e rq s) as [[answer|a] s1]; destruct H as [Hs1 Ha]; [done|];
  specialize (Ha a eq_refl).

Lemma models_sound : (ModelsRoute, path) ∈ wired_routes -> sound s0 events (handle_models path e rq s).2.
Proof.
  intros Hwired. unfold handle_models. admitted $"GET" $"http".
  pose proof (sound_call s0 events path (admitted_headers a) [] (get_proxy_models path (policy_allowed_models (admitted_policy a))
    (policy_enforced_model (admitted_policy a)) (admitted_headers a)) s1 Hs1) as H.
  destruct (serve _ _ _ _ s1) as [r s2]. apply sound_log, H. left. exists (admitted_policy a). cbn. unfold unchecked_path. auto.
Qed.

Lemma serve_now_sound checked a raw_body call s1 :
  sound s0 events s1 -> granted s0 events path (admitted_policy a) -> (checked = false -> unchecked_path path) ->
  sound s0 events (serve_now path checked t a raw_body call s1).2.
Proof.
  intros Hs1 Ha Hc. unfold serve_now. destruct (decode_body_or_write_denial _ _ _) as [answer|[body headers]]; [done|].
  destruct (if checked then _ else _) as [decision body'] eqn:Ed.
  destruct (policy_allow decision) eqn:Ep; cbn [negb]; [|by apply sound_log].
  match goal with |- context [reserved ?t ?p ?i ?f ?c s1] =>
    pose proof (sound_reserved s0 events t p i f c s1 Hs1) as H; destruct (reserved t p i f c s1) as [r s2] end.
  apply sound_log, H. intros s3 Hs3. apply sound_call; [done|]. left. exists (admitted_policy a). split; [done|].
  destruct checked; [right; by eexists _, _|left; by apply Hc].
Qed.

Lemma compact_sound : sound s0 events (handle_compact path e t rq s).2.
Proof. unfold handle_compact. admitted $"POST" $"http". by apply serve_now_sound. Qed.

Lemma memories_sound : (MemoriesRoute, path) ∈ wired_routes -> sound s0 events (handle_memories path e t rq s).2.
Proof.
  intros Hwired. unfold handle_memories. admitted $"POST" $"http". apply serve_now_sound; [done|done|].
  unfold unchecked_path. auto.
Qed.

Ltac served :=
  match goal with |- context [reserved ?t ?p ?i ?f ?c ?s1] =>
    let H := fresh in
    pose proof (sound_reserved s0 events t p i f c s1) as H; destruct (reserved t p i f c s1) as [r s2];
    apply sound_log, H; [done|]; intros s3 Hs3; apply sound_call; [done|]; left end.

Lemma transcribe_sound : (TranscribeRoute, path) ∈ wired_routes -> sound s0 events (handle_transcribe path e t rq s).2.
Proof.
  intros Hwired. unfold handle_transcribe. admitted $"POST" $"http".
  destruct (decode_body_or_write_denial _ _ _) as [answer|[body headers]]; [done|].
  destruct (transcription_fields rq body) as [[model prompt] audio]. destruct (_ && _); [by apply sound_log|]. served.
  exists (admitted_policy a). split; [done|]. left. unfold unchecked_path. auto.
Qed.

Lemma chat_sound : sound s0 events (handle_chat_completions path e t rq s).2.
Proof.
  unfold handle_chat_completions. admitted $"POST" $"http".
  destruct (decode_body_or_write_denial _ _ _) as [answer|[body headers]]; [done|].
  destruct (enforce_api_key_request_policy _ body) as [decision body'] eqn:Ed.
  destruct (policy_allow decision) eqn:Ep; cbn [negb]; [|by apply sound_log].
  destruct (chat_completions_stream_requested body'); served;
    (exists (admitted_policy a); split; [done|]; right; by eexists _, _).
Qed.

Lemma responses_sound : sound s0 events (handle_responses path e rq s).2.
Proof.
  unfold handle_responses. admitted $"POST" $"http". destruct (ensure_turn_state_header _ _) as [turn headers].
  destruct (decode_body_or_write_denial _ _ _) as [answer|[body headers']]; [done|].
  destruct (enforce_api_key_request_policy _ body) as [decision body'] eqn:Ed.
  destruct (policy_allow decision) eqn:Ep; cbn [negb]; [|by apply sound_log].
  set (task := HttpTask _ _ _ _ _ _ _). pose proof (sound_enqueue s0 events task s1 Hs1) as H.
  destruct (enqueue task (executor s1)) as [[] x]; [|by apply sound_log]. apply H. split; [done|]. by eexists _, _.
Qed.

Lemma usage_sound : (identified path e rq s -> usage_granted s0 events path) -> sound s0 events (handle_usage path e rq s).2.
Proof.
  intros Hu. unfold handle_usage, identified in *. destruct (request_context e rq) as [request_id headers]. cbn [snd] in Hu.
  unfold ensure_proxy_enabled_http. destruct (proxy_enabled s); [|by apply sound_log]. cbv zeta. cbn [negb].
  destruct (allow _) eqn:Ea; cbn [negb]; [|done].
  pose proof (sound_call s0 events path headers [] (get_codex_usage headers) s Hs (or_intror (Hu (conj eq_refl eq_refl)))) as H.
  by destruct (serve _ _ _ _ s) as [[status body] s'].
Qed.

Lemma upgrade_sound : sound s0 events (handle_upgrade path e rq s).2.
Proof.
  unfold handle_upgrade. admitted $"POST" $"websocket". destruct (ensure_turn_state_header _ _) as [turn headers].
  case_bool_decide; [done|]. destruct Hs1 as [Hk Hc Hq Hr Hn]. split; try done. cbn. by apply Forall_cons.
Qed.

End handlers.

Lemma connection_sound s0 events s id context :
  sound s0 events s -> find_ws_connection id s = Some context -> granted s0 events (ws_route context) (ws_policy context).
Proof.
  intros [_ _ _ _ Hn]. unfold find_ws_connection. intros ([id' c] & E & ->)%fmap_Some.
  apply List.find_some in E as [Hi _]. apply list_elem_of_In in Hi. by eapply Forall_forall in Hn; [|exact Hi].
Qed.

Lemma update_connection_sound s0 events id context s :
  sound s0 events s -> granted s0 events (ws_route context) (ws_policy context) ->
  sound s0 events (update_connection id context s).
Proof.
  intros [Hk Hc Hq Hr Hn] Hg. split; try done. cbn. apply Forall_fmap. eapply Forall_impl; [exact Hn|].
  intros [id' c] H. cbn. by case_bool_decide.
Qed.

Lemma ws_message_sound s0 events id op message start_ms s :
  sound s0 events s -> sound s0 events (handle_ws_message id op message start_ms s).2.
Proof.
  intros Hs. unfold handle_ws_message. destruct (find_ws_connection id s) as [context|] eqn:Ec; [|by destruct op].
  pose proof (connection_sound s0 events s id context Hs Ec) as Hg.
  assert (forall headers sequence s', sound s0 events s' ->
    sound s0 events (update_connection id (mkWsContext (ws_route context) headers (ws_request_id context) (ws_policy context) sequence) s'))
    as Hup by (intros; by apply update_connection_sound).
  destruct op; [| |done]; cbn [ws_policy ws_request_id];
    (case_match; [by apply sound_log, Hup|];
     destruct (enforce_api_key_request_policy _ message) as [decision body] eqn:Ed;
     destruct (policy_allow decision) eqn:Ep; cbn [negb]; [|by apply sound_log, Hup, Hup];
     match goal with |- context [enqueue ?task (executor ?s1)] =>
       pose proof (sound_enqueue s0 events task s1) as Hq; destruct (enqueue task (executor s1)) as [[] x];
       [apply Hq; [by apply Hup, Hup|]|by apply sound_log, Hup, Hup] end;
     split; [done|]; by eexists _, _).
Qed.

Lemma ws_close_sound s0 events id s : sound s0 events s -> sound s0 events (handle_ws_close id s).
Proof.
  intros Hs. unfold handle_ws_close. destruct (find_ws_connection id s); [|done]. destruct Hs as [Hk Hc Hq Hr Hn].
  split; try done. cbn.
  by apply Forall_filter.
Qed.

Lemma take_sound s0 events s : sound s0 events s -> sound s0 events (take_next_task s).
Proof.
  intros Hs. unfold take_next_task, take_task. pose proof (sound_queue _ _ _ Hs) as Hq.
  destruct (queue (executor s)) as [|task q] eqn:Eq; [done|]. destruct Hs as [Hk Hc _ Hr Hn].
  apply Forall_cons in Hq as [Ht Hq]. split; try done. cbn. apply Forall_app. split; [done|by apply Forall_singleton].
Qed.

Lemma begin_sound s0 events i t s : sound s0 events s -> sound s0 events (begin_task i t s).
Proof.
  intros Hs. unfold begin_task. destruct (running s !! i) as [[task [reservation|]]|] eqn:Ei; [done| |done]. case_match; [done|].
  destruct (task_request task) as [policy request_id].
  pose proof (reserve_usage_good (reserve_runs t) (task_opened t) policy request_id (reserve_now t) (keys s)) as Hg.
  destruct (reserve_api_key_usage _ _ _ _ _ (keys s)) as [reservation k]. destruct Hs as [Hk Hc Hq Hr Hn].
  split; [by eapply good_wf|done|done| |done]. cbn. apply Forall_insert; [done|].
  by eapply Forall_lookup in Hr; [|exact Ei].
Qed.

Lemma serve_task_sound s0 events task reservation t s :
  sound s0 events s -> task_sanctioned s0 events task -> sound s0 events (serve_task task reservation t s).2.
Proof.
  intros Hs Ht. assert (sanctioned s0 events (task_call task).1) as Hcall.
  { unfold task_sanctioned in Ht. destruct (task_call task) as [call policy]. destruct Ht. left. exists policy. cbn. auto. }
  assert (forall success s', sound s0 events s' -> sound s0 events (settle t reservation success s')) as Hsettle.
  { intros success s' H. eapply sound_quiet; [exact H|..]; try done. cbn. apply good_wf, settle_usage_good. }
  destruct task as [route headers request_id policy downstream wants_sse body|id route headers policy request_id body binary];
    cbn [serve_task task_call fst] in *; [destruct wants_sse|];
    match goal with |- context [serve ?r ?h ?b ?f s] =>
      pose proof (sound_call s0 events r h b f s Hs Hcall) as H; destruct (serve r h b f s) as [resp s1] end;
    cbn [snd]; by apply sound_log, Hsettle.
Qed.

Lemma complete_sound s0 events i t s : sound s0 events s -> sound s0 events (complete_task i t s).2.
Proof.
  intros Hs. unfold complete_task. destruct (running s !! i) as [[task [reservation|]]|] eqn:Ei; try done.
  assert (task_sanctioned s0 events task) as Ht.
  { pose proof (sound_running _ _ _ Hs) as Hr. by eapply Forall_lookup in Hr; [|exact Ei]. }
  pose proof (serve_task_sound s0 events task reservation t s Hs Ht) as H.
  destruct (serve_task task reservation t s) as [out s']. destruct H as [Hk Hc Hq Hr Hn]. split; try done. cbn. by apply Forall_delete.
Qed.

Lemma http_sound s0 events kind path e t rq :
  sound s0 events (run_server s0 events) ->
  sound s0 (events ++ [HttpEvent kind path e t rq]) (handle_http kind path e t rq (run_server s0 events)).2.
Proof.
  intros Hs. set (event := HttpEvent kind path e t rq). apply (sound_more s0 events [event]) in Hs.
  unfold handle_http. destruct (bool_decide _) eqn:Ew; [|done]. apply bool_decide_eq_true in Ew. cbn [negb].
  assert (kind <> UsageRoute -> admissible path e rq (run_server s0 events) ->
    granted s0 (events ++ [event]) path (resolved_policy path e rq (run_server s0 events))) as Hg.
  { intros Hne Ha. by exists events, kind, e, t, rq, []. }
  destruct kind; cbn [snd].
  - apply models_sound; auto.
  - pose proof (responses_sound s0 (events ++ [event]) path e rq _ Hs (Hg ltac:(done))) as H.
    by destruct (handle_responses path e rq _).
  - apply compact_sound; auto.
  - apply memories_sound; auto.
  - apply transcribe_sound; auto.
  - apply chat_sound; auto.
  - apply usage_sound; [done|]. intros Hu. by exists events, e, t, rq, [].
  - pose proof (upgrade_sound s0 (events ++ [event]) path e rq _ Hs (Hg ltac:(done))) as H.
    by destruct (handle_upgrade path e rq _).
Qed.

Lemma control_sound s0 events c s : sound s0 events s -> sound s0 events (with_executor (control_executor c (executor s)) s).
Proof. intros [Hk Hc Hq Hr Hn]. split; try done. by destruct c; cbn. Qed.

Lemma step_sound s0 events event :
  sound s0 events (run_server s0 events) ->
  sound s0 (events ++ [event]) (server_step (run_server s0 events) event).2.
Proof.
  intros Hs. destruct event; cbn [server_step snd].
  1: by apply http_sound.
  all: match goal with |- sound _ (_ ++ ?more) _ => apply (sound_more s0 events more) in Hs end;
    auto using ws_message_sound, ws_close_sound, take_sound, begin_sound, complete_sound, control_sound.
  all: eapply sound_quiet; [exact Hs|..]; try done. apply good_wf, step_good.
Qed.

Lemma run_server_snoc s events event : run_server s (events ++ [event]) = (server_step (run_server s events) event).2.
Proof. unfold run_server. by rewrite foldl_app. Qed.

Lemma run_sound w events : sound (initial_server w) events (run_server (initial_server w) events).
Proof.
  induction events as [|event events IH] using rev_ind; [split; try by constructor; apply empty_tables_wf|].
  rewrite run_server_snoc. by apply step_sound.
Qed.

(** Nothing is asked of the service that was not admitted.  Whatever
    requests, messages, workers, failures and changes of the tables come in
    whatever order, every call of the service in the history of the server
    is for a route on which an earlier request was admitted: in the state
    that request met the proxy was enabled, the firewall let its client pass
    where the path is behind it, and where the path asks for a key the request
    held an active one or keys were not asked for.  The body is what the policy
    found for that request made of a body it allows, on every route but those
    of models, memories and transcriptions, which do not enforce it on the
    body.  A request for usage was admitted by what it says of its client. (C1) *)
Theorem upstream_calls_authorised w events :
  Forall (fun call => exists before kind e t rq after,
      events = before ++ HttpEvent kind (call_route call) e t rq :: after /\
      let s := run_server (initial_server w) before in
      (kind <> UsageRoute /\ admissible (call_route call) e rq s /\
       (unchecked_path (call_route call) \/ passed (resolved_policy (call_route call) e rq s) (call_body call)) \/
       kind = UsageRoute /\ identified (call_route call) e rq s))
    (calls (run_server (initial_server w) events)).
Proof.
  eapply Forall_impl; [apply (sound_calls _ _ _ (run_sound w events))|].
  intros call [(policy & (before & kind & e & t & rq & after & E & _ & Hk & Ha & ->) & Hp)|(before & e & t & rq & after & E & Hi)].
  - exists before, kind, e, t, rq, after. auto.
  - exists before, UsageRoute, e, t, rq, after. auto.
Qed.

End server.

(** ** Routes that one of the checks passes by *)

(** [/backend-api/transcribe] asks for a key but is not behind the firewall,
    and [/api/models] is behind neither. *)
Lemma routes_outside_the_firewall :
  filter (fun r => is_firewall_protected_path r.2 = false) wired_routes =
    [(ModelsRoute, $"/api/models"); (TranscribeRoute, $"/backend-api/transcribe"); (UsageRoute, $"/api/codex/usage");
     (UsageRoute, $"/api/codex/usage/")] /\
  is_proxy_api_key_protected_path $"/backend-api/transcribe" = true /\ is_proxy_api_key_protected_path $"/api/models" = false.
Proof. by vm_compute. Qed.
