(* ===== verification/Settlement.v ===== *)
(** * Settlement: every reservation of usage is settled

    The routes of ProxyServer.v around the table of reservations of
    ApiKeys.v: what each step of the server leaves of the reservations, and
    the theorem that none is left open but for a task that is running. *)

From S2P Require Import Prelude Text Double JsonValue Except Fernet TokenStore Headers ErrorPolicy RequestPlan HttpBridge.
From S2P Require Import Accounts Table ApiKeys ApiKeyFilter IpAddress Firewall Decompression AsyncExecutor HttpRuntime ProxyServer.
Import Text.Ascii.

(** ** What may fail *)

(** A reservation that was committed is read back. *)
Definition reads_back (t : TaskEnv) : Prop := reserve_runs t LoadReservation = true.

(** The statements of a settlement run. *)
Definition settles (t : TaskEnv) : Prop := task_opened t = true /\ forall statement, settle_runs t statement = true.

(** The operations of the administration of keys. *)
Definition administrative (o : op) : Prop :=
  match o with Reserve _ _ _ | TransitionOp _ _ _ => False | _ => True end.

(** The open reservation of a request. *)
Definition reservation_of (request : bytes) : ProxyUsageReservation := mkUsageReservation true request.

(** ** Operations that leave the reservations alone *)

Definition still (k k' : ApiKeyTables) : Prop := usage_reservations k' = usage_reservations k.

Lemma ensure_still runs k : still k (ensure_api_key_schema runs k).2.
Proof. unfold ensure_api_key_schema. by repeat case_match. Qed.

(** The schema first, then something that leaves the reservations alone. *)
Ltac after_schema runs k :=
  let H := fresh in pose proof (ensure_still runs k) as H; destruct (ensure_api_key_schema runs k) as [ok k']; cbn [snd] in H;
  repeat case_match; exact H.

Lemma get_by_key_id_still runs id k : still k (get_api_key_by_key_id runs id k).2.
Proof. unfold get_api_key_by_key_id. after_schema runs k. Qed.

Lemma get_by_hash_still runs h k : still k (get_api_key_by_hash runs h k).2.
Proof. unfold get_api_key_by_hash. after_schema runs k. Qed.

Lemma list_still runs k : still k (list_api_keys runs k).2.
Proof. unfold list_api_keys. after_schema runs k. Qed.

Lemma get_reservation_still runs q k : still k (get_api_key_usage_reservation runs q k).2.
Proof. unfold get_api_key_usage_reservation. after_schema runs k. Qed.

Lemma delete_still runs id k : still k (delete_api_key runs id k).2.
Proof. unfold delete_api_key. cbn [delete_where]. after_schema runs k. Qed.

Lemma replace_still runs id limits k : still k (replace_api_key_limits runs id limits k).2.
Proof. unfold replace_api_key_limits. after_schema runs k. Qed.

Lemma create_still runs key_id hash prefix name models model effort expires now k :
  still k (create_api_key runs key_id hash prefix name models model effort expires now k).2.
Proof.
  pose proof (ensure_still runs k) as H. unfold create_api_key. destruct (ensure_api_key_schema runs k) as [ok k'].
  repeat case_match; try exact H. unfold still. by rewrite get_by_key_id_still.
Qed.

Lemma update_still runs key_id patch k : still k (update_api_key runs key_id patch k).2.
Proof.
  pose proof (get_by_key_id_still runs key_id k) as H. unfold update_api_key.
  destruct (get_api_key_by_key_id runs key_id k) as [[current|] k']; [|exact H].
  case_match; [exact H|]. unfold still. by rewrite get_by_key_id_still.
Qed.

Lemma administrative_still runs now o k : administrative o -> still k (ApiKeys.step runs now k o).
Proof.
  destruct o; cbn [administrative ApiKeys.step]; intros Ho; try done;
    auto using create_still, list_still, get_by_key_id_still, get_by_hash_still, update_still, delete_still, replace_still,
      get_reservation_still.
Qed.

Section gate.
Context {digest : Digest} {codec : JsonCodec} (get_time : bool -> bytes -> option Z).

Lemma impl_still runs opened auth headers now k : still k (validate_proxy_api_key_impl get_time runs opened auth headers now k).2.
Proof.
  unfold validate_proxy_api_key_impl. destruct opened; [|done]. destruct auth as [[]|]; try done. cbn [negb].
  destruct (extract_bearer_token _) as [token|]; [|done]. destruct (hash_key token) as [h|]; [|done].
  pose proof (get_by_hash_still runs h k) as H. destruct (get_api_key_by_hash runs h k) as [[record|] k']; [|exact H].
  by repeat case_match.
Qed.

Lemma validate_still runs opened auth path headers now k :
  still k (validate_proxy_api_key_request get_time runs opened auth path headers now k).2.
Proof.
  unfold validate_proxy_api_key_request. case_match; [done|]. pose proof (impl_still runs opened auth headers now k) as Hi.
  by destruct (validate_proxy_api_key_impl _ _ _ _ _ _ k) as [[decision record] k'].
Qed.

Lemma resolve_still runs opened auth headers now k :
  still k (resolve_api_key_model_policy get_time runs opened auth headers now k).2.
Proof.
  unfold resolve_api_key_model_policy. pose proof (impl_still runs opened auth headers now k) as Hi.
  destruct (validate_proxy_api_key_impl _ _ _ _ _ _ k) as [[decision record] k']. by case_match.
Qed.

End gate.

(** ** A reservation and its settlement *)

Definition open_row (k : ApiKeyTables) (r : ReservationRow) : Prop :=
  r ∈ rows (usage_reservations k) /\ r_status r = $"reserved".

Lemma still_open k k' r : still k k' -> open_row k' r <-> open_row k r.
Proof. unfold still, open_row. by intros ->. Qed.

(** Whether the schema is there depends on its statements alone. *)
Lemma ensure_alike runs k k' : (ensure_api_key_schema runs k).1 = (ensure_api_key_schema runs k').1.
Proof. unfold ensure_api_key_schema. by repeat case_match. Qed.

(** The schema keeps the identifiers of the keys. *)
Lemma ensure_keeps_id runs k row :
  row ∈ rows (api_keys k) -> exists row', row' ∈ rows (api_keys (ensure_api_key_schema runs k).2) /\ k_id row' = k_id row.
Proof.
  intros Hr. assert (exists row', row' ∈ rows (api_keys (set_keys
    (update_where (fun r => no_text (k_key_prefix r)) backfill_prefix (api_keys k)).2 k)) /\ k_id row' = k_id row) as H.
  { eexists. split; [apply elem_of_update_where; by exists row|]. by case_match. }
  unfold ensure_api_key_schema. repeat case_match; cbn [snd]; eauto.
Qed.

Lemma select_finds {R} (p : R -> bool) (t : table R) r : r ∈ rows t -> p r = true -> exists r', select p t = Some r' /\ p r' = true.
Proof.
  intros Hr Hp. destruct (select p t) as [r'|] eqn:E; [exists r'; by apply select_some in E as []|].
  eapply select_none in E; [|exact Hr]. congruence.
Qed.

(** The reservation of a key that is there is found. *)
Lemma reservation_found runs request k r key_row :
  (ensure_api_key_schema runs k).1 = true -> runs LoadReservation = true -> request <> [] ->
  unique r_request_id (usage_reservations k) -> r ∈ rows (usage_reservations k) -> r_request_id r = request ->
  key_row ∈ rows (api_keys k) -> k_id key_row = r_api_key_id r ->
  (get_api_key_usage_reservation runs request k).1 <> None.
Proof.
  intros Hok Hl Hne Hw Hr Hq Hk Hid. unfold get_api_key_usage_reservation. pose proof (ensure_still runs k) as E.
  destruct (ensure_keeps_id runs k key_row Hk) as (key_row' & Hk' & Hid').
  destruct (ensure_api_key_schema runs k) as [ok k']. cbn [fst snd] in *. rewrite Hok, Hl, E.
  rewrite bool_decide_eq_false_2 by done. cbn [negb orb fst].
  rewrite (select_unique r_request_id r request) by done.
  cbn [mbind option_bind]. destruct (select_finds (fun x => k_id x =? r_api_key_id r) (api_keys k') key_row') as (x & -> & _);
    [done|lia|done].
Qed.

(** What a reservation opens it holds. *)
Lemma reserve_opens runs opened policy request now k :
  runs LoadReservation = true -> keys_wf k ->
  let '(reservation, k') := reserve_api_key_usage runs opened policy request now k in
  forall r, open_row k' r -> open_row k r \/ (reservation = reservation_of (r_request_id r) /\ r_request_id r <> []).
Proof.
  intros Hl Hw. unfold reserve_api_key_usage. destruct (present _) as [key_id|]; [|auto]. destruct (negb opened || _) eqn:En; [auto|].
  unfold create_api_key_usage_reservation. pose proof (ensure_still runs k) as E. pose proof (ensure_alike runs k) as Ha.
  destruct (ensure_api_key_schema runs k) as [ok k1]. cbn [fst snd] in *.
  destruct (negb ok || _) eqn:Eo; [intros r; rewrite still_open by exact E; auto|].
  unfold find_api_key_pk. destruct (runs FindKey); [|intros r; rewrite still_open by exact E; auto].
  destruct (select _ (api_keys k1)) as [key_row|] eqn:Es; [|intros r; rewrite still_open by exact E; auto]. cbn [fmap option_fmap option_map].
  destruct (negb (runs Begin) || _ || _) eqn:Et; [intros r; rewrite still_open by exact E; auto|]. cbn [insert_items].
  destruct (negb (runs Commit)); [intros r; rewrite still_open by exact E; auto|].
  apply orb_false3 in Et as (_ & _ & Hq). bool_hyps. apply select_some in Es as [Hk _].
  set (row := mkReservationRow _ _ _ _ _ _). set (k2 := set_items _ _).
  assert ((get_api_key_usage_reservation runs request k2).1 <> None) as Hf.
  { eapply (reservation_found runs request k2 row key_row); try done.
    - by rewrite <- Ha.
    - cbn. apply insert_row_unique; [rewrite E; apply Hw|done].
    - cbn. apply elem_of_app. right. by left. }
  pose proof (get_reservation_still runs request k2) as E2.
  destruct (get_api_key_usage_reservation runs request k2) as [[record|] k3]; [|done]. cbn [snd] in E2.
  intros r [Hr Hs]. rewrite E2 in Hr. cbn in Hr. apply elem_of_app in Hr as [Hr|Hr%list_elem_of_singleton].
  - left. split; [by rewrite <- E|done].
  - right. by subst r.
Qed.

(** What it settles is closed. *)
Lemma settle_closes runs reservation success now k r :
  (forall statement, runs statement = true) ->
  open_row (settle_api_key_usage runs true reservation success now k) r ->
  open_row k r /\ (r_request_id r <> [] -> reservation <> reservation_of (r_request_id r)).
Proof.
  intros Hruns. unfold settle_api_key_usage. cbn [negb orb].
  destruct (active reservation) eqn:Ea; cbn [negb orb]; [|intros Ho; split; [done|by intros _ ->]].
  case_bool_decide as Eq; [intros Ho; split; [done|by intros Hne ->]|].
  unfold transition_api_key_usage_reservation_status. pose proof (ensure_still runs k) as E.
  assert ((ensure_api_key_schema runs k).1 = true) as Hok.
  { unfold ensure_api_key_schema. by rewrite !Hruns. }
  destruct (ensure_api_key_schema runs k) as [ok k1]. cbn [fst snd] in *. subst ok.
  set (next := if success then $"settled" else $"released"). assert (is_terminal_status next = true) as Ht by (by destruct success).
  rewrite !bool_decide_eq_false_2 by (done || by destruct success). cbn [negb orb].
  assert (is_valid_status_transition $"reserved" next = true) as -> by (by destruct success). rewrite Hruns. cbn [negb update_where snd].
  intros [Hr Hs]. cbn [set_reservations usage_reservations rows] in Hr. apply list_elem_of_fmap in Hr as (r' & -> & Hr').
  rewrite E in Hr'. destruct (bool_decide (r_request_id r' = _) && _) eqn:Ep.
  - cbn in Hs. by apply terminal_not_reserved in Ht.
  - split; [done|]. intros _ ->. cbn in Ep. rewrite Hs, !bool_decide_eq_true_2 in Ep by done. done.
Qed.

(** ** The server *)

Section server.
Context {W : Type} {service : ProxyService W} {digest : Digest} {codec : JsonCodec} {asio : Asio} {decoders : Decoders}.
Context (get_time : bool -> bytes -> option Z).
Implicit Types s : ServerState W.

(** Every open reservation is held by a task that runs. *)
Record closed s : Prop := {
  closed_keys : keys_wf (keys s);
  closed_held : forall r, open_row (keys s) r ->
    r_request_id r <> [] /\ exists task, (task, Some (reservation_of (r_request_id r))) ∈ running s;
}.

(** Steps that leave the reservations and the running tasks alone. *)
Definition steady s s' : Prop :=
  good (keys s) (keys s') /\ still (keys s) (keys s') /\ running s' = running s.

Lemma steady_same s s' : keys s' = keys s -> running s' = running s -> steady s s'.
Proof. intros Ek Er. unfold steady, still. rewrite Ek, Er. auto using good_refl. Qed.

Lemma steady_trans s1 s2 s3 : steady s1 s2 -> steady s2 s3 -> steady s1 s3.
Proof. unfold steady, still. intros (? & ? & ?) (? & ? & ?). split_and!; [by eapply good_trans|congruence..]. Qed.

Lemma closed_steady s s' : closed s -> steady s s' -> closed s'.
Proof.
  intros [Hk Hh] (Hg & Hs & Hr). split; [by eapply good_wf|]. intros r Ho. rewrite Hr. apply Hh. by apply (still_open _ _ _ Hs).
Qed.

Lemma closed_same s s' : closed s -> keys s' = keys s -> running s' = running s -> closed s'.
Proof. eauto using closed_steady, steady_same. Qed.

Lemma authorize_steady path headers request_id e s : steady s (authorize_or_write_denial get_time path headers request_id e s).2.
Proof.
  unfold authorize_or_write_denial.
  pose proof (validate_good get_time (gate_runs e) (db_opened e) (gate_auth e) path headers (gate_now e) (keys s)) as G1.
  pose proof (validate_still get_time (gate_runs e) (db_opened e) (gate_auth e) path headers (gate_now e) (keys s)) as S1.
  destruct (validate_proxy_api_key_request _ _ _ _ _ _ _ _) as [key_auth k]. cbn [snd] in *.
  destruct (allow key_auth); cbn [negb]; [|done]. destruct (allow _); cbn [negb]; [|done]. cbn [with_keys keys].
  pose proof (resolve_good get_time (policy_runs e) (db_opened e) (policy_auth e) headers (policy_now e) k) as G2.
  pose proof (resolve_still get_time (policy_runs e) (db_opened e) (policy_auth e) headers (policy_now e) k) as S2.
  destruct (resolve_api_key_model_policy _ _ _ _ _ _ k) as [policy k']. cbn [snd] in *.
  split_and!; [by eapply good_trans|unfold still in *; cbn; congruence|done].
Qed.

Lemma admit_steady method path transport e rq s : steady s (admit_request get_time method path transport e rq s).2.
Proof.
  unfold admit_request. destruct (request_context e rq) as [request_id headers]. unfold ensure_proxy_enabled_http.
  destruct (proxy_enabled s); [|by apply steady_same].
  destruct (allow_request_or_write_denial _ _ _ _ _ _) as [[status body]|]; [by apply steady_same|].
  pose proof (authorize_steady path headers request_id e s) as H.
  by destruct (authorize_or_write_denial _ path headers request_id e s) as [[answer|policy] s'].
Qed.

(** A route whose handler goes on from an admitted request. *)
Ltac admitted_closed method transport :=
  match goal with |- context [admit_request get_time method ?path transport ?e ?rq ?s] =>
    let H := fresh in pose proof (admit_steady method path transport e rq s) as H;
    destruct (admit_request get_time method path transport e rq s) as [[answer|a] s1]; cbn [snd] in H;
    [|assert (closed s1) as Hs1 by (by eapply closed_steady)] end;
  [by eapply closed_steady|].

Lemma serve_same {R} route headers body (f : W -> R * W) s :
  keys (serve route headers body f s).2 = keys s /\ running (serve route headers body f s).2 = running s.
Proof. unfold serve. by destruct (f (world s)). Qed.

Lemma serve_closed {R} route headers body (f : W -> R * W) s : closed s -> closed (serve route headers body f s).2.
Proof. intros H. destruct (serve_same route headers body f s). by eapply closed_same. Qed.

(** A reservation around a call is closed when the call returns. *)
Lemma reserved_closed {R} t policy request (succeeded : R -> bool) (call : ServerState W -> R * ServerState W) s :
  reads_back t -> settles t -> (forall s, keys (call s).2 = keys s /\ running (call s).2 = running s) ->
  closed s -> closed (reserved t policy request succeeded call s).2.
Proof.
  intros Hb [Ho Hruns] Hcall [Hk Hh]. unfold reserved.
  pose proof (reserve_opens (reserve_runs t) (task_opened t) policy request (reserve_now t) (keys s) Hb Hk) as Hopen.
  pose proof (reserve_usage_good (reserve_runs t) (task_opened t) policy request (reserve_now t) (keys s)) as Hg.
  destruct (reserve_api_key_usage _ _ _ _ _ (keys s)) as [reservation k]. cbn [snd] in Hg.
  destruct (Hcall (with_keys k s)) as [Ek Er]. destruct (call (with_keys k s)) as [r s']. cbn [snd] in *. rewrite Ek. rewrite Ho.
  cbn [with_keys keys running] in *. split; cbn [with_keys keys running].
  - eapply good_wf; [apply settle_usage_good|]. by eapply good_wf.
  - rewrite Er. intros row Hrow. apply settle_closes in Hrow as [Hrow Hne]; [|done].
    apply Hopen in Hrow as [Hrow|[E Hn]]; [by apply Hh|]. by apply Hne in Hn.
Qed.

Lemma log_closed method path status transport s : closed s -> closed (persist_log method path status transport s).
Proof. intros H. by eapply closed_same. Qed.

(** The call of a route inside its reservation. *)
Ltac reserved_call t :=
  match goal with |- context [reserved t ?p ?i ?f ?c ?s1] =>
    let H := fresh in pose proof (reserved_closed t p i f c s1) as H; destruct (reserved t p i f c s1) as [r s2]; cbn [snd] in *;
    apply log_closed, H; [done..|intros; apply serve_same|done] end.

Lemma serve_now_closed path checked t a raw_body call s :
  reads_back t -> settles t -> closed s -> closed (serve_now path checked t a raw_body call s).2.
Proof.
  intros Hb Ht Hs. unfold serve_now. destruct (decode_body_or_write_denial _ _ _) as [answer|[body headers]]; [done|].
  destruct (if checked then _ else _) as [decision body']. destruct (negb _); [by apply log_closed|]. reserved_call t.
Qed.

Lemma http_closed kind path e t rq s :
  reads_back t -> settles t -> closed s -> closed (handle_http get_time kind path e t rq s).2.
Proof.
  intros Hb Ht Hs. unfold handle_http. destruct (negb _); [done|]. destruct kind; cbn [snd].
  - unfold handle_models. admitted_closed $"GET" $"http".
    pose proof (serve_closed path (admitted_headers a) [] (get_proxy_models path (policy_allowed_models (admitted_policy a))
      (policy_enforced_model (admitted_policy a)) (admitted_headers a)) s1 Hs1) as Hc.
    destruct (serve _ _ _ _ s1) as [r s2]. by apply log_closed.
  - unfold handle_responses. admitted_closed $"POST" $"http". destruct (ensure_turn_state_header _ _) as [turn headers].
    destruct (decode_body_or_write_denial _ _ _) as [answer|[body headers']]; [done|].
    destruct (enforce_api_key_request_policy _ body) as [decision body']. destruct (negb _); [by apply log_closed|].
    destruct (enqueue _ _) as [[] x]; [|by apply log_closed]. by eapply closed_same.
  - unfold handle_compact. admitted_closed $"POST" $"http". by apply serve_now_closed.
  - unfold handle_memories. admitted_closed $"POST" $"http". by apply serve_now_closed.
  - unfold handle_transcribe. admitted_closed $"POST" $"http".
    destruct (decode_body_or_write_denial _ _ _) as [answer|[body headers]]; [done|].
    destruct (transcription_fields rq body) as [[model prompt] audio]. destruct (_ && _); [by apply log_closed|]. reserved_call t.
  - unfold handle_chat_completions. admitted_closed $"POST" $"http".
    destruct (decode_body_or_write_denial _ _ _) as [answer|[body headers]]; [done|].
    destruct (enforce_api_key_request_policy _ body) as [decision body']. destruct (negb _); [by apply log_closed|].
    destruct (chat_completions_stream_requested body'); reserved_call t.
  - unfold handle_usage. destruct (request_context e rq) as [request_id headers]. unfold ensure_proxy_enabled_http.
    destruct (proxy_enabled s); [|by apply log_closed]. destruct (negb _); [done|].
    pose proof (serve_closed path headers [] (get_codex_usage headers) s Hs) as Hc. by destruct (serve _ _ _ _ s) as [[status body] s'].
  - unfold handle_upgrade. admitted_closed $"POST" $"websocket". destruct (ensure_turn_state_header _ _) as [turn headers].
    destruct (bool_decide _); [done|]. by eapply closed_same.
Qed.

Lemma update_connection_same id context s :
  keys (update_connection id context s) = keys s /\ running (update_connection id context s) = running s.
Proof. done. Qed.

Lemma ws_message_closed id op message start_ms s : closed s -> closed (handle_ws_message id op message start_ms s).2.
Proof.
  intros Hs. assert (forall s', keys s' = keys s -> running s' = running s -> closed s') as H by (intros; by eapply closed_same).
  unfold handle_ws_message. destruct (find_ws_connection id s) as [context|]; [|by destruct op].
  destruct op; [| |done]; cbn [ws_policy ws_request_id];
    (destruct (negb (proxy_enabled _)); [by apply H|];
     destruct (enforce_api_key_request_policy _ message) as [decision body]; destruct (negb (policy_allow decision)); [by apply H|];
     destruct (enqueue _ _) as [[] x]; by apply H).
Qed.

Lemma elem_of_insert_other {A} (l : list A) i x y z : l !! i = Some x -> z ∈ l -> z <> x -> z ∈ <[i := y]> l.
Proof.
  intros Hx [j Hj]%list_elem_of_lookup Hne. apply list_elem_of_lookup. exists j.
  rewrite list_lookup_insert_ne; [done|]. intros ->. congruence.
Qed.

Lemma elem_of_delete_other {A} (l : list A) i x z : l !! i = Some x -> z ∈ l -> z <> x -> z ∈ delete i l.
Proof.
  intros Hx Hz Hne. rewrite delete_take_drop. rewrite <- (take_drop_middle l i x Hx) in Hz.
  apply elem_of_app in Hz as [Hz|Hz]; apply elem_of_app; [by left|]. apply elem_of_cons in Hz as [->|Hz]; [done|by right].
Qed.

Lemma take_closed s : closed s -> closed (take_next_task s).
Proof.
  intros Hs. unfold take_next_task. destruct (take_task _) as [[task x]|]; [|done]. destruct Hs as [Hk Hh]. split; [done|].
  intros r Hr. destruct (Hh r Hr) as [Hne [task' Ht]]. split; [done|]. exists task'. cbn. apply elem_of_app. by left.
Qed.

Lemma begin_closed i t s : reads_back t -> closed s -> closed (begin_task i t s).
Proof.
  intros Hb Hs. unfold begin_task. destruct (running s !! i) as [[task [reservation|]]|] eqn:Ei; [done| |done].
  destruct (negb (message_mutex_free task s)); [done|]. destruct (task_request task) as [policy request]. destruct Hs as [Hk Hh].
  pose proof (reserve_opens (reserve_runs t) (task_opened t) policy request (reserve_now t) (keys s) Hb Hk) as Hopen.
  pose proof (reserve_usage_good (reserve_runs t) (task_opened t) policy request (reserve_now t) (keys s)) as Hg.
  destruct (reserve_api_key_usage _ _ _ _ _ (keys s)) as [reservation k]. split; [by eapply good_wf|]. cbn.
  intros r Hr. apply Hopen in Hr as [Hr|[-> Hne]].
  - destruct (Hh r Hr) as [Hne [task' Ht]]. split; [done|]. exists task'. by eapply elem_of_insert_other.
  - split; [done|]. exists task. apply list_elem_of_lookup. exists i. apply list_lookup_insert_eq. by eapply lookup_lt_Some.
Qed.

(** What a task leaves of the open reservations when it is served. *)
Lemma serve_task_settles task reservation t s :
  settles t -> keys_wf (keys s) ->
  let s' := (serve_task task reservation t s).2 in
  keys_wf (keys s') /\ running s' = running s /\
  forall r, open_row (keys s') r -> open_row (keys s) r /\ (r_request_id r <> [] -> reservation <> reservation_of (r_request_id r)).
Proof.
  intros [Ho Hruns] Hk. assert (forall success s1, keys s1 = keys s -> running s1 = running s ->
    let k' := keys (settle t reservation success s1) in
    keys_wf k' /\ running s1 = running s /\ forall r, open_row k' r ->
      open_row (keys s) r /\ (r_request_id r <> [] -> reservation <> reservation_of (r_request_id r))) as Hsettle.
  { intros success s1 Ek Er. unfold settle. cbn. rewrite Ek, Ho. split_and!; [|done|].
    - eapply good_wf; [apply settle_usage_good|done].
    - intros r. by apply settle_closes. }
  destruct task as [route headers request policy downstream [] body|id route headers policy request body binary]; cbn [serve_task];
    match goal with |- context [serve ?r ?h ?b ?f s] =>
      pose proof (serve_same r h b f s) as [Ek Er]; destruct (serve r h b f s) as [resp s1] end;
    by apply Hsettle.
Qed.

Lemma complete_closed i t s : settles t -> closed s -> closed (complete_task i t s).2.
Proof.
  intros Ht Hs. unfold complete_task. destruct (running s !! i) as [[task [reservation|]]|] eqn:Ei; [|done..].
  destruct Hs as [Hk Hh]. pose proof (serve_task_settles task reservation t s Ht Hk) as H.
  destruct (serve_task task reservation t s) as [out s']. destruct H as (Hk' & Er & Hopen). cbn [snd] in *.
  split; [done|]. cbn. intros r Hr. apply Hopen in Hr as [Hr Hn]. destruct (Hh r Hr) as [Hne [task' Ht']].
  split; [done|]. exists task'. rewrite Er. eapply elem_of_delete_other; [exact Ei|done|]. intros [= _ E]. by apply Hn in Hne.
Qed.

(** ** Runs *)

(** What is asked of the steps: reservations are read back where they are
    made, the statements of settlements run, and nothing else than the
    proxy reserves or settles. *)
Definition healthy (event : Event (W := W)) : Prop :=
  match event with
  | HttpEvent _ _ _ t _ => reads_back t /\ settles t
  | TaskBegun _ t => reads_back t
  | TaskCompleted _ t => settles t
  | KeyEvent _ _ o => administrative o
  | _ => True
  end.

Lemma step_closed s event : healthy event -> closed s -> closed (server_step get_time s event).2.
Proof.
  intros Hh Hs. destruct event; cbn [server_step snd healthy] in *;
    auto using ws_message_closed, take_closed, begin_closed, complete_closed; try by eapply closed_same.
  - destruct Hh. by apply http_closed.
  - unfold handle_ws_close. destruct (find_ws_connection id s); [|done]. by eapply closed_same.
  - eapply closed_steady; [exact Hs|]. split_and!; [apply step_good|by apply administrative_still|done].
Qed.

(** No reservation of usage is forgotten.  In every run of the server
    from its start in which a reservation that is committed is read back (one
    that is not stays open, [unread_reservation_stays_open]), the statements
    that settle it run, and only the proxy reserves and settles ([healthy]),
    whatever else fails and in whatever order requests, messages and workers
    come: a reservation that is open belongs to a task that has begun
    and not ended, so that when none runs each has been settled or released. (C4) *)
Theorem usage_always_settled w events :
  Forall healthy events ->
  let s := run_server get_time (initial_server w) events in
  (forall r, open_row (keys s) r -> exists task, (task, Some (reservation_of (r_request_id r))) ∈ running s) /\
  (running s = [] -> Forall (fun r => is_terminal_status (r_status r) = true) (rows (usage_reservations (keys s)))).
Proof.
  intros Hev. assert (closed (run_server get_time (initial_server w) events)) as [Hk Hh].
  { unfold run_server. assert (closed (initial_server w)) as H.
    { split; [apply empty_tables_wf|]. by intros r [Hr%elem_of_nil _]. }
    revert H. generalize (initial_server w). induction Hev as [|event events He _ IH]; intros s Hs; [done|].
    cbn [foldl]. by apply IH, step_closed. }
  cbn zeta. split; [intros r Hr; by apply Hh|]. intros Hr. apply Forall_forall. intros r Hin.
  pose proof (reservations_status _ Hk) as Hst. eapply Forall_forall in Hst; [|exact Hin].
  destruct Hst as [[E _]|[Ht _]]; [|done]. destruct (Hh r (conj Hin E)) as [_ [task Htask]]. rewrite Hr in Htask.
  by apply elem_of_nil in Htask.
Qed.

End server.

(** ** Concrete inputs *)

Definition not_answered : ProxyJsonResult := mkJsonResult 502 [] [] false.

(** A service that answers nothing. *)
Definition silent_service : ProxyService unit := {|
  collect_models _ _ _ _ w := (not_answered, w);
  collect_responses_json _ _ _ w := (not_answered, w);
  stream_responses_sse _ _ _ w := (mkSseResult 502 [] [] false, w);
  collect_responses_compact _ _ _ w := (not_answered, w);
  collect_memories_trace_summarize _ _ _ w := (not_answered, w);
  collect_transcribe _ _ _ _ _ w := (not_answered, w);
  chat_completions_stream_requested _ := false;
  collect_chat_completions_json _ _ w := (not_answered, w);
  stream_chat_completions_sse _ _ w := (mkSseResult 502 [] [] false, w);
  responses_websocket _ _ _ _ w := (mkWsResponse 502 false 1011 [] [] false, w);
  get_codex_usage _ w := ((502, []), w);
  websocket_bridge_cancel _ w := w;
|}.

Definition sample_env : Env :=
  mkEnv true (fun _ => true) all_statements (Some true) 2 all_statements (Some true) 2 true (fun _ _ => mkValidation false 401 []) $"req-1" $"turn-1" 0.

Definition sample_task_env : TaskEnv := mkTaskEnv true all_statements 2 all_statements 3 false.

Definition sample_http_request : Request :=
  mkRequest [($"authorization", $"Bearer token")] (Some $"7f000001") (fun _ => []) $"{}".

Definition sample_run : list (Event (W := unit)) :=
  [KeyEvent all_statements 1 (CreateKey $"k1" zero_hash $"sk-clb-1" $"first" None None None None);
   ExecutorEvent (Start 4);
   HttpEvent ResponsesRoute $"/v1/responses" sample_env sample_task_env sample_http_request;
   TaskTaken; TaskBegun 0 sample_task_env; TaskCompleted 0 sample_task_env].

Lemma usage_always_settled_witness :
  let s := run_server (service := silent_service) (digest := plain_digest) (codec := sample_filter_codec) no_time
             (initial_server ()) sample_run in
  exists r, rows (usage_reservations (keys s)) = [r] /\ is_terminal_status (r_status r) = true.
Proof.
  pose proof (usage_always_settled (service := silent_service) (digest := plain_digest) (codec := sample_filter_codec) no_time
    () sample_run) as H.
  destruct H as [_ H].
  { by repeat constructor. }
  assert (running (run_server (service := silent_service) (digest := plain_digest) (codec := sample_filter_codec) no_time
    (initial_server ()) sample_run) = []) as Hr by reflexivity.
  apply H in Hr. clear H. eexists. split; [reflexivity|].  by apply Forall_singleton in Hr.
Defined.

(** ** A reservation that is not read back *)

Definition unreadable (statement : KeyStatement) : bool := match statement with LoadReservation => false | _ => true end.

(** A committed reservation whose row cannot be loaded is reported as none
    at all, so that it stays open: nothing will settle it. *)
Lemma unread_reservation_stays_open :
  let policy := mkPolicy (Some $"k1") [] None None in
  let '(reservation, k) := reserve_api_key_usage unreadable true policy $"req-1" 2 (run_ops empty_tables one_key) in
  reservation = no_reservation /\ (exists r, open_row k r /\ r_request_id r = $"req-1") /\
  settle_api_key_usage all_statements true reservation true 3 k = k.
Proof.
  cbv zeta. split; [reflexivity|]. split; [|reflexivity]. exists (mkReservationRow 1 1 $"req-1" $"reserved" 2 None).
  split; [|reflexivity]. split; [by left|reflexivity].
Qed.
