(* ===== verification/ChatRequest.v ===== *)
(** * ChatRequest: a chat completion request as a responses request

    The first half of src/native/proxy/src/chat_completions_service.cpp: the
    messages of a chat request become the input and the instructions of a
    responses request, its tools, response format and reasoning effort are
    renamed, and what cannot be carried over ends in an exception. *)

From S2P Require Import Prelude Text Double JsonValue Except PayloadNormalizer.
Import Text.Ascii Text.Find.

(** ** Exceptions *)

(** [ChatValidationError], which names a parameter, and the other
    [std::runtime_error]s. *)
Inductive ChatError :=
| ChatValidationError (what param : bytes)
| RuntimeError (what : bytes).

Inductive checked (A : Type) :=
| Done (a : A)
| Raise (error : ChatError).
Arguments Done {_} _.
Arguments Raise {_} _.

#[global] Instance checked_ret : MRet checked := @Done.
#[global] Instance checked_bind : MBind checked :=
  fun A B f m => match m with Done a => f a | Raise error => Raise error end.

(** A loop that carries a state, and one that collects. *)
Fixpoint foldM {A B} (f : B -> A -> checked B) (b : B) (l : list A) : checked B :=
  match l with
  | [] => Done b
  | x :: l => b ← f b x; foldM f b l
  end.

Fixpoint mapC {A B} (f : A -> checked B) (l : list A) : checked (list B) :=
  match l with
  | [] => Done []
  | x :: l => y ← f x; ys ← mapC f l; Done (y :: ys)
  end.

(** ** Constants *)

Definition kSupportedRoles : list bytes := [$"system"; $"developer"; $"user"; $"assistant"; $"tool"].

Definition kMaxImageDataUrlBytes : Z := 8 * 1024 * 1024.

(** openai/internal/payload_normalizer_detail.h *)
Definition kUnsupportedToolTypes : list bytes :=
  [$"file_search"; $"code_interpreter"; $"computer_use"; $"computer_use_preview"; $"image_generation"].

(** ** Helpers *)

Definition is_supported_role (role : bytes) : bool := contains_string kSupportedRoles role.

Definition json_bool (object : JsonObject) (key : bytes) (default_value : bool) : bool := default default_value (bool_at object key).

(** A string field that is there and not empty. *)
Definition filled (object : JsonObject) (key : bytes) : option bytes :=
  match string_at object key with Some ((_ :: _) as s) => Some s | _ => None end.

Definition input_text_part (text : bytes) : Json :=
  JObject (make_object [($"type", JString $"input_text"); ($"text", JString text)]).

Definition infer_content_part_type (object : JsonObject) : bytes :=
  match filled object $"type" with
  | Some explicit_type => explicit_type
  | None => if string_at object $"text" then $"text" else []
  end.

(** [std::isalnum] in the C locale, [_] and [-]. *)
Definition is_name_char (ch : Byte.byte) : bool :=
  let c := Z.of_N (Byte.to_N ch) in
  ((48 <=? c) && (c <=? 57)) || ((65 <=? c) && (c <=? 90)) || ((97 <=? c) && (c <=? 122)) || (c =? 95) || (c =? 45).

Definition is_valid_json_schema_name (name : bytes) : bool :=
  if bool_decide (name = []) || (64 <? size_of name) then false else forallb is_name_char name.

(** [url.find(',')]: what is before and after. *)
Fixpoint split_comma (url : bytes) : option (bytes * bytes) :=
  match url with
  | [] => None
  | ch :: rest =>
      if bool_decide (ch = Byte.x2c) then Some ([], rest)
      else match split_comma rest with Some (before, after) => Some (ch :: before, after) | None => None end
  end.

Fixpoint leading_equals (data : bytes) : Z :=
  match data with
  | Byte.x3d :: data => 1 + leading_equals data
  | _ => 0
  end.

Definition is_oversized_data_url (url : bytes) : bool :=
  if negb (starts_with url $"data:") then false
  else match split_comma url with
  | None => false
  | Some (header, data) =>
      if negb (contains header $";base64") then false
      else
        let padding := leading_equals (reverse data) in
        let size := u64 (size_of data * 3) / 4 in
        let decoded_bytes := if padding <? size then size - padding else 0 in
        kMaxImageDataUrlBytes <? decoded_bytes
  end.

(** ** Contents of messages *)

(** A part of a system message: text, or an object that says it is text. *)
Definition text_only_object (object : JsonObject) : bool :=
  let type := infer_content_part_type object in
  (bool_decide (type = []) || bool_decide (type = $"text")) && (if string_at object $"text" then true else false).

Definition ensure_text_only_content (content : Json) (role : bytes) : checked () :=
  let fail := Raise (ChatValidationError (role ++ $" messages must be text-only.") $"messages") in
  match content with
  | JNull | JString _ => Done ()
  | JArray parts =>
      if forallb (fun part => match part with JString _ => true | JObject object => text_only_object object | _ => false end) parts
      then Done () else fail
  | JObject object => if text_only_object object then Done () else fail
  | _ => fail
  end.

Definition optional_tool_call_id (object : JsonObject) : option bytes :=
  match string_at object $"tool_call_id", string_at object $"toolCallId" with
  | Some id, _ => Some id
  | None, Some id => Some id
  | None, None => string_at object $"call_id"
  end.

(** The text that a part of a tool's output contributes. *)
Definition part_text (part : Json) : bytes :=
  match part with JString s => s | JObject object => default [] (string_at object $"text") | _ => [] end.

Definition normalize_tool_output_content (content : Json) : checked bytes :=
  match content with
  | JString s => Done s
  | JArray parts =>
      let output := concat (part_text <$> parts) in
      if bool_decide (output = []) && negb (bool_decide (length parts = 0%nat))
      then Raise (ChatValidationError $"tool message content array contains no valid text parts." $"messages")
      else Done output
  | _ => Raise (ChatValidationError $"tool message content must be a string or array." $"messages")
  end.

Definition map_chat_file_part (object : JsonObject) : checked Json :=
  match object_at object $"file" with
  | None => Raise (ChatValidationError $"File content parts must include file metadata." $"messages")
  | Some file =>
      if filled file $"file_id" then Raise (ChatValidationError $"Invalid request payload" $"messages")
      else
        let mapped url := JObject (make_object [($"type", JString $"input_file"); ($"file_url", JString url)]) in
        match filled file $"file_url" with
        | Some file_url => Done (mapped file_url)
        | None =>
            match filled file $"file_data", filled file $"data" with
            | Some file_data, _ | None, Some file_data =>
                let resolved_mime := match filled file $"mime_type", filled file $"content_type" with
                                     | Some mime_type, _ | None, Some mime_type => mime_type
                                     | None, None => $"application/octet-stream"
                                     end in
                Done (mapped ($"data:" ++ resolved_mime ++ $";base64," ++ file_data))
            | None, None => Done (JObject (make_object [($"type", JString $"input_file")]))
            end
        end
  end.

(** [None]: the image is too large and left out. *)
Definition map_chat_image_part (object : JsonObject) : checked (option Json) :=
  let '(url, detail) := match object !! $"image_url" with
                        | Some (JObject image) => (string_at image $"url", filled image $"detail")
                        | Some (JString url) => (Some url, None)
                        | _ => (None, None)
                        end in
  match url with
  | None | Some [] => Raise (ChatValidationError $"Image content parts must include image_url.url." $"messages")
  | Some url =>
      if is_oversized_data_url url then Done None
      else Done (Some (JObject (make_object ([($"type", JString $"input_image"); ($"image_url", JString url)] ++
                                             match detail with Some detail => [($"detail", JString detail)] | None => [] end))))
  end.

Definition map_chat_user_content_part (part : Json) : checked (option Json) :=
  match part with
  | JString s => Done (Some (input_text_part s))
  | JObject object =>
      let part_type := infer_content_part_type object in
      if contains_string [$"text"; $"input_text"; $"output_text"] part_type then
        match string_at object $"text" with
        | None => Raise (ChatValidationError $"Text content parts must include a string 'text'." $"messages")
        | Some text => Done (Some (input_text_part text))
        end
      else if bool_decide (part_type = $"image_url") then map_chat_image_part object
      else if bool_decide (part_type = $"input_image") then Done (Some part)
      else if bool_decide (part_type = $"input_audio") then Raise (ChatValidationError $"Audio input is not supported." $"messages")
      else if bool_decide (part_type = $"file") then mapped ← map_chat_file_part object; Done (Some mapped)
      else if bool_decide (part_type = $"input_file") then
        if filled object $"file_id" then Raise (ChatValidationError $"Invalid request payload" $"messages") else Done (Some part)
      else Raise (ChatValidationError ($"Unsupported user content part type: " ++ part_type) $"messages")
  | _ => Raise (ChatValidationError $"User message content parts must be objects." $"messages")
  end.

Definition or_empty_text (parts : list Json) : Json :=
  JArray (if bool_decide (length parts = 0%nat) then [input_text_part []] else parts).

Definition to_user_input_parts (content : Json) : checked Json :=
  match content with
  | JNull => Done (JArray [input_text_part []])
  | JArray parts => normalized ← mapC map_chat_user_content_part parts; Done (or_empty_text (omap id normalized))
  | _ => normalized ← map_chat_user_content_part content; Done (or_empty_text (option_list normalized))
  end.

(** [parse_content_part]: what it appends. *)
Definition parse_content_part (part : Json) : checked (list Json) :=
  match part with
  | JString s => Done [input_text_part s]
  | JObject object =>
      let type := string_at object $"type" in
      let image := if bool_decide (type = Some $"image_url") then i ← object_at object $"image_url"; filled i $"url" else None in
      match image with
      | Some url => Done [JObject (make_object [($"type", JString $"input_image"); ($"image_url", JString url)])]
      | None =>
          if bool_decide (type = Some $"input_text") || bool_decide (type = Some $"input_image") then Done [part]
          else if bool_decide (type = Some $"file") then mapped ← map_chat_file_part object; Done [mapped]
          else Done (match string_at object $"text" with Some text => [input_text_part text] | None => [] end)
      end
  | _ => Done []
  end.

Definition to_input_parts (content : Json) : checked Json :=
  match content with
  | JString s => Done (JArray [input_text_part s])
  | JArray parts => mapped ← mapC parse_content_part parts; Done (or_empty_text (concat mapped))
  | JObject _ => mapped ← parse_content_part content; Done (or_empty_text mapped)
  | _ => Done (or_empty_text [])
  end.

Definition newline : Byte.byte := Byte.x0a.

(** [joined] with the next text, after a newline when there is one before. *)
Definition join_text (joined text : bytes) : bytes :=
  (if bool_decide (joined = []) then [] else joined ++ [newline]) ++ text.

Definition text_of_part (part : Json) : option bytes :=
  match part with JString s => Some s | JObject object => string_at object $"text" | _ => None end.

Definition flatten_text_content (content : Json) : bytes :=
  match content with
  | JString s => s
  | JObject object => default [] (string_at object $"text")
  | JArray parts => foldl join_text [] (omap text_of_part parts)
  | _ => []
  end.

(** ** Tools, response format and reasoning *)

(** What becomes of a tool; [None] when it is left out. *)
Definition normalize_chat_tool (tool : Json) : checked (option Json) :=
  match tool with
  | JObject tool_object =>
      let tool_type := default $"function" (filled tool_object $"type") in
      let tool_type := normalize_tool_type_alias tool_type in
      if contains_string kUnsupportedToolTypes tool_type then Raise (ChatValidationError $"Unsupported tool type" [])
      else match object_at tool_object $"function" with
      | Some function_object =>
          match filled function_object $"name" with
          | None => Done None
          | Some name =>
              Done (Some (JObject (make_object
                ([($"type", JString tool_type); ($"name", JString name)] ++
                 match string_at function_object $"description" with Some d => [($"description", JString d)] | None => [] end ++
                 match function_object !! $"parameters" with Some p => [($"parameters", p)] | None => [] end))))
          end
      | None =>
          let normalized := <[$"type" := JString tool_type]> tool_object in
          if bool_decide (tool_type = $"web_search") then Done (Some (JObject normalized))
          else Done (if filled normalized $"name" then Some (JObject normalized) else None)
      end
  | _ => Done None
  end.

Definition normalize_chat_tools_field (object : JsonObject) : checked JsonObject :=
  match object !! $"tools" with
  | None => Done object
  | Some (JArray tools) =>
      normalized ← mapC normalize_chat_tool tools;
      Done (<[$"tools" := JArray (omap id normalized)]> object)
  | Some _ => Raise (ChatValidationError $"Unsupported tool type" [])
  end.

Definition normalize_chat_tool_choice_field (object : JsonObject) : JsonObject :=
  match object_at object $"tool_choice" with
  | None => object
  | Some choice_object =>
      let type := default [] (string_at choice_object $"type") in
      let choice_object :=
        if bool_decide (type = []) then choice_object
        else <[$"type" := JString (normalize_tool_type_alias type)]> choice_object in
      let name := f ← object_at choice_object $"function"; filled f $"name" in
      <[$"tool_choice" := JObject
          match name with
          | None => choice_object
          | Some name =>
              make_object [($"type", JString (if bool_decide (type = []) then $"function" else normalize_tool_type_alias type));
                           ($"name", JString name)]
          end]> object
  end.

Definition response_format_to_text_format (response_format : Json) : checked Json :=
  let fail message := Raise (ChatValidationError message $"response_format") in
  match response_format with
  | JString type =>
      if bool_decide (type = $"json_object") || bool_decide (type = $"text")
      then Done (JObject (make_object [($"type", JString type)]))
      else if bool_decide (type = $"json_schema")
      then fail $"'response_format' must include 'json_schema' when type is 'json_schema'."
      else fail ($"Unsupported response_format.type: " ++ type)
  | JObject format_object =>
      match filled format_object $"type" with
      | None => fail $"Unsupported response_format.type: "
      | Some type =>
          if bool_decide (type = $"json_object") || bool_decide (type = $"text")
          then Done (JObject (make_object [($"type", JString type)]))
          else if negb (bool_decide (type = $"json_schema")) then fail ($"Unsupported response_format.type: " ++ type)
          else match object_at format_object $"json_schema" with
          | None => fail $"'response_format.json_schema' is required when type is 'json_schema'."
          | Some schema_object =>
              let name := filled schema_object $"name" in
              if match name with Some name => negb (is_valid_json_schema_name name) | None => false end
              then fail $"Invalid response_format.json_schema.name"
              else Done (JObject (make_object
                     ([($"type", JString $"json_schema")] ++
                      match name with Some name => [($"name", JString name)] | None => [] end ++
                      match schema_object !! $"schema" with Some schema => [($"schema", schema)] | None => [] end ++
                      match bool_at schema_object $"strict" with Some strict => [($"strict", JBool strict)] | None => [] end)))
          end
      end
  | _ => fail $"'response_format' must be a string or object."
  end.

Definition apply_response_format_mapping (object : JsonObject) : checked JsonObject :=
  match object !! $"response_format" with
  | None => Done object
  | Some response_format =>
      text_controls ←
        match object !! $"text" with
        | None => Done ∅
        | Some (JObject text) =>
            if has_field text $"format"
            then Raise (ChatValidationError $"Provide either 'response_format' or 'text.format', not both." $"response_format")
            else Done text
        | Some _ => Raise (ChatValidationError $"'text' must be an object when using 'response_format'." $"text")
        end;
      format ← response_format_to_text_format response_format;
      Done (delete $"response_format" (<[$"text" := JObject (<[$"format" := format]> text_controls)]> object))
  end.

Definition map_reasoning_effort (object : JsonObject) : JsonObject :=
  match string_at object $"reasoning_effort" with
  | None => object
  | Some effort =>
      let reasoning := default ∅ (object_at object $"reasoning") in
      let reasoning := if has_field reasoning $"effort" then reasoning else <[$"effort" := JString effort]> reasoning in
      delete $"reasoning_effort" (<[$"reasoning" := JObject reasoning]> object)
  end.

(** ** The request *)

Record ChatRequestTransform := mkTransform {
  model : bytes;
  stream_requested : bool;
  include_usage : bool;
  responses_body : bytes;
}.

Definition messages_error (what : bytes) : ChatError := ChatValidationError what $"messages".

(** A tool call of an assistant's message. *)
Definition call_item (tool_call : Json) : checked Json :=
  match tool_call with
  | JObject tool_call_object =>
      match filled tool_call_object $"id" with
      | None => Raise (messages_error $"tool_calls[].id is required.")
      | Some call_id =>
          match object_at tool_call_object $"function" with
          | None => Raise (messages_error $"tool_calls[].function is required.")
          | Some function =>
              match filled function $"name", string_at function $"arguments" with
              | None, _ => Raise (messages_error $"tool_calls[].function.name is required.")
              | Some _, None => Raise (messages_error $"tool_calls[].function.arguments must be a string.")
              | Some function_name, Some function_arguments =>
                  Done (JObject (make_object
                    [($"type", JString $"function_call"); ($"call_id", JString call_id); ($"name", JString function_name);
                     ($"arguments", JString function_arguments)]))
              end
          end
      end
  | _ => Raise (messages_error $"tool_calls entries must be objects.")
  end.

Definition tool_message (message_object : JsonObject) : checked Json :=
  match optional_tool_call_id message_object with
  | None | Some [] => Raise (messages_error $"tool messages must include 'tool_call_id'.")
  | Some call_id =>
      match message_object !! $"content" with
      | None | Some JNull => Raise (messages_error $"tool message content is required.")
      | Some content =>
          output ← normalize_tool_output_content content;
          Done (JObject (make_object
            [($"type", JString $"function_call_output"); ($"call_id", JString call_id); ($"output", JString output)]))
      end
  end.

(** The items of the input and the instructions so far, with whether there
    are none yet; one message more. *)
Definition message_step (st : list Json * bytes * bool) (message : Json) : checked (list Json * bytes * bool) :=
  let '(input_items, instructions, first_instruction) := st in
  match message with
  | JObject message_object =>
      match string_at message_object $"role" with
      | None => Raise (messages_error $"unsupported message role")
      | Some role =>
          if negb (is_supported_role role) then Raise (messages_error $"unsupported message role")
          else
            let content := default JNull (message_object !! $"content") in
            if bool_decide (role = $"system") || bool_decide (role = $"developer") then
              _ ← ensure_text_only_content content role;
              let text := flatten_text_content content in
              Done (if bool_decide (text = []) then (input_items, instructions, first_instruction)
                    else (input_items, instructions ++ (if first_instruction then [] else [newline]) ++ text, false))
            else if bool_decide (role = $"tool") then
              output_item ← tool_message message_object;
              Done (input_items ++ [output_item], instructions, first_instruction)
            else
              parts ← (if bool_decide (role = $"user") then to_user_input_parts content else to_input_parts content);
              let item := JObject (make_object [($"role", JString role); ($"content", parts)]) in
              calls ← match bool_decide (role = $"assistant"), array_at message_object $"tool_calls" with
                      | true, Some tool_calls => mapC call_item tool_calls
                      | _, _ => Done []
                      end;
              Done (input_items ++ item :: calls, instructions, first_instruction)
      end
  | _ => Raise (messages_error $"'messages' must contain objects.")
  end.

Definition empty_user_message : Json :=
  JObject (make_object [($"role", JString $"user"); ($"content", JArray [input_text_part []])]).

(** The fields that the responses contract does not have, or has renamed. *)
Definition kChatOnlyFields : list bytes := [$"messages"; $"n"; $"max_tokens"; $"max_completion_tokens"; $"stream_options"].

(** The object that is written, once the messages are converted. *)
Definition responses_object (object : JsonObject) (input_items : list Json) (instructions : bytes) : checked JsonObject :=
  let include_obfuscation := options ← object_at object $"stream_options"; bool_at options $"include_obfuscation" in
  let object := erase_keys kChatOnlyFields object in
  let object := map_reasoning_effort object in
  object ← apply_response_format_mapping object;
  object ← normalize_chat_tools_field object;
  let object := normalize_chat_tool_choice_field object in
  let object :=
    match include_obfuscation with
    | Some b => <[$"stream_options" := JObject (make_object [($"include_obfuscation", JBool b)])]> object
    | None => object
    end in
  Done (<[$"stream" := JBool true]> (<[$"instructions" := JString instructions]> (<[$"input" := JArray input_items]> object))).

Definition transform_chat_request `{JsonCodec} (raw_request_body : bytes) : checked ChatRequestTransform :=
  match read_object raw_request_body with
  | None => Raise (RuntimeError $"request payload is not valid JSON")
  | Some object =>
      match filled object $"model" with
      | None => Raise (RuntimeError $"request payload missing required field: model")
      | Some model =>
          match array_at object $"messages" with
          | None | Some [] => Raise (RuntimeError $"'messages' must be a non-empty list.")
          | Some messages =>
              st ← foldM message_step ([], [], true) messages;
              let '(input_items, instructions, _) := st in
              let input_items := if bool_decide (length input_items = 0%nat) then [empty_user_message] else input_items in
              let options := object_at object $"stream_options" in
              let include_usage := match options with Some o => json_bool o $"include_usage" false | None => false end in
              result ← responses_object object input_items instructions;
              match write_json (JObject result) with
              | None => Raise (RuntimeError $"failed to serialize chat request")
              | Some serialized => Done (mkTransform model (json_bool object $"stream" false) include_usage serialized)
              end
          end
      end
  end.

Definition chat_completions_stream_requested `{JsonCodec} (raw_request_body : bytes) : bool :=
  match transform_chat_request raw_request_body with Done t => stream_requested t | Raise _ => false end.

(** ** The monad *)

Lemma done_bind {A B} (m : checked A) (f : A -> checked B) b : m ≫= f = Done b <-> exists a, m = Done a /\ f a = Done b.
Proof. destruct m; simpl; split; [by eexists|by intros (? & [= ->] & ?)|done|by intros (? & ? & ?)]. Qed.

Lemma mapC_Done {A B} (f : A -> checked B) l k : mapC f l = Done k <-> Forall2 (fun x y => f x = Done y) l k.
Proof.
  revert k. induction l as [|x l IH]; intros k; simpl.
  - split; [by intros [= <-]|by inversion 1].
  - rewrite done_bind. split.
    + intros (y & Hy & (ys & Hys & [= <-])%done_bind). constructor; [done|]. by apply IH.
    + inversion 1 as [|? y ? ys Hy Hys]; subst. exists y. split; [done|]. apply done_bind. exists ys. split; [by apply IH|done].
Qed.

Lemma mapC_all {A B} (P : B -> Prop) (f : A -> checked B) l k :
  (forall x y, f x = Done y -> P y) -> mapC f l = Done k -> Forall P k.
Proof. intros Hf Hk%mapC_Done. induction Hk; constructor; eauto. Qed.

Lemma foldM_app {A B} (f : B -> A -> checked B) b l1 l2 : foldM f b (l1 ++ l2) = foldM f b l1 ≫= fun b' => foldM f b' l2.
Proof. revert b. induction l1 as [|x l1 IH]; intros b; [done|]. cbn [foldM app]. destruct (f b x); [apply IH|done]. Qed.

Lemma filled_some object key s : filled object key = Some s <-> string_at object key = Some s /\ s <> [].
Proof. unfold filled. destruct (string_at object key) as [[|c t]|]; intuition congruence. Qed.

(** ** The contract of the responses request *)

(** A message of the user or the assistant with some content. *)
Definition is_message_item (item : JsonObject) : Prop :=
  exists role parts, string_at item $"role" = Some role /\ role ∈ [$"user"; $"assistant"] /\
    array_at item $"content" = Some parts /\ parts <> [].

Definition is_call_item (item : JsonObject) : Prop :=
  string_at item $"type" = Some $"function_call" /\ is_Some (filled item $"call_id") /\ is_Some (filled item $"name") /\
  is_Some (string_at item $"arguments").

Definition is_output_item (item : JsonObject) : Prop :=
  string_at item $"type" = Some $"function_call_output" /\ is_Some (filled item $"call_id") /\
  is_Some (string_at item $"output").

Definition input_item (j : Json) : Prop :=
  exists item, j = JObject item /\ (is_message_item item \/ is_call_item item \/ is_output_item item).

(** A tool whose type is supported and spelt as the upstream spells it, with
    a name unless it is the web search. *)
Definition supported_tool (j : Json) : Prop :=
  exists tool type, j = JObject tool /\ string_at tool $"type" = Some type /\ contains_string kUnsupportedToolTypes type = false /\
    normalize_tool_type_alias type = type /\ (type = $"web_search" \/ is_Some (filled tool $"name")).

(** The fields the transformation may change. *)
Definition kChatTouched : list bytes :=
  [$"messages"; $"n"; $"max_tokens"; $"max_completion_tokens"; $"stream_options"; $"reasoning_effort"; $"reasoning";
   $"response_format"; $"text"; $"tools"; $"tool_choice"; $"stream"; $"instructions"; $"input"].

Record chat_contract (object result : JsonObject) : Prop := {
  contract_stream : result !! $"stream" = Some (JBool true);
  contract_instructions : exists instructions, result !! $"instructions" = Some (JString instructions);
  contract_input : exists items, result !! $"input" = Some (JArray items) /\ items <> [] /\ Forall input_item items;
  contract_erased : Forall (fun key => result !! key = None)
    [$"messages"; $"n"; $"max_tokens"; $"max_completion_tokens"; $"response_format"];
  contract_tools : forall tools, result !! $"tools" = Some tools -> exists l, tools = JArray l /\ Forall supported_tool l;
  contract_rest : touches kChatTouched object result;
}.

(** *** Items *)

Lemma or_empty_text_parts parts : exists l, or_empty_text parts = JArray l /\ l <> [].
Proof. unfold or_empty_text. case_bool_decide as E; eexists; split; try done. intros ->. done. Qed.

Lemma to_user_input_parts_spec content parts : to_user_input_parts content = Done parts -> exists l, parts = JArray l /\ l <> [].
Proof.
  destruct content; cbn [to_user_input_parts]; try (intros (x & _ & [= <-])%done_bind; apply or_empty_text_parts).
  intros [= <-]. by eexists.
Qed.

Lemma to_input_parts_spec content parts : to_input_parts content = Done parts -> exists l, parts = JArray l /\ l <> [].
Proof.
  destruct content; cbn [to_input_parts]; try (intros (x & _ & [= <-])%done_bind; apply or_empty_text_parts);
    intros [= <-]; (by eexists) || apply or_empty_text_parts.
Qed.

(** Fields of an object that was just made. *)
Ltac made := unfold filled, string_at, array_at, make_object; cbn [foldl fst snd app];
  rewrite ?lookup_insert_ne by done; rewrite ?lookup_insert_eq; try done.

Lemma call_item_spec tool_call item : call_item tool_call = Done item -> input_item item.
Proof.
  destruct tool_call as [| | | | |o]; try done. cbn [call_item].
  destruct (filled o $"id") as [id|] eqn:Ei; [|done]. destruct (object_at o $"function") as [f|]; [|done].
  destruct (filled f $"name") as [n|] eqn:En; [|done]. destruct (string_at f $"arguments") as [a|]; [|done].
  apply filled_some in Ei as [_ Hi]. apply filled_some in En as [_ Hn]. intros [= <-]. eexists. split; [done|]. right. left.
  split_and!; made; destruct id, n; first [by destruct Hi|by destruct Hn|by eexists].
Qed.

Lemma tool_message_spec message_object item : tool_message message_object = Done item -> input_item item.
Proof.
  unfold tool_message. destruct (optional_tool_call_id _) as [[|c id]|]; try done.
  destruct (message_object !! $"content") as [[]|]; try done; intros (output & _ & [= <-])%done_bind;
    (eexists; split; [done|]; right; right; split_and!; made; by eexists).
Qed.

(** One message more adds items that the contract allows. *)
Lemma message_step_spec st message st' :
  message_step st message = Done st' -> exists items, st'.1.1 = st.1.1 ++ items /\ Forall input_item items.
Proof.
  destruct st as [[items instructions] first]. destruct message as [| | | | |o]; try done. cbn [message_step].
  destruct (string_at o $"role") as [role|] eqn:Er; [|done]. destruct (is_supported_role role) eqn:Es; [|done]. cbn [negb].
  case_bool_decide as E1; cbn [orb];
    [|case_bool_decide as E1'; cbn [orb]; [|case_bool_decide as E2]].
  1,2: intros (? & _ & [= <-])%done_bind; exists []; rewrite app_nil_r; by case_bool_decide.
  { intros (item & Hi & [= <-])%done_bind. exists [item]. split; [done|]. apply Forall_singleton. by eapply tool_message_spec. }
  intros (parts & Hp & (calls & Hc & [= <-])%done_bind)%done_bind. eexists. split; [done|]. constructor.
  - assert (exists l, parts = JArray l /\ l <> []) as (l & -> & Hl).
    { destruct (bool_decide (role = $"user")); [by eapply to_user_input_parts_spec|by eapply to_input_parts_spec]. }
    eexists. split; [done|]. left. exists role, l. split_and!; made.
    apply contains_string_true in Es. unfold kSupportedRoles in Es. rewrite !elem_of_cons in *. rewrite elem_of_nil in *. tauto.
  - destruct (bool_decide (role = $"assistant")); [|by injection Hc as <-].
    destruct (array_at o $"tool_calls"); [|by injection Hc as <-]. eapply mapC_all; [|exact Hc]. eauto using call_item_spec.
Qed.

Lemma messages_spec messages st st' :
  foldM message_step st messages = Done st' -> exists items, st'.1.1 = st.1.1 ++ items /\ Forall input_item items.
Proof.
  revert st. induction messages as [|m messages IH]; intros st; cbn [foldM].
  - intros [= <-]. exists []. by rewrite app_nil_r.
  - intros (st1 & (items1 & E1 & H1)%message_step_spec & (items2 & E2 & H2)%IH)%done_bind. exists (items1 ++ items2).
    rewrite E2, E1, app_assoc. split; [done|]. by apply Forall_app.
Qed.

(** *** Fields *)

Lemma touches_in keys key v o : key ∈ keys -> touches keys o (<[key := v]> o).
Proof. intros H. by apply touches_insert, contains_string_true. Qed.

Lemma touches_out keys key o : key ∈ keys -> touches keys o (delete key o).
Proof. intros H. by apply touches_delete, contains_string_true. Qed.

Lemma reasoning_spec o : touches [$"reasoning"; $"reasoning_effort"] o (map_reasoning_effort o).
Proof.
  unfold map_reasoning_effort. destruct (string_at o _) as [effort|]; [|apply touches_refl].
  eapply touches_trans; [apply (touches_in _ $"reasoning")|apply touches_out]; set_solver.
Qed.

Lemma format_spec o o' :
  apply_response_format_mapping o = Done o' ->
  touches [$"text"; $"response_format"] o o' /\ o' !! $"response_format" = None.
Proof.
  unfold apply_response_format_mapping. destruct (o !! $"response_format") as [format|] eqn:E; [|by intros [= <-]].
  intros (text & _ & (f & _ & [= <-])%done_bind)%done_bind. split; [|apply lookup_delete_eq].
  eapply touches_trans; [apply (touches_in _ $"text")|apply touches_out]; set_solver.
Qed.

Lemma normalize_chat_tool_spec tool tool' : normalize_chat_tool tool = Done (Some tool') -> supported_tool tool'.
Proof.
  destruct tool as [| | | | |o]; try done. cbn [normalize_chat_tool].
  set (type := normalize_tool_type_alias _). assert (normalize_tool_type_alias type = type) as Ha by apply normalize_tool_type_alias_idem.
  destruct (contains_string kUnsupportedToolTypes type) eqn:Ec; [done|].
  destruct (object_at o $"function") as [f|].
  - destruct (filled f $"name") as [name|] eqn:En; [|done]. apply filled_some in En as [_ Hn]. intros [= <-].
    eexists. exists type. split; [done|]. destruct (string_at f $"description"), (f !! $"parameters");
      (split_and!; [made|done|done|right; made; destruct name; [by destruct Hn|by eexists]]).
  - case_bool_decide as Ew.
    + intros [= <-]. eexists. exists type. split; [done|]. split_and!; [apply string_at_insert_eq|done|done|by left].
    + destruct (filled _ $"name") as [name|] eqn:En; [|done]. intros [= <-]. eexists. exists type. split; [done|].
      split_and!; [apply string_at_insert_eq|done|done|right]. rewrite En. by eexists.
Qed.

Lemma tools_field_spec o o' :
  normalize_chat_tools_field o = Done o' ->
  touches [$"tools"] o o' /\ forall tools, o' !! $"tools" = Some tools -> exists l, tools = JArray l /\ Forall supported_tool l.
Proof.
  unfold normalize_chat_tools_field. destruct (o !! $"tools") as [[| | | |tools|]|] eqn:E; try done.
  - intros (normalized & Hn & [= <-])%done_bind. split; [apply touches_in; set_solver|]. intros t. rewrite lookup_insert_eq.
    intros [= <-]. eexists. split; [done|].
    apply (mapC_all (fun y => forall t, y = Some t -> supported_tool t)) in Hn.
    2: { intros x y Hx t' ->. by eapply normalize_chat_tool_spec. }
    apply Forall_forall. intros x (y & Hy & Ey)%list_elem_of_omap. rewrite Forall_forall in Hn. by apply (Hn y).
  - intros [= <-]. split; [apply touches_refl|]. congruence.
Qed.

Lemma tool_choice_spec o : touches [$"tool_choice"] o (normalize_chat_tool_choice_field o).
Proof.
  unfold normalize_chat_tool_choice_field. destruct (object_at o _); [|apply touches_refl]. cbv zeta. apply touches_in. set_solver.
Qed.

(** A field that several steps leave alone. *)
Lemma touches_lookup keys key o o' : touches keys o o' -> contains_string keys key = false -> o' !! key = o !! key.
Proof. auto. Qed.

Lemma responses_object_contract object items instructions result :
  items <> [] -> Forall input_item items -> responses_object object items instructions = Done result ->
  chat_contract object result.
Proof.
  intros Hne Hitems. unfold responses_object. set (o1 := erase_keys _ _). pose proof (reasoning_spec o1) as T2.
  intros (o3 & (T3 & Hf)%format_spec & (o4 & (T4 & Ht)%tools_field_spec & [= <-])%done_bind)%done_bind.
  pose proof (tool_choice_spec o4) as T5. revert T5. generalize (normalize_chat_tool_choice_field o4). intros o5 T5.
  match goal with |- context [<[$"input" := _]> ?o] => set (o6 := o) end.
  assert (touches [$"stream_options"] o5 o6) as T6.
  { unfold o6. destruct (_ : option bool); [apply touches_in; set_solver|apply touches_refl]. }
  clearbody o6. pose proof (touches_erase kChatOnlyFields object) as T1. fold o1 in T1.
  assert (forall key, key ∈ [$"messages"; $"n"; $"max_tokens"; $"max_completion_tokens"] -> o6 !! key = None) as He.
  { intros key Hk. assert (o1 !! key = None) as E1.
    { apply lookup_erase, contains_string_true. set_solver. }
    rewrite (T6 key), (T5 key), (T4 key), (T3 key), (T2 key); [done|apply contains_string_false; set_solver..]. }
  split.
  - by rewrite lookup_insert_eq.
  - exists instructions. rewrite !lookup_insert_ne by done. by rewrite lookup_insert_eq.
  - exists items. rewrite !lookup_insert_ne by done. by rewrite lookup_insert_eq.
  - repeat (apply Forall_cons; split; [rewrite !lookup_insert_ne by done|]); [apply He; set_solver..| |done].
    by rewrite (T6 _), (T5 _), (T4 _).
  - intros tools. rewrite !lookup_insert_ne by done. rewrite (T6 _), (T5 _) by done. apply Ht.
  - intros key Hk. apply contains_string_false in Hk.
    rewrite !lookup_insert_ne by (intros <-; apply Hk; set_solver).
    rewrite (T6 key), (T5 key), (T4 key), (T3 key), (T2 key), (T1 key); [done|apply contains_string_false; set_solver..].
Qed.

(** A chat request that is converted becomes a responses request of the
    expected type: it streams, its instructions are text, its input is a
    list, not empty, of messages with content, function calls and their
    outputs, each with its fields, its tools are supported and named, nothing
    is left of the fields only chat requests have, and every other field,
    its model among them, is passed on as it was. *)
Theorem chat_request_contract `{JsonCodec} raw_request_body t :
  transform_chat_request raw_request_body = Done t ->
  exists object result, read_object raw_request_body = Some object /\ write_json (JObject result) = Some (responses_body t) /\
    chat_contract object result /\ string_at result $"model" = Some (model t) /\ string_at object $"model" = Some (model t).
Proof.
  unfold transform_chat_request. destruct (read_object _) as [object|]; [|done].
  destruct (filled object $"model") as [m|] eqn:Em; [|done]. apply filled_some in Em as [Em _].
  destruct (array_at object $"messages") as [[|message messages]|]; [done| |done].
  intros ([[items instructions] first] & (new & Ei & Hi)%messages_spec & E)%done_bind. cbn [fst snd app] in Ei. subst items.
  apply done_bind in E as (result & Er & E). destruct (write_json (JObject result)) as [s|] eqn:Ew; [|done]. injection E as <-.
  exists object, result. split; [done|]. split; [done|].
  assert (chat_contract object result) as Hc.
  { eapply responses_object_contract; [| |exact Er].
    - case_bool_decide as E0; [done|]. by intros ->.
    - case_bool_decide; [|done]. apply Forall_singleton. eexists. split; [done|]. left.
      exists $"user", [input_text_part []]. split_and!; [made|set_solver|made|done]. }
  split; [done|]. split; [|done]. unfold string_at. by rewrite (contract_rest _ _ Hc).
Qed.

(** ** Concrete inputs *)

(** [{"model":"m","messages":[{"role":"user","content":"hi"}],"stream":true,"n":1}] *)
Definition sample_chat : JsonObject :=
  make_object [($"model", JString $"m");
    ($"messages", JArray [JObject (make_object [($"role", JString $"user"); ($"content", JString $"hi")])]);
    ($"stream", JBool true); ($"n", JNumber (of_int 1))].

Lemma chat_request_contract_witness :
  exists result, chat_contract sample_chat result /\ string_at result $"model" = Some $"m".
Proof.
  destruct (@chat_request_contract (sample_codec $"{}" (JObject sample_chat)) $"{}" (mkTransform $"m" true false $"{}"))
    as (object & result & Eo & _ & Hc & Hm & _); [reflexivity|].
  assert (@read_object (sample_codec $"{}" (JObject sample_chat)) $"{}" = Some sample_chat) as E by reflexivity.
  assert (object = sample_chat) as -> by congruence. by exists result.
Defined.
