(* ===== verification/ChatResponse.v ===== *)
(** * ChatResponse: a responses answer as a chat completion

    The second half of src/native/proxy/src/chat_completions_service.cpp: the
    JSON answer and the stream of events of a responses request, rewritten as
    a chat completion and its chunks, with the calls of tools put together
    from their deltas and snapshots.  The clock is an argument. *)

From S2P Require Import Prelude Text Double JsonValue Except Headers ErrorPolicy PayloadNormalizer ProxyServer ChatRequest.
Import Text.Ascii Text.Find.

(** ** The JSON answer *)

Definition is_text_part_type (type : option bytes) : bool :=
  bool_decide (type = Some $"output_text") || bool_decide (type = Some $"text").

Definition extract_text_from_output_item (item : Json) : bytes :=
  match item with
  | JObject object =>
      if bool_decide (string_at object $"type" = Some $"output_text") then default [] (string_at object $"text")
      else match array_at object $"content" with
      | Some parts =>
          concat ((fun part => match part with
                               | JObject part => if is_text_part_type (string_at part $"type")
                                                 then default [] (string_at part $"text") else []
                               | _ => []
                               end) <$> parts)
      | None => []
      end
  | _ => []
  end.

(** A field under another name, when it is there. *)
Definition renamed (object : JsonObject) (key new_key : bytes) : list (bytes * Json) :=
  match object !! key with Some value => [(new_key, value)] | None => [] end.

Definition chat_usage_from_response_usage (usage : Json) : JsonObject :=
  match usage with
  | JObject usage_object =>
      make_object (renamed usage_object $"input_tokens" $"prompt_tokens" ++
                   renamed usage_object $"output_tokens" $"completion_tokens" ++
                   renamed usage_object $"total_tokens" $"total_tokens")
  | _ => ∅
  end.

Definition finish_reason_from_incomplete (response : Json) : bytes :=
  match response with
  | JObject response =>
      match details ← object_at response $"incomplete_details"; string_at details $"reason" with
      | None => $"stop"
      | Some reason =>
          if bool_decide (reason = $"max_output_tokens") || bool_decide (reason = $"max_tokens") then $"length"
          else if bool_decide (reason = $"content_filter") then $"content_filter"
          else $"stop"
      end
  | _ => $"stop"
  end.

(** A text field under another name. *)
Definition text_field (key : bytes) (value : option bytes) : list (bytes * Json) :=
  match value with Some s => [(key, JString s)] | None => [] end.

Definition first_some (a b : option bytes) : option bytes := match a with Some _ => a | None => b end.

(** The tool call of an item of the output; [None] when it is none. *)
Definition message_tool_call (item : Json) : option Json :=
  match item with
  | JObject item_object =>
      let item_type := string_at item_object $"type" in
      if bool_decide (item_type = Some $"function_call") || bool_decide (item_type = Some $"tool_call") then
        let call_id := first_some (first_some (string_at item_object $"call_id") (string_at item_object $"id"))
                         (string_at item_object $"tool_call_id") in
        let function := make_object (text_field $"name" (string_at item_object $"name") ++
                                     text_field $"arguments" (string_at item_object $"arguments")) in
        Some (JObject (make_object (text_field $"id" call_id ++ [($"type", JString $"function")] ++
                                    if bool_decide (function = ∅) then [] else [($"function", JObject function)])))
      else None
  | _ => None
  end.

Definition output_items (object : JsonObject) : list Json := default [] (array_at object $"output").

(** The object of the completion. *)
Definition chat_completion (object : JsonObject) (model : bytes) (now : Z) : JsonObject :=
  let content := concat (extract_text_from_output_item <$> output_items object) in
  let tool_calls := omap message_tool_call (output_items object) in
  let has_tool_calls := negb (bool_decide (length tool_calls = 0%nat)) in
  let message := make_object
    ([($"role", JString $"assistant");
      ($"content", if negb (bool_decide (content = [])) || negb has_tool_calls then JString content else JNull)] ++
     if has_tool_calls then [($"tool_calls", JArray tool_calls)] else []) in
  let finish_reason :=
    if has_tool_calls then $"tool_calls"
    else if bool_decide (string_at object $"status" = Some $"incomplete") then finish_reason_from_incomplete (JObject object)
    else $"stop" in
  let choice := make_object [($"index", JNumber (of_int 0)); ($"message", JObject message); ($"finish_reason", JString finish_reason)] in
  let usage := match object !! $"usage" with Some usage => chat_usage_from_response_usage usage | None => ∅ end in
  make_object
    ([($"id", JString (default $"chatcmpl_temp" (filled object $"id"))); ($"object", JString $"chat.completion");
      ($"created", JNumber (of_int now)); ($"model", JString (default model (filled object $"model")));
      ($"choices", JArray [JObject choice])] ++
     if bool_decide (usage = ∅) then [] else [($"usage", JObject usage)]).

Definition responses_json_to_chat_completion `{JsonCodec} (upstream : ProxyJsonResult) (model : bytes) (now : Z) : ProxyJsonResult :=
  if 400 <=? json_status upstream then upstream
  else match read_object (json_body upstream) with
  | None =>
      mkJsonResult 502 (build_error_envelope $"upstream_error" $"Invalid upstream response" $"server_error" []) (json_headers upstream) false
  | Some object =>
      if has_field object $"error" then upstream
      else match write_json (JObject (chat_completion object model now)) with
      | None =>
          mkJsonResult 500 (build_error_envelope $"server_error" $"Failed to serialize chat completion" $"server_error" [])
            (json_headers upstream) false
      | Some serialized => mkJsonResult 200 serialized (json_headers upstream) false
      end
  end.

(** ** Deltas of tool calls *)

Inductive ArgumentsMode := Unknown | Delta | Snapshot.

Record ToolCallDelta := mkDelta {
  index : nat;
  call_id : option bytes;
  name : option bytes;
  arguments : option bytes;
  arguments_mode : ArgumentsMode;
  tool_type : option bytes;
}.

Record ToolCallIndex := mkIndex { indexes : gmap bytes nat; next_index : nat }.

Definition new_index : ToolCallIndex := mkIndex ∅ 0.

Definition nonempty (value : option bytes) : option bytes := match value with Some ((_ :: _) as s) => Some s | _ => None end.

Definition index_key (call_id name : option bytes) : option bytes :=
  match nonempty call_id, nonempty name with
  | Some id, _ => Some ($"id:" ++ id)
  | None, Some name => Some ($"name:" ++ name)
  | None, None => None
  end.

Definition index_for (call_id name : option bytes) (indexer : ToolCallIndex) : nat * ToolCallIndex :=
  match index_key call_id name with
  | None => (0%nat, indexer)
  | Some key =>
      match indexes indexer !! key with
      | Some existing => (existing, indexer)
      | None => (next_index indexer, mkIndex (<[key := next_index indexer]> (indexes indexer)) (S (next_index indexer)))
      end
  end.

Record ToolCallState := mkToolCall {
  state_index : nat;
  state_call_id : option bytes;
  state_name : option bytes;
  emitted_call_id : option bytes;
  emitted_name : option bytes;
  state_arguments : bytes;
  state_tool_type : bytes;
}.

Definition new_tool_call (i : nat) : ToolCallState := mkToolCall i None None None None [] $"function".

Fixpoint first_non_empty (values : list (option bytes)) : option bytes :=
  match values with
  | [] => None
  | value :: values => match nonempty value with Some s => Some s | None => first_non_empty values end
  end.

Definition non_empty_json_string (value : Json) : option bytes := match value with JString s => nonempty (Some s) | _ => None end.

Definition contains_tool_fields (object : JsonObject) : bool :=
  has_field object $"call_id" || has_field object $"tool_call_id" || has_field object $"arguments" ||
  has_field object $"function" || has_field object $"name".

Definition infer_tool_call_arguments_mode (event_object candidate : JsonObject) (arguments : option bytes) : ArgumentsMode :=
  match nonempty arguments with
  | None => Unknown
  | Some _ =>
      let otherwise := if has_field candidate $"delta" then Delta else Snapshot in
      match string_at event_object $"type" with
      | None => otherwise
      | Some event_type =>
          if bool_decide (event_type = $"response.function_call_arguments.delta") then Delta
          else if bool_decide (event_type = $"response.function_call_arguments.done") then Snapshot
          else if starts_with event_type $"response.output_item." then Snapshot
          else if contains event_type $".delta" then Delta
          else if contains event_type $".done" then Snapshot
          else otherwise
      end
  end.

Definition mentions (words : list bytes) (type : option bytes) : bool :=
  match type with Some type => existsb (contains type) words | None => false end.

Definition is_tool_item (item : JsonObject) : bool :=
  mentions [$"tool"; $"function"] (string_at item $"type") || contains_tool_fields item.

Definition is_tool_call_event (object : JsonObject) : bool :=
  mentions [$"tool_call"; $"function_call"] (string_at object $"type") ||
  match object_at object $"item" with Some item => is_tool_item item | None => false end ||
  (has_field object $"call_id" || has_field object $"tool_call_id") ||
  (has_field object $"arguments" && (has_field object $"name" || has_field object $"function")).

Definition select_tool_call_candidate (object : JsonObject) : JsonObject :=
  match object_at object $"item" with
  | Some item => if is_tool_item item then item else object
  | None => object
  end.

(** [a], else [b] of the delta object when there is one. *)
Definition or_in (delta_object : option JsonObject) (a : option bytes) (b : JsonObject -> option bytes) : option bytes :=
  match a with Some s => Some s | None => delta_object ≫= b end.

Definition in_function (key : bytes) (object : JsonObject) : option bytes :=
  function ← object_at object $"function"; string_at function key.

Definition delta_call_id (candidate : JsonObject) (delta_object : option JsonObject) : option bytes :=
  or_in delta_object
    (first_non_empty [string_at candidate $"call_id"; string_at candidate $"tool_call_id"; string_at candidate $"id"])
    (fun d => first_non_empty [string_at d $"id"; string_at d $"call_id"; string_at d $"tool_call_id"]).

Definition delta_name (candidate : JsonObject) (delta_object : option JsonObject) : option bytes :=
  let name := first_non_empty [string_at candidate $"name"; string_at candidate $"tool_name"] in
  let name := or_in delta_object name (fun d => string_at d $"name") in
  let name := first_some name (in_function $"name" candidate) in
  or_in delta_object name (in_function $"name").

Definition delta_arguments (candidate : JsonObject) (delta_object : option JsonObject) (delta_text : option bytes) : option bytes :=
  let arguments := first_some (string_at candidate $"arguments") delta_text in
  let arguments := or_in delta_object arguments (fun d => string_at d $"arguments") in
  or_in delta_object arguments (in_function $"arguments").

Definition delta_tool_type (candidate : JsonObject) : option bytes :=
  match first_non_empty [string_at candidate $"tool_type"; string_at candidate $"type"] with
  | None => None
  | Some type =>
      if starts_with type $"response." then None
      else if bool_decide (type = $"tool_call") || bool_decide (type = $"function_call") then Some $"function"
      else Some type
  end.

Definition extract_tool_call_delta (object : JsonObject) (indexer : ToolCallIndex) : option ToolCallDelta * ToolCallIndex :=
  if negb (is_tool_call_event object) then (None, indexer)
  else
    let candidate := select_tool_call_candidate object in
    let '(delta_object, delta_text) :=
      match candidate !! $"delta" with
      | Some (JObject d) => (Some d, None)
      | Some value => (None, non_empty_json_string value)
      | None => (None, None)
      end in
    let call_id := delta_call_id candidate delta_object in
    let name := delta_name candidate delta_object in
    let arguments := delta_arguments candidate delta_object delta_text in
    match call_id, name, arguments with
    | None, None, None => (None, indexer)
    | _, _, _ =>
        let '(i, indexer) := index_for call_id name indexer in
        (Some (mkDelta i call_id name arguments (infer_tool_call_arguments_mode object candidate arguments)
                 (delta_tool_type candidate)), indexer)
    end.

(** What is sent on of the arguments, and the arguments so far. *)
Definition normalize_tool_call_arguments (so_far : bytes) (delta : ToolCallDelta) : option bytes * bytes :=
  match nonempty (arguments delta) with
  | None => (None, so_far)
  | Some new =>
      match arguments_mode delta with
      | Delta => (Some new, so_far ++ new)
      | _ =>
          if bool_decide (so_far = []) then (Some new, new)
          else if bool_decide (so_far = new) then (None, so_far)
          else if starts_with new so_far then
            let suffix := drop (length so_far) new in
            (if bool_decide (suffix = []) then None else Some suffix, new)
          else (None, new)
      end
  end.

(** A field of the delta that was not sent on yet: what is sent, the state. *)
Definition emit_once (value state emitted : option bytes) : option bytes * option bytes * option bytes :=
  match nonempty value with
  | None => (None, state, emitted)
  | Some s => if bool_decide (emitted = Some s) then (None, value, emitted) else (value, value, value)
  end.

(** [while (tool_calls.size() <= index) tool_calls.push_back(...)] *)
Definition grow (i : nat) (tool_calls : list ToolCallState) : list ToolCallState :=
  tool_calls ++ (new_tool_call <$> seq (length tool_calls) (S i - length tool_calls)).

Definition merge_state (state : ToolCallState) (delta : ToolCallDelta) : ToolCallDelta * ToolCallState :=
  let '(id_sent, state_id, emitted_id) := emit_once (call_id delta) (state_call_id state) (emitted_call_id state) in
  let '(name_sent, state_nm, emitted_nm) := emit_once (name delta) (state_name state) (emitted_name state) in
  let '(arguments_sent, so_far) := normalize_tool_call_arguments (state_arguments state) delta in
  let type := default (state_tool_type state) (nonempty (tool_type delta)) in
  (mkDelta (index delta) id_sent name_sent arguments_sent Delta (Some type),
   mkToolCall (state_index state) state_id state_nm emitted_id emitted_nm so_far type).

Definition merge_tool_call_delta (tool_calls : list ToolCallState) (delta : ToolCallDelta) :
    option ToolCallDelta * list ToolCallState :=
  let tool_calls := grow (index delta) tool_calls in
  match tool_calls !! index delta with
  | None => (None, tool_calls)
  | Some state =>
      let '(emitted, state) := merge_state state delta in
      (match call_id emitted, name emitted, arguments emitted with None, None, None => None | _, _, _ => Some emitted end,
       <[index delta := state]> tool_calls)
  end.

Definition tool_call_delta_to_chunk (delta : ToolCallDelta) : Json :=
  JObject (make_object
    ([($"index", JNumber (of_int (Z.of_nat (index delta))))] ++ text_field $"id" (nonempty (call_id delta)) ++
     [($"type", JString (default $"function" (tool_type delta)))] ++
     match name delta, arguments delta with
     | None, None => []
     | _, _ => [($"function", JObject (make_object (text_field $"name" (nonempty (name delta)) ++
                                                    text_field $"arguments" (arguments delta))))]
     end)).

(** ** The stream of chunks *)

Record ChatStream := mkChatStream {
  out : list bytes;
  chunk_id : bytes;
  sent_role : bool;
  saw_tool_call : bool;
  tool_index : ToolCallIndex;
  tool_states : list ToolCallState;
}.

Definition initial_stream : ChatStream := mkChatStream [] $"chatcmpl_temp" false false new_index [].

Section stream.
Context {codec : JsonCodec} (model : bytes) (include_usage : bool).
(** The clock when the chunk after so many others is built. *)
Context (clock : nat -> Z).

Definition chat_chunk (id : bytes) (now : Z) (choices : list Json) (usage : option Json) : Json :=
  JObject (make_object
    ([($"id", JString id); ($"object", JString $"chat.completion.chunk"); ($"created", JNumber (of_int now));
      ($"model", JString model); ($"choices", JArray choices)] ++
     match usage with Some usage => [($"usage", usage)] | None => [] end)).

Definition build_chat_chunk (id : bytes) (now : Z) (delta : JsonObject) (finish_reason : option bytes) : Json :=
  chat_chunk id now
    [JObject (make_object ([($"index", JNumber (of_int 0)); ($"delta", JObject delta)] ++
                           text_field $"finish_reason" finish_reason))]
    (if include_usage then Some JNull else None).

(** What serializes is appended. *)
Definition push_json (j : Json) (out : list bytes) : list bytes :=
  match write_json j with Some serialized => out ++ [serialized] | None => out end.

(** A chunk with a delta, that is the first to name the role. *)
Definition push_delta (fields : list (bytes * Json)) (st : ChatStream) : ChatStream :=
  let delta := make_object ((if sent_role st then [] else [($"role", JString $"assistant")]) ++ fields) in
  mkChatStream (push_json (build_chat_chunk (chunk_id st) (clock (length (out st))) delta None) (out st))
    (chunk_id st) true (saw_tool_call st) (tool_index st) (tool_states st).

Definition text_delta (object : JsonObject) (st : ChatStream) : ChatStream :=
  push_delta [($"content", JString (default [] (string_at object $"delta")))] st.

(** A delta of a tool call: whether the event is done with, and the state. *)
Definition tool_delta (object : JsonObject) (st : ChatStream) : bool * ChatStream :=
  let '(delta, indexer) := extract_tool_call_delta object (tool_index st) in
  let st := mkChatStream (out st) (chunk_id st) (sent_role st) (saw_tool_call st) indexer (tool_states st) in
  match delta with
  | None => (false, st)
  | Some delta =>
      let '(normalized, states) := merge_tool_call_delta (tool_states st) delta in
      let st := mkChatStream (out st) (chunk_id st) (sent_role st) (saw_tool_call st) indexer states in
      match normalized with
      | None => (true, st)
      | Some normalized =>
          let st := push_delta [($"tool_calls", JArray [tool_call_delta_to_chunk normalized])] st in
          (false, mkChatStream (out st) (chunk_id st) (sent_role st) true (tool_index st) (tool_states st))
      end
  end.

Definition upstream_error : Json :=
  JObject (make_object [($"message", JString $"Upstream error"); ($"type", JString $"server_error"); ($"code", JString $"upstream_error")]).

Definition error_envelope (type : bytes) (object : JsonObject) : Json :=
  let error := if bool_decide (type = $"response.failed")
               then response ← object_at object $"response"; response !! $"error"
               else object !! $"error" in
  JObject (make_object [($"error", default upstream_error error)]).

Definition done_marker : bytes := $"[DONE]".

Definition fail_stream (type : bytes) (object : JsonObject) (st : ChatStream) : list bytes :=
  push_json (error_envelope type object) (out st) ++ [done_marker].

Definition complete_stream (type : bytes) (object : JsonObject) (st : ChatStream) : list bytes :=
  let response := object_at object $"response" in
  let id := default (chunk_id st) (r ← response; filled r $"id") in
  let usage := default (JObject ∅) (r ← response; r !! $"usage") in
  let finish_reason :=
    if saw_tool_call st then $"tool_calls"
    else match bool_decide (type = $"response.incomplete"), object !! $"response" with
         | true, Some response => finish_reason_from_incomplete response
         | _, _ => $"stop"
         end in
  let out := push_json (build_chat_chunk id (clock (length (out st))) ∅ (Some finish_reason)) (out st) in
  let out := if include_usage
             then push_json (chat_chunk id (clock (length out)) [] (Some (JObject (chat_usage_from_response_usage usage)))) out
             else out in
  out ++ [done_marker].

(** One event: the whole output when the stream ends with it. *)
Definition chat_event (event : bytes) (st : ChatStream) : list bytes + ChatStream :=
  match read_object event with
  | None => inr st
  | Some object =>
      match string_at object $"type" with
      | None => inr st
      | Some type =>
          if bool_decide (type = $"response.output_text.delta") then inr (text_delta object st)
          else
            let '(done_with, st) := tool_delta object st in
            if done_with then inr st
            else if bool_decide (type = $"response.failed") || bool_decide (type = $"error") then inl (fail_stream type object st)
            else if bool_decide (type = $"response.completed") || bool_decide (type = $"response.incomplete")
            then inl (complete_stream type object st)
            else inr st
      end
  end.

Definition incomplete_envelope : bytes :=
  build_error_envelope $"upstream_error" $"Upstream stream was incomplete" $"server_error" [].

Fixpoint chat_events (events : list bytes) (st : ChatStream) : list bytes :=
  match events with
  | [] => out st ++ [incomplete_envelope; done_marker]
  | event :: events => match chat_event event st with inl result => result | inr st => chat_events events st end
  end.

Definition responses_events_to_chat_events (events : list bytes) : list bytes := chat_events events initial_stream.

End stream.

(** ** The service *)

Section service.
Context {codec : JsonCodec} {W : Type}.
(** [collect_responses_json] and [stream_responses_sse] of proxy_service.cpp. *)
Context (collect_responses_json : bytes -> bytes -> HeaderMap -> W -> ProxyJsonResult * W).
Context (stream_responses_sse : bytes -> bytes -> HeaderMap -> W -> ProxySseResult * W).

Definition error_body (error : ChatError) : bytes :=
  match error with
  | ChatValidationError what param => build_error_envelope $"invalid_request_error" what $"invalid_request_error" param
  | RuntimeError what => build_error_envelope $"invalid_request_error" what $"invalid_request_error" []
  end.

Definition collect_chat_completions_json (raw_request_body : bytes) (inbound_headers : HeaderMap) (now : Z) (w : W) :
    ProxyJsonResult * W :=
  match transform_chat_request raw_request_body with
  | Raise error => (mkJsonResult 400 (error_body error) [] false, w)
  | Done transformed =>
      let '(upstream, w) := collect_responses_json $"/v1/responses" (responses_body transformed) inbound_headers w in
      (responses_json_to_chat_completion upstream (model transformed) now, w)
  end.

Definition stream_chat_completions_sse (raw_request_body : bytes) (inbound_headers : HeaderMap) (clock : nat -> Z) (w : W) :
    ProxySseResult * W :=
  match transform_chat_request raw_request_body with
  | Raise error => (mkSseResult 400 [error_body error] [] false, w)
  | Done transformed =>
      let '(upstream, w) := stream_responses_sse $"/v1/responses" (responses_body transformed) inbound_headers w in
      if 400 <=? stream_status upstream then (upstream, w)
      else (mkSseResult 200 (responses_events_to_chat_events (model transformed) (include_usage transformed) clock
                               (stream_events upstream)) (stream_headers upstream) false, w)
  end.

End service.

(** ** Tool calls are put together again *)

(** What a client makes of the deltas it receives, for the call at [i]. *)
Definition received_arguments (i : nat) (received : list ToolCallDelta) : bytes :=
  concat ((fun d => if decide (index d = i) then default [] (arguments d) else []) <$> received).

Definition received_text (field : ToolCallDelta -> option bytes) (i : nat) (received : list ToolCallDelta) : option bytes :=
  foldl (fun text d => if decide (index d = i) then first_some (field d) text else text) None received.

(** The deltas that are sent on, and the state, after a delta more. *)
Definition merge_step (st : list ToolCallDelta * list ToolCallState) (delta : ToolCallDelta) :
    list ToolCallDelta * list ToolCallState :=
  let '(normalized, states) := merge_tool_call_delta st.2 delta in (st.1 ++ option_list normalized, states).

Definition merge_all (deltas : list ToolCallDelta) : list ToolCallDelta * list ToolCallState := foldl merge_step ([], []) deltas.

Definition state_at (states : list ToolCallState) (i : nat) : ToolCallState := default (new_tool_call i) (states !! i).

(** A snapshot continues what was received before. *)
Definition continues (states : list ToolCallState) (delta : ToolCallDelta) : Prop :=
  arguments_mode delta = Delta \/
  forall new, nonempty (arguments delta) = Some new -> state_arguments (state_at states (index delta)) `prefix_of` new.

Fixpoint consistent (st : list ToolCallDelta * list ToolCallState) (deltas : list ToolCallDelta) : Prop :=
  match deltas with
  | [] => True
  | delta :: deltas => continues st.2 delta /\ consistent (merge_step st delta) deltas
  end.

Lemma nonempty_some value s : nonempty value = Some s <-> value = Some s /\ s <> [].
Proof. destruct value as [[|c t]|]; cbn; intuition congruence. Qed.

Lemma state_at_grow i states j : state_at (grow i states) j = state_at states j.
Proof.
  unfold state_at, grow. destruct (decide (j < length states)%nat) as [Hj|Hj].
  - by rewrite lookup_app_l.
  - rewrite lookup_app_r, list_lookup_fmap, (lookup_ge_None_2 states) by lia.
    destruct (decide (j - length states < S i - length states)%nat).
    + rewrite lookup_seq_lt by done. cbn. by replace (length states + (j - length states))%nat with j by lia.
    + by rewrite lookup_seq_ge by lia.
Qed.

Lemma grow_reaches i states : (i < length (grow i states))%nat.
Proof. unfold grow. rewrite length_app, length_fmap, length_seq. lia. Qed.

Lemma state_at_insert i s states j :
  (i < length states)%nat -> state_at (<[i := s]> states) j = if decide (j = i) then s else state_at states j.
Proof.
  intros Hi. unfold state_at. case_decide as E.
  - subst j. by rewrite list_lookup_insert_eq.
  - by rewrite list_lookup_insert_ne.
Qed.

(** What is sent of the arguments continues what was sent. *)
Lemma normalize_arguments_spec so_far delta :
  arguments_mode delta = Delta \/ (forall new, nonempty (arguments delta) = Some new -> so_far `prefix_of` new) ->
  let '(sent, so_far') := normalize_tool_call_arguments so_far delta in
  so_far' = so_far ++ default [] sent /\
  (forall new, arguments_mode delta <> Delta -> nonempty (arguments delta) = Some new -> so_far' = new).
Proof.
  unfold normalize_tool_call_arguments. destruct (nonempty (arguments delta)) as [new|] eqn:En.
  2: { intros _. by rewrite app_nil_r. }
  intros Hc. assert (arguments_mode delta <> Delta -> so_far `prefix_of` new) as Hp.
  { intros Hd. destruct Hc as [|Hc]; [done|by apply Hc]. }
  assert (arguments_mode delta <> Delta ->
    let '(sent, so_far') :=
      if bool_decide (so_far = []) then (Some new, new)
      else if bool_decide (so_far = new) then (None, so_far)
      else if starts_with new so_far then
        (if bool_decide (drop (length so_far) new = []) then None else Some (drop (length so_far) new), new)
      else (None, new) in
    so_far' = so_far ++ default [] sent /\ (forall new0, arguments_mode delta <> Delta -> Some new = Some new0 -> so_far' = new0)) as Hs.
  { intros Hd. case_bool_decide as E0; [by subst so_far; split; [|intros ? _ [= <-]]|].
    case_bool_decide as E1; [by subst so_far; rewrite app_nil_r; split; [|intros ? _ [= <-]]|].
    destruct (Hp Hd) as [suffix ->]. assert (starts_with (so_far ++ suffix) so_far = true) as -> by (apply starts_with_spec; by exists suffix).
    rewrite drop_app_length. split; [|by intros ? _ [= <-]]. case_bool_decide as E2; [by subst suffix|done]. }
  destruct (arguments_mode delta); [by apply Hs| |by apply Hs]. split; [done|]. by intros ? ?.
Qed.

(** A name or an identifier is sent when it is new. *)
Lemma emit_once_spec value state :
  let '(sent, state', emitted') := emit_once value state state in state' = first_some sent state /\ emitted' = state'.
Proof.
  unfold emit_once. destruct (nonempty value) as [s|] eqn:En; [|done]. apply nonempty_some in En as [-> _].
  case_bool_decide as E; [by rewrite E|done].
Qed.

Record caught_up (received : list ToolCallDelta) (states : list ToolCallState) (i : nat) : Prop := {
  same_arguments : received_arguments i received = state_arguments (state_at states i);
  same_call_id : received_text call_id i received = state_call_id (state_at states i);
  same_name : received_text name i received = state_name (state_at states i);
  id_emitted : emitted_call_id (state_at states i) = state_call_id (state_at states i);
  name_emitted : emitted_name (state_at states i) = state_name (state_at states i);
}.

Lemma received_more i received d :
  received_arguments i (received ++ [d]) = received_arguments i received ++ (if decide (index d = i) then default [] (arguments d) else []) /\
  forall field, received_text field i (received ++ [d]) =
    if decide (index d = i) then first_some (field d) (received_text field i received) else received_text field i received.
Proof.
  unfold received_arguments, received_text. rewrite fmap_app, concat_app. cbn. rewrite app_nil_r. split; [done|].
  intros field. by rewrite foldl_app.
Qed.

Lemma merge_state_spec state delta :
  emitted_call_id state = state_call_id state -> emitted_name state = state_name state ->
  (arguments_mode delta = Delta \/
   (forall new, nonempty (arguments delta) = Some new -> state_arguments state `prefix_of` new)) ->
  let '(emitted, state') := merge_state state delta in
  index emitted = index delta /\ state_arguments state' = state_arguments state ++ default [] (arguments emitted) /\
  state_call_id state' = first_some (call_id emitted) (state_call_id state) /\
  state_name state' = first_some (name emitted) (state_name state) /\
  emitted_call_id state' = state_call_id state' /\ emitted_name state' = state_name state' /\
  (forall new, arguments_mode delta <> Delta -> nonempty (arguments delta) = Some new -> state_arguments state' = new).
Proof.
  intros Ei En Ha. unfold merge_state. rewrite Ei, En.
  pose proof (emit_once_spec (call_id delta) (state_call_id state)) as H1.
  destruct (emit_once (call_id delta) _ _) as [[id_sent state_id] emitted_id].
  pose proof (emit_once_spec (name delta) (state_name state)) as H2.
  destruct (emit_once (name delta) _ _) as [[name_sent state_nm] emitted_nm].
  pose proof (normalize_arguments_spec _ _ Ha) as H3.
  destruct (normalize_tool_call_arguments _ delta) as [sent so_far]. cbn. naive_solver.
Qed.

Lemma nothing_sent i received emitted :
  call_id emitted = None -> name emitted = None -> arguments emitted = None ->
  received_arguments i (received ++ [emitted]) = received_arguments i received /\
  (forall field, field = call_id \/ field = name -> received_text field i (received ++ [emitted]) = received_text field i received).
Proof.
  intros H1 H2 H3. destruct (received_more i received emitted) as [Ea Et]. rewrite Ea, H3. split.
  - case_decide; by rewrite app_nil_r.
  - intros field Hf. rewrite Et. case_decide; [|done]. by destruct Hf as [-> | ->]; rewrite ?H1, ?H2.
Qed.

Lemma merge_step_caught_up received states delta :
  (forall i, caught_up received states i) -> continues states delta ->
  (forall i, caught_up (merge_step (received, states) delta).1 (merge_step (received, states) delta).2 i) /\
  (forall new, arguments_mode delta <> Delta -> nonempty (arguments delta) = Some new ->
     state_arguments (state_at (merge_step (received, states) delta).2 (index delta)) = new).
Proof.
  intros Hc Ha. unfold merge_step, merge_tool_call_delta. cbn [fst snd]. set (j := index delta) in *.
  destruct (lookup_lt_is_Some_2 (grow j states) j (grow_reaches j states)) as [state Es]. rewrite Es.
  assert (state_at states j = state) as E0 by (rewrite <- (state_at_grow j); unfold state_at; by rewrite Es).
  destruct (Hc j) as [_ _ _ Hi Hn]. unfold continues in Ha. fold j in Ha. rewrite E0 in Hi, Hn, Ha.
  pose proof (merge_state_spec state delta Hi Hn Ha) as Hm. destruct (merge_state state delta) as [emitted state'].
  destruct Hm as (Ej & Hargs & Hid & Hname & Hi' & Hn' & Hsnap). fold j in Ej.
  assert (forall i, caught_up (received ++ [emitted]) (<[j := state']> (grow j states)) i) as Hall.
  { intros i. destruct (received_more i received emitted) as [Era Ert]. destruct (Hc i) as [C1 C2 C3 C4 C5].
    rewrite Ej in Era, Ert. split; rewrite ?Era, ?Ert, state_at_insert by apply grow_reaches; case_decide as Eji; subst;
      rewrite ?decide_True, ?decide_False, ?state_at_grow, ?app_nil_r by congruence; try done.
    - by rewrite C1, Hargs.
    - by rewrite C2, Hid.
    - by rewrite C3, Hname. }
  split.
  2: { intros new Hd Hnew. destruct (match call_id emitted with Some _ => _ | None => _ end) as [?|]; cbn;
         rewrite state_at_insert by apply grow_reaches; rewrite decide_True by done; by apply Hsnap. }
  intros i. destruct (call_id emitted) as [?|] eqn:E1; [apply Hall|]. destruct (name emitted) as [?|] eqn:E2; [apply Hall|].
  destruct (arguments emitted) as [?|] eqn:E3; [apply Hall|]. cbn. rewrite app_nil_r.
  destruct (nothing_sent i received emitted E1 E2 E3) as [N1 N2]. destruct (Hall i) as [C1 C2 C3 C4 C5].
  split; [by rewrite <- N1|by rewrite <- (N2 call_id) by auto|by rewrite <- (N2 name) by auto|done|done].
Qed.

Lemma consistent_app st ds1 ds2 : consistent st (ds1 ++ ds2) <-> consistent st ds1 /\ consistent (foldl merge_step st ds1) ds2.
Proof. revert st. induction ds1 as [|d ds1 IH]; intros st; cbn; [tauto|]. rewrite IH. tauto. Qed.

Lemma merge_all_caught_up deltas :
  consistent ([], []) deltas -> forall i, caught_up (merge_all deltas).1 (merge_all deltas).2 i.
Proof.
  induction deltas as [|d deltas IH] using rev_ind; [by intros _ i|].
  intros [H1 [H2 _]]%consistent_app. unfold merge_all. rewrite foldl_app. cbn [foldl].
  specialize (IH H1). unfold merge_all in IH. destruct (foldl merge_step ([], []) deltas) as [received states].
  by apply merge_step_caught_up.
Qed.

(** A client that appends the arguments it receives and keeps the last
    identifier and name, call by call, has at every moment what the
    proxy has put together from the upstream's deltas and snapshots, as long
    as no snapshot contradicts what came before; and when an upstream
    snapshot of the arguments of a call has been handled, the client has
    exactly that snapshot, however it was cut into deltas before. (C29) *)
Theorem tool_calls_reassembled deltas delta i :
  consistent ([], []) (deltas ++ [delta]) ->
  let '(received, states) := merge_all (deltas ++ [delta]) in
  received_arguments i received = state_arguments (state_at states i) /\
  received_text call_id i received = state_call_id (state_at states i) /\
  received_text name i received = state_name (state_at states i) /\
  (forall snapshot, arguments_mode delta = Snapshot -> arguments delta = Some snapshot -> snapshot <> [] ->
     received_arguments (index delta) received = snapshot).
Proof.
  intros H. pose proof (merge_all_caught_up _ H) as Hc. apply consistent_app in H as [H1 [H2 _]].
  pose proof (merge_all_caught_up _ H1) as Hb. unfold merge_all in *. rewrite foldl_app in *. cbn [foldl] in *.
  destruct (foldl merge_step ([], []) deltas) as [received states].
  destruct (merge_step_caught_up received states delta Hb H2) as [_ Hs].
  destruct (merge_step (received, states) delta) as [received' states']. cbn [fst snd] in *.
  destruct (Hc i) as [C1 C2 C3 _ _]. split_and!; try done. intros snapshot Hm Ha Hne. rewrite (same_arguments _ _ _ (Hc _)).
  apply Hs; [by rewrite Hm|]. by apply nonempty_some.
Qed.

(** ** The stream of a client *)

Section client.
Context {codec : JsonCodec} (model : bytes) (include_usage : bool) (clock : nat -> Z).
(** The library writes every document. *)
Context (Hwrites : forall j, is_Some (write_json j)).

(** A chunk with a delta: its identifier, time and delta. *)
Definition Piece : Type := bytes * Z * JsonObject.

Definition piece_written (p : Piece) (text : bytes) : Prop :=
  write_json (build_chat_chunk model include_usage p.1.1 p.1.2 p.2 None) = Some text.

Definition piece_content (p : Piece) : bytes := default [] (string_at p.2 $"content").

Definition has_calls (p : Piece) : bool := has_field p.2 $"tool_calls".

(** The role is named by the first chunk alone. *)
Definition role_first (pieces : list Piece) : Prop :=
  match pieces with
  | [] => True
  | p :: pieces => string_at p.2 $"role" = Some $"assistant" /\ Forall (fun p => p.2 !! $"role" = None) pieces
  end.

(** The text that an event of the upstream carries. *)
Definition event_text (event : bytes) : bytes :=
  match read_object event with
  | Some object => if bool_decide (string_at object $"type" = Some $"response.output_text.delta")
                   then default [] (string_at object $"delta") else []
  | None => []
  end.

(** What the stream ends with, before the marker, and at which event. *)
Inductive stream_ending (saw_calls : bool) : option bytes -> list bytes -> Prop :=
| EndsUnfinished : stream_ending saw_calls None [incomplete_envelope]
| EndsFailed event object type text :
    read_object event = Some object -> string_at object $"type" = Some type ->
    type = $"response.failed" \/ type = $"error" -> write_json (error_envelope type object) = Some text ->
    stream_ending saw_calls (Some event) [text]
| EndsCompleted event object type id now finish_reason final usage :
    read_object event = Some object -> string_at object $"type" = Some type ->
    type = $"response.completed" \/ type = $"response.incomplete" ->
    write_json (build_chat_chunk model include_usage id now ∅ (Some finish_reason)) = Some final ->
    (saw_calls = true -> finish_reason = $"tool_calls") ->
    (if include_usage
     then exists now' tokens text, usage = [text] /\ write_json (chat_chunk model id now' [] (Some (JObject tokens))) = Some text
     else usage = []) ->
    stream_ending saw_calls (Some event) (final :: usage).

Record streamed (handled : list bytes) (pieces : list Piece) (st : ChatStream) : Prop := {
  streamed_out : Forall2 piece_written pieces (out st);
  streamed_role : sent_role st = negb (bool_decide (length pieces = 0%nat));
  streamed_roles : role_first pieces;
  streamed_calls : saw_tool_call st = existsb has_calls pieces;
  streamed_text : concat (piece_content <$> pieces) = concat (event_text <$> handled);
}.

Lemma role_first_snoc pieces p :
  role_first pieces ->
  (if bool_decide (length pieces = 0%nat) then string_at p.2 $"role" = Some $"assistant" else p.2 !! $"role" = None) ->
  role_first (pieces ++ [p]).
Proof.
  destruct pieces as [|q pieces]; cbn; [done|]. intros [H1 H2] H. split; [done|]. apply Forall_app. split; [done|by apply Forall_singleton].
Qed.

(** A delta with one field more than the role. *)
Lemma push_delta_streamed handled pieces st key value event :
  streamed handled pieces st -> key <> $"role" ->
  let st' := push_delta model include_usage clock [(key, value)] st in
  let p : Piece := (chunk_id st, clock (length (out st)), make_object ((if sent_role st then [] else [($"role", JString $"assistant")]) ++ [(key, value)])) in
  piece_content p = event_text event -> has_calls p = bool_decide (key = $"tool_calls") /\
  streamed (handled ++ [event]) (pieces ++ [p])
    (mkChatStream (out st') (chunk_id st') (sent_role st') (saw_tool_call st || bool_decide (key = $"tool_calls")) (tool_index st') (tool_states st')).
Proof.
  intros [Ho Hr Hrf Hs Ht] Hk st' p Hp. assert (has_calls p = bool_decide (key = $"tool_calls")) as Hcalls.
  { unfold has_calls, has_field, p. destruct (decide (key = $"tool_calls")) as [->|E].
    - destruct (sent_role st); cbn [snd fst make_object foldl app]; by rewrite lookup_insert_eq.
    - rewrite bool_decide_false by done. destruct (sent_role st); cbn [snd fst make_object foldl app];
        by rewrite !lookup_insert_ne by done. }
  split; [done|]. split.
  - cbn. unfold push_json. destruct (Hwrites (build_chat_chunk model include_usage (chunk_id st) (clock (length (out st))) p.2 None)) as [text E].
    cbn in E. rewrite E. apply Forall2_app; [done|]. by constructor.
  - cbn. rewrite length_app. cbn. by rewrite bool_decide_false by lia.
  - apply role_first_snoc; [done|]. unfold p. rewrite Hr. destruct (bool_decide (length pieces = 0%nat)); cbn [negb snd make_object foldl app fst].
    + unfold string_at. by rewrite lookup_insert_ne, lookup_insert_eq.
    + by rewrite lookup_insert_ne.
  - cbn [saw_tool_call]. rewrite existsb_app, <- Hs. cbn. by rewrite Hcalls, orb_false_r.
  - rewrite !fmap_app, !concat_app, Ht. cbn. by rewrite Hp.
Qed.

(** An event that sends nothing. *)
Lemma streamed_silent handled pieces st st' event :
  streamed handled pieces st -> event_text event = [] -> out st' = out st -> sent_role st' = sent_role st ->
  saw_tool_call st' = saw_tool_call st -> streamed (handled ++ [event]) pieces st'.
Proof.
  intros [Ho Hr Hrf Hs Ht] He E1 E2 E3. split; rewrite ?E1, ?E2, ?E3; try done.
  rewrite fmap_app, concat_app, Ht. cbn. by rewrite He, !app_nil_r.
Qed.

Lemma tool_delta_streamed handled pieces st object event :
  streamed handled pieces st -> event_text event = [] ->
  exists pieces', streamed (handled ++ [event]) (pieces ++ pieces') (tool_delta model include_usage clock object st).2.
Proof.
  intros Hst He. unfold tool_delta. destruct (extract_tool_call_delta object (tool_index st)) as [[delta|] indexer].
  2: { exists []. rewrite app_nil_r. by eapply streamed_silent. }
  cbn [tool_states]. destruct (merge_tool_call_delta (tool_states st) delta) as [[normalized|] states].
  2: { exists []. rewrite app_nil_r. by eapply streamed_silent. }
  set (st1 := mkChatStream (out st) (chunk_id st) (sent_role st) (saw_tool_call st) indexer states).
  assert (streamed handled pieces st1) as H1 by (by destruct Hst).
  pose proof (push_delta_streamed handled pieces st1 $"tool_calls" (JArray [tool_call_delta_to_chunk normalized]) event H1) as H.
  destruct H as [_ H]; [done|unfold piece_content; cbn [snd]|].
  { rewrite He. destruct (sent_role st1); made. }
  eexists [_]. revert H. rewrite bool_decide_true, orb_true_r by done. intros H. exact H.
Qed.

Lemma chat_event_streamed handled pieces st event :
  streamed handled pieces st ->
  match chat_event model include_usage clock event st with
  | inr st' => exists pieces', streamed (handled ++ [event]) (pieces ++ pieces') st'
  | inl result => exists pieces' chunks ending,
      result = chunks ++ ending ++ [done_marker] /\ Forall2 piece_written (pieces ++ pieces') chunks /\
      role_first (pieces ++ pieces') /\ concat (piece_content <$> pieces ++ pieces') = concat (event_text <$> handled) /\
      stream_ending (existsb has_calls (pieces ++ pieces')) (Some event) ending
  end.
Proof.
  intros Hst. unfold chat_event. destruct (read_object event) as [object|] eqn:Er.
  2: { exists []. rewrite app_nil_r. eapply streamed_silent; [done| |done..]. unfold event_text. by rewrite Er. }
  destruct (string_at object $"type") as [type|] eqn:Et.
  2: { exists []. rewrite app_nil_r. eapply streamed_silent; [done| |done..]. unfold event_text. by rewrite Er, Et. }
  destruct (bool_decide (type = $"response.output_text.delta")) eqn:Ed.
  { apply bool_decide_eq_true in Ed. subst type.
    pose proof (push_delta_streamed handled pieces st $"content" (JString (default [] (string_at object $"delta"))) event Hst) as H.
    destruct H as [_ H]; [done| |eexists [_]; revert H; rewrite bool_decide_false, orb_false_r by done; intros H; exact H].
    unfold piece_content, event_text. rewrite Er, Et, bool_decide_true by done. cbn [snd]. destruct (sent_role st); made. }
  assert (event_text event = []) as He.
  { unfold event_text. rewrite Er, Et. apply bool_decide_eq_false in Ed. rewrite bool_decide_false; [done|congruence]. }
  destruct (tool_delta_streamed handled pieces st object event Hst He) as [pieces' H].
  destruct (tool_delta model include_usage clock object st) as [done_with st']. cbn [snd] in H.
  destruct done_with; [by eexists|]. assert (concat (piece_content <$> pieces ++ pieces') = concat (event_text <$> handled)) as Htext.
  { rewrite (streamed_text _ _ _ H), fmap_app, concat_app. cbn. by rewrite He, !app_nil_r. }
  destruct (bool_decide (type = $"response.failed") || _) eqn:Ef.
  - exists pieces', (out st'). destruct (Hwrites (error_envelope type object)) as [text Ew]. exists [text].
    unfold fail_stream, push_json. rewrite Ew, <- app_assoc. split_and!; [done|apply H|apply H|done|].
    apply (EndsFailed _ event object type); try done. apply orb_true_iff in Ef as [E|E]; apply bool_decide_eq_true in E; auto.
  - destruct (bool_decide (type = $"response.completed") || _) eqn:Ec; [|by eexists].
    exists pieces', (out st'). unfold complete_stream. cbv zeta.
    set (id := default (chunk_id st') _). set (reason := if saw_tool_call st' then _ else _).
    destruct (Hwrites (build_chat_chunk model include_usage id (clock (length (out st'))) ∅ (Some reason))) as [final Ew].
    unfold push_json at 1. unfold push_json. rewrite Ew.
    assert (forall usage, (if include_usage then exists now' tokens text, usage = [text] /\
        write_json (chat_chunk model id now' [] (Some (JObject tokens))) = Some text else usage = []) ->
      stream_ending (existsb has_calls (pieces ++ pieces')) (Some event) (final :: usage)) as Hend.
    { intros usage Hu. apply (EndsCompleted _ event object type id (clock (length (out st'))) reason); try done.
      - apply orb_true_iff in Ec as [E|E]; apply bool_decide_eq_true in E; auto.
      - unfold reason. rewrite (streamed_calls _ _ _ H). by intros ->. }
    destruct include_usage.
    + set (usage := chat_usage_from_response_usage _).
      destruct (Hwrites (chat_chunk model id (clock (length (out st' ++ [final]))) [] (Some (JObject usage)))) as [text Eu].
      rewrite Eu. exists [final; text]. rewrite <- !app_assoc. split_and!; [done|apply H|apply H|done|]. apply Hend. eauto.
    + exists [final]. rewrite <- app_assoc. split_and!; [done|apply H|apply H|done|by apply Hend].
Qed.

(** However the upstream's stream goes, the client's is a chat stream:
    chunks, of which the first alone names the role and whose contents are,
    put together, the text of the upstream's events up to the one that ends
    it; then a finishing chunk, with [tool_calls] as its reason when there
    were any and the usage when it was asked for, or the error, or, when the
    upstream breaks off, the envelope that says so; then the marker. (C30) *)
Theorem chat_stream_faithful events :
  exists handled last rest pieces chunks ending,
    events = handled ++ option_list last ++ rest /\ (last = None -> rest = []) /\
    responses_events_to_chat_events model include_usage clock events = chunks ++ ending ++ [done_marker] /\
    Forall2 piece_written pieces chunks /\ role_first pieces /\
    concat (piece_content <$> pieces) = concat (event_text <$> handled) /\
    stream_ending (existsb has_calls pieces) last ending.
Proof.
  unfold responses_events_to_chat_events.
  assert (forall events handled pieces st, streamed handled pieces st ->
    exists more last rest pieces' chunks ending,
      events = more ++ option_list last ++ rest /\ (last = None -> rest = []) /\
      chat_events model include_usage clock events st = chunks ++ ending ++ [done_marker] /\
      Forall2 piece_written (pieces ++ pieces') chunks /\ role_first (pieces ++ pieces') /\
      concat (piece_content <$> pieces ++ pieces') = concat (event_text <$> handled ++ more) /\
      stream_ending (existsb has_calls (pieces ++ pieces')) last ending) as H.
  2: { destruct (H events [] [] initial_stream) as (more & last & rest & pieces' & H'); [by split|]. by exists more, last, rest, pieces'. }
  clear events. induction events as [|event events IH]; intros handled pieces st Hst.
  - exists [], None, [], [], (out st), [incomplete_envelope]. rewrite !app_nil_r. cbn [chat_events].
    split_and!; try done; try apply Hst. constructor.
  - cbn [chat_events]. pose proof (chat_event_streamed handled pieces st event Hst) as He.
    destruct (chat_event model include_usage clock event st) as [result|st'].
    + destruct He as (pieces' & chunks & ending & -> & H1 & H2 & H3 & H4).
      exists [], (Some event), events, pieces', chunks, ending. rewrite app_nil_r. by split_and!.
    + destruct He as [p1 He]. destruct (IH _ _ _ He) as (more & last & rest & p2 & chunks & ending & -> & Hl & -> & H1 & H2 & H3 & H4).
      exists (event :: more), last, rest, (p1 ++ p2), chunks, ending. rewrite !(app_assoc pieces), <- (app_assoc handled) in *. by split_and!.
Qed.

End client.

(** ** Concrete inputs *)

Definition arguments_delta (id : option bytes) (text : bytes) (mode : ArgumentsMode) : ToolCallDelta :=
  mkDelta 0 id None (Some text) mode None.

Lemma tool_calls_reassembled_witness :
  received_arguments 0 (merge_all ([arguments_delta (Some $"c1") $"[1," Delta] ++ [arguments_delta None $"[1,2]" Snapshot])).1 = $"[1,2]".
Proof.
  pose proof (tool_calls_reassembled [arguments_delta (Some $"c1") $"[1," Delta] (arguments_delta None $"[1,2]" Snapshot) 0) as H.
  destruct (merge_all _) as [received states]. destruct H as (_ & _ & _ & H).
  - split; [by left|]. split; [|done]. right. intros new E. injection E as <-. by exists $"2]".
  - apply H; [reflexivity|reflexivity|discriminate].
Defined.

Definition completed_event : JsonObject := make_object [($"type", JString $"response.completed")].

Lemma chat_stream_faithful_witness :
  exists ending, responses_events_to_chat_events (codec := sample_codec $"e" (JObject completed_event)) $"m" false (fun _ => 0) [$"e"] =
    ending ++ [done_marker] /\ length ending = 1%nat.
Proof.
  pose proof (chat_stream_faithful (codec := sample_codec $"e" (JObject completed_event)) $"m" false (fun _ => 0)) as H.
  destruct (H ltac:(intros j; by eexists) [$"e"]) as (_ & _ & _ & _ & chunks & ending & _ & _ & E & _).
  exists (chunks ++ ending). rewrite <- app_assoc. split; [exact E|].
  apply (f_equal length) in E. rewrite app_assoc, length_app in E. change (2 = length (chunks ++ ending) + 1)%nat in E. lia.
Defined.

(** ** Deltas without an identifier *)

Definition added_event (id : bytes) : JsonObject :=
  make_object [($"type", JString $"response.output_item.added");
    ($"item", JObject (make_object [($"type", JString $"function_call"); ($"call_id", JString id); ($"name", JString $"f")]))].

(** The upstream names the item of a delta of arguments by [item_id]. *)
Definition arguments_event (item_id text : bytes) : JsonObject :=
  make_object [($"type", JString $"response.function_call_arguments.delta"); ($"item_id", JString item_id); ($"delta", JString text)].

(** With two calls open, the arguments of the second are sent as those of
    the first: an event that names neither call nor function has index 0. *)
Lemma parallel_arguments_misattributed :
  let '(first_call, indexer) := extract_tool_call_delta (added_event $"call_1") new_index in
  let '(second_call, indexer) := extract_tool_call_delta (added_event $"call_2") indexer in
  let '(delta, _) := extract_tool_call_delta (arguments_event $"fc_2" $"{") indexer in
  index <$> first_call = Some 0%nat /\ index <$> second_call = Some 1%nat /\
  index <$> delta = Some 0%nat /\ delta ≫= arguments = Some $"{".
Proof. vm_compute. by split_and!. Qed.
