(* ===== verification/Usage.v ===== *)
(** * Usage: what accounts have used

    src/native/usage/src/usage_fetcher.cpp: the request to the usage endpoint,
    the reading of its answer, the validation of an identity and the cache of
    snapshots that the headers of answers are made from.  A transfer of curl is
    a parameter; conversions of the C++ library that the source uses are
    written out. *)

From S2P Require Import Prelude Text Double JsonValue Env ModelRegistry.
Import Text.Ascii.

(** ** Conversions of numbers *)

(** [static_cast] of a double to a signed integer of [w] bits; a value out of
    range, which the language leaves undefined, is the smallest integer, as
    x86-64 converts it. *)
Definition cast_sint (w : Z) (d : double) : Z :=
  match d with
  | S754_infinity _ | S754_nan => - 2 ^ (w - 1)
  | _ => default (- 2 ^ (w - 1)) (checked_sint w (trunc d))
  end.

(** [num / den] rounded to the nearest integer, ties to even. *)
Definition round_ratio (num den : Z) : Z :=
  let q := num / den in
  let twice := 2 * (num mod den) in
  if twice <? den then q else if den <? twice then q + 1 else if Z.even q then q else q + 1.

(** The last [digits] decimal digits of [n], zeros included. *)
Fixpoint last_digits (digits : nat) (n : Z) : bytes :=
  match digits with
  | O => []
  | S digits => last_digits digits (n / 10) ++ to_string (n mod 10)
  end.

(** [std::fixed << std::setprecision(digits)], and [std::to_string] of a
    double with six digits. *)
Definition print_fixed (digits : nat) (d : double) : bytes :=
  let sign (s : bool) := if s then $"-" else [] in
  let scale := 10 ^ Z.of_nat digits in
  let print (n : Z) := to_string (n / scale) ++ $"." ++ last_digits digits n in
  match d with
  | S754_zero s => sign s ++ print 0
  | S754_infinity s => sign s ++ $"inf"
  | S754_nan => $"nan"
  | S754_finite s m e =>
      sign s ++ print (if 0 <=? e then Z.pos m * 2 ^ e * scale else round_ratio (Z.pos m * scale) (2 ^ (- e)))
  end.

(** ** usage_fetcher.h *)

Record UsageValidationResult := mkValidation {
  success : bool; validation_status_code : Z; validation_error_code : bytes; validation_message : bytes }.

Record UsageWindowSnapshot := mkWindow {
  used_percent : option Z; limit_window_seconds : option Z; reset_after_seconds : option Z; reset_at : option Z }.

Record UsageRateLimitDetails := mkRateLimit {
  allowed : bool; limit_reached : bool;
  primary_window : option UsageWindowSnapshot; secondary_window : option UsageWindowSnapshot }.

Record UsageCreditsDetails := mkCredits { has_credits : bool; unlimited : bool; balance : option bytes }.

Record UsageAdditionalRateLimit := mkAdditional {
  quota_key : option bytes; limit_name : bytes; display_label : option bytes; metered_feature : bytes;
  additional_rate_limit : option UsageRateLimitDetails }.

Record UsagePayloadSnapshot := mkSnapshot {
  plan_type : bytes;
  rate_limit : option UsageRateLimitDetails;
  credits : option UsageCreditsDetails;
  additional_rate_limits : list UsageAdditionalRateLimit }.

(** ** usage_fetcher.cpp *)

Definition kDefaultConnectTimeoutMs : Z := 10000.
Definition kDefaultRequestTimeoutMs : Z := 15000.

(** [std::strtol], a [long] of 64 bits, is [strtoll]. *)
Definition env_long_or_default (env : environment) (key : bytes) (fallback : Z) : Z :=
  match getenv_nonempty env key with
  | None => fallback
  | Some raw =>
      match strtoll raw with
      | None => fallback
      | Some (parsed, _) => if parsed <=? 0 then fallback else parsed
      end
  end.

Definition normalized_account_id (account_id : bytes) : bytes := trim_ascii account_id.

Definition usage_url (env : environment) : bytes :=
  let base := trim_trailing_slashes (env_or_default env $"TIGHTROPE_UPSTREAM_BASE_URL" kDefaultUpstreamBaseUrl) in
  (if Find.contains base $"/backend-api" then base else base ++ $"/backend-api") ++ $"/wham/usage".

Definition nonempty_field (object : JsonObject) (key : bytes) : option bytes :=
  match string_at object key with Some ((_ :: _) as s) => Some s | _ => None end.

Definition json_number (object : JsonObject) (key : bytes) : option double :=
  match object !! key with Some (JNumber d) => Some d | _ => None end.

Definition json_int (object : JsonObject) (key : bytes) : option Z := cast_sint 32 <$> json_number object key.
Definition json_int64 (object : JsonObject) (key : bytes) : option Z := cast_sint 64 <$> json_number object key.

Definition nothing {A} (value : option A) : bool := match value with None => true | Some _ => false end.

Definition parse_window_snapshot (value : Json) : option UsageWindowSnapshot :=
  match value with
  | JObject object =>
      let snapshot := mkWindow (json_int object $"used_percent") (json_int object $"limit_window_seconds")
                        (json_int object $"reset_after_seconds") (json_int64 object $"reset_at") in
      if nothing (used_percent snapshot) && nothing (limit_window_seconds snapshot) &&
         nothing (reset_after_seconds snapshot) && nothing (reset_at snapshot)
      then None else Some snapshot
  | _ => None
  end.

Definition window_used_up (window : option UsageWindowSnapshot) : bool :=
  match w ← window; used_percent w with Some percent => 100 <=? percent | None => false end.

Definition limit_reached_from_windows (primary secondary : option UsageWindowSnapshot) : bool :=
  window_used_up primary || window_used_up secondary.

Definition parse_rate_limit_details (value : Json) : option UsageRateLimitDetails :=
  match value with
  | JObject object =>
      let primary := it ← object !! $"primary_window"; parse_window_snapshot it in
      let secondary := it ← object !! $"secondary_window"; parse_window_snapshot it in
      let inferred_limit_reached := limit_reached_from_windows primary secondary in
      let reached := default inferred_limit_reached (bool_at object $"limit_reached") in
      let allowed := default (negb reached) (bool_at object $"allowed") in
      if nothing primary && nothing secondary && nothing (bool_at object $"allowed") &&
         nothing (bool_at object $"limit_reached")
      then None else Some (mkRateLimit allowed reached primary secondary)
  | _ => None
  end.

Definition parse_credits_details (value : Json) : option UsageCreditsDetails :=
  match value with
  | JObject object =>
      let balance := match string_at object $"balance" with
                     | Some s => Some s
                     | None => print_fixed 6 <$> json_number object $"balance"
                     end in
      if nothing (bool_at object $"has_credits") && nothing (bool_at object $"unlimited") && nothing balance then None
      else Some (mkCredits (default false (bool_at object $"has_credits")) (default false (bool_at object $"unlimited"))
                   balance)
  | _ => None
  end.

Definition parse_additional_item (item : Json) : list UsageAdditionalRateLimit :=
  match item with
  | JObject object =>
      match nonempty_field object $"limit_name", nonempty_field object $"metered_feature" with
      | Some name, Some feature =>
          [mkAdditional (string_at object $"quota_key") name (string_at object $"display_label") feature
             (it ← object !! $"rate_limit"; parse_rate_limit_details it)]
      | _, _ => []
      end
  | _ => []
  end.

Definition parse_additional_rate_limits (value : Json) : list UsageAdditionalRateLimit :=
  match value with JArray items => items ≫= parse_additional_item | _ => [] end.

Section codec.
Context {codec : JsonCodec}.

Definition extract_error_message_from_payload (payload : bytes) : bytes :=
  match read_object payload with
  | None => trim_ascii payload
  | Some object =>
      let top := default [] (match nonempty_field object $"message" with
                             | Some s => Some s
                             | None => nonempty_field object $"error_description"
                             end) in
      match object !! $"error" with
      | Some (JObject error) =>
          match nonempty_field error $"message" with
          | Some s => s
          | None => default top (nonempty_field error $"error_description")
          end
      | Some (JString error) => default error (nonempty_field object $"error_description")
      | _ => top
      end
  end.

Definition extract_error_code_from_payload (payload : bytes) : bytes :=
  match read_object payload with
  | None => []
  | Some object =>
      match object !! $"error" with
      | Some (JObject error) => default [] (string_at error $"code")
      | Some (JString error) => error
      | _ => []
      end
  end.

Definition parse_usage_payload (payload : bytes) : option UsagePayloadSnapshot :=
  match read_object payload with
  | None => None
  | Some object =>
      Some (mkSnapshot (default $"guest" (nonempty_field object $"plan_type"))
              (it ← object !! $"rate_limit"; parse_rate_limit_details it)
              (it ← object !! $"credits"; parse_credits_details it)
              (default [] (parse_additional_rate_limits <$> object !! $"additional_rate_limits")))
  end.

(** *** The transfer *)

Record UsageHttpRequest := mkUsageRequest {
  url : bytes; request_headers : list bytes; connect_timeout_ms : Z; timeout_ms : Z }.

(** What curl answers: no handle, an error with its text, or the status with
    the body. *)
Inductive Transfer :=
| NoHandle
| Failed (error : bytes)
| Answered (status_code : Z) (response_body : bytes).

Record UsageHttpResult := mkUsageHttp { transport_ok : bool; status_code : Z; body : bytes; message : bytes }.

Section http.
Context (env : environment) (perform : UsageHttpRequest -> Transfer).

Definition usage_request (access_token account_id : bytes) : UsageHttpRequest :=
  let account :=
    if bool_decide (account_id = []) || starts_with account_id $"email_" || starts_with account_id $"local_" then []
    else [$"chatgpt-account-id: " ++ account_id] in
  mkUsageRequest (usage_url env)
    ([$"Accept: application/json"; $"Authorization: Bearer " ++ access_token] ++ account)
    (env_long_or_default env $"TIGHTROPE_USAGE_FETCH_CONNECT_TIMEOUT_MS" kDefaultConnectTimeoutMs)
    (env_long_or_default env $"TIGHTROPE_USAGE_FETCH_TIMEOUT_MS" kDefaultRequestTimeoutMs).

Definition fetch_usage_http (access_token account_id : bytes) : UsageHttpResult :=
  if bool_decide (access_token = [])
  then mkUsageHttp true 401 [] $"Missing ChatGPT token in Authorization header"
  else match perform (usage_request access_token account_id) with
       | NoHandle => mkUsageHttp false 0 [] $"Usage validator transport unavailable"
       | Failed error => mkUsageHttp false 0 [] ($"Usage fetch failed: " ++ error)
       | Answered code response_body => mkUsageHttp true code response_body []
       end.

(** [CurlUsageValidator::validate] *)
Definition curl_validate (access_token account_id : bytes) : UsageValidationResult :=
  let http := fetch_usage_http access_token account_id in
  if negb (transport_ok http) then mkValidation false 0 [] (message http)
  else if 400 <=? status_code http then
    let extracted := extract_error_message_from_payload (body http) in
    let text :=
      if negb (bool_decide (extracted = [])) then extracted
      else if negb (bool_decide (message http = [])) then message http
      else $"Usage fetch failed (" ++ to_string (status_code http) ++ $")" in
    mkValidation false (status_code http) (extract_error_code_from_payload (body http)) text
  else mkValidation true (status_code http) [] [].

(** [CurlUsagePayloadFetcher::fetch] *)
Definition curl_fetch (access_token account_id : bytes) : option UsagePayloadSnapshot :=
  let http := fetch_usage_http access_token account_id in
  if negb (transport_ok http) || (status_code http <? 200) || (300 <=? status_code http) then None
  else parse_usage_payload (body http).

(** *** The process: overrides set by tests, and the cache *)

Record UsageState := mkUsageState {
  validator_override : option (bytes -> bytes -> UsageValidationResult);
  payload_fetcher_override : option (bytes -> bytes -> option UsagePayloadSnapshot);
  payload_cache : gmap bytes UsagePayloadSnapshot }.

Definition set_cache (cache : gmap bytes UsagePayloadSnapshot) (s : UsageState) : UsageState :=
  mkUsageState (validator_override s) (payload_fetcher_override s) cache.

Definition cache_usage_payload_snapshot (account_id : bytes) (snapshot : UsagePayloadSnapshot) (s : UsageState) :
    UsageState :=
  let key := normalized_account_id account_id in
  if bool_decide (key = []) then s else set_cache (<[key := snapshot]> (payload_cache s)) s.

Definition or_else {A} (first second : option A) : option A := match first with Some a => Some a | None => second end.

Definition validate_usage_identity (access_token account_id : bytes)
    (validator : option (bytes -> bytes -> UsageValidationResult)) (s : UsageState) : UsageValidationResult :=
  default curl_validate (or_else validator (validator_override s)) access_token account_id.

Definition fetch_usage_payload (access_token account_id : bytes)
    (fetcher : option (bytes -> bytes -> option UsagePayloadSnapshot)) (s : UsageState) :
    option UsagePayloadSnapshot * UsageState :=
  match default curl_fetch (or_else fetcher (payload_fetcher_override s)) access_token account_id with
  | Some snapshot => (Some snapshot, cache_usage_payload_snapshot account_id snapshot s)
  | None => (None, s)
  end.

Definition cached_usage_payload (account_id : bytes) (s : UsageState) : option UsagePayloadSnapshot :=
  let key := normalized_account_id account_id in
  if bool_decide (key = []) then None else payload_cache s !! key.

Definition set_usage_validator_for_testing (validator : option (bytes -> bytes -> UsageValidationResult))
    (s : UsageState) : UsageState := mkUsageState validator (payload_fetcher_override s) (payload_cache s).

Definition clear_usage_validator_for_testing : UsageState -> UsageState := set_usage_validator_for_testing None.

Definition set_usage_payload_fetcher_for_testing (fetcher : option (bytes -> bytes -> option UsagePayloadSnapshot))
    (s : UsageState) : UsageState := mkUsageState (validator_override s) fetcher (payload_cache s).

Definition clear_usage_payload_fetcher_for_testing : UsageState -> UsageState :=
  set_usage_payload_fetcher_for_testing None.

Definition seed_usage_payload_cache_for_testing (account_id : bytes) (payload : option UsagePayloadSnapshot)
    (s : UsageState) : UsageState :=
  let key := normalized_account_id account_id in
  if bool_decide (key = []) then s
  else match payload with
       | Some snapshot => set_cache (<[key := snapshot]> (payload_cache s)) s
       | None => set_cache (delete key (payload_cache s)) s
       end.

Definition clear_usage_payload_cache_for_testing (s : UsageState) : UsageState := set_cache ∅ s.

Definition initial_usage : UsageState := mkUsageState None None ∅.

End http.
End codec.

(** ** The cache over a run of calls *)

Section cache.
Context {codec : JsonCodec} (env : environment).

(** A call with what curl answers during it. *)
Inductive call :=
| Fetch (perform : UsageHttpRequest -> Transfer) (access_token account_id : bytes)
    (fetcher : option (bytes -> bytes -> option UsagePayloadSnapshot))
| SetFetcher (fetcher : option (bytes -> bytes -> option UsagePayloadSnapshot))
| SetValidator (validator : option (bytes -> bytes -> UsageValidationResult))
| Seed (account_id : bytes) (payload : option UsagePayloadSnapshot)
| ClearCache.

Definition step (s : UsageState) (c : call) : UsageState :=
  match c with
  | Fetch perform token account fetcher => (fetch_usage_payload env perform token account fetcher s).2
  | SetFetcher fetcher => set_usage_payload_fetcher_for_testing fetcher s
  | SetValidator validator => set_usage_validator_for_testing validator s
  | Seed account payload => seed_usage_payload_cache_for_testing account payload s
  | ClearCache => clear_usage_payload_cache_for_testing s
  end.

Definition run (calls : list call) : UsageState := foldl step initial_usage calls.

(** What a call told about an account: nothing, or the snapshot that holds
    from now on. *)
Definition told (s : UsageState) (c : call) (account : bytes) : option (option UsagePayloadSnapshot) :=
  match c with
  | Fetch perform token account' fetcher =>
      if bool_decide (trim_ascii account' = trim_ascii account)
      then Some <$> (fetch_usage_payload env perform token account' fetcher s).1 else None
  | Seed account' payload => if bool_decide (trim_ascii account' = trim_ascii account) then Some payload else None
  | ClearCache => Some None
  | SetFetcher _ | SetValidator _ => None
  end.

(** The last thing told about an account. *)
Fixpoint last_told (s : UsageState) (calls : list call) (account : bytes) (known : option UsagePayloadSnapshot) :
    option UsagePayloadSnapshot :=
  match calls with
  | [] => known
  | c :: calls => last_told (step s c) calls account (default known (told s c account))
  end.

Lemma cached_insert account account' snapshot s :
  trim_ascii account <> [] ->
  cached_usage_payload account (cache_usage_payload_snapshot account' snapshot s) =
  if bool_decide (trim_ascii account' = trim_ascii account) then Some snapshot else cached_usage_payload account s.
Proof.
  intros Ha. unfold cached_usage_payload, cache_usage_payload_snapshot, normalized_account_id.
  rewrite (bool_decide_false (trim_ascii account = [])) by done.
  case_bool_decide as E'; case_bool_decide as E; try congruence; cbn [set_cache payload_cache].
  - rewrite E. apply lookup_insert_eq.
  - by apply lookup_insert_ne.
Qed.

Lemma step_cached s c account :
  trim_ascii account <> [] ->
  cached_usage_payload account (step s c) = default (cached_usage_payload account s) (told s c account).
Proof.
  intros Ha. destruct c as [perform token account' fetcher|fetcher|validator|account' payload|]; cbn [step told]; try done.
  - unfold fetch_usage_payload. destruct (default _ _ token account') as [snapshot|]; cbn [fst snd].
    + rewrite cached_insert by done. by case_bool_decide.
    + by case_bool_decide.
  - unfold cached_usage_payload, seed_usage_payload_cache_for_testing, normalized_account_id.
    rewrite (bool_decide_false (trim_ascii account = [])) by done.
    case_bool_decide as E'; case_bool_decide as E; try congruence; destruct payload; cbn [set_cache payload_cache default]; try done.
    + rewrite E. apply lookup_insert_eq.
    + rewrite E. apply lookup_delete_eq.
    + by apply lookup_insert_ne.
    + by apply lookup_delete_ne.
  - unfold cached_usage_payload, normalized_account_id. by rewrite bool_decide_false.
Qed.

(** The cache answers with the last snapshot: after any run of fetches, seeds
    and clears, under any answers of the upstream, what is cached for an
    account is what the last call about it told, whatever blanks surround the
    name; an account without a name is never cached. *)
Theorem usage_cache_latest calls account :
  cached_usage_payload account (run calls) =
  if bool_decide (trim_ascii account = []) then None else last_told initial_usage calls account None.
Proof.
  case_bool_decide as Ha; [unfold cached_usage_payload, normalized_account_id; by rewrite bool_decide_true|].
  assert (cached_usage_payload account initial_usage = None) as E
    by (unfold cached_usage_payload, normalized_account_id; by rewrite bool_decide_false).
  rewrite <- E. unfold run. generalize initial_usage as s. clear E.
  induction calls as [|c calls IH]; intros s; [done|]. cbn [foldl last_told]. rewrite IH. by rewrite step_cached.
Qed.


End cache.

(** ** Concrete numbers *)

Example print_balance : print_fixed 2 (S754_finite false 7036874417766400 (-49)) = $"12.50".
Proof. vm_compute. reflexivity. Qed.

Example print_tie : print_fixed 1 (S754_finite false 1 (-2)) = $"0.2".
Proof. vm_compute. reflexivity. Qed.

Example print_percent : print_fixed 1 (of_int 100) = $"100.0".
Proof. vm_compute. reflexivity. Qed.
