(* ===== verification/AccountTraffic.v ===== *)
(** * AccountTraffic: the bytes each account sends and receives

    src/native/proxy/src/account_traffic.cpp: counters per account kept under
    one mutex, the callback and the throttled events that follow a change, and
    the account a thread works for.  The clock is read under the mutex and
    passed along. *)

From S2P Require Import Prelude.

Definition kTrafficEmitThrottleMs : Z := 150.

Record AccountTrafficSnapshot := mkTraffic {
  account_id : bytes; up_bytes : Z; down_bytes : Z; last_up_at_ms : Z; last_down_at_ms : Z }.

Definition no_traffic (account : bytes) : AccountTrafficSnapshot := mkTraffic account 0 0 0 0.

(** The variables of the process, and of each thread the account it works
    for. *)
Record TrafficState := mkTrafficState {
  traffic_by_account : gmap bytes AccountTrafficSnapshot;
  traffic_last_emit_at : gmap bytes Z;
  update_callback : bool;
  contexts : gmap Z bytes;
}.

Definition initial_traffic : TrafficState := mkTrafficState ∅ ∅ false ∅.

(** What leaves the component: a call of the callback, or an event. *)
Inductive TrafficOutput :=
| Callback (snapshot : AccountTrafficSnapshot)
| AccountTrafficEvent (snapshot : AccountTrafficSnapshot).

Definition entry_of (account : bytes) (s : TrafficState) : AccountTrafficSnapshot :=
  default (no_traffic account) (traffic_by_account s !! account).

Definition count_bytes (egress : bool) (n ts : Z) (e : AccountTrafficSnapshot) : AccountTrafficSnapshot :=
  if egress
  then mkTraffic (account_id e) (u64 (up_bytes e + n)) (down_bytes e) ts (last_down_at_ms e)
  else mkTraffic (account_id e) (up_bytes e) (u64 (down_bytes e + n)) (last_up_at_ms e) ts.

Definition record_traffic (account : bytes) (n : Z) (egress : bool) (ts : Z) (s : TrafficState) :
    list TrafficOutput * TrafficState :=
  if bool_decide (account = []) || (n =? 0) then ([], s)
  else
    let snapshot := count_bytes egress n ts (entry_of account s) in
    let last_emit := default 0 (traffic_last_emit_at s !! account) in
    let should_emit := kTrafficEmitThrottleMs <=? ts - last_emit in
    ((if update_callback s then [Callback snapshot] else []) ++
     (if should_emit then [AccountTrafficEvent snapshot] else []),
     mkTrafficState (<[account := snapshot]> (traffic_by_account s))
       (<[account := if should_emit then ts else last_emit]> (traffic_last_emit_at s)) (update_callback s) (contexts s)).

Definition record_account_upstream_egress (account : bytes) (n : Z) : Z -> TrafficState -> list TrafficOutput * TrafficState :=
  record_traffic account n true.

Definition record_account_upstream_ingress (account : bytes) (n : Z) : Z -> TrafficState -> list TrafficOutput * TrafficState :=
  record_traffic account n false.

(** [operator<] on the names, as "not after". *)
Definition by_account (a b : AccountTrafficSnapshot) : Prop := bytes_le (account_id a) (account_id b).

#[global] Instance by_account_dec a b : Decision (by_account a b).
Proof. unfold by_account. apply _. Defined.

Definition snapshot_account_traffic (s : TrafficState) : list AccountTrafficSnapshot :=
  merge_sort by_account (map_to_list (traffic_by_account s)).*2.

Definition clear_account_traffic_for_testing (s : TrafficState) : TrafficState :=
  mkTrafficState ∅ (traffic_last_emit_at s) (update_callback s) (contexts s).

(** [set_account_traffic_update_callback] with a callback, and
    [clear_account_traffic_update_callback]. *)
Definition set_update_callback (callback : bool) (s : TrafficState) : TrafficState :=
  mkTrafficState (traffic_by_account s) (traffic_last_emit_at s) callback (contexts s).

(** ** The account of a thread *)

Definition current_account_traffic_context_account_id (thread : Z) (s : TrafficState) : bytes :=
  default [] (contexts s !! thread).

Definition set_context (thread : Z) (account : bytes) (s : TrafficState) : TrafficState :=
  mkTrafficState (traffic_by_account s) (traffic_last_emit_at s) (update_callback s) (<[thread := account]> (contexts s)).

(** [ScopedAccountTrafficContext traffic_scope(account)] around a
    computation: the constructor, the computation, the destructor. *)
Definition with_account_traffic_context {A} (thread : Z) (account : bytes) (f : TrafficState -> A * TrafficState)
    (s : TrafficState) : A * TrafficState :=
  let previous_account_id := current_account_traffic_context_account_id thread s in
  let '(a, s) := f (set_context thread account s) in
  (a, set_context thread previous_account_id s).

(** ** Runs *)

Inductive traffic_op :=
| Record_ (account : bytes) (n : Z) (egress : bool) (ts : Z)
| ClearTraffic
| SetCallback (callback : bool)
| SetContext (thread : Z) (account : bytes).

Definition traffic_step (s : TrafficState) (o : traffic_op) : list TrafficOutput * TrafficState :=
  match o with
  | Record_ account n egress ts => record_traffic account n egress ts s
  | ClearTraffic => ([], clear_account_traffic_for_testing s)
  | SetCallback callback => ([], set_update_callback callback s)
  | SetContext thread account => ([], set_context thread account s)
  end.

Fixpoint traffic_run (s : TrafficState) (ops : list traffic_op) : list TrafficOutput * TrafficState :=
  match ops with
  | [] => ([], s)
  | o :: ops =>
      let '(out, s) := traffic_step s o in
      let '(outs, s) := traffic_run s ops in (out ++ outs, s)
  end.

(** The bytes an account moved in one direction since the last clearing. *)
Fixpoint moved (account : bytes) (egress : bool) (ops : list traffic_op) (total : Z) : Z :=
  match ops with
  | [] => total
  | Record_ account' n egress' _ :: ops =>
      moved account egress ops (if bool_decide (account' = account) && eqb egress' egress then total + n else total)
  | ClearTraffic :: ops => moved account egress ops 0
  | _ :: ops => moved account egress ops total
  end.

(** The instants of the events about an account: the later of its two
    stamps is that of the change. *)
Definition event_of (account : bytes) (o : TrafficOutput) : option AccountTrafficSnapshot :=
  match o with
  | AccountTrafficEvent snapshot => if bool_decide (account_id snapshot = account) then Some snapshot else None
  | Callback _ => None
  end.

(** ** Counters *)

Definition keyed (s : TrafficState) : Prop :=
  map_Forall (fun account e => account_id e = account) (traffic_by_account s).

Lemma entry_keyed account s : keyed s -> account_id (entry_of account s) = account.
Proof. intros Hk. unfold entry_of. destruct (_ !! account) eqn:E; [by apply Hk in E|done]. Qed.

Lemma step_keyed s o : keyed s -> keyed (traffic_step s o).2.
Proof.
  intros Hk. destruct o as [account n egress ts| | |]; try done. cbn [traffic_step]. unfold record_traffic.
  case_match; [done|]. apply map_Forall_insert_2; [|done].
  unfold count_bytes. case_match; cbn [account_id]; by apply entry_keyed.
Qed.

Lemma run_keyed ops : forall s, keyed s -> keyed (traffic_run s ops).2.
Proof.
  induction ops as [|o ops IH]; intros s Hk; [done|]. cbn [traffic_run].
  pose proof (step_keyed s o Hk) as Hs. destruct (traffic_step s o) as [out s1]. cbn [snd] in Hs.
  specialize (IH s1 Hs). by destruct (traffic_run s1 ops).
Qed.

Definition counter (egress : bool) (e : AccountTrafficSnapshot) : Z := if egress then up_bytes e else down_bytes e.

Lemma step_counter account egress s o total :
  account <> [] ->
  counter egress (entry_of account s) = u64 total ->
  counter egress (entry_of account (traffic_step s o).2) = u64 (moved account egress [o] total).
Proof.
  intros Ha E. destruct o as [account' n egress' ts| | |]; cbn [traffic_step moved snd]; try done.
  2:{ by destruct egress. }
  unfold record_traffic. case_bool_decide as E1; cbn [orb snd].
  { rewrite bool_decide_false by (subst; done). done. }
  destruct (n =? 0) eqn:En; cbn [snd].
  { apply Z.eqb_eq in En as ->. case_match; [by rewrite Z.add_0_r|done]. }
  unfold entry_of at 1. cbn [traffic_by_account]. case_bool_decide as E2; cbn [andb].
  - subst account'. rewrite lookup_insert_eq. cbn [default]. destruct egress, egress'; cbn [counter count_bytes up_bytes down_bytes eqb] in *;
      rewrite E; try done; unfold wrap; by rewrite Zplus_mod_idemp_l.
  - rewrite lookup_insert_ne by done. done.
Qed.

Lemma moved_cons account egress o ops total :
  moved account egress (o :: ops) total = moved account egress ops (moved account egress [o] total).
Proof. destruct o; done. Qed.

Lemma run_counter account egress ops : forall s total,
  account <> [] ->
  counter egress (entry_of account s) = u64 total ->
  counter egress (entry_of account (traffic_run s ops).2) = u64 (moved account egress ops total).
Proof.
  induction ops as [|o ops IH]; intros s total Ha E; [done|]. rewrite moved_cons. cbn [traffic_run].
  pose proof (step_counter account egress s o total Ha E) as Es. destruct (traffic_step s o) as [out s1]. cbn [snd] in Es.
  specialize (IH s1 _ Ha Es). by destruct (traffic_run s1 ops).
Qed.

(** Every byte is counted for its account and direction: after any run the
    counters of an account are the bytes recorded for it since the last
    clearing, in 64 bits, and the listing gives each account once, in the order
    of the names. *)
Theorem traffic_accounted ops account :
  account <> [] ->
  let s := (traffic_run initial_traffic ops).2 in
  up_bytes (entry_of account s) = u64 (moved account true ops 0) /\
  down_bytes (entry_of account s) = u64 (moved account false ops 0) /\
  Sorted by_account (snapshot_account_traffic s) /\
  NoDup (account_id <$> snapshot_account_traffic s) /\
  (forall e, e ∈ snapshot_account_traffic s <-> traffic_by_account s !! account_id e = Some e).
Proof.
  intros Ha s. split; [by apply (run_counter account true)|]. split; [by apply (run_counter account false)|].
  assert (keyed s) as Hk by (apply run_keyed, map_Forall_empty).
  assert (account_id <$> (map_to_list (traffic_by_account s)).*2 = (map_to_list (traffic_by_account s)).*1) as Ek.
  { rewrite <- list_fmap_compose. apply list_fmap_ext. intros i [k e] Hi. cbn.
    apply Hk. apply elem_of_map_to_list. by eapply list_elem_of_lookup_2. }
  unfold snapshot_account_traffic. split; [|split].
  - apply Sorted_merge_sort. intros a b. unfold by_account. apply bytes_le_total.
  - rewrite merge_sort_Permutation, Ek. apply NoDup_fst_map_to_list.
  - intros e. rewrite merge_sort_Permutation, list_elem_of_fmap. split.
    + intros ([k e'] & -> & He). apply elem_of_map_to_list in He. cbn. by rewrite (Hk k e' He).
    + intros He. exists (account_id e, e). split; [done|]. by apply elem_of_map_to_list.
Qed.

(** ** Throttling *)

Definition is_event_of (account : bytes) (o : TrafficOutput) : bool :=
  match event_of account o with Some _ => true | None => false end.

(** The instants at which a step sends an event about an account. *)
Definition emitted_at (account : bytes) (o : traffic_op) (out : list TrafficOutput) : list Z :=
  match o with Record_ _ _ _ ts => if existsb (is_event_of account) out then [ts] else [] | _ => [] end.

Fixpoint event_times (account : bytes) (s : TrafficState) (ops : list traffic_op) : list Z :=
  match ops with
  | [] => []
  | o :: ops => emitted_at account o (traffic_step s o).1 ++ event_times account (traffic_step s o).2 ops
  end.

Definition last_emit (account : bytes) (s : TrafficState) : Z := default 0 (traffic_last_emit_at s !! account).

Lemma step_emitted account s o :
  keyed s ->
  (emitted_at account o (traffic_step s o).1 = [] /\ last_emit account (traffic_step s o).2 = last_emit account s) \/
  exists ts, emitted_at account o (traffic_step s o).1 = [ts] /\ last_emit account (traffic_step s o).2 = ts /\
    last_emit account s + kTrafficEmitThrottleMs <= ts.
Proof.
  intros Hk. destruct o as [account' n egress ts| | |]; try (by left). cbn [traffic_step emitted_at].
  unfold record_traffic. destruct (bool_decide (account' = []) || (n =? 0)); [by left|]. cbn [fst snd]. unfold last_emit. cbn [traffic_last_emit_at].
  set (snapshot := count_bytes _ _ _ _).
  assert (account_id snapshot = account') as Ei.
  { subst snapshot. unfold count_bytes. destruct egress; cbn [account_id]; by apply entry_keyed. }
  clearbody snapshot.
  assert (existsb (is_event_of account) (if update_callback s then [Callback snapshot] else []) = false) as Ec by by case_match.
  rewrite existsb_app, Ec. cbn [orb]. set (last := default 0 (traffic_last_emit_at s !! account')).
  destruct (kTrafficEmitThrottleMs <=? ts - last) eqn:Et; cbn [existsb].
  - unfold is_event_of, event_of. rewrite Ei, orb_false_r. case_bool_decide as Ea.
    + right. exists ts. subst last. rewrite <- Ei, Ea in *. rewrite lookup_insert_eq. apply Z.leb_le in Et.
      split; [done|]. split; [done|]. cbn [default]. lia.
    + left. by rewrite lookup_insert_ne.
  - left. split; [done|]. destruct (decide (account' = account)) as [->|Hne]; [by rewrite lookup_insert_eq|].
    by rewrite lookup_insert_ne.
Qed.

(** Events are throttled: whatever is recorded and whatever the clock does,
    two events about the same account are at least 150 milliseconds apart. *)
Theorem traffic_events_throttled account ops :
  StronglySorted (fun earlier later => earlier + kTrafficEmitThrottleMs <= later) (event_times account initial_traffic ops).
Proof.
  enough (forall s, keyed s ->
    StronglySorted (fun earlier later => earlier + kTrafficEmitThrottleMs <= later) (event_times account s ops) /\
    Forall (fun t => last_emit account s + kTrafficEmitThrottleMs <= t) (event_times account s ops)) as H.
  { by apply H, map_Forall_empty. }
  induction ops as [|o ops IH]; intros s Hk; [by repeat constructor|]. cbn [event_times].
  destruct (IH _ (step_keyed s o Hk)) as [Hs Hf].
  destruct (step_emitted account s o Hk) as [[-> El]|(ts & -> & El & Ht)]; cbn [app].
  - by rewrite El in Hf.
  - rewrite El in Hf. split; [by constructor|]. constructor; [done|]. eapply Forall_impl; [done|]. cbn. intros t.
    unfold kTrafficEmitThrottleMs in *. lia.
Qed.

(** A scope restores the account of its thread, however it nests. *)
Lemma scope_restores {A} thread account (f : TrafficState -> A * TrafficState) s :
  current_account_traffic_context_account_id thread (with_account_traffic_context thread account f s).2 =
  current_account_traffic_context_account_id thread s.
Proof.
  unfold with_account_traffic_context. destruct (f _) as [a s']. unfold current_account_traffic_context_account_id at 1.
  cbn [snd set_context contexts]. by rewrite lookup_insert_eq.
Qed.
