(* ===== verification/ServiceHelpers.v ===== *)
(** * ServiceHelpers: the parts of the proxy service without state

    src/native/proxy/src/proxy_service_helpers.cpp, the local functions of
    proxy_service.cpp in the same directory, and stream/src/sse_handler.cpp:
    the routes that are served, the lists of models, the bodies collected from
    streams, the envelopes of errors and the headers of answers. *)

From S2P Require Import Prelude Codec Text Double JsonValue Except Headers ModelRegistry ErrorPolicy RequestPlan HttpBridge Usage.
Import Text.Ascii.

(** ** Routes *)

Definition kTranscriptionModel : bytes := $"gpt-4o-transcribe".

Definition one_of (route : bytes) (routes : list bytes) : bool := bool_decide (route ∈ routes).

Definition is_supported_responses_route (route : bytes) : bool :=
  one_of route [$"/v1/responses"; $"/backend-api/codex/responses"].

Definition is_supported_compact_route (route : bytes) : bool :=
  one_of route [$"/v1/responses/compact"; $"/backend-api/codex/responses/compact"].

Definition is_supported_memories_route (route : bytes) : bool :=
  one_of route [$"/v1/memories/trace_summarize"; $"/backend-api/codex/memories/trace_summarize"].

Definition is_supported_models_route (route : bytes) : bool :=
  one_of route [$"/api/models"; $"/v1/models"; $"/backend-api/codex/models"].

Definition is_supported_transcribe_route (route : bytes) : bool :=
  one_of route [$"/backend-api/transcribe"; $"/v1/audio/transcriptions"].

Definition optional_string_has_value (value : option bytes) : bool :=
  match value with Some (_ :: _) => true | _ => false end.

(** ** The models a key may see *)

Record ModelListPolicy := mkModelListPolicy { allowed_models : list bytes; enforced_model : option bytes }.

Definition normalize_model_slug (value : bytes) : bytes := to_lower_ascii (trim_ascii value).

Definition nonblank_slug (value : bytes) : bool := negb (is_empty (normalize_model_slug value)).

(** [policy.enforced_model] when it names a model. *)
Definition enforced_slug (policy : ModelListPolicy) : option bytes :=
  match enforced_model policy with
  | Some e => if nonblank_slug e then Some (normalize_model_slug e) else None
  | None => None
  end.

Definition resolve_allowed_model_filter (policy : ModelListPolicy) : option (gset bytes) :=
  let allowed_filter :=
    if bool_decide (allowed_models policy = []) then None
    else Some (list_to_set (normalize_model_slug <$> List.filter nonblank_slug (allowed_models policy))) in
  match enforced_slug policy, allowed_filter with
  | Some enforced, None => Some {[enforced]}
  | Some enforced, Some allowed => Some (if bool_decide (enforced ∈ allowed) then {[enforced]} else ∅)
  | None, _ => allowed_filter
  end.

Definition is_model_visible (model : ModelInfo) (allowed_filter : option (gset bytes)) : bool :=
  match allowed_filter with
  | None => true
  | Some allowed => bool_decide (normalize_model_slug (ModelRegistry.id model) ∈ allowed)
  end.

Definition apply_model_list_policy (registry : ModelRegistry) (policy : ModelListPolicy) : ModelRegistry :=
  match resolve_allowed_model_filter policy with
  | None => registry
  | Some allowed => make_registry (List.filter (fun model => is_model_visible model (Some allowed)) (list_models registry))
  end.

(** ** Payloads written by the service *)

Section codec.
Context {codec : JsonCodec}.

Definition write_json_payload (payload : Json) : except bytes :=
  match write_json payload with
  | Some serialized => Ret serialized
  | None => Throw $"failed to serialize proxy JSON payload"
  end.

Definition build_success_json_body : except bytes :=
  write_json_payload (JObject (make_object
    [($"id", JString $"resp_proxy_success"); ($"object", JString $"response"); ($"status", JString $"completed");
     ($"output", JArray [JObject (make_object [($"type", JString $"output_text"); ($"text", JString $"ok")])])])).

Definition dashboard_model (model : ModelInfo) : Json :=
  JObject (make_object [($"id", JString (ModelRegistry.id model)); ($"name", JString (ModelRegistry.id model))]).

Definition build_dashboard_models_payload (registry : ModelRegistry) : except bytes :=
  write_json_payload (JObject (make_object [($"models", JArray (dashboard_model <$> list_models registry))])).

Definition public_model_metadata (model : ModelInfo) : JsonObject :=
  make_object
    [($"display_name", JString (ModelRegistry.id model)); ($"description", JString []); ($"context_window", JNumber (of_int 0));
     ($"input_modalities", JArray []); ($"supported_reasoning_levels", JArray []);
     ($"default_reasoning_level", JString []); ($"supports_reasoning_summaries", JBool false);
     ($"support_verbosity", JBool false); ($"default_verbosity", JString []);
     ($"prefer_websockets", JBool (ModelRegistry.prefer_websockets model));
     ($"supports_parallel_tool_calls", JBool false);
     ($"supported_in_api", JBool (ModelRegistry.supported_in_api model));
     ($"minimal_client_version", JString []); ($"priority", JNumber (of_int 0))].

Definition public_model (model : ModelInfo) : Json :=
  JObject (make_object
    [($"id", JString (ModelRegistry.id model)); ($"object", JString $"model"); ($"created", JNumber (of_int 0));
     ($"owned_by", JString $"tightrope"); ($"metadata", JObject (public_model_metadata model))]).

Definition build_public_models_payload (registry : ModelRegistry) : except bytes :=
  write_json_payload (JObject (make_object
    [($"object", JString $"list"); ($"data", JArray (public_model <$> list_models registry))])).

Definition build_invalid_transcription_model_error (model : bytes) : except bytes :=
  write_json_payload (JObject (make_object [($"error", JObject (make_object
    [($"message", JString ($"Unsupported transcription model '" ++ model ++ $"'. Only '" ++ kTranscriptionModel ++
                           $"' is supported."));
     ($"type", JString $"invalid_request_error"); ($"code", JString $"invalid_request_error");
     ($"param", JString $"model")]))])).

(** stream/src/sse_handler.cpp; [now] is the clock in seconds. *)
Definition build_responses_sse_failure (now : Z) (error_code error_message error_type error_param : bytes) :
    except (list bytes) :=
  event ← build_response_failed_event_json now error_code error_message error_type [] error_param;
  Ret [event].

(** ** The body of a collected stream *)

(** [output_items[index] = item] on a [std::map]. *)
Fixpoint put_item (index : Z) (item : Json) (items : list (Z * Json)) : list (Z * Json) :=
  match items with
  | [] => [(index, item)]
  | (i, other) :: rest =>
      if index <? i then (index, item) :: items
      else if i <? index then (i, other) :: put_item index item rest
      else (index, item) :: rest
  end.

Definition json_array_empty_or_missing (object : JsonObject) (key : bytes) : bool :=
  match object !! key with
  | None => true
  | Some (JArray []) => true
  | Some _ => false
  end.

Definition is_item_type (type : bytes) : bool :=
  one_of type [$"response.output_item.added"; $"response.output_item.done"].

Definition ends_stream (type : bytes) : bool :=
  one_of type [$"response.completed"; $"response.incomplete"; $"response.failed"].

Definition item_of (object : JsonObject) : option (Z * Json) :=
  match object !! $"output_index", object !! $"item" with
  | Some (JNumber index), Some (JObject item) => Some (cast_sint 64 index, JObject item)
  | _, _ => None
  end.

Definition with_output (items : list (Z * Json)) (response : JsonObject) : JsonObject :=
  if json_array_empty_or_missing response $"output" && negb (bool_decide (items = []))
  then <[$"output" := JArray items.*2]> response else response.

(** What one event does: it adds to the items, or ends the loop. *)
Definition collect_event (items : list (Z * Json)) (event : bytes) : list (Z * Json) + option bytes :=
  match read_object event with
  | None => inl items
  | Some object =>
      match string_at object $"type" with
      | None => inl items
      | Some type =>
          if bool_decide (type = $"error") then
            match object !! $"error" with
            | Some error => inr (write_json (JObject {[$"error" := error]}))
            | None => inl items
            end
          else if is_item_type type then
            inl (match item_of object with Some (index, item) => put_item index item items | None => items end)
          else if negb (ends_stream type) then inl items
          else match object_at object $"response" with
               | Some response => inr (write_json (JObject (with_output items response)))
               | None => inl items
               end
      end
  end.

Fixpoint collect_events (items : list (Z * Json)) (events : list bytes) : option bytes :=
  match events with
  | [] => None
  | event :: events =>
      match collect_event items event with
      | inl items => collect_events items events
      | inr body => body
      end
  end.

Definition collect_response_body_from_stream_events (events : list bytes) : option bytes := collect_events [] events.

(** ** Errors *)

Fixpoint first_message (object : JsonObject) (keys : list bytes) : option bytes :=
  match keys with
  | [] => None
  | key :: keys =>
      match trim_ascii <$> string_at object key with
      | Some ((_ :: _) as normalized) => Some normalized
      | _ => first_message object keys
      end
  end.

Definition compact_upstream_message_from_object (object : JsonObject) : option bytes :=
  first_message object [$"message"; $"detail"; $"error"].

Definition compact_output_shape_valid (payload : JsonObject) : bool :=
  match payload !! $"output" with Some (JArray _) => true | _ => false end.

Definition compact_upstream_fallback_message (status : Z) : bytes := $"Upstream error: HTTP " ++ to_string status.

(** The envelope of a body that says nothing. *)
Definition compact_error_fallback (upstream : UpstreamExecutionResult) (normalized_error_code : bytes) : bytes :=
  let normalized_code := if is_empty normalized_error_code then $"upstream_error" else normalized_error_code in
  let message :=
    if bool_decide (normalized_code = $"upstream_error")
    then compact_upstream_fallback_message (ErrorPolicy.status upstream)
    else default_error_message_for_code normalized_code in
  build_error_envelope normalized_code
    (if is_empty message then compact_upstream_fallback_message (ErrorPolicy.status upstream) else message)
    $"server_error" [].

Definition build_compact_error_body_from_upstream (upstream : UpstreamExecutionResult) (normalized_error_code : bytes) :
    bytes :=
  let fallback := compact_error_fallback upstream normalized_error_code in
  if is_empty (ErrorPolicy.body upstream) then fallback
  else match read_object (ErrorPolicy.body upstream) with
       | Some object =>
           match object !! $"error", compact_upstream_message_from_object object with
           | Some (JObject _), _ => ErrorPolicy.body upstream
           | _, Some message => build_error_envelope $"upstream_error" message $"server_error" []
           | _, None => fallback
           end
       | None =>
           let body_message := trim_ascii (ErrorPolicy.body upstream) in
           if is_empty body_message then fallback
           else build_error_envelope $"upstream_error" body_message $"server_error" []
       end.

Inductive CompactPayloadValidationError := NoError | InvalidJson | UnexpectedPayload.

Definition validate_compact_success_payload (payload_body : bytes) : CompactPayloadValidationError :=
  match read_object payload_body with
  | None => InvalidJson
  | Some payload => if compact_output_shape_valid payload then NoError else UnexpectedPayload
  end.

Definition default_error_type_for_code (error_code : bytes) : bytes :=
  if one_of (to_lower_ascii (trim_ascii error_code))
       [$"upstream_error"; $"upstream_unavailable"; $"upstream_request_timeout"; $"upstream_incomplete";
        $"stream_incomplete"; $"server_error"]
  then $"server_error" else $"invalid_request_error".

Definition resolve_error_type (details : UpstreamErrorDetails) (error_code : bytes) : bytes :=
  if is_empty (ErrorPolicy.type details) then default_error_type_for_code error_code else ErrorPolicy.type details.

(** ** Bodies to try again with *)

Definition should_retry_previous_response_not_found (continuation_request contains_function_call_output : bool)
    (upstream : UpstreamExecutionResult) : bool :=
  if negb continuation_request || contains_function_call_output then false
  else bool_decide (resolved_upstream_error_code upstream = $"previous_response_not_found").

Definition should_retry_previous_response_with_bridge_rewrite
    (backend_codex_route continuation_request contains_function_call_output : bool)
    (upstream : UpstreamExecutionResult) : bool :=
  if negb backend_codex_route || negb continuation_request || negb contains_function_call_output then false
  else bool_decide (resolved_upstream_error_code upstream = $"previous_response_not_found").

Definition fallback_body_without_previous_response (request_body : bytes)
    (continuation_request contains_function_call_output : bool) : option bytes :=
  if negb continuation_request then Some request_body
  else if contains_function_call_output then None
  else strip_previous_response_id request_body.

(** ** Headers of answers *)

Definition append_named (upstream : HeaderMap) (source_name output_name : bytes) (downstream : HeaderMap) : HeaderMap :=
  match find_value_case_insensitive upstream source_name with
  | Some value => hm_assign output_name (trim_ascii value) downstream
  | None => downstream
  end.

Definition append_upstream_passthrough_headers (downstream upstream : HeaderMap) : HeaderMap :=
  let same name := append_named upstream name name in
  let downstream := same $"openai-model" (same $"x-reasoning-included" (same $"x-models-etag"
                      (same $"x-codex-turn-state" downstream))) in
  if hm_contains $"openai-model" downstream then downstream
  else append_named upstream $"x-openai-model" $"openai-model" downstream.

Definition bool_to_header_value (value : bool) : bytes := if value then $"true" else $"false".
Definition format_one_decimal (value : Z) : bytes := print_fixed 1 (of_int value).

(** [from_chars]: the conversion of the text to a double, [None] on an
    error. *)
Definition format_credit_balance (from_chars : bytes -> option double) (balance : bytes) : bytes :=
  let trimmed := trim_ascii balance in
  if is_empty trimmed then trimmed
  else match from_chars trimmed with
       | Some numeric => print_fixed 2 numeric
       | None => trimmed
       end.

Definition append_window_headers (window_label : bytes) (window : option UsageWindowSnapshot) (headers : HeaderMap) :
    HeaderMap :=
  match window with
  | Some w =>
      match used_percent w, limit_window_seconds w with
      | Some percent, Some seconds =>
          let named suffix := $"x-codex-" ++ window_label ++ suffix in
          let headers := hm_assign (named $"-used-percent") (format_one_decimal percent) headers in
          let headers := hm_assign (named $"-window-minutes") (to_string (Z.quot seconds 60)) headers in
          match reset_at w with
          | Some at_s => hm_assign (named $"-reset-at") (to_string at_s) headers
          | None => headers
          end
      | _, _ => headers
      end
  | None => headers
  end.

Definition append_credit_headers (from_chars : bytes -> option double) (details : UsageCreditsDetails) (headers : HeaderMap) :
    HeaderMap :=
  let headers := hm_assign $"x-codex-credits-has-credits" (bool_to_header_value (has_credits details)) headers in
  let headers := hm_assign $"x-codex-credits-unlimited" (bool_to_header_value (unlimited details)) headers in
  match format_credit_balance from_chars <$> balance details with
  | Some ((_ :: _) as formatted) => hm_assign $"x-codex-credits-balance" formatted headers
  | _ => headers
  end.

Definition build_codex_usage_headers_for_account (from_chars : bytes -> option double) (account_id : bytes)
    (usage : UsageState) : HeaderMap :=
  let normalized_account_id := trim_ascii account_id in
  let headers :=
    if is_empty normalized_account_id then []
    else hm_assign $"x-tightrope-routed-account-id" normalized_account_id [] in
  match cached_usage_payload account_id usage with
  | None => headers
  | Some snapshot =>
      let headers :=
        match rate_limit snapshot with
        | Some details =>
            append_window_headers $"secondary" (secondary_window details)
              (append_window_headers $"primary" (primary_window details) headers)
        | None => headers
        end in
      match credits snapshot with
      | Some details => append_credit_headers from_chars details headers
      | None => headers
      end
  end.

Definition build_downstream_response_headers (from_chars : bytes -> option double) (account_id : bytes)
    (upstream_headers : HeaderMap) (usage : UsageState) : HeaderMap :=
  append_upstream_passthrough_headers (build_codex_usage_headers_for_account from_chars account_id usage) upstream_headers.

(** ** Captured payloads *)

Definition is_alnum (ch : Byte.byte) : bool :=
  let c := val ch in (97 <=? c) && (c <=? 122) || (65 <=? c) && (c <=? 90) || (48 <=? c) && (c <=? 57).

Definition sanitize_route_for_filename (route : bytes) : bytes :=
  if is_empty route then $"route" else (fun ch => if is_alnum ch then ch else Byte.x5f) <$> route.

End codec.

(** ** The models that are listed *)

(** What a policy says of a model: it is among the allowed ones when any are
    listed, and it is the enforced one when one is. Names are compared trimmed
    and in lower case, and blank ones do not count. *)
Definition permitted (policy : ModelListPolicy) (model : ModelInfo) : Prop :=
  let slug := normalize_model_slug (ModelRegistry.id model) in
  (allowed_models policy = [] \/
   exists allowed, allowed ∈ allowed_models policy /\ normalize_model_slug allowed = slug /\ slug <> []) /\
  (forall enforced, enforced_model policy = Some enforced -> normalize_model_slug enforced <> [] ->
     slug = normalize_model_slug enforced).

Lemma nonblank_slug_spec value : nonblank_slug value = true <-> normalize_model_slug value <> [].
Proof. unfold nonblank_slug, is_empty. rewrite negb_true_iff, bool_decide_eq_false. done. Qed.

Lemma elem_of_allowed_models slug models :
  slug ∈ (list_to_set (normalize_model_slug <$> List.filter nonblank_slug models) : gset bytes) <->
  exists allowed, allowed ∈ models /\ normalize_model_slug allowed = slug /\ slug <> [].
Proof.
  rewrite elem_of_list_to_set, list_elem_of_fmap. split.
  - intros (m & -> & Hm). apply list_elem_of_In, filter_In in Hm as [Hm Hb]. apply list_elem_of_In in Hm.
    apply nonblank_slug_spec in Hb. by exists m.
  - intros (m & Hm & <- & Hb). exists m. split; [done|]. apply list_elem_of_In, filter_In.
    split; [by apply list_elem_of_In|by apply nonblank_slug_spec].
Qed.

Lemma enforced_slug_spec policy slug :
  (forall e, enforced_slug policy = Some e -> slug = e) <->
  (forall e, enforced_model policy = Some e -> normalize_model_slug e <> [] -> slug = normalize_model_slug e).
Proof.
  unfold enforced_slug. destruct (enforced_model policy) as [e|]; [|done].
  destruct (nonblank_slug e) eqn:Eb.
  - apply nonblank_slug_spec in Eb. split; [intros Hs ? [= <-] _|intros Hs ? [= <-]]; by apply Hs.
  - split; [|done]. intros _ e' [= <-] Hb. apply nonblank_slug_spec in Hb. congruence.
Qed.

Lemma visible_permitted policy model :
  is_model_visible model (resolve_allowed_model_filter policy) = true <-> permitted policy model.
Proof.
  unfold permitted. rewrite <- enforced_slug_spec. unfold resolve_allowed_model_filter.
  set (slug := normalize_model_slug (ModelRegistry.id model)).
  case_bool_decide as Ea; destruct (enforced_slug policy) as [enforced|] eqn:Ee; cbn [is_model_visible]; fold slug.
  - rewrite bool_decide_eq_true, elem_of_singleton. split.
    + intros E. split; [by left|]. by intros ? [= <-].
    + intros [_ Hs]. by apply Hs.
  - split; [|done]. intros _. split; [by left|done].
  - rewrite bool_decide_eq_true. rewrite <- elem_of_allowed_models.
    set (allowed := list_to_set _ : gset bytes). case_bool_decide as Em.
    + rewrite elem_of_singleton. split.
      * intros ->. split; [by right|]. by intros ? [= <-].
      * intros [_ Hs]. by apply Hs.
    + split; [by intros ?%elem_of_empty|]. intros [[?|Hs] He]; [done|].
      rewrite (He enforced) in Hs by done. contradiction.
  - rewrite bool_decide_eq_true, elem_of_allowed_models. split; [intros Hs; split; [by right|done]|].
    intros [[?|Hs] _]; [done|exact Hs].
Qed.

#[global] Instance permitted_dec policy model : Decision (permitted policy model).
Proof.
  destruct (is_model_visible model (resolve_allowed_model_filter policy)) eqn:E.
  - left. by apply visible_permitted.
  - right. intros Hp%visible_permitted. congruence.
Defined.

(** A key sees the models its policy permits: the list it is answered with is
    the upstream's list, in its order, without the models the policy does not
    permit. *)
Theorem model_list_within_policy registry policy :
  list_models (apply_model_list_policy registry policy) = filter (permitted policy) (list_models registry).
Proof.
  pose proof (visible_permitted policy) as Hv. unfold apply_model_list_policy.
  destruct (resolve_allowed_model_filter policy) as [allowed|].
  - cbn [list_models make_registry models_]. induction (list_models registry) as [|m ms IH]; [done|].
    cbn [List.filter]. specialize (Hv m). rewrite filter_cons.
    destruct (is_model_visible m (Some allowed)); case_decide as Hd; [by rewrite IH|exfalso; tauto|exfalso|done].
    apply Hv in Hd. done.
  - induction (list_models registry) as [|m ms IH]; [done|]. rewrite filter_cons_True by (by apply Hv). by f_equal.
Qed.

(** ** The items of a stream *)

Definition item_event (event : bytes) `{JsonCodec} : option (Z * Json) :=
  object ← read_object event;
  type ← string_at object $"type";
  if is_item_type type then item_of object else None.

Section collected.
Context {codec : JsonCodec}.

(** An event after which the loop goes on. *)
Definition passes (event : bytes) : Prop := forall items, is_Some (match collect_event items event with inl i => Some i | inr _ => None end).

(** The item that the events gave last for an index. *)
Fixpoint last_item (index : Z) (events : list bytes) (known : option Json) : option Json :=
  match events with
  | [] => known
  | event :: events =>
      last_item index events
        (match item_event event with Some (i, item) => if i =? index then Some item else known | None => known end)
  end.

Definition in_order (items : list (Z * Json)) : Prop := StronglySorted (fun a b => a.1 < b.1) items.

Definition lookup_item (index : Z) (items : list (Z * Json)) : option Json :=
  snd <$> List.find (fun kv => kv.1 =? index) items.

Lemma put_item_bound (bound index : Z) item items :
  bound < index -> Forall (fun kv : Z * Json => bound < kv.1) items -> Forall (fun kv => bound < kv.1) (put_item index item items).
Proof.
  intros Hi. induction 1 as [|[i other] items Hh Hf IH]; cbn [put_item]; [by constructor|].
  destruct (index <? i); [by repeat constructor|]. destruct (i <? index); constructor; done.
Qed.

Lemma put_item_in_order index item items : in_order items -> in_order (put_item index item items).
Proof.
  unfold in_order. induction 1 as [|[i other] items Hs IH Hf]; cbn [put_item]; [by repeat constructor|].
  destruct (Z.ltb_spec index i).
  - constructor; [by constructor|]. constructor; [done|]. eapply Forall_impl; [done|]. cbn. intros [j o]. cbn. lia.
  - destruct (Z.ltb_spec i index); constructor; try done.
    + by apply put_item_bound.
    + assert (index = i) as -> by lia. done.
Qed.

Lemma lookup_put_item j index item items :
  in_order items -> lookup_item j (put_item index item items) = if index =? j then Some item else lookup_item j items.
Proof.
  unfold lookup_item. induction 1 as [|[i other] items Hs IH Hf]; cbn [put_item List.find fst].
  - by destruct (index =? j).
  - destruct (Z.ltb_spec index i); cbn [List.find fst].
    + destruct (Z.eqb_spec index j); [done|]. done.
    + destruct (Z.ltb_spec i index); cbn [List.find fst].
      * destruct (Z.eqb_spec i j); [by destruct (Z.eqb_spec index j); [lia|]|]. apply IH.
      * assert (index = i) as -> by lia. by destruct (i =? j).
Qed.

Lemma lookup_item_elem j item items : in_order items -> lookup_item j items = Some item <-> (j, item) ∈ items.
Proof.
  unfold lookup_item. induction 1 as [|[i other] items Hs IH Hf]; cbn [List.find fst].
  - split; [done|by intros ?%elem_of_nil].
  - rewrite elem_of_cons. destruct (Z.eqb_spec i j) as [->|Hne]; cbn.
    + split; [intros [= ->]; by left|]. intros [[= ->]|Hin]; [done|].
      eapply Forall_forall in Hf; [|exact Hin]. cbn in Hf. lia.
    + rewrite IH. split; [by right|]. intros [[= -> _]|Hin]; done.
Qed.

Lemma collect_pass event items :
  passes event ->
  collect_event items event =
    inl (match item_event event with Some (i, item) => put_item i item items | None => items end).
Proof.
  intros Hp. specialize (Hp items). revert Hp. unfold collect_event, item_event.
  destruct (read_object event) as [object|]; [|done]. cbn.
  destruct (string_at object _) as [type|]; [|done]. cbn.
  case_bool_decide as Et; [|destruct (is_item_type type)].
  - subst type. cbn. destruct (object !! _); [by intros [? ?]|]. done.
  - done.
  - destruct (negb _); [done|]. destruct (object_at object _); [by intros [? ?]|done].
Qed.

Lemma collect_passes events rest : forall items,
  in_order items -> Forall passes events ->
  exists items', in_order items' /\
    (forall index, lookup_item index items' = last_item index events (lookup_item index items)) /\
    collect_events items (events ++ rest) = collect_events items' rest.
Proof.
  induction events as [|event events IH]; intros items Ho Hp; [by exists items|].
  inversion Hp as [|? ? Hp1 Hp2]; subst. cbn [app collect_events last_item]. rewrite (collect_pass _ _ Hp1).
  destruct (item_event event) as [[i item]|].
  - destruct (IH (put_item i item items)) as (items' & Ho' & Hl & Hc); [by apply put_item_in_order|done|].
    exists items'. split; [done|]. split; [|done]. intros index. rewrite Hl. by rewrite lookup_put_item.
  - apply IH; done.
Qed.

(** The body collected from a stream is its response, with the output put
    together: when the final event leaves the output out, it becomes the items
    of the events before it, each index once with the item given last, in the
    order of the indices; an output that is there is kept, and so is every
    other field. *)
Theorem stream_body_collected events final rest object type response :
  Forall passes events ->
  read_object final = Some object -> string_at object $"type" = Some type -> ends_stream type = true ->
  object_at object $"response" = Some response ->
  exists items,
    in_order items /\ (forall index item, (index, item) ∈ items <-> last_item index events None = Some item) /\
    collect_response_body_from_stream_events (events ++ final :: rest) =
      write_json (JObject (if json_array_empty_or_missing response $"output" && negb (bool_decide (items = []))
                           then <[$"output" := JArray items.*2]> response else response)).
Proof.
  intros Hp Er Et Ef Eo. destruct (collect_passes events (final :: rest) []) as (items & Ho & Hl & Hc);
    [constructor|done|]. exists items. split; [done|]. split.
  { intros index item. rewrite <- lookup_item_elem by done. by rewrite Hl. }
  unfold collect_response_body_from_stream_events. rewrite Hc. cbn [collect_events]. unfold collect_event.
  rewrite Er, Et, Eo, Ef. cbn [negb]. unfold is_item_type, one_of.
  assert (type <> $"error" /\ type ∉ [$"response.output_item.added"; $"response.output_item.done"]) as [H1 H2].
  { unfold ends_stream, one_of in Ef. apply bool_decide_eq_true in Ef.
    rewrite !elem_of_cons in Ef. destruct Ef as [->|[->|[->|Hn%elem_of_nil]]]; [..|done]; by split; [|apply (bool_decide_unpack _); vm_compute]. }
  rewrite (bool_decide_false (type = _)), (bool_decide_false (type ∈ _)) by done. done.
Qed.

End collected.

(** ** A concrete stream *)

Definition item_event_object (index : Z) (name : bytes) : Json :=
  JObject (make_object [($"type", JString $"response.output_item.done"); ($"output_index", JNumber (of_int index));
                        ($"item", JObject {[$"name" := JString name]})]).

Definition final_event_object : JsonObject :=
  make_object [($"type", JString $"response.completed"); ($"response", JObject {[$"id" := JString $"r"]})].

(** Three events under one letter each; a document is written as its output. *)
Definition stream_codec : JsonCodec := {|
  read_json := fun s =>
    if bool_decide (s = $"a") then Some (item_event_object 1 $"second")
    else if bool_decide (s = $"b") then Some (item_event_object 0 $"first")
    else if bool_decide (s = $"c") then Some (JObject final_event_object) else None;
  write_json := fun j =>
    match j with
    | JObject o => match o !! $"output" with Some (JArray l) => Some (concat ((fun x => match x with
        | JObject m => default [] (string_at m $"name") ++ $";" | _ => [] end) <$> l)) | _ => Some [] end
    | _ => None
    end |}.

Lemma stream_body_collected_witness :
  @collect_response_body_from_stream_events stream_codec [$"a"; $"b"; $"c"] = Some $"first;second;" /\
  exists items, in_order items /\ ((0, JObject {[$"name" := JString $"first"]}) ∈ items).
Proof.
  destruct (@stream_body_collected stream_codec [$"a"; $"b"] $"c" [] final_event_object $"response.completed"
    {[$"id" := JString $"r"]}) as (items & Ho & Hi & _);
    [|reflexivity|vm_compute; reflexivity|vm_compute; reflexivity|vm_compute; reflexivity|].
  { repeat constructor; by eexists. }
  split; [vm_compute; reflexivity|]. exists items. split; [exact Ho|]. apply Hi. vm_compute. reflexivity.
Defined.
