(* ===== verification/Service.v ===== *)
(** * Service: a proxied request from its arrival to its answer

    src/native/proxy/src/proxy_service.cpp with the guard of continuations in
    proxy_service_helpers.cpp: an account is chosen, the plan is made and sent,
    and what the upstream answers decides whether the token is refreshed, the
    previous response is replaced or dropped, or another account takes over.

    The world is the routing state of [StickyAffinity], the bridge of
    [HttpBridge], which keeps its continuity in the same database, the cache of
    [Usage] and the counters of [AccountTraffic].  Every call into them meets
    its own clock, failures and answers: [at_call n] is the environment of the
    [n]-th.  What was granted, sent and captured is recorded in order. *)

From S2P Require Import Prelude Codec Text Double JsonValue Except Env Fernet TokenStore Headers ModelRegistry ErrorPolicy RequestPlan.
From S2P Require Import Sessions SessionRepo HttpBridge Accounts RoutingStore StickyAffinity ProxyServer.
From S2P Require Import Usage AccountTraffic ServiceHelpers.
Import Text.Ascii.

Abbreviation Credentials := UpstreamAccountCredentials.
Abbreviation Upstream := UpstreamExecutionResult.
Abbreviation Plan := UpstreamRequestPlan.

(** ** The world of the service *)

(** What one call into the world meets: the statements that run, the clocks,
    random values, the identity provider, the upstream, and the file system. *)
Record CallEnv := mkCallEnv {
  runs : DbStep -> bool;
  bridge_faults : faults;
  now_s : Z;
  now_ms : Z;
  pick_now_ms : Z;
  nonce : Z -> bytes;
  fresh_turn_state : bytes;
  refresh_access_token : bytes -> accounts_table -> bool * accounts_table;
  transport : bytes -> Plan -> Upstream;
  models_transfer : bytes -> list bytes -> option (Z * bytes);
  capture_steps : bool * bool * bool;
}.

(** An attempt: the account traffic is counted for, the plan, the answer, and
    how many credentials had been granted when it was made. *)
Record Attempt := mkAttempt { attempt_account : bytes; attempt_plan : Plan; attempt_result : Upstream; attempt_grants : nat }.

Record ServiceWorld := mkService {
  routing : World;
  bridge : BridgeState;
  usage : UsageState;
  traffic : TrafficState;
  tick : nat;
  granted : list Credentials;
  sent : list Attempt;
  emitted : list Emitted;
  captured : list (bytes * bytes);
}.

Definition set_routing (r : World) (w : ServiceWorld) : ServiceWorld :=
  mkService r (bridge w) (usage w) (traffic w) (tick w) (granted w) (sent w) (emitted w) (captured w).
Definition set_bridge_state (b : BridgeState) (w : ServiceWorld) : ServiceWorld :=
  mkService (routing w) b (usage w) (traffic w) (tick w) (granted w) (sent w) (emitted w) (captured w).
Definition set_traffic (t : TrafficState) (w : ServiceWorld) : ServiceWorld :=
  mkService (routing w) (bridge w) (usage w) t (tick w) (granted w) (sent w) (emitted w) (captured w).
Definition next_call (w : ServiceWorld) : ServiceWorld :=
  mkService (routing w) (bridge w) (usage w) (traffic w) (S (tick w)) (granted w) (sent w) (emitted w) (captured w).
Definition grant (c : Credentials) (w : ServiceWorld) : ServiceWorld :=
  mkService (routing w) (bridge w) (usage w) (traffic w) (tick w) (granted w ++ [c]) (sent w) (emitted w) (captured w).
Definition record_attempt (a : Attempt) (w : ServiceWorld) : ServiceWorld :=
  mkService (routing w) (bridge w) (usage w) (traffic w) (tick w) (granted w) (sent w ++ [a]) (emitted w) (captured w).
Definition record_emitted (es : list Emitted) (w : ServiceWorld) : ServiceWorld :=
  mkService (routing w) (bridge w) (usage w) (traffic w) (tick w) (granted w) (sent w) (emitted w ++ es) (captured w).
Definition record_capture (files : list (bytes * bytes)) (w : ServiceWorld) : ServiceWorld :=
  mkService (routing w) (bridge w) (usage w) (traffic w) (tick w) (granted w) (sent w) (emitted w) (captured w ++ files).

(** Computations on the world; an exception ends them with what was done. *)
Definition Service (A : Type) : Type := ServiceWorld -> except A * ServiceWorld.

#[global] Instance service_ret : MRet Service := fun A a w => (Ret a, w).
#[global] Instance service_bind : MBind Service :=
  fun A B f m w => match m w with (Ret a, w') => f a w' | (Throw what, w') => (Throw what, w') end.

Definition lift {A} (m : except A) : Service A := fun w => (m, w).
Definition modify (f : ServiceWorld -> ServiceWorld) : Service unit := fun w => (Ret (), f w).
Definition asks {A} (f : ServiceWorld -> A) : Service A := fun w => (Ret (f w), w).

(** ** Turns: what a request carries through its attempts *)

Record ContinuationRequestGuard := mkGuard {
  guard_body : bytes;
  guard_continuation : bool;
  guard_function_call_output : bool;
  preflight_rewritten : bool;
  preflight_stripped : bool;
  preferred_account_id : option bytes;
  continuity_account_id : option bytes;
}.

Record Turn := mkTurn {
  request_body : bytes;
  continuation_request : bool;
  contains_function_call_output : bool;
  sticky_reused : bool;
  turn_token : bytes;
  traffic_account_id : bytes;
  resolved_affinity : StickyAffinityResolution;
}.

(** The turn with its plan and the last answer. *)
Record Exchange := mkExchange { turn : Turn; plan : Plan; upstream : Upstream }.

Definition with_account (account : bytes) (r : StickyAffinityResolution) : StickyAffinityResolution :=
  mkResolution (resolution_sticky_key r) (resolution_sticky_kind r) account (request_model r) (from_header r)
    (from_persistence r).

Definition turn_account (t : Turn) : bytes := resolution_account_id (resolved_affinity t).

(** [apply_resolved_credentials] with credentials. *)
Definition apply_resolved_credentials (c : Credentials) (t : Turn) : Turn :=
  mkTurn (request_body t) (continuation_request t) (contains_function_call_output t) (sticky_reused t)
    (RoutingStore.access_token c) (if 0 <? internal_account_id c then to_string (internal_account_id c) else [])
    (with_account (RoutingStore.account_id c) (resolved_affinity t)).

(** After a refresh the account of the traffic stays when there is no other. *)
Definition apply_refreshed_credentials (c : Credentials) (t : Turn) : Turn :=
  mkTurn (request_body t) (continuation_request t) (contains_function_call_output t) (sticky_reused t)
    (RoutingStore.access_token c)
    (if 0 <? internal_account_id c then to_string (internal_account_id c) else traffic_account_id t)
    (with_account (RoutingStore.account_id c) (resolved_affinity t)).

(** The turn of a request without a previous response. *)
Definition dropped_continuation (body : bytes) (affinity : StickyAffinityResolution) (t : Turn) : Turn :=
  mkTurn body false false (from_persistence affinity) (turn_token t) (traffic_account_id t) affinity.

Section service.
Context {sodium : Sodium} {codec : JsonCodec}.
Context (env : environment) (strtod : bytes -> double * nat) (pow : double -> double -> double).
Context (from_chars : bytes -> option double) (config : Config) (crypto : TokenStorageCryptoState) (thread : Z).
Context (at_call : nat -> CallEnv).

(** *** Calls into the world *)

Definition on_routing {A} (f : CallEnv -> World -> A * World) : Service A :=
  fun w => let '(a, r) := f (at_call (tick w)) (routing w) in (Ret a, next_call (set_routing r w)).

Definition reading {A} (f : CallEnv -> except A) : Service A := fun w => (f (at_call (tick w)), next_call w).

(** The bridge persists into the database of the routing state. *)
Definition on_bridge {A} (f : CallEnv -> BridgeState -> A * BridgeState) : Service A :=
  fun w =>
    let db := database (routing w) in
    let '(a, b) := f (at_call (tick w)) (HttpBridge.set_continuity (RoutingStore.continuity db) (bridge w)) in
    (Ret a, next_call (set_routing (set_database (RoutingStore.set_continuity (HttpBridge.continuity b) db) (routing w))
                         (set_bridge_state b w))).

Definition granting (m : Service (option Credentials)) : Service (option Credentials) :=
  c ← m;
  match c with
  | Some c => _ ← modify (grant c); mret (Some c)
  | None => mret None
  end.

Definition resolve_affinity (body : bytes) (headers : HeaderMap) : Service StickyAffinityResolution :=
  on_routing (fun e => resolve_sticky_affinity (runs e) config body headers (now_ms e)).

Definition persist_affinity (affinity : StickyAffinityResolution) : Service unit :=
  on_routing (fun e r => (tt, persist_sticky_affinity (runs e) config affinity (now_ms e) r)).

Definition resolve_credentials (preferred model : bytes) (strict : bool) : Service (option Credentials) :=
  granting (on_routing (fun e =>
    resolve_upstream_account_credentials env strtod pow (runs e) crypto (nonce e) (now_s e) (now_ms e) (pick_now_ms e)
      preferred model strict)).

Definition refresh_credentials (account : bytes) : Service (option Credentials) :=
  granting (on_routing (fun e =>
    refresh_upstream_account_credentials (runs e) crypto (nonce e) (now_s e) (refresh_access_token e) account)).

Definition account_record_exists (account : bytes) : Service bool :=
  on_routing (fun e r => (upstream_account_record_exists (runs e) account r, r)).

(** *** guard_backend_codex_previous_response *)

Definition kBackendCodexRoute : bytes := $"/backend-api/codex/responses".

(** What a body says of its conversation. *)
Definition inspect_body (body : bytes) (bridged_headers : HeaderMap) : Service ContinuationRequestGuard :=
  let continuation := request_has_previous_response_id body in
  preferred ← on_bridge (fun e => resolve_preferred_account_id_from_previous_response body bridged_headers
                                    (bridge_faults e) (now_ms e));
  continuity ← (if continuation
                then on_bridge (fun e => resolve_continuity_account_id bridged_headers (bridge_faults e) (now_ms e))
                else mret None : Service (option bytes));
  mret (mkGuard body continuation (continuation && request_contains_function_call_output body) false false
          preferred continuity).

Definition replace_from_bridge (body : bytes) (bridged_headers : HeaderMap) : Service (option bytes) :=
  on_bridge (fun e => replace_previous_response_id_from_bridge body bridged_headers (bridge_faults e) (now_ms e)).

Definition guard_backend_codex_previous_response (route raw_request_body : bytes) (bridged_headers : HeaderMap)
    (affinity : StickyAffinityResolution) : Service ContinuationRequestGuard :=
  guard ← inspect_body raw_request_body bridged_headers;
  if negb (bool_decide (route = kBackendCodexRoute)) || negb (guard_continuation guard) then mret guard
  else
    rewritten ← replace_from_bridge (guard_body guard) bridged_headers;
    guard ← (match rewritten with
             | Some body =>
                 g ← inspect_body body bridged_headers;
                 mret (mkGuard body (guard_continuation g) (guard_function_call_output g) true false
                         (preferred_account_id g) (continuity_account_id g))
             | None => mret guard
             end : Service ContinuationRequestGuard);
    let has_account_context := optional_string_has_value (preferred_account_id guard) ||
                               optional_string_has_value (continuity_account_id guard) || from_header affinity in
    if has_account_context || guard_function_call_output guard then mret guard
    else match strip_previous_response_id (guard_body guard) with
         | Some stripped => mret (mkGuard stripped false false (preflight_rewritten guard) true None None)
         | None => mret guard
         end.

(** *** Captured payloads *)

(** [operator/] of [std::filesystem::path]. *)
Definition path_join (dir file : bytes) : bytes :=
  match last dir with
  | Some ch => if bool_decide (ch = Byte.x2f) then dir ++ file else dir ++ $"/" ++ file
  | None => file
  end.

Definition capture_meta (route raw_request_body : bytes) (inbound_headers : HeaderMap) (parser_error : bytes) : bytes :=
  let line (key value : bytes) := key ++ $": " ++ value ++ [Byte.x0a] in
  line $"route" route ++ line $"body_bytes" (to_string (size_of raw_request_body)) ++ line $"parser_error" parser_error ++
  $"headers:" ++ [Byte.x0a] ++ concat ((fun kv => $"  " ++ line kv.1 kv.2) <$> inbound_headers).

(** Whether the directory can be made, the payload written, and the file of
    metadata opened, is the environment's. *)
Definition capture_invalid_payload_snapshot (route raw_request_body : bytes) (inbound_headers : HeaderMap)
    (parser_error : bytes) : Service (option bytes) :=
  fun w =>
    let e := at_call (tick w) in
    let '(directory_made, payload_written, meta_opened) := capture_steps e in
    let dir := default $"/tmp/tightrope-invalid-payloads" (getenv_nonempty env $"TIGHTROPE_INVALID_PAYLOAD_CAPTURE_DIR") in
    let file_stem := to_string (now_ms e) ++ $"_" ++ sanitize_route_for_filename route in
    let payload_path := path_join dir (file_stem ++ $".payload.bin") in
    let meta_path := path_join dir (file_stem ++ $".meta.txt") in
    let payload := (payload_path, raw_request_body) in
    let meta := (meta_path, capture_meta route raw_request_body inbound_headers parser_error) in
    if negb directory_made || negb payload_written then (Ret None, next_call w)
    else if negb meta_opened then (Ret None, next_call (record_capture [payload] w))
    else (Ret (Some payload_path), next_call (record_capture [payload; meta] w)).

(** *** Sending *)

(** [execute_upstream_plan]: the transport counts traffic for the account of
    the thread. *)
Definition execute_upstream_plan (p : Plan) (w : ServiceWorld) : Upstream * ServiceWorld :=
  let account := current_account_traffic_context_account_id thread (traffic w) in
  let u := transport (at_call (tick w)) account p in
  (u, next_call (record_attempt (mkAttempt account p u (length (granted w))) w)).

(** [ScopedAccountTrafficContext] around a computation. *)
Definition in_traffic_scope {A} (account : bytes) (m : Service A) : Service A :=
  fun w =>
    let previous := current_account_traffic_context_account_id thread (traffic w) in
    let '(a, w') := m (set_traffic (set_context thread account (traffic w)) w) in
    (a, set_traffic (set_context thread previous (traffic w')) w').

(** One pass per allowed attempt is fuel enough ([execute_returns]). *)
Definition execute_with_budget (budget : Z) (should_retry : Upstream -> bool) (p : Plan) : Service Upstream :=
  fun w =>
    match execute_upstream_with_retry_budget execute_upstream_plan (S (Z.to_nat budget)) p budget should_retry w with
    | Some (u, w', es) => (Ret u, record_emitted es w')
    | None => (Throw $"the retry loop did not end", w)
    end.

Definition execute_stream (t : Turn) (p : Plan) : Service Upstream :=
  in_traffic_scope (traffic_account_id t) (execute_with_budget kStreamRetryBudget should_retry_stream_result_with_incomplete p).

Definition execute_compact (t : Turn) (p : Plan) : Service Upstream :=
  in_traffic_scope (traffic_account_id t) (execute_with_budget kCompactRetryBudget should_retry_compact_result p).

Definition execute_once (t : Turn) (p : Plan) : Service Upstream :=
  in_traffic_scope (traffic_account_id t)
    (fun w => let '(u, w') := execute_upstream_plan p w in (Ret (set_error_code u (resolved_upstream_error_code u)), w')).

(** *** What an answer says of its account *)

Definition handle_deactivated_401_if_present (u : Upstream) (account : bytes) : Service bool :=
  if is_empty account || negb (upstream_401_body_indicates_deactivated_account u) then mret false
  else
    _ ← on_routing (fun e => mark_upstream_account_unusable (runs e) config account (now_s e));
    mret true.

(** In an active lock pool a server error also exhausts the account. *)
Definition lock_pool_status (u : Upstream) (account : bytes) : Service (option bytes) :=
  if negb (500 <=? ErrorPolicy.status u) then mret None
  else
    locked ← on_routing (fun e => account_is_in_active_lock_pool (runs e) config account);
    let normalized_code := normalize_upstream_error_code (resolved_upstream_error_code u) [] in
    mret (if locked && one_of normalized_code [$"upstream_unavailable"; $"upstream_error"; $"server_error"]
          then Some $"rate_limited" else None).

Definition handle_exhausted_account_if_present (u : Upstream) (account : bytes) : Service bool :=
  if is_empty account then mret false
  else
    exhausted_status ← (match exhausted_account_status_from_upstream u with
                        | Some s => mret (Some s)
                        | None => lock_pool_status u account
                        end : Service (option bytes));
    match exhausted_status with
    | None => mret false
    | Some s => _ ← on_routing (fun e => mark_upstream_account_exhausted (runs e) config account s (now_s e)); mret true
    end.

(** *** Choosing the account of a request *)

Definition fallback_body_with_local_context (body : bytes) (headers : HeaderMap)
    (continuation contains_output : bool) : Service (option bytes) :=
  if negb continuation then mret (Some body)
  else if contains_output then mret None
  else
    recovered ← on_bridge (fun e => rebuild_request_body_with_local_context body headers (bridge_faults e) (now_ms e));
    mret (match recovered with
          | Some recovered => Some recovered
          | None => fallback_body_without_previous_response body continuation contains_output
          end).

Definition credential_preference (guard : ContinuationRequestGuard) (affinity : StickyAffinityResolution) : bytes :=
  match preferred_account_id guard, continuity_account_id guard with
  | Some ((_ :: _) as account), _ => account
  | _, Some ((_ :: _) as account) => account
  | _, _ => if negb (guard_continuation guard) || negb (is_empty (resolution_account_id affinity))
            then resolution_account_id affinity else []
  end.

Definition first_turn (guard : ContinuationRequestGuard) (affinity : StickyAffinityResolution) : Turn :=
  mkTurn (guard_body guard) (guard_continuation guard) (guard_function_call_output guard)
    (from_persistence affinity ||
     guard_continuation guard && (optional_string_has_value (preferred_account_id guard) ||
                                  optional_string_has_value (continuity_account_id guard)))
    [] [] affinity.

(** No account for a strict preference: the conversation is dropped when its
    context can be given up, and any account serves. *)
Definition without_preferred (bridged_headers : HeaderMap) (affinity : StickyAffinityResolution) (t : Turn) : Service Turn :=
  stripped ← (if from_header affinity then mret None
              else fallback_body_with_local_context (request_body t) bridged_headers (continuation_request t)
                     (contains_function_call_output t) : Service (option bytes));
  match stripped with
  | None => mret t
  | Some body =>
      let t := dropped_continuation body affinity t in
      credentials ← resolve_credentials [] (request_model affinity) false;
      mret (match credentials with Some c => apply_resolved_credentials c t | None => t end)
  end.

(** The turn, and whether the account it has to go to is known but cannot
    serve it. *)
Definition open_turn (bridged_headers : HeaderMap) (guard : ContinuationRequestGuard)
    (affinity : StickyAffinityResolution) : Service (Turn * bool) :=
  let preference := credential_preference guard affinity in
  let strict := guard_continuation guard && negb (is_empty preference) in
  known ← (if strict then account_record_exists preference else mret false : Service bool);
  let t := first_turn guard affinity in
  credentials ← resolve_credentials preference (request_model affinity) strict;
  t ← (match credentials with
       | Some c => mret (apply_resolved_credentials c t)
       | None => if strict then without_preferred bridged_headers affinity t else mret t
       end : Service Turn);
  mret (t, known && is_empty (turn_token t)).

(** *** The phases after the first answer

    [build body access_token account_id] makes a plan; [execute] sends it. *)

Section phases.
Context (build : bytes -> bytes -> bytes -> except Plan) (execute : Turn -> Plan -> Service Upstream).

Definition plan_of (t : Turn) (body : bytes) : except Plan := build body (turn_token t) (turn_account t).

Definition with_upstream (u : Upstream) (x : Exchange) : Exchange := mkExchange (turn x) (plan x) u.

Definition first_exchange (t : Turn) (p : Plan) : Service Exchange :=
  _ ← persist_affinity (resolved_affinity t);
  u ← execute t p;
  mret (mkExchange t p u).

(** A rejected token is refreshed once, unless the account is gone. *)
Definition refresh_rejected_token (x : Exchange) : Service Exchange :=
  if negb (ErrorPolicy.status (upstream x) =? 401) || is_empty (turn_account (turn x)) then mret x
  else
    deactivated ← handle_deactivated_401_if_present (upstream x) (turn_account (turn x));
    if (deactivated : bool) then mret x
    else
      refreshed ← refresh_credentials (turn_account (turn x));
      match refreshed with
      | None => mret x
      | Some c =>
          let t := apply_refreshed_credentials c (turn x) in
          match plan_of t (request_body t) with
          | Throw _ => mret (mkExchange t (plan x) (upstream x))
          | Ret p =>
              u ← execute t p;
              _ ← handle_deactivated_401_if_present u (turn_account t);
              mret (mkExchange t p u)
          end
      end.

(** Tool outputs cannot do without their conversation: the bridge may know a
    newer response to continue. *)
Definition retry_with_bridge_rewrite (backend_codex_route : bool) (bridged_headers : HeaderMap) (x : Exchange) :
    Service Exchange :=
  let t := turn x in
  if negb (should_retry_previous_response_with_bridge_rewrite backend_codex_route (continuation_request t)
             (contains_function_call_output t) (upstream x)) then mret x
  else
    rewritten ← replace_from_bridge (request_body t) bridged_headers;
    match rewritten with
    | None => mret x
    | Some body =>
        match plan_of t body with
        | Throw _ => mret x
        | Ret p => u ← execute t p; mret (mkExchange t p u)
        end
    end.

(** The turn with another body, and what that body says of its
    conversation. *)
Definition with_body (body : bytes) (t : Turn) : Turn :=
  let continuation := request_has_previous_response_id body in
  mkTurn body continuation (continuation && request_contains_function_call_output body) (sticky_reused t)
    (turn_token t) (traffic_account_id t) (resolved_affinity t).

(** Anything else goes on without the response the upstream forgot. *)
Definition retry_without_previous_response (bridged_headers : HeaderMap) (x : Exchange) : Service Exchange :=
  let t := turn x in
  if negb (should_retry_previous_response_not_found (continuation_request t) (contains_function_call_output t)
             (upstream x)) then mret x
  else
    stripped ← fallback_body_with_local_context (request_body t) bridged_headers (continuation_request t)
                 (contains_function_call_output t);
    match stripped with
    | None => mret x
    | Some body =>
        match plan_of t body with
        | Throw _ => mret x
        | Ret p => let t := with_body body t in u ← execute t p; mret (mkExchange t p u)
        end
    end.

(** An exhausted account is marked, and another one takes the request over
    when it can. *)
Definition fail_over (bridged_headers : HeaderMap) (affinity : StickyAffinityResolution) (x : Exchange) : Service Exchange :=
  let t := turn x in
  marked_exhausted ← handle_exhausted_account_if_present (upstream x) (turn_account t);
  if negb marked_exhausted || from_header affinity then mret x
  else
    failover_body ← fallback_body_with_local_context (request_body t) bridged_headers (continuation_request t)
                      (contains_function_call_output t);
    match failover_body with
    | None => mret x
    | Some body =>
        credentials ← resolve_credentials [] (request_model affinity) false;
        match credentials with
        | None => mret x
        | Some c =>
            let failover := apply_resolved_credentials c
              (mkTurn (request_body t) (continuation_request t) (contains_function_call_output t) (sticky_reused t)
                 [] [] affinity) in
            match plan_of failover body with
            | Throw _ => mret x
            | Ret p =>
                let t := with_body body failover in
                _ ← persist_affinity (resolved_affinity t);
                u ← execute t p;
                _ ← handle_exhausted_account_if_present u (turn_account t);
                mret (mkExchange t p u)
            end
        end
    end.

(** The phases in their order. *)
Definition exchange_responses (backend_codex_route : bool) (bridged_headers : HeaderMap)
    (affinity : StickyAffinityResolution) (t : Turn) (p : Plan) : Service Exchange :=
  x ← first_exchange t p;
  x ← refresh_rejected_token x;
  x ← retry_with_bridge_rewrite backend_codex_route bridged_headers x;
  x ← retry_without_previous_response bridged_headers x;
  fail_over bridged_headers affinity x.

(** Requests that belong to no conversation have two of them. *)
Definition exchange_unary (t : Turn) (p : Plan) : Service Exchange :=
  x ← first_exchange t p;
  x ← refresh_rejected_token x;
  _ ← handle_exhausted_account_if_present (upstream x) (turn_account (turn x));
  mret x.

End phases.

(** *** Answers *)

Definition route_not_found : bytes := build_error_envelope $"not_found" $"Route not found" $"invalid_request_error" [].

Definition invalid_payload : bytes :=
  build_error_envelope $"invalid_request_error" $"Invalid request payload" $"invalid_request_error" $"input".

Definition not_found_result : ProxyJsonResult := mkJsonResult 404 route_not_found [] false.
Definition invalid_payload_result : ProxyJsonResult := mkJsonResult 400 invalid_payload [] false.

Definition response_headers (account : bytes) (u : Upstream) : Service HeaderMap :=
  asks (fun w => build_downstream_response_headers from_chars account (ErrorPolicy.headers u) (usage w)).

(** The code, the message and the type of an error. *)
Definition error_fields (u : Upstream) : bytes * bytes * bytes * bytes :=
  let details := extract_upstream_error_details u in
  let error_code := if is_empty (ErrorPolicy.code details) then $"upstream_error" else ErrorPolicy.code details in
  let message := if is_empty (ErrorPolicy.message details) then default_error_message_for_code error_code
                 else ErrorPolicy.message details in
  (error_code, message, resolve_error_type details error_code, ErrorPolicy.param details).

Definition error_result (u : Upstream) (headers : HeaderMap) (sticky : bool) : ProxyJsonResult :=
  let '(error_code, message, error_type, param) := error_fields u in
  mkJsonResult (ErrorPolicy.status u)
    (if is_empty (ErrorPolicy.body u) then build_error_envelope error_code message error_type param
     else ErrorPolicy.body u) headers sticky.

Definition incomplete_result (headers : HeaderMap) (sticky : bool) : ProxyJsonResult :=
  mkJsonResult 502 (build_error_envelope $"upstream_incomplete" $"Upstream response was incomplete" $"server_error" [])
    headers sticky.

(** *** collect_responses_json *)

(** Headers, affinity and turn of a request for a response. *)
Definition begin_responses (route raw_request_body : bytes) (inbound_headers : HeaderMap) :
    Service (HeaderMap * StickyAffinityResolution * (Turn * bool)) :=
  bridged_headers ← reading (fun e => Ret (ensure_turn_state_header (fresh_turn_state e) inbound_headers).2);
  affinity ← resolve_affinity raw_request_body bridged_headers;
  guard ← guard_backend_codex_previous_response route raw_request_body bridged_headers affinity;
  opened ← open_turn bridged_headers guard affinity;
  mret (bridged_headers, affinity, opened).

Definition http_plan (bridged_headers : HeaderMap) (body access_token account_id : bytes) : except Plan :=
  build_responses_http_request_plan body bridged_headers access_token account_id [].

Definition answer_responses_json (bridged_headers : HeaderMap) (sticky : bool) (x : Exchange) : Service ProxyJsonResult :=
  let u := upstream x in
  let account := turn_account (turn x) in
  headers ← response_headers account u;
  if 400 <=? ErrorPolicy.status u then mret (error_result u headers sticky)
  else if negb (is_empty (ErrorPolicy.body u)) then
    _ ← on_bridge (fun e b => (tt, remember_request_and_response_id_from_json bridged_headers (RequestPlan.body (plan x))
                                     (ErrorPolicy.body u) account (bridge_faults e) (now_ms e) b));
    mret (mkJsonResult (ErrorPolicy.status u) (ErrorPolicy.body u) headers sticky)
  else if bool_decide (ErrorPolicy.events u = []) then mret (incomplete_result headers sticky)
  else
    _ ← on_bridge (fun e b => (tt, remember_request_and_response_id_from_events bridged_headers (RequestPlan.body (plan x))
                                     (ErrorPolicy.events u) account (bridge_faults e) (now_ms e) b));
    mret (match collect_response_body_from_stream_events (ErrorPolicy.events u) with
          | Some collected => mkJsonResult (ErrorPolicy.status u) collected headers sticky
          | None => incomplete_result headers sticky
          end).

Definition unavailable_result (sticky : bool) : ProxyJsonResult :=
  mkJsonResult 409 (build_error_envelope $"previous_response_account_unavailable"
    $"Previous response account is unavailable" $"invalid_request_error" $"previous_response_id") [] sticky.

Definition collect_responses_json (route raw_request_body : bytes) (inbound_headers : HeaderMap) : Service ProxyJsonResult :=
  if negb (is_supported_responses_route route) then mret not_found_result
  else
    begun ← begin_responses route raw_request_body inbound_headers;
    let '(bridged_headers, affinity, (t, unavailable)) := begun in
    if (unavailable : bool) then mret (unavailable_result (sticky_reused t))
    else match http_plan bridged_headers (request_body t) (turn_token t) (turn_account t) with
         | Throw what =>
             _ ← capture_invalid_payload_snapshot route (request_body t) inbound_headers what;
             mret invalid_payload_result
         | Ret p =>
             x ← exchange_responses (http_plan bridged_headers) execute_stream
                   (bool_decide (route = kBackendCodexRoute)) bridged_headers affinity t p;
             answer_responses_json bridged_headers (sticky_reused t) x
         end.

(** *** stream_responses_sse *)

Definition sse_failure (status : Z) (code message type param : bytes) (headers : HeaderMap) (sticky : bool) :
    Service ProxySseResult :=
  events ← reading (fun e => build_responses_sse_failure (now_s e) code message type param);
  mret (mkSseResult status events headers sticky).

(** The plan keeps the upstream's websocket on the native route, and carries
    the turn state. *)
Definition finish_stream_plan (backend_codex_route : bool) (bridged_headers : HeaderMap) (p : Plan) : Plan :=
  mkUpstreamRequestPlan (method p) (path p) (RequestPlan.transport p) (RequestPlan.body p)
    (match hm_find $"x-codex-turn-state" bridged_headers with
     | Some ((_ :: _) as turn_state) => hm_assign $"x-codex-turn-state" turn_state (RequestPlan.headers p)
     | _ => RequestPlan.headers p
     end)
    (websocket_binary_payload p) (backend_codex_route && bool_decide (RequestPlan.transport p = $"websocket")).

Definition stream_plan (backend_codex_route : bool) (upstream_stream_transport : bytes) (bridged_headers : HeaderMap)
    (body access_token account_id : bytes) : except Plan :=
  p ← build_responses_stream_request_plan body bridged_headers access_token account_id build_default_model_registry
        upstream_stream_transport [] [];
  Ret (finish_stream_plan backend_codex_route bridged_headers p).

(** The phases of a streamed response. *)
Definition exchange_responses_sse (backend_codex_route : bool) (upstream_stream_transport : bytes)
    (bridged_headers : HeaderMap) (affinity : StickyAffinityResolution) (t : Turn) (p : Plan) : Service Exchange :=
  exchange_responses (stream_plan backend_codex_route upstream_stream_transport bridged_headers) execute_stream
    backend_codex_route bridged_headers affinity t p.

Definition answer_responses_sse (bridged_headers : HeaderMap) (sticky : bool) (x : Exchange) : Service ProxySseResult :=
  let u := upstream x in
  let account := turn_account (turn x) in
  headers ← response_headers account u;
  if 400 <=? ErrorPolicy.status u then
    let '(error_code, message, error_type, param) := error_fields u in
    sse_failure (ErrorPolicy.status u) error_code message error_type param headers sticky
  else if bool_decide (ErrorPolicy.events u = []) then
    sse_failure 502 $"stream_incomplete" $"Upstream stream was incomplete" $"server_error" [] headers sticky
  else
    _ ← on_bridge (fun e b => (tt, remember_request_and_response_id_from_events bridged_headers (RequestPlan.body (plan x))
                                     (ErrorPolicy.events u) account (bridge_faults e) (now_ms e) b));
    mret (mkSseResult (if ErrorPolicy.status u =? 101 then 200 else ErrorPolicy.status u) (ErrorPolicy.events u) headers
            sticky).

Definition stream_responses_sse (route raw_request_body : bytes) (inbound_headers : HeaderMap) : Service ProxySseResult :=
  if negb (is_supported_responses_route route)
  then sse_failure 404 $"not_found" $"Route not found" $"invalid_request_error" [] [] false
  else
    begun ← begin_responses route raw_request_body inbound_headers;
    let '(bridged_headers, affinity, (t, unavailable)) := begun in
    if (unavailable : bool)
    then sse_failure 409 $"previous_response_account_unavailable" $"Previous response account is unavailable"
           $"invalid_request_error" $"previous_response_id" [] (sticky_reused t)
    else
      upstream_stream_transport ← on_routing (fun e => resolve_upstream_stream_transport_setting (runs e) config);
      let backend_codex_route := bool_decide (route = kBackendCodexRoute) in
      match stream_plan backend_codex_route upstream_stream_transport bridged_headers (request_body t) (turn_token t)
              (turn_account t) with
      | Throw what =>
          _ ← capture_invalid_payload_snapshot route (request_body t) inbound_headers what;
          sse_failure 400 $"invalid_request_error" $"Invalid request payload" $"invalid_request_error" $"input" [] false
      | Ret p =>
          x ← exchange_responses_sse backend_codex_route upstream_stream_transport bridged_headers affinity t p;
          answer_responses_sse bridged_headers (sticky_reused t) x
      end.

(** *** Requests that belong to no conversation *)

(** The turn of a request that only looks for its account. *)
Definition open_unary (body model : bytes) (affinity : StickyAffinityResolution) : Service Turn :=
  let t := mkTurn body false false (from_persistence affinity) [] [] affinity in
  credentials ← resolve_credentials (resolution_account_id affinity) model false;
  mret (match credentials with Some c => apply_resolved_credentials c t | None => t end).

Definition compact_plan (inbound_headers : HeaderMap) (body access_token account_id : bytes) : except Plan :=
  build_compact_http_request_plan body inbound_headers access_token account_id [].

Definition answer_compact (sticky : bool) (x : Exchange) : Service ProxyJsonResult :=
  let u := upstream x in
  headers ← response_headers (turn_account (turn x)) u;
  if 400 <=? ErrorPolicy.status u
  then mret (mkJsonResult (ErrorPolicy.status u)
               (build_compact_error_body_from_upstream u (resolved_upstream_error_code u)) headers sticky)
  else
    let invalid message := mkJsonResult 502 (build_error_envelope $"upstream_error" message $"server_error" []) headers sticky in
    mret (match validate_compact_success_payload (ErrorPolicy.body u) with
          | NoError => mkJsonResult (ErrorPolicy.status u) (ErrorPolicy.body u) headers sticky
          | InvalidJson => invalid $"Invalid JSON from upstream"
          | UnexpectedPayload => invalid $"Unexpected upstream payload"
          end).

Definition collect_responses_compact (route raw_request_body : bytes) (inbound_headers : HeaderMap) : Service ProxyJsonResult :=
  if negb (is_supported_compact_route route) then mret not_found_result
  else
    affinity ← resolve_affinity raw_request_body inbound_headers;
    t ← open_unary raw_request_body (request_model affinity) affinity;
    match compact_plan inbound_headers raw_request_body (turn_token t) (turn_account t) with
    | Throw what =>
        _ ← capture_invalid_payload_snapshot route raw_request_body inbound_headers what;
        mret invalid_payload_result
    | Ret p =>
        x ← exchange_unary (compact_plan inbound_headers) execute_compact t p;
        answer_compact (from_persistence affinity) x
    end.

Definition memories_plan (inbound_headers : HeaderMap) (body access_token account_id : bytes) : except Plan :=
  build_memories_trace_summarize_http_request_plan body inbound_headers access_token account_id [].

(** The answer of a request that is not streamed. *)
Definition answer_plain (sticky : bool) (x : Exchange) : Service ProxyJsonResult :=
  let u := upstream x in
  headers ← response_headers (turn_account (turn x)) u;
  mret (if 400 <=? ErrorPolicy.status u then error_result u headers sticky
        else if is_empty (ErrorPolicy.body u) then incomplete_result headers sticky
        else mkJsonResult (ErrorPolicy.status u) (ErrorPolicy.body u) headers sticky).

Definition collect_memories_trace_summarize (route raw_request_body : bytes) (inbound_headers : HeaderMap) :
    Service ProxyJsonResult :=
  if negb (is_supported_memories_route route) then mret not_found_result
  else
    affinity ← resolve_affinity [] inbound_headers;
    t ← open_unary raw_request_body [] affinity;
    match memories_plan inbound_headers raw_request_body (turn_token t) (turn_account t) with
    | Throw what =>
        _ ← capture_invalid_payload_snapshot route raw_request_body inbound_headers what;
        mret invalid_payload_result
    | Ret p =>
        x ← exchange_unary (memories_plan inbound_headers) execute_compact t p;
        answer_plain (from_persistence affinity) x
    end.

Definition collect_models (route : bytes) (policy : ModelListPolicy) (inbound_headers : HeaderMap) : Service ProxyJsonResult :=
  if negb (is_supported_models_route route) then mret not_found_result
  else
    affinity ← resolve_affinity [] inbound_headers;
    credentials ← resolve_credentials (resolution_account_id affinity) [] false;
    let '(model_headers, usage_account_id) :=
      match credentials with
      | Some c => (hm_assign $"chatgpt-account-id" (RoutingStore.account_id c)
                     (hm_assign $"authorization" ($"Bearer " ++ RoutingStore.access_token c) inbound_headers),
                   RoutingStore.account_id c)
      | None => (inbound_headers, resolution_account_id affinity)
      end in
    headers ← asks (fun w => build_codex_usage_headers_for_account from_chars usage_account_id (usage w));
    upstream_registry ← reading (fun e => Ret (build_model_registry_from_upstream (models_transfer e) env model_headers));
    let registry := apply_model_list_policy upstream_registry policy in
    body ← lift (if one_of route [$"/api/models"; $"/backend-api/codex/models"] then build_dashboard_models_payload registry
                 else build_public_models_payload registry);
    mret (mkJsonResult 200 body headers false).

(** *** collect_transcribe *)

Definition transcribe_plan (prompt audio_bytes : bytes) (inbound_headers : HeaderMap) (access_token account_id : bytes) :
    except Plan :=
  build_transcribe_http_request_plan prompt $"audio.wav" $"application/octet-stream" audio_bytes inbound_headers
    access_token account_id.

(** The refresh of [collect_transcribe]: an exception of the new plan ends
    the request. *)
Definition refresh_transcription (prompt audio_bytes : bytes) (inbound_headers : HeaderMap) (x : Exchange) : Service Exchange :=
  if negb (ErrorPolicy.status (upstream x) =? 401) || is_empty (turn_account (turn x)) then mret x
  else
    deactivated ← handle_deactivated_401_if_present (upstream x) (turn_account (turn x));
    if (deactivated : bool) then mret x
    else
      refreshed ← refresh_credentials (turn_account (turn x));
      match refreshed with
      | None => mret x
      | Some c =>
          let t := apply_refreshed_credentials c (turn x) in
          p ← lift (transcribe_plan prompt audio_bytes inbound_headers (turn_token t) (turn_account t));
          u ← execute_once t p;
          _ ← handle_deactivated_401_if_present u (turn_account t);
          mret (mkExchange t p u)
      end.

Definition collect_transcribe (route model prompt audio_bytes : bytes) (inbound_headers : HeaderMap) :
    Service ProxyJsonResult :=
  if negb (is_supported_transcribe_route route) then mret not_found_result
  else if bool_decide (route = $"/v1/audio/transcriptions") && negb (bool_decide (model = ServiceHelpers.kTranscriptionModel))
  then
    body ← lift (build_invalid_transcription_model_error model);
    mret (mkJsonResult 400 body [] false)
  else if is_empty audio_bytes
  then mret (mkJsonResult 400 (build_error_envelope $"invalid_request_error" $"Audio file is required"
                                 $"invalid_request_error" []) [] false)
  else
    affinity ← resolve_affinity [] inbound_headers;
    t ← open_unary [] model affinity;
    p ← lift (transcribe_plan prompt audio_bytes inbound_headers (turn_token t) (turn_account t));
    u ← execute_once t p;
    x ← refresh_transcription prompt audio_bytes inbound_headers (mkExchange t p u);
    _ ← handle_exhausted_account_if_present (upstream x) (turn_account (turn x));
    answer_plain false x.

End service.
