(* ===== verification/ServiceLaws.v ===== *)
(** * ServiceLaws: what a proxied request may send, and how often

    Theorems about the flows of [Service]: the attempts made for a request are
    bounded and end with an answer, each carries the credentials of one granted
    account, and a request that hands in tool outputs is never sent without the
    conversation they belong to. *)

From S2P Require Import Prelude Codec Text Double JsonValue Except Env Fernet TokenStore Headers ModelRegistry ErrorPolicy RequestPlan.
From S2P Require Import Sessions SessionRepo HttpBridge Accounts RoutingStore StickyAffinity Routing ProxyServer.
From S2P Require Import Usage AccountTraffic ServiceHelpers Service.

(** ** Outcomes of computations *)

Definition wp {A} (m : Service A) (w : ServiceWorld) (Q : A -> ServiceWorld -> Prop) (E : ServiceWorld -> Prop) : Prop :=
  match m w with (Ret a, w') => Q a w' | (Throw _, w') => E w' end.

Lemma wp_ret {A} (a : A) w (Q : A -> ServiceWorld -> Prop) E : Q a w -> wp (mret a) w Q E.
Proof. done. Qed.

Lemma wp_bind {A B} (m : Service A) (f : A -> Service B) w Q E :
  wp m w (fun a w' => wp (f a) w' Q E) E -> wp (m ≫= f) w Q E.
Proof. unfold wp, mbind, service_bind. by destruct (m w) as [[a|what] w']. Qed.

Lemma wp_mono {A} (m : Service A) w (Q Q' : A -> ServiceWorld -> Prop) (E E' : ServiceWorld -> Prop) :
  wp m w Q E -> (forall a w', Q a w' -> Q' a w') -> (forall w', E w' -> E' w') -> wp m w Q' E'.
Proof. unfold wp. destruct (m w) as [[a|what] w']; auto. Qed.

(** ** Routing keeps the continuity rows, or purges some *)

Definition rows_of (r : World) : Continuity.table := RoutingStore.continuity (database r).

Section continuity.
Context {sodium : Sodium} {codec : JsonCodec}.
Context (env : environment) (strtod : bytes -> double * nat) (pow : double -> double -> double) (config : Config).
Context (runs : DbStep -> bool).

Lemma with_db_rows r : rows_of (with_db runs config r).2 = rows_of r.
Proof. unfold rows_of. by rewrite with_db_database. Qed.

Lemma maybe_purge_rows now r : rows_of (maybe_purge_expired runs now r) = rows_of r.
Proof. unfold maybe_purge_expired. by repeat case_match. Qed.

Lemma resolve_affinity_rows body headers now r : rows_of (resolve_sticky_affinity runs config body headers now r).2 = rows_of r.
Proof.
  unfold resolve_sticky_affinity. destruct (_ || _); [done|]. pose proof (with_db_rows r) as Hd.
  destruct (with_db runs config r) as [opened r']. cbn [snd] in Hd. destruct (_ || _); [done|].
  pose proof (maybe_purge_rows now r'). case_match; cbn [snd]; congruence.
Qed.

Lemma persist_affinity_rows resolution now r : rows_of (persist_sticky_affinity runs config resolution now r) = rows_of r.
Proof.
  unfold persist_sticky_affinity. destruct (_ || _); [done|]. pose proof (with_db_rows r) as Hd.
  destruct (with_db runs config r) as [opened r']. cbn [snd] in Hd. destruct (_ || _); [done|].
  by rewrite maybe_purge_rows.
Qed.

Lemma transport_rows r : rows_of (resolve_upstream_stream_transport_setting runs config r).2 = rows_of r.
Proof.
  unfold resolve_upstream_stream_transport_setting. pose proof (with_db_rows r) as Hd.
  destruct (with_db runs config r) as [[] r']; done.
Qed.

Lemma lock_pool_rows account r : rows_of (account_is_in_active_lock_pool runs config account r).2 = rows_of r.
Proof.
  unfold account_is_in_active_lock_pool. case_bool_decide; [done|]. pose proof (with_db_rows r) as Hd.
  destruct (with_db runs config r) as [[] r']; done.
Qed.

Lemma on_table_rows {A} (f : accounts_table -> A * accounts_table) r : rows_of (on_table f r).2 = rows_of r.
Proof. unfold on_table. by destruct (f _). Qed.

Lemma purge_rows ok account t : (Continuity.purge_proxy_response_continuity_for_account ok account t).2 ⊆ t.
Proof.
  unfold Continuity.purge_proxy_response_continuity_for_account. case_match; [done|]. intros x. apply list_elem_of_filter.
Qed.

Lemma mark_account_rows mark signal now account r : rows_of (mark_account runs config mark signal now account r).2 ⊆ rows_of r.
Proof.
  unfold mark_account. case_bool_decide; [done|]. pose proof (with_db_rows r) as Hd.
  destruct (with_db runs config r) as [opened r']. cbn [snd] in Hd. destruct (_ || _); cbn [snd]; [by rewrite Hd|].
  rewrite <- Hd. pose proof (purge_rows (runs PurgeContinuity) (Ascii.trim_ascii account) (RoutingStore.continuity (database r'))) as Hp.
  destruct (StickySessions.purge_proxy_sticky_sessions_for_account _ _ _) as [n1 stickies].
  destruct (Continuity.purge_proxy_response_continuity_for_account _ _ _) as [n2 continuities].
  destruct (mark _) as [marked t1].
  destruct (clear_account_routing_pin_by_chatgpt_account_id _ _ _ t1) as [unpinned t2]. cbn [snd] in *.
  assert (forall b (g : RuntimeSignal) x, rows_of (if b : bool then emit g x else x) = rows_of x) as -> by by intros [].
  unfold rows_of. rewrite clear_drain_database. exact Hp.
Qed.

(** A selection that keeps the rows. *)
Definition selects (r : World) (m : option Credentials * World) : Prop := rows_of m.2 = rows_of r.

Lemma selects_or_next r m next : selects r m -> (forall r', rows_of r' = rows_of r -> selects r (next r')) -> selects r (or_next m next).
Proof. unfold selects. destruct m as [[c|] r']; cbn [or_next snd]; auto. Qed.

Lemma selects_announce r via m : selects r m -> selects r (announce via m).
Proof. by destruct m as [[c|] r']. Qed.

Lemma selects_guard r locked c source r' : rows_of r' = rows_of r -> selects r (guard_lock_pool_selection locked c source r').
Proof. intros E. unfold guard_lock_pool_selection. by repeat case_match. Qed.

Lemma selects_table r f r' : rows_of r' = rows_of r -> selects r (on_table f r').
Proof. unfold selects. by rewrite on_table_rows. Qed.

Section select.
Context (crypto : TokenStorageCryptoState) (nonce : Z -> bytes) (now_s now_ms pick_now_ms : Z).

Lemma selects_preferred r locked preferred r' :
  rows_of r' = rows_of r -> selects r (select_preferred_credentials runs crypto nonce now_s locked preferred r').
Proof.
  intros E. unfold select_preferred_credentials. case_bool_decide; [done|].
  assert (selects r (query_preferred_credentials runs crypto nonce now_s preferred r')) as Hq.
  { unfold query_preferred_credentials. case_bool_decide; [done|].
    pose proof (selects_table r (query_exact_account_credentials runs crypto nonce now_s preferred) r' E) as H1.
    destruct (on_table _ r') as [[c|] r1]; [done|]. destruct (parse_positive_int64 preferred); [|done]. by apply selects_table. }
  destruct (query_preferred_credentials _ _ _ _ _ _) as [c r1]. cbn in Hq. case_match; [done|].
  pose proof (selects_guard r locked c $"preferred" r1 Hq) as Hg.
  by destruct (guard_lock_pool_selection _ _ _ r1) as [[g|] r2].
Qed.

Lemma selects_strategy r locked model settings r' :
  rows_of r' = rows_of r ->
  selects r (select_strategy_credentials env strtod pow runs crypto nonce now_s pick_now_ms locked model settings r').
Proof.
  intros E. unfold select_strategy_credentials.
  set (f := query_routed_account_candidates runs crypto nonce now_s (request_logs (database r'))).
  pose proof (on_table_rows f r') as Ht. destruct (on_table f r') as [routed r1]. cbn [snd] in Ht.
  assert (rows_of r1 = rows_of r) as E1 by congruence. destruct (bool_decide _); [done|].
  destruct (to_balancer_candidates _ _ _ _ _ _ _ _) as [candidates memo].
  destruct (pick_routed_candidate _ _ _) as [[index|] s]; done.
Qed.

Lemma selects_latest r locked r' :
  rows_of r' = rows_of r -> selects r (select_latest_credentials runs crypto nonce now_s locked r').
Proof.
  intros E. unfold select_latest_credentials.
  pose proof (selects_table r (query_latest_active_account_credentials runs crypto nonce now_s) r' E) as Ht.
  destruct (on_table _ r') as [c r1]. by apply selects_guard.
Qed.

Lemma recover_rows r : rows_of (recover_blocks runs now_s now_ms r) = rows_of r.
Proof.
  unfold recover_blocks. destruct (recover_expired_account_limit_blocks _ _ _ _) as [count t]. by destruct (0 <? count).
Qed.

Lemma resolve_credentials_rows preferred model strict r :
  rows_of (resolve_upstream_account_credentials env strtod pow runs crypto nonce now_s now_ms pick_now_ms preferred model
             strict r).2 = rows_of r.
Proof.
  unfold resolve_upstream_account_credentials. destruct (_ || _); [done|]. cbv zeta.
  etransitivity; [|apply recover_rows].
  set (r1 := recover_blocks _ _ _ r). set (locked := parse_locked_routing_account_ids _). set (settings := default _ _).
  lazymatch goal with |- rows_of (snd ?m) = rows_of ?r' => change (selects r' m) end.
  destruct strict; [by apply selects_preferred|]. apply selects_or_next; [|intros r2 E2; apply selects_or_next; [|intros r3 E3; apply selects_or_next; [|intros r5 E5]]].
  - destruct (lock_pool_active locked); [done|]. by apply selects_announce, selects_table.
  - by apply selects_preferred.
  - pose proof (selects_strategy r1 locked model settings r3 E3) as Hs.
    destruct (select_strategy_credentials _ _ _ _ _ _ _ _ _ _ _ r3) as [c r4]. by apply selects_announce, selects_guard.
  - destruct (lock_pool_active locked); [done|]. by apply selects_announce, selects_latest.
Qed.

Lemma refresh_credentials_rows refresh account r :
  rows_of (refresh_upstream_account_credentials runs crypto nonce now_s refresh account r).2 = rows_of r.
Proof.
  unfold refresh_upstream_account_credentials. destruct (_ || _ || _); [done|].
  pose proof (on_table_rows (refresh account) r) as H1. destruct (on_table (refresh account) r) as [refreshed r1].
  cbn [snd] in H1. destruct refreshed; cbn [negb snd]; [|done]. by rewrite on_table_rows.
Qed.

End select.
End continuity.

(** ** The bridge under the service *)

(** The state the bridge works on: its memory with the rows of the shared
    database. *)
Definition bridge_of (w : ServiceWorld) : BridgeState := HttpBridge.set_continuity (rows_of (routing w)) (bridge w).

(** Everything the bridge holds was remembered. *)
Definition named (log : list remembered) (w : ServiceWorld) : Prop := logged log (bridge_of w).

(** What holds of the bridge as long as nothing new is remembered. *)
Class quiet (keep : ServiceWorld -> Prop) : Prop :=
  keep_named w w' : (forall log, named log w -> named log w') -> (tick w <= tick w')%nat -> keep w -> keep w'.

Definition anything (w : ServiceWorld) : Prop := True.

#[export] Instance anything_quiet : quiet anything.
Proof. done. Qed.

(** From the call [t0] on, everything the bridge holds was remembered. *)
Definition named_since (log : list remembered) (t0 : nat) (w : ServiceWorld) : Prop := named log w /\ (t0 <= tick w)%nat.

#[export] Instance named_since_quiet log t0 : quiet (named_since log t0).
Proof. intros w w' Hn Hle [H H0]. split; [by apply Hn|lia]. Qed.

Lemma keep_shrink keep {Hq : quiet keep} w w' :
  bridge w' = bridge w -> rows_of (routing w') ⊆ rows_of (routing w) -> (tick w <= tick w')%nat -> keep w -> keep w'.
Proof.
  intros Eb Hs. apply Hq. intros log [Ht Hm Hr]. unfold named, bridge_of in *. rewrite Eb. split; [done|done|]. cbn in *.
  apply Forall_forall. intros r Hin. eapply Forall_forall in Hr; [exact Hr|]. by apply Hs.
Qed.

Lemma keep_step `{JsonCodec} keep {Hq : quiet keep} w w' o :
  log_of o = [] -> bridge_of w' = HttpBridge.step (bridge_of w) o -> (tick w <= tick w')%nat -> keep w -> keep w'.
Proof.
  intros El E. apply Hq. intros log Hl. unfold named in *. rewrite E. pose proof (step_logged log _ o Hl) as Hs.
  by rewrite El, app_nil_r in Hs.
Qed.

Section bridged.
Context {codec : JsonCodec}.

Lemma trimmed_id_nonblank object id : trimmed_id object = Some id -> Ascii.trim_ascii id <> [].
Proof.
  unfold trimmed_id. destruct (string_at object _) as [raw|]; [|done]. cbn. case_bool_decide; [done|].
  intros [= <-]. by rewrite Ascii.trim_ascii_idem.
Qed.

Lemma scan_events_value {B} (value : JsonObject -> option B) (good : B -> Prop) events :
  (forall object b, value object = Some b -> good b) ->
  forall fallback, (forall b, fallback = Some b -> good b) -> forall b, scan_events value events fallback = Some b -> good b.
Proof.
  intros Hv. induction events as [|event events IH]; intros fallback Hf b; cbn [scan_events]; [apply Hf|].
  destruct (read_object event) as [object|]; cbn; [|by apply IH].
  destruct (string_at object _) as [type|]; cbn; [|by apply IH]. destruct (negb _); [by apply IH|].
  destruct (object_at object _) as [response|]; cbn; [|by apply IH].
  destruct (value response) as [v|] eqn:Ev; cbn; [|by apply IH]. apply Hv in Ev.
  destruct (is_final_type type); [by intros [= <-]|]. apply IH. by intros ? [= <-].
Qed.

Lemma log_nonblank o : Forall (fun e => Ascii.trim_ascii (rem_response e) <> []) (log_of o).
Proof.
  assert (forall headers id account now, (forall i, id = Some i -> Ascii.trim_ascii i <> []) ->
    Forall (fun e => Ascii.trim_ascii (rem_response e) <> []) (remember_log headers id account now)) as H.
  { intros headers [id|] account now Hid; [|constructor]. unfold remember_log.
    destruct (continuity_key_from_headers headers); [|constructor]. case_match; [constructor|].
    apply Forall_singleton. by apply Hid. }
  destruct o; cbn [log_of]; try constructor; apply H.
  - intros i. unfold response_id_from_json_body. destruct (read_object response) as [object|]; [|done]. cbn.
    destruct (trimmed_id object) eqn:E; [intros [= <-]; by eapply trimmed_id_nonblank|].
    destruct (object_at object _); [|done]. apply trimmed_id_nonblank.
  - apply (scan_events_value _ (fun i => Ascii.trim_ascii i <> [])); [apply trimmed_id_nonblank|done].
Qed.

Lemma run_nonblank ops : Forall (fun e => Ascii.trim_ascii (rem_response e) <> []) (run_log ops).
Proof. induction ops as [|o ops IH]; [constructor|]. cbn. apply Forall_app. split; [apply log_nonblank|done]. Qed.

(** The bridge replaces a previous response by one that was remembered under
    the key of the request. *)
Lemma replaced_spec body headers f now s log body' :
  logged log s -> (replace_previous_response_id_from_bridge body headers f now s).1 = Some body' ->
  exists key e, usable_key headers = Some key /\ e ∈ log /\
    scoped_bridge_key (rem_key e) (rem_scope e) = scoped_bridge_key key (api_key_scope_from_headers headers) /\
    now < rem_at e + 2 * kBridgeTtlMs /\ inject_previous_response_id body (rem_response e) = Some body'.
Proof.
  intros Hl. unfold replace_previous_response_id_from_bridge.
  destruct (parse_previous_response_id body) as [existing|]; [|done]. destruct (usable_key headers) as [key|]; [|done].
  pose proof (bridged_spec log key (api_key_scope_from_headers headers) f now s Hl) as [_ Hs].
  destruct (bridged_response_id _ _ _ _ s) as [[id|] s']; [|done]. case_bool_decide; [done|]. cbn [fst].
  destruct (Hs id eq_refl) as (_ & e & He & Hk & Hr & Ha). intros E. exists key, e. by rewrite Hr.
Qed.

End bridged.

(** ** What a computation does to the world

    [ok granted attempt] is what has to hold of an attempt; at most [n] of
    them are made. *)

Section moves.
Context (keep : ServiceWorld -> Prop) (ok : list Credentials -> Attempt -> Prop) (ok_mono : forall g g' a, ok g a -> ok (g ++ g') a).

Record moves (n : nat) (w w' : ServiceWorld) : Prop := {
  moves_granted : exists gs, granted w' = granted w ++ gs;
  moves_sent : exists l, sent w' = sent w ++ l /\ (length l <= n)%nat /\ Forall (ok (granted w')) l;
  moves_kept : keep w -> keep w';
}.

Lemma moves_refl w : moves 0 w w.
Proof.
  split; [exists []; by rewrite app_nil_r| |done]. exists []. rewrite app_nil_r. by split_and!.
Qed.

Lemma moves_trans n m w w1 w2 : moves n w w1 -> moves m w1 w2 -> moves (n + m) w w2.
Proof.
  intros [[g1 E1] (l1 & Es1 & Hl1 & Hf1) Hn1] [[g2 E2] (l2 & Es2 & Hl2 & Hf2) Hn2]. split.
  - exists (g1 ++ g2). by rewrite E2, E1, app_assoc.
  - exists (l1 ++ l2). rewrite Es2, Es1, app_assoc. split; [done|]. rewrite length_app. split; [lia|].
    apply Forall_app. split; [|done]. eapply Forall_impl; [exact Hf1|]. intros a Ha. rewrite E2. by apply ok_mono.
  - auto.
Qed.

Lemma moves_weaken n m w w' : moves n w w' -> (n <= m)%nat -> moves m w w'.
Proof. intros [H1 (l & H2 & H3 & H4) H5] Hle. split; [done| |done]. exists l. split_and!; [done|lia|done]. Qed.

(** A step that only touches the rest of the world. *)
Lemma moves_quiet w w' :
  granted w' = granted w -> sent w' = sent w -> (keep w -> keep w') -> moves 0 w w'.
Proof.
  intros Eg Es Hn. split; [exists []; by rewrite app_nil_r| |done].
  exists []. rewrite app_nil_r. by split_and!.
Qed.

End moves.

(** The computation ends normally, moves the world, and its result is as
    wanted. *)
Definition does {A} keep ok (n : nat) (m : Service A) (w : ServiceWorld) (Q : A -> ServiceWorld -> Prop) (E : ServiceWorld -> Prop) : Prop :=
  wp m w (fun a w' => moves keep ok n w w' /\ Q a w') (fun w' => moves keep ok n w w' /\ E w').

Section flows.
Context {sodium : Sodium} {codec : JsonCodec}.
Context {keep : ServiceWorld -> Prop} {keep_quiet : quiet keep}.
Context (env : environment) (strtod : bytes -> double * nat) (pow : double -> double -> double).
Context (from_chars : bytes -> option double) (config : Config) (crypto : TokenStorageCryptoState) (thread : Z).
Context (at_call : nat -> CallEnv).
Context (ok : list Credentials -> Attempt -> Prop) (ok_mono : forall g g' a, ok g a -> ok (g ++ g') a).

Local Abbreviation moves := (moves keep ok).
Local Abbreviation does := (does keep ok).

Lemma does_ret {A} (a : A) w (Q : A -> ServiceWorld -> Prop) E : Q a w -> does 0 (mret a) w Q E.
Proof. intros H. split; [apply moves_refl|exact H]. Qed.

Lemma does_stay {A} n (a : A) w (Q : A -> ServiceWorld -> Prop) E : Q a w -> does n (mret a) w Q E.
Proof. intros H. split; [eapply moves_weaken; [apply moves_refl|lia]|exact H]. Qed.

Lemma does_bind {A B} n m (c : Service A) (f : A -> Service B) w Q Q' E :
  does n c w Q' E ->
  (forall a w', moves n w w' -> Q' a w' -> does m (f a) w' Q E) ->
  does (n + m) (c ≫= f) w Q E.
Proof.
  intros Hc Hf. apply wp_bind. eapply wp_mono; [exact Hc| |].
  - intros a w' [Hm Ha]. eapply wp_mono; [by apply (Hf a w' Hm)| |].
    + intros b w2 [Hm2 Hb]. split; [by eapply moves_trans|done].
    + intros w2 [Hm2 Hb]. split; [by eapply moves_trans|done].
  - intros w' [Hm He]. split; [|done]. eapply moves_weaken; [done|lia].
Qed.

Lemma does_weaken {A} n m (c : Service A) w (Q Q' : A -> ServiceWorld -> Prop) (E : ServiceWorld -> Prop) :
  does n c w Q E -> (n <= m)%nat -> (forall a w', moves n w w' -> Q a w' -> Q' a w') -> does m c w Q' E.
Proof.
  intros H Hle HQ. eapply wp_mono; [exact H| |].
  - intros a w' [Hm Ha]. split; [by eapply moves_weaken|by apply HQ].
  - intros w' [Hm He]. split; [by eapply moves_weaken|done].
Qed.

(** *** The calls *)

Lemma does_routing {A} (f : CallEnv -> World -> A * World) w E :
  (forall e r, rows_of (f e r).2 ⊆ rows_of r) ->
  does 0 (on_routing at_call f) w (fun _ w' => granted w' = granted w) E.
Proof.
  intros Hf. specialize (Hf (at_call (tick w)) (routing w)). unfold ServiceLaws.does, wp, on_routing.
  destruct (f _ _) as [a r]. cbn [snd] in Hf. split; [|done]. apply moves_quiet; try done.
  apply (keep_shrink _); cbn; [done..|lia].
Qed.

Lemma does_bridge {A} (f : CallEnv -> BridgeState -> A * BridgeState) (o : CallEnv -> HttpBridge.op) w E :
  (forall e, log_of (o e) = []) -> (forall e s, (f e s).2 = HttpBridge.step s (o e)) ->
  does 0 (on_bridge at_call f) w
    (fun a w' => granted w' = granted w /\ a = (f (at_call (tick w)) (bridge_of w)).1) E.
Proof.
  intros Hq Ho. specialize (Ho (at_call (tick w)) (bridge_of w)). unfold ServiceLaws.does, wp, on_bridge.
  unfold bridge_of, rows_of in *. destruct (f _ _) as [a b]. cbn [fst snd] in *. split; [|done]. apply moves_quiet; try done.
  apply (keep_step keep w _ (o (at_call (tick w)))); [done| |cbn; lia]. unfold bridge_of, rows_of. rewrite <- Ho. by destruct b.
Qed.

(** What is remembered leaves nothing known of the bridge. *)
Lemma does_remember (f : CallEnv -> BridgeState -> unit * BridgeState) w E :
  ServiceLaws.does anything ok 0 (on_bridge at_call f) w (fun _ w' => granted w' = granted w) E.
Proof.
  unfold ServiceLaws.does, wp, on_bridge. destruct (f _ _) as [a b]. split; [|done]. by apply moves_quiet.
Qed.

Lemma does_granting m w E :
  does 0 m w (fun _ w' => granted w' = granted w) E ->
  does 0 (granting m) w (fun c w' => granted w' = granted w ++ option_list c) E.
Proof.
  intros H. apply (does_bind 0 0 _ _ _ _ _ _ H). intros [c|] w' Hm Hg; [|by apply does_ret; rewrite app_nil_r].
  unfold ServiceLaws.does, wp, mbind, service_bind, modify. cbn. split.
  - split; [by exists [c]| |].
    + exists []. rewrite app_nil_r. by split_and!.
    + by apply (keep_shrink _).
  - cbn. by rewrite Hg.
Qed.

Lemma does_credentials preferred model strict w E :
  does 0 (resolve_credentials env strtod pow crypto at_call preferred model strict) w
    (fun c w' => granted w' = granted w ++ option_list c) E.
Proof.
  apply does_granting, does_routing. intros e r. by rewrite resolve_credentials_rows.
Qed.

Lemma does_refresh account w E :
  does 0 (refresh_credentials crypto at_call account) w
    (fun c w' => granted w' = granted w ++ option_list c) E.
Proof.
  apply does_granting, does_routing. intros e r. by rewrite refresh_credentials_rows.
Qed.

Lemma does_persist affinity w E : does 0 (persist_affinity config at_call affinity) w (fun _ w' => granted w' = granted w) E.
Proof. apply does_routing. intros e r. cbn. by rewrite persist_affinity_rows. Qed.

Lemma does_skip {A} (b : bool) n (c : Service A) (a : A) w (Q : A -> ServiceWorld -> Prop) E :
  (b = true -> Q a w) -> (b = false -> does n c w Q E) -> does n (if b then mret a else c) w Q E.
Proof. intros H1 H2. destruct b; [by apply does_stay, H1|by apply H2]. Qed.

Lemma does_deactivated u account w E :
  does 0 (handle_deactivated_401_if_present config at_call u account) w (fun _ w' => granted w' = granted w) E.
Proof.
  unfold handle_deactivated_401_if_present. apply does_skip; [done|]. intros _.
  apply (does_bind 0 0 _ _ _ _ (fun _ w' => granted w' = granted w)).
  - apply does_routing. intros e r. apply mark_account_rows.
  - intros _ w' _ Hg. by apply does_ret.
Qed.

Lemma does_lock_pool u account w E :
  does 0 (lock_pool_status config at_call u account) w (fun _ w' => granted w' = granted w) E.
Proof.
  unfold lock_pool_status. apply does_skip; [done|]. intros _.
  apply (does_bind 0 0 _ _ _ _ (fun _ w' => granted w' = granted w)).
  - apply does_routing. intros e r. by rewrite lock_pool_rows.
  - intros b w' _ Hg. by apply does_ret.
Qed.

Lemma does_exhausted u account w E :
  does 0 (handle_exhausted_account_if_present config at_call u account) w (fun _ w' => granted w' = granted w) E.
Proof.
  unfold handle_exhausted_account_if_present. apply does_skip; [done|]. intros _.
  apply (does_bind 0 0 _ _ _ _ (fun _ w' => granted w' = granted w)).
  - destruct (exhausted_account_status_from_upstream u); [by apply does_ret|apply does_lock_pool].
  - intros [s|] w' _ Hg; [|by apply does_ret]. apply (does_bind 0 0 _ _ _ _ (fun _ w2 => granted w2 = granted w')).
    + apply does_routing. intros e r. apply mark_account_rows.
    + intros _ w2 _ Hg2. apply does_ret. congruence.
Qed.

Lemma does_replace body headers w E :
  does 0 (replace_from_bridge at_call body headers) w
    (fun b w' => granted w' = granted w /\
       b = (replace_previous_response_id_from_bridge body headers (bridge_faults (at_call (tick w))) (now_ms (at_call (tick w)))
              (bridge_of w)).1) E.
Proof.
  by apply (does_bridge (fun e => replace_previous_response_id_from_bridge body headers (bridge_faults e) (now_ms e))
    (fun e => HttpBridge.Replace body headers (bridge_faults e) (now_ms e))).
Qed.

Lemma does_fallback body headers continuation contains_output w E :
  does 0 (fallback_body_with_local_context at_call body headers continuation contains_output) w
    (fun b w' => granted w' = granted w /\ b = (match (fallback_body_with_local_context at_call body headers continuation contains_output w).1
                                                with Ret b => b | Throw _ => None end)) E.
Proof.
  unfold fallback_body_with_local_context. destruct continuation; cbn [negb]; [|by apply does_ret].
  destruct contains_output; [by apply does_ret|].
  set (c := on_bridge _ _).
  assert (does 0 c w (fun a w' => granted w' = granted w /\ (c w).1 = Ret a) E) as Hc.
  { pose proof (does_bridge (fun e => rebuild_request_body_with_local_context body headers (bridge_faults e) (now_ms e))
      (fun e => HttpBridge.Rebuild body headers (bridge_faults e) (now_ms e)) w E) as H.
    specialize (H (fun e => eq_refl) (fun e s => eq_refl)). fold c in H. unfold ServiceLaws.does, wp in *. destruct (c w) as [[a|what] w']; [|exact H].
    destruct H as (Hm & Hg & _). by split_and!. }
  apply (does_bind 0 0 _ _ _ _ _ _ Hc). intros a w' _ [Hg Ea]. apply does_ret. split; [done|].
  unfold mbind, service_bind. destruct (c w) as [out w2]. cbn in Ea. by rewrite Ea.
Qed.

End flows.

(** ** Attempts *)

(** A token, an account and the account of the traffic that belong together:
    all three are of the account granted last, and before any grant there is
    neither a token nor traffic. *)
Definition credited (token account traffic : bytes) (g : list Credentials) : Prop :=
  match last g with
  | None => token = [] /\ traffic = []
  | Some c =>
      token = RoutingStore.access_token c /\ account = RoutingStore.account_id c /\
      (0 < internal_account_id c -> traffic = to_string (internal_account_id c))
  end.

Lemma credited_apply c t g :
  let t' := apply_resolved_credentials c t in
  credited (turn_token t') (turn_account t') (traffic_account_id t') (g ++ [c]).
Proof. unfold credited. rewrite last_snoc. cbn. split_and!; [done..|]. intros H. by rewrite (proj2 (Z.ltb_lt _ _) H). Qed.

Lemma credited_refreshed c t g :
  let t' := apply_refreshed_credentials c t in
  credited (turn_token t') (turn_account t') (traffic_account_id t') (g ++ [c]).
Proof. unfold credited. rewrite last_snoc. cbn. split_and!; [done..|]. intros H. by rewrite (proj2 (Z.ltb_lt _ _) H). Qed.

(** The plan of an attempt was built for a body that [sendable] allows, with
    the token and the name of the account granted last before it, for which
    its traffic is counted. *)
Definition authorised (build : bytes -> bytes -> bytes -> except Plan) (sendable : bytes -> Prop) (g : list Credentials)
    (a : Attempt) : Prop :=
  exists body token account,
    build body token account = Ret (attempt_plan a) /\ sendable body /\
    (attempt_grants a <= length g)%nat /\ credited token account (attempt_account a) (take (attempt_grants a) g).

Lemma authorised_mono build sendable g g' a : authorised build sendable g a -> authorised build sendable (g ++ g') a.
Proof.
  intros (body & token & account & ? & ? & Hle & Hc). exists body, token, account. split_and!; [done..| |].
  - rewrite length_app. lia.
  - by rewrite take_app_le.
Qed.

Section sending.
Context {codec : JsonCodec} (thread : Z) (at_call : nat -> CallEnv).
Context {keep : ServiceWorld -> Prop} {keep_quiet : quiet keep}.

(** What a run of attempts leaves: [k] more entries for the same plan and
    account. *)
Record attempted (p : Plan) (account : bytes) (k : nat) (w w' : ServiceWorld) : Prop := {
  attempted_granted : granted w' = granted w;
  attempted_routing : routing w' = routing w;
  attempted_bridge : bridge w' = bridge w;
  attempted_traffic : traffic w' = traffic w;
  attempted_tick : (tick w <= tick w')%nat;
  attempted_sent : exists l, sent w' = sent w ++ l /\ length l = k /\
    Forall (fun a => attempt_plan a = p /\ attempt_account a = account /\ attempt_grants a = length (granted w)) l;
}.

Definition context_of (w : ServiceWorld) : bytes := current_account_traffic_context_account_id thread (traffic w).

Lemma execute_attempt_done p w u w' :
  execute_attempt (execute_upstream_plan thread at_call) p w = (u, w') -> attempted p (context_of w) 1 w w'.
Proof.
  unfold execute_attempt. destruct (execute_upstream_plan thread at_call p w) as [u0 w0] eqn:E0. intros E.
  assert (w' = w0) as ->.
  { revert E. destruct (exhausted_account_status_from_upstream _) as [e|]; [destruct (_ || _)|]; congruence. }
  injection E0 as _ <-.
  split; try done; [cbn; lia|]. eexists. split; [done|]. split; [done|]. by apply Forall_singleton.
Qed.

Lemma attempts_done p w us w' :
  attempts (execute_upstream_plan thread at_call) p w us w' -> attempted p (context_of w) (length us) w w'.
Proof.
  induction 1 as [w|w u w1 us w2 Ha Hr IH]; [split; try done; exists []; by rewrite app_nil_r|].
  apply execute_attempt_done in Ha as [Hg1 Hr1 Hb1 Ht1 Hk1 (l1 & E1 & L1 & F1)].
  destruct IH as [Hg2 Hr2 Hb2 Ht2 Hk2 (l2 & E2 & L2 & F2)].
  split; try congruence; [lia|]. exists (l1 ++ l2). rewrite E2, E1, app_assoc, length_app. cbn [length]. split; [done|]. split; [lia|].
  apply Forall_app. split; [done|]. unfold context_of in *. by rewrite Ht1, Hg1 in F2.
Qed.

(** The fuel is enough: a plan is executed with at most one attempt more than
    the budget, and an answer comes back. *)
Lemma execute_returns budget should_retry p w :
  0 <= budget ->
  exists u w' k, execute_with_budget thread at_call budget should_retry p w = (Ret u, w') /\
    (0 < k <= S (Z.to_nat budget))%nat /\ attempted p (context_of w) k w w'.
Proof.
  intros Hb. destruct (retry_budget_terminates (execute_upstream_plan thread at_call) (S (Z.to_nat budget)) p budget
    should_retry w) as (repeated & final & w' & E & Ha & _ & Hs & _); [lia|].
  unfold execute_with_budget. rewrite E. apply attempts_done in Ha as [Hg Hr Hbr Ht Htk Hl].
  eexists _, _, (length (repeated ++ [final])). split; [done|]. rewrite length_app. cbn [length].
  unfold size_of in Hs. split; [lia|].
  destruct Hl as (l & Hl1 & Hl2 & Hl3). split; try done. exists l. by rewrite length_app in Hl2.
Qed.

Context (build : bytes -> bytes -> bytes -> except Plan) (sendable : bytes -> Prop).

(** [execute] makes at most [n] attempts, with what the turn carries. *)
Definition sends (n : nat) (execute : Turn -> Plan -> Service Upstream) : Prop :=
  forall t body p w (E : ServiceWorld -> Prop),
    build body (turn_token t) (turn_account t) = Ret p -> sendable body ->
    credited (turn_token t) (turn_account t) (traffic_account_id t) (granted w) ->
    does keep (authorised build sendable) n (execute t p) w (fun _ w' => granted w' = granted w) E.

Lemma scope_sends n (c : Plan -> Service Upstream) :
  (forall p w, exists u w' k, c p w = (Ret u, w') /\ (k <= n)%nat /\ attempted p (context_of w) k w w') ->
  sends n (fun t p => in_traffic_scope thread (traffic_account_id t) (c p)).
Proof.
  intros Hc t body p w E Hb Hs Ht. unfold does, wp, in_traffic_scope.
  destruct (Hc p (set_traffic (set_context thread (traffic_account_id t) (traffic w)) w)) as (u & w' & k & -> & Hk & [Hg Hr Hbr Htr Htk Hl]).
  split; [|done]. split.
  - exists []. by rewrite app_nil_r.
  - destruct Hl as (l & El & Ll & Fl). exists l. split; [done|]. split; [lia|]. eapply Forall_impl; [exact Fl|].
    intros a (Ea & Ha & Hn). exists body, (turn_token t), (turn_account t). split; [by rewrite Ea|]. split; [done|].
    cbn in Ha, Hn, Hg. unfold context_of, current_account_traffic_context_account_id in Ha. cbn in Ha. rewrite lookup_insert_eq in Ha.
    cbn. rewrite Ha, Hg, Hn, firstn_all. by split.
  - apply (keep_shrink _); cbn; [done|by rewrite Hr|exact Htk].
Qed.

Lemma stream_sends : sends 3 (execute_stream thread at_call).
Proof.
  apply (scope_sends 3 (fun p => execute_with_budget thread at_call kStreamRetryBudget _ p)). intros p w.
  destruct (execute_returns kStreamRetryBudget should_retry_stream_result_with_incomplete p w) as (u & w' & k & E & Hk & Ha);
    [done|]. exists u, w', k. split; [exact E|]. split; [|done]. change (S (Z.to_nat kStreamRetryBudget)) with 3%nat in Hk. lia.
Qed.

Lemma compact_sends : sends 2 (execute_compact thread at_call).
Proof.
  apply (scope_sends 2 (fun p => execute_with_budget thread at_call kCompactRetryBudget _ p)). intros p w.
  destruct (execute_returns kCompactRetryBudget should_retry_compact_result p w) as (u & w' & k & E & Hk & Ha);
    [done|]. exists u, w', k. split; [exact E|]. split; [|done]. change (S (Z.to_nat kCompactRetryBudget)) with 2%nat in Hk. lia.
Qed.

Lemma once_sends : sends 1 (execute_once thread at_call).
Proof.
  apply (scope_sends 1 (fun p w => let '(u, w') := execute_upstream_plan thread at_call p w in
    (Ret (set_error_code u (resolved_upstream_error_code u)), w'))). intros p w.
  do 3 eexists. split; [done|]. split; [done|]. split; try done; [cbn; lia|]. eexists. split; [done|]. split; [done|]. by apply Forall_singleton.
Qed.

End sending.

(** ** The phases *)

Section phase_laws.
Context {sodium : Sodium} {codec : JsonCodec}.
Context (env : environment) (strtod : bytes -> double * nat) (pow : double -> double -> double).
Context (config : Config) (crypto : TokenStorageCryptoState) (at_call : nat -> CallEnv).
Context (build : bytes -> bytes -> bytes -> except Plan) (execute : Turn -> Plan -> Service Upstream) (k : nat).

(** [carries body continuation contains_output]: what the body of a turn and
    its flags are known to be; [keep], what is known of the bridge. *)
Context {keep : ServiceWorld -> Prop} {keep_quiet : quiet keep}.
Context (sendable : bytes -> Prop) (carries : bytes -> bool -> bool -> Prop) (headers : HeaderMap).
Context (execute_sends : sends (keep := keep) build sendable k execute).
Context (carries_sendable : forall body c o, carries body c o -> sendable body).
Context (carries_rewrite : forall f w body body',
  keep w -> carries body true true ->
  (replace_previous_response_id_from_bridge body headers f (now_ms (at_call (tick w))) (bridge_of w)).1 = Some body' ->
  sendable body').
Context (carries_fallback : forall headers body c o w body',
  carries body c o -> (fallback_body_with_local_context at_call body headers c o w).1 = Ret (Some body') ->
  carries body' false false /\
  carries body' (request_has_previous_response_id body')
    (request_has_previous_response_id body' && request_contains_function_call_output body')).

Local Abbreviation ok := (authorised build sendable).
Local Abbreviation does := (does keep ok).
Local Abbreviation ok_mono := (authorised_mono build sendable).

Definition sound_turn (t : Turn) (g : list Credentials) : Prop :=
  credited (turn_token t) (turn_account t) (traffic_account_id t) g /\
  carries (request_body t) (continuation_request t) (contains_function_call_output t).

Lemma does_execute t body p w E :
  plan_of build t body = Ret p -> sendable body ->
  credited (turn_token t) (turn_account t) (traffic_account_id t) (granted w) ->
  does k (execute t p) w (fun _ w' => granted w' = granted w) E.
Proof. intros. by eapply execute_sends. Qed.

Lemma first_exchange_does t p w E :
  plan_of build t (request_body t) = Ret p -> sound_turn t (granted w) ->
  does k (first_exchange config at_call execute t p) w (fun x w' => sound_turn (turn x) (granted w')) E.
Proof.
  intros Hp [Hc Hj]. apply (does_bind _ ok_mono 0 k _ _ _ _ (fun _ w' => granted w' = granted w)); [by apply (does_persist (keep := keep))|].
  intros _ w1 Hm Hg1. rewrite <- Hg1 in Hc. replace k with (k + 0)%nat by lia. eapply (does_bind _ ok_mono k 0).
  - eapply does_execute; [exact Hp|by eapply carries_sendable|exact Hc].
  - intros u w2 Hm2 Hg. apply does_ret. cbn. split; [by rewrite Hg|done].
Qed.

(** A refreshed turn is sent once more. *)
Lemma send_refreshed x c g w E :
  granted w = g ++ [c] -> sound_turn (turn x) g ->
  let t := apply_refreshed_credentials c (turn x) in
  does k (match plan_of build t (request_body t) with
          | Throw _ => mret (mkExchange t (plan x) (upstream x))
          | Ret p => u ← execute t p; _ ← handle_deactivated_401_if_present config at_call u (turn_account t);
                     mret (mkExchange t p u)
          end) w (fun x w' => sound_turn (turn x) (granted w')) E.
Proof.
  intros Hc [_ Hj] t. assert (sound_turn t (granted w)) as Ht by (rewrite Hc; split; [apply credited_refreshed|exact Hj]).
  destruct (plan_of build t (request_body t)) as [p|what] eqn:Ep.
  - replace k with (k + 0)%nat by lia. eapply (does_bind _ ok_mono k 0).
    + eapply does_execute; [exact Ep|by eapply carries_sendable|apply Ht].
    + intros u w2 Hm2 Hg. apply (does_bind _ ok_mono 0 0 _ _ _ _ (fun _ w3 => granted w3 = granted w2)).
      * apply (does_deactivated (keep := keep)), ok_mono.
      * intros _ w3 _ Hg3. apply does_ret. cbn. by rewrite Hg3, Hg.
  - by apply does_stay.
Qed.

Lemma refresh_does x w E :
  sound_turn (turn x) (granted w) ->
  does k (refresh_rejected_token config crypto at_call build execute x) w (fun x w' => sound_turn (turn x) (granted w')) E.
Proof.
  intros Hx. unfold refresh_rejected_token. apply does_skip; [done|]. intros _.
  apply (does_bind _ ok_mono 0 k _ _ _ _ (fun _ w' => granted w' = granted w)); [apply (does_deactivated (keep := keep)), ok_mono|].
  intros deactivated w1 _ Hg1. apply does_skip; [by rewrite Hg1|]. intros _.
  eapply (does_bind _ ok_mono 0 k); [apply (does_refresh (keep := keep)), ok_mono|]. intros [c|] w2 Hm2 Hc; cbn in Hc.
  - apply (send_refreshed x c _ w2 E Hc). by rewrite Hg1.
  - apply does_stay. by rewrite Hc, app_nil_r, Hg1.
Qed.

Lemma rewrite_does backend x w E :
  keep w -> sound_turn (turn x) (granted w) ->
  continuation_request (turn x) = true -> contains_function_call_output (turn x) = true ->
  does k (retry_with_bridge_rewrite at_call build execute backend headers x) w
    (fun x' w' => sound_turn (turn x') (granted w') /\ turn x' = turn x) E.
Proof.
  intros Hn Hx E1 E2. unfold retry_with_bridge_rewrite. apply does_skip; [done|]. intros _.
  eapply (does_bind _ ok_mono 0 k); [by apply (does_replace (keep := keep))|]. intros rewritten w1 Hm [Hg Hr]. cbn beta.
  assert (sound_turn (turn x) (granted w1)) as Hx1 by by rewrite Hg.
  assert (does k (mret x) w1 (fun x' w' => sound_turn (turn x') (granted w') /\ turn x' = turn x) E) as Hret
    by by apply does_stay.
  destruct rewritten as [body|]; [|done]. destruct (plan_of build (turn x) body) as [p|what] eqn:Ep; [|done].
  replace k with (k + 0)%nat by lia. eapply (does_bind _ ok_mono k 0).
  - eapply does_execute; [exact Ep| |apply Hx1]. destruct Hx as [_ Hj]. rewrite E1, E2 in Hj.
    eapply carries_rewrite; [exact Hn|exact Hj|by symmetry].
  - intros u w2 _ Hg2. apply does_ret. cbn. by rewrite Hg2.
Qed.

(** Sending a body that a turn may fall back to, with the turn's own account. *)
Lemma retry_without_does x w E :
  sound_turn (turn x) (granted w) ->
  does k (retry_without_previous_response at_call build execute headers x) w (fun x' w' => sound_turn (turn x') (granted w')) E.
Proof.
  intros Hx. unfold retry_without_previous_response. apply does_skip; [done|]. intros _.
  eapply (does_bind _ ok_mono 0 k); [apply (does_fallback (keep := keep)), ok_mono|]. intros stripped w1 _ [Hg Hs].
  assert (sound_turn (turn x) (granted w1)) as Hx1 by by rewrite Hg.
  assert (does k (mret x) w1 (fun x' w' => sound_turn (turn x') (granted w')) E) as Hret
    by by apply does_stay.
  destruct stripped as [body|]; [|done]. destruct (plan_of build (turn x) body) as [p|what] eqn:Ep; [|done].
  destruct Hx1 as [Hc Hj]. destruct (carries_fallback headers _ _ _ w body Hj) as [Hf Hw].
  { revert Hs. destruct (fallback_body_with_local_context _ _ _ _ _ _).1; congruence. }
  replace k with (k + 0)%nat by lia. eapply (does_bind _ ok_mono k 0).
  - apply (execute_sends (with_body body (turn x)) body); [exact Ep|by eapply carries_sendable|exact Hc].
  - intros u w2 _ Hg2. apply does_ret. cbn. rewrite Hg2. by split.
Qed.

(** The turn of another account; nothing is sent after it. *)
Lemma fail_over_does affinity x w E :
  sound_turn (turn x) (granted w) ->
  does k (fail_over env strtod pow config crypto at_call build execute headers affinity x) w
    (fun _ _ => True) E.
Proof.
  intros Hx. unfold fail_over.
  apply (does_bind _ ok_mono 0 k _ _ _ _ (fun _ w' => granted w' = granted w)); [apply (does_exhausted (keep := keep)), ok_mono|].
  intros marked w1 _ Hg1. apply does_skip; [done|]. intros _.
  eapply (does_bind _ ok_mono 0 k); [apply (does_fallback (keep := keep)), ok_mono|]. intros failover_body w2 _ [Hg2 Hs].
  assert (sound_turn (turn x) (granted w2)) as Hx2 by by rewrite Hg2, Hg1.
  destruct failover_body as [body|]; [|by apply does_stay].
  eapply (does_bind _ ok_mono 0 k); [apply (does_credentials (keep := keep)), ok_mono|]. intros [c|] w3 Hm3 Hc; cbn in Hc;
    [|by apply does_stay].
  set (failover := apply_resolved_credentials c _).
  destruct (plan_of build failover body) as [p|what] eqn:Ep; [|by apply does_stay].
  destruct (carries_fallback headers _ _ _ w1 body (proj2 Hx2)) as [_ Hw].
  { revert Hs. destruct (fallback_body_with_local_context _ _ _ _ _ _).1; congruence. }
  assert (sound_turn (with_body body failover) (granted w3)) as Ht by (rewrite Hc; split; [apply credited_apply|exact Hw]).
  apply (does_bind _ ok_mono 0 k _ _ _ _ (fun _ w' => granted w' = granted w3)); [by apply (does_persist (keep := keep))|]. intros _ w4 Hm4 Hg4.
  rewrite <- Hg4 in Ht. replace k with (k + 0)%nat by lia. eapply (does_bind _ ok_mono k 0).
  - apply (execute_sends (with_body body failover) body); [exact Ep|by eapply carries_sendable|apply Ht].
  - intros u w5 _ Hg5. apply (does_bind _ ok_mono 0 0 _ _ _ _ (fun _ w6 => granted w6 = granted w5)).
    + apply (does_exhausted (keep := keep)), ok_mono.
    + intros _ w6 _ Hg6. by apply does_ret.
Qed.

(** The two retries exclude each other. *)
Lemma retries_do backend affinity x w E :
  keep w -> sound_turn (turn x) (granted w) ->
  does (k + k) (x ← retry_with_bridge_rewrite at_call build execute backend headers x;
                x ← retry_without_previous_response at_call build execute headers x;
                fail_over env strtod pow config crypto at_call build execute headers affinity x) w
    (fun _ _ => True) E.
Proof.
  intros Hn Hx.
  destruct (continuation_request (turn x) && contains_function_call_output (turn x)) eqn:Ef.
  - apply andb_true_iff in Ef as [E1 E2].
    eapply (does_bind _ ok_mono k k); [by apply rewrite_does|]. intros x1 w1 _ [Hx1 Et].
    assert (retry_without_previous_response at_call build execute headers x1 = mret x1) as ->.
    { unfold retry_without_previous_response, should_retry_previous_response_not_found. by rewrite Et, E1, E2. }
    apply (does_bind _ ok_mono 0 k _ _ _ _ (fun x2 w2 => sound_turn (turn x2) (granted w2))); [by apply does_ret|].
    intros x2 w2 _ Hx2. by apply fail_over_does.
  - assert (retry_with_bridge_rewrite at_call build execute backend headers x = mret x) as ->.
    { unfold retry_with_bridge_rewrite, should_retry_previous_response_with_bridge_rewrite.
      destruct (continuation_request (turn x)), (contains_function_call_output (turn x)); try done; by destruct backend. }
    apply (does_bind _ ok_mono 0 (k + k) _ _ _ _ (fun x1 w1 => sound_turn (turn x1) (granted w1))); [by apply does_ret|].
    intros x1 w1 _ Hx1. eapply (does_bind _ ok_mono k k); [by apply retry_without_does|].
    intros x2 w2 _ Hx2. by apply fail_over_does.
Qed.

Lemma exchange_responses_does backend affinity t p w E :
  keep w -> plan_of build t (request_body t) = Ret p -> sound_turn t (granted w) ->
  does (4 * k) (exchange_responses env strtod pow config crypto at_call build execute backend headers affinity t p) w
    (fun _ _ => True) E.
Proof.
  intros Hn Hp Ht. replace (4 * k)%nat with (k + (k + (k + k)))%nat by lia. unfold exchange_responses.
  eapply (does_bind _ ok_mono k (k + (k + k))); [by apply first_exchange_does|]. intros x1 w1 Hm1 Hx1.
  eapply (does_bind _ ok_mono k (k + k)); [by apply refresh_does|]. intros x2 w2 Hm2 Hx2.
  apply retries_do; [|done]. by apply Hm2, Hm1.
Qed.

Lemma exchange_unary_does t p w E :
  plan_of build t (request_body t) = Ret p -> sound_turn t (granted w) ->
  does (2 * k) (exchange_unary config crypto at_call build execute t p) w (fun x w' => sound_turn (turn x) (granted w')) E.
Proof.
  intros Hp Ht. replace (2 * k)%nat with (k + (k + 0))%nat by lia. unfold exchange_unary.
  eapply (does_bind _ ok_mono k (k + 0)); [by apply first_exchange_does|]. intros x1 w1 Hm1 Hx1.
  eapply (does_bind _ ok_mono k 0); [by apply refresh_does|]. intros x2 w2 Hm2 Hx2.
  apply (does_bind _ ok_mono 0 0 _ _ _ _ (fun _ w' => granted w' = granted w2)); [apply (does_exhausted (keep := keep)), ok_mono|].
  intros _ w3 _ Hg. apply does_ret. by rewrite Hg.
Qed.

(** *** Opening a turn *)

Lemma sound_unserved t : turn_token t = [] -> traffic_account_id t = [] ->
  carries (request_body t) (continuation_request t) (contains_function_call_output t) -> sound_turn t [].
Proof. by split. Qed.

Lemma without_preferred_does affinity t w E :
  granted w = [] -> sound_turn t [] ->
  does 0 (without_preferred env strtod pow crypto at_call headers affinity t) w
    (fun t' w' => sound_turn t' (granted w')) E.
Proof.
  intros Hnone Ht. unfold without_preferred.
  apply (does_bind _ ok_mono 0 0 _ _ _ _ (fun stripped w' => granted w' = granted w /\
    forall body, stripped = Some body -> carries body false false)).
  - destruct (from_header affinity); [by apply does_ret|]. eapply does_weaken; [apply (does_fallback (keep := keep)), ok_mono|done|].
    intros stripped w' _ [Hg Hs]. split; [done|]. intros body ->.
    destruct (carries_fallback headers _ _ _ w body (proj2 Ht)) as [Hj _]; [|done].
    revert Hs. destruct (fallback_body_with_local_context _ _ _ _ _ _).1; congruence.
  - intros [body|] w1 Hm1 [Hg Hj]; [|apply does_ret; by rewrite Hg, Hnone]. specialize (Hj body eq_refl).
    eapply (does_bind _ ok_mono 0 0); [apply (does_credentials (keep := keep)), ok_mono|]. intros [c|] w2 Hm2 Hc; cbn in Hc; apply does_ret;
      rewrite Hc, Hg, Hnone.
    + split; [apply (credited_apply _ _ [])|exact Hj].
    + split; [apply Ht|exact Hj].
Qed.

Lemma open_turn_does guard affinity w E :
  granted w = [] -> carries (guard_body guard) (guard_continuation guard) (guard_function_call_output guard) ->
  does 0 (open_turn env strtod pow crypto at_call headers guard affinity) w
    (fun r w' => sound_turn r.1 (granted w')) E.
Proof.
  intros Hnone Hj. unfold open_turn. set (strict := guard_continuation guard && _).
  apply (does_bind _ ok_mono 0 0 _ _ _ _ (fun _ w' => granted w' = granted w)).
  { destruct strict; [|by apply does_ret]. by apply (does_routing (keep := keep)); intros e r. }
  intros known w1 _ Hg1. eapply (does_bind _ ok_mono 0 0); [apply (does_credentials (keep := keep)), ok_mono|]. intros credentials w2 _ Hc.
  apply (does_bind _ ok_mono 0 0 _ _ _ _ (fun t w' => sound_turn t (granted w'))).
  - rewrite Hg1, Hnone in Hc. destruct credentials as [c|]; cbn in Hc.
    + apply does_ret. rewrite Hc. split; [apply (credited_apply _ _ [])|exact Hj].
    + destruct strict; [by apply without_preferred_does|]. apply does_ret. by rewrite Hc.
  - intros t w3 _ Ht. by apply does_ret.
Qed.

Lemma open_unary_does body model affinity w E :
  granted w = [] -> carries body false false ->
  does 0 (open_unary env strtod pow crypto at_call body model affinity) w
    (fun t w' => sound_turn t (granted w') /\ request_body t = body) E.
Proof.
  intros Hnone Hj. unfold open_unary. eapply (does_bind _ ok_mono 0 0); [apply (does_credentials (keep := keep)), ok_mono|].
  intros [c|] w1 _ Hc; cbn in Hc; apply does_ret; (split; [|done]); rewrite Hc, Hnone; (split; [|exact Hj]);
    [apply (credited_apply _ _ [])|done].
Qed.

End phase_laws.

(** ** Requests *)

(** An attempt through one of several ways to build a plan. *)
Definition sent_through (builds : (bytes -> bytes -> bytes -> except Plan) -> Prop) (sendable : bytes -> Prop)
    (g : list Credentials) (a : Attempt) : Prop :=
  exists build, builds build /\ authorised build sendable g a.

Lemma sent_through_mono builds sendable g g' a : sent_through builds sendable g a -> sent_through builds sendable (g ++ g') a.
Proof. intros (build & Hb & Ha). exists build. split; [done|]. by apply authorised_mono. Qed.

Lemma does_change {A} keep (ok ok' : list Credentials -> Attempt -> Prop) n (m : Service A) w (Q : A -> ServiceWorld -> Prop) E :
  (forall g a, ok g a -> ok' g a) -> does keep ok n m w Q E -> does keep ok' n m w Q E.
Proof.
  intros Hi H. assert (forall w', moves keep ok n w w' -> moves keep ok' n w w') as Hm.
  { intros w' [Hg (l & El & Ll & Fl) Hn]. split; [done| |done]. exists l. split_and!; [done..|].
    eapply Forall_impl; [exact Fl|]. intros a. apply Hi. }
  eapply wp_mono; [exact H| |]; cbn; intros; split; [|by destruct_and?| |by destruct_and?]; apply Hm; by destruct_and?.
Qed.

(** Without attempts nothing is asked of them. *)
Lemma does_zero {A} keep (ok ok' : list Credentials -> Attempt -> Prop) (m : Service A) w (Q : A -> ServiceWorld -> Prop) E :
  does keep ok 0 m w Q E -> does keep ok' 0 m w Q E.
Proof.
  intros H. assert (forall w', moves keep ok 0 w w' -> moves keep ok' 0 w w') as Hm.
  { intros w' [Hg (l & El & Ll & Fl) Hn]. split; [done| |done]. exists l. split_and!; [done..|].
    destruct l; [done|cbn in Ll; lia]. }
  eapply wp_mono; [exact H| |]; cbn; intros; split; [|by destruct_and?| |by destruct_and?]; apply Hm; by destruct_and?.
Qed.

(** What is known of the bridge is known after the computation. *)
Lemma does_knowing {A} keep ok n (m : Service A) w (Q : A -> ServiceWorld -> Prop) E :
  keep w -> does keep ok n m w Q E -> does anything ok n m w (fun a w' => keep w' /\ Q a w') E.
Proof.
  intros Hk H. assert (forall w', moves keep ok n w w' -> moves anything ok n w w') as Hm by by intros w' [Hg Hs _].
  eapply wp_mono; [exact H| |]; cbn; intros; destruct_and?; split_and?; try done; [by apply Hm| |by apply Hm].
  by apply (moves_kept keep ok n w).
Qed.

Section requests.
Context {sodium : Sodium} {codec : JsonCodec}.
Context (env : environment) (strtod : bytes -> double * nat) (pow : double -> double -> double).
Context (from_chars : bytes -> option double) (config : Config) (crypto : TokenStorageCryptoState) (thread : Z).
Context (at_call : nat -> CallEnv).

(** The headers of a request with the turn state that was made for it. *)
Definition bridged (inbound_headers : HeaderMap) (headers : HeaderMap) : Prop :=
  exists n, headers = (ensure_turn_state_header (fresh_turn_state (at_call n)) inbound_headers).2.

Context {keep : ServiceWorld -> Prop} {keep_quiet : quiet keep}.
Context (sendable : bytes -> Prop) (carries : bytes -> bool -> bool -> Prop) (route raw : bytes) (inbound_headers : HeaderMap).
Context (carries_sendable : forall body c o, carries body c o -> sendable body).
Context (carries_rewrite : forall headers f w body body',
  bridged inbound_headers headers -> keep w -> carries body true true ->
  (replace_previous_response_id_from_bridge body headers f (now_ms (at_call (tick w))) (bridge_of w)).1 = Some body' ->
  sendable body').
Context (carries_fallback : forall headers body c o w body',
  carries body c o -> (fallback_body_with_local_context at_call body headers c o w).1 = Ret (Some body') ->
  carries body' false false /\
  carries body' (request_has_previous_response_id body')
    (request_has_previous_response_id body' && request_contains_function_call_output body')).

(** The ways a request for a response is turned into a plan. *)
Definition json_plans (inbound_headers : HeaderMap) (build : bytes -> bytes -> bytes -> except Plan) : Prop :=
  exists headers, bridged inbound_headers headers /\ build = http_plan headers.

Definition sse_plans (route : bytes) (inbound_headers : HeaderMap) (build : bytes -> bytes -> bytes -> except Plan) : Prop :=
  exists headers transport, bridged inbound_headers headers /\
    build = stream_plan (bool_decide (route = kBackendCodexRoute)) transport headers.

Lemma does_reading {A} {keep' : ServiceWorld -> Prop} {Hk : quiet keep'} ok (f : CallEnv -> A) w E :
  does keep' ok 0 (reading at_call (fun e => Ret (f e))) w (fun a w' => granted w' = granted w /\ a = f (at_call (tick w))) E.
Proof. split; [|done]. apply moves_quiet; try done. apply (keep_shrink _); cbn; [done..|lia]. Qed.

Lemma does_asks {A} keep' ok (f : ServiceWorld -> A) w E : does keep' ok 0 (asks f) w (fun _ w' => w' = w) E.
Proof. split; [apply moves_refl|done]. Qed.

Lemma does_capture {keep' : ServiceWorld -> Prop} {Hk : quiet keep'} ok at_route body headers what w E :
  does keep' ok 0 (capture_invalid_payload_snapshot env at_call at_route body headers what) w (fun _ _ => True) E.
Proof.
  unfold does, wp, capture_invalid_payload_snapshot. destruct (capture_steps _) as [[d p] m].
  destruct (_ || _); [|destruct (negb m)]; (split; [|done]); (apply moves_quiet; try done; apply (keep_shrink _); cbn; [done..|lia]).
Qed.

Context (guard_carries : forall headers affinity w E, bridged inbound_headers headers -> keep w ->
  does keep (authorised (fun _ _ _ => Throw []) (fun _ => True)) 0 (guard_backend_codex_previous_response at_call route raw headers affinity) w
    (fun g w' => granted w' = granted w /\ carries (guard_body g) (guard_continuation g) (guard_function_call_output g)) E).

Lemma begin_does ok (ok_mono : forall g g' a, ok g a -> ok (g ++ g') a) w E :
  granted w = [] -> keep w ->
  does keep ok 0 (begin_responses env strtod pow config crypto at_call route raw inbound_headers) w
    (fun r w' => bridged inbound_headers r.1.1 /\ sound_turn carries r.2.1 (granted w')) E.
Proof.
  intros Hnone Hn. unfold begin_responses.
  apply (does_bind _ ok_mono 0 0 _ _ _ _ (fun h w' => bridged inbound_headers h /\ granted w' = granted w)).
  { eapply does_weaken; [apply does_reading|done|]. intros h w' _ [Hg ->]. split; [by eexists|done]. }
  intros headers w1 Hm1 [Hh Hg1]. apply (does_bind _ ok_mono 0 0 _ _ _ _ (fun _ w' => granted w' = granted w1)).
  { apply does_routing; intros e r; by rewrite resolve_affinity_rows. }
  intros affinity w2 Hm2 Hg2. eapply (does_bind _ ok_mono 0 0).
  { eapply does_zero, guard_carries; [exact Hh|]. by apply Hm2, Hm1. }
  intros guard w3 Hm3 [Hg3 Hj]. cbn beta in Hj. eapply (does_bind _ ok_mono 0 0).
  { eapply does_zero, (open_turn_does env strtod pow crypto at_call (fun _ _ _ => Throw []) (fun _ => True) carries headers);
      [exact carries_fallback|congruence|exact Hj]. }
  intros opened w4 Hm4 Ht. by apply does_ret.
Qed.

Lemma answer_json_does ok (ok_mono : forall g g' a, ok g a -> ok (g ++ g') a) headers sticky x w E :
  does anything ok 0 (answer_responses_json from_chars at_call headers sticky x) w (fun _ _ => True) E.
Proof.
  unfold answer_responses_json. apply (does_bind _ ok_mono 0 0 _ _ _ _ (fun _ _ => True)).
  { eapply does_weaken; [apply does_asks|done|done]. }
  intros h w1 _ _. apply does_skip; [done|]. intros _.
  destruct (negb (is_empty (ErrorPolicy.body (upstream x)))).
  - apply (does_bind _ ok_mono 0 0 _ _ _ _ (fun _ _ => True)); [|intros; by apply does_ret].
    eapply does_weaken; [apply does_remember|done|done].
  - apply does_skip; [done|]. intros _. apply (does_bind _ ok_mono 0 0 _ _ _ _ (fun _ _ => True)); [|intros; by apply does_ret].
    eapply does_weaken; [apply does_remember|done|done].
Qed.

Lemma sse_failure_does ok status code message type param headers sticky w :
  does anything ok 0 (sse_failure at_call status code message type param headers sticky) w (fun _ _ => True) (fun _ => True).
Proof.
  unfold does, wp, sse_failure, mbind, service_bind, reading. destruct (build_responses_sse_failure _ _ _ _ _);
    (split; [by apply moves_quiet|done]).
Qed.

Lemma answer_sse_does ok (ok_mono : forall g g' a, ok g a -> ok (g ++ g') a) headers sticky x w :
  does anything ok 0 (answer_responses_sse from_chars at_call headers sticky x) w (fun _ _ => True) (fun _ => True).
Proof.
  unfold answer_responses_sse. apply (does_bind _ ok_mono 0 0 _ _ _ _ (fun _ _ => True)).
  { eapply does_weaken; [apply does_asks|done|done]. }
  intros h w1 _ _. destruct (error_fields (upstream x)) as [[[code message] type] param].
  destruct (400 <=? _); [apply sse_failure_does|]. case_bool_decide; [apply sse_failure_does|].
  apply (does_bind _ ok_mono 0 0 _ _ _ _ (fun _ _ => True)); [|intros; by apply does_ret].
  eapply does_weaken; [apply does_remember|done|done].
Qed.

Local Abbreviation through := (fun builds => sent_through builds sendable).

(** The phases of a request, through one builder. *)
Lemma exchange_does builds build backend headers affinity t p w E :
  builds build -> bridged inbound_headers headers -> keep w -> build (request_body t) (turn_token t) (turn_account t) = Ret p ->
  sound_turn carries t (granted w) ->
  does keep (through builds) 12
    (exchange_responses env strtod pow config crypto at_call build (execute_stream thread at_call) backend headers affinity t p)
    w (fun _ _ => True) E.
Proof.
  intros Hb Hh Hn Hp Ht. apply (does_change _ (authorised build sendable)); [intros g a Ha; by exists build|].
  eapply does_weaken; [|done|done].
  apply (exchange_responses_does env strtod pow config crypto at_call build (execute_stream thread at_call) 3 sendable carries
    headers (stream_sends thread at_call build sendable)); try done. intros f w' body body'. by apply carries_rewrite.
Qed.

Lemma collect_json_does w E :
  granted w = [] -> keep w ->
  does anything (through (json_plans inbound_headers)) 12
    (collect_responses_json env strtod pow from_chars config crypto thread at_call route raw inbound_headers) w
    (fun _ _ => True) E.
Proof.
  intros Hnone Hn. pose proof (sent_through_mono (json_plans inbound_headers) sendable) as Hmono.
  unfold collect_responses_json. apply does_skip; [done|]. intros _.
  eapply (does_bind _ Hmono 0 12); [by apply does_knowing, begin_does|].
  intros [[headers affinity] [t unavailable]] w1 Hm1 [Hk [Hh Ht]]. cbn in Hh, Ht.
  apply does_skip; [done|]. intros _. destruct (http_plan headers _ _ _) as [p|what] eqn:Ep.
  - replace 12%nat with (12 + 0)%nat by lia. eapply (does_bind _ Hmono 12 0).
    + eapply does_knowing, exchange_does; [exact Hk|by exists headers|exact Hh|exact Hk|exact Ep|exact Ht].
    + intros x w2 _ _. apply answer_json_does, Hmono.
  - apply (does_bind _ Hmono 0 12 _ _ _ _ (fun _ _ => True)); [apply does_capture|]. intros _ w2 _ _. by apply does_stay.
Qed.

Lemma collect_sse_does w :
  granted w = [] -> keep w ->
  does anything (through (sse_plans route inbound_headers)) 12
    (stream_responses_sse env strtod pow from_chars config crypto thread at_call route raw inbound_headers) w
    (fun _ _ => True) (fun _ => True).
Proof.
  intros Hnone Hn. pose proof (sent_through_mono (sse_plans route inbound_headers) sendable) as Hmono.
  unfold stream_responses_sse. destruct (negb _).
  { eapply does_weaken; [apply sse_failure_does|lia|done]. }
  eapply (does_bind _ Hmono 0 12); [by apply does_knowing, begin_does|].
  intros [[headers affinity] [t unavailable]] w1 Hm1 [Hk [Hh Ht]]. cbn in Hh, Ht.
  destruct unavailable; [eapply does_weaken; [apply sse_failure_does|lia|done]|].
  apply (does_bind _ Hmono 0 12 _ _ _ _ (fun _ w' => keep w' /\ granted w' = granted w1)).
  { apply does_knowing; [exact Hk|]. apply does_routing; intros e r; by rewrite transport_rows. }
  intros transport w2 Hm2 [Hk2 Hg2]. rewrite <- Hg2 in Ht. cbv zeta. destruct (stream_plan _ transport headers _ _ _) as [p|what] eqn:Ep.
  - replace 12%nat with (12 + 0)%nat by lia. eapply (does_bind _ Hmono 12 0).
    + eapply does_knowing, exchange_does; [exact Hk2|by exists headers, transport|exact Hh|exact Hk2|exact Ep|exact Ht].
    + intros x w3 _ _. apply answer_sse_does, Hmono.
  - apply (does_bind _ Hmono 0 12 _ _ _ _ (fun _ _ => True)); [apply does_capture|]. intros _ w3 _ _.
    eapply does_weaken; [apply sse_failure_does|lia|done].
Qed.

(** Requests without a conversation. *)

Definition unary_plans (plan_for : HeaderMap -> bytes -> bytes -> bytes -> except Plan) (inbound_headers : HeaderMap)
    (build : bytes -> bytes -> bytes -> except Plan) : Prop := build = plan_for inbound_headers.

Lemma answer_compact_does ok (ok_mono : forall g g' a, ok g a -> ok (g ++ g') a) sticky x w E :
  does anything ok 0 (answer_compact from_chars sticky x) w (fun _ _ => True) E.
Proof.
  unfold answer_compact. apply (does_bind _ ok_mono 0 0 _ _ _ _ (fun _ _ => True)).
  { eapply does_weaken; [apply does_asks|done|done]. }
  intros h w1 _ _. destruct (400 <=? _); by apply does_ret.
Qed.

Lemma answer_plain_does ok (ok_mono : forall g g' a, ok g a -> ok (g ++ g') a) sticky x w E :
  does anything ok 0 (answer_plain from_chars sticky x) w (fun _ _ => True) E.
Proof.
  unfold answer_plain. apply (does_bind _ ok_mono 0 0 _ _ _ _ (fun _ _ => True)).
  { eapply does_weaken; [apply does_asks|done|done]. }
  intros h w1 _ _. by apply does_ret.
Qed.

(** What the two flows share: an account, a plan, and its exchange. *)
Lemma unary_does plan_for affinity_body model answer (Hanswer : forall ok sticky x w E,
    (forall g g' a, ok g a -> ok (g ++ g') a) -> does anything ok 0 (answer sticky x) w (fun _ _ => True) E) result w E :
  granted w = [] -> carries raw false false ->
  does anything (through (unary_plans plan_for inbound_headers)) 4
    (affinity ← resolve_affinity config at_call affinity_body inbound_headers;
     t ← open_unary env strtod pow crypto at_call raw (model affinity) affinity;
     match plan_for inbound_headers raw (turn_token t) (turn_account t) with
     | Throw what => _ ← capture_invalid_payload_snapshot env at_call route raw inbound_headers what; mret result
     | Ret p =>
         x ← exchange_unary config crypto at_call (plan_for inbound_headers) (execute_compact thread at_call) t p;
         answer (from_persistence affinity) x
     end : Service ProxyJsonResult) w (fun _ _ => True) E.
Proof.
  intros Hnone Hraw. pose proof (sent_through_mono (unary_plans plan_for inbound_headers) sendable) as Hmono.
  apply (does_bind _ Hmono 0 4 _ _ _ _ (fun _ w' => granted w' = granted w)).
  { apply does_routing; intros e r; by rewrite resolve_affinity_rows. }
  intros affinity w1 _ Hg1. eapply (does_bind _ Hmono 0 4).
  { eapply does_zero, (open_unary_does env strtod pow crypto at_call (fun _ _ _ => Throw []) (fun _ => True) carries); [congruence|exact Hraw]. }
  intros t w2 _ [Ht Eb]. destruct (plan_for _ _ _ _) as [p|what] eqn:Ep.
  - replace 4%nat with (4 + 0)%nat by lia. eapply (does_bind _ Hmono 4 0).
    + apply (does_change _ (authorised (plan_for inbound_headers) sendable)); [intros g a Ha; by exists (plan_for inbound_headers)|].
      eapply does_weaken; [|done|done].
      apply (exchange_unary_does config crypto at_call (plan_for inbound_headers) (execute_compact thread at_call) 2 sendable
        carries (compact_sends thread at_call _ sendable) carries_sendable); [by rewrite <- Eb in Ep|exact Ht].
    + intros x w3 _ _. by apply Hanswer.
  - apply (does_bind _ Hmono 0 4 _ _ _ _ (fun _ _ => True)); [apply does_capture|]. intros _ w3 _ _. by apply does_stay.
Qed.

Lemma collect_compact_does w E :
  granted w = [] -> carries raw false false ->
  does anything (through (unary_plans compact_plan inbound_headers)) 4
    (collect_responses_compact env strtod pow from_chars config crypto thread at_call route raw inbound_headers) w
    (fun _ _ => True) E.
Proof.
  intros Hnone Hraw. unfold collect_responses_compact. apply does_skip; [done|]. intros _.
  apply (unary_does compact_plan raw request_model (answer_compact from_chars)); [|exact Hnone|exact Hraw].
  intros ok sticky x w' E' Hok. by apply answer_compact_does.
Qed.

Lemma collect_memories_does w E :
  granted w = [] -> carries raw false false ->
  does anything (through (unary_plans memories_plan inbound_headers)) 4
    (collect_memories_trace_summarize env strtod pow from_chars config crypto thread at_call route raw inbound_headers) w
    (fun _ _ => True) E.
Proof.
  intros Hnone Hraw. unfold collect_memories_trace_summarize. apply does_skip; [done|]. intros _.
  apply (unary_does memories_plan [] (fun _ => []) (answer_plain from_chars)); [|exact Hnone|exact Hraw].
  intros ok sticky x w' E' Hok. by apply answer_plain_does.
Qed.

End requests.

(** *** The guard of continuations *)

Section guard.
Context {codec : JsonCodec} {keep : ServiceWorld -> Prop} {keep_quiet : quiet keep} (at_call : nat -> CallEnv).
Context (ok : list Credentials -> Attempt -> Prop) (ok_mono : forall g g' a, ok g a -> ok (g ++ g') a).

Lemma inspect_does body headers w E :
  does keep ok 0 (inspect_body at_call body headers) w
    (fun g w' => granted w' = granted w /\ guard_body g = body /\ guard_continuation g = request_has_previous_response_id body /\
       guard_function_call_output g = request_has_previous_response_id body && request_contains_function_call_output body) E.
Proof.
  unfold inspect_body. apply (does_bind _ ok_mono 0 0 _ _ _ _ (fun _ w' => granted w' = granted w)).
  { eapply does_weaken; [by apply (does_bridge (keep := keep) _ _ _ (fun e => HttpBridge.Preferred body headers (bridge_faults e) (now_ms e)))|done|
      by intros ? ? _ []]. }
  intros preferred w1 _ Hg1. apply (does_bind _ ok_mono 0 0 _ _ _ _ (fun _ w' => granted w' = granted w1)).
  { destruct (request_has_previous_response_id body); [|by apply does_ret].
    eapply does_weaken; [by apply (does_bridge (keep := keep) _ _ _ (fun e => HttpBridge.ContinuityAccount headers (bridge_faults e) (now_ms e)))|done|
      by intros ? ? _ []]. }
  intros continuity w2 _ Hg2. apply does_ret. split_and!; [congruence|done..].
Qed.

(** What holds of a body and its flags, of its replacement by the bridge and
    of its body without the previous response, holds of what the guard
    answers. *)
Lemma guard_does (holds : bytes -> bool -> bool -> Prop) route raw headers affinity w E :
  let flags body := request_has_previous_response_id body in
  let outputs body := request_has_previous_response_id body && request_contains_function_call_output body in
  keep w ->
  holds raw (flags raw) (outputs raw) ->
  (forall f w body', keep w ->
     (replace_previous_response_id_from_bridge raw headers f (now_ms (at_call (tick w))) (bridge_of w)).1 = Some body' ->
     holds body' (flags body') (outputs body')) ->
  (forall body body', holds body (flags body) (outputs body) -> outputs body = false ->
     strip_previous_response_id body = Some body' -> holds body' false false) ->
  does keep ok 0 (guard_backend_codex_previous_response at_call route raw headers affinity) w
    (fun g w' => granted w' = granted w /\ holds (guard_body g) (guard_continuation g) (guard_function_call_output g)) E.
Proof.
  intros flags outputs Hn Hraw Hrep Hstrip. unfold guard_backend_codex_previous_response.
  eapply (does_bind _ ok_mono 0 0); [apply inspect_does|]. intros g w1 Hm1 (Hg1 & E1 & E2 & E3). cbn beta.
  apply does_skip; [by rewrite E1, E2, E3, Hg1|]. intros _.
  eapply (does_bind _ ok_mono 0 0); [apply (does_replace (keep := keep))|]. intros rewritten w2 Hm2 [Hg2 Er].
  apply (does_bind _ ok_mono 0 0 _ _ _ _ (fun g w' => granted w' = granted w /\ holds (guard_body g) (guard_continuation g) (guard_function_call_output g) /\
     guard_continuation g = flags (guard_body g) /\ guard_function_call_output g = outputs (guard_body g))).
  - destruct rewritten as [body|]; [|apply does_ret; rewrite E1, E2, E3; split_and!; [congruence|done..]].
    eapply (does_bind _ ok_mono 0 0); [apply inspect_does|]. intros g2 w3 _ (Hg3 & F1 & F2 & F3). apply does_ret.
    cbn. rewrite F2, F3. split_and!; [congruence| |done|done]. eapply Hrep; [by apply Hm1, Hn|by rewrite <- E1; symmetry].
  - intros g2 w3 _ (Hg3 & Hg & G1 & G2). destruct (_ || guard_function_call_output g2) eqn:Ec; [by apply does_ret|].
    apply orb_false_iff in Ec as [_ Ec]. destruct (strip_previous_response_id (guard_body g2)) as [stripped|] eqn:Es; [|by apply does_ret].
    apply does_ret. cbn. split; [done|]. eapply Hstrip; [rewrite G1, G2 in Hg; exact Hg|congruence|exact Es].
Qed.

End guard.

(** ** The conversation of tool outputs *)

Section conversation.
Context {codec : JsonCodec} (at_call : nat -> CallEnv) (log : list remembered) (t0 : nat) (inbound_headers : HeaderMap).

Definition kPreviousResponseId : bytes := $"previous_response_id".

(** What the library writes of a request with another previous response is
    read back. *)
Definition rereads (raw : bytes) : Prop :=
  forall object id text,
    read_object raw = Some object -> write_json (JObject (<[kPreviousResponseId := JString id]> object)) = Some text ->
    read_json text = Some (JObject (<[kPreviousResponseId := JString id]> object)).

(** A response that was remembered under the key of this request, less than
    two lifetimes before a call of it. *)
Definition continues (e : remembered) : Prop :=
  e ∈ log /\ Ascii.trim_ascii (rem_response e) <> [] /\
  exists headers key n, bridged at_call inbound_headers headers /\ usable_key headers = Some key /\
    scoped_bridge_key (rem_key e) (rem_scope e) = scoped_bridge_key key (api_key_scope_from_headers headers) /\
    (t0 <= n)%nat /\ now_ms (at_call n) < rem_at e + 2 * kBridgeTtlMs.

(** The request, or the request as the continuation of a response that was
    remembered for its conversation: never one without a conversation. *)
Definition keeps_conversation (raw body : bytes) : Prop :=
  body = raw \/ exists e, continues e /\ inject_previous_response_id raw (rem_response e) = Some body.

Definition hands_in_outputs (body : bytes) : Prop :=
  request_has_previous_response_id body = true /\ request_contains_function_call_output body = true.

Lemma injected_reads raw id body :
  rereads raw -> inject_previous_response_id raw id = Some body ->
  exists object, read_object raw = Some object /\ read_object body = Some (<[kPreviousResponseId := JString id]> object).
Proof.
  intros Hr E. apply bind_Some in E as (object & Eo & Ew). exists object. split; [done|]. unfold read_object.
  by rewrite (Hr _ _ _ Eo Ew).
Qed.

Lemma injected_outputs raw id body :
  rereads raw -> Ascii.trim_ascii id <> [] -> inject_previous_response_id raw id = Some body ->
  request_contains_function_call_output raw = true -> hands_in_outputs body.
Proof.
  intros Hr Hid E Hraw. destruct (injected_reads _ _ _ Hr E) as (object & Eo & Eb). split.
  - unfold request_has_previous_response_id, parse_previous_response_id. rewrite Eb. cbn [mbind option_bind].
    change (string_at _ _) with (string_at (<[kPreviousResponseId := JString id]> object) kPreviousResponseId).
    rewrite string_at_insert_eq. cbn. by rewrite bool_decide_false.
  - unfold request_contains_function_call_output in *. rewrite Eo in Hraw. rewrite Eb. revert Hraw.
    unfold object_contains_function_call_output. cbn [json_contains_function_call_output].
    unfold input_contains_function_call_output. rewrite !field_rec_lookup, !lookup_insert_ne by done. done.
Qed.

Lemma keeps_outputs raw body :
  rereads raw -> hands_in_outputs raw -> keeps_conversation raw body -> hands_in_outputs body.
Proof. intros Hr Hraw [->|(e & (_ & Hid & _) & E)]; [done|]. eapply injected_outputs; [done..|]. apply Hraw. Qed.

Lemma keeps_replaced raw body headers f w body' :
  rereads raw -> Forall (fun e => Ascii.trim_ascii (rem_response e) <> []) log -> bridged at_call inbound_headers headers ->
  named_since log t0 w -> keeps_conversation raw body ->
  (replace_previous_response_id_from_bridge body headers f (now_ms (at_call (tick w))) (bridge_of w)).1 = Some body' ->
  keeps_conversation raw body'.
Proof.
  intros Hr Hids Hh [Hl Ht] Hk E.
  destruct (replaced_spec _ _ _ _ _ _ _ Hl E) as (key & e & Hkey & He & Es & Hn & Ei). right. exists e. split.
  { split; [done|]. split; [by eapply Forall_forall in Hids|]. by exists headers, key, (tick w). }
  destruct Hk as [->|(e0 & _ & E0)]; [done|].
  destruct (injected_reads _ _ _ Hr E0) as (object & Eo & Eb). unfold inject_previous_response_id in *.
  rewrite Eo in *. rewrite Eb in Ei. cbn in *. by rewrite insert_insert_eq in Ei.
Qed.

End conversation.

(** ** The theorems *)

Section theorems.
Context {sodium : Sodium} {codec : JsonCodec}.
Context (env : environment) (strtod : bytes -> double * nat) (pow : double -> double -> double).
Context (from_chars : bytes -> option double) (config : Config) (crypto : TokenStorageCryptoState) (thread : Z).
Context (at_call : nat -> CallEnv).

Local Abbreviation responses_json := (collect_responses_json env strtod pow from_chars config crypto thread at_call).
Local Abbreviation responses_sse := (stream_responses_sse env strtod pow from_chars config crypto thread at_call).
Local Abbreviation compact := (collect_responses_compact env strtod pow from_chars config crypto thread at_call).
Local Abbreviation memories := (collect_memories_trace_summarize env strtod pow from_chars config crypto thread at_call).

(** The world with an empty record, so that what it holds afterwards is of one
    request. *)
Definition fresh (w : ServiceWorld) : ServiceWorld :=
  mkService (routing w) (bridge w) (usage w) (traffic w) (tick w) [] [] [] [].

Definition any_body (body : bytes) : Prop := True.

Lemma any_guard route raw headers affinity w E :
  does anything (authorised (fun _ _ _ => Throw []) (fun _ => True)) 0
    (guard_backend_codex_previous_response at_call route raw headers affinity) w (fun g w' => granted w' = granted w /\ True) E.
Proof.
  by apply (guard_does (keep := anything) at_call _ (authorised_mono _ _) (fun _ _ _ => True)).
Qed.

Lemma json_any route raw headers w E :
  does anything (sent_through (json_plans at_call headers) any_body) 12 (responses_json route raw headers) (fresh w) (fun _ _ => True) E.
Proof.
  apply (collect_json_does env strtod pow from_chars config crypto thread at_call (keep := anything) any_body (fun _ _ _ => True)); try done.
  intros. apply any_guard.
Qed.

Lemma sse_any route raw headers w :
  does anything (sent_through (sse_plans at_call route headers) any_body) 12 (responses_sse route raw headers) (fresh w) (fun _ _ => True) (fun _ => True).
Proof.
  apply (collect_sse_does env strtod pow from_chars config crypto thread at_call (keep := anything) any_body (fun _ _ _ => True)); try done.
  intros. apply any_guard.
Qed.

Lemma compact_any route raw headers w E :
  does anything (sent_through (unary_plans compact_plan headers) any_body) 4 (compact route raw headers) (fresh w) (fun _ _ => True) E.
Proof.
  by apply (collect_compact_does env strtod pow from_chars config crypto thread at_call any_body (fun _ _ _ => True)).
Qed.

Lemma memories_any route raw headers w E :
  does anything (sent_through (unary_plans memories_plan headers) any_body) 4 (memories route raw headers) (fresh w) (fun _ _ => True) E.
Proof.
  by apply (collect_memories_does env strtod pow from_chars config crypto thread at_call any_body (fun _ _ _ => True)).
Qed.

Lemma fresh_attempts {A} ok n (m : Service A) w (Q : A -> ServiceWorld -> Prop) E :
  does anything ok n m (fresh w) Q E ->
  let w' := (m (fresh w)).2 in (length (sent w') <= n)%nat /\ Forall (ok (granted w')) (sent w').
Proof.
  unfold does, wp. destruct (m (fresh w)) as [[a|what] w']; intros [[_ (l & El & Ll & Fl) _] _]; cbn in *; by rewrite El.
Qed.

Lemma fresh_answer {A} ok n (m : Service A) w (Q : A -> ServiceWorld -> Prop) :
  does anything ok n m (fresh w) Q (fun _ => False) -> exists a, (m (fresh w)).1 = Ret a.
Proof. unfold does, wp. destruct (m (fresh w)) as [[a|what] w']; [by exists a|by intros [_ ?]]. Qed.

(** Every request is answered, after a bounded number of attempts: whatever
    the upstream, the database and the identity provider do, a request for a
    response ends in an answer after at most twelve attempts, four plans of at
    most three attempts each, and a request without a conversation after at
    most four; nor does a streamed response make more. (C24) *)
Theorem requests_answered route raw headers w :
  ((exists answer, (responses_json route raw headers (fresh w)).1 = Ret answer) /\
   (length (sent (responses_json route raw headers (fresh w)).2) <= 12)%nat) /\
  (length (sent (responses_sse route raw headers (fresh w)).2) <= 12)%nat /\
  ((exists answer, (compact route raw headers (fresh w)).1 = Ret answer) /\
   (length (sent (compact route raw headers (fresh w)).2) <= 4)%nat) /\
  ((exists answer, (memories route raw headers (fresh w)).1 = Ret answer) /\
   (length (sent (memories route raw headers (fresh w)).2) <= 4)%nat).
Proof.
  split_and!.
  - eapply fresh_answer, json_any.
  - eapply fresh_attempts, (json_any _ _ _ _ (fun _ => True)).
  - eapply fresh_attempts, sse_any.
  - eapply fresh_answer, compact_any.
  - eapply fresh_attempts, (compact_any _ _ _ _ (fun _ => True)).
  - eapply fresh_answer, memories_any.
  - eapply fresh_attempts, (memories_any _ _ _ _ (fun _ => True)).
Qed.

(** Accounts are not mixed up: every attempt made for a request carries the
    token and the name of the account that was granted to this request last
    before it, and its traffic is counted for that account when it has an
    internal number; before the first grant an attempt carries no token and no
    traffic is counted. (C9) *)
Theorem attempts_carry_one_account route raw headers w :
  (let w' := (responses_json route raw headers (fresh w)).2 in
   Forall (sent_through (json_plans at_call headers) any_body (granted w')) (sent w')) /\
  (let w' := (responses_sse route raw headers (fresh w)).2 in
   Forall (sent_through (sse_plans at_call route headers) any_body (granted w')) (sent w')) /\
  (let w' := (compact route raw headers (fresh w)).2 in
   Forall (sent_through (unary_plans compact_plan headers) any_body (granted w')) (sent w')) /\
  (let w' := (memories route raw headers (fresh w)).2 in
   Forall (sent_through (unary_plans memories_plan headers) any_body (granted w')) (sent w')).
Proof.
  split_and!; eapply fresh_attempts; [apply (json_any _ _ _ _ (fun _ => True))|apply sse_any|
    apply (compact_any _ _ _ _ (fun _ => True))|apply (memories_any _ _ _ _ (fun _ => True))].
Qed.

(** *** Tool outputs *)

Section outputs.
Context (raw : bytes) (Hread : rereads raw) (Hraw : hands_in_outputs raw).
Context (log : list remembered) (Hids : Forall (fun e => Ascii.trim_ascii (rem_response e) <> []) log).
Context (t0 : nat) (inbound_headers : HeaderMap).

Local Abbreviation keeps := (keeps_conversation at_call log t0 inbound_headers raw).

(** The body of a turn that hands in tool outputs, with its flags set. *)
Definition carries_outputs (body : bytes) (c o : bool) : Prop := keeps body /\ c = true /\ o = true.

Lemma outputs_flags body :
  keeps body ->
  carries_outputs body (request_has_previous_response_id body)
    (request_has_previous_response_id body && request_contains_function_call_output body).
Proof. intros Hk. destruct (keeps_outputs at_call log t0 inbound_headers _ _ Hread Hraw Hk) as [E1 E2]. by rewrite E1, E2. Qed.

Lemma outputs_rewrite headers f w body body' :
  bridged at_call inbound_headers headers -> named_since log t0 w -> carries_outputs body true true ->
  (replace_previous_response_id_from_bridge body headers f (now_ms (at_call (tick w))) (bridge_of w)).1 = Some body' ->
  keeps body'.
Proof. intros Hh Hn [Hk _]. by apply keeps_replaced. Qed.

(** Nothing replaces such a body. *)
Lemma outputs_fallback headers body c o w body' :
  carries_outputs body c o -> (fallback_body_with_local_context at_call body headers c o w).1 = Ret (Some body') ->
  carries_outputs body' false false /\
  carries_outputs body' (request_has_previous_response_id body')
    (request_has_previous_response_id body' && request_contains_function_call_output body').
Proof. by intros (_ & -> & ->). Qed.

Lemma outputs_guard route headers affinity w E :
  bridged at_call inbound_headers headers -> named_since log t0 w ->
  does (named_since log t0) (authorised (fun _ _ _ => Throw []) (fun _ => True)) 0
    (guard_backend_codex_previous_response at_call route raw headers affinity) w
    (fun g w' => granted w' = granted w /\
       carries_outputs (guard_body g) (guard_continuation g) (guard_function_call_output g)) E.
Proof.
  intros Hh Hn. apply (guard_does at_call _ (authorised_mono _ _) carries_outputs); [done| | |].
  - apply outputs_flags. by left.
  - intros f w' body' Hn' E'. apply outputs_flags. eapply keeps_replaced; [done|done|exact Hh|exact Hn'|by left|exact E'].
  - intros body body' (_ & _ & Ho) Hf. congruence.
Qed.

End outputs.

(** Tool outputs stay in their conversation: when the library reads back what
    it writes of this request, and the bridge holds what the operations [ops]
    left in it, a request that hands in the outputs of tools for a previous
    response is only ever sent as it came, or with the identifier of another
    response that one of these operations remembered under the scoped key of
    this request, less than two lifetimes before it was looked up; however the
    upstream answers and whichever account serves it, it is never sent without
    a previous response. (C8) *)
Theorem tool_outputs_keep_conversation ops route raw headers w :
  rereads raw -> hands_in_outputs raw -> named (run_log ops) w ->
  let keeps := keeps_conversation at_call (run_log ops) (tick w) headers raw in
  (let w' := (responses_json route raw headers (fresh w)).2 in
   Forall (sent_through (json_plans at_call headers) keeps (granted w')) (sent w')) /\
  (let w' := (responses_sse route raw headers (fresh w)).2 in
   Forall (sent_through (sse_plans at_call route headers) keeps (granted w')) (sent w')).
Proof.
  intros Hread Hraw Hn keeps. pose proof (run_nonblank ops) as Hids.
  assert (named_since (run_log ops) (tick w) (fresh w)) as Hw by done.
  set (carries := carries_outputs raw (run_log ops) (tick w) headers).
  assert (forall body c o, carries body c o -> keeps body) as Hkeep by by intros body c o [? _].
  split; [eapply (fresh_attempts _ _ _ _ (fun _ _ => True) (fun _ => True))|eapply fresh_attempts].
  - apply (collect_json_does env strtod pow from_chars config crypto thread at_call (keep := named_since (run_log ops) (tick w)) keeps carries);
      [exact Hkeep|by apply outputs_rewrite|apply outputs_fallback|by apply outputs_guard|done|exact Hw].
  - apply (collect_sse_does env strtod pow from_chars config crypto thread at_call (keep := named_since (run_log ops) (tick w)) keeps carries);
      [exact Hkeep|by apply outputs_rewrite|apply outputs_fallback|by apply outputs_guard|done|exact Hw].
Qed.

End theorems.

(** An error inside a stream is answered with the status of the stream, which
    says success. *)
Lemma stream_error_answered_as_success `{JsonCodec} from_chars at_call headers sticky t p event object error serialized w :
  let u := mkUpstreamExecutionResult 200 [] [event] [] true 1000 [] in
  read_object event = Some object -> string_at object $"type" = Some $"error" -> object !! $"error" = Some error ->
  write_json (JObject {[$"error" := error]}) = Some serialized ->
  exists answer w', answer_responses_json from_chars at_call headers sticky (mkExchange t p u) w = (Ret answer, w') /\
    json_status answer = 200 /\ json_body answer = serialized.
Proof.
  intros u Er Et Ee Ew.
  assert (collect_response_body_from_stream_events [event] = Some serialized) as Hc.
  { unfold collect_response_body_from_stream_events. cbn [collect_events]. unfold collect_event.
    rewrite Er, Et, Ee. rewrite bool_decide_true by done. by rewrite Ew. }
  unfold answer_responses_json. cbn [upstream]. unfold mbind, service_bind, response_headers, asks.
  change (400 <=? ErrorPolicy.status u) with false. change (negb (is_empty (ErrorPolicy.body u))) with false.
  change (bool_decide (ErrorPolicy.events u = [])) with false. cbv iota. cbn [ErrorPolicy.events u].
  rewrite Hc. unfold on_bridge. do 2 eexists. split; [reflexivity|]. done.
Qed.

(** ** A concrete request *)

Definition tool_output : Json :=
  JObject (make_object [($"type", JString $"function_call_output"); ($"call_id", JString $"c"); ($"output", JString $"42")]).

Definition tool_object : JsonObject :=
  make_object [($"id", JString $"resp_2"); ($"model", JString $"m"); ($"input", JArray [tool_output])].

(** A request is written as the identifier it continues, in braces, and names
    itself [resp_2]. *)
Definition braces_codec : JsonCodec := {|
  read_json := fun s =>
    match s, last s with
    | ch :: rest, Some ch' =>
        if bool_decide (ch = Byte.x7b) && bool_decide (ch' = Byte.x7d)
        then Some (JObject (<[kPreviousResponseId := JString (take (length rest - 1) rest)]> tool_object)) else None
    | _, _ => None
    end;
  write_json := fun j =>
    match j with
    | JObject m => (fun id => $"{" ++ id ++ $"}") <$> string_at m kPreviousResponseId
    | _ => None
    end |}.

Definition tool_request : bytes := $"{resp_1}".

Lemma braces_read id :
  @read_json braces_codec ($"{" ++ id ++ $"}") = Some (JObject (<[kPreviousResponseId := JString id]> tool_object)).
Proof.
  cbn [read_json braces_codec app str]. change ($"{") with [Byte.x7b]. change ($"}") with [Byte.x7d]. cbn [app].
  rewrite app_comm_cons, last_snoc. cbn [andb]. rewrite !bool_decide_true by done. cbn [andb]. rewrite length_app. cbn [length].
  by replace (length id + 1 - 1)%nat with (length id) by lia; rewrite take_app_length.
Qed.

Lemma tool_request_rereads : @rereads braces_codec tool_request.
Proof.
  intros object id text Eo Ew. cbn [write_json braces_codec] in Ew. rewrite string_at_insert_eq in Ew.
  change (Some ($"{" ++ id ++ $"}") = Some text) in Ew. assert (text = $"{" ++ id ++ $"}") as -> by congruence. rewrite braces_read. unfold read_object in Eo.
  assert (@read_json braces_codec tool_request = Some (JObject (<[kPreviousResponseId := JString $"resp_1"]> tool_object)))
    as E1 by exact (braces_read $"resp_1").
  rewrite E1 in Eo. injection Eo as <-. by rewrite insert_insert_eq.
Qed.

Lemma tool_request_outputs : @hands_in_outputs braces_codec tool_request.
Proof. split; vm_compute; reflexivity. Qed.

(** The upstream has forgotten the response; everything else succeeds. *)
Definition forgetful (account : bytes) (p : Plan) : Upstream :=
  mkUpstreamExecutionResult 404 [] [] [] true 1000 $"previous_response_not_found".

Definition sample_call (n : nat) : CallEnv :=
  mkCallEnv all_steps (mkFaults true true true true) 0 1000 1000 (fun _ => []) $"turn" (fun _ t => (false, t)) forgetful
    (fun _ _ => None) (true, true, true).

(** The bridge remembers [resp_2] for the session. *)
Definition session_headers : HeaderMap := [($"session_id", $"s")].

Definition sample_ops : list HttpBridge.op :=
  [@HttpBridge.RememberJson session_headers tool_request tool_request [] (mkFaults false true true true) 500].

Definition sample_bridge : BridgeState := @HttpBridge.run_ops braces_codec (initial_state []) sample_ops.

Definition sample_service : ServiceWorld :=
  mkService sample_world sample_bridge initial_usage initial_traffic 0 [] [] [] [].

Lemma sample_world_named : named (@HttpBridge.run_log braces_codec sample_ops) sample_service.
Proof.
  unfold named. replace (bridge_of sample_service) with sample_bridge; [apply run_logged|].
  assert (HttpBridge.continuity sample_bridge = []) as E by (vm_compute; reflexivity).
  unfold bridge_of. cbn [bridge sample_service]. change (rows_of (routing sample_service)) with (@nil Continuity.ProxyResponseContinuityRecord).
  rewrite <- E. by destruct sample_bridge.
Qed.

Definition sample_answered : except ProxyJsonResult * ServiceWorld :=
  @Service.collect_responses_json plain_sodium braces_codec no_environment no_strtod first_argument (fun _ => None) sample_config
    initial_crypto_state 1 sample_call kBackendCodexRoute tool_request session_headers (fresh sample_service).

Lemma tool_outputs_keep_conversation_witness :
  RequestPlan.body <$> (attempt_plan <$> sent sample_answered.2) = [$"{resp_2}"] /\
  Forall (@sent_through (@json_plans braces_codec sample_call session_headers)
    (@keeps_conversation braces_codec sample_call (@HttpBridge.run_log braces_codec sample_ops) 0 session_headers tool_request)
    (granted sample_answered.2)) (sent sample_answered.2).
Proof.
  split; [vm_compute; reflexivity|].
  exact (proj1 (@tool_outputs_keep_conversation plain_sodium braces_codec no_environment no_strtod first_argument
    (fun _ => None) sample_config initial_crypto_state 1 sample_call sample_ops kBackendCodexRoute tool_request session_headers
    sample_service tool_request_rereads tool_request_outputs sample_world_named)).
Defined.
