(* ===== verification/Totp.v ===== *)
(** * Totp: one-time codes and password hashes of the dashboard

    src/native/auth/dashboard/src/totp_auth.cpp and password_auth.cpp: secrets
    in base 32, the codes of RFC 6238, and password hashes.  HMAC-SHA-1
    (mbedtls) and the password hash of libsodium are classes; random bytes are
    arguments. *)

From S2P Require Import Prelude Codec Text.
Import Text.Ascii.

(** ** Base 32 *)

Definition kBase32Alphabet : bytes := $"ABCDEFGHIJKLMNOPQRSTUVWXYZ234567".

(** [while (bits_left >= width) { push((buffer >> (bits_left - width)) &
    (2^width - 1)); bits_left -= width; }]: what is pushed, and the bits that
    stay.  Every pass takes bits, so as many passes as bits are enough. *)
Fixpoint take_groups (width : Z) (fuel : nat) (buffer bits_left : Z) : list Z * Z :=
  match fuel with
  | O => ([], bits_left)
  | S fuel =>
      if width <=? bits_left then
        let '(groups, rest) := take_groups width fuel buffer (bits_left - width) in
        (Z.land (Z.shiftr buffer (bits_left - width)) (Z.ones width) :: groups, rest)
      else ([], bits_left)
  end.

Definition base32_char (index : Z) : Byte.byte := nth (Z.to_nat index) kBase32Alphabet Byte.x00.

(** The state of the encoding loop: the output, the 32-bit buffer and the
    number of its low bits not yet written. *)
Definition encode_step (state : bytes * Z * Z) (byte : Byte.byte) : bytes * Z * Z :=
  let '(output, buffer, bits_left) := state in
  let buffer := Z.lor (u32 (Z.shiftl buffer 8)) (val byte) in
  let bits_left := bits_left + 8 in
  let '(groups, bits_left) := take_groups 5 (Z.to_nat bits_left) buffer bits_left in
  (output ++ (base32_char <$> groups), buffer, bits_left).

Definition base32_encode (input : bytes) : bytes :=
  let '(output, buffer, bits_left) := foldl encode_step ([], 0, 0) input in
  if 0 <? bits_left
  then output ++ [base32_char (Z.land (u32 (Z.shiftl buffer (5 - bits_left))) (Z.ones 5))]
  else output.

(** [std::toupper] on a character code. *)
Definition toupper (ch : Z) : Z := if (97 <=? ch) && (ch <=? 122) then ch - 32 else ch.

Definition base32_index (ch : Byte.byte) : Z :=
  let upper := toupper (val ch) in
  if (65 <=? upper) && (upper <=? 90) then upper - 65
  else if (50 <=? upper) && (upper <=? 55) then 26 + (upper - 50)
  else -1.

Definition is_separator (ch : Byte.byte) : bool := isspace ch || bool_decide (ch = Byte.x2d).

Definition decode_step (state : bytes * Z * Z) (index : Z) : bytes * Z * Z :=
  let '(output, buffer, bits_left) := state in
  let buffer := Z.lor (u32 (Z.shiftl buffer 5)) index in
  let bits_left := bits_left + 5 in
  let '(groups, bits_left) := take_groups 8 (Z.to_nat bits_left) buffer bits_left in
  (output ++ (byte_of <$> groups), buffer, bits_left).

Fixpoint decode_loop (state : bytes * Z * Z) (value : bytes) : option bytes :=
  match value with
  | [] => Some state.1.1
  | ch :: value =>
      if is_separator ch then decode_loop state value
      else let idx := base32_index ch in
           if idx <? 0 then None else decode_loop (decode_step state idx) value
  end.

Definition base32_decode (value : bytes) : option bytes := decode_loop ([], 0, 0) value.

(** ** Codes *)

Definition kTotpPeriodSeconds : Z := 30.

(** [mbedtls_md_hmac] with SHA-1: the digest, or an error. *)
Class HmacSha1 := { hmac_sha1 : bytes -> bytes -> option bytes }.

(** A digest has 20 bytes. *)
Class HmacSha1Laws (H : HmacSha1) := {
  hmac_sha1_length key message digest : hmac_sha1 key message = Some digest -> length digest = 20%nat
}.

(** [snprintf("%06u")] *)
Fixpoint last_digits (n : nat) (z : Z) : bytes :=
  match n with O => [] | S n => last_digits n (z / 10) ++ [byte_of (48 + z mod 10)] end.

Section codes.
Context {hmac : HmacSha1}.

Definition digest_at (digest : bytes) (index : Z) : Z := val (nth (Z.to_nat index) digest Byte.x00).

Definition truncated (digest : bytes) : Z :=
  let offset := Z.land (digest_at digest 19) 0x0F in
  Z.lor (Z.lor (Z.lor (Z.shiftl (Z.land (digest_at digest offset) 0x7F) 24)
                      (Z.shiftl (digest_at digest (offset + 1)) 16))
               (Z.shiftl (digest_at digest (offset + 2)) 8))
        (digest_at digest (offset + 3)).

Definition code_for_step (secret : bytes) (step : Z) : option bytes :=
  if bool_decide (secret = []) || (step <? 0) then None
  else
    let counter := be_bytes 8 step in
    match hmac_sha1 secret counter with
    | None => None
    | Some digest => Some (last_digits 6 (truncated digest mod 1000000))
    end.

(** [random]: the bytes of [randombytes_buf]; [ready]: [sodium_init]. *)
Definition generate_totp_secret (ready : bool) (random : bytes) : bytes :=
  if negb ready then [] else base32_encode random.

Definition generate_totp_code (base32_secret : bytes) (unix_time : Z) : option bytes :=
  match base32_decode base32_secret with
  | None => None
  | Some decoded => if unix_time <? 0 then None else code_for_step decoded (unix_time / kTotpPeriodSeconds)
  end.

(** The steps of the window in their order, past those already used. *)
Fixpoint first_match (decoded code : bytes) (last_verified_step : option Z) (steps : list Z) : option Z :=
  match steps with
  | [] => None
  | step :: steps =>
      if step <? 0 then first_match decoded code last_verified_step steps
      else if match last_verified_step with Some last => step <=? last | None => false end
      then first_match decoded code last_verified_step steps
      else match code_for_step decoded step with
           | None => first_match decoded code last_verified_step steps
           | Some expected =>
               if bool_decide (expected = code) then Some step else first_match decoded code last_verified_step steps
           end
  end.

Definition window_steps (unix_time window : Z) : list Z :=
  let safe_window := Z.max 0 window in
  seqZ (unix_time / kTotpPeriodSeconds - safe_window) (2 * safe_window + 1).

(** The step that matched, which the code also stores through
    [matched_step_out]. *)
Definition verify_totp_code (base32_secret code : bytes) (unix_time window : Z) (last_verified_step : option Z) :
    option Z :=
  if (unix_time <? 0) || negb (size_of code =? 6) then None
  else match base32_decode base32_secret with
       | None | Some [] => None
       | Some decoded => first_match decoded code last_verified_step (window_steps unix_time window)
       end.

End codes.

(** ** The address of a secret *)

Definition is_unreserved (ch : Byte.byte) : bool :=
  let c := val ch in
  (48 <=? c) && (c <=? 57) || (65 <=? c) && (c <=? 90) || (97 <=? c) && (c <=? 122) ||
  bool_decide (ch ∈ $"-_.~").

Definition kUpperHex : bytes := $"0123456789ABCDEF".

(** [snprintf("%%%02X")] *)
Definition escape_char (ch : Byte.byte) : bytes :=
  [Byte.x25; nth (Z.to_nat (Z.shiftr (val ch) 4)) kUpperHex Byte.x00;
   nth (Z.to_nat (Z.land (val ch) 15)) kUpperHex Byte.x00].

Definition percent_encode (value : bytes) : bytes :=
  concat ((fun ch => if is_unreserved ch then [ch] else escape_char ch) <$> value).

Definition build_totp_otpauth_uri (base32_secret issuer account_name : bytes) : bytes :=
  let issuer_encoded := percent_encode issuer in
  $"otpauth://totp/" ++ issuer_encoded ++ $":" ++ percent_encode account_name ++ $"?secret=" ++ base32_secret ++
  $"&issuer=" ++ issuer_encoded.

(** ** Passwords *)

(** [crypto_pwhash_str] with its salt, and [crypto_pwhash_str_verify]. *)
Class PwHash := {
  pwhash_ready : bool;
  crypto_pwhash_str : bytes -> bytes -> option bytes;
  crypto_pwhash_str_verify : bytes -> bytes -> bool;
}.

(** A hash verifies the password it was made of; it is printable text that
    names its algorithm. *)
Class PwHashLaws (P : PwHash) := {
  pwhash_verifies salt password hash :
    crypto_pwhash_str salt password = Some hash -> crypto_pwhash_str_verify hash password = true;
  pwhash_prefix salt password hash :
    crypto_pwhash_str salt password = Some hash -> exists rest, hash = $"$argon2id$" ++ rest;
  pwhash_text salt password hash : crypto_pwhash_str salt password = Some hash -> Byte.x00 ∉ hash;
}.

Section passwords.
Context {pwhash : PwHash}.

Definition is_supported_password_hash (password_hash : bytes) : bool :=
  if negb (starts_with password_hash $"$argon2id$" || starts_with password_hash $"$argon2i$") then false
  else negb (bool_decide (Byte.x00 ∈ password_hash)).

Definition hash_password (salt password : bytes) : option bytes :=
  if bool_decide (password = []) || negb pwhash_ready then None else crypto_pwhash_str salt password.

Definition verify_password (password password_hash : bytes) : bool :=
  if bool_decide (password = []) || negb (is_supported_password_hash password_hash) || negb pwhash_ready then false
  else crypto_pwhash_str_verify password_hash password.

(** A password opens what it was hashed to. *)
Lemma hashed_verifies `{!PwHashLaws pwhash} salt password hash :
  hash_password salt password = Some hash -> verify_password password hash = true.
Proof.
  unfold hash_password, verify_password. destruct (_ || negb pwhash_ready) eqn:E; [done|]. apply orb_false_iff in E as [Ep Er0]. apply bool_decide_eq_false in Ep. intros Eh.
  unfold is_supported_password_hash. destruct (pwhash_prefix _ _ _ Eh) as [rest Er].
  assert (starts_with hash $"$argon2id$" = true) as -> by (apply starts_with_spec; by exists rest).
  rewrite (bool_decide_false (_ ∈ _)) by by eapply pwhash_text.
  rewrite (bool_decide_false (password = [])) by done. rewrite Er0. by eapply pwhash_verifies.
Qed.

End passwords.

(** ** Groups of bits *)

(** The number that digits of [width] bits write. *)
Definition digits (width : Z) (ds : list Z) : Z := foldl (fun acc d => acc * 2 ^ width + d) 0 ds.

Lemma digits_app width a b : 0 <= width -> digits width (a ++ b) = digits width a * 2 ^ (width * size_of b) + digits width b.
Proof.
  intros Hw. unfold digits. rewrite foldl_app. generalize (foldl (fun acc d => acc * 2 ^ width + d) 0 a) as x.
  induction b as [|d b IH] using rev_ind; intros x; [rewrite size_of_nil, Z.mul_0_r; cbn; lia|].
  rewrite !foldl_snoc, (IH x), size_of_app. pose proof (size_of_nonneg b).
  change (size_of [d]) with 1. replace (width * (size_of b + 1)) with (width * size_of b + width) by lia.
  rewrite Z.pow_add_r by nia. ring.
Qed.

Lemma digits_snoc width a d : 0 <= width -> digits width (a ++ [d]) = digits width a * 2 ^ width + d.
Proof. intros Hw. unfold digits. by rewrite foldl_app. Qed.

Definition in_group (width d : Z) : Prop := 0 <= d < 2 ^ width.

Lemma digits_inj width a b :
  0 <= width -> length a = length b -> Forall (in_group width) a -> Forall (in_group width) b ->
  digits width a = digits width b -> a = b.
Proof.
  intros Hw. revert b. induction a as [|x a IH] using rev_ind; intros b Hl Ha Hb E; [by destruct b|].
  destruct b as [|y b _] using rev_ind; [rewrite length_app in Hl; cbn in Hl; lia|].
  rewrite !length_app in Hl. cbn in Hl. rewrite !digits_snoc in E by done.
  apply Forall_app in Ha as [Ha [Hx _]%Forall_cons]. apply Forall_app in Hb as [Hb [Hy _]%Forall_cons].
  unfold in_group in Hx, Hy.
  destruct (Z.div_mod_unique (2 ^ width) (digits width a) (digits width b) x y) as [E' <-]; [lia..|].
  f_equal. apply IH; try done. lia.
Qed.

(** The low bits of a number, seen through the 32 bits of the buffer. *)
Lemma low_group v rest width :
  0 <= rest -> 0 <= width -> rest + width <= 32 -> Z.land (Z.shiftr (u32 v) rest) (Z.ones width) = (v / 2 ^ rest) mod 2 ^ width.
Proof.
  intros Hr Hw H. rewrite Z.land_ones, Z.shiftr_div_pow2 by lia. unfold wrap.
  apply Z.bits_inj'. intros n Hn. destruct (Z.ltb_spec n width).
  - by rewrite !Z.mod_pow2_bits_low, !Z.div_pow2_bits, Z.mod_pow2_bits_low by lia.
  - by rewrite !Z.mod_pow2_bits_high by lia.
Qed.

(** What the inner loop leaves: fewer bits than a group, and groups that
    write the number without them. *)
Lemma take_groups_spec width v bits :
  0 < width -> 0 <= bits <= 32 ->
  let '(groups, rest) := take_groups width (Z.to_nat bits) (u32 v) bits in
  0 <= rest < width /\ bits = width * size_of groups + rest /\ Forall (in_group width) groups /\
  v / 2 ^ rest = v / 2 ^ bits * 2 ^ (width * size_of groups) + digits width groups.
Proof.
  intros Hw Hb. assert (forall fuel bits, 0 <= bits <= 32 -> bits <= Z.of_nat fuel ->
    let '(groups, rest) := take_groups width fuel (u32 v) bits in
    0 <= rest < width /\ bits = width * size_of groups + rest /\ Forall (in_group width) groups /\
    v / 2 ^ rest = v / 2 ^ bits * 2 ^ (width * size_of groups) + digits width groups) as H; [|apply H; lia].
  clear bits Hb. induction fuel as [|fuel IH]; intros bits Hb Hf; cbn [take_groups].
  { change (size_of (@nil Z)) with 0. rewrite Z.mul_0_r. cbn. split_and!; [lia|lia|lia|constructor|lia]. }
  destruct (Z.leb_spec width bits) as [Hle|Hlt].
  2:{ change (size_of (@nil Z)) with 0. rewrite Z.mul_0_r. cbn. split_and!; [lia|lia|lia|constructor|lia]. }
  specialize (IH (bits - width)). destruct (take_groups width fuel (u32 v) (bits - width)) as [groups rest].
  destruct IH as (Hr & Es & Hg & Ev); [lia|lia|]. set (d := Z.land _ _).
  assert (d = (v / 2 ^ (bits - width)) mod 2 ^ width) as Ed by (apply low_group; lia).
  assert (0 < 2 ^ width) as Hp by lia. pose proof (size_of_nonneg groups).
  change (d :: groups) with ([d] ++ groups). rewrite size_of_app, digits_app by lia. change (size_of [d]) with 1. split_and!.
  - lia.
  - lia.
  - lia.
  - apply Forall_app. split; [|done]. apply Forall_singleton. unfold in_group. rewrite Ed. apply Z.mod_pos_bound. lia.
  - rewrite Ev. change (digits width [d]) with d. rewrite Z.mul_add_distr_l, Z.pow_add_r by nia.
    rewrite Z.mul_1_r.
    enough (v / 2 ^ (bits - width) = v / 2 ^ bits * 2 ^ width + d) as -> by ring.
    rewrite Ed. replace (v / 2 ^ bits) with (v / 2 ^ (bits - width) / 2 ^ width).
    + rewrite Z.mul_comm. apply Z.div_mod. lia.
    + rewrite Z.div_div by lia. rewrite <- Z.pow_add_r by lia. do 2 f_equal. lia.
Qed.

Lemma push_group v width d :
  0 <= width <= 32 -> in_group width d -> Z.lor (u32 (Z.shiftl (u32 v) width)) d = u32 (v * 2 ^ width + d).
Proof.
  intros Hw Hd. unfold in_group in Hd.
  assert (v * 2 ^ width + d = Z.lor (Z.shiftl v width) d) as ->.
  { rewrite <- Z.shiftl_mul_pow2 by lia. rewrite <- Z.lxor_lor, <- Z.add_nocarry_lxor; [done|..].
    all: apply Z.bits_inj'; intros n Hn; rewrite Z.land_spec, Z.bits_0; destruct (Z.ltb_spec n width).
    1,3: by rewrite Z.shiftl_spec_low by lia.
    all: rewrite <- (Z.mod_small d (2 ^ width)), Z.mod_pow2_bits_high by lia; by rewrite andb_false_r. }
  unfold wrap. apply Z.bits_inj'. intros n Hn. rewrite Z.lor_spec. destruct (Z.ltb_spec n 32).
  - rewrite !Z.mod_pow2_bits_low, Z.lor_spec by lia. f_equal. destruct (Z.ltb_spec n width).
    + by rewrite !Z.shiftl_spec_low by lia.
    + rewrite !Z.shiftl_spec by lia. by rewrite Z.mod_pow2_bits_low by lia.
  - rewrite !Z.mod_pow2_bits_high by lia. rewrite <- (Z.mod_small d (2 ^ width)), Z.mod_pow2_bits_high by lia. done.
Qed.

(** ** Both directions write the same number *)

(** The loop has consumed the groups [ins], of [win] bits, and written the
    groups [outs], of [wout] bits. *)
Record loop_inv (win wout : Z) (ins outs : list Z) (buffer bits_left : Z) : Prop := {
  loop_bits : 0 <= bits_left < wout;
  loop_size : win * size_of ins = wout * size_of outs + bits_left;
  loop_range : Forall (in_group wout) outs;
  loop_buffer : buffer = u32 (digits win ins);
  loop_value : digits win ins / 2 ^ bits_left = digits wout outs;
}.

Lemma loop_start win wout : 0 < wout -> loop_inv win wout [] [] 0 0.
Proof. intros H. split; [lia|unfold size_of; cbn; lia|constructor|done|done]. Qed.

Lemma loop_step win wout ins outs buffer bits d :
  0 < win -> 0 < wout -> win + wout <= 32 -> in_group win d -> loop_inv win wout ins outs buffer bits ->
  let '(groups, rest) :=
    take_groups wout (Z.to_nat (bits + win)) (Z.lor (u32 (Z.shiftl buffer win)) d) (bits + win) in
  loop_inv win wout (ins ++ [d]) (outs ++ groups) (Z.lor (u32 (Z.shiftl buffer win)) d) rest.
Proof.
  intros Hwi Hwo Hw Hd [Hb Hs Hr -> Hv]. rewrite push_group by (done || lia).
  assert (digits win ins * 2 ^ win + d = digits win (ins ++ [d])) as -> by by rewrite digits_snoc by lia.
  pose proof (take_groups_spec wout (digits win (ins ++ [d])) (bits + win) Hwo) as H.
  destruct (take_groups _ _ _ _) as [groups rest]. destruct H as (H1 & H2 & H3 & H4); [lia|].
  split; [lia| |by apply Forall_app| done|].
  - rewrite !size_of_app. change (size_of [d]) with 1. lia.
  - rewrite H4, (digits_app wout) by lia.
    enough (digits win (ins ++ [d]) / 2 ^ (bits + win) = digits wout outs) as -> by done.
    rewrite <- Hv, digits_snoc by lia. unfold in_group in Hd.
    rewrite Z.add_comm, (Z.add_comm bits), Z.pow_add_r, <- Z.div_div by lia. f_equal.
    rewrite Z.add_comm, Z.div_add_l, Z.div_small by lia. lia.
Qed.

Lemma in_group_byte bs : Forall (in_group 8) (val <$> bs).
Proof. apply Forall_fmap, Forall_true. intros b. apply val_range. Qed.

(** *** Encoding *)

Lemma encode_loop bs :
  exists gs buffer bits, foldl encode_step ([], 0, 0) bs = (base32_char <$> gs, buffer, bits) /\
    loop_inv 8 5 (val <$> bs) gs buffer bits.
Proof.
  induction bs as [|b bs (gs & buffer & bits & E & Hi)] using rev_ind.
  { exists [], 0, 0. split; [done|]. by apply loop_start. }
  rewrite foldl_snoc, E, fmap_app. cbn [encode_step].
  pose proof (loop_step 8 5 _ _ _ _ (val b) ltac:(lia) ltac:(lia) ltac:(lia) (val_range b) Hi) as H.
  destruct (take_groups _ _ _ _) as [groups rest]. eexists (gs ++ groups), _, _. split; [by rewrite fmap_app|done].
Qed.

(** The characters of a text stand for groups that write the number of its
    bytes, with less than a group of zeros behind. *)
Lemma base32_encode_spec bs :
  exists gs pad, base32_encode bs = base32_char <$> gs /\ Forall (in_group 5) gs /\ 0 <= pad < 5 /\
    5 * size_of gs = 8 * size_of bs + pad /\ digits 5 gs = digits 8 (val <$> bs) * 2 ^ pad.
Proof.
  unfold base32_encode. destruct (encode_loop bs) as (gs & buffer & bits & -> & [Hb Hs Hr -> Hv]).
  replace (size_of (val <$> bs)) with (size_of bs) in Hs by (unfold size_of; by rewrite length_fmap).
  set (n := digits 8 (val <$> bs)) in *. destruct (Z.ltb_spec 0 bits).
  2:{ assert (bits = 0) as -> by lia. exists gs, 0. rewrite Z.div_1_r in Hv. split_and!; [done|done|lia..]. }
  set (d := Z.land _ _). assert (d = n mod 2 ^ bits * 2 ^ (5 - bits)) as Ed.
  { unfold d. rewrite Z.land_ones by lia. unfold wrap. rewrite Z.shiftl_mul_pow2 by lia.
    apply Z.bits_inj'. intros k Hk. destruct (Z.ltb_spec k 5); [|rewrite Z.mod_pow2_bits_high by lia; symmetry;
      rewrite Z.mul_pow2_bits, Z.mod_pow2_bits_high by lia; done].
    rewrite !Z.mod_pow2_bits_low by lia. destruct (Z.ltb_spec k (5 - bits)).
    - by rewrite !Z.mul_pow2_bits_low by lia.
    - by rewrite !Z.mul_pow2_bits, !Z.mod_pow2_bits_low by lia. }
  assert (2 ^ bits * 2 ^ (5 - bits) = 32) as Ep by (rewrite <- Z.pow_add_r by lia; by replace (bits + (5 - bits)) with 5 by lia).
  assert (0 < 2 ^ (5 - bits)) as Hq by lia. pose proof (Z.mod_pos_bound n (2 ^ bits) ltac:(lia)) as Hm.
  pose proof (Z.div_mod n (2 ^ bits) ltac:(lia)) as Hn.
  exists (gs ++ [d]), (5 - bits). rewrite fmap_app, digits_snoc, <- Hv, size_of_app by lia. change (size_of [d]) with 1.
  split_and!; [done| |lia|lia|lia|].
  - apply Forall_app. split; [done|]. apply Forall_singleton. unfold in_group. change (2 ^ 5) with 32. nia.
  - rewrite Ed. change (2 ^ 5) with 32. rewrite <- Ep. transitivity ((2 ^ bits * (n / 2 ^ bits) + n mod 2 ^ bits) * 2 ^ (5 - bits)); [ring|].
    by rewrite <- Hn.
Qed.

(** *** Decoding *)

Lemma base32_char_index d :
  in_group 5 d -> base32_index (base32_char d) = d /\ is_separator (base32_char d) = false.
Proof.
  intros Hd. unfold in_group in Hd. change (2 ^ 5) with 32 in Hd. unfold base32_char.
  assert (Z.to_nat d < 32)%nat as Hn by lia. rewrite <- (Z2Nat.id d) at 2 by lia.
  generalize (Z.to_nat d) as n, Hn. clear. intros n Hn.
  do 32 (destruct n as [|n]; [done|]). lia.
Qed.

Lemma decode_chars gs : forall ins state outs,
  Forall (in_group 5) gs -> state.1.1 = byte_of <$> outs -> loop_inv 5 8 ins outs state.1.2 state.2 ->
  exists outs' buffer bits, decode_loop state (base32_char <$> gs) = Some (byte_of <$> outs') /\
    loop_inv 5 8 (ins ++ gs) outs' buffer bits.
Proof.
  induction gs as [|g gs IH]; intros ins [[output buffer] bits] outs Hg Eo Hi; cbn [fst snd] in *.
  { exists outs, buffer, bits. rewrite app_nil_r. cbn. by rewrite Eo. }
  apply Forall_cons in Hg as [Hd Hg]. destruct (base32_char_index g Hd) as [Ei Es]. cbn [fmap list_fmap decode_loop].
  rewrite Es, Ei. assert (g <? 0 = false) as -> by (apply Z.ltb_ge; unfold in_group in Hd; lia).
  pose proof (loop_step 5 8 _ _ _ _ g ltac:(lia) ltac:(lia) ltac:(lia) Hd Hi) as H. unfold decode_step.
  destruct (take_groups _ _ _ _) as [groups rest].
  destruct (IH (ins ++ [g]) (output ++ (byte_of <$> groups), Z.lor (u32 (Z.shiftl buffer 5)) g, rest) (outs ++ groups))
    as (outs' & b' & r' & E & Hi'); [done|by rewrite fmap_app, Eo|done|].
  exists outs', b', r'. split; [done|]. by rewrite <- app_assoc in Hi'.
Qed.

(** A secret survives its text: what is shown to the user and stored decodes
    to the random bytes it was made of, whatever their number. *)
Theorem base32_roundtrip input : base32_decode (base32_encode input) = Some input.
Proof.
  destruct (base32_encode_spec input) as (gs & pad & -> & Hg & Hp & Hs & Hv).
  destruct (decode_chars gs [] ([], 0, 0) [] Hg eq_refl (loop_start 5 8 ltac:(lia))) as (outs & buffer & bits & E & [Hb Hso Hr _ Hvo]).
  unfold base32_decode. rewrite E. f_equal. cbn [app] in *. pose proof (size_of_nonneg outs). pose proof (size_of_nonneg input).
  assert (bits = pad /\ size_of outs = size_of input) as [-> Es] by lia.
  enough (outs = val <$> input) as ->.
  { rewrite <- list_fmap_compose. rewrite <- (list_fmap_id input) at 2. apply list_fmap_ext. intros i b _. apply byte_of_val. }
  apply (digits_inj 8); [lia| |done|apply in_group_byte|].
  - rewrite length_fmap. unfold size_of in Es. lia.
  - rewrite <- Hvo, Hv. by rewrite Z.div_mul by lia.
Qed.

(** ** Which codes are accepted *)

Lemma last_digits_length n z : length (last_digits n z) = n.
Proof. revert z. induction n as [|n IH]; intros z; [done|]. cbn. rewrite length_app, IH. cbn. lia. Qed.

Section window.
Context {hmac : HmacSha1}.

Lemma code_length secret step code : code_for_step secret step = Some code -> length code = 6%nat.
Proof.
  unfold code_for_step. destruct (_ || _); [done|]. destruct (hmac_sha1 _ _) as [digest|]; [|done]. intros [= <-].
  exact (last_digits_length 6 _).
Qed.

(** A step whose code may be presented: not used before. *)
Definition fresh (last_verified_step : option Z) (step : Z) : Prop :=
  match last_verified_step with Some last => last < step | None => True end.

Definition in_window (unix_time window step : Z) : Prop :=
  unix_time / kTotpPeriodSeconds - Z.max 0 window <= step <= unix_time / kTotpPeriodSeconds + Z.max 0 window.

Lemma window_steps_elem unix_time window step : step ∈ window_steps unix_time window <-> in_window unix_time window step.
Proof. unfold window_steps, in_window. rewrite elem_of_seqZ. lia. Qed.

Lemma window_steps_sorted unix_time window : StronglySorted Z.lt (window_steps unix_time window).
Proof.
  unfold window_steps. generalize (unix_time / kTotpPeriodSeconds - Z.max 0 window) as m.
  assert (0 <= 2 * Z.max 0 window + 1) as Hn by lia. revert Hn. generalize (2 * Z.max 0 window + 1) as n. intros n Hn.
  pattern n. apply natlike_ind; [intros m; by rewrite seqZ_nil; [constructor|]| |done]. clear n Hn.
  intros n Hn IH m. rewrite seqZ_cons by lia. rewrite Z.pred_succ. constructor; [apply IH|].
  apply Forall_forall. intros s ?%elem_of_seqZ. lia.
Qed.

(** What the loop finds: the first step, in order, that is fresh and has the
    code. *)
Lemma first_match_spec decoded code last steps :
  StronglySorted Z.lt steps ->
  match first_match decoded code last steps with
  | Some step => step ∈ steps /\ fresh last step /\ code_for_step decoded step = Some code /\
      forall s, s ∈ steps -> fresh last s -> code_for_step decoded s = Some code -> step <= s
  | None => forall s, s ∈ steps -> fresh last s -> code_for_step decoded s <> Some code
  end.
Proof.
  induction steps as [|s steps IH]; intros Hs; cbn [first_match]; [by intros s ?%elem_of_nil|].
  apply StronglySorted_inv in Hs as [Hs Hf]. specialize (IH Hs). rewrite Forall_forall in Hf.
  assert (~ (fresh last s /\ code_for_step decoded s = Some code) ->
    match first_match decoded code last steps with
    | Some step => step ∈ s :: steps /\ fresh last step /\ code_for_step decoded step = Some code /\
        forall s', s' ∈ s :: steps -> fresh last s' -> code_for_step decoded s' = Some code -> step <= s'
    | None => forall s', s' ∈ s :: steps -> fresh last s' -> code_for_step decoded s' <> Some code
    end) as Hskip.
  { intros Hno. destruct (first_match decoded code last steps) as [step|].
    - destruct IH as (H1 & H2 & H3 & H4). split_and!; [by right|done|done|]. intros s' [->|H]%elem_of_cons; [tauto|by apply H4].
    - intros s' [->|H]%elem_of_cons; [tauto|by apply IH]. }
  destruct (Z.ltb_spec s 0) as [Hn|Hn].
  { apply Hskip. intros [_ E]. revert E. unfold code_for_step. assert (s <? 0 = true) as -> by by apply Z.ltb_lt.
    by rewrite orb_true_r. }
  destruct (match last with Some l => s <=? l | None => false end) eqn:El.
  { apply Hskip. intros [E _]. unfold fresh in E. destruct last; [bool_hyps; lia|done]. }
  destruct (code_for_step decoded s) as [expected|] eqn:Ec; [|apply Hskip; by intros [_ ?]].
  case_bool_decide as Ex; [|apply Hskip; intros [_ E]; congruence]. subst expected.
  split_and!; [by left| |done|].
  - unfold fresh. destruct last; [bool_hyps; lia|done].
  - intros s' [->|H]%elem_of_cons; [lia|]. intros _ _. apply Z.lt_le_incl. by apply Hf.
Qed.

(** A code is accepted exactly when it is the code of an unused step of the
    window around the clock, and the step that is then recorded is the first
    such one. *)
Theorem totp_accepts_window secret decoded code unix_time window last :
  0 <= unix_time -> base32_decode secret = Some decoded ->
  match verify_totp_code secret code unix_time window last with
  | Some step =>
      in_window unix_time window step /\ fresh last step /\ 0 <= step /\
      generate_totp_code secret (step * kTotpPeriodSeconds) = Some code /\
      forall s, in_window unix_time window s -> fresh last s -> 0 <= s ->
        generate_totp_code secret (s * kTotpPeriodSeconds) = Some code -> step <= s
  | None =>
      forall time, 0 <= time -> in_window unix_time window (time / kTotpPeriodSeconds) ->
        fresh last (time / kTotpPeriodSeconds) -> generate_totp_code secret time <> Some code
  end.
Proof.
  intros Ht Ed. unfold verify_totp_code, generate_totp_code. rewrite Ed.
  assert (unix_time <? 0 = false) as -> by by apply Z.ltb_ge.
  assert (forall s, 0 <= s -> (if s * kTotpPeriodSeconds <? 0 then None else code_for_step decoded (s * kTotpPeriodSeconds / kTotpPeriodSeconds))
                    = code_for_step decoded s) as Es.
  { intros s Hs. unfold kTotpPeriodSeconds. destruct (Z.ltb_spec (s * 30) 0); [lia|]. by rewrite Z.div_mul by lia. }
  assert (forall s, code_for_step decoded s = Some code -> decoded <> [] /\ size_of code = 6 /\ 0 <= s) as Hc.
  { intros s E. split_and!.
    - intros ->. revert E. unfold code_for_step. by rewrite bool_decide_true by done.
    - apply code_length in E. unfold size_of. lia.
    - destruct (Z.ltb_spec s 0) as [Hn|]; [|lia]. revert E. unfold code_for_step.
      assert (s <? 0 = true) as -> by by apply Z.ltb_lt. by rewrite orb_true_r. }
  destruct (Z.eqb_spec (size_of code) 6) as [E6|E6]; cbn [negb orb].
  2:{ intros time Ht' _ _. assert (time <? 0 = false) as -> by by apply Z.ltb_ge. intros E. by apply Hc in E as (_ & ? & _). }
  destruct decoded as [|b bs].
  { intros time Ht' _ _. assert (time <? 0 = false) as -> by by apply Z.ltb_ge. intros E. by apply Hc in E as (? & _ & _). }
  pose proof (first_match_spec (b :: bs) code last _ (window_steps_sorted unix_time window)) as H.
  destruct (first_match _ _ _ _) as [step|].
  - destruct H as (H1 & H2 & H3 & H4). destruct (Hc _ H3) as (_ & _ & H5). split_and!; [by apply window_steps_elem|done|done|by rewrite Es|].
    intros s Hs1 Hs2 Hs3. rewrite Es by done. apply H4; [by apply window_steps_elem|done].
  - intros time Ht' Hw Hf. assert (time <? 0 = false) as -> by by apply Z.ltb_ge. apply H; [by apply window_steps_elem|done].
Qed.

End window.

Definition sample_hmac : HmacSha1 := {| hmac_sha1 key message := Some (take 20 (message ++ replicate 20 Byte.x01)) |}.

Lemma totp_accepts_window_witness :
  0 <= 95 /\ base32_decode $"MFRGG" = Some $"abc" /\
  in_window 95 1 (default 0 (@verify_totp_code sample_hmac $"MFRGG" (default [] (@generate_totp_code sample_hmac $"MFRGG" 95)) 95 1 None)).
Proof.
  assert (base32_decode $"MFRGG" = Some $"abc") as E by (vm_compute; reflexivity).
  pose proof (@totp_accepts_window sample_hmac $"MFRGG" $"abc" (default [] (@generate_totp_code sample_hmac $"MFRGG" 95)) 95 1 None
    ltac:(lia) E) as H.
  split; [lia|]. split; [exact E|].
  destruct (verify_totp_code _ _ _ _ _) as [step|] eqn:Ev; [apply H|]. exfalso. revert Ev. vm_compute. discriminate.
Defined.
