(* ===== verification/SettingsRepo.v ===== *)
(** * SettingsRepo: the settings of the dashboard

    src/native/db/repositories/src/settings_repo.cpp with
    include/repositories/settings_repo.h: the one row of dashboard_settings,
    partial updates of it, and the columns of the sign-in.  Tables are those
    this code creates; [runs] tells which statements run. *)

From S2P Require Import Prelude Text Double Headers Fernet TokenStore Accounts Pricing StickyAffinity.
From Stdlib Require Import Floats.SpecFloat.
Import Text.Ascii.

(** ** The records *)

Record DashboardSettingsRecord := mkSettings {
  theme : bytes;
  sticky_threads_enabled : bool;
  upstream_stream_transport : bytes;
  prefer_earlier_reset_accounts : bool;
  routing_strategy : bytes;
  strict_lock_pool_continuations : bool;
  locked_routing_account_ids : bytes;
  openai_cache_affinity_max_age_seconds : Z;
  import_without_overwrite : bool;
  totp_required_on_login : bool;
  api_key_auth_enabled : bool;
  routing_headroom_weight_primary : double;
  routing_headroom_weight_secondary : double;
  routing_score_alpha : double;
  routing_score_beta : double;
  routing_score_gamma : double;
  routing_score_delta : double;
  routing_score_zeta : double;
  routing_score_eta : double;
  routing_success_rate_rho : double;
  routing_plan_model_pricing_usd_per_million : bytes;
  sync_cluster_name : bytes;
  sync_site_id : Z;
  sync_port : Z;
  sync_discovery_enabled : bool;
  sync_interval_seconds : Z;
  sync_conflict_resolution : bytes;
  sync_journal_retention_days : Z;
  sync_tls_enabled : bool;
  sync_require_handshake_auth : bool;
  sync_cluster_shared_secret : bytes;
  sync_tls_verify_peer : bool;
  sync_tls_ca_certificate_path : bytes;
  sync_tls_certificate_chain_path : bytes;
  sync_tls_private_key_path : bytes;
  sync_tls_pinned_peer_certificate_sha256 : bytes;
  sync_schema_version : Z;
  sync_min_supported_schema_version : Z;
  sync_allow_schema_downgrade : bool;
  sync_peer_probe_enabled : bool;
  sync_peer_probe_interval_ms : Z;
  sync_peer_probe_timeout_ms : Z;
  sync_peer_probe_max_per_refresh : Z;
  sync_peer_probe_fail_closed : bool;
  sync_peer_probe_fail_closed_failures : Z;
  connect_address : bytes;
  password_hash : option bytes;
  totp_secret : option bytes;
  totp_last_verified_step : option Z;
}.

(** The values of a new record, and of a new row. *)
Definition default_settings : DashboardSettingsRecord :=
  mkSettings
    $"auto" false $"default" false $"weighted_round_robin" false [] 300 false false false (cents 35) (cents 65)
    (cents 30) (cents 25) (cents 20) (cents 20) (cents 5) (cents 100) (cents 200) [] $"default" 1 9400 true 5
    $"lww" 30 true true [] true [] [] [] [] 1 1 false true 5000 500 2 true 3 [] None None None.

Module Patch.

Record DashboardSettingsPatch := mkPatch {
  theme : option bytes;
  sticky_threads_enabled : option bool;
  upstream_stream_transport : option bytes;
  prefer_earlier_reset_accounts : option bool;
  routing_strategy : option bytes;
  strict_lock_pool_continuations : option bool;
  locked_routing_account_ids : option bytes;
  openai_cache_affinity_max_age_seconds : option Z;
  import_without_overwrite : option bool;
  totp_required_on_login : option bool;
  api_key_auth_enabled : option bool;
  routing_headroom_weight_primary : option double;
  routing_headroom_weight_secondary : option double;
  routing_score_alpha : option double;
  routing_score_beta : option double;
  routing_score_gamma : option double;
  routing_score_delta : option double;
  routing_score_zeta : option double;
  routing_score_eta : option double;
  routing_success_rate_rho : option double;
  routing_plan_model_pricing_usd_per_million : option bytes;
  sync_cluster_name : option bytes;
  sync_site_id : option Z;
  sync_port : option Z;
  sync_discovery_enabled : option bool;
  sync_interval_seconds : option Z;
  sync_conflict_resolution : option bytes;
  sync_journal_retention_days : option Z;
  sync_tls_enabled : option bool;
  sync_require_handshake_auth : option bool;
  sync_cluster_shared_secret : option bytes;
  sync_tls_verify_peer : option bool;
  sync_tls_ca_certificate_path : option bytes;
  sync_tls_certificate_chain_path : option bytes;
  sync_tls_private_key_path : option bytes;
  sync_tls_pinned_peer_certificate_sha256 : option bytes;
  sync_schema_version : option Z;
  sync_min_supported_schema_version : option Z;
  sync_allow_schema_downgrade : option bool;
  sync_peer_probe_enabled : option bool;
  sync_peer_probe_interval_ms : option Z;
  sync_peer_probe_timeout_ms : option Z;
  sync_peer_probe_max_per_refresh : option Z;
  sync_peer_probe_fail_closed : option bool;
  sync_peer_probe_fail_closed_failures : option Z;
  connect_address : option bytes;
}.

End Patch.

(** The record with the fields the patch gives. *)
Definition patched (patch : Patch.DashboardSettingsPatch) (current : DashboardSettingsRecord) : DashboardSettingsRecord :=
  mkSettings
    (default (theme current) (Patch.theme patch))
    (default (sticky_threads_enabled current) (Patch.sticky_threads_enabled patch))
    (default (upstream_stream_transport current) (Patch.upstream_stream_transport patch))
    (default (prefer_earlier_reset_accounts current) (Patch.prefer_earlier_reset_accounts patch))
    (default (routing_strategy current) (Patch.routing_strategy patch))
    (default (strict_lock_pool_continuations current) (Patch.strict_lock_pool_continuations patch))
    (default (locked_routing_account_ids current) (Patch.locked_routing_account_ids patch))
    (default (openai_cache_affinity_max_age_seconds current) (Patch.openai_cache_affinity_max_age_seconds patch))
    (default (import_without_overwrite current) (Patch.import_without_overwrite patch))
    (default (totp_required_on_login current) (Patch.totp_required_on_login patch))
    (default (api_key_auth_enabled current) (Patch.api_key_auth_enabled patch))
    (default (routing_headroom_weight_primary current) (Patch.routing_headroom_weight_primary patch))
    (default (routing_headroom_weight_secondary current) (Patch.routing_headroom_weight_secondary patch))
    (default (routing_score_alpha current) (Patch.routing_score_alpha patch))
    (default (routing_score_beta current) (Patch.routing_score_beta patch))
    (default (routing_score_gamma current) (Patch.routing_score_gamma patch))
    (default (routing_score_delta current) (Patch.routing_score_delta patch))
    (default (routing_score_zeta current) (Patch.routing_score_zeta patch))
    (default (routing_score_eta current) (Patch.routing_score_eta patch))
    (default (routing_success_rate_rho current) (Patch.routing_success_rate_rho patch))
    (default (routing_plan_model_pricing_usd_per_million current) (Patch.routing_plan_model_pricing_usd_per_million patch))
    (default (sync_cluster_name current) (Patch.sync_cluster_name patch))
    (default (sync_site_id current) (Patch.sync_site_id patch))
    (default (sync_port current) (Patch.sync_port patch))
    (default (sync_discovery_enabled current) (Patch.sync_discovery_enabled patch))
    (default (sync_interval_seconds current) (Patch.sync_interval_seconds patch))
    (default (sync_conflict_resolution current) (Patch.sync_conflict_resolution patch))
    (default (sync_journal_retention_days current) (Patch.sync_journal_retention_days patch))
    (default (sync_tls_enabled current) (Patch.sync_tls_enabled patch))
    (default (sync_require_handshake_auth current) (Patch.sync_require_handshake_auth patch))
    (default (sync_cluster_shared_secret current) (Patch.sync_cluster_shared_secret patch))
    (default (sync_tls_verify_peer current) (Patch.sync_tls_verify_peer patch))
    (default (sync_tls_ca_certificate_path current) (Patch.sync_tls_ca_certificate_path patch))
    (default (sync_tls_certificate_chain_path current) (Patch.sync_tls_certificate_chain_path patch))
    (default (sync_tls_private_key_path current) (Patch.sync_tls_private_key_path patch))
    (default (sync_tls_pinned_peer_certificate_sha256 current) (Patch.sync_tls_pinned_peer_certificate_sha256 patch))
    (default (sync_schema_version current) (Patch.sync_schema_version patch))
    (default (sync_min_supported_schema_version current) (Patch.sync_min_supported_schema_version patch))
    (default (sync_allow_schema_downgrade current) (Patch.sync_allow_schema_downgrade patch))
    (default (sync_peer_probe_enabled current) (Patch.sync_peer_probe_enabled patch))
    (default (sync_peer_probe_interval_ms current) (Patch.sync_peer_probe_interval_ms patch))
    (default (sync_peer_probe_timeout_ms current) (Patch.sync_peer_probe_timeout_ms patch))
    (default (sync_peer_probe_max_per_refresh current) (Patch.sync_peer_probe_max_per_refresh patch))
    (default (sync_peer_probe_fail_closed current) (Patch.sync_peer_probe_fail_closed patch))
    (default (sync_peer_probe_fail_closed_failures current) (Patch.sync_peer_probe_fail_closed_failures patch))
    (default (connect_address current) (Patch.connect_address patch)) (password_hash current) (totp_secret current)
    (totp_last_verified_step current).

(** The columns of the sign-in. *)
Definition set_credentials (required : bool) (hash secret : option bytes) (step : option Z)
    (r : DashboardSettingsRecord) : DashboardSettingsRecord :=
  mkSettings
    (theme r) (sticky_threads_enabled r) (upstream_stream_transport r) (prefer_earlier_reset_accounts r)
    (routing_strategy r) (strict_lock_pool_continuations r) (locked_routing_account_ids r)
    (openai_cache_affinity_max_age_seconds r) (import_without_overwrite r) required (api_key_auth_enabled r)
    (routing_headroom_weight_primary r) (routing_headroom_weight_secondary r) (routing_score_alpha r)
    (routing_score_beta r) (routing_score_gamma r) (routing_score_delta r) (routing_score_zeta r)
    (routing_score_eta r) (routing_success_rate_rho r) (routing_plan_model_pricing_usd_per_million r)
    (sync_cluster_name r) (sync_site_id r) (sync_port r) (sync_discovery_enabled r) (sync_interval_seconds r)
    (sync_conflict_resolution r) (sync_journal_retention_days r) (sync_tls_enabled r)
    (sync_require_handshake_auth r) (sync_cluster_shared_secret r) (sync_tls_verify_peer r)
    (sync_tls_ca_certificate_path r) (sync_tls_certificate_chain_path r) (sync_tls_private_key_path r)
    (sync_tls_pinned_peer_certificate_sha256 r) (sync_schema_version r) (sync_min_supported_schema_version r)
    (sync_allow_schema_downgrade r) (sync_peer_probe_enabled r) (sync_peer_probe_interval_ms r)
    (sync_peer_probe_timeout_ms r) (sync_peer_probe_max_per_refresh r) (sync_peer_probe_fail_closed r)
    (sync_peer_probe_fail_closed_failures r) (connect_address r) hash secret step.

Definition column_real (value : double) : double := match value with S754_zero _ => f_zero | _ => value end.

(** The columns as they are stored: a REAL holds no negative zero. *)
Definition stored (r : DashboardSettingsRecord) : DashboardSettingsRecord :=
  mkSettings
    (theme r) (sticky_threads_enabled r) (upstream_stream_transport r) (prefer_earlier_reset_accounts r)
    (routing_strategy r) (strict_lock_pool_continuations r) (locked_routing_account_ids r)
    (openai_cache_affinity_max_age_seconds r) (import_without_overwrite r) (totp_required_on_login r)
    (api_key_auth_enabled r) (column_real (routing_headroom_weight_primary r))
    (column_real (routing_headroom_weight_secondary r)) (column_real (routing_score_alpha r))
    (column_real (routing_score_beta r)) (column_real (routing_score_gamma r))
    (column_real (routing_score_delta r)) (column_real (routing_score_zeta r)) (column_real (routing_score_eta r))
    (column_real (routing_success_rate_rho r)) (routing_plan_model_pricing_usd_per_million r) (sync_cluster_name r)
    (sync_site_id r) (sync_port r) (sync_discovery_enabled r) (sync_interval_seconds r)
    (sync_conflict_resolution r) (sync_journal_retention_days r) (sync_tls_enabled r)
    (sync_require_handshake_auth r) (sync_cluster_shared_secret r) (sync_tls_verify_peer r)
    (sync_tls_ca_certificate_path r) (sync_tls_certificate_chain_path r) (sync_tls_private_key_path r)
    (sync_tls_pinned_peer_certificate_sha256 r) (sync_schema_version r) (sync_min_supported_schema_version r)
    (sync_allow_schema_downgrade r) (sync_peer_probe_enabled r) (sync_peer_probe_interval_ms r)
    (sync_peer_probe_timeout_ms r) (sync_peer_probe_max_per_refresh r) (sync_peer_probe_fail_closed r)
    (sync_peer_probe_fail_closed_failures r) (connect_address r) (password_hash r) (totp_secret r)
    (totp_last_verified_step r).

Definition weights (r : DashboardSettingsRecord) : list double :=
  [routing_headroom_weight_primary r; routing_headroom_weight_secondary r; routing_score_alpha r; routing_score_beta r;
   routing_score_gamma r; routing_score_delta r; routing_score_zeta r; routing_score_eta r; routing_success_rate_rho r].

(** ** Locked accounts *)

(** The tokens of [while (!remaining.empty())]: those between the commas,
    without an empty one at the end. *)
Fixpoint count_new (tokens : list bytes) (seen : gset bytes) (count : Z) : Z :=
  match tokens with
  | [] => count
  | token :: tokens =>
      let normalized := trim_ascii token in
      if negb (bool_decide (normalized = [])) && negb (bool_decide (normalized ∈ seen))
      then count_new tokens ({[normalized]} ∪ seen) (count + 1)
      else count_new tokens seen count
  end.

Definition count_locked_routing_account_ids (raw : bytes) : Z := count_new (csv_pieces [] (trim_ascii raw)) ∅ 0.

(** ** Statements *)

Inductive SettingsStatement :=
| Resolve | SettingsSchema | SeedRow | SeedColumns | ReadRow
| AccountsSchema | BeginImmediate | WriteRow | ClearPins | CommitSettings
| WritePassword | WriteTotpSecret | AdvanceStep.

Record SettingsDb := mkSettingsDb { settings_row : option DashboardSettingsRecord; accounts : accounts_table }.

Definition set_row (r : DashboardSettingsRecord) (db : SettingsDb) : SettingsDb := mkSettingsDb (Some r) (accounts db).

Definition empty_db : SettingsDb := mkSettingsDb None empty_accounts.

(** [SQLite] binds not-a-number as NULL, which the columns refuse. *)
Definition storable (value : double) : bool := match value with S754_nan => false | _ => true end.

Section repo.
Context (runs : SettingsStatement -> bool).

(** The columns are NOT NULL, so that seeding them changes nothing. *)
Definition ensure_schema (db : SettingsDb) : bool * SettingsDb :=
  if negb (runs SettingsSchema) || negb (runs SeedRow) then (false, db)
  else (runs SeedColumns, set_row (default default_settings (settings_row db)) db).

Definition ensure_dashboard_settings_schema (db : SettingsDb) : bool * SettingsDb :=
  if negb (runs Resolve) then (false, db) else ensure_schema db.

Definition get_dashboard_settings (db : SettingsDb) : option DashboardSettingsRecord * SettingsDb :=
  let '(ok, db) := ensure_dashboard_settings_schema db in
  (if ok && runs ReadRow then settings_row db else None, db).

Definition clear_all_routing_pins (now : Z) (t : accounts_table) : accounts_table :=
  (update_where (fun r => negb (routing_pinned r =? 0)) (set_pinned 0 now) t).2.

(** What [update_dashboard_settings] does with the record it made; every
    statement that fails rolls the transaction back. *)
Definition write_settings (now : Z) (next : DashboardSettingsRecord) (db : SettingsDb) : bool * SettingsDb :=
  let lock_pool_active := 2 <=? count_locked_routing_account_ids (locked_routing_account_ids next) in
  if lock_pool_active && negb (runs AccountsSchema) then (false, db)
  else if negb (runs BeginImmediate) || negb (runs WriteRow) || negb (forallb storable (weights next)) then (false, db)
  else if lock_pool_active && negb (runs ClearPins) then (false, db)
  else if negb (runs CommitSettings) then (false, db)
  else (true, mkSettingsDb ((fun _ => stored next) <$> settings_row db)
                (if lock_pool_active then clear_all_routing_pins now (accounts db) else accounts db)).

(** ** The columns of the sign-in *)

Definition change_row (f : DashboardSettingsRecord -> DashboardSettingsRecord) (db : SettingsDb) : SettingsDb :=
  mkSettingsDb (f <$> settings_row db) (accounts db).

Definition set_dashboard_password_hash (hash : option bytes) (db : SettingsDb) : bool * SettingsDb :=
  let '(ok, db) := ensure_dashboard_settings_schema db in
  if negb ok || negb (runs WritePassword) then (false, db)
  else (true, change_row (fun r => set_credentials (totp_required_on_login r) hash (totp_secret r)
                                     (totp_last_verified_step r) r) db).

Definition set_dashboard_totp_secret (secret : option bytes) (db : SettingsDb) : bool * SettingsDb :=
  let '(ok, db) := ensure_dashboard_settings_schema db in
  if negb ok || negb (runs WriteTotpSecret) then (false, db)
  else (true, change_row (fun r => set_credentials
                                     (match secret with None => false | Some _ => totp_required_on_login r end)
                                     (password_hash r) secret None r) db).

(** [totp_last_verified_step IS NULL OR totp_last_verified_step < ?1] *)
Definition before_step (step : Z) (r : DashboardSettingsRecord) : bool :=
  match totp_last_verified_step r with None => true | Some last => last <? step end.

Definition advance_dashboard_totp_last_verified_step (step : Z) (db : SettingsDb) : bool * SettingsDb :=
  let '(ok, db) := ensure_dashboard_settings_schema db in
  if negb ok || negb (runs AdvanceStep) then (false, db)
  else match settings_row db with
       | Some r =>
           if before_step step r
           then (true, set_row (set_credentials (totp_required_on_login r) (password_hash r) (totp_secret r) (Some step) r) db)
           else (false, db)
       | None => (false, db)
       end.

End repo.

(** The statements of the first read, of the transaction and of the last
    read are told apart by their turn. *)
Definition update_dashboard_settings (runs : nat -> SettingsStatement -> bool) (now : Z)
    (patch : Patch.DashboardSettingsPatch) (db : SettingsDb) : option DashboardSettingsRecord * SettingsDb :=
  if negb (runs 0%nat Resolve) then (None, db)
  else match get_dashboard_settings (runs 0%nat) db with
       | (None, db) => (None, db)
       | (Some current, db) =>
           let '(written, db) := write_settings (runs 1%nat) now (patched patch current) db in
           if written then get_dashboard_settings (runs 2%nat) db else (None, db)
       end.

(** ** What the table holds *)

(** The settings in force: those of the row, or the defaults it will be
    seeded with. *)
Definition row_of (db : SettingsDb) : DashboardSettingsRecord := default default_settings (settings_row db).

Lemma schema_keeps runs db :
  let '(ok, db') := ensure_dashboard_settings_schema runs db in
  row_of db' = row_of db /\ accounts db' = accounts db /\ (ok = true -> settings_row db' = Some (row_of db)).
Proof.
  unfold ensure_dashboard_settings_schema, ensure_schema. destruct (negb (runs Resolve)); [done|].
  by destruct (negb (runs SettingsSchema) || negb (runs SeedRow)).
Qed.

Lemma get_keeps runs db :
  let '(result, db') := get_dashboard_settings runs db in
  row_of db' = row_of db /\ accounts db' = accounts db /\
  (forall r, result = Some r -> r = row_of db /\ settings_row db' = Some r).
Proof.
  unfold get_dashboard_settings. pose proof (schema_keeps runs db) as H.
  destruct (ensure_dashboard_settings_schema runs db) as [ok db']. destruct H as (H1 & H2 & H3).
  split; [done|]. split; [done|]. intros r. destruct ok; [|done]. rewrite H3 by done. destruct (runs ReadRow); [|done].
  cbn. by intros [= <-].
Qed.

(** Counting the locked accounts agrees with listing them. *)
Lemma count_new_spec tokens : forall seen listed count,
  (forall x, x ∈ seen <-> x ∈ listed) -> count = size_of listed ->
  count_new tokens seen count = size_of (add_unseen tokens listed).
Proof.
  induction tokens as [|token tokens IH]; intros seen listed count Hs Hc; [done|]. cbn [count_new add_unseen].
  rewrite (bool_decide_ext (trim_ascii token ∈ seen) _ (Hs _)).
  destruct (bool_decide (trim_ascii token = [])); [by apply IH|]. destruct (bool_decide (_ ∈ listed)); [by apply IH|].
  cbn [negb andb orb]. apply IH.
  - intros x. rewrite elem_of_union, elem_of_singleton, elem_of_app, list_elem_of_singleton, Hs. tauto.
  - rewrite size_of_app. change (size_of [trim_ascii token]) with 1. lia.
Qed.

Lemma count_locked_spec raw :
  count_locked_routing_account_ids raw = size_of (StickyAffinity.parse_locked_routing_account_ids raw).
Proof. apply count_new_spec; [|done]. intros x. by rewrite elem_of_empty, elem_of_nil. Qed.

Lemma count_locked_pool raw :
  (2 <=? count_locked_routing_account_ids raw) = lock_pool_active (StickyAffinity.parse_locked_routing_account_ids raw).
Proof.
  rewrite count_locked_spec. unfold lock_pool_active, size_of.
  destruct (Nat.leb_spec 2 (length (StickyAffinity.parse_locked_routing_account_ids raw))); [apply Z.leb_le|apply Z.leb_gt]; lia.
Qed.

Lemma clear_pins_none now t : pins (rows (clear_all_routing_pins now t)) = 0.
Proof.
  apply pins_none. intros r. unfold clear_all_routing_pins, update_where. cbn [snd rows].
  intros (r0 & -> & _)%list_elem_of_fmap. unfold pinned. destruct (negb (routing_pinned r0 =? 0)) eqn:E; [done|]. exact E.
Qed.

Lemma write_spec runs now next db :
  let '(written, db') := write_settings runs now next db in
  (written = false -> db' = db) /\
  (written = true -> db' = mkSettingsDb ((fun _ => stored next) <$> settings_row db)
     (if lock_pool_active (StickyAffinity.parse_locked_routing_account_ids (locked_routing_account_ids next))
      then clear_all_routing_pins now (accounts db) else accounts db) /\
     forallb storable (weights next) = true).
Proof.
  unfold write_settings. rewrite count_locked_pool. set (pool := lock_pool_active _). cbv zeta.
  destruct (pool && negb (runs AccountsSchema)); [done|].
  destruct (forallb storable (weights next)); [|by rewrite orb_true_r].
  destruct (_ || negb true); [done|]. destruct (pool && _); [done|]. by destruct (negb (runs CommitSettings)).
Qed.

Lemma settings_update_all_run runs now patch db :
  (forall turn s, runs turn s = true) ->
  (update_dashboard_settings runs now patch db).1 =
  if forallb storable (weights (patched patch (row_of db))) then Some (stored (patched patch (row_of db))) else None.
Proof.
  intros H. unfold update_dashboard_settings, get_dashboard_settings, ensure_dashboard_settings_schema, ensure_schema.
  rewrite !H. cbn [negb orb andb set_row settings_row]. fold (row_of db). unfold write_settings. rewrite !H, !andb_false_r.
  by destruct (forallb storable _).
Qed.

Lemma settings_update_spec runs now patch db :
  let next := stored (patched patch (row_of db)) in
  let locked := StickyAffinity.parse_locked_routing_account_ids (locked_routing_account_ids next) in
  let '(result, db') := update_dashboard_settings runs now patch db in
  (row_of db' = row_of db /\ accounts db' = accounts db /\ result = None) \/
  (row_of db' = next /\ (result = None \/ result = Some next) /\
   forallb storable (weights (patched patch (row_of db))) = true /\
   (lock_pool_active locked = true -> pins (rows (accounts db')) = 0) /\
   (lock_pool_active locked = false -> accounts db' = accounts db)).
Proof.
  intros next locked. unfold update_dashboard_settings. destruct (negb _); [by left|].
  pose proof (get_keeps (runs 0%nat) db) as H0. destruct (get_dashboard_settings (runs 0%nat) db) as [[current|] db0].
  2:{ left. by destruct H0 as (? & ? & _). }
  destruct H0 as (H1 & H2 & H3). destruct (H3 current eq_refl) as [-> Hrow].
  pose proof (write_spec (runs 1%nat) now (patched patch (row_of db)) db0) as Hw.
  destruct (write_settings _ _ _ _) as [[] db1]; destruct Hw as [Hf Ht].
  2:{ left. rewrite Hf by done. by split_and!. }
  destruct (Ht eq_refl) as [-> Hw]. pose proof (get_keeps (runs 2%nat) (mkSettingsDb ((fun _ => next) <$> settings_row db0)
    (if lock_pool_active locked then clear_all_routing_pins now (accounts db0) else accounts db0))) as Hg.
  change (StickyAffinity.parse_locked_routing_account_ids _) with locked. fold next.
  destruct (get_dashboard_settings _ _) as [result db2]. destruct Hg as (G1 & G2 & G3). cbn [accounts] in G2. right.
  rewrite Hrow in G1, G3. cbn in G1. split; [done|]. split; [|split; [done|]].
  - destruct result as [r|]; [|by left]. right. f_equal. by destruct (G3 r eq_refl) as [-> _].
  - rewrite G2. split; intros E; rewrite E; [apply clear_pins_none|done].
Qed.

(** An update is all or nothing: the row becomes what the patch makes of it,
    and with it a lock pool of two accounts or more takes every pin away, or
    the row and the accounts are as they were; the record it answers with is
    the row that is now in force. *)
Theorem settings_update_atomic runs now patch db :
  let next := stored (patched patch (row_of db)) in
  let locked := StickyAffinity.parse_locked_routing_account_ids (locked_routing_account_ids next) in
  let '(result, db') := update_dashboard_settings runs now patch db in
  (row_of db' = row_of db /\ accounts db' = accounts db /\ result = None) \/
  (row_of db' = next /\ (result = None \/ result = Some next) /\
   (lock_pool_active locked = true -> pins (rows (accounts db')) = 0) /\
   (lock_pool_active locked = false -> accounts db' = accounts db)).
Proof.
  intros next locked. pose proof (settings_update_spec runs now patch db) as H. cbv zeta in H. fold next locked in H.
  destruct (update_dashboard_settings _ _ _ _) as [result db']. tauto.
Qed.

(** A read that is made before the transaction can lose what is written in
    between: an update of the settings that read its record before a code was
    used takes the use back, and the same code is accepted again. *)
Lemma settings_update_loses_step runs now patch db step current :
  (forall s, runs s = true) -> lock_pool_active (StickyAffinity.parse_locked_routing_account_ids
     (locked_routing_account_ids (patched patch current))) = false ->
  forallb storable (weights (patched patch current)) = true ->
  settings_row db = Some current -> before_step step current = true ->
  let '(first, db1) := advance_dashboard_totp_last_verified_step runs step db in
  let '(written, db2) := write_settings runs now (patched patch current) db1 in
  let '(second, _) := advance_dashboard_totp_last_verified_step runs step db2 in
  first = true /\ written = true /\ second = true.
Proof.
  intros Hr Hl Hs Hrow Hb. unfold advance_dashboard_totp_last_verified_step, ensure_dashboard_settings_schema, ensure_schema.
  rewrite !Hr, Hrow. cbn [negb orb default from_option set_row settings_row]. unfold Datatypes.id at 1. rewrite Hb.
  unfold write_settings. rewrite count_locked_pool. change (Datatypes.id current) with current. rewrite Hl, Hs, !Hr. cbn.
  unfold before_step in *. destruct current; cbn in *. by rewrite Hb.
Qed.
