(* ===== verification/SettingsController.v ===== *)
(** * SettingsController: the administration of the settings

    src/native/server/controllers/src/settings_controller.cpp over
    [SettingsRepo], and the passphrase of the process in
    src/native/db/connection/src/sqlite_crypto.cpp.  [std::strtod], the
    environment and what SQLCipher answers are arguments. *)

From S2P Require Import Prelude Text Except Double Conflict Env Headers Fernet TokenStore Accounts Pricing RoutingStore.
From S2P Require Import StickyAffinity Table ApiKeys ApiKeyFilter KeysController SettingsRepo.
From Stdlib Require Import Floats.SpecFloat.
Import Text.Ascii.

(** ** settings_controller.h *)

Module Update.

Record DashboardSettingsUpdate := mkUpdate {
  theme : option bytes;
  sticky_threads_enabled : option bool;
  upstream_stream_transport : option bytes;
  prefer_earlier_reset_accounts : option bool;
  routing_strategy : option bytes;
  strict_lock_pool_continuations : option bool;
  locked_routing_account_ids : option (list bytes);
  openai_cache_affinity_max_age_seconds : option Z;
  import_without_overwrite : option bool;
  totp_required_on_login : option bool;
  api_key_auth_enabled : option bool;
  routing_headroom_weight_primary : option double;
  routing_headroom_weight_secondary : option double;
  routing_score_alpha : option double;
  routing_score_beta : option double;
  routing_score_gamma : option double;
  routing_score_delta : option double;
  routing_score_zeta : option double;
  routing_score_eta : option double;
  routing_success_rate_rho : option double;
  routing_plan_model_pricing_usd_per_million : option bytes;
  sync_cluster_name : option bytes;
  sync_site_id : option Z;
  sync_port : option Z;
  sync_discovery_enabled : option bool;
  sync_interval_seconds : option Z;
  sync_conflict_resolution : option bytes;
  sync_journal_retention_days : option Z;
  sync_tls_enabled : option bool;
  sync_require_handshake_auth : option bool;
  sync_cluster_shared_secret : option bytes;
  sync_tls_verify_peer : option bool;
  sync_tls_ca_certificate_path : option bytes;
  sync_tls_certificate_chain_path : option bytes;
  sync_tls_private_key_path : option bytes;
  sync_tls_pinned_peer_certificate_sha256 : option bytes;
  sync_schema_version : option Z;
  sync_min_supported_schema_version : option Z;
  sync_allow_schema_downgrade : option bool;
  sync_peer_probe_enabled : option bool;
  sync_peer_probe_interval_ms : option Z;
  sync_peer_probe_timeout_ms : option Z;
  sync_peer_probe_max_per_refresh : option Z;
  sync_peer_probe_fail_closed : option bool;
  sync_peer_probe_fail_closed_failures : option Z;
}.

End Update.

Module Payload.

Record DashboardSettingsPayload := mkPayload {
  theme : bytes;
  sticky_threads_enabled : bool;
  upstream_stream_transport : bytes;
  prefer_earlier_reset_accounts : bool;
  routing_strategy : bytes;
  strict_lock_pool_continuations : bool;
  locked_routing_account_ids : list bytes;
  openai_cache_affinity_max_age_seconds : Z;
  import_without_overwrite : bool;
  totp_required_on_login : bool;
  totp_configured : bool;
  api_key_auth_enabled : bool;
  routing_headroom_weight_primary : double;
  routing_headroom_weight_secondary : double;
  routing_score_alpha : double;
  routing_score_beta : double;
  routing_score_gamma : double;
  routing_score_delta : double;
  routing_score_zeta : double;
  routing_score_eta : double;
  routing_success_rate_rho : double;
  routing_plan_model_pricing_usd_per_million : bytes;
  sync_cluster_name : bytes;
  sync_site_id : Z;
  sync_port : Z;
  sync_discovery_enabled : bool;
  sync_interval_seconds : Z;
  sync_conflict_resolution : bytes;
  sync_journal_retention_days : Z;
  sync_tls_enabled : bool;
  sync_require_handshake_auth : bool;
  sync_cluster_shared_secret : bytes;
  sync_tls_verify_peer : bool;
  sync_tls_ca_certificate_path : bytes;
  sync_tls_certificate_chain_path : bytes;
  sync_tls_private_key_path : bytes;
  sync_tls_pinned_peer_certificate_sha256 : bytes;
  sync_schema_version : Z;
  sync_min_supported_schema_version : Z;
  sync_allow_schema_downgrade : bool;
  sync_peer_probe_enabled : bool;
  sync_peer_probe_interval_ms : Z;
  sync_peer_probe_timeout_ms : Z;
  sync_peer_probe_max_per_refresh : Z;
  sync_peer_probe_fail_closed : bool;
  sync_peer_probe_fail_closed_failures : Z;
}.

End Payload.


Definition value_or {A} (value : option A) (fallback : A) : A := default fallback value.

(** ** What is supported *)

Definition is_valid_upstream_stream_transport (value : bytes) : bool :=
  bool_decide (value ∈ [$"default"; $"auto"; $"http"; $"websocket"]).

Definition is_valid_theme (value : bytes) : bool := bool_decide (value ∈ [$"auto"; $"dark"; $"light"]).

Definition is_valid_database_passphrase (value : bytes) : bool := 8 <=? size_of value.

Definition is_valid_routing_strategy (value : bytes) : bool :=
  bool_decide (to_lower_ascii (trim_ascii value) ∈ [$"round_robin"; $"weighted_round_robin"; $"drain_hop"]).

Definition parse_locked_routing_account_ids (raw : bytes) : list bytes :=
  StickyAffinity.add_unseen (csv_pieces [] (trim_ascii raw)) [].

(** The names that are pushed: trimmed, not empty, each once. *)
Fixpoint serialize_new (account_ids : list bytes) (seen : list bytes) (serialized : bytes) : bytes :=
  match account_ids with
  | [] => serialized
  | account_id :: account_ids =>
      let normalized := trim_ascii account_id in
      if bool_decide (normalized = []) || bool_decide (normalized ∈ seen) then serialize_new account_ids seen serialized
      else serialize_new account_ids (seen ++ [normalized])
             ((if bool_decide (seen = []) then serialized else serialized ++ [Byte.x2c]) ++ normalized)
  end.

Definition serialize_locked_routing_account_ids (account_ids : list bytes) : bytes := serialize_new account_ids [] [].

Definition normalize_supported_routing_strategy (value : bytes) : bytes :=
  let normalized := to_lower_ascii (trim_ascii value) in
  if is_valid_routing_strategy normalized then normalized else $"weighted_round_robin".

Definition is_valid_conflict_resolution (value : bytes) : bool :=
  bool_decide (value ∈ [$"lww"; $"site_priority"; $"field_merge"]).

Definition is_valid_weight (value : option double) : bool :=
  match value with None => true | Some value => fle f_zero value && fle value f_one end.

Section settings.
Context (strtod : bytes -> double * nat).

(** One token of the prices; a finite double is never above the largest. *)
Definition is_valid_pricing_token (token_view : bytes) : bool :=
  let token := trim_ascii token_view in
  if bool_decide (token = []) then true
  else match cut Byte.x3d token with
       | None => false
       | Some (before, after) =>
           let lhs := to_lower_ascii (trim_ascii before) in
           let rhs := trim_ascii after in
           match cut Byte.x40 lhs with
           | None => false
           | Some (plan_part, model_part) =>
               if bool_decide (rhs = []) then false
               else if bool_decide (trim_ascii plan_part = []) || bool_decide (trim_ascii model_part = []) then false
               else match cut Byte.x3a rhs with
                    | None => false
                    | Some (input, output) =>
                        match parse_non_negative_double strtod input, parse_non_negative_double strtod output with
                        | Some _, Some _ => true
                        | _, _ => false
                        end
                    end
           end
       end.

Definition is_valid_routing_plan_model_pricing (raw_value : bytes) : bool :=
  let trimmed := trim_ascii raw_value in
  if bool_decide (trimmed = []) then true else forallb is_valid_pricing_token (override_pieces [] trimmed).

(** ** Payloads *)

Definition totp_configured (r : DashboardSettingsRecord) : bool :=
  match totp_secret r with Some (_ :: _) => true | _ => false end.

Definition to_payload (r : DashboardSettingsRecord) : Payload.DashboardSettingsPayload :=
  Payload.mkPayload
    (theme r) (sticky_threads_enabled r) (upstream_stream_transport r) (prefer_earlier_reset_accounts r)
    (normalize_supported_routing_strategy (routing_strategy r)) (strict_lock_pool_continuations r)
    (parse_locked_routing_account_ids (locked_routing_account_ids r)) (openai_cache_affinity_max_age_seconds r)
    (import_without_overwrite r) (totp_required_on_login r) (totp_configured r) (api_key_auth_enabled r)
    (routing_headroom_weight_primary r) (routing_headroom_weight_secondary r) (routing_score_alpha r)
    (routing_score_beta r) (routing_score_gamma r) (routing_score_delta r) (routing_score_zeta r)
    (routing_score_eta r) (routing_success_rate_rho r) (routing_plan_model_pricing_usd_per_million r)
    (sync_cluster_name r) (sync_site_id r) (sync_port r) (sync_discovery_enabled r) (sync_interval_seconds r)
    (sync_conflict_resolution r) (sync_journal_retention_days r) (sync_tls_enabled r)
    (sync_require_handshake_auth r) (sync_cluster_shared_secret r) (sync_tls_verify_peer r)
    (sync_tls_ca_certificate_path r) (sync_tls_certificate_chain_path r) (sync_tls_private_key_path r)
    (sync_tls_pinned_peer_certificate_sha256 r) (sync_schema_version r) (sync_min_supported_schema_version r)
    (sync_allow_schema_downgrade r) (sync_peer_probe_enabled r) (sync_peer_probe_interval_ms r)
    (sync_peer_probe_timeout_ms r) (sync_peer_probe_max_per_refresh r) (sync_peer_probe_fail_closed r)
    (sync_peer_probe_fail_closed_failures r).

Record DashboardSettingsResponse := mkSettingsResponse {
  status : Z;
  code : bytes;
  message : bytes;
  settings : Payload.DashboardSettingsPayload;
}.

Definition failure (status : Z) (code message : bytes) : DashboardSettingsResponse :=
  mkSettingsResponse status code message (to_payload default_settings).

Definition success (r : DashboardSettingsRecord) : DashboardSettingsResponse := mkSettingsResponse 200 [] [] (to_payload r).

(** ** Updates *)

Definition routing_strategy_of (u : Update.DashboardSettingsUpdate) (r : DashboardSettingsRecord) : bytes :=
  match Update.routing_strategy u with
  | Some strategy => normalize_supported_routing_strategy strategy
  | None => normalize_supported_routing_strategy (routing_strategy r)
  end.

Definition locked_ids_of (u : Update.DashboardSettingsUpdate) (r : DashboardSettingsRecord) : bytes :=
  match Update.locked_routing_account_ids u with
  | Some ids => serialize_locked_routing_account_ids ids
  | None => locked_routing_account_ids r
  end.

Definition between (low high value : Z) : bool := (low <=? value) && (value <=? high).

(** The checks in their order, each with the refusal it makes. *)
Definition update_checks (u : Update.DashboardSettingsUpdate) (r : DashboardSettingsRecord) : list (bool * (bytes * bytes)) :=
  let schema_version := value_or (Update.sync_schema_version u) (sync_schema_version r) in
  let min_schema_version := value_or (Update.sync_min_supported_schema_version u) (sync_min_supported_schema_version r) in
  let rho := value_or (Update.routing_success_rate_rho u) (routing_success_rate_rho r) in
  [(is_valid_upstream_stream_transport (value_or (Update.upstream_stream_transport u) (upstream_stream_transport r)),
    ($"invalid_upstream_stream_transport", $"Invalid upstream stream transport"));
   (is_valid_theme (value_or (Update.theme u) (theme r)), ($"invalid_theme", $"Invalid dashboard theme"));
   (match Update.routing_strategy u with Some strategy => is_valid_routing_strategy strategy | None => true end,
    ($"invalid_routing_strategy", $"Invalid routing strategy"));
   (0 <? value_or (Update.openai_cache_affinity_max_age_seconds u) (openai_cache_affinity_max_age_seconds r),
    ($"invalid_cache_affinity_ttl", $"openai_cache_affinity_max_age_seconds must be positive"));
   (negb (bool_decide (value_or (Update.sync_cluster_name u) (sync_cluster_name r) = [])),
    ($"invalid_sync_cluster_name", $"sync_cluster_name must not be empty"));
   (0 <? value_or (Update.sync_site_id u) (sync_site_id r),
    ($"invalid_sync_site_id", $"sync_site_id must be positive"));
   (between 1 65535 (value_or (Update.sync_port u) (sync_port r)),
    ($"invalid_sync_port", $"sync_port must be between 1 and 65535"));
   (between 0 86400 (value_or (Update.sync_interval_seconds u) (sync_interval_seconds r)),
    ($"invalid_sync_interval_seconds", $"sync_interval_seconds must be between 0 and 86400"));
   (is_valid_conflict_resolution (value_or (Update.sync_conflict_resolution u) (sync_conflict_resolution r)),
    ($"invalid_sync_conflict_resolution", $"Invalid sync conflict resolution"));
   (between 1 3650 (value_or (Update.sync_journal_retention_days u) (sync_journal_retention_days r)),
    ($"invalid_sync_journal_retention_days", $"sync_journal_retention_days must be between 1 and 3650"));
   (between 1 1000000 schema_version,
    ($"invalid_sync_schema_version", $"sync_schema_version must be between 1 and 1000000"));
   (between 1 1000000 min_schema_version,
    ($"invalid_sync_min_supported_schema_version", $"sync_min_supported_schema_version must be between 1 and 1000000"));
   (min_schema_version <=? schema_version,
    ($"invalid_sync_schema_range", $"sync_min_supported_schema_version must be less than or equal to sync_schema_version"));
   (between 100 300000 (value_or (Update.sync_peer_probe_interval_ms u) (sync_peer_probe_interval_ms r)),
    ($"invalid_sync_peer_probe_interval_ms", $"sync_peer_probe_interval_ms must be between 100 and 300000"));
   (between 50 60000 (value_or (Update.sync_peer_probe_timeout_ms u) (sync_peer_probe_timeout_ms r)),
    ($"invalid_sync_peer_probe_timeout_ms", $"sync_peer_probe_timeout_ms must be between 50 and 60000"));
   (between 1 64 (value_or (Update.sync_peer_probe_max_per_refresh u) (sync_peer_probe_max_per_refresh r)),
    ($"invalid_sync_peer_probe_max_per_refresh", $"sync_peer_probe_max_per_refresh must be between 1 and 64"));
   (between 1 1000 (value_or (Update.sync_peer_probe_fail_closed_failures u) (sync_peer_probe_fail_closed_failures r)),
    ($"invalid_sync_peer_probe_fail_closed_failures", $"sync_peer_probe_fail_closed_failures must be between 1 and 1000"));
   (is_valid_weight (Update.routing_headroom_weight_primary u) && is_valid_weight (Update.routing_headroom_weight_secondary u) &&
    is_valid_weight (Update.routing_score_alpha u) && is_valid_weight (Update.routing_score_beta u) &&
    is_valid_weight (Update.routing_score_gamma u) && is_valid_weight (Update.routing_score_delta u) &&
    is_valid_weight (Update.routing_score_zeta u) && is_valid_weight (Update.routing_score_eta u),
    ($"invalid_routing_weight", $"Routing weights must be between 0 and 1"));
   (negb (fle rho f_zero || flt (of_int 64) rho),
    ($"invalid_routing_success_rate_rho", $"routing_success_rate_rho must be greater than 0 and at most 64"));
   (is_valid_routing_plan_model_pricing
      (value_or (Update.routing_plan_model_pricing_usd_per_million u) (routing_plan_model_pricing_usd_per_million r)),
    ($"invalid_routing_plan_model_pricing_usd_per_million",
     $"routing_plan_model_pricing_usd_per_million must use plan@model=input:output entries"));
   (negb (value_or (Update.totp_required_on_login u) (totp_required_on_login r) && negb (totp_configured r)),
    ($"invalid_totp_config", $"Configure TOTP before enabling login enforcement"))].

(** The first check that fails. *)
Fixpoint first_refusal (checks : list (bool * (bytes * bytes))) : option (bytes * bytes) :=
  match checks with
  | [] => None
  | (passed, refusal) :: checks => if passed : bool then first_refusal checks else Some refusal
  end.

(** The patch: every column but the connect address and those of the
    sign-in. *)
Definition settings_patch (u : Update.DashboardSettingsUpdate) (r : DashboardSettingsRecord) : Patch.DashboardSettingsPatch :=
  Patch.mkPatch
    (Some (value_or (Update.theme u) (theme r)))
    (Some (value_or (Update.sticky_threads_enabled u) (sticky_threads_enabled r)))
    (Some (value_or (Update.upstream_stream_transport u) (upstream_stream_transport r)))
    (Some (value_or (Update.prefer_earlier_reset_accounts u) (prefer_earlier_reset_accounts r)))
    (Some (routing_strategy_of u r))
    (Some (value_or (Update.strict_lock_pool_continuations u) (strict_lock_pool_continuations r)))
    (Some (locked_ids_of u r))
    (Some (value_or (Update.openai_cache_affinity_max_age_seconds u) (openai_cache_affinity_max_age_seconds r)))
    (Some (value_or (Update.import_without_overwrite u) (import_without_overwrite r)))
    (Some (value_or (Update.totp_required_on_login u) (totp_required_on_login r)))
    (Some (value_or (Update.api_key_auth_enabled u) (api_key_auth_enabled r)))
    (Some (value_or (Update.routing_headroom_weight_primary u) (routing_headroom_weight_primary r)))
    (Some (value_or (Update.routing_headroom_weight_secondary u) (routing_headroom_weight_secondary r)))
    (Some (value_or (Update.routing_score_alpha u) (routing_score_alpha r)))
    (Some (value_or (Update.routing_score_beta u) (routing_score_beta r)))
    (Some (value_or (Update.routing_score_gamma u) (routing_score_gamma r)))
    (Some (value_or (Update.routing_score_delta u) (routing_score_delta r)))
    (Some (value_or (Update.routing_score_zeta u) (routing_score_zeta r)))
    (Some (value_or (Update.routing_score_eta u) (routing_score_eta r)))
    (Some (value_or (Update.routing_success_rate_rho u) (routing_success_rate_rho r)))
    (Some (value_or (Update.routing_plan_model_pricing_usd_per_million u) (routing_plan_model_pricing_usd_per_million r)))
    (Some (value_or (Update.sync_cluster_name u) (sync_cluster_name r)))
    (Some (value_or (Update.sync_site_id u) (sync_site_id r))) (Some (value_or (Update.sync_port u) (sync_port r)))
    (Some (value_or (Update.sync_discovery_enabled u) (sync_discovery_enabled r)))
    (Some (value_or (Update.sync_interval_seconds u) (sync_interval_seconds r)))
    (Some (value_or (Update.sync_conflict_resolution u) (sync_conflict_resolution r)))
    (Some (value_or (Update.sync_journal_retention_days u) (sync_journal_retention_days r)))
    (Some (value_or (Update.sync_tls_enabled u) (sync_tls_enabled r)))
    (Some (value_or (Update.sync_require_handshake_auth u) (sync_require_handshake_auth r)))
    (Some (value_or (Update.sync_cluster_shared_secret u) (sync_cluster_shared_secret r)))
    (Some (value_or (Update.sync_tls_verify_peer u) (sync_tls_verify_peer r)))
    (Some (value_or (Update.sync_tls_ca_certificate_path u) (sync_tls_ca_certificate_path r)))
    (Some (value_or (Update.sync_tls_certificate_chain_path u) (sync_tls_certificate_chain_path r)))
    (Some (value_or (Update.sync_tls_private_key_path u) (sync_tls_private_key_path r)))
    (Some (value_or (Update.sync_tls_pinned_peer_certificate_sha256 u) (sync_tls_pinned_peer_certificate_sha256 r)))
    (Some (value_or (Update.sync_schema_version u) (sync_schema_version r)))
    (Some (value_or (Update.sync_min_supported_schema_version u) (sync_min_supported_schema_version r)))
    (Some (value_or (Update.sync_allow_schema_downgrade u) (sync_allow_schema_downgrade r)))
    (Some (value_or (Update.sync_peer_probe_enabled u) (sync_peer_probe_enabled r)))
    (Some (value_or (Update.sync_peer_probe_interval_ms u) (sync_peer_probe_interval_ms r)))
    (Some (value_or (Update.sync_peer_probe_timeout_ms u) (sync_peer_probe_timeout_ms r)))
    (Some (value_or (Update.sync_peer_probe_max_per_refresh u) (sync_peer_probe_max_per_refresh r)))
    (Some (value_or (Update.sync_peer_probe_fail_closed u) (sync_peer_probe_fail_closed r)))
    (Some (value_or (Update.sync_peer_probe_fail_closed_failures u) (sync_peer_probe_fail_closed_failures r))) None.

Context (runs : nat -> SettingsStatement -> bool) (opened : bool) (guard : GuardOverride).

Definition settings_access : option DashboardSettingsResponse :=
  let g := check_linearizable_read_access $"dashboard_settings" guard in
  if negb (guard_allow g) then Some (failure (guard_status g) (guard_code g) (guard_message g))
  else if negb opened then Some (failure 500 $"db_unavailable" $"Database unavailable") else None.

Definition settings_unavailable : DashboardSettingsResponse := failure 500 $"settings_unavailable" $"Failed to load settings".

Definition get_settings (db : SettingsDb) : DashboardSettingsResponse * SettingsDb :=
  match settings_access with Some response => (response, db) | None =>
  match SettingsRepo.get_dashboard_settings (runs 0%nat) db with
  | (None, db) => (settings_unavailable, db)
  | (Some record, db) => (success record, db)
  end end.

Definition update_settings (now : Z) (u : Update.DashboardSettingsUpdate) (db : SettingsDb) :
    DashboardSettingsResponse * SettingsDb :=
  match settings_access with Some response => (response, db) | None =>
  match SettingsRepo.get_dashboard_settings (runs 0%nat) db with
  | (None, db) => (settings_unavailable, db)
  | (Some current, db) =>
      match first_refusal (update_checks u current) with
      | Some (code, message) => (failure 400 code message, db)
      | None =>
          match update_dashboard_settings (fun turn => runs (S turn)) now (settings_patch u current) db with
          | (None, db) => (failure 500 $"settings_update_failed" $"Failed to update settings", db)
          | (Some updated, db) => (success updated, db)
          end
      end
  end end.

End settings.

(** ** The passphrase of the process: sqlite_crypto.cpp *)

Record CryptoSession := mkSession {
  session_passphrase : bytes;
  token_crypto : TokenStorageCryptoState;
  database_key : bytes;
  session_accounts : accounts_table;
}.

Definition set_session_passphrase (passphrase : bytes) (s : CryptoSession) : CryptoSession :=
  mkSession passphrase (token_crypto s) (database_key s) (session_accounts s).

Definition clear_session_passphrase : CryptoSession -> CryptoSession := set_session_passphrase [].

Definition has_session_passphrase (s : CryptoSession) : bool := negb (bool_decide (session_passphrase s = [])).

Definition session_passphrase_matches (candidate : bytes) (s : CryptoSession) : bool :=
  has_session_passphrase s && bool_decide (session_passphrase s = candidate).

Definition quote : Byte.byte := Byte.x27.

Definition escape_sql_string (value : bytes) : bytes :=
  concat ((fun ch => if bool_decide (ch = quote) then [quote; ch] else [ch]) <$> value).

Definition rekey_sql (passphrase : bytes) : bytes := $"PRAGMA rekey='" ++ escape_sql_string passphrase ++ $"';".
Definition key_sql (passphrase : bytes) : bytes := $"PRAGMA key='" ++ escape_sql_string passphrase ++ $"';".

(** The text SQLite reads after an opening quote: a doubled quote stands for
    one, and the text has to end. *)
Fixpoint sql_text (s : bytes) : option (bytes * bytes) :=
  match s with
  | [] => None
  | ch :: s =>
      if bool_decide (ch = quote) then
        match s with
        | ch' :: rest =>
            if bool_decide (ch' = quote)
            then match sql_text rest with Some (text, rest) => Some (quote :: text, rest) | None => None end
            else Some ([], s)
        | [] => Some ([], [])
        end
      else match sql_text s with Some (text, rest) => Some (ch :: text, rest) | None => None end
  end.

(** [sqlite3_exec] of such a pragma, on the text up to its NUL: the value it
    names, and [answer], the error SQLCipher may have with it.  A text that
    does not parse is an error. *)
Definition exec_pragma (prefix sql : bytes) (answer : option bytes) : bytes + bytes :=
  match sql_text (drop (length prefix) (c_str sql)) with
  | Some (value, rest) =>
      if bool_decide (rest = $";") then match answer with None => inl value | Some error => inr error end
      else inr $"syntax error"
  | None => inr $"unrecognized token"
  end.

(** The error, empty when it went well. *)
Definition rekey_with (passphrase : bytes) (answer : option bytes) (s : CryptoSession) : (bool * bytes) * CryptoSession :=
  match exec_pragma $"PRAGMA rekey='" (rekey_sql passphrase) answer with
  | inl key => ((true, []), mkSession (session_passphrase s) (token_crypto s) key (session_accounts s))
  | inr error => ((false, error), s)
  end.

Definition rekey_database_with_passphrase (passphrase : bytes) (answer : option bytes) (s : CryptoSession) :
    (bool * bytes) * CryptoSession :=
  if bool_decide (passphrase = []) then ((false, $"database passphrase is empty"), s) else rekey_with passphrase answer s.

Definition rekey_plaintext_database (answer : option bytes) (s : CryptoSession) : (bool * bytes) * CryptoSession :=
  if negb (has_session_passphrase s) then ((false, $"database passphrase is not configured"), s)
  else rekey_with (session_passphrase s) answer s.

(** [verified]: what reading the schema answers afterwards. *)
Definition apply_session_key (answer verified : option bytes) (s : CryptoSession) : bool * bytes :=
  if negb (has_session_passphrase s) then (true, [])
  else match exec_pragma $"PRAGMA key='" (key_sql (session_passphrase s)) answer with
       | inr error => (false, error)
       | inl _ => match verified with None => (true, []) | Some error => (false, error) end
       end.

Definition kSqliteHeader : bytes := $"SQLite format 3" ++ [Byte.x00].

(** [content]: the file, when it can be read. *)
Definition database_file_looks_plaintext_sqlite (path : bytes) (content : option bytes) : bool :=
  if bool_decide (path = []) || bool_decide (path = $":memory:") then false
  else match content with
       | None => false
       | Some content => if size_of content <? 16 then false else bool_decide (take 16 content = kSqliteHeader)
       end.

(** ** The change of the passphrase *)

Record DatabasePassphraseChangeResponse := mkChangeResponse { change_status : Z; change_code : bytes; change_message : bytes }.

Section passphrase.
Context {sodium : Sodium} {digest : Digest}.

(** The two rotations: the statements that run, the nonces and the clock of
    each. *)
Record RotationEnv := mkRotation { rotation_runs : Accounts.Statement -> bool; rotation_nonce : Z -> nat -> bytes; rotation_now : Z }.

Definition rotate (e : RotationEnv) (current next : bytes) (s : CryptoSession) : option RotationResult * CryptoSession :=
  let '(result, t) := rotate_account_token_storage_passphrase (rotation_runs e) current next (rotation_nonce e)
                        (rotation_now e) (session_accounts s) in
  (result, mkSession (session_passphrase s) (token_crypto s) (database_key s) t).

Definition configure_tokens (passphrase : bytes) (s : CryptoSession) : CryptoSession :=
  mkSession (session_passphrase s) (configure_token_storage_session_passphrase passphrase) (database_key s) (session_accounts s).

Definition change_database_passphrase (opened : bool) (forth back : RotationEnv) (answer : option bytes)
    (current_passphrase next_passphrase : bytes) (s : CryptoSession) : DatabasePassphraseChangeResponse * CryptoSession :=
  if bool_decide (current_passphrase = [])
  then (mkChangeResponse 400 $"missing_current_passphrase" $"Current passphrase is required", s)
  else if negb (is_valid_database_passphrase next_passphrase)
  then (mkChangeResponse 400 $"invalid_next_passphrase" $"New passphrase must be at least 8 characters", s)
  else if bool_decide (current_passphrase = next_passphrase)
  then (mkChangeResponse 400 $"passphrase_unchanged" $"New passphrase must differ from the current passphrase", s)
  else if negb (session_passphrase_matches current_passphrase s)
  then (mkChangeResponse 401 $"invalid_current_passphrase" $"Current passphrase is incorrect", s)
  else if negb opened then (mkChangeResponse 500 $"db_unavailable" $"Database unavailable", s)
  else match rotate forth current_passphrase next_passphrase s with
  | (None, s) =>
      (mkChangeResponse 500 $"token_rotation_failed" $"Failed to rotate account token encryption for new database passphrase", s)
  | (Some _, s) =>
      match rekey_database_with_passphrase next_passphrase answer s with
      | ((false, rekey_error), s) =>
          let '(_, s) := rotate back next_passphrase current_passphrase s in
          (mkChangeResponse 500 $"database_rekey_failed"
             (if bool_decide (rekey_error = []) then $"Failed to rekey SQLCipher database" else rekey_error), s)
      | ((true, _), s) =>
          (mkChangeResponse 200 [] [], configure_tokens next_passphrase (set_session_passphrase next_passphrase s))
      end
  end.

End passphrase.

(** ** The address to connect to *)

Definition normalized_host (host : bytes) : bytes := to_lower_ascii (trim_ascii host).

Definition is_loopback_or_unspecified (host : bytes) : bool :=
  let value := normalized_host host in
  bool_decide (value ∈ [[]; $"localhost"; $"0.0.0.0"; $"::1"; $"[::1]"]) || starts_with value $"127.".

Definition get_runtime_connect_address (env : environment) (request_host : bytes) : Z * bytes :=
  match getenv_nonempty env $"TIGHTROPE_CONNECT_ADDRESS" with
  | Some override => (200, override)
  | None => if is_loopback_or_unspecified request_host then (200, $"<tightrope-ip-or-dns>") else (200, request_host)
  end.

(** ** Texts around blanks *)

Lemma skip_space_pad pre s : Forall (fun ch => isspace ch = true) pre -> skip_space (pre ++ s) = skip_space s.
Proof. induction 1 as [|ch pre E _ IH]; [done|]. cbn. by rewrite E. Qed.

Lemma trim_ascii_pad pre s post :
  Forall (fun ch => isspace ch = true) pre -> Forall (fun ch => isspace ch = true) post ->
  trim_ascii (pre ++ s ++ post) = trim_ascii s.
Proof.
  intros Hpre Hpost. unfold trim_ascii. rewrite skip_space_pad by done. f_equal.
  assert (skip_space (s ++ post) = skip_space s ++ post \/
          Forall (fun ch => isspace ch = true) s /\ skip_space s = []) as [->|[Hs E]].
  { induction s as [|ch s IH]; [by right|]. cbn. destruct (isspace ch) eqn:E; [|by left].
    destruct IH as [?|[? ?]]; [by left|right; split; [by constructor|done]]. }
  - rewrite reverse_app. by apply skip_space_pad, Forall_reverse.
  - rewrite E. rewrite skip_space_pad by done. clear -Hpost. induction Hpost as [|ch post Ec _ IH]; [done|]. cbn. by rewrite Ec.
Qed.

Lemma trim_ascii_solid s : skip_space s = s -> skip_space (reverse s) = reverse s -> trim_ascii s = s.
Proof. intros H1 H2. unfold trim_ascii. by rewrite H1, H2, reverse_involutive. Qed.

Lemma trimmed_edges s : trim_ascii s = s -> skip_space s = s /\ skip_space (reverse s) = reverse s.
Proof.
  intros E. assert (skip_space s = s) as E1.
  { apply skip_space_id. destruct s as [|ch s']; [done|]. revert E. unfold trim_ascii. cbn [skip_space].
    destruct (isspace ch) eqn:Ec; [|done]. intros E. exfalso. apply (f_equal length) in E. revert E.
    rewrite length_reverse. intros E.
    assert (forall t : bytes, (length (skip_space t) <= length t)%nat) as Hl.
    { clear. induction t as [|c t IH]; [done|]. cbn. destruct (isspace c); cbn; lia. }
    pose proof (Hl (reverse (skip_space s'))) as H1. rewrite length_reverse in H1. pose proof (Hl s'). cbn in *. lia. }
  split; [done|]. unfold trim_ascii in E. rewrite E1 in E.
  apply (f_equal reverse) in E. by rewrite reverse_involutive in E.
Qed.

(** ** Locked accounts, written and read *)

Fixpoint joined (ids : list bytes) : bytes :=
  match ids with [] => [] | [id] => id | id :: ids => id ++ [comma] ++ joined ids end.

Lemma joined_snoc ids id : joined (ids ++ [id]) = (if bool_decide (ids = []) then [] else joined ids ++ [comma]) ++ id.
Proof.
  induction ids as [|x ids IH]; [done|]. destruct ids as [|y ids].
  { rewrite bool_decide_false by done. cbn. by rewrite <- app_assoc. }
  cbn [app] in *.
  change (joined (x :: y :: ids ++ [id])) with (x ++ [comma] ++ joined (y :: ids ++ [id])). rewrite IH.
  rewrite !bool_decide_false by done. change (joined (x :: y :: ids)) with (x ++ [comma] ++ joined (y :: ids)).
  by rewrite <- !app_assoc.
Qed.

(** A name that is kept: trimmed, not empty, and without a comma. *)
Definition clean (id : bytes) : Prop := trim_ascii id = id /\ id <> [] /\ comma ∉ id.

Lemma serialize_new_spec ids : forall seen,
  serialize_new ids seen (joined seen) = joined (StickyAffinity.add_unseen ids seen).
Proof.
  induction ids as [|id ids IH]; intros seen; [done|]. cbn [serialize_new StickyAffinity.add_unseen].
  destruct (_ || _); [apply IH|]. rewrite <- IH. f_equal. rewrite joined_snoc. f_equal. case_bool_decide; [by subst|done].
Qed.

Lemma trim_free id : comma ∉ id -> comma ∉ trim_ascii id.
Proof.
  intros H Hin. apply H. destruct (trim_ascii_split id) as (pre & post & E & _). rewrite E. set_solver.
Qed.

Lemma add_unseen_clean ids : forall seen,
  Forall (fun id => comma ∉ id) ids -> Forall clean seen -> NoDup seen ->
  Forall clean (StickyAffinity.add_unseen ids seen) /\ NoDup (StickyAffinity.add_unseen ids seen).
Proof.
  induction ids as [|id ids IH]; intros seen Hf Hc Hd; [done|]. apply Forall_cons in Hf as [Hi Hf].
  cbn [StickyAffinity.add_unseen]. destruct (_ || _) eqn:E; [by apply IH|]. apply orb_false_iff in E as [E1 E2].
  apply bool_decide_eq_false in E1, E2. apply IH; [done| |].
  - apply Forall_app. split; [done|]. apply Forall_singleton. split_and!; [apply trim_ascii_idem|done|by apply trim_free].
  - apply NoDup_app. split_and!; [done| |apply NoDup_singleton]. intros x Hx ->%list_elem_of_singleton. by apply E2.
Qed.

Lemma joined_edges ids : Forall clean ids -> skip_space (joined ids) = joined ids /\ skip_space (reverse (joined ids)) = reverse (joined ids).
Proof.
  assert (forall s rest, skip_space s = s -> s <> [] -> skip_space (s ++ rest) = s ++ rest) as Hpre.
  { intros [|ch s] rest E Hne; [done|]. apply skip_space_id. cbn. pose proof (skip_space_head (ch :: s)) as H. by rewrite E in H. }
  induction 1 as [|id ids (Ht & Hne & _) Hc [IH1 IH2]]; [done|]. apply trimmed_edges in Ht as [H1 H2].
  destruct ids as [|id' ids]; [done|]. change (joined (id :: id' :: ids)) with (id ++ [comma] ++ joined (id' :: ids)).
  split; [by apply Hpre|]. rewrite !reverse_app. destruct (joined (id' :: ids)) as [|ch s] eqn:Ej.
  - exfalso. apply Forall_cons in Hc as [(_ & Hne' & _) _]. destruct id' as [|c id']; [done|]. by destruct ids.
  - rewrite <- !app_assoc. apply Hpre; [done|]. intros E. apply (f_equal length) in E. by rewrite length_reverse in E.
Qed.

Lemma pieces_joined ids : Forall clean ids -> ids <> [] -> csv_pieces [] (joined ids) = ids.
Proof.
  induction 1 as [|id ids (_ & _ & Hc) _ IH]; [done|]. intros _. destruct ids as [|id' ids]; [by apply csv_pieces_free|].
  change (joined (id :: id' :: ids)) with (id ++ comma :: joined (id' :: ids)). rewrite csv_pieces_comma by done.
  by rewrite IH.
Qed.

Lemma add_unseen_id ids : forall seen, Forall clean ids -> NoDup (seen ++ ids) -> StickyAffinity.add_unseen ids seen = seen ++ ids.
Proof.
  induction ids as [|id ids IH]; intros seen Hc Hd; [by rewrite app_nil_r|]. apply Forall_cons in Hc as [(Ht & Hne & _) Hc].
  cbn [StickyAffinity.add_unseen]. rewrite Ht, (bool_decide_false (id = [])) by done.
  rewrite bool_decide_false.
  2:{ intros Hin. apply NoDup_app in Hd as (_ & Hd & _). apply (Hd id Hin). by left. }
  cbn [orb]. rewrite IH; [by rewrite <- app_assoc|done|by rewrite <- app_assoc].
Qed.

(** The accounts of a lock pool are stored as they were given: what routing
    reads back from the column are the names, trimmed, each once and in their
    order, unless a name has a comma. *)
Theorem locked_ids_roundtrip ids :
  Forall (fun id => comma ∉ id) ids ->
  StickyAffinity.parse_locked_routing_account_ids (serialize_locked_routing_account_ids ids) =
  StickyAffinity.add_unseen ids [].
Proof.
  intros Hf. destruct (add_unseen_clean ids [] Hf) as [Hc Hd]; [constructor|constructor|].
  unfold serialize_locked_routing_account_ids, StickyAffinity.parse_locked_routing_account_ids.
  pose proof (serialize_new_spec ids []) as Es. cbn [joined] in Es. rewrite Es. set (l := StickyAffinity.add_unseen ids []) in *.
  destruct (joined_edges l Hc) as [H1 H2]. rewrite trim_ascii_solid by done.
  destruct l as [|id l'] eqn:E; [done|]. rewrite pieces_joined by done. by apply add_unseen_id.
Qed.

Lemma locked_ids_roundtrip_witness :
  Forall (fun id => comma ∉ id) [$" a "; $"b"; $"a"] /\
  StickyAffinity.parse_locked_routing_account_ids (serialize_locked_routing_account_ids [$" a "; $"b"; $"a"]) = [$"a"; $"b"].
Proof.
  assert (Forall (fun id => comma ∉ id) [$" a "; $"b"; $"a"]) as H by (repeat constructor; apply (bool_decide_unpack _); vm_compute; exact I).
  split; [exact H|]. exact (locked_ids_roundtrip [$" a "; $"b"; $"a"] H).
Defined.

(** ** Prices that are accepted are read *)

Section prices.
Context (strtod : bytes -> double * nat).

Lemma token_read piece :
  is_valid_pricing_token strtod piece = true -> trim_ascii piece = [] \/ is_Some (parse_override strtod piece).
Proof.
  unfold is_valid_pricing_token, parse_override. case_bool_decide as E; [by left|]. intros H. right. revert H.
  destruct (cut Byte.x3d _) as [[before after]|]; [|done]. cbn.
  destruct (cut Byte.x40 _) as [[plan model]|]; [|done]. cbn. destruct (bool_decide (trim_ascii after = [])); [done|].
  destruct (_ || _) eqn:Eo; [done|]. apply orb_false_iff in Eo as [E1 E2].
  destruct (cut Byte.x3a _) as [[input output]|]; [|done]. cbn.
  destruct (parse_non_negative_double strtod input); [|done]. cbn. by destruct (parse_non_negative_double strtod output).
Qed.

Lemma token_trim p q : trim_ascii p = trim_ascii q -> is_valid_pricing_token strtod p = is_valid_pricing_token strtod q.
Proof. unfold is_valid_pricing_token. by intros ->. Qed.

Lemma pieces_spaces p s :
  Forall (fun ch => isspace ch = true) s -> override_pieces p s = [p ++ s].
Proof.
  intros H. revert p. induction H as [|ch s E _ IH]; intros p; cbn; [by rewrite app_nil_r|].
  rewrite bool_decide_false by (by intros [->| ->]). by rewrite IH, <- app_assoc.
Qed.

Lemma pieces_prefix pre p s :
  Forall (fun ch => isspace ch = true) pre -> override_pieces p (pre ++ s) = override_pieces (p ++ pre) s.
Proof.
  intros H. revert p. induction H as [|ch pre E _ IH]; intros p; cbn; [by rewrite app_nil_r|].
  rewrite bool_decide_false by (by intros [->| ->]). by rewrite IH, <- app_assoc.
Qed.

Lemma pieces_pad pre post p s :
  Forall (fun ch => isspace ch = true) pre -> Forall (fun ch => isspace ch = true) post ->
  forallb (is_valid_pricing_token strtod) (override_pieces p s) = true ->
  forallb (is_valid_pricing_token strtod) (override_pieces (pre ++ p) (s ++ post)) = true.
Proof.
  intros Hpre Hpost. revert pre Hpre p. induction s as [|ch s IH]; intros pre Hpre p; cbn [app override_pieces].
  - rewrite pieces_spaces by done. cbn [forallb]. rewrite <- app_assoc.
    by rewrite (token_trim (pre ++ p ++ post) p) by by apply trim_ascii_pad.
  - case_bool_decide; cbn [forallb].
    + intros [H1 H2]%andb_true_iff. apply andb_true_iff. split.
      * rewrite (token_trim _ p); [done|]. rewrite <- (app_nil_r p) at 1. by apply trim_ascii_pad; [|constructor].
      * by apply (IH [] (Forall_nil_2 _)).
    + rewrite <- app_assoc. by apply IH.
Qed.

(** Prices the controller accepts all take effect: routing, which reads the
    column again with a parser of its own, finds an override in every token
    that is not blank. *)
Theorem accepted_prices_read raw_value :
  is_valid_routing_plan_model_pricing strtod raw_value = true ->
  Forall (fun piece => trim_ascii piece = [] \/ is_Some (parse_override strtod piece)) (override_pieces [] raw_value).
Proof.
  intros H. assert (forallb (is_valid_pricing_token strtod) (override_pieces [] raw_value) = true) as Hf.
  { destruct (trim_ascii_split raw_value) as (pre & post & E & Hpre & Hpost). rewrite E, pieces_prefix by done.
    rewrite (app_nil_l pre), <- (app_nil_r pre). apply pieces_pad; [done|done|]. revert H.
    unfold is_valid_routing_plan_model_pricing. case_bool_decide as Et; [by rewrite Et|done]. }
  rewrite forallb_forall in Hf. apply Forall_forall. intros piece Hp. apply token_read, Hf. by apply list_elem_of_In.
Qed.

End prices.

(** [strtod] on the digits of a natural number. *)
Definition sample_strtod (text : bytes) : double * nat := (of_int 3, length text).

Lemma accepted_prices_read_witness :
  is_valid_routing_plan_model_pricing sample_strtod $" Pro@gpt = 3:3 ;" = true /\
  Forall (fun piece => trim_ascii piece = [] \/ is_Some (parse_override sample_strtod piece))
    (override_pieces [] $" Pro@gpt = 3:3 ;").
Proof.
  assert (is_valid_routing_plan_model_pricing sample_strtod $" Pro@gpt = 3:3 ;" = true) as H by (vm_compute; reflexivity).
  split; [exact H|]. exact (accepted_prices_read sample_strtod _ H).
Defined.

(** ** Settings stay valid *)

Section validity.
Context (strtod : bytes -> double * nat).

Definition in_unit (w : double) : Prop := fle f_zero w = true /\ fle w f_one = true.

(** What every setting that is stored satisfies. *)
Record valid (r : DashboardSettingsRecord) : Prop := {
  valid_transport : upstream_stream_transport r ∈ [$"default"; $"auto"; $"http"; $"websocket"];
  valid_theme : theme r ∈ [$"auto"; $"dark"; $"light"];
  valid_strategy : routing_strategy r ∈ [$"round_robin"; $"weighted_round_robin"; $"drain_hop"];
  valid_affinity : 0 < openai_cache_affinity_max_age_seconds r;
  valid_cluster : sync_cluster_name r <> [];
  valid_site : 0 < sync_site_id r;
  valid_port : 1 <= sync_port r <= 65535;
  valid_interval : 0 <= sync_interval_seconds r <= 86400;
  valid_conflict : sync_conflict_resolution r ∈ [$"lww"; $"site_priority"; $"field_merge"];
  valid_retention : 1 <= sync_journal_retention_days r <= 3650;
  valid_schema : 1 <= sync_min_supported_schema_version r <= sync_schema_version r /\ sync_schema_version r <= 1000000;
  valid_probe_interval : 100 <= sync_peer_probe_interval_ms r <= 300000;
  valid_probe_timeout : 50 <= sync_peer_probe_timeout_ms r <= 60000;
  valid_probe_max : 1 <= sync_peer_probe_max_per_refresh r <= 64;
  valid_probe_failures : 1 <= sync_peer_probe_fail_closed_failures r <= 1000;
  valid_weights :
    (in_unit (routing_headroom_weight_primary r) /\ in_unit (routing_headroom_weight_secondary r)) /\
    (in_unit (routing_score_alpha r) /\ in_unit (routing_score_beta r) /\ in_unit (routing_score_gamma r)) /\
    in_unit (routing_score_delta r) /\ in_unit (routing_score_zeta r) /\ in_unit (routing_score_eta r);
  valid_rho : storable (routing_success_rate_rho r) = true /\ fle (routing_success_rate_rho r) f_zero = false /\
    flt (of_int 64) (routing_success_rate_rho r) = false;
  valid_pricing : is_valid_routing_plan_model_pricing strtod (routing_plan_model_pricing_usd_per_million r) = true;
  valid_totp : totp_required_on_login r = true -> totp_configured r = true;
}.

Lemma default_valid : valid default_settings.
Proof.
  split; try (apply (bool_decide_unpack _); vm_compute; exact I); try (cbn; lia); try done; repeat split; reflexivity.
Qed.

Lemma column_real_unit w : in_unit w -> in_unit (column_real w).
Proof. by destruct w as [[]| | |]. Qed.

Lemma column_real_flt w : flt (of_int 64) (column_real w) = flt (of_int 64) w /\ fle (column_real w) f_zero = fle w f_zero.
Proof. by destruct w as [[]| | |]. Qed.

Lemma stored_valid r : valid r -> valid (stored r).
Proof.
  intros []. split; try done.
  - cbn. repeat match goal with H : _ /\ _ |- _ => destruct H end. split_and!; by apply column_real_unit.
  - destruct (column_real_flt (routing_success_rate_rho r)) as [E1 E2]. destruct valid_rho0 as (H & H1 & H2).
    split_and!; [|exact (eq_trans E2 H1)|exact (eq_trans E1 H2)]. cbn. by destruct (routing_success_rate_rho r) as [[]| | |].
Qed.

Lemma in_unit_storable w : in_unit w -> storable w = true.
Proof. intros [H _]. destruct w; try done. Qed.

Lemma valid_storable r : valid r -> forallb storable (weights r) = true.
Proof.
  intros []. repeat match goal with H : _ /\ _ |- _ => destruct H end. cbn.
  repeat (rewrite in_unit_storable by done). by rewrite H.
Qed.

Lemma first_refusal_none checks : first_refusal checks = None <-> Forall (fun c => c.1 = true) checks.
Proof.
  induction checks as [|[[] refusal] checks IH]; cbn; [by split| |].
  - rewrite IH, Forall_cons. cbn. tauto.
  - split; [done|]. by intros [? _]%Forall_cons.
Qed.

Lemma between_spec low high value : between low high value = true <-> low <= value <= high.
Proof. unfold between. rewrite andb_true_iff, !Z.leb_le. done. Qed.

Lemma is_valid_weight_spec update current :
  in_unit current -> is_valid_weight update = true <-> in_unit (value_or update current).
Proof. intros H. unfold is_valid_weight, in_unit in *. destruct update as [w|]; [apply andb_true_iff|]. by split. Qed.

Lemma strategy_normal strategy :
  normalize_supported_routing_strategy strategy ∈ [$"round_robin"; $"weighted_round_robin"; $"drain_hop"].
Proof.
  unfold normalize_supported_routing_strategy, is_valid_routing_strategy. rewrite trim_lower, trim_ascii_idem, to_lower_ascii_idem.
  case_bool_decide as E; [done|]. apply (bool_decide_unpack _). vm_compute. exact I.
Qed.

(** The settings an update asks for. *)
Definition asked (u : Update.DashboardSettingsUpdate) (r : DashboardSettingsRecord) : DashboardSettingsRecord :=
  patched (settings_patch u r) r.

Definition strategy_supported (u : Update.DashboardSettingsUpdate) : Prop :=
  match Update.routing_strategy u with Some strategy => is_valid_routing_strategy strategy = true | None => True end.

Lemma checks_asked u r :
  valid r -> (first_refusal (update_checks strtod u r) = None /\ storable (routing_success_rate_rho (asked u r)) = true) <->
             (strategy_supported u /\ valid (asked u r)).
Proof.
  intros Hr. rewrite first_refusal_none. unfold update_checks. rewrite !Forall_cons, Forall_nil. cbn [fst].
  rewrite !between_spec, !Z.ltb_lt, !Z.leb_le, !negb_true_iff, !bool_decide_eq_false, !andb_true_iff.
  destruct (valid_weights _ Hr) as ((W1 & W2) & (W3 & W4 & W5) & W6 & W7 & W8).
  rewrite (is_valid_weight_spec _ _ W1), (is_valid_weight_spec _ _ W2), (is_valid_weight_spec _ _ W3), (is_valid_weight_spec _ _ W4),
    (is_valid_weight_spec _ _ W5), (is_valid_weight_spec _ _ W6), (is_valid_weight_spec _ _ W7), (is_valid_weight_spec _ _ W8).
  unfold is_valid_upstream_stream_transport, is_valid_theme, is_valid_conflict_resolution. rewrite !bool_decide_eq_true.
  unfold strategy_supported. split.
  - intros [(H1 & H2 & H3 & H4 & H5 & H6 & H7 & H8 & H9 & H10 & H11 & H12 & H13 & H14 & H15 & H16 & H17 & H18 & H19 & H20 & H21 & _) Hs].
    split; [by destruct (Update.routing_strategy u)|]. apply orb_false_iff in H19 as [H19 H19'].
    split; [exact H1|exact H2| |exact H4|exact H5|exact H6|exact H7|exact H8|exact H9|exact H10|cbn; lia|exact H14|exact H15
           |exact H16|exact H17| |by split|exact H20|].
    + change (routing_strategy_of u r ∈ [$"round_robin"; $"weighted_round_robin"; $"drain_hop"]).
      unfold routing_strategy_of. destruct (Update.routing_strategy u); apply strategy_normal.
    + unfold asked. cbn. tauto.
    + intros Ht. apply andb_false_iff in H21 as [H21|H21]; [|by apply negb_false_iff in H21].
      change (value_or (Update.totp_required_on_login u) (totp_required_on_login r) = true) in Ht. congruence.
  - intros [Hu [V1 V2 V3 V4 V5 V6 V7 V8 V9 V10 V11 V12 V13 V14 V15 V16 [V17 [V17' V17'']] V18 V19]].
    split; [|exact V17]. cbn in V11. unfold asked in V16. cbn in V16.
    split_and!; try exact I; try (by destruct (Update.routing_strategy u)); try exact V1; try exact V2; try exact V4; try exact V5;
      try exact V6; try exact V7; try exact V8; try exact V9; try exact V10; try exact V12; try exact V13; try exact V14;
      try exact V15; try exact V18; try tauto; try (cbn; lia).
    + apply orb_false_iff. split; [exact V17'|exact V17''].
    + destruct (value_or (Update.totp_required_on_login u) (totp_required_on_login r)) eqn:Et; [|done].
      apply andb_false_iff. right. apply negb_false_iff. by apply V19.
Qed.

Lemma weights_asked u r :
  valid r -> first_refusal (update_checks strtod u r) = None -> forallb storable (weights (asked u r)) = true ->
  strategy_supported u /\ valid (asked u r).
Proof.
  intros Hr Hc Hw. apply checks_asked; [done|]. split; [done|]. rewrite forallb_forall in Hw. apply Hw. cbn. tauto.
Qed.

Lemma all_run_get (runs : SettingsStatement -> bool) db :
  (forall s, runs s = true) -> get_dashboard_settings runs db = (Some (row_of db), set_row (row_of db) db).
Proof.
  intros H. unfold get_dashboard_settings, ensure_dashboard_settings_schema, ensure_schema. by rewrite !H.
Qed.

(** Any update keeps valid settings valid, and never touches the steps of
    one-time codes. *)
Lemma settings_update_kept runs opened guard now u db :
  let '(_, db') := update_settings strtod runs opened guard now u db in
  (valid (row_of db) -> valid (row_of db')) /\
  totp_last_verified_step (row_of db') = totp_last_verified_step (row_of db).
Proof.
  unfold update_settings. destruct (settings_access opened guard); [done|].
  pose proof (get_keeps (runs 0%nat) db) as Hg.
  destruct (get_dashboard_settings (runs 0%nat) db) as [[current|] db1]; destruct Hg as (G1 & G2 & G3).
  2:{ by rewrite G1. }
  destruct (G3 current eq_refl) as [-> _]. destruct (first_refusal _) as [[code message]|] eqn:Ef; [by rewrite G1|].
  pose proof (settings_update_spec (fun turn => runs (S turn)) now (settings_patch u (row_of db)) db1) as Hu.
  rewrite G1 in Hu. fold (asked u (row_of db)) in Hu.
  destruct (update_dashboard_settings _ _ _ _) as [[r|] db2]; cbv zeta in Hu;
    (destruct Hu as [(U1 & _)|(U1 & _ & Hw & _)]; rewrite U1; split; [done|done| |done]);
    intros Hv; apply stored_valid; by destruct (weights_asked u (row_of db) Hv Ef Hw).
Qed.

(** Updates of the settings are decided by the settings they ask for: an
    update that would make them invalid is refused, naming the first check it
    fails, or fails to be stored, and leaves row and accounts as they were;
    any other is answered with the settings that are then in force, unless a
    statement fails.  So settings that are valid stay valid, whatever is
    asked and whatever fails. *)
Theorem settings_update_decided runs opened guard now u db :
  valid (row_of db) ->
  let '(response, db') := update_settings strtod runs opened guard now u db in
  valid (row_of db') /\
  (row_of db' = row_of db /\ accounts db' = accounts db \/ row_of db' = stored (asked u (row_of db))) /\
  (status response = 200 -> row_of db' = stored (asked u (row_of db)) /\ settings response = to_payload (row_of db')) /\
  (status response = 400 -> row_of db' = row_of db /\ accounts db' = accounts db /\
     ~ (strategy_supported u /\ valid (asked u (row_of db)))) /\
  ((forall turn s, runs turn s = true) -> settings_access opened guard = None ->
     status response = 200 <-> strategy_supported u /\ valid (asked u (row_of db))).
Proof.
  intros Hv. unfold update_settings. destruct (settings_access opened guard) as [response|] eqn:Ea.
  { assert (status response <> 200 /\ status response <> 400) as [H1 H2].
    { revert Ea. unfold settings_access, check_linearizable_read_access. repeat case_match; by intros [= <-]. }
    split_and!; [done|by left|done|done|done]. }
  pose proof (get_keeps (runs 0%nat) db) as Hg. pose proof (all_run_get (runs 0%nat) db) as Hall.
  destruct (get_dashboard_settings (runs 0%nat) db) as [[current|] db1]; destruct Hg as (G1 & G2 & G3).
  2:{ rewrite G1. split_and!; [done|by left|done|done|]. intros Hr _. by specialize (Hall (Hr 0%nat)). }
  destruct (G3 current eq_refl) as [-> _]. destruct (first_refusal _) as [[code message]|] eqn:Ef.
  { rewrite G1. assert (~ (strategy_supported u /\ valid (asked u (row_of db)))) as Hno.
    { intros H. apply checks_asked in H as [H _]; [|done]. congruence. }
    split_and!; [done|by left|done|done|]. intros _ _. by split. }
  pose proof (settings_update_spec (fun turn => runs (S turn)) now (settings_patch u (row_of db)) db1) as Hu.
  pose proof (settings_update_all_run (fun turn => runs (S turn)) now (settings_patch u (row_of db)) db1) as Ha.
  rewrite G1, G2 in Hu. rewrite G1 in Ha. fold (asked u (row_of db)) in Hu, Ha.
  destruct (update_dashboard_settings _ _ _ _) as [result db2].
  assert ((forall turn s, runs turn s = true) -> is_Some result <-> strategy_supported u /\ valid (asked u (row_of db))) as Hok.
  { intros Hr. cbn [fst] in Ha. rewrite Ha by (intros; apply Hr). destruct (forallb storable _) eqn:Ew; split.
    - intros _. by apply weights_asked.
    - by eexists.
    - by intros ?%is_Some_None.
    - intros [_ H]. apply valid_storable in H. congruence. }
  destruct Hu as [(U1 & U2 & ->)|(U1 & U2 & Hw & _)].
  - rewrite U1. split_and!; [done|by left|done|done|]. intros Hr _. rewrite <- Hok by done. split; [done|by intros [? ?]].
  - destruct (weights_asked u (row_of db) Hv Ef Hw) as [Hs Ha'].
    assert (valid (row_of db2)) as Hv2 by (rewrite U1; by apply stored_valid).
    destruct U2 as [->| ->]; cbn [status settings failure success].
    + split_and!; [done|by right|done|done|]. intros Hr _. rewrite <- Hok by done. split; [done|by intros [? ?]].
    + rewrite <- U1. split_and!; [done|by right|done|done|]. by intros _ _.
Qed.

End validity.

Definition theme_update (theme : bytes) : Update.DashboardSettingsUpdate :=
  Update.mkUpdate (Some theme) None None None None None None None None None None None None None None None None None None
    None None None None None None None None None None None None None None None None None None None None None None None None
    None None.

Lemma settings_update_decided_witness :
  valid sample_strtod (row_of empty_db) /\
  let '(response, db') := update_settings sample_strtod (fun _ _ => true) true no_override 0 (theme_update $"dark") empty_db in
  status response = 200 /\ theme (row_of db') = $"dark".
Proof.
  pose proof (settings_update_decided sample_strtod (fun _ _ => true) true no_override 0 (theme_update $"dark") empty_db
    (default_valid sample_strtod)) as H.
  split; [exact (default_valid sample_strtod)|].
  destruct (update_settings _ _ _ _ _ _ _) as [response db'] eqn:E. destruct H as (_ & _ & H & _).
  assert (status response = 200) as Hs by (change (status (response, db').1 = 200); rewrite <- E; vm_compute; reflexivity).
  split; [exact Hs|]. destruct (H Hs) as [-> _]. vm_compute. reflexivity.
Defined.

(** ** The passphrase as SQL *)

Lemma sql_text_escape value rest :
  match rest with ch :: _ => ch <> quote | [] => True end ->
  sql_text (escape_sql_string value ++ quote :: rest) = Some (value, rest).
Proof.
  intros Hr. unfold escape_sql_string. induction value as [|ch value IH]; cbn [fmap list_fmap concat app].
  - cbn [sql_text]. rewrite bool_decide_true by done. destruct rest as [|ch rest]; [done|]. by rewrite bool_decide_false.
  - case_bool_decide as E; cbn [app sql_text].
    + subst ch. rewrite !bool_decide_true by done. by rewrite IH.
    + rewrite bool_decide_false by done. by rewrite IH.
Qed.

Lemma sql_text_open value : sql_text (escape_sql_string value) = None.
Proof.
  unfold escape_sql_string. induction value as [|ch value IH]; [done|]. cbn [fmap list_fmap concat].
  case_bool_decide as E; cbn [app sql_text].
  - subst ch. rewrite !bool_decide_true by done. by rewrite IH.
  - rewrite bool_decide_false by done. by rewrite IH.
Qed.

Lemma c_str_app a b : c_str (a ++ b) = if bool_decide (Byte.x00 ∈ a) then c_str a else a ++ c_str b.
Proof.
  induction a as [|ch a IH]; [done|]. cbn [app c_str]. destruct (decide (ch = Byte.x00)) as [->|Hne].
  - by rewrite !bool_decide_true by (done || by left).
  - rewrite (bool_decide_false (ch = _)), IH by done.
    rewrite (bool_decide_ext (Byte.x00 ∈ ch :: a) (Byte.x00 ∈ a)); [by case_bool_decide|].
    rewrite elem_of_cons. split; [intros [<-|]; [by destruct Hne|done]|by right].
Qed.

Lemma escape_nul value : Byte.x00 ∈ escape_sql_string value <-> Byte.x00 ∈ value.
Proof.
  unfold escape_sql_string. rewrite list_elem_of_In, in_concat. setoid_rewrite <- list_elem_of_In.
  split.
  - intros (l & (ch & -> & Hc)%list_elem_of_fmap & Hin). case_bool_decide.
    + subst ch. by set_solver.
    + apply list_elem_of_singleton in Hin. by subst.
  - intros Hin. exists [Byte.x00]. split; [|by left]. apply list_elem_of_fmap. by exists Byte.x00.
Qed.

Lemma escape_cut value : exists cut, c_str (escape_sql_string value) = escape_sql_string cut.
Proof.
  induction value as [|ch value [cut IH]]; [by exists []|]. unfold escape_sql_string in *. cbn [fmap list_fmap concat].
  destruct (decide (ch = Byte.x00)) as [->|Hne]; [by exists []|]. exists (ch :: cut). cbn [fmap list_fmap concat].
  case_bool_decide as E; cbn [app c_str].
  - subst ch. rewrite !bool_decide_false by done. by rewrite IH.
  - rewrite bool_decide_false by done. by rewrite IH.
Qed.

(** The pragma names the passphrase itself, whatever quotes are in it; a
    passphrase with a NUL makes a statement that does not parse. *)
Lemma rekey_names_passphrase passphrase answer key :
  exec_pragma $"PRAGMA rekey='" (rekey_sql passphrase) answer = inl key -> key = passphrase.
Proof.
  unfold exec_pragma, rekey_sql. rewrite c_str_app, bool_decide_false by (apply (bool_decide_unpack _); vm_compute; exact I).
  rewrite drop_app_length, c_str_app. case_bool_decide as Hn.
  - destruct (escape_cut passphrase) as [cut ->]. by rewrite sql_text_open.
  - change (c_str $"';") with (quote :: $";"). rewrite sql_text_escape by done. rewrite bool_decide_true by done.
    destruct answer; [done|]. by intros [= <-].
Qed.

(** ** No token is lost *)

Section kept.
Context {sodium : Sodium} {digest : Digest} {laws : SodiumLaws sodium}.

(** A stored token reads under [p'] what it read under [p]. *)
Definition reads_same (p p' : bytes) (stored stored' : option bytes) : Prop :=
  match stored with
  | None | Some [] => stored' = stored
  | Some value => exists value', stored' = Some value' /\
      decrypt_token_from_storage_with_passphrase value' p' = decrypt_token_from_storage_with_passphrase value p
  end.

Definition tokens_kept (p p' : bytes) (t t' : accounts_table) : Prop :=
  Forall2 (fun r r' => Accounts.id r' = Accounts.id r /\ Forall2 (reads_same p p') (tokens_of r) (tokens_of r')) (Accounts.rows t) (Accounts.rows t').

Lemma tokens_kept_refl p t : tokens_kept p p t t.
Proof.
  apply Forall2_same_length_lookup_2; [done|]. intros i r r' E1 E2. simplify_eq. split; [done|].
  apply Forall2_same_length_lookup_2; [done|]. intros j s s' F1 F2. simplify_eq. unfold reads_same.
  destruct s as [[|c v]|]; [done| |done]. by eexists.
Qed.

Lemma rotated_kept p p' r r' : row_rotated p p' r r' -> Accounts.id r' = Accounts.id r /\ Forall2 (reads_same p p') (tokens_of r) (tokens_of r').
Proof.
  intros [E H]. split; [by rewrite E|]. eapply Forall2_impl; [exact H|]. unfold token_rotated, reads_same.
  intros [[|c v]|] s'; [done| |done]. intros (value' & q & -> & E1 & _ & E2). exists value'. split; [done|]. by rewrite E2.
Qed.

(** What was rotated forth and back reads as before, whatever nonces were
    drawn. *)
Lemma rotated_back p p' r r' r'' :
  row_rotated p p' r r' -> row_rotated p' p r' r'' -> Accounts.id r'' = Accounts.id r /\ Forall2 (reads_same p p) (tokens_of r) (tokens_of r'').
Proof.
  intros [E H] [E' H']. split; [by rewrite E', E|]. unfold tokens_of in *.
  repeat match goal with H : Forall2 _ (_ :: _) (_ :: _) |- _ => apply Forall2_cons in H as [? ?] end.
  repeat constructor; match goal with H1 : token_rotated p p' ?a ?b, H2 : token_rotated p' p ?b ?c |- reads_same _ _ ?a ?c =>
    revert H1 H2; clear; unfold token_rotated, reads_same; destruct a as [[|ch v]|]; [by intros ->| |by intros ->] end.
  all: intros (v1 & q & -> & E1 & Hv1 & E2) H2; destruct v1 as [|ch1 v1]; [done|];
    destruct H2 as (v2 & q' & -> & E3 & _ & E4); exists v2; split; [done|]; congruence.
Qed.

Definition in_step (s : CryptoSession) : Prop := session_passphrase s = database_key s.

Lemma rotate_spec e cur next s :
  (forall i k, length (rotation_nonce e i k) = crypto_secretbox_NONCEBYTES) ->
  let '(result, s') := rotate e cur next s in
  s' = mkSession (session_passphrase s) (token_crypto s) (database_key s) (session_accounts s') /\
  (result = None -> s' = s) /\
  (is_Some result -> Forall2 (row_rotated cur next) (Accounts.rows (session_accounts s)) (Accounts.rows (session_accounts s'))).
Proof.
  intros Hn. unfold rotate. pose proof (passphrase_rotation (rotation_runs e) cur next (rotation_nonce e) (rotation_now e) (session_accounts s) Hn) as H.
  destruct (rotate_account_token_storage_passphrase _ _ _ _ _ _) as [result t]. destruct H as [H1 H2]. split_and!; [done| |].
  - intros E. rewrite (H1 E). by destruct s.
  - intros Hs. by apply H2.
Qed.

(** Changing the passphrase keeps the process, the database and the tokens in
    step.  The database stays locked with the passphrase of the process.
    When the change succeeds that is the new one, and every token reads under
    it what it read under the old one; when it fails the old one stays, and
    every token reads under it as before, or the database refused its new key
    and the tokens could not be put back, in which case they still read under
    the new passphrase. *)
Theorem passphrase_change_keeps_tokens opened forth back answer current next s :
  (forall i k, length (rotation_nonce forth i k) = crypto_secretbox_NONCEBYTES) ->
  (forall i k, length (rotation_nonce back i k) = crypto_secretbox_NONCEBYTES) ->
  in_step s ->
  let '(response, s') := change_database_passphrase opened forth back answer current next s in
  in_step s' /\
  (change_status response = 200 /\ session_passphrase s = current /\ session_passphrase s' = next /\
     token_crypto s' = configure_token_storage_session_passphrase next /\
     tokens_kept current next (session_accounts s) (session_accounts s') \/
   change_status response <> 200 /\ session_passphrase s' = session_passphrase s /\ token_crypto s' = token_crypto s /\
     (tokens_kept (session_passphrase s) (session_passphrase s) (session_accounts s) (session_accounts s') \/
      change_code response = $"database_rekey_failed" /\ session_passphrase s = current /\
        tokens_kept current next (session_accounts s) (session_accounts s'))).
Proof.
  intros Hf Hb Hs.
  assert (forall r : DatabasePassphraseChangeResponse, change_status r <> 200 ->
    in_step s /\ (change_status r = 200 /\ session_passphrase s = current /\ session_passphrase s = next /\
      token_crypto s = configure_token_storage_session_passphrase next /\
      tokens_kept current next (session_accounts s) (session_accounts s) \/
    change_status r <> 200 /\ session_passphrase s = session_passphrase s /\ token_crypto s = token_crypto s /\
     (tokens_kept (session_passphrase s) (session_passphrase s) (session_accounts s) (session_accounts s) \/
      change_code r = $"database_rekey_failed" /\ session_passphrase s = current /\
        tokens_kept current next (session_accounts s) (session_accounts s)))) as Hq.
  { intros r Hc. split; [done|]. right. split_and!; try done. left. apply tokens_kept_refl. }
  unfold change_database_passphrase. destruct (bool_decide (current = [])); [by apply Hq|].
  destruct (is_valid_database_passphrase next); [|by apply Hq]. destruct (bool_decide (current = next)); [by apply Hq|]. cbn [negb].
  destruct (session_passphrase_matches current s) eqn:Em; [|by apply Hq].
  destruct opened; [|by apply Hq]. cbn [negb].
  unfold session_passphrase_matches in Em. apply andb_true_iff in Em as [_ Em]. apply bool_decide_eq_true in Em.
  pose proof (rotate_spec forth current next s Hf) as Hr. destruct (rotate forth current next s) as [[result|] s1].
  2:{ destruct Hr as (_ & Hr & _). rewrite (Hr eq_refl). by apply Hq. }
  destruct Hr as (Es & _ & Hr). specialize (Hr ltac:(by eexists)). rewrite Es. set (t1 := session_accounts s1) in *.
  assert (tokens_kept current next (session_accounts s) t1) as Hk
    by (eapply Forall2_impl; [exact Hr|intros; by apply rotated_kept]).
  unfold rekey_database_with_passphrase, rekey_with.
  assert (let '(_, s2) := rotate back next current (mkSession (session_passphrase s) (token_crypto s) (database_key s) t1) in
    in_step s2 /\ session_passphrase s2 = session_passphrase s /\ token_crypto s2 = token_crypto s /\
     (tokens_kept (session_passphrase s) (session_passphrase s) (session_accounts s) (session_accounts s2) \/
      tokens_kept current next (session_accounts s) (session_accounts s2))) as Hback.
  { pose proof (rotate_spec back next current (mkSession (session_passphrase s) (token_crypto s) (database_key s) t1) Hb) as H.
    destruct (rotate back next current _) as [[result'|] s2]; destruct H as (E2 & H1 & H2).
    - rewrite E2. split_and!; [done..|]. left. rewrite Em. eapply Forall2_trans; [|exact Hr|apply H2; by eexists].
      intros ? ? ?. apply rotated_back.
    - rewrite H1 by done. split_and!; [done..|]. by right. }
  case_bool_decide as En; [|destruct (exec_pragma _ _ _) as [key|error] eqn:Ek].
  - destruct (rotate back next current _) as [result' s2]. destruct Hback as (H1 & H2 & H3 & H4).
    split; [done|]. right. split_and!; try done. destruct H4; [by left|by right].
  - apply rekey_names_passphrase in Ek as ->. split; [done|]. left. by split_and!.
  - destruct (rotate back next current _) as [result' s2]. destruct Hback as (H1 & H2 & H3 & H4).
    split; [done|]. right. split_and!; try done. destruct H4; [by left|by right].
Qed.

End kept.

Definition sample_rotation (runs : bool) : RotationEnv := mkRotation (fun _ => runs) (fun _ _ => replicate 24 Byte.x01) 7.

Definition sample_session : CryptoSession :=
  mkSession $"old-passphrase" initial_crypto_state $"old-passphrase" (mkAccounts [sample_row] 2).

Lemma passphrase_change_keeps_tokens_witness :
  let '(response, s') := @change_database_passphrase plain_sodium plain_digest true (sample_rotation true) (sample_rotation true)
    None $"old-passphrase" $"new-passphrase" sample_session in
  change_status response = 200 /\
  @tokens_kept plain_sodium plain_digest $"old-passphrase" $"new-passphrase" (mkAccounts [sample_row] 2) (session_accounts s').
Proof.
  pose proof (@passphrase_change_keeps_tokens plain_sodium plain_digest plain_sodium_laws true (sample_rotation true)
    (sample_rotation true) None $"old-passphrase" $"new-passphrase" sample_session (fun _ _ => eq_refl) (fun _ _ => eq_refl) eq_refl) as H.
  destruct (change_database_passphrase _ _ _ _ _ _ _) as [response s'] eqn:E.
  assert (change_status response = 200) as Hs by (change (change_status (response, s').1 = 200); rewrite <- E; vm_compute; reflexivity).
  split; [exact Hs|]. destruct H as [_ [(_ & _ & _ & _ & H)|(H & _)]]; [exact H|by destruct (H Hs)].
Defined.

(** Boxes that open with their key only, and digests that differ. *)
Definition keyed_sodium : Sodium := {|
  sodium_ready := true;
  sodium_bin2base64 := fun data => data;
  sodium_base642bin := fun _ text => Some text;
  crypto_secretbox_easy := fun m _ k => Some (m ++ take 16 k);
  crypto_secretbox_open_easy := fun c _ k =>
    if bool_decide (drop (length c - 16) c = take 16 k) then Some (take (length c - 16) c) else None;
|}.

Definition keyed_digest : Digest := {| mbedtls_sha256 := fun text => Some (take 32 (reverse text ++ replicate 32 Byte.x00)) |}.

(** When the database refuses its new key and putting the tokens back fails
    as well, the process keeps the old passphrase, which opens none of the
    tokens any more. *)
Lemma passphrase_change_strands_tokens :
  let '(response, s') := @change_database_passphrase keyed_sodium keyed_digest true (sample_rotation true) (sample_rotation false)
    (Some $"disk full") $"old-passphrase" $"new-passphrase" sample_session in
  change_status response = 500 /\ session_passphrase s' = $"old-passphrase" /\
  exists stored, access_token_encrypted <$> Accounts.rows (session_accounts s') = [Some stored] /\
    (exists error, @decrypt_token_from_storage_with_passphrase keyed_sodium keyed_digest stored $"old-passphrase" = Throw error) /\
    @decrypt_token_from_storage_with_passphrase keyed_sodium keyed_digest stored $"new-passphrase" = Ret $"token".
Proof.
  destruct (change_database_passphrase _ _ _ _ _ _ _) as [response s'] eqn:E. vm_compute in E. injection E as <- <-.
  split_and!; [done|done|]. eexists. split; [reflexivity|]. split; [eexists|]; vm_compute; reflexivity.
Qed.
