(* ===== verification/DashboardAuth.v ===== *)
(** * DashboardAuth: signing in to the dashboard

    src/native/server/controllers/src/auth_controller.cpp: passwords, sessions
    and one-time codes, over the settings of [SettingsRepo], the sessions of
    [Sessions] and the codes of [Totp].  A call is one step; what it reads from
    clocks, random generators and statements is its [AuthEnv]. *)

From S2P Require Import Prelude Codec Text Double Conflict Headers Fernet TokenStore Accounts Pricing RoutingStore StickyAffinity.
From S2P Require Import Table ApiKeys ApiKeyFilter KeysController Sessions SettingsRepo SettingsController Totp.
Import Text.Ascii.
Import Sessions.Dashboard.

(** ** auth_controller.h *)

Record DashboardAuthSessionPayload := mkAuthPayload {
  authenticated : bool;
  password_required : bool;
  payload_totp_required : bool;
  payload_totp_configured : bool;
}.

Record DashboardAuthResponse := mkAuthResponse {
  auth_status : Z;
  auth_code : bytes;
  auth_message : bytes;
  auth_session : DashboardAuthSessionPayload;
  auth_session_id : bytes;
}.

Record TotpSetupStartResponse := mkStartResponse {
  start_status : Z;
  start_code : bytes;
  start_message : bytes;
  start_secret : bytes;
  start_otpauth_uri : bytes;
}.

Definition no_session : DashboardAuthSessionPayload := mkAuthPayload false false false false.

Definition auth_failure (status : Z) (code message : bytes) : DashboardAuthResponse :=
  mkAuthResponse status code message no_session [].

Definition db_unavailable : DashboardAuthResponse := auth_failure 500 $"db_unavailable" $"Database unavailable".
Definition settings_unavailable : DashboardAuthResponse :=
  auth_failure 500 $"settings_unavailable" $"Failed to load dashboard auth settings".
Definition auth_required : DashboardAuthResponse := auth_failure 401 $"auth_required" $"Authentication is required".
Definition invalid_code (message : bytes) : DashboardAuthResponse := auth_failure 400 $"invalid_totp_code" message.

Definition start_failure (r : DashboardAuthResponse) : TotpSetupStartResponse :=
  mkStartResponse (auth_status r) (auth_code r) (auth_message r) [] [].

(** ** The state of the process *)

Record AuthWorld := mkAuth {
  auth_db : SettingsDb;
  session_manager : DashboardSessionManager;
  pending_totp_secret_by_session : gmap bytes bytes;
}.

Definition kSessionTtlMs : Z := 12 * 60 * 60 * 1000.

Definition initial_auth (db : SettingsDb) : AuthWorld := mkAuth db (make_manager kSessionTtlMs) ∅.

Definition with_auth_db (db : SettingsDb) (w : AuthWorld) : AuthWorld :=
  mkAuth db (session_manager w) (pending_totp_secret_by_session w).
Definition with_manager (m : DashboardSessionManager) (w : AuthWorld) : AuthWorld :=
  mkAuth (auth_db w) m (pending_totp_secret_by_session w).
Definition with_pending (p : gmap bytes bytes) (w : AuthWorld) : AuthWorld := mkAuth (auth_db w) (session_manager w) p.

(** The statements by their turn, the readings of the clock in their order,
    the UUID of a new session, the salt of a hash and random bytes. *)
Record AuthEnv := mkAuthEnv {
  auth_runs : nat -> SettingsStatement -> bool;
  auth_opened : bool;
  auth_guard : GuardOverride;
  now_ms : nat -> Z;
  new_session_id : bytes;
  salt : bytes;
  random_ready : bool;
  random_bytes : bytes;
}.

Definition now_unix_seconds (e : AuthEnv) (reading : nat) : Z := now_ms e reading ÷ 1000.

(** ** The controller *)

Section controller.
Context {hmac : HmacSha1} {pwhash : PwHash}.

Definition is_set (value : option bytes) : bool := match value with Some (_ :: _) => true | _ => false end.

Definition build_session_payload (settings : DashboardSettingsRecord) (session : option DashboardSessionState) :
    DashboardAuthSessionPayload :=
  let password_required := is_set (password_hash settings) in
  let has_password_session := match session with Some s => password_verified s | None => false end in
  let has_totp_session := has_password_session && match session with Some s => totp_verified s | None => false end in
  let required := SettingsRepo.totp_required_on_login settings in
  mkAuthPayload
    (if negb password_required then true else if required then has_totp_session else has_password_session)
    password_required (password_required && required && has_password_session) (is_set (totp_secret settings)).

(** The guard and the database, which every call asks for first. *)
Definition auth_access (e : AuthEnv) : option DashboardAuthResponse :=
  let g := check_linearizable_read_access $"dashboard_settings" (auth_guard e) in
  if negb (guard_allow g) then Some (auth_failure (guard_status g) (guard_code g) (guard_message g))
  else if negb (auth_opened e) then Some db_unavailable else None.

Definition read_settings (e : AuthEnv) (turn : nat) (w : AuthWorld) : option DashboardSettingsRecord * AuthWorld :=
  let '(settings, db) := get_dashboard_settings (auth_runs e turn) (auth_db w) in (settings, with_auth_db db w).

(** [get_dashboard_auth_session] with a database: the answer of every call
    that ends well. *)
Definition session_answer (e : AuthEnv) (turn reading : nat) (session_id : bytes) (w : AuthWorld) :
    DashboardAuthResponse * AuthWorld :=
  match read_settings e turn w with
  | (None, w) => (settings_unavailable, w)
  | (Some settings, w) =>
      (mkAuthResponse 200 [] [] (build_session_payload settings (get session_id (now_ms e reading) (session_manager w))) [], w)
  end.

Definition get_dashboard_auth_session (e : AuthEnv) (session_id : bytes) (w : AuthWorld) : DashboardAuthResponse * AuthWorld :=
  match auth_access e with Some response => (response, w) | None => session_answer e 0 0 session_id w end.

(** A new session, and the answer that names it. *)
Definition open_session (e : AuthEnv) (totp : bool) (turn reading : nat) (w : AuthWorld) : DashboardAuthResponse * AuthWorld :=
  let '(session_id, m) := create (new_session_id e) true totp (now_ms e reading) (session_manager w) in
  let '(response, w) := session_answer e turn (S reading) session_id (with_manager m w) in
  (mkAuthResponse (auth_status response) (auth_code response) (auth_message response) (auth_session response) session_id, w).

Definition setup_dashboard_password (e : AuthEnv) (password : bytes) (w : AuthWorld) : DashboardAuthResponse * AuthWorld :=
  match auth_access e with Some response => (response, w) | None =>
  match read_settings e 0 w with
  | (None, w) => (settings_unavailable, w)
  | (Some settings, w) =>
      if is_set (password_hash settings)
      then (auth_failure 409 $"password_already_configured" $"Password is already configured", w)
      else
        let trimmed := trim_ascii password in
        if size_of trimmed <? 8
        then (auth_failure 400 $"invalid_password" $"Password must be at least 8 characters", w)
        else match hash_password (salt e) trimmed with
             | None => (auth_failure 500 $"password_hash_failed" $"Failed to hash password", w)
             | Some hash =>
                 let '(stored, db) := set_dashboard_password_hash (auth_runs e 1%nat) (Some hash) (auth_db w) in
                 let w := with_auth_db db w in
                 if negb stored then (auth_failure 500 $"password_store_failed" $"Failed to persist password hash", w)
                 else open_session e false 2 0 w
             end
  end end.

Definition login_dashboard_password (e : AuthEnv) (password : bytes) (w : AuthWorld) : DashboardAuthResponse * AuthWorld :=
  match auth_access e with Some response => (response, w) | None =>
  match read_settings e 0 w with
  | (None, w) => (settings_unavailable, w)
  | (Some settings, w) =>
      match password_hash settings with
      | Some ((_ :: _) as hash) =>
          if negb (verify_password password hash)
          then (auth_failure 401 $"invalid_credentials" $"Invalid credentials", w)
          else open_session e false 1 0 w
      | _ => (auth_failure 400 $"password_not_configured" $"Password is not configured", w)
      end
  end end.

(** A live session that knows the password. *)
Definition password_session (session_id : bytes) (now : Z) (w : AuthWorld) : bool :=
  match get session_id now (session_manager w) with Some s => password_verified s | None => false end.

Definition start_totp_setup (e : AuthEnv) (session_id : bytes) (w : AuthWorld) : TotpSetupStartResponse * AuthWorld :=
  match auth_access e with Some response => (start_failure response, w) | None =>
  match read_settings e 0 w with
  | (None, w) => (start_failure settings_unavailable, w)
  | (Some settings, w) =>
      if negb (password_session session_id (now_ms e 0%nat) w) then (start_failure auth_required, w)
      else if is_set (totp_secret settings)
      then (mkStartResponse 400 $"invalid_totp_setup" $"TOTP is already configured" [] [], w)
      else
        let secret := generate_totp_secret (random_ready e) (random_bytes e) in
        if bool_decide (secret = [])
        then (mkStartResponse 500 $"totp_secret_generation_failed" $"Failed to generate TOTP secret" [] [], w)
        else (mkStartResponse 200 [] [] secret (build_totp_otpauth_uri secret $"tightrope" $"dashboard"),
              with_pending (<[session_id := secret]> (pending_totp_secret_by_session w)) w)
  end end.

Definition confirm_totp_setup (e : AuthEnv) (session_id secret code : bytes) (w : AuthWorld) :
    DashboardAuthResponse * AuthWorld :=
  match auth_access e with Some response => (response, w) | None =>
  if negb (password_session session_id (now_ms e 0%nat) w) then (auth_required, w)
  else if negb (bool_decide (pending_totp_secret_by_session w !! session_id = Some secret))
  then (auth_failure 400 $"invalid_totp_setup" $"Invalid TOTP setup payload", w)
  else match verify_totp_code secret code (now_unix_seconds e 1) 1 None with
       | None => (invalid_code $"Invalid TOTP code", w)
       | Some _ =>
           let '(stored, db) := set_dashboard_totp_secret (auth_runs e 0%nat) (Some secret) (auth_db w) in
           let w := with_auth_db db w in
           if negb stored then (auth_failure 500 $"totp_store_failed" $"Failed to persist TOTP secret", w)
           else session_answer e 1 2 session_id
                  (with_pending (delete session_id (pending_totp_secret_by_session w)) w)
       end
  end.

Definition verify_dashboard_totp (e : AuthEnv) (session_id code : bytes) (w : AuthWorld) : DashboardAuthResponse * AuthWorld :=
  match auth_access e with Some response => (response, w) | None =>
  match read_settings e 0 w with
  | (None, w) => (settings_unavailable, w)
  | (Some settings, w) =>
      if negb (password_session session_id (now_ms e 0%nat) w) then (auth_required, w)
      else match totp_secret settings with
      | Some ((_ :: _) as secret) =>
          match verify_totp_code secret code (now_unix_seconds e 1) 1 (totp_last_verified_step settings) with
          | None => (invalid_code $"Invalid TOTP code", w)
          | Some matched_step =>
              let '(advanced, db) := advance_dashboard_totp_last_verified_step (auth_runs e 1%nat) matched_step (auth_db w) in
              let w := with_auth_db db w in
              if negb advanced then (invalid_code $"Invalid TOTP code", w) else open_session e true 2 2 w
          end
      | _ => (invalid_code $"TOTP is not configured", w)
      end
  end end.

Definition logout_dashboard (session_id : bytes) (w : AuthWorld) : AuthWorld :=
  if bool_decide (session_id = []) then w
  else mkAuth (auth_db w) (erase session_id (session_manager w)) (delete session_id (pending_totp_secret_by_session w)).

End controller.

(** ** Runs *)

Section runs.
Context {hmac : HmacSha1} {pwhash : PwHash} (strtod : bytes -> double * nat).

Inductive auth_op :=
| GetSession (session_id : bytes)
| SetupPassword (password : bytes)
| Login (password : bytes)
| StartTotp (session_id : bytes)
| ConfirmTotp (session_id secret code : bytes)
| VerifyTotp (session_id code : bytes)
| Logout (session_id : bytes)
| ChangeSettings (now : Z) (update : Update.DashboardSettingsUpdate).

(** The session a call opens, if any, and the state after it. *)
Definition auth_step (e : AuthEnv) (o : auth_op) (w : AuthWorld) : bytes * AuthWorld :=
  match o with
  | GetSession id => let '(_, w) := get_dashboard_auth_session e id w in ([], w)
  | SetupPassword password => let '(r, w) := setup_dashboard_password e password w in (auth_session_id r, w)
  | Login password => let '(r, w) := login_dashboard_password e password w in (auth_session_id r, w)
  | StartTotp id => let '(_, w) := start_totp_setup e id w in ([], w)
  | ConfirmTotp id secret code => let '(_, w) := confirm_totp_setup e id secret code w in ([], w)
  | VerifyTotp id code => let '(r, w) := verify_dashboard_totp e id code w in (auth_session_id r, w)
  | Logout id => ([], logout_dashboard id w)
  | ChangeSettings now u =>
      let '(_, db) := update_settings strtod (auth_runs e) (auth_opened e) (auth_guard e) now u (auth_db w) in
      ([], with_auth_db db w)
  end.

Definition auth_run (w : AuthWorld) (run : list (AuthEnv * auth_op)) : AuthWorld :=
  foldl (fun w eo => (auth_step eo.1 eo.2 w).2) w run.

Definition settings_of (w : AuthWorld) : DashboardSettingsRecord := row_of (auth_db w).

(** *** What the steps do *)

Lemma read_spec e turn w :
  let '(settings, w') := read_settings e turn w in
  settings_of w' = settings_of w /\ session_manager w' = session_manager w /\
  pending_totp_secret_by_session w' = pending_totp_secret_by_session w /\
  (forall r, settings = Some r -> r = settings_of w).
Proof.
  unfold read_settings, settings_of. pose proof (get_keeps (auth_runs e turn) (auth_db w)) as H.
  destruct (get_dashboard_settings _ _) as [settings db]. destruct H as (H1 & _ & H3). split_and!; try done.
  intros r Hr. by destruct (H3 r Hr).
Qed.

Lemma answer_spec e turn reading id w :
  let '(response, w') := session_answer e turn reading id w in
  settings_of w' = settings_of w /\ session_manager w' = session_manager w /\
  pending_totp_secret_by_session w' = pending_totp_secret_by_session w.
Proof.
  unfold session_answer. pose proof (read_spec e turn w) as H. by destruct (read_settings e turn w) as [[] w']; destruct H as (? & ? & ? & _).
Qed.

Lemma open_spec e totp turn reading w :
  let '(response, w') := open_session e totp turn reading w in
  auth_session_id response = new_session_id e /\ settings_of w' = settings_of w /\
  session_manager w' = (create (new_session_id e) true totp (now_ms e reading) (session_manager w)).2 /\
  pending_totp_secret_by_session w' = pending_totp_secret_by_session w.
Proof.
  unfold open_session. cbn [create].
  lazymatch goal with |- context [session_answer ?e ?t ?r ?i ?w] => pose proof (answer_spec e t r i w) as H; destruct (session_answer e t r i w) as [response w'] end.
  by destruct H as (H1 & H2 & H3).
Qed.

Lemma password_spec runs hash db :
  let '(ok, db') := set_dashboard_password_hash runs hash db in
  (ok = false -> row_of db' = row_of db) /\
  (ok = true -> row_of db' = set_credentials (totp_required_on_login (row_of db)) hash (totp_secret (row_of db))
                                (totp_last_verified_step (row_of db)) (row_of db)).
Proof.
  unfold set_dashboard_password_hash. pose proof (schema_keeps runs db) as H.
  destruct (ensure_dashboard_settings_schema runs db) as [ok db']. destruct H as (H1 & _ & H3).
  destruct (negb ok || negb (runs WritePassword)) eqn:E; [by split|]. split; [done|]. intros _.
  apply orb_false_iff in E as [E _]. apply negb_false_iff in E. unfold row_of, change_row. cbn. by rewrite H3.
Qed.

Lemma secret_spec runs secret db :
  let '(ok, db') := set_dashboard_totp_secret runs secret db in
  (ok = false -> row_of db' = row_of db) /\
  (ok = true -> row_of db' = set_credentials (match secret with None => false | Some _ => totp_required_on_login (row_of db) end)
                                (password_hash (row_of db)) secret None (row_of db)).
Proof.
  unfold set_dashboard_totp_secret. pose proof (schema_keeps runs db) as H.
  destruct (ensure_dashboard_settings_schema runs db) as [ok db']. destruct H as (H1 & _ & H3).
  destruct (negb ok || negb (runs WriteTotpSecret)) eqn:E; [by split|]. split; [done|]. intros _.
  apply orb_false_iff in E as [E _]. apply negb_false_iff in E. unfold row_of, change_row. cbn. by rewrite H3.
Qed.

Lemma advance_spec runs step db :
  let '(ok, db') := advance_dashboard_totp_last_verified_step runs step db in
  (ok = false -> row_of db' = row_of db) /\
  (ok = true -> before_step step (row_of db) = true /\
     row_of db' = set_credentials (totp_required_on_login (row_of db)) (password_hash (row_of db)) (totp_secret (row_of db))
                    (Some step) (row_of db)).
Proof.
  unfold advance_dashboard_totp_last_verified_step. pose proof (schema_keeps runs db) as H.
  destruct (ensure_dashboard_settings_schema runs db) as [ok db']. destruct H as (H1 & _ & H3).
  destruct (negb ok || negb (runs AdvanceStep)) eqn:E; [by split|].
  apply orb_false_iff in E as [E _]. apply negb_false_iff in E. rewrite H3 by done.
  by destruct (before_step step (row_of db)).
Qed.
(** *** The trace of a step *)

(** Whether a call that opens a session has checked a one-time code. *)
Definition with_code (o : auth_op) : bool := match o with VerifyTotp _ _ => true | _ => false end.

Definition opened_at (e : AuthEnv) (o : auth_op) : Z := now_ms e (if with_code o then 2%nat else 0%nat).

(** What the calls do to the sessions. *)
Definition session_events (e : AuthEnv) (o : auth_op) (sid : bytes) : list Sessions.Dashboard.op :=
  match o with
  | Logout id => [EraseOp id]
  | _ => if bool_decide (sid = []) then [] else [Create sid true (with_code o) (opened_at e o)]
  end.

(** The step of the window whose code the call presents. *)
Definition matched_step (e : AuthEnv) (code : bytes) (w : AuthWorld) : option Z :=
  match totp_secret (settings_of w) with
  | Some secret => verify_totp_code secret code (now_unix_seconds e 1) 1 (totp_last_verified_step (settings_of w))
  | None => None
  end.

(** What entitles a call to a session: setting the first password, the
    password, or a password session and a code that was not used. *)
Definition earns (w : AuthWorld) (e : AuthEnv) (o : auth_op) : Prop :=
  match o with
  | SetupPassword password => is_set (password_hash (settings_of w)) = false
  | Login password =>
      exists hash, password_hash (settings_of w) = Some hash /\ verify_password password hash = true
  | VerifyTotp session_id code =>
      password_session session_id (now_ms e 0%nat) w = true /\ is_set (totp_secret (settings_of w)) = true /\
      is_Some (matched_step e code w)
  | _ => False
  end.

(** How a step may change the settings. *)
Inductive changes (e : AuthEnv) (w : AuthWorld) : auth_op -> bytes -> AuthWorld -> Prop :=
| Unchanged o sid w' :
    settings_of w' = settings_of w -> (with_code o = true -> sid = []) -> changes e w o sid w'
| PasswordSet password sid w' hash :
    settings_of w' = set_credentials (totp_required_on_login (settings_of w)) hash (totp_secret (settings_of w))
                       (totp_last_verified_step (settings_of w)) (settings_of w) ->
    changes e w (SetupPassword password) sid w'
| SecretSet id secret code sid w' :
    is_set (Some secret) = true ->
    settings_of w' = set_credentials (totp_required_on_login (settings_of w)) (password_hash (settings_of w)) (Some secret)
                       None (settings_of w) ->
    is_Some (pending_totp_secret_by_session w !! id) -> pending_totp_secret_by_session w' !! id = None ->
    changes e w (ConfirmTotp id secret code) sid w'
| StepUsed id code w' step :
    matched_step e code w = Some step ->
    settings_of w' = set_credentials (totp_required_on_login (settings_of w)) (password_hash (settings_of w))
                       (totp_secret (settings_of w)) (Some step) (settings_of w) ->
    changes e w (VerifyTotp id code) (new_session_id e) w'
| SettingsChanged now u sid w' :
    (valid strtod (settings_of w) -> valid strtod (settings_of w')) ->
    totp_last_verified_step (settings_of w') = totp_last_verified_step (settings_of w) ->
    changes e w (ChangeSettings now u) sid w'.

Record step_trace (e : AuthEnv) (o : auth_op) (w : AuthWorld) (sid : bytes) (w' : AuthWorld) : Prop := {
  trace_sessions : session_manager w' = run_ops (session_manager w) (session_events e o sid);
  trace_earned : sid <> [] -> sid = new_session_id e /\ earns w e o;
  trace_settings : changes e w o sid w';
}.

Lemma trace_quiet e o w w' :
  settings_of w' = settings_of w -> session_manager w' = session_manager w ->
  (forall id, o <> Logout id) -> step_trace e o w [] w'.
Proof.
  intros H1 H2 Hl. split; [|done|by constructor]. rewrite H2. unfold session_events. rewrite bool_decide_true by done.
  destruct o; try done. by destruct (Hl session_id).
Qed.

Lemma access_session e response : auth_access e = Some response -> auth_session_id response = [].
Proof. unfold auth_access. repeat case_match; by intros [= <-]. Qed.

Lemma setup_trace e password w :
  new_session_id e <> [] ->
  let '(r, w') := setup_dashboard_password e password w in step_trace e (SetupPassword password) w (auth_session_id r) w'.
Proof.
  intros Hid. unfold setup_dashboard_password. destruct (auth_access e) as [response|] eqn:Ea.
  { rewrite (access_session _ _ Ea). by apply trace_quiet. }
  pose proof (read_spec e 0 w) as H. destruct (read_settings e 0 w) as [[settings|] w1]; destruct H as (H1 & H2 & H3 & H4).
  2:{ by apply trace_quiet. }
  rewrite (H4 settings eq_refl). destruct (is_set (password_hash (settings_of w))) eqn:Ep; [by apply trace_quiet|].
  destruct (_ <? 8); [by apply trace_quiet|]. destruct (hash_password _ _) as [hash|]; [|by apply trace_quiet].
  pose proof (password_spec (auth_runs e 1%nat) (Some hash) (auth_db w1)) as Hp.
  destruct (set_dashboard_password_hash _ _ _) as [[] db]; destruct Hp as [Hf Ht]; cbn [negb].
  2:{ apply trace_quiet; [|done|done]. rewrite <- H1. by apply Hf. }
  pose proof (open_spec e false 2 0 (with_auth_db db w1)) as Ho.
  destruct (open_session _ _ _ _ _) as [r w']. destruct Ho as (O1 & O2 & O3 & O4). rewrite O1. split.
  - rewrite O3. unfold session_events. rewrite bool_decide_false by done. cbn [with_auth_db session_manager]. by rewrite H2.
  - intros _. by split.
  - eapply PasswordSet. rewrite O2. unfold settings_of. cbn [with_auth_db auth_db]. rewrite (Ht eq_refl).
    fold (settings_of w1). by rewrite H1.
Qed.

Lemma login_trace e password w :
  new_session_id e <> [] ->
  let '(r, w') := login_dashboard_password e password w in step_trace e (Login password) w (auth_session_id r) w'.
Proof.
  intros Hid. unfold login_dashboard_password. destruct (auth_access e) as [response|] eqn:Ea.
  { rewrite (access_session _ _ Ea). by apply trace_quiet. }
  pose proof (read_spec e 0 w) as H. destruct (read_settings e 0 w) as [[settings|] w1]; destruct H as (H1 & H2 & H3 & H4).
  2:{ by apply trace_quiet. }
  rewrite (H4 settings eq_refl). destruct (password_hash (settings_of w)) as [[|c hash]|] eqn:Ep; [by apply trace_quiet| |by apply trace_quiet].
  destruct (verify_password password (c :: hash)) eqn:Ev; [|by apply trace_quiet]. cbn [negb].
  pose proof (open_spec e false 1 0 w1) as Ho.
  destruct (open_session _ _ _ _ _) as [r w']. destruct Ho as (O1 & O2 & O3 & O4). rewrite O1. split.
  - rewrite O3. unfold session_events. rewrite bool_decide_false by done. by rewrite H2.
  - intros _. split; [done|]. by exists (c :: hash).
  - apply Unchanged; [congruence|done].
Qed.

Lemma confirm_trace e id secret code w :
  let '(r, w') := confirm_totp_setup e id secret code w in step_trace e (ConfirmTotp id secret code) w [] w'.
Proof.
  unfold confirm_totp_setup. destruct (auth_access e) as [response|]; [by apply trace_quiet|].
  destruct (negb (password_session _ _ _)); [by apply trace_quiet|]. case_bool_decide as Ep; [|by apply trace_quiet]. cbn [negb].
  destruct (verify_totp_code _ _ _ _ _) as [step|] eqn:Ev; [|by apply trace_quiet].
  pose proof (secret_spec (auth_runs e 0%nat) (Some secret) (auth_db w)) as Hs.
  destruct (set_dashboard_totp_secret _ _ _) as [[] db]; destruct Hs as [Hf Ht]; cbn [negb].
  2:{ apply trace_quiet; [|done|done]. by apply Hf. }
  lazymatch goal with |- context [session_answer ?e ?t ?r ?i ?w] => pose proof (answer_spec e t r i w) as H; destruct (session_answer e t r i w) as [r' w'] end.
  destruct H as (H1 & H2 & H3). split.
  - rewrite H2. unfold session_events. by rewrite bool_decide_true.
  - done.
  - apply SecretSet.
    + destruct secret; [|done]. revert Ev. unfold verify_totp_code. by destruct (_ || _).
    + rewrite H1. unfold settings_of. cbn. by rewrite Ht.
    + by rewrite Ep.
    + rewrite H3. apply lookup_delete_eq.
Qed.

Lemma verify_trace e id code w :
  new_session_id e <> [] ->
  let '(r, w') := verify_dashboard_totp e id code w in step_trace e (VerifyTotp id code) w (auth_session_id r) w'.
Proof.
  intros Hid. unfold verify_dashboard_totp. destruct (auth_access e) as [response|] eqn:Ea.
  { rewrite (access_session _ _ Ea). by apply trace_quiet. }
  pose proof (read_spec e 0 w) as H. destruct (read_settings e 0 w) as [[settings|] w1]; destruct H as (H1 & H2 & H3 & H4).
  2:{ by apply trace_quiet. }
  rewrite (H4 settings eq_refl). assert (password_session id (now_ms e 0%nat) w1 = password_session id (now_ms e 0%nat) w) as ->
    by (unfold password_session; by rewrite H2).
  destruct (password_session id (now_ms e 0%nat) w) eqn:Eps; [|by apply trace_quiet]. cbn [negb].
  destruct (totp_secret (settings_of w)) as [[|c secret]|] eqn:Es; [by apply trace_quiet| |by apply trace_quiet].
  destruct (verify_totp_code _ _ _ _ _) as [step|] eqn:Ev; [|by apply trace_quiet].
  assert (matched_step e code w = Some step) as Em by (unfold matched_step; by rewrite Es).
  pose proof (advance_spec (auth_runs e 1%nat) step (auth_db w1)) as Hs.
  destruct (advance_dashboard_totp_last_verified_step _ _ _) as [[] db]; destruct Hs as [Hf Ht]; cbn [negb].
  2:{ apply trace_quiet; [|done|done]. rewrite <- H1. by apply Hf. }
  pose proof (open_spec e true 2 2 (with_auth_db db w1)) as Ho.
  destruct (open_session _ _ _ _ _) as [r w']. destruct Ho as (O1 & O2 & O3 & O4). rewrite O1. split.
  - rewrite O3. unfold session_events. rewrite bool_decide_false by done. cbn [with_auth_db session_manager]. by rewrite H2.
  - intros _. split; [done|]. cbn [earns]. rewrite Es, Em. by split_and!.
  - eapply StepUsed; [exact Em|]. rewrite O2. unfold settings_of. cbn [with_auth_db auth_db]. destruct (Ht eq_refl) as [_ ->].
    fold (settings_of w1). by rewrite H1.
Qed.

Lemma change_trace e now u w :
  let '(r, db) := update_settings strtod (auth_runs e) (auth_opened e) (auth_guard e) now u (auth_db w) in
  step_trace e (ChangeSettings now u) w [] (with_auth_db db w).
Proof.
  pose proof (settings_update_kept strtod (auth_runs e) (auth_opened e) (auth_guard e) now u (auth_db w)) as H.
  destruct (update_settings _ _ _ _ _ _ _) as [r db]. destruct H as [H1 H2]. split; [done|done|].
  by apply SettingsChanged.
Qed.

Lemma step_traced e o w :
  new_session_id e <> [] -> let '(sid, w') := auth_step e o w in step_trace e o w sid w'.
Proof.
  intros Hid. destruct o as [id|password|password|id|id secret code|id code|id|now u]; cbn [auth_step].
  - unfold get_dashboard_auth_session. destruct (auth_access e); [by apply trace_quiet|].
    pose proof (answer_spec e 0 0 id w) as H. destruct (session_answer _ _ _ _ _). destruct H as (? & ? & _). by apply trace_quiet.
  - pose proof (setup_trace e password w Hid) as H. by destruct (setup_dashboard_password _ _ _).
  - pose proof (login_trace e password w Hid) as H. by destruct (login_dashboard_password _ _ _).
  - unfold start_totp_setup. destruct (auth_access e); [by apply trace_quiet|]. pose proof (read_spec e 0 w) as H.
    destruct (read_settings e 0 w) as [[settings|] w1]; destruct H as (? & ? & _); [|by apply trace_quiet].
    destruct (negb (password_session _ _ _)); [by apply trace_quiet|]. destruct (is_set _); [by apply trace_quiet|]. cbv zeta.
    destruct (bool_decide (generate_totp_secret _ _ = [])); by apply trace_quiet.
  - pose proof (confirm_trace e id secret code w) as H. by destruct (confirm_totp_setup _ _ _ _ _).
  - pose proof (verify_trace e id code w Hid) as H. by destruct (verify_dashboard_totp _ _ _ _).
  - split; [|done|]; unfold logout_dashboard, session_events.
    + cbn. unfold erase. by case_bool_decide.
    + apply Unchanged; [by case_bool_decide|done].
  - pose proof (change_trace e now u w) as H. by destruct (update_settings _ _ _ _ _ _ _).
Qed.

(** ** Settings stay valid *)

Lemma set_credentials_valid required hash secret step r :
  valid strtod r -> (required = true -> is_set secret = true) -> valid strtod (set_credentials required hash secret step r).
Proof. intros [] H. by split. Qed.

Lemma changes_valid e w o sid w' : changes e w o sid w' -> valid strtod (settings_of w) -> valid strtod (settings_of w').
Proof.
  intros H Hv. destruct H as [o sid w' E Hno|password sid w' hash E|id secret code sid w' Hs E _ _|id code w' step _ E|now u sid w' H _]; [by rewrite E|rewrite E..|by apply H].
  - apply set_credentials_valid; [done|]. apply (valid_totp _ _ Hv).
  - by apply set_credentials_valid.
  - apply set_credentials_valid; [done|]. apply (valid_totp _ _ Hv).
Qed.

Definition drawn (run : list (AuthEnv * auth_op)) : Prop := Forall (fun eo => new_session_id eo.1 <> []) run.

(** Settings are valid at any time: whatever is called in whatever order,
    updates, passwords, one-time codes, and whatever statement fails, what is
    stored passes every check of an update, and a code is required at sign-in
    only while there is a secret to check it with. (C17) *)
Theorem settings_always_valid run :
  drawn run -> valid strtod (settings_of (auth_run (initial_auth empty_db) run)).
Proof.
  enough (forall w, drawn run -> valid strtod (settings_of w) -> valid strtod (settings_of (auth_run w run))) as H.
  { intros Hd. apply H; [done|apply default_valid]. }
  unfold auth_run. induction run as [|[e o] run IH]; intros w Hd Hv; [done|]. apply Forall_cons in Hd as [He Hd].
  cbn [foldl fst snd]. apply IH; [done|]. pose proof (step_traced e o w He) as Ht.
  destruct (auth_step e o w) as [sid w']. eapply changes_valid; [apply Ht|done].
Qed.

(** ** Codes are used once *)

(** The steps of the codes that were accepted since the secret was last set. *)
Fixpoint accepted_steps (w : AuthWorld) (run : list (AuthEnv * auth_op)) (accepted : list Z) : list Z :=
  match run with
  | [] => accepted
  | (e, o) :: run =>
      let '(sid, w') := auth_step e o w in
      accepted_steps w' run
        (match o with
         | VerifyTotp _ code =>
             if bool_decide (sid = []) then accepted
             else accepted ++ match matched_step e code w with Some step => [step] | None => [] end
         | ConfirmTotp id _ _ =>
             if bool_decide (is_Some (pending_totp_secret_by_session w !! id) /\ pending_totp_secret_by_session w' !! id = None)
             then [] else accepted
         | _ => accepted
         end)
  end.

Definition recorded (accepted : list Z) (last : option Z) : Prop :=
  StronglySorted Z.lt accepted /\ forall s, s ∈ accepted -> exists l, last = Some l /\ s <= l.

Lemma matched_fresh e code w step :
  matched_step e code w = Some step -> fresh (totp_last_verified_step (settings_of w)) step.
Proof.
  unfold matched_step, verify_totp_code. destruct (totp_secret (settings_of w)) as [secret|]; [|done].
  destruct (_ || _); [done|]. destruct (base32_decode secret) as [[|b decoded]|]; [done| |done]. intros E.
  pose proof (first_match_spec (b :: decoded) code (totp_last_verified_step (settings_of w)) _
    (window_steps_sorted (now_unix_seconds e 1) 1)) as H. rewrite E in H. apply H.
Qed.

Lemma recorded_snoc accepted last step :
  recorded accepted last -> fresh last step -> recorded (accepted ++ [step]) (Some step).
Proof.
  intros [Hs Hl] Hf. split.
  - apply StronglySorted_app_2; [|done|by repeat constructor]. intros s s' Hin ->%list_elem_of_singleton.
    destruct (Hl s Hin) as (l & -> & Hle). cbn in Hf. lia.
  - intros s [Hin| ->%list_elem_of_singleton]%elem_of_app; exists step; (split; [done|]); [|lia].
    destruct (Hl s Hin) as (l & -> & Hle). cbn in Hf. lia.
Qed.

Lemma accepted_recorded run : forall w accepted,
  drawn run -> recorded accepted (totp_last_verified_step (settings_of w)) ->
  recorded (accepted_steps w run accepted) (totp_last_verified_step (settings_of (auth_run w run))).
Proof.
  induction run as [|[e o] run IH]; intros w accepted Hd Hr; [done|]. apply Forall_cons in Hd as [He Hd].
  cbn [accepted_steps auth_run foldl fst snd]. pose proof (step_traced e o w He) as Ht.
  destruct (auth_step e o w) as [sid w']. cbn [snd]. apply IH; [done|]. destruct Ht as [_ Hearn Hc].
  destruct Hc as [o sid w' E Hno|password sid w' hash E|id secret code sid w' Hs E Hp Hp'|id code w' step Em E|now u sid w' _ E].
  - destruct o; try (by rewrite E).
    + case_bool_decide; [|by rewrite E]. split; [constructor|by intros s ?%elem_of_nil].
    + rewrite (Hno eq_refl), bool_decide_true by done. by rewrite E.
  - by rewrite E.
  - rewrite bool_decide_true by done. split; [constructor|by intros s ?%elem_of_nil].
  - rewrite bool_decide_false, Em, E by done. eapply recorded_snoc; [exact Hr|by eapply matched_fresh].
  - by rewrite E.
Qed.

(** A one-time code opens one session: in any run, the steps whose codes were
    accepted since the secret was set strictly increase, so that no code, and
    none older than it, is accepted again. (C13) *)
Theorem totp_code_used_once db run :
  drawn run -> StronglySorted Z.lt (accepted_steps (initial_auth db) run []).
Proof.
  intros Hd. apply (accepted_recorded run (initial_auth db) []); [done|]. split; [constructor|by intros s ?%elem_of_nil].
Qed.

(** ** Access is earned *)

Fixpoint run_events (w : AuthWorld) (run : list (AuthEnv * auth_op)) : list Sessions.Dashboard.op :=
  match run with
  | [] => []
  | (e, o) :: run => let '(sid, w') := auth_step e o w in session_events e o sid ++ run_events w' run
  end.

Lemma run_sessions run : forall w,
  drawn run -> session_manager (auth_run w run) = run_ops (session_manager w) (run_events w run).
Proof.
  induction run as [|[e o] run IH]; intros w Hd; [done|]. apply Forall_cons in Hd as [He Hd].
  cbn [run_events auth_run foldl fst snd]. pose proof (step_traced e o w He) as Ht. destruct (auth_step e o w) as [sid w'].
  unfold auth_run in IH. cbn [snd]. rewrite IH by done. destruct Ht as [-> _ _]. unfold run_ops. by rewrite foldl_app.
Qed.

Lemma no_purge w run now : purges_before now (run_events w run).
Proof.
  revert w. induction run as [|[e o] run IH]; intros w; cbn [run_events]; [constructor|].
  destruct (auth_step e o w) as [sid w']. apply Forall_app. split; [|apply IH]. unfold session_events.
  destruct o; try (case_bool_decide; by repeat constructor). by repeat constructor.
Qed.

Lemma last_created_app id a b acc : last_created id (a ++ b) acc = last_created id b (last_created id a acc).
Proof. revert acc. induction a as [|[] a IH]; intros acc; cbn [app last_created]; [done|apply IH..]. Qed.

(** The session was opened by a call of the run that earned it, and nobody
    has signed it out since. *)
Record opened_by (w : AuthWorld) (run : list (AuthEnv * auth_op)) (id : bytes) (code : bool) (at_ms : Z) : Prop := {
  opening : exists before e o after, run = before ++ (e, o) :: after /\ earns (auth_run w before) e o /\
    new_session_id e = id /\ with_code o = code /\ opened_at e o = at_ms /\ Forall (fun eo => eo.2 <> Logout id) after
}.

Lemma last_created_opened run id p code at_ms : forall w acc,
  drawn run -> last_created id (run_events w run) acc = Some (p, code, at_ms) ->
  acc = Some (p, code, at_ms) /\ Forall (fun eo => eo.2 <> Logout id) run \/ p = true /\ opened_by w run id code at_ms.
Proof.
  induction run as [|[e o] run IH]; intros w acc Hd Hl; [left; by split|]. apply Forall_cons in Hd as [He Hd].
  cbn [run_events] in Hl. pose proof (step_traced e o w He) as Ht.
  assert (auth_run w ((e, o) :: run) = auth_run (auth_step e o w).2 run) as Er by done.
  destruct (auth_step e o w) as [sid w'] eqn:Es. rewrite last_created_app in Hl.
  destruct (IH w' _ Hd Hl) as [[Hacc Hf]|[Hp [(before & e1 & o1 & after & -> & He1 & Hr)]]].
  2:{ right. split; [done|]. split. exists ((e, o) :: before), e1, o1, after. split; [done|]. split; [|done].
      cbn [auth_run foldl fst snd]. by rewrite Es. }
  destruct Ht as [_ Hearn _]. revert Hacc. unfold session_events.
  assert (forall acc, o <> Logout id ->
    last_created id (if bool_decide (sid = []) then [] else [Create sid true (with_code o) (opened_at e o)]) acc = Some (p, code, at_ms) ->
    acc = Some (p, code, at_ms) /\ Forall (fun eo => eo.2 <> Logout id) ((e, o) :: run) \/
    p = true /\ opened_by w ((e, o) :: run) id code at_ms) as Hc.
  { intros acc' Hno. case_bool_decide as Ei; cbn [last_created].
    - intros ->. left. split; [done|]. by constructor.
    - case_decide as Eid; [|intros ->; left; split; [done|by constructor]]. intros [= <- <- <-]. right. split; [done|].
      destruct (Hearn Ei) as [-> Hw]. split. exists [], e, o, run. by split_and!. }
  destruct o as [| | | | | |id'|]; try (by apply Hc). cbn [last_created]. case_decide as Eid; [done|].
  intros ->. left. split; [done|]. constructor; [|done]. cbn. congruence.
Qed.

(** Access is earned: while a password is set, the dashboard calls a session
    authenticated only if a call of the run opened it under that very
    identifier less than twelve hours ago, nobody has signed it out since, and
    the call had earned it, by setting the first password or by the password;
    where a code is required at sign-in, by an unused code presented in a
    session that had given the password. (C5) *)
Theorem dashboard_access_earned db run e id :
  drawn run -> id <> [] ->
  let w := auth_run (initial_auth db) run in
  let response := (get_dashboard_auth_session e id w).1 in
  auth_status response = 200 -> authenticated (auth_session response) = true ->
  is_set (password_hash (settings_of w)) = true ->
  exists code at_ms, opened_by (initial_auth db) run id code at_ms /\ now_ms e 0%nat < at_ms + kSessionTtlMs /\
    (SettingsRepo.totp_required_on_login (settings_of w) = true -> code = true).
Proof.
  intros Hd Hid w response. unfold response, get_dashboard_auth_session. destruct (auth_access e) as [r|] eqn:Ea.
  { revert Ea. unfold auth_access, check_linearizable_read_access. repeat case_match; by intros [= <-]. }
  unfold session_answer. pose proof (read_spec e 0 w) as Hr.
  destruct (read_settings e 0 w) as [[settings|] w1]; destruct Hr as (_ & Hm & _ & Hs); [|done].
  rewrite (Hs settings eq_refl), Hm. cbn [fst auth_status auth_session]. intros _.
  unfold build_session_payload. cbn [authenticated]. intros Ha Hset. rewrite Hset in Ha. cbn [negb] in Ha.
  unfold w in Ha. rewrite run_sessions in Ha by done. cbn [initial_auth session_manager] in Ha. fold w in Ha.
  rewrite dashboard_session_valid in Ha by (done || apply no_purge). unfold get_spec in Ha.
  destruct (last_created id _ None) as [[[p code] at_ms]|] eqn:El; [|by destruct (SettingsRepo.totp_required_on_login _)].
  destruct (last_created_opened _ _ _ _ _ _ _ Hd El) as [[? _]|[-> Ho]]; [done|].
  change (Z.max 1 kSessionTtlMs) with kSessionTtlMs in Ha. exists code, at_ms.
  destruct (Z.ltb_spec (now_ms e 0%nat) (at_ms + kSessionTtlMs)); [|by destruct (SettingsRepo.totp_required_on_login _)].
  split_and!; [done|done|]. intros Hreq. by rewrite Hreq in Ha.
Qed.

End runs.

(** ** Runs on concrete inputs *)

(** A digest whose code is the number of the step, and a hash that names its
    password. *)
Definition clock_hmac : HmacSha1 := {| hmac_sha1 key message := Some (take 20 (drop 3 message ++ replicate 20 Byte.x01)) |}.

Definition sample_pwhash : PwHash := {|
  pwhash_ready := true;
  crypto_pwhash_str := fun _ password => Some ($"$argon2id$" ++ password);
  crypto_pwhash_str_verify := fun hash password => bool_decide (hash = $"$argon2id$" ++ password);
|}.

Definition sample_env (now : Z) (id : bytes) : AuthEnv :=
  mkAuthEnv (fun _ _ => true) true no_override (fun _ => now) id [] true (replicate 20 Byte.x61).

Definition sample_secret : bytes := generate_totp_secret true (replicate 20 Byte.x61).
Definition sample_code (now : Z) : bytes := default [] (@generate_totp_code clock_hmac sample_secret (now / 1000)).

(** Setting a password, then a secret, which is confirmed with a code; and
    signing in with the password and the next code, sent twice. *)
Definition sample_setup : list (AuthEnv * auth_op) :=
  [(sample_env 0 $"s1", SetupPassword $"open sesame"); (sample_env 1000 $"s2", StartTotp $"s1");
   (sample_env 2000 $"s3", ConfirmTotp $"s1" sample_secret (sample_code 2000))].

Definition sample_signin : list (AuthEnv * auth_op) :=
  [(sample_env 60000 $"s4", Login $"open sesame"); (sample_env 61000 $"s5", VerifyTotp $"s4" (sample_code 61000));
   (sample_env 62000 $"s6", VerifyTotp $"s4" (sample_code 61000))].

Definition sample_auth (run : list (AuthEnv * auth_op)) : AuthWorld :=
  @auth_run clock_hmac sample_pwhash sample_strtod (initial_auth empty_db) run.

Lemma sample_drawn : drawn (sample_setup ++ sample_signin).
Proof. repeat constructor; done. Qed.

Lemma settings_always_valid_witness :
  drawn (sample_setup ++ sample_signin) /\ valid sample_strtod (settings_of (sample_auth (sample_setup ++ sample_signin))).
Proof. split; [apply sample_drawn|apply (@settings_always_valid clock_hmac sample_pwhash), sample_drawn]. Defined.

Lemma totp_code_used_once_witness :
  drawn (sample_setup ++ sample_signin) /\
  StronglySorted Z.lt (@accepted_steps clock_hmac sample_pwhash sample_strtod (initial_auth empty_db) (sample_setup ++ sample_signin) []) /\
  @accepted_steps clock_hmac sample_pwhash sample_strtod (initial_auth empty_db) (sample_setup ++ sample_signin) [] = [2].
Proof.
  split; [apply sample_drawn|]. split; [apply totp_code_used_once, sample_drawn|]. vm_compute. reflexivity.
Defined.

Lemma dashboard_access_earned_witness :
  exists code at_ms,
    @opened_by clock_hmac sample_pwhash sample_strtod (initial_auth empty_db) (sample_setup ++ sample_signin) $"s5" code at_ms /\
    70000 < at_ms + kSessionTtlMs.
Proof.
  destruct (@dashboard_access_earned clock_hmac sample_pwhash sample_strtod empty_db (sample_setup ++ sample_signin)
    (sample_env 70000 $"s7") $"s5" sample_drawn) as (code & at_ms & H1 & H2 & _);
    [discriminate|vm_compute; reflexivity..|].
  exists code, at_ms. split; [exact H1|exact H2].
Defined.

(** ** Where sign-in surprises *)

(** A password is hashed without the spaces around it and compared with them:
    who sets one with a space at its end cannot sign in with what was typed. *)
Lemma padded_password_locks_out :
  let w := sample_auth [(sample_env 0 $"s1", SetupPassword $"open sesame ")] in
  let '(response, _) := @login_dashboard_password sample_pwhash (sample_env 1 $"s2") $"open sesame " w in
  is_set (password_hash (settings_of w)) = true /\ auth_status response = 401.
Proof. vm_compute. by split. Qed.

(** Starting a setup asks that no secret is configured, confirming one does
    not: the setup that another session left pending replaces the secret. *)
Lemma pending_setup_replaces_secret :
  let other := generate_totp_secret true (replicate 20 Byte.x62) in
  let env2 := mkAuthEnv (fun _ _ => true) true no_override (fun _ => 1500) $"x" [] true (replicate 20 Byte.x62) in
  let code := default [] (@generate_totp_code clock_hmac other 3) in
  let w := sample_auth ((sample_env 0 $"s0", SetupPassword $"open sesame") :: (sample_env 0 $"s1", Login $"open sesame") ::
             (env2, StartTotp $"s0") :: drop 1 sample_setup) in
  let '(response, w') := @confirm_totp_setup clock_hmac (sample_env 3000 $"x") $"s0" other code w in
  totp_secret (settings_of w) = Some sample_secret /\ auth_status response = 200 /\
  totp_secret (settings_of w') = Some other /\ sample_secret <> other.
Proof. vm_compute. split_and!; done. Qed.

(** Confirming a setup does not count as the use of its code: the same code
    signs in afterwards. *)
Lemma setup_code_signs_in :
  let w := sample_auth sample_setup in
  let '(response, _) := @verify_dashboard_totp clock_hmac (sample_env 3000 $"s9") $"s1" (sample_code 2000) w in
  auth_status response = 200 /\ auth_session_id response = $"s9".
Proof. vm_compute. by split. Qed.
