(* ===== verification/OAuthProvider.v ===== *)
(** * OAuthProvider: the identity provider

    src/native/auth/oauth/src/provider_client.cpp and
    include/oauth/provider_client.h: the settings of the provider, the requests
    to it and the reading of its answers.  A transfer and the escaping of curl,
    the JSON library and [std::strtod] are parameters. *)

From S2P Require Import Prelude Codec Text Double JsonValue Env Usage.
Import Text.Ascii Text.Json.

(** ** provider_client.h *)

Record OAuthError := mkOAuthError { error_code : bytes; error_message : bytes; error_status_code : Z }.

(** A result is made by [ok] or by [fail]. *)
Definition ProviderResult (T : Type) : Type := (OAuthError + T)%type.
Definition ok {T} (next_value : T) : ProviderResult T := inr next_value.
Definition fail {T} (next_error : OAuthError) : ProviderResult T := inl next_error.

Record OAuthTokens := mkTokens { access_token : bytes; refresh_token : bytes; id_token : bytes }.

Record DeviceCodePayload := mkDeviceCode {
  payload_verification_url : bytes;
  payload_user_code : bytes;
  payload_device_auth_id : bytes;
  payload_interval_seconds : Z;
  payload_expires_in_seconds : Z;
}.

Record AuthorizationCodeRequest := mkCodeRequest {
  request_code : bytes;
  request_code_verifier : bytes;
  request_redirect_uri : option bytes;
}.

Record DeviceTokenPollRequest := mkPollRequest { poll_device_auth_id : bytes; poll_user_code : bytes }.

Inductive DeviceTokenPollKind := Pending | Tokens | AuthorizationCode | PollError.

Record DeviceTokenPollResult := mkPollResult {
  kind : DeviceTokenPollKind;
  poll_tokens : option OAuthTokens;
  poll_authorization_code : option bytes;
  poll_code_verifier : option bytes;
  poll_error : option OAuthError;
}.

Definition pending_result : DeviceTokenPollResult := mkPollResult Pending None None None None.
Definition error_result (e : OAuthError) : DeviceTokenPollResult := mkPollResult PollError None None None (Some e).

Record ProviderClient := mkProviderClient {
  request_device_code : ProviderResult DeviceCodePayload;
  exchange_authorization_code : AuthorizationCodeRequest -> ProviderResult OAuthTokens;
  refresh_access_token : bytes -> ProviderResult OAuthTokens;
  exchange_device_token : DeviceTokenPollRequest -> DeviceTokenPollResult;
}.

(** ** Settings *)

Section settings.
Context (env : environment) (strtod : bytes -> double * nat).

Definition env_or_default (key fallback : bytes) : bytes := default fallback (getenv_nonempty env key).

(** [std::strtod] converts a prefix, of the length it tells. *)
Definition env_or_default_double (key : bytes) (fallback : double) : double :=
  match getenv_nonempty env key with
  | None => fallback
  | Some raw =>
      let '(parsed, consumed) := strtod raw in
      if (consumed =? 0)%nat || match parsed with S754_infinity _ | S754_nan => true | _ => false end || fle parsed f_zero
      then fallback else parsed
  end.

Definition slash : Byte.byte := Byte.x2f.

Fixpoint drop_slashes (reversed : bytes) : bytes :=
  match reversed with
  | ch :: rest => if bool_decide (ch = slash) then drop_slashes rest else reversed
  | [] => []
  end.

Definition trim_trailing_slashes (value : bytes) : bytes := reverse (drop_slashes (reverse value)).

(** The words of a scope: [current] is the word the cursor is in. *)
Fixpoint has_word (word current value : bytes) : bool :=
  match value with
  | [] => bool_decide (current = word)
  | ch :: value =>
      if isspace ch then bool_decide (current = word) || has_word word [] value
      else has_word word (current ++ [ch]) value
  end.

Definition ensure_offline_access (scope : bytes) : bytes :=
  if has_word $"offline_access" [] scope then scope
  else if bool_decide (scope = []) then $"offline_access" else scope ++ $" offline_access".

Definition oauth_auth_base_url : bytes := trim_trailing_slashes (env_or_default $"TIGHTROPE_AUTH_BASE_URL" $"https://auth.openai.com").
Definition oauth_client_id : bytes := env_or_default $"TIGHTROPE_OAUTH_CLIENT_ID" $"app_EMoamEEZ73f0CkXaXp7hrann".
Definition oauth_redirect_uri : bytes := env_or_default $"TIGHTROPE_OAUTH_REDIRECT_URI" $"http://localhost:1455/auth/callback".
Definition oauth_scope : bytes := ensure_offline_access (env_or_default $"TIGHTROPE_OAUTH_SCOPE" $"openid profile email").
Definition oauth_originator : bytes := env_or_default $"TIGHTROPE_OAUTH_ORIGINATOR" $"codex_chatgpt_desktop".
Definition oauth_timeout_seconds : double := env_or_default_double $"TIGHTROPE_OAUTH_TIMEOUT_SECONDS" (of_int 30).

End settings.

(** ** Answers *)

Section answers.
Context {codec : JsonCodec}.

Definition parse_json_object (body : bytes) : option JsonObject := read_object body.

(** The first of several places that holds a value. *)
Definition first_of (places : list (option bytes)) : option bytes :=
  foldr (fun place rest => match place with Some s => Some s | None => rest end) None places.

Definition extract_error_code (payload : option JsonObject) : option bytes :=
  match payload with
  | None => None
  | Some payload =>
      first_of ([string_at payload $"error"; string_at payload $"error_code"; string_at payload $"code"] ++
                match object_at payload $"error" with
                | Some error => [string_at error $"code"; string_at error $"error"]
                | None => []
                end)
  end.

Definition extract_error_message (payload : option JsonObject) : option bytes :=
  match payload with
  | None => None
  | Some payload =>
      first_of ([string_at payload $"message"; string_at payload $"error_description"; string_at payload $"error"] ++
                match object_at payload $"error" with
                | Some error => [string_at error $"message"; string_at error $"error_description"]
                | None => []
                end)
  end.

Definition oauth_error_from_payload (status_code : Z) (payload : option JsonObject) (fallback_prefix : bytes) : OAuthError :=
  mkOAuthError (default ($"http_" ++ to_string status_code) (extract_error_code payload))
    (default (fallback_prefix ++ $" (" ++ to_string status_code ++ $")") (extract_error_message payload))
    (sint 32 (wrap 32 status_code)).

Definition is_pending_error (payload : option JsonObject) : bool :=
  match extract_error_code payload with
  | Some code => bool_decide (code = $"authorization_pending" \/ code = $"slow_down")
  | None => false
  end ||
  match payload with
  | Some payload =>
      match string_at payload $"status" with
      | Some status =>
          let normalized := to_lower_ascii status in
          bool_decide (normalized = $"pending" \/ normalized = $"authorization_pending")
      | None => false
      end
  | None => false
  end.

(** [static_cast<int>] of a long. *)
Definition status_int (status_code : Z) : Z := sint 32 (wrap 32 status_code).

Definition invalid_response {T} (message : bytes) (status_code : Z) : ProviderResult T :=
  fail (mkOAuthError $"invalid_response" message (status_int status_code)).

(** A string field that is there and not empty. *)
Definition filled (payload : JsonObject) (key : bytes) : option bytes :=
  match string_at payload key with Some (_ :: _) as value => value | _ => None end.

Definition parse_token_response (status_code : Z) (body : bytes) : ProviderResult OAuthTokens :=
  let payload := parse_json_object body in
  if 400 <=? status_code then fail (oauth_error_from_payload status_code payload $"OAuth request failed")
  else match payload with
  | None => invalid_response $"OAuth response invalid" status_code
  | Some payload =>
      match filled payload $"access_token", filled payload $"refresh_token", filled payload $"id_token" with
      | Some access_token, Some refresh_token, Some id_token => ok (mkTokens access_token refresh_token id_token)
      | _, _, _ => invalid_response $"OAuth response missing tokens" status_code
      end
  end.

(** ** CurlProviderClient *)

(** [curl_easy_escape], and a handle to call it with. *)
Class Curl := { curl_handle : bool; curl_easy_escape : bytes -> option bytes }.

Record PostRequest := mkPost { post_url : bytes; post_body : bytes; post_content_type : bytes; post_timeout_ms : Z }.

Context {curl : Curl} (env : environment) (strtod : bytes -> double * nat) (perform : PostRequest -> Transfer).

Definition transport_init_failed {T} : ProviderResult T :=
  fail (mkOAuthError $"oauth_transport_init_failed" $"Failed to initialize OAuth HTTP client" 0).

Definition perform_post_request (url body content_type : bytes) : ProviderResult (Z * bytes) :=
  let timeout_ms := cast_sint 64 (fmul (oauth_timeout_seconds env strtod) (of_int 1000)) in
  match perform (mkPost url body content_type timeout_ms) with
  | NoHandle => transport_init_failed
  | Failed message => fail (mkOAuthError $"oauth_transport_failed" ($"OAuth HTTP request failed: " ++ message) 0)
  | Answered status_code body => ok (status_code, body)
  end.

Definition form_url_encode (value : bytes) : bytes :=
  if bool_decide (value = []) then [] else default [] (curl_easy_escape value).

Definition json_int (payload : JsonObject) (key : bytes) : option Z :=
  match payload !! key with Some (JNumber d) => Some (cast_sint 32 d) | _ => None end.

Definition curl_request_device_code : ProviderResult DeviceCodePayload :=
  let url := oauth_auth_base_url env ++ $"/api/accounts/deviceauth/usercode" in
  let body := $"{" ++ quote_json_string $"client_id" ++ $":" ++ quote_json_string (oauth_client_id env) ++ $"}" in
  match perform_post_request url body $"application/json" with
  | inl error => fail error
  | inr (status_code, body) =>
      let payload := parse_json_object body in
      if status_code =? 404
      then fail (mkOAuthError $"device_auth_unavailable"
             $"Device code login is not enabled for this server. Use browser login or verify the server URL." 404)
      else if 400 <=? status_code then fail (oauth_error_from_payload status_code payload $"Device code request failed")
      else match payload with
      | None => invalid_response $"Device auth response missing fields" status_code
      | Some payload =>
          match filled payload $"user_code", filled payload $"device_auth_id" with
          | Some user_code, Some device_auth_id =>
              let interval_seconds := default 0 (json_int payload $"interval") in
              let expires_in_seconds := default 900 (json_int payload $"expires_in") in
              ok (mkDeviceCode (oauth_auth_base_url env ++ $"/codex/device") user_code device_auth_id interval_seconds
                    (if expires_in_seconds <=? 0 then 900 else expires_in_seconds))
          | _, _ => invalid_response $"Device auth response missing fields" status_code
          end
      end
  end.

Definition token_url : bytes := oauth_auth_base_url env ++ $"/oauth/token".
Definition form_type : bytes := $"application/x-www-form-urlencoded".

Definition curl_exchange_authorization_code (request : AuthorizationCodeRequest) : ProviderResult OAuthTokens :=
  if negb curl_handle then transport_init_failed
  else
    let redirect_uri := default (oauth_redirect_uri env) (request_redirect_uri request) in
    let form_body :=
      $"grant_type=authorization_code&client_id=" ++ form_url_encode (oauth_client_id env) ++ $"&code=" ++
      form_url_encode (request_code request) ++ $"&code_verifier=" ++ form_url_encode (request_code_verifier request) ++
      $"&redirect_uri=" ++ form_url_encode redirect_uri in
    match perform_post_request token_url form_body form_type with
    | inl error => fail error
    | inr (status_code, body) => parse_token_response status_code body
    end.

Definition curl_refresh_access_token (refresh_token : bytes) : ProviderResult OAuthTokens :=
  if bool_decide (refresh_token = [])
  then fail (mkOAuthError $"invalid_refresh_token" $"Refresh token is missing" 0)
  else if negb curl_handle then transport_init_failed
  else
    let form_body :=
      $"grant_type=refresh_token&client_id=" ++ form_url_encode (oauth_client_id env) ++ $"&refresh_token=" ++
      form_url_encode refresh_token in
    match perform_post_request token_url form_body form_type with
    | inl error => fail error
    | inr (status_code, body) =>
        let payload := parse_json_object body in
        if 400 <=? status_code then fail (oauth_error_from_payload status_code payload $"OAuth refresh failed")
        else match payload with
        | None => invalid_response $"OAuth refresh response invalid" status_code
        | Some payload =>
            match filled payload $"access_token" with
            | None => invalid_response $"OAuth refresh response missing access token" status_code
            | Some access_token =>
                ok (mkTokens access_token (default refresh_token (filled payload $"refresh_token"))
                      (default [] (string_at payload $"id_token")))
            end
        end
    end.

Definition curl_exchange_device_token (request : DeviceTokenPollRequest) : DeviceTokenPollResult :=
  let url := oauth_auth_base_url env ++ $"/api/accounts/deviceauth/token" in
  let body := $"{" ++ quote_json_string $"device_auth_id" ++ $":" ++ quote_json_string (poll_device_auth_id request) ++ $"," ++ quote_json_string $"user_code" ++ $":" ++
              quote_json_string (poll_user_code request) ++ $"}" in
  match perform_post_request url body $"application/json" with
  | inl error => error_result error
  | inr (status_code, body) =>
      let payload := parse_json_object body in
      if (status_code =? 403) || (status_code =? 404) then pending_result
      else if 400 <=? status_code then
        if is_pending_error payload then pending_result
        else error_result (oauth_error_from_payload status_code payload $"Device token request failed")
      else if is_pending_error payload then pending_result
      else
        match (payload ← payload; code ← filled payload $"authorization_code"; Some (payload, code)) with
        | Some (payload, authorization_code) =>
            match filled payload $"code_verifier" with
            | None =>
                error_result (mkOAuthError $"invalid_response" $"Device auth response missing code verifier"
                                (status_int status_code))
            | Some code_verifier => mkPollResult AuthorizationCode None (Some authorization_code) (Some code_verifier) None
            end
        | None =>
            match parse_token_response status_code body with
            | inr tokens => mkPollResult Tokens (Some tokens) None None None
            | inl error => error_result error
            end
        end
  end.

Definition make_default_provider_client : ProviderClient :=
  mkProviderClient curl_request_device_code curl_exchange_authorization_code curl_refresh_access_token
    curl_exchange_device_token.

End answers.
