(* ===== verification/OAuthService.v ===== *)
(** * OAuthService: signing in to the provider

    src/native/auth/oauth/src/oauth_service.cpp and
    server/controllers/src/oauth_controller.cpp: the authorization URL, the
    reading of callbacks and identity tokens, and the service.  Its calls come
    from two event loops and its device flow polls on a thread, so that a call
    is the sequence of its critical sections and of the answers it waits for,
    and the service a machine that interleaves them. *)

From S2P Require Import Prelude Codec Text JsonValue Env Fernet TokenStore Accounts Totp OAuthProvider.
Import Text.Ascii.

(** ** Encodings *)

(** Base64 of mbedtls. *)
Class Base64 := { mbedtls_base64_encode : bytes -> option bytes; mbedtls_base64_decode : bytes -> option bytes }.

Definition url_encode (value : bytes) : bytes :=
  concat ((fun c => if is_unreserved c then [c]
                    else [Byte.x25; nth (Z.to_nat (Z.land (Z.shiftr (val c) 4) 0x0F)) kUpperHex Byte.x00;
                          nth (Z.to_nat (Z.land (val c) 0x0F)) kUpperHex Byte.x00]) <$> value).

Definition decode_hex (c : Byte.byte) : Z :=
  if (48 <=? val c) && (val c <=? 57) then val c - 48
  else if (97 <=? val c) && (val c <=? 102) then 10 + (val c - 97)
  else if (65 <=? val c) && (val c <=? 70) then 10 + (val c - 65)
  else -1.

Fixpoint percent_decode (value : bytes) : bytes :=
  match value with
  | [] => []
  | ch :: rest =>
      if bool_decide (ch = Byte.x2b) then Byte.x20 :: percent_decode rest
      else if bool_decide (ch = Byte.x25) then
        match rest with
        | h :: l :: rest' =>
            let upper := decode_hex h in
            let lower := decode_hex l in
            if (0 <=? upper) && (0 <=? lower) then byte_of (Z.lor (Z.shiftl upper 4) lower) :: percent_decode rest'
            else ch :: percent_decode rest
        | _ => ch :: percent_decode rest
        end
      else ch :: percent_decode rest
  end.

(** The text before the first [delimiter], and the one behind it when there
    is one. *)
Fixpoint split_at (delimiter : Byte.byte) (text : bytes) : bytes * option bytes :=
  match text with
  | [] => ([], None)
  | ch :: text =>
      if bool_decide (ch = delimiter) then ([], Some text)
      else let '(before, after) := split_at delimiter text in (ch :: before, after)
  end.

Definition ampersand : Byte.byte := Byte.x26.
Definition equals_sign : Byte.byte := Byte.x3d.
Definition question_mark : Byte.byte := Byte.x3f.

(** [std::map::emplace] keeps the field that came first. *)
Definition emplace (key value : bytes) (fields : gmap bytes bytes) : gmap bytes bytes :=
  match fields !! key with Some _ => fields | None => <[key := value]> fields end.

Definition query_field (token : bytes) (fields : gmap bytes bytes) : gmap bytes bytes :=
  match split_at equals_sign token with
  | (name, None) => emplace (percent_decode name) [] fields
  | (name, Some value) => emplace (percent_decode name) (percent_decode value) fields
  end.

(** The loop over the tokens; a query that ends in an ampersand has no token
    behind it.  [fuel] bounds the tokens. *)
Fixpoint query_fields (fuel : nat) (query : bytes) (fields : gmap bytes bytes) : gmap bytes bytes :=
  match fuel with
  | O => fields
  | S fuel =>
      if bool_decide (query = []) then fields
      else match split_at ampersand query with
           | (token, None) => query_field token fields
           | (token, Some rest) => query_fields fuel rest (query_field token fields)
           end
  end.

Definition parse_query (query : bytes) : gmap bytes bytes := query_fields (S (length query)) query ∅.

Definition parse_callback_url (callback_url : bytes) : gmap bytes bytes :=
  match split_at question_mark callback_url with (_, Some query) => parse_query query | (_, None) => ∅ end.

Section encodings.
Context {base64 : Base64} {digest : Digest} {codec : JsonCodec}.

Definition url_char (ch : Byte.byte) : Byte.byte :=
  if bool_decide (ch = Byte.x2b) then Byte.x2d else if bool_decide (ch = slash) then Byte.x5f else ch.

Fixpoint drop_padding (reversed : bytes) : bytes :=
  match reversed with
  | ch :: rest => if bool_decide (ch = equals_sign) then drop_padding rest else reversed
  | [] => []
  end.

Definition base64_url_encode (data : bytes) : bytes :=
  match mbedtls_base64_encode data with
  | None => []
  | Some encoded => reverse (drop_padding (reverse (url_char <$> encoded)))
  end.

Definition plain_char (ch : Byte.byte) : Byte.byte :=
  if bool_decide (ch = Byte.x2d) then Byte.x2b else if bool_decide (ch = Byte.x5f) then slash else ch.

Definition base64_url_decode (value : bytes) : option bytes :=
  let value := plain_char <$> value in
  mbedtls_base64_decode (value ++ replicate (Z.to_nat ((- size_of value) mod 4)) equals_sign).

Definition pkce_challenge (verifier : bytes) : bytes :=
  match mbedtls_sha256 verifier with None => [] | Some digest => base64_url_encode digest end.

Record IdTokenClaims := mkClaims {
  claims_email : option bytes; claims_account_id : option bytes; claims_plan_type : option bytes }.

Definition no_claims : IdTokenClaims := mkClaims None None None.

Definition or_auth (value : option bytes) (payload : JsonObject) (key : bytes) : option bytes :=
  match value with
  | Some _ => value
  | None => match object_at payload $"https://api.openai.com/auth" with Some auth => string_at auth key | None => None end
  end.

Definition dot : Byte.byte := Byte.x2e.

Definition parse_id_token_claims (id_token : bytes) : IdTokenClaims :=
  match split_at dot id_token with
  | (_, None) => no_claims
  | (_, Some rest) =>
      match split_at dot rest with
      | (_, None) | ([], _) => no_claims
      | (payload_part, Some _) =>
          match base64_url_decode payload_part with
          | None => no_claims
          | Some decoded =>
              match read_object decoded with
              | None => no_claims
              | Some payload =>
                  mkClaims (string_at payload $"email")
                    (or_auth (string_at payload $"chatgpt_account_id") payload $"chatgpt_account_id")
                    (or_auth (string_at payload $"chatgpt_plan_type") payload $"chatgpt_plan_type")
              end
          end
      end
  end.

End encodings.

Definition build_authorization_url (env : environment) (state challenge : bytes) : bytes :=
  oauth_auth_base_url env ++ $"/oauth/authorize?response_type=code&client_id=" ++ url_encode (oauth_client_id env) ++
  $"&redirect_uri=" ++ url_encode (oauth_redirect_uri env) ++ $"&scope=" ++ url_encode (oauth_scope env) ++
  $"&code_challenge=" ++ url_encode challenge ++ $"&code_challenge_method=S256&state=" ++ url_encode state ++
  $"&id_token_add_organizations=true&codex_cli_simplified_flow=true&originator=" ++ url_encode (oauth_originator env).

(** [random_token]: the digits of a UUID. *)
Definition token_of_uuid (uuid : bytes) : bytes := filter (fun ch => ch <> Byte.x2d) uuid.

(** Pages are written here with single quotes in the place of double ones. *)
Definition html (text : bytes) : bytes := (fun ch => if bool_decide (ch = Byte.x27) then Byte.x22 else ch) <$> text.

Definition html_error (message : bytes) : bytes :=
  html $"<!doctype html><html><head><meta charset='utf-8'><title>OAuth Error</title></head><body><h1>" ++ message ++
  $"</h1></body></html>".

Definition html_success : bytes :=
  html $"
<!doctype html>
<html>
<head>
  <meta charset='utf-8'>
  <title>OAuth Success</title>
</head>
<body>
  <h1>Authorization complete. You can close this tab.</h1>
  <p>Returning to Tightrope" ++ [Byte.xe2; Byte.x80; Byte.xa6] ++ html $"</p>
  <p>If the app does not open automatically, <a href='tightrope://oauth/success'>click here</a>.</p>
  <script>
    (function () {
      try {
        window.location.href = 'tightrope://oauth/success';
      } catch (error) {
        // ignore deep-link launch errors; fallback link remains visible
      }
    })();
    window.setTimeout(function () {
      window.close();
    }, 300);
  </script>
</body>
</html>
".

(** ** The state *)

Record OAuthState := mkOAuth {
  status : bytes;
  method : option bytes;
  oauth_error_message : option bytes;
  state_token : option bytes;
  code_verifier : option bytes;
  authorization_url : option bytes;
  callback_url : option bytes;
  verification_url : option bytes;
  device_auth_id : option bytes;
  user_code : option bytes;
  interval_seconds : option Z;
  expires_in_seconds : option Z;
  expires_at : option Z;
  db_path : bytes;
  poll_active : bool;
}.

Definition initial_oauth : OAuthState :=
  mkOAuth $"idle" None None None None None None None None None None None None [] false.

(** Assignments of one or two fields. *)
Definition set_status (status : bytes) (error : option bytes) (s : OAuthState) : OAuthState :=
  mkOAuth status (method s) error (state_token s) (code_verifier s) (authorization_url s) (callback_url s)
    (verification_url s) (device_auth_id s) (user_code s) (interval_seconds s) (expires_in_seconds s) (expires_at s)
    (db_path s) (poll_active s).
Definition forget_tokens (s : OAuthState) : OAuthState :=
  mkOAuth (status s) (method s) (oauth_error_message s) None None (authorization_url s) (callback_url s)
    (verification_url s) (device_auth_id s) (user_code s) (interval_seconds s) (expires_in_seconds s) (expires_at s)
    (db_path s) (poll_active s).
Definition set_device (auth_id code : option bytes) (s : OAuthState) : OAuthState :=
  mkOAuth (status s) (method s) (oauth_error_message s) (state_token s) (code_verifier s) (authorization_url s)
    (callback_url s) (verification_url s) auth_id code (interval_seconds s) (expires_in_seconds s) (expires_at s)
    (db_path s) (poll_active s).
Definition set_polling (active : bool) (path : bytes) (s : OAuthState) : OAuthState :=
  mkOAuth (status s) (method s) (oauth_error_message s) (state_token s) (code_verifier s) (authorization_url s)
    (callback_url s) (verification_url s) (device_auth_id s) (user_code s) (interval_seconds s) (expires_in_seconds s)
    (expires_at s) path active.

Definition set_success_locked : OAuthState -> OAuthState := set_status $"success" None.
Definition set_error_locked (message : bytes) : OAuthState -> OAuthState := set_status $"error" (Some message).

(** The end of the polling: an error or the success, and no poll any more. *)
Definition end_polling (f : OAuthState -> OAuthState) (s : OAuthState) : OAuthState :=
  let s := f s in set_polling false (db_path s) s.

(** ** The calls *)

Record StartResponse := mkStart {
  start_status : Z;
  start_code : bytes;
  start_message : bytes;
  start_method : bytes;
  start_authorization_url : option bytes;
  start_callback_url : option bytes;
  start_verification_url : option bytes;
  start_user_code : option bytes;
  start_device_auth_id : option bytes;
  start_interval_seconds : option Z;
  start_expires_in_seconds : option Z;
}.

Record StatusResponse := mkStatus {
  status_status : Z;
  status_code : bytes;
  status_message : bytes;
  oauth_status : bytes;
  status_error_message : option bytes;
  listener_running : bool;
  status_callback_url : option bytes;
  status_authorization_url : option bytes;
}.

Record CompleteRequest := mkComplete { wanted_device_auth_id : option bytes; wanted_user_code : option bytes }.

Record CompleteResponse := mkCompleted {
  complete_status : Z; complete_code : bytes; complete_message : bytes; complete_oauth_status : bytes }.

Record ManualCallbackResponse := mkManual {
  manual_status : Z; manual_code : bytes; manual_message : bytes; manual_oauth_status : bytes;
  manual_error_message : option bytes }.

Record BrowserCallbackResponse := mkBrowser { browser_status : Z; content_type : bytes; browser_body : bytes }.

Definition html_type : bytes := $"text/html; charset=utf-8".
Definition page (body : bytes) : BrowserCallbackResponse := mkBrowser 200 html_type body.

(** What a call asks the world for: clocks (the steady one in nanoseconds),
    UUIDs, the provider, the database and the statements on it. *)
Record OAuthEnv := mkOAuthEnv {
  provider : ProviderClient;
  now_ns : Z;
  uuid : nat -> bytes;
  oauth_opened : bool;
  database_file : option bytes;
  config_db_path : bytes;
  oauth_runs : Accounts.Statement -> bool;
  oauth_crypto : TokenStorageCryptoState;
  oauth_nonce : nat -> bytes;
  oauth_now : Z;
}.

(** Success and errors as the two callbacks tell them. *)
Inductive Callback := Manual | Browser.

Inductive Answer :=
| Started (r : StartResponse)
| Told (r : StatusResponse)
| Completed (r : CompleteResponse)
| ManualAnswer (r : ManualCallbackResponse)
| BrowserAnswer (r : BrowserCallbackResponse).

Definition callback_error (callback : Callback) (message shown : bytes) : Answer :=
  match callback with
  | Manual => ManualAnswer (mkManual 200 [] [] $"error" (Some message))
  | Browser => BrowserAnswer (page (html_error shown))
  end.

Definition callback_success (callback : Callback) : Answer :=
  match callback with
  | Manual => ManualAnswer (mkManual 200 [] [] $"success" None)
  | Browser => BrowserAnswer (page html_success)
  end.

Section service.
Context {base64 : Base64} {digest : Digest} {codec : JsonCodec} {sodium : Sodium} (env : environment).

Definition db_path_for_oauth (given : bool) (e : OAuthEnv) : bytes :=
  match (if given then database_file e else None) with
  | Some (_ :: _ as filename) => filename
  | _ => if bool_decide (config_db_path e = []) then $"store.db" else config_db_path e
  end.

(** Both with the handle that was given and with a pool of their own: the
    table is the one of the database at the path. *)
Definition has_existing_accounts (e : OAuthEnv) (given : bool) (t : accounts_table) : bool :=
  if given || oauth_opened e then negb (bool_decide (list_accounts (oauth_runs e) t = [])) else false.

Definition persist_tokens (e : OAuthEnv) (given : bool) (tokens : OAuthTokens) (t : accounts_table) : bool * accounts_table :=
  let claims := parse_id_token_claims (id_token tokens) in
  let upsert := mkOauthAccount (default $"unknown@example.com" (claims_email claims)) $"openai" (claims_account_id claims)
                  (claims_plan_type claims) (access_token tokens) (refresh_token tokens) (id_token tokens) in
  if given || oauth_opened e then
    let '(record, t) := upsert_oauth_account (oauth_runs e) (oauth_crypto e) (oauth_nonce e) upsert (oauth_now e) t in
    (match record with Some _ => true | None => false end, t)
  else (false, t).

(** [status] of a response: what callers see of an idle service, and whether
    a callback is waited for. *)
Definition told (s : OAuthState) : StatusResponse :=
  mkStatus 200 [] [] (if bool_decide (status s = $"idle") then $"pending" else status s) (oauth_error_message s)
    (bool_decide (method s = Some $"browser") && bool_decide (status s = $"pending")) (callback_url s) (authorization_url s).

Definition started (method : bytes) : StartResponse := mkStart 200 [] [] method None None None None None None None.

(** *** start *)

Definition start_existing (s : OAuthState) : StartResponse * OAuthState :=
  (started $"browser",
   mkOAuth $"success" (Some $"browser") None None None None None None None None None None None [] false).

Definition start_device (e : OAuthEnv) (path : bytes) (payload : DeviceCodePayload) (s : OAuthState) :
    StartResponse * OAuthState :=
  let url := Some (payload_verification_url payload) in
  let code := Some (payload_user_code payload) in
  let auth_id := Some (payload_device_auth_id payload) in
  let interval := Some (payload_interval_seconds payload) in
  let expires_in := Some (payload_expires_in_seconds payload) in
  (mkStart 200 [] [] $"device" None None url code auth_id interval expires_in,
   mkOAuth $"pending" (Some $"device") None None None None None url auth_id code interval expires_in
     (Some (now_ns e + Z.max 1 (payload_expires_in_seconds payload) * 10 ^ 9)) path false).

Definition start_browser (e : OAuthEnv) (path : bytes) (s : OAuthState) : StartResponse * OAuthState :=
  let state_token := token_of_uuid (uuid e 0%nat) in
  let code_verifier := token_of_uuid (uuid e 1%nat) ++ token_of_uuid (uuid e 2%nat) in
  let code_challenge := pkce_challenge code_verifier in
  let callback_url := oauth_redirect_uri env in
  let authorization_url := build_authorization_url env state_token code_challenge in
  (mkStart 200 [] [] $"browser" (Some authorization_url) (Some callback_url) None None None None None,
   mkOAuth $"pending" (Some $"browser") None (Some state_token) (Some code_verifier) (Some authorization_url)
     (Some callback_url) None None None None None None path false).

(** *** stop *)

Definition stop_end (s : OAuthState) : StatusResponse * OAuthState :=
  let s := if bool_decide (method s = Some $"browser") || bool_decide (method s = Some $"device")
           then set_status $"stopped" None s else s in
  let s := forget_tokens s in (told s, s).

(** *** complete *)

Definition completed (code message status : bytes) : CompleteResponse := mkCompleted 200 code message status.

(** The critical section: an answer, or the thread is to be started. *)
Definition complete_begin (e : OAuthEnv) (path : bytes) (request : CompleteRequest) (s : OAuthState) :
    option CompleteResponse * OAuthState :=
  let or_old (wanted old : option bytes) := match wanted with Some _ => wanted | None => old end in
  let s := set_device (or_old (wanted_device_auth_id request) (device_auth_id s))
             (or_old (wanted_user_code request) (user_code s)) s in
  if bool_decide (status s = $"success") then (Some (completed [] [] $"success"), s)
  else if negb (bool_decide (method s = Some $"device")) then (Some (completed [] [] $"pending"), s)
  else if poll_active s then (Some (completed [] [] $"pending"), s)
  else match device_auth_id s, user_code s, expires_at s with
  | Some _, Some _, Some expires_at =>
      if expires_at <=? now_ns e
      then (Some (completed $"device_expired" $"Device code expired." $"error"), set_error_locked $"Device code expired." s)
      else (None, set_polling true path s)
  | _, _, _ =>
      (Some (completed $"device_not_initialized" $"Device code flow is not initialized." $"error"),
       set_error_locked $"Device code flow is not initialized." s)
  end.

(** *** Callbacks *)

Record CallbackFields := mkFields { field_error : bytes; field_code : bytes; field_state : bytes }.

Definition manual_fields (callback_url : bytes) : CallbackFields :=
  let parsed := parse_callback_url callback_url in
  let field key := default [] (parsed !! key) in
  mkFields (field $"error") (field $"code") (field $"state").

(** What the provider will be asked: the code, the verifier of the flow, and
    the state that the callback brought. *)
Record Exchange := mkExchange { exchange_code : bytes; exchange_verifier : bytes; exchange_state : bytes }.

(** The reading of the state and the checks of a callback. *)
Definition callback_begin (callback : Callback) (fields : CallbackFields) (s : OAuthState) :
    (Answer + Exchange) * OAuthState :=
  if negb (bool_decide (field_error fields = [])) then
    let message := $"OAuth error: " ++ field_error fields in
    (inl (callback_error callback message $"Authorization failed."), set_error_locked message s)
  else
    match state_token s, code_verifier s with
    | Some expected_state, Some verifier =>
        if negb (bool_decide (field_code fields = [])) && negb (bool_decide (field_state fields = [])) &&
           bool_decide (field_state fields = expected_state)
        then (inr (mkExchange (field_code fields) verifier (field_state fields)), s)
        else
          let message := match callback with Manual => $"Invalid OAuth callback: state mismatch or missing code."
                                           | Browser => $"Invalid OAuth callback state." end in
          (inl (callback_error callback message $"Invalid OAuth callback."), set_error_locked message s)
    | _, _ =>
        let message := match callback with Manual => $"Invalid OAuth callback: state mismatch or missing code."
                                         | Browser => $"Invalid OAuth callback state." end in
        (inl (callback_error callback message $"Invalid OAuth callback."), set_error_locked message s)
    end.

(** The exchange with the provider and the table: an error for the callback,
    or the tokens were stored. *)
Definition callback_exchange (e : OAuthEnv) (x : Exchange) (t : accounts_table) : (bytes + OAuthTokens) * accounts_table :=
  match exchange_authorization_code (provider e)
          (mkCodeRequest (exchange_code x) (exchange_verifier x) (Some (oauth_redirect_uri env))) with
  | inl error => (inl (error_message error), t)
  | inr tokens =>
      let '(persisted, t) := persist_tokens e true tokens t in
      (if persisted then inr tokens else inl $"Failed to persist OAuth account.", t)
  end.

(** *** The polling thread *)

Inductive PollPhase :=
| Checking
| Asking (device_auth_id user_code : bytes) (interval_seconds expires_at : Z)
| Storing (device_auth_id user_code : bytes) (tokens : OAuthTokens)
| Finishing
| Ended.

Record PollThread := mkThread { phase : PollPhase; stop_requested : bool }.

Definition in_phase (p : PollPhase) (th : PollThread) : PollThread := mkThread p (stop_requested th).
Definition request_stop (th : PollThread) : PollThread := mkThread (phase th) true.

(** [run_device_poll_loop]: the head of the loop. *)
Definition poll_check (stop : bool) (s : OAuthState) : PollPhase * OAuthState :=
  if stop then (Ended, s)
  else match device_auth_id s, user_code s, expires_at s with
       | Some auth_id, Some code, Some expires_at => (Asking auth_id code (Z.max 0 (default 0 (interval_seconds s))) expires_at, s)
       | _, _, _ => (Ended, end_polling (set_error_locked $"Device code flow is not initialized.") s)
       end.

(** The tokens of an answer that is neither pending nor an error. *)
Definition poll_result_tokens (e : OAuthEnv) (result : DeviceTokenPollResult) : ProviderResult OAuthTokens :=
  match kind result, poll_tokens result, poll_authorization_code result, poll_code_verifier result with
  | Tokens, Some tokens, _, _ => ok tokens
  | AuthorizationCode, _, Some code, Some verifier =>
      exchange_authorization_code (provider e)
        (mkCodeRequest code verifier (Some (oauth_auth_base_url env ++ $"/deviceauth/callback")))
  | _, _, _, _ => fail (mkOAuthError $"invalid_response" $"OAuth response missing tokens" 0)
  end.

(** The body of the loop up to the sleep or the tokens. *)
Definition poll_ask (e : OAuthEnv) (auth_id code : bytes) (expires_at : Z) (s : OAuthState) : PollPhase * OAuthState :=
  if expires_at <=? now_ns e then (Ended, end_polling (set_error_locked $"Device code expired.") s)
  else
    let result := exchange_device_token (provider e) (mkPollRequest auth_id code) in
    match kind result with
    | Pending => (Checking, s)
    | PollError =>
        (Ended, end_polling (set_error_locked (match poll_error result with
                                               | Some error => error_message error
                                               | None => $"Device OAuth failed" end)) s)
    | _ => match poll_result_tokens e result with
           | inl error => (Ended, end_polling (set_error_locked (error_message error)) s)
           | inr tokens => (Storing auth_id code tokens, s)
           end
    end.

(** ** The machine *)

Inductive AfterJoin := ThenStop | ThenBrowser (path : bytes).

(** A call between two of its critical sections: waiting for a thread it
    stopped, about to start one, or for the provider and the table. *)
Inductive InFlight :=
| Joining (next : AfterJoin) (joined : option nat)
| Spawning
| Exchanging (callback : Callback) (x : Exchange)
| Succeeding (callback : Callback).

Record OAuthWorld := mkWorld {
  oauth_state : OAuthState;
  threads : list PollThread;
  poll_thread_state : option nat;
  calls : gmap nat InFlight;
  oauth_accounts : accounts_table;
}.

Definition initial_world (t : accounts_table) : OAuthWorld := mkWorld initial_oauth [] None ∅ t.

Definition with_oauth (s : OAuthState) (w : OAuthWorld) : OAuthWorld :=
  mkWorld s (threads w) (poll_thread_state w) (calls w) (oauth_accounts w).
Definition with_threads (l : list PollThread) (current : option nat) (w : OAuthWorld) : OAuthWorld :=
  mkWorld (oauth_state w) l current (calls w) (oauth_accounts w).
Definition with_calls (c : gmap nat InFlight) (w : OAuthWorld) : OAuthWorld :=
  mkWorld (oauth_state w) (threads w) (poll_thread_state w) c (oauth_accounts w).
Definition with_oauth_accounts (t : accounts_table) (w : OAuthWorld) : OAuthWorld :=
  mkWorld (oauth_state w) (threads w) (poll_thread_state w) (calls w) t.

Definition ended (th : PollThread) : bool := match phase th with Ended => true | _ => false end.

(** A join returns when the thread has ended. *)
Definition joinable_now (joined : option nat) (w : OAuthWorld) : bool :=
  match joined with
  | None => true
  | Some i => match threads w !! i with Some th => ended th | None => true end
  end.

(** The critical section of [stop_poll_thread]. *)
Definition stop_poll_thread (w : OAuthWorld) : option nat * OAuthWorld :=
  let s := set_polling false (db_path (oauth_state w)) (oauth_state w) in
  match poll_thread_state w with
  | Some i => (Some i, with_oauth s (with_threads (alter request_stop i (threads w)) None w))
  | None => (None, with_oauth s w)
  end.

(** What an observer may note: a flow that was begun with its state and its
    verifier, the end of one, a callback that was accepted, a login. *)
Inductive Origin :=
| ByCallback (x : Exchange)
| ByDevice (device_auth_id user_code : bytes).

Inductive Note :=
| Opened (state_token code_verifier : bytes)
| Closed
| Accepted (x : Exchange)
| Login (origin : Origin) (tokens : OAuthTokens).

Inductive Call :=
| StartCall (force_method : option bytes)
| StatusCall
| StopCall
| RestartCall
| CompleteCall (request : CompleteRequest)
| ManualCall (callback_url : bytes)
| BrowserCall (code state error : bytes).

Definition unavailable_start : StartResponse :=
  mkStart 500 $"db_unavailable" $"Database unavailable" [] None None None None None None None.

Definition begin_start (e : OAuthEnv) (id : nat) (force_method : bytes) (w : OAuthWorld) :
    option Answer * list Note * OAuthWorld :=
  let normalized_method := to_lower_ascii force_method in
  let path := db_path_for_oauth true e in
  if bool_decide (normalized_method = []) && has_existing_accounts e true (oauth_accounts w) then
    let '(r, s) := start_existing (oauth_state w) in (Some (Started r), [Closed], with_oauth s w)
  else if bool_decide (normalized_method = $"device") then
    match request_device_code (provider e) with
    | inl error =>
        (Some (Started (mkStart 502 (error_code error) (error_message error) [] None None None None None None None)), [], w)
    | inr payload =>
        let '(r, s) := start_device e path payload (oauth_state w) in (Some (Started r), [Closed], with_oauth s w)
    end
  else
    let '(joined, w) := stop_poll_thread w in
    (None, [], with_calls (<[id := Joining (ThenBrowser path) joined]> (calls w)) w).

Definition begin_callback (id : nat) (callback : Callback) (fields : CallbackFields) (w : OAuthWorld) :
    option Answer * list Note * OAuthWorld :=
  match callback_begin callback fields (oauth_state w) with
  | (inl answer, s) => (Some answer, [], with_oauth s w)
  | (inr x, s) => (None, [Accepted x], with_calls (<[id := Exchanging callback x]> (calls w)) (with_oauth s w))
  end.

(** The first critical section of a call, and its answer when that was all. *)
Definition begin_call (e : OAuthEnv) (id : nat) (c : Call) (w : OAuthWorld) : option Answer * list Note * OAuthWorld :=
  match c with
  | StartCall force_method =>
      if oauth_opened e then begin_start e id (default [] force_method) w else (Some (Started unavailable_start), [], w)
  | RestartCall =>
      if oauth_opened e then begin_start e id $"browser" w else (Some (Started unavailable_start), [], w)
  | StatusCall => (Some (Told (told (oauth_state w))), [], w)
  | StopCall =>
      let '(joined, w) := stop_poll_thread w in
      (None, [], with_calls (<[id := Joining ThenStop joined]> (calls w)) w)
  | CompleteCall request =>
      match complete_begin e (db_path_for_oauth false e) request (oauth_state w) with
      | (Some r, s) => (Some (Completed r), [], with_oauth s w)
      | (None, s) => (None, [], with_calls (<[id := Spawning]> (calls w)) (with_oauth s w))
      end
  | ManualCall callback_url =>
      if oauth_opened e then begin_callback id Manual (manual_fields callback_url) w
      else (Some (ManualAnswer (mkManual 500 $"db_unavailable" $"Database unavailable" $"error" (Some $"Database unavailable"))), [], w)
  | BrowserCall code state error =>
      if oauth_opened e then begin_callback id Browser (mkFields error code state) w
      else (Some (BrowserAnswer (mkBrowser 500 html_type
                    $"<!doctype html><html><body><h1>Database unavailable.</h1></body></html>")), [], w)
  end.

(** The next section of a call that is in flight. *)
Definition resume_call (e : OAuthEnv) (id : nat) (w : OAuthWorld) : option Answer * list Note * OAuthWorld :=
  let answered answer s w := (Some answer, with_calls (delete id (calls w)) (with_oauth s w)) in
  match calls w !! id with
  | None => (None, [], w)
  | Some (Joining next joined) =>
      if negb (joinable_now joined w) then (None, [], w)
      else match next with
           | ThenStop =>
               let '(r, s) := stop_end (oauth_state w) in
               let '(answer, w) := answered (Told r) s w in (answer, [Closed], w)
           | ThenBrowser path =>
               let '(r, s) := start_browser e path (oauth_state w) in
               let '(answer, w) := answered (Started r) s w in
               (answer, [Opened (default [] (state_token s)) (default [] (code_verifier s))], w)
           end
  | Some Spawning =>
      if negb (joinable_now (poll_thread_state w) w)
      then (None, [], match poll_thread_state w with
                      | Some i => with_threads (alter request_stop i (threads w)) (Some i) w
                      | None => w end)
      else
        let '(answer, w) := answered (Completed (completed [] [] $"pending")) (oauth_state w) w in
        (answer, [], with_threads (threads w ++ [mkThread Checking false]) (Some (length (threads w))) w)
  | Some (Exchanging callback x) =>
      match callback_exchange e x (oauth_accounts w) with
      | (inl message, t) =>
          let '(answer, w) := answered (callback_error callback message message)
                                (set_error_locked message (oauth_state w)) (with_oauth_accounts t w) in (answer, [], w)
      | (inr tokens, t) =>
          (None, [Login (ByCallback x) tokens],
           with_calls (<[id := Succeeding callback]> (calls w)) (with_oauth_accounts t w))
      end
  | Some (Succeeding callback) =>
      let '(answer, w) := answered (callback_success callback) (set_success_locked (oauth_state w)) w in (answer, [], w)
  end.

(** A step of a polling thread. *)
Definition poll_step (e : OAuthEnv) (i : nat) (w : OAuthWorld) : list Note * OAuthWorld :=
  let moved th p s w := with_oauth s (with_threads (<[i := in_phase p th]> (threads w)) (poll_thread_state w) w) in
  match threads w !! i with
  | None => ([], w)
  | Some th =>
      match phase th with
      | Checking => let '(p, s) := poll_check (stop_requested th) (oauth_state w) in ([], moved th p s w)
      | Asking auth_id code interval expires_at =>
          let '(p, s) := poll_ask e auth_id code expires_at (oauth_state w) in ([], moved th p s w)
      | Storing auth_id code tokens =>
          let '(persisted, t) := persist_tokens e false tokens (oauth_accounts w) in
          let w := with_oauth_accounts t w in
          if persisted then ([Login (ByDevice auth_id code) tokens], moved th Finishing (oauth_state w) w)
          else ([], moved th Ended (end_polling (set_error_locked $"Failed to persist OAuth account.") (oauth_state w)) w)
      | Finishing => ([], moved th Ended (end_polling set_success_locked (oauth_state w)) w)
      | Ended => ([], w)
      end
  end.

Inductive Event := Begin (id : nat) (c : Call) | Resume (id : nat) | Poll (thread : nat).

(** An identifier names one call at a time. *)
Definition oauth_step (e : OAuthEnv) (ev : Event) (w : OAuthWorld) : list Note * OAuthWorld :=
  match ev with
  | Begin id c =>
      if bool_decide (is_Some (calls w !! id)) then ([], w)
      else let '(_, notes, w) := begin_call e id c w in (notes, w)
  | Resume id => let '(_, notes, w) := resume_call e id w in (notes, w)
  | Poll i => poll_step e i w
  end.

Fixpoint oauth_run (w : OAuthWorld) (run : list (OAuthEnv * Event)) : list Note * OAuthWorld :=
  match run with
  | [] => ([], w)
  | (e, ev) :: run =>
      let '(notes, w) := oauth_step e ev w in
      let '(notes', w) := oauth_run w run in (notes ++ notes', w)
  end.

End service.

(** ** Queries *)

Lemma nibble_digit n : 0 <= n < 16 -> decode_hex (nth (Z.to_nat n) kUpperHex Byte.x00) = n.
Proof.
  intros H. assert (Forall (fun d => decode_hex (nth d kUpperHex Byte.x00) = Z.of_nat d) (seq 0 16)) as Hd by by repeat constructor.
  rewrite Forall_forall in Hd. rewrite Hd by (apply elem_of_seq; lia). lia.
Qed.

Lemma escaped_decodes c rest :
  percent_decode ([Byte.x25; nth (Z.to_nat (Z.land (Z.shiftr (val c) 4) 0x0F)) kUpperHex Byte.x00;
                   nth (Z.to_nat (Z.land (val c) 0x0F)) kUpperHex Byte.x00] ++ rest) = c :: percent_decode rest.
Proof. destruct c; reflexivity. Qed.

Lemma unreserved_plain c : is_unreserved c = true -> c <> Byte.x2b /\ c <> Byte.x25 /\ c <> ampersand /\ c <> equals_sign /\ c <> question_mark.
Proof. by destruct c. Qed.

(** Decoding gives back the text that was encoded, and an encoded text has
    none of the characters that structure a query. *)
Lemma url_encode_decodes value rest : percent_decode (url_encode value ++ rest) = value ++ percent_decode rest.
Proof.
  unfold url_encode. induction value as [|c value IH]; [done|]. cbn [fmap list_fmap concat]. rewrite <- app_assoc.
  destruct (is_unreserved c) eqn:E.
  - apply unreserved_plain in E as (H1 & H2 & _). cbn [app percent_decode]. rewrite !bool_decide_false by done. by rewrite IH.
  - rewrite escaped_decodes. by rewrite IH.
Qed.

Lemma url_encode_plain value : Forall (fun c => c <> ampersand /\ c <> equals_sign /\ c <> question_mark) (url_encode value).
Proof.
  unfold url_encode. induction value as [|c value IH]; [constructor|]. cbn [fmap list_fmap concat]. apply Forall_app.
  split; [|done]. destruct (is_unreserved c) eqn:E.
  - apply unreserved_plain in E as (_ & _ & ?). by apply Forall_singleton.
  - clear E IH. destruct c; repeat (apply Forall_cons; split; [by split_and!|]); apply Forall_nil_2.
Qed.

Lemma split_at_plain d a b : d ∉ a -> split_at d (a ++ d :: b) = (a, Some b).
Proof.
  induction a as [|c a IH]; intros H; cbn [app split_at]; [by rewrite bool_decide_true|].
  apply not_elem_of_cons in H as [H1 H2]. rewrite bool_decide_false by done. by rewrite IH.
Qed.

Lemma split_at_none d a : d ∉ a -> split_at d a = (a, None).
Proof.
  induction a as [|c a IH]; intros H; [done|]. apply not_elem_of_cons in H as [H1 H2]. cbn [split_at].
  rewrite bool_decide_false by done. by rewrite IH.
Qed.

Lemma plain_elem (P : Byte.byte -> Prop) d l : Forall P l -> ~ P d -> d ∉ l.
Proof. intros H Hd Hin. by eapply Forall_forall in H. Qed.

Definition encode_field (kv : bytes * bytes) : bytes := url_encode kv.1 ++ [equals_sign] ++ url_encode kv.2.

Fixpoint encode_query (fields : list (bytes * bytes)) : bytes :=
  match fields with
  | [] => []
  | [kv] => encode_field kv
  | kv :: fields => encode_field kv ++ [ampersand] ++ encode_query fields
  end.

Lemma field_plain kv : ampersand ∉ encode_field kv.
Proof.
  unfold encode_field. rewrite !elem_of_app, list_elem_of_singleton.
  intros [H|[H|H]]; [|done|]; revert H; (eapply plain_elem; [apply url_encode_plain|tauto]).
Qed.

Lemma field_read kv fields : query_field (encode_field kv) fields = emplace kv.1 kv.2 fields.
Proof.
  unfold query_field, encode_field. cbn [app]. rewrite split_at_plain by (eapply plain_elem; [apply url_encode_plain|tauto]).
  f_equal; [pose proof (url_encode_decodes kv.1 []) as H|pose proof (url_encode_decodes kv.2 []) as H];
    cbn [percent_decode] in H; by rewrite !app_nil_r in H.
Qed.

Lemma fields_read l : forall fuel fields,
  (length (encode_query l) < fuel)%nat ->
  query_fields fuel (encode_query l) fields = foldl (fun m kv => emplace kv.1 kv.2 m) fields l.
Proof.
  induction l as [|kv l IH]; intros [|fuel] fields Hf; [lia|done|lia|]. cbn [query_fields foldl].
  assert (encode_query (kv :: l) <> []) as Hne.
  { destruct l; cbn [encode_query]; unfold encode_field; destruct (url_encode kv.1); done. }
  rewrite bool_decide_false by done. destruct l as [|kv' l].
  - cbn [encode_query]. rewrite split_at_none by apply field_plain. by rewrite field_read.
  - change (encode_query (kv :: kv' :: l)) with (encode_field kv ++ ampersand :: encode_query (kv' :: l)) in *.
    rewrite split_at_plain by apply field_plain. rewrite field_read. apply IH.
    rewrite length_app in Hf. cbn [length] in Hf. lia.
Qed.

(** The fields of a query come back, the first of each name. *)
Lemma query_roundtrip l : parse_query (encode_query l) = list_to_map l.
Proof.
  unfold parse_query. rewrite fields_read by lia. 
  enough (forall m k, foldl (fun m kv => emplace kv.1 kv.2 m) m l !! k =
                      match m !! k with Some v => Some v | None => (list_to_map l : gmap bytes bytes) !! k end) as H
    by (apply map_eq; intros k; by rewrite H, lookup_empty).
  induction l as [|[k v] l IH]; intros m k'; cbn [foldl list_to_map fst snd]; [by destruct (m !! k')|]. rewrite IH.
  unfold emplace. destruct (m !! k) as [v'|] eqn:E; destruct (decide (k = k')) as [<-|Hk].
  - by rewrite E.
  - destruct (m !! k'); [done|]. change (list_to_map ((k, v) :: l)) with (<[k := v]> (list_to_map l : gmap bytes bytes)).
    by rewrite lookup_insert_ne.
  - rewrite E, lookup_insert_eq. change (list_to_map ((k, v) :: l)) with (<[k := v]> (list_to_map l : gmap bytes bytes)).
    by rewrite lookup_insert_eq.
  - rewrite lookup_insert_ne by done. destruct (m !! k'); [done|].
    change (list_to_map ((k, v) :: l)) with (<[k := v]> (list_to_map l : gmap bytes bytes)). by rewrite lookup_insert_ne.
Qed.

(** The authorization URL says what it means to say: read as a callback
    would be, it holds the state, the challenge and the settings of the
    provider, whatever characters they have. *)
Theorem authorization_url_roundtrip env state challenge :
  question_mark ∉ oauth_auth_base_url env ->
  parse_callback_url (build_authorization_url env state challenge) =
  list_to_map
    [($"response_type", $"code"); ($"client_id", oauth_client_id env); ($"redirect_uri", oauth_redirect_uri env);
     ($"scope", oauth_scope env); ($"code_challenge", challenge); ($"code_challenge_method", $"S256"); ($"state", state);
     ($"id_token_add_organizations", $"true"); ($"codex_cli_simplified_flow", $"true");
     ($"originator", oauth_originator env)].
Proof.
  intros Hq. rewrite <- query_roundtrip. unfold parse_callback_url, build_authorization_url.
  set (client := url_encode (oauth_client_id env)). set (redirect := url_encode (oauth_redirect_uri env)).
  set (scope := url_encode (oauth_scope env)). set (originator := url_encode (oauth_originator env)).
  lazymatch goal with |- context [split_at _ (_ ++ ?tail)] =>
    assert (tail = $"/oauth/authorize" ++ question_mark :: encode_query
    [($"response_type", $"code"); ($"client_id", oauth_client_id env); ($"redirect_uri", oauth_redirect_uri env);
     ($"scope", oauth_scope env); ($"code_challenge", challenge); ($"code_challenge_method", $"S256"); ($"state", state);
     ($"id_token_add_organizations", $"true"); ($"codex_cli_simplified_flow", $"true");
     ($"originator", oauth_originator env)]) as ->
  end.
  { unfold encode_query, encode_field. cbn [fst snd]. fold client redirect scope originator.
    change (url_encode $"response_type") with ($"response_type"). change (url_encode $"code") with ($"code").
    change (url_encode $"client_id") with ($"client_id"). change (url_encode $"redirect_uri") with ($"redirect_uri").
    change (url_encode $"scope") with ($"scope"). change (url_encode $"code_challenge") with ($"code_challenge").
    change (url_encode $"code_challenge_method") with ($"code_challenge_method"). change (url_encode $"S256") with ($"S256").
    change (url_encode $"state") with ($"state"). change (url_encode $"true") with ($"true").
    change (url_encode $"id_token_add_organizations") with ($"id_token_add_organizations").
    change (url_encode $"codex_cli_simplified_flow") with ($"codex_cli_simplified_flow").
    change (url_encode $"originator") with ($"originator"). by rewrite <- !app_assoc. }
  rewrite app_assoc, split_at_plain; [done|]. rewrite elem_of_app. intros [H|H]; [done|].
  by vm_compute in H; repeat (apply elem_of_cons in H as [H|H]; [done|]); apply elem_of_nil in H.
Qed.

Lemma authorization_url_roundtrip_witness :
  question_mark ∉ oauth_auth_base_url (fun _ => None) /\
  parse_callback_url (build_authorization_url (fun _ => None) $"a&b" $"c?d") !! $"state" = Some $"a&b".
Proof.
  assert (question_mark ∉ oauth_auth_base_url (fun _ => None)) as H by (apply (bool_decide_unpack _); vm_compute; exact I).
  split; [exact H|]. rewrite (authorization_url_roundtrip _ _ _ H). vm_compute. reflexivity.
Defined.

(** ** Logins belong to the flow that was begun *)

Section laws.
Context {base64 : Base64} {digest : Digest} {codec : JsonCodec} {sodium : Sodium} (env : environment).

(** The flow in course: what the last start drew, until a stop or another
    start. *)
Definition current_flow (notes : list Note) : option (bytes * bytes) :=
  foldl (fun flow note => match note with
                          | Opened state_token code_verifier => Some (state_token, code_verifier)
                          | Closed => None
                          | _ => flow
                          end) None notes.

(** What the provider is asked for an accepted callback. *)
Definition asked_with (e : OAuthEnv) (x : Exchange) : ProviderResult OAuthTokens :=
  exchange_authorization_code (provider e)
    (mkCodeRequest (exchange_code x) (exchange_verifier x) (Some (oauth_redirect_uri env))).

Definition justified (known : OAuthEnv -> Prop) (before : list Note) (note : Note) : Prop :=
  match note with
  | Accepted x => current_flow before = Some (exchange_state x, exchange_verifier x)
  | Login (ByCallback x) tokens => Accepted x ∈ before /\ exists e, known e /\ asked_with e x = inr tokens
  | _ => True
  end.

Definition tokens_in (flow : option (bytes * bytes)) (s : OAuthState) : Prop :=
  state_token s = fst <$> flow /\ code_verifier s = snd <$> flow.

Record flow_inv (notes : list Note) (w : OAuthWorld) : Prop := {
  flow_tokens : tokens_in (current_flow notes) (oauth_state w);
  flow_calls : forall id callback x, calls w !! id = Some (Exchanging callback x) -> Accepted x ∈ notes;
}.

Lemma current_flow_snoc notes note :
  current_flow (notes ++ [note]) =
  match note with Opened st v => Some (st, v) | Closed => None | _ => current_flow notes end.
Proof. unfold current_flow. rewrite foldl_app. by destruct note. Qed.

Definition same_tokens (s s' : OAuthState) : Prop := state_token s' = state_token s /\ code_verifier s' = code_verifier s.

Definition no_new_exchange (w w' : OAuthWorld) : Prop :=
  forall id callback x, calls w' !! id = Some (Exchanging callback x) -> calls w !! id = Some (Exchanging callback x).

(** A step that leaves the tokens of the flow and starts no exchange. *)
Lemma flow_quiet notes w w' :
  same_tokens (oauth_state w) (oauth_state w') -> no_new_exchange w w' -> flow_inv notes w -> flow_inv notes w'.
Proof.
  intros [H1 H2] Hc [[H3 H4] H5]. split; [split; congruence|]. intros id callback x H. eapply H5. by eapply Hc.
Qed.

Lemma flow_noted notes note w w' :
  tokens_in (match note with Opened st v => Some (st, v) | Closed => None | _ => current_flow notes end) (oauth_state w') ->
  no_new_exchange w w' -> flow_inv notes w -> flow_inv (notes ++ [note]) w'.
Proof.
  intros Ht Hc [_ H]. split; [by rewrite current_flow_snoc|]. intros id callback x Hx.
  apply elem_of_app. left. eapply H. by eapply Hc.
Qed.

Lemma insert_no_exchange id call w :
  match call with Exchanging _ _ => False | _ => True end -> no_new_exchange w (with_calls (<[id := call]> (calls w)) w).
Proof.
  intros Hc id' callback x. cbn. destruct (decide (id = id')) as [<-|Hne].
  - rewrite lookup_insert_eq. by intros [= ->].
  - by rewrite lookup_insert_ne.
Qed.

Ltac deleted := intros ? ? ?; cbn; by intros [_ ?]%lookup_delete_Some.
Ltac inserted id call w := intros ? ? ?; cbn; by apply (insert_no_exchange id call w).

Section known.
Context (known : OAuthEnv -> Prop).

Definition step_ok (notes new : list Note) (w' : OAuthWorld) : Prop :=
  flow_inv (notes ++ new) w' /\ (new = [] \/ exists note, new = [note] /\ justified known notes note).

Lemma step_quiet notes w w' :
  same_tokens (oauth_state w) (oauth_state w') -> no_new_exchange w w' -> flow_inv notes w -> step_ok notes [] w'.
Proof. intros H1 H2 H. split; [|by left]. rewrite app_nil_r. by eapply flow_quiet. Qed.

(** A step that changes neither the tokens nor the calls. *)
Ltac quiet w := apply (step_quiet _ w); [done|by intros ? ? ?|done].

Lemma stop_section_keeps w :
  let '(_, w') := stop_poll_thread w in
  same_tokens (oauth_state w) (oauth_state w') /\ calls w' = calls w.
Proof. unfold stop_poll_thread. by destruct (poll_thread_state w). Qed.

Lemma begin_start_ok e id method notes w :
  flow_inv notes w -> let '(_, new, w') := begin_start e id method w in step_ok notes new w'.
Proof.
  intros Hi. unfold begin_start. destruct (_ && has_existing_accounts _ _ _).
  { split; [|right; by eexists]. apply (flow_noted _ _ w); [by split|by intros ? ? ?|done]. }
  destruct (bool_decide _).
  { destruct (request_device_code _) as [error|payload]; [quiet w|].
    split; [|right; by eexists]. apply (flow_noted _ _ w); [by split|by intros ? ? ?|done]. }
  pose proof (stop_section_keeps w) as H. destruct (stop_poll_thread w) as [joined w1]. destruct H as [H1 H2].
  apply (step_quiet _ w); [done| |done]. intros id' callback x. cbn. rewrite H2.
  by apply (insert_no_exchange id (Joining (ThenBrowser (db_path_for_oauth true e)) joined) w).
Qed.

Lemma begin_callback_ok id callback fields notes w :
  flow_inv notes w -> let '(_, new, w') := begin_callback id callback fields w in step_ok notes new w'.
Proof.
  intros Hi. unfold begin_callback, callback_begin. destruct (negb (bool_decide (field_error fields = []))).
  { quiet w. }
  destruct Hi as [[Ht1 Ht2] Hc]. destruct (state_token (oauth_state w)) as [st|] eqn:Est;
    [destruct (code_verifier (oauth_state w)) as [v|] eqn:Ev|].
  2,3: apply (step_quiet _ w); [done|by intros ? ? ?|split; [by split; congruence|done]].
  destruct (negb _ && _ && bool_decide (field_state fields = st)) eqn:Eb.
  2:{ apply (step_quiet _ w); [done|by intros ? ? ?|split; [by split; congruence|done]]. }
  apply andb_true_iff in Eb as [_ Est'%bool_decide_eq_true]. split.
  - split; [rewrite current_flow_snoc; cbn; split; congruence|]. cbn. intros id' callback' x Hx.
    apply elem_of_app. destruct (decide (id = id')) as [<-|Hne].
    + rewrite lookup_insert_eq in Hx. injection Hx as _ <-. right. by apply list_elem_of_singleton.
    + rewrite lookup_insert_ne in Hx by done. left. by eapply Hc.
  - right. eexists. split; [done|]. cbn. destruct (current_flow notes) as [[]|]; cbn in *; [|done]. by simplify_eq.
Qed.

Lemma begin_ok e id c notes w :
  flow_inv notes w -> let '(_, new, w') := begin_call e id c w in step_ok notes new w'.
Proof.
  intros Hi. destruct c as [method| | | |request|url|code state error]; cbn [begin_call].
  - destruct (oauth_opened e); [by apply begin_start_ok|quiet w].
  - quiet w.
  - pose proof (stop_section_keeps w) as H. destruct (stop_poll_thread w) as [joined w1]. destruct H as [H1 H2].
    apply (step_quiet _ w); [done| |done]. intros id' callback x. cbn. rewrite H2.
    by apply (insert_no_exchange id (Joining ThenStop joined) w).
  - destruct (oauth_opened e); [by apply begin_start_ok|quiet w].
  - unfold complete_begin. cbv zeta.
    repeat case_match; simplify_eq; (apply (step_quiet _ w); [done| |done]); try (by intros ? ? ?);
      inserted id Spawning w.
  - destruct (oauth_opened e); [by apply begin_callback_ok|quiet w].
  - destruct (oauth_opened e); [by apply begin_callback_ok|quiet w].
Qed.

Lemma exchange_asks e x t tokens t' : callback_exchange env e x t = (inr tokens, t') -> asked_with e x = inr tokens.
Proof.
  unfold callback_exchange, asked_with. destruct (exchange_authorization_code _ _) as [error|answered]; [done|].
  destruct (persist_tokens e true answered t) as [[] ?]; [by intros [= -> _]|done].
Qed.

Lemma resume_ok e id notes w :
  known e -> flow_inv notes w -> let '(_, new, w') := resume_call env e id w in step_ok notes new w'.
Proof.
  intros He Hi. unfold resume_call. cbv zeta. destruct (calls w !! id) as [[[|path] joined| |callback x|callback]|] eqn:Ec.
  - destruct (negb (joinable_now joined w)); [quiet w|]. unfold stop_end.
    split; [|right; by eexists]. apply (flow_noted _ _ w); [by case_match|deleted|done].
  - destruct (negb (joinable_now joined w)); [quiet w|].
    split; [|right; by eexists]. apply (flow_noted _ _ w); [by split|deleted|done].
  - destruct (negb (joinable_now (poll_thread_state w) w)).
    + destruct (poll_thread_state w); quiet w.
    + apply (step_quiet _ w); [done|deleted|done].
  - destruct (callback_exchange env e x (oauth_accounts w)) as [[message|tokens] t] eqn:Ex.
    + apply (step_quiet _ w); [done|deleted|done].
    + split; [|right; eexists; split; [done|cbn; split; [by eapply (flow_calls _ _ Hi)|exists e; split; [done|by eapply exchange_asks]]]].
      apply (flow_noted _ _ w); [apply Hi| |done]. inserted id (Succeeding callback) w.
  - apply (step_quiet _ w); [done|deleted|done].
  - quiet w.
Qed.

Lemma poll_ok e i notes w : flow_inv notes w -> let '(new, w') := poll_step env e i w in step_ok notes new w'.
Proof.
  intros Hi. unfold poll_step. cbv zeta. destruct (threads w !! i) as [th|]; [|quiet w].
  destruct (phase th) as [|auth_id code interval expires_at|auth_id code tokens| |]; try quiet w.
  - unfold poll_check. repeat case_match; simplify_eq; quiet w.
  - unfold poll_ask. repeat case_match; simplify_eq; quiet w.
  - destruct (persist_tokens e false tokens (oauth_accounts w)) as [[] t]; [|quiet w].
    split; [|right; by eexists]. apply (flow_noted _ _ w); [apply Hi|by intros ? ? ?|done].
Qed.

Lemma oauth_step_ok e ev notes w :
  known e -> flow_inv notes w -> let '(new, w') := oauth_step env e ev w in step_ok notes new w'.
Proof.
  intros He Hi. destruct ev as [id c|id|i]; cbn [oauth_step]; [| |by apply poll_ok].
  - destruct (bool_decide _); [quiet w|].
    pose proof (begin_ok e id c notes w Hi) as H. by destruct (begin_call e id c w) as [[]].
  - pose proof (resume_ok e id notes w He Hi) as H. by destruct (resume_call env e id w) as [[]].
Qed.

Lemma run_justified run : Forall (fun ev => known ev.1) run -> forall notes w before note after,
  flow_inv notes w -> (oauth_run env w run).1 = before ++ note :: after -> justified known (notes ++ before) note.
Proof.
  induction 1 as [|[e ev] run He _ IH]; intros notes w before note after Hi; cbn [oauth_run]; [by destruct before|].
  pose proof (oauth_step_ok e ev notes w He Hi) as H. destruct (oauth_step env e ev w) as [new w1].
  specialize (IH (notes ++ new) w1). destruct (oauth_run env w1 run) as [rest w2]. cbn [fst] in *.
  destruct H as [Hi1 [->|(n & -> & Hj)]].
  - rewrite app_nil_r in *. cbn [app]. by apply IH.
  - destruct before as [|n' before]; cbn [app].
    + intros [= -> _]. by rewrite app_nil_r.
    + intros [= -> ->]. change (notes ++ n' :: before) with (notes ++ [n'] ++ before). rewrite app_assoc. by eapply IH.
Qed.

End known.

(** Logins belong to the flow that was begun here: in any interleaving of
    calls, callbacks and polling, a callback is accepted only with the state
    of the flow in course, which the last start drew and nobody has stopped or
    replaced; and a login by callback follows a callback accepted so, with
    tokens that the provider gave for the code of that callback and the
    verifier of the flow it was accepted in. (C6) *)
Theorem login_bound_to_flow t run before note after :
  (oauth_run env (initial_world t) run).1 = before ++ note :: after ->
  match note with
  | Accepted x => current_flow before = Some (exchange_state x, exchange_verifier x)
  | Login (ByCallback x) tokens =>
      exists earlier between verifier e,
        before = earlier ++ Accepted x :: between /\ current_flow earlier = Some (exchange_state x, verifier) /\
        e ∈ fst <$> run /\
        exchange_authorization_code (provider e)
          (mkCodeRequest (exchange_code x) verifier (Some (oauth_redirect_uri env))) = inr tokens
  | _ => True
  end.
Proof.
  intros H. assert (flow_inv [] (initial_world t)) as Hi.
  { split; [by split|]. cbn. intros id callback x. by rewrite lookup_empty. }
  assert (Forall (fun ev => ev.1 ∈ fst <$> run) run) as Hk.
  { apply Forall_forall. intros ev Hev. by apply list_elem_of_fmap_2. }
  pose proof (run_justified (fun e => e ∈ fst <$> run) run Hk [] _ before note after Hi H) as Hj. cbn [app] in Hj. destruct note as [| |x|[x|] tokens]; try done.
  destruct Hj as [Hx (e & He & Ht)]. apply list_elem_of_split in Hx as (earlier & between & ->).
  rewrite <- app_assoc in H. pose proof (run_justified (fun e => e ∈ fst <$> run) run Hk [] _ earlier (Accepted x) _ Hi H) as Hx.
  by exists earlier, between, (exchange_verifier x), e.
Qed.

(** ** Success means an account *)

Definition stored (w : OAuthWorld) : Prop := rows (oauth_accounts w) <> [].

Lemma listed_stored runs t : list_accounts runs t <> [] -> rows t <> [].
Proof. intros H Hr. apply H. unfold list_accounts. rewrite Hr. by destruct (negb _ || negb _). Qed.

Lemma upsert_stores runs crypto nonce account now t record t' :
  upsert_oauth_account runs crypto nonce account now t = (record, t') ->
  (rows t <> [] -> rows t' <> []) /\ (is_Some record -> rows t' <> []).
Proof.
  unfold upsert_oauth_account. cbv zeta. repeat case_match; intros [= <- <-]; try (split; [done|intros Hs; by apply is_Some_None in Hs]).
  - assert (rows t <> []) as Hne.
    { intros E. lazymatch goal with H : List.find _ _ = Some _ |- _ => by rewrite E in H end. }
    cbn. split; intros _ Hn%fmap_nil_inv; done.
  - unfold insert_account. cbn. split; intros _ Hn%app_eq_nil; by destruct Hn.
Qed.

Lemma persist_stores e given tokens t :
  let '(persisted, t') := persist_tokens e given tokens t in
  (rows t <> [] -> rows t' <> []) /\ (persisted = true -> rows t' <> []).
Proof.
  unfold persist_tokens. destruct (given || _); [|done].
  lazymatch goal with |- context [upsert_oauth_account ?r ?c ?n ?a ?now ?t] =>
    destruct (upsert_oauth_account r c n a now t) as [record t'] eqn:E end.
  destruct (upsert_stores _ _ _ _ _ _ _ _ E) as [H1 H2]. split; [done|]. destruct record; [|done]. intros _. apply H2. by eexists.
Qed.

(** Nothing that succeeded, or is about to. *)
Record unsuccessful (w : OAuthWorld) : Prop := {
  no_success : status (oauth_state w) <> $"success";
  no_succeeding : forall id callback, calls w !! id <> Some (Succeeding callback);
  no_finishing : forall i th, threads w !! i = Some th -> phase th <> Finishing;
}.

Definition success_inv (w : OAuthWorld) : Prop := stored w \/ unsuccessful w.

Lemma keep_threads_stop (i : nat) (l : list PollThread) :
  (forall j th, l !! j = Some th -> phase th <> Finishing) ->
  forall j th, alter request_stop i l !! j = Some th -> phase th <> Finishing.
Proof.
  intros H j th. destruct (decide (i = j)) as [<-|Hne].
  - rewrite list_lookup_alter_eq. intros (th' & E & ->)%fmap_Some. exact (H i th' E).
  - rewrite list_lookup_alter_ne by done. apply H.
Qed.

Lemma keep_threads_insert (i : nat) (th' : PollThread) (l : list PollThread) :
  phase th' <> Finishing -> (forall j th, l !! j = Some th -> phase th <> Finishing) ->
  forall j th, <[i := th']> l !! j = Some th -> phase th <> Finishing.
Proof. intros Hp H j th Hl. apply list_lookup_insert_Some in Hl as [(-> & <- & _)|[_ ?]]; [done|by eapply H]. Qed.

Lemma keep_calls_insert id call (c : gmap nat InFlight) :
  match call with Succeeding _ => False | _ => True end ->
  (forall i callback, c !! i <> Some (Succeeding callback)) ->
  forall i callback, <[id := call]> c !! i <> Some (Succeeding callback).
Proof.
  intros Hc H i callback. destruct (decide (id = i)) as [<-|Hne].
  - rewrite lookup_insert_eq. by intros [= ->].
  - by rewrite lookup_insert_ne.
Qed.

Lemma keep_calls_delete id (c : gmap nat InFlight) :
  (forall i callback, c !! i <> Some (Succeeding callback)) ->
  forall i callback, delete id c !! i <> Some (Succeeding callback).
Proof. intros H i callback [_ ?]%lookup_delete_Some. by eapply H. Qed.

Lemma stop_section_unsuccessful w :
  let '(_, w') := stop_poll_thread w in
  oauth_accounts w' = oauth_accounts w /\ (unsuccessful w -> unsuccessful w').
Proof.
  unfold stop_poll_thread. destruct (poll_thread_state w) as [i|]; (split; [done|]); intros []; split; try done.
  cbn. by apply keep_threads_stop.
Qed.

Ltac unsuccessful_step H :=
  destruct H as [? ? ?]; split; cbn;
  [done|try done; try (by apply keep_calls_insert); try (by apply keep_calls_delete)
  |try done; try (by apply keep_threads_insert); try (by apply keep_threads_stop)].

Lemma begin_success e id c w :
  success_inv w -> let '(_, _, w') := begin_call e id c w in success_inv w'.
Proof.
  assert (forall method, success_inv w -> let '(_, _, w') := begin_start e id method w in success_inv w') as Hstart.
  { intros method H. unfold begin_start. destruct (_ && has_existing_accounts _ _ _) eqn:Ee.
    - left. apply andb_true_iff in Ee as [_ Ee]. unfold has_existing_accounts in Ee. destruct (_ || _); [|done].
      apply negb_true_iff, bool_decide_eq_false in Ee. by eapply listed_stored.
    - clear Ee. destruct (bool_decide _).
      + destruct (request_device_code _); [done|]. destruct H as [H|H]; [by left|right]. unsuccessful_step H.
      + pose proof (stop_section_unsuccessful w) as Hs. destruct (stop_poll_thread w) as [joined w1]. destruct Hs as [Ea Hs].
        destruct H as [H|H]; [left; unfold stored in *; cbn; by rewrite Ea|right]. specialize (Hs H). unsuccessful_step Hs. }
  assert (forall callback fields, success_inv w -> let '(_, _, w') := begin_callback id callback fields w in success_inv w') as Hcb.
  { intros callback fields H. unfold begin_callback, callback_begin. repeat case_match; simplify_eq;
      (destruct H as [H|H]; [by left|right; unsuccessful_step H]). }
  intros H. destruct c as [method| | | |request|url|code state error]; cbn [begin_call].
  - destruct (oauth_opened e); [by apply Hstart|done].
  - done.
  - pose proof (stop_section_unsuccessful w) as Hs. destruct (stop_poll_thread w) as [joined w1]. destruct Hs as [Ea Hs].
    destruct H as [H|H]; [left; unfold stored in *; cbn; by rewrite Ea|right]. specialize (Hs H). unsuccessful_step Hs.
  - destruct (oauth_opened e); [by apply Hstart|done].
  - unfold complete_begin. cbv zeta. repeat case_match; simplify_eq;
      (destruct H as [H|H]; [by left|right; unsuccessful_step H]).
  - destruct (oauth_opened e); [by apply Hcb|done].
  - destruct (oauth_opened e); [by apply Hcb|done].
Qed.

Lemma resume_success e id w :
  success_inv w -> let '(_, _, w') := resume_call env e id w in success_inv w'.
Proof.
  intros H. unfold resume_call. cbv zeta. destruct (calls w !! id) as [[[|path] joined| |callback x|callback]|] eqn:Ec; [| | | | |done].
  - destruct (negb (joinable_now joined w)); [done|]. destruct H as [H|H]; [by left|right]. unfold stop_end.
    destruct H as [Hn ? ?]; split; cbn; [by case_match|by apply keep_calls_delete|done].
  - destruct (negb (joinable_now joined w)); [done|]. destruct H as [H|H]; [by left|right]. unsuccessful_step H.
  - destruct (negb (joinable_now (poll_thread_state w) w)).
    + destruct (poll_thread_state w); [|done]. destruct H as [H|H]; [by left|right]. unsuccessful_step H.
    + destruct H as [H|H]; [by left|right]. destruct H as [? ? Ht]; split; cbn; [done|by apply keep_calls_delete|].
      intros i th [Hi|[_ [_ <-]%list_lookup_singleton_Some]]%lookup_app_Some; [by eapply Ht|done].
  - unfold callback_exchange. destruct (exchange_authorization_code _ _) as [error|tokens].
    + destruct H as [H|H]; [by left|right]. unsuccessful_step H.
    + pose proof (persist_stores e true tokens (oauth_accounts w)) as Hp.
      destruct (persist_tokens e true tokens (oauth_accounts w)) as [[] t]; destruct Hp as [Hp1 Hp2].
      * left. by apply Hp2.
      * destruct H as [H|H]; [left; by apply Hp1|right]. unsuccessful_step H.
  - destruct H as [H|H]; [by left|]. by destruct (no_succeeding _ H id callback).
Qed.

Lemma poll_success e i w : success_inv w -> let '(_, w') := poll_step env e i w in success_inv w'.
Proof.
  intros H. unfold poll_step. cbv zeta. destruct (threads w !! i) as [th|] eqn:Et; [|done].
  destruct (phase th) as [|auth_id code interval expires_at|auth_id code tokens| |] eqn:Ep; [| | | |done].
  - unfold poll_check. repeat case_match; simplify_eq; (destruct H as [H|H]; [by left|right; unsuccessful_step H]).
  - unfold poll_ask. repeat case_match; simplify_eq; (destruct H as [H|H]; [by left|right; unsuccessful_step H]).
  - pose proof (persist_stores e false tokens (oauth_accounts w)) as Hp.
    destruct (persist_tokens e false tokens (oauth_accounts w)) as [[] t]; destruct Hp as [Hp1 Hp2].
    + left. by apply Hp2.
    + destruct H as [H|H]; [left; by apply Hp1|right]. unsuccessful_step H.
  - destruct H as [H|H]; [by left|]. by destruct (no_finishing _ H i th).
Qed.

Lemma run_success run : forall w, success_inv w -> success_inv (oauth_run env w run).2.
Proof.
  induction run as [|[e ev] run IH]; intros w H; [done|]. cbn [oauth_run].
  assert (success_inv (oauth_step env e ev w).2) as H1.
  { destruct ev as [id c|id|i]; cbn [oauth_step].
    - destruct (bool_decide _); [done|]. pose proof (begin_success e id c w H) as Hb. by destruct (begin_call e id c w) as [[]].
    - pose proof (resume_success e id w H) as Hb. by destruct (resume_call env e id w) as [[]].
    - pose proof (poll_success e i w H) as Hb. by destruct (poll_step env e i w). }
  destruct (oauth_step env e ev w) as [notes w1]. specialize (IH w1 H1). by destruct (oauth_run env w1 run).
Qed.

(** The service tells success only when there is an account: in any
    interleaving from the beginning, a status of success means that the table
    holds one. *)
Theorem success_has_account t run :
  let w := (oauth_run env (initial_world t) run).2 in
  oauth_status (told (oauth_state w)) = $"success" -> rows (oauth_accounts w) <> [].
Proof.
  intros w. assert (success_inv w) as [H|H].
  { apply run_success. right. split; [done|intros; cbn; by rewrite lookup_empty|done]. }
  - done.
  - unfold told. cbn. case_bool_decide; [done|]. intros Hs. by destruct (no_success _ H).
Qed.

(** ** A thread that is stopped ends *)

Definition rank (p : PollPhase) : nat :=
  match p with Ended => 0 | Checking => 1 | Finishing => 1 | Storing _ _ _ => 2 | Asking _ _ _ _ => 3 end%nat.

Definition stopping (i : nat) (n : nat) (w : OAuthWorld) : Prop :=
  exists th, threads w !! i = Some th /\ stop_requested th = true /\ (rank (phase th) <= n)%nat.

Lemma stopping_alter (i j n : nat) (l : list PollThread) (th : PollThread) :
  l !! i = Some th -> stop_requested th = true -> (rank (phase th) <= n)%nat ->
  exists th', alter request_stop j l !! i = Some th' /\ stop_requested th' = true /\ (rank (phase th') <= n)%nat.
Proof.
  intros H1 H2 H3. destruct (decide (j = i)) as [->|Hne].
  - rewrite list_lookup_alter_eq, H1. by eexists.
  - rewrite list_lookup_alter_ne by done. by eexists.
Qed.

Lemma stop_section_stopping i n w :
  stopping i n w -> let '(_, w') := stop_poll_thread w in stopping i n w'.
Proof.
  intros (th & H1 & H2 & H3). unfold stop_poll_thread. destruct (poll_thread_state w) as [j|]; [|by exists th].
  unfold stopping. cbn. by eapply stopping_alter.
Qed.

Lemma begin_stopping e id c i n w :
  stopping i n w -> let '(_, _, w') := begin_call e id c w in stopping i n w'.
Proof.
  intros H. pose proof (stop_section_stopping i n w H) as Hs.
  destruct c as [method| | | |request|url|code state error]; cbn [begin_call]; unfold begin_start, begin_callback; cbv zeta;
    repeat case_match; simplify_eq; try done; exact H.
Qed.

Lemma resume_stopping e id i n w :
  stopping i n w -> let '(_, _, w') := resume_call env e id w in stopping i n w'.
Proof.
  intros Hs. unfold resume_call. cbv zeta. repeat case_match; simplify_eq; try done; try exact Hs.
  - destruct Hs as (th & Ht & ? & ?). unfold stopping. cbn. by eapply stopping_alter.
  - destruct Hs as (th & Ht & ? & ?). exists th. split; [|done]. cbn. by apply lookup_app_l_Some.
Qed.

Lemma poll_stopping e i j n w :
  stopping i n w -> let '(_, w') := poll_step env e j w in stopping i (if bool_decide (i = j) then pred n else n) w'.
Proof.
  intros (th & H1 & H2 & H3). unfold poll_step. cbv zeta. case_bool_decide as Ej.
  - subst j. rewrite H1. assert (forall p w1, threads w1 = threads w -> (rank p < rank (phase th))%nat ->
      forall s, stopping i (pred n) (with_oauth s (with_threads (<[i := in_phase p th]> (threads w1)) (poll_thread_state w1) w1))) as Hm.
    { intros p w1 Ew Hp s. unfold stopping. cbn. rewrite Ew. exists (in_phase p th). split; [|split; [done|cbn; lia]].
      apply list_lookup_insert_eq. by eapply lookup_lt_Some. }
    destruct (phase th) as [|auth_id code interval expires_at|auth_id code tokens| |] eqn:Ep; cbn [rank] in *.
    + unfold poll_check. rewrite H2. apply Hm; [done|cbn; lia].
    + unfold poll_ask. repeat case_match; simplify_eq; (apply Hm; [done|cbn; lia]).
    + destruct (persist_tokens e false tokens (oauth_accounts w)) as [[] t]; (apply (Hm _ (with_oauth_accounts t w)); [done|cbn; lia]).
    + apply Hm; [done|cbn; lia].
    + exists th. split; [done|]. split; [done|]. rewrite Ep. cbn. lia.
  - assert (forall th' w1 s, threads w1 = threads w ->
      stopping i n (with_oauth s (with_threads (<[j := th']> (threads w1)) (poll_thread_state w1) w1))) as Hm.
    { intros th' w1 s Ew. exists th. cbn. rewrite Ew. by rewrite list_lookup_insert_ne. }
    destruct (threads w !! j) as [th'|]; [|by exists th]. destruct (phase th'); [| | | |by exists th].
    + destruct (poll_check _ _). by apply Hm.
    + destruct (poll_ask _ _ _ _ _ _). by apply Hm.
    + destruct (persist_tokens e false tokens (oauth_accounts w)) as [[] t]; by apply (Hm _ (with_oauth_accounts t w)).
    + by apply Hm.
Qed.

(** How often the schedule lets a thread run. *)
Definition is_turn (i : nat) (ev : Event) : bool := match ev with Poll j => bool_decide (i = j) | _ => false end.

Definition turns (i : nat) (run : list (OAuthEnv * Event)) : nat :=
  length (filter (fun e => is_turn i e.2 = true) run).

(** A join returns: a polling thread that was asked to stop has ended after
    three turns, whatever it was doing, whatever the provider answers and
    whatever other calls do meanwhile. (C25) *)
Theorem stopped_polling_ends w i th run :
  threads w !! i = Some th -> stop_requested th = true -> (3 <= turns i run)%nat ->
  ended <$> threads (oauth_run env w run).2 !! i = Some true.
Proof.
  intros H1 H2. enough (forall run n w, stopping i n w -> (n <= turns i run)%nat ->
    ended <$> threads (oauth_run env w run).2 !! i = Some true) as Hall.
  { intros H3. apply (Hall run 3%nat w); [|done]. exists th. split; [done|]. split; [done|]. destruct (phase th); cbn; lia. }
  clear. induction run as [|[e ev] run IH]; intros n w Hs Hn; cbn [oauth_run].
  - destruct Hs as (th & H1 & H2 & H3). unfold turns in Hn. cbn in *. rewrite H1. cbn. unfold ended.
    destruct (phase th); cbn in H3; try lia. done.
  - assert (exists n', stopping i n' (oauth_step env e ev w).2 /\ (n' <= turns i run)%nat) as (n' & Hs' & Hn').
    { unfold turns in *. rewrite filter_cons in Hn. cbn [snd] in Hn. destruct ev as [id c|id|j]; cbn [oauth_step].
      - exists n. rewrite decide_False in Hn by done. split; [|done]. destruct (bool_decide _); [done|].
        pose proof (begin_stopping e id c i n w Hs) as Hb. by destruct (begin_call e id c w) as [[]].
      - exists n. rewrite decide_False in Hn by done. split; [|done].
        pose proof (resume_stopping e id i n w Hs) as Hb. by destruct (resume_call env e id w) as [[]].
      - pose proof (poll_stopping e i j n w Hs) as Hb. destruct (poll_step env e j w) as [notes w1].
        eexists. split; [exact Hb|]. cbn [is_turn] in Hn. destruct (bool_decide (i = j)); [rewrite decide_True in Hn by done|rewrite decide_False in Hn by done];
          cbn [length] in Hn; lia. }
    destruct (oauth_step env e ev w) as [notes w1]. specialize (IH n' w1 Hs' Hn'). by destruct (oauth_run env w1 run).
Qed.

End laws.

(** ** Runs on concrete inputs *)

Definition identity_base64 : Base64 := {| mbedtls_base64_encode := Some; mbedtls_base64_decode := Some |}.

Definition no_codec : JsonCodec := {| read_json := fun _ => None; write_json := fun _ => None |}.

(** A provider that takes a code once it is told to, and grants devices. *)
Definition sample_provider (takes : bool) : ProviderClient :=
  mkProviderClient (ok (mkDeviceCode $"https://example.com/device" $"ABCD" $"device-1" 1 600))
    (fun request => if takes && bool_decide (request_code request = $"good") then ok (mkTokens $"access" $"refresh" $"id")
                    else fail (mkOAuthError $"invalid_grant" $"Code was used" 400))
    (fun _ => ok (mkTokens $"access" $"refresh" $"id"))
    (fun _ => mkPollResult Tokens (Some (mkTokens $"access" $"refresh" $"id")) None None None).

Definition sample_oauth_env (takes : bool) : OAuthEnv :=
  mkOAuthEnv (sample_provider takes) 0 (fun n => to_string (Z.of_nat n) ++ $"-f") true None [] (fun _ => true)
    (@configure_token_storage_session_passphrase plain_digest $"passphrase") (fun _ => replicate 24 Byte.x01) 7.

Definition sample_world (run : list (OAuthEnv * Event)) : list Note * OAuthWorld :=
  @oauth_run identity_base64 plain_digest no_codec plain_sodium (fun _ => None) (initial_world empty_accounts) run.

Definition browser_start : list (OAuthEnv * Event) :=
  [(sample_oauth_env true, Begin 1 (StartCall (Some $"browser"))); (sample_oauth_env true, Resume 1)].

Definition browser_login : list (OAuthEnv * Event) :=
  [(sample_oauth_env true, Begin 2 (BrowserCall $"good" $"0f" [])); (sample_oauth_env true, Resume 2);
   (sample_oauth_env true, Resume 2)].

Definition device_start : list (OAuthEnv * Event) := [(sample_oauth_env true, Begin 1 (StartCall (Some $"Device")))].

Definition device_login : list (OAuthEnv * Event) :=
  [(sample_oauth_env true, Begin 3 (CompleteCall (mkComplete None None))); (sample_oauth_env true, Resume 3);
   (sample_oauth_env true, Poll 0); (sample_oauth_env true, Poll 0); (sample_oauth_env true, Poll 0); (sample_oauth_env true, Poll 0)].

Definition sample_exchange : Exchange := mkExchange $"good" $"1f2f" $"0f".

Lemma login_bound_to_flow_witness :
  (sample_world (browser_start ++ browser_login)).1 =
    [Opened $"0f" $"1f2f"; Accepted sample_exchange] ++ [Login (ByCallback sample_exchange) (mkTokens $"access" $"refresh" $"id")] /\
  exists earlier between verifier e,
    [Opened $"0f" $"1f2f"; Accepted sample_exchange] = earlier ++ Accepted sample_exchange :: between /\
    current_flow earlier = Some ($"0f", verifier) /\ e ∈ fst <$> browser_start ++ browser_login /\
    exchange_authorization_code (provider e) (mkCodeRequest $"good" verifier (Some (oauth_redirect_uri (fun _ => None)))) =
      inr (mkTokens $"access" $"refresh" $"id").
Proof.
  assert ((sample_world (browser_start ++ browser_login)).1 =
    [Opened $"0f" $"1f2f"; Accepted sample_exchange] ++ [Login (ByCallback sample_exchange) (mkTokens $"access" $"refresh" $"id")]) as E
    by (vm_compute; reflexivity).
  split; [exact E|].
  exact (@login_bound_to_flow identity_base64 plain_digest no_codec plain_sodium (fun _ => None) empty_accounts
    (browser_start ++ browser_login) _ _ _ E).
Defined.

Lemma success_has_account_witness :
  oauth_status (told (oauth_state (sample_world (device_start ++ device_login)).2)) = $"success" /\
  rows (oauth_accounts (sample_world (device_start ++ device_login)).2) <> [].
Proof.
  assert (oauth_status (told (oauth_state (sample_world (device_start ++ device_login)).2)) = $"success") as E
    by (vm_compute; reflexivity).
  split; [exact E|].
  exact (@success_has_account identity_base64 plain_digest no_codec plain_sodium (fun _ => None) empty_accounts
    (device_start ++ device_login) E).
Defined.

(** A thread that waits for the provider while its flow is stopped. *)
Definition asking_world : OAuthWorld :=
  (sample_world (device_start ++ take 3 device_login ++ [(sample_oauth_env true, Begin 4 StopCall)])).2.

Lemma stopped_polling_ends_witness :
  (exists th, threads asking_world !! 0%nat = Some th /\ stop_requested th = true /\ ended th = false) /\
  ended <$> threads (@oauth_run identity_base64 plain_digest no_codec plain_sodium (fun _ => None) asking_world
                       (replicate 3 (sample_oauth_env true, Poll 0))).2 !! 0%nat = Some true.
Proof.
  assert (threads asking_world !! 0%nat = Some (mkThread (Asking $"device-1" $"ABCD" 1 (600 * 10 ^ 9)) true)) as E
    by (vm_compute; reflexivity).
  split; [eexists; split; [exact E|]; by split|].
  refine (@stopped_polling_ends identity_base64 plain_digest no_codec plain_sodium (fun _ => None) asking_world 0 _
    (replicate 3 (sample_oauth_env true, Poll 0)) E eq_refl _).
  vm_compute. lia.
Defined.

(** ** Where the flows surprise *)

Definition sample_status (run : list (OAuthEnv * Event)) : bytes := oauth_status (told (oauth_state (sample_world run).2)).

(** Anybody who can reach the callback ends the flow of somebody else: an
    error is believed without the state of the flow. *)
Lemma stateless_error_ends_flow :
  sample_status browser_start = $"pending" /\
  sample_status (browser_start ++ [(sample_oauth_env true, Begin 2 (BrowserCall [] [] $"access_denied"))]) = $"error".
Proof. vm_compute. by split. Qed.

(** The state of a flow is not used up by its login: when the page of the
    callback is loaded again, the provider refuses the code and the login that
    succeeded is told to have failed. *)
Lemma repeated_callback_hides_success :
  sample_status (browser_start ++ browser_login) = $"success" /\
  sample_status (browser_start ++ browser_login ++
    [(sample_oauth_env false, Begin 5 (BrowserCall $"good" $"0f" [])); (sample_oauth_env false, Resume 5)]) = $"error".
Proof. vm_compute. by split. Qed.

(** A device flow that was stopped can still be completed: stopping keeps its
    codes, and completing does not look at the status. *)
Lemma stopped_device_flow_completes :
  let stop := [(sample_oauth_env true, Begin 2 StopCall); (sample_oauth_env true, Resume 2)] in
  sample_status (device_start ++ stop) = $"stopped" /\ sample_status (device_start ++ stop ++ device_login) = $"success".
Proof. vm_compute. by split. Qed.

(** A login tells its success to whatever flow is in course when it ends: a
    flow that was started meanwhile succeeds without anybody's consent. *)
Lemma late_login_succeeds_new_flow :
  let again := [(sample_oauth_env true, Begin 6 RestartCall); (sample_oauth_env true, Resume 6)] in
  sample_status (browser_start ++ take 2 browser_login ++ again) = $"pending" /\
  sample_status (browser_start ++ take 2 browser_login ++ again ++ drop 2 browser_login) = $"success".
Proof. vm_compute. by split. Qed.
