(* ===== verification/TokenRefresh.v ===== *)
(** * TokenRefresh: keeping the tokens of accounts fresh

    src/native/auth/oauth/src/token_refresh.cpp exchanges the refresh token of
    an account; src/native/server/src/token_refresh_scheduler.cpp sweeps over
    the accounts and does so for those that are due.  The columns of the
    schedule stand beside the rows of [Accounts], which nobody else reads. *)

From S2P Require Import Prelude Text Except Env Fernet TokenStore Accounts Pricing OAuthProvider.
Import Text.Ascii.

(** ** The columns *)

Record RefreshColumns := mkColumns {
  token_refresh_last_success_at_ms : option Z;
  token_refresh_next_due_at_ms : option Z;
  token_refresh_needs_attention : Z;
  token_refresh_last_error : option bytes;
}.

Definition default_columns : RefreshColumns := mkColumns None None 0 None.

Record RefreshTable := mkRefresh { refresh_accounts : accounts_table; refresh_columns : gmap Z RefreshColumns }.

Definition columns_of (account_id : Z) (t : RefreshTable) : RefreshColumns :=
  default default_columns (refresh_columns t !! account_id).

Inductive RefreshStatement := RefreshSchema | FindTokens | StoreMigrated | StoreRefreshed | LoadCandidates | MarkAttention.

(** ** token_refresh.cpp *)

Record StoredTokenRecord := mkStoredTokens { stored_id : Z; stored_refresh_token : bytes; stored_id_token : bytes }.

Record RefreshAccessTokenResult := mkRefreshResult { refreshed : bool; refresh_error_code : bytes; refresh_error_message : bytes }.

Definition refresh_failure (code message : bytes) : RefreshAccessTokenResult := mkRefreshResult false code message.

Definition sqlite_text_or_empty (text : option bytes) : bytes := c_str (default [] text).

(** What one refresh asks the world for. *)
Record RefreshEnv := mkRefreshEnv {
  refresh_runs : RefreshStatement -> bool;
  refresh_crypto : TokenStorageCryptoState;
  refresh_nonce : nat -> bytes;
  refresh_now_s : Z;
  answer : bytes -> ProviderResult OAuthTokens;
}.

Section refresh.
Context {sodium : Sodium}.

Definition set_accounts (rs : list AccountRow) (t : RefreshTable) : RefreshTable :=
  mkRefresh (mkAccounts rs (next_id (refresh_accounts t))) (refresh_columns t).

Definition update_row (account_id : Z) (f : AccountRow -> AccountRow) (t : RefreshTable) : RefreshTable :=
  set_accounts ((fun r => if has_id account_id r then f r else r) <$> rows (refresh_accounts t)) t.

Definition set_columns (account_id : Z) (c : RefreshColumns) (t : RefreshTable) : RefreshTable :=
  mkRefresh (refresh_accounts t) (<[account_id := c]> (refresh_columns t)).

Definition persist_migrated_stored_tokens (e : RefreshEnv) (account_id : Z) (refresh_token_stored id_token_stored : bytes)
    (t : RefreshTable) : bool * RefreshTable :=
  if (account_id <=? 0) || bool_decide (refresh_token_stored = []) || negb (refresh_runs e StoreMigrated) then (false, t)
  else (true, update_row account_id
                (fun r => set_tokens (access_token_encrypted r) (Some (c_str refresh_token_stored))
                            (Some (c_str id_token_stored)) (refresh_now_s e) r) t).

Definition active_with (account : bytes) (r : AccountRow) : bool :=
  has_chatgpt_id (c_str account) r && bool_decide (status r = $"active").

Definition find_active_account_tokens (e : RefreshEnv) (account : bytes) (t : RefreshTable) :
    option StoredTokenRecord * RefreshTable :=
  if bool_decide (account = []) || negb (refresh_runs e RefreshSchema) || negb (refresh_runs e FindTokens) then (None, t)
  else match List.find (active_with account) (rows (refresh_accounts t)) with
  | None => (None, t)
  | Some r =>
      let refresh_token := sqlite_text_or_empty (refresh_token_encrypted r) in
      let id_token := sqlite_text_or_empty (id_token_encrypted r) in
      if (id r <=? 0) || bool_decide (refresh_token = []) then (None, t)
      else match migrate_plaintext_token_for_storage (refresh_crypto e) (refresh_nonce e 0%nat) refresh_token with
      | Throw _ => (None, t)
      | Ret (refresh_token_stored, refresh_migrated) =>
          if bool_decide (refresh_token_stored = []) then (None, t)
          else match (if bool_decide (id_token = []) then Ret ([], false)
                      else migrate_plaintext_token_for_storage (refresh_crypto e) (refresh_nonce e 1%nat) id_token) with
          | Throw _ => (None, t)
          | Ret (id_token_stored, id_migrated) =>
              let '(kept, t) :=
                if refresh_migrated || id_migrated
                then persist_migrated_stored_tokens e (id r) refresh_token_stored id_token_stored t else (true, t) in
              if negb kept then (None, t)
              else match decrypt_token_from_storage (refresh_crypto e) refresh_token_stored with
              | Throw _ => (None, t)
              | Ret refresh_token =>
                  if bool_decide (refresh_token = []) then (None, t)
                  else match (if bool_decide (id_token = []) then Ret []
                              else decrypt_token_from_storage (refresh_crypto e) id_token_stored) with
                  | Throw _ => (None, t)
                  | Ret id_token => (Some (mkStoredTokens (id r) refresh_token id_token), t)
                  end
              end
          end
      end
  end.

Definition set_refreshed (access refresh id_token : bytes) (now : Z) (r : AccountRow) : AccountRow :=
  mkAccountRow (id r) (email r) (provider r) (chatgpt_account_id r) (plan_type r) (Some (c_str access))
    (Some (c_str refresh)) (Some (c_str id_token)) (Some now) $"active" (quota_primary_percent r) (quota_secondary_percent r)
    (quota_primary_limit_window_seconds r) (quota_secondary_limit_window_seconds r) (quota_primary_reset_at_ms r)
    (quota_secondary_reset_at_ms r) (usage_telemetry_refreshed_at r) (routing_pinned r) now.

Definition kSuccessDueMs : Z := 86400000.

Definition update_account_tokens (e : RefreshEnv) (account_id : Z) (tokens : OAuthTokens) (fallback_id_token : bytes)
    (t : RefreshTable) : bool * RefreshTable :=
  if (account_id <=? 0) || bool_decide (access_token tokens = []) || bool_decide (refresh_token tokens = []) then (false, t)
  else
    let id_token := if bool_decide (id_token tokens = []) then fallback_id_token else id_token tokens in
    match encrypt_token_for_storage (refresh_crypto e) (refresh_nonce e 2%nat) (access_token tokens),
          encrypt_token_for_storage (refresh_crypto e) (refresh_nonce e 3%nat) (refresh_token tokens),
          encrypt_token_for_storage (refresh_crypto e) (refresh_nonce e 4%nat) id_token with
    | Ret access, Ret refresh, Ret id_token =>
        if negb (refresh_runs e StoreRefreshed) then (false, t)
        else if bool_decide (List.find (has_id account_id) (rows (refresh_accounts t)) = None) then (false, t)
        else
          let now_ms := refresh_now_s e * 1000 in
          (true, set_columns account_id (mkColumns (Some now_ms) (Some (now_ms + kSuccessDueMs)) 0 None)
                   (update_row account_id (set_refreshed access refresh id_token (refresh_now_s e)) t))
    | _, _, _ => (false, t)
    end.

(** What follows the answer of the provider; other calls may come between. *)
Definition refresh_end (e : RefreshEnv) (stored : StoredTokenRecord) (t : RefreshTable) :
    RefreshAccessTokenResult * RefreshTable :=
  match answer e (stored_refresh_token stored) with
  | inl error => (refresh_failure (error_code error) (error_message error), t)
  | inr tokens =>
      let '(updated, t) := update_account_tokens e (stored_id stored) tokens (stored_id_token stored) t in
      (if updated then mkRefreshResult true [] []
       else refresh_failure $"persist_failed" $"Failed to persist refreshed OAuth tokens", t)
  end.

Definition refresh_access_token_for_account (e : RefreshEnv) (account : bytes) (t : RefreshTable) :
    RefreshAccessTokenResult * RefreshTable :=
  if bool_decide (account = []) then (refresh_failure $"invalid_account" $"chatgpt-account-id is required", t)
  else match find_active_account_tokens e account t with
       | (None, t) => (refresh_failure $"account_not_found" $"Active account tokens were not found", t)
       | (Some stored, t) => refresh_end e stored t
       end.

(** ** token_refresh_scheduler.cpp *)

Record SchedulerConfig := mkConfig {
  startup_delay_ms : Z;
  startup_stale_after_ms : Z;
  periodic_check_interval_ms : Z;
  success_cycle_ms : Z;
  failure_retry_ms : Z;
  stop_poll_interval_ms : Z;
}.

Definition default_config : SchedulerConfig :=
  mkConfig 2000 (4 * 60 * 60 * 1000) (15 * 60 * 1000) (24 * 60 * 60 * 1000) (4 * 60 * 60 * 1000) 1000.

Inductive SweepMode := Startup | Periodic.

Record SweepResult := mkSweep { scanned : Z; due : Z; sweep_refreshed : Z; failed : Z }.

Definition parse_positive_i64 (value : option bytes) : option Z :=
  match value with
  | None | Some [] => None
  | Some value =>
      match from_chars true (- 2 ^ 63) (2 ^ 63 - 1) value with
      | Some parsed => if parsed <=? 0 then None else Some parsed
      | None => None
      end
  end.

Definition env_positive_i64 (env : environment) (key : bytes) (fallback : Z) : Z :=
  default fallback (parse_positive_i64 (env key)).

Definition sanitize_config (raw : SchedulerConfig) : SchedulerConfig :=
  mkConfig (Z.max 0 (startup_delay_ms raw)) (Z.max 1 (startup_stale_after_ms raw)) (Z.max 1 (periodic_check_interval_ms raw))
    (Z.max 1 (success_cycle_ms raw)) (Z.max 1 (failure_retry_ms raw)) (Z.max 1 (stop_poll_interval_ms raw)).

Definition load_scheduler_config_from_env (env : environment) : SchedulerConfig :=
  let read key field := env_positive_i64 env key (field default_config) in
  sanitize_config
    (mkConfig (read $"TIGHTROPE_TOKEN_REFRESH_STARTUP_DELAY_MS" startup_delay_ms)
       (read $"TIGHTROPE_TOKEN_REFRESH_STARTUP_STALE_AFTER_MS" startup_stale_after_ms)
       (read $"TIGHTROPE_TOKEN_REFRESH_CHECK_INTERVAL_MS" periodic_check_interval_ms)
       (read $"TIGHTROPE_TOKEN_REFRESH_SUCCESS_CYCLE_MS" success_cycle_ms)
       (read $"TIGHTROPE_TOKEN_REFRESH_FAILURE_RETRY_MS" failure_retry_ms)
       (read $"TIGHTROPE_TOKEN_REFRESH_STOP_POLL_MS" stop_poll_interval_ms)).

Record RefreshCandidate := mkCandidate {
  candidate_account_id : Z;
  candidate_chatgpt_account_id : bytes;
  candidate_label : bytes;
  last_success_at_ms : option Z;
  next_due_at_ms : option Z;
}.

(** [trim] of SQL takes the spaces away, and no other characters. *)
Fixpoint skip_blanks (text : bytes) : bytes :=
  match text with
  | ch :: rest => if bool_decide (ch = Byte.x20) then skip_blanks rest else text
  | [] => []
  end.

Definition sql_trim (text : bytes) : bytes := reverse (skip_blanks (reverse (skip_blanks text))).

Definition refreshable (r : AccountRow) : bool :=
  bool_decide (status r = $"active") &&
  match chatgpt_account_id r with Some account => negb (bool_decide (sql_trim account = [])) | None => false end &&
  match refresh_token_encrypted r with Some token => negb (bool_decide (c_str token = [])) | None => false end.

Definition by_id (r r' : AccountRow) : Prop := id r <= id r'.
#[global] Instance by_id_dec : RelDecision by_id := fun r r' => Z_le_dec (id r) (id r').

Definition candidate_of (t : RefreshTable) (r : AccountRow) : option RefreshCandidate :=
  let account := trim_ascii (sqlite_text_or_empty (chatgpt_account_id r)) in
  let label := trim_ascii (sqlite_text_or_empty (email r)) in
  let c := columns_of (id r) t in
  let last_success_at_ms :=
    match token_refresh_last_success_at_ms c with
    | Some at_ms => Some at_ms
    | None => match last_refresh r with Some at_s => if 0 <? at_s then Some (at_s * 1000) else None | None => None end
    end in
  if (id r <=? 0) || bool_decide (account = []) then None
  else Some (mkCandidate (id r) account (if bool_decide (label = []) then to_string (id r) else label)
               last_success_at_ms (token_refresh_next_due_at_ms c)).

Definition load_refresh_candidates (runs : RefreshStatement -> bool) (t : RefreshTable) : list RefreshCandidate :=
  if negb (runs RefreshSchema) || negb (runs LoadCandidates) then []
  else omap (candidate_of t) (merge_sort by_id (filter (fun r => refreshable r = true) (rows (refresh_accounts t)))).

Definition due_for_startup (candidate : RefreshCandidate) (now : Z) (config : SchedulerConfig) : bool :=
  match last_success_at_ms candidate with
  | None => true
  | Some last => if now <=? last then false else startup_stale_after_ms config <=? now - last
  end.

Definition due_for_periodic (candidate : RefreshCandidate) (now : Z) (config : SchedulerConfig) : bool :=
  match next_due_at_ms candidate with
  | Some next => next <=? now
  | None => match last_success_at_ms candidate with
            | None => true
            | Some last => if now <=? last then false else success_cycle_ms config <=? now - last
            end
  end.

Definition is_due (mode : SweepMode) : RefreshCandidate -> Z -> SchedulerConfig -> bool :=
  match mode with Startup => due_for_startup | Periodic => due_for_periodic end.

Definition refresh_error_detail (r : RefreshAccessTokenResult) : bytes :=
  let code := trim_ascii (refresh_error_code r) in
  let message := trim_ascii (refresh_error_message r) in
  if bool_decide (code = []) && bool_decide (message = []) then $"token refresh failed"
  else if bool_decide (code = []) then message
  else if bool_decide (message = []) then code
  else code ++ $": " ++ message.

Definition mark_attention (runs : RefreshStatement -> bool) (now_s account_id next_due : Z) (error_detail : bytes)
    (t : RefreshTable) : bool * RefreshTable :=
  if (account_id <=? 0) || negb (runs MarkAttention) then (false, t)
  else if bool_decide (List.find (has_id account_id) (rows (refresh_accounts t)) = None) then (false, t)
  else
    let c := columns_of account_id t in
    (true, set_columns account_id
             (mkColumns (token_refresh_last_success_at_ms c) (Some next_due) 1 (Some (c_str (trim_ascii error_detail))))
             (update_row account_id (fun r => Accounts.set_pinned (routing_pinned r) now_s r) t)).

(** One candidate of the sweep; the refreshes have their own environments. *)
Definition sweep_candidate (env : Z -> RefreshEnv) (now : Z) (config : SchedulerConfig) (mode : SweepMode)
    (candidate : RefreshCandidate) (rt : SweepResult * RefreshTable) : SweepResult * RefreshTable :=
  let '(r, t) := rt in
  if negb (is_due mode candidate now config) then (r, t)
  else
    let e := env (candidate_account_id candidate) in
    let '(refresh, t) := refresh_access_token_for_account e (candidate_chatgpt_account_id candidate) t in
    if refreshed refresh then (mkSweep (scanned r) (due r + 1) (sweep_refreshed r + 1) (failed r), t)
    else
      let '(_, t) := mark_attention (refresh_runs e) (refresh_now_s e) (candidate_account_id candidate)
                       (now + failure_retry_ms config) (refresh_error_detail refresh) t in
      (mkSweep (scanned r) (due r + 1) (sweep_refreshed r) (failed r + 1), t).

Definition run_sweep_once (env : Z -> RefreshEnv) (runs : RefreshStatement -> bool) (now : Z) (raw_config : SchedulerConfig)
    (mode : SweepMode) (t : RefreshTable) : SweepResult * RefreshTable :=
  let config := sanitize_config raw_config in
  let candidates := load_refresh_candidates runs t in
  foldl (fun rt candidate => sweep_candidate env now config mode candidate rt)
    (mkSweep (size_of candidates) 0 0 0, t) candidates.

End refresh.

(** *** Waiting *)

(** The naps of a wait of [total] milliseconds: [fuel] bounds their number, a
    nap is cut short by the end of the wait. *)
Fixpoint naps (fuel : nat) (poll total slept : Z) : list Z :=
  match fuel with
  | O => []
  | S fuel =>
      if slept <? total
      then let step := Z.min poll (total - slept) in step :: naps fuel poll total (slept + step)
      else []
  end.

Definition wait (config : SchedulerConfig) (total : Z) : list Z := naps (Z.to_nat total) (stop_poll_interval_ms config) total 0.

(** [run_scheduler_loop] up to a stop: the naps before each sweep, and its
    mode; [rounds] is the number of periodic sweeps. *)
Definition run_scheduler_loop (raw_config : SchedulerConfig) (rounds : nat) : list (list Z * SweepMode) :=
  let config := sanitize_config raw_config in
  (wait config (startup_delay_ms config), Startup) ::
  replicate rounds (wait config (periodic_check_interval_ms config), Periodic).

(** ** Text in columns *)

Lemma c_str_no_nul s : Byte.x00 ∉ c_str s.
Proof.
  induction s as [|ch s IH]; cbn [c_str]; [by intros ?%elem_of_nil|]. case_bool_decide; [by intros ?%elem_of_nil|].
  intros [<-|?]%elem_of_cons; done.
Qed.

Lemma c_str_plain s : Byte.x00 ∉ s -> c_str s = s.
Proof.
  induction s as [|ch s IH]; [done|]. intros [H1 H2]%not_elem_of_cons. cbn [c_str]. rewrite bool_decide_false by done. by rewrite IH.
Qed.

Lemma c_str_idem s : c_str (c_str s) = c_str s.
Proof. apply c_str_plain, c_str_no_nul. Qed.

(** Base64 is text. *)
Class SodiumText (S : Sodium) := { bin2base64_text : forall data, Byte.x00 ∉ sodium_bin2base64 data }.

Section stored.
Context {sodium : Sodium} {digest : Digest} {laws : SodiumLaws sodium} {text : SodiumText sodium}.
Context (passphrase key : bytes) (derived : derive_session_key passphrase = Ret key).
Context (e : RefreshEnv) (nonces : forall n, length (refresh_nonce e n) = crypto_secretbox_NONCEBYTES).
Context (configured : refresh_crypto e = configure_token_storage_session_passphrase passphrase).

(** What a column holds: a token that is encrypted, or the token itself, as
    older versions stored it. *)
Definition token_of (stored : option bytes) : option bytes :=
  let text := sqlite_text_or_empty stored in
  if token_storage_value_is_encrypted text then to_option (decrypt_token_from_storage (refresh_crypto e) text) else Some text.

Lemma encrypt_reads n plaintext stored :
  encrypt_token_for_storage (refresh_crypto e) (refresh_nonce e n) plaintext = Ret stored ->
  c_str stored = stored /\ stored <> [] /\ token_storage_value_is_encrypted stored = true /\
  decrypt_token_from_storage (refresh_crypto e) stored = Ret plaintext.
Proof.
  intros E. rewrite configured in *. rewrite (configured_encrypt _ _ _ key) in E by done.
  destruct (passphrase_roundtrip _ _ _ _ (nonces n) E) as [He Hd]. split_and!; [|by intros ->|done|by rewrite (configured_decrypt _ _ key)].
  unfold encrypt_token_for_storage_with_passphrase in E. rewrite derived in E. unfold seal, encrypt_token in E.
  destruct (negb sodium_ready); [done|]. destruct (crypto_secretbox_easy _ _ _) as [c|]; [|done]. cbn [mbind option_bind] in E.
  assert (stored = kCipherPrefix ++ sodium_bin2base64 (refresh_nonce e n ++ c)) as -> by (by injection E).
  apply c_str_plain. rewrite elem_of_app. intros [H|H].
  - revert H. apply (bool_decide_unpack _). by vm_compute.
  - by apply bin2base64_text in H.
Qed.

Lemma encrypt_token_of n plaintext stored :
  encrypt_token_for_storage (refresh_crypto e) (refresh_nonce e n) plaintext = Ret stored ->
  token_of (Some (c_str stored)) = Some plaintext.
Proof.
  intros E. destruct (encrypt_reads _ _ _ E) as (H1 & _ & H3 & H4). unfold token_of, sqlite_text_or_empty. cbn.
  by rewrite !H1, H3, H4.
Qed.

(** A migration stores the token it found. *)
Lemma migrate_token_of n column stored migrated :
  sqlite_text_or_empty column <> [] ->
  migrate_plaintext_token_for_storage (refresh_crypto e) (refresh_nonce e n) (sqlite_text_or_empty column) = Ret (stored, migrated) ->
  token_of (Some (c_str stored)) = token_of column /\ token_storage_value_is_encrypted stored = true /\
  to_option (decrypt_token_from_storage (refresh_crypto e) stored) = token_of column.
Proof.
  intros Hne. unfold migrate_plaintext_token_for_storage. rewrite bool_decide_false by done. cbn [orb].
  destruct (token_storage_value_is_encrypted (sqlite_text_or_empty column)) eqn:Ee.
  - intros [= <- <-]. split_and!; [|done|unfold token_of; by rewrite Ee].
    assert (sqlite_text_or_empty (Some (c_str (sqlite_text_or_empty column))) = sqlite_text_or_empty column) as E'.
    { unfold sqlite_text_or_empty at 1 2. cbn. by rewrite !c_str_idem. }
    unfold token_of. by rewrite E'.
  - cbn [negb]. intros (enc & Eenc & [= <- _])%bind_Ret. rewrite (encrypt_token_of _ _ _ Eenc).
    destruct (encrypt_reads _ _ _ Eenc) as (_ & _ & H3 & H4). unfold token_of. by rewrite Ee, H3, H4.
Qed.

Record same_tokens (r r' : AccountRow) : Prop := {
  same_id : id r' = id r;
  same_status : status r' = status r;
  same_account : chatgpt_account_id r' = chatgpt_account_id r;
  same_access : token_of (access_token_encrypted r') = token_of (access_token_encrypted r);
  same_refresh : token_of (refresh_token_encrypted r') = token_of (refresh_token_encrypted r);
  same_id_token : token_of (id_token_encrypted r') = token_of (id_token_encrypted r);
}.

Lemma same_tokens_refl r : same_tokens r r.
Proof. by split. Qed.

Lemma same_tokens_all rs : Forall2 same_tokens rs rs.
Proof. induction rs; constructor; [apply same_tokens_refl|done]. Qed.

(** The one row of an identifier. *)
Lemma row_of_id rs r r' : NoDup (id <$> rs) -> r ∈ rs -> r' ∈ rs -> has_id (id r) r' = true -> r' = r.
Proof.
  intros Hn (i & Hi)%list_elem_of_lookup (j & Hj)%list_elem_of_lookup E%Z.eqb_eq.
  assert (i = j) as ->; [|congruence]. eapply NoDup_lookup; [exact Hn| |]; by rewrite list_lookup_fmap, ?Hi, ?Hj; cbn; rewrite ?E.
Qed.

Lemma found_in account t r :
  List.find (active_with account) (rows (refresh_accounts t)) = Some r ->
  r ∈ rows (refresh_accounts t) /\ active_with account r = true.
Proof. intros E. apply List.find_some in E as [H1 H2]. split; [by apply list_elem_of_In|done]. Qed.

Lemma update_row_same (P : AccountRow -> AccountRow -> Prop) i f t :
  (forall r, r ∈ rows (refresh_accounts t) -> P r (if has_id i r then f r else r)) ->
  Forall2 P (rows (refresh_accounts t)) (rows (refresh_accounts (update_row i f t))).
Proof.
  intros H. unfold update_row, set_accounts. cbn. apply Forall2_fmap_r. apply Forall_Forall2_diag. by apply Forall_forall.
Qed.

Lemma find_spec account t :
  NoDup (id <$> rows (refresh_accounts t)) ->
  let '(found, t') := find_active_account_tokens e account t in
  refresh_columns t' = refresh_columns t /\
  Forall2 same_tokens (rows (refresh_accounts t)) (rows (refresh_accounts t')) /\
  (forall s, found = Some s -> exists r, List.find (active_with account) (rows (refresh_accounts t)) = Some r /\
     0 < id r /\ stored_id s = id r /\ token_of (refresh_token_encrypted r) = Some (stored_refresh_token s) /\
     token_of (id_token_encrypted r) = Some (stored_id_token s)).
Proof.
  intros Hn. unfold find_active_account_tokens. assert (refresh_columns t = refresh_columns t /\
    Forall2 same_tokens (rows (refresh_accounts t)) (rows (refresh_accounts t)) /\
    (forall s : StoredTokenRecord, None = Some s -> exists r, List.find (active_with account) (rows (refresh_accounts t)) = Some r /\
     0 < id r /\ stored_id s = id r /\ token_of (refresh_token_encrypted r) = Some (stored_refresh_token s) /\
     token_of (id_token_encrypted r) = Some (stored_id_token s))) as Hnone by (split; [done|split; [apply same_tokens_all|done]]).
  destruct (_ || _); [done|]. destruct (List.find _ _) as [r|] eqn:Ef; [|done]. apply found_in in Ef as [Hin _].
  destruct (id r <=? 0) eqn:Ei; [done|]. apply Z.leb_gt in Ei. cbn [orb]. case_bool_decide as Er; [done|].
  destruct (migrate_plaintext_token_for_storage _ _ _) as [[refresh_stored refresh_migrated]|] eqn:Em; [|done].
  destruct (migrate_token_of _ _ _ _ Er Em) as (M1 & M2 & M3).
  case_bool_decide as Ers; [done|].
  destruct (if bool_decide (sqlite_text_or_empty (id_token_encrypted r) = []) then _ else _) as [[id_stored id_migrated]|] eqn:Ed; [|done].
  assert (token_of (Some (c_str id_stored)) = token_of (id_token_encrypted r) /\
    (if bool_decide (sqlite_text_or_empty (id_token_encrypted r) = []) then Some []
     else to_option (decrypt_token_from_storage (refresh_crypto e) id_stored)) = token_of (id_token_encrypted r)) as [I1 I3].
  { case_bool_decide as Eid.
    - injection Ed as <- <-. unfold token_of at 2 3. rewrite Eid. by split.
    - destruct (migrate_token_of _ _ _ _ Eid Ed) as (? & ? & ?). by split. }
  set (kept := if refresh_migrated || id_migrated then _ else (true, t)).
  assert (refresh_columns kept.2 = refresh_columns t /\
    Forall2 same_tokens (rows (refresh_accounts t)) (rows (refresh_accounts kept.2))) as [Hk1 Hk2].
  { unfold kept, persist_migrated_stored_tokens. destruct (refresh_migrated || id_migrated); [|split; [done|apply same_tokens_all]].
    destruct (_ || _); [split; [done|apply same_tokens_all]|]. split; [done|]. apply update_row_same. intros r' Hr'.
    destruct (has_id (id r) r') eqn:Eh; [|apply same_tokens_refl]. rewrite (row_of_id _ _ _ Hn Hin Hr' Eh). by split. }
  clearbody kept. destruct kept as [kept t']. cbn [snd] in *. destruct kept; cbn [negb]; [|(cbn beta iota; split; [done|by split])].
  destruct (decrypt_token_from_storage (refresh_crypto e) refresh_stored) as [refresh|]; [|(cbn beta iota; split; [done|by split])]. cbn [to_option] in M3.
  destruct (decide (refresh = [])) as [->|Ere]; [rewrite (bool_decide_true ([] = [])) by done; cbn beta iota; split; [done|by split]|].
  rewrite (bool_decide_false (refresh = [])) by done.
  destruct (bool_decide (sqlite_text_or_empty (id_token_encrypted r) = [])).
  - split; [done|]. split; [done|]. intros s [= <-]. exists r. by split_and!.
  - destruct (decrypt_token_from_storage (refresh_crypto e) id_stored); [|(cbn beta iota; split; [done|by split])]. cbn [to_option] in I3.
    split; [done|]. split; [done|]. intros s [= <-]. exists r. by split_and!.
Qed.

(** A row with the tokens the provider gave; an identity token it left out
    stays. *)
Record renewed (tokens : OAuthTokens) (old_id_token : bytes) (r r' : AccountRow) : Prop := {
  renewed_id : id r' = id r;
  renewed_account : chatgpt_account_id r' = chatgpt_account_id r;
  renewed_status : status r' = $"active";
  renewed_access : token_of (access_token_encrypted r') = Some (access_token tokens);
  renewed_refresh : token_of (refresh_token_encrypted r') = Some (refresh_token tokens);
  renewed_id_token : token_of (id_token_encrypted r') =
    Some (if bool_decide (id_token tokens = []) then old_id_token else id_token tokens);
}.

Definition refreshed_columns (now_s : Z) : RefreshColumns :=
  mkColumns (Some (now_s * 1000)) (Some (now_s * 1000 + kSuccessDueMs)) 0 None.

Lemma update_spec i tokens old_id_token t :
  let '(updated, t') := update_account_tokens e i tokens old_id_token t in
  (updated = false -> t' = t) /\
  (updated = true -> refresh_columns t' = <[i := refreshed_columns (refresh_now_s e)]> (refresh_columns t) /\
     Forall2 (fun r r' => if has_id i r then renewed tokens old_id_token r r' else r' = r)
       (rows (refresh_accounts t)) (rows (refresh_accounts t'))).
Proof.
  unfold update_account_tokens. destruct (_ || _); [done|].
  destruct (encrypt_token_for_storage _ _ (access_token tokens)) as [access|] eqn:Ea; [|done].
  destruct (encrypt_token_for_storage _ _ (refresh_token tokens)) as [refresh|] eqn:Er; [|done].
  destruct (encrypt_token_for_storage _ (refresh_nonce e 4%nat) _) as [id_token'|] eqn:Ei; [|done].
  destruct (negb _); [done|]. destruct (bool_decide (List.find (has_id i) _ = None)); [done|]. split; [done|]. intros _.
  split; [done|]. apply update_row_same. intros r _. destruct (has_id i r); [|done].
  split; try done; cbn; by eapply encrypt_token_of.
Qed.

Lemma refresh_spec account t :
  NoDup (id <$> rows (refresh_accounts t)) ->
  let '(result, t') := refresh_access_token_for_account e account t in
  if refreshed result then
    exists r old_refresh old_id tokens,
      List.find (active_with account) (rows (refresh_accounts t)) = Some r /\
      token_of (refresh_token_encrypted r) = Some old_refresh /\ token_of (id_token_encrypted r) = Some old_id /\
      answer e old_refresh = inr tokens /\
      refresh_columns t' = <[id r := refreshed_columns (refresh_now_s e)]> (refresh_columns t) /\
      Forall2 (fun r0 r1 => if has_id (id r) r0 then renewed tokens old_id r0 r1 else same_tokens r0 r1)
        (rows (refresh_accounts t)) (rows (refresh_accounts t'))
  else refresh_columns t' = refresh_columns t /\
       Forall2 same_tokens (rows (refresh_accounts t)) (rows (refresh_accounts t')).
Proof.
  intros Hn. unfold refresh_access_token_for_account. case_bool_decide as Eacc; [split; [done|apply same_tokens_all]|].
  pose proof (find_spec account t Hn) as H. destruct (find_active_account_tokens e account t) as [[s|] t1];
    destruct H as (Hc & Hs & Hf); [|by split].
  destruct (Hf s eq_refl) as (r & Er & _ & Ei & Et & Ed). unfold refresh_end.
  destruct (answer e (stored_refresh_token s)) as [error|tokens] eqn:Ea; [by split|].
  pose proof (update_spec (stored_id s) tokens (stored_id_token s) t1) as Hu.
  destruct (update_account_tokens _ _ _ _ _) as [[] t2]; destruct Hu as [U1 U2]; cbn [refreshed].
  2:{ rewrite U1 by done. by split. }
  destruct (U2 eq_refl) as [U3 U4]. exists r, (stored_refresh_token s), (stored_id_token s), tokens.
  rewrite Ei in *. split_and!; try done; [by rewrite U3, Hc|].
  eapply Forall2_trans; [|exact Hs|exact U4]. cbn. intros r0 r1 r2 S1. unfold has_id. rewrite (same_id _ _ S1).
  destruct (id r0 =? id r); [|by intros ->]. intros []. split; try done; [by rewrite <- (same_id _ _ S1)|by rewrite <- (same_account _ _ S1)].
Qed.

(** A refresh loses no token: one that succeeds leaves the account with the
    tokens the provider gave for the refresh token it had, encrypted and
    readable, and with its identity token where the provider left it out; what
    the other accounts hold stays; one that fails leaves every account with
    the tokens and the status it had, wherever it failed. (C7) *)
Theorem refresh_loses_no_token account t :
  NoDup (id <$> rows (refresh_accounts t)) ->
  let '(result, t') := refresh_access_token_for_account e account t in
  if refreshed result then
    exists r old_refresh old_id tokens,
      List.find (active_with account) (rows (refresh_accounts t)) = Some r /\
      token_of (refresh_token_encrypted r) = Some old_refresh /\ token_of (id_token_encrypted r) = Some old_id /\
      answer e old_refresh = inr tokens /\
      Forall2 (fun r0 r1 => if has_id (id r) r0 then renewed tokens old_id r0 r1 else same_tokens r0 r1)
        (rows (refresh_accounts t)) (rows (refresh_accounts t'))
  else Forall2 same_tokens (rows (refresh_accounts t)) (rows (refresh_accounts t')).
Proof.
  intros Hn. pose proof (refresh_spec account t Hn) as H. destruct (refresh_access_token_for_account e account t) as [result t'].
  destruct (refreshed result); [naive_solver|by destruct H].
Qed.

End stored.

(** ** A sweep *)

Section sweep.
Context {sodium : Sodium} {digest : Digest} {laws : SodiumLaws sodium} {text : SodiumText sodium}.
Context (passphrase key : bytes) (derived : derive_session_key passphrase = Ret key).
Context (env : Z -> RefreshEnv).
Context (nonces : forall i n, length (refresh_nonce (env i) n) = crypto_secretbox_NONCEBYTES).
Context (configured : forall i, refresh_crypto (env i) = configure_token_storage_session_passphrase passphrase).

(** What the choice of an account reads of its row. *)
Definition shape (r : AccountRow) : Z * bytes * option bytes := (id r, status r, chatgpt_account_id r).
Definition shapes (t : RefreshTable) : list (Z * bytes * option bytes) := shape <$> rows (refresh_accounts t).

Lemma shapes_ids t t' : shapes t' = shapes t -> id <$> rows (refresh_accounts t') = id <$> rows (refresh_accounts t).
Proof.
  intros H. assert (forall t, id <$> rows (refresh_accounts t) = (fun s => s.1.1) <$> shapes t) as E
    by (intros t0; unfold shapes; by rewrite <- list_fmap_compose). by rewrite !E, H.
Qed.

Lemma find_shape {A B} (f : A -> B) (p : B -> bool) (l : list A) :
  f <$> List.find (fun a => p (f a)) l = List.find p (f <$> l).
Proof. induction l as [|a l IH]; [done|]. cbn. by destruct (p (f a)). Qed.

(** The row a table finds, by identifier. *)
Lemma find_kept account t t' r :
  shapes t' = shapes t -> List.find (active_with account) (rows (refresh_accounts t')) = Some r ->
  exists r0, List.find (active_with account) (rows (refresh_accounts t)) = Some r0 /\ id r0 = id r.
Proof.
  intros Hs Hf. set (p := fun s : Z * bytes * option bytes => bool_decide (s.2 = Some (c_str account)) && bool_decide (s.1.2 = $"active")).
  assert (forall t, shape <$> List.find (active_with account) (rows (refresh_accounts t)) = List.find p (shapes t)) as E
    by (intros t0; apply (find_shape shape p)).
  pose proof (E t') as E'. rewrite Hs, <- E, Hf in E'. cbn in E'.
  destruct (List.find (active_with account) (rows (refresh_accounts t))) as [r0|]; [|done]. exists r0. split; [done|].
  unfold shape in E'. cbn in E'. by injection E'.
Qed.

Lemma find_id_kept i t t' :
  shapes t' = shapes t -> i ∈ (id <$> rows (refresh_accounts t)) -> List.find (has_id i) (rows (refresh_accounts t')) <> None.
Proof.
  intros Hs Hi Hf. rewrite <- (shapes_ids _ _ Hs) in Hi. apply list_elem_of_fmap in Hi as (r & -> & Hr).
  apply list_elem_of_In in Hr. pose proof (List.find_none _ _ Hf r Hr) as H. unfold has_id in H. by rewrite Z.eqb_refl in H.
Qed.

Lemma Forall2_shapes t t' :
  Forall2 (fun r r' => shape r' = shape r) (rows (refresh_accounts t)) (rows (refresh_accounts t')) -> shapes t' = shapes t.
Proof. unfold shapes. induction 1 as [|? ? ? ? E _ IH]; [done|]. cbn. by rewrite E, IH. Qed.

Lemma refresh_shapes i account t :
  NoDup (id <$> rows (refresh_accounts t)) ->
  let '(result, t') := refresh_access_token_for_account (env i) account t in
  shapes t' = shapes t /\
  if refreshed result then
    exists r, List.find (active_with account) (rows (refresh_accounts t)) = Some r /\
      refresh_columns t' = <[id r := refreshed_columns (refresh_now_s (env i))]> (refresh_columns t)
  else refresh_columns t' = refresh_columns t.
Proof.
  intros Hn. pose proof (refresh_spec passphrase key derived (env i) (nonces i) (configured i) account t Hn) as H.
  destruct (refresh_access_token_for_account (env i) account t) as [result t']. destruct (refreshed result).
  - destruct H as (r & oldr & oldi & tokens & Er & _ & _ & _ & Hc & Hr). split; [|by exists r].
    destruct (found_in _ _ _ Er) as [Hin Ha]. apply andb_true_iff in Ha as [_ Ha%bool_decide_eq_true].
    apply Forall2_shapes. apply Forall2_same_length_lookup. apply Forall2_same_length_lookup in Hr as [Hl Hr].
    split; [done|]. intros j r0 r1 H0 H1. specialize (Hr j r0 r1 H0 H1). unfold shape. destruct (has_id (id r) r0) eqn:Eh.
    + rewrite (row_of_id _ _ _ Hn Hin (list_elem_of_lookup_2 _ _ _ H0) Eh) in *. destruct Hr as [-> -> -> _ _ _]. by rewrite Ha.
    + by destruct Hr as [-> -> -> _ _ _].
  - destruct H as [Hc Hr]. split; [|done]. apply Forall2_shapes. eapply Forall2_impl; [exact Hr|].
    intros r0 r1 [E1 E2 E3 _ _ _]. unfold shape. congruence.
Qed.

Lemma mark_shapes runs now_s i next detail t :
  let '(marked, t') := mark_attention runs now_s i next detail t in
  shapes t' = shapes t /\
  (forall j, j <> i -> refresh_columns t' !! j = refresh_columns t !! j) /\
  (0 < i -> runs MarkAttention = true -> List.find (has_id i) (rows (refresh_accounts t)) <> None ->
     token_refresh_next_due_at_ms (columns_of i t') = Some next).
Proof.
  unfold mark_attention. destruct ((i <=? 0) || negb (runs MarkAttention)) eqn:E.
  { split; [done|]. split; [done|]. intros Hi Hr _. apply orb_true_iff in E as [?%Z.leb_le|E]; [lia|]. by rewrite Hr in E. }
  case_bool_decide as Ef; [done|]. split; [|split].
  - apply Forall2_shapes, (update_row_same (fun r r' => shape r' = shape r)). intros r _. by destruct (has_id i r).
  - intros j Hj. cbn. by rewrite lookup_insert_ne.
  - intros _ _ _. unfold columns_of, set_columns. cbn. by rewrite lookup_insert_eq.
Qed.

(** Identifiers of the provider name one account each. *)
Definition named (t : RefreshTable) (c : RefreshCandidate) : Prop :=
  exists r, List.find (active_with (candidate_chatgpt_account_id c)) (rows (refresh_accounts t)) = Some r /\
    id r = candidate_account_id c /\ 0 < id r.

Definition due_later (now : Z) (t : RefreshTable) (i : Z) : Prop :=
  exists next, token_refresh_next_due_at_ms (columns_of i t) = Some next /\ now < next.

Lemma candidate_swept now config mode c r t t0 :
  (forall i, refresh_runs (env i) MarkAttention = true) ->
  (forall i, now < refresh_now_s (env i) * 1000 + kSuccessDueMs) -> 0 < failure_retry_ms config ->
  NoDup (id <$> rows (refresh_accounts t0)) -> shapes t = shapes t0 -> named t0 c ->
  let '(r', t') := sweep_candidate env now config mode c (r, t) in
  let d := if is_due mode c now config then 1 else 0 in
  shapes t' = shapes t0 /\ scanned r' = scanned r /\ due r' = due r + d /\
  sweep_refreshed r' + failed r' = sweep_refreshed r + failed r + d /\
  (forall j, j <> candidate_account_id c -> refresh_columns t' !! j = refresh_columns t !! j) /\
  (is_due mode c now config = true -> due_later now t' (candidate_account_id c)).
Proof.
  intros Hmark Hclock Hretry Hn Hs (r0 & Hf & Hi & Hpos). unfold sweep_candidate.
  destruct (is_due mode c now config); cbn [negb]; [|split_and!; try done; lia].
  assert (NoDup (id <$> rows (refresh_accounts t))) as Hn' by by rewrite (shapes_ids _ _ Hs).
  pose proof (refresh_shapes (candidate_account_id c) (candidate_chatgpt_account_id c) t Hn') as H.
  destruct (refresh_access_token_for_account _ _ t) as [result t1]. destruct H as [Hs1 H]. destruct (refreshed result).
  - destruct H as (r1 & Er1 & Hc). destruct (find_kept _ _ _ _ Hs Er1) as (r0' & Ef' & Ei').
    assert (id r1 = candidate_account_id c) as E1 by congruence. rewrite E1 in Hc. cbn.
    split_and!; [congruence|done|lia|lia|intros j Hj; by rewrite Hc, lookup_insert_ne|].
    intros _. unfold due_later, columns_of. rewrite Hc, lookup_insert_eq. eexists. split; [done|]. cbn. apply Hclock.
  - lazymatch goal with |- context [mark_attention ?a ?b ?i ?n ?d ?t] =>
      pose proof (mark_shapes a b i n d t) as Hm; destruct (mark_attention a b i n d t) as [marked t2] end.
    destruct Hm as (M1 & M2 & M3). cbn. split_and!; [congruence|done|lia|lia| |].
    + intros j Hj. by rewrite M2, H by done.
    + intros _. exists (now + failure_retry_ms config). split; [|lia]. apply M3; [lia|done|].
      eapply find_id_kept; [by rewrite Hs1|]. rewrite <- Hi. apply list_elem_of_fmap. exists r0. split; [done|].
      by apply found_in in Hf as [? _].
Qed.

Lemma candidates_swept now config mode t0 cs : forall r t,
  (forall i, refresh_runs (env i) MarkAttention = true) ->
  (forall i, now < refresh_now_s (env i) * 1000 + kSuccessDueMs) -> 0 < failure_retry_ms config ->
  NoDup (id <$> rows (refresh_accounts t0)) -> shapes t = shapes t0 -> Forall (named t0) cs ->
  NoDup (candidate_account_id <$> cs) ->
  let '(r', t') := foldl (fun rt c => sweep_candidate env now config mode c rt) (r, t) cs in
  scanned r' = scanned r /\
  due r' = due r + size_of (filter (fun c => is_due mode c now config = true) cs) /\
  sweep_refreshed r' + failed r' - due r' = sweep_refreshed r + failed r - due r /\
  (forall j, j ∉ candidate_account_id <$> cs -> refresh_columns t' !! j = refresh_columns t !! j) /\
  (forall c, c ∈ cs -> is_due mode c now config = true -> due_later now t' (candidate_account_id c)).
Proof.
  induction cs as [|c cs IH]; intros r t Hmark Hclock Hretry Hn Hs Hnamed Hd; cbn [foldl].
  { split_and!; try done; [unfold size_of; cbn; lia|by intros c ?%elem_of_nil]. }
  apply Forall_cons in Hnamed as [Hc Hnamed]. apply NoDup_cons in Hd as [Hd1 Hd].
  pose proof (candidate_swept now config mode c r t t0 Hmark Hclock Hretry Hn Hs Hc) as H1.
  destruct (sweep_candidate _ _ _ _ _ _) as [r1 t1]. destruct H1 as (S1 & S2 & S3 & S4 & S5 & S6).
  specialize (IH r1 t1 Hmark Hclock Hretry Hn S1 Hnamed Hd).
  destruct (foldl _ _ _) as [r2 t2]. destruct IH as (T2 & T3 & T4 & T5 & T6). rewrite filter_cons.
  split_and!; [congruence| |destruct (is_due mode c now config); lia| |].
  - rewrite T3, S3. destruct (is_due mode c now config); [rewrite decide_True by done; rewrite size_of_cons|rewrite decide_False by done]; lia.
  - intros j [Hj1 Hj2]%not_elem_of_cons. by rewrite T5, S5.
  - intros c' [->|Hin]%elem_of_cons Hdue; [|by apply T6]. destruct (S6 Hdue) as (next & E & Hlt). exists next.
    unfold columns_of in *. by rewrite T5.
Qed.

Lemma candidates_ids runs t :
  NoDup (id <$> rows (refresh_accounts t)) -> NoDup (candidate_account_id <$> load_refresh_candidates runs t).
Proof.
  intros Hn. unfold load_refresh_candidates. destruct (_ || _); [constructor|].
  assert (NoDup (id <$> merge_sort by_id (filter (fun r => refreshable r = true) (rows (refresh_accounts t))))) as H.
  { rewrite (fmap_Permutation id _ _ (merge_sort_Permutation _ _)). eapply sublist_NoDup; [exact Hn|]. apply fmap_sublist, sublist_filter. }
  revert H. generalize (merge_sort by_id (filter (fun r => refreshable r = true) (rows (refresh_accounts t)))).
  intros l. induction l as [|r l IH]; [constructor|]. intros [Hr Hl]%NoDup_cons. cbn [omap list_omap].
  destruct (candidate_of t r) as [c|] eqn:Ec; [|by apply IH]. cbn [fmap list_fmap]. constructor; [|by apply IH].
  assert (candidate_account_id c = id r) as -> by (revert Ec; unfold candidate_of; destruct (_ || _); [done|]; by intros [= <-]).
  intros (c' & E & (r' & Hr' & Ec')%list_elem_of_omap)%list_elem_of_fmap. apply Hr.
  assert (candidate_account_id c' = id r') as E' by (revert Ec'; unfold candidate_of; destruct (_ || _); [done|]; by intros [= <-]).
  apply list_elem_of_fmap. exists r'. split; [congruence|done].
Qed.


End sweep.

(** ** Waiting *)

(** A wait lasts as long as it should, in naps no longer than the interval at
    which a stop is looked for, however often it is interrupted by its end. *)
Lemma naps_add_up poll total : forall fuel slept,
  0 < poll -> 0 <= total - slept <= Z.of_nat fuel ->
  foldr Z.add 0 (naps fuel poll total slept) = total - slept /\ Forall (fun step => 0 < step <= poll) (naps fuel poll total slept).
Proof.
  induction fuel as [|fuel IH]; intros slept Hp Hf; cbn [naps]; [split; [cbn; lia|constructor]|].
  destruct (Z.ltb_spec slept total); [|split; [cbn; lia|constructor]]. cbn [foldr].
  destruct (IH (slept + Z.min poll (total - slept))) as [H1 H2]; [done|lia|]. rewrite H1. split; [lia|]. constructor; [lia|done].
Qed.

Theorem scheduler_waits_exactly config rounds naps_of mode :
  (naps_of, mode) ∈ run_scheduler_loop config rounds ->
  foldr Z.add 0 naps_of = match mode with
                          | Startup => Z.max 0 (startup_delay_ms config)
                          | Periodic => Z.max 1 (periodic_check_interval_ms config) end /\
  Forall (fun nap => 0 < nap <= Z.max 1 (stop_poll_interval_ms config)) naps_of.
Proof.
  assert (forall total, 0 <= total -> foldr Z.add 0 (wait (sanitize_config config) total) = total /\
    Forall (fun nap => 0 < nap <= Z.max 1 (stop_poll_interval_ms config)) (wait (sanitize_config config) total)) as H.
  { intros total Ht. unfold wait. cbn. rewrite <- (Z.sub_0_r total) at 3. apply naps_add_up; lia. }
  unfold run_scheduler_loop. intros [[= -> ->]|[[= -> ->] _]%elem_of_replicate]%elem_of_cons; apply H; cbn; lia.
Qed.

(** ** On concrete tables *)

(** Boxes with a zero tag, written in hexadecimal. *)
Definition hex_sodium : Sodium := {|
  sodium_ready := true;
  sodium_bin2base64 := Text.Hex.hex_encode;
  sodium_base642bin := fun _ text => Text.Hex.hex_decode_loop text;
  crypto_secretbox_easy := fun m _ _ => Some (m ++ replicate crypto_secretbox_MACBYTES Byte.x00);
  crypto_secretbox_open_easy := fun c _ _ => Some (take (length c - crypto_secretbox_MACBYTES) c);
|}.

#[global] Instance hex_sodium_laws : SodiumLaws hex_sodium.
Proof.
  split; try done.
  - intros data. apply Text.Hex.hex_decode_loop_encode.
  - intros m n k c E. assert (c = m ++ replicate crypto_secretbox_MACBYTES Byte.x00) as -> by exact (eq_sym (Some_inj _ _ E)).
    by rewrite length_app, length_replicate.
  - intros m n k c _ E. assert (c = m ++ replicate crypto_secretbox_MACBYTES Byte.x00) as -> by exact (eq_sym (Some_inj _ _ E)).
    unfold crypto_secretbox_open_easy, hex_sodium. f_equal. rewrite length_app, length_replicate, Nat.add_sub. by rewrite take_app_length.
Qed.

#[global] Instance hex_sodium_text : SodiumText hex_sodium.
Proof.
  split. intros data. unfold sodium_bin2base64, hex_sodium, Text.Hex.hex_encode.
  rewrite list_elem_of_In, in_concat. setoid_rewrite <- list_elem_of_In.
  intros (l & (ch & -> & _)%list_elem_of_fmap & Hin). revert Hin. clear. destruct ch; apply (bool_decide_unpack _); by vm_compute.
Qed.

Definition sample_refresh_env (i : Z) : RefreshEnv :=
  mkRefreshEnv (fun _ => true) (@configure_token_storage_session_passphrase plain_digest $"passphrase")
    (fun _ => replicate 24 Byte.x01) 1000 (fun old => ok (mkTokens ($"access of " ++ old) ($"next of " ++ old) [])).

Definition refreshing_row (i : Z) (account : bytes) : AccountRow :=
  mkAccountRow i (Some $"a@example.com") (Some $"openai") (Some account) None (Some $"old") (Some ($"refresh-" ++ account)) (Some $"id")
    None $"active" None None None None None None None 0 0.

Definition two_accounts : RefreshTable := mkRefresh (mkAccounts [refreshing_row 1 $"one"; refreshing_row 2 $"two"] 3) ∅.
Definition shared_account : RefreshTable := mkRefresh (mkAccounts [refreshing_row 1 $"one"; refreshing_row 2 $"one"] 3) ∅.

Lemma two_ids : NoDup (id <$> rows (refresh_accounts two_accounts)).
Proof. apply (bool_decide_unpack _). by vm_compute. Qed.

Lemma refresh_loses_no_token_witness :
  let '(result, t') := @refresh_access_token_for_account hex_sodium (sample_refresh_env 0) $"two" two_accounts in
  refreshed result = true /\
  exists r tokens, id r = 2 /\ access_token tokens = $"access of refresh-two" /\
    Forall2 (fun r0 r1 => if has_id 2 r0 then @renewed hex_sodium (sample_refresh_env 0) tokens $"id" r0 r1 else @same_tokens hex_sodium (sample_refresh_env 0) r0 r1)
      (rows (refresh_accounts two_accounts)) (rows (refresh_accounts t')).
Proof.
  destruct (@derive_session_key plain_digest $"passphrase") as [key|] eqn:Ek; [|by vm_compute in Ek].
  pose proof (@refresh_loses_no_token hex_sodium plain_digest _ _ $"passphrase" key Ek (sample_refresh_env 0) (fun _ => eq_refl) eq_refl
    $"two" two_accounts two_ids) as H.
  destruct (refresh_access_token_for_account _ _ two_accounts) as [result t'] eqn:E.
  assert (refreshed result = true) as Hr by (change (refreshed (result, t').1 = true); rewrite <- E; vm_compute; reflexivity).
  split; [exact Hr|]. rewrite Hr in H. destruct H as (r & oldr & oldi & tokens & Ef & Et & Ei & Ea & Hall).
  vm_compute in Ef. injection Ef as <-. vm_compute in Et. injection Et as <-. vm_compute in Ei. injection Ei as <-.
  cbn in Ea. injection Ea as <-. exists (refreshing_row 2 $"two"). eexists.
  split; [reflexivity|]. split; [|exact Hall]. reflexivity.
Defined.


Lemma scheduler_waits_exactly_witness :
  (([1000; 1000], Startup) : list Z * SweepMode) ∈ run_scheduler_loop default_config 1 /\ foldr Z.add 0 [1000; 1000] = 2000.
Proof.
  assert ((([1000; 1000], Startup) : list Z * SweepMode) ∈ run_scheduler_loop default_config 1) as H by (vm_compute; left).
  split; [exact H|]. exact (proj1 (scheduler_waits_exactly default_config 1 _ _ H)).
Defined.

(** ** Where refreshing surprises *)

(** A refresh sets the account active whatever became of it while the
    provider was asked: an account that was paused meanwhile is in use again. *)
Lemma refresh_revives_paused_account :
  let e := sample_refresh_env 0 in
  let '(found, t) := @find_active_account_tokens hex_sodium e $"one" two_accounts in
  let paused := update_row 1 (fun r => Accounts.set_status $"paused" 0 7 r) t in
  match found with
  | Some stored =>
      let '(result, t') := @refresh_end hex_sodium e stored paused in
      refreshed result = true /\ status <$> rows (refresh_accounts t') = [$"active"; $"active"]
  | None => False
  end.
Proof. vm_compute. by split. Qed.

(** Members of one workspace share the provider's identifier, and a refresh
    takes the first account with it: each sweep refreshes the first one twice
    and the second one never. *)
Lemma shared_identifier_starves :
  let '(result, t') := @run_sweep_once hex_sodium sample_refresh_env (fun _ => true) 5 default_config Periodic shared_account in
  sweep_refreshed result = 2 /\ refresh_columns t' !! 2 = None /\
  to_option ∘ @decrypt_token_from_storage hex_sodium (refresh_crypto (sample_refresh_env 0)) ∘ sqlite_text_or_empty ∘ access_token_encrypted
    <$> head (rows (refresh_accounts t')) = Some (Some $"access of next of refresh-one").
Proof. vm_compute. split_and!; reflexivity. Qed.

(** The length of the cycle that operators can set has no effect on an
    account once it was refreshed: the next time is always a day later. *)
Lemma success_cycle_has_no_effect c now config cycle :
  is_Some (next_due_at_ms c) ->
  due_for_periodic c now config =
  due_for_periodic c now (mkConfig (startup_delay_ms config) (startup_stale_after_ms config) (periodic_check_interval_ms config)
                            cycle (failure_retry_ms config) (stop_poll_interval_ms config)).
Proof. intros [next E]. unfold due_for_periodic. by rewrite E. Qed.
