(* ===== verification/WsPayload.v ===== *)
(** * WsPayload: what a websocket frame of a client is taken for

    The first half of src/native/proxy/src/ws_proxy.cpp: a text frame is
    brought from UTF-16 or damaged UTF-8 back to a JSON object, which is
    flattened into the request of a response; anything else is passed through
    as it came. *)

From S2P Require Import Prelude Codec Text JsonValue Except ErrorPolicy Utf8.

(** ** Edges *)

Definition is_ascii_ws_trim_char (value : Z) : bool := (value <=? 0x20) || (value =? 0x7F).

Fixpoint trim_front (payload : bytes) : bytes :=
  match payload with
  | ch :: rest => if is_ascii_ws_trim_char (val ch) then trim_front rest else payload
  | [] => []
  end.

Definition trim_back (payload : bytes) : bytes := rev (trim_front (rev payload)).

Definition starts_with_bytes (mark payload : bytes) : bool := bool_decide (take (length mark) payload = mark).

Definition utf8_mark : bytes := [Byte.xef; Byte.xbb; Byte.xbf].

Definition without_bom (payload : bytes) : bytes :=
  if starts_with_bytes utf8_mark payload then drop 3 payload else payload.

Definition trim_ws_payload_edges (payload : bytes) : bytes := trim_back (trim_front (without_bom payload)).

(** ** UTF-16 *)

(** What [append_utf8_code_point] pushes. *)
Definition utf8_code_point (code_point : Z) : bytes :=
  let lead mark shift mask := byte_of (Z.lor mark (Z.land (Z.shiftr code_point shift) mask)) in
  let continuation shift := lead 0x80 shift 0x3F in
  if code_point <=? 0x7F then [byte_of code_point]
  else if code_point <=? 0x7FF then [lead 0xC0 6 0x1F; lead 0x80 0 0x3F]
  else if code_point <=? 0xFFFF then [lead 0xE0 12 0x0F; continuation 6; continuation 0]
  else if code_point <=? 0x10FFFF then [lead 0xF0 18 0x07; continuation 12; continuation 6; continuation 0]
  else [].

(** The pairs of bytes of the payload. *)
Fixpoint byte_pairs (payload : bytes) : list (Byte.byte * Byte.byte) :=
  match payload with
  | first :: second :: rest => (first, second) :: byte_pairs rest
  | _ => []
  end.

Definition is_nul (ch : Byte.byte) : bool := val ch =? 0.

Definition count_if {A} (f : A -> bool) (l : list A) : Z := size_of (List.filter f l).

(** Without a mark, most of the first 64 units have a zero byte on the same
    side: the byte order is guessed from it. *)
Definition guessed_little_endian (payload : bytes) : option bool :=
  let sample := take 64 (byte_pairs payload) in
  let sample_units := size_of sample in
  let zero_even := count_if (fun p => is_nul p.1) sample in
  let zero_odd := count_if (fun p => is_nul p.2) sample in
  let looks_little_endian := (sample_units * 7 <=? zero_odd * 10) && (zero_even * 10 <=? sample_units * 3) in
  let looks_big_endian := (sample_units * 7 <=? zero_even * 10) && (zero_odd * 10 <=? sample_units * 3) in
  if negb looks_little_endian && negb looks_big_endian then None else Some looks_little_endian.

Definition utf16_mark (little_endian : bool) : bytes :=
  if little_endian then [Byte.xff; Byte.xfe] else [Byte.xfe; Byte.xff].

(** The byte order and the bytes after the mark. *)
Definition utf16_layout (payload : bytes) : option (bool * bytes) :=
  if starts_with_bytes (utf16_mark true) payload then Some (true, drop 2 payload)
  else if starts_with_bytes (utf16_mark false) payload then Some (false, drop 2 payload)
  else (fun little_endian => (little_endian, payload)) <$> guessed_little_endian payload.

Definition utf16_unit (little_endian : bool) (p : Byte.byte * Byte.byte) : Z :=
  let '(first, second) := p in
  if little_endian then Z.lor (val first) (Z.shiftl (val second) 8) else Z.lor (Z.shiftl (val first) 8) (val second).

(** The loop; [pending] is the high surrogate that waits for its partner, 0
    for none. *)
Fixpoint decode_units (pending : Z) (units : list Z) : option bytes :=
  match units with
  | [] => if pending =? 0 then Some [] else None
  | unit :: rest =>
      if unit =? 0 then decode_units pending rest
      else if (0xD800 <=? unit) && (unit <=? 0xDBFF) then
        if negb (pending =? 0) then None else decode_units unit rest
      else if (0xDC00 <=? unit) && (unit <=? 0xDFFF) then
        if pending =? 0 then None
        else app (utf8_code_point (0x10000 + Z.shiftl (pending - 0xD800) 10 + (unit - 0xDC00))) <$> decode_units 0 rest
      else if negb (pending =? 0) then None
      else app (utf8_code_point unit) <$> decode_units pending rest
  end.

Definition odd_size (payload : bytes) : bool := Z.odd (size_of payload).

Definition try_decode_utf16_json (payload : bytes) : option bytes :=
  if (size_of payload <? 4) || odd_size payload then None
  else
    '(little_endian, rest) ← utf16_layout payload;
    if bool_decide (rest = []) || odd_size rest then None
    else decode_units 0 (utf16_unit little_endian <$> byte_pairs rest).

Definition normalize_websocket_request_payload (payload : bytes) : bytes :=
  match try_decode_utf16_json payload with
  | Some utf16 => trim_ws_payload_edges utf16
  | None =>
      let trimmed := trim_ws_payload_edges payload in
      match try_decode_utf16_json trimmed with
      | Some utf16 => trim_ws_payload_edges utf16
      | None => trimmed
      end
  end.

(** ** Repairs

    The file has its own copies of [strip_invalid_utf8_bytes] and of the
    scanner of [try_extract_json_object_slice], the same as those of
    payload_normalizer.cpp; here the pass over strings does not strip
    first. *)

Definition escape_control_bytes_in_json_strings (payload : bytes) : bytes := sanitize_request_loop payload false false.

(** ** prepare_websocket_request_payload *)

Inductive WebsocketPayloadMode := NormalizeResponseCreate | Passthrough.

#[global] Instance WebsocketPayloadMode_eq_dec : EqDecision WebsocketPayloadMode.
Proof. solve_decision. Defined.

Record PreparedWebsocketPayload := mkPrepared { prepared_body : bytes; prepared_mode : WebsocketPayloadMode }.

Section codec.
Context {codec : JsonCodec}.

(** The object of the text, of the first object inside it, or of that one with
    its bytes cleaned. *)
Definition recover_object (normalized_input : bytes) : option JsonObject :=
  match read_object normalized_input with
  | Some object => Some object
  | None =>
      let candidate :=
        match try_extract_json_object_slice normalized_input with
        | Some extracted => normalize_websocket_request_payload extracted
        | None => normalized_input
        end in
      match read_object candidate with
      | Some object => Some object
      | None => read_object (escape_control_bytes_in_json_strings (strip_invalid_utf8_bytes candidate))
      end
  end.

(** A [type] that is not [response.create]. *)
Definition names_other_event (object : JsonObject) : bool :=
  match object !! $"type" with
  | Some (JString type) => negb (bool_decide (type = $"response.create"))
  | Some _ => true
  | None => false
  end.

(** The fields around the request and those of its [response] are one
    object, the inner ones first. *)
Definition flatten_response (object : JsonObject) : JsonObject :=
  let outer := delete $"response" (delete $"type" object) in
  match object_at object $"response" with
  | Some response => response ∪ outer
  | None => outer
  end.

(** The body is checked to parse, if need be after another cleaning. *)
Definition hardened (body : bytes) : except bytes :=
  match read_object body with
  | Some _ => Ret body
  | None =>
      let hardened_body := escape_control_bytes_in_json_strings (strip_invalid_utf8_bytes body) in
      match read_object hardened_body with
      | Some _ => Ret hardened_body
      | None => Throw $"failed to sanitize response.create request payload"
      end
  end.

Definition prepare_websocket_request_payload (raw_request_body : bytes) : except PreparedWebsocketPayload :=
  let normalized_input := strip_invalid_utf8_bytes (normalize_websocket_request_payload raw_request_body) in
  match recover_object normalized_input with
  | None => Ret (mkPrepared raw_request_body Passthrough)
  | Some object =>
      if names_other_event object then Ret (mkPrepared raw_request_body Passthrough)
      else
        let normalized := flatten_response object in
        if bool_decide (normalized = ∅) then Throw $"response.create payload is missing request body"
        else match write_json (JObject normalized) with
             | None => Throw $"failed to serialize response.create request payload"
             | Some serialized =>
                 normalized_body ← hardened (Text.Json.sanitize_serialized_json serialized);
                 Ret (mkPrepared normalized_body NormalizeResponseCreate)
             end
  end.

End codec.

(** ** UTF-16, as RFC 2781 defines it *)

Definition encode_units (c : Z) : list Z :=
  if c <? 0x10000 then [c] else [0xD800 + (c - 0x10000) / 1024; 0xDC00 + (c - 0x10000) mod 1024].

Definition unit_bytes (little_endian : bool) (unit : Z) : bytes :=
  let low := byte_of (unit mod 256) in
  let high := byte_of (unit / 256) in
  if little_endian then [low; high] else [high; low].

Definition encode_utf16 (little_endian : bool) (cs : list Z) : bytes :=
  concat (unit_bytes little_endian <$> concat (encode_units <$> cs)).

(** ** Code points *)

Lemma lor_disjoint a b n : 0 <= n -> Z.land a (Z.ones n) = 0 -> Z.lor a (Z.land b (Z.ones n)) = a + b mod 2 ^ n.
Proof.
  intros Hn H. rewrite <- Z.land_ones by done. rewrite <- Z.add_lor_land.
  rewrite (Z.land_comm b), Z.land_assoc, H, Z.land_0_l. lia.
Qed.

Lemma marked_bits mark code_point shift n : 0 <= shift -> 0 <= n -> Z.land mark (Z.ones n) = 0 ->
  Z.lor mark (Z.land (Z.shiftr code_point shift) (Z.ones n)) = mark + code_point / 2 ^ shift mod 2 ^ n.
Proof. intros. rewrite lor_disjoint by done. by rewrite Z.shiftr_div_pow2. Qed.

Lemma utf8_code_point_encode c : 0 <= c < 0x110000 -> utf8_code_point c = encode_utf8 c.
Proof.
  intros H. unfold utf8_code_point, encode_utf8.
  change 0x3F with (Z.ones 6). change 0x1F with (Z.ones 5). change 0x0F with (Z.ones 4). change 0x07 with (Z.ones 3).
  rewrite !marked_bits by done.
  destruct (Z.leb_spec c 0x7F), (Z.ltb_spec c 0x80); try lia; [done|].
  destruct (Z.leb_spec c 0x7FF), (Z.ltb_spec c 0x800); try lia.
  { cbn [fmap list_fmap]. do 2 (apply cons_eq; [f_equal; Z.div_mod_to_equations; lia|]). done. }
  destruct (Z.leb_spec c 0xFFFF), (Z.ltb_spec c 0x10000); try lia.
  { cbn [fmap list_fmap]. do 3 (apply cons_eq; [f_equal; Z.div_mod_to_equations; lia|]). done. }
  destruct (Z.leb_spec c 0x10FFFF); [|lia]. cbn [fmap list_fmap].
  do 4 (apply cons_eq; [f_equal; Z.div_mod_to_equations; lia|]). done.
Qed.

(** ** Units *)

Lemma lor_bytes low high : 0 <= low < 256 -> Z.lor low (Z.shiftl high 8) = low + 256 * high.
Proof.
  intros H. rewrite Z.shiftl_mul_pow2 by done. pose proof (Z.add_lor_land low (high * 2 ^ 8)) as E. revert E.
  assert (Z.land low (high * 2 ^ 8) = 0) as ->; [|lia].
  replace low with (low mod 2 ^ 8) by (apply Z.mod_small; lia). rewrite <- Z.land_ones by done.
  rewrite <- Z.land_assoc, (Z.land_comm (Z.ones 8)), Z.land_ones by done. rewrite Z.mod_mul by done. apply Z.land_0_r.
Qed.

Lemma utf16_unit_bytes little_endian unit : in_uint 16 unit ->
  exists first second, unit_bytes little_endian unit = [first; second] /\ utf16_unit little_endian (first, second) = unit.
Proof.
  unfold in_uint, unit_bytes, utf16_unit. intros H. destruct little_endian; (do 2 eexists; split; [done|]);
    rewrite ?(Z.lor_comm (Z.shiftl _ _)); rewrite !val_byte_small by (Z.div_mod_to_equations; lia);
    rewrite lor_bytes by (Z.div_mod_to_equations; lia); Z.div_mod_to_equations; lia.
Qed.

Lemma units_read_back little_endian units : Forall (in_uint 16) units ->
  utf16_unit little_endian <$> byte_pairs (concat (unit_bytes little_endian <$> units)) = units.
Proof.
  induction 1 as [|unit units H _ IH]; [done|]. destruct (utf16_unit_bytes little_endian unit H) as (b1 & b2 & E & Eu).
  rewrite fmap_cons, concat_cons, E. cbn [app byte_pairs]. rewrite fmap_cons, Eu. by f_equal.
Qed.

Lemma encode_units_range c : is_scalar c -> Forall (in_uint 16) (encode_units c).
Proof.
  intros [H Hs]. unfold encode_units. destruct (Z.ltb_spec c 0x10000).
  - apply Forall_singleton. unfold in_uint. lia.
  - apply Forall_cons. split; [|apply Forall_singleton]; unfold in_uint; Z.div_mod_to_equations; lia.
Qed.

Lemma encoded_range cs : Forall is_scalar cs -> Forall (in_uint 16) (concat (encode_units <$> cs)).
Proof.
  induction 1 as [|c cs Hc _ IH]; [constructor|]. rewrite fmap_cons, concat_cons. apply Forall_app.
  split; [by apply encode_units_range|done].
Qed.

(** A scalar value other than NUL comes back in UTF-8. *)
Definition is_text (c : Z) : Prop := is_scalar c /\ c <> 0.

Lemma decode_units_encode c units : is_text c ->
  decode_units 0 (encode_units c ++ units) = app (encode_utf8 c) <$> decode_units 0 units.
Proof.
  intros [[H Hs] Hn]. unfold encode_units. destruct (Z.ltb_spec c 0x10000) as [Hc|Hc]; cbn [app decode_units].
  - destruct (Z.eqb_spec c 0); [done|]. rewrite (utf8_code_point_encode c) by lia.
    destruct (Z.leb_spec 0xD800 c), (Z.leb_spec c 0xDBFF); cbn [andb]; try lia;
      (destruct (Z.leb_spec 0xDC00 c), (Z.leb_spec c 0xDFFF); cbn [andb negb Z.eqb]; try lia; done).
  - assert (exists high low, (c - 0x10000) / 1024 = high /\ (c - 0x10000) mod 1024 = low /\
      0 <= high < 1024 /\ 0 <= low < 1024 /\ c = 0x10000 + high * 1024 + low) as (high & low & -> & -> & Hh & Hl & Ec).
    { do 2 eexists. split; [done|]. split; [done|]. Z.div_mod_to_equations; lia. }
    destruct (Z.eqb_spec (0xD800 + high) 0); [lia|]. destruct (Z.eqb_spec (0xDC00 + low) 0); [lia|].
    destruct (Z.leb_spec 0xD800 (0xD800 + high)), (Z.leb_spec (0xD800 + high) 0xDBFF); cbn [andb]; try lia.
    rewrite Z.eqb_refl. cbn [negb].
    destruct (Z.leb_spec 0xD800 (0xDC00 + low)), (Z.leb_spec (0xDC00 + low) 0xDBFF); cbn [andb]; try lia;
      (destruct (Z.leb_spec 0xDC00 (0xDC00 + low)), (Z.leb_spec (0xDC00 + low) 0xDFFF); cbn [andb]; try lia).
    destruct (Z.eqb_spec (0xD800 + high) 0); [lia|]. rewrite Z.shiftl_mul_pow2 by done.
    replace (0x10000 + (0xD800 + high - 0xD800) * 2 ^ 10 + (0xDC00 + low - 0xDC00)) with c by lia.
    by rewrite (utf8_code_point_encode c) by lia.
Qed.

Lemma decode_encoded cs : Forall is_text cs ->
  decode_units 0 (concat (encode_units <$> cs)) = Some (concat (encode_utf8 <$> cs)).
Proof.
  induction 1 as [|c cs Hc _ IH]; [done|]. rewrite !fmap_cons, !concat_cons, decode_units_encode by done. by rewrite IH.
Qed.

(** ** Telling UTF-16 from UTF-8 *)

Lemma count_all {A} (f : A -> bool) l : Forall (fun x => f x = true) l -> count_if f l = size_of l.
Proof. unfold count_if. induction 1 as [|x l H _ IH]; [done|]. cbn. rewrite H. autorewrite with tightrope. lia. Qed.

Lemma count_none {A} (f : A -> bool) l : Forall (fun x => f x = false) l -> count_if f l = 0.
Proof. unfold count_if. induction 1 as [|x l H _ IH]; [done|]. cbn. by rewrite H. Qed.

(** The byte order of a sample with zeros on one side, or on none. *)
Lemma guessed_by_zeros payload (even odd : bool) :
  (2 <= length payload)%nat ->
  Forall (fun p => is_nul p.1 = even /\ is_nul p.2 = odd) (byte_pairs payload) ->
  guessed_little_endian payload =
    match even, odd with
    | false, true => Some true
    | true, false => Some false
    | _, _ => None
    end.
Proof.
  intros Hl H. unfold guessed_little_endian.
  assert (0 < size_of (take 64 (byte_pairs payload))) as Hs by (destruct payload as [|? [|? ?]]; cbn in *; unfold size_of; cbn; lia).
  apply (Forall_take _ 64) in H. revert Hs H. generalize (take 64 (byte_pairs payload)). intros sample Hs H.
  assert (forall b, Forall (fun p => is_nul p.1 = b) sample -> count_if (fun p => is_nul p.1) sample = if b then size_of sample else 0) as H1.
  { intros [] Hb; [by apply count_all|by apply count_none]. }
  assert (forall b, Forall (fun p => is_nul p.2 = b) sample -> count_if (fun p => is_nul p.2) sample = if b then size_of sample else 0) as H2.
  { intros [] Hb; [by apply count_all|by apply count_none]. }
  rewrite (H1 even), (H2 odd) by (eapply Forall_impl; [exact H|by intros ? []]).
  destruct even, odd; repeat match goal with |- context [?a <=? ?b] => destruct (Z.leb_spec a b); try lia end; done.
Qed.

Lemma pairs_forall (P : Byte.byte -> Prop) payload : Forall P payload -> Forall (fun p => P p.1 /\ P p.2) (byte_pairs payload).
Proof.
  enough (forall n payload, (length payload <= n)%nat -> Forall P payload -> Forall (fun p => P p.1 /\ P p.2) (byte_pairs payload)) as H
    by by apply (H (length payload)).
  induction n as [|n IH]; intros [|b1 [|b2 rest]] Hn H; cbn in *; try constructor; try lia;
    apply Forall_cons in H as [H1 H]; apply Forall_cons in H as [H2 H]; [done|]. apply IH; [lia|done].
Qed.

(** The bytes of UTF-8 without NUL. *)
Definition plain_utf8_byte (ch : Byte.byte) : Prop := 0 < val ch < 0xF8.

Lemma unmarked little_endian payload ch : head payload = Some ch -> val ch < 0xFE -> starts_with_bytes (utf16_mark little_endian) payload = false.
Proof.
  intros Hh Hc. apply bool_decide_eq_false. destruct payload as [|ch' payload]; [done|]. cbn in Hh. injection Hh as ->.
  destruct little_endian; cbn; intros E; injection E as -> _; cbn in Hc; revert Hc; vm_compute; congruence.
Qed.

Lemma utf8_not_utf16 payload : Forall plain_utf8_byte payload -> try_decode_utf16_json payload = None.
Proof.
  intros H. unfold try_decode_utf16_json. destruct (Z.ltb_spec (size_of payload) 4) as [|Hs]; [done|]. cbn [orb].
  destruct (odd_size payload); [done|]. unfold utf16_layout.
  destruct payload as [|ch payload]; [done|]. pose proof (Forall_inv H) as Hc. unfold plain_utf8_byte in Hc.
  rewrite !(unmarked _ _ ch) by (done || lia).
  rewrite (guessed_by_zeros (ch :: payload) false false); [done|unfold size_of in Hs; lia|].
  eapply Forall_impl; [by apply pairs_forall|]. intros [a b] [Ha Hb]. cbn in *. unfold plain_utf8_byte, is_nul in *.
  rewrite !Z.eqb_neq. lia.
Qed.

(** *** Encoded text is recognised *)

Lemma unit_bytes_length little_endian units : length (concat (unit_bytes little_endian <$> units)) = (2 * length units)%nat.
Proof.
  induction units as [|u units IH]; [done|]. rewrite fmap_cons, concat_cons, length_app, IH.
  destruct little_endian; cbn; lia.
Qed.

Lemma units_length cs : (length cs <= length (concat (encode_units <$> cs)))%nat.
Proof.
  induction cs as [|c cs IH]; [done|]. rewrite fmap_cons, concat_cons, length_app. unfold encode_units at 1.
  case_match; cbn; lia.
Qed.

Lemma even_size n (payload : bytes) : length payload = (2 * n)%nat -> odd_size payload = false.
Proof. unfold odd_size, size_of. intros ->. rewrite Nat2Z.inj_mul. apply Z.odd_mul. Qed.

Lemma decode_layout little_endian mark cs :
  Forall is_text cs -> cs <> [] -> length mark = 0%nat \/ length mark = 2%nat ->
  (4 <= length mark + length (encode_utf16 little_endian cs))%nat ->
  utf16_layout (mark ++ encode_utf16 little_endian cs) = Some (little_endian, encode_utf16 little_endian cs) ->
  try_decode_utf16_json (mark ++ encode_utf16 little_endian cs) = Some (concat (encode_utf8 <$> cs)).
Proof.
  intros Hcs Hne Hm Hl Hlay. pose proof (unit_bytes_length little_endian (concat (encode_units <$> cs))) as Hu.
  fold (encode_utf16 little_endian cs) in Hu. pose proof (units_length cs) as Hc.
  assert (0 < length cs)%nat by (destruct cs; [done|cbn; lia]).
  unfold try_decode_utf16_json. destruct (Z.ltb_spec (size_of (mark ++ encode_utf16 little_endian cs)) 4) as [Hs|_].
  { unfold size_of in Hs. rewrite length_app in Hs. lia. }
  assert (exists n, length (mark ++ encode_utf16 little_endian cs) = (2 * n)%nat) as [n Hn].
  { rewrite length_app, Hu. destruct Hm as [->| ->]; [by eexists|exists (1 + length (concat (encode_units <$> cs)))%nat; lia]. }
  rewrite (even_size n) by done. cbn [orb]. rewrite Hlay. cbn [mbind option_bind].
  rewrite (even_size _ _ Hu), bool_decide_false by (intros E; rewrite E in Hu; cbn in Hu; lia). cbn [orb].
  unfold encode_utf16. rewrite units_read_back by (apply encoded_range; eapply Forall_impl; [exact Hcs|by intros ? []]).
  by apply decode_encoded.
Qed.

Lemma marked_decodes little_endian cs : Forall is_text cs -> cs <> [] ->
  try_decode_utf16_json (utf16_mark little_endian ++ encode_utf16 little_endian cs) = Some (concat (encode_utf8 <$> cs)).
Proof.
  intros Hcs Hne. apply decode_layout; [done|done|right; by destruct little_endian| |].
  - unfold encode_utf16. rewrite unit_bytes_length. pose proof (units_length cs). destruct cs; [done|]. destruct little_endian; cbn in *; lia.
  - by destruct little_endian.
Qed.

(** ASCII text needs no mark. *)
Lemma ascii_units cs : Forall (fun c => 0 < c < 0x80) cs -> concat (encode_units <$> cs) = cs.
Proof.
  induction 1 as [|c cs H _ IH]; [done|]. rewrite fmap_cons, concat_cons, IH. unfold encode_units.
  by destruct (Z.ltb_spec c 0x10000); [|lia].
Qed.

Lemma ascii_unit_bytes little_endian c : 0 < c < 0x80 ->
  unit_bytes little_endian c = if little_endian then [byte_of c; byte_of 0] else [byte_of 0; byte_of c].
Proof.
  intros H. unfold unit_bytes. rewrite Z.mod_small by lia. by replace (c / 256) with 0 by (Z.div_mod_to_equations; lia).
Qed.

Lemma ascii_pairs little_endian cs : Forall (fun c => 0 < c < 0x80) cs ->
  Forall (fun p => is_nul p.1 = negb little_endian /\ is_nul p.2 = little_endian)
    (byte_pairs (concat (unit_bytes little_endian <$> cs))).
Proof.
  induction 1 as [|c cs H _ IH]; [constructor|]. rewrite fmap_cons, concat_cons, ascii_unit_bytes by done.
  assert (is_nul (byte_of c) = false) as Hc by (unfold is_nul; rewrite val_byte_small, Z.eqb_neq by lia; lia).
  destruct little_endian; cbn [app byte_pairs]; (constructor; [cbn [fst snd]; by rewrite Hc|exact IH]).
Qed.

Lemma ascii_decodes little_endian cs : Forall (fun c => 0 < c < 0x80) cs -> (2 <= length cs)%nat ->
  try_decode_utf16_json (encode_utf16 little_endian cs) = Some (concat (encode_utf8 <$> cs)).
Proof.
  intros Hcs Hl.
  assert (Forall is_text cs) as Ht by (eapply Forall_impl; [exact Hcs|]; intros c Hc; split; [split|]; cbn in Hc; lia).
  assert (encode_utf16 little_endian cs = concat (unit_bytes little_endian <$> cs)) as E by (unfold encode_utf16; by rewrite ascii_units).
  assert (length (encode_utf16 little_endian cs) = (2 * length cs)%nat) as El by (rewrite E; apply unit_bytes_length).
  apply (decode_layout little_endian []); [done|intros ->; cbn in Hl; lia|by left|cbn [length]; lia|]. cbn [app]. unfold utf16_layout.
  assert (exists ch, head (encode_utf16 little_endian cs) = Some ch /\ val ch < 0xFE) as (ch & Hh & Hc).
  { destruct cs as [|c cs]; [cbn in Hl; lia|]. pose proof (Forall_inv Hcs) as Hc. cbn in Hc.
    rewrite E, fmap_cons, concat_cons, ascii_unit_bytes by done.
    destruct little_endian; (eexists; split; [done|]); rewrite val_byte_small; lia. }
  rewrite !(unmarked _ _ ch) by done.
  rewrite (guessed_by_zeros _ (negb little_endian) little_endian); [by destruct little_endian|lia|].
  rewrite E. by apply ascii_pairs.
Qed.

(** ** Trimming keeps the encoding *)

Lemma encode_plain c : is_text c -> Forall plain_utf8_byte (encode_utf8 c).
Proof.
  intros [[H _] Hn]. unfold encode_utf8, plain_utf8_byte.
  repeat case_match; bool_hyps; cbn [fmap list_fmap]; repeat (apply Forall_cons; split); try apply Forall_nil_2;
    rewrite val_byte_small; Z.div_mod_to_equations; lia.
Qed.

Lemma text_plain cs : Forall is_text cs -> Forall plain_utf8_byte (concat (encode_utf8 <$> cs)).
Proof.
  induction 1 as [|c cs H _ IH]; [constructor|]. rewrite fmap_cons, concat_cons. apply Forall_app. split; [by apply encode_plain|done].
Qed.

Lemma trim_front_suffix s : exists pre, s = pre ++ trim_front s.
Proof.
  induction s as [|ch s [pre E]]; [by exists []|]. cbn [trim_front]. case_match; [exists (ch :: pre); cbn; by rewrite <- E|by exists []].
Qed.

Lemma trim_back_prefix s : exists post, s = trim_back s ++ post.
Proof.
  unfold trim_back. destruct (trim_front_suffix (rev s)) as [pre E]. exists (rev pre).
  rewrite <- rev_app_distr, <- E. by rewrite rev_involutive.
Qed.

Lemma without_bom_suffix s : exists pre, s = pre ++ without_bom s.
Proof. unfold without_bom. case_match; [exists (take 3 s); by rewrite take_drop|by exists []]. Qed.

Lemma trim_forall (P : Byte.byte -> Prop) s : Forall P s -> Forall P (trim_ws_payload_edges s).
Proof.
  intros H. unfold trim_ws_payload_edges. destruct (without_bom_suffix s) as [p1 E1]. rewrite E1 in H. apply Forall_app in H as [_ H].
  destruct (trim_front_suffix (without_bom s)) as [p2 E2]. rewrite E2 in H. apply Forall_app in H as [_ H].
  destruct (trim_back_prefix (trim_front (without_bom s))) as [p3 E3]. rewrite E3 in H. by apply Forall_app in H as [H _].
Qed.

Lemma trimmed_char ch : is_ascii_ws_trim_char (val ch) = true -> val ch <= 0x7F.
Proof. unfold is_ascii_ws_trim_char. rewrite orb_true_iff, Z.leb_le, Z.eqb_eq. lia. Qed.

(** An ASCII byte in front encodes itself. *)
Lemma valid_utf8_tail ch s : val ch <= 0x7F -> valid_utf8 (ch :: s) -> valid_utf8 s.
Proof.
  intros Hc Hv. apply strip_exact. apply strip_exact in Hv. unfold strip_invalid_utf8_bytes in *. cbn [length strip_loop] in Hv.
  destruct (Z.leb_spec (val ch) 0x7F); [|lia]. by injection Hv.
Qed.

Lemma trim_front_valid s : valid_utf8 s -> valid_utf8 (trim_front s).
Proof.
  induction s as [|ch s IH]; [done|]. intros H. cbn [trim_front]. case_match eqn:E; [|done].
  apply IH. eapply valid_utf8_tail; [by apply trimmed_char|exact H].
Qed.

(** The last byte of an encoding that is ASCII is the whole encoding. *)
Lemma valid_utf8_init s ch : val ch <= 0x7F -> valid_utf8 (s ++ [ch]) -> valid_utf8 s.
Proof.
  intros Hc (cs & Hcs & E). destruct cs as [|c cs _] using rev_ind; [by destruct s|].
  apply Forall_app in Hcs as [Hcs Hlast]. apply Forall_inv in Hlast.
  rewrite fmap_app, concat_app in E. cbn in E. rewrite app_nil_r in E. destruct (Z.leb_spec 0x80 c) as [H|H].
  - exfalso. pose proof (encode_high c Hlast H) as Hh.
    destruct (encode_utf8 c) as [|b l _] eqn:El using rev_ind; [by apply encode_utf8_nonempty in El|].
    rewrite app_assoc in E. apply app_inj_tail in E as [_ ->]. apply Forall_app in Hh as [_ Hh]. apply Forall_inv in Hh. lia.
  - unfold encode_utf8 in E. destruct (Z.ltb_spec c 0x80); [|lia]. apply app_inj_tail in E as [-> _]. by exists cs.
Qed.

Lemma trim_back_valid s : valid_utf8 s -> valid_utf8 (trim_back s).
Proof.
  induction s as [|ch s IH] using rev_ind; [done|]. intros H. unfold trim_back. rewrite rev_app_distr. cbn [rev app trim_front].
  case_match eqn:E; [apply IH; eapply valid_utf8_init; [by apply trimmed_char|exact H]|].
  cbn [rev]. by rewrite rev_involutive.
Qed.

Lemma without_bom_valid s : valid_utf8 s -> valid_utf8 (without_bom s).
Proof.
  intros H. unfold without_bom. destruct (starts_with_bytes utf8_mark s) eqn:E; [|done].
  apply bool_decide_eq_true in E. destruct s as [|b0 [|b1 [|b2 s]]]; try done. cbn in E. injection E as -> -> ->. cbn [drop].
  rewrite drop_0. apply strip_exact. apply strip_exact in H. unfold strip_invalid_utf8_bytes in *. cbn [length] in H.
  assert (is_scalar 0xFEFF) as Hs by (split; lia).
  pose proof (strip_loop_encode (S (S (S (length s)))) 0xFEFF s Hs ltac:(lia)) as Hb.
  change (encode_utf8 0xFEFF ++ s) with (Byte.xef :: Byte.xbb :: Byte.xbf :: s) in Hb. rewrite Hb in H.
  assert (strip_loop (pred (S (S (S (length s))))) s = s) as Hf by (injection H as H; exact H).
  change (pred (S (S (S (length s))))) with (S (S (length s))) in Hf.
  assert (valid_utf8 s) as Hv by (rewrite <- Hf; apply strip_loop_valid). by apply strip_valid.
Qed.

Lemma trim_valid s : valid_utf8 s -> valid_utf8 (trim_ws_payload_edges s).
Proof. intros. by apply trim_back_valid, trim_front_valid, without_bom_valid. Qed.

(** ** The text of a client *)

(** However a client encodes a text without NUL, the proxy reads the same
    bytes: in UTF-16 of either byte order behind a byte order mark, in UTF-16
    of either byte order without one when the text is ASCII, or in UTF-8,
    which is never taken for UTF-16.  What it reads is the text in UTF-8
    without blanks at its edges, and cleaning takes no byte from it. (C21) *)
Theorem client_text_recovered cs :
  Forall is_text cs -> cs <> [] ->
  let text := trim_ws_payload_edges (concat (encode_utf8 <$> cs)) in
  normalize_websocket_request_payload (concat (encode_utf8 <$> cs)) = text /\
  (forall little_endian,
     normalize_websocket_request_payload (utf16_mark little_endian ++ encode_utf16 little_endian cs) = text) /\
  (Forall (fun c => c < 0x80) cs -> (2 <= length cs)%nat ->
   forall little_endian, normalize_websocket_request_payload (encode_utf16 little_endian cs) = text) /\
  strip_invalid_utf8_bytes text = text.
Proof.
  intros Hcs Hne text. pose proof (text_plain cs Hcs) as Hp. unfold normalize_websocket_request_payload. split_and!.
  - rewrite utf8_not_utf16 by done. cbv zeta. by rewrite utf8_not_utf16 by by apply trim_forall.
  - intros le. by rewrite marked_decodes.
  - intros Ha Hl le. rewrite ascii_decodes; [done| |done]. apply Forall_forall. intros c Hc.
    rewrite Forall_forall in Hcs, Ha. specialize (Ha c Hc). destruct (Hcs c Hc) as [[? _] ?]. lia.
  - apply strip_valid, trim_valid. exists cs. split; [|done]. eapply Forall_impl; [exact Hcs|]. by intros ? [].
Qed.

(** ** What is sent on *)

(** A field of the flattened request is the field of [response], and else the
    outer one, without the envelope's own fields. *)
Definition flattened_field (object : JsonObject) (key : bytes) : option Json :=
  match object_at object $"response" ≫= (fun response => response !! key) with
  | Some value => Some value
  | None => if bool_decide (key = $"type") || bool_decide (key = $"response") then None else object !! key
  end.

Lemma flatten_lookup object key : flatten_response object !! key = flattened_field object key.
Proof.
  unfold flatten_response, flattened_field. set (outer := delete _ _).
  assert (outer !! key = if bool_decide (key = $"type") || bool_decide (key = $"response") then None else object !! key) as Eo.
  { unfold outer. case_bool_decide as H1; cbn [orb]; [subst key; by rewrite lookup_delete_ne, lookup_delete_eq|].
    case_bool_decide as H2; [subst key; by rewrite lookup_delete_eq|]. by rewrite !lookup_delete_ne. }
  destruct (object_at object $"response") as [response|]; cbn [mbind option_bind]; [|done].
  rewrite lookup_union, Eo. by destruct (response !! key), (if bool_decide (key = _) || _ then _ else _).
Qed.

Section prepared.
Context {codec : JsonCodec}.

Lemma hardened_reads body body' : hardened body = Ret body' -> is_Some (read_object body').
Proof.
  unfold hardened. destruct (read_object body) eqn:E; [intros [= <-]; by eexists|].
  destruct (read_object (escape_control_bytes_in_json_strings _)) eqn:E'; [intros [= <-]; by eexists|done].
Qed.

(** Whatever arrives, a frame that is accepted is either passed on byte for
    byte, when no object can be found in it or the object names an event other
    than [response.create], or it becomes the request of a response: the body
    is an object for the parser that will read it, written from the object
    that was found with the fields of [response] in the place of the
    envelope. *)
Theorem frame_passed_or_flattened raw prepared :
  prepare_websocket_request_payload raw = Ret prepared ->
  let found := recover_object (strip_invalid_utf8_bytes (normalize_websocket_request_payload raw)) in
  match prepared_mode prepared with
  | Passthrough => prepared_body prepared = raw /\ forall object, found = Some object -> names_other_event object = true
  | NormalizeResponseCreate =>
      is_Some (read_object (prepared_body prepared)) /\
      exists object request serialized,
        found = Some object /\ names_other_event object = false /\
        request <> ∅ /\ (forall key, request !! key = flattened_field object key) /\
        write_json (JObject request) = Some serialized /\
        hardened (Text.Json.sanitize_serialized_json serialized) = Ret (prepared_body prepared)
  end.
Proof.
  unfold prepare_websocket_request_payload. cbv zeta. destruct (recover_object _) as [object|] eqn:Eo; [|by intros [= <-]].
  destruct (names_other_event object) eqn:En; [intros [= <-]; cbn; split; [done|by intros ? [= <-]]|].
  case_bool_decide as He; [done|]. destruct (write_json _) as [serialized|] eqn:Ew; [|done].
  intros H. apply bind_Ret in H as (body & Hb & [= <-]). cbn. split; [by eapply hardened_reads|].
  exists object, (flatten_response object), serialized. split_and!; try done. apply flatten_lookup.
Qed.

End prepared.

(** A control character behind a backslash is kept, although one in a string
    is dropped or escaped elsewhere. *)
Lemma escaped_control_kept :
  escape_control_bytes_in_json_strings [Byte.x22; Byte.x5c; Byte.x01; Byte.x01; Byte.x22] = [Byte.x22; Byte.x5c; Byte.x01; Byte.x22].
Proof. reflexivity. Qed.

(** ** Concrete frames *)

Definition smile : list Z := [0x7B; 0x22; 0xE9; 0x22; 0x3A; 0x1F600; 0x7D].

Lemma client_text_recovered_witness :
  normalize_websocket_request_payload (utf16_mark false ++ encode_utf16 false smile) =
  normalize_websocket_request_payload (concat (encode_utf8 <$> smile)).
Proof.
  assert (Forall is_text smile) as H by (repeat (apply Forall_cons; split; [split; [split|]; lia|]); apply Forall_nil_2).
  destruct (client_text_recovered smile H ltac:(done)) as (E & Em & _). exact (eq_trans (Em false) (eq_sym E)).
Defined.

Definition create_frame : JsonObject :=
  make_object [($"type", JString $"response.create"); ($"model", JString $"outer");
    ($"response", JObject (make_object [($"model", JString $"inner")]))].

(** The frame is read from two letters, its flattened form is written as
    [{}]. *)
Definition frame_codec : JsonCodec := {|
  read_json := fun s =>
    if bool_decide (s = $"fr") then Some (JObject create_frame)
    else if bool_decide (s = $"{}") then Some (JObject (flatten_response create_frame)) else None;
  write_json := fun _ => Some $"{}" |}.

Lemma frame_passed_or_flattened_witness :
  flatten_response create_frame !! $"model" = Some (JString $"inner") /\
  is_Some (@read_object frame_codec $"{}").
Proof.
  split; [vm_compute; reflexivity|].
  assert (@prepare_websocket_request_payload frame_codec $"fr" = Ret (mkPrepared $"{}" NormalizeResponseCreate)) as H
    by (vm_compute; reflexivity).
  exact (proj1 (@frame_passed_or_flattened frame_codec $"fr" (mkPrepared $"{}" NormalizeResponseCreate) H)).
Defined.
