(* ===== verification/WsProxy.v ===== *)
(** * WsProxy: a websocket frame from its arrival to its answer

    [proxy_responses_websocket] of src/native/proxy/src/ws_proxy.cpp, in the
    world of [Service]: a [response.create] frame runs through the phases of a
    request for a response, each with a websocket plan; any other frame is sent
    once, as it came and for no account. *)

From S2P Require Import Prelude Codec Text Double JsonValue Except Env Fernet TokenStore Headers ModelRegistry ErrorPolicy RequestPlan.
From S2P Require Import Sessions SessionRepo HttpBridge Accounts RoutingStore StickyAffinity Routing ProxyServer.
From S2P Require Import Usage AccountTraffic ServiceHelpers Service ServiceLaws WsPayload.

(** proxy/include/ws_proxy.h *)
Record ProxyWsResult := mkWsResult {
  ws_status : Z;
  ws_accepted : bool;
  ws_close_code : Z;
  ws_frames : list bytes;
  routed_account_id : bytes;
  ws_sticky_reused : bool;
}.

Section websocket.
Context {sodium : Sodium} {codec : JsonCodec}.
Context (env : environment) (strtod : bytes -> double * nat) (pow : double -> double -> double).
Context (config : Config) (crypto : TokenStorageCryptoState) (thread : Z) (at_call : nat -> CallEnv).

(** ** Results *)

Definition build_websocket_error_result (status : Z) (accepted : bool) (close_code : Z)
    (error_code message error_type error_param account : bytes) (sticky : bool) : except ProxyWsResult :=
  frame ← build_websocket_error_event_json status error_code message error_type error_param;
  Ret (mkWsResult status accepted close_code [frame] account sticky).

Definition ws_not_found : except ProxyWsResult :=
  build_websocket_error_result 404 false 1008 $"not_found" $"Route not found" $"server_error" [] [] false.

Definition ws_invalid_payload (account : bytes) (sticky : bool) : except ProxyWsResult :=
  build_websocket_error_result 400 false 1008 $"invalid_request_error" $"Invalid request payload" $"invalid_request_error"
    $"input" account sticky.

Definition ws_unavailable (t : Turn) : except ProxyWsResult :=
  build_websocket_error_result 409 false 1011 $"previous_response_account_unavailable"
    $"Previous response account is unavailable" $"invalid_request_error" $"previous_response_id" (turn_account t)
    (sticky_reused t).

Definition normalize_upstream_frames (frames : list bytes) : list bytes := normalize_stream_event_payload_json <$> frames.

(** The result of an answer that is no HTTP error and was accepted, its frames
    being what they are. *)
Definition accepted_result (u : Upstream) (close_code : Z) (account : bytes) (sticky : bool) : ProxyWsResult :=
  let frames := normalize_upstream_frames (ErrorPolicy.events u) in
  if bool_decide (frames = [])
  then mkWsResult 101 false (if close_code =? 1000 then 1011 else close_code) [] account sticky
  else mkWsResult 101 true close_code frames account sticky.

Definition upstream_accepted (u : Upstream) : bool :=
  ErrorPolicy.accepted u || (ErrorPolicy.status u =? 101) || negb (bool_decide (ErrorPolicy.events u = [])).

Definition answer_websocket (bridged_headers : HeaderMap) (sticky : bool) (x : Exchange) : Service ProxyWsResult :=
  let u := upstream x in
  let account := turn_account (turn x) in
  if 400 <=? ErrorPolicy.status u then
    let details := extract_upstream_error_details u in
    let code := ErrorPolicy.code details in
    let message := if is_empty (ErrorPolicy.message details) then default_error_message_for_code code
                   else ErrorPolicy.message details in
    let error_type := if is_empty (ErrorPolicy.type details) then $"server_error" else ErrorPolicy.type details in
    lift (build_websocket_error_result (ErrorPolicy.status u) false 1011 code message error_type (ErrorPolicy.param details)
            account sticky)
  else
    let accepted := upstream_accepted u in
    let close_code := if 0 <? ErrorPolicy.close_code u then ErrorPolicy.close_code u else if accepted then 1000 else 1011 in
    let error_code := resolved_upstream_error_code u in
    if negb accepted then
      let status := if 400 <=? ErrorPolicy.status u then ErrorPolicy.status u else 502 in
      lift (build_websocket_error_result status false close_code error_code (default_error_message_for_code error_code)
              $"server_error" [] account sticky)
    else
      let result := accepted_result u close_code account sticky in
      if negb (ws_accepted result) then mret result
      else
        _ ← on_bridge at_call (fun e b => (tt, remember_request_and_response_id_from_events bridged_headers
                                         (RequestPlan.body (plan x)) (ErrorPolicy.events u) account (bridge_faults e) (now_ms e) b));
        mret result.

(** ** Plans *)

(** [plan.preserve_upstream_websocket_session = backend_codex_route] *)
Definition preserving (backend_codex_route : bool) (p : Plan) : Plan :=
  mkUpstreamRequestPlan (method p) (path p) (RequestPlan.transport p) (RequestPlan.body p) (RequestPlan.headers p)
    (websocket_binary_payload p) backend_codex_route.

Definition ws_plan (backend_codex_route : bool) (bridged_headers : HeaderMap) (body access_token account_id : bytes) :
    except Plan :=
  p ← build_responses_websocket_request_plan body bridged_headers access_token account_id [];
  Ret (preserving backend_codex_route p).

Definition build_responses_websocket_passthrough_plan (raw_request_body : bytes) (binary_frame : bool)
    (inbound_headers : HeaderMap) (access_token account_id request_id : bytes) : Plan :=
  mkUpstreamRequestPlan $"POST" kResponsesPath $"websocket" raw_request_body
    (build_upstream_websocket_headers (filter_inbound_headers inbound_headers) access_token account_id request_id)
    binary_frame false.

Definition passthrough_plan (backend_codex_route binary_frame : bool) (bridged_headers : HeaderMap)
    (body access_token account_id : bytes) : Plan :=
  preserving backend_codex_route
    (build_responses_websocket_passthrough_plan body binary_frame bridged_headers access_token account_id []).

Definition execute_websocket (t : Turn) (p : Plan) : Service Upstream :=
  in_traffic_scope thread (traffic_account_id t)
    (execute_with_budget thread at_call kStreamRetryBudget should_retry_stream_result p).

(** ** The flow *)

(** The payload of a frame; [inr] is the message of the exception. *)
Definition frame_payload (raw_request_body : bytes) (binary_frame : bool) : except PreparedWebsocketPayload :=
  if binary_frame then Ret (mkPrepared raw_request_body Passthrough)
  else prepare_websocket_request_payload raw_request_body.

Definition no_affinity : StickyAffinityResolution := mkResolution [] [] [] [] false false.

(** The turn of a frame that asks for no account. *)
Definition passthrough_turn (body : bytes) : Turn := mkTurn body false false false [] [] no_affinity.

Definition pass_through (route : bytes) (binary_frame : bool) (bridged_headers : HeaderMap) (body : bytes) :
    Service ProxyWsResult :=
  let t := passthrough_turn body in
  let p := passthrough_plan (bool_decide (route = kBackendCodexRoute)) binary_frame bridged_headers body (turn_token t)
             (turn_account t) in
  u ← execute_websocket t p;
  answer_websocket bridged_headers false (mkExchange t p u).

Definition open_response_create (route body : bytes) (bridged_headers : HeaderMap) :
    Service (StickyAffinityResolution * (Turn * bool)) :=
  affinity ← resolve_affinity config at_call body bridged_headers;
  guard ← guard_backend_codex_previous_response at_call route body bridged_headers affinity;
  opened ← open_turn env strtod pow crypto at_call bridged_headers guard affinity;
  mret (affinity, opened).

Definition create_response (route body : bytes) (bridged_headers : HeaderMap) : Service ProxyWsResult :=
  begun ← open_response_create route body bridged_headers;
  let '(affinity, (t, unavailable)) := begun in
  let backend_codex_route := bool_decide (route = kBackendCodexRoute) in
  if (unavailable : bool) then lift (ws_unavailable t)
  else match ws_plan backend_codex_route bridged_headers (request_body t) (turn_token t) (turn_account t) with
       | Throw what =>
           _ ← capture_invalid_payload_snapshot env at_call route (request_body t) bridged_headers what;
           lift (ws_invalid_payload (turn_account t) (sticky_reused t))
       | Ret p =>
           x ← exchange_responses env strtod pow config crypto at_call (ws_plan backend_codex_route bridged_headers)
                 execute_websocket backend_codex_route bridged_headers affinity t p;
           answer_websocket bridged_headers (sticky_reused t) x
       end.

Definition proxy_responses_websocket (route raw_request_body : bytes) (inbound_headers : HeaderMap) (binary_frame : bool) :
    Service ProxyWsResult :=
  if negb (is_supported_responses_route route) then lift ws_not_found
  else match frame_payload raw_request_body binary_frame with
       | Throw what =>
           _ ← capture_invalid_payload_snapshot env at_call route raw_request_body inbound_headers what;
           lift (ws_invalid_payload [] false)
       | Ret prepared =>
           bridged_headers ← reading at_call (fun e => Ret (ensure_turn_state_header (fresh_turn_state e) inbound_headers).2);
           match prepared_mode prepared with
           | Passthrough => pass_through route binary_frame bridged_headers (prepared_body prepared)
           | NormalizeResponseCreate => create_response route (prepared_body prepared) bridged_headers
           end
       end.

End websocket.

(** ** Plans of a frame *)

Definition create_plans {codec : JsonCodec} (at_call : nat -> CallEnv) (route : bytes) (inbound_headers : HeaderMap)
    (build : bytes -> bytes -> bytes -> except Plan) : Prop :=
  exists headers, bridged at_call inbound_headers headers /\ build = ws_plan (bool_decide (route = kBackendCodexRoute)) headers.

Definition passthrough_plans (at_call : nat -> CallEnv) (route : bytes) (binary_frame : bool) (inbound_headers : HeaderMap)
    (build : bytes -> bytes -> bytes -> except Plan) : Prop :=
  exists headers, bridged at_call inbound_headers headers /\
    build = fun body token account =>
      Ret (passthrough_plan (bool_decide (route = kBackendCodexRoute)) binary_frame headers body token account).

Definition websocket_plans {codec : JsonCodec} (at_call : nat -> CallEnv) (route : bytes) (binary_frame : bool) (inbound_headers : HeaderMap)
    (build : bytes -> bytes -> bytes -> except Plan) : Prop :=
  create_plans at_call route inbound_headers build \/ passthrough_plans at_call route binary_frame inbound_headers build.

Section laws.
Context {sodium : Sodium} {codec : JsonCodec}.
Context (env : environment) (strtod : bytes -> double * nat) (pow : double -> double -> double).
Context (config : Config) (crypto : TokenStorageCryptoState) (thread : Z) (at_call : nat -> CallEnv).

Lemma websocket_sends {keep : ServiceWorld -> Prop} {keep_quiet : quiet keep} build sendable :
  sends (keep := keep) build sendable 3 (execute_websocket thread at_call).
Proof.
  apply (scope_sends thread build sendable 3 (fun p => execute_with_budget thread at_call kStreamRetryBudget _ p)). intros p w.
  destruct (execute_returns thread at_call kStreamRetryBudget should_retry_stream_result p w) as (u & w' & k & E & Hk & Ha);
    [done|]. exists u, w', k. split; [exact E|]. split; [|done]. change (S (Z.to_nat kStreamRetryBudget)) with 3%nat in Hk. lia.
Qed.

Lemma does_lift {A} keep ok (m : except A) w :
  does keep ok 0 (lift m) w (fun _ w' => granted w' = granted w) (fun w' => granted w' = granted w).
Proof. unfold does, wp, lift. destruct m; (split; [apply moves_refl|done]). Qed.

Lemma does_later {A} keep ok n (m : Service A) w (Q Q' : A -> ServiceWorld -> Prop) E :
  does keep ok 0 m w Q E -> (forall a w', Q a w' -> Q' a w') -> does keep ok n m w Q' E.
Proof. intros H HQ. eapply does_weaken; [exact H|lia|auto]. Qed.

Lemma answer_websocket_does ok (ok_mono : forall g g' a, ok g a -> ok (g ++ g') a) headers sticky x w :
  does anything ok 0 (answer_websocket at_call headers sticky x) w (fun _ w' => granted w' = granted w) (fun w' => granted w' = granted w).
Proof.
  unfold answer_websocket. destruct (400 <=? _); [apply does_lift|]. cbv zeta. destruct (negb (upstream_accepted _)); [apply does_lift|].
  apply does_skip; [done|]. intros _. apply (does_bind _ ok_mono 0 0 _ _ _ _ (fun _ w' => granted w' = granted w)).
  - apply does_remember.
  - intros _ w1 _ Hg. by apply does_ret.
Qed.

(** Nothing more is asked of the outcome. *)
Lemma does_mono_exit {A} keep ok n (m : Service A) w (Q : A -> ServiceWorld -> Prop) E :
  does keep ok n m w Q E -> does keep ok n m w (fun _ _ => True) (fun _ => True).
Proof. intros H. eapply wp_mono; [exact H| |]; cbn; intros; by destruct_and?. Qed.

Lemma does_headers {keep : ServiceWorld -> Prop} {keep_quiet : quiet keep} ok inbound_headers w E :
  does keep ok 0 (reading at_call (fun e => Ret (ensure_turn_state_header (fresh_turn_state e) inbound_headers).2)) w
    (fun h w' => granted w' = granted w /\ bridged at_call inbound_headers h) E.
Proof.
  eapply does_weaken; [apply (does_reading at_call _ (fun e => (ensure_turn_state_header (fresh_turn_state e) inbound_headers).2))|done|].
  intros h w' _ [Hg ->]. split; [done|by eexists].
Qed.

(** *** A frame that is passed through *)

Definition untouched (route : bytes) (binary_frame : bool) (inbound_headers : HeaderMap) (body : bytes)
    (g : list Credentials) (a : Attempt) : Prop :=
  attempt_account a = [] /\ attempt_grants a = 0%nat /\
  exists headers, bridged at_call inbound_headers headers /\
    attempt_plan a = passthrough_plan (bool_decide (route = kBackendCodexRoute)) binary_frame headers body [] [].

Lemma pass_through_does route binary_frame inbound_headers headers body w :
  bridged at_call inbound_headers headers -> granted w = [] ->
  does anything (untouched route binary_frame inbound_headers body) 3 (pass_through thread at_call route binary_frame headers body) w
    (fun _ w' => granted w' = granted w) (fun w' => granted w' = granted w).
Proof.
  intros Hh Hnone. unfold pass_through. set (p := passthrough_plan _ _ _ _ _ _).
  assert (does anything (untouched route binary_frame inbound_headers body) 3 (execute_websocket thread at_call (passthrough_turn body) p) w
    (fun _ w' => granted w' = granted w) (fun w' => granted w' = granted w)) as Hs.
  { unfold execute_websocket, does, wp, in_traffic_scope.
    destruct (execute_returns thread at_call kStreamRetryBudget should_retry_stream_result p
      (set_traffic (set_context thread [] (traffic w)) w)) as (u & w' & k & E & Hk & [Hg Hr Hbr Htr Htk (l & El & Ll & Fl)]); [done|].
    cbn [traffic_account_id passthrough_turn]. rewrite E. split; [|exact Hg]. split.
    - exists []. by rewrite app_nil_r.
    - exists l. split; [done|]. split; [change (S (Z.to_nat kStreamRetryBudget)) with 3%nat in Hk; lia|].
      eapply Forall_impl; [exact Fl|]. intros a (Ep & Ea & En). split; [|split; [|by exists headers]].
      2: { rewrite En. cbn. by rewrite Hnone. }
      rewrite Ea. unfold context_of, current_account_traffic_context_account_id. cbn. by rewrite lookup_insert_eq.
    - done. }
  assert (forall g g' a, untouched route binary_frame inbound_headers body g a -> untouched route binary_frame inbound_headers body (g ++ g') a)
    as Hmono by done.
  change 3%nat with (3 + 0)%nat. eapply does_bind; [exact Hmono|exact Hs|]. intros u w1 _ Hg1. cbn beta in Hg1.
  rewrite <- Hg1. apply answer_websocket_does, Hmono.
Qed.

(** *** A request for a response *)

Section create.
Context {keep : ServiceWorld -> Prop} {keep_quiet : quiet keep} (sendable : bytes -> Prop) (carries : bytes -> bool -> bool -> Prop).
Context (route body : bytes) (inbound_headers : HeaderMap).
Context (carries_sendable : forall body c o, carries body c o -> sendable body).
Context (carries_rewrite : forall headers f w body body',
  bridged at_call inbound_headers headers -> keep w -> carries body true true ->
  (replace_previous_response_id_from_bridge body headers f (now_ms (at_call (tick w))) (bridge_of w)).1 = Some body' ->
  sendable body').
Context (carries_fallback : forall headers body c o w body',
  carries body c o -> (fallback_body_with_local_context at_call body headers c o w).1 = Ret (Some body') ->
  carries body' false false /\
  carries body' (request_has_previous_response_id body')
    (request_has_previous_response_id body' && request_contains_function_call_output body')).
Context (guard_carries : forall headers affinity w E, bridged at_call inbound_headers headers -> keep w ->
  does keep (authorised (fun _ _ _ => Throw []) (fun _ => True)) 0 (guard_backend_codex_previous_response at_call route body headers affinity) w
    (fun g w' => granted w' = granted w /\ carries (guard_body g) (guard_continuation g) (guard_function_call_output g)) E).

Lemma open_create_does ok (ok_mono : forall g g' a, ok g a -> ok (g ++ g') a) headers w E :
  bridged at_call inbound_headers headers -> granted w = [] -> keep w ->
  does keep ok 0 (open_response_create env strtod pow config crypto at_call route body headers) w
    (fun r w' => sound_turn carries r.2.1 (granted w')) E.
Proof.
  intros Hh Hnone Hn. unfold open_response_create. apply (does_bind _ ok_mono 0 0 _ _ _ _ (fun _ w' => granted w' = granted w)).
  { apply (does_routing (keep := keep)); intros e r; by rewrite resolve_affinity_rows. }
  intros affinity w1 Hm1 Hg1. eapply (does_bind _ ok_mono 0 0).
  { eapply does_zero, guard_carries; [exact Hh|by apply Hm1]. }
  intros guard w2 Hm2 [Hg2 Hj]. cbn beta in Hj. eapply (does_bind _ ok_mono 0 0).
  { eapply does_zero, (open_turn_does env strtod pow crypto at_call (fun _ _ _ => Throw []) (fun _ => True) carries headers);
      [exact carries_fallback|congruence|exact Hj]. }
  intros opened w3 Hm3 Ht. by apply does_ret.
Qed.

Lemma create_does headers w :
  bridged at_call inbound_headers headers -> granted w = [] -> keep w ->
  does anything (sent_through (create_plans at_call route inbound_headers) sendable) 12
    (create_response env strtod pow config crypto thread at_call route body headers) w (fun _ _ => True) (fun _ => True).
Proof.
  intros Hh Hnone Hn. pose proof (sent_through_mono (create_plans at_call route inbound_headers) sendable) as Hmono.
  unfold create_response. eapply (does_bind _ Hmono 0 12); [by apply does_knowing, open_create_does|].
  intros [affinity [t unavailable]] w1 Hm1 [Hk Ht]. cbn [fst snd] in Ht. cbv zeta.
  destruct unavailable; [eapply does_mono_exit, does_later; [apply does_lift|done]|].
  destruct (ws_plan _ headers _ _ _) as [p|what] eqn:Ep.
  - change 12%nat with (12 + 0)%nat. eapply (does_bind _ Hmono 12 0).
    + apply (does_change _ (authorised (ws_plan (bool_decide (route = kBackendCodexRoute)) headers) sendable)).
      { intros g a Ha. eexists. split; [|exact Ha]. by exists headers. }
      eapply does_knowing, (exchange_responses_does env strtod pow config crypto at_call _ (execute_websocket thread at_call) 3
        sendable carries headers (websocket_sends _ sendable)); try done. intros f w' body' body''. by apply carries_rewrite.
    + intros x w2 _ _. eapply does_mono_exit; apply answer_websocket_does, Hmono.
  - apply (does_bind _ Hmono 0 12 _ _ _ _ (fun _ _ => True)); [apply does_capture; exact _|]. intros _ w2 _ _.
    eapply does_mono_exit, does_later; [apply does_lift|done].
Qed.

End create.

(** *** Frames *)

Local Abbreviation proxy_frame := (proxy_responses_websocket env strtod pow config crypto thread at_call).

Lemma frame_payload_raw raw binary_frame prepared :
  frame_payload raw binary_frame = Ret prepared -> prepared_mode prepared = Passthrough -> prepared_body prepared = raw.
Proof.
  unfold frame_payload. destruct binary_frame; [by intros [= <-]|]. unfold prepare_websocket_request_payload.
  destruct (recover_object _) as [object|]; [|by intros [= <-]]. destruct (names_other_event object); [by intros [= <-]|].
  case_bool_decide; [done|]. destruct (write_json _) as [serialized|]; [|done].
  intros E Hm. apply bind_Ret in E as (body & _ & [= <-]). done.
Qed.

(** What every frame does before its kind matters. *)
Lemma frame_does {keep : ServiceWorld -> Prop} {keep_quiet : quiet keep} ok (ok_mono : forall g g' a, ok g a -> ok (g ++ g') a) n route raw inbound_headers binary_frame w
    (Q : ServiceWorld -> Prop) :
  keep w -> (forall w', granted w' = granted w -> Q w') ->
  (forall prepared headers w', is_supported_responses_route route = true -> frame_payload raw binary_frame = Ret prepared ->
     bridged at_call inbound_headers headers -> keep w' -> granted w' = granted w ->
     does anything ok n (match prepared_mode prepared with
                | Passthrough => pass_through thread at_call route binary_frame headers (prepared_body prepared)
                | NormalizeResponseCreate =>
                    create_response env strtod pow config crypto thread at_call route (prepared_body prepared) headers
                end) w' (fun _ => Q) Q) ->
  does anything ok n (proxy_frame route raw inbound_headers binary_frame) w (fun _ => Q) Q.
Proof.
  intros Hk HQ Hc. unfold proxy_responses_websocket.
  assert (forall w0 (m : except ProxyWsResult), granted w0 = granted w -> does anything ok n (lift m) w0 (fun _ => Q) Q) as Hlift.
  { intros w0 m Hg. unfold does, wp, lift. destruct m; (split; [eapply moves_weaken; [apply moves_refl|lia]|by apply HQ]). }
  destruct (is_supported_responses_route route) eqn:Er; cbn [negb]; [|by apply Hlift].
  destruct (frame_payload raw binary_frame) as [prepared|what] eqn:Ef.
  - apply (does_bind _ ok_mono 0 n _ _ _ _ (fun h w' => keep w' /\ granted w' = granted w /\ bridged at_call inbound_headers h)).
    { by apply does_knowing, does_headers. }
    intros headers w1 Hm [Hk1 [Hg Hh]]. by apply Hc.
  - apply (does_bind _ ok_mono 0 n _ _ _ _ (fun _ w' => granted w' = granted w)).
    + unfold does, wp, capture_invalid_payload_snapshot. destruct (capture_steps _) as [[d p] m].
      destruct (_ || _); [|destruct (negb m)]; (split; [by apply moves_quiet|done]).
    + intros _ w1 _ Hg. by apply Hlift.
Qed.

(** A frame that is not a request for a response, every binary one among them,
    is relayed untouched: what is sent upstream is the frame itself, with its
    kind, in at most three attempts; none of them carries the token or the
    name of an account, and none was chosen for it. (C12) *)
Theorem frames_relayed_untouched route raw inbound_headers binary_frame w :
  (forall prepared, frame_payload raw binary_frame = Ret prepared -> prepared_mode prepared = Passthrough) ->
  let w' := (proxy_frame route raw inbound_headers binary_frame (fresh w)).2 in
  (length (sent w') <= 3)%nat /\ granted w' = [] /\
  Forall (fun a => attempt_account a = [] /\ RequestPlan.body (attempt_plan a) = raw /\
                   websocket_binary_payload (attempt_plan a) = binary_frame /\
                   exists headers, bridged at_call inbound_headers headers /\
                     RequestPlan.headers (attempt_plan a) = build_upstream_websocket_headers (filter_inbound_headers headers) [] [] [])
    (sent w').
Proof.
  intros Hp w'.
  pose proof (frame_does (keep := anything) (untouched route binary_frame inbound_headers raw) ltac:(done) 3 route raw inbound_headers binary_frame
    (fresh w) (fun w' => granted w' = []) I) as H.
  assert (does anything (untouched route binary_frame inbound_headers raw) 3 (proxy_frame route raw inbound_headers binary_frame) (fresh w)
    (fun _ w' => granted w' = []) (fun w' => granted w' = [])) as Hd.
  { apply H; [done|]. intros prepared headers w1 _ Ef Hh _ Hg. change (granted w1 = []) in Hg. rewrite (Hp prepared Ef).
    rewrite (frame_payload_raw raw binary_frame prepared Ef (Hp prepared Ef)).
    eapply wp_mono; [by apply pass_through_does| |]; cbn; intros; destruct_and?; (split; [done|congruence]). }
  split_and!.
  - by apply (fresh_attempts _ _ _ _ _ _ Hd).
  - unfold does, wp in Hd. subst w'. destruct (proxy_frame route raw inbound_headers binary_frame (fresh w)) as [[r|what] w2]; apply Hd.
  - eapply Forall_impl; [apply (fresh_attempts _ _ _ _ _ _ Hd)|]. intros a (Ea & _ & headers & Hh & Ep). rewrite Ep.
    split_and!; try done. by exists headers.
Qed.

(** Accounts are not mixed up on a websocket either: a request for a response
    makes at most twelve attempts, each with the token and the name of the
    account granted to it last, for which its traffic is counted, and with no
    token before the first grant. *)
Theorem websocket_attempts_carry_one_account route raw inbound_headers binary_frame w :
  let w' := (proxy_frame route raw inbound_headers binary_frame (fresh w)).2 in
  (length (sent w') <= 12)%nat /\
  Forall (sent_through (websocket_plans at_call route binary_frame inbound_headers) any_body (granted w')) (sent w').
Proof.
  pose proof (sent_through_mono (websocket_plans at_call route binary_frame inbound_headers) any_body) as Hmono.
  eapply fresh_attempts. apply (frame_does (keep := anything) _ Hmono 12 _ _ _ _ _ (fun _ => True)); [done|done|].
  intros prepared headers w1 _ Ef Hh _ Hg. destruct (prepared_mode prepared).
  - apply (does_change _ (sent_through (create_plans at_call route inbound_headers) any_body)).
    { intros g a (build & Hb & Ha). exists build. split; [by left|done]. }
    apply (create_does (keep := anything) any_body (fun _ _ _ => True)); try done. intros. apply any_guard.
  - apply (does_change _ (untouched route binary_frame inbound_headers (prepared_body prepared))).
    { intros g a (Ea & En & h & Hb & Ep). eexists. split; [right; by exists h|]. exists (prepared_body prepared), [], [].
      rewrite En. split_and!; [by rewrite Ep|done|lia|done]. }
    eapply does_mono_exit, does_weaken; [by apply pass_through_does|lia|done].
Qed.

(** Tool outputs stay in their conversation on a websocket as well: whatever
    the upstream answers, a request that hands in the outputs of tools for a
    previous response is sent as it was prepared or with the identifier of
    another response that was remembered under the key of this request, never
    without one. *)
Theorem websocket_tool_outputs_keep_conversation ops route raw body inbound_headers binary_frame w :
  frame_payload raw binary_frame = Ret (mkPrepared body NormalizeResponseCreate) ->
  rereads body -> hands_in_outputs body -> named (run_log ops) w ->
  let w' := (proxy_frame route raw inbound_headers binary_frame (fresh w)).2 in
  Forall (sent_through (create_plans at_call route inbound_headers)
            (keeps_conversation at_call (run_log ops) (tick w) inbound_headers body) (granted w')) (sent w').
Proof.
  intros Ef Hread Hraw Hn. pose proof (run_nonblank ops) as Hids.
  assert (named_since (run_log ops) (tick w) (fresh w)) as Hw by done. set (keeps := keeps_conversation _ _ _ _ _).
  eapply fresh_attempts. pose proof (sent_through_mono (create_plans at_call route inbound_headers) keeps) as Hmono.
  apply (frame_does (keep := named_since (run_log ops) (tick w)) _ Hmono 12 _ _ _ _ _ (fun _ => True)); [exact Hw|done|].
  intros prepared headers w1 _ Ef' Hh Hk Hg. rewrite Ef in Ef'. injection Ef' as <-. cbn [prepared_mode prepared_body].
  apply (create_does (keep := named_since (run_log ops) (tick w)) keeps (carries_outputs at_call body (run_log ops) (tick w) inbound_headers));
    try done.
  - by intros body' c o [? _].
  - by apply outputs_rewrite.
  - apply outputs_fallback.
  - by apply outputs_guard.
Qed.

End laws.

(** ** Concrete frames *)

Lemma tool_frame_payload :
  @frame_payload braces_codec tool_request false = Ret (mkPrepared tool_request NormalizeResponseCreate).
Proof. vm_compute. reflexivity. Qed.

Definition sample_frame (raw : bytes) (binary_frame : bool) : except ProxyWsResult * ServiceWorld :=
  @proxy_responses_websocket plain_sodium braces_codec no_environment no_strtod first_argument sample_config
    initial_crypto_state 1 sample_call $"/v1/responses" raw session_headers binary_frame (fresh sample_service).

Lemma frames_relayed_untouched_witness :
  length (sent (sample_frame $"binary" true).2) = 1%nat /\ granted (sample_frame $"binary" true).2 = [].
Proof.
  split; [vm_compute; reflexivity|].
  exact (proj1 (proj2 (@frames_relayed_untouched plain_sodium braces_codec no_environment no_strtod first_argument sample_config
    initial_crypto_state 1 sample_call $"/v1/responses" $"binary" session_headers true sample_service
    (fun prepared => fun E : Ret (mkPrepared $"binary" Passthrough) = Ret prepared =>
       match E with eq_refl => eq_refl end)))).
Defined.

Lemma websocket_tool_outputs_keep_conversation_witness :
  length (sent (sample_frame tool_request false).2) = 1%nat /\
  Forall (@sent_through (@create_plans braces_codec sample_call $"/v1/responses" session_headers)
    (@keeps_conversation braces_codec sample_call (@HttpBridge.run_log braces_codec sample_ops) 0 session_headers tool_request) (granted (sample_frame tool_request false).2))
    (sent (sample_frame tool_request false).2).
Proof.
  split; [vm_compute; reflexivity|].
  exact (@websocket_tool_outputs_keep_conversation plain_sodium braces_codec no_environment no_strtod first_argument sample_config
    initial_crypto_state 1 sample_call sample_ops $"/v1/responses" tool_request tool_request session_headers false sample_service
    tool_frame_payload tool_request_rereads tool_request_outputs sample_world_named).
Defined.
