(* ===== verification/UpstreamTransport.v ===== *)
(** * UpstreamTransport: a plan on the wire

    src/native/proxy/src/upstream_transport.cpp without its persistent
    sessions, which are in [BridgePool]: the address of the upstream, the
    headers and events of its answers, a request over HTTP and one over a
    websocket of its own.  libcurl and Boost.Beast are what they answer:
    [HttpTransfer] and [WsConnect]. *)

From S2P Require Import Prelude Codec Text Env Double JsonValue Headers ModelRegistry ErrorPolicy RequestPlan HttpBridge Usage.
Import Text.Ascii.

Abbreviation Upstream := UpstreamExecutionResult.
Abbreviation Plan := UpstreamRequestPlan.

Definition kDefaultConnectTimeoutMs : Z := 10000.
Definition kDefaultRequestTimeoutMs : Z := 120000.
Definition kUserAgent : bytes := $"tightrope-native/0.1".
Definition kMaxUpstreamResponseBytes : Z := 256 * 1024 * 1024.

(** The bytes counted for the account of the thread: out or in, and how
    many. *)
Abbreviation Transfers := (list (bool * Z)).

(** ** Settings *)

Definition env_flag_or_default (env : environment) (key : bytes) (fallback : bool) : bool :=
  match getenv_nonempty env key with
  | None => fallback
  | Some raw =>
      let normalized := to_lower_ascii (trim_ascii raw) in
      if bool_decide (normalized ∈ [$"1"; $"true"; $"yes"; $"on"]) then true
      else if bool_decide (normalized ∈ [$"0"; $"false"; $"no"; $"off"]) then false
      else fallback
  end.

Definition upstream_base (env : environment) : bytes :=
  trim_trailing_slashes (env_or_default env $"TIGHTROPE_UPSTREAM_BASE_URL" kDefaultUpstreamBaseUrl).

Definition connect_timeout (env : environment) : Z :=
  env_long_or_default env $"TIGHTROPE_UPSTREAM_CONNECT_TIMEOUT_MS" kDefaultConnectTimeoutMs.
Definition request_timeout (env : environment) : Z :=
  env_long_or_default env $"TIGHTROPE_UPSTREAM_TIMEOUT_MS" kDefaultRequestTimeoutMs.

(** ** Addresses *)

Definition slash : Byte.byte := Byte.x2f.
Definition colon : Byte.byte := Byte.x3a.
Definition open_bracket : Byte.byte := Byte.x5b.
Definition close_bracket : Byte.byte := Byte.x5d.

Definition build_upstream_url (env : environment) (path : bytes) : bytes :=
  let base := upstream_base env in
  match path with
  | [] => base
  | ch :: _ => if bool_decide (ch = slash) then base ++ path else base ++ [slash] ++ path
  end.

Definition default_port_for_scheme (scheme : bytes) : bytes :=
  if bool_decide (scheme = $"https") || bool_decide (scheme = $"wss") then $"443" else $"80".

Definition join_upstream_path (base_path path : bytes) : bytes :=
  let normalized_base :=
    match last base_path with
    | Some ch => if bool_decide (ch = slash) then take (length base_path - 1) base_path else base_path
    | None => []
    end in
  let normalized_path :=
    match path with
    | [] => [slash]
    | ch :: _ => if bool_decide (ch = slash) then path else slash :: path
    end in
  if is_empty normalized_base then normalized_path else normalized_base ++ normalized_path.

(** What is before and after the first [sep]. *)
Fixpoint split_first (sep s : bytes) : option (bytes * bytes) :=
  if starts_with s sep then Some ([], drop (length sep) s)
  else match s with
       | [] => None
       | ch :: rest => (fun '(before, after) => (ch :: before, after)) <$> split_first sep rest
       end.

(** What is before and after the last [ch]. *)
Definition split_last (ch : Byte.byte) (s : bytes) : option (bytes * bytes) :=
  (fun '(after, before) => (reverse before, reverse after)) <$> split_first [ch] (reverse s).

Record ParsedUpstreamUrl := mkUrl { scheme : bytes; host : bytes; port : bytes; base_path : bytes }.

(** Host and port of an authority, the port empty when there is none. *)
Definition split_authority (authority : bytes) : option (bytes * bytes) :=
  match authority with
  | [] => None
  | ch :: rest =>
      if bool_decide (ch = open_bracket) then
        '(inside, after) ← split_first [close_bracket] rest;
        if is_empty inside then None
        else Some (inside, match after with ch :: p => if bool_decide (ch = colon) then p else [] | [] => [] end)
      else match split_last colon authority with
           | Some (h, p) => Some (h, p)
           | None => Some (authority, [])
           end
  end.

Definition parse_upstream_url (url : bytes) : option ParsedUpstreamUrl :=
  '(raw_scheme, rest) ← split_first $"://" url;
  if is_empty raw_scheme || is_empty rest then None
  else
    let '(authority, path) :=
      match split_first [slash] rest with
      | Some (authority, after) => (authority, slash :: after)
      | None => (rest, [])
      end in
    '(h, p) ← split_authority authority;
    if is_empty h then None
    else
      let lowered := to_lower_ascii raw_scheme in
      Some (mkUrl lowered h (if is_empty p then default_port_for_scheme lowered else p) path).

Definition websocket_authority_header (parsed : ParsedUpstreamUrl) : bytes :=
  let is_ipv6 := bool_decide (colon ∈ host parsed) in
  if is_ipv6 && negb (bool_decide (head (host parsed) = Some open_bracket))
  then [open_bracket] ++ host parsed ++ [close_bracket; colon] ++ port parsed
  else host parsed ++ [colon] ++ port parsed.

(** The scheme of the websocket, [None] for one that cannot be used. *)
Definition websocket_scheme (scheme : bytes) : option bytes :=
  let ws_scheme := if bool_decide (scheme = $"https") then $"wss" else if bool_decide (scheme = $"http") then $"ws" else scheme in
  if negb (bool_decide (ws_scheme = $"ws")) && negb (bool_decide (ws_scheme = $"wss")) then None else Some ws_scheme.

(** ** Headers *)

Definition websocket_header_is_hop_by_hop (lowered_key : bytes) : bool :=
  bool_decide (lowered_key ∈ [$"connection"; $"upgrade"; $"host"; $"sec-websocket-key"; $"sec-websocket-version";
                              $"sec-websocket-extensions"; $"content-length"]).

(** The calls of [request.set], in their order. *)
Definition apply_websocket_request_headers (plan_headers : HeaderMap) : list (bytes * bytes) :=
  let kept := List.filter (fun kv => negb (websocket_header_is_hop_by_hop (to_lower_ascii kv.1))) plan_headers in
  let has_user_agent := existsb (fun kv => bool_decide (to_lower_ascii kv.1 = $"user-agent")) kept in
  kept ++ (if has_user_agent then [] else [($"User-Agent", kUserAgent)]).

Definition drop_cr (line : bytes) : bytes :=
  match last line with
  | Some ch => if bool_decide (ch = Byte.x0d) then take (length line - 1) line else line
  | None => line
  end.

Definition capture_response_header_line (headers : HeaderMap) (line : bytes) : HeaderMap :=
  if is_empty line || bool_decide (line = [Byte.x0d; Byte.x0a]) then headers
  else if starts_with line $"HTTP/" then headers
  else match split_first [colon] line with
       | None => headers
       | Some (before, after) =>
           if is_empty before then headers
           else
             let name := trim_ascii before in
             let value := trim_ascii after in
             let value := if negb (is_empty name) && negb (bool_decide (drop_cr value = value)) then trim_ascii (drop_cr value)
                          else value in
             if is_empty name then headers else hm_assign name value headers
       end.

(** The header lines of a POST. *)
Definition header_line (key value : bytes) : bytes := key ++ $": " ++ value.

Definition http_header (websocket_fallback : bool) (kv : bytes * bytes) : list bytes :=
  let lowered := to_lower_ascii kv.1 in
  if bool_decide (lowered = $"content-length") || bool_decide (lowered = $"content-encoding") then []
  else if websocket_fallback && bool_decide (lowered = $"accept") then [header_line $"Accept" $"text/event-stream"]
  else if websocket_fallback && bool_decide (lowered = $"content-type") then [header_line $"Content-Type" $"application/json"]
  else [header_line kv.1 kv.2].

Definition has_header (name : bytes) (headers : HeaderMap) : bool :=
  existsb (fun kv => bool_decide (to_lower_ascii kv.1 = name)) headers.

Definition http_headers (p : Plan) (websocket_fallback request_body_compressed : bool) : list bytes :=
  concat (http_header websocket_fallback <$> RequestPlan.headers p) ++
  (if (bool_decide (RequestPlan.transport p = $"http-sse") || websocket_fallback) &&
      negb (has_header $"accept" (RequestPlan.headers p))
   then [header_line $"Accept" $"text/event-stream"] else []) ++
  (if websocket_fallback && negb (has_header $"content-type" (RequestPlan.headers p))
   then [header_line $"Content-Type" $"application/json"] else []) ++
  (if request_body_compressed then [header_line $"Content-Encoding" $"zstd"] else []).

(** ** Server-sent events *)

Fixpoint split_lines (body : bytes) : list bytes :=
  match body with
  | [] => [[]]
  | ch :: rest =>
      if bool_decide (ch = Byte.x0a) then [] :: split_lines rest
      else match split_lines rest with
           | line :: lines => (ch :: line) :: lines
           | [] => [[ch]]
           end
  end.

Definition flush (current : bytes) : list bytes := if is_empty current then [] else [current].

Fixpoint sse_events (current : bytes) (lines : list bytes) : list bytes :=
  match lines with
  | [] => flush current
  | line :: lines =>
      let line := drop_cr line in
      if is_empty line then flush current ++ sse_events [] lines
      else if starts_with line $"data:" then
        let data := trim_ascii (drop 5 line) in
        if bool_decide (data = $"[DONE]") then flush current
        else if is_empty data then sse_events current lines
        else sse_events (if is_empty current then data else current ++ [Byte.x0a] ++ data) lines
      else sse_events current lines
  end.

Definition parse_sse_events (body : bytes) : list bytes := sse_events [] (split_lines body).

(** ** Errors and events *)

Section codec.
Context {codec : JsonCodec}.

Definition may_be_terminal (payload : bytes) : bool :=
  Find.contains payload $"response.completed" || Find.contains payload $"response.incomplete" ||
  Find.contains payload $"response.failed" || Find.contains payload (Text.Json.quote_json_string $"error").

Definition websocket_stream_event_terminal (payload : bytes) : bool :=
  if negb (may_be_terminal payload) then false
  else match read_object payload with
       | None => false
       | Some object =>
           match string_at object $"type" with
           | Some type => bool_decide (type ∈ [$"response.completed"; $"response.incomplete"; $"response.failed"; $"error"])
           | None => false
           end
       end.

Definition extract_code_or_type (object : JsonObject) : bytes :=
  match string_at object $"code", string_at object $"type" with
  | None, None => []
  | code, error_type => normalize_upstream_error_code (default [] code) (default [] error_type)
  end.

(** The code of an error object, unless it is empty. *)
Definition code_of (error : option JsonObject) : option bytes :=
  match extract_code_or_type <$> error with
  | Some ((_ :: _) as code) => Some code
  | _ => None
  end.

Definition extract_error_code_from_json_payload (payload : bytes) : bytes :=
  match read_object payload with
  | None => []
  | Some object =>
      match code_of (object_at object $"error") with
      | Some code => code
      | None => default [] (code_of (object_at object $"response" ≫= fun response => object_at response $"error"))
      end
  end.

Fixpoint extract_error_code_from_events (events : list bytes) : bytes :=
  match events with
  | [] => []
  | event :: events =>
      let code := extract_error_code_from_json_payload event in
      if negb (is_empty code) then code else extract_error_code_from_events events
  end.

Definition normalize_ws_payload_for_http_fallback (payload_body : bytes) : bytes :=
  match read_object payload_body with
  | None => payload_body
  | Some object =>
      let object := if bool_decide (string_at object $"type" = Some $"response.create") then delete $"type" object else object in
      let object := if has_field object $"stream" then object else <[$"stream" := JBool true]> object in
      default payload_body (write_json (JObject object))
  end.

(** ** Over HTTP *)

Inductive CurlCode := CURLE_OK | CURLE_OPERATION_TIMEDOUT | CURLE_WRITE_ERROR | CURLE_OTHER.

#[global] Instance CurlCode_eq_dec : EqDecision CurlCode.
Proof. solve_decision. Defined.

(** What libcurl is asked for, and what it answers: the header lines and the
    chunks of the body it hands to the callbacks, its result, the text of that
    result and the status. *)
Record HttpRequest := mkHttpRequest {
  request_url : bytes; request_header_lines : list bytes; post_fields : bytes;
  connect_timeout_ms : Z; request_timeout_ms : Z;
}.

Record HttpTransfer := mkTransfer {
  handle_made : bool; response_lines : list bytes; chunks : list bytes;
  curl_result : CurlCode; curl_strerror : CurlCode -> bytes; status_code : Z;
}.

Definition counted (account : bytes) (egress : bool) (n : Z) : Transfers := if is_empty account then [] else [(egress, n)].

(** [write_callback] over the chunks: the body, what was counted, and whether
    it overflowed, which ends the transfer with CURLE_WRITE_ERROR. *)
Fixpoint write_chunks (account output : bytes) (chunks : list bytes) : bytes * Transfers * bool :=
  match chunks with
  | [] => (output, [], false)
  | chunk :: chunks =>
      if kMaxUpstreamResponseBytes <? size_of output + size_of chunk then (output, [], true)
      else
        let '(body, transfers, overflowed) := write_chunks account (output ++ chunk) chunks in
        (body, counted account false (size_of chunk) ++ transfers, overflowed)
  end.

Definition should_apply_request_compression (env : environment) (p : Plan) (websocket_fallback : bool) : bool :=
  if websocket_fallback || bool_decide (RequestPlan.transport p = $"http-multipart") || is_empty (RequestPlan.body p) then false
  else if negb (starts_with (path p) $"/codex/") then false
  else env_flag_or_default env $"TIGHTROPE_UPSTREAM_ENABLE_REQUEST_COMPRESSION" false.

Definition failed_upstream (status close_code : Z) (code body : bytes) (headers : HeaderMap) : Upstream :=
  mkUpstreamExecutionResult status body [] headers false close_code code.

(** The answer of a finished transfer. *)
Definition http_result (p : Plan) (websocket_fallback : bool) (t : HttpTransfer) (response_body : bytes) : Upstream :=
  let headers := foldl capture_response_header_line [] (response_lines t) in
  let expects_sse := bool_decide (RequestPlan.transport p = $"http-sse") || websocket_fallback in
  let events := if expects_sse then parse_sse_events response_body else [] in
  let body := if expects_sse && negb (bool_decide (events = [])) then [] else response_body in
  let close_code := if websocket_fallback then 1011 else 1000 in
  let status := sint 32 (wrap 32 (status_code t)) in
  if 400 <=? status then
    let extracted_code := if negb (is_empty body) then extract_error_code_from_json_payload body
                          else extract_error_code_from_events events in
    mkUpstreamExecutionResult status body events headers false close_code (normalize_upstream_error_code extracted_code [])
  else if websocket_fallback then
    let accepted := negb (bool_decide (events = [])) in
    mkUpstreamExecutionResult status body events headers accepted (if accepted then 1000 else 1011)
      (if accepted then [] else $"stream_incomplete")
  else mkUpstreamExecutionResult status body events headers false close_code [].

Section http.
Context (compress_request_body_zstd : bytes -> option bytes) (perform : HttpRequest -> HttpTransfer).

(** The request, and whether its body is compressed. *)
Definition http_request (env : environment) (p : Plan) (websocket_fallback : bool) : HttpRequest :=
  let request_body := if websocket_fallback then normalize_ws_payload_for_http_fallback (RequestPlan.body p) else RequestPlan.body p in
  let compressed := if should_apply_request_compression env p websocket_fallback then compress_request_body_zstd request_body else None in
  mkHttpRequest (build_upstream_url env (path p))
    (http_headers p websocket_fallback (match compressed with Some _ => true | None => false end))
    (default request_body compressed) (connect_timeout env) (request_timeout env).

Definition execute_over_http (env : environment) (account : bytes) (p : Plan) (websocket_fallback : bool) : Upstream * Transfers :=
  let close_code := if websocket_fallback then 1011 else 1000 in
  let request := http_request env p websocket_fallback in
  let t := perform request in
  if negb (handle_made t) then (failed_upstream 502 close_code $"upstream_transport_init_failed" [] [], [])
  else
    let '(response_body, received, overflowed) := write_chunks account [] (chunks t) in
    let transfers := counted account true (size_of (post_fields request)) ++ received in
    let result := if overflowed then CURLE_WRITE_ERROR else curl_result t in
    if bool_decide (result = CURLE_OK) then (http_result p websocket_fallback t response_body, transfers)
    else
      let code :=
        if bool_decide (result = CURLE_WRITE_ERROR) then $"upstream_response_too_large"
        else if bool_decide (result = CURLE_OPERATION_TIMEDOUT) then $"upstream_request_timeout" else $"upstream_unavailable" in
      (failed_upstream 502 close_code code (curl_strerror t result) [], transfers).

End http.

(** ** Over a websocket *)

(** An error code of Boost: whether it is one of the timeouts, and its
    message. *)
Record WsError := mkWsError { is_websocket_timeout : bool; ec_message : bytes }.

Definition websocket_result_with_error (ec : WsError) : Upstream :=
  failed_upstream 502 1011 (if is_websocket_timeout ec then $"upstream_request_timeout" else $"upstream_unavailable")
    (ec_message ec) [].

Definition websocket_result_with_init_failure (message : bytes) : Upstream :=
  failed_upstream 502 1011 $"upstream_transport_init_failed" message [].

(** The response to the upgrade. *)
Record HandshakeResponse := mkHandshake { result_int : Z; response_fields : list (bytes * bytes); response_body : bytes }.

(** [operator[]] keeps the last of the fields with one name. *)
Definition capture_websocket_handshake_headers (response : HandshakeResponse) : HeaderMap :=
  foldl (fun headers kv => hm_assign kv.1 kv.2 headers) [] (response_fields response).

Definition handshake_error_code (status : Z) (code : bytes) : bytes :=
  if is_empty code || bool_decide (code = $"upstream_error") then
    if status =? 401 then $"invalid_api_key" else if 500 <=? status then $"upstream_unavailable" else $"upstream_error"
  else code.

Definition websocket_result_with_handshake_failure (ec : WsError) (response : HandshakeResponse) : Upstream :=
  if result_int response <=? 0 then websocket_result_with_error ec
  else
    let code := if is_empty (response_body response) then []
                else normalize_upstream_error_code (extract_error_code_from_json_payload (response_body response)) [] in
    failed_upstream (result_int response) 1011 (handshake_error_code (result_int response) code) (response_body response)
      (capture_websocket_handshake_headers response).

(** What the steps of a connection meet. *)
Record WsConnect := mkWsConnect {
  resolve_error : option WsError;
  verify_paths_error : option WsError;
  sni_set : bool;
  connect_error : option WsError;
  tls_handshake_error : option WsError;
  handshake : option WsError * HandshakeResponse;
}.

(** The first step that failed, or the headers of the handshake. *)
Definition open_websocket (ws_scheme : bytes) (c : WsConnect) : Upstream + HeaderMap :=
  match resolve_error c with
  | Some ec => inl (websocket_result_with_error ec)
  | None =>
      let upgrade :=
        match handshake c with
        | (Some ec, response) => inl (websocket_result_with_handshake_failure ec response)
        | (None, response) => inr (capture_websocket_handshake_headers response)
        end in
      let connected (next : Upstream + HeaderMap) :=
        match connect_error c with Some ec => inl (websocket_result_with_error ec) | None => next end in
      if bool_decide (ws_scheme = $"ws") then connected upgrade
      else match verify_paths_error c with
           | Some ec => inl (websocket_result_with_init_failure (ec_message ec))
           | None =>
               if negb (sni_set c) then inl (websocket_result_with_init_failure $"Failed to set TLS SNI host")
               else connected (match tls_handshake_error c with
                               | Some ec => inl (websocket_result_with_error ec)
                               | None => upgrade
                               end)
           end
  end.

Inductive WsRead := Payload (payload : bytes) | WsClosed | WsFailed (ec : WsError).

Definition streaming (headers : HeaderMap) (events : list bytes) (code : bytes) : Upstream :=
  mkUpstreamExecutionResult 101 [] events headers true 1000 code.

Definition count_first (transfers : Transfers) (r : option (Upstream * Transfers)) : option (Upstream * Transfers) :=
  (fun '(u, later) => (u, transfers ++ later)) <$> r.

(** The loop over what is read; [None] when it waits for more than that. *)
Fixpoint read_websocket_events (headers : HeaderMap) (account : bytes) (events : list bytes) (total_upstream_bytes : Z)
    (reads : list WsRead) : option (Upstream * Transfers) :=
  match reads with
  | [] => None
  | WsClosed :: _ => Some (streaming headers events $"stream_incomplete", [])
  | WsFailed ec :: _ => Some (websocket_result_with_error ec, [])
  | Payload payload :: reads =>
      if is_empty payload then read_websocket_events headers account events total_upstream_bytes reads
      else
        let total_upstream_bytes := total_upstream_bytes + size_of payload in
        if kMaxUpstreamResponseBytes <? total_upstream_bytes
        then Some (streaming headers events $"upstream_response_too_large", [])
        else
          let events := events ++ [payload] in
          let rest :=
            if websocket_stream_event_terminal payload then Some (streaming headers events [], [])
            else read_websocket_events headers account events total_upstream_bytes reads in
          count_first (counted account false (size_of payload)) rest
  end.

Definition read_websocket_stream (p : Plan) (headers : HeaderMap) (account : bytes) (write_error : option WsError)
    (reads : list WsRead) : option (Upstream * Transfers) :=
  let sent := counted account true (size_of (RequestPlan.body p)) in
  match write_error with
  | Some ec => Some (websocket_result_with_error ec, sent)
  | None => count_first sent (read_websocket_events headers account [] 0 reads)
  end.

(** The address of a websocket plan: its parts, scheme and target, or the
    failure. *)
Definition websocket_target (env : environment) (p : Plan) : Upstream + ParsedUpstreamUrl * bytes * bytes :=
  match parse_upstream_url (upstream_base env) with
  | None => inl (websocket_result_with_init_failure $"Invalid upstream URL")
  | Some parsed =>
      match websocket_scheme (scheme parsed) with
      | None => inl (websocket_result_with_init_failure $"Unsupported websocket upstream scheme")
      | Some ws_scheme => inr (parsed, ws_scheme, join_upstream_path (base_path parsed) (path p))
      end
  end.

(** A websocket that lives for one plan. *)
Definition execute_over_own_websocket (ws_scheme account : bytes) (p : Plan) (c : WsConnect) (write_error : option WsError)
    (reads : list WsRead) : option (Upstream * Transfers) :=
  match open_websocket ws_scheme c with
  | inl failure => Some (failure, [])
  | inr headers => read_websocket_stream p headers account write_error reads
  end.

End codec.

(** ** Splitting *)

Definition newline : Byte.byte := Byte.x0a.

Lemma split_lines_step line rest : newline ∉ line -> split_lines (line ++ newline :: rest) = line :: split_lines rest.
Proof.
  induction line as [|ch line IH]; intros H; cbn [app split_lines]; [by rewrite bool_decide_true|].
  apply not_elem_of_cons in H as [H1 H2]. rewrite bool_decide_false by (intros ->; by apply H1). by rewrite IH.
Qed.

Lemma starts_with_app prefix s : starts_with (prefix ++ s) prefix = true.
Proof. apply starts_with_spec. by exists s. Qed.

Lemma split_first_char ch before after : ch ∉ before -> split_first [ch] (before ++ ch :: after) = Some (before, after).
Proof.
  induction before as [|c before IH]; intros H; cbn [app split_first].
  - change (ch :: after) with ([ch] ++ after). by rewrite starts_with_app.
  - apply not_elem_of_cons in H as [H1 H2].
    destruct (starts_with (c :: before ++ ch :: after) [ch]) eqn:E; [|by rewrite IH].
    apply starts_with_spec in E as [rest E]. cbn in E. injection E as E _. congruence.
Qed.

Lemma split_first_none ch s : ch ∉ s -> split_first [ch] s = None.
Proof.
  induction s as [|c s IH]; intros H; cbn [split_first]; [done|]. apply not_elem_of_cons in H as [H1 H2].
  destruct (starts_with (c :: s) [ch]) eqn:E; [|by rewrite IH].
  apply starts_with_spec in E as [rest E]. cbn in E. injection E as E _. congruence.
Qed.

Lemma split_last_char ch before after : ch ∉ after -> split_last ch (before ++ ch :: after) = Some (before, after).
Proof.
  intros H. unfold split_last. rewrite reverse_app, reverse_cons, <- app_assoc. cbn [app].
  rewrite split_first_char by by rewrite elem_of_reverse. cbn. by rewrite !reverse_involutive.
Qed.

(** ** Event streams *)

(** An event is what its lines of data say. *)
Definition data_line (line : bytes) : Prop :=
  line <> [] /\ newline ∉ line /\ trim_ascii line = line /\ line <> $"[DONE]".

Definition end_of_line (crlf : bool) : bytes := if crlf then [Byte.x0d; newline] else [newline].

Definition write_event (crlf : bool) (lines : list bytes) : bytes :=
  concat ((fun line => $"data: " ++ line ++ end_of_line crlf) <$> lines) ++ end_of_line crlf.

Fixpoint joined (lines : list bytes) : bytes :=
  match lines with
  | [] => []
  | [line] => line
  | line :: lines => line ++ [newline] ++ joined lines
  end.

Lemma drop_cr_snoc line : drop_cr (line ++ [Byte.x0d]) = line.
Proof. unfold drop_cr. rewrite last_snoc, bool_decide_true by done. by rewrite length_app, Nat.add_sub, take_app_length. Qed.

Lemma trimmed_end line ch : trim_ascii line = line -> last line = Some ch -> isspace ch = false.
Proof.
  intros Ht Hl. unfold trim_ascii in Ht. assert (skip_space (reverse line) = reverse line) as Hr.
  { pose proof (trim_ascii_idem line) as _. destruct (skip_space_suffix line) as (pre & E & _).
    assert (pre = []) as ->.
    { destruct (skip_space_suffix (reverse (skip_space line))) as (pre2 & E2 & _). apply (f_equal length) in Ht, E, E2.
      rewrite length_reverse in Ht. rewrite !length_app in *. rewrite length_reverse in E2. apply length_zero_iff_nil. lia. }
    cbn in E. rewrite <- E in Ht. apply (f_equal reverse) in Ht. by rewrite reverse_involutive in Ht. }
  destruct (reverse line) as [|c r] eqn:Er; [apply (f_equal reverse) in Er; rewrite reverse_involutive in Er; by subst line|].
  assert (line = reverse r ++ [c]) as -> by (by rewrite <- (reverse_involutive line), Er, reverse_cons).
  rewrite last_snoc in Hl. injection Hl as ->. cbn [skip_space] in Hr. destruct (isspace ch); [|done].
  destruct (skip_space_suffix r) as (pre & E & _). apply (f_equal length) in E, Hr. rewrite length_app in E. cbn in Hr. lia.
Qed.

Lemma skip_space_blank s : skip_space (Byte.x20 :: s) = skip_space s.
Proof. done. Qed.

(** One line of data, whatever ends it. *)
Lemma sse_data_line (crlf : bool) line current lines :
  data_line line ->
  sse_events current ((($"data: " ++ line) ++ (if crlf then [Byte.x0d] else [])) :: lines) =
  sse_events (if is_empty current then line else current ++ [newline] ++ line) lines.
Proof.
  intros (Hne & Hn & Ht & Hd). cbn [sse_events].
  assert (drop_cr (($"data: " ++ line) ++ (if crlf then [Byte.x0d] else [])) = $"data: " ++ line) as ->.
  { destruct crlf; [apply drop_cr_snoc|]. rewrite app_nil_r. unfold drop_cr. destruct (last ($"data: " ++ line)) as [ch|] eqn:El; [|done].
    rewrite bool_decide_false; [done|]. intros ->. destruct line as [|c line] using rev_ind; [done|].
    rewrite app_assoc, last_snoc in El. injection El as ->. pose proof (trimmed_end (line ++ [Byte.x0d]) Byte.x0d Ht ltac:(apply last_snoc)). done. }
  change ($"data: " ++ line) with ($"data:" ++ Byte.x20 :: line). rewrite starts_with_app. change (is_empty ($"data:" ++ Byte.x20 :: line)) with false.
  cbv iota. change (drop 5 ($"data:" ++ Byte.x20 :: line)) with (Byte.x20 :: line).
  assert (trim_ascii (Byte.x20 :: line) = line) as -> by (unfold trim_ascii in *; by rewrite skip_space_blank).
  rewrite bool_decide_false by done. unfold is_empty at 1. by rewrite (bool_decide_false (line = [])) by done.
Qed.

Lemma sse_blank (crlf : bool) current lines :
  sse_events current ((if crlf then [Byte.x0d] else []) :: lines) = flush current ++ sse_events [] lines.
Proof. by destruct crlf. Qed.

Lemma split_written_line (crlf : bool) text rest : newline ∉ text ->
  split_lines (text ++ end_of_line crlf ++ rest) = (text ++ (if crlf then [Byte.x0d] else [])) :: split_lines rest.
Proof.
  intros H. destruct crlf; cbn [end_of_line app].
  - change (Byte.x0d :: newline :: rest) with ([Byte.x0d] ++ newline :: rest). rewrite app_assoc, split_lines_step; [done|].
    rewrite not_elem_of_app. split; [done|]. rewrite list_elem_of_singleton. done.
  - by rewrite split_lines_step, app_nil_r.
Qed.

Lemma data_prefix_line line : newline ∉ line -> newline ∉ $"data: " ++ line.
Proof.
  intros H. rewrite not_elem_of_app. split; [|done]. intros Hin.
  assert (bool_decide (newline ∈ $"data: ") = false) as Hb by (vm_compute; reflexivity).
  apply bool_decide_eq_false in Hb. done.
Qed.

Definition extended (current : bytes) (lines : list bytes) : bytes :=
  foldl (fun current line => if is_empty current then line else current ++ [newline] ++ line) current lines.

Lemma sse_write_lines crlf lines current rest : Forall data_line lines ->
  sse_events current (split_lines (concat ((fun line => $"data: " ++ line ++ end_of_line crlf) <$> lines) ++ rest)) =
  sse_events (extended current lines) (split_lines rest).
Proof.
  intros H. revert current. induction H as [|line lines Hl _ IH]; intros current; [done|].
  rewrite fmap_cons, concat_cons, <- !app_assoc. rewrite (app_assoc ($"data: ")).
  rewrite split_written_line by (apply data_prefix_line; apply Hl). rewrite sse_data_line by done. by rewrite IH.
Qed.

Lemma extended_nonempty current lines : current <> [] ->
  extended current lines = current ++ concat ((fun line => newline :: line) <$> lines).
Proof.
  revert current. induction lines as [|line lines IH]; intros current H; cbn [extended foldl fmap list_fmap concat]; [by rewrite app_nil_r|].
  unfold is_empty at 2. rewrite (bool_decide_false (current = [])) by done. fold (extended (current ++ [newline] ++ line) lines). rewrite IH by (by destruct current).
  by rewrite <- !app_assoc.
Qed.

Lemma joined_cons line lines : joined (line :: lines) = line ++ concat ((fun line => newline :: line) <$> lines).
Proof.
  revert line. induction lines as [|l lines IH]; intros line; [cbn; by rewrite app_nil_r|].
  change (joined (line :: l :: lines)) with (line ++ [newline] ++ joined (l :: lines)). rewrite IH. done.
Qed.

Lemma extended_joined lines : Forall data_line lines -> extended [] lines = joined lines.
Proof.
  destruct lines as [|line lines]; [done|]. intros H. pose proof (Forall_inv H) as (Hne & _).
  change (extended [] (line :: lines)) with (extended line lines). by rewrite extended_nonempty, joined_cons.
Qed.

Lemma joined_nonempty lines : lines <> [] -> Forall data_line lines -> joined lines <> [].
Proof.
  destruct lines as [|line lines]; [done|]. intros _ H. pose proof (Forall_inv H) as (Hne & _). rewrite joined_cons. by destruct line.
Qed.

Lemma sse_write_event crlf lines rest : lines <> [] -> Forall data_line lines ->
  sse_events [] (split_lines (write_event crlf lines ++ rest)) = joined lines :: sse_events [] (split_lines rest).
Proof.
  intros Hne H. unfold write_event. rewrite <- app_assoc. rewrite sse_write_lines by done. rewrite extended_joined by done.
  change (end_of_line crlf ++ rest) with ([] ++ end_of_line crlf ++ rest). rewrite split_written_line by apply not_elem_of_nil.
  cbn [app]. rewrite sse_blank. unfold flush. unfold is_empty. by rewrite bool_decide_false by by apply joined_nonempty.
Qed.

(** The events a server writes are the events that are read, in their order:
    each with its lines of data joined by line feeds, whether lines end in LF
    or CRLF, whether the stream ends after the last event or is closed by
    [DONE], and whatever follows that. (C33) *)
Theorem sse_events_roundtrip crlf events trailer :
  Forall (fun lines => lines <> [] /\ Forall data_line lines) events ->
  parse_sse_events (concat (write_event crlf <$> events)) = joined <$> events /\
  parse_sse_events (concat (write_event crlf <$> events) ++ $"data: [DONE]" ++ end_of_line crlf ++ trailer) = joined <$> events.
Proof.
  unfold parse_sse_events. intros H. induction H as [|lines events [Hne Hl] _ [IH1 IH2]].
  - split; [done|]. cbn [concat fmap list_fmap app]. rewrite split_written_line by (apply (bool_decide_eq_false_1 (newline ∈ $"data: [DONE]")); vm_compute; reflexivity).
    by destruct crlf.
  - rewrite !fmap_cons, !concat_cons. split; [by rewrite sse_write_event, IH1|]. by rewrite <- app_assoc, sse_write_event, IH2.
Qed.

(** ** Addresses *)

Lemma split_first_hit sep s : starts_with s sep = true -> split_first sep s = Some ([], drop (length sep) s).
Proof. intros H. destruct s; cbn [split_first]; by rewrite H. Qed.

Lemma split_first_scheme before after : colon ∉ before -> split_first $"://" (before ++ $"://" ++ after) = Some (before, after).
Proof.
  induction before as [|c before IH]; intros H; cbn [app split_first].
  - by rewrite split_first_hit by apply starts_with_app.
  - apply not_elem_of_cons in H as [H1 H2].
    destruct (starts_with (c :: before ++ $"://" ++ after) $"://") eqn:E; [|by rewrite IH].
    apply starts_with_spec in E as [rest E]. cbn in E. injection E as E _. done.
Qed.

Record well_formed_url (u : ParsedUpstreamUrl) : Prop := {
  wf_scheme : scheme u <> [] /\ colon ∉ scheme u /\ to_lower_ascii (scheme u) = scheme u;
  wf_host : host u <> [] /\ slash ∉ host u /\ open_bracket ∉ host u /\ close_bracket ∉ host u;
  wf_port : port u <> [] /\ slash ∉ port u /\ colon ∉ port u;
  wf_path : base_path u = [] \/ head (base_path u) = Some slash;
}.

Definition write_url (u : ParsedUpstreamUrl) : bytes := scheme u ++ $"://" ++ websocket_authority_header u ++ base_path u.

Lemma nonempty_not_empty (s : bytes) : s <> [] -> is_empty s = false.
Proof. intros. by apply bool_decide_eq_false. Qed.

Lemma head_not_bracket u : well_formed_url u -> bool_decide (head (host u) = Some open_bracket) = false.
Proof.
  intros [_ (Hne & _ & Hb & _) _ _]. apply bool_decide_eq_false. destruct (host u) as [|ch h]; [done|]. cbn. intros [= ->].
  apply Hb. by left.
Qed.

Lemma split_authority_header u : well_formed_url u ->
  split_authority (websocket_authority_header u) = Some (host u, port u).
Proof.
  intros Hw. unfold websocket_authority_header. rewrite (head_not_bracket u Hw). cbn [negb]. rewrite andb_true_r.
  pose proof (head_not_bracket u Hw) as Hh. destruct Hw as [_ (Hne & _ & Hb & Hc) (Hp & _ & Hpc) _]. destruct (bool_decide (colon ∈ host u)) eqn:Hi.
  - cbn [app split_authority]. rewrite bool_decide_true by done. rewrite split_first_char by done. cbn [mbind option_bind].
    rewrite nonempty_not_empty by done. by rewrite bool_decide_true by done.
  - destruct (host u) as [|ch h] eqn:Eh; [done|]. cbn [app split_authority]. cbn [head] in Hh.
    rewrite bool_decide_false by (intros ->; by rewrite bool_decide_true in Hh).
    change (ch :: h ++ colon :: port u) with ((ch :: h) ++ colon :: port u). by rewrite split_last_char.
Qed.

Lemma slash_not_in_authority u : well_formed_url u -> slash ∉ websocket_authority_header u.
Proof.
  intros [_ (_ & Hs & _) (_ & Hp & _) _]. unfold websocket_authority_header. destruct (_ && _);
    rewrite !not_elem_of_app, ?not_elem_of_cons; repeat split; try done; apply not_elem_of_nil.
Qed.

(** An address is read back from its text, with the default port filled in
    when the text names none; addresses of version 6 go in brackets. *)
Theorem upstream_url_roundtrip u :
  well_formed_url u ->
  parse_upstream_url (write_url u) = Some u /\
  (colon ∉ host u ->
   parse_upstream_url (scheme u ++ $"://" ++ host u ++ base_path u) =
     Some (mkUrl (scheme u) (host u) (default_port_for_scheme (scheme u)) (base_path u))).
Proof.
  intros Hw. pose proof (split_authority_header u Hw) as Ha. pose proof (slash_not_in_authority u Hw) as Hsl.
  pose proof (head_not_bracket u Hw) as Hh.
  destruct Hw as [(Hs1 & Hs2 & Hs3) (Hne & Hhs & Hb & Hc) (Hp1 & Hp2 & Hp3) Hpath].
  assert (forall authority path h p, slash ∉ authority -> authority <> [] -> path = [] \/ head path = Some slash ->
    split_authority authority = Some (h, p) -> h <> [] ->
    parse_upstream_url (scheme u ++ $"://" ++ authority ++ path) =
      Some (mkUrl (scheme u) h (if is_empty p then default_port_for_scheme (scheme u) else p) path)) as Hgen.
  { intros authority path h p H1 H2 H3 H4 H5. unfold parse_upstream_url. rewrite split_first_scheme by done. cbn [mbind option_bind].
    rewrite (nonempty_not_empty (scheme u)) by done. rewrite (nonempty_not_empty (authority ++ path)) by by destruct authority. cbn [orb].
    destruct H3 as [-> |H3].
    - rewrite app_nil_r, split_first_none by done. rewrite H4. cbn. by rewrite nonempty_not_empty, Hs3.
    - destruct path as [|ch path]; [done|]. cbn in H3. injection H3 as ->. rewrite split_first_char by done. rewrite H4. cbn.
      by rewrite nonempty_not_empty, Hs3. }
  split.
  - unfold write_url. rewrite (Hgen (websocket_authority_header u) (base_path u) (host u) (port u)); try done.
    + rewrite (nonempty_not_empty (port u)) by done. by destruct u.
    + intros E. rewrite E in Ha. done.
  - intros Hcol. rewrite (Hgen (host u) (base_path u) (host u) []); try done.
    destruct (host u) as [|ch h] eqn:Eh; [done|]. cbn [split_authority]. cbn [head] in Hh.
    rewrite bool_decide_false by (intros ->; by rewrite bool_decide_true in Hh). unfold split_last.
    by rewrite split_first_none by by rewrite elem_of_reverse.
Qed.

(** ** Bounds *)

(** The bytes an account is charged for in one direction. *)
Definition charged (egress : bool) (transfers : Transfers) : Z :=
  foldr (fun t s => (if Bool.eqb t.1 egress then t.2 else 0) + s) 0 transfers.

Lemma charged_app egress a b : charged egress (a ++ b) = charged egress a + charged egress b.
Proof. unfold charged. induction a as [|t a IH]; cbn; [done|]. rewrite IH. lia. Qed.

Lemma charged_counted account egress egress' n :
  account <> [] -> charged egress (counted account egress' n) = if Bool.eqb egress' egress then n else 0.
Proof. intros H. unfold counted. rewrite nonempty_not_empty by done. cbn. lia. Qed.

(** The chunks of a body that are taken: all, or those before the first that
    does not fit. *)
Record taken (account output : bytes) (chunks kept rest : list bytes) (transfers : Transfers) : Prop := {
  taken_split : chunks = kept ++ rest;
  taken_bound : size_of output + size_of (concat kept) <= kMaxUpstreamResponseBytes;
  taken_ingress : charged false transfers = size_of (concat kept);
  taken_egress : charged true transfers = 0;
  taken_longest : forall next rest', rest = next :: rest' ->
    kMaxUpstreamResponseBytes < size_of output + size_of (concat kept) + size_of next;
}.

Lemma write_chunks_spec account output chunks body transfers overflowed :
  account <> [] -> size_of output <= kMaxUpstreamResponseBytes ->
  write_chunks account output chunks = (body, transfers, overflowed) ->
  exists kept rest, taken account output chunks kept rest transfers /\ body = output ++ concat kept /\ (overflowed = true <-> rest <> []).
Proof.
  intros Ha. revert output body transfers overflowed. induction chunks as [|chunk chunks IH]; intros output body transfers overflowed Ho E;
    cbn [write_chunks] in E.
  - injection E as <- <- <-. exists [], []. split; [|by rewrite app_nil_r]. by split; cbn; autorewrite with tightrope; try lia.
  - destruct (Z.ltb_spec kMaxUpstreamResponseBytes (size_of output + size_of chunk)) as [Hl|Hl].
    + injection E as <- <- <-. exists [], (chunk :: chunks). split; [|by rewrite app_nil_r].
      split; cbn; autorewrite with tightrope; try done; try lia. intros next rest' [= <- _]. lia.
    + destruct (write_chunks account (output ++ chunk) chunks) as [[b t] o] eqn:Er. injection E as <- <- <-.
      destruct (IH (output ++ chunk) b t o ltac:(autorewrite with tightrope; lia) Er) as (kept & rest & [H1 H2 H3 H4 H5] & -> & Ho').
      exists (chunk :: kept), rest. cbn [concat]. autorewrite with tightrope in *. split; [|by rewrite <- app_assoc]. split.
      * by rewrite H1.
      * cbn. autorewrite with tightrope. lia.
      * rewrite charged_app, charged_counted by done. cbn. autorewrite with tightrope. lia.
      * rewrite charged_app, charged_counted by done. cbn. lia.
      * intros next rest' E. specialize (H5 next rest' E). cbn. autorewrite with tightrope. lia.
Qed.

(** The messages that are read, but for the empty ones. *)
Definition payloads (reads : list WsRead) : list bytes :=
  omap (fun r => match r with Payload ((_ :: _) as payload) => Some payload | _ => None end) reads.

Section bounds.
Context {codec : JsonCodec}.

(** How a stream ends: accepted with the events it kept, or failed with
    none. *)
Definition ended (events : list bytes) (u : Upstream) : Prop :=
  if accepted u then ErrorPolicy.events u = events else ErrorPolicy.events u = [] /\ exists ec, u = websocket_result_with_error ec.

Lemma read_events_spec headers account events reads u transfers :
  account <> [] -> size_of (concat events) <= kMaxUpstreamResponseBytes ->
  read_websocket_events headers account events (size_of (concat events)) reads = Some (u, transfers) ->
  exists kept, kept `prefix_of` payloads reads /\ size_of (concat (events ++ kept)) <= kMaxUpstreamResponseBytes /\
    charged false transfers = size_of (concat kept) /\ charged true transfers = 0 /\ ended (events ++ kept) u.
Proof.
  intros Ha. revert events u transfers. induction reads as [|[payload| |ec] reads IH]; intros events u transfers He E;
    cbn [read_websocket_events] in E; [done| | |].
  - destruct payload as [|ch payload]; [by apply IH|]. change (is_empty (ch :: payload)) with false in E. cbn iota in E.
    change (payloads (Payload (ch :: payload) :: reads)) with ((ch :: payload) :: payloads reads).
    set (x := ch :: payload) in *. clearbody x.
    destruct (Z.ltb_spec kMaxUpstreamResponseBytes (size_of (concat events) + size_of x)) as [Hl|Hl].
    { injection E as <- <-. exists []. rewrite app_nil_r. split_and!; [apply prefix_nil|done|done|done|done]. }
    assert (size_of (concat events) + size_of x = size_of (concat (events ++ [x]))) as Es
      by (rewrite concat_app; cbn; autorewrite with tightrope; lia).
    assert (exists later, transfers = counted account false (size_of x) ++ later /\
      (if websocket_stream_event_terminal x then Some (streaming headers (events ++ [x]) [], [])
       else read_websocket_events headers account (events ++ [x]) (size_of (concat events) + size_of x) reads) = Some (u, later))
      as (later & -> & Er).
    { unfold count_first in E. destruct (if websocket_stream_event_terminal x then _ else _) as [[u' later]|]; [|done].
      cbn in E. injection E as <- <-. by exists later. }
    assert (exists kept, kept `prefix_of` payloads reads /\ size_of (concat ((events ++ [x]) ++ kept)) <= kMaxUpstreamResponseBytes /\
      charged false later = size_of (concat kept) /\ charged true later = 0 /\ ended ((events ++ [x]) ++ kept) u) as (kept & K1 & K2 & K3 & K4 & K5).
    { rewrite Es in *. destruct (websocket_stream_event_terminal x); [|apply IH; [lia|done]].
      injection Er as <- <-. exists []. rewrite app_nil_r. split_and!; [apply prefix_nil|lia|done|done|done]. }
    exists (x :: kept). rewrite <- (app_assoc events) in K2, K5. rewrite !charged_app, !charged_counted by done. cbn [concat Bool.eqb].
    autorewrite with tightrope. split_and!; [by apply prefix_cons|exact K2|lia|lia|exact K5].
  - injection E as <- <-. exists []. rewrite app_nil_r. by split_and!; try apply prefix_nil.
  - injection E as <- <-. exists []. rewrite app_nil_r. split_and!; [apply prefix_nil|done|done|done|]. split; [done|by exists ec].
Qed.

(** However much the upstream sends, at most 256 MiB of it are taken and
    charged for.  Over HTTP those are the chunks before the first that no
    longer fits: the answer is made of all that was sent when nothing went
    wrong, and has nothing of it when it was more than that or the transfer
    failed.  Over a websocket of its own they are the first of the messages,
    and the events of the answer, unless reading failed: then they are
    charged for all the same, and the answer has none of them.  What is sent is
    charged for as it was given to the transport. (C32) *)
Theorem upstream_bytes_bounded compress perform env account p websocket_fallback headers write_error reads :
  account <> [] ->
  (let request := http_request compress env p websocket_fallback in
   let t := perform request in
   let '(u, transfers) := execute_over_http compress perform env account p websocket_fallback in
   handle_made t = true ->
   charged true transfers = size_of (post_fields request) /\
   exists kept rest, chunks t = kept ++ rest /\ charged false transfers = size_of (concat kept) /\
     size_of (concat kept) <= kMaxUpstreamResponseBytes /\
     (forall next rest', rest = next :: rest' -> kMaxUpstreamResponseBytes < size_of (concat kept) + size_of next) /\
     (rest = [] -> curl_result t = CURLE_OK -> u = http_result p websocket_fallback t (concat (chunks t))) /\
     (rest <> [] -> error_code u = $"upstream_response_too_large") /\
     (rest <> [] \/ curl_result t <> CURLE_OK -> ErrorPolicy.status u = 502 /\ ErrorPolicy.events u = [] /\
        exists result, ErrorPolicy.body u = curl_strerror t result)) /\
  (forall u transfers, read_websocket_stream p headers account write_error reads = Some (u, transfers) ->
   charged true transfers = size_of (RequestPlan.body p) /\
   exists kept, kept `prefix_of` payloads reads /\ charged false transfers = size_of (concat kept) /\
     size_of (concat kept) <= kMaxUpstreamResponseBytes /\ (write_error <> None -> kept = []) /\ ended kept u).
Proof.
  intros Ha. split.
  - cbv zeta. unfold execute_over_http. set (request := http_request compress env p websocket_fallback). set (t := perform request).
    destruct (handle_made t); cbn [negb]; [|done]. destruct (write_chunks account [] (chunks t)) as [[b tr] o] eqn:Ew.
    assert (size_of ([] : bytes) <= kMaxUpstreamResponseBytes) as H0 by done.
    destruct (write_chunks_spec _ _ _ _ _ _ Ha H0 Ew) as (kept & rest & [H1 H2 H3 H4 H5] & Hb & Ho). autorewrite with tightrope in H2.
    assert (charged true (counted account true (size_of (post_fields request)) ++ tr) = size_of (post_fields request) /\
      charged false (counted account true (size_of (post_fields request)) ++ tr) = size_of (concat kept)) as [E1 E2].
    { rewrite !charged_app, !charged_counted by done. cbn [Bool.eqb]. lia. }
    assert (forall next rest', rest = next :: rest' -> kMaxUpstreamResponseBytes < size_of (concat kept) + size_of next) as H5'.
    { intros next rest' E. specialize (H5 next rest' E). autorewrite with tightrope in H5. lia. }
    case_bool_decide as Er; intros _; (split; [exact E1|]); exists kept, rest; (split_and!; [exact H1|exact E2|lia|exact H5'|..]).
    + intros -> _. rewrite app_nil_r in H1. by rewrite H1, Hb.
    + intros Hr. by rewrite (proj2 Ho Hr) in Er.
    + intros [Hr|Hr]; [by rewrite (proj2 Ho Hr) in Er|]. destruct o; [done|]. by rewrite Er in Hr.
    + intros -> Hr. destruct o; [by destruct (proj1 Ho eq_refl)|]. by rewrite Hr in Er.
    + intros Hr. by rewrite (proj2 Ho Hr).
    + intros _. split_and!; [done|done|]. by eexists.
  - intros u transfers E. unfold read_websocket_stream in E. destruct write_error as [ec|].
    + injection E as <- <-. rewrite !charged_counted by done. split; [done|]. exists []. split_and!; [apply prefix_nil|done|done|done|].
      split; [done|by exists ec].
    + unfold count_first in E. destruct (read_websocket_events headers account [] 0 reads) as [[u' later]|] eqn:Er; [|done]. injection E as <- <-.
      apply (read_events_spec headers account []) in Er as (kept & K1 & K2 & K3 & K4 & K5); [|done|done].
      rewrite !charged_app, !charged_counted by done. cbn [Bool.eqb]. split; [lia|]. exists kept. by split_and!; [|lia|..].
Qed.

(** A stream that grows past the bound on a websocket of its own is cut, and
    still an accepted answer of status 101. *)
Lemma oversized_stream_accepted headers account events total_upstream_bytes payload reads :
  kMaxUpstreamResponseBytes < total_upstream_bytes + size_of payload -> payload <> [] ->
  exists u, read_websocket_events headers account events total_upstream_bytes (Payload payload :: reads) = Some (u, []) /\
    accepted u = true /\ ErrorPolicy.status u = 101 /\ ErrorPolicy.events u = events /\
    error_code u = $"upstream_response_too_large".
Proof.
  intros H Hp. cbn [read_websocket_events]. rewrite nonempty_not_empty by done. rewrite (proj2 (Z.ltb_lt _ _) H). by eexists.
Qed.

End bounds.

(** ** Concrete inputs *)

Lemma sse_events_roundtrip_witness :
  parse_sse_events (concat (write_event true <$> [[$"{a}"]; [$"{b"; $"c}"]])) = [$"{a}"; joined [$"{b"; $"c}"]].
Proof.
  assert (Forall (fun lines => lines <> [] /\ Forall data_line lines) [[$"{a}"]; [$"{b"; $"c}"]]) as H.
  { assert (forall line, bool_decide (line <> [] /\ newline ∉ line /\ trim_ascii line = line /\ line <> $"[DONE]") = true -> data_line line) as Hd
      by (intros line Hl; by apply bool_decide_eq_true in Hl).
    repeat (apply Forall_cons; split); try apply Forall_nil_2; (split; [done|]);
      repeat (apply Forall_cons; split); try apply Forall_nil_2; apply Hd; vm_compute; reflexivity. }
  exact (proj1 (sse_events_roundtrip true [[$"{a}"]; [$"{b"; $"c}"]] [] H)).
Defined.

Definition sample_url : ParsedUpstreamUrl := mkUrl $"https" $"::1" $"8443" $"/backend-api".

Lemma upstream_url_roundtrip_witness :
  write_url sample_url = $"https://[::1]:8443/backend-api" /\
  parse_upstream_url (write_url sample_url) = Some sample_url.
Proof.
  split; [vm_compute; reflexivity|].
  assert (well_formed_url sample_url) as H.
  { split; cbn [scheme host port base_path sample_url].
    - apply (bool_decide_eq_true_1 ($"https" <> [] /\ colon ∉ $"https" /\ to_lower_ascii $"https" = $"https")). vm_compute. reflexivity.
    - apply (bool_decide_eq_true_1 ($"::1" <> [] /\ slash ∉ $"::1" /\ open_bracket ∉ $"::1" /\ close_bracket ∉ $"::1")). vm_compute. reflexivity.
    - apply (bool_decide_eq_true_1 ($"8443" <> [] /\ slash ∉ $"8443" /\ colon ∉ $"8443")). vm_compute. reflexivity.
    - by right. }
  exact (proj1 (upstream_url_roundtrip sample_url H)).
Defined.

(** Two chunks that fit, and a stream that fails after its first message. *)
Definition sample_transfer (request : HttpRequest) : HttpTransfer :=
  mkTransfer true [] [$"ab"; $"c"] CURLE_OK (fun _ => []) 200.

Definition sample_plan : Plan := mkUpstreamRequestPlan $"POST" $"/codex/responses" $"http-json" $"{}" [] false false.

Lemma upstream_bytes_bounded_witness :
  (exists kept, kept `prefix_of` payloads [Payload $"{a}"; WsFailed (mkWsError true [])] /\ 3 = size_of (concat kept)) /\
  charged true (@execute_over_http (sample_codec [] JNull) (fun _ => None) sample_transfer (fun _ => None) $"acc" sample_plan false).2 = 2.
Proof.
  destruct (@upstream_bytes_bounded (sample_codec [] JNull) (fun _ => None) sample_transfer (fun _ => None) $"acc" sample_plan false [] None
    [Payload $"{a}"; WsFailed (mkWsError true [])] ltac:(done)) as [H1 H2]. split.
  - destruct (H2 (websocket_result_with_error (mkWsError true [])) [(true, 2); (false, 3)]) as (_ & kept & K1 & K2 & _);
      [vm_compute; reflexivity|]. by exists kept.
  - destruct (execute_over_http _ _ _ _ _ _) as [u transfers]. exact (proj1 (H1 eq_refl)).
Defined.
