(* ===== verification/BridgePool.v ===== *)
(** * BridgePool: upstream websockets that outlive a request

    The persistent sessions of src/native/proxy/src/upstream_transport.cpp:
    [execute_over_websocket_with_persistent_bridge], the cancellation of a
    session, and the choice of the transport.

    Requests run on threads of their own.  What happens under the mutex of the
    pool is one step, and so is one pass of the reading loop, which holds the
    mutex of its session; a thread that waits for that mutex does not move.  A
    session that the pool lets go of while it is being read is closed by a step
    of its own ([CloseLeft]) when no one holds it.  The source keeps the mutex
    of the pool while it waits for that; here others may move meanwhile, and a
    purge compares all times at once.  Time, and what the network answers, comes
    with the events. *)

From S2P Require Import Prelude Codec Text Env Double JsonValue Headers ModelRegistry ErrorPolicy RequestPlan HttpBridge Usage.
From S2P Require Import UpstreamTransport.
Import Text.Ascii.

Definition kPersistentBridgeTtlMs : Z := 30 * 60 * 1000.
Definition kDefaultPersistentBridgePollTimeoutMs : Z := 1000.
Definition kPersistentBridgeMaxSessions : nat := 256.

(** ** Keys *)

(** The parts that are there, between bars. *)
Definition bar_join (parts : list (bytes * bytes)) : bytes :=
  foldl (fun key part =>
    if is_empty part.2 then key else (if is_empty key then [] else key ++ $"|") ++ part.1 ++ part.2) [] parts.

Definition bridge_continuity_key (headers : HeaderMap) : option bytes :=
  let key := bar_join
    [($"codex:", find_header_case_insensitive headers $"x-codex-session-id");
     ($"client:", find_header_case_insensitive headers $"session_id");
     ($"turn:", find_header_case_insensitive headers $"x-codex-turn-state")] in
  if is_empty key then None else Some key.

Definition bridge_session_scope (headers : HeaderMap) : bytes :=
  bar_join [($"client:", find_header_case_insensitive headers $"session_id");
            ($"codex:", find_header_case_insensitive headers $"x-codex-session-id")].

Definition scoped_continuity_key (continuity_key api_key_scope session_scope : bytes) : bytes :=
  (if is_empty api_key_scope then [] else $"api_key_scope:" ++ api_key_scope ++ $"|") ++
  (if is_empty session_scope then [] else $"session_scope:" ++ session_scope ++ $"|") ++ continuity_key.

Definition bridge_key (headers : HeaderMap) : option bytes :=
  (fun key => scoped_continuity_key key (find_header_case_insensitive headers $"x-tightrope-api-key-id")
                (bridge_session_scope headers)) <$> bridge_continuity_key headers.

(** ** What a payload asks for *)

Section codec.
Context {codec : JsonCodec}.

Definition find_previous_response (object : JsonObject) : option bytes :=
  match trim_ascii <$> string_at object $"previous_response_id" with
  | Some ((_ :: _) as value) => Some value
  | _ => None
  end.

Definition parse_previous_response_id_from_payload (payload_body : bytes) : option bytes :=
  object ← read_object payload_body;
  match find_previous_response object with
  | Some id => Some id
  | None => object_at object $"response" ≫= find_previous_response
  end.

Definition is_response_create_payload (payload_body : bytes) : bool :=
  match read_object payload_body with
  | Some object => bool_decide (string_at object $"type" = Some $"response.create")
  | None => false
  end.

Definition no_active_upstream_websocket_session_result : Upstream :=
  failed_upstream 400 1000 $"invalid_request_error"
    (build_error_envelope $"invalid_request_error" $"WebSocket connection has no active upstream session"
       $"invalid_request_error" []) [].

(** [std::clamp] of the poll timeout. *)
Definition persistent_bridge_poll_timeout_ms (env : environment) (request_timeout_ms : Z) : Z :=
  let configured := env_long_or_default env $"TIGHTROPE_UPSTREAM_BRIDGE_POLL_TIMEOUT_MS" kDefaultPersistentBridgePollTimeoutMs in
  let maximum := if 0 <? request_timeout_ms then request_timeout_ms else configured in
  if configured <? 100 then 100 else if maximum <? configured then maximum else configured.

(** ** Sessions and requests *)

(** [holder]: the thread that holds the mutex; [close_on_release]: the pool has
    let go of the session while it was held, and whoever evicted it waits for
    the mutex to close it ([CloseLeft]). *)
Record Session := mkSession {
  bridge_account : bytes;
  bridge_traffic : bytes;
  updated_at_ms : Z;
  cancel_requested : bool;
  connection_open : bool;
  handshake_headers : HeaderMap;
  holder : option nat;
  close_on_release : bool;
}.

Definition close_session (s : Session) : Session :=
  mkSession (bridge_account s) (bridge_traffic s) (updated_at_ms s) (cancel_requested s) false (handshake_headers s) (holder s)
    (close_on_release s).
Definition request_cancel (s : Session) : Session :=
  mkSession (bridge_account s) (bridge_traffic s) (updated_at_ms s) true (connection_open s) (handshake_headers s) (holder s)
    (close_on_release s).
Definition touch_session (now : Z) (s : Session) : Session :=
  mkSession (bridge_account s) (bridge_traffic s) now (cancel_requested s) (connection_open s) (handshake_headers s) (holder s)
    (close_on_release s).
Definition hold (thread : nat) (traffic : bytes) (s : Session) : Session :=
  mkSession (bridge_account s) traffic (updated_at_ms s) (cancel_requested s) (connection_open s) (handshake_headers s)
    (Some thread) (close_on_release s).
Definition release (s : Session) : Session :=
  mkSession (bridge_account s) (bridge_traffic s) (updated_at_ms s) (cancel_requested s)
    (connection_open s) (handshake_headers s) None (close_on_release s).

(** Closing under the mutex of the pool. *)
Definition evict (s : Session) : Session :=
  match holder s with
  | None => close_session s
  | Some _ => mkSession (bridge_account s) (bridge_traffic s) (updated_at_ms s) (cancel_requested s) (connection_open s)
                (handshake_headers s) (holder s) true
  end.

(** What the call knows of its plan before it looks for a session. *)
Record Request := mkRequest {
  request_plan : Plan;
  request_key : bytes;
  request_account : bytes;
  request_traffic : bytes;
  has_previous_response : bool;
  response_create_request : bool;
  effective_request_timeout_ms : Z;
}.

Definition bridge_request (env : environment) (traffic_account : bytes) (p : Plan) : option Request :=
  (fun key => mkRequest p key (find_header_case_insensitive (RequestPlan.headers p) $"chatgpt-account-id") traffic_account
      (match parse_previous_response_id_from_payload (RequestPlan.body p) with Some _ => true | None => false end)
      (is_response_create_payload (RequestPlan.body p))
      (let timeout := request_timeout env in if 0 <? timeout then timeout else UpstreamTransport.kDefaultRequestTimeoutMs)) <$>
  bridge_key (RequestPlan.headers p).

(** Where a thread is; [first] is the answer of the first run, when this is
    the second one. *)
Inductive Phase :=
| Acquiring (first : option Upstream)
| Displaced (session : nat) (first : option Upstream)
| Connecting (first : option Upstream)
| Inserting (candidate : nat) (first : option Upstream)
| Losing (candidate existing : nat) (first : option Upstream)
| Running (session : nat) (first : option Upstream)
| Reading (session : nat) (first : option Upstream) (result : Upstream) (total_upstream_bytes last_activity_ms : Z)
| Removing (session : nat) (first : option Upstream) (result : Upstream) (retryable : bool)
| Discarding (session : nat) (result : Upstream)
| Closing (session : nat) (result : Upstream)
| Finished (result : Upstream).

Record Thread := mkThread { thread_request : Request; phase : Phase }.

(** The pool, every session there has been, the threads, and three records:
    the bytes charged to accounts, the writes, each by a thread on a session,
    and the threads that found another session in the place of the one they
    had opened. *)
Record BridgeWorld := mkBridge {
  sessions : gmap bytes nat;
  store : gmap nat Session;
  next_session : nat;
  threads : gmap nat Thread;
  charged : list (bytes * bool * Z);
  written : list (nat * nat);
  lost : list nat;
}.

Definition empty_bridge : BridgeWorld := mkBridge ∅ ∅ 0 ∅ [] [] [].

Definition set_sessions (m : gmap bytes nat) (w : BridgeWorld) : BridgeWorld :=
  mkBridge m (store w) (next_session w) (threads w) (charged w) (written w) (lost w).
Definition set_store (st : gmap nat Session) (w : BridgeWorld) : BridgeWorld :=
  mkBridge (sessions w) st (next_session w) (threads w) (charged w) (written w) (lost w).
Definition on_session (sid : nat) (f : Session -> Session) (w : BridgeWorld) : BridgeWorld :=
  set_store (alter f sid (store w)) w.
Definition move (tid : nat) (r : Request) (p : Phase) (w : BridgeWorld) : BridgeWorld :=
  mkBridge (sessions w) (store w) (next_session w) (<[tid := mkThread r p]> (threads w)) (charged w) (written w) (lost w).
Definition charge (account : bytes) (egress : bool) (n : Z) (w : BridgeWorld) : BridgeWorld :=
  if is_empty account then w
  else mkBridge (sessions w) (store w) (next_session w) (threads w) (charged w ++ [(account, egress, n)]) (written w) (lost w).
Definition note_write (tid sid : nat) (w : BridgeWorld) : BridgeWorld :=
  mkBridge (sessions w) (store w) (next_session w) (threads w) (charged w) (written w ++ [(tid, sid)]) (lost w).
Definition note_loss (tid : nat) (w : BridgeWorld) : BridgeWorld :=
  mkBridge (sessions w) (store w) (next_session w) (threads w) (charged w) (written w) (lost w ++ [tid]).

(** ** Under the mutex of the pool *)

Definition evict_key (key : bytes) (w : BridgeWorld) : BridgeWorld :=
  match sessions w !! key with
  | Some sid => on_session sid evict (set_sessions (delete key (sessions w)) w)
  | None => w
  end.

Definition session_time (w : BridgeWorld) (sid : nat) : Z := default 0 (updated_at_ms <$> store w !! sid).

Definition is_stale (now_ms updated_at : Z) : bool := (updated_at <=? now_ms) && (kPersistentBridgeTtlMs <=? now_ms - updated_at).

Definition purge_stale_persistent_bridge_sessions_locked (now_ms : Z) (w : BridgeWorld) : BridgeWorld :=
  foldl (fun w' entry => if is_stale now_ms (session_time w entry.2) then evict_key entry.1 w' else w') w
    (map_to_list (sessions w)).

(** The least recently used entry, the first of several. *)
Definition older (w : BridgeWorld) (best : option (bytes * nat)) (entry : bytes * nat) : option (bytes * nat) :=
  match best with
  | Some b => if session_time w entry.2 <? session_time w b.2 then Some entry else best
  | None => Some entry
  end.

Definition least_recent (w : BridgeWorld) : option (bytes * nat) := foldl (older w) None (map_to_list (sessions w)).

(** One pass for each session is fuel enough ([trim_bounded]). *)
Fixpoint trim_loop (fuel : nat) (w : BridgeWorld) : BridgeWorld :=
  match fuel with
  | O => w
  | S fuel =>
      if (size (sessions w) <=? kPersistentBridgeMaxSessions)%nat then w
      else match least_recent w with
           | Some entry => trim_loop fuel (evict_key entry.1 w)
           | None => w
           end
  end.

Definition trim_persistent_bridge_sessions_locked (w : BridgeWorld) : BridgeWorld := trim_loop (size (sessions w)) w.

Definition tidy (now : Z) (w : BridgeWorld) : BridgeWorld :=
  trim_persistent_bridge_sessions_locked (purge_stale_persistent_bridge_sessions_locked now w).

(** The session of a request when it is still the one of its key. *)
Definition remove_if_same (key : bytes) (sid : nat) (w : BridgeWorld) : BridgeWorld :=
  if bool_decide (sessions w !! key = Some sid) then set_sessions (delete key (sessions w)) w else w.

Definition mismatched_account (r : Request) (s : Session) : bool :=
  negb (has_previous_response r) && negb (is_empty (request_account r)) && negb (is_empty (bridge_account s)) &&
  negb (bool_decide (bridge_account s = request_account r)).

(** ** The steps of a thread *)

(** Without a session: a new connection for a new response; nothing else can
    go on. *)
Definition without_session (r : Request) (first : option Upstream) : Phase :=
  if response_create_request r then Connecting first
  else Finished (default no_active_upstream_websocket_session_result first).

Definition acquire_step (tid : nat) (r : Request) (first : option Upstream) (now : Z) (w : BridgeWorld) : BridgeWorld :=
  let w := tidy now w in
  match sessions w !! request_key r with
  | Some sid =>
      match store w !! sid with
      | Some s =>
          if negb (cancel_requested s) && negb (mismatched_account r s) then move tid r (Running sid first) w
          else move tid r (Displaced sid first) (set_sessions (delete (request_key r) (sessions w)) w)
      | None => w
      end
  | None => move tid r (without_session r first) w
  end.

Definition is_held (w : BridgeWorld) (sid : nat) : bool :=
  match store w !! sid with Some s => match holder s with Some _ => true | None => false end | None => false end.

(** Closing under the mutex of the session, then on. *)
Definition close_step (tid : nat) (r : Request) (sid : nat) (next : Phase) (w : BridgeWorld) : BridgeWorld :=
  if is_held w sid then w else move tid r next (on_session sid close_session w).

Definition connect_step (tid : nat) (r : Request) (first : option Upstream) (now : Z) (opened : Upstream + HeaderMap)
    (w : BridgeWorld) : BridgeWorld :=
  match opened with
  | inl failure => move tid r (Finished failure) w
  | inr headers =>
      let sid := next_session w in
      let candidate := mkSession (request_account r) (request_traffic r) now false true headers None false in
      move tid r (Inserting sid first)
        (mkBridge (sessions w) (<[sid := candidate]> (store w)) (S sid) (threads w) (charged w) (written w) (lost w))
  end.

Definition insert_step (tid : nat) (r : Request) (candidate : nat) (first : option Upstream) (now : Z) (w : BridgeWorld) :
    BridgeWorld :=
  let w := tidy now w in
  match sessions w !! request_key r with
  | Some existing => move tid r (Losing candidate existing first) (note_loss tid w)
  | None => move tid r (Running candidate first)
              (trim_persistent_bridge_sessions_locked (set_sessions (<[request_key r := candidate]> (sessions w)) w))
  end.

(** *** A run on a session *)

(** The run is over: the mutex is released. *)
Definition retryable_result (r : Request) (cancelled transport_error : bool) (result : Upstream) : bool :=
  response_create_request r && negb cancelled &&
  (transport_error ||
   bool_decide (resolved_upstream_error_code result ∈ [$"stream_incomplete"; $"upstream_request_timeout"])).

(** What follows a run that does not remove its session. *)
Definition after_run (sid : nat) (first : option Upstream) (result : Upstream) (retryable : bool) : Phase :=
  match first with
  | None => if retryable then Discarding sid result else Finished result
  | Some _ => Finished result
  end.

(** The connection is closed and the session will be removed. *)
Definition end_closed (tid : nat) (r : Request) (sid : nat) (first : option Upstream) (cancelled transport_error : bool)
    (result : Upstream) (w : BridgeWorld) : BridgeWorld :=
  move tid r (Removing sid first result (retryable_result r cancelled transport_error result))
    (on_session sid (fun s => release (close_session s)) w).

Definition end_open (tid : nat) (r : Request) (sid : nat) (first : option Upstream) (now : Z) (result : Upstream)
    (w : BridgeWorld) : BridgeWorld :=
  if bool_decide (resolved_upstream_error_code result ∈ [$"previous_response_not_found"; $"stream_incomplete"])
  then end_closed tid r sid first false false result w
  else move tid r (after_run sid first result (retryable_result r false false result))
         (on_session sid (fun s => release (touch_session now s)) w).

Definition run_step (tid : nat) (r : Request) (sid : nat) (first : option Upstream) (now : Z) (write_error : option WsError)
    (w : BridgeWorld) : BridgeWorld :=
  match store w !! sid with
  | None => w
  | Some s =>
      match holder s with
      | Some _ => w
      | None =>
          let traffic := if is_empty (request_traffic r) then bridge_traffic s else request_traffic r in
          let w := charge traffic true (size_of (RequestPlan.body (request_plan r))) (on_session sid (hold tid traffic) w) in
          match (if connection_open s then write_error else Some (default (mkWsError false []) write_error)) with
          | Some ec => end_closed tid r sid first false true (websocket_result_with_error ec) w
          | None =>
              move tid r (Reading sid first (streaming (handshake_headers s) [] []) 0 now) (note_write tid sid w)
          end
      end
  end.

Definition with_code (u : Upstream) (code : bytes) : Upstream := set_error_code u code.

Definition too_large (u : Upstream) : Upstream :=
  mkUpstreamExecutionResult 502 (ErrorPolicy.body u) (ErrorPolicy.events u) (ErrorPolicy.headers u) false 1011
    $"upstream_response_too_large".

Definition with_event (u : Upstream) (payload : bytes) : Upstream :=
  mkUpstreamExecutionResult (ErrorPolicy.status u) (ErrorPolicy.body u) (ErrorPolicy.events u ++ [payload]) (ErrorPolicy.headers u)
    (accepted u) (close_code u) (error_code u).

(** One pass of the loop: [timed_out] is the text of the timeout. *)
Definition read_step (tid : nat) (r : Request) (sid : nat) (first : option Upstream) (result : Upstream)
    (total_upstream_bytes last_activity_ms : Z) (now : Z) (read : WsRead) (timed_out : bytes) (w : BridgeWorld) : BridgeWorld :=
  match store w !! sid with
  | None => w
  | Some s =>
      if cancel_requested s then end_closed tid r sid first true false (with_code result $"stream_incomplete") w
      else match read with
      | WsFailed ec =>
          if is_websocket_timeout ec then
            if effective_request_timeout_ms r <=? now - last_activity_ms
            then end_closed tid r sid first false true (websocket_result_with_error (mkWsError true timed_out)) w
            else w
          else end_closed tid r sid first false true (websocket_result_with_error ec) w
      | WsClosed => end_closed tid r sid first false true (with_code result $"stream_incomplete") w
      | Payload payload =>
          if is_empty payload then w
          else
            let total_upstream_bytes := total_upstream_bytes + size_of payload in
            if kMaxUpstreamResponseBytes <? total_upstream_bytes
            then end_closed tid r sid first false false (too_large result) w
            else
              let w := charge (bridge_traffic s) false (size_of payload) w in
              let result := with_event result payload in
              if websocket_stream_event_terminal payload then end_open tid r sid first now result w
              else move tid r (Reading sid first result total_upstream_bytes now) w
      end
  end.

(** ** Events *)

(** What a step of a thread meets. *)
Record StepInput := mkInput {
  clock : Z;
  opened : Upstream + HeaderMap;
  write_error : option WsError;
  read : WsRead;
  timed_out_text : bytes;
}.

Inductive Event :=
| Start (tid : nat) (r : Request)
| Step (tid : nat) (input : StepInput)
| Cancel (headers : HeaderMap)
| Reset
| CloseLeft (sid : nat).

Definition thread_step (tid : nat) (t : Thread) (i : StepInput) (w : BridgeWorld) : BridgeWorld :=
  let r := thread_request t in
  match phase t with
  | Acquiring first => acquire_step tid r first (clock i) w
  | Displaced sid first => close_step tid r sid (without_session r first) w
  | Connecting first => connect_step tid r first (clock i) (opened i) w
  | Inserting candidate first => insert_step tid r candidate first (clock i) w
  | Losing candidate existing first => close_step tid r candidate (Running existing first) w
  | Running sid first => run_step tid r sid first (clock i) (write_error i) w
  | Reading sid first result total last_activity =>
      read_step tid r sid first result total last_activity (clock i) (read i) (timed_out_text i) w
  | Removing sid first result retryable =>
      move tid r (after_run sid first result retryable) (remove_if_same (request_key r) sid w)
  | Discarding sid result => move tid r (Closing sid result) (remove_if_same (request_key r) sid w)
  | Closing sid result => close_step tid r sid (Acquiring (Some result)) w
  | Finished _ => w
  end.

(** [request_upstream_websocket_bridge_cancel]. *)
Definition cancel_bridge (headers : HeaderMap) (w : BridgeWorld) : BridgeWorld :=
  match bridge_key headers with
  | None => w
  | Some key =>
      match sessions w !! key with
      | Some sid => on_session sid request_cancel w
      | None => w
      end
  end.

Definition reset_persistent_bridge_sessions (w : BridgeWorld) : BridgeWorld :=
  set_sessions ∅ (foldl (fun w entry => on_session entry.2 evict w) w (map_to_list (sessions w))).

(** The mutex of an evicted session is free for the eviction; another thread
    may have had it first. *)
Definition close_left (sid : nat) (w : BridgeWorld) : BridgeWorld :=
  match store w !! sid with
  | Some s => if close_on_release s && negb (is_held w sid) then on_session sid close_session w else w
  | None => w
  end.

Definition bridge_step (w : BridgeWorld) (e : Event) : BridgeWorld :=
  match e with
  | Start tid r => match threads w !! tid with Some _ => w | None => move tid r (Acquiring None) w end
  | Step tid i => match threads w !! tid with Some t => thread_step tid t i w | None => w end
  | Cancel headers => cancel_bridge headers w
  | Reset => reset_persistent_bridge_sessions w
  | CloseLeft sid => close_left sid w
  end.

Definition bridge_run (events : list Event) : BridgeWorld := foldl bridge_step empty_bridge events.

(** ** The transport of a plan *)

(** Whether a websocket plan goes through the pool. *)
Definition uses_bridge (p : Plan) : bool :=
  preserve_upstream_websocket_session p &&
  match bridge_continuity_key (RequestPlan.headers p) with Some _ => true | None => false end.

Inductive Transport := CurlTransport | CustomTransport (execute : Plan -> Upstream).

(** [set_upstream_transport] and [reset_upstream_transport] start with an
    empty pool. *)
Definition set_upstream_transport (transport : option (Plan -> Upstream)) (w : BridgeWorld) : Transport * BridgeWorld :=
  (match transport with Some execute => CustomTransport execute | None => CurlTransport end,
   reset_persistent_bridge_sessions w).

Definition reset_upstream_transport (w : BridgeWorld) : Transport * BridgeWorld := set_upstream_transport None w.

(** The way of a plan. *)
Inductive Route :=
| ByCustom (u : Upstream)
| ByHttp
| ByBridge (ws_scheme target : bytes)
| ByWebsocket (ws_scheme target : bytes)
| Unreachable (failure : Upstream).

Definition execute_upstream_plan (env : environment) (transport : Transport) (p : Plan) : Route :=
  match transport with
  | CustomTransport execute => ByCustom (execute p)
  | CurlTransport =>
      if bool_decide (RequestPlan.transport p = $"websocket") then
        match websocket_target env p with
        | inl failure => Unreachable failure
        | inr (_, ws_scheme, target) => if uses_bridge p then ByBridge ws_scheme target else ByWebsocket ws_scheme target
        end
      else ByHttp
  end.

End codec.

(** ** What a phase knows of sessions *)

(** The sessions a thread can reach. *)
Definition mentions (p : Phase) : list nat :=
  match p with
  | Displaced sid _ | Inserting sid _ | Running sid _ | Reading sid _ _ _ _ | Removing sid _ _ _ | Discarding sid _
  | Closing sid _ => [sid]
  | Losing candidate existing _ => [candidate; existing]
  | Acquiring _ | Connecting _ | Finished _ => []
  end.

(** Those that are not in the pool any more, or not yet. *)
Definition outside (p : Phase) : list nat :=
  match p with
  | Displaced sid _ | Inserting sid _ | Closing sid _ => [sid]
  | Losing candidate _ _ => [candidate]
  | _ => []
  end.

(** Those no other thread knows. *)
Definition own (p : Phase) : list nat :=
  match p with
  | Inserting candidate _ | Losing candidate _ _ => [candidate]
  | _ => []
  end.

Definition pooled (w : BridgeWorld) (sid : nat) : Prop := exists key, sessions w !! key = Some sid.

(** A thread is about to take the session of a key out of the pool. *)
Definition removes (key : bytes) (sid : nat) (t : Thread) : Prop :=
  request_key (thread_request t) = key /\ exists first result retryable, phase t = Removing sid first result retryable.

Record thread_ok (w : BridgeWorld) (tid : nat) (t : Thread) : Prop := {
  ok_known : forall sid, sid ∈ mentions (phase t) -> is_Some (store w !! sid);
  ok_key : forall sid key, sid ∈ mentions (phase t) -> sessions w !! key = Some sid -> key = request_key (thread_request t);
  ok_outside : forall sid, sid ∈ outside (phase t) -> ~ pooled w sid;
  ok_own : forall sid tid' t', sid ∈ own (phase t) -> threads w !! tid' = Some t' -> tid' <> tid -> sid ∉ mentions (phase t');
  ok_holds : forall sid first result total last, phase t = Reading sid first result total last ->
    exists s, store w !! sid = Some s /\ holder s = Some tid;
  ok_candidate : forall sid first, phase t = Inserting sid first ->
    exists s, store w !! sid = Some s /\ connection_open s = true /\ close_on_release s = false;
}.

Record inv (w : BridgeWorld) : Prop := {
  inv_keys : forall k1 k2 sid, sessions w !! k1 = Some sid -> sessions w !! k2 = Some sid -> k1 = k2;
  inv_pool : forall key sid, sessions w !! key = Some sid ->
    exists s, store w !! sid = Some s /\ close_on_release s = false /\
      (connection_open s = true \/ exists tid t, threads w !! tid = Some t /\ removes key sid t);
  inv_fresh : forall sid, is_Some (store w !! sid) -> (sid < next_session w)%nat;
  inv_threads : forall tid t, threads w !! tid = Some t -> thread_ok w tid t;
}.

Lemma own_outside p sid : sid ∈ own p -> sid ∈ outside p.
Proof. destruct p; cbn; set_solver. Qed.

Lemma own_mentions p sid : sid ∈ own p -> sid ∈ mentions p.
Proof. destruct p; cbn; set_solver. Qed.

(** *** Sections that only take sessions out of the pool *)

Record tidied (w w' : BridgeWorld) : Prop := {
  tidied_sessions : sessions w' ⊆ sessions w;
  tidied_threads : threads w' = threads w;
  tidied_next : next_session w' = next_session w;
  tidied_written : written w' = written w;
  tidied_lost : lost w' = lost w;
  tidied_store : forall sid s', store w' !! sid = Some s' -> exists s, store w !! sid = Some s /\
    bridge_account s' = bridge_account s /\ holder s' = holder s /\ (s' = s \/ (pooled w sid /\ ~ pooled w' sid));
  tidied_dom : forall sid, is_Some (store w !! sid) -> is_Some (store w' !! sid);
}.

Lemma tidied_refl w : tidied w w.
Proof. split; try done. intros sid s' E. exists s'. by split_and!; auto. Qed.

Lemma pooled_sub w w' sid : sessions w' ⊆ sessions w -> pooled w' sid -> pooled w sid.
Proof. intros Hs [key E]. exists key. by eapply lookup_weaken. Qed.

Lemma tidied_trans w w1 w2 : tidied w w1 -> tidied w1 w2 -> tidied w w2.
Proof.
  intros [S1 T1 N1 W1 L1 St1 D1] [S2 T2 N2 W2 L2 St2 D2]. split; [by etrans|congruence..| |auto].
  intros sid s2 E2. destruct (St2 _ _ E2) as (s1 & E1 & A1 & H1 & P1). destruct (St1 _ _ E1) as (s & E & A & H & P).
  exists s. split; [done|]. split; [congruence|]. split; [congruence|]. destruct P as [->|[Hp Hn]].
  - destruct P1 as [->|[Hp1 Hn1]]; [by left|]. right. split; [by eapply pooled_sub|done].
  - right. split; [done|]. intros H'. apply Hn. by eapply pooled_sub.
Qed.

Definition injective (w : BridgeWorld) : Prop :=
  forall k1 k2 sid, sessions w !! k1 = Some sid -> sessions w !! k2 = Some sid -> k1 = k2.

Lemma injective_sub w w' : sessions w' ⊆ sessions w -> injective w -> injective w'.
Proof. intros Hs Hi k1 k2 sid E1 E2. eapply Hi; by eapply lookup_weaken. Qed.

Lemma evict_key_tidied key w : injective w -> tidied w (evict_key key w).
Proof.
  intros Hi. unfold evict_key. destruct (sessions w !! key) as [sid|] eqn:E; [|apply tidied_refl].
  split; cbn; try done; [apply delete_subseteq| |].
  - intros sid' s' E'. destruct (decide (sid' = sid)) as [->|Hne].
    + rewrite lookup_alter_eq in E'. destruct (store w !! sid) as [s|] eqn:Es; [|done]. injection E' as <-. exists s.
      split; [done|]. unfold evict. split; [by destruct (holder s)|]. split; [by destruct (holder s) eqn:Eh|].
      right. split; [by exists key|]. intros [k Ek]. cbn in Ek. apply lookup_delete_Some in Ek as [Hk Ek]. by destruct (Hi _ _ _ E Ek).
    + rewrite lookup_alter_ne in E' by done. exists s'. by split_and!; auto.
  - intros sid' [s Es]. destruct (decide (sid' = sid)) as [->|Hne].
    + rewrite lookup_alter_eq, Es. by eexists.
    + by rewrite lookup_alter_ne.
Qed.

Lemma purge_tidied now w : injective w -> tidied w (purge_stale_persistent_bridge_sessions_locked now w).
Proof.
  intros Hi. unfold purge_stale_persistent_bridge_sessions_locked.
  enough (forall l w', tidied w w' -> tidied w (foldl (fun w' entry => if is_stale now (session_time w entry.2)
    then evict_key entry.1 w' else w') w' l)) as H by by apply H, tidied_refl.
  induction l as [|entry l IH]; intros w' Ht; [done|]. cbn [foldl]. apply IH. case_match; [|done].
  eapply tidied_trans; [exact Ht|]. apply evict_key_tidied. eapply injective_sub; [apply Ht|done].
Qed.

Lemma trim_loop_tidied fuel w : injective w -> tidied w (trim_loop fuel w).
Proof.
  revert w. induction fuel as [|fuel IH]; intros w Hi; cbn [trim_loop]; [apply tidied_refl|].
  case_match; [apply tidied_refl|]. destruct (least_recent w) as [entry|]; [|apply tidied_refl].
  pose proof (evict_key_tidied entry.1 w Hi) as Ht. eapply tidied_trans; [exact Ht|]. apply IH.
  eapply injective_sub; [apply Ht|done].
Qed.

Lemma trim_tidied w : injective w -> tidied w (trim_persistent_bridge_sessions_locked w).
Proof. apply trim_loop_tidied. Qed.

Lemma tidy_tidied now w : injective w -> tidied w (tidy now w).
Proof.
  intros Hi. eapply tidied_trans; [by apply purge_tidied|]. apply trim_tidied.
  eapply injective_sub; [by apply (purge_tidied now w Hi)|done].
Qed.

(** *** The bound *)

Lemma least_recent_in w : sessions w <> ∅ -> exists entry, least_recent w = Some entry /\ sessions w !! entry.1 = Some entry.2.
Proof.
  intros Hne. unfold least_recent.
  assert (forall l best, (forall e, e ∈ l -> e ∈ map_to_list (sessions w)) ->
    (match best with Some b => b ∈ map_to_list (sessions w) | None => l <> [] end) ->
    exists entry, foldl (older w) best l = Some entry /\ entry ∈ map_to_list (sessions w)) as H.
  { induction l as [|e l IH]; intros best Hl Hb; cbn [foldl]; [destruct best as [b|]; [by exists b|done]|].
    apply IH; [intros e' He'; apply Hl; by right|]. unfold older. destruct best as [b|]; [|apply Hl; by left].
    destruct (session_time w e.2 <? session_time w b.2); [apply Hl; by left|done]. }
  destruct (H (map_to_list (sessions w)) None) as ([k v] & E & Hin); [done| |].
  - intros E. apply Hne. by apply map_to_list_empty_iff.
  - exists (k, v). split; [done|]. by apply elem_of_map_to_list in Hin.
Qed.

Lemma trim_loop_bounded fuel w : (size (sessions w) <= fuel + kPersistentBridgeMaxSessions)%nat ->
  (size (sessions (trim_loop fuel w)) <= kPersistentBridgeMaxSessions)%nat.
Proof.
  revert w. induction fuel as [|fuel IH]; intros w Hs; cbn [trim_loop]; [done|].
  destruct (Nat.leb_spec (size (sessions w)) kPersistentBridgeMaxSessions); [done|].
  destruct (least_recent_in w) as (entry & -> & El).
  { intros E. rewrite E, map_size_empty in *. lia. }
  apply IH. unfold evict_key. rewrite El. cbn. rewrite map_size_delete, El. cbn. lia.
Qed.

Lemma trim_bounded w : (size (sessions (trim_persistent_bridge_sessions_locked w)) <= kPersistentBridgeMaxSessions)%nat.
Proof. apply trim_loop_bounded. lia. Qed.

(** *** The invariant is kept by such a section *)

Lemma thread_ok_tidied w w' tid t : tidied w w' -> thread_ok w tid t -> thread_ok w' tid t.
Proof.
  intros Ht [Hk Hy Ho Hw Hh Hc]. split.
  - intros sid Hin. by apply Ht, Hk.
  - intros sid key Hin E. apply (Hy sid); [done|]. eapply lookup_weaken; [exact E|apply Ht].
  - intros sid Hin Hp. apply (Ho sid Hin). eapply pooled_sub; [apply Ht|done].
  - intros sid tid' t' Hin E. apply Hw; [done|]. by rewrite <- (tidied_threads _ _ Ht).
  - intros sid first result total last E. destruct (Hh _ _ _ _ _ E) as (s & Es & Eh).
    destruct (tidied_dom _ _ Ht sid) as [s' Es']; [by eexists|]. exists s'. split; [done|].
    destruct (tidied_store _ _ Ht _ _ Es') as (s0 & Es0 & _ & Eh0 & _). congruence.
  - intros sid first E. destruct (Hc _ _ E) as (s & Es & Eo & Ec). destruct (tidied_dom _ _ Ht sid) as [s' Es']; [by eexists|].
    exists s'. split; [done|]. destruct (tidied_store _ _ Ht _ _ Es') as (s0 & Es0 & _ & _ & [->|[Hp _]]).
    + rewrite Es in Es0. by injection Es0 as <-.
    + destruct (Ho sid); [rewrite E; by left|done].
Qed.

Lemma inv_tidied w w' : inv w -> tidied w w' -> inv w'.
Proof.
  intros [Hi Hp Hf Ht] Hd. split.
  - eapply injective_sub; [apply Hd|exact Hi].
  - intros key sid E. pose proof (lookup_weaken _ _ _ _ E (tidied_sessions _ _ Hd)) as E0.
    destruct (Hp _ _ E0) as (s & Es & Hc & Ho). destruct (tidied_dom _ _ Hd sid) as [s' Es']; [by eexists|].
    destruct (tidied_store _ _ Hd _ _ Es') as (s0 & Es0 & _ & _ & Hsame).
    assert (s' = s0) as -> by (destruct Hsame as [?|[_ []]]; [done|by exists key]). rewrite Es in Es0. injection Es0 as <-.
    exists s. split; [done|]. split; [done|]. by rewrite (tidied_threads _ _ Hd).
  - intros sid [s' Es']. rewrite (tidied_next _ _ Hd). apply Hf. destruct (tidied_store _ _ Hd _ _ Es') as (s & Es & _). by eexists.
  - intros tid t E. eapply thread_ok_tidied; [done|]. apply Ht. by rewrite <- (tidied_threads _ _ Hd).
Qed.

(** ** The steps keep the invariant *)

(** A session the thread may move on to. *)
Definition reachable (w : BridgeWorld) (tid : nat) (r : Request) (q : Phase) (sid : nat) : Prop :=
  sid ∈ mentions q \/
  (is_Some (store w !! sid) /\ (forall key, sessions w !! key = Some sid -> key = request_key r) /\
   forall tid' t', threads w !! tid' = Some t' -> tid' <> tid -> sid ∉ own (phase t')).

(** What a step of a thread may do to a session. *)
Definition changed (w : BridgeWorld) (tid : nat) (q p : Phase) (sid : nat) (s s' : Session) : Prop :=
  (s' = s \/ sid ∈ mentions q) /\
  close_on_release s' = close_on_release s /\ bridge_account s' = bridge_account s /\
  (connection_open s' = connection_open s \/ ~ pooled w sid \/ exists first result retryable, p = Removing sid first result retryable) /\
  (holder s' = holder s \/ holder s = None \/ holder s = Some tid).

Lemma changed_refl w tid q p sid s : changed w tid q p sid s s.
Proof. split_and!; by auto. Qed.

Definition moved (w : BridgeWorld) (tid : nat) (r : Request) (p : Phase) (st : gmap nat Session) (w' : BridgeWorld) : Prop :=
  sessions w' = sessions w /\ store w' = st /\ next_session w' = next_session w /\
  threads w' = <[tid := mkThread r p]> (threads w).

Lemma inv_core w tid r q p st w' :
  inv w -> threads w !! tid = Some (mkThread r q) -> moved w tid r p st w' ->
  (forall sid, is_Some (store w !! sid) <-> is_Some (st !! sid)) ->
  (forall sid s s', store w !! sid = Some s -> st !! sid = Some s' -> changed w tid q p sid s s') ->
  (forall sid, sid ∈ mentions p -> reachable w tid r q sid) ->
  (forall sid, sid ∈ outside p -> ~ pooled w sid) ->
  (forall sid, sid ∈ own p -> sid ∈ own q) ->
  (forall sid first result total last, p = Reading sid first result total last -> exists s, st !! sid = Some s /\ holder s = Some tid) ->
  (forall sid first, p <> Inserting sid first) ->
  (forall sid first result retryable, q = Removing sid first result retryable -> sessions w !! request_key r <> Some sid) ->
  inv w'.
Proof.
  intros [Hi Hp Hf Ht] Eq (Es & Est & En & Eth) Hdom Hch Hm Ho Hw Hh Hni Hrm. pose proof (Ht _ _ Eq) as Hq.
  split; rewrite ?Es, ?Est, ?En, ?Eth.
  - done.
  - intros key sid E. destruct (Hp _ _ E) as (s & Ess & Hc & Hopen). destruct (proj1 (Hdom sid)) as [s' Es']; [by eexists|].
    destruct (Hch _ _ _ Ess Es') as (_ & Hcl & _ & Hop & _). exists s'. split; [done|]. split; [congruence|].
    destruct Hop as [Hop|[Hop|(f & res & b & ->)]].
    + destruct Hopen as [Hopen|(tid' & t' & Et' & Hr')]; [left; congruence|]. right. exists tid', t'. split; [|done].
      rewrite lookup_insert_ne; [done|]. intros <-. rewrite Eq in Et'. injection Et' as <-.
      destruct Hr' as (Hk & f & res & b & Hph). cbn in Hk, Hph. subst key. by apply (Hrm _ _ _ _ Hph).
    + destruct Hop. by exists key.
    + right. eexists tid, _. rewrite lookup_insert_eq. split; [done|]. split; [|by exists f, res, b]. cbn.
      destruct (Hm sid) as [Hin|(_ & Hk & _)]; [by left|symmetry; by apply (ok_key _ _ _ Hq sid)|symmetry; by apply Hk].
  - intros sid Hs. apply Hf. by apply Hdom.
  - intros tid' t' E. apply lookup_insert_Some in E as [[<- <-]|[Hne E]].
    + destruct Hq as [Hk Hy Hou Hpr Hre Hca]. cbn [phase thread_request] in *. split; cbn [phase thread_request]; rewrite ?Es, ?Est.
      * intros sid Hin. apply Hdom. destruct (Hm sid Hin) as [Hq|[Hq _]]; [by apply Hk|done].
      * intros sid key Hin Ek. destruct (Hm sid Hin) as [Hq|(_ & Hq & _)]; [by apply (Hy sid)|by apply Hq].
      * intros sid Hin Hpo. apply (Ho sid Hin). unfold pooled in *. by rewrite Es in Hpo.
      * intros sid tid' t' Hin E Hne. rewrite Eth, lookup_insert_ne in E by done. apply (Hpr sid tid'); [by apply Hw|done|done].
      * exact Hh.
      * intros sid first E. by apply Hni in E.
    + pose proof (Ht _ _ E) as [Hk Hy Hou Hpr Hre Hca]. split; rewrite ?Es, ?Est.
      * intros sid Hin. apply Hdom. by apply Hk.
      * done.
      * intros sid Hin Hpo. apply (Hou sid Hin). unfold pooled in *. by rewrite Es in Hpo.
      * intros sid tid2 t2 Hin E2 Hne2. rewrite Eth in E2. apply lookup_insert_Some in E2 as [[<- <-]|[_ E2]].
        -- cbn [phase]. intros Hin2. destruct (Hm sid Hin2) as [Hq2|(_ & _ & Hq2)].
           ++ by apply (Hpr sid tid _ Hin Eq).
           ++ by apply (Hq2 tid' t' E ltac:(done)).
        -- by apply (Hpr sid tid2).
      * intros sid f res tot la Er. destruct (Hre _ _ _ _ _ Er) as (s & Ess & Ehs). destruct (proj1 (Hdom sid)) as [s' Es']; [by eexists|].
        exists s'. split; [done|]. destruct (Hch _ _ _ Ess Es') as (_ & _ & _ & _ & [Hh'|[Hh'|Hh']]); congruence.
      * intros sid f Ei. destruct (Hca _ _ Ei) as (s & Ess & Eo & Ec). destruct (proj1 (Hdom sid)) as [s' Es']; [by eexists|].
        exists s'. split; [done|]. destruct (Hch _ _ _ Ess Es') as ([->|Hin] & _); [done|]. exfalso.
        by apply (Hpr sid tid _ ltac:(rewrite Ei; by left) Eq).
Qed.

(** A thread moves on. *)
Lemma inv_move w tid r q p :
  inv w -> threads w !! tid = Some (mkThread r q) ->
  (forall sid, sid ∈ mentions p -> reachable w tid r q sid) ->
  (forall sid, sid ∈ outside p -> ~ pooled w sid) ->
  (forall sid, sid ∈ own p -> sid ∈ own q) ->
  (forall sid first result total last, p = Reading sid first result total last -> exists s, store w !! sid = Some s /\ holder s = Some tid) ->
  (forall sid first, p <> Inserting sid first) ->
  (forall sid first result retryable, q = Removing sid first result retryable -> sessions w !! request_key r <> Some sid) ->
  inv (move tid r p w).
Proof.
  intros Hw Eq. apply (inv_core w tid r q p (store w)); try done.
  intros sid s s' E E'. rewrite E in E'. injection E' as <-. apply changed_refl.
Qed.

(** A thread changes a session and moves on. *)
Lemma inv_move_session w tid r q p sid f s :
  inv w -> threads w !! tid = Some (mkThread r q) -> store w !! sid = Some s -> changed w tid q p sid s (f s) ->
  (forall i, i ∈ mentions p -> reachable w tid r q i) ->
  (forall i, i ∈ outside p -> ~ pooled w i) ->
  (forall i, i ∈ own p -> i ∈ own q) ->
  (forall i first result total last, p = Reading i first result total last -> i = sid /\ holder (f s) = Some tid) ->
  (forall i first, p <> Inserting i first) ->
  (forall i first result retryable, q = Removing i first result retryable -> sessions w !! request_key r <> Some i) ->
  inv (move tid r p (on_session sid f w)).
Proof.
  intros Hw Eq Es Hch Hm Ho Hown Hre Hni Hrm. apply (inv_core w tid r q p (alter f sid (store w))); try done.
  - intros i. destruct (decide (i = sid)) as [->|Hne]; [rewrite lookup_alter_eq, Es; cbn; split; by eexists|by rewrite lookup_alter_ne].
  - intros i si si' E E'. destruct (decide (i = sid)) as [->|Hne].
    + rewrite lookup_alter_eq, Es in E'. injection E' as <-. rewrite Es in E. injection E as <-. done.
    + rewrite lookup_alter_ne in E' by done. rewrite E in E'. injection E' as <-. apply changed_refl.
  - intros i first result total last E. destruct (Hre _ _ _ _ _ E) as [-> Hh]. exists (f s). by rewrite lookup_alter_eq, Es.
Qed.

(** Taking a session the thread may reach out of the pool. *)
Lemma inv_delete key w : inv w -> inv (set_sessions (delete key (sessions w)) w).
Proof.
  intros Hw. eapply inv_tidied; [done|]. split; cbn; try done; [apply delete_subseteq|]. intros sid s E. exists s. by split_and!; auto.
Qed.

Lemma inv_charge account egress n w : inv w -> inv (charge account egress n w).
Proof. unfold charge. case_match; [done|]. intros [H1 H2 H3 H4]. split; try done. intros tid t E. by destruct (H4 tid t E). Qed.

Lemma inv_note_write tid sid w : inv w -> inv (note_write tid sid w).
Proof. intros [H1 H2 H3 H4]. split; try done. intros i t E. by destruct (H4 i t E). Qed.

Lemma inv_note_loss tid w : inv w -> inv (note_loss tid w).
Proof. intros [H1 H2 H3 H4]. split; try done. intros i t E. by destruct (H4 i t E). Qed.

Lemma inv_injective w : inv w -> injective w.
Proof. by intros []. Qed.

Lemma inv_tidy now w : inv w -> inv (tidy now w).
Proof. intros H. eapply inv_tidied; [exact H|]. by apply tidy_tidied, inv_injective. Qed.

Lemma tidy_threads now w : injective w -> threads (tidy now w) = threads w.
Proof. intros H. by apply (tidied_threads _ _ (tidy_tidied now w H)). Qed.

(** What a thread finds under its key, it may use. *)
Lemma pooled_reachable w tid r q sid : inv w -> sessions w !! request_key r = Some sid -> reachable w tid r q sid.
Proof.
  intros [Hi Hp Hf Ht] E. right. split; [destruct (Hp _ _ E) as (s & Es & _); by eexists|]. split; [by intros key Ek; apply (Hi _ _ sid)|].
  intros tid' t' Et' _ Hin. apply (ok_outside _ _ _ (Ht _ _ Et') sid); [by apply own_outside|by exists (request_key r)].
Qed.

Lemma without_session_nothing r first : mentions (without_session r first) = [] /\ outside (without_session r first) = [] /\
  own (without_session r first) = [] /\ (forall sid f res total last, without_session r first <> Reading sid f res total last) /\
  (forall sid f, without_session r first <> Inserting sid f).
Proof. unfold without_session. by case_match. Qed.

Lemma inv_acquire tid r first now w :
  inv w -> threads w !! tid = Some (mkThread r (Acquiring first)) -> inv (acquire_step tid r first now w).
Proof.
  intros Hw Eq. unfold acquire_step. pose proof (inv_tidy now w Hw) as Hw'.
  rewrite <- (tidy_threads now w (inv_injective w Hw)) in Eq. generalize dependent (tidy now w). clear w Hw. intros w Eq Hw.
  destruct (sessions w !! request_key r) as [sid|] eqn:Es.
  - destruct (store w !! sid) as [s|] eqn:Est; [|done]. destruct (_ && _).
    + apply (inv_move w tid r (Acquiring first)); try done; cbn [mentions outside own].
      * intros i Hin. apply list_elem_of_singleton in Hin as ->. by apply pooled_reachable.
      * intros i Hin. by apply elem_of_nil in Hin.
    + assert (reachable w tid r (Acquiring first) sid) as Hr by by apply pooled_reachable.
      apply (inv_move _ tid r (Acquiring first)); try done; [by apply inv_delete|..]; cbn [mentions outside own].
      * intros i Hin. apply list_elem_of_singleton in Hin as ->. destruct Hr as [Hr|(H1 & H2 & H3)]; [by left|]. right.
        split; [done|]. split; [|done]. intros key Ek. cbn in Ek. apply lookup_delete_Some in Ek as [_ Ek]. by apply H2.
      * intros i Hin [key Ek]. apply list_elem_of_singleton in Hin as ->. cbn in Ek. apply lookup_delete_Some in Ek as [Hk Ek].
        by destruct (inv_keys _ Hw _ _ _ Es Ek).
  - destruct (without_session_nothing r first) as (E1 & E2 & E3 & E4 & E5).
    apply (inv_move w tid r (Acquiring first)); try done; rewrite ?E1, ?E2, ?E3; try (intros i Hin; by apply elem_of_nil in Hin).
    intros sid f res total last E. by apply E4 in E.
Qed.

Lemma mentioned_session w tid r q sid : inv w -> threads w !! tid = Some (mkThread r q) -> sid ∈ mentions q ->
  exists s, store w !! sid = Some s.
Proof. intros Hw Eq Hin. by destruct (ok_known _ _ _ (inv_threads _ Hw _ _ Eq) sid Hin) as [s Es]; exists s. Qed.

(** Closing a session that is out of the pool. *)
Lemma inv_close tid r q sid next w :
  inv w -> threads w !! tid = Some (mkThread r q) -> sid ∈ outside q -> sid ∈ mentions q ->
  (forall i, i ∈ mentions next -> i ∈ mentions q) -> outside next = [] -> own next = [] ->
  (forall i f res total last, next <> Reading i f res total last) ->
  (forall i f, next <> Inserting i f) ->
  (forall i f res b, q <> Removing i f res b) ->
  inv (close_step tid r sid next w).
Proof.
  intros Hw Eq Hout Hin Hm Eo Ew Hr Hni Hq. unfold close_step. destruct (is_held w sid) eqn:Eh; [done|].
  destruct (mentioned_session w tid r q sid Hw Eq Hin) as [s Es].
  apply (inv_move_session w tid r q next sid close_session s); try done; rewrite ?Eo, ?Ew; try (intros i Hi; by apply elem_of_nil in Hi).
  - split_and!; try done; [by right|right; left; by apply (ok_outside _ _ _ (inv_threads _ Hw _ _ Eq) sid)|by left].
  - intros i Hi. left. by apply Hm.
  - intros i f res total last E. by apply Hr in E.
  - intros i f res b E. by apply Hq in E.
Qed.

Lemma inv_connect tid r first now opened w :
  inv w -> threads w !! tid = Some (mkThread r (Connecting first)) -> inv (connect_step tid r first now opened w).
Proof.
  intros Hw Eq. unfold connect_step. destruct opened as [failure|headers].
  { apply (inv_move w tid r (Connecting first)); try done; cbn; intros i Hi; by apply elem_of_nil in Hi. }
  set (candidate := mkSession _ _ _ _ _ _ _ _). set (w1 := mkBridge _ _ _ _ _ _ _).
  assert (store w !! next_session w = None) as Hn.
  { destruct (store w !! next_session w) eqn:E; [|done]. pose proof (inv_fresh _ Hw (next_session w)) as H. rewrite E in H.
    specialize (H ltac:(by eexists)). lia. }
  assert (forall i, is_Some (store w !! i) -> i <> next_session w) as Hne by (intros i [s Es] ->; congruence).
  assert (forall t i p, threads w !! t = Some p -> i ∈ mentions (phase p) -> i <> next_session w) as Hmne.
  { intros t i p Ep Hi. apply Hne. by apply (ok_known _ _ _ (inv_threads _ Hw _ _ Ep)). }
  destruct Hw as [Hi Hp Hf Ht]. split; cbn.
  - done.
  - intros key sid E. destruct (Hp _ _ E) as (s & Es & Hc & Ho). exists s. rewrite lookup_insert_ne by (intros <-; congruence).
    split; [done|]. split; [done|]. destruct Ho as [Ho|(t & p & Ep & Hk & f & res & b & Hph)]; [by left|]. right. exists t, p.
    rewrite lookup_insert_ne; [split; [done|]; split; [done|]; by eauto|]. intros <-. rewrite Eq in Ep. injection Ep as <-. done.
  - intros sid Hs. destruct (decide (sid = next_session w)) as [->|Hd]; [lia|]. rewrite lookup_insert_ne in Hs by done.
    specialize (Hf sid Hs). lia.
  - intros t p E. apply lookup_insert_Some in E as [[<- <-]|[Hd E]].
    + split; cbn [phase thread_request mentions outside own].
      * intros sid Hin. apply list_elem_of_singleton in Hin as ->. cbn. rewrite lookup_insert_eq. by eexists.
      * intros sid key Hin Ek. apply list_elem_of_singleton in Hin as ->. cbn in Ek. destruct (Hp _ _ Ek) as (s & Es & _). congruence.
      * intros sid Hin [key Ek]. apply list_elem_of_singleton in Hin as ->. cbn in Ek. destruct (Hp _ _ Ek) as (s & Es & _). congruence.
      * intros sid t' p' Hin Et' Hd Hin'. apply list_elem_of_singleton in Hin as ->. cbn in Et'. rewrite lookup_insert_ne in Et' by done.
        by apply (Hmne _ _ _ Et' Hin').
      * done.
      * intros sid f [= <- <-]. exists candidate. cbn. by rewrite lookup_insert_eq.
    + pose proof (Ht _ _ E) as [Hk Hy Hou Hpr Hre Hca]. split; cbn.
      * intros sid Hin. rewrite lookup_insert_ne by (symmetry; by apply (Hmne _ _ _ E)). by apply Hk.
      * done.
      * done.
      * intros sid t' p' Hin Et' Hd'. apply lookup_insert_Some in Et' as [[<- <-]|[_ Et']]; [|by apply (Hpr sid t')].
        cbn. intros Hin'. apply list_elem_of_singleton in Hin' as ->. by apply (Hmne _ _ _ E (own_mentions _ _ Hin)).
      * intros sid f res total last Er. destruct (Hre _ _ _ _ _ Er) as (s & Es & Eh). exists s. split; [|done].
        rewrite lookup_insert_ne; [done|]. intros <-. congruence.
      * intros sid f Ei. destruct (Hca _ _ Ei) as (s & Es & Ho). exists s. split; [|done].
        rewrite lookup_insert_ne; [done|]. intros <-. congruence.
Qed.

Lemma tidied_move w w' tid r p : tidied w w' -> tidied (move tid r p w) (move tid r p w').
Proof. intros [H1 H2 H3 H4 H5 H6 H7]. split; cbn; try done. by rewrite H2. Qed.

(** The candidate enters the pool under the key of its thread. *)
Lemma inv_enter tid r candidate first w :
  inv w -> threads w !! tid = Some (mkThread r (Inserting candidate first)) -> sessions w !! request_key r = None ->
  inv (move tid r (Running candidate first) (set_sessions (<[request_key r := candidate]> (sessions w)) w)).
Proof.
  intros Hw Eq Ek. pose proof (inv_threads _ Hw _ _ Eq) as [Hk Hy Hou Hpr Hre Hca]. cbn [phase thread_request] in *.
  destruct (Hca _ _ eq_refl) as (s & Es & Hopen & Hclose).
  assert (~ pooled w candidate) as Hnp by (apply Hou; by left).
  assert (forall t p, threads w !! t = Some p -> t <> tid -> candidate ∉ mentions (phase p)) as Hoth by (intros; apply (Hpr _ t); [by left|done|done]).
  assert (forall i, i <> candidate -> pooled (set_sessions (<[request_key r:=candidate]> (sessions w)) w) i -> pooled w i) as Hpo.
  { intros i Hi [k E]. cbn in E. apply lookup_insert_Some in E as [[_ ?]|[_ E]]; [done|]. by exists k. }
  split; cbn.
  - intros k1 k2 sid E1 E2. apply lookup_insert_Some in E1 as [[<- <-]|[N1 E1]], E2 as [[<- E2]|[N2 E2]]; try done.
    + destruct Hnp. by exists k2.
    + destruct Hnp. exists k1. by rewrite E2.
    + by apply (inv_keys _ Hw _ _ sid).
  - intros key sid E. apply lookup_insert_Some in E as [[<- <-]|[N E]]; [exists s; by auto|].
    destruct (inv_pool _ Hw _ _ E) as (s' & Es' & Hc & [Ho|(t & p & Ep & Hkey & f & res & b & Hph)]); exists s'; (split; [done|]; split; [done|]).
    + by left.
    + right. exists t, p. rewrite lookup_insert_ne; [split; [done|]; split; [done|]; by eauto|]. intros <-. rewrite Eq in Ep. by injection Ep as <-.
  - apply (inv_fresh _ Hw).
  - intros t p E. apply lookup_insert_Some in E as [[<- <-]|[Hd E]].
    + split; cbn [phase thread_request mentions outside own]; try (by intros; match goal with H : _ ∈ [] |- _ => apply elem_of_nil in H end); try done.
      intros sid key Hin E. apply list_elem_of_singleton in Hin as ->. cbn in E.
      apply lookup_insert_Some in E as [[<- _]|[_ E]]; [done|]. destruct Hnp. by exists key.
    + pose proof (inv_threads _ Hw _ _ E) as [Hk' Hy' Hou' Hpr' Hre' Hca']. split; cbn; try done.
      * intros sid key Hin E'. apply lookup_insert_Some in E' as [[<- <-]|[_ E']]; [by destruct (Hoth _ _ E ltac:(done))|by apply (Hy' sid)].
      * intros sid Hin Hp. apply (Hou' sid Hin). apply Hpo; [|done]. intros ->. apply (Hoth _ _ E ltac:(done)).
        clear -Hin. destruct (phase p); cbn in *; set_solver.
      * intros sid t' p' Hin E' Hd'. apply lookup_insert_Some in E' as [[<- <-]|[_ E']]; [|by apply (Hpr' sid t')].
        cbn. intros Hc. apply (Hpr' sid tid _ Hin Eq ltac:(done)). cbn. set_solver.
Qed.

Lemma inv_insert tid r candidate first now w :
  inv w -> threads w !! tid = Some (mkThread r (Inserting candidate first)) -> inv (insert_step tid r candidate first now w).
Proof.
  intros Hw Eq. unfold insert_step. pose proof (inv_tidy now w Hw) as Hw'.
  rewrite <- (tidy_threads now w (inv_injective w Hw)) in Eq. generalize dependent (tidy now w). clear w Hw. intros w Eq Hw.
  pose proof (ok_outside _ _ _ (inv_threads _ Hw _ _ Eq) candidate ltac:(by left)) as Hnp.
  destruct (sessions w !! request_key r) as [existing|] eqn:Ee.
  - apply (inv_move (note_loss tid w) tid r (Inserting candidate first)); try done; cbn [mentions outside own].
    + by apply inv_note_loss.
    + intros i Hi. apply elem_of_cons in Hi as [->|Hi]; [left; by left|]. apply list_elem_of_singleton in Hi as ->.
      by apply (pooled_reachable w).
    + intros i Hi. by apply list_elem_of_singleton in Hi as ->.
  - eapply inv_tidied; [by apply inv_enter|]. apply tidied_move, trim_tidied.
    intros k1 k2 sid E1 E2. apply (inv_keys _ (inv_enter tid r candidate first w Hw Eq Ee) k1 k2 sid); done.
Qed.

(** *** Runs *)

Section laws.
Context {codec : JsonCodec}.

Lemma move_id tid r q w : threads w !! tid = Some (mkThread r q) -> move tid r q w = w.
Proof. intros E. destruct w. unfold move. cbn in *. by rewrite insert_id. Qed.

(** A thread that is on a session and on nothing else. *)
Definition on (sid : nat) (q : Phase) : Prop :=
  (exists first, q = Running sid first) \/ (exists first result total last, q = Reading sid first result total last).

Lemma on_facts sid q : on sid q -> mentions q = [sid] /\ outside q = [] /\ own q = [] /\ (forall i f res b, q <> Removing i f res b).
Proof. by intros [(f & ->)|(f & res & total & last & ->)]. Qed.

Lemma inv_end_closed tid r q sid s first cancelled transport_error result w :
  inv w -> threads w !! tid = Some (mkThread r q) -> on sid q -> store w !! sid = Some s -> holder s = Some tid ->
  inv (end_closed tid r sid first cancelled transport_error result w).
Proof.
  intros Hw Eq Hon Es Eh. destruct (on_facts sid q Hon) as (Em & Eo & Eow & Hnr). unfold end_closed.
  apply (inv_move_session w tid r q _ sid _ s); try done; rewrite ?Eo, ?Eow.
  - split_and!; [right; rewrite Em; by left|done|done|right; right; by do 3 eexists|by right; right].
  - intros i Hi. left. by rewrite Em.
  - intros i Hi. by apply elem_of_nil in Hi.
  - intros i Hi. by apply elem_of_nil in Hi.
  - intros i f res b E. by apply Hnr in E.
Qed.

Lemma inv_end_open tid r q sid s first now result w :
  inv w -> threads w !! tid = Some (mkThread r q) -> on sid q -> store w !! sid = Some s -> holder s = Some tid ->
  close_on_release s = false \/ ~ pooled w sid ->
  inv (end_open tid r sid first now result w).
Proof.
  intros Hw Eq Hon Es Eh Hc. unfold end_open. case_bool_decide; [by eapply inv_end_closed|].
  destruct (on_facts sid q Hon) as (Em & Eo & Eow & Hnr).
  assert (mentions (after_run sid first result (retryable_result r false false result)) ⊆ mentions q /\
    outside (after_run sid first result (retryable_result r false false result)) = [] /\
    own (after_run sid first result (retryable_result r false false result)) = []) as (H1 & H2 & H3).
  { rewrite Em. unfold after_run. destruct first, (retryable_result r false false result); cbn; (split; [set_solver|done]). }
  apply (inv_move_session w tid r q _ sid _ s); try done; rewrite ?H2, ?H3; try (intros i Hi; by apply elem_of_nil in Hi).
  - split_and!; [right; rewrite Em; by left|done|done| |by right; right].
    by left.
  - intros i Hi. left. by apply H1.
  - intros i f res total last E. unfold after_run in E. destruct first, (retryable_result r false false result); done.
  - intros i f E. unfold after_run in E. destruct first, (retryable_result r false false result); done.
  - intros i f res b E. by apply Hnr in E.
Qed.

(** A pooled session is not waiting to be closed. *)
Lemma close_or_out w sid s : inv w -> store w !! sid = Some s -> close_on_release s = false \/ ~ pooled w sid.
Proof.
  intros Hw Es. destruct (close_on_release s) eqn:E; [|by left]. right. intros [key Ek].
  destruct (inv_pool _ Hw _ _ Ek) as (s' & Es' & Hc & _). congruence.
Qed.

Lemma inv_run tid r sid first now write_error w :
  inv w -> threads w !! tid = Some (mkThread r (Running sid first)) -> inv (run_step tid r sid first now write_error w).
Proof.
  intros Hw Eq. unfold run_step. destruct (store w !! sid) as [s|] eqn:Es; [|done]. destruct (holder s) as [t|] eqn:Eh; [done|].
  set (traffic := if is_empty (request_traffic r) then _ else _).
  assert (inv (on_session sid (hold tid traffic) w)) as Hw1.
  { rewrite <- (move_id tid r (Running sid first) (on_session sid (hold tid traffic) w)) by done.
    apply (inv_move_session w tid r (Running sid first) _ sid _ s); try done; cbn; try (intros i Hi; by apply elem_of_nil in Hi).
    - split_and!; [right; by left|done|done|by left|by right; left].
    - intros i Hi. by left. }
  assert (store (on_session sid (hold tid traffic) w) !! sid = Some (hold tid traffic s)) as Es1 by (cbn; by rewrite lookup_alter_eq, Es).
  assert (threads (on_session sid (hold tid traffic) w) !! tid = Some (mkThread r (Running sid first))) as Eq1 by done.
  generalize dependent (on_session sid (hold tid traffic) w). clear w Hw Eq Es. intros w Hw Es Eq.
  apply (inv_charge traffic true (size_of (RequestPlan.body (request_plan r)))) in Hw.
  assert (store (charge traffic true (size_of (RequestPlan.body (request_plan r))) w) !! sid = Some (hold tid traffic s)) as Es1
    by (unfold charge; by case_match).
  assert (threads (charge traffic true (size_of (RequestPlan.body (request_plan r))) w) !! tid = Some (mkThread r (Running sid first))) as Eq1
    by (unfold charge; by case_match).
  generalize dependent (charge traffic true (size_of (RequestPlan.body (request_plan r))) w). clear w Es Eq. intros w Hw Es Eq.
  destruct (if connection_open s then _ else _) as [ec|].
  - eapply inv_end_closed; [done|exact Eq|left; by eexists|exact Es|done].
  - apply (inv_move (note_write tid sid w) tid r (Running sid first)); try done; cbn [mentions outside own].
    + by apply inv_note_write.
    + intros i Hi. by left.
    + intros i Hi. by apply elem_of_nil in Hi.
    + intros i f res total last [= <- _ _ _ _]. by eexists.
Qed.

Lemma inv_read tid r sid first result total last now read timed_out w :
  inv w -> threads w !! tid = Some (mkThread r (Reading sid first result total last)) ->
  inv (read_step tid r sid first result total last now read timed_out w).
Proof.
  intros Hw Eq. unfold read_step.
  destruct (ok_holds _ _ _ (inv_threads _ Hw _ _ Eq) _ _ _ _ _ eq_refl) as (s & Es & Eh). rewrite Es.
  assert (on sid (Reading sid first result total last)) as Hon by (right; by do 4 eexists).
  assert (forall c te res, inv (end_closed tid r sid first c te res w)) as Hend by (intros; by eapply inv_end_closed).
  destruct (cancel_requested s); [done|]. destruct read as [payload| |ec]; [|done|by repeat case_match].
  destruct (is_empty payload); [done|]. destruct (_ <? _); [done|].
  set (w1 := charge _ _ _ w). assert (inv w1) as Hw1 by by apply inv_charge.
  assert (threads w1 = threads w /\ store w1 = store w) as [Et1 Es1] by (subst w1; unfold charge; by case_match).
  destruct (websocket_stream_event_terminal payload).
  - eapply (inv_end_open tid r _ sid s); rewrite ?Et1, ?Es1; try done. apply (close_or_out w1); [done|by rewrite Es1].
  - apply (inv_move w1 tid r (Reading sid first result total last)); rewrite ?Et1, ?Es1; try done; cbn [mentions outside own].
    + intros i Hi. by left.
    + intros i Hi. by apply elem_of_nil in Hi.
    + intros i f res tot la [= <- _ _ _ _]. by exists s.
Qed.

(** Taking out what a thread has done with. *)
Lemma inv_remove_if_same key sid w : inv w -> inv (remove_if_same key sid w).
Proof. intros H. unfold remove_if_same. case_bool_decide; [by apply inv_delete|done]. Qed.

Lemma remove_if_same_out tid r q sid w : inv w -> threads w !! tid = Some (mkThread r q) -> sid ∈ mentions q ->
  ~ pooled (remove_if_same (request_key r) sid w) sid.
Proof.
  intros Hw Eq Hin [key E]. unfold remove_if_same in E.
  assert (sessions w !! key = Some sid) as E0.
  { case_bool_decide; [|done]. cbn in E. by apply lookup_delete_Some in E as [_ E]. }
  pose proof (ok_key _ _ _ (inv_threads _ Hw _ _ Eq) sid key Hin E0) as ->. cbn in E0. rewrite bool_decide_true in E by done.
  cbn in E. by rewrite lookup_delete_eq in E.
Qed.

Lemma inv_removing tid r sid first result retryable w :
  inv w -> threads w !! tid = Some (mkThread r (Removing sid first result retryable)) ->
  inv (move tid r (after_run sid first result retryable) (remove_if_same (request_key r) sid w)).
Proof.
  intros Hw Eq. pose proof (remove_if_same_out tid r _ sid w Hw Eq ltac:(by left)) as Hout.
  pose proof (inv_remove_if_same (request_key r) sid w Hw) as Hw1.
  assert (threads (remove_if_same (request_key r) sid w) !! tid = Some (mkThread r (Removing sid first result retryable))) as Eq1
    by (unfold remove_if_same; by case_bool_decide).
  generalize dependent (remove_if_same (request_key r) sid w). clear w Hw Eq. intros w Hout Hw Eq.
  apply (inv_move w tid r (Removing sid first result retryable)); try done.
  - intros i Hi. left. unfold after_run in Hi. destruct first, retryable; cbn in *; set_solver.
  - intros i Hi. unfold after_run in Hi. destruct first, retryable; cbn in Hi; by apply elem_of_nil in Hi.
  - intros i Hi. unfold after_run in Hi. destruct first, retryable; cbn in Hi; by apply elem_of_nil in Hi.
  - intros i f res total last E. unfold after_run in E. destruct first, retryable; done.
  - intros i f E. unfold after_run in E. destruct first, retryable; done.
  - intros i f res b [= <- _ _ _] E. apply Hout. by exists (request_key r).
Qed.

Lemma inv_discarding tid r sid result w :
  inv w -> threads w !! tid = Some (mkThread r (Discarding sid result)) ->
  inv (move tid r (Closing sid result) (remove_if_same (request_key r) sid w)).
Proof.
  intros Hw Eq. pose proof (remove_if_same_out tid r _ sid w Hw Eq ltac:(by left)) as Hout.
  pose proof (inv_remove_if_same (request_key r) sid w Hw) as Hw1.
  assert (threads (remove_if_same (request_key r) sid w) !! tid = Some (mkThread r (Discarding sid result))) as Eq1
    by (unfold remove_if_same; by case_bool_decide).
  generalize dependent (remove_if_same (request_key r) sid w). clear w Hw Eq. intros w Hout Hw Eq.
  apply (inv_move w tid r (Discarding sid result)); try done; cbn [mentions outside own].
  - intros i Hi. by left.
  - intros i Hi. by apply list_elem_of_singleton in Hi as ->.
Qed.

(** *** The other events *)

Lemma inv_cancel headers w : inv w -> inv (cancel_bridge headers w).
Proof.
  intros Hw. unfold cancel_bridge. destruct (bridge_key headers) as [key|]; [|done].
  destruct (sessions w !! key) as [sid|] eqn:Ek; [|done]. destruct (inv_pool _ Hw _ _ Ek) as (s & Es & _).
  assert (forall i s', alter request_cancel sid (store w) !! i = Some s' -> exists s0, store w !! i = Some s0 /\
    close_on_release s' = close_on_release s0 /\ connection_open s' = connection_open s0 /\ holder s' = holder s0) as Hb.
  { intros i s' E. destruct (decide (i = sid)) as [->|Hne].
    - rewrite lookup_alter_eq, Es in E. injection E as <-. by exists s.
    - rewrite lookup_alter_ne in E by done. by exists s'. }
  assert (forall i s0, store w !! i = Some s0 -> exists s', alter request_cancel sid (store w) !! i = Some s' /\
    close_on_release s' = close_on_release s0 /\ connection_open s' = connection_open s0 /\ holder s' = holder s0) as Hf.
  { intros i s0 E. destruct (decide (i = sid)) as [->|Hne].
    - rewrite Es in E. injection E as <-. exists (request_cancel s). by rewrite lookup_alter_eq, Es.
    - exists s0. by rewrite lookup_alter_ne. }
  destruct Hw as [Hi Hp Hfr Ht]. split; cbn.
  - done.
  - intros k i E. destruct (Hp _ _ E) as (s0 & E0 & Hc & Ho). destruct (Hf _ _ E0) as (s' & E' & Ec & Eo & _).
    exists s'. split; [done|]. rewrite Ec, Eo. done.
  - intros i [s' E']. apply Hfr. destruct (Hb _ _ E') as (s0 & E0 & _). by eexists.
  - intros t p E. destruct (Ht _ _ E) as [Hk Hy Hou Hpr Hre Hca]. split; cbn; try done.
    + intros i Hin. destruct (Hk i Hin) as [s0 E0]. destruct (Hf _ _ E0) as (s' & E' & _). by eexists.
    + intros i f res total last Er. destruct (Hre _ _ _ _ _ Er) as (s0 & E0 & Eh). destruct (Hf _ _ E0) as (s' & E' & _ & _ & Eh').
      exists s'. split; [done|]. congruence.
    + intros i f Ei. destruct (Hca _ _ Ei) as (s0 & E0 & Eo & Ec). destruct (Hf _ _ E0) as (s' & E' & Ec' & Eo' & _).
      exists s'. split; [done|]. split; congruence.
Qed.

Lemma inv_reset w : inv w -> inv (reset_persistent_bridge_sessions w).
Proof.
  intros Hw. eapply inv_tidied; [exact Hw|]. unfold reset_persistent_bridge_sessions.
  assert (forall l : list (bytes * nat), (forall e, e ∈ l -> pooled w e.2) ->
    let w' := foldl (fun w entry => on_session entry.2 evict w) w l in
    threads w' = threads w /\ next_session w' = next_session w /\ written w' = written w /\ lost w' = lost w /\
    (forall i s', store w' !! i = Some s' -> exists s, store w !! i = Some s /\ bridge_account s' = bridge_account s /\
       holder s' = holder s /\ (s' = s \/ pooled w i)) /\
    (forall i, is_Some (store w !! i) -> is_Some (store w' !! i))) as H.
  { induction l as [|e l IH] using rev_ind; intros Hl; [cbn; split_and!; try done; intros i s' E; exists s'; by auto|].
    cbv zeta. rewrite foldl_snoc. destruct IH as (H1 & H2 & H3 & H4 & H5 & H6); [intros e' He'; apply Hl; set_solver|].
    cbv zeta in *. set (w' := foldl _ w l) in *. cbn. split_and!; try done.
    - intros i s' E. destruct (decide (i = e.2)) as [->|Hne].
      + rewrite lookup_alter_eq in E. destruct (store w' !! e.2) as [s1|] eqn:E1; [|done]. injection E as <-.
        destruct (H5 _ _ E1) as (s & Es & Ea & Eh & _). exists s. split; [done|]. unfold evict.
        split; [by destruct (holder s1)|]. split; [by destruct (holder s1) eqn:Eh1; cbn; congruence|]. right. apply Hl. set_solver.
      + rewrite lookup_alter_ne in E by done. by apply H5.
    - intros i Hi. destruct (H6 i Hi) as [s1 E1]. destruct (decide (i = e.2)) as [->|Hne].
      + rewrite lookup_alter_eq, E1. by eexists.
      + rewrite lookup_alter_ne by done. by eexists. }
  destruct (H (map_to_list (sessions w))) as (H1 & H2 & H3 & H4 & H5 & H6).
  { intros [k i] Hin. apply elem_of_map_to_list in Hin. by exists k. }
  split; cbn; try done; [apply map_empty_subseteq|]. intros i s' E. destruct (H5 _ _ E) as (s & Es & Ea & Eh & Hs).
  exists s. split; [done|]. split; [done|]. split; [done|]. destruct Hs as [->|Hs]; [by left|right]. split; [done|].
  intros [k Ek]. cbn in Ek. by rewrite lookup_empty in Ek.
Qed.

Lemma inv_close_left sid w : inv w -> inv (close_left sid w).
Proof.
  intros Hw. unfold close_left. destruct (store w !! sid) as [s|] eqn:Es; [|done].
  destruct (close_on_release s) eqn:Ec; [|done]. case_match; [|done].
  pose proof (close_or_out _ _ _ Hw Es) as Hout. destruct Hout as [Hout|Hout]; [congruence|]. destruct Hw as [Hi Hp Hf Ht].
  assert (forall i, i <> sid -> store (on_session sid close_session w) !! i = store w !! i) as Hne by (intros i Hd; cbn; by rewrite lookup_alter_ne).
  assert (store (on_session sid close_session w) !! sid = Some (close_session s)) as Heq by (cbn; by rewrite lookup_alter_eq, Es).
  split; cbn [sessions threads next_session on_session set_store].
  - done.
  - intros key i E. destruct (decide (i = sid)) as [->|Hd]; [destruct Hout; by exists key|]. rewrite Hne by done. by apply Hp in E.
  - intros i Hi'. destruct (decide (i = sid)) as [->|Hd]; [by apply Hf; eexists|]. rewrite Hne in Hi' by done. by apply Hf.
  - intros tid t E. destruct (Ht _ _ E) as [Hk Hy Ho Hn Hh Hc]. split; try done.
    + intros i Hin. destruct (decide (i = sid)) as [->|Hd]; [by eexists|]. rewrite Hne by done. by apply Hk.
    + intros i first result total last Eph. destruct (Hh _ _ _ _ _ Eph) as (s' & E' & Hs').
      destruct (decide (i = sid)) as [->|Hd]; [|rewrite Hne by done; by exists s']. exists (close_session s). split; [done|]. cbn. congruence.
    + intros i first Eph. destruct (Hc _ _ Eph) as (s' & E' & Hs' & Hc'). destruct (decide (i = sid)) as [->|Hd]; [congruence|].
      rewrite Hne by done. by exists s'.
Qed.

Lemma inv_start tid r w : inv w -> threads w !! tid = None -> inv (move tid r (Acquiring None) w).
Proof.
  intros [Hi Hp Hf Ht] E. split; cbn.
  - done.
  - intros k i Ek. destruct (Hp _ _ Ek) as (s & Es & Hc & Ho). exists s. split; [done|]. split; [done|].
    destruct Ho as [Ho|(t & p & Ep & Hr)]; [by left|]. right. exists t, p. rewrite lookup_insert_ne; [done|]. intros <-. congruence.
  - done.
  - intros t p Ep. apply lookup_insert_Some in Ep as [[<- <-]|[Hne Ep]].
    + split; cbn; try (by intros; match goal with H : _ ∈ [] |- _ => apply elem_of_nil in H end); done.
    + destruct (Ht _ _ Ep) as [Hk Hy Hou Hpr Hre Hca]. split; cbn; try done.
      intros sid t' p' Hin Ep' Hd. apply lookup_insert_Some in Ep' as [[<- <-]|[_ Ep']]; [by intros ?%elem_of_nil|by apply (Hpr sid t')].
Qed.

Lemma inv_thread_step tid t i w : inv w -> threads w !! tid = Some t -> inv (thread_step tid t i w).
Proof.
  intros Hw Eq. destruct t as [r q]. unfold thread_step. cbn [thread_request phase].
  pose proof (without_session_nothing r) as Hwo.
  destruct q as [first|sid first|first|c first|c e first|sid first|sid first result total last|sid first result retryable
    |sid result|sid result|result].
  - by apply inv_acquire.
  - destruct (Hwo first) as (E1 & E2 & E3 & E4 & E5).
    apply (inv_close tid r (Displaced sid first)); try done; try (by left); rewrite ?E1; try done. set_solver.
  - by apply inv_connect.
  - by apply inv_insert.
  - apply (inv_close tid r (Losing c e first)); try done; cbn; set_solver.
  - by apply inv_run.
  - by apply inv_read.
  - by apply inv_removing.
  - by apply inv_discarding.
  - apply (inv_close tid r (Closing sid result)); try done; cbn; set_solver.
  - done.
Qed.

Lemma inv_step_event w e : inv w -> inv (bridge_step w e).
Proof.
  intros Hw. destruct e as [tid r|tid i|headers| |sid]; cbn [bridge_step].
  - destruct (threads w !! tid) eqn:E; [done|]. by apply inv_start.
  - destruct (threads w !! tid) eqn:E; [|done]. by apply inv_thread_step.
  - by apply inv_cancel.
  - by apply inv_reset.
  - by apply inv_close_left.
Qed.

Lemma inv_empty : inv empty_bridge.
Proof. split; cbn; intros *; by rewrite ?lookup_empty. Qed.

Lemma inv_run_events events : inv (bridge_run events).
Proof.
  unfold bridge_run. induction events as [|e events IH] using rev_ind; [apply inv_empty|]. rewrite foldl_snoc. by apply inv_step_event.
Qed.

(** ** The size of the pool *)

Definition bounded (w : BridgeWorld) : Prop := (size (sessions w) <= kPersistentBridgeMaxSessions)%nat.

Lemma bounded_sub w w' : sessions w' ⊆ sessions w -> bounded w -> bounded w'.
Proof. unfold bounded. intros Hs Hb. pose proof (map_subseteq_size _ _ Hs). lia. Qed.

Lemma tidy_bounded now w : bounded (tidy now w).
Proof. apply trim_bounded. Qed.

Lemma sessions_charge account egress n w : sessions (charge account egress n w) = sessions w.
Proof. unfold charge. by case_match. Qed.

Lemma end_open_sessions tid r sid first now result w : sessions (end_open tid r sid first now result w) = sessions w.
Proof. unfold end_open. by case_bool_decide. Qed.

Lemma thread_step_bounded tid t i w : bounded w -> bounded (thread_step tid t i w).
Proof.
  intros Hb. destruct t as [r q]. unfold thread_step. cbn [thread_request phase].
  destruct q as [first|sid first|first|c first|c e first|sid first|sid first result total last|sid first result retryable
    |sid result|sid result|result]; cbn beta iota.
  - unfold acquire_step. pose proof (tidy_bounded (clock i) w) as Ht. generalize dependent (tidy (clock i) w). intros w' Ht.
    destruct (sessions w' !! request_key r) as [sid|]; [|done]. destruct (store w' !! sid); [|done]. destruct (_ && _); [done|].
    eapply bounded_sub; [|exact Ht]. apply delete_subseteq.
  - unfold close_step. by case_match.
  - unfold connect_step. by destruct (opened i).
  - unfold insert_step. pose proof (tidy_bounded (clock i) w) as Ht. destruct (sessions (tidy (clock i) w) !! request_key r); [done|].
    apply trim_bounded.
  - unfold close_step. by case_match.
  - unfold run_step. destruct (store w !! sid); [|done]. destruct (holder s); [done|]. unfold bounded.
    destruct (if connection_open s then _ else _); cbn; by rewrite sessions_charge.
  - unfold read_step. destruct (store w !! sid); [|done]. destruct (cancel_requested s); [done|].
    destruct (read i) as [payload| |ec]; [|done|by repeat case_match]. destruct (is_empty payload); [done|]. destruct (_ <? _); [done|].
    destruct (websocket_stream_event_terminal payload); unfold bounded; [rewrite end_open_sessions|cbn]; by rewrite sessions_charge.
  - eapply bounded_sub; [|exact Hb]. cbn. unfold remove_if_same. case_bool_decide; [apply delete_subseteq|done].
  - eapply bounded_sub; [|exact Hb]. cbn. unfold remove_if_same. case_bool_decide; [apply delete_subseteq|done].
  - unfold close_step. by case_match.
  - done.
Qed.

Lemma run_bounded events : bounded (bridge_run events).
Proof.
  unfold bridge_run. induction events as [|e events IH] using rev_ind; [unfold bounded; cbn; rewrite map_size_empty; lia|].
  rewrite foldl_snoc. destruct e as [tid r|tid i|headers| |sid]; cbn [bridge_step].
  - by case_match.
  - destruct (threads _ !! tid); [by apply thread_step_bounded|done].
  - unfold cancel_bridge. repeat case_match; done.
  - unfold bounded. cbn. rewrite map_size_empty. lia.
  - unfold close_left. by repeat case_match.
Qed.

(** The pool of upstream sessions is sound, however requests, cancellations and
    changes of the transport interleave: it never holds more than 256
    sessions; a session is under one key; a pooled session is open, unless the
    request that saw it end is about to take it out; and no session is read by
    two requests at once, so their events are never mixed. (C11) *)
Theorem bridge_sessions_sound events :
  let w := bridge_run events in
  (size (sessions w) <= 256)%nat /\
  (forall k1 k2 sid, sessions w !! k1 = Some sid -> sessions w !! k2 = Some sid -> k1 = k2) /\
  (forall key sid, sessions w !! key = Some sid -> exists s, store w !! sid = Some s /\
     (connection_open s = true \/ exists tid t, threads w !! tid = Some t /\ removes key sid t)) /\
  (forall sid t1 t2 r1 r2 first1 first2 result1 result2 total1 total2 last1 last2,
     threads w !! t1 = Some (mkThread r1 (Reading sid first1 result1 total1 last1)) ->
     threads w !! t2 = Some (mkThread r2 (Reading sid first2 result2 total2 last2)) -> t1 = t2).
Proof.
  intros w. pose proof (inv_run_events events) as Hw. fold w in Hw. split_and!.
  - apply run_bounded.
  - apply (inv_keys _ Hw).
  - intros key sid E. destruct (inv_pool _ Hw _ _ E) as (s & Es & _ & Ho). by exists s.
  - intros sid t1 t2 r1 r2 f1 f2 res1 res2 to1 to2 l1 l2 E1 E2.
    destruct (ok_holds _ _ _ (inv_threads _ Hw _ _ E1) _ _ _ _ _ eq_refl) as (s & Es & Eh).
    destruct (ok_holds _ _ _ (inv_threads _ Hw _ _ E2) _ _ _ _ _ eq_refl) as (s' & Es' & Eh'). congruence.
Qed.

(** ** Accounts, and how often a request is sent *)

(** The accounts of sessions stay, and the records grow. *)
Record keeps (w w' : BridgeWorld) : Prop := {
  keeps_store : forall sid s, store w !! sid = Some s -> exists s', store w' !! sid = Some s' /\ bridge_account s' = bridge_account s;
  keeps_lost : forall tid, tid ∈ lost w -> tid ∈ lost w';
}.

Lemma world_kept_refl w : keeps w w.
Proof. split; [|done]. intros sid s E. by exists s. Qed.

Lemma keeps_trans w w1 w2 : keeps w w1 -> keeps w1 w2 -> keeps w w2.
Proof.
  intros [H1 L1] [H2 L2]. split; [|auto]. intros sid s E. destruct (H1 _ _ E) as (s1 & E1 & A1).
  destruct (H2 _ _ E1) as (s2 & E2 & A2). exists s2. split; [done|]. congruence.
Qed.

Lemma keeps_tidied w w' : tidied w w' -> keeps w w'.
Proof.
  intros H. split; [|by rewrite (tidied_lost _ _ H)]. intros sid s E. destruct (tidied_dom _ _ H sid) as [s' E']; [by eexists|].
  exists s'. split; [done|]. destruct (tidied_store _ _ H _ _ E') as (s0 & E0 & Ea & _). congruence.
Qed.

Lemma keeps_session sid f w : (forall s, bridge_account (f s) = bridge_account s) -> keeps w (on_session sid f w).
Proof.
  intros Hf. split; [|done]. intros i s E. cbn. destruct (decide (i = sid)) as [->|Hne].
  - rewrite lookup_alter_eq, E. eexists. split; [done|]. apply Hf.
  - rewrite lookup_alter_ne by done. by exists s.
Qed.

Lemma keeps_sessions m w : keeps w (set_sessions m w).
Proof. split; [|done]. intros sid s E. by exists s. Qed.

Definition entitled (w : BridgeWorld) (tid : nat) (r : Request) (sid : nat) : Prop :=
  tid ∈ lost w \/ exists s, store w !! sid = Some s /\ mismatched_account r s = false.

Lemma mismatched_same r s s' : bridge_account s' = bridge_account s -> mismatched_account r s' = mismatched_account r s.
Proof. unfold mismatched_account. by intros ->. Qed.

Lemma entitled_keeps w w' tid r sid : keeps w w' -> entitled w tid r sid -> entitled w' tid r sid.
Proof.
  intros [H L] [Hl|(s & E & Hm)]; [left; by apply L|]. right. destruct (H _ _ E) as (s' & E' & Ea). exists s'.
  split; [done|]. by rewrite (mismatched_same r s s').
Qed.

(** The session a thread runs on is one for its account. *)
Definition account_ok (w : BridgeWorld) (tid : nat) (t : Thread) : Prop :=
  match phase t with
  | Running sid _ | Reading sid _ _ _ _ => entitled w tid (thread_request t) sid
  | Inserting sid _ => exists s, store w !! sid = Some s /\ bridge_account s = request_account (thread_request t)
  | Losing _ _ _ => tid ∈ lost w
  | _ => True
  end.

Lemma account_ok_keeps w w' tid t : keeps w w' -> account_ok w tid t -> account_ok w' tid t.
Proof.
  intros Hk. unfold account_ok. destruct (phase t); try done; try by apply entitled_keeps.
  - intros (s & E & Ea). destruct (keeps_store _ _ Hk _ _ E) as (s' & E' & Ea'). exists s'. split; [done|]. congruence.
  - apply Hk.
Qed.

(** How many writes a thread may have made. *)
Definition runs_before (first : option Upstream) : nat := match first with Some _ => 1 | None => 0 end.

Definition allowance (p : Phase) : nat :=
  match p with
  | Acquiring first | Displaced _ first | Connecting first | Inserting _ first | Losing _ _ first | Running _ first => runs_before first
  | Reading _ first _ _ _ | Removing _ first _ _ => S (runs_before first)
  | Discarding _ _ | Closing _ _ => 1
  | Finished _ => 2
  end.

Lemma without_session_allowance r first : (runs_before first <= allowance (without_session r first))%nat.
Proof. unfold without_session. by case_match; destruct first; cbn; lia. Qed.

Lemma after_run_allowance sid first result retryable : (S (runs_before first) <= allowance (after_run sid first result retryable))%nat.
Proof. unfold after_run. destruct first, retryable; cbn; lia. Qed.

(** What a step of a thread does to the records. *)
Record stepped (w : BridgeWorld) (tid : nat) (r : Request) (q : Phase) (w' : BridgeWorld) : Prop := {
  stepped_keeps : keeps w w';
  stepped_thread : threads w' = threads w /\ written w' = written w \/
    exists p, threads w' = <[tid := mkThread r p]> (threads w) /\ account_ok w' tid (mkThread r p) /\
      ((written w' = written w /\ (allowance q <= allowance p)%nat) \/
       exists sid first, q = Running sid first /\ written w' = written w ++ [(tid, sid)] /\ (S (allowance q) <= allowance p)%nat);
}.

Lemma stepped_stay w tid r q : stepped w tid r q w.
Proof. split; [apply world_kept_refl|by left]. Qed.

Lemma stepped_move w tid r q p w1 :
  keeps w w1 -> threads w1 = threads w -> written w1 = written w -> account_ok w1 tid (mkThread r p) ->
  (allowance q <= allowance p)%nat -> stepped w tid r q (move tid r p w1).
Proof.
  intros Hk Et Ew Ha Hl. split; [by destruct Hk|]. right. exists p. cbn. rewrite Et, Ew. split; [done|]. split; [done|]. by left.
Qed.

Lemma stepped_end_closed w tid r q sid first c te result w1 :
  keeps w w1 -> threads w1 = threads w -> written w1 = written w -> (allowance q <= S (runs_before first))%nat ->
  stepped w tid r q (end_closed tid r sid first c te result w1).
Proof.
  intros Hk Et Ew Hl. apply stepped_move; try done. eapply keeps_trans; [exact Hk|]. by apply keeps_session.
Qed.

Lemma stepped_end_open w tid r q sid first now result w1 :
  keeps w w1 -> threads w1 = threads w -> written w1 = written w -> (allowance q <= S (runs_before first))%nat ->
  stepped w tid r q (end_open tid r sid first now result w1).
Proof.
  intros Hk Et Ew Hl. unfold end_open. case_bool_decide; [by apply stepped_end_closed|].
  apply stepped_move; try done; [eapply keeps_trans; [exact Hk|]; by apply keeps_session| |].
  - unfold after_run. by destruct first, (retryable_result r false false result).
  - pose proof (after_run_allowance sid first result (retryable_result r false false result)). lia.
Qed.

Lemma keeps_charge account egress n w :
  keeps w (charge account egress n w) /\ threads (charge account egress n w) = threads w /\
  written (charge account egress n w) = written w.
Proof. unfold charge. case_match; (split; [|done]); split; try done; intros i s E; by exists s. Qed.

Lemma thread_stepped tid r q i w :
  inv w -> threads w !! tid = Some (mkThread r q) -> account_ok w tid (mkThread r q) -> stepped w tid r q (thread_step tid (mkThread r q) i w).
Proof.
  intros Hw Eq Ha. unfold thread_step. cbn [thread_request phase].
  assert (forall sid next, account_ok w tid (mkThread r next) -> (allowance q <= allowance next)%nat ->
    stepped w tid r q (close_step tid r sid next w)) as Hclose.
  { intros sid next Hn Hl. unfold close_step. destruct (is_held w sid); [apply stepped_stay|].
    apply stepped_move; try done; [by apply keeps_session|]. eapply account_ok_keeps; [by apply keeps_session|done]. }
  pose proof (tidy_tidied (clock i) w (inv_injective w Hw)) as Ht. pose proof (keeps_tidied _ _ Ht) as Hk.
  pose proof (tidied_threads _ _ Ht) as Et. pose proof (tidied_written _ _ Ht) as Ew.
  destruct q as [first|sid first|first|c first|c e first|sid first|sid first result total last|sid first result retryable
    |sid result|sid result|result]; cbn beta iota.
  - unfold acquire_step. destruct (sessions _ !! request_key r) as [sid|].
    + destruct (store (tidy (clock i) w) !! sid) as [s|] eqn:Es; [|split; [done|by left]].
      destruct (negb (cancel_requested s) && negb (mismatched_account r s)) eqn:Em.
      * apply stepped_move; try done. right. exists s. split; [done|]. apply andb_true_iff in Em as [_ Em]. by apply negb_true_iff in Em.
      * apply stepped_move; try done. eapply keeps_trans; [exact Hk|apply keeps_sessions].
    + apply stepped_move; try done; [|apply without_session_allowance]. unfold without_session. by destruct (response_create_request r).
  - apply Hclose; [|apply without_session_allowance]. unfold without_session. by destruct (response_create_request r).
  - unfold connect_step. destruct (opened i) as [failure|headers].
    + apply stepped_move; try done; [apply world_kept_refl|destruct first; cbn; lia].
    + set (w1 := mkBridge _ _ _ _ _ _ _). apply (stepped_move w tid r _ (Inserting (next_session w) first) w1); try done.
      * split; [|done]. intros j s E. subst w1. cbn. rewrite lookup_insert_ne; [by exists s|]. intros <-.
        pose proof (inv_fresh _ Hw (next_session w)) as H. rewrite E in H. specialize (H ltac:(by eexists)). lia.
      * cbn. rewrite lookup_insert_eq. by eexists.
  - unfold insert_step. destruct (sessions (tidy (clock i) w) !! request_key r) as [existing|] eqn:Ee.
    + apply stepped_move; try done; [|cbn; set_solver]. eapply keeps_trans; [exact Hk|]. split; cbn; [|set_solver]. intros j s E. by exists s.
    + set (w1 := set_sessions _ _).
      assert (injective w1) as Hi1.
      { rewrite <- Et in Eq. pose proof (inv_enter tid r c first (tidy (clock i) w) (inv_tidy (clock i) w Hw) Eq Ee) as He. exact (inv_keys _ He). }
      pose proof (trim_tidied w1 Hi1) as Ht1.
      assert (keeps w (trim_persistent_bridge_sessions_locked w1)) as Hk1.
      { eapply keeps_trans; [exact Hk|]. eapply keeps_trans; [apply keeps_sessions|by apply keeps_tidied]. }
      apply stepped_move; [done|by rewrite (tidied_threads _ _ Ht1)|by rewrite (tidied_written _ _ Ht1)| |done].
      destruct Ha as (s & Es & Ea). destruct (keeps_store _ _ Hk1 _ _ Es) as (s' & Es' & Ea'). right. exists s'. split; [done|].
      unfold mismatched_account. rewrite Ea', Ea, (bool_decide_true (request_account r = request_account r)) by done. by rewrite andb_false_r.
  - apply Hclose; [|done]. by left.
  - unfold run_step. destruct (store w !! sid) as [s|]; [|apply stepped_stay]. destruct (holder s); [apply stepped_stay|].
    set (w1 := charge _ _ _ _).
    assert (keeps w w1 /\ threads w1 = threads w /\ written w1 = written w) as (Hk1 & Et1 & Ew1).
    { subst w1. match goal with |- context [charge ?a ?b ?c ?d] => destruct (keeps_charge a b c d) as (H1 & H2 & H3) end.
      split; [eapply keeps_trans; [|exact H1]; by apply keeps_session|done]. }
    destruct (if connection_open s then _ else _); [apply stepped_end_closed; try done; cbn; lia|].
    split; [by destruct Hk1|]. right. eexists. split; [cbn; by rewrite Et1|]. split.
    + apply (account_ok_keeps w1); [by split; [intros j sj Ej; exists sj|]|]. by apply (entitled_keeps w w1).
    + right. exists sid, first. cbn. by rewrite Ew1.
  - unfold read_step. destruct (store w !! sid) as [s|]; [|apply stepped_stay].
    assert (forall c te res, stepped w tid r (Reading sid first result total last) (end_closed tid r sid first c te res w)) as Hend
      by (intros; apply stepped_end_closed; [apply world_kept_refl|done|done|done]).
    destruct (cancel_requested s); [done|]. destruct (read i) as [payload| |ec]; [|done|by repeat case_match; try apply stepped_stay].
    destruct (is_empty payload); [apply stepped_stay|]. destruct (_ <? _); [done|].
    destruct (keeps_charge (bridge_traffic s) false (size_of payload) w) as (Hk1 & Et1 & Ew1).
    destruct (websocket_stream_event_terminal payload); [by apply stepped_end_open|].
    apply stepped_move; try done. by apply (entitled_keeps w).
  - apply stepped_move; try done.
    + unfold remove_if_same. case_bool_decide; [apply keeps_sessions|apply world_kept_refl].
    + unfold remove_if_same. by case_bool_decide.
    + unfold remove_if_same. by case_bool_decide.
    + unfold after_run. by destruct first, retryable.
    + apply after_run_allowance.
  - apply stepped_move; try done; unfold remove_if_same; case_bool_decide; try done; [apply keeps_sessions|apply world_kept_refl].
  - by apply Hclose.
  - apply stepped_stay.
Qed.

Definition writes_of (tid : nat) (w : BridgeWorld) : nat := length (List.filter (fun e => bool_decide (e.1 = tid)) (written w)).

(** The invariant of the records. *)
Record accounts_ok (w : BridgeWorld) : Prop := {
  threads_entitled : forall tid t, threads w !! tid = Some t -> account_ok w tid t /\ (writes_of tid w <= allowance (phase t))%nat;
  writes_entitled : forall tid sid, (tid, sid) ∈ written w ->
    exists t, threads w !! tid = Some t /\ entitled w tid (thread_request t) sid;
}.

Lemma writes_none tid w : accounts_ok w -> threads w !! tid = None -> writes_of tid w = 0%nat.
Proof.
  intros [_ Hw] E. unfold writes_of. destruct (List.filter _ (written w)) as [|[t s] l] eqn:Ef; [done|].
  assert ((t, s) ∈ (t, s) :: l) as Hin by by left. rewrite <- Ef in Hin. apply list_elem_of_In, filter_In in Hin as [Hin Ht].
  apply bool_decide_eq_true in Ht. cbn in Ht. subst t. apply list_elem_of_In, Hw in Hin as (t & Et & _). congruence.
Qed.

Lemma accounts_stepped w tid r q w' :
  accounts_ok w -> threads w !! tid = Some (mkThread r q) -> stepped w tid r q w' -> accounts_ok w'.
Proof.
  intros [Ht Hw] Eq [Hk [[Et Ew]|(p & Et & Ha & Hc)]].
  - split; rewrite ?Et, ?Ew.
    + intros t tt E. unfold writes_of. rewrite Ew. destruct (Ht _ _ E) as [Ha Hc]. split; [by eapply account_ok_keeps|done].
    + intros t sid Hin. destruct (Hw _ _ Hin) as (tt & E & He). exists tt. split; [done|]. by eapply entitled_keeps.
  - assert (forall t sid, (t, sid) ∈ written w' -> (t, sid) ∈ written w \/ t = tid /\ exists first, q = Running sid first) as Hnew.
    { intros t sid Hin. destruct Hc as [[Ew _]|(sid' & first & -> & Ew & _)]; rewrite Ew in Hin; [by left|].
      apply elem_of_app in Hin as [Hin|Hin]; [by left|right]. apply list_elem_of_singleton in Hin. injection Hin as -> ->. by eauto. }
    split; rewrite Et.
    + intros t tt E. destruct (Ht _ _ Eq) as [_ Hq]. cbn [phase] in Hq. apply lookup_insert_Some in E as [[<- <-]|[Hne E]].
      * split; [done|]. cbn [phase]. unfold writes_of in *. destruct Hc as [[-> Hl]|(sid & first & _ & -> & Hl)]; [lia|].
        rewrite List.filter_app, length_app. cbn. rewrite bool_decide_true by done. cbn. lia.
      * destruct (Ht _ _ E) as [Hat Hct]. split; [by eapply account_ok_keeps|]. unfold writes_of in *.
        destruct Hc as [[-> _]|(sid & first & _ & -> & _)]; [done|]. rewrite List.filter_app, length_app. cbn.
        rewrite bool_decide_false by (by intros ->). cbn. lia.
    + intros t sid Hin. destruct (Hnew _ _ Hin) as [Hin'|(-> & first & ->)].
      * destruct (Hw _ _ Hin') as (tt & E & He). destruct (decide (t = tid)) as [->|Hne].
        -- rewrite Eq in E. injection E as <-. eexists. rewrite lookup_insert_eq. split; [done|]. by eapply entitled_keeps.
        -- exists tt. rewrite lookup_insert_ne by done. split; [done|]. by eapply entitled_keeps.
      * eexists. rewrite lookup_insert_eq. split; [done|]. cbn [thread_request]. destruct (Ht _ _ Eq) as [Hat _].
        by eapply entitled_keeps.
Qed.

Lemma accounts_keeps w w' : accounts_ok w -> keeps w w' -> threads w' = threads w -> written w' = written w -> accounts_ok w'.
Proof.
  intros [Ht Hw] Hk Et Ew. split; rewrite ?Et, ?Ew.
  - intros t tt E. unfold writes_of. rewrite Ew. destruct (Ht _ _ E) as [Ha Hc]. split; [by eapply account_ok_keeps|done].
  - intros t sid Hin. destruct (Hw _ _ Hin) as (tt & E & He). exists tt. split; [done|]. by eapply entitled_keeps.
Qed.

Lemma reset_keeps w : keeps w (reset_persistent_bridge_sessions w) /\
  threads (reset_persistent_bridge_sessions w) = threads w /\ written (reset_persistent_bridge_sessions w) = written w.
Proof.
  unfold reset_persistent_bridge_sessions. cbn.
  enough (forall l : list (bytes * nat), let w' := foldl (fun w entry => on_session entry.2 evict w) w l in
    keeps w w' /\ threads w' = threads w /\ written w' = written w) as H.
  { destruct (H (map_to_list (sessions w))) as (Hk & Et & Ew). split; [|done]. eapply keeps_trans; [exact Hk|apply keeps_sessions]. }
  induction l as [|e l IH] using rev_ind; [by split; [apply world_kept_refl|]|]. cbv zeta in *. rewrite foldl_snoc.
  destruct IH as (Hk & Et & Ew). split; [|done]. eapply keeps_trans; [exact Hk|]. apply keeps_session. intros s. unfold evict. by destruct (holder s).
Qed.

Lemma bridge_run_accounts events : accounts_ok (bridge_run events).
Proof.
  unfold bridge_run. induction events as [|e events IH] using rev_ind.
  { split; cbn; [intros *; by rewrite lookup_empty|intros * H; by apply elem_of_nil in H]. }
  rewrite foldl_snoc. pose proof (inv_run_events events) as Hinv. unfold bridge_run in Hinv.
  generalize dependent (foldl bridge_step empty_bridge events). intros w IH Hinv.
  destruct e as [tid r|tid i|headers| |sid]; cbn [bridge_step].
  - destruct (threads w !! tid) as [t|] eqn:E; [done|]. pose proof (writes_none tid w IH E) as Hz. destruct IH as [Ht Hw]. split; cbn.
    + intros t tt Ett. apply lookup_insert_Some in Ett as [[<- <-]|[Hne Ett]]; [|by apply Ht].
      split; [done|]. unfold writes_of in *. cbn. lia.
    + intros t sid Hin. destruct (Hw _ _ Hin) as (tt & Ett & He). exists tt. split; [|done]. rewrite lookup_insert_ne; [done|]. intros <-. congruence.
  - destruct (threads w !! tid) as [[r q]|] eqn:E; [|done]. apply (accounts_stepped w tid r q); [done|done|].
    apply thread_stepped; [done|done|]. by apply IH.
  - unfold cancel_bridge. destruct (bridge_key headers) as [key|]; [|done]. destruct (sessions w !! key); [|done].
    apply (accounts_keeps w); [done|by apply keeps_session|done|done].
  - destruct (reset_keeps w) as (Hk & Et & Ew). by apply (accounts_keeps w).
  - unfold close_left. destruct (store w !! sid) as [s|]; [|done]. destruct (_ && _); [|done].
    apply (accounts_keeps w); [done|by apply keeps_session|done|done].
Qed.

(** A request is written at most twice, first on the session it found or
    opened and once more on another; and a request that continues no response
    and names an account is only written on a session opened for that account,
    or for none.  The one exception is a request whose own session lost its
    place to one that another request opened meanwhile. (C10) *)
Theorem bridge_requests_isolated events tid t :
  let w := bridge_run events in
  threads w !! tid = Some t ->
  (writes_of tid w <= 2)%nat /\
  (has_previous_response (thread_request t) = false -> request_account (thread_request t) <> [] -> tid ∉ lost w ->
   forall sid, (tid, sid) ∈ written w -> exists s, store w !! sid = Some s /\
     (bridge_account s = [] \/ bridge_account s = request_account (thread_request t))).
Proof.
  intros w Et. destruct (bridge_run_accounts events) as [Ht Hw]. fold w in Ht, Hw. split.
  - destruct (Ht _ _ Et) as [_ Hc]. assert (forall p, (allowance p <= 2)%nat) as Hle
      by (intros p; destruct p; cbn; try lia; destruct first; cbn; lia). specialize (Hle (phase t)). lia.
  - intros Hp Ha Hl sid Hin. destruct (Hw _ _ Hin) as (t' & Et' & He). rewrite Et in Et'. injection Et' as <-.
    destruct He as [He|(s & Es & Hm)]; [done|]. exists s. split; [done|]. unfold mismatched_account in Hm. rewrite Hp in Hm. cbn in Hm.
    unfold is_empty in Hm. rewrite (bool_decide_false (request_account _ = [])) in Hm by done. cbn in Hm.
    destruct (decide (bridge_account s = [])) as [E|E]; [by left|right]. rewrite (bool_decide_false (bridge_account s = [])) in Hm by done.
    cbn in Hm. apply negb_false_iff, bool_decide_eq_true in Hm. done.
Qed.

End laws.

(** ** Keys and headers *)

(** No plan names the key of its client: the header of the proxy is not
    forwarded, so the scope of keys is empty for every session. *)
Lemma plan_names_no_api_key inbound access_token account_id request_id :
  find_header_case_insensitive (build_upstream_websocket_headers inbound access_token account_id request_id)
    $"x-tightrope-api-key-id" = [].
Proof.
  unfold find_header_case_insensitive. destruct (List.find _ _) as [[k v]|] eqn:E; [|done]. exfalso.
  apply List.find_some in E as [Hin E]. apply list_elem_of_In in Hin. apply equals_case_insensitive_spec in E.
  apply websocket_headers_safe in Hin as [[-> _]|[[-> _]|[[-> _]|[Hb|(_ & (_ & _ & Hd) & _)]]]].
  - revert E. by vm_compute.
  - revert E. by vm_compute.
  - revert E. by vm_compute.
  - cbn [fst] in E. rewrite Hb in E. revert E. by vm_compute.
  - unfold should_drop_inbound_header in Hd. cbn [fst] in E. rewrite E in Hd. revert Hd. by vm_compute.
Qed.

(** ** Concrete runs *)

(** A codec that knows a request for a response. *)
Definition create_codec : JsonCodec := sample_codec $"create" (JObject (make_object [($"type", JString $"response.create")])).

Definition keyed_headers : HeaderMap :=
  [($"session_id", $"s"); ($"x-codex-turn-state", $"t"); ($"x-tightrope-api-key-id", $"k")].

Definition plan_for (inbound : HeaderMap) (account : bytes) : Plan :=
  mkUpstreamRequestPlan $"POST" kResponsesPath $"websocket" $"create" (build_upstream_websocket_headers inbound $"token" account [])
    false true.

Definition no_request : Request := mkRequest (plan_for [] []) [] [] [] false false 0.

Definition request_for (account : bytes) : Request :=
  default no_request (@bridge_request create_codec (fun _ => None) [] (plan_for keyed_headers account)).

Definition connected : StepInput := mkInput 0 (inr []) None (Payload []) [].

(** One request that has just written its body. *)
Definition one_request : list Event :=
  [Start 1 (request_for $"a"); Step 1 connected; Step 1 connected; Step 1 connected; Step 1 connected].

(** Closing the client's socket asks for the session under the client's own
    headers: with a key among them it finds nothing, and the session goes on;
    without one it is told. *)
Lemma cancel_misses_keyed_session :
  let w := @bridge_run create_codec one_request in
  size (sessions w) = 1%nat /\
  cancel_bridge keyed_headers w = w /\
  (cancel_requested <$> store (cancel_bridge (take 2 keyed_headers) w) !! 0%nat) = Some true.
Proof. split_and!; vm_compute; reflexivity. Qed.

(** Two requests of one conversation for different accounts, both opening a
    session: the second to insert is sent on the session of the first. *)
Definition racing_requests : list Event :=
  [Start 1 (request_for $"a"); Start 2 (request_for $"b"); Step 1 connected; Step 2 connected; Step 1 connected; Step 2 connected;
   Step 1 connected; Step 2 connected; Step 2 connected; Step 2 connected].

Lemma race_shares_session :
  let w := @bridge_run create_codec racing_requests in
  written w = [(2, 0)]%nat /\ (bridge_account <$> store w !! 0%nat) = Some $"a" /\ request_account (request_for $"b") = $"b".
Proof. split_and!; vm_compute; reflexivity. Qed.

Local Abbreviation after_one := (@bridge_run create_codec one_request).
Definition request_a : Request := request_for $"a".
Local Abbreviation reading_a := (mkThread request_a (Reading 0 None (streaming [] [] []) 0 0)).

Lemma after_one_facts :
  threads after_one !! 1%nat = Some reading_a /\ has_previous_response (thread_request reading_a) = false /\ request_account (thread_request reading_a) = $"a" /\
  lost after_one = [] /\ written after_one = [(1, 0)]%nat.
Proof. split_and!; vm_compute; reflexivity. Qed.

Lemma request_a_named : request_account (thread_request reading_a) <> [].
Proof. destruct after_one_facts as (_ & _ & -> & _). done. Qed.

Lemma not_lost : 1%nat ∉ lost after_one.
Proof. destruct after_one_facts as (_ & _ & _ & -> & _). apply not_elem_of_nil. Qed.

Lemma written_a : (1, 0)%nat ∈ written after_one.
Proof. destruct after_one_facts as (_ & _ & _ & _ & ->). by left. Qed.

Lemma bridge_requests_isolated_witness :
  (writes_of 1 after_one <= 2)%nat /\
  exists s, store after_one !! 0%nat = Some s /\ (bridge_account s = [] \/ bridge_account s = request_account (thread_request reading_a)).
Proof.
  destruct after_one_facts as (E & Hp & _).
  exact (conj (proj1 (@bridge_requests_isolated create_codec one_request 1%nat reading_a E))
    (proj2 (@bridge_requests_isolated create_codec one_request 1%nat reading_a E) Hp request_a_named not_lost 0%nat written_a)).
Defined.
