(* ===== verification/RaftStorage.v ===== *)
(** * RaftStorage: the log and the state of a node, kept in SQLite

    src/native/sync/src/consensus/nuraft_backend_storage.cpp,
    nuraft_backend_storage_meta.cpp, nuraft_backend_state.cpp,
    nuraft_backend_state_manager.cpp and the copies of configurations in
    nuraft_backend_common.cpp: the store NuRaft keeps its log in, the state
    machine it commits to, and what it recovers after a restart.

    Entries, configurations and buffers are those of libnuraft, a class of
    parameters.  A table is the list of its rows in the order of its INTEGER
    PRIMARY KEY; an operation is given the statements that run, and a
    connection knows the tables its open transaction began with.  The text of
    the last error is left out. *)

From S2P Require Import Prelude Codec Except.

(** ** What libnuraft provides *)

(** [serialize] is a pointer that may be null; the others throw. *)
Class NuRaft := {
  log_entry : Type;
  new_entry : Z -> bytes -> log_entry;
  get_term : log_entry -> Z;
  serialize : log_entry -> option bytes;
  deserialize : bytes -> except log_entry;
  alloc : Z -> bytes;
  put_int : Z -> bytes;
  get_int : bytes -> except (Z * bytes);
  cluster_config : Type;
  serialize_config : cluster_config -> option bytes;
  deserialize_config : bytes -> except (option cluster_config);
  srv_state : Type;
  serialize_state : srv_state -> option bytes;
  deserialize_state : bytes -> except srv_state;
}.

(** An entry is written and read back, with its term and not as nothing; so
    are the integers of a buffer. *)
Class NuRaftLaws (N : NuRaft) := {
  serialized : forall e, exists b, serialize e = Some b /\ b <> [] /\ deserialize b = Ret e;
  term_in : forall e, in_uint 64 (get_term e);
  get_put_int : forall n rest, in_sint 32 n -> get_int (put_int n ++ rest) = Ret (n, rest);
  state_serialized : forall s, exists b, serialize_state s = Some b /\ b <> [] /\ deserialize_state b = Ret s;
  config_serialized : forall c, exists b, serialize_config c = Some b /\ b <> [] /\ deserialize_config b = Ret (Some c);
}.

(** ** Tables *)

(** A number as SQLite stores it. *)
Abbreviation i64 := (sint 64).

Record MetaRow := mkMeta { value_int : option Z; value_blob : option bytes }.

(** The rows of the log: index, term and payload. *)
Record RaftTables := mkRaftTables {
  raft_log : list (Z * (Z * bytes));
  raft_meta : gmap bytes MetaRow;
  raft_committed : list (Z * bytes);
}.

Record RaftDb := mkRaftDb { tables : RaftTables; begun : option RaftTables }.

Inductive RaftStatement :=
| Pragmas | Schema | BeginImmediate | Commit | Rollback | ReadMeta | WriteMeta | ReadBlob | WriteBlob | MaxIndex | MinIndex
| LastEntry | Upsert (index : Z) | DeleteFrom | DeleteUpTo | SelectRange | RangeRow (index : Z) | SelectEntry | SelectTerm
| Checkpoint | AppendCommitted | CountCommitted | SelectCommitted | CommittedRow (index : Z) | MaxCommitted.

Definition kMetaLogStartIndex : bytes := $"log_start_index".
Definition kMetaClusterConfig : bytes := $"cluster_config".
Definition kMetaServerState : bytes := $"server_state".

(** [INSERT ... ON CONFLICT DO UPDATE] on the key. *)
Fixpoint upsert_row {A} (key : Z) (a : A) (rows : list (Z * A)) : list (Z * A) :=
  match rows with
  | [] => [(key, a)]
  | (k, b) :: rest =>
      if key <? k then (key, a) :: rows else if key =? k then (key, a) :: rest else (k, b) :: upsert_row key a rest
  end.

Definition with_log (rows : list (Z * (Z * bytes))) (d : RaftDb) : RaftDb :=
  mkRaftDb (mkRaftTables rows (raft_meta (tables d)) (raft_committed (tables d))) (begun d).
Definition with_meta (key : bytes) (row : MetaRow) (d : RaftDb) : RaftDb :=
  mkRaftDb (mkRaftTables (raft_log (tables d)) (<[key := row]> (raft_meta (tables d))) (raft_committed (tables d))) (begun d).
Definition with_committed (rows : list (Z * bytes)) (d : RaftDb) : RaftDb :=
  mkRaftDb (mkRaftTables (raft_log (tables d)) (raft_meta (tables d)) rows) (begun d).

(** ** Transactions *)

Section storage.
Context {nuraft : NuRaft}.
Context (runs : RaftStatement -> bool).

(** [BEGIN IMMEDIATE] fails inside a transaction. *)
Definition begin_immediate (d : RaftDb) : option RaftDb :=
  match begun d with
  | Some _ => None
  | None => if runs BeginImmediate then Some (mkRaftDb (tables d) (Some (tables d))) else None
  end.

Definition commit_transaction (d : RaftDb) : bool * RaftDb :=
  match begun d with
  | Some _ => if runs Commit then (true, mkRaftDb (tables d) None) else (false, d)
  | None => (false, d)
  end.

Definition rollback (d : RaftDb) : RaftDb :=
  match begun d with
  | Some before => if runs Rollback then mkRaftDb before None else d
  | None => d
  end.

(** [if (!exec("COMMIT")) exec("ROLLBACK")] *)
Definition commit_or_rollback (d : RaftDb) : bool * RaftDb :=
  let '(ok, d) := commit_transaction d in (ok, if ok then d else rollback d).

(** ** nuraft_backend_storage_meta.cpp *)

Definition read_meta_int_locked (key : bytes) (d : RaftDb) : option Z :=
  if runs ReadMeta then row ← raft_meta (tables d) !! key; u64 <$> value_int row else None.

Definition write_meta_int_locked (key : bytes) (value : Z) (d : RaftDb) : option RaftDb :=
  if runs WriteMeta then Some (with_meta key (mkMeta (Some (i64 value)) None) d) else None.

(** [copy_blob_to_buffer]: an empty blob is no buffer. *)
Definition copy_blob_to_buffer (blob : bytes) : option bytes := match blob with [] => None | _ => Some blob end.

Definition read_meta_blob_locked (key : bytes) (d : RaftDb) : option bytes :=
  if runs ReadBlob then row ← raft_meta (tables d) !! key; blob ← value_blob row; copy_blob_to_buffer blob else None.

Definition write_meta_blob_locked (key value : bytes) (d : RaftDb) : option RaftDb :=
  if runs WriteBlob then Some (with_meta key (mkMeta None (Some value)) d) else None.

Definition read_max_log_index_locked (d : RaftDb) : option Z :=
  if runs MaxIndex then (fun r => u64 r.1) <$> last (raft_log (tables d)) else None.

Definition read_min_log_index_locked (d : RaftDb) : option Z :=
  if runs MinIndex then (fun r => u64 r.1) <$> head (raft_log (tables d)) else None.

Definition start_index_locked (d : RaftDb) : Z :=
  match read_meta_int_locked kMetaLogStartIndex d with
  | Some start => if 0 <? start then start else 1
  | None => 1
  end.

Definition next_slot_locked (d : RaftDb) : Z :=
  match read_max_log_index_locked d with Some max_index => u64 (max_index + 1) | None => start_index_locked d end.

Definition upsert_log_locked (index : Z) (e : log_entry) (d : RaftDb) : option RaftDb :=
  match serialize e with
  | None => None
  | Some payload =>
      if runs (Upsert index)
      then Some (with_log (upsert_row (i64 index) (i64 (get_term e), payload) (raft_log (tables d))) d)
      else None
  end.

(** ** nuraft_backend_storage.cpp *)

(** [usable]: the file could be converted, opened and keyed. *)
Definition open_storage (usable : bool) (file : RaftTables) (d : option RaftDb) : bool * option RaftDb :=
  match d with
  | Some d => (true, Some d)
  | None =>
      if negb usable || negb (runs Pragmas) || negb (runs Schema) then (false, None)
      else
        let d := mkRaftDb file None in
        match read_meta_int_locked kMetaLogStartIndex d with
        | Some start => if 1 <=? start then (true, Some d)
                        else match write_meta_int_locked kMetaLogStartIndex 1 d with
                             | Some d => (true, Some d)
                             | None => (false, None)
                             end
        | None => match write_meta_int_locked kMetaLogStartIndex 1 d with
                  | Some d => (true, Some d)
                  | None => (false, None)
                  end
        end
  end.

(** What is in the file when the connection is closed: an open transaction is
    lost. *)
Definition close_storage (d : RaftDb) : RaftTables := match begun d with Some before => before | None => tables d end.

Definition make_dummy_entry : log_entry := new_entry 0 (alloc 8).

Definition next_slot (d : RaftDb) : Z := next_slot_locked d.
Definition start_index (d : RaftDb) : Z := start_index_locked d.

Definition last_entry (d : RaftDb) : except log_entry :=
  if negb (runs LastEntry) then Ret make_dummy_entry
  else match last (raft_log (tables d)) with
       | None => Ret make_dummy_entry
       | Some (_, (_, payload)) =>
           match copy_blob_to_buffer payload with Some serialized => deserialize serialized | None => Ret make_dummy_entry end
       end.

(** A null entry is [None]. *)
Definition append (entry : option log_entry) (d : RaftDb) : Z * RaftDb :=
  match entry with
  | None => (0, d)
  | Some e =>
      let index := next_slot_locked d in
      match upsert_log_locked index e d with Some d => (index, d) | None => (0, d) end
  end.

Definition delete_from (index : Z) (d : RaftDb) : RaftDb :=
  with_log (List.filter (fun r => r.1 <? i64 index) (raft_log (tables d))) d.

Definition write_at (index : Z) (entry : option log_entry) (d : RaftDb) : RaftDb :=
  match entry, begin_immediate d with
  | Some e, Some d =>
      match (if runs DeleteFrom then upsert_log_locked index e (delete_from index d) else None) with
      | None => rollback (if runs DeleteFrom then delete_from index d else d)
      | Some d =>
          match (if index <? start_index_locked d then write_meta_int_locked kMetaLogStartIndex index d else Some d) with
          | None => rollback d
          | Some d => (commit_or_rollback d).2
          end
      end
  | _, _ => d
  end.

(** The rows of a range, as far as they are wanted; [None] is the null
    pointer. *)
Fixpoint read_range (end_index hint expected total : Z) (rows : list (Z * (Z * bytes))) : except (option (list log_entry)) :=
  match rows with
  | [] => Ret (if expected =? end_index then Some [] else None)
  | (index, (_, payload)) :: rest =>
      if negb (runs (RangeRow index)) || negb (u64 index =? expected) then Ret None
      else match copy_blob_to_buffer payload with
      | None => Ret None
      | Some serialized =>
          e ← deserialize serialized;
          let total := total + size_of payload in
          if (0 <? hint) && (hint <=? total) then Ret (Some [e])
          else
            entries ← read_range end_index hint (u64 (expected + 1)) total rest;
            Ret (option_map (cons e) entries)
      end
  end.

Definition log_entries (start end_index hint : Z) (d : RaftDb) : except (option (list log_entry)) :=
  if negb (runs SelectRange) then Ret None
  else read_range end_index hint start 0
         (List.filter (fun r => (i64 start <=? r.1) && (r.1 <? i64 end_index)) (raft_log (tables d))).

Definition find_row (index : Z) (d : RaftDb) : option (Z * (Z * bytes)) :=
  List.find (fun r => r.1 =? i64 index) (raft_log (tables d)).

Definition entry_at (index : Z) (d : RaftDb) : except (option log_entry) :=
  if index <? start_index_locked d then Ret (Some make_dummy_entry)
  else if negb (runs SelectEntry) then Ret None
  else match find_row index d with
       | None => Ret None
       | Some (_, (_, payload)) =>
           match copy_blob_to_buffer payload with Some serialized => @Some log_entry <$> deserialize serialized | None => Ret None end
       end.

Definition term_at (index : Z) (d : RaftDb) : Z :=
  if index <? start_index_locked d then 0
  else if negb (runs SelectTerm) then 0
  else match find_row index d with Some (_, (term, _)) => u64 term | None => 0 end.

Definition compact (last_log_index : Z) (d : RaftDb) : bool * RaftDb :=
  match begin_immediate d with
  | None => (false, d)
  | Some d =>
      if negb (runs DeleteUpTo) then (false, rollback d)
      else
        let d := with_log (List.filter (fun r => negb (r.1 <=? i64 last_log_index)) (raft_log (tables d))) d in
        let start := start_index_locked d in
        let next_start := if start <=? last_log_index then u64 (last_log_index + 1) else start in
        match write_meta_int_locked kMetaLogStartIndex next_start d with
        | None => (false, rollback d)
        | Some d => commit_or_rollback d
        end
  end.

Definition flush : bool := runs Checkpoint.

(** [get] of a buffer of [size] bytes. *)
Definition get_raw (size : Z) (data : bytes) : except (bytes * bytes) :=
  if (0 <=? size) && (size <=? size_of data) then Ret (take (Z.to_nat size) data, drop (Z.to_nat size) data) else Throw [].

(** The loop of [apply_pack], [count] entries of the buffer; an exception
    leaves the function with the transaction open. *)
Fixpoint unpack (count : nat) (current : Z) (data : bytes) (d : RaftDb) : except bool * RaftDb :=
  match count with
  | O => (Ret true, d)
  | S count =>
      match ('(size, data) ← get_int data; '(raw, data) ← get_raw size data; e ← deserialize raw; Ret (e, data)) with
      | Throw what => (Throw what, d)
      | Ret (e, data) =>
          match upsert_log_locked current e d with
          | None => (Ret false, d)
          | Some d => unpack count (u64 (current + 1)) data d
          end
      end
  end.

Definition apply_pack (index : Z) (pack : bytes) (d : RaftDb) : except unit * RaftDb :=
  match begin_immediate d with
  | None => (Ret tt, d)
  | Some d =>
      match get_int pack with
      | Throw what => (Throw what, d)
      | Ret (count, data) =>
          match unpack (Z.to_nat count) index data d with
          | (Throw what, d) => (Throw what, d)
          | (Ret false, d) => (Ret tt, rollback d)
          | (Ret true, d) =>
              let start := match read_min_log_index_locked d with
                           | Some min_index => if 0 <? min_index then min_index else 1
                           | None => 1
                           end in
              match write_meta_int_locked kMetaLogStartIndex start d with
              | None => (Ret tt, rollback d)
              | Some d => (Ret tt, (commit_or_rollback d).2)
              end
          end
      end
  end.

(** *** Committed payloads *)

Definition append_committed (log_idx : Z) (data : bytes) (d : RaftDb) : bool * RaftDb :=
  if runs AppendCommitted then (true, with_committed (upsert_row (i64 log_idx) data (raft_committed (tables d))) d)
  else (false, d).

Definition committed_count (d : RaftDb) : Z := if runs CountCommitted then size_of (raft_committed (tables d)) else 0.

(** The rows up to one that cannot be read. *)
Fixpoint read_committed (rows : list (Z * bytes)) : list bytes :=
  match rows with
  | [] => []
  | (index, payload) :: rest =>
      if runs (CommittedRow index)
      then (match copy_blob_to_buffer payload with Some p => [p] | None => [] end) ++ read_committed rest
      else []
  end.

Definition load_all_committed (d : RaftDb) : list bytes :=
  if runs SelectCommitted then read_committed (raft_committed (tables d)) else [].

Definition max_committed_index (d : RaftDb) : option Z :=
  if runs MaxCommitted then (fun r => u64 r.1) <$> last (raft_committed (tables d)) else None.

(** ** nuraft_backend_state_manager.cpp *)

(** [SqliteLogStore::pack]; a null pointer in the list would crash. *)
Definition pack (index cnt : Z) (d : RaftDb) : except (option bytes) :=
  logs ← log_entries index (u64 (index + u64 cnt)) 0 d;
  match logs with
  | None => Ret None
  | Some logs =>
      if negb (sint 32 (size_of logs) =? cnt) then Ret None
      else
        encoded ← traverse (fun e => match serialize e with Some b => Ret b | None => Throw [] end) logs;
        Ret (Some (put_int cnt ++ concat ((fun b => put_int (sint 32 (size_of b)) ++ b) <$> encoded)))
  end.

Definition save_state (state : srv_state) (d : RaftDb) : RaftDb :=
  match serialize_state state with
  | Some blob => default d (write_meta_blob_locked kMetaServerState blob d)
  | None => d
  end.

Definition read_state (d : RaftDb) : except (option srv_state) :=
  match read_meta_blob_locked kMetaServerState d with Some blob => @Some srv_state <$> deserialize_state blob | None => Ret None end.

Definition save_config (config : cluster_config) (d : RaftDb) : RaftDb :=
  match serialize_config config with
  | Some blob => default d (write_meta_blob_locked kMetaClusterConfig blob d)
  | None => d
  end.

(** [initial_config]: the one the manager was made with. *)
Definition load_config (initial_config : cluster_config) (d : RaftDb) : except cluster_config :=
  match read_meta_blob_locked kMetaClusterConfig d with
  | Some blob => loaded ← deserialize_config blob; Ret (default initial_config loaded)
  | None => Ret initial_config
  end.

(** ** nuraft_backend_state.cpp *)

(** A snapshot names the last entry it covers; it holds no data. *)
Record Snapshot := mkSnapshot { last_log_idx : Z; last_log_term : Z; last_config : cluster_config }.

Record StateMachine := mkStateMachine {
  commit_index : Z;
  committed_payloads : list bytes;
  machine_snapshot : Snapshot;
}.

Definition InMemoryStateMachine (config : cluster_config) (storage : option RaftDb) : StateMachine :=
  match storage with
  | None => mkStateMachine 0 [] (mkSnapshot 0 0 config)
  | Some d => mkStateMachine (default 0 (max_committed_index d)) (load_all_committed d) (mkSnapshot 0 0 config)
  end.

Definition commit (log_idx : Z) (data : bytes) (m : StateMachine) (storage : option RaftDb) : StateMachine * option RaftDb :=
  (mkStateMachine log_idx (committed_payloads m ++ [data]) (machine_snapshot m),
   (fun d => (append_committed log_idx data d).2) <$> storage).

Definition apply_snapshot (s : Snapshot) (m : StateMachine) : StateMachine :=
  mkStateMachine (last_log_idx s) (committed_payloads m) s.

Definition create_snapshot (s : Snapshot) (m : StateMachine) : StateMachine :=
  mkStateMachine (commit_index m) (committed_payloads m) s.

Definition committed_entry_count (m : StateMachine) : Z := size_of (committed_payloads m).

End storage.

(** ** Rows with consecutive indexes *)

Fixpoint numbered {A} (i : Z) (l : list A) : list (Z * A) :=
  match l with [] => [] | a :: l => (i, a) :: numbered (i + 1) l end.

Lemma numbered_app {A} (l k : list A) : forall i, numbered i (l ++ k) = numbered i l ++ numbered (i + size_of l) k.
Proof.
  induction l as [|a l IH]; intros i; cbn [numbered app]; [by rewrite size_of_nil, Z.add_0_r|].
  rewrite IH, size_of_cons. by replace (i + 1 + size_of l) with (i + (1 + size_of l)) by lia.
Qed.

Lemma numbered_below {A} (l : list A) j : forall i,
  List.filter (fun r => r.1 <? j) (numbered i l) = numbered i (take (Z.to_nat (j - i)) l).
Proof.
  induction l as [|a l IH]; intros i; cbn [numbered List.filter fst]; [by rewrite take_nil|]. rewrite IH.
  destruct (Z.ltb_spec i j).
  - replace (Z.to_nat (j - i)) with (S (Z.to_nat (j - (i + 1)))) by lia. done.
  - replace (Z.to_nat (j - (i + 1))) with O by lia. by replace (Z.to_nat (j - i)) with O by lia.
Qed.

Lemma numbered_keeps {A} (l : list A) j : forall i, j < i -> List.filter (fun r => negb (r.1 <=? j)) (numbered i l) = numbered i l.
Proof.
  induction l as [|a l IH]; intros i Hi; [done|]. cbn [numbered List.filter fst]. destruct (Z.leb_spec i j); [lia|]. cbn [negb].
  rewrite IH by lia. done.
Qed.

Lemma numbered_above {A} (l : list A) j : forall i, i <= j + 1 ->
  List.filter (fun r => negb (r.1 <=? j)) (numbered i l) = numbered (j + 1) (drop (Z.to_nat (j + 1 - i)) l).
Proof.
  induction l as [|a l IH]; intros i Hi; cbn [numbered List.filter fst]; [by rewrite drop_nil|].
  destruct (Z.leb_spec i j); cbn [negb].
  - rewrite IH by lia. by replace (Z.to_nat (j + 1 - i)) with (S (Z.to_nat (j + 1 - (i + 1)))) by lia.
  - assert (i = j + 1) as -> by lia. replace (Z.to_nat (j + 1 - (j + 1))) with O by lia. cbn [drop numbered].
    by rewrite numbered_keeps by lia.
Qed.

Lemma numbered_upsert {A} (a : A) (l : list A) key : forall i, i <= key <= i + size_of l ->
  upsert_row key a (numbered i l) =
  numbered i (take (Z.to_nat (key - i)) l ++ a :: drop (S (Z.to_nat (key - i))) l).
Proof.
  induction l as [|b l IH]; intros i Hi.
  - rewrite size_of_nil in Hi. assert (key = i) as -> by lia. by rewrite take_nil, drop_nil.
  - rewrite size_of_cons in Hi. cbn [numbered upsert_row]. destruct (Z.ltb_spec key i); [lia|]. destruct (Z.eqb_spec key i) as [->|Hne].
    + by replace (Z.to_nat (i - i)) with O by lia.
    + rewrite IH by lia. replace (Z.to_nat (key - i)) with (S (Z.to_nat (key - (i + 1)))) by lia. done.
Qed.

Lemma numbered_find {A} (l : list A) j : forall i,
  List.find (fun r => r.1 =? j) (numbered i l) = (if i <=? j then pair j <$> l !! Z.to_nat (j - i) else None).
Proof.
  induction l as [|a l IH]; intros i; cbn [numbered List.find fst]; [by destruct (i <=? j)|]. destruct (Z.eqb_spec i j) as [->|Hne].
  - rewrite Z.leb_refl. by replace (Z.to_nat (j - j)) with O by lia.
  - rewrite IH. destruct (Z.leb_spec i j), (Z.leb_spec (i + 1) j); try lia; [|done].
    by replace (Z.to_nat (j - i)) with (S (Z.to_nat (j - (i + 1)))) by lia.
Qed.

Lemma numbered_last {A} (l : list A) i : last (numbered i l) = pair (i + size_of l - 1) <$> last l.
Proof.
  destruct l as [|a l] using rev_ind; [done|]. rewrite numbered_app. cbn [numbered]. rewrite !last_snoc, size_of_app. cbn.
  f_equal. f_equal. autorewrite with tightrope. lia.
Qed.

Lemma numbered_head {A} (l : list A) i : head (numbered i l) = pair i <$> head l.
Proof. by destruct l. Qed.

Lemma numbered_range {A} (l : list A) a b : forall i, i <= a ->
  List.filter (fun r => (a <=? r.1) && (r.1 <? b)) (numbered i l) =
  numbered a (take (Z.to_nat (b - a)) (drop (Z.to_nat (a - i)) l)).
Proof.
  assert (forall l i, a <= i -> List.filter (fun r => (a <=? r.1) && (r.1 <? b)) (numbered i l) =
    List.filter (fun r : Z * A => r.1 <? b) (numbered i l)) as Hall.
  { clear. induction l as [|x l IH]; intros i Hi; [done|]. cbn [numbered List.filter fst]. rewrite IH by lia.
    by rewrite (proj2 (Z.leb_le _ _) Hi). }
  induction l as [|x l IH]; intros i Hi; [by rewrite drop_nil, take_nil|].
  destruct (decide (i = a)) as [->|Hne].
  - rewrite Hall by lia. replace (Z.to_nat (a - a)) with O by lia. apply numbered_below.
  - cbn [numbered List.filter fst]. rewrite (proj2 (Z.leb_gt _ _)) by lia. cbn [andb]. rewrite IH by lia.
    by replace (Z.to_nat (a - i)) with (S (Z.to_nat (a - (i + 1)))) by lia.
Qed.

(** ** The log NuRaft sees *)

(** What a log store promises: entries with consecutive indexes from the start
    on. *)
Record LogView (E : Type) := mkView { view_start : Z; view_entries : list E }.
Arguments mkView {E} _ _.
Arguments view_start {E} _.
Arguments view_entries {E} _.

Definition view_end {E} (x : LogView E) : Z := view_start x + size_of (view_entries x).

Inductive LogOp (E : Type) :=
| Append (e : E)
| WriteAt (index : Z) (e : E)
| Compact (last_log_index : Z)
| ApplyPack (index : Z) (entries : list E).
Arguments Append {E} _.
Arguments WriteAt {E} _ _.
Arguments Compact {E} _.
Arguments ApplyPack {E} _ _.

(** The position of an index. *)
Definition place {E} (x : LogView E) (index : Z) : nat := Z.to_nat (index - view_start x).

Definition view_step {E} (op : LogOp E) (x : LogView E) : LogView E :=
  let l := view_entries x in
  match op with
  | Append e => mkView (view_start x) (l ++ [e])
  | WriteAt index e =>
      if index <? view_start x then mkView index [e] else mkView (view_start x) (take (place x index) l ++ [e])
  | Compact last_log_index =>
      if view_start x <=? last_log_index then mkView (last_log_index + 1) (drop (place x (last_log_index + 1)) l) else x
  | ApplyPack index entries =>
      if bool_decide (l = []) then mkView index entries
      else mkView (view_start x) (take (place x index) l ++ entries ++ drop (place x index + length entries) l)
  end.

(** The operations a node makes: indexes from 1, no gaps, and below 2^63. *)
Definition fits {E} (op : LogOp E) (x : LogView E) : Prop :=
  match op with
  | Append _ => view_end x + 1 < 2 ^ 63
  | WriteAt index _ => 1 <= index <= view_end x /\ index + 1 < 2 ^ 63
  | Compact last_log_index => 0 <= last_log_index /\ last_log_index + 1 < 2 ^ 63 - size_of (view_entries x)
  | ApplyPack index entries =>
      entries <> [] /\ size_of entries < 2 ^ 31 /\ 1 <= index /\
      Z.max (view_end x) (index + size_of entries) < 2 ^ 63 /\
      (view_entries x = [] \/ view_start x <= index <= view_end x)
  end.

Ltac tables_cbn :=
  repeat match goal with d := _ : RaftDb |- _ => subst d end;
  cbn [fst snd tables begun raft_log raft_meta raft_committed with_log with_meta delete_from view_start view_entries].

Section laws.
Context {nuraft : NuRaft} {laws : NuRaftLaws nuraft}.

Definition row_of (e : log_entry) : Z * bytes := (i64 (get_term e), default [] (serialize e)).

(** Idle tables that hold a view. *)
Record holds (d : RaftDb) (x : LogView log_entry) : Prop := {
  holds_rows : raft_log (tables d) = numbered (view_start x) (row_of <$> view_entries x);
  holds_start : raft_meta (tables d) !! kMetaLogStartIndex = Some (mkMeta (Some (view_start x)) None);
  holds_first : 1 <= view_start x;
  holds_end : view_end x < 2 ^ 63;
  holds_idle : begun d = None;
}.

(** The pack of entries that [pack] writes. *)
Definition pack_of (entries : list log_entry) : bytes :=
  put_int (size_of entries) ++
  concat ((fun e => put_int (size_of (default [] (serialize e))) ++ default [] (serialize e)) <$> entries).

(** An operation of the log: what it tells, if anything, and the tables. *)
Definition log_step (runs : RaftStatement -> bool) (op : LogOp log_entry) (d : RaftDb) : option bool * RaftDb :=
  match op with
  | Append e => let '(index, d') := append runs (Some e) d in (Some (negb (index =? 0)), d')
  | WriteAt index e => (None, write_at runs index (Some e) d)
  | Compact last_log_index => let '(ok, d') := compact runs last_log_index d in (Some ok, d')
  | ApplyPack index entries => (None, (apply_pack runs index (pack_of entries) d).2)
  end.

(** The queries of the indexes and a rollback run; anything else may fail. *)
Record steady (runs : RaftStatement -> bool) : Prop := {
  steady_meta : runs ReadMeta = true;
  steady_max : runs MaxIndex = true;
  steady_min : runs MinIndex = true;
  steady_rollback : runs Rollback = true;
}.

(** Entries small enough for the counts of a pack. *)
Definition packable (op : LogOp log_entry) : Prop :=
  match op with
  | ApplyPack _ entries => Forall (fun e => size_of (default [] (serialize e)) < 2 ^ 31) entries
  | _ => True
  end.

Lemma i64_small z : 0 <= z < 2 ^ 63 -> i64 z = z.
Proof. intros H. unfold sint. rewrite Z.mod_small by lia. rewrite (proj2 (Z.ltb_lt _ _)) by lia. done. Qed.

Lemma u64_small z : 0 <= z < 2 ^ 63 -> u64 z = z.
Proof. intros H. apply wrap_small. unfold in_uint. lia. Qed.

Lemma sint32_small z : 0 <= z < 2 ^ 31 -> sint 32 z = z.
Proof. intros H. unfold sint. rewrite Z.mod_small by lia. rewrite (proj2 (Z.ltb_lt _ _)) by lia. done. Qed.

Lemma serialize_row e : serialize e = Some (default [] (serialize e)).
Proof. by destruct (serialized e) as (b & -> & _). Qed.

Lemma row_blob e : copy_blob_to_buffer (default [] (serialize e)) = Some (default [] (serialize e)).
Proof. destruct (serialized e) as (b & -> & H & _). by destruct b. Qed.

Lemma row_reads e : deserialize (default [] (serialize e)) = Ret e.
Proof. by destruct (serialized e) as (b & -> & _ & H). Qed.

Lemma term_reads e : u64 (i64 (get_term e)) = get_term e.
Proof. apply wrap_sint; [done|apply term_in]. Qed.

Lemma size_of_fmap {A B} (f : A -> B) l : size_of (f <$> l) = size_of l.
Proof. unfold size_of. by rewrite length_fmap. Qed.

Section steady.
Context (runs : RaftStatement -> bool) (ok : steady runs).

Lemma meta_start d x :
  raft_meta (tables d) !! kMetaLogStartIndex = Some (mkMeta (Some x) None) -> 1 <= x < 2 ^ 63 ->
  start_index_locked runs d = x.
Proof.
  intros E H. unfold start_index_locked, read_meta_int_locked. rewrite (steady_meta _ ok), E. cbn.
  rewrite u64_small by lia. by rewrite (proj2 (Z.ltb_lt _ _)) by lia.
Qed.

Lemma holds_start_index d x : holds d x -> start_index_locked runs d = view_start x.
Proof.
  intros [_ Hs H1 He _]. apply meta_start; [done|]. unfold view_end in He. pose proof (size_of_nonneg (view_entries x)). lia.
Qed.

Lemma holds_next d x : holds d x -> next_slot_locked runs d = view_end x.
Proof.
  intros Hx. unfold next_slot_locked, read_max_log_index_locked. rewrite (steady_max _ ok), (holds_start_index _ _ Hx), (holds_rows _ _ Hx).
  rewrite numbered_last, fmap_last, size_of_fmap. unfold view_end. destruct Hx as [_ _ H1 He _]. unfold view_end in He.
  destruct (view_entries x) as [|e l] using rev_ind; [cbn; by rewrite size_of_nil, Z.add_0_r|]. rewrite last_snoc. cbn [fmap option_fmap option_map fst].
  rewrite size_of_app in *. change (size_of [e]) with 1 in *. pose proof (size_of_nonneg l). rewrite !u64_small by (rewrite ?u64_small; lia). lia.
Qed.

(** Inside a transaction that began with [d]: an abandoned one leaves [d]. *)
Lemma rollback_restores d d1 : begun d = None -> begun d1 = Some (tables d) -> rollback runs d1 = d.
Proof. intros Hd H1. unfold rollback. rewrite H1, (steady_rollback _ ok). destruct d. cbn in *. by subst. Qed.

Lemma commit_ends d d1 : begun d = None -> begun d1 = Some (tables d) ->
  commit_or_rollback runs d1 = (true, mkRaftDb (tables d1) None) /\ runs Commit = true \/
  commit_or_rollback runs d1 = (false, d) /\ runs Commit = false.
Proof.
  intros Hd H1. unfold commit_or_rollback, commit_transaction. rewrite H1. destruct (runs Commit); [by left|right].
  by rewrite (rollback_restores d).
Qed.

Lemma begin_begun d d1 : begin_immediate runs d = Some d1 -> begun d = None /\ tables d1 = tables d /\ begun d1 = Some (tables d).
Proof. unfold begin_immediate. destruct (begun d); [done|]. destruct (runs _); [|done]. by intros [= <-]. Qed.

Lemma begin_idle d : begun d = None ->
  begin_immediate runs d = if runs BeginImmediate then Some (mkRaftDb (tables d) (Some (tables d))) else None.
Proof. intros H. unfold begin_immediate. by rewrite H. Qed.

Lemma upsert_runs index e d :
  upsert_log_locked runs index e d =
  if runs (Upsert index) then Some (with_log (upsert_row (i64 index) (row_of e) (raft_log (tables d))) d) else None.
Proof. unfold upsert_log_locked, row_of. rewrite serialize_row. cbn. by destruct (runs _). Qed.

End steady.

Section steps.
Context (runs : RaftStatement -> bool) (ok : steady runs).

(** An operation took effect, or nothing happened, and then some statement
    failed. *)
Definition outcome (op : LogOp log_entry) (d : RaftDb) (x : LogView log_entry) (r : option bool * RaftDb) : Prop :=
  holds r.2 (view_step op x) /\ r.1 <> Some false \/
  r.2 = d /\ r.1 <> Some true /\ exists st, runs st = false.

Local Ltac no_effect := unfold outcome; right; split; [done|]; split; [done|]; by eexists.

Lemma view_start_end (x : LogView log_entry) : view_start x <= view_end x.
Proof. unfold view_end. pose proof (size_of_nonneg (view_entries x)). lia. Qed.

(** A row written at the end or in the place of another one. *)
Lemma upsert_view d x index e rows :
  holds d x -> view_start x <= index <= view_end x -> rows = raft_log (tables d) ->
  upsert_row (i64 index) (row_of e) rows =
  numbered (view_start x) (row_of <$> (take (place x index) (view_entries x) ++ e :: drop (S (place x index)) (view_entries x))).
Proof.
  intros [Hr _ H1 He _] Hi ->. rewrite i64_small by lia. rewrite Hr, numbered_upsert by (rewrite size_of_fmap; unfold view_end in Hi; lia).
  rewrite fmap_app, fmap_cons, <- fmap_take, <- fmap_drop. done.
Qed.

Lemma append_outcome e d x : holds d x -> fits (Append e) x -> outcome (Append e) d x (log_step runs (Append e) d).
Proof.
  intros Hx Hf. cbn [fits] in Hf. pose proof (view_start_end x) as Hle. unfold log_step, append. cbv zeta.
  rewrite (holds_next runs ok _ _ Hx), upsert_runs. destruct (runs (Upsert (view_end x))) eqn:Eu.
  - left. pose proof (holds_first _ _ Hx). split; [|cbn; by rewrite (proj2 (Z.eqb_neq _ _)) by lia]. cbn [snd].
    split; tables_cbn; try apply Hx.
    + rewrite (upsert_view _ _ _ _ _ Hx) by (done || lia). do 2 f_equal.
      assert (place x (view_end x) = length (view_entries x)) as -> by (unfold place, view_end, size_of; lia).
      rewrite firstn_all. f_equal. by rewrite drop_ge by lia.
    + unfold view_end in *. cbn. rewrite size_of_app. change (size_of [e]) with 1. lia.
  - no_effect.
Qed.

(** What is left of the rows below an index. *)
Lemma holds_delete_from d x index : holds d x -> view_start x <= index <= view_end x ->
  List.filter (fun r => r.1 <? i64 index) (raft_log (tables d)) = numbered (view_start x) (row_of <$> take (place x index) (view_entries x)).
Proof.
  intros [Hr _ H1 He _] Hi. rewrite Hr, i64_small by lia. by rewrite numbered_below, fmap_take.
Qed.

Lemma holds_delete_all d x index : holds d x -> 1 <= index < view_start x ->
  List.filter (fun r => r.1 <? i64 index) (raft_log (tables d)) = [].
Proof.
  intros [Hr _ H1 He _] Hi. pose proof (view_start_end x). rewrite Hr, i64_small by lia.
  rewrite numbered_below. by replace (Z.to_nat (index - view_start x)) with O by lia.
Qed.

Lemma size_of_take {A} n (l : list A) : (n <= length l)%nat -> size_of (take n l) = Z.of_nat n.
Proof. intros H. unfold size_of. rewrite length_take. lia. Qed.

Lemma place_bound (x : LogView log_entry) index : view_start x <= index <= view_end x ->
  (place x index <= length (view_entries x))%nat /\ view_start x + Z.of_nat (place x index) = index.
Proof. unfold place, view_end, size_of. lia. Qed.

Lemma write_at_outcome index e d x : holds d x -> fits (WriteAt index e) x ->
  outcome (WriteAt index e) d x (log_step runs (WriteAt index e) d).
Proof.
  intros Hx [Hi Hf]. unfold log_step, write_at. pose proof (holds_idle _ _ Hx) as Hidle. rewrite begin_idle by done.
  destruct (runs BeginImmediate) eqn:Eb; [|no_effect].
  set (d1 := mkRaftDb (tables d) (Some (tables d))).
  destruct (runs DeleteFrom) eqn:Ed; [|rewrite (rollback_restores runs ok d d1) by done; no_effect].
  rewrite upsert_runs. destruct (runs (Upsert index)) eqn:Eu;
    [|rewrite (rollback_restores runs ok d) by done; no_effect].
  set (d2 := with_log _ _). assert (begun d2 = Some (tables d)) as B2 by done.
  assert (start_index_locked runs d2 = view_start x) as Es by apply (holds_start_index runs ok _ _ Hx).
  rewrite Es. unfold outcome, view_step. destruct (Z.ltb_spec index (view_start x)) as [Hlt|Hge].
  - unfold write_meta_int_locked. destruct (runs WriteMeta) eqn:Ew;
      [|rewrite (rollback_restores runs ok d) by done; no_effect].
    set (d3 := with_meta _ _ d2). destruct (commit_ends runs ok d d3) as [[-> Ec]|[-> Ec]]; [done|done| |no_effect].
    left. split; [|done]. cbn [snd]. split; tables_cbn.
    + rewrite (holds_delete_all d x) by (done || lia). by rewrite i64_small by lia.
    + rewrite lookup_insert_eq. by rewrite i64_small by lia.
    + lia.
    + unfold view_end. cbn. change (size_of [e]) with 1. lia.
    + done.
  - destruct (commit_ends runs ok d d2) as [[-> Ec]|[-> Ec]]; [done|done| |no_effect].
    left. split; [|done]. destruct (place_bound x index) as [Hp Hq]; [lia|]. split; tables_cbn; try apply Hx; [| |done].
    + rewrite (holds_delete_from d x) by (done || lia). rewrite i64_small by (pose proof (view_start_end x); lia).
      rewrite numbered_upsert by (rewrite size_of_fmap, size_of_take by done; lia).
      change (Z.to_nat (index - view_start x)) with (place x index).
      rewrite take_ge, drop_ge by (rewrite length_fmap, length_take; lia). by rewrite fmap_app.
    + unfold view_end in *. cbn. rewrite size_of_app, size_of_take by done. change (size_of [e]) with 1.
      pose proof (holds_end _ _ Hx). unfold view_end in *. lia.
Qed.

Lemma compact_outcome last_log_index d x : holds d x -> fits (Compact last_log_index) x ->
  outcome (Compact last_log_index) d x (log_step runs (Compact last_log_index) d).
Proof.
  intros Hx [H0 Hf]. unfold log_step, compact. pose proof (holds_idle _ _ Hx) as Hidle. rewrite begin_idle by done.
  destruct (runs BeginImmediate) eqn:Eb; [|no_effect].
  set (d1 := mkRaftDb (tables d) (Some (tables d))).
  destruct (runs DeleteUpTo) eqn:Ed; cbn [negb]; [|rewrite (rollback_restores runs ok d d1) by done; no_effect].
  set (d2 := with_log _ _).
  assert (start_index_locked runs d2 = view_start x) as -> by apply (holds_start_index runs ok _ _ Hx).
  unfold outcome, view_step.
  unfold write_meta_int_locked. destruct (runs WriteMeta) eqn:Ew;
    [|rewrite (rollback_restores runs ok d) by done; no_effect].
  set (d3 := with_meta _ _ d2). destruct (commit_ends runs ok d d3) as [[-> Ec]|[-> Ec]]; [done|done| |no_effect].
  left. split; [|done]. cbn [snd]. pose proof (size_of_nonneg (view_entries x)) as Hn.
  pose proof (view_start_end x) as Hse. pose proof (holds_end _ _ Hx) as He. pose proof (holds_first _ _ Hx) as H1.
  destruct (Z.leb_spec (view_start x) last_log_index) as [Hle|Hgt].
  - split; tables_cbn.
    + rewrite (holds_rows _ _ Hx), i64_small by lia. rewrite numbered_above by lia. by rewrite fmap_drop.
    + rewrite lookup_insert_eq. rewrite u64_small by lia. by rewrite i64_small by lia.
    + lia.
    + unfold view_end in *. cbn. assert (size_of (drop (place x (last_log_index + 1)) (view_entries x)) <= size_of (view_entries x))
        by (unfold size_of; rewrite length_drop; lia). lia.
    + done.
  - split; tables_cbn; try done.
    + rewrite (holds_rows _ _ Hx), i64_small by lia. by rewrite numbered_keeps by lia.
    + rewrite lookup_insert_eq. by rewrite i64_small by lia.
Qed.

(** *** Packs *)

Lemma get_raw_app b rest : get_raw (size_of b) (b ++ rest) = Ret (b, rest).
Proof.
  unfold get_raw. rewrite (proj2 (Z.leb_le _ _)) by apply size_of_nonneg. rewrite size_of_app, (proj2 (Z.leb_le _ _)) by
    (pose proof (size_of_nonneg rest); lia). cbn [andb]. rewrite to_nat_size_of. by rewrite take_app_length, drop_app_length.
Qed.

Lemma unpack_step count current e rest d : size_of (default [] (serialize e)) < 2 ^ 31 ->
  unpack runs (S count) current (put_int (size_of (default [] (serialize e))) ++ default [] (serialize e) ++ rest) d =
  if runs (Upsert current)
  then unpack runs count (u64 (current + 1)) rest (with_log (upsert_row (i64 current) (row_of e) (raft_log (tables d))) d)
  else (Ret false, d).
Proof.
  intros Hs. cbn [unpack]. rewrite get_put_int by (unfold in_sint; pose proof (size_of_nonneg (default [] (serialize e))); lia).
  cbn. rewrite get_raw_app. cbn. rewrite row_reads. cbn. rewrite upsert_runs. by destruct (runs _).
Qed.

(** The entries written so far stay in front of those that were there. *)
Lemma unpack_entries entries : forall current rest before tail d,
  Forall (fun e => size_of (default [] (serialize e)) < 2 ^ 31) entries ->
  raft_log (tables d) = numbered (current - size_of before) (row_of <$> before ++ tail) ->
  0 <= current - size_of before -> current + size_of entries < 2 ^ 63 ->
  (exists d', unpack runs (length entries) current
    (concat ((fun e => put_int (size_of (default [] (serialize e))) ++ default [] (serialize e)) <$> entries) ++ rest) d = (Ret true, d') /\
    begun d' = begun d /\ raft_meta (tables d') = raft_meta (tables d) /\ 
    raft_log (tables d') = numbered (current - size_of before) (row_of <$> before ++ entries ++ drop (length entries) tail)) \/
  exists d' st, unpack runs (length entries) current
    (concat ((fun e => put_int (size_of (default [] (serialize e))) ++ default [] (serialize e)) <$> entries) ++ rest) d = (Ret false, d') /\
    begun d' = begun d /\ runs st = false.
Proof.
  induction entries as [|e entries IH]; intros current rest before tail d Hs Hr H0 Hc.
  - left. exists d. by split_and!.
  - apply Forall_cons in Hs as [He Hs]. rewrite size_of_cons in Hc. pose proof (size_of_nonneg before). pose proof (size_of_nonneg entries).
    cbn [length fmap list_fmap concat]. rewrite <- !app_assoc, unpack_step by done.
    destruct (runs (Upsert current)) eqn:Eu; [|right; by exists d, (Upsert current)].
    rewrite u64_small by lia. set (d1 := with_log _ d).
    assert (current + 1 - size_of (before ++ [e]) = current - size_of before) as E1 by (rewrite size_of_app; change (size_of [e]) with 1; lia).
    destruct (IH (current + 1) rest (before ++ [e]) (drop 1 tail) d1) as [(d' & Eq & B & M & R)|(d' & st & Eq & B & F)]; try done.
    + unfold d1. cbn. rewrite Hr, i64_small, E1 by lia. rewrite numbered_upsert.
      * replace (Z.to_nat (current - (current - size_of before))) with (length before) by (unfold size_of; lia).
        rewrite fmap_app, take_app_length', drop_app_ge by (rewrite length_fmap; lia). rewrite length_fmap.
        replace (S (length before) - length before)%nat with 1%nat by lia. rewrite <- fmap_drop, !fmap_app, <- app_assoc. done.
      * rewrite size_of_fmap, size_of_app. pose proof (size_of_nonneg tail). lia.
    + lia.
    + lia.
    + left. exists d'. split; [done|]. split; [done|]. split; [done|]. rewrite R, E1, drop_drop, <- app_assoc. done.
    + right. by exists d', st.
Qed.

(** The rows a pack is put into. *)
Lemma pack_place index entries d x : holds d x -> fits (ApplyPack index entries) x ->
  exists before tail, view_entries x = before ++ tail /\ 1 <= index - size_of before /\
    raft_log (tables d) = numbered (index - size_of before) (row_of <$> before ++ tail) /\
    view_step (ApplyPack index entries) x = mkView (index - size_of before) (before ++ entries ++ drop (length entries) tail).
Proof.
  intros Hx (Hne & _ & H1 & _ & Hl). pose proof (holds_first _ _ Hx).
  unfold view_step. destruct (decide (view_entries x = [])) as [El|El].
  - exists [], []. rewrite size_of_nil, Z.sub_0_r, (holds_rows _ _ Hx), El, bool_decide_true, drop_nil by done.
    by rewrite !app_nil_r.
  - destruct Hl as [?|Hi]; [done|]. destruct (place_bound x index Hi) as [Hp Hq].
    exists (take (place x index) (view_entries x)), (drop (place x index) (view_entries x)). rewrite take_drop, size_of_take by done.
    replace (index - Z.of_nat (place x index)) with (view_start x) by lia. split; [done|]. split; [done|]. split; [apply Hx|].
    by rewrite bool_decide_false, drop_drop by done.
Qed.

Lemma apply_pack_outcome index entries d x : holds d x -> fits (ApplyPack index entries) x -> packable (ApplyPack index entries) ->
  outcome (ApplyPack index entries) d x (log_step runs (ApplyPack index entries) d).
Proof.
  intros Hx Hfit Hp. destruct (pack_place index entries d x Hx Hfit) as (before & tail & Ex & Hb & Hr & Ev).
  destruct Hfit as (Hne & Hs & H1 & Hm & _). pose proof (size_of_nonneg entries) as Hn. pose proof (size_of_nonneg before).
  unfold log_step, apply_pack. pose proof (holds_idle _ _ Hx) as Hidle. rewrite begin_idle by done.
  destruct (runs BeginImmediate) eqn:Eb; [|no_effect]. set (d1 := mkRaftDb (tables d) (Some (tables d))). unfold pack_of.
  rewrite get_put_int by (unfold in_sint; lia). rewrite to_nat_size_of, <- (app_nil_r (concat _)).
  destruct (unpack_entries entries index [] before tail d1) as [(d2 & -> & B & M & R)|(d2 & st & -> & B & F)]; try done; try lia.
  2: { cbn [snd]. rewrite (rollback_restores runs ok d) by done. no_effect. }
  assert (read_min_log_index_locked runs d2 = Some (index - size_of before)) as ->.
  { unfold read_min_log_index_locked. rewrite (steady_min _ ok), R, numbered_head. destruct before as [|e before]; cbn.
    - destruct entries; [done|]. cbn. by rewrite u64_small by lia.
    - by rewrite u64_small by lia. }
  rewrite (proj2 (Z.ltb_lt _ _)) by lia. cbv zeta. unfold write_meta_int_locked. destruct (runs WriteMeta) eqn:Ew; [|rewrite (rollback_restores runs ok d) by done; no_effect].
  set (d3 := with_meta _ _ d2). destruct (commit_ends runs ok d d3) as [[-> Ec]|[-> Ec]]; [done|done| |no_effect].
  left. split; [|done]. rewrite Ev. split; tables_cbn; [done| |done| |done].
  - rewrite lookup_insert_eq. by rewrite i64_small by lia.
  - unfold view_end in *. cbn. rewrite !size_of_app. rewrite Ex, size_of_app in Hm.
    assert (view_start x = index - size_of before \/ tail = []) as [E|E].
    { destruct tail; [by right|left]. pose proof (holds_rows _ _ Hx) as Hr'. rewrite Hr, Ex in Hr'.
      destruct before; cbn in Hr'; by injection Hr'. }
    + assert (size_of (drop (length entries) tail) = Z.max 0 (size_of tail - size_of entries)) by (unfold size_of; rewrite length_drop; lia). lia.
    + rewrite E, drop_nil, size_of_nil. lia.
Qed.

End steps.

(** ** The store keeps its promise *)

(** The store is the log that NuRaft expects, on entries with consecutive
    indexes below 2^63 and packs that one log wrote: each operation a node
    makes either has the effect that log stores promise or, when one of its
    writes fails, none at all, and what it tells is true; with every statement
    running it has the effect.  This needs the reads of the bounds (the start,
    the greatest and the least index) and the ROLLBACK to run ([steady]): a
    query that fails is taken for an empty log
    ([failed_query_overwrites_first]).  What an operation left behind is what a
    node finds when it opens the file again. (C37) *)
Theorem raft_log_refines runs op d x :
  steady runs -> holds d x -> fits op x -> packable op ->
  let '(told, d') := log_step runs op d in
  exists x', holds d' x' /\
    (x' = view_step op x /\ told <> Some false \/ x' = x /\ told <> Some true /\ exists st, runs st = false) /\
    forall runs', runs' ReadMeta = true -> runs' Pragmas = true -> runs' Schema = true ->
      exists d'', open_storage runs' true (close_storage d') None = (true, Some d'') /\ holds d'' x'.
Proof.
  intros Hok Hx Hf Hp. assert (outcome runs op d x (log_step runs op d)) as H.
  { destruct op; [by apply append_outcome|by apply write_at_outcome|by apply compact_outcome|by apply apply_pack_outcome]. }
  destruct (log_step runs op d) as [told d']. unfold outcome in H. cbn [fst snd] in H.
  assert (forall x', holds d' x' -> forall runs', runs' ReadMeta = true -> runs' Pragmas = true -> runs' Schema = true ->
    exists d'', open_storage runs' true (close_storage d') None = (true, Some d'') /\ holds d'' x') as Hre.
  { intros x' Hx' runs' R1 R2 R3. unfold close_storage, open_storage. rewrite (holds_idle _ _ Hx'), R2, R3. cbn [negb orb].
    unfold read_meta_int_locked. cbn [tables]. rewrite R1, (holds_start _ _ Hx'). cbn. pose proof (holds_first _ _ Hx').
    pose proof (holds_end _ _ Hx'). pose proof (view_start_end x'). rewrite u64_small by lia. rewrite (proj2 (Z.leb_le _ _)) by done.
    eexists. split; [done|]. destruct Hx'. by split. }
  destruct H as [[H1 H2]|(E & H2 & H3)]; [|rewrite E in Hre |- *]; [exists (view_step op x)|exists x]; (split; [done|]; split; [|by apply Hre]).
  - by left.
  - by right.
Qed.

(** ** What is read *)

Section reads.
Context (runs : RaftStatement -> bool) (all : forall st, runs st = true).

Lemma all_steady : steady runs.
Proof. by split. Qed.

Lemma read_range_entries end_index entries : forall expected total,
  0 <= expected -> expected + size_of entries < 2 ^ 63 ->
  read_range runs end_index 0 expected total (numbered expected (row_of <$> entries)) =
  Ret (if expected + size_of entries =? end_index then Some entries else None).
Proof.
  induction entries as [|e entries IH]; intros expected total H0 He; cbn [fmap list_fmap numbered read_range].
  - by rewrite size_of_nil, Z.add_0_r.
  - rewrite size_of_cons in *. pose proof (size_of_nonneg entries). rewrite all, u64_small, Z.eqb_refl by lia. cbn [negb orb row_of].
    rewrite row_blob, row_reads. cbn [mbind except_bind Z.ltb Z.compare andb]. rewrite u64_small by lia. rewrite IH by lia. cbn.
    replace (expected + 1 + size_of entries) with (expected + (1 + size_of entries)) by lia. by destruct (_ =? _).
Qed.

(** The entries of a range. *)
Definition between {E} (x : LogView E) (a b : Z) : list E := take (Z.to_nat (b - a)) (drop (place x a) (view_entries x)).

Lemma log_entries_slice d x a b : holds d x -> view_start x <= a -> 0 <= b < 2 ^ 63 -> a < 2 ^ 63 ->
  log_entries runs a b 0 d = Ret (if a + size_of (between x a b) =? b then Some (between x a b) else None).
Proof.
  intros Hx Ha Hb Ha'. pose proof (holds_first _ _ Hx) as H1. pose proof (holds_end _ _ Hx) as He. unfold log_entries. rewrite all. cbn [negb].
  rewrite (holds_rows _ _ Hx), !i64_small by lia. rewrite numbered_range, <- fmap_drop, <- fmap_take by done.
  change (Z.to_nat (a - view_start x)) with (place x a). apply read_range_entries; [lia|].
  fold (between x a b). destruct (decide (between x a b = [])) as [->|Hne]; [rewrite size_of_nil; lia|].
  assert (size_of (between x a b) <= view_end x - a); [|lia]. unfold between, size_of, view_end, size_of, place in *.
  rewrite length_take, length_drop. destruct (decide (a <= view_start x + Z.of_nat (length (view_entries x)))); [lia|].
  exfalso. apply Hne. rewrite drop_ge by lia. by rewrite take_nil.
Qed.

Lemma log_entries_inside d x a b : holds d x -> view_start x <= a <= b -> b <= view_end x ->
  log_entries runs a b 0 d = Ret (Some (between x a b)).
Proof.
  intros Hx Ha Hb. pose proof (holds_first _ _ Hx). pose proof (holds_end _ _ Hx). rewrite (log_entries_slice _ x) by (done || lia).
  rewrite (proj2 (Z.eqb_eq _ _)); [done|]. unfold between, size_of, view_end, size_of, place in *. rewrite length_take, length_drop. lia.
Qed.

Lemma find_row_view d x index : holds d x -> 0 <= index < 2 ^ 63 ->
  find_row index d = if view_start x <=? index then (fun e => (index, row_of e)) <$> view_entries x !! place x index else None.
Proof.
  intros Hx Hi. unfold find_row. rewrite (holds_rows _ _ Hx), i64_small by done. rewrite numbered_find, list_lookup_fmap.
  destruct (_ <=? _); [|done]. unfold place. by destruct (_ !! _).
Qed.

End reads.

(** Whatever is asked of the store is answered from the log it holds: the next
    index, the last entry, the entries of a range, whole or not at all, one
    entry and its term, with a dummy below the start and nothing past the
    end. *)
Theorem raft_log_observed runs d x a b index :
  (forall st, runs st = true) -> holds d x -> view_start x <= a <= b -> b < 2 ^ 63 -> 0 <= index < 2 ^ 63 ->
  next_slot runs d = view_end x /\ start_index runs d = view_start x /\
  last_entry runs d = Ret (default make_dummy_entry (last (view_entries x))) /\
  log_entries runs a b 0 d = Ret (if b <=? Z.max a (view_end x) then Some (between x a b) else None) /\
  entry_at runs index d =
    Ret (if index <? view_start x then Some make_dummy_entry else view_entries x !! place x index) /\
  term_at runs index d =
    (if index <? view_start x then 0 else default 0 (get_term <$> view_entries x !! place x index)).
Proof.
  intros all Hx Ha Hb Hi. pose proof (all_steady _ all) as ok. pose proof (holds_first _ _ Hx) as H1. pose proof (holds_end _ _ Hx) as He.
  split_and!.
  - by apply holds_next.
  - by apply holds_start_index.
  - unfold last_entry. rewrite all, (holds_rows _ _ Hx), numbered_last, fmap_last. cbn [negb].
    destruct (last (view_entries x)) as [e|]; [|done]. cbn. by rewrite row_blob, row_reads.
  - destruct (Z.leb_spec b (Z.max a (view_end x))) as [Hle|Hgt].
    + destruct (decide (b <= view_end x)); [apply log_entries_inside; (done || lia)|]. assert (b = a) as -> by lia.
      rewrite (log_entries_slice runs all d x) by (done || lia). assert (between x a a = []) as E by (unfold between; by rewrite Z.sub_diag).
      by rewrite E, size_of_nil, Z.add_0_r, Z.eqb_refl.
    + rewrite (log_entries_slice runs all d x) by (done || lia). rewrite (proj2 (Z.eqb_neq _ _)); [done|].
      unfold between, size_of, view_end, size_of, place in *. rewrite length_take, length_drop. lia.
  - unfold entry_at. rewrite (holds_start_index runs ok _ _ Hx), all, (find_row_view d x) by done. destruct (Z.ltb_spec index (view_start x)); [done|].
    rewrite (proj2 (Z.leb_le _ _)) by done. cbn [negb]. destruct (_ !! _) as [e|]; [|done]. cbn. by rewrite row_blob, row_reads.
  - unfold term_at. rewrite (holds_start_index runs ok _ _ Hx), all, (find_row_view d x) by done. destruct (Z.ltb_spec index (view_start x)); [done|].
    rewrite (proj2 (Z.leb_le _ _)) by done. cbn [negb]. destruct (_ !! _) as [e|]; [|done]. cbn. apply term_reads.
Qed.

(** ** Packs *)

Lemma traverse_serialize entries :
  traverse (fun e => match serialize e with Some b => Ret b | None => Throw [] end) entries =
  Ret ((fun e => default [] (serialize e)) <$> entries).
Proof. apply traverse_Ret. induction entries as [|e entries IH]; constructor; [by rewrite serialize_row|done]. Qed.

Lemma pack_entries runs d x index cnt : (forall st, runs st = true) -> holds d x ->
  view_start x <= index -> 0 <= cnt < 2 ^ 31 -> index + cnt <= view_end x ->
  Forall (fun e => size_of (default [] (serialize e)) < 2 ^ 31) (between x index (index + cnt)) ->
  pack runs index cnt d = Ret (Some (pack_of (between x index (index + cnt)))).
Proof.
  intros all Hx Hi Hc He Hs. pose proof (holds_end _ _ Hx). pose proof (holds_first _ _ Hx). unfold pack.
  rewrite (u64_small cnt), u64_small by lia. rewrite (log_entries_inside runs all d x) by (done || lia). cbn.
  assert (size_of (between x index (index + cnt)) = cnt) as Hsz.
  { unfold between, size_of, view_end, size_of, place in *. rewrite length_take, length_drop. lia. }
  rewrite Hsz, sint32_small, Z.eqb_refl by lia. cbn [negb]. rewrite traverse_serialize. cbn. unfold pack_of. rewrite Hsz, <- list_fmap_compose.
  do 4 f_equal. apply list_fmap_ext. intros i e Hie. cbn. rewrite Forall_lookup in Hs. specialize (Hs _ _ Hie). rewrite sint32_small; [done|].
  split; [apply size_of_nonneg|done].
Qed.

(** A pack carries entries from one node to another: what is packed of a log
    is, once applied to an empty store, the log from that index on. *)
Theorem pack_transfers runs runs' d x d' s index cnt :
  (forall st, runs st = true) -> (forall st, runs' st = true) ->
  holds d x -> holds d' (mkView s []) ->
  view_start x <= index -> 0 < cnt < 2 ^ 31 -> index + cnt <= view_end x ->
  Forall (fun e => size_of (default [] (serialize e)) < 2 ^ 31) (between x index (index + cnt)) ->
  exists packed, pack runs index cnt d = Ret (Some packed) /\
    holds (apply_pack runs' index packed d').2 (mkView index (between x index (index + cnt))).
Proof.
  intros all all' Hx Hx' Hi Hc He Hs. eexists. split; [apply pack_entries; (done || lia)|].
  set (entries := between x index (index + cnt)) in *. pose proof (holds_end _ _ Hx). pose proof (holds_first _ _ Hx). pose proof (holds_end _ _ Hx') as He'.
  assert (size_of entries = cnt) as Hsz.
  { unfold entries, between, size_of, view_end, size_of, place in *. rewrite length_take, length_drop. lia. }
  destruct (apply_pack_outcome runs' (all_steady _ all') index entries d' (mkView s []) Hx') as [[H1 _]|(_ & _ & st & F)]; [|done|exact H1|].
  - pose proof (size_of_nonneg entries). split_and!; [|lia|lia| |by left].
    + intros E. rewrite E, size_of_nil in Hsz. lia.
    + unfold view_end in He' |- *. cbn [view_start view_entries] in *. rewrite size_of_nil in *. lia.
  - by rewrite all' in F.
Qed.

(** ** What a node recovers *)

Inductive MachineOp := CommitEntry (log_idx : Z) (data : bytes) | CreateSnapshot (s : Snapshot) | ApplySnapshot (s : Snapshot) | RestartNode.

(** A restart makes a new machine from the file. *)
Definition machine_step (config : cluster_config) (md : StateMachine * RaftDb) (step : (RaftStatement -> bool) * MachineOp) :
    StateMachine * RaftDb :=
  let '(m, d) := md in
  let '(runs, op) := step in
  match op with
  | CommitEntry log_idx data =>
      let '(m, st) := commit runs log_idx data m (Some d) in (m, default d st)
  | CreateSnapshot s => (create_snapshot s m, d)
  | ApplySnapshot s => (apply_snapshot s m, d)
  | RestartNode => let d := mkRaftDb (close_storage d) None in (InMemoryStateMachine runs config (Some d), d)
  end.

(** A new node and what it does, each step with the statements that run. *)
Definition machine_run (runs : RaftStatement -> bool) (config : cluster_config) (d : RaftDb)
    (steps : list ((RaftStatement -> bool) * MachineOp)) : StateMachine * RaftDb :=
  foldl (machine_step config) (InMemoryStateMachine runs config (Some d), d) steps.

(** Entries are committed in the order of their indexes. *)
Fixpoint in_order (low : Z) (steps : list ((RaftStatement -> bool) * MachineOp)) : Prop :=
  match steps with
  | [] => True
  | (_, CommitEntry log_idx _) :: steps => low < log_idx < 2 ^ 63 /\ in_order log_idx steps
  | _ :: steps => in_order low steps
  end.

(** What was committed, and what of it was recorded. *)
Definition committed_by (step : (RaftStatement -> bool) * MachineOp) : option (Z * bytes) :=
  match step.2 with CommitEntry log_idx data => Some (log_idx, data) | _ => None end.
Definition recorded_by (step : (RaftStatement -> bool) * MachineOp) : option (Z * bytes) :=
  if step.1 AppendCommitted then committed_by step else None.

(** Empty payloads are not read back. *)
Definition readable (rows : list (Z * bytes)) : list bytes := omap (fun r => copy_blob_to_buffer r.2) rows.

(** The index of the last row. *)
Definition last_index (rows : list (Z * bytes)) : Z := default 0 (fst <$> last rows).

Definition reads_commits (runs : RaftStatement -> bool) : Prop :=
  runs SelectCommitted = true /\ runs MaxCommitted = true /\ forall index, runs (CommittedRow index) = true.

(** Nothing fails, no payload is empty and no snapshot comes from another
    node. *)
Definition undisturbed (step : (RaftStatement -> bool) * MachineOp) : Prop :=
  (forall st, step.1 st = true) /\
  match step.2 with CommitEntry _ data => data <> [] | ApplySnapshot _ => False | _ => True end.

Lemma upsert_row_last {A} key (a : A) rows : Forall (fun r => r.1 < key) rows -> upsert_row key a rows = rows ++ [(key, a)].
Proof.
  induction 1 as [|[k b] rows H _ IH]; [done|]. cbn in H |- *. destruct (Z.ltb_spec key k); [lia|]. destruct (Z.eqb_spec key k); [lia|].
  by rewrite IH.
Qed.

Lemma read_committed_readable runs rows : (forall index, runs (CommittedRow index) = true) -> read_committed runs rows = readable rows.
Proof. intros H. induction rows as [|[i p] rows IH]; [done|]. cbn. rewrite H, IH. by destruct p. Qed.

Lemma readable_app rows rows' : readable (rows ++ rows') = readable rows ++ readable rows'.
Proof. apply omap_app. Qed.

Section recovery.
Context (config : cluster_config).

(** The rows of a node that is between two operations. *)
Record recording (low : Z) (rows : list (Z * bytes)) (d : RaftDb) : Prop := {
  recording_idle : begun d = None;
  recording_rows : raft_committed (tables d) = rows;
  recording_range : 0 <= low < 2 ^ 63;
  recording_below : Forall (fun r => 0 <= r.1 <= low) rows;
}.

Lemma restarted runs low rows d : reads_commits runs -> recording low rows d ->
  committed_payloads (InMemoryStateMachine runs config (Some d)) = readable rows /\
  commit_index (InMemoryStateMachine runs config (Some d)) = last_index rows.
Proof.
  intros (R1 & R2 & R3) [_ Hr Hl Hb]. cbn. unfold load_all_committed, max_committed_index, last_index. rewrite R1, R2, Hr.
  split; [by apply read_committed_readable|]. destruct (last rows) as [r|] eqn:E; [|done]. cbn. apply u64_small.
  apply last_Some_elem_of in E. rewrite Forall_forall in Hb. specialize (Hb _ E). lia.
Qed.

Lemma machine_step_records low rows m d runs op steps :
  recording low rows d -> in_order low ((runs, op) :: steps) ->
  exists low', recording low' (rows ++ option_list (recorded_by (runs, op))) (machine_step config (m, d) (runs, op)).2 /\
    in_order low' steps.
Proof.
  intros [Hi Hr Hl Hb] Ho. unfold recorded_by, committed_by. destruct op as [log_idx data|s|s|]; cbn [fst snd machine_step].
  - destruct Ho as [Hlt Ho]. exists log_idx. split; [|done]. unfold commit, append_committed. cbn. destruct (runs AppendCommitted); cbn.
    + split; cbn; [done| |lia|].
      * rewrite Hr, i64_small by lia. apply upsert_row_last. eapply Forall_impl; [exact Hb|]. cbn. lia.
      * apply Forall_app. split; [|by constructor; [cbn; lia|]]. eapply Forall_impl; [exact Hb|]. cbn. lia.
    + rewrite app_nil_r. split; [done|done|lia|]. eapply Forall_impl; [exact Hb|]. cbn. lia.
  - exists low. by destruct (runs _); cbn; rewrite app_nil_r.
  - exists low. by destruct (runs _); cbn; rewrite app_nil_r.
  - exists low. unfold close_storage. rewrite Hi. destruct (runs AppendCommitted); cbn; by rewrite app_nil_r.
Qed.

Lemma machine_run_records steps : forall low rows m d, recording low rows d -> in_order low steps ->
  exists low', recording low' (rows ++ omap recorded_by steps) (foldl (machine_step config) (m, d) steps).2.
Proof.
  induction steps as [|[runs op] steps IH]; intros low rows m d Hd Ho; [exists low; by rewrite app_nil_r|].
  destruct (machine_step_records low rows m d runs op steps Hd Ho) as (low1 & H1 & Ho1). cbn [foldl].
  destruct (machine_step config (m, d) (runs, op)) as [m1 d1]. destruct (IH _ _ m1 d1 H1 Ho1) as (low' & H'). exists low'.
  cbn [omap list_omap]. destruct (recorded_by (runs, op)); cbn in H'; [by rewrite <- app_assoc in H'|by rewrite app_nil_r in H'].
Qed.

(** What a machine holds is what it would read back. *)
Definition in_step (m : StateMachine) (rows : list (Z * bytes)) : Prop :=
  committed_payloads m = readable rows /\ commit_index m = last_index rows.

Lemma machine_step_in_step low rows m d step : recording low rows d -> in_step m rows -> undisturbed step ->
  in_step (machine_step config (m, d) step).1 (rows ++ option_list (committed_by step)).
Proof.
  intros Hd [H1 H2] [Hall Hop]. destruct step as [runs [log_idx data|s|s|]]; cbn in *; rewrite ?app_nil_r.
  - split; cbn; [|by unfold last_index; rewrite last_snoc]. rewrite H1, readable_app. by destruct data.
  - by split.
  - done.
  - unfold close_storage. rewrite (recording_idle _ _ _ Hd). apply (restarted runs low rows); [by split_and!|].
    destruct d; cbn in *. pose proof (recording_idle _ _ _ Hd). by destruct Hd.
Qed.

Lemma undisturbed_recorded step : undisturbed step -> recorded_by step = committed_by step.
Proof. intros [H _]. unfold recorded_by. by rewrite H. Qed.

Lemma machine_run_in_step steps : forall low rows m d, recording low rows d -> in_order low steps -> in_step m rows ->
  Forall undisturbed steps -> in_step (foldl (machine_step config) (m, d) steps).1 (rows ++ omap committed_by steps).
Proof.
  induction steps as [|[runs op] steps IH]; intros low rows m d Hd Ho Hm Hu; [by rewrite app_nil_r|].
  apply Forall_cons in Hu as [Hu Hus]. pose proof (machine_step_in_step _ _ _ _ _ Hd Hm Hu) as H2.
  destruct (machine_step_records low rows m d runs op steps Hd Ho) as (low1 & H1 & Ho1). cbn [foldl]. rewrite (undisturbed_recorded _ Hu) in H1.
  destruct (machine_step config (m, d) (runs, op)) as [m1 d1]. specialize (IH _ _ m1 d1 H1 Ho1 H2 Hus).
  cbn [omap list_omap]. destruct (committed_by (runs, op)); cbn in IH; [by rewrite <- app_assoc in IH|by rewrite app_nil_r in IH].
Qed.

(** All that is committed is read back if no payload is empty. *)
Lemma readable_all steps : Forall undisturbed steps -> readable (omap committed_by steps) = snd <$> omap committed_by steps.
Proof.
  induction 1 as [|[runs op] steps [_ H] _ IH]; [done|]. destruct op as [i data|s|s|]; cbn in *; [|done..].
  destruct data; [done|]. unfold readable in *. cbn. by rewrite IH.
Qed.


End recovery.

Section meta.
Context (runs : RaftStatement -> bool) (all : forall st, runs st = true).

(** *** Votes and members *)

(** What was saved last is read back, after a restart too. *)
Lemma saved_state_read state d : read_state runs (save_state runs state d) = Ret (Some state).
Proof.
  unfold save_state, read_state, write_meta_blob_locked, read_meta_blob_locked. destruct (state_serialized state) as (b & -> & Hb & Hd).
  rewrite !all. cbn. rewrite lookup_insert_eq. cbn. destruct b; [done|]. cbn. by rewrite Hd.
Qed.

Lemma saved_config_read initial saved d : load_config runs initial (save_config runs saved d) = Ret saved.
Proof.
  unfold save_config, load_config, write_meta_blob_locked, read_meta_blob_locked. destruct (config_serialized saved) as (b & -> & Hb & Hd).
  rewrite !all. cbn. rewrite lookup_insert_eq. cbn. destruct b; [done|]. cbn. by rewrite Hd.
Qed.

End meta.
End laws.

(** ** Concrete stores *)

(** Entries of term 1. *)
Definition toy_nuraft : NuRaft := {|
  log_entry := bytes; new_entry := fun _ data => data; get_term := fun _ => 1;
  serialize := fun e => Some (Byte.x01 :: e); deserialize := fun b => Ret (drop 1 b);
  alloc := fun size => replicate (Z.to_nat size) Byte.x00;
  put_int := le_bytes 4;
  get_int := fun data => if 4 <=? size_of data then Ret (sint 32 (le_value (take 4 data)), drop 4 data) else Throw [];
  cluster_config := bytes; serialize_config := fun c => Some (Byte.x02 :: c); deserialize_config := fun b => Ret (Some (drop 1 b));
  srv_state := bytes; serialize_state := fun s => Some (Byte.x03 :: s); deserialize_state := fun b => Ret (drop 1 b);
|}.

#[global] Instance toy_nuraft_laws : NuRaftLaws toy_nuraft.
Proof.
  split; cbn [toy_nuraft log_entry get_term serialize deserialize put_int get_int srv_state serialize_state deserialize_state
    cluster_config serialize_config deserialize_config].
  - intros e. by exists (Byte.x01 :: e).
  - done.
  - intros n rest Hn. rewrite size_of_app, size_le_bytes. rewrite (proj2 (Z.leb_le _ _)) by (pose proof (size_of_nonneg rest); lia).
    rewrite take_app_length', drop_app_length' by by rewrite le_bytes_length. rewrite le_value_bytes. by rewrite sint_wrap.
  - intros s. by exists (Byte.x03 :: s).
  - intros c. by exists (Byte.x02 :: c).
Qed.

Definition every_statement (st : RaftStatement) : bool := true.
Definition without_max (st : RaftStatement) : bool := match st with MaxIndex => false | _ => true end.

Definition empty_file : RaftTables := mkRaftTables [] ∅ [].

(** A new store. *)
Definition new_store : RaftDb := default (mkRaftDb empty_file None) (open_storage every_statement true empty_file None).2.

(** One that holds two entries. *)
Definition two_entries : RaftDb :=
  (append (nuraft := toy_nuraft) every_statement (Some $"b") (append (nuraft := toy_nuraft) every_statement (Some $"a") new_store).2).2.

Lemma two_entries_holds : holds (nuraft := toy_nuraft) two_entries (mkView 1 [$"a"; $"b"]).
Proof. split; vm_compute; done. Qed.

(** When the greatest index cannot be queried, the log is taken for empty: the
    entry that is appended takes the place of the first one. *)
Lemma failed_query_overwrites_first :
  let '(index, d) := append (nuraft := toy_nuraft) without_max (Some $"c") two_entries in
  index = 1 /\ holds (nuraft := toy_nuraft) d (mkView 1 [$"c"; $"b"]).
Proof. split; [|split]; vm_compute; done. Qed.

(** A pack that ends too early throws with the transaction open: what is
    appended afterwards is told to be stored and is not in the file. *)
Lemma broken_pack_loses_appends :
  let unpacked := apply_pack (nuraft := toy_nuraft) every_statement 3 (le_bytes 4 1) two_entries in
  let appended := append (nuraft := toy_nuraft) every_statement (Some $"c") unpacked.2 in
  is_ret unpacked.1 = false /\ appended.1 = 3 /\ (compact every_statement 1 appended.2).1 = false /\
  holds (nuraft := toy_nuraft) (mkRaftDb (close_storage appended.2) None) (mkView 1 [$"a"; $"b"]).
Proof. cbv zeta. split_and!; [vm_compute; done|vm_compute; done|vm_compute; done|]. split; vm_compute; done. Qed.

Lemma raft_log_refines_witness :
  holds (nuraft := toy_nuraft) two_entries (mkView 1 [$"a"; $"b"]) /\
  exists x', holds (nuraft := toy_nuraft) (log_step (nuraft := toy_nuraft) every_statement (WriteAt 2 $"c") two_entries).2 x'.
Proof.
  split; [exact two_entries_holds|].
  assert (fits (WriteAt 2 $"c") (mkView 1 [$"a"; $"b"])) as Hf by (vm_compute; split_and!; congruence).
  destruct (@raft_log_refines toy_nuraft toy_nuraft_laws every_statement (WriteAt 2 $"c") two_entries (mkView 1 [$"a"; $"b"])
    (all_steady every_statement (fun _ => eq_refl)) two_entries_holds Hf I) as (x' & H & _). by exists x'.
Defined.

Lemma raft_log_observed_witness :
  next_slot every_statement two_entries = view_end (mkView 1 [$"a"; $"b"]).
Proof.
  exact (proj1 (@raft_log_observed toy_nuraft toy_nuraft_laws every_statement two_entries (mkView 1 [$"a"; $"b"]) 1 2 1 (fun _ => eq_refl)
    two_entries_holds ltac:(vm_compute; split; congruence) eq_refl ltac:(vm_compute; split; congruence))).
Defined.

Lemma new_store_holds : holds (nuraft := toy_nuraft) new_store (mkView 1 []).
Proof. split; vm_compute; done. Qed.

Lemma pack_transfers_witness :
  exists packed, pack (nuraft := toy_nuraft) every_statement 1 2 two_entries = Ret (Some packed).
Proof.
  destruct (@pack_transfers toy_nuraft toy_nuraft_laws every_statement every_statement two_entries (mkView 1 [$"a"; $"b"]) new_store 1 1 2
    (fun _ => eq_refl) (fun _ => eq_refl) two_entries_holds new_store_holds) as (packed & H & _);
    [by vm_compute|by vm_compute|by vm_compute|repeat constructor|]. by exists packed.
Defined.

Definition without_append (st : RaftStatement) : bool := match st with AppendCommitted => false | _ => true end.

(** A commit whose row could not be written is one to NuRaft and to the
    machine, and it is gone when the node starts again; so is the payload of
    one that is empty. *)
Lemma unrecorded_commits_are_lost :
  let run steps := machine_run (nuraft := toy_nuraft) every_statement $"c" new_store steps in
  let commits := [(every_statement, CommitEntry (nuraft := toy_nuraft) 1 $"a"); (without_append, CommitEntry 2 $"b"); (every_statement, CommitEntry 3 [])] in
  let restart := [(every_statement, RestartNode (nuraft := toy_nuraft))] in
  committed_payloads (run commits).1 = [$"a"; $"b"; []] /\ committed_payloads (run (commits ++ restart)).1 = [$"a"] /\
  commit_index (run (commits ++ restart)).1 = 3 /\
  commit_index (run (take 2 commits ++ restart)).1 = 1.
Proof. by vm_compute. Qed.

