(* ===== verification/RequestLogs.v ===== *)
(** * RequestLogs: the log of proxied requests

    src/native/db/repositories/src/request_log_repo.cpp: the table
    [request_logs], what is appended to it, its pages and the costs it adds up
    per account; src/native/server/controllers/src/logs_controller.cpp: the
    page a client is given.  [datetime('now')] is a number of seconds, and
    [SUM] over doubles, whose rounding SQLite does not fix, an argument. *)

From S2P Require Import Prelude Double Accounts.

Record RequestLogWrite := mkLogWrite {
  log_account_id : option Z;
  log_path : bytes;
  log_method : bytes;
  log_status_code : Z;
  log_model : option bytes;
  log_error_code : option bytes;
  log_transport : option bytes;
  log_routing_strategy : option bytes;
  log_sticky : bool;
  log_routing_score : option double;
  log_total_cost : double;
  log_latency_ms : option Z;
  log_total_tokens : option Z;
}.

(** A row, which is the record that is read of it. *)
Record RequestLogRecord := mkLogRecord { log_id : Z; log_written : RequestLogWrite; requested_at : Z }.

Record log_table := mkLogTable { log_rows : list RequestLogRecord; next_log_id : Z }.

Definition empty_log : log_table := mkLogTable [] 1.

Inductive LogStatement := LogSchema | InsertLog | SelectLogs | SelectCosts | AccountSchema | FindAccount.

(** A double in a column: not-a-number is null, and zero has no sign. *)
Definition sql_real (d : double) : option double :=
  match d with S754_nan => None | S754_zero _ => Some (S754_zero false) | _ => Some d end.

(** Zero in a column that may be null. *)
Definition with_reals (score : option double) (cost : double) (w : RequestLogWrite) : RequestLogWrite :=
  mkLogWrite (log_account_id w) (log_path w) (log_method w) (log_status_code w) (log_model w) (log_error_code w)
    (log_transport w) (log_routing_strategy w) (log_sticky w) score cost (log_latency_ms w) (log_total_tokens w).

(** [ORDER BY requested_at DESC, id DESC] *)
Definition newest_first (a b : RequestLogRecord) : Prop :=
  requested_at b < requested_at a \/ (requested_at a = requested_at b /\ log_id b <= log_id a).

#[global] Instance newest_first_dec a b : Decision (newest_first a b).
Proof. unfold newest_first. apply _. Defined.

Record AccountRequestCostAggregate := mkAggregate { aggregate_account_id : Z; aggregate_requests : Z; aggregate_total_cost : double }.

Section repo.
Context (runs : LogStatement -> bool).

Definition append_request_log (now : Z) (log : RequestLogWrite) (t : log_table) : bool * log_table :=
  if bool_decide (log_path log = []) || bool_decide (log_method log = []) || negb (runs LogSchema) || negb (runs InsertLog)
  then (false, t)
  else match sql_real (log_total_cost log) with
       | None => (false, t)
       | Some cost =>
           let row := mkLogRecord (next_log_id t) (with_reals (log_routing_score log ≫= sql_real) cost log) now in
           (true, mkLogTable (log_rows t ++ [row]) (next_log_id t + 1))
       end.

(** [LIMIT ?1 OFFSET ?2], as signed numbers: a negative limit is none, a
    negative offset zero. *)
Definition sql_page {A} (limit offset : Z) (rows : list A) : list A :=
  let rest := drop (Z.to_nat (sint 64 offset)) rows in
  if sint 64 limit <? 0 then rest else take (Z.to_nat (sint 64 limit)) rest.

Definition list_recent_request_logs (limit offset : Z) (t : log_table) : list RequestLogRecord :=
  if negb (runs LogSchema) || (limit =? 0) || negb (runs SelectLogs) then []
  else sql_page limit offset (merge_sort newest_first (log_rows t)).

(** The rows of an account since a time. *)
Definition costs_since (since account : Z) (t : log_table) : list double :=
  log_total_cost ∘ log_written <$>
    filter (fun r => log_account_id (log_written r) = Some account /\ since <= requested_at r) (log_rows t).

Definition accounts_since (since : Z) (t : log_table) : list Z :=
  remove_dups (omap (fun r => if since <=? requested_at r then log_account_id (log_written r) else None) (log_rows t)).

(** [sum]: [None] where the sum is not a number. *)
Definition list_account_request_cost_aggregates (sum : list double -> option double) (now lookback_hours : Z)
    (t : log_table) : list AccountRequestCostAggregate :=
  if negb (runs LogSchema) || negb (runs SelectCosts) then []
  else
    let since := now - Z.max 1 lookback_hours * 3600 in
    (fun account =>
       let costs := costs_since since account t in
       mkAggregate account (size_of costs) (fmax f_zero (default f_zero (sum costs)))) <$> accounts_since since t.

Definition find_account_id_by_chatgpt_account_id (account : bytes) (t : accounts_table) : option Z :=
  if bool_decide (account = []) || negb (runs AccountSchema) || negb (runs FindAccount) then None
  else id <$> List.find (has_chatgpt_id account) (rows t).

(** ** logs_controller.cpp *)

Definition kMaxLimit : Z := 500.

Definition clamped_limit (requested : Z) : Z := if requested =? 0 then 1 else Z.min requested kMaxLimit.

Record RequestLogsResponse := mkLogsResponse {
  logs_status : Z;
  logs_code : bytes;
  logs_message : bytes;
  logs_limit : Z;
  logs_offset : Z;
  logs : list RequestLogRecord;
}.

(** [opened]: the database could be opened. *)
Definition list_request_logs (opened : bool) (limit offset : Z) (t : log_table) : RequestLogsResponse :=
  if negb opened
  then mkLogsResponse 500 $"db_unavailable" $"Database unavailable" (clamped_limit limit) offset []
  else mkLogsResponse 200 [] [] (clamped_limit limit) offset (list_recent_request_logs (clamped_limit limit) offset t).

End repo.

(** ** Pages *)

(** What a page is a part of. *)
Definition newest (t : log_table) : list RequestLogRecord := merge_sort newest_first (log_rows t).

#[global] Instance newest_first_total : Total newest_first.
Proof. intros a b. unfold newest_first. lia. Qed.

#[global] Instance newest_first_trans : Transitive newest_first.
Proof. intros a b c. unfold newest_first. lia. Qed.

(** Appending whatever is written, as the statements run. *)
Definition log_run (calls : list ((LogStatement -> bool) * Z * RequestLogWrite)) : log_table :=
  foldl (fun t '(runs, now, log) => (append_request_log runs now log t).2) empty_log calls.

Record log_wf (t : log_table) : Prop := {
  log_below : Forall (fun r => 0 < log_id r < next_log_id t) (log_rows t);
  log_distinct : NoDup (log_id <$> log_rows t);
  log_started : 0 < next_log_id t;
}.

Lemma append_wf runs now log t : log_wf t -> log_wf (append_request_log runs now log t).2.
Proof.
  intros [Hb Hd Hn]. unfold append_request_log. destruct (_ || _); [done|]. destruct (sql_real _); [|done].
  split; cbn [snd log_rows next_log_id]; [|rewrite fmap_app; apply NoDup_app; split_and!; [done| |apply NoDup_singleton]|lia].
  - apply Forall_app. split; [|by constructor; [cbn; lia|]]. eapply Forall_impl; [exact Hb|]. cbn. lia.
  - intros i (r & -> & Hr)%list_elem_of_fmap E%list_elem_of_singleton. rewrite Forall_forall in Hb.
    specialize (Hb _ Hr). cbn in Hb, E. lia.
Qed.

Lemma log_run_wf calls : log_wf (log_run calls).
Proof.
  unfold log_run. assert (log_wf empty_log) as H by (split; cbn; [done|constructor|done]). revert H. generalize empty_log.
  induction calls as [|[[runs now] log] calls IH]; intros t H; [done|]. apply IH. by apply append_wf.
Qed.

Lemma pages_concat {A} (n m : nat) (l : list A) :
  concat ((fun k => take n (drop (k * n) l)) <$> seq 0 m) = take (m * n) l.
Proof.
  induction m as [|m IH]; [done|]. rewrite seq_S, fmap_app, concat_app, IH. cbn. rewrite app_nil_r, take_take_drop. f_equal. lia.
Qed.

Lemma newest_sorted t : StronglySorted newest_first (newest t) /\ newest t ≡ₚ log_rows t.
Proof. split; [apply (StronglySorted_merge_sort newest_first)|apply merge_sort_Permutation]. Qed.

Lemma sint64_small z : 0 <= z < 2 ^ 63 -> sint 64 z = z.
Proof. intros H. unfold sint. rewrite Z.mod_small by lia. by rewrite (proj2 (Z.ltb_lt _ _)) by lia. Qed.

Lemma clamped_between limit : 0 <= limit -> 1 <= clamped_limit limit <= kMaxLimit.
Proof. unfold clamped_limit, kMaxLimit. destruct (Z.eqb_spec limit 0); lia. Qed.

(** Pages partition the log: whatever was written, and whichever of it failed,
    the pages of any size that follow one another hold the entries from the
    newest on, each of them once and none left out, a page never more than 500;
    as soon as they reach beyond the log they hold all of it. *)
Theorem log_pages_partition calls runs limit m :
  (forall st, runs st = true) -> 0 <= limit -> Z.of_nat m * clamped_limit limit < 2 ^ 63 ->
  let t := log_run calls in
  let page k := logs (list_request_logs runs true limit (Z.of_nat k * clamped_limit limit) t) in
  let pages := concat (page <$> seq 0 m) in
  (forall k, (k < m)%nat -> size_of (page k) <= kMaxLimit) /\
  NoDup (log_id <$> pages) /\ StronglySorted newest_first pages /\
  (size_of (log_rows t) <= Z.of_nat m * clamped_limit limit -> pages ≡ₚ log_rows t).
Proof.
  intros Hr Hl Hm t page pages. pose proof (clamped_between limit Hl) as Hc. set (n := Z.to_nat (clamped_limit limit)).
  assert (Forall (fun k => page k = take n (drop (k * n) (newest t))) (seq 0 m)) as Hp.
  { apply Forall_seq. intros k Hk. unfold page, list_request_logs, list_recent_request_logs, sql_page. rewrite !Hr. cbn [negb logs orb].
    destruct (Z.eqb_spec (clamped_limit limit) 0); [lia|]. cbn [orb].
    assert (0 <= Z.of_nat k * clamped_limit limit < 2 ^ 63) as Hoff.
    { split; [lia|]. eapply Z.le_lt_trans; [|exact Hm]. apply Z.mul_le_mono_nonneg_r; lia. }
    rewrite !sint64_small by (unfold kMaxLimit in *; lia).
    destruct (Z.ltb_spec (clamped_limit limit) 0); [lia|]. unfold n, newest. do 2 f_equal. nia. }
  assert (pages = take (m * n) (newest t)) as Epages.
  { unfold pages. rewrite <- pages_concat. f_equal. apply Forall_fmap_ext. eapply Forall_impl; [exact Hp|]. done. }
  destruct (newest_sorted t) as [Hs Hperm]. pose proof (log_run_wf calls) as [_ Hd _]. fold t in Hd.
  rewrite <- (take_drop (m * n) (newest t)) in Hs. split_and!.
  - intros k Hk. rewrite Forall_seq in Hp. rewrite Hp by lia. unfold size_of. rewrite length_take. unfold kMaxLimit in *. lia.
  - rewrite <- Hperm in Hd. rewrite <- (take_drop (m * n) (newest t)), fmap_app in Hd. rewrite Epages. by apply NoDup_app in Hd as [].
  - rewrite Epages. by apply StronglySorted_app_1_l in Hs.
  - intros Hsize. rewrite Epages, take_ge; [done|]. rewrite Hperm. unfold size_of in Hsize. unfold n. nia.
Qed.

Definition sample_write (path : bytes) : RequestLogWrite :=
  mkLogWrite None path $"POST" 200 None None None None false None f_zero None None.

Lemma log_pages_partition_witness :
  let t := log_run [((fun _ => true), 5, sample_write $"/a"); ((fun _ => true), 7, sample_write $"/b"); ((fun _ => true), 6, sample_write $"/c")] in
  concat ((fun k => logs (list_request_logs (fun _ => true) true 2 (Z.of_nat k * clamped_limit 2) t)) <$> seq 0 2) ≡ₚ log_rows t.
Proof.
  exact (proj2 (proj2 (proj2 (log_pages_partition
    [((fun _ => true), 5, sample_write $"/a"); ((fun _ => true), 7, sample_write $"/b"); ((fun _ => true), 6, sample_write $"/c")]
    (fun _ => true) 2 2 (fun _ => eq_refl) ltac:(lia) ltac:(vm_compute; reflexivity)))) ltac:(vm_compute; congruence)).
Defined.
