(* ===== verification/AccountsController.v ===== *)
(** * AccountsController: the administration of accounts

    src/native/server/controllers/src/accounts_controller.cpp over the tables
    of [Accounts] and [RequestLogs], the refresh of [TokenRefresh], the usage
    of [Usage] and the counters of [AccountTraffic].  The calls run on the
    thread of the server, the refreshes of tokens and usage on those of its
    executor, each with a connection of its own: a call is a [Task], the
    sequence of its uses of the database and of the provider, and the uses of
    several tasks come between each other in any order.  A use of the
    repository is one step, with statements of its own that may fail. *)

From S2P Require Import Prelude Text Except Env Double Fernet TokenStore JsonValue Pricing OAuthProvider AccountTraffic Usage RequestLogs TokenRefresh Accounts.
Import Text.Ascii Text.Find.

(** ** What is answered *)

Record AccountPayload := mkPayload {
  payload_account_id : bytes;
  payload_email : bytes;
  payload_provider : bytes;
  payload_status : bytes;
  payload_pinned : bool;
  payload_plan_type : option bytes;
  payload_primary_percent : option Z;
  payload_secondary_percent : option Z;
  payload_primary_window : option Z;
  payload_secondary_window : option Z;
  payload_primary_reset : option Z;
  payload_secondary_reset : option Z;
  requests_24h : option Z;
  total_cost_24h_usd : option double;
  cost_norm : option double;
}.

(** The payload of an answer that has none. *)
Definition empty_payload : AccountPayload := mkPayload [] [] [] [] false None None None None None None None None None None.

Record Response (A : Type) := mkResponse { response_status : Z; response_code : bytes; response_message : bytes; response_body : A }.
Arguments mkResponse {A}.
Arguments response_status {A}.
Arguments response_code {A}.
Arguments response_message {A}.
Arguments response_body {A}.

Definition refuse {A} (body : A) (code : Z) (name message : bytes) : Response A := mkResponse code name message body.
Definition answer_with {A} (code : Z) (body : A) : Response A := mkResponse code [] [] body.

Definition db_unavailable {A} (body : A) : Response A := refuse body 500 $"db_unavailable" $"Database unavailable".

(** ** Helpers *)

Definition parse_account_id (value : bytes) : option Z :=
  match value with
  | [] => None
  | _ => match from_chars true (- 2 ^ 63) (2 ^ 63 - 1) value with
         | Some parsed => if parsed <=? 0 then None else Some parsed
         | None => None
         end
  end.

Record AccountUsageCostSnapshot := mkCost { snapshot_requests : Z; snapshot_total_cost : double; snapshot_norm : double }.

Definition cost_snapshot (max_total_cost : double) (a : AccountRequestCostAggregate) : AccountUsageCostSnapshot :=
  let clamped := fmax f_zero (aggregate_total_cost a) in
  mkCost (aggregate_requests a) clamped
    (if flt f_zero max_total_cost then clamp_unit (fdiv clamped max_total_cost) else f_zero).

Definition max_total_cost (aggregates : list AccountRequestCostAggregate) : double :=
  foldl (fun most a => fmax most (fmax f_zero (aggregate_total_cost a))) f_zero aggregates.

Definition load_account_usage_cost_map (aggregates : list AccountRequestCostAggregate) : gmap Z AccountUsageCostSnapshot :=
  foldl (fun costs a => <[aggregate_account_id a := cost_snapshot (max_total_cost aggregates) a]> costs) ∅ aggregates.

Definition normalize_account_status (s : bytes) : bytes :=
  let normalized := to_lower_ascii (trim_ascii s) in
  if bool_decide (normalized = $"quota_exceeded") then $"quota_blocked" else normalized.

Definition to_payload (costs : gmap Z AccountUsageCostSnapshot) (r : AccountRecord) : AccountPayload :=
  let cost := costs !! record_id r in
  mkPayload (to_string (record_id r)) (record_email r) (record_provider r) (normalize_account_status (record_status r))
    (record_pinned r) (record_plan_type r) (record_primary_percent r) (record_secondary_percent r) (record_primary_window r)
    (record_secondary_window r) (record_primary_reset r) (record_secondary_reset r)
    (snapshot_requests <$> cost) (snapshot_total_cost <$> cost) (snapshot_norm <$> cost).

Definition AccountMutationResponse := Response AccountPayload.

Definition not_found : AccountMutationResponse := refuse empty_payload 404 $"account_not_found" $"Account not found".

Definition account_not_active : AccountMutationResponse :=
  refuse empty_payload 400 $"account_not_active" $"Only active accounts can be pinned".

Definition normalized_percent (value : option Z) : option Z := (fun v => Z.max 0 (Z.min 100 v)) <$> value.

Definition normalized_window_seconds (value : option Z) : option Z :=
  match value with Some v => if v <=? 0 then None else Some v | None => None end.

Definition kMaxUnixSecondsBeforeMsLikely : Z := 10000000000.

Definition normalized_reset_at_ms (window : UsageWindowSnapshot) (captured_now_ms : Z) : option Z :=
  let relative :=
    match reset_after_seconds window with
    | Some after =>
        if after <=? 0 then None
        else if 2 ^ 63 - 1 - after * 1000 <? captured_now_ms then None else Some (captured_now_ms + after * 1000)
    | None => None
    end in
  match reset_at window with
  | Some at_ => if 0 <? at_ then Some (if kMaxUnixSecondsBeforeMsLikely <? at_ then at_ else at_ * 1000) else relative
  | None => relative
  end.

Definition is_hard_blocked_account_status (s : bytes) : bool := bool_decide (s ∈ [$"paused"; $"deactivated"]).

Definition is_recoverable_account_status (s : bytes) : bool :=
  bool_decide (s ∈ [[]; $"active"; $"rate_limited"; $"quota_blocked"]).

Definition usage_validation_indicates_deactivated (v : UsageValidationResult) : bool :=
  if negb (validation_status_code v =? 401) && negb (validation_status_code v =? 403) then false
  else bool_decide (to_lower_ascii (trim_ascii (validation_error_code v)) = $"account_deactivated") ||
       contains (to_lower_ascii (validation_message v)) $"deactivat".

Definition usage_validation_requires_token_refresh (v : UsageValidationResult) : bool :=
  (validation_status_code v =? 401) && negb (usage_validation_indicates_deactivated v).

(** [": code=..., detail"] as far as there is one. *)
Definition failure_detail (error_code detail : bytes) : bytes :=
  $": " ++ (if bool_decide (error_code = []) then [] else $"code=" ++ error_code) ++
  (if bool_decide (detail = []) then [] else (if bool_decide (error_code = []) then [] else $", ") ++ detail).

Definition for_account (account_label : bytes) : bytes :=
  let label := trim_ascii account_label in if bool_decide (label = []) then [] else $" for " ++ label.

Definition usage_refresh_failure_message (v : UsageValidationResult) (account_label : bytes) : bytes :=
  let code := validation_status_code v in
  let error_code := trim_ascii (validation_error_code v) in
  let detail := trim_ascii (validation_message v) in
  $"Failed to fetch usage telemetry from provider" ++ for_account account_label ++
  (if 0 <? code then $" (HTTP " ++ to_string code ++ $")" else []) ++
  (if bool_decide (error_code = []) && bool_decide (detail = [])
   then (if code <=? 0 then $": no upstream status returned" else [])
   else failure_detail error_code detail).

Definition token_refresh_failure_message (r : RefreshAccessTokenResult) (account_label : bytes) : bytes :=
  let error_code := trim_ascii (refresh_error_code r) in
  let detail := trim_ascii (refresh_error_message r) in
  $"Failed to refresh account token" ++ for_account account_label ++
  (if bool_decide (error_code = []) && bool_decide (detail = []) then [] else failure_detail error_code detail).

Definition is_free_plan_type (plan : bytes) : bool :=
  let normalized := to_lower_ascii (trim_ascii plan) in
  if bool_decide (normalized = []) then false else contains normalized $"free" || contains normalized $"guest".

Definition at_least (percent : option Z) (limit : Z) : bool := match percent with Some p => limit <=? p | None => false end.

Definition reconcile_account_status_from_usage (current : bytes) (primary secondary : option Z) (plan : bytes) : bytes :=
  let s := normalize_account_status current in
  if is_hard_blocked_account_status s || negb (is_recoverable_account_status s) then s
  else
    let s := if bool_decide (s = []) then $"active" else s in
    if is_free_plan_type plan then
      match (match primary with Some _ => primary | None => secondary end) with
      | Some weekly =>
          if 100 <=? weekly then $"quota_blocked"
          else if bool_decide (s = $"quota_blocked") || bool_decide (s = $"rate_limited") then $"active" else s
      | None => s
      end
    else if at_least secondary 100 then $"quota_blocked"
    else
      let s := if bool_decide (is_Some secondary) && bool_decide (s = $"quota_blocked") then $"active" else s in
      if at_least primary 100 then $"rate_limited"
      else if bool_decide (is_Some primary) && bool_decide (s = $"rate_limited") then $"active" else s.

(** The label of an account in a message. *)
Definition account_label (r : AccountRecord) : bytes :=
  if bool_decide (record_email r = []) then to_string (record_id r) else record_email r.

(** ** The controller *)

(** What one call finds: whether the database opens, what runs at its n-th use
    of the repository, and the time.  [sum] is that of SQLite; [transfer] the
    n-th request to the provider of usage. *)
Record ControllerEnv := mkControllerEnv {
  opened : bool;
  runs_at : nat -> Statement -> bool;
  log_runs : LogStatement -> bool;
  sum : list double -> option double;
  refresh_env : RefreshEnv;
  vars : environment;
  transfer : nat -> UsageHttpRequest -> Transfer;
  nonce_at : nat -> bytes;
  import_nonce : nat -> bytes;
  migration_nonce : Z -> nat -> bytes;
  now_s : Z;
  now_ms : Z;
}.

(** The database, the logs, and the usage of the process. *)
Record AdminState := mkAdmin { tables : RefreshTable; request_log : log_table; usage_state : UsageState }.

Definition table (s : AdminState) : accounts_table := refresh_accounts (tables s).
Definition set_tables (t : RefreshTable) (s : AdminState) : AdminState := mkAdmin t (request_log s) (usage_state s).
Definition set_table (t : accounts_table) (s : AdminState) : AdminState :=
  set_tables (mkRefresh t (refresh_columns (tables s))) s.
Definition set_usage (u : UsageState) (s : AdminState) : AdminState := mkAdmin (tables s) (request_log s) u.

(** *** Tasks

    A call is a sequence of uses of the database, of the provider and of what
    it keeps; what other calls and refreshes do comes between them.  A use of
    the repository is one step. *)
Inductive Task (A : Type) :=
| Finished (a : A)
| Use (f : ControllerEnv -> AdminState -> Task A * AdminState).
Arguments Finished {A}.
Arguments Use {A}.

#[global] Instance task_ret : MRet Task := fun A a => Finished a.
#[global] Instance task_bind : MBind Task :=
  fun A B k => fix bind (t : Task A) : Task B :=
    match t with
    | Finished a => k a
    | Use f => Use (fun e s => let '(t, s) := f e s in (bind t, s))
    end.

Definition use {A} (f : ControllerEnv -> AdminState -> A * AdminState) : Task A :=
  Use (fun e s => let '(a, s) := f e s in (Finished a, s)).

(** A task that nothing interrupts. *)
Fixpoint complete {A} (t : Task A) (e : ControllerEnv) (s : AdminState) : A * AdminState :=
  match t with
  | Finished a => (a, s)
  | Use f => let '(t, s) := f e s in complete t e s
  end.

Section controller.
Context {sodium : Sodium} {codec : JsonCodec}.
Context (crypto : TokenStorageCryptoState).

Definition find_account_record (runs : Statement -> bool) (account_id : Z) (s : AdminState) : option AccountRecord :=
  List.find (fun r => record_id r =? account_id) (Accounts.list_accounts runs (table s)).

Definition find_at (n : nat) (i : Z) : Task (option AccountRecord) :=
  use (fun e s => (find_account_record (runs_at e n) i s, s)).

Definition cost_map (e : ControllerEnv) (s : AdminState) : gmap Z AccountUsageCostSnapshot :=
  load_account_usage_cost_map (list_account_request_cost_aggregates (log_runs e) (sum e) (now_s e) 24 (request_log s)).

Definition list_accounts (e : ControllerEnv) (s : AdminState) : Response (list AccountPayload) :=
  if negb (opened e) then db_unavailable []
  else answer_with 200 (to_payload (cost_map e s) <$> Accounts.list_accounts (runs_at e 0%nat) (table s)).

(** A use of the repository that may change the accounts. *)
Definition on_accounts {A} (f : ControllerEnv -> accounts_table -> A * accounts_table) : Task A :=
  use (fun e s => let '(a, t) := f e (table s) in (a, set_table t s)).

(** Each call opens the database first. *)
Definition with_database {A} (body : A) (k : Task (Response A)) : Task (Response A) :=
  ready ← use (fun e s => (opened e, s));
  if negb ready then mret (db_unavailable body) else k.

(** The payload of a row that a statement returned, without costs. *)
Definition import_account (email provider : bytes) : Task AccountMutationResponse :=
  with_database empty_payload (
    created ← on_accounts (fun e => Accounts.import_account (runs_at e 0%nat) email provider (now_s e));
    mret (match created with
          | Some r => answer_with 201 (to_payload ∅ r)
          | None => refuse empty_payload 400 $"invalid_account_import" $"Invalid account payload"
          end)).

Definition import_account_with_tokens (email provider access_token refresh_token : bytes) : Task AccountMutationResponse :=
  with_database empty_payload (
    result ← on_accounts (fun e => upsert_oauth_account (runs_at e 0%nat) crypto (import_nonce e)
               (mkOauthAccount email provider None None access_token refresh_token []) (now_s e));
    mret (match result with
          | Some r => answer_with 201 (to_payload ∅ r)
          | None => refuse empty_payload 400 $"invalid_account_import" $"Failed to import account with tokens"
          end)).

(** The row after a change. *)
Definition answer_record (costs : gmap Z AccountUsageCostSnapshot) (record : option AccountRecord) : AccountMutationResponse :=
  match record with Some r => answer_with 200 (to_payload costs r) | None => not_found end.

(** The row at the n-th use, without and with its costs. *)
Definition answer_found (n : nat) (i : Z) : Task AccountMutationResponse :=
  updated ← find_at n i;
  mret (answer_record ∅ updated).

Definition answer_costs (n : nat) (i : Z) : Task AccountMutationResponse :=
  updated ← find_at n i;
  match updated with
  | None => mret not_found
  | Some _ => costs ← use (fun e s => (cost_map e s, s)); mret (answer_record costs updated)
  end.

(** The calls that name an account begin alike. *)
Definition with_account (account_id : bytes) (k : Z -> Task AccountMutationResponse) : Task AccountMutationResponse :=
  with_database empty_payload (match parse_account_id account_id with Some i => k i | None => mret not_found end).

(** The status is read, and then, by statements of their own, the pin set. *)
Definition pin_account (account_id : bytes) : Task AccountMutationResponse :=
  with_account account_id (fun i =>
    existing ← find_at 0 i;
    match existing with
    | None => mret not_found
    | Some existing =>
        if negb (bool_decide (normalize_account_status (record_status existing) = $"active")) then mret account_not_active
        else
          pinned ← on_accounts (fun e => set_account_routing_pinned (runs_at e 1%nat) i true (now_s e));
          if negb pinned then mret not_found else answer_found 2 i
    end).

Definition unpin_account (account_id : bytes) : Task AccountMutationResponse :=
  with_account account_id (fun i =>
    unpinned ← on_accounts (fun e => set_account_routing_pinned (runs_at e 0%nat) i false (now_s e));
    if negb unpinned then mret not_found else answer_found 1 i).

Definition set_account_status (new_status : bytes) (account_id : bytes) : Task AccountMutationResponse :=
  with_account account_id (fun i =>
    updated ← on_accounts (fun e => update_account_status (runs_at e 0%nat) i new_status (now_s e));
    mret (answer_record ∅ updated)).

Definition pause_account := set_account_status $"paused".
Definition reactivate_account := set_account_status $"active".

Definition delete_account (account_id : bytes) : Task AccountMutationResponse :=
  with_account account_id (fun i =>
    deleted ← on_accounts (fun e => Accounts.delete_account (runs_at e 0%nat) i);
    mret (if (deleted : bool) then answer_with 200 empty_payload else not_found)).

(** The credentials of an account at the n-th use. *)
Definition credentials_at (n : nat) (i : Z) : Task (option AccountUsageCredentials) :=
  on_accounts (fun e => account_usage_credentials (runs_at e n) crypto (nonce_at e n) i (now_s e)).

(** [refresh_access_token_for_account]: the tokens are read, the provider is
    asked, and what it answers is written. *)
Definition refresh_access_token (account : bytes) : Task RefreshAccessTokenResult :=
  if bool_decide (account = []) then mret (refresh_failure $"invalid_account" $"chatgpt-account-id is required")
  else
    stored ← use (fun e s => let '(stored, t) := find_active_account_tokens (refresh_env e) account (tables s) in (stored, set_tables t s));
    match stored with
    | None => mret (refresh_failure $"account_not_found" $"Active account tokens were not found")
    | Some stored => use (fun e s => let '(r, t) := refresh_end (refresh_env e) stored (tables s) in (r, set_tables t s))
    end.

Definition refresh_account_token (account_id : bytes) : Task AccountMutationResponse :=
  with_account account_id (fun i =>
    existing ← find_at 0 i;
    match existing with
    | None => mret not_found
    | Some existing =>
        credentials ← credentials_at 1 i;
        match credentials with
        | None =>
            mret (refuse empty_payload 400 $"account_token_refresh_unavailable" $"Account token refresh credentials are unavailable")
        | Some c =>
            refresh ← refresh_access_token (usage_account_id c);
            if negb (refreshed refresh)
            then mret (refuse empty_payload 502 $"token_refresh_failed" (token_refresh_failure_message refresh (account_label existing)))
            else answer_costs 2 i
        end
    end).

(** *** Refreshing the usage of an account *)

Definition fetch (n : nat) (c : AccountUsageCredentials) : Task (option UsagePayloadSnapshot) :=
  use (fun e s =>
    let '(snapshot, u) := fetch_usage_payload (vars e) (transfer e n) (usage_access_token c) (usage_account_id c) None (usage_state s) in
    (snapshot, set_usage u s)).

Definition validate (n : nat) (c : AccountUsageCredentials) : Task UsageValidationResult :=
  use (fun e s => (validate_usage_identity (vars e) (transfer e n) (usage_access_token c) (usage_account_id c) None (usage_state s), s)).

(** The answer of the provider, or why there is none, with the credentials
    that were last tried; a token it does not take is refreshed once. *)
Definition ask_provider (i : Z) (c : AccountUsageCredentials) :
    Task (UsagePayloadSnapshot + UsageValidationResult * AccountUsageCredentials) :=
  snapshot ← fetch 0 c;
  match snapshot with
  | Some snapshot => mret (inl snapshot)
  | None =>
      validation ← validate 1 c;
      if negb (usage_validation_requires_token_refresh validation) then mret (inr (validation, c))
      else
        refresh ← refresh_access_token (usage_account_id c);
        if negb (refreshed refresh) then mret (inr (validation, c))
        else
          credentials ← credentials_at 2 i;
          match credentials with
          | None => mret (inr (validation, c))
          | Some c =>
              snapshot ← fetch 2 c;
              match snapshot with
              | Some snapshot => mret (inl snapshot)
              | None => validation ← validate 3 c; mret (inr (validation, c))
              end
          end
  end.

(** Without an answer the identity is validated once more, and what comes of it
    dropped: the argument of [value_or] is evaluated in any case. *)
Definition usage_ask (i : Z) (c : AccountUsageCredentials) : Task (UsageValidationResult + UsagePayloadSnapshot) :=
  asked ← ask_provider i c;
  match asked with
  | inl snapshot => mret (inr snapshot)
  | inr (validation, c) => _ ← validate 4 c; mret (inl validation)
  end.

(** What is written for an account that is found deactivated. *)
Definition deactivated_telemetry : Telemetry := mkTelemetry None None None (Some $"deactivated") None None None None.

Definition window_of (select : UsageRateLimitDetails -> option UsageWindowSnapshot) (snapshot : UsagePayloadSnapshot) :
    option UsageWindowSnapshot := limit ← rate_limit snapshot; select limit.

Definition telemetry_of (existing : AccountRecord) (snapshot : UsagePayloadSnapshot) (captured_now_ms : Z) : Telemetry :=
  let primary := window_of primary_window snapshot in
  let secondary := window_of secondary_window snapshot in
  let primary_percent := normalized_percent (primary ≫= used_percent) in
  let secondary_percent := normalized_percent (secondary ≫= used_percent) in
  let plan := trim_ascii (Usage.plan_type snapshot) in
  let next_plan := if bool_decide (plan = []) then None else Some plan in
  let plan_for_status := match next_plan with Some p => p | None => default [] (record_plan_type existing) end in
  mkTelemetry primary_percent secondary_percent next_plan
    (Some (reconcile_account_status_from_usage (record_status existing) primary_percent secondary_percent plan_for_status))
    (normalized_window_seconds (primary ≫= limit_window_seconds)) (normalized_window_seconds (secondary ≫= limit_window_seconds))
    (primary ≫= fun w => normalized_reset_at_ms w captured_now_ms) (secondary ≫= fun w => normalized_reset_at_ms w captured_now_ms).

(** The telemetry of the time at which it is written, and the row after it. *)
Definition record_telemetry (i : Z) (u : Z -> Telemetry) : Task AccountMutationResponse :=
  updated ← on_accounts (fun e => update_account_usage_telemetry (runs_at e 3%nat) i (u (now_ms e)) (now_s e));
  if negb updated
  then mret (refuse empty_payload 500 $"usage_refresh_persist_failed" $"Failed to persist usage telemetry")
  else answer_costs 4 i.

Definition usage_end (i : Z) (existing : AccountRecord) (asked : UsageValidationResult + UsagePayloadSnapshot) :
    Task AccountMutationResponse :=
  match asked with
  | inl validation =>
      if usage_validation_indicates_deactivated validation then record_telemetry i (fun _ => deactivated_telemetry)
      else mret (refuse empty_payload 502 $"usage_refresh_failed" (usage_refresh_failure_message validation (account_label existing)))
  | inr snapshot => record_telemetry i (telemetry_of existing snapshot)
  end.

Definition refresh_account_usage (account_id : bytes) : Task AccountMutationResponse :=
  with_account account_id (fun i =>
    existing ← find_at 0 i;
    match existing with
    | None => mret not_found
    | Some existing =>
        credentials ← credentials_at 1 i;
        match credentials with
        | None => mret (refuse empty_payload 400 $"account_usage_unavailable" $"Account usage credentials are unavailable")
        | Some c => asked ← usage_ask i c; usage_end i existing asked
        end
    end).

(** *** Tokens and traffic *)

Record AccountTokenMigrationPayload := mkMigrationPayload {
  migration : TokenStorageMigrationResult;
  dry_run : bool;
  strict_mode_enabled : bool;
  migrate_plaintext_on_read_enabled : bool;
}.

Definition no_migration : AccountTokenMigrationPayload := mkMigrationPayload (mkMigrationResult 0 0 0 0 0 0) false false true.

Definition migrate_account_token_storage (dry : bool) : Task (Response AccountTokenMigrationPayload) :=
  with_database no_migration (
    match (if dry then Ret tt else token_storage_encryption_ready crypto) with
    | Throw encryption_error =>
        mret (refuse no_migration 400 $"token_encryption_not_ready"
                (if bool_decide (encryption_error = []) then $"Token encryption key is not configured" else encryption_error))
    | Ret _ =>
        migrated ← on_accounts (fun e =>
                     migrate_plaintext_account_tokens (runs_at e 0%nat) crypto (migration_nonce e) dry (now_s e));
        mret (match migrated with
              | None => refuse no_migration 500 $"token_migration_failed" $"Failed to migrate account token storage"
              | Some m => answer_with 200 (mkMigrationPayload m dry (negb (token_storage_plaintext_allowed crypto))
                                             token_storage_migrate_plaintext_on_read_enabled)
              end)
    end).

Record AccountTrafficResponse := mkTrafficResponse { generated_at_ms : Z; traffic_accounts : list AccountTrafficSnapshot }.

Definition list_account_proxy_traffic (e : ControllerEnv) (traffic : TrafficState) : Response AccountTrafficResponse :=
  if negb (opened e) then db_unavailable (mkTrafficResponse 0 [])
  else answer_with 200
         (mkTrafficResponse (now_ms e)
            (filter (fun a => AccountTraffic.account_id a <> []) (snapshot_account_traffic traffic))).

End controller.

(** ** The status after a refresh of usage *)

Lemma normalize_account_status_idem s : normalize_account_status (normalize_account_status s) = normalize_account_status s.
Proof.
  unfold normalize_account_status at 2 3. case_bool_decide as E; [by vm_compute|]. unfold normalize_account_status.
  by rewrite trim_lower, trim_ascii_idem, to_lower_ascii_idem, bool_decide_false.
Qed.

Definition recoverable (current : bytes) : Prop := normalize_account_status current ∈ [[]; $"active"; $"rate_limited"; $"quota_blocked"].

Definition status_from (percent : Z) (blocked otherwise : bytes) : bytes := if 100 <=? percent then blocked else otherwise.

Lemma reconcile_kept current primary secondary plan : ~ recoverable current ->
  reconcile_account_status_from_usage current primary secondary plan = normalize_account_status current.
Proof.
  intros H. unfold reconcile_account_status_from_usage, is_recoverable_account_status. rewrite (bool_decide_false _ H). by rewrite orb_true_r.
Qed.

Lemma reconcile_open current primary secondary plan : recoverable current ->
  let s := if bool_decide (normalize_account_status current = []) then $"active" else normalize_account_status current in
  s ∈ [$"active"; $"rate_limited"; $"quota_blocked"] /\
  reconcile_account_status_from_usage current primary secondary plan =
    if is_free_plan_type plan then
      match (match primary with Some _ => primary | None => secondary end) with
      | Some weekly => status_from weekly $"quota_blocked" $"active"
      | None => s
      end
    else match secondary, primary with
      | Some q, Some p => status_from q $"quota_blocked" (status_from p $"rate_limited" $"active")
      | Some q, None => status_from q $"quota_blocked" (if bool_decide (s = $"rate_limited") then s else $"active")
      | None, Some p => status_from p $"rate_limited" (if bool_decide (s = $"quota_blocked") then s else $"active")
      | None, None => s
      end.
Proof.
  unfold recoverable. intros H. unfold reconcile_account_status_from_usage, is_recoverable_account_status, is_hard_blocked_account_status.
  rewrite (bool_decide_true _ H). revert H. generalize (normalize_account_status current). clear. intros s H.
  rewrite !elem_of_cons in H. destruct H as [->|[->|[->|[->|H%elem_of_nil]]]]; [..|done];
    (split; [apply (bool_decide_unpack _); by vm_compute|]); unfold status_from, at_least;
    destruct (is_free_plan_type plan), primary, secondary; cbn; repeat (case_match; cbn); done.
Qed.

(** What a refresh makes of a status: paused, deactivated and unknown ones
    stay; any other becomes one of the three that usage decides, which with
    both percentages known, or one of a free plan, depends on them alone; and
    the same usage again changes nothing. *)
Theorem usage_decides_status current primary secondary plan :
  let s := reconcile_account_status_from_usage current primary secondary plan in
  reconcile_account_status_from_usage s primary secondary plan = s /\
  (~ recoverable current -> s = normalize_account_status current) /\
  (recoverable current ->
     s ∈ [$"active"; $"rate_limited"; $"quota_blocked"] /\
     (forall p q, is_free_plan_type plan = false -> primary = Some p -> secondary = Some q ->
        (s = $"active" <-> p < 100 /\ q < 100) /\ (s = $"quota_blocked" <-> 100 <= q)) /\
     (forall p, is_free_plan_type plan = true -> primary = Some p -> (s = $"active" <-> p < 100) /\ (s = $"quota_blocked" <-> 100 <= p))).
Proof.
  cbv zeta. destruct (decide (recoverable current)) as [Hr|Hr].
  2:{ rewrite (reconcile_kept current) by done. split_and!; try done. rewrite reconcile_kept; [apply normalize_account_status_idem|].
      unfold recoverable. by rewrite normalize_account_status_idem. }
  destruct (reconcile_open current primary secondary plan Hr) as [Hs E].
  set (s := reconcile_account_status_from_usage current primary secondary plan) in *.
  assert (s ∈ [$"active"; $"rate_limited"; $"quota_blocked"]) as Hin.
  { rewrite E. unfold status_from. repeat case_match; try done; apply (bool_decide_unpack _); by vm_compute. }
  split_and!; [|done|].
  - assert (normalize_account_status s = s /\ s <> []) as [En Hne].
    { rewrite !elem_of_cons in Hin. destruct Hin as [->|[->|[->|H%elem_of_nil]]]; done. }
    assert (recoverable s) as Hrs by (unfold recoverable; rewrite En; by right).
    destruct (reconcile_open s primary secondary plan Hrs) as [_ E']. rewrite E'. rewrite En, bool_decide_false by done.
    rewrite E. unfold status_from. repeat (case_match; cbn; try done); by (repeat case_bool_decide).
  - intros _. split; [done|]. split.
    + intros p q Hf -> ->. rewrite E, Hf. unfold status_from.
      destruct (Z.leb_spec 100 q), (Z.leb_spec 100 p); split; split; intros; try done; try lia.
    + intros p Hf ->. rewrite E, Hf. unfold status_from. destruct (Z.leb_spec 100 p); split; split; intros; try done; try lia.
Qed.

(** ** Calls and refreshes in any order *)

Inductive AdminCall :=
| ImportAccount (email provider : bytes)
| ImportWithTokens (email provider access_token refresh_token : bytes)
| PinAccount (account_id : bytes) | UnpinAccount (account_id : bytes)
| PauseAccount (account_id : bytes) | ReactivateAccount (account_id : bytes)
| DeleteAccount (account_id : bytes)
| RefreshToken (account_id : bytes) | RefreshUsage (account_id : bytes)
| MigrateTokens (dry : bool).

Inductive AdminAnswer :=
| Changed (answer : AccountMutationResponse)
| Migrated (answer : Response AccountTokenMigrationPayload).

(** A call under way, with what is left of it. *)
Record Running := mkRunning { running_call : AdminCall; running_task : Task AdminAnswer }.

(** A call begins as a task with a number of its own; a task makes its next
    use. *)
Inductive AdminEvent := StartCall (k : nat) (c : AdminCall) | Proceed (k : nat).

Record AdminWorld := mkWorld { admin : AdminState; tasks : gmap nat Running }.

Definition empty_admin : AdminWorld := mkWorld (mkAdmin (mkRefresh empty_accounts ∅) empty_log initial_usage) ∅.

(** *** What holds of every use of a task *)

Section steady.
Context (R : ControllerEnv -> AdminState -> AdminState -> Prop).

Inductive steady {A} : Task A -> Prop :=
| steady_finished a : steady (Finished a)
| steady_uses f : (forall e s, R e s (f e s).2) -> (forall e s, steady (f e s).1) -> steady (Use f).

Lemma steady_use {A} (f : ControllerEnv -> AdminState -> A * AdminState) : (forall e s, R e s (f e s).2) -> steady (use f).
Proof.
  intros H. constructor; intros e s; [specialize (H e s)|]; destruct (f e s); [exact H|constructor].
Qed.

Lemma steady_bind {A B} (t : Task A) (k : A -> Task B) : steady t -> (forall a, steady (k a)) -> steady (t ≫= k).
Proof.
  intros Ht Hk. induction Ht as [a|f HR _ IH]; [apply Hk|]. constructor; intros e s; cbn; specialize (HR e s); specialize (IH e s);
    by destruct (f e s).
Qed.

End steady.

Section runs.
Context {sodium : Sodium} {codec : JsonCodec} (crypto : TokenStorageCryptoState).

Definition changing (t : Task AccountMutationResponse) : Task AdminAnswer := r ← t; mret (Changed r).

Definition call_task (c : AdminCall) : Task AdminAnswer :=
  match c with
  | ImportAccount email provider => changing (import_account email provider)
  | ImportWithTokens email provider access refresh => changing (import_account_with_tokens crypto email provider access refresh)
  | PinAccount i => changing (pin_account i)
  | UnpinAccount i => changing (unpin_account i)
  | PauseAccount i => changing (pause_account i)
  | ReactivateAccount i => changing (reactivate_account i)
  | DeleteAccount i => changing (delete_account i)
  | RefreshToken i => changing (refresh_account_token crypto i)
  | RefreshUsage i => changing (refresh_account_usage crypto i)
  | MigrateTokens dry => r ← migrate_account_token_storage crypto dry; mret (Migrated r)
  end.

Definition admin_step (w : AdminWorld) (event : ControllerEnv * AdminEvent) : AdminWorld :=
  let '(e, event) := event in
  match event with
  | StartCall k c =>
      match tasks w !! k with
      | None => mkWorld (admin w) (<[k := mkRunning c (call_task c)]> (tasks w))
      | Some _ => w
      end
  | Proceed k =>
      match tasks w !! k with
      | Some (mkRunning c (Use f)) => let '(t, s) := f e (admin w) in mkWorld s (<[k := mkRunning c t]> (tasks w))
      | Some (mkRunning c (Finished _)) => mkWorld (admin w) (delete k (tasks w))
      | None => w
      end
  end.

Definition admin_run (w : AdminWorld) (events : list (ControllerEnv * AdminEvent)) : AdminWorld := foldl admin_step w events.

(** A call that nothing interrupts. *)
Definition call_step (e : ControllerEnv) (c : AdminCall) (s : AdminState) : AdminState := (complete (call_task c) e s).2.

(** ** What holds throughout *)

Definition percent_ok (percent : option Z) : Prop := forall p, percent = Some p -> 0 <= p <= 100.
Definition positive (value : option Z) : Prop := forall v, value = Some v -> 0 < v.

Record quotas_ok (primary secondary primary_window secondary_window primary_reset secondary_reset : option Z) : Prop := {
  ok_primary : percent_ok primary;
  ok_secondary : percent_ok secondary;
  ok_primary_window : positive primary_window;
  ok_secondary_window : positive secondary_window;
  ok_primary_reset : positive primary_reset;
  ok_secondary_reset : positive secondary_reset;
}.

(** The quotas are in their ranges; when [strict], only an active account is
    pinned. *)
Section sound.
Context (strict : bool).

Record row_ok (r : AccountRow) : Prop := {
  row_pin : strict = true -> pinned r = true -> normalize_account_status (status r) = $"active";
  row_quotas : quotas_ok (quota_primary_percent r) (quota_secondary_percent r) (quota_primary_limit_window_seconds r)
    (quota_secondary_limit_window_seconds r) (quota_primary_reset_at_ms r) (quota_secondary_reset_at_ms r);
}.

Definition table_ok (t : accounts_table) : Prop := wf t /\ Forall row_ok (rows t).

Lemma update_ok p f t :
  (forall r, id (f r) = id r) -> (forall r, pinned (f r) = true -> pinned r = true) ->
  (forall r, r ∈ rows t -> p r = true -> row_ok r -> row_ok (f r)) -> table_ok t -> table_ok (update_where p f t).2.
Proof.
  intros Hi Hp Hf [Hw Hr]. split; [by apply update_where_wf|]. unfold update_where. cbn [snd rows]. apply Forall_fmap.
  apply Forall_forall. intros r Hin. rewrite Forall_forall in Hr. specialize (Hr r Hin). cbn. destruct (p r) eqn:E; [by apply Hf|done].
Qed.

Ltac row_cbn := unfold pinned; cbn [id status routing_pinned quota_primary_percent quota_secondary_percent quota_primary_limit_window_seconds
  quota_secondary_limit_window_seconds quota_primary_reset_at_ms quota_secondary_reset_at_ms set_status set_pinned set_tokens set_access_token
  set_refreshed set_telemetry oauth_row new_row].

Lemma set_tokens_ok a b c now r : row_ok r -> row_ok (set_tokens a b c now r).
Proof. intros [H1 H2]. split; [exact H1|exact H2]. Qed.

Lemma set_refreshed_ok a b c now r : row_ok r -> row_ok (set_refreshed a b c now r).
Proof. intros [_ H2]. split; [by intros _ _|exact H2]. Qed.

Lemma set_status_ok new_status pin now r :
  (strict = true -> pin <> 0 -> normalize_account_status new_status = $"active") -> row_ok r -> row_ok (set_status new_status pin now r).
Proof. intros Hp [_ H2]. split; [|exact H2]. row_cbn. intros Hs H%negb_true_iff%Z.eqb_neq. by apply Hp. Qed.

Lemma oauth_row_ok i pin base account a b c now :
  row_ok base -> row_ok (oauth_row i pin base account a b c now).
Proof. intros [_ H2]. split; [by intros _ _|exact H2]. Qed.

Lemma new_row_ok i email provider now : row_ok (new_row i email provider now).
Proof. split; [done|]. by split. Qed.

Lemma set_telemetry_ok u now r :
  quotas_ok (new_primary_percent u) (new_secondary_percent u) (new_primary_window u) (new_secondary_window u)
    (new_primary_reset u) (new_secondary_reset u) -> row_ok (set_telemetry u now r).
Proof. intros Hq. split; [|exact Hq]. row_cbn. case_bool_decide as E; [by rewrite E|done]. Qed.

Lemma insert_ok r t : table_ok t -> id r = next_id t -> pinned r = false -> row_ok r -> table_ok (insert_account r t).
Proof.
  intros [Hw Hr] Hi Hp H. split; [by apply insert_wf|]. cbn. apply Forall_app. split; [done|by constructor].
Qed.

Lemma delete_ok P `{!forall x, Decision (P x)} t : table_ok t -> table_ok (mkAccounts (filter P (rows t)) (next_id t)).
Proof. intros [Hw Hr]. split; [by apply delete_wf|]. by apply Forall_filter. Qed.

(** What a task will write is in range. *)
Lemma telemetry_in_range existing snapshot now : 0 <= now ->
  let u := telemetry_of existing snapshot now in
  quotas_ok (new_primary_percent u) (new_secondary_percent u) (new_primary_window u) (new_secondary_window u)
    (new_primary_reset u) (new_secondary_reset u).
Proof.
  intros Hn u. subst u. unfold telemetry_of. cbn [new_primary_percent new_secondary_percent new_primary_window new_secondary_window new_primary_reset new_secondary_reset].
  assert (forall v, percent_ok (normalized_percent v)) as Hp.
  { intros [v|] p; [|done]. cbn. intros [= <-]. lia. }
  assert (forall v, positive (normalized_window_seconds v)) as Hw.
  { intros [v|] p; [|done]. cbn. destruct (Z.leb_spec v 0); [done|]. intros [= <-]. done. }
  assert (forall (w : option UsageWindowSnapshot), positive (w ≫= fun w => normalized_reset_at_ms w now)) as Hr.
  { intros [w|] v; [|done]. cbn. unfold normalized_reset_at_ms.
    assert (forall v, match reset_after_seconds w with
      | Some after => if after <=? 0 then None
        else if 2 ^ 63 - 1 - after * 1000 <? now then None else Some (now + after * 1000)
      | None => None end = Some v -> 0 < v) as Hrel.
    { intros v'. destruct (reset_after_seconds w) as [after|]; [|done]. destruct (Z.leb_spec after 0); [done|].
      destruct (_ <? now); [done|]. intros [= <-]. lia. }
    destruct (reset_at w) as [at_|]; [|apply Hrel]. destruct (Z.ltb_spec 0 at_); [|apply Hrel].
    intros [= <-]. destruct (_ <? at_); lia. }
  by split.
Qed.

(** *** Each use of the repository *)

Lemma import_ok runs email provider now t : table_ok t -> table_ok (Accounts.import_account runs email provider now t).2.
Proof. intros H. unfold Accounts.import_account. case_match; [done|]. apply insert_ok; [done..|apply new_row_ok]. Qed.

Lemma upsert_ok runs nonce account now t : table_ok t -> table_ok (upsert_oauth_account runs crypto nonce account now t).2.
Proof.
  intros H. unfold upsert_oauth_account. case_match; [done|].
  destruct (encrypt_token_for_storage crypto (nonce 0%nat) _); [|done]. destruct (encrypt_token_for_storage crypto (nonce 1%nat) _); [|done].
  destruct (encrypt_token_for_storage crypto (nonce 2%nat) _); [|done]. case_match; [done|]. destruct (List.find _ _) as [r|].
  - case_match; [done|]. cbn [snd]. apply update_ok; [done|done| |done]. intros r' _ _ Hr. by apply oauth_row_ok.
  - case_match; [done|]. cbn [snd]. apply insert_ok; [done..|apply oauth_row_ok, new_row_ok].
Qed.

Lemma update_status_ok runs i new_status now t :
  table_ok t -> table_ok (update_account_status runs i new_status now t).2.
Proof.
  intros H. unfold update_account_status. destruct (_ || _); [done|].
  assert (table_ok (update_where (has_id i) (fun r => set_status new_status
    (if bool_decide (new_status = $"active") then routing_pinned r else 0) now r) t).2) as Hu.
  { apply update_ok; [done| | |done].
    - intros r. row_cbn. by case_bool_decide.
    - intros r _ _ Hr. apply set_status_ok; [|done]. case_bool_decide as E; [by rewrite E|done]. }
  destruct (update_where _ _ t) as [changes t']. by destruct (changes =? 0).
Qed.

Lemma delete_account_ok runs i t : table_ok t -> table_ok (Accounts.delete_account runs i t).2.
Proof. intros H. unfold Accounts.delete_account. case_match; [done|]. by apply delete_ok. Qed.

Lemma unpin_ok runs i now t : table_ok t -> table_ok (set_account_routing_pinned runs i false now t).2.
Proof.
  intros H. unfold set_account_routing_pinned. case_match; [done|]. case_match; [done|].
  assert (table_ok (update_where (has_id i) (set_pinned 0 now) t).2) as Hu.
  { apply update_ok; [done|done| |done]. intros r _ _ Hr. by apply set_status_ok. }
  by destruct (update_where _ _ t).
Qed.

(** Pinning an account that is active. *)
Lemma pin_ok runs i now t :
  (strict = true -> forall r, r ∈ rows t -> id r = i -> normalize_account_status (status r) = $"active") -> table_ok t ->
  table_ok (set_account_routing_pinned runs i true now t).2.
Proof.
  intros Ha [Hw Hr]. split.
  { exact (accounts_step_wf (D := plain_digest) runs now t (SetPinned i true) Hw). }
  unfold set_account_routing_pinned. case_match; [done|]. case_match; [done|].
  set (cleared := (update_where _ _ t).2). destruct (update_where (has_id i) _ cleared) as [changes t'] eqn:E.
  case_match; [done|]. case_match; [done|]. cbn [snd]. unfold update_where in E. injection E as _ <-. cbn [rows].
  unfold cleared, update_where. cbn [snd rows]. rewrite <- list_fmap_compose. apply Forall_fmap. apply Forall_forall. intros r Hin.
  rewrite Forall_forall in Hr. specialize (Hr r Hin). cbn.
  assert (row_ok (if negb (routing_pinned r =? 0) then set_pinned 0 now r else r)) as Hcl.
  { case_match; [|done]. by apply set_status_ok. }
  assert (has_id i (if negb (routing_pinned r =? 0) then set_pinned 0 now r else r) = has_id i r) as -> by (by case_match).
  destruct (has_id i r) eqn:Ei; [|exact Hcl]. apply set_status_ok; [|exact Hcl]. intros Hs _.
  apply Z.eqb_eq in Ei. specialize (Ha Hs r Hin Ei). by destruct (routing_pinned r =? 0).
Qed.

Lemma credentials_ok runs nonce i now t : table_ok t -> table_ok (account_usage_credentials runs crypto nonce i now t).2.
Proof.
  intros H. unfold account_usage_credentials, normalize_access_token_storage. repeat case_match; simplify_eq; try done;
    (apply update_ok; [done|done| |done]; intros; by apply set_tokens_ok).
Qed.

Lemma telemetry_ok runs i u now t :
  quotas_ok (new_primary_percent u) (new_secondary_percent u) (new_primary_window u) (new_secondary_window u)
    (new_primary_reset u) (new_secondary_reset u) ->
  table_ok t -> table_ok (update_account_usage_telemetry runs i u now t).2.
Proof.
  intros Hq H. unfold update_account_usage_telemetry. destruct (_ || _); [done|].
  assert (table_ok (update_where (has_id i) (set_telemetry u now) t).2) as Hu.
  { apply update_ok; [done| | |done].
    - intros r. row_cbn. by case_bool_decide.
    - intros r _ _ _. by apply set_telemetry_ok. }
  by destruct (update_where _ _ t).
Qed.

Lemma migrate_ok runs nonce dry now t : table_ok t -> table_ok (migrate_plaintext_account_tokens runs crypto nonce dry now t).2.
Proof.
  intros [Hw Hr]. split.
  { exact (accounts_step_wf (D := plain_digest) runs now t (Accounts.MigrateTokens crypto nonce dry) Hw). }
  unfold migrate_plaintext_account_tokens. case_match; [done|]. destruct (map_rows _ _ _) as [[rs res]|] eqn:E; [|done].
  case_match; [done|]. cbn [snd rows].
  assert (Forall2 (fun r r' => row_ok r -> row_ok r') (rows t) rs) as Hall.
  { eapply map_rows_Forall2; [|exact E]. intros r res0 r' res'. unfold migrate_row. repeat case_match; intros; simplify_eq; try done; by apply set_tokens_ok. }
  clear -Hall Hr. induction Hall; [constructor|]. inversion Hr; subst. constructor; auto.
Qed.

Lemma update_row_ok i f t :
  (forall r, id (f r) = id r) -> (forall r, pinned (f r) = true -> pinned r = true) -> (forall r, row_ok r -> row_ok (f r)) ->
  table_ok (refresh_accounts t) -> table_ok (refresh_accounts (update_row i f t)).
Proof. intros Hi Hp Hf H. apply (update_ok (has_id i) f); auto. Qed.

Lemma find_tokens_ok e account t : table_ok (refresh_accounts t) ->
  table_ok (refresh_accounts (find_active_account_tokens e account t).2).
Proof.
  intros H. unfold find_active_account_tokens, persist_migrated_stored_tokens. repeat case_match; simplify_eq; try done;
    (apply update_row_ok; [done|done| |done]; intros; by apply set_tokens_ok).
Qed.

Lemma refresh_end_ok e stored t : table_ok (refresh_accounts t) -> table_ok (refresh_accounts (refresh_end e stored t).2).
Proof.
  intros H. unfold refresh_end. destruct (answer e _) as [|tokens]; [exact H|].
  assert (table_ok (refresh_accounts (update_account_tokens e (stored_id stored) tokens (stored_id_token stored) t).2)) as H2.
  { unfold update_account_tokens. repeat case_match; simplify_eq; try done;
      (apply update_row_ok; [done|done| |done]; intros; by apply set_refreshed_ok). }
  by destruct (update_account_tokens _ _ _ _ _).
Qed.

(** *** Each use *)

(** The write of a pin that comes when its account is not active. *)
Definition disturbs (c : AdminCall) (s : AdminState) : Prop :=
  exists account_id i r, c = PinAccount account_id /\ parse_account_id account_id = Some i /\
    r ∈ rows (table s) /\ id r = i /\ normalize_account_status (status r) <> $"active".

Definition allowed (c : AdminCall) (e : ControllerEnv) (s s' : AdminState) : Prop :=
  0 <= now_ms e -> table_ok (table s) -> (strict = true -> ~ disturbs c s) -> table_ok (table s').

Lemma allowed_read c e s s' : table s' = table s -> allowed c e s s'.
Proof. intros E _ H _. by rewrite E. Qed.

Lemma allowed_accounts {A} c (f : ControllerEnv -> accounts_table -> A * accounts_table) :
  (forall e t, 0 <= now_ms e -> table_ok t -> table_ok (f e t).2) -> steady (allowed c) (on_accounts f).
Proof.
  intros Hf. apply steady_use. intros e s Hn H _. specialize (Hf e (table s) Hn H). by destruct (f e (table s)).
Qed.

Lemma find_steady c n i : steady (allowed c) (find_at n i).
Proof. apply steady_use. intros e s. by apply allowed_read. Qed.

Lemma credentials_steady c n i : steady (allowed c) (credentials_at crypto n i).
Proof. apply allowed_accounts. intros e t _ H. by apply credentials_ok. Qed.

Lemma refresh_steady c account : steady (allowed c) (refresh_access_token account).
Proof.
  unfold refresh_access_token. case_bool_decide as Ea; [constructor|]. apply steady_bind.
  - apply steady_use. intros e s _ H _. pose proof (find_tokens_ok (refresh_env e) account (tables s) H) as Hf.
    by destruct (find_active_account_tokens _ _ _).
  - intros [stored|]; [|constructor]. apply steady_use. intros e s _ H _.
    pose proof (refresh_end_ok (refresh_env e) stored (tables s) H) as Hr. by destruct (refresh_end _ _ _).
Qed.

Lemma fetch_steady c n credentials : steady (allowed c) (fetch n credentials).
Proof. apply steady_use. intros e s. apply allowed_read. by destruct (fetch_usage_payload _ _ _ _ _ _). Qed.

Lemma validate_steady c n credentials : steady (allowed c) (validate n credentials).
Proof. apply steady_use. intros e s. by apply allowed_read. Qed.

Lemma database_steady {A} c (body : A) k : steady (allowed c) k -> steady (allowed c) (with_database body k).
Proof.
  intros H. apply steady_bind; [apply steady_use; intros e s; by apply allowed_read|]. intros [|]; [exact H|constructor].
Qed.

Lemma account_steady c account_id k :
  (forall i, parse_account_id account_id = Some i -> steady (allowed c) (k i)) -> steady (allowed c) (with_account account_id k).
Proof. intros H. apply database_steady. destruct (parse_account_id account_id) as [i|]; [by apply H|constructor]. Qed.

Lemma found_steady c n i : steady (allowed c) (answer_found n i).
Proof. apply steady_bind; [apply find_steady|]. intros r. constructor. Qed.

Lemma costs_steady c n i : steady (allowed c) (answer_costs n i).
Proof.
  apply steady_bind; [apply find_steady|]. intros [r|]; [|constructor]. apply steady_bind; [|intros; constructor].
  apply steady_use. intros e s. by apply allowed_read.
Qed.

Lemma pin_steady account_id : steady (allowed (PinAccount account_id)) (pin_account account_id).
Proof.
  apply account_steady. intros i Hi. apply steady_bind; [apply find_steady|]. intros [existing|]; [|constructor].
  case_match; [constructor|]. apply steady_bind; [|intros [|]; [apply found_steady|constructor]].
  apply steady_use. intros e s _ Ht Hd. pose proof (pin_ok (runs_at e 1%nat) i (now_s e) (table s)) as Hp.
  destruct (set_account_routing_pinned _ _ _ _ _) as [done_ t]. apply Hp; [|exact Ht].
  intros Hs r Hr Hid. apply dec_stable. intros Hne. apply (Hd Hs). by exists account_id, i, r.
Qed.

Lemma ask_steady c i credentials : steady (allowed c) (usage_ask crypto i credentials).
Proof.
  apply steady_bind; [|intros [?|[v c']]; [constructor|]; apply steady_bind; [apply validate_steady|constructor]].
  apply steady_bind; [apply fetch_steady|]. intros [snapshot|]; [constructor|]. apply steady_bind; [apply validate_steady|].
  intros v. case_match; [constructor|]. apply steady_bind; [apply refresh_steady|]. intros refresh. case_match; [constructor|].
  apply steady_bind; [apply credentials_steady|]. intros [c'|]; [|constructor]. apply steady_bind; [apply fetch_steady|].
  intros [snapshot|]; [constructor|]. apply steady_bind; [apply validate_steady|constructor].
Qed.

Lemma record_steady c i u :
  (forall now, 0 <= now ->
    quotas_ok (new_primary_percent (u now)) (new_secondary_percent (u now)) (new_primary_window (u now)) (new_secondary_window (u now))
      (new_primary_reset (u now)) (new_secondary_reset (u now))) -> steady (allowed c) (record_telemetry i u).
Proof.
  intros Hu. apply steady_bind; [|intros updated; case_match; [constructor|apply costs_steady]].
  apply allowed_accounts. intros e t Hn Ht. apply telemetry_ok; [by apply Hu|exact Ht].
Qed.

Lemma usage_end_steady c i existing asked : steady (allowed c) (usage_end i existing asked).
Proof.
  unfold usage_end. destruct asked as [v|snapshot]; [case_match; [|constructor]|]; apply record_steady.
  - by split.
  - intros now. by apply telemetry_in_range.
Qed.

Lemma token_steady c account_id : steady (allowed c) (refresh_account_token crypto account_id).
Proof.
  apply account_steady. intros i _. apply steady_bind; [apply find_steady|]. intros [existing|]; [|constructor].
  apply steady_bind; [apply credentials_steady|]. intros [c'|]; [|constructor]. apply steady_bind; [apply refresh_steady|].
  intros refresh. case_match; [constructor|apply costs_steady].
Qed.

Lemma usage_steady c account_id : steady (allowed c) (refresh_account_usage crypto account_id).
Proof.
  apply account_steady. intros i _. apply steady_bind; [apply find_steady|]. intros [existing|]; [|constructor].
  apply steady_bind; [apply credentials_steady|]. intros [c'|]; [|constructor].
  apply steady_bind; [apply ask_steady|apply usage_end_steady].
Qed.

Lemma migrate_steady c dry : steady (allowed c) (migrate_account_token_storage crypto dry).
Proof.
  apply database_steady. destruct (if dry then _ else _); [|constructor]. apply steady_bind; [|intros; constructor].
  apply allowed_accounts. intros e t _ H. by apply migrate_ok.
Qed.

Lemma status_steady c new_status account_id : steady (allowed c) (set_account_status new_status account_id).
Proof.
  apply account_steady. intros i _. apply steady_bind; [|intros; constructor]. apply allowed_accounts. intros e t _ H.
  by apply update_status_ok.
Qed.

Lemma call_steady c : steady (allowed c) (call_task c).
Proof.
  destruct c; cbn [call_task]; unfold changing; (apply steady_bind; [|intros; constructor]);
    [..|by apply token_steady|by apply usage_steady|by apply migrate_steady].
  - apply database_steady, steady_bind; [|intros; constructor]. apply allowed_accounts. intros e t _ H. by apply import_ok.
  - apply database_steady, steady_bind; [|intros; constructor]. apply allowed_accounts. intros e t _ H. by apply upsert_ok.
  - apply pin_steady.
  - apply account_steady. intros i _. apply steady_bind; [|intros [|]; [apply found_steady|constructor]].
    apply allowed_accounts. intros e t _ H. by apply unpin_ok.
  - apply status_steady.
  - apply status_steady.
  - apply account_steady. intros i _. apply steady_bind; [|intros; constructor]. apply allowed_accounts. intros e t _ H.
    by apply delete_account_ok.
Qed.

End sound.

(** *** Every run *)

(** All calls under way are steady. *)
Definition underway (strict : bool) (w : AdminWorld) : Prop :=
  map_Forall (fun _ r => steady (allowed strict (running_call r)) (running_task r)) (tasks w).

(** The task whose next use the event is. *)
Definition proceeding (w : AdminWorld) (event : AdminEvent) : option AdminCall :=
  match event with Proceed k => running_call <$> tasks w !! k | StartCall _ _ => None end.

Lemma step_underway strict w event : underway strict w -> underway strict (admin_step w event).
Proof.
  intros Hu. destruct event as [e [k c|k]]; cbn [admin_step].
  - destruct (tasks w !! k); [done|]. apply map_Forall_insert_2; [apply call_steady|exact Hu].
  - destruct (tasks w !! k) as [[c [a|f]]|] eqn:Ek; [| |done].
    + by apply map_Forall_delete.
    + pose proof (Hu k _ Ek) as Hs. cbn in Hs. inversion Hs as [|f' HR HS]; subst. specialize (HS e (admin w)).
      destruct (f e (admin w)) as [t s]. by apply map_Forall_insert_2.
Qed.

Lemma admin_step_sound strict w e event :
  0 <= now_ms e -> underway strict w -> table_ok strict (table (admin w)) ->
  (strict = true -> forall c, proceeding w event = Some c -> ~ disturbs c (admin w)) ->
  table_ok strict (table (admin (admin_step w (e, event)))).
Proof.
  intros Hn Hu Ht Hd. destruct event as [k c|k]; cbn [admin_step proceeding] in *; [by destruct (tasks w !! k)|].
  destruct (tasks w !! k) as [[c [a|f]]|] eqn:Ek; [done| |done].
  pose proof (Hu k _ Ek) as Hs. cbn in Hs. inversion Hs as [|f' HR HS]; subst.
  specialize (HR e (admin w) Hn Ht (fun E => Hd E c eq_refl)). by destruct (f e (admin w)) as [t s].
Qed.

Lemma admin_run_sound events :
  Forall (fun event => 0 <= now_ms event.1) events ->
  let w := admin_run empty_admin events in
  (forall strict, underway strict w) /\ table_ok false (table (admin w)).
Proof.
  intros Hn w. subst w. assert ((forall strict, underway strict empty_admin) /\ table_ok false (table (admin empty_admin))) as H0.
  { split; [intros strict; apply map_Forall_empty|]. split; [split|]; [constructor|constructor|done|done|constructor]. }
  revert H0. generalize empty_admin. induction Hn as [|[e event] events He _ IH]; intros w [Hu Ht]; [done|].
  change (admin_run w ((e, event) :: events)) with (admin_run (admin_step w (e, event)) events).
  apply IH. split; [intros strict; by apply step_underway|by apply admin_step_sound].
Qed.

Lemma disturbs_dec c s : disturbs c s \/ ~ disturbs c s.
Proof.
  destruct c as [| |account_id| | | | | | |]; try (right; intros (? & ? & ? & ? & _); discriminate).
  destruct (parse_account_id account_id) as [i|] eqn:Ei; [|right; intros (? & ? & ? & [= <-] & E & _); congruence].
  destruct (decide (Exists (fun r => id r = i /\ normalize_account_status (status r) <> $"active") (rows (table s)))) as [H|H].
  - left. apply Exists_exists in H as (r & Hr & Hi & Hs). by exists account_id, i, r.
  - right. intros (? & i' & r & [= <-] & E & Hr & Hi & Hs). apply H, Exists_exists. exists r. split; [done|]. by simplify_eq.
Qed.

(** *** What the pin was decided by *)

Definition is_active (r : AccountRow) : Prop := normalize_account_status (status r) = $"active".

(** An active account of the number. *)
Definition active_at (i : Z) (s : AdminState) : Prop := exists r, r ∈ rows (table s) /\ id r = i /\ is_active r.

(** A task that pins no account that is not active, unless it met the account
    active before. *)
Inductive careful {A} (i : Z) : Prop -> Task A -> Prop :=
| careful_finished (met : Prop) a : careful i met (Finished a)
| careful_uses (met : Prop) f :
    (forall e s, met \/ (0 <= now_ms e -> table_ok true (table s) -> table_ok true (table (f e s).2))) ->
    (forall e s, careful i (met \/ active_at i s) (f e s).1) -> careful i met (Use f).

Lemma careful_reads {A} i (met : Prop) (f : ControllerEnv -> AdminState -> Task A) :
  (forall e s, careful i (met \/ active_at i s) (f e s)) -> careful i met (Use (fun e s => (f e s, s))).
Proof. intros H. constructor; [by right|exact H]. Qed.

Lemma found_active n e i s existing :
  find_account_record (runs_at e n) i s = Some existing -> normalize_account_status (record_status existing) = $"active" -> active_at i s.
Proof.
  intros [Hin Hi]%List.find_some Ha. apply list_elem_of_In in Hin. apply Z.eqb_eq in Hi. unfold Accounts.list_accounts in Hin.
  case_match; [by apply elem_of_nil in Hin|]. apply list_elem_of_fmap in Hin as (r & -> & Hr). rewrite merge_sort_Permutation in Hr.
  by exists r.
Qed.

Lemma pin_careful account_id i : parse_account_id account_id = Some i -> careful i False (call_task (PinAccount account_id)).
Proof.
  intros Hi. cbn. unfold pin_account, with_account, with_database. rewrite Hi. cbn. apply careful_reads. intros e0 s0.
  destruct (opened e0); cbn; [|constructor]. apply careful_reads. intros e s.
  destruct (find_account_record _ i s) as [existing|] eqn:Ef; cbn; [|constructor].
  destruct (bool_decide _) eqn:Ea; cbn; [|constructor]. apply bool_decide_eq_true in Ea.
  constructor; [intros; left; right; by eapply found_active|]. intros e' s'.
  destruct (set_account_routing_pinned _ _ _ _ _) as [[] t]; cbn; [|constructor]. apply careful_reads. intros. constructor.
Qed.

(** The task [k] read the account active, and has been under way since. *)
Definition read_active (events : list (ControllerEnv * AdminEvent)) (k : nat) (account_id : bytes) (i : Z) : Prop :=
  exists before e between,
    events = before ++ (e, Proceed k) :: between /\
    running_call <$> tasks (admin_run empty_admin before) !! k = Some (PinAccount account_id) /\
    active_at i (admin (admin_run empty_admin before)) /\
    forall since, since `prefix_of` between -> is_Some (tasks (admin_run empty_admin (before ++ (e, Proceed k) :: since)) !! k).

Definition pins_checked (events : list (ControllerEnv * AdminEvent)) : Prop :=
  forall k account_id t i, tasks (admin_run empty_admin events) !! k = Some (mkRunning (PinAccount account_id) t) ->
    parse_account_id account_id = Some i -> exists met : Prop, careful i met t /\ (met -> read_active events k account_id i).

Lemma read_active_later events event k account_id i :
  is_Some (tasks (admin_run empty_admin (events ++ [event])) !! k) ->
  read_active events k account_id i -> read_active (events ++ [event]) k account_id i.
Proof.
  intros Hk (before & e & between & -> & Hb & Ha & Hs). exists before, e, (between ++ [event]). rewrite <- app_assoc in Hk |- *.
  split_and!; [done|done|done|]. intros since [rest E].
  destruct rest as [|x rest _] using rev_ind; [rewrite app_nil_r in E; by rewrite <- E|].
  apply Hs. rewrite app_assoc in E. apply app_inj_tail in E as [-> _]. by exists rest.
Qed.

Lemma run_pins_checked events : pins_checked events.
Proof.
  induction events as [|[e event] events IH] using rev_ind; intros k account_id t i Hk Hi.
  { cbn in Hk. by rewrite lookup_empty in Hk. }
  assert (is_Some (tasks (admin_run empty_admin (events ++ [(e, event)])) !! k)) as Hl by by eexists.
  assert (admin_run empty_admin (events ++ [(e, event)]) = admin_step (admin_run empty_admin events) (e, event)) as Ew by apply foldl_snoc.
  assert (tasks (admin_run empty_admin events) !! k = Some (mkRunning (PinAccount account_id) t) ->
    exists met : Prop, careful i met t /\ (met -> read_active (events ++ [(e, event)]) k account_id i)) as Hold.
  { intros Hk'. destruct (IH k account_id t i Hk' Hi) as (met & Hc & Hr). exists met. split; [done|].
    intros Hm. by apply read_active_later, Hr. }
  rewrite Ew in Hk. destruct event as [k' c|k']; cbn [admin_step] in Hk.
  - destruct (tasks (admin_run empty_admin events) !! k') eqn:Ek'; [by apply Hold|]. cbn in Hk.
    apply lookup_insert_Some in Hk as [[<- [= -> <-]]|[_ Hk]]; [|by apply Hold]. exists False. split; [by apply pin_careful|done].
  - destruct (tasks (admin_run empty_admin events) !! k') as [[c [a|f]]|] eqn:Ek'; [| |by apply Hold].
    + cbn in Hk. apply lookup_delete_Some in Hk as [_ Hk]. by apply Hold.
    + destruct (f e (admin (admin_run empty_admin events))) as [t' s'] eqn:Ef. cbn in Hk.
      apply lookup_insert_Some in Hk as [[<- [= -> <-]]|[_ Hk]]; [|by apply Hold].
      destruct (IH k' account_id (Use f) i Ek' Hi) as (met & Hc & Hr). inversion Hc as [|? f' _ Hnext]; subst.
      specialize (Hnext e (admin (admin_run empty_admin events))). rewrite Ef in Hnext. eexists. split; [exact Hnext|].
      intros [Hm|Ha]; [by apply read_active_later, Hr|]. exists (events), e, []. rewrite Ek'. split_and!; [done|done|exact Ha|].
      intros since ->%prefix_nil_inv. exact Hl.
Qed.

(** Whatever calls and refreshes are made, however their uses of the database
    come between each other and whichever statements fail: accounts keep
    distinct identifiers, at most one is pinned, percentages are between 0 and
    100, and windows and reset times are positive.  While only active accounts
    are pinned, that changes by one step alone: the write of a pin whose
    account is not active any more, though it was when the same call read
    it. (C22) *)
Theorem accounts_stay_sound events e event :
  Forall (fun event => 0 <= now_ms event.1) (events ++ [(e, event)]) ->
  let w := admin_run empty_admin events in
  let w' := admin_step w (e, event) in
  NoDup (id <$> rows (table (admin w))) /\ pins (rows (table (admin w))) <= 1 /\
  (forall r, r ∈ rows (table (admin w)) ->
     quotas_ok (quota_primary_percent r) (quota_secondary_percent r) (quota_primary_limit_window_seconds r)
       (quota_secondary_limit_window_seconds r) (quota_primary_reset_at_ms r) (quota_secondary_reset_at_ms r)) /\
  ((forall r, r ∈ rows (table (admin w)) -> pinned r = true -> is_active r) ->
   (forall r, r ∈ rows (table (admin w')) -> pinned r = true -> is_active r) \/
   exists k account_id i r, event = Proceed k /\ proceeding w event = Some (PinAccount account_id) /\
     parse_account_id account_id = Some i /\ r ∈ rows (table (admin w)) /\ id r = i /\ ~ is_active r /\
     read_active events k account_id i).
Proof.
  intros Hn w w'. apply Forall_app in Hn as [Hn [He _]%Forall_cons]. cbn in He.
  destruct (admin_run_sound events Hn) as [Hu [Hw Hr]]. fold w in Hu, Hw, Hr.
  assert (forall strict r, row_ok strict r -> quotas_ok (quota_primary_percent r) (quota_secondary_percent r)
    (quota_primary_limit_window_seconds r) (quota_secondary_limit_window_seconds r) (quota_primary_reset_at_ms r)
    (quota_secondary_reset_at_ms r)) as Hq by by intros strict r [].
  rewrite Forall_forall in Hr. split_and!; [apply Hw|apply Hw|intros r Hin; by eapply Hq, Hr|]. intros Ha.
  assert (table_ok true (table (admin w))) as Ht.
  { split; [done|]. apply Forall_forall. intros r Hin. split; [intros _; by apply Ha|by eapply Hq, Hr]. }
  assert (table_ok true (table (admin w')) -> forall r, r ∈ rows (table (admin w')) -> pinned r = true -> is_active r) as Hkeep.
  { intros [_ Ht'] r Hin. rewrite Forall_forall in Ht'. by apply (row_pin true r (Ht' r Hin)). }
  assert ((forall c, proceeding w event = Some c -> ~ disturbs c (admin w)) -> table_ok true (table (admin w'))) as Hstep
    by (intros Hd; apply admin_step_sound; auto).
  destruct (proceeding w event) as [c|] eqn:Ep; [|by left; apply Hkeep, Hstep].
  destruct (disturbs_dec c (admin w)) as [(account_id & i & r & -> & Hi & Hd)|Hd]; [|left; apply Hkeep, Hstep; by intros c' [= <-]].
  destruct event as [|k]; [done|]. cbn in Ep. destruct (tasks w !! k) as [[c t]|] eqn:Ek; [|done]. injection Ep as ->.
  destruct (run_pins_checked events k account_id t i Ek Hi) as (met & Hc & Hread).
  destruct Hc as [met a|met f Huse Hnext].
  - left. apply Hkeep. unfold w', admin_step. by rewrite Ek.
  - destruct (Huse e (admin w)) as [Hm|Hok].
    + right. exists k, account_id, i, r. split_and!; try done; try apply Hd. by apply Hread.
    + left. apply Hkeep. unfold w', admin_step. rewrite Ek. specialize (Hok He Ht). by destruct (f e (admin w)).
Qed.

(** ** What a call leaves alone *)

Lemma update_other p f t r : r ∈ rows t -> p r = false -> r ∈ rows (update_where p f t).2.
Proof.
  intros Hr Hp. unfold update_where. cbn [snd rows]. apply list_elem_of_fmap. exists r. by rewrite Hp.
Qed.

Lemma has_other_id i r : id r <> i -> has_id i r = false.
Proof. intros H. by apply Z.eqb_neq. Qed.

Lemma find_other e account t r :
  NoDup (id <$> rows (refresh_accounts t)) -> r ∈ rows (refresh_accounts t) -> has_chatgpt_id (c_str account) r = false ->
  let '(found, t') := find_active_account_tokens e account t in
  r ∈ rows (refresh_accounts t') /\ (forall st, found = Some st -> has_id (stored_id st) r = false).
Proof.
  intros Hn Hin Hr. unfold find_active_account_tokens. destruct (_ || _); [done|]. destruct (List.find _ _) as [r0|] eqn:E; [|done].
  assert (has_id (id r0) r = false) as Hid.
  { apply not_true_iff_false. intros Hid. apply List.find_some in E as [H0 Ha]. apply list_elem_of_In in H0.
    rewrite (row_of_id _ _ _ Hn H0 Hin Hid) in Hr. unfold active_with in Ha. by rewrite Hr in Ha. }
  unfold persist_migrated_stored_tokens. repeat case_match; simplify_eq; (split; [|by intros st [= <-]]); try done;
    by apply (update_other (has_id (id r0))).
Qed.

Lemma refresh_end_other e stored t r :
  r ∈ rows (refresh_accounts t) -> has_id (stored_id stored) r = false -> r ∈ rows (refresh_accounts (refresh_end e stored t).2).
Proof.
  intros Hin Hid. unfold refresh_end. destruct (answer e _) as [|tokens]; [done|].
  assert (r ∈ rows (refresh_accounts (update_account_tokens e (stored_id stored) tokens (stored_id_token stored) t).2)) as H2.
  { unfold update_account_tokens. repeat case_match; simplify_eq; try done; by apply (update_other (has_id (stored_id stored))). }
  by destruct (update_account_tokens _ _ _ _ _).
Qed.

Lemma refresh_other e account s r :
  NoDup (id <$> rows (table s)) -> r ∈ rows (table s) -> has_chatgpt_id (c_str account) r = false ->
  r ∈ rows (table (complete (refresh_access_token account) e s).2).
Proof.
  intros Hn Hin Hr. unfold refresh_access_token. case_bool_decide; [done|]. cbn.
  pose proof (find_other (refresh_env e) account (tables s) r Hn Hin Hr) as Hf.
  destruct (find_active_account_tokens _ account (tables s)) as [[st|] t1]; [|by destruct Hf]. destruct Hf as [Hin1 Hid]. cbn.
  pose proof (refresh_end_other (refresh_env e) st t1 r Hin1 (Hid st eq_refl)) as He. by destruct (refresh_end _ st t1).
Qed.

(** A call that names an account concerns the one with its identifier. *)
Definition concerns (account_id : bytes) (r : AccountRow) : Prop := parse_account_id account_id = Some (id r).

(** A row the refresh of [i] may take for it: one with its identifier at the
    provider. *)
Definition shares (i : Z) (t : accounts_table) (r : AccountRow) : Prop :=
  exists r0 raw, r0 ∈ rows t /\ id r0 = i /\ chatgpt_account_id r0 = Some raw /\
    has_chatgpt_id (c_str (trim_ascii raw)) r = true.

Lemma credentials_other runs nonce i now t r :
  r ∈ rows t -> id r <> i -> r ∈ rows (account_usage_credentials runs crypto nonce i now t).2.
Proof.
  intros Hr Hi%has_other_id. unfold account_usage_credentials, normalize_access_token_storage.
  repeat case_match; simplify_eq; try done; by apply update_other.
Qed.

Lemma credentials_wf runs nonce i now t : wf t -> wf (account_usage_credentials runs crypto nonce i now t).2.
Proof.
  intros H. unfold account_usage_credentials, normalize_access_token_storage. repeat case_match; simplify_eq; try done;
    by apply update_where_wf.
Qed.

Lemma credentials_named runs nonce i now t c t' :
  account_usage_credentials runs crypto nonce i now t = (Some c, t') ->
  exists r0 raw, r0 ∈ rows t /\ id r0 = i /\ chatgpt_account_id r0 = Some raw /\ usage_account_id c = trim_ascii raw.
Proof.
  unfold account_usage_credentials. destruct (_ || _); [done|]. destruct (List.find _ _) as [r0|] eqn:E; [|done].
  apply List.find_some in E as [H0 Hid]. apply list_elem_of_In in H0. apply Z.eqb_eq in Hid. intros H.
  destruct (chatgpt_account_id r0) as [raw|] eqn:Er; [|done]. exists r0, raw. split_and!; try done.
  repeat case_match; simplify_eq; done.
Qed.

Lemma complete_bind {A B} (t : Task A) (k : A -> Task B) e s :
  complete (t ≫= k) e s = let '(a, s) := complete t e s in complete (k a) e s.
Proof. revert t s. fix IH 1. intros [a|f] s; [done|]. cbn. destruct (f e s) as [t' s']. apply IH. Qed.

Lemma changing_table t e s : table (complete (changing t) e s).2 = table (complete t e s).2.
Proof. unfold changing. rewrite complete_bind. by destruct (complete t e s). Qed.

(** What holds of the accounts after a call. *)
Definition leaves {A} (P : accounts_table -> Prop) (t : Task A) (e : ControllerEnv) (s : AdminState) : Prop :=
  P (table (complete t e s).2).

(** [t] leaves a row where it is. *)
Definition spares {A} (r : AccountRow) : Task A -> ControllerEnv -> AdminState -> Prop := leaves (fun t => r ∈ rows t).

Lemma leaves_database {A} P (body : A) k e s : P (table s) -> leaves P k e s -> leaves P (with_database body k) e s.
Proof. intros Hr Hk. unfold leaves, with_database. rewrite complete_bind. cbn. by destruct (opened e). Qed.

Lemma leaves_changing P t e s : leaves P t e s -> leaves P (changing t) e s.
Proof. unfold leaves. by rewrite changing_table. Qed.

Lemma leaves_account P account_id k e s :
  P (table s) -> (forall i, parse_account_id account_id = Some i -> leaves P (k i) e s) ->
  leaves P (changing (with_account account_id k)) e s.
Proof.
  intros Hr Hk. apply leaves_changing, leaves_database; [exact Hr|].
  destruct (parse_account_id account_id) as [i|]; [by apply Hk|exact Hr].
Qed.

Lemma leaves_found {B} P n i (k : option AccountRecord -> Task B) e s :
  (forall existing, leaves P (k existing) e s) -> leaves P (find_at n i ≫= k) e s.
Proof. intros Hk. unfold leaves. rewrite complete_bind. apply Hk. Qed.

Lemma complete_accounts {A B} f (k : A -> Task B) e s :
  complete (on_accounts f ≫= k) e s = let '(a, t) := f e (table s) in complete (k a) e (set_table t s).
Proof. rewrite complete_bind. unfold on_accounts, use. cbn. by destruct (f e (table s)). Qed.

Lemma leaves_accounts {A B} P f (k : A -> Task B) e s :
  P (f e (table s)).2 -> (forall a s', table (complete (k a) e s').2 = table s') -> leaves P (on_accounts f ≫= k) e s.
Proof.
  intros Hr Hk. unfold leaves. rewrite complete_accounts. destruct (f e (table s)) as [a t]. by rewrite Hk.
Qed.

Lemma found_table n i e s : table (complete (answer_found n i) e s).2 = table s.
Proof. done. Qed.

Lemma costs_table n i e s : table (complete (answer_costs n i) e s).2 = table s.
Proof. unfold answer_costs. rewrite complete_bind. cbn. by destruct (find_account_record _ i s). Qed.

Lemma unpinned_other i (on : bool) runs now t r : r ∈ rows t -> id r <> i ->
  r ∈ rows (set_account_routing_pinned runs i on now t).2 \/
  on = true /\ set_pinned 0 now r ∈ rows (set_account_routing_pinned runs i on now t).2.
Proof.
  intros Hr Hi. unfold set_account_routing_pinned. destruct (_ || _); [by left|]. destruct on.
  - destruct (_ || _); [by left|]. destruct (update_where (has_id i) _ _) as [changes t'] eqn:E. case_match; [by left|]. case_match; [by left|].
    assert (t' = (update_where (has_id i) (set_pinned 1 now) (update_where (fun r => negb (routing_pinned r =? 0)) (set_pinned 0 now) t).2).2) as ->
      by (by rewrite E). cbn [snd]. destruct (negb (routing_pinned r =? 0)) eqn:Ep.
    + right. split; [done|]. apply update_other; [|by apply has_other_id]. unfold update_where. cbn [snd rows]. apply list_elem_of_fmap. exists r. by rewrite Ep.
    + left. apply update_other; [|by apply has_other_id]. by apply update_other.
  - case_match; [by left|]. left. pose proof (update_other (has_id i) (set_pinned 0 now) t r Hr (has_other_id _ _ Hi)) as Hu.
    by destruct (update_where _ _ t).
Qed.

Lemma status_spares new_status account_id e s r :
  r ∈ rows (table s) -> ~ concerns account_id r -> spares r (changing (set_account_status new_status account_id)) e s.
Proof.
  intros Hr Hc. apply leaves_account; [exact Hr|]. intros i Hi. apply leaves_accounts; [|done].
  assert (id r <> i) as Hne by (intros <-; by apply Hc). unfold update_account_status. destruct (_ || _); [done|].
  match goal with |- context [update_where ?p ?f ?t] => pose proof (update_other p f t r Hr (has_other_id _ _ Hne)) as Hu; destruct (update_where p f t) as [changes t'] end.
  by destruct (changes =? 0).
Qed.

Lemma pin_spares account_id e s r :
  r ∈ rows (table s) -> ~ concerns account_id r ->
  leaves (fun t => r ∈ rows t \/ set_pinned 0 (now_s e) r ∈ rows t) (changing (pin_account account_id)) e s.
Proof.
  intros Hr Hc. apply leaves_account; [by left|]. intros i Hi. assert (id r <> i) as Hne by (intros <-; by apply Hc).
  apply leaves_found. intros [existing|]; [|by left]. case_match; [by left|].
  apply leaves_accounts; [|by intros [|] s'].
  destruct (unpinned_other i true (runs_at e 1%nat) (now_s e) (table s) r Hr Hne) as [Hp|[_ Hp]]; [by left|by right].
Qed.

Lemma unpin_spares account_id e s r :
  r ∈ rows (table s) -> ~ concerns account_id r -> spares r (changing (unpin_account account_id)) e s.
Proof.
  intros Hr Hc. apply leaves_account; [exact Hr|]. intros i Hi. apply leaves_accounts; [|by intros [|] s'].
  assert (id r <> i) as Hne by (intros <-; by apply Hc).
  by destruct (unpinned_other i false (runs_at e 0%nat) (now_s e) (table s) r Hr Hne) as [H|[? _]].
Qed.

Lemma delete_spares account_id e s r :
  r ∈ rows (table s) -> ~ concerns account_id r -> spares r (changing (delete_account account_id)) e s.
Proof.
  intros Hr Hc. apply leaves_account; [exact Hr|]. intros i Hi. apply leaves_accounts; [|done].
  assert (id r <> i) as Hne by (intros <-; by apply Hc). unfold Accounts.delete_account. destruct (_ || _); [done|].
  apply list_elem_of_filter. by rewrite (has_other_id i r).
Qed.

(** What the two refreshes do for an account. *)
Lemma credentials_spares {B} r n i (k : option AccountUsageCredentials -> Task B) e s :
  wf (table s) -> r ∈ rows (table s) -> id r <> i -> ~ shares i (table s) r ->
  (forall s', wf (table s') -> r ∈ rows (table s') -> spares r (k None) e s') ->
  (forall c s', wf (table s') -> r ∈ rows (table s') -> has_chatgpt_id (c_str (usage_account_id c)) r = false ->
     spares r (k (Some c)) e s') ->
  spares r (credentials_at crypto n i ≫= k) e s.
Proof.
  intros Hw Hr Hi Hs Hnone Hsome. unfold spares, leaves, credentials_at. rewrite complete_accounts.
  pose proof (credentials_wf (runs_at e n) (nonce_at e n) i (now_s e) _ Hw) as Hc.
  pose proof (credentials_other (runs_at e n) (nonce_at e n) i (now_s e) _ r Hr Hi) as Hin.
  destruct (account_usage_credentials _ _ _ _ _ _) as [[c|] t] eqn:E; [|by apply Hnone]. apply Hsome; [done..|].
  apply not_true_iff_false. intros Hh. apply Hs.
  destruct (credentials_named _ _ _ _ _ _ _ E) as (r0 & raw & H1 & H2 & H3 & H4). exists r0, raw. rewrite H4 in Hh. by split_and!.
Qed.

Lemma fetch_table n c e s : table (complete (fetch n c) e s).2 = table s.
Proof. unfold fetch, use. cbn. by destruct (fetch_usage_payload _ _ _ _ _ _). Qed.

Lemma ask_spares r i c e s :
  wf (table s) -> r ∈ rows (table s) -> id r <> i -> has_chatgpt_id (c_str (usage_account_id c)) r = false ->
  spares r (usage_ask crypto i c) e s.
Proof.
  intros Hw Hr Hi Hh. unfold spares, leaves, usage_ask. rewrite complete_bind.
  assert (r ∈ rows (table (complete (ask_provider crypto i c) e s).2)) as Ha.
  { unfold ask_provider. rewrite complete_bind. pose proof (fetch_table 0 c e s) as Ef.
    destruct (complete (fetch 0 c) e s) as [[snapshot|] s1]; cbn [snd] in Ef; [cbn; by rewrite Ef|]. rewrite complete_bind. cbn [complete validate use].
    case_match; [cbn; by rewrite Ef|]. rewrite complete_bind.
    pose proof (refresh_other e (usage_account_id c) s1 r) as Hf. rewrite Ef in Hf. specialize (Hf (wf_distinct _ Hw) Hr Hh).
    destruct (complete (refresh_access_token _) e s1) as [refresh s2]. cbn [snd] in Hf. case_match; [exact Hf|].
    unfold credentials_at. rewrite complete_accounts. pose proof (credentials_other (runs_at e 2%nat) (nonce_at e 2%nat) i (now_s e) _ r Hf Hi) as Hc.
    destruct (account_usage_credentials _ _ _ _ _ _) as [[c'|] t2]; [|exact Hc]. rewrite complete_bind.
    pose proof (fetch_table 2 c' e (set_table t2 s2)) as Ef2. destruct (complete (fetch 2 c') e _) as [[snapshot|] s3]; cbn [snd] in Ef2; cbn; by rewrite Ef2. }
  by destruct (complete (ask_provider crypto i c) e s) as [[snapshot|[v c']] s1].
Qed.

Lemma usage_end_spares r i existing asked e s :
  r ∈ rows (table s) -> id r <> i -> spares r (usage_end i existing asked) e s.
Proof.
  intros Hr Hi. assert (forall u, spares r (record_telemetry i u) e s) as H.
  { intros u. apply leaves_accounts; [|intros [|] s'; cbn [negb]; [apply costs_table|done]].
    unfold update_account_usage_telemetry. destruct (_ || _); [done|].
    pose proof (update_other (has_id i) (set_telemetry (u (now_ms e)) (now_s e)) (table s) r Hr (has_other_id _ _ Hi)) as Hw.
    by destruct (update_where _ _ _). }
  unfold usage_end. destruct asked as [v|snapshot]; [case_match|]; [apply H|exact Hr|apply H].
Qed.

Lemma token_spares account_id e s r :
  wf (table s) -> r ∈ rows (table s) -> ~ concerns account_id r ->
  (forall i, parse_account_id account_id = Some i -> ~ shares i (table s) r) ->
  spares r (changing (refresh_account_token crypto account_id)) e s.
Proof.
  intros Hw Hr Hc Hs. apply leaves_account; [exact Hr|]. intros i Hi. assert (id r <> i) as Hne by (intros <-; by apply Hc).
  apply leaves_found. intros [existing|]; [|done].
  apply credentials_spares; [done|done|done|by apply Hs|done|]. intros c s' Hw' Hr' Hh. unfold spares, leaves. rewrite complete_bind.
  pose proof (refresh_other e (usage_account_id c) s' r (wf_distinct _ Hw') Hr' Hh) as H1.
  destruct (complete (refresh_access_token _) e s') as [refresh s2]. case_match; [exact H1|]. by rewrite costs_table.
Qed.

Lemma usage_spares account_id e s r :
  wf (table s) -> r ∈ rows (table s) -> ~ concerns account_id r ->
  (forall i, parse_account_id account_id = Some i -> ~ shares i (table s) r) ->
  spares r (changing (refresh_account_usage crypto account_id)) e s.
Proof.
  intros Hw Hr Hc Hs. apply leaves_account; [exact Hr|]. intros i Hi. assert (id r <> i) as Hne by (intros <-; by apply Hc).
  apply leaves_found. intros [existing|]; [|done].
  apply credentials_spares; [done|done|done|by apply Hs|done|]. intros c s' Hw' Hr' Hh. unfold spares, leaves. rewrite complete_bind.
  pose proof (ask_spares r i c e s' Hw' Hr' Hne Hh) as Ha. unfold spares, leaves in Ha.
  destruct (complete (usage_ask crypto i c) e s') as [asked s2]. by apply usage_end_spares.
Qed.

(** An import leaves every account, or but the one of its address. *)
Lemma import_spares email provider e s r :
  r ∈ rows (table s) -> spares r (changing (import_account email provider)) e s.
Proof.
  intros Hr. apply leaves_changing, leaves_database; [exact Hr|]. apply leaves_accounts; [|done].
  unfold Accounts.import_account. case_match; [done|]. cbn. apply elem_of_app. by left.
Qed.

Lemma import_tokens_spares email provider access refresh e s r :
  NoDup (id <$> rows (table s)) -> r ∈ rows (table s) ->
  same_login (mkOauthAccount email provider None None access refresh []) r = false ->
  spares r (changing (import_account_with_tokens crypto email provider access refresh)) e s.
Proof.
  intros Hn Hr Hl. apply leaves_changing, leaves_database; [exact Hr|]. apply leaves_accounts; [|done].
  unfold upsert_oauth_account. case_match; [done|]. do 3 (destruct (encrypt_token_for_storage _ _ _); [|done]). case_match; [done|].
  destruct (List.find _ _) as [r0|] eqn:E; (case_match; [done|]); cbn [snd].
  - apply update_other; [exact Hr|]. apply not_true_iff_false. intros Hid. apply List.find_some in E as [Hin Ha]. apply list_elem_of_In in Hin.
    by rewrite (row_of_id _ _ _ Hn Hin Hr Hid), Ha in Hl.
  - cbn. apply elem_of_app. by left.
Qed.

(** A migration rewrites tokens, and nothing else. *)
Lemma migrated_row dry e s r :
  r ∈ rows (table s) ->
  leaves (fun t => r ∈ rows t \/ exists access refresh id_token, set_tokens access refresh id_token (now_s e) r ∈ rows t)
    (call_task (MigrateTokens dry)) e s.
Proof.
  intros Hr. unfold leaves. cbn [call_task]. rewrite complete_bind.
  enough (leaves (fun t => r ∈ rows t \/ exists access refresh id_token,
    set_tokens access refresh id_token (now_s e) r ∈ rows t) (migrate_account_token_storage crypto dry) e s) as H.
  { unfold leaves in H. by destruct (complete (migrate_account_token_storage crypto dry) e s). }
  apply leaves_database; [by left|]. destruct (if dry then _ else _); [|by left]. apply leaves_accounts; [|done].
  unfold migrate_plaintext_account_tokens. case_match; [by left|].
  destruct (map_rows _ _ _) as [[rs res]|] eqn:E; [|by left]. case_match; [by left|]. cbn.
  assert (Forall2 (fun r r' => r' = r \/ exists a b c, r' = set_tokens a b c (now_s e) r) (rows (table s)) rs) as Hall.
  { eapply map_rows_Forall2; [|exact E]. intros r1 res0 r' res'. unfold migrate_row. repeat case_match; intros; simplify_eq; try (by left);
      right; by do 3 eexists. }
  apply list_elem_of_lookup in Hr as [n Hn]. destruct (Forall2_lookup_l _ _ _ _ _ Hall Hn) as (r' & Hn' & Hr').
  apply list_elem_of_lookup_2 in Hn'. destruct Hr' as [->|(access & refresh & id_token & ->)]; [by left|right; by exists access, refresh, id_token].
Qed.

(** A call that nothing interrupts concerns the account it names.  The row of
    any other is afterwards what it was, but that pinning takes away its pin;
    only a refresh may also take for the named one a row with the same
    identifier at the provider.  An import leaves every account, and one with
    tokens every account of another address or provider; the migration of
    tokens rewrites tokens, and nothing else. (C34) *)
Theorem calls_concern_their_account e c s r :
  wf (table s) -> r ∈ rows (table s) ->
  let t' := table (call_step e c s) in
  match c with
  | ImportAccount _ _ => r ∈ rows t'
  | ImportWithTokens email provider access refresh =>
      same_login (mkOauthAccount email provider None None access refresh []) r = false -> r ∈ rows t'
  | MigrateTokens _ => r ∈ rows t' \/ exists access refresh id_token, set_tokens access refresh id_token (now_s e) r ∈ rows t'
  | PinAccount i => ~ concerns i r -> r ∈ rows t' \/ set_pinned 0 (now_s e) r ∈ rows t'
  | UnpinAccount i | PauseAccount i | ReactivateAccount i | DeleteAccount i => ~ concerns i r -> r ∈ rows t'
  | RefreshToken i | RefreshUsage i =>
      ~ concerns i r -> (forall n, parse_account_id i = Some n -> ~ shares n (table s) r) -> r ∈ rows t'
  end.
Proof.
  intros Hw Hr t'. subst t'. unfold call_step. destruct c; cbn [call_task].
  - by apply import_spares.
  - intros Hl. by apply import_tokens_spares; [apply Hw|..].
  - intros Hc. by apply pin_spares.
  - intros Hc. by apply unpin_spares.
  - intros Hc. by apply status_spares.
  - intros Hc. by apply status_spares.
  - intros Hc. by apply delete_spares.
  - intros Hc Hs. by apply token_spares.
  - intros Hc Hs. by apply usage_spares.
  - by apply migrated_row.
Qed.

End runs.

(** ** Concrete runs *)

(** Everything runs; the provider cannot be reached. *)
Definition sample_controller_env : ControllerEnv := {|
  opened := true; runs_at := fun _ _ => true; log_runs := fun _ => true; sum := fun _ => Some f_zero;
  refresh_env := sample_refresh_env 0; vars := fun _ => None; transfer := fun _ _ => NoHandle;
  nonce_at := fun _ => replicate 24 Byte.x01; import_nonce := fun _ => replicate 24 Byte.x01;
  migration_nonce := fun _ _ => replicate 24 Byte.x01; now_s := 1000; now_ms := 1000000;
|}.

Definition admin_of (t : RefreshTable) : AdminState := mkAdmin t empty_log initial_usage.

Definition sample_crypto : TokenStorageCryptoState := refresh_crypto (sample_refresh_env 0).

Definition blank_codec : JsonCodec := sample_codec [] JNull.

(** A call from its start to its end, as task [k]. *)
Definition handled (k uses : nat) (c : AdminCall) : list (ControllerEnv * AdminEvent) :=
  (sample_controller_env, StartCall k c) :: replicate (S uses) (sample_controller_env, Proceed k).

Definition sample_calls : list (ControllerEnv * AdminEvent) :=
  handled 0 2 (ImportAccount $"a@example.com" $"openai") ++ handled 1 4 (PinAccount $"1") ++
  handled 2 2 (ImportAccount $"b@example.com" $"openai") ++ [(sample_controller_env, StartCall 3 (PinAccount $"2"));
    (sample_controller_env, Proceed 3); (sample_controller_env, Proceed 3)].

Definition sample_admin : AdminWorld := @admin_run hex_sodium blank_codec sample_crypto empty_admin sample_calls.

Definition sample_event : AdminEvent := Proceed 3.

(** The second account is about to take the pin of the first. *)
Lemma accounts_stay_sound_witness :
  routing_pinned <$> rows (table (admin sample_admin)) = [1; 0] /\
  routing_pinned <$> rows (table (admin (@admin_step hex_sodium blank_codec sample_crypto sample_admin
    (sample_controller_env, sample_event)))) = [0; 1] /\
  pins (rows (table (admin sample_admin))) <= 1.
Proof.
  split; [by vm_compute|]. split; [by vm_compute|].
  refine (proj1 (proj2 (@accounts_stay_sound hex_sodium blank_codec sample_crypto sample_calls sample_controller_env sample_event _))).
  by repeat constructor.
Defined.

Lemma two_accounts_wf : wf (table (admin_of two_accounts)).
Proof.
  split.
  - exact two_ids.
  - by repeat constructor.
  - done.
  - by vm_compute.
Qed.

Lemma calls_concern_their_account_witness :
  refreshing_row 2 $"two" ∈ rows (table (@call_step hex_sodium blank_codec sample_crypto sample_controller_env (PauseAccount $"1") (admin_of two_accounts))).
Proof.
  refine (@calls_concern_their_account hex_sodium blank_codec sample_crypto sample_controller_env (PauseAccount $"1")
    (admin_of two_accounts) (refreshing_row 2 $"two") two_accounts_wf _ _).
  - right. left.
  - by vm_compute.
Defined.

(** ** Where the administration surprises *)

(** What a provider answers of a window. *)
Definition usage_answer (percent : Z) : UsagePayloadSnapshot :=
  Usage.mkSnapshot $"plus" (Some (mkRateLimit true false (Some (mkWindow (Some percent) None None None)) None)) None [].

(** A refresh of the usage of the first account that is about to write what
    the provider answered. *)
Definition refreshing_usage (percent : Z) : AdminWorld :=
  mkWorld (admin_of two_accounts)
    {[ 0%nat := mkRunning (RefreshUsage $"1")
         (changing (usage_end 1 (list_account_row (refreshing_row 1 $"one")) (inr (usage_answer percent)))) ]}.

(** It writes the status it makes of the one it found before it asked: an
    account that is paused meanwhile is in use again. *)
Lemma usage_refresh_unpauses :
  let w := @admin_run hex_sodium blank_codec sample_crypto (refreshing_usage 5) (handled 1 3 (PauseAccount $"1")) in
  find_account_record (fun _ => true) 1 (admin_of two_accounts) = Some (list_account_row (refreshing_row 1 $"one")) /\
  status <$> rows (table (admin w)) = [$"paused"; $"active"] /\
  status <$> rows (table (admin (@admin_run hex_sodium blank_codec sample_crypto w [(sample_controller_env, Proceed 0)]))) =
    [$"active"; $"active"].
Proof. split_and!; by vm_compute. Qed.

(** A pin that was allowed while the account was active is set after a refresh
    found its quota used up: an account that is not active is pinned. *)
Lemma pin_races_refresh :
  let proceed k := (sample_controller_env, Proceed k) in
  let w := @admin_run hex_sodium blank_codec sample_crypto (refreshing_usage 100)
    ([(sample_controller_env, StartCall 1 (PinAccount $"1")); proceed 1%nat; proceed 1%nat] ++ [proceed 0%nat; proceed 1%nat]) in
  (fun r => (status r, pinned r)) <$> rows (table (admin w)) = [($"rate_limited", true); ($"active", false)].
Proof. by vm_compute. Qed.

(** Of two accounts with one identifier at the provider, asking to refresh the
    tokens of the second refreshes those of the first, and reports success. *)
Lemma token_refresh_takes_another :
  let '(response, s) := complete (@refresh_account_token hex_sodium sample_crypto $"2") sample_controller_env (admin_of shared_account) in
  response_status response = 200 /\ payload_account_id (response_body response) = $"2" /\
  last_refresh <$> rows (table s) = [Some 1000; None].
Proof. by vm_compute. Qed.
