(* ===== verification/SqlImport.v ===== *)
(** * SqlImport: importing accounts from another database

    src/native/db/repositories/src/sql_import_repo.cpp reads the accounts of a
    SQLite file, src/native/server/controllers/src/sql_import_controller.cpp
    compares them with the accounts that are there, shows what an import would
    do, and does it; the guard of [KeysController] stands before both.  The file
    is what the calls of the file system, of SQLite and of SQLCipher answer. *)

From S2P Require Import Prelude Text Except Env Double Conflict Fernet Usage TokenRefresh TokenStore KeysController AccountsController Accounts.
Import Text.Ascii Text.Find.

(** ** sql_import_repo.h *)

Definition kSqlImportPreviewRowLimit : Z := 2000.

Record SqlImportSourceColumns := mkSourceColumns {
  has_id : bool; has_email : bool; has_provider : bool; has_chatgpt_account_id : bool; has_plan_type : bool; has_status : bool;
  has_access_token_encrypted : bool; has_refresh_token_encrypted : bool; has_id_token_encrypted : bool;
  has_quota_primary_percent : bool; has_quota_secondary_percent : bool;
  has_quota_primary_limit_window_seconds : bool; has_quota_secondary_limit_window_seconds : bool;
  has_quota_primary_reset_at_ms : bool; has_quota_secondary_reset_at_ms : bool;
}.

Record SqlImportSourceInfo := mkSourceInfo {
  source_path : bytes; source_file_name : bytes; source_size_bytes : Z; source_modified_at_ms : Z;
  schema_fingerprint : bytes; truncated : bool;
}.

Record SqlImportSourceRow := mkSourceRow {
  source_row_id : bytes;
  source_email : option bytes;
  source_provider : option bytes;
  source_chatgpt_account_id : option bytes;
  source_plan_type : option bytes;
  source_status : option bytes;
  source_access_token : option bytes;
  source_refresh_token : option bytes;
  source_id_token : option bytes;
  source_primary_percent : option Z;
  source_secondary_percent : option Z;
  source_primary_window : option Z;
  source_secondary_window : option Z;
  source_primary_reset : option Z;
  source_secondary_reset : option Z;
}.

Record SqlImportSourceSnapshot := mkSourceSnapshot {
  source : SqlImportSourceInfo;
  columns : SqlImportSourceColumns;
  total_rows : Z;
  source_rows : list SqlImportSourceRow;
}.

Inductive SqlImportSourceError :=
| invalid_source_path | source_db_not_found | source_db_open_failed | source_db_passphrase_required
| source_db_passphrase_invalid | source_schema_unsupported | preview_generation_failed.

Definition sql_import_source_error_code (error : SqlImportSourceError) : bytes :=
  match error with
  | invalid_source_path => $"invalid_source_path"
  | source_db_not_found => $"source_db_not_found"
  | source_db_open_failed => $"source_db_open_failed"
  | source_db_passphrase_required => $"source_db_passphrase_required"
  | source_db_passphrase_invalid => $"source_db_passphrase_invalid"
  | source_schema_unsupported => $"source_schema_unsupported"
  | preview_generation_failed => $"preview_generation_failed"
  end.

(** ** sql_import_repo.cpp *)

(** A value in a row, by its type. *)
Inductive SqliteValue := VNull | VInteger (z : Z) | VFloat (d : double) | VText (text : bytes) | VBlob (blob : bytes).

(** What is found at a path.  An opening, a key and the reading of the schema
    give a message when they fail, empty where SQLite has none; the schema is
    read with the key that was set.  [file_rows] are those a query gives, and
    [file_ends] whether the last step reports the end. *)
Record SourceFile := mkSourceFile {
  file_is_path : bool;
  file_absolute : bool;
  file_exists : bool;
  file_regular : bool;
  file_open : nat -> option bytes;
  file_plaintext : bool;
  file_schema : option bytes -> option bytes;
  file_key : bytes -> option bytes;
  file_has_accounts : bool;
  file_columns : option (list bytes);
  file_count : option Z;
  file_prepares : bool;
  file_binds : bool;
  file_rows : list (Z * (bytes -> SqliteValue));
  file_ends : bool;
  file_info : bytes * bytes * Z * Z;
}.

Definition normalized_text (value : bytes) : option bytes :=
  let trimmed := trim_ascii value in if bool_decide (trimmed = []) then None else Some trimmed.

Definition column_text (v : SqliteValue) : option bytes :=
  match v with
  | VNull => None
  | VInteger z => Some (to_string z)
  | VFloat d => Some (to_string (cast_sint 64 d))
  | VText text => Some text
  | VBlob blob => Some blob
  end.

Definition column_blob_or_text (v : SqliteValue) : option bytes := column_text v.

Definition parse_i64 (value : bytes) : option Z := from_chars true (- 2 ^ 63) (2 ^ 63 - 1) value.

Definition column_i64 (v : SqliteValue) : option Z :=
  match v with
  | VInteger z => Some z
  | VFloat d => Some (cast_sint 64 d)
  | VText text => parse_i64 (trim_ascii text)
  | VNull | VBlob _ => None
  end.

Definition valid_percent (value : option Z) : option Z :=
  match value with Some v => if (v <? 0) || (100 <? v) then None else Some v | None => None end.

Definition valid_window_seconds (value : option Z) : option Z :=
  match value with Some v => if (v <=? 0) || (2 ^ 31 - 1 <? v) then None else Some v | None => None end.

Definition valid_reset_at_ms (value : option Z) : option Z :=
  match value with Some v => if v <=? 0 then None else Some v | None => None end.

Definition sqlite_error_indicates_encryption (raw_message : bytes) : bool :=
  let message := to_lower_ascii (trim_ascii raw_message) in
  if bool_decide (message = []) then false
  else existsb (contains message) [$"encrypted"; $"file is not a database"; $"not a database"; $"cipher"].

(** The names of the columns, lowered and trimmed. *)
Definition read_table_columns (names : list bytes) : list bytes :=
  filter (fun name => name <> []) ((fun name => to_lower_ascii (trim_ascii name)) <$> names).

Definition has_column (cols : list bytes) (name : bytes) : bool := bool_decide (name ∈ cols).

(** The names with commas between them. *)
Fixpoint comma_join (names : list bytes) : bytes :=
  match names with [] => [] | [name] => name | name :: rest => name ++ [Byte.x2c] ++ comma_join rest end.

Definition schema_fingerprint_from_columns (cols : list bytes) : bytes :=
  $"accounts:" ++ comma_join (merge_sort bytes_le (remove_dups cols)).

Definition columns_of (cols : list bytes) : SqlImportSourceColumns :=
  mkSourceColumns (has_column cols $"id") (has_column cols $"email") (has_column cols $"provider")
    (has_column cols $"chatgpt_account_id") (has_column cols $"plan_type") (has_column cols $"status")
    (has_column cols $"access_token_encrypted") (has_column cols $"refresh_token_encrypted") (has_column cols $"id_token_encrypted")
    (has_column cols $"quota_primary_percent") (has_column cols $"quota_secondary_percent")
    (has_column cols $"quota_primary_limit_window_seconds") (has_column cols $"quota_secondary_limit_window_seconds")
    (has_column cols $"quota_primary_reset_at_ms") (has_column cols $"quota_secondary_reset_at_ms").

(** A row as the query of [build_select_sql] gives it: a column that the table
    does not have reads as null. *)
Definition read_source_row (c : SqlImportSourceColumns) (row : Z * (bytes -> SqliteValue)) : SqlImportSourceRow :=
  let cell (has : bool) (name : bytes) := if has then row.2 name else VNull in
  let text has name := column_text (cell has name) ≫= normalized_text in
  let token has name := column_blob_or_text (cell has name) ≫= normalized_text in
  let number has name := column_i64 (cell has name) in
  mkSourceRow (default (to_string row.1) (text (has_id c) $"id"))
    (text (has_email c) $"email") (text (has_provider c) $"provider") (text (has_chatgpt_account_id c) $"chatgpt_account_id")
    (text (has_plan_type c) $"plan_type") (text (has_status c) $"status")
    (token (has_access_token_encrypted c) $"access_token_encrypted") (token (has_refresh_token_encrypted c) $"refresh_token_encrypted")
    (token (has_id_token_encrypted c) $"id_token_encrypted")
    (valid_percent (number (has_quota_primary_percent c) $"quota_primary_percent"))
    (valid_percent (number (has_quota_secondary_percent c) $"quota_secondary_percent"))
    (valid_window_seconds (number (has_quota_primary_limit_window_seconds c) $"quota_primary_limit_window_seconds"))
    (valid_window_seconds (number (has_quota_secondary_limit_window_seconds c) $"quota_secondary_limit_window_seconds"))
    (valid_reset_at_ms (number (has_quota_primary_reset_at_ms c) $"quota_primary_reset_at_ms"))
    (valid_reset_at_ms (number (has_quota_secondary_reset_at_ms c) $"quota_secondary_reset_at_ms")).

Definition SourceFailure : Type := SqlImportSourceError * bytes.

(** The file opened, and again with the key where its schema cannot be read;
    [None] when it can be read. *)
Definition open_source (f : SourceFile) (passphrase : option bytes) : option SourceFailure :=
  let or_failed message := or_else message $"Failed to open source SQLite database." in
  match file_open f 0 with
  | Some open_error => Some (source_db_open_failed, or_failed open_error)
  | None =>
      match file_schema f None with
      | None => None
      | Some schema_error =>
          match passphrase ≫= normalized_text with
          | None =>
              if negb (file_plaintext f) || sqlite_error_indicates_encryption schema_error
              then Some (source_db_passphrase_required, $"Source database appears encrypted. Enter source database password.")
              else Some (source_db_open_failed, or_failed schema_error)
          | Some key =>
              match file_open f 1 with
              | Some open_error => Some (source_db_open_failed, or_failed open_error)
              | None =>
                  match file_key f key with
                  | Some key_error => Some (source_db_passphrase_invalid, or_else key_error $"Invalid source database password.")
                  | None =>
                      match file_schema f (Some key) with
                      | Some schema_error => Some (source_db_passphrase_invalid, or_else schema_error $"Invalid source database password.")
                      | None => None
                      end
                  end
              end
          end
      end
  end.

Definition read_sqlite_import_source (files : bytes -> SourceFile) (path : bytes) (passphrase : option bytes) (row_limit : Z) :
    SourceFailure + SqlImportSourceSnapshot :=
  let path := trim_ascii path in
  let f := files path in
  if bool_decide (path = []) || negb (file_is_path f) then inl (invalid_source_path, $"Selected path is invalid.")
  else if negb (file_absolute f) then inl (invalid_source_path, $"Selected path must be absolute.")
  else if negb (file_exists f) then inl (source_db_not_found, $"Selected SQLite file no longer exists.")
  else if negb (file_regular f) then inl (invalid_source_path, $"Selected path is not a SQLite file.")
  else match open_source f passphrase with
  | Some failure => inl failure
  | None =>
      if negb (file_has_accounts f) then inl (source_schema_unsupported, $"Source database does not contain an accounts table.")
      else match file_columns f with
      | None => inl (preview_generation_failed, $"Failed to inspect source schema.")
      | Some names =>
          let cols := read_table_columns names in
          match file_count f with
          | None => inl (preview_generation_failed, $"Failed to count source rows.")
          | Some total =>
              if negb (file_prepares f) then inl (preview_generation_failed, $"Failed to prepare source row query.")
              else if negb (file_binds f) then inl (preview_generation_failed, $"Failed to apply source row limit.")
              else
                let limit := Z.min (if row_limit =? 0 then kSqlImportPreviewRowLimit else row_limit) kSqlImportPreviewRowLimit in
                if negb (file_ends f) then inl (preview_generation_failed, $"Failed while reading source rows.")
                else
                  let '(full_path, name, size, modified) := file_info f in
                  inr (mkSourceSnapshot
                         (mkSourceInfo full_path name size modified (schema_fingerprint_from_columns cols) (limit <? total))
                         (columns_of cols) total
                         (read_source_row (columns_of cols) <$> take (Z.to_nat limit) (file_rows f)))
          end
      end
  end.

(** ** sql_import_controller.cpp *)

Inductive SqlImportAction := kNew | kUpdate | kSkip | kInvalid.

#[global] Instance SqlImportAction_eq_dec : EqDecision SqlImportAction.
Proof. solve_decision. Defined.

Definition sql_import_action_name (action : SqlImportAction) : bytes :=
  match action with kNew => $"new" | kUpdate => $"update" | kSkip => $"skip" | kInvalid => $"invalid" end.

Definition parse_sql_import_action (value : bytes) : option SqlImportAction :=
  let normalized := to_lower_ascii (trim_ascii value) in
  if bool_decide (normalized = $"new") then Some kNew
  else if bool_decide (normalized = $"update") then Some kUpdate
  else if bool_decide (normalized = $"skip") then Some kSkip
  else if bool_decide (normalized = $"invalid") then Some kInvalid
  else None.

Definition kDefaultProvider : bytes := $"openai".

(** The first account of each identifier. *)
Record DestinationIndex := mkIndex { by_chatgpt_account_id : gmap bytes Z; by_email_provider : gmap bytes Z }.

Record ImportCandidate := mkImportCandidate {
  source_row : SqlImportSourceRow;
  destination_account_id : option Z;
  matched_by_chatgpt_account_id : bool;
  candidate_email : option bytes;
  candidate_provider : option bytes;
  candidate_chatgpt_account_id : option bytes;
  candidate_plan_type : option bytes;
  status_update : option bytes;
  status_insert : bytes;
  candidate_has_access_token : bool;
  candidate_has_refresh_token : bool;
  candidate_has_id_token : bool;
  action : SqlImportAction;
  reason : bytes;
  dedupe_key : bytes;
}.

Definition judged (a : SqlImportAction) (why : bytes) (c : ImportCandidate) : ImportCandidate :=
  mkImportCandidate (source_row c) (destination_account_id c) (matched_by_chatgpt_account_id c) (candidate_email c) (candidate_provider c)
    (candidate_chatgpt_account_id c) (candidate_plan_type c) (status_update c) (status_insert c) (candidate_has_access_token c)
    (candidate_has_refresh_token c) (candidate_has_id_token c) a why (dedupe_key c).

Definition make_email_provider_key (email provider : bytes) : bytes := email ++ $"|" ++ provider.

Definition normalize_identity (value : option bytes) (lower_ascii : bool) : option bytes :=
  trimmed ← value ≫= normalized_text; Some (if lower_ascii then to_lower_ascii trimmed else trimmed).

Definition normalize_provider (provider : option bytes) (column_present : bool) : option bytes :=
  match normalize_identity provider true with
  | Some p => Some p
  | None => if column_present then None else Some kDefaultProvider
  end.

Definition normalize_status_update (value : option bytes) : option bytes :=
  s ← normalize_identity value true;
  let s := if bool_decide (s = $"quota_exceeded") then $"quota_blocked" else s in
  if bool_decide (s ∈ [$"active"; $"paused"; $"rate_limited"; $"deactivated"; $"quota_blocked"]) then Some s else None.

Definition status_for_insert (value : option bytes) : bytes := default $"active" (normalize_status_update value).

Definition has_token_value (token : option bytes) : bool := match token with Some (_ :: _) => true | _ => false end.

Definition normalize_source_key (key : option bytes) : option bytes := key ≫= normalized_text.

(** [try_emplace]. *)
Definition emplace (key : option bytes) (account_id : Z) (m : gmap bytes Z) : gmap bytes Z :=
  match key with Some k => match m !! k with Some _ => m | None => <[k := account_id]> m end | None => m end.

Definition email_provider_of (email provider : option bytes) : option bytes :=
  email ← email; provider ← provider; Some (make_email_provider_key email provider).

Definition index_row (index : DestinationIndex) (r : AccountRow) : DestinationIndex :=
  mkIndex (emplace (normalize_identity (chatgpt_account_id r) false) (id r) (by_chatgpt_account_id index))
    (emplace (email_provider_of (normalize_identity (email r) true) (normalize_identity (provider r) true)) (id r)
       (by_email_provider index)).

Definition load_destination_index (t : accounts_table) : DestinationIndex := foldl index_row (mkIndex ∅ ∅) (rows t).

(** Whether statements run: the update and insertion of a row by its source
    row, a statement that runs changing a row where there is one; what the
    settings say of overwriting; and the files. *)
Record ImportEnv := mkImportEnv {
  import_opened : bool;
  schema_ready : bool;
  index_read : bool;
  overwrite_setting : option bool;
  resolved : bool;
  begins : bool;
  commits : bool;
  prepares : bool;
  row_runs : bytes -> bool;
  import_now : Z;
  import_guard : GuardOverride;
  import_files : bytes -> SourceFile;
}.

Section tokens.
Context {sodium : Sodium} {evp : Evp} (crypto : TokenStorageCryptoState).

(** A token of the source as it is stored; [Ret None]: there is none. *)
Definition normalize_token_for_storage (nonce : bytes) (token source_encryption_key : option bytes) : except (option bytes) :=
  match token ≫= normalized_text with
  | None => Ret None
  | Some t =>
      if token_storage_value_is_encrypted t then Ret (Some t)
      else if looks_like_python_fernet_token t then
        match source_encryption_key with
        | None => Throw $"Encrypted source token detected. Provide source encryption key."
        | Some key =>
            match decrypt_python_fernet_token t key with
            | Throw decrypt_error => Throw (or_else decrypt_error $"Failed to decrypt source token.")
            | Ret plaintext => @Some bytes <$> encrypt_token_for_storage crypto nonce plaintext
            end
        end
      else @Some bytes <$> encrypt_token_for_storage crypto nonce t
  end.

(** One token of a row: a token that is there and cannot be stored fails, with
    the name it goes by and what is wrong with it. *)
Definition normalize_column (nonce : bytes) (name : bytes) (token key : option bytes) : bytes * bytes + option bytes :=
  match normalize_token_for_storage nonce token key with
  | Throw token_error => inl (name, token_error)
  | Ret None => if bool_decide (is_Some token) then inl (name, []) else inr None
  | Ret stored => inr stored
  end.

Definition StoredTokens : Type := option bytes * option bytes * option bytes.

(** The three of them, up to the first that fails. *)
Definition normalize_tokens (nonce : nat -> bytes) (row : SqlImportSourceRow) (key : option bytes) : bytes * bytes + StoredTokens :=
  match normalize_column (nonce 0%nat) $"access" (source_access_token row) key with
  | inl failure => inl failure
  | inr access =>
      match normalize_column (nonce 1%nat) $"refresh" (source_refresh_token row) key with
      | inl failure => inl failure
      | inr refresh =>
          match normalize_column (nonce 2%nat) $"id" (source_id_token row) key with
          | inl failure => inl failure
          | inr id_token => inr (access, refresh, id_token)
          end
      end
  end.

Definition is_fernet (token : option bytes) : bool := match token with Some t => looks_like_python_fernet_token t | None => false end.

Definition row_requires_source_encryption_key (row : SqlImportSourceRow) : bool :=
  is_fernet (source_access_token row) || is_fernet (source_refresh_token row) || is_fernet (source_id_token row).

Definition validate_candidate_tokens_for_preview (nonce : nat -> bytes) (key : option bytes) (c : ImportCandidate) : ImportCandidate :=
  if bool_decide (action c = kInvalid) || bool_decide (action c = kSkip) then c
  else if bool_decide (key = None) && row_requires_source_encryption_key (source_row c)
  then judged (action c) $"Encrypted source token detected. Enter source encryption key and rescan." c
  else match normalize_tokens nonce (source_row c) key with
       | inl (name, token_error) =>
           judged kInvalid (or_else token_error ($"Failed to normalize " ++ name ++ $" token for storage.")) c
       | inr _ => c
       end.

(** The account a row is taken for: by its identifier at the provider if it
    has one, else by its address and provider. *)
Definition match_candidate (row : SqlImportSourceRow) (cols : SqlImportSourceColumns) (index : DestinationIndex) : ImportCandidate :=
  let email := normalize_identity (source_email row) true in
  let provider := normalize_provider (source_provider row) (has_provider cols) in
  let account := normalize_identity (source_chatgpt_account_id row) false in
  let '(key, destination, by_account) :=
    match account, email_provider_of email provider with
    | Some a, _ => ($"chatgpt_account_id:" ++ a, by_chatgpt_account_id index !! a, bool_decide (is_Some (by_chatgpt_account_id index !! a)))
    | None, Some ep => ($"email_provider:" ++ ep, by_email_provider index !! ep, false)
    | None, None => ([], None, false)
    end in
  mkImportCandidate row destination by_account email provider account (normalize_identity (source_plan_type row) true)
    (normalize_status_update (source_status row)) (status_for_insert (source_status row))
    (has_token_value (source_access_token row)) (has_token_value (source_refresh_token row)) (has_token_value (source_id_token row))
    kSkip [] key.

Definition make_candidate (cols : SqlImportSourceColumns) (row : SqlImportSourceRow) (index : DestinationIndex)
    (import_without_overwrite : bool) (seen : gset bytes) : ImportCandidate * gset bytes :=
  let c := match_candidate row cols index in
  if bool_decide (dedupe_key c = []) then (judged kInvalid $"Missing identity (chatgpt_account_id or email/provider)." c, seen)
  else if bool_decide (dedupe_key c ∈ seen) then (judged kSkip $"Duplicate source dedupe key." c, seen)
  else
    let seen := {[ dedupe_key c ]} ∪ seen in
    (if negb (candidate_has_access_token c) && negb (candidate_has_refresh_token c) && negb (candidate_has_id_token c)
     then judged kInvalid $"Missing auth token payload." c
     else match destination_account_id c with
     | Some _ =>
         if import_without_overwrite then judged kSkip $"Existing account match and overwrite is disabled." c
         else judged kUpdate (if matched_by_chatgpt_account_id c then $"Matched by chatgpt_account_id." else $"Matched by email/provider.") c
     | None => judged kNew $"No destination match." c
     end, seen).

(** ** prepare_import *)

Record PreparedImport := mkPrepared {
  source_snapshot : SqlImportSourceSnapshot;
  prepared_without_overwrite : bool;
  requires_source_encryption_key : bool;
  requires_source_database_passphrase : bool;
  candidates : list ImportCandidate;
  warnings : list bytes;
}.

Definition error_status_of (error : SqlImportSourceError) : Z :=
  match error with source_db_not_found => 404 | preview_generation_failed => 500 | _ => 400 end.

Fixpoint make_candidates (nonce : bytes -> nat -> bytes) (cols : SqlImportSourceColumns) (index : DestinationIndex)
    (without_overwrite : bool) (key : option bytes) (seen : gset bytes) (rs : list SqlImportSourceRow) : list ImportCandidate :=
  match rs with
  | [] => []
  | row :: rs =>
      let '(c, seen) := make_candidate cols row index without_overwrite seen in
      validate_candidate_tokens_for_preview (nonce (source_row_id row)) key c ::
      make_candidates nonce cols index without_overwrite key seen rs
  end.

Record ImportRequest := mkImportRequest {
  request_source_path : bytes;
  request_source_encryption_key : option bytes;
  request_source_database_passphrase : option bytes;
  request_import_without_overwrite : option bool;
  request_overrides : list (bytes * SqlImportAction);
  request_row_limit : Z;
}.

Definition row_limit_of (r : ImportRequest) : Z := if request_row_limit r =? 0 then kSqlImportPreviewRowLimit else request_row_limit r.

Definition Refusal : Type := Z * bytes * bytes.

Definition prepare_import (e : ImportEnv) (nonce : bytes -> nat -> bytes) (r : ImportRequest) (t : accounts_table) :
    Refusal + PreparedImport :=
  if negb (schema_ready e) then inl (500, $"db_unavailable", $"Database unavailable")
  else
    let passphrase := normalize_source_key (request_source_database_passphrase r) in
    match read_sqlite_import_source (import_files e) (request_source_path r) passphrase (row_limit_of r) with
    | inl (error, message) =>
        inl (error_status_of error, sql_import_source_error_code error, or_else message $"Failed to read source database.")
    | inr snapshot =>
        if negb (index_read e) then inl (500, $"preview_generation_failed", $"Failed to read destination accounts.")
        else
          let without_overwrite :=
            match request_import_without_overwrite r with Some b => b | None => default false (overwrite_setting e) end in
          let key := normalize_source_key (request_source_encryption_key r) in
          let requires := existsb row_requires_source_encryption_key (source_rows snapshot) in
          inr (mkPrepared snapshot without_overwrite requires (bool_decide (is_Some passphrase))
                 (make_candidates nonce (columns snapshot) (load_destination_index t) without_overwrite key ∅ (source_rows snapshot))
                 ((if truncated (source snapshot) then [$"Preview truncated to the first 2000 rows."] else []) ++
                  (if requires && bool_decide (key = None)
                   then [$"Encrypted source tokens detected. Enter source encryption key to import login credentials."] else [])))
    end.

(** What both calls do first. *)
Definition begin_import (e : ImportEnv) (nonce : bytes -> nat -> bytes) (r : ImportRequest) (t : accounts_table) :
    Refusal + PreparedImport :=
  let g := check_linearizable_read_access $"accounts" (import_guard e) in
  if negb (guard_allow g) then inl (guard_status g, guard_code g, guard_message g)
  else if negb (import_opened e) then inl (500, $"db_unavailable", $"Database unavailable")
  else prepare_import e nonce r t.

(** ** preview_sqlite_import *)

Record SqlImportPreviewTotals := mkPreviewTotals { preview_scanned : Z; new_count : Z; update_count : Z; skip_count : Z; invalid_count : Z }.

Definition count_action (a : SqlImportAction) (cs : list ImportCandidate) : Z := size_of (filter (fun c => action c = a) cs).

Definition compute_preview_totals (cs : list ImportCandidate) : SqlImportPreviewTotals :=
  mkPreviewTotals (size_of cs) (count_action kNew cs) (count_action kUpdate cs) (count_action kSkip cs) (count_action kInvalid cs).

Record SqlImportPreviewRow := mkPreviewRow {
  row_source_id : bytes; row_dedupe_key : bytes; row_email : option bytes; row_provider : option bytes; row_plan_type : option bytes;
  row_has_access_token : bool; row_has_refresh_token : bool; row_has_id_token : bool; row_action : SqlImportAction; row_reason : bytes;
}.

Definition preview_row (c : ImportCandidate) : SqlImportPreviewRow :=
  mkPreviewRow (source_row_id (source_row c)) (dedupe_key c) (candidate_email c) (candidate_provider c) (candidate_plan_type c)
    (candidate_has_access_token c) (candidate_has_refresh_token c) (candidate_has_id_token c) (action c) (reason c).

Record SqlImportPreviewPayload := mkPreview {
  preview_source : SqlImportSourceInfo;
  preview_totals : SqlImportPreviewTotals;
  preview_requires_key : bool;
  preview_requires_passphrase : bool;
  preview_rows : list SqlImportPreviewRow;
  preview_warnings : list bytes;
}.

Definition preview_sqlite_import (e : ImportEnv) (nonce : bytes -> nat -> bytes) (r : ImportRequest) (t : accounts_table) :
    Refusal + SqlImportPreviewPayload :=
  match begin_import e nonce r t with
  | inl refused => inl refused
  | inr p =>
      inr (mkPreview (source (source_snapshot p)) (compute_preview_totals (candidates p)) (requires_source_encryption_key p)
             (requires_source_database_passphrase p) (preview_row <$> candidates p) (warnings p))
  end.

(** ** apply_sqlite_import *)

Record SqlImportApplyTotals := mkApplyTotals { applied_scanned : Z; inserted : Z; updated : Z; skipped : Z; invalid : Z; import_failed : Z }.

Inductive Outcome := Inserted | Updated | Skipped | Invalid | Failed.

Definition tally (o : Outcome) (n : SqlImportApplyTotals) : SqlImportApplyTotals :=
  match o with
  | Inserted => mkApplyTotals (applied_scanned n) (inserted n + 1) (updated n) (skipped n) (invalid n) (import_failed n)
  | Updated => mkApplyTotals (applied_scanned n) (inserted n) (updated n + 1) (skipped n) (invalid n) (import_failed n)
  | Skipped => mkApplyTotals (applied_scanned n) (inserted n) (updated n) (skipped n + 1) (invalid n) (import_failed n)
  | Invalid => mkApplyTotals (applied_scanned n) (inserted n) (updated n) (skipped n) (invalid n + 1) (import_failed n)
  | Failed => mkApplyTotals (applied_scanned n) (inserted n) (updated n) (skipped n) (invalid n) (import_failed n + 1)
  end.

(** The last override of a row; one without a row is left out. *)
Definition override_of (overrides : list (bytes * SqlImportAction)) (row_id : bytes) : option SqlImportAction :=
  snd <$> last (filter (fun o => o.1 = row_id /\ o.1 <> []) overrides).

(** What is done with a candidate, and whether its override was refused. *)
Definition decide_action (overrides : list (bytes * SqlImportAction)) (c : ImportCandidate) : SqlImportAction * bool :=
  let a := default (action c) (override_of overrides (source_row_id (source_row c))) in
  if bool_decide (action c = kInvalid) && negb (bool_decide (a = kInvalid)) && negb (bool_decide (a = kSkip)) then (kInvalid, true)
  else (a, false).

Definition for_row (c : ImportCandidate) (what : bytes) : bytes := $"sourceRowId=" ++ source_row_id (source_row c) ++ what.

Definition has_usage_telemetry (row : SqlImportSourceRow) : bool :=
  bool_decide (is_Some (source_primary_percent row)) || bool_decide (is_Some (source_secondary_percent row)) ||
  bool_decide (is_Some (source_primary_window row)) || bool_decide (is_Some (source_secondary_window row)) ||
  bool_decide (is_Some (source_primary_reset row)) || bool_decide (is_Some (source_secondary_reset row)).

(** The INSERT. *)
Definition imported_row (account_id : Z) (c : ImportCandidate) (tokens : StoredTokens) (now : Z) : AccountRow :=
  let row := source_row c in
  let '(access, refresh, id_token) := tokens in
  mkAccountRow account_id (candidate_email c) (candidate_provider c) (candidate_chatgpt_account_id c) (candidate_plan_type c)
    access refresh id_token (Some now) (status_insert c) (source_primary_percent row) (source_secondary_percent row)
    (source_primary_window row) (source_secondary_window row) (source_primary_reset row) (source_secondary_reset row)
    (if has_usage_telemetry row then Some now else None) 0 now.

(** [CASE WHEN include THEN value ELSE column END]: a value is included when its
    column is in the source and it is not null. *)
Definition included {A} (has : bool) (value current : option A) : option A :=
  if has then match value with Some v => Some v | None => current end else current.

Definition includes {A} (has : bool) (value : option A) : bool := has && bool_decide (is_Some value).

(** The UPDATE. *)
Definition updated_row (cols : SqlImportSourceColumns) (c : ImportCandidate) (tokens : StoredTokens) (now : Z) (r : AccountRow) : AccountRow :=
  let row := source_row c in
  let '(access, refresh, id_token) := tokens in
  let s := default (status r) (included (has_status cols) (status_update c) None) in
  let telemetry :=
    includes (has_quota_primary_percent cols) (source_primary_percent row) || includes (has_quota_secondary_percent cols) (source_secondary_percent row) ||
    includes (has_quota_primary_limit_window_seconds cols) (source_primary_window row) ||
    includes (has_quota_secondary_limit_window_seconds cols) (source_secondary_window row) ||
    includes (has_quota_primary_reset_at_ms cols) (source_primary_reset row) ||
    includes (has_quota_secondary_reset_at_ms cols) (source_secondary_reset row) in
  mkAccountRow (id r) (included (has_email cols) (candidate_email c) (email r)) (included (has_provider cols) (candidate_provider c) (provider r))
    (included (has_chatgpt_account_id cols) (candidate_chatgpt_account_id c) (chatgpt_account_id r))
    (included (has_plan_type cols) (candidate_plan_type c) (plan_type r))
    (included (has_access_token_encrypted cols) access (access_token_encrypted r))
    (included (has_refresh_token_encrypted cols) refresh (refresh_token_encrypted r))
    (included (has_id_token_encrypted cols) id_token (id_token_encrypted r)) (last_refresh r) s
    (included (has_quota_primary_percent cols) (source_primary_percent row) (quota_primary_percent r))
    (included (has_quota_secondary_percent cols) (source_secondary_percent row) (quota_secondary_percent r))
    (included (has_quota_primary_limit_window_seconds cols) (source_primary_window row) (quota_primary_limit_window_seconds r))
    (included (has_quota_secondary_limit_window_seconds cols) (source_secondary_window row) (quota_secondary_limit_window_seconds r))
    (included (has_quota_primary_reset_at_ms cols) (source_primary_reset row) (quota_primary_reset_at_ms r))
    (included (has_quota_secondary_reset_at_ms cols) (source_secondary_reset row) (quota_secondary_reset_at_ms r))
    (if telemetry then Some now else usage_telemetry_refreshed_at r)
    (if bool_decide (s = $"active") then routing_pinned r else 0) now.

(** One candidate: what becomes of it, what is said of it, and the table. *)
Definition apply_candidate (e : ImportEnv) (nonce : bytes -> nat -> bytes) (cols : SqlImportSourceColumns) (key : option bytes)
    (overrides : list (bytes * SqlImportAction)) (c : ImportCandidate) (t : accounts_table) : Outcome * list bytes * accounts_table :=
  let '(a, refused) := decide_action overrides c in
  let said := if refused then [for_row c $" override ignored for invalid row."] else [] in
  match a with
  | kSkip => (Skipped, said, t)
  | kInvalid => (Invalid, said, t)
  | _ =>
      match normalize_tokens (nonce (source_row_id (source_row c))) (source_row c) key with
      | inl (name, token_error) =>
          (Failed, said ++ [for_row c ($" failed to normalize " ++ name ++ $" token for storage (" ++ or_else token_error $"token_error" ++ $").")], t)
      | inr tokens =>
          let broken := (Failed, said ++ [for_row c $" failed to apply destination row mutation."], t) in
          if bool_decide (a = kNew) then
            if negb (row_runs e (source_row_id (source_row c))) then broken
            else (Inserted, said, insert_account (imported_row (next_id t) c tokens (import_now e)) t)
          else match destination_account_id c with
          | None => (Failed, said ++ [for_row c $" requested update but no destination account match was found."], t)
          | Some i =>
              if negb (row_runs e (source_row_id (source_row c))) then broken
              else
                let '(changes, t') := update_where (Accounts.has_id i) (updated_row cols c tokens (import_now e)) t in
                if changes <=? 0 then (Failed, said ++ [for_row c $" update did not affect destination rows."], t)
                else (Updated, said, t')
          end
      end
  end.

Fixpoint apply_candidates (e : ImportEnv) (nonce : bytes -> nat -> bytes) (cols : SqlImportSourceColumns) (key : option bytes)
    (overrides : list (bytes * SqlImportAction)) (cs : list ImportCandidate) (n : SqlImportApplyTotals) (said : list bytes)
    (t : accounts_table) : SqlImportApplyTotals * list bytes * accounts_table :=
  match cs with
  | [] => (n, said, t)
  | c :: cs =>
      let '(o, more, t) := apply_candidate e nonce cols key overrides c t in
      apply_candidates e nonce cols key overrides cs (tally o n) (said ++ more) t
  end.

(** Overrides of rows that are not there; a hash table has them in some order,
    here that of their rows. *)
Definition unused_overrides (overrides : list (bytes * SqlImportAction)) (cs : list ImportCandidate) : list bytes :=
  (fun row_id => $"sourceRowId=" ++ row_id ++ $" override ignored because source row was not found.") <$>
    merge_sort bytes_le (remove_dups (filter (fun row_id => row_id <> [] /\ row_id ∉ (source_row_id ∘ source_row <$> cs)) (fst <$> overrides))).

Record SqlImportApplyPayload := mkApplied { apply_totals : SqlImportApplyTotals; apply_warnings : list bytes }.

Definition transaction_failed : Refusal := (500, $"import_transaction_failed", $"Import failed. No partial changes were saved.").

Definition apply_sqlite_import (e : ImportEnv) (nonce : bytes -> nat -> bytes) (r : ImportRequest) (t : accounts_table) :
    (Refusal + SqlImportApplyPayload) * accounts_table :=
  match begin_import e nonce r t with
  | inl refused => (inl refused, t)
  | inr p =>
      if negb (resolved e) then (inl (500, $"db_unavailable", $"Database unavailable"), t)
      else if negb (begins e) || negb (prepares e) then (inl transaction_failed, t)
      else
        let key := normalize_source_key (request_source_encryption_key r) in
        let '(n, said, t') :=
          apply_candidates e nonce (columns (source_snapshot p)) key (request_overrides r) (candidates p)
            (mkApplyTotals (size_of (candidates p)) 0 0 0 0 0) (warnings p) t in
        if negb (commits e) then (inl transaction_failed, t)
        else (inr (mkApplied n (said ++ unused_overrides (request_overrides r) (candidates p))), t')
  end.

End tokens.

(** ** What an import guarantees *)

Definition outcomes (n : SqlImportApplyTotals) : Z := inserted n + updated n + skipped n + invalid n + import_failed n.

(** What identifies each row: its number and its account at the provider. *)
Definition ident (r : AccountRow) : Z * option bytes := (id r, normalize_identity (chatgpt_account_id r) false).
Definition idents (t : accounts_table) : list (Z * option bytes) := ident <$> rows t.

Lemma ids_of_idents t : id <$> rows t = fst <$> idents t.
Proof. unfold idents. rewrite <- list_fmap_compose. done. Qed.

Lemma normalize_identity_trim value : normalize_identity (normalize_identity value false) false = normalize_identity value false.
Proof.
  destruct value as [v|]; [|done]. unfold normalize_identity, normalized_text. cbn. case_bool_decide as E; [done|]. cbn.
  by rewrite trim_ascii_idem, bool_decide_false.
Qed.

Lemma emplace_lookup key i m k :
  emplace key i m !! k = match m !! k with Some j => Some j | None => if bool_decide (key = Some k) then Some i else None end.
Proof.
  unfold emplace. destruct key as [k'|]; [|rewrite bool_decide_false by done; by destruct (m !! k)].
  destruct (decide (k' = k)) as [->|Hne].
  - rewrite bool_decide_true by done. destruct (m !! k) eqn:E; [done|]. by rewrite lookup_insert_eq.
  - rewrite bool_decide_false by congruence. destruct (m !! k'); [by destruct (m !! k)|]. rewrite lookup_insert_ne by done. by destruct (m !! k).
Qed.

(** The index finds an account just when a row has it. *)
Lemma index_spec t a :
  match by_chatgpt_account_id (load_destination_index t) !! a with
  | Some i => (i, Some a) ∈ idents t
  | None => forall i, (i, Some a) ∉ idents t
  end.
Proof.
  unfold load_destination_index, idents. assert (forall rs index,
    match by_chatgpt_account_id (foldl index_row index rs) !! a with
    | Some i => (by_chatgpt_account_id index !! a = Some i) \/ (i, Some a) ∈ ident <$> rs
    | None => by_chatgpt_account_id index !! a = None /\ forall i, (i, Some a) ∉ ident <$> rs
    end) as H.
  { induction rs as [|r rs IH]; intros index.
    - cbn. destruct (by_chatgpt_account_id index !! a); [by left|]. split; [done|]. intros i. apply not_elem_of_nil.
    - cbn [foldl]. specialize (IH (index_row index r)). destruct (by_chatgpt_account_id (foldl _ _ rs) !! a) as [i|].
      + destruct IH as [IH|IH]; [|right; by right]. unfold index_row in IH. cbn in IH. rewrite emplace_lookup in IH.
        destruct (by_chatgpt_account_id index !! a); [by left|]. case_bool_decide as E; [|done]. right. injection IH as <-.
        rewrite fmap_cons. unfold ident at 1. rewrite E. left.
      + destruct IH as [IH1 IH2]. unfold index_row in IH1. cbn in IH1. rewrite emplace_lookup in IH1.
        destruct (by_chatgpt_account_id index !! a); [done|]. split; [done|]. case_bool_decide as E; [done|]. intros i.
        rewrite fmap_cons. apply not_elem_of_cons. split; [|apply IH2]. unfold ident. congruence. }
  specialize (H (rows t) (mkIndex ∅ ∅)). destruct (by_chatgpt_account_id _ !! a); [|apply H]. by destruct H.
Qed.

Lemma index_email_spec t k i : by_email_provider (load_destination_index t) !! k = Some i -> i ∈ (id <$> rows t).
Proof.
  unfold load_destination_index. assert (forall rs index,
    by_email_provider (foldl index_row index rs) !! k = Some i -> by_email_provider index !! k = Some i \/ i ∈ (id <$> rs)) as H.
  { induction rs as [|r rs IH]; intros index E; [by left|]. destruct (IH _ E) as [E'|]; [|right; by right].
    unfold index_row in E'. cbn in E'. rewrite emplace_lookup in E'. destruct (by_email_provider index !! k); [by left|].
    case_bool_decide; [|done]. injection E' as <-. right. left. }
  intros E. by destruct (H _ _ E).
Qed.

(** A candidate of a table: what its action promises. *)
Record candidate_ok (t : accounts_table) (c : ImportCandidate) : Prop := {
  candidate_account : candidate_chatgpt_account_id c = normalize_identity (source_chatgpt_account_id (source_row c)) false;
  candidate_new : action c = kNew -> forall a, candidate_chatgpt_account_id c = Some a ->
    dedupe_key c = $"chatgpt_account_id:" ++ a /\ forall i, (i, Some a) ∉ idents t;
  candidate_update : forall i, destination_account_id c = Some i ->
    i ∈ (id <$> rows t) /\ forall a, candidate_chatgpt_account_id c = Some a -> (i, Some a) ∈ idents t;
  candidate_matched : action c = kUpdate -> is_Some (destination_account_id c);
}.

Definition acts (c : ImportCandidate) : bool := bool_decide (action c = kNew) || bool_decide (action c = kUpdate).

Section import.
Context {sodium : Sodium} {evp : Evp} (crypto : TokenStorageCryptoState) (strict : bool).

Lemma match_ok row cols t : let c := match_candidate row cols (load_destination_index t) in
  source_row c = row /\ candidate_chatgpt_account_id c = normalize_identity (source_chatgpt_account_id row) false /\
  (forall a, candidate_chatgpt_account_id c = Some a -> dedupe_key c = $"chatgpt_account_id:" ++ a /\
     (destination_account_id c = None -> forall i, (i, Some a) ∉ idents t)) /\
  (forall i, destination_account_id c = Some i ->
     i ∈ (id <$> rows t) /\ forall a, candidate_chatgpt_account_id c = Some a -> (i, Some a) ∈ idents t).
Proof.
  unfold match_candidate. destruct (normalize_identity (source_chatgpt_account_id row) false) as [a|] eqn:Ea.
  - pose proof (index_spec t a) as Hi. cbn. split_and!; try done.
    + intros a' [= <-]. split; [done|]. intros E. by rewrite E in Hi.
    + intros i E. rewrite E in Hi. split; [|by intros a' [= <-]]. rewrite ids_of_idents. apply list_elem_of_fmap. by exists (i, Some a).
  - destruct (email_provider_of _ _) as [ep|]; cbn; split_and!; try done. intros i E. split; [by eapply index_email_spec|done].
Qed.

Lemma candidate_ok_judged t c a why :
  candidate_ok t c -> (a = kNew -> action c = kNew) -> (a = kUpdate -> action c = kUpdate) -> candidate_ok t (judged a why c).
Proof. intros [H1 H2 H3 H4] Hn Hu. split; cbn; [exact H1|intros E; apply H2; auto|exact H3|intros E; apply H4; auto]. Qed.

Lemma make_candidate_ok cols row t without seen :
  let '(c, seen') := make_candidate cols row (load_destination_index t) without seen in
  candidate_ok t c /\ source_row c = row /\
  seen' = (if acts c then {[ dedupe_key c ]} ∪ seen else seen') /\ seen ⊆ seen' /\ (acts c = true -> dedupe_key c ∉ seen) /\
  (action c = kUpdate -> without = false).
Proof.
  destruct (match_ok row cols t) as (H1 & H2 & H3 & H4). unfold make_candidate. set (c := match_candidate _ _ _) in *.
  assert (forall a why, (a = kNew -> destination_account_id c = None) -> (a = kUpdate -> is_Some (destination_account_id c)) ->
    candidate_ok t (judged a why c)) as Hj.
  { intros a why Hn Hu. split; cbn.
    - by rewrite H1.
    - intros -> acc Hacc. destruct (H3 acc Hacc) as [Hk Hi]. split; [done|]. by apply Hi, Hn.
    - done.
    - done. }
  case_bool_decide as Ek; [split_and!; [by apply Hj|done|done|done|done|done]|].
  case_bool_decide as Es; [split_and!; [by apply Hj|done|done|done|done|done]|].
  destruct (_ && _); [split_and!; [by apply Hj|done|done|set_solver|done|done]|].
  destruct (destination_account_id c) as [i|] eqn:Ed.
  - destruct without; split_and!; try done; [by apply Hj|set_solver|by apply Hj|set_solver].
  - split_and!; try done; [by apply Hj|set_solver].
Qed.

Lemma validate_ok t nonce key c : candidate_ok t c ->
  let c' := validate_candidate_tokens_for_preview crypto nonce key c in
  candidate_ok t c' /\ source_row c' = source_row c /\ dedupe_key c' = dedupe_key c /\ (acts c' = true -> acts c = true) /\
  (action c' = kUpdate -> action c = kUpdate).
Proof.
  intros H. unfold validate_candidate_tokens_for_preview. destruct (_ || _); [done|]. destruct (_ && _).
  { split_and!; try done. by apply candidate_ok_judged. }
  destruct (normalize_tokens _ _ _ _) as [[name e]|]; [|done]. split_and!; try done. by apply candidate_ok_judged.
Qed.

Lemma make_candidates_ok nonce cols t without key seen rs :
  let cs := make_candidates crypto nonce cols (load_destination_index t) without key seen rs in
  source_row <$> cs = rs /\ Forall (candidate_ok t) cs /\ Forall (fun c => acts c = true -> dedupe_key c ∉ seen) cs /\
  NoDup (dedupe_key <$> filter (fun c => acts c = true) cs) /\ Forall (fun c => action c = kUpdate -> without = false) cs.
Proof.
  revert seen. induction rs as [|row rs IH]; intros seen; [split_and!; constructor|]. cbn [make_candidates].
  pose proof (make_candidate_ok cols row t without seen) as Hm. destruct (make_candidate _ _ _ _ _) as [c seen'].
  destruct Hm as (Hc & Hr & Es & Hsub & Hd & Hu). destruct (validate_ok t (nonce (source_row_id row)) key c Hc) as (V1 & V2 & V3 & V4 & V5).
  set (c' := validate_candidate_tokens_for_preview _ _ _ _) in *. destruct (IH seen') as (I1 & I2 & I3 & I4 & I5). split_and!.
  - rewrite fmap_cons, I1. by rewrite V2, Hr.
  - by constructor.
  - constructor; [rewrite V3; auto|]. eapply Forall_impl; [exact I3|]. set_solver.
  - rewrite filter_cons. destruct (decide (acts c' = true)) as [Ea|Ea]; [|done]. rewrite fmap_cons. apply NoDup_cons. split; [|done].
    intros (c0 & E & (Ha & Hin)%list_elem_of_filter)%list_elem_of_fmap. rewrite Forall_forall in I3. specialize (I3 c0 Hin Ha).
    apply I3. rewrite <- E, V3, Es, (V4 Ea). set_solver.
  - constructor; [auto|done].
Qed.

(** ** The rows that are read *)

Definition source_quotas_ok (row : SqlImportSourceRow) : Prop :=
  quotas_ok (source_primary_percent row) (source_secondary_percent row) (source_primary_window row) (source_secondary_window row)
    (source_primary_reset row) (source_secondary_reset row).

Lemma valid_percent_ok v : percent_ok (valid_percent v).
Proof.
  intros p. unfold valid_percent. destruct v as [v|]; [|done]. destruct (Z.ltb_spec v 0); [done|]. destruct (Z.ltb_spec 100 v); [done|].
  intros [= <-]. lia.
Qed.

Lemma valid_window_ok v : positive (valid_window_seconds v).
Proof.
  intros p. unfold valid_window_seconds. destruct v as [v|]; [|done]. destruct (Z.leb_spec v 0); [done|]. destruct (_ <? v); [done|].
  by intros [= <-].
Qed.

Lemma valid_reset_ok v : positive (valid_reset_at_ms v).
Proof. intros p. unfold valid_reset_at_ms. destruct v as [v|]; [|done]. destruct (Z.leb_spec v 0); [done|]. by intros [= <-]. Qed.

Lemma read_source_row_ok cols row : source_quotas_ok (read_source_row cols row).
Proof. split; cbn; auto using valid_percent_ok, valid_window_ok, valid_reset_ok. Qed.

Lemma read_rows_ok files path passphrase limit snapshot :
  read_sqlite_import_source files path passphrase limit = inr snapshot -> Forall source_quotas_ok (source_rows snapshot).
Proof.
  unfold read_sqlite_import_source. cbv zeta. intros E. repeat case_match; simplify_eq;
    (apply Forall_fmap, Forall_forall; intros r _; apply read_source_row_ok).
Qed.

(** ** One row *)

Lemma included_ok {A} (P : option A -> Prop) has value current : P value -> P current -> P (included has value current).
Proof. intros H1 H2. unfold included. destruct has; [|done]. by destruct value. Qed.

Lemma updated_row_ok cols c tokens now r : source_quotas_ok (source_row c) -> row_ok strict r -> row_ok strict (updated_row cols c tokens now r).
Proof.
  intros [S1 S2 S3 S4 S5 S6] [_ [Q1 Q2 Q3 Q4 Q5 Q6]]. destruct tokens as [[access refresh] id_token]. split.
  - unfold pinned, updated_row. cbn [routing_pinned status]. case_bool_decide as E; [by rewrite E|done].
  - split; unfold updated_row; cbn [quota_primary_percent quota_secondary_percent quota_primary_limit_window_seconds
      quota_secondary_limit_window_seconds quota_primary_reset_at_ms quota_secondary_reset_at_ms]; by apply included_ok.
Qed.

Lemma imported_row_ok i c tokens now : source_quotas_ok (source_row c) -> row_ok strict (imported_row i c tokens now) /\ pinned (imported_row i c tokens now) = false.
Proof. intros H. destruct tokens as [[access refresh] id_token]. split; [split; [done|exact H]|done]. Qed.

Lemma update_size p f t : size_of (rows (update_where p f t).2) = size_of (rows t).
Proof. unfold update_where. cbn. unfold size_of. by rewrite length_fmap. Qed.

Definition added (o : Outcome) : Z := match o with Inserted => 1 | _ => 0 end.

Lemma apply_candidate_ok e nonce cols key overrides c t :
  source_quotas_ok (source_row c) -> table_ok strict t ->
  let '(o, _, t') := apply_candidate crypto e nonce cols key overrides c t in
  table_ok strict t' /\ size_of (rows t') = size_of (rows t) + added o /\ next_id t' = next_id t + added o.
Proof.
  intros Hs H. unfold apply_candidate. destruct (decide_action overrides c) as [a refused].
  assert (table_ok strict t /\ size_of (rows t) = size_of (rows t) + 0 /\ next_id t = next_id t + 0) as Hsame by (split_and!; [done|lia|lia]).
  destruct a; try exact Hsame; (destruct (normalize_tokens _ _ _ _) as [[name err]|tokens]; [exact Hsame|]).
  - rewrite bool_decide_true by done. destruct (negb (row_runs _ _)); [exact Hsame|].
    destruct (imported_row_ok (next_id t) c tokens (import_now e) Hs) as [H1 H2]. split_and!.
    + apply insert_ok; [done|by destruct tokens as [[? ?] ?]|done|done].
    + cbn. rewrite size_of_app. done.
    + done.
  - rewrite bool_decide_false by done. destruct (destination_account_id c) as [i|]; [|exact Hsame].
    destruct (negb (row_runs _ _)); [exact Hsame|].
    set (f := updated_row cols c tokens (import_now e)).
    assert (table_ok strict (update_where (Accounts.has_id i) f t).2) as Hu.
    { apply update_ok; [| | |done]; unfold f.
      - intros r. by destruct tokens as [[? ?] ?].
      - intros r. destruct tokens as [[? ?] ?]. unfold pinned. cbn [updated_row routing_pinned]. by case_bool_decide.
      - intros r _ _ Hr. by apply updated_row_ok. }
    pose proof (update_size (Accounts.has_id i) f t) as Hz. destruct (update_where (Accounts.has_id i) f t) as [changes t'] eqn:E. cbn [snd] in *.
    destruct (changes <=? 0); [exact Hsame|]. split_and!; [done|rewrite Hz; cbn; lia|]. unfold update_where in E. injection E as _ <-. cbn. lia.
Qed.

Lemma tally_outcomes o n : outcomes (tally o n) = outcomes n + 1 /\ applied_scanned (tally o n) = applied_scanned n /\
  inserted (tally o n) = inserted n + added o.
Proof. destruct o; unfold outcomes; cbn; lia. Qed.

Lemma apply_candidates_ok e nonce cols key overrides cs n said t :
  Forall (fun c => source_quotas_ok (source_row c)) cs -> table_ok strict t ->
  let '(n', _, t') := apply_candidates crypto e nonce cols key overrides cs n said t in
  table_ok strict t' /\ outcomes n' = outcomes n + size_of cs /\ applied_scanned n' = applied_scanned n /\
  size_of (rows t') - size_of (rows t) = inserted n' - inserted n /\ next_id t' - next_id t = inserted n' - inserted n.
Proof.
  intros Hs. revert n said t. induction Hs as [|c cs Hc Hs IH]; intros n said t H; cbn [apply_candidates].
  { rewrite size_of_nil. split_and!; try done; lia. }
  pose proof (apply_candidate_ok e nonce cols key overrides c t Hc H) as Hstep.
  destruct (apply_candidate _ _ _ _ _ _ _ _) as [[o more] t1]. destruct Hstep as (H1 & H2 & H3).
  destruct (tally_outcomes o n) as (T1 & T2 & T3). specialize (IH (tally o n) (said ++ more) t1 H1).
  destruct (apply_candidates _ _ _ _ _ _ _ _ _ _) as [[n' said'] t2]. destruct IH as (I1 & I2 & I3 & I4 & I5).
  rewrite size_of_cons. split_and!; try done; lia.
Qed.

Lemma begin_import_ok e nonce r t p : begin_import crypto e nonce r t = inr p ->
  exists without, Forall source_quotas_ok (source_rows (source_snapshot p)) /\
    candidates p = make_candidates crypto nonce (columns (source_snapshot p)) (load_destination_index t) without
      (normalize_source_key (request_source_encryption_key r)) ∅ (source_rows (source_snapshot p)) /\
    requires_source_encryption_key p = existsb row_requires_source_encryption_key (source_rows (source_snapshot p)) /\
    without = match request_import_without_overwrite r with Some b => b | None => default false (overwrite_setting e) end.
Proof.
  unfold begin_import. cbv zeta. destruct (negb _); [done|]. destruct (negb _); [done|].
  unfold prepare_import. destruct (negb _); [done|]. cbv zeta.
  destruct (read_sqlite_import_source _ _ _ _) as [[]|snapshot] eqn:E; [done|]. destruct (negb _); [done|]. intros [= <-].
  cbn. eexists. split_and!; [by eapply read_rows_ok|done|done|done].
Qed.

(** An import is whole: refused or broken off it leaves every account as it
    was; done, it tells of every row of the source just once what became of it,
    has added as many accounts as it says, and keeps the accounts sound,
    whatever the source holds, which rows fail and what is overridden. *)
Theorem import_all_or_nothing e nonce r t :
  table_ok strict t ->
  let '(answer, t') := apply_sqlite_import crypto e nonce r t in
  match answer with
  | inl _ => t' = t
  | inr p =>
      table_ok strict t' /\ outcomes (apply_totals p) = applied_scanned (apply_totals p) /\
      size_of (rows t') = size_of (rows t) + inserted (apply_totals p)
  end.
Proof.
  intros H. unfold apply_sqlite_import. destruct (begin_import crypto e nonce r t) as [refused|p] eqn:E; [done|].
  destruct (negb (resolved e)); [done|]. destruct (_ || _); [done|].
  destruct (begin_import_ok _ _ _ _ _ E) as (without & Hs & Hc & _ & _).
  destruct (make_candidates_ok nonce (columns (source_snapshot p)) t without (normalize_source_key (request_source_encryption_key r)) ∅
    (source_rows (source_snapshot p))) as (Hrows & _). rewrite <- Hc in Hrows.
  assert (Forall (fun c => source_quotas_ok (source_row c)) (candidates p)) as Hq by (apply (Forall_fmap source_row source_quotas_ok); by rewrite Hrows).
  pose proof (apply_candidates_ok e nonce (columns (source_snapshot p)) (normalize_source_key (request_source_encryption_key r))
    (request_overrides r) (candidates p) (mkApplyTotals (size_of (candidates p)) 0 0 0 0 0) (warnings p) t Hq H) as Ha.
  destruct (apply_candidates _ _ _ _ _ _ _ _ _ _) as [[n said] t']. destruct (negb (commits e)); [done|]. cbn.
  destruct Ha as (A1 & A2 & A3 & A4 & A5). unfold outcomes in A2 at 2. cbn in *. split_and!; [done|lia|lia].
Qed.

(** ** Without overrides *)

Lemma decide_plain c : decide_action [] c = (action c, false).
Proof. unfold decide_action. cbn. destruct (action c); done. Qed.

(** The tables on the way: the rows there were keep what identifies them, and
    a new one has the account of a candidate that came before. *)
Record on_the_way (t0 t : accounts_table) (keys : list bytes) : Prop := {
  way_ok : table_ok strict t;
  way_rows : exists more, idents t = idents t0 ++ more /\
    Forall (fun p => forall a, p.2 = Some a -> $"chatgpt_account_id:" ++ a ∈ keys) more;
  way_distinct : NoDup (omap snd (idents t0)) -> NoDup (omap snd (idents t));
}.

Lemma update_idents cols c tokens now i t t0 :
  table_ok strict t -> idents t0 `prefix_of` idents t -> candidate_ok t0 c -> destination_account_id c = Some i ->
  idents (update_where (Accounts.has_id i) (updated_row cols c tokens now) t).2 = idents t.
Proof.
  intros Hok Hpre [Ha _ Hu _] Hi. destruct (Hu i Hi) as [_ Hacc]. unfold update_where, idents. cbn [snd rows].
  rewrite <- list_fmap_compose. apply list_fmap_ext. intros j r Hr%list_elem_of_lookup_2. cbn.
  destruct (Accounts.has_id i r) eqn:Eid; [|done]. apply Z.eqb_eq in Eid. destruct tokens as [[access refresh] id_token].
  unfold ident, updated_row. cbn [id chatgpt_account_id]. f_equal. unfold included. destruct (has_chatgpt_account_id cols); [|done].
  destruct (candidate_chatgpt_account_id c) as [a|] eqn:Ea; [|done]. specialize (Hacc a eq_refl).
  rewrite Ha, normalize_identity_trim.
  destruct Hpre as [more Hm]. assert ((i, Some a) ∈ idents t) as Hin by (rewrite Hm; apply elem_of_app; by left).
  unfold idents in Hin. apply list_elem_of_fmap in Hin as (r1 & E1 & Hr1). unfold ident in E1. injection E1 as E1 E2.
  assert (r1 = r) as ->; [|congruence]. eapply row_of_id; [apply Hok|exact Hr|exact Hr1|]. apply Z.eqb_eq. congruence.
Qed.

Lemma update_changes p f t r : r ∈ rows t -> p r = true -> (update_where p f t).1 <=? 0 = false.
Proof.
  intros Hr Hp. apply Z.leb_gt. unfold update_where. cbn. assert (r ∈ filter (fun r => p r = true) (rows t)) as H by (by apply list_elem_of_filter).
  destruct (filter _ (rows t)); [by apply elem_of_nil in H|]. rewrite size_of_cons. pose proof (size_of_nonneg l). lia.
Qed.

Lemma omap_snd_app (l : list (Z * option bytes)) i v : omap snd (l ++ [(i, v)]) = omap snd l ++ (match v with Some a => [a] | None => [] end).
Proof. rewrite omap_app. cbn. by destruct v. Qed.

Lemma in_omap_snd (l : list (Z * option bytes)) a : a ∈ omap snd l <-> exists i, (i, Some a) ∈ l.
Proof.
  rewrite list_elem_of_omap. split.
  - intros ([i v] & Hin & E). cbn in E. subst v. by exists i.
  - intros [i Hi]. by exists (i, Some a).
Qed.

#[local] Arguments update_where : simpl never.

(** What becomes of a candidate. *)
Definition expected (c : ImportCandidate) : Outcome :=
  match action c with kNew => Inserted | kUpdate => Updated | kSkip => Skipped | kInvalid => Invalid end.

Lemma apply_candidate_way e nonce cols key c t0 t keys :
  candidate_ok t0 c -> source_quotas_ok (source_row c) -> on_the_way t0 t keys -> (acts c = true -> dedupe_key c ∉ keys) ->
  let '(o, said, t') := apply_candidate crypto e nonce cols key [] c t in
  on_the_way t0 t' (if acts c then dedupe_key c :: keys else keys) /\
  ((forall row_id, row_runs e row_id = true) ->
   (acts c = true -> exists tokens, normalize_tokens crypto (nonce (source_row_id (source_row c))) (source_row c) key = inr tokens) ->
   o = expected c).
Proof.
  intros Hc Hq Hw Hd. pose proof (apply_candidate_ok e nonce cols key [] c t Hq (way_ok _ _ _ Hw)) as Hok.
  assert (on_the_way t0 t (if acts c then dedupe_key c :: keys else keys)) as Hsame.
  { destruct (acts c); [|done]. destruct Hw as [W1 (more & W2 & W3) W4]. split; [done| |done]. exists more. split; [done|].
    eapply Forall_impl; [exact W3|]. intros p Hp a E. right. by apply Hp. }
  revert Hok. unfold apply_candidate. rewrite decide_plain. unfold expected, acts in *. destruct (action c) eqn:Ea; cbn in *.
  - destruct (normalize_tokens _ _ _ _) as [[name err]|tokens] eqn:Et.
    { intros _. split; [done|]. intros _ [? ?]; done. }
    destruct (row_runs e _) eqn:Er; cbn [negb]; [|intros _; split; [done|]; intros Hr; by rewrite Hr in Er].
    intros (Hok & _). split; [|done]. destruct Hw as [W1 (more & W2 & W3) W4].
    assert (ident (imported_row (next_id t) c tokens (import_now e)) = (next_id t, candidate_chatgpt_account_id c)) as Ei.
    { destruct tokens as [[? ?] ?]. unfold ident, imported_row. cbn [id chatgpt_account_id].
      rewrite (candidate_account _ _ Hc). by rewrite normalize_identity_trim. }
    assert (idents (insert_account (imported_row (next_id t) c tokens (import_now e)) t) =
      idents t ++ [(next_id t, candidate_chatgpt_account_id c)]) as Eids.
    { unfold idents. cbn [insert_account rows]. rewrite fmap_app. cbn. by rewrite Ei. }
    split; [done| |].
    + exists (more ++ [(next_id t, candidate_chatgpt_account_id c)]). rewrite Eids, W2, app_assoc. split; [done|].
      apply Forall_app. split; [eapply Forall_impl; [exact W3|]; intros p Hp a E; right; by apply Hp|].
      constructor; [|done]. cbn. intros a E. destruct (candidate_new _ _ Hc Ea a E) as [-> _]. left.
    + intros Hnd. rewrite Eids, omap_snd_app. apply NoDup_app. destruct (candidate_chatgpt_account_id c) as [a|] eqn:Eacc; [|split_and!; [by apply W4|by intros ? _ ?%elem_of_nil|constructor]].
      split_and!; [by apply W4| |apply NoDup_singleton]. intros a' Hin ->%list_elem_of_singleton. apply in_omap_snd in Hin as [i Hi].
      destruct (candidate_new _ _ Hc Ea a Eacc) as [Hk Hn]. rewrite W2 in Hi. apply elem_of_app in Hi as [Hi|Hi]; [by eapply Hn|].
      rewrite Forall_forall in W3. apply Hd; [done|]. rewrite Hk. by apply (W3 _ Hi).
  - destruct (normalize_tokens _ _ _ _) as [[name err]|tokens] eqn:Et.
    { intros _. split; [done|]. intros _ [? ?]; done. }
    destruct (candidate_matched _ _ Hc Ea) as [i Hi]. rewrite (bool_decide_false (kUpdate = kNew)) by done. rewrite Hi.
    destruct (row_runs e _) eqn:Er; cbn [negb]; [|intros _; split; [done|]; intros Hr; by rewrite Hr in Er].
    destruct Hw as [W1 (more & W2 & W3) W4].
    assert (idents t0 `prefix_of` idents t) as Hpre by (exists more; done).
    pose proof (update_idents cols c tokens (import_now e) i t t0 W1 Hpre Hc Hi) as Hids.
    assert (exists r, r ∈ rows t /\ Accounts.has_id i r = true) as (r & Hr & Hrid).
    { destruct (candidate_update _ _ Hc i Hi) as [Hin _]. rewrite ids_of_idents in Hin.
      assert (i ∈ fst <$> idents t) as Hin' by (rewrite W2, fmap_app; apply elem_of_app; by left).
      rewrite <- ids_of_idents in Hin'. apply list_elem_of_fmap in Hin' as (r & -> & Hr). exists r. split; [done|]. apply Z.eqb_refl. }
    pose proof (update_changes (Accounts.has_id i) (updated_row cols c tokens (import_now e)) t r Hr Hrid) as Hch.
    destruct (update_where _ _ t) as [changes t'] eqn:Eu. cbn [fst snd] in *. rewrite Hch. intros (Hok & _). split; [|done].
    split; [done| |by rewrite Hids]. exists more. rewrite Hids. split; [done|].
    eapply Forall_impl; [exact W3|]. intros p Hp a E. right. by apply Hp.
  - intros _. split; [done|]. by intros _ _.
  - intros _. split; [done|]. by intros _ _.
Qed.

(** The totals of a list of outcomes. *)
Definition tally_all (os : list Outcome) (n : SqlImportApplyTotals) : SqlImportApplyTotals := foldl (fun n o => tally o n) n os.

Lemma apply_candidates_way e nonce cols key cs n said t0 t keys :
  Forall (candidate_ok t0) cs -> Forall (fun c => source_quotas_ok (source_row c)) cs -> on_the_way t0 t keys ->
  Forall (fun c => acts c = true -> dedupe_key c ∉ keys) cs -> NoDup (dedupe_key <$> filter (fun c => acts c = true) cs) ->
  let '(n', _, t') := apply_candidates crypto e nonce cols key [] cs n said t in
  (exists keys', on_the_way t0 t' keys') /\
  ((forall row_id, row_runs e row_id = true) ->
   Forall (fun c => acts c = true -> exists tokens, normalize_tokens crypto (nonce (source_row_id (source_row c))) (source_row c) key = inr tokens) cs ->
   n' = tally_all (expected <$> cs) n).
Proof.
  revert n said t keys. induction cs as [|c cs IH]; intros n said t keys Hc Hq Hw Hk Hd; cbn [apply_candidates].
  { split; [by exists keys|done]. }
  apply Forall_cons in Hc as [Hc Hcs]. apply Forall_cons in Hq as [Hq Hqs]. apply Forall_cons in Hk as [Hk Hks].
  pose proof (apply_candidate_way e nonce cols key c t0 t keys Hc Hq Hw Hk) as Hstep.
  destruct (apply_candidate _ _ _ _ _ _ _ _) as [[o more] t1]. destruct Hstep as [Hw1 Ho].
  assert (NoDup (dedupe_key <$> filter (fun c => acts c = true) cs) /\
    Forall (fun c' => acts c' = true -> dedupe_key c' ∉ (if acts c then dedupe_key c :: keys else keys)) cs) as [Hd' Hks'].
  { rewrite filter_cons in Hd. destruct (decide (acts c = true)) as [E|E].
    - rewrite E. rewrite fmap_cons in Hd. apply NoDup_cons in Hd as [Hn Hd]. split; [done|]. rewrite Forall_forall in Hks |- *.
      intros c' Hin Ha. apply not_elem_of_cons. split; [|by apply Hks]. intros Eq. apply Hn. rewrite <- Eq. apply list_elem_of_fmap.
      exists c'. split; [done|]. by apply list_elem_of_filter.
    - apply not_true_is_false in E. rewrite E. by split. }
  specialize (IH (tally o n) (said ++ more) t1 _ Hcs Hqs Hw1 Hks' Hd').
  destruct (apply_candidates _ _ _ _ _ _ _ _ _ _) as [[n' said'] t2]. destruct IH as [I1 I2]. split; [done|].
  intros Hr [Ht Hts]%Forall_cons. rewrite (I2 Hr Hts), (Ho Hr Ht). done.
Qed.

(** An import that overrides nothing makes no second account of one
    that is there or of one it has just made: where no two accounts have one
    identifier at the provider, none have afterwards. *)
Theorem import_makes_no_twin e nonce r t :
  table_ok strict t -> request_overrides r = [] -> NoDup (omap snd (idents t)) ->
  NoDup (omap snd (idents (apply_sqlite_import crypto e nonce r t).2)).
Proof.
  intros H Ho Hd. unfold apply_sqlite_import. destruct (begin_import crypto e nonce r t) as [refused|p] eqn:E; [done|].
  destruct (negb (resolved e)); [done|]. destruct (_ || _); [done|].
  destruct (begin_import_ok _ _ _ _ _ E) as (without & Hs & Hc & _).
  destruct (make_candidates_ok nonce (columns (source_snapshot p)) t without (normalize_source_key (request_source_encryption_key r)) ∅
    (source_rows (source_snapshot p))) as (Hrows & Hok & Hkeys & Hdistinct & _). rewrite <- Hc in *.
  pose proof (apply_candidates_way e nonce (columns (source_snapshot p)) (normalize_source_key (request_source_encryption_key r))
    (candidates p) (mkApplyTotals (size_of (candidates p)) 0 0 0 0 0) (warnings p) t t []) as Ha.
  rewrite Ho. destruct (apply_candidates _ _ _ _ _ _ _ _ _ _) as [[n said] t'].
  destruct Ha as [[keys Hw] _]; [done|apply (Forall_fmap source_row source_quotas_ok); by rewrite Hrows| | |done|].
  - split; [done| |done]. exists []. split; [by rewrite app_nil_r|constructor].
  - eapply Forall_impl; [exact Hkeys|]. intros c _ _. apply not_elem_of_nil.
  - destruct (negb (commits e)); [done|]. by apply (way_distinct _ _ _ Hw).
Qed.

Lemma tally_all_counts cs n :
  let n' := tally_all (expected <$> cs) n in
  applied_scanned n' = applied_scanned n /\ inserted n' = inserted n + count_action kNew cs /\ updated n' = updated n + count_action kUpdate cs /\
  skipped n' = skipped n + count_action kSkip cs /\ invalid n' = invalid n + count_action kInvalid cs /\ import_failed n' = import_failed n.
Proof.
  cbv zeta. revert n. induction cs as [|c cs IH]; intros n.
  { unfold count_action. cbn. rewrite !Z.add_0_r. by split_and!. }
  rewrite fmap_cons. unfold tally_all in *. cbn [foldl]. destruct (IH (tally (expected c) n)) as (I1 & I2 & I3 & I4 & I5 & I6).
  rewrite I1, I2, I3, I4, I5, I6. unfold count_action, expected. rewrite !filter_cons.
  destruct (action c); repeat case_decide; try done; rewrite ?size_of_cons; cbn [tally applied_scanned inserted updated skipped invalid import_failed];
    split_and!; lia.
Qed.

Lemma validate_row nonce key c : source_row (validate_candidate_tokens_for_preview crypto nonce key c) = source_row c.
Proof. unfold validate_candidate_tokens_for_preview. repeat case_match; done. Qed.

Lemma make_candidate_row cols row index without seen : source_row (make_candidate cols row index without seen).1 = row.
Proof. unfold make_candidate. repeat case_match; unfold match_candidate; cbn; by repeat case_match. Qed.

(** A row that is to be imported has tokens that can be stored, unless only the
    key is missing. *)
Lemma validate_tokens nonce key c :
  is_Some key \/ row_requires_source_encryption_key (source_row c) = false ->
  let c' := validate_candidate_tokens_for_preview crypto nonce key c in
  acts c' = true -> exists tokens, normalize_tokens crypto nonce (source_row c') key = inr tokens.
Proof.
  intros Hk. unfold validate_candidate_tokens_for_preview. destruct (_ || _) eqn:Ea.
  { unfold acts. apply orb_true_iff in Ea as [E%bool_decide_eq_true|E%bool_decide_eq_true]; by rewrite E. }
  destruct (bool_decide (key = None) && _) eqn:Er.
  { apply andb_true_iff in Er as [->%bool_decide_eq_true Er]. rewrite Er in Hk. by destruct Hk as [[? ?]|]. }
  destruct (normalize_tokens _ _ _ _) as [[name err]|tokens] eqn:Et; [done|]. intros _. by exists tokens.
Qed.

Lemma make_candidates_tokens nonce cols index without key seen rs :
  is_Some key \/ existsb row_requires_source_encryption_key rs = false ->
  Forall (fun c => acts c = true ->
      exists tokens, normalize_tokens crypto (nonce (source_row_id (source_row c))) (source_row c) key = inr tokens)
    (make_candidates crypto nonce cols index without key seen rs).
Proof.
  revert seen. induction rs as [|row rs IH]; intros seen Hk; [constructor|]. cbn [make_candidates].
  pose proof (make_candidate_row cols row index without seen) as Hrow.
  destruct (make_candidate _ _ _ _ _) as [c seen']. cbn in Hrow. subst row. constructor.
  - intros Ha. destruct (validate_tokens (nonce (source_row_id (source_row c))) key c) as [tokens Ht]; [|done|].
    + destruct Hk as [|E%orb_false_iff]; [by left|right; apply E].
    + exists tokens. by rewrite !validate_row in Ht |- *.
  - apply IH. destruct Hk as [|E%orb_false_iff]; [by left|right; apply E].
Qed.

(** *** The accounts after an import *)

(** What the source says of a field, where it has the column and a value. *)
Definition over {A} (has : bool) (value current : option A) : option A :=
  if has && bool_decide (is_Some value) then value else current.

Section effect.
Context (nonce : bytes -> nat -> bytes) (cols : SqlImportSourceColumns) (key : option bytes) (now : Z).

(** The tokens of a row as they are stored. *)
Definition stores (c : ImportCandidate) (access refresh id_token : option bytes) : Prop :=
  normalize_tokens crypto (nonce (source_row_id (source_row c))) (source_row c) key = inr (access, refresh, id_token).

(** A new account holds what the row says. *)
Record introduces (c : ImportCandidate) (r : AccountRow) : Prop := {
  new_email : email r = candidate_email c;
  new_provider : provider r = candidate_provider c;
  new_chatgpt : chatgpt_account_id r = candidate_chatgpt_account_id c;
  new_plan : plan_type r = candidate_plan_type c;
  new_tokens : stores c (access_token_encrypted r) (refresh_token_encrypted r) (id_token_encrypted r);
  new_status : status r = status_insert c;
  new_quotas : (quota_primary_percent r, quota_secondary_percent r, quota_primary_limit_window_seconds r,
      quota_secondary_limit_window_seconds r, quota_primary_reset_at_ms r, quota_secondary_reset_at_ms r) =
    let row := source_row c in
    (source_primary_percent row, source_secondary_percent row, source_primary_window row, source_secondary_window row,
      source_primary_reset row, source_secondary_reset row);
  new_pin : pinned r = false;
}.

(** An account that is updated takes what the row has, keeps the rest, and
    loses its pin with its activity. *)
Record overwrites (c : ImportCandidate) (r r' : AccountRow) : Prop := {
  over_id : id r' = id r;
  over_email : email r' = over (has_email cols) (candidate_email c) (email r);
  over_provider : provider r' = over (has_provider cols) (candidate_provider c) (provider r);
  over_chatgpt : chatgpt_account_id r' = over (has_chatgpt_account_id cols) (candidate_chatgpt_account_id c) (chatgpt_account_id r);
  over_plan : plan_type r' = over (has_plan_type cols) (candidate_plan_type c) (plan_type r);
  over_tokens : exists access refresh id_token, stores c access refresh id_token /\
    access_token_encrypted r' = over (has_access_token_encrypted cols) access (access_token_encrypted r) /\
    refresh_token_encrypted r' = over (has_refresh_token_encrypted cols) refresh (refresh_token_encrypted r) /\
    id_token_encrypted r' = over (has_id_token_encrypted cols) id_token (id_token_encrypted r);
  over_status : Some (status r') = over (has_status cols) (status_update c) (Some (status r));
  over_quotas : let row := source_row c in
    quota_primary_percent r' = over (has_quota_primary_percent cols) (source_primary_percent row) (quota_primary_percent r) /\
    quota_secondary_percent r' = over (has_quota_secondary_percent cols) (source_secondary_percent row) (quota_secondary_percent r) /\
    quota_primary_limit_window_seconds r' =
      over (has_quota_primary_limit_window_seconds cols) (source_primary_window row) (quota_primary_limit_window_seconds r) /\
    quota_secondary_limit_window_seconds r' =
      over (has_quota_secondary_limit_window_seconds cols) (source_secondary_window row) (quota_secondary_limit_window_seconds r) /\
    quota_primary_reset_at_ms r' = over (has_quota_primary_reset_at_ms cols) (source_primary_reset row) (quota_primary_reset_at_ms r) /\
    quota_secondary_reset_at_ms r' =
      over (has_quota_secondary_reset_at_ms cols) (source_secondary_reset row) (quota_secondary_reset_at_ms r);
  over_pin : pinned r' = pinned r && bool_decide (status r' = $"active");
}.

Definition aims_at (c : ImportCandidate) (r : AccountRow) : Prop := action c = kUpdate /\ destination_account_id c = Some (id r).

(** An account that was there takes the updates that are for it, in their
    order, and no other change. *)
Inductive rewritten : list ImportCandidate -> AccountRow -> AccountRow -> Prop :=
| rewritten_nil r : rewritten [] r r
| rewritten_other c cs r r' : ~ aims_at c r -> rewritten cs r r' -> rewritten (c :: cs) r r'
| rewritten_update c cs r r1 r' : aims_at c r -> overwrites c r r1 -> rewritten cs r1 r' -> rewritten (c :: cs) r r'.

Lemma included_over {A} has (value current : option A) : included has value current = over has value current.
Proof. by destruct has, value. Qed.

Lemma imported_introduces i c access refresh id_token :
  stores c access refresh id_token -> introduces c (imported_row i c (access, refresh, id_token) now).
Proof. intros H. by split. Qed.

Lemma updated_overwrites c access refresh id_token r :
  stores c access refresh id_token -> overwrites c r (updated_row cols c (access, refresh, id_token) now r).
Proof.
  intros H. unfold updated_row. split; cbn [id email provider chatgpt_account_id plan_type access_token_encrypted refresh_token_encrypted
    id_token_encrypted status quota_primary_percent quota_secondary_percent quota_primary_limit_window_seconds
    quota_secondary_limit_window_seconds quota_primary_reset_at_ms quota_secondary_reset_at_ms]; try apply included_over; [done|..].
  - exists access, refresh, id_token. split; [exact H|]. by rewrite !included_over.
  - rewrite included_over. unfold over. destruct (has_status cols); [|done]. by destruct (status_update c).
  - by rewrite !included_over.
  - unfold pinned. cbn [routing_pinned]. case_bool_decide; [by rewrite andb_true_r|by rewrite andb_false_r].
Qed.

Lemma update_split p f base more n :
  Forall (fun r => p r = false) more ->
  rows (update_where p f (mkAccounts (base ++ more) n)).2 = ((fun r => if p r then f r else r) <$> base) ++ more.
Proof.
  intros Hm. unfold update_where. cbn [snd rows]. rewrite fmap_app. f_equal.
  induction Hm as [|r more E _ IH]; [done|]. by rewrite fmap_cons, IH, E.
Qed.

Lemma rewritten_others c cs rs rs' :
  Forall (fun r => ~ aims_at c r) rs -> Forall2 (rewritten cs) rs rs' -> Forall2 (rewritten (c :: cs)) rs rs'.
Proof. intros Ho H. induction H; [constructor|]. inversion Ho; subst. constructor; [by apply rewritten_other|auto]. Qed.

Lemma not_updating c rs : action c <> kUpdate -> Forall (fun r => ~ aims_at c r) rs.
Proof. intros H. apply Forall_forall. by intros r _ [? _]. Qed.

Lemma apply_candidates_rows e cs n said base more next :
  import_now e = now -> (forall row_id, row_runs e row_id = true) ->
  Forall (fun c => acts c = true -> exists tokens, normalize_tokens crypto (nonce (source_row_id (source_row c))) (source_row c) key = inr tokens) cs ->
  Forall (fun c => action c = kUpdate -> exists i, destination_account_id c = Some i /\ i ∈ (id <$> base)) cs ->
  NoDup (id <$> base) -> Forall (fun r => id r < next) base -> Forall (fun r => id r ∉ (id <$> base)) more ->
  exists kept added,
    rows (apply_candidates crypto e nonce cols key [] cs n said (mkAccounts (base ++ more) next)).2 = kept ++ more ++ added /\
    Forall2 (rewritten cs) base kept /\ Forall2 introduces (filter (fun c => action c = kNew) cs) added.
Proof.
  intros Hnow Hr. revert n said base more next. induction cs as [|c cs IH]; intros n said base more next Ht Hu Hd Hb Hm; cbn [apply_candidates].
  { exists base, []. rewrite app_nil_r. split_and!; [done| |constructor]. apply Forall2_same_length_lookup_2; [done|].
    intros i x y Hx Hy. simplify_eq. constructor. }
  apply Forall_cons in Ht as [Htc Hts]. apply Forall_cons in Hu as [Huc Hus]. rewrite filter_cons. unfold apply_candidate. rewrite decide_plain.
  assert (action c = kNew \/ action c = kUpdate -> exists a f i, stores c a f i) as Hst.
  { intros Ha. destruct Htc as [[[a f] i] E]; [|by exists a, f, i]. unfold acts. destruct Ha as [-> | ->]; done. }
  destruct (action c) eqn:Ea.
  - destruct Hst as (a & f & i & Hst); [by left|]. rewrite Hst. rewrite bool_decide_true by done. rewrite Hr. cbn [negb].
    change (insert_account ?x (mkAccounts ?l next)) with (mkAccounts (l ++ [x]) (next + 1)). rewrite <- app_assoc. cbn [next_id].
    set (x := imported_row next c (a, f, i) (import_now e)).
    destruct (IH (tally Inserted n) (said ++ []) base (more ++ [x]) (next + 1) Hts Hus Hd) as (kept & added & E & H1 & H2).
    { eapply Forall_impl; [exact Hb|]. cbn. lia. }
    { apply Forall_app. split; [done|]. apply Forall_singleton. change (id x) with next. intros (r & -> & Hin)%list_elem_of_fmap.
      rewrite Forall_forall in Hb. specialize (Hb r Hin). lia. }
    exists kept, (x :: added). rewrite E, <- (app_assoc more). split; [done|]. split.
    + apply rewritten_others; [|done]. apply not_updating. by rewrite Ea.
    + rewrite decide_True by done. constructor; [|done]. subst x. rewrite Hnow. by apply imported_introduces.
  - destruct Hst as (a & f & i & Hst); [by right|]. rewrite Hst. rewrite bool_decide_false by done. rewrite decide_False by done.
    destruct (Huc eq_refl) as (k & Hk & Hin). rewrite Hk, Hr. cbn [negb].
    apply list_elem_of_fmap in Hin as (r0 & Ek & Hr0).
    pose proof (update_changes (Accounts.has_id k) (updated_row cols c (a, f, i) (import_now e)) (mkAccounts (base ++ more) next) r0) as Hch.
    pose proof (update_split (Accounts.has_id k) (updated_row cols c (a, f, i) (import_now e)) base more next) as Hsp.
    assert (next_id (update_where (Accounts.has_id k) (updated_row cols c (a, f, i) (import_now e)) (mkAccounts (base ++ more) next)).2 = next) as Hnx by done.
    destruct (update_where _ _ _) as [changes [rs' nx]]. cbn [fst snd rows next_id] in *. subst nx.
    rewrite Hch; [|apply elem_of_app; by left|subst k; apply Z.eqb_refl]. rewrite Hsp.
    2:{ eapply Forall_impl; [exact Hm|]. intros r Hne. apply Z.eqb_neq. intros E. apply Hne. rewrite E, Ek. by apply list_elem_of_fmap_2. }
    set (g := fun r => if Accounts.has_id k r then _ else r).
    assert (forall r, id (g r) = id r) as Hg by (intros r; unfold g; by destruct (Accounts.has_id k r)).
    assert (id <$> (g <$> base) = id <$> base) as Hids by (rewrite <- list_fmap_compose; apply list_fmap_ext; intros; apply Hg).
    destruct (IH (tally Updated n) (said ++ []) (g <$> base) more next Hts) as (kept & added & E & H1 & H2).
    { by rewrite Hids. }
    { by rewrite Hids. }
    { apply Forall_fmap. eapply Forall_impl; [exact Hb|]. intros r. cbn. by rewrite Hg. }
    { by rewrite Hids. }
    exists kept, added. split; [exact E|]. split; [|done]. rewrite Forall2_fmap_l in H1. eapply Forall2_impl; [exact H1|].
    intros r r' H. cbn in H. unfold g in H. destruct (Accounts.has_id k r) eqn:Eh.
    + apply Z.eqb_eq in Eh. eapply rewritten_update; [split; [done|congruence]|rewrite Hnow in H; by apply updated_overwrites|by rewrite <- Hnow].
    + apply Z.eqb_neq in Eh. apply rewritten_other; [|done]. intros [_ E']. congruence.
  - rewrite decide_False by done. destruct (IH (tally Skipped n) (said ++ []) base more next Hts Hus Hd Hb Hm) as (kept & added & E & H1 & H2).
    exists kept, added. split_and!; [exact E| |done]. apply rewritten_others; [|done]. apply not_updating. by rewrite Ea.
  - rewrite decide_False by done. destruct (IH (tally Invalid n) (said ++ []) base more next Hts Hus Hd Hb Hm) as (kept & added & E & H1 & H2).
    exists kept, added. split_and!; [exact E| |done]. apply rewritten_others; [|done]. apply not_updating. by rewrite Ea.
Qed.

End effect.

(** The tokens of every candidate that is acted on can be stored, and an update
    is for an account that is there. *)
Lemma begun_candidates e nonce r t p :
  begin_import crypto e nonce r t = inr p ->
  let key := normalize_source_key (request_source_encryption_key r) in
  (requires_source_encryption_key p = true -> is_Some key) ->
  Forall (fun c => acts c = true ->
      exists tokens, normalize_tokens crypto (nonce (source_row_id (source_row c))) (source_row c) key = inr tokens) (candidates p) /\
  Forall (fun c => action c = kUpdate -> exists i, destination_account_id c = Some i /\ i ∈ (id <$> rows t)) (candidates p).
Proof.
  intros E key Hkey. destruct (begin_import_ok _ _ _ _ _ E) as (without & Hs & Hc & Hreq & _). fold key in Hc.
  destruct (make_candidates_ok nonce (columns (source_snapshot p)) t without key ∅ (source_rows (source_snapshot p))) as (_ & Hok & _).
  rewrite <- Hc in Hok. split.
  - rewrite Hc. apply make_candidates_tokens. destruct (requires_source_encryption_key p) eqn:Er; [left; by apply Hkey|right; congruence].
  - eapply Forall_impl; [exact Hok|]. intros c H Ha. destruct (candidate_matched _ _ H Ha) as [i Hi]. exists i. split; [done|].
    by apply (candidate_update _ _ H i Hi).
Qed.

(** What is shown is what is done: with the key it asks for, no override and
    every statement running, an import reports for each row what its preview
    says, and does it.  Behind the accounts that were there stand, for the rows
    shown as new and in their order, accounts with the address, provider,
    identifier, plan, status, quotas and tokens of the row; of those that were
    there, each takes what the rows shown as updates of it have, and no other
    changes. (C31) *)
Theorem import_does_what_preview_shows e nonce r t :
  table_ok strict t -> request_overrides r = [] -> commits e = true -> begins e = true -> prepares e = true -> resolved e = true ->
  (forall row_id, row_runs e row_id = true) ->
  let '(answer, t') := apply_sqlite_import crypto e nonce r t in
  match preview_sqlite_import crypto e nonce r t, answer with
  | inl refused, inl refused' => refused = refused' /\ t' = t
  | inr shown, inr p =>
      let key := normalize_source_key (request_source_encryption_key r) in
      (preview_requires_key shown = true -> is_Some key) ->
      (let n := apply_totals p in let v := preview_totals shown in
       applied_scanned n = preview_scanned v /\ inserted n = new_count v /\ updated n = update_count v /\ skipped n = skip_count v /\
       invalid n = invalid_count v /\ import_failed n = 0) /\
      exists prepared kept added, begin_import crypto e nonce r t = inr prepared /\
        preview_rows shown = preview_row <$> candidates prepared /\ rows t' = kept ++ added /\
        Forall2 (rewritten nonce (columns (source_snapshot prepared)) key (candidates prepared)) (rows t) kept /\
        Forall2 (introduces nonce key) (filter (fun c => action c = kNew) (candidates prepared)) added
  | _, _ => False
  end.
Proof.
  intros H Ho Hcm Hb Hp Hrs Hr. unfold preview_sqlite_import, apply_sqlite_import.
  destruct (begin_import crypto e nonce r t) as [refused|p] eqn:E; [done|]. rewrite Hcm, Hb, Hp, Hrs. cbn [negb orb].
  pose proof (begun_candidates e nonce r t p E) as Hbegun. destruct (begin_import_ok _ _ _ _ _ E) as (without & Hs & Hc & _ & _).
  set (key := normalize_source_key (request_source_encryption_key r)) in *.
  destruct (make_candidates_ok nonce (columns (source_snapshot p)) t without key ∅ (source_rows (source_snapshot p)))
    as (Hrows & Hok & Hkeys & Hdistinct & _). rewrite <- Hc in Hrows, Hok, Hkeys, Hdistinct.
  pose proof (apply_candidates_way e nonce (columns (source_snapshot p)) key
    (candidates p) (mkApplyTotals (size_of (candidates p)) 0 0 0 0 0) (warnings p) t t []) as Ha.
  pose proof (apply_candidates_rows nonce (columns (source_snapshot p)) key (import_now e) e (candidates p)
    (mkApplyTotals (size_of (candidates p)) 0 0 0 0 0) (warnings p) (rows t) [] (next_id t) eq_refl Hr) as He.
  rewrite app_nil_r in He. replace (mkAccounts (rows t) (next_id t)) with t in He by by destruct t.
  rewrite Ho. destruct (apply_candidates _ _ _ _ _ _ _ _ _ _) as [[n said] t']. intros Hkey. destruct (Hbegun Hkey) as [Htok Hdest].
  destruct Ha as [_ Hn]; [done|apply (Forall_fmap source_row source_quotas_ok); by rewrite Hrows| | |done|].
  - split; [done| |done]. exists []. split; [by rewrite app_nil_r|constructor].
  - eapply Forall_impl; [exact Hkeys|]. intros c _ _. apply not_elem_of_nil.
  - split.
    + cbn. rewrite Hn by done.
      destruct (tally_all_counts (candidates p) (mkApplyTotals (size_of (candidates p)) 0 0 0 0 0)) as (-> & -> & -> & -> & -> & ->).
      cbn. split_and!; lia.
    + destruct H as [Hw _]. destruct He as (kept & added & Ek & H1 & H2); [done|done|apply Hw| |constructor|by exists p, kept, added].
      eapply Forall_impl; [apply Hw|]. cbn. lia.
Qed.

End import.

(** ** Examples *)

Definition blank_evp : Evp := {|
  hmac_sha256 _ _ := None; evp_cipher_ctx_new := true; evp_decrypt_init _ _ := false; evp_decrypt _ _ _ := None;
|}.

(** A table of the columns named, whose cells are text. *)
Definition source_cells (cells : list (bytes * bytes)) (name : bytes) : SqliteValue :=
  match filter (fun cell => cell.1 = name) cells with cell :: _ => VText cell.2 | [] => VNull end.

Definition source_file (names : list bytes) (cells : list (list (bytes * bytes))) : SourceFile := {|
  file_is_path := true; file_absolute := true; file_exists := true; file_regular := true; file_open _ := None; file_plaintext := true;
  file_schema _ := None; file_key _ := None; file_has_accounts := true; file_columns := Some names;
  file_count := Some (size_of cells); file_prepares := true; file_binds := true;
  file_rows := imap (fun i row => (Z.of_nat i + 1, source_cells row)) cells; file_ends := true; file_info := ($"/tmp/a.db", $"a.db", 4096, 0);
|}.

Definition sample_names : list bytes := [$"chatgpt_account_id"; $"email"; $"provider"; $"access_token_encrypted"].

Definition sample_import_env (f : SourceFile) : ImportEnv :=
  mkImportEnv true true true None true true true true (fun _ => true) 5000 no_override (fun _ => f).

Definition sample_request : ImportRequest := mkImportRequest $"/tmp/a.db" None None None [] 0.

Definition sample_source : SourceFile := source_file sample_names
  [[($"chatgpt_account_id", $"one"); ($"access_token_encrypted", $"t1")]; [($"chatgpt_account_id", $"three"); ($"access_token_encrypted", $"t3")];
   [($"chatgpt_account_id", $" three "); ($"access_token_encrypted", $"t4")]; [($"email", $"a@example.com")]].

Definition sample_nonce : bytes -> nat -> bytes := fun _ _ => repeat Byte.x01 24.

Lemma two_accounts_ok : table_ok true (table (admin_of two_accounts)).
Proof. split; [exact two_accounts_wf|]. repeat constructor; done. Qed.

Lemma import_all_or_nothing_witness :
  let '(answer, t') := @apply_sqlite_import hex_sodium blank_evp sample_crypto (sample_import_env sample_source) sample_nonce sample_request
    (table (admin_of two_accounts)) in
  match answer with
  | inl _ => False
  | inr p => outcomes (apply_totals p) = 4 /\ size_of (rows t') = 3
  end.
Proof.
  pose proof (@import_all_or_nothing hex_sodium blank_evp sample_crypto true (sample_import_env sample_source) sample_nonce sample_request
    (table (admin_of two_accounts)) two_accounts_ok) as H.
  destruct (apply_sqlite_import _ _ _ _ _) as [[refused|p] t'] eqn:E; vm_compute in E; [discriminate|].
  injection E as <- <-. destruct H as (_ & H1 & H2). split; [rewrite H1|rewrite H2]; by vm_compute.
Defined.

Lemma import_makes_no_twin_witness :
  NoDup (omap snd (idents (@apply_sqlite_import hex_sodium blank_evp sample_crypto (sample_import_env sample_source) sample_nonce
    sample_request (table (admin_of two_accounts))).2)) /\
  omap snd (idents (@apply_sqlite_import hex_sodium blank_evp sample_crypto (sample_import_env sample_source) sample_nonce
    sample_request (table (admin_of two_accounts))).2) = [$"one"; $"two"; $"three"].
Proof.
  split; [|by vm_compute]. apply (import_makes_no_twin _ true); [exact two_accounts_ok|done|]. apply (bool_decide_unpack _). by vm_compute.
Defined.

(** One row is a new account, behind the two that were there. *)
Lemma import_does_what_preview_shows_witness :
  let '(answer, t') := @apply_sqlite_import hex_sodium blank_evp sample_crypto (sample_import_env sample_source) sample_nonce sample_request
          (table (admin_of two_accounts)) in
  match @preview_sqlite_import hex_sodium blank_evp sample_crypto (sample_import_env sample_source) sample_nonce sample_request
          (table (admin_of two_accounts)), answer with
  | inr shown, inr p =>
      inserted (apply_totals p) = new_count (preview_totals shown) /\ new_count (preview_totals shown) = 1 /\
      exists kept added, rows t' = kept ++ added /\ length kept = 2%nat
  | _, _ => False
  end.
Proof.
  pose proof (@import_does_what_preview_shows hex_sodium blank_evp sample_crypto true (sample_import_env sample_source) sample_nonce sample_request
    (table (admin_of two_accounts)) two_accounts_ok eq_refl eq_refl eq_refl eq_refl eq_refl (fun _ => eq_refl)) as H.
  destruct (apply_sqlite_import _ _ _ _ _) as [answer t'] eqn:Ea.
  destruct (preview_sqlite_import _ _ _ _ _) as [|shown] eqn:Es; vm_compute in Es; [discriminate Es|].
  destruct answer as [|p]; [destruct H|]. injection Es as <-. destruct H as ((_ & H1 & _) & prepared & kept & added & _ & _ & H2 & H3 & _); [done|].
  split; [exact H1|]. split; [reflexivity|]. exists kept, added. split; [exact H2|]. by rewrite <- (Forall2_length _ _ _ H3).
Defined.

(** ** Where an import surprises *)

Definition preview_actions (f : SourceFile) (t : accounts_table) : list SqlImportAction :=
  match @preview_sqlite_import hex_sodium blank_evp sample_crypto (sample_import_env f) sample_nonce sample_request t with
  | inl _ => []
  | inr shown => row_action <$> preview_rows shown
  end.

(** A row without tokens uses up its account: a second row of the account that
    has tokens is skipped as its duplicate, and the account is not imported. *)
Lemma invalid_row_hides_valid_one :
  preview_actions (source_file sample_names [[($"chatgpt_account_id", $"one")]; [($"chatgpt_account_id", $"one"); ($"access_token_encrypted", $"t")]])
    empty_accounts = [kInvalid; kSkip] /\
  preview_actions (source_file sample_names [[($"chatgpt_account_id", $"one"); ($"access_token_encrypted", $"t")]; [($"chatgpt_account_id", $"one")]])
    empty_accounts = [kNew; kSkip].
Proof. split; by vm_compute. Qed.

(** An account that is known by its address only is not found for a row that
    also has an identifier: importing it makes a second account of one address. *)
Lemma identifier_hides_address :
  let t := mkAccounts [mkAccountRow 1 (Some $"a@example.com") (Some $"openai") None None None None None None $"active"
    None None None None None None None 0 0] 2 in
  let f := source_file sample_names
    [[($"chatgpt_account_id", $"one"); ($"email", $"a@example.com"); ($"provider", $"openai"); ($"access_token_encrypted", $"t")]] in
  preview_actions f t = [kNew] /\
  email <$> rows (@apply_sqlite_import hex_sodium blank_evp sample_crypto (sample_import_env f) sample_nonce sample_request t).2 =
    [Some $"a@example.com"; Some $"a@example.com"].
Proof. split; by vm_compute. Qed.
